(* ===== verification/_CoqProject ===== *)
-Q . S2P
Prelude.v
CLib.v
HIndex.v
Utf8.v
TaskDesc.v
Uuid.v
Strings.v
RegexParse.v
RegexCompile.v
RegexSyntax.v
Regex.v
IpcBackoff.v
CancelToken.v
Dispatcher.v
Breaker.v
Cache.v
Svc.v
ConfigCore.v
ConfigJson.v
ConfigIni.v
Yaml.v
YamlSafe.v
YamlTotal.v
YamlDoc.v
ConfigYaml.v
ConfigSource.v
Decimal.v
Keyed.v
Sanitizer.v
Sd.v
SdBalance.v
SdSpec.v
SdChecks.v
SdHelper.v
ThreadPool.v
HallEvent.v
Token.v
AirId.v
Alerts.v
OutBuf.v
Metrics.v
Trace.v
ErrCodes.v
Errors.v
CpText.v
Checkpoint.v
Ime.v
EventLoop.v
Ext.v
Memory.v
Network.v
WallClock.v
Paths.v
Process.v
Logging.v
Prealloc.v
Request.v
