(* ===== verification/Prelude.v ===== *)
(** * Airymax commons: a verification library

    commons is the foundation library of the Airymax runtime, a C library of
    loosely coupled utility modules built into one static archive.  This
    library models the modules that carry its own algorithms and state
    machines, from the C sources, and proves what makes them correct.

    ** Parts and files

    Each file models the sources it names; definitions keep the names of the C
    functions, structures and constants.

    - [Prelude] (this file): machine integers, C strings, formatted output,
      error codes, the lemmas and tactics shared by the other files.
    - [HIndex], utils/ds/hindex.c: the open-addressing index from strings to
      positions (djb2, linear probing, tombstones, compaction at three quarters
      of the load).  State: the slots and three counters.
    - [Utf8], utils/string/safe_utf8.c: decoding, validation, cutting and
      sanitising of UTF-8.
    - [TaskDesc], utils/task/task_desc.c: the 128-byte task descriptor and its
      CRC-32.
    - [Uuid], utils/uuid/uuid_generator.c: making, printing, checking and reading
      UUIDs.
    - [Strings], utils/string/safe_string_utils.c and text_utils.c: bounded
      copies into buffers, and search, similarity and keywords of texts.
    - [IpcBackoff], utils/ipc/ipc_backoff.c: exponential back-off and windows of
      aggregated failures.
    - [CancelToken], utils/sync/cancel_token.c: cancellation with callbacks and
      waiting.
    - [Dispatcher], utils/ipc/method_dispatcher.c, param_validator.c and the
      request half of jsonrpc_helpers.c: the table of JSON-RPC methods and the
      checks a request goes through before a handler is called.
    - [Breaker], utils/ipc/circuit_breaker.c: circuit breakers with their
      windows, rates, statistics and notifications, and the manager that owns
      them.
    - [Cache], utils/cache/cache_common.c: the LRU cache with time to live, at
      the level of its pointers.
    - [Svc], utils/svc/svc_common.c, svc_common_ops.c and svc_common_registry.c:
      services, their life cycle, the registry that links them and asynchronous
      requests.
    - [RegexParse], [RegexCompile], [RegexSyntax] and [Regex],
      utils/compat/airy_regex_parse.c, airy_regex_compile.c and airy_regex.c: the
      regular-expression engine.  The parser reads a pattern into a tree, the
      compiler turns the tree into instructions linked by pointers, and the
      machine runs them by backtracking; [RegexSyntax] has the expressions as a
      syntax with a printer and a language.
    - [CLib]: the parts of the C library that the readers use (classes of
      characters, [strtoll], correctly rounded [strtod], conversions of doubles).
    - [ConfigCore], utils/config_unified/core_config_value.c and core_config.c:
      configuration values, each owned once, and the contexts that hold them,
      over a heap and an allocator that may refuse, with a program logic for the
      heap.
    - [ConfigJson], [ConfigIni] and [ConfigYaml], utils/config_unified/
      config_parse_json.c, config_parse.c and config_parse_yaml.c: the readers
      that flatten a text into a context.
    - [Yaml], [YamlSafe], [YamlTotal] and [YamlDoc], utils/config_unified/
      yaml_minimal*.c: the YAML reader (lexer, node arena with anchors and merges,
      block and flow parsers), the invariant that its functions keep, the
      theorems on the parsers, and streams, scalar conversions and the writer.
    - [ConfigSource], utils/config_unified/config_source*.c and
      config_service*.c: environment and memory sources, schemas with defaults,
      and the service that loads them.
    - [Decimal], [Keyed] and [OutBuf] are shared: decimal texts and their
      values, arrays of records with a key as finite maps, and texts that grow
      by [snprintf] in an allocated buffer.
    - [Sanitizer], utils/security/log_sanitizer.c: masking of secrets in log
      lines.
    - [Sd], [SdBalance], [SdSpec], [SdChecks] and [SdHelper], utils/sd: the
      registry of services with the in-memory back end (operations, expiry,
      queries), load balancing, what the registry promises, dependencies and
      limits, and the registration of a daemon with its heartbeat.
    - [ThreadPool], utils/sync/thread_pool.c: the queue, the workers and the
      calls of clients, by critical sections.
    - [HallEvent], utils/hall/hall_event.c: names, numbers and files of events
      that several processes write.
    - [Token], utils/token: words, estimates, quotas and truncation of texts.
    - [AirId], utils/id/airy_id.c and utils/cognition/agent_vocab.c: identifiers
      and roles.
    - [Alerts], [Metrics] and [Trace], utils/observability/alert_manager.c,
      unified_metrics.c and trace.c: rules and alerts, metrics with their
      exports, and spans.
    - [ErrCodes] and [Errors], utils/error: the codes with their catalogue, and
      the chains of errors of threads.
    - [CpText] and [Checkpoint], utils/execution: the texts of checkpoints, and
      checkpoints, sessions and snapshots over a file system.
    - [Ime], utils/ime/airy_ime.c: the pinyin dictionary and its queries.
    - [EventLoop], utils/sync/airy_event_loop*.c and airy_event_timer.c: the
      event loop on Linux with its timers.
    - [Ext], utils/ext: the registry of extensions and providers.
    - [Memory] and [Prealloc], utils/memory: allocation with statistics and
      records of live blocks, and the emergency buffers.
    - [Network], utils/network: connections, HTTP requests and the pool.
    - [WallClock], platform/src/platform_time.c: the calendar, the wall clock,
      SNTP and the periodic synchronisation.
    - [Paths], platform/src/platform_paths.c: the directories of an installation
      and the cleaning of the temporary one, over a file system with links.
    - [Process], platform/src/platform_process.c and platform_pipe.c: children
      with pipes, waiting and captured output.
    - [Request], platform/src/platform_compat.c: a daemon reads one request from a
      connection that stays open.
    - [Logging], utils/logging: levels, filters, lines, files and their rotation.

    Most modules do not call each other: they return the error codes of the
    headers ([ErrCodes]) and allocate through the wrappers of utils/memory.  The
    calls that there are go through the files: the readers of configurations
    ([ConfigJson], [ConfigIni], [ConfigYaml]) write to the contexts of
    [ConfigCore] and [ConfigSource] loads them, [SdHelper] uses [Sd].  Where a
    module is handed functions by its caller, the model has a class with their
    contract ([Cache.CacheKey] for the hash and comparison of a cache, discharged
    by the string keys of the source; [SdSpec.PlainBackend] for a back end of service
    discovery that does not fail, discharged by the one in memory) or an
    interface to a library that is not part of the sources ([Dispatcher.CJson]
    for cJSON documents).

    ** How the code is modelled

    Integers are [Z] with the reduction to their width written out ([u8], [u32],
    [u64] and the signed readings); sizes that an allocation bounds are [nat].
    A string is the list of its bytes; a buffer that is written is the list of
    the bytes of its memory, and a write outside it is [None].  Pointers that
    are shared are keys of a heap ([gmap]); reaching a freed object is [None],
    and so is a walk that does not end, so that a theorem that a run returns a
    value says that neither happens.  What the code gets from outside (the
    answers of the allocator, of locks and of callbacks, the clock, random
    bytes) is an argument of the operation.  Operations that run under a lock
    are transitions, and a list of operations is an interleaving of the calls of
    several threads.  Doubles are the IEEE numbers of [SpecFloat].

    ** What is proved

    - Refinement.  The index behaves as a bounded finite map
      ([HIndex.hindex_refines_map]), the cache as a list of bindings ordered by
      use ([Cache.cache_refines_lru]), a breaker as the textbook three-state
      machine with its rates ([Breaker.breaker_refines_textbook]), the service registry as a
      list ([Svc.registry_refines_list]), service discovery as maps of services
      and instances whose instances expire ([SdSpec.sd_refines_maps]), alerts and
      metrics as finite maps ([Alerts.alerts_refine_maps],
      [Metrics.metrics_refine_maps]), extensions as a map without leaks
      ([Ext.extensions_refine_map]), checkpoints as a map from tasks and numbers
      that a failed save leaves alone and that survives a crash at any write
      ([Checkpoint.checkpoints_refine_map], [Checkpoint.save_atomic]), the event loop as the machine of its
      registrations ([EventLoop.event_loop_refines]), the log on disk as the end
      of one sequence of lines ([Logging.log_writes_exact]).  Each of these names
      the inputs and the answers of the system that it is about; what happens
      outside them is shown by lemmas at the end of the files (names that are cut,
      refused memory, full disks, functions that free too much).
    - Consequences of these machines for a caller: a half-open breaker admits
      exactly its quota ([Breaker.half_open_admits]); the functions of a service
      are called in the order of its life cycle ([Svc.svc_callback_protocol]);
      round robin is fair ([SdBalance.round_robin_fair]); and lemmas of the files
      on counters, thresholds, unique names, requests that complete once.
    - Concurrency.  Each task that the pool accepts runs exactly once, whatever
      the schedule ([ThreadPool.pool_exactly_once]), and a pool that goes on is
      drained ([ThreadPool.pool_drains]); numbers of events that several
      processes draw are unique ([HallEvent.gseq_unique]); timers that are due
      fire ([EventLoop.due_timers_fire]).  The first use of the wall clock by two
      threads is shown to give a wrong time ([WallClock.racing_thread_ahead]).
    - Resources.  The records and statistics of the memory layer agree with the
      heap ([Memory.memory_accounts]), chains of errors own their messages
      ([Errors.error_chain_exact]), a failed checkpoint leaves no block
      ([Checkpoint.create_memory]), the emergency buffers are allocated once and
      freed once ([Prealloc.prealloc_safe]), a captured command closes its
      descriptors and is waited for once ([Process.capture_exact]), and cleaning
      the temporary directory removes what is stale in it and nothing else
      ([Paths.cleanup_exact]).
    - Round trips and encodings: UTF-8 against the encoding of RFC 3629
      ([Utf8.utf8_validate_iff]; sanitising replaces exactly what is not an
      encoding and keeps what fits, [Utf8.utf8_sanitize_spec]; decoding is the
      inverse of encoding and cutting gives valid text), task descriptors
      ([TaskDesc.task_desc_create_validate]), UUIDs, identifiers, names of
      states, files of events, snapshots.  The CRC of an accepted descriptor
      detects every error burst within four bytes.
    - Bounds: string operations stay within their buffers and leave a string;
      the index compacts instead of failing as long as it has room; back-off
      delays are exact and capped.
    - Functional results: substring search ([Strings.text_icontains_iff]),
      similarity and truncation of texts
      against their definitions on lists; HTTP requests and responses byte for
      byte, however the system cuts them ([Network.http_exact]), and requests of
      daemons returned whole or refused for reasons that are told exactly
      ([Request.request_exact]); queries of the
      dictionary ([Ime.ime_query_exact]); the masking of secrets
      in lines of assignments ([Sanitizer.log_sanitize_masks]; other lines leak,
      [Sanitizer.log_sanitize_leaks]); day numbers against the calendar counted
      day by day ([WallClock.days_from_civil_counts]).
    - Configuration: contexts are association lists over every history and every
      behaviour of the allocator, without leaks or double frees
      ([ConfigCore.config_refines_maps]); JSON, INI and YAML texts become the
      assignments of their flattening ([ConfigJson.json_flattens],
      [ConfigIni.ini_reads], [ConfigYaml.config_yaml_flattens]), the readers
      return on any bytes, environments and defaults do what they promise, and
      loading a list of sources that can be read returns
      ([ConfigSource.config_service_loads]).
    - The YAML reader never leaves its arrays ([YamlTotal.yaml_parse_safe]) and
      returns on tame texts ([YamlTotal.yaml_parse_terminates]); texts on which it
      never returns are exhibited ([YamlTotal.yaml_crlf_dash_diverges]).  The
      writer is a cut reference printer ([YamlDoc.yaml_dump_cuts]).
    - The regular-expression engine, end to end: the parser reads printed
      expressions back ([Regex.parse_printed_language]), the search finds the
      leftmost match or none ([Regex.regexec_searches]), and for expressions
      whose loops read characters it decides the language
      ([Regex.regex_decides]).

    ** Bounds and fuel

    Loops over arrays and strings recurse on the list or on a counter that the
    code has (the probe sequences visit at most the capacity).  Walks along
    pointers take fuel: the number of objects in the heap, which is enough since
    a well-formed chain has no repetition (the refinement theorems prove that
    these walks return).  Evictions are bounded by the size of the cache, since
    each one frees an entry.
    The regular-expression parser recurses at most once per character; its
    compiler walks chains no longer than the program; the machine has 4096
    nested calls, each of which runs through an instruction at most once before
    the next, and its fuel is their product.
    The JSON reader recurses at most twice per byte.  The YAML parsers call one
    another: [YamlTotal] shows that 3 n + 2 nested calls and rounds are enough
    for a tame text of n bytes, and that no number is enough for some others; a
    copy of a node is no deeper than the arena, since children are younger than
    their parents.
    The sanitiser makes one round per byte, expiry one per service, an
    evaluation of alerts at most as many rounds as there are rules; the pool is
    drained within a budget that the theorem names.  Readers of texts have fuel
    for each byte and one more; a query of the dictionary halves the entries that
    are left.  Sending and receiving make at most as many rounds as the system
    gives answers, with its retries; a health check one per connection; reading a
    request as many as its budget has milliseconds.  A tree
    is removed with fuel for its depth, which the theorem bounds by the longest
    path; a line about the log itself is nested once, since the lock is then
    held.

    ** What is not modelled

    Operations of the system are arguments: their effect is described, not
    implemented.  The branches for Windows and macOS are left out, and so are the
    kqueue and IOCP event loops, the wrappers of locks, threads, sockets,
    sandboxes and dynamic libraries, name resolution, and the functions that
    only print.  Code that builds or reads cJSON documents (the file back end of
    service discovery, replies of daemons, classes of errors as JSON) is left
    out, since cJSON is not part of the sources.  The generated names of errors
    in other languages and the reports of the memory layer are texts without
    logic.  Memory is allocated or refused, not laid out, except where a function
    writes into a buffer.  The memory model is sequentially consistent: atomic
    accesses are single steps. *)
From Stdlib Require Export ZArith Lia.
From Stdlib Require Export SpecFloat.
From Stdlib Require Ascii String.
From stdpp Require Export base tactics list gmap numbers sorting.
Export String.StringSyntax.

Declare Scope c_scope.
Delimit Scope c_scope with c.
#[global] Open Scope Z_scope.

(** ** Machine integers *)

(** Reduction to the unsigned width of the C type. *)
Definition u8 (z : Z) : Z := z mod 2 ^ 8.
Definition u32 (z : Z) : Z := z mod 2 ^ 32.
Definition u64 (z : Z) : Z := z mod 2 ^ 64.

(** Two's complement reading of a byte and of a 64-bit word, as the
    conversions [(char)] and [(ssize_t)] do on the platforms of the build. *)
Definition s8 (z : Z) : Z := (z + 2 ^ 7) mod 2 ^ 8 - 2 ^ 7.
Definition s32 (z : Z) : Z := (z + 2 ^ 31) mod 2 ^ 32 - 2 ^ 31.
Definition s64 (z : Z) : Z := (z + 2 ^ 63) mod 2 ^ 64 - 2 ^ 63.

(** The conversion of an integer to [double], rounded to nearest even. *)
Definition of_int (z : Z) : spec_float := binary_normalize 53 1024 z 0 false.

(** ** Strings *)

(** A C string is the list of its bytes before the terminating NUL; a buffer
    is a list of bytes.  Bytes are integers between 0 and 255. *)
Abbreviation cstr := (list Z).

Definition is_byte (b : Z) : Prop := 0 <= b < 256.
Definition is_char (b : Z) : Prop := 0 < b < 256.

#[export] Instance is_byte_dec b : Decision (is_byte b).
Proof. unfold is_byte. apply _. Defined.
#[export] Instance is_char_dec b : Decision (is_char b).
Proof. unfold is_char. apply _. Defined.

(** The literals of the source. *)
Fixpoint cs (s : String.string) : cstr :=
  match s with
  | String.EmptyString => []
  | String.String c s' => Z.of_nat (Ascii.nat_of_ascii c) :: cs s'
  end.
Arguments cs s%_string_scope.

(** [tolower] in the C locale. *)
Definition tolower (b : Z) : Z := if (65 <=? b) && (b <=? 90) then b + 32 else b.

(** [printf]'s [%u], and [%d]: twenty digits are enough for 64 bits. *)
Fixpoint dec_digits (fuel : nat) (n : Z) : cstr :=
  match fuel with
  | O => []
  | S fuel' => (if n <? 10 then [] else dec_digits fuel' (n / 10)) ++ [48 + n mod 10]
  end.

Definition fmt_u (n : Z) : cstr := dec_digits 20 n.
Definition fmt_d (n : Z) : cstr := if n <? 0 then 45 :: dec_digits 20 (- n) else dec_digits 20 n.

(** What [snprintf] leaves in a buffer of [size] bytes: the text cut to
    [size - 1] characters; an empty buffer is not written. *)
Definition snprintf_into (size : nat) (old text : cstr) : cstr :=
  match size with O => old | S n => take n text end.

(** ** Error codes shared by the components (utils/error/error_codes.h,
    include/airy_types.h) *)
Definition AIRY_SUCCESS : Z := 0.
Definition AIRY_ERR_UNKNOWN : Z := -99.
Definition AIRY_ERR_INVALID_PARAM : Z := -36.
Definition AIRY_ERR_OUT_OF_MEMORY : Z := -59.
Definition AIRY_ERR_NOT_FOUND : Z := -6.
Definition AIRY_ERR_PARSE_ERROR : Z := -55.
Definition AIRY_ERR_OVERFLOW : Z := -60.
Definition AIRY_ERR_SYS_MUTEX : Z := -105.
Definition AIRY_ERR_SYS_CONDITION : Z := -121.
Definition AIRY_ERR_SVC_NOT_READY : Z := -301.
Definition AIRY_ERR_SVC_HEALTH : Z := -306.
Definition AIRY_EINVAL : Z := -22.
Definition AIRY_ENOMEM : Z := -12.
Definition AIRY_ENOENT : Z := -2.
Definition AIRY_EEXIST : Z := -17.
Definition AIRY_EPROTONOSUPPORT : Z := -93.
Definition AIRY_ENOTINIT : Z := -9.

(** ** Automation *)

Create HintDb airy.
Create Rewrite HintDb airy.

(** Turn the boolean comparisons of the hypotheses and the goal into
    propositions. *)
Ltac bool_prop :=
  repeat match goal with
  | H : context [Z.ltb ?a ?b] |- _ => destruct (Z.ltb_spec a b)
  | H : context [Z.leb ?a ?b] |- _ => destruct (Z.leb_spec a b)
  | H : context [Z.eqb ?a ?b] |- _ => destruct (Z.eqb_spec a b)
  | |- context [Z.ltb ?a ?b] => destruct (Z.ltb_spec a b)
  | |- context [Z.leb ?a ?b] => destruct (Z.leb_spec a b)
  | |- context [Z.eqb ?a ?b] => destruct (Z.eqb_spec a b)
  end.

(** Case analysis on the matches of a hypothesis, keeping the equations. *)
Ltac split_match H :=
  repeat (case_match; simplify_eq/=).

Lemma u8_range z : 0 <= u8 z < 256.
Proof. unfold u8. apply Z.mod_pos_bound. lia. Qed.

Lemma u32_range z : 0 <= u32 z < 2 ^ 32.
Proof. unfold u32. apply Z.mod_pos_bound. lia. Qed.

Lemma u64_range z : 0 <= u64 z < 2 ^ 64.
Proof. unfold u64. apply Z.mod_pos_bound. lia. Qed.

Lemma u32_small z : 0 <= z < 2 ^ 32 -> u32 z = z.
Proof. unfold u32. apply Z.mod_small. Qed.

Lemma u64_small z : 0 <= z < 2 ^ 64 -> u64 z = z.
Proof. unfold u64. apply Z.mod_small. Qed.

Lemma u8_small z : 0 <= z < 256 -> u8 z = z.
Proof. unfold u8. apply Z.mod_small. Qed.

Lemma s32_small z : - 2 ^ 31 <= z < 2 ^ 31 -> s32 z = z.
Proof. intros H. unfold s32. rewrite Z.mod_small; lia. Qed.

Lemma s64_small z : - 2 ^ 63 <= z < 2 ^ 63 -> s64 z = z.
Proof. intros H. unfold s64. rewrite Z.mod_small; lia. Qed.

#[export] Hint Resolve u8_range u32_range u64_range : airy.
#[export] Hint Rewrite u8_small u32_small u64_small using lia : airy.

(** ** Cyclic positions *)

Lemma mod_succ_idemp (n b i : nat) :
  n <> 0%nat -> (((b + i) mod n + 1) mod n = (b + S i) mod n)%nat.
Proof.
  intros Hn. rewrite Nat.Div0.add_mod_idemp_l. f_equal. lia.
Qed.

Lemma cyclic_inj (n b i j : nat) :
  (i < n)%nat -> (j < n)%nat -> ((b + i) mod n = (b + j) mod n)%nat -> i = j.
Proof.
  intros Hi Hj Heq.
  pose proof (Nat.div_mod_eq (b + i) n) as Ei.
  pose proof (Nat.div_mod_eq (b + j) n) as Ej.
  rewrite Heq in Ei.
  set (qi := ((b + i) / n)%nat) in *. set (qj := ((b + j) / n)%nat) in *.
  destruct (decide (qi = qj)) as [->|Hne]; [lia|]. nia.
Qed.

Lemma cyclic_surj (n b p : nat) :
  (b < n)%nat -> (p < n)%nat -> exists d, (d < n)%nat /\ p = ((b + d) mod n)%nat.
Proof.
  intros Hb Hp. destruct (decide (b <= p)%nat).
  - exists (p - b)%nat. split; [lia|]. rewrite Nat.mod_small; lia.
  - exists (n - b + p)%nat. split; [lia|].
    replace (b + (n - b + p))%nat with (p + 1 * n)%nat by lia.
    rewrite Nat.Div0.mod_add. rewrite Nat.mod_small; lia.
Qed.

(** ** Removing one element of a list without duplicates *)

Lemma elem_of_remove_middle {A} (l1 l2 : list A) x y :
  NoDup (l1 ++ x :: l2) -> y ∈ l1 ++ l2 <-> y ∈ l1 ++ x :: l2 /\ y <> x.
Proof.
  intros (_ & Hd & [Hn _]%NoDup_cons)%NoDup_app. rewrite !elem_of_app, elem_of_cons. split.
  - intros [Hy|Hy]; (split; [tauto|]); intros ->; [|done]. apply (Hd x Hy). by left.
  - tauto.
Qed.

Lemma NoDup_remove_middle {A} (l1 l2 : list A) x : NoDup (l1 ++ x :: l2) -> NoDup (l1 ++ l2).
Proof.
  intros (Hn1 & Hd & [_ Hn2]%NoDup_cons)%NoDup_app. apply NoDup_app. split_and!; [done| |done].
  intros y Hy Hy2. apply (Hd y Hy). by right.
Qed.

(** ** Counting *)

Section counting.
Context {A : Type} (P : A -> Prop) `{!forall x, Decision (P x)}.

(** Replacing one element changes a count by the difference at that place. *)
Lemma length_filter_insert (l : list A) p x y :
  l !! p = Some x ->
  (length (filter P (<[p:=y]> l)) + (if decide (P x) then 1 else 0) =
   length (filter P l) + (if decide (P y) then 1 else 0))%nat.
Proof.
  intros Hp. pose proof (lookup_lt_Some _ _ _ Hp) as Hlt.
  rewrite insert_take_drop by done.
  rewrite <- (take_drop_middle l p x Hp) at 3.
  rewrite !filter_app, !filter_cons, !length_app.
  repeat case_decide; simpl; lia.
Qed.

Lemma length_filter_lt (l : list A) :
  (length (filter P l) < length l)%nat -> exists p x, l !! p = Some x /\ ~ P x.
Proof.
  induction l as [|x l IH]; simpl; [lia|].
  rewrite filter_cons. case_decide as Hx; simpl; intros Hlt.
  - destruct IH as (p & y & Hp & Hy); [lia|]. by exists (S p), y.
  - by exists 0%nat, x.
Qed.

End counting.

(** ** Bytes *)

Definition all_bytes : list Z := seqZ 0 256.

(** A decidable fact about every byte is checked by evaluation. *)
Lemma byte_forall (P : Z -> bool) :
  forallb P all_bytes = true -> forall b, is_byte b -> P b = true.
Proof.
  intros H b Hb. rewrite forallb_forall in H. apply H.
  apply list_elem_of_In, elem_of_seqZ. unfold is_byte in Hb. lia.
Qed.

Lemma testbit_high b n i : 0 <= b < 2 ^ n -> n <= i -> Z.testbit b i = false.
Proof.
  intros Hb Hi. destruct (Z.ltb_spec n 0); [rewrite Z.pow_neg_r in Hb by done; lia|].
  rewrite <- (Z.mod_small b (2 ^ n)) by done. by apply Z.mod_pow2_bits_high.
Qed.

Lemma land_shift_low a b n :
  0 <= n -> 0 <= b < 2 ^ n -> Z.land (a * 2 ^ n) b = 0.
Proof.
  intros Hn Hb. apply Z.bits_inj'. intros i Hi. rewrite Z.land_spec, Z.bits_0.
  destruct (Z.ltb_spec i n); [by rewrite Z.mul_pow2_bits_low|].
  by rewrite (testbit_high b n i), andb_false_r.
Qed.

Lemma lor_shiftl_add a b n :
  0 <= n -> 0 <= b < 2 ^ n -> Z.lor (Z.shiftl a n) b = a * 2 ^ n + b.
Proof.
  intros Hn Hb. rewrite Z.shiftl_mul_pow2 by done.
  rewrite <- Z.lxor_lor, <- Z.add_nocarry_lxor; auto using land_shift_low.
Qed.
