(* ===== verification/CLib.v ===== *)
(** * The C library functions the components use

    Character classes and number conversions of the C locale on a platform
    where [long] and [long long] have 64 bits, and doubles as the IEEE numbers
    of [SpecFloat].  A string is the list of its bytes before the NUL, so a
    conversion returns the number of bytes it consumed instead of [endptr]. *)
From S2P Require Import Prelude.

(** ** Results of loops with fuel that may meet undefined behaviour *)

Inductive res (A : Type) := Done (x : A) | NoFuel | Undefined.
Arguments Done {A} x.
Arguments NoFuel {A}.
Arguments Undefined {A}.

Definition rbind {A B} (f : res A) (g : A -> res B) : res B :=
  match f with Done x => g x | NoFuel => NoFuel | Undefined => Undefined end.

(** ** Characters *)

Definition INT64_MAX : Z := 2 ^ 63 - 1.
Definition INT64_MIN : Z := - 2 ^ 63.
Definition INT32_MAX : Z := 2 ^ 31 - 1.
Definition INT32_MIN : Z := - 2 ^ 31.

Definition isspace (c : Z) : bool := ((9 <=? c) && (c <=? 13)) || (c =? 32).
Definition isdigit (c : Z) : bool := (48 <=? c) && (c <=? 57).

(** The value of a digit in any base up to 36. *)
Definition digit_val (c : Z) : option Z :=
  if isdigit c then Some (c - 48)
  else if (97 <=? c) && (c <=? 122) then Some (c - 87)
  else if (65 <=? c) && (c <=? 90) then Some (c - 55)
  else None.

Definition digit_in (base c : Z) : option Z :=
  d ← digit_val c; if d <? base then Some d else None.

(** The digits at the head of a string: their value and number. *)
Fixpoint scan_digits (base : Z) (s : cstr) (acc : Z) (n : nat) : Z * nat :=
  match s with
  | c :: s' =>
      match digit_in base c with
      | Some d => scan_digits base s' (acc * base + d) (S n)
      | None => (acc, n)
      end
  | [] => (acc, n)
  end.

Fixpoint skip_space (s : cstr) : nat :=
  match s with c :: s' => if isspace c then S (skip_space s') else 0 | [] => 0 end.

Definition sign_of (s : cstr) : bool * nat :=
  match s with c :: _ => if c =? 45 then (true, 1%nat) else if c =? 43 then (false, 1%nat) else (false, 0%nat)
  | [] => (false, 0%nat) end.

(** [strncasecmp(s, lit, strlen(lit)) == 0] for a literal in lower case. *)
Definition has_prefix_ci (lit s : cstr) : bool :=
  bool_decide (map tolower (take (length lit) s) = lit).

(** Base 0 reads "0x" and a hexadecimal digit as base 16 and "0" as base 8. *)
Definition strtoll_base (base : Z) (s : cstr) : Z * nat :=
  if base =? 0 then
    match s with
    | 48 :: x :: h :: _ =>
        if ((x =? 120) || (x =? 88)) && bool_decide (is_Some (digit_in 16 h)) then (16, 2%nat) else (8, 0%nat)
    | 48 :: _ => (8, 0%nat)
    | _ => (10, 0%nat)
    end
  else (base, 0%nat).

Definition clamp64 (v : Z) : Z :=
  if v <? INT64_MIN then INT64_MIN else if INT64_MAX <? v then INT64_MAX else v.

Definition strtoll (s : cstr) (base : Z) : Z * nat :=
  let ws := skip_space s in
  let '(neg, sg) := sign_of (drop ws s) in
  let '(b, pre) := strtoll_base base (drop (ws + sg) s) in
  let '(v, n) := scan_digits b (drop (ws + sg + pre) s) 0 0 in
  if (n =? 0)%nat then (0, 0%nat) else (clamp64 (if neg then - v else v), (ws + sg + pre + n)%nat).

(** ** Doubles *)

(** The double nearest to [m * base ^ e], ties to even. *)
Definition sf_scale (neg : bool) (base m e : Z) : spec_float :=
  match m with
  | Zpos p =>
      if 0 <=? e then binary_normalize 53 1024 (cond_Zopp neg (m * base ^ e)) 0 neg
      else match base ^ (- e) with
           | Zpos q => SFdiv 53 1024 (S754_finite neg p 0) (S754_finite false q 0)
           | _ => S754_nan
           end
  | _ => S754_zero neg
  end.

(** Digits with an optional point: the mantissa, the digits after the point,
    the bytes read, whether there is a digit. *)
Definition scan_mantissa (base : Z) (s : cstr) : Z * nat * nat * bool :=
  let '(i, ni) := scan_digits base s 0 0 in
  match drop ni s with
  | 46 :: s' =>
      let '(m, nf) := scan_digits base s' i 0 in
      if (ni + nf =? 0)%nat then (0, 0%nat, 0%nat, false) else (m, nf, (ni + 1 + nf)%nat, true)
  | _ => (i, 0%nat, ni, negb (ni =? 0)%nat)
  end.

(** An exponent is read only when it has a digit. *)
Definition scan_exponent (mark : Z) (s : cstr) : Z * nat :=
  match s with
  | c :: s' =>
      if tolower c =? mark then
        let '(neg, sg) := sign_of s' in
        let '(v, n) := scan_digits 10 (drop sg s') 0 0 in
        if (n =? 0)%nat then (0, 0%nat) else (if neg then - v else v, (1 + sg + n)%nat)
      else (0, 0%nat)
  | [] => (0, 0%nat)
  end.

(** The optional "(...)" after "nan". *)
Fixpoint nan_tail (s : cstr) (n : nat) : nat :=
  match s with
  | c :: s' =>
      if c =? 41 then S n
      else if bool_decide (is_Some (digit_val c)) || (c =? 95) then nan_tail s' (S n) else 0%nat
  | [] => 0%nat
  end.

Definition strtod (s : cstr) : spec_float * nat :=
  let ws := skip_space s in
  let '(neg, sg) := sign_of (drop ws s) in
  let n0 := (ws + sg)%nat in
  let t := drop n0 s in
  if has_prefix_ci (cs "infinity") t then (S754_infinity neg, (n0 + 8)%nat)
  else if has_prefix_ci (cs "inf") t then (S754_infinity neg, (n0 + 3)%nat)
  else if has_prefix_ci (cs "nan") t then
    (S754_nan, (n0 + 3 + match drop 3 t with 40%Z :: u => nan_tail u 1 | _ => 0 end)%nat)
  else
    let '(hm, hf, hn, hok) := scan_mantissa 16 (drop 2 t) in
    if has_prefix_ci (cs "0x") t && hok then
      let '(e, ne) := scan_exponent 112 (drop (2 + hn) t) in
      (sf_scale neg 2 hm (e - 4 * Z.of_nat hf), (n0 + 2 + hn + ne)%nat)
    else
      let '(m, f, n, ok) := scan_mantissa 10 t in
      if ok then
        let '(e, ne) := scan_exponent 101 (drop n t) in
        (sf_scale neg 10 m (e - Z.of_nat f), (n0 + n + ne)%nat)
      else (S754_zero false, 0%nat).

(** The conversion of a double to a signed integer type truncates; it is
    undefined when the result does not fit. *)
Definition sf_trunc (x : spec_float) : option Z :=
  match x with
  | S754_zero _ => Some 0
  | S754_finite s m e => Some (cond_Zopp s (Z.shiftl (Zpos m) e))
  | _ => None
  end.

Definition to_int (lo hi : Z) (x : spec_float) : option Z :=
  z ← sf_trunc x; if (lo <=? z) && (z <=? hi) then Some z else None.

(** ** Facts about numbers in decimal *)

(** The C string that starts a block of bytes. *)
Fixpoint c_str (s : cstr) : cstr :=
  match s with [] => [] | c :: s' => if c =? 0 then [] else c :: c_str s' end.

(** [fgets] into [n + 1] bytes: the line, with its newline, and what follows. *)
Fixpoint fgets (n : nat) (s : cstr) : cstr * cstr :=
  match n, s with
  | S n', c :: s' => if c =? 10 then ([c], s') else let '(l, r) := fgets n' s' in (c :: l, r)
  | _, _ => ([], s)
  end.

(** The fields of a text between separators. *)
Fixpoint fields (sep : Z) (s : cstr) : list cstr :=
  match s with
  | [] => [[]]
  | c :: s' =>
      if c =? sep then [] :: fields sep s'
      else match fields sep s' with f :: fs => (c :: f) :: fs | [] => [[c]] end
  end.

Lemma fgets_line n x r : (10 ∉ x) -> (length x < n)%nat -> fgets n (x ++ 10 :: r) = (x ++ [10], r).
Proof.
  revert n. induction x as [|c x IH]; intros [|n] Hx Hl; cbn [length] in Hl; try lia; cbn [app fgets]; [done|].
  destruct (Z.eqb_spec c 10) as [->|_]; [by destruct Hx; left|]. rewrite IH; [done|set_solver|lia].
Qed.

Lemma c_str_whole s : Forall (fun c => c <> 0) s -> c_str s = s.
Proof. induction 1 as [|c s Hc _ IH]; [done|]. cbn [c_str]. destruct (Z.eqb_spec c 0); [done|]. by rewrite IH. Qed.

Lemma fields_cons sep s : exists f fs, fields sep s = f :: fs.
Proof. destruct s as [|c s]; cbn; [eauto|]. destruct (c =? sep); [eauto|]. destruct (fields sep s); eauto. Qed.

Lemma isdigit_val c : isdigit c = true -> digit_in 10 c = Some (c - 48).
Proof.
  intros H. unfold digit_in, digit_val. rewrite H. simpl. unfold isdigit in H.
  destruct (Z.ltb_spec (c - 48) 10); [done|]. bool_prop; simpl in H; lia || done.
Qed.

Lemma scan_digits_app base s t acc n v k :
  scan_digits base s acc n = (v, k) -> k = (n + length s)%nat ->
  scan_digits base (s ++ t) acc n = scan_digits base t v k.
Proof.
  revert acc n. induction s as [|c s IH]; intros acc n; simpl.
  - intros [= -> ->] _. done.
  - destruct (digit_in base c) as [d|]; [|intros [= -> ->]; lia].
    intros H Hk. rewrite <- (IH _ _ H); [done|lia].
Qed.

Example strtoll_ex1 : strtoll (cs " -42x") 10 = (-42, 4%nat).
Proof. reflexivity. Qed.
Example strtoll_ex2 : strtoll (cs "0x1F") 0 = (31, 4%nat).
Proof. reflexivity. Qed.
Example strtod_ex1 : strtod (cs "0.25") = (SFdiv 53 1024 (of_int 1) (of_int 4), 4%nat).
Proof. vm_compute. reflexivity. Qed.
Example strtod_ex2 : strtod (cs "-1.5e2z") = (of_int (-150), 6%nat).
Proof. vm_compute. reflexivity. Qed.
