(* ===== verification/HIndex.v ===== *)
(** * The string index of utils/ds/hindex.c

    An open-addressing hash index from strings to array indices: djb2
    hashing, linear probing, tombstones on deletion and a same-capacity
    compaction when the load reaches three quarters.  The state is the array
    of slots with its three counters; the abstract state is a finite map from
    strings to indices, and every operation is shown to refine the
    corresponding map operation. *)
From S2P Require Import Prelude.

(** ** Data *)

Inductive hindex_state := HINDEX_EMPTY | HINDEX_LIVE | HINDEX_DEAD.

#[export] Instance hindex_state_eq_dec : EqDecision hindex_state.
Proof. solve_decision. Defined.

Record hindex_ent_t := Ent {
  ent_key : option cstr;
  ent_index : Z;
  ent_state : hindex_state;
}.

(** [ents = None] is the NULL array; sizes are bounded by the allocation, so
    they are natural numbers, and the products of the load test are reduced
    to 64 bits where the code computes them. *)
Record hindex_t := HIndex {
  ents : option (list hindex_ent_t);
  cap : nat;
  cnt : nat;
  used : nat;
}.

Definition sizeof_hindex_ent : Z := 24.

(** [calloc] fails on a product that does not fit [size_t], and otherwise
    when the allocator says so. *)
Definition calloc_ok (num size : Z) (ok : bool) : bool :=
  (num * size <? 2 ^ 64) && ok.

Definition ent_zero : hindex_ent_t := Ent None 0 HINDEX_EMPTY.

(** ** Operations *)

Fixpoint hindex_hash_from (h : Z) (s : cstr) : Z :=
  match s with
  | [] => h
  | c :: s' => hindex_hash_from (u64 (u64 (u64 (Z.shiftl h 5) + h) + c)) s'
  end.

Definition hindex_hash (s : cstr) : Z := hindex_hash_from 5381 s.

Definition home (n : nat) (key : cstr) : nat :=
  Z.to_nat (hindex_hash key mod Z.of_nat n).

(** [pos = (pos + 1) % cap] *)
Definition next_pos (n pos : nat) : nat := ((pos + 1) mod n)%nat.

Fixpoint hindex_scan_loop (fuel : nat) (l : list hindex_ent_t) (n pos : nat)
    (key : cstr) : option nat :=
  match fuel with
  | O => None
  | S fuel' =>
      match l !! pos with
      | None => None
      | Some e =>
          match ent_state e with
          | HINDEX_EMPTY => None
          | HINDEX_LIVE =>
              if decide (ent_key e = Some key) then Some pos
              else hindex_scan_loop fuel' l n (next_pos n pos) key
          | HINDEX_DEAD => hindex_scan_loop fuel' l n (next_pos n pos) key
          end
      end
  end.

Definition hindex_scan (l : list hindex_ent_t) (n : nat) (key : cstr) : option nat :=
  hindex_scan_loop n l n (home n key) key.

Definition hindex_init (present : bool) (n : nat) (ok : bool) : Z * option hindex_t :=
  if negb present || (n =? 0)%nat then (AIRY_ERR_INVALID_PARAM, None)
  else if calloc_ok (Z.of_nat n) sizeof_hindex_ent ok then
    (AIRY_SUCCESS, Some (HIndex (Some (replicate n ent_zero)) n 0 0))
  else (AIRY_ERR_OUT_OF_MEMORY, Some (HIndex None 0 0 0)).

Definition hindex_free (h : option hindex_t) : option hindex_t :=
  match h with
  | None => None
  | Some h' =>
      match ents h' with
      | None => Some h'
      | Some _ => Some (HIndex None 0 0 0)
      end
  end.

(** The unbounded probing loops: they stop at the first slot whose state
    satisfies [stop].  The fuel is the number of slots; a run that visits
    every slot without stopping goes round for ever and is [None]. *)
Fixpoint probe_loop (stop : hindex_state -> bool) (fuel : nat)
    (l : list hindex_ent_t) (n pos : nat) : option nat :=
  match fuel with
  | O => None
  | S fuel' =>
      match l !! pos with
      | None => None
      | Some e =>
          if stop (ent_state e) then Some pos
          else probe_loop stop fuel' l n (next_pos n pos)
      end
  end.

Definition is_empty (s : hindex_state) : bool :=
  match s with HINDEX_EMPTY => true | _ => false end.
Definition not_live (s : hindex_state) : bool :=
  match s with HINDEX_LIVE => false | _ => true end.

(** The loop of [hindex_pack] over the old slots: [acc] is the new array and
    the number of live entries moved so far. *)
Fixpoint hindex_pack_loop (old : list hindex_ent_t) (n : nat)
    (neu : list hindex_ent_t) (live : nat) : option (list hindex_ent_t * nat) :=
  match old with
  | [] => Some (neu, live)
  | e :: old' =>
      match ent_state e, ent_key e with
      | HINDEX_LIVE, Some k =>
          match probe_loop not_live n neu n (home n k) with
          | None => None
          | Some pos => hindex_pack_loop old' n (<[pos:=e]> neu) (S live)
          end
      | HINDEX_LIVE, None => None
      | _, _ => hindex_pack_loop old' n neu live
      end
  end.

(** [None]: the code does not return. *)
Definition hindex_pack (l : list hindex_ent_t) (h : hindex_t) (ok : bool)
    : option (Z * hindex_t) :=
  if calloc_ok (Z.of_nat (cap h)) sizeof_hindex_ent ok then
    match hindex_pack_loop l (cap h) (replicate (cap h) ent_zero) 0 with
    | None => None
    | Some (neu, live) => Some (AIRY_SUCCESS, HIndex (Some neu) (cap h) live live)
    end
  else Some (AIRY_ERR_OUT_OF_MEMORY, h).

Definition over_load (h : hindex_t) : bool :=
  u64 (Z.of_nat (cap h) * 3) <=? u64 (Z.of_nat (used h) * 4).

(** The insertion of a key that is not present, after the load test. *)
Definition hindex_insert_new (h : hindex_t) (key : cstr) (index : Z) (dup_ok : bool)
    : option (Z * hindex_t) :=
  match ents h with
  | None => None
  | Some l =>
      if dup_ok then
        match probe_loop is_empty (cap h) l (cap h) (home (cap h) key) with
        | None => None
        | Some pos =>
            Some (AIRY_SUCCESS,
                  HIndex (Some (<[pos:=Ent (Some key) index HINDEX_LIVE]> l))
                    (cap h) (cnt h + 1) (used h + 1))
        end
      else Some (AIRY_ERR_OUT_OF_MEMORY, h)
  end.

(** [pack_ok] and [dup_ok] are the allocator's answers at the two
    allocation sites. *)
Definition hindex_put (h : option hindex_t) (key : option cstr) (index : Z)
    (pack_ok dup_ok : bool) : option (Z * option hindex_t) :=
  match h, key with
  | Some h0, Some k =>
      match ents h0 with
      | None => Some (AIRY_ERR_INVALID_PARAM, h)
      | Some l =>
          match hindex_scan l (cap h0) k with
          | Some found =>
              Some (AIRY_SUCCESS,
                    Some (HIndex
                      (Some (alter (fun e => Ent (ent_key e) index (ent_state e)) found l))
                      (cap h0) (cnt h0) (used h0)))
          | None =>
              let res (r : option (Z * hindex_t)) :=
                match r with None => None | Some (rc, h') => Some (rc, Some h') end in
              if over_load h0 then
                if (cnt h0 <? used h0)%nat then
                  match hindex_pack l h0 pack_ok with
                  | None => None
                  | Some (rc, h1) =>
                      if negb (rc =? AIRY_SUCCESS) then Some (AIRY_ERR_OUT_OF_MEMORY, Some h1)
                      else if over_load h1 then Some (AIRY_ERR_OUT_OF_MEMORY, Some h1)
                      else res (hindex_insert_new h1 k index dup_ok)
                  end
                else Some (AIRY_ERR_OUT_OF_MEMORY, h)
              else res (hindex_insert_new h0 k index dup_ok)
          end
      end
  | _, _ => Some (AIRY_ERR_INVALID_PARAM, h)
  end.

Definition hindex_get (h : option hindex_t) (key : option cstr) : Z :=
  match h, key with
  | Some h0, Some k =>
      match ents h0 with
      | None => -1
      | Some l =>
          if (cnt h0 =? 0)%nat then -1
          else
            match hindex_scan l (cap h0) k with
            | None => -1
            | Some pos =>
                match l !! pos with
                | None => -1
                | Some e => s64 (ent_index e)
                end
            end
      end
  | _, _ => -1
  end.

Definition hindex_del (h : option hindex_t) (key : option cstr) : option hindex_t :=
  match h, key with
  | Some h0, Some k =>
      match ents h0 with
      | None => h
      | Some l =>
          if (cnt h0 =? 0)%nat then h
          else
            match hindex_scan l (cap h0) k with
            | None => h
            | Some pos =>
                Some (HIndex (Some (<[pos:=Ent None 0 HINDEX_DEAD]> l))
                        (cap h0) (cnt h0 - 1) (used h0))
            end
      end
  | _, _ => h
  end.

(** ** Abstract state and invariant *)

Definition live_at (l : list hindex_ent_t) (p : nat) (k : cstr) (i : Z) : Prop :=
  l !! p = Some (Ent (Some k) i HINDEX_LIVE).

Definition busy (l : list hindex_ent_t) (p : nat) : Prop :=
  exists e, l !! p = Some e /\ ent_state e <> HINDEX_EMPTY.

(** The slots between the home slot of a key and its position, in probing
    order, are all occupied: the probing loop gets through to it. *)
Definition reachable (l : list hindex_ent_t) (n p : nat) (k : cstr) : Prop :=
  exists d, (d < n)%nat /\ p = ((home n k + d) mod n)%nat /\
    forall i, (i < d)%nat -> busy l ((home n k + i) mod n)%nat.

Definition count_state (f : hindex_state -> bool) (l : list hindex_ent_t) : nat :=
  length (filter (fun e => f (ent_state e) = true) l).

Definition is_live (s : hindex_state) : bool :=
  match s with HINDEX_LIVE => true | _ => false end.
Definition is_busy (s : hindex_state) : bool :=
  match s with HINDEX_EMPTY => false | _ => true end.

Record table_ok (l : list hindex_ent_t) (n : nat) : Prop := {
  tok_len : length l = n;
  tok_pos : (0 < n)%nat;
  tok_key : forall p e, l !! p = Some e -> (ent_state e = HINDEX_LIVE <-> is_Some (ent_key e));
  tok_uniq : forall p q k i j, live_at l p k i -> live_at l q k j -> p = q;
  tok_reach : forall p k i, live_at l p k i -> reachable l n p k;
}.

(** The table holds exactly the bindings of [m]. *)
Definition table_map (l : list hindex_ent_t) (m : gmap cstr Z) : Prop :=
  forall k i, m !! k = Some i <-> exists p, live_at l p k i.

Definition hindex_rep (h : hindex_t) (m : gmap cstr Z) : Prop :=
  exists l, ents h = Some l /\ table_ok l (cap h) /\ table_map l m /\
    cnt h = count_state is_live l /\ used h = count_state is_busy l /\
    Z.of_nat (cap h) * sizeof_hindex_ent < 2 ^ 64.

(** ** The abstract index

    The contract of the header (hindex.h): at most three quarters of the slots
    hold keys, a put that cannot be done fails and leaves the map alone, and
    nothing else is lost.  [size m] keys are live. *)

Inductive hindex_op :=
| OpPut (k : cstr) (i : Z) (pack_ok dup_ok : bool)
| OpGet (k : cstr)
| OpDel (k : cstr).

Inductive index_step (n : nat) (m : gmap cstr Z) : hindex_op -> Z -> gmap cstr Z -> Prop :=
| index_put_old k i a b :
    is_Some (m !! k) -> index_step n m (OpPut k i a b) AIRY_SUCCESS (<[k:=i]> m)
| index_put_new k i a :
    m !! k = None -> (4 * size m < 3 * n)%nat ->
    index_step n m (OpPut k i a true) AIRY_SUCCESS (<[k:=i]> m)
| index_put_full k i a b :
    m !! k = None -> a = false \/ b = false \/ (3 * n <= 4 * size m)%nat ->
    index_step n m (OpPut k i a b) AIRY_ERR_OUT_OF_MEMORY m
| index_get k :
    index_step n m (OpGet k) (default (-1) (s64 <$> m !! k)) m
| index_del k :
    index_step n m (OpDel k) 0 (delete k m).

Inductive index_run (n : nat) : gmap cstr Z -> list hindex_op -> list Z -> gmap cstr Z -> Prop :=
| index_run_nil m : index_run n m [] [] m
| index_run_cons m op r m' ops rs m'' :
    index_step n m op r m' -> index_run n m' ops rs m'' ->
    index_run n m (op :: ops) (r :: rs) m''.

(** One call of the interface on an index, and a sequence of calls; the result
    of [hindex_del], a void function, is written 0. *)
Definition hindex_call (h : hindex_t) (op : hindex_op) : option (Z * option hindex_t) :=
  match op with
  | OpPut k i a b => hindex_put (Some h) (Some k) i a b
  | OpGet k => Some (hindex_get (Some h) (Some k), Some h)
  | OpDel k => Some (0, hindex_del (Some h) (Some k))
  end.

Fixpoint hindex_calls (h : hindex_t) (ops : list hindex_op) : option (list Z * hindex_t) :=
  match ops with
  | [] => Some ([], h)
  | op :: ops' =>
      match hindex_call h op with
      | Some (r, Some h') =>
          match hindex_calls h' ops' with
          | Some (rs, h'') => Some (r :: rs, h'')
          | None => None
          end
      | _ => None
      end
  end.

(** ** Probing *)

Section probing.
Context (l : list hindex_ent_t) (n : nat) (Hlen : length l = n) (Hpos : (0 < n)%nat).

Lemma home_lt k : (home n k < n)%nat.
Proof.
  unfold home. pose proof (Z.mod_pos_bound (hindex_hash k) (Z.of_nat n)). lia.
Qed.

Lemma probe_in_range b i : exists e, l !! ((b + i) mod n)%nat = Some e.
Proof.
  apply lookup_lt_is_Some. rewrite Hlen. apply Nat.mod_upper_bound. lia.
Qed.

(** The scan finds a live key that is reachable from the current position. *)
Lemma scan_loop_hit fuel i k d idx :
  (i + fuel = n)%nat -> (i <= d < n)%nat ->
  live_at l ((home n k + d) mod n)%nat k idx ->
  (forall q j, live_at l q k j -> q = ((home n k + d) mod n)%nat) ->
  (forall j, (j < d)%nat -> busy l ((home n k + j) mod n)%nat) ->
  hindex_scan_loop fuel l n ((home n k + i) mod n)%nat k = Some ((home n k + d) mod n)%nat.
Proof.
  revert i. induction fuel as [|fuel IH]; intros i Hfuel Hi Hlive Huniq Hbusy; [lia|].
  simpl. destruct (decide (i = d)) as [->|Hne].
  { rewrite Hlive. simpl. by rewrite decide_True. }
  destruct (Hbusy i) as (e & He & Hst); [lia|]. rewrite He.
  unfold next_pos. rewrite mod_succ_idemp by lia.
  destruct (ent_state e) eqn:Es; [done| |apply IH; auto; lia].
  case_decide as Hk; [|apply IH; auto; lia].
  f_equal. apply (Huniq _ (ent_index e)). unfold live_at. rewrite He.
  destruct e; simpl in *; congruence.
Qed.

(** What the scan returns is a live slot of the key. *)
Lemma scan_loop_sound fuel pos k p :
  hindex_scan_loop fuel l n pos k = Some p -> exists idx, live_at l p k idx.
Proof.
  revert pos. induction fuel as [|fuel IH]; intros pos H; simpl in H; [done|].
  destruct (l !! pos) as [e|] eqn:He; [|done].
  destruct (ent_state e) eqn:Es; [done| |eauto].
  case_decide as Hk; [|eauto]. simplify_eq.
  exists (ent_index e). unfold live_at. rewrite He. destruct e; simpl in *; congruence.
Qed.

(** A probing loop returns the first stopping slot on its way. *)
Lemma probe_loop_spec stop fuel b i p :
  probe_loop stop fuel l n ((b + i) mod n)%nat = Some p ->
  exists d, (d < fuel)%nat /\ p = ((b + (i + d)) mod n)%nat /\
    (exists e, l !! p = Some e /\ stop (ent_state e) = true) /\
    (forall j, (j < d)%nat -> exists e,
       l !! ((b + (i + j)) mod n)%nat = Some e /\ stop (ent_state e) = false).
Proof.
  revert i. induction fuel as [|fuel IH]; intros i H; simpl in H; [done|].
  destruct (l !! ((b + i) mod n)%nat) as [e|] eqn:He; [|done].
  destruct (stop (ent_state e)) eqn:Es.
  - simplify_eq. exists 0%nat. rewrite !Nat.add_0_r. split_and!; eauto; lia.
  - unfold next_pos in H. rewrite mod_succ_idemp in H by lia.
    apply IH in H as (d & Hd & -> & Hhit & Hbefore).
    exists (S d). rewrite <- !Nat.add_succ_comm. split_and!; eauto; [lia|].
    intros [|j] Hj; [rewrite Nat.add_0_r; eauto|].
    rewrite <- !Nat.add_succ_comm. apply Hbefore. lia.
Qed.

(** A probing loop that starts anywhere ends if one slot stops it. *)
Lemma probe_loop_total stop b i fuel q e :
  (i + fuel = n)%nat -> (b < n)%nat ->
  l !! q = Some e -> stop (ent_state e) = true ->
  (forall j, (j < i)%nat -> exists e',
     l !! ((b + j) mod n)%nat = Some e' /\ stop (ent_state e') = false) ->
  is_Some (probe_loop stop fuel l n ((b + i) mod n)%nat).
Proof.
  intros Hfuel Hb Hq Hstop. revert i Hfuel.
  destruct (cyclic_surj n b q) as (d & Hd & Hqd);
    [done|apply lookup_lt_Some in Hq; lia|].
  induction fuel as [|fuel IH]; intros i Hfuel Hbefore.
  { destruct (Hbefore d) as (e' & He' & Hns); [lia|].
    rewrite <- Hqd in He'. congruence. }
  simpl. destruct (probe_in_range b i) as [e' He']. rewrite He'.
  destruct (stop (ent_state e')) eqn:Es; [eauto|].
  unfold next_pos. rewrite mod_succ_idemp by lia. apply IH; [lia|].
  intros j Hj. destruct (decide (j = i)) as [->|]; [eauto|]. apply Hbefore. lia.
Qed.

End probing.

(** ** Tables *)

Lemma live_at_insert l p e q k i :
  (p < length l)%nat ->
  live_at (<[p:=e]> l) q k i <->
  (q = p /\ e = Ent (Some k) i HINDEX_LIVE) \/ (q <> p /\ live_at l q k i).
Proof.
  intros Hp. unfold live_at. destruct (decide (q = p)) as [->|Hne].
  - rewrite list_lookup_insert_eq by done. split; [intros [= ->]; auto|].
    by intros [[_ ->]|[? _]].
  - rewrite list_lookup_insert_ne by done. split; [auto|]. by intros [[? _]|[_ ?]].
Qed.

Lemma busy_insert l p e q :
  ent_state e <> HINDEX_EMPTY -> busy l q -> busy (<[p:=e]> l) q.
Proof.
  intros He (e' & Hq & Hst). unfold busy. destruct (decide (q = p)) as [->|Hne].
  - exists e. rewrite list_lookup_insert_eq; eauto using lookup_lt_Some.
  - exists e'. by rewrite list_lookup_insert_ne.
Qed.

Lemma reachable_insert l n p e q k :
  ent_state e <> HINDEX_EMPTY -> reachable l n q k -> reachable (<[p:=e]> l) n q k.
Proof.
  intros He (d & Hd & -> & Hb). exists d. eauto using busy_insert.
Qed.

Lemma tok_key_insert l n p e :
  table_ok l n -> (ent_state e = HINDEX_LIVE <-> is_Some (ent_key e)) ->
  forall q e', <[p:=e]> l !! q = Some e' ->
    (ent_state e' = HINDEX_LIVE <-> is_Some (ent_key e')).
Proof.
  intros Hok He q e' Hq. apply list_lookup_insert_Some in Hq.
  destruct Hq as [(_ & <- & _)|(_ & Hq)]; eauto using tok_key.
Qed.

Section table.
Context (l : list hindex_ent_t) (n : nat) (m : gmap cstr Z).
Context (Hok : table_ok l n) (Hmap : table_map l m).

Lemma scan_spec k :
  (hindex_scan l n k = None /\ m !! k = None) \/
  (exists p i, hindex_scan l n k = Some p /\ live_at l p k i /\ m !! k = Some i).
Proof.
  destruct Hok as [Hlen Hpos _ Huniq Hreach]. unfold hindex_scan.
  destruct (m !! k) as [i|] eqn:Hk.
  - right. apply Hmap in Hk as [p Hp].
    destruct (Hreach _ _ _ Hp) as (d & Hd & -> & Hb).
    exists ((home n k + d) mod n)%nat, i. split_and!; auto.
    rewrite <- (Nat.mod_small (home n k) n) at 1 by eauto using home_lt.
    rewrite <- (Nat.add_0_r (home n k)) at 1.
    eapply scan_loop_hit; eauto; lia.
  - left. split; [|done].
    destruct (hindex_scan_loop n l n (home n k) k) as [p|] eqn:Hs; [|done].
    apply scan_loop_sound in Hs as [i Hi]; [|done..].
    assert (m !! k = Some i) by (apply Hmap; eauto). congruence.
Qed.

(** Overwriting one slot with an occupied entry. *)
Lemma write_ok p e0 e m' :
  l !! p = Some e0 -> ent_state e <> HINDEX_EMPTY ->
  (ent_state e = HINDEX_LIVE <-> is_Some (ent_key e)) ->
  (forall k i, e = Ent (Some k) i HINDEX_LIVE ->
     reachable l n p k /\ forall q j, live_at l q k j -> q = p) ->
  (forall k i, m' !! k = Some i <->
     e = Ent (Some k) i HINDEX_LIVE \/ exists q, q <> p /\ live_at l q k i) ->
  table_ok (<[p:=e]> l) n /\ table_map (<[p:=e]> l) m'.
Proof.
  intros He Hst Hkey Hnew Hm'. pose proof (lookup_lt_Some _ _ _ He) as Hlt.
  split; [split|].
  - rewrite length_insert. apply Hok.
  - apply Hok.
  - eapply tok_key_insert; [apply Hok|done].
  - intros q1 q2 k' i1 i2. rewrite !live_at_insert by done.
    intros [[-> H1]|[Hn1 H1]] [[-> H2]|[Hn2 H2]]; auto.
    + symmetry. by eapply Hnew.
    + by eapply Hnew.
    + eapply tok_uniq; eauto.
  - intros q k' i'. rewrite live_at_insert by done.
    intros [[-> H]|[Hn H]]; eapply reachable_insert; try done.
    + by apply (Hnew _ _ H).
    + eapply tok_reach; eauto.
  - intros k' i'. rewrite Hm'. setoid_rewrite live_at_insert; [|done]. split.
    + intros [->|(q & ? & ?)]; eauto.
    + intros (q & [[_ ->]|[? ?]]); eauto.
Qed.

(** Writing a new live entry into a free slot reached by its probing loop. *)
Lemma place_ok p k i d e :
  m !! k = None -> (d < n)%nat -> p = ((home n k + d) mod n)%nat ->
  l !! p = Some e -> ent_state e <> HINDEX_LIVE ->
  (forall j, (j < d)%nat -> busy l ((home n k + j) mod n)%nat) ->
  let l' := <[p:=Ent (Some k) i HINDEX_LIVE]> l in
  table_ok l' n /\ table_map l' (<[k:=i]> m).
Proof.
  intros Hk Hd Hp He Hst Hb l'.
  assert (Hnew : forall q j, ~ live_at l q k j).
  { intros q j Hq. assert (m !! k = Some j) by (apply Hmap; eauto). congruence. }
  eapply write_ok; simpl; eauto.
  - by split; eauto.
  - intros k' i' [= <- <-]. split; [by exists d|]. intros q j Hq. by apply Hnew in Hq.
  - intros k' i'. rewrite lookup_insert_Some, (Hmap k' i'). split.
    + intros [[-> ->]|[Hne [q Hq]]]; [auto|]. right. exists q. split; [|done].
      intros ->. unfold live_at in Hq. rewrite He in Hq. by simplify_eq/=.
    + intros [[= <- <-]|[q [Hn H]]]; [auto|].
      right. split; [intros ->; by apply Hnew in H|eauto].
Qed.

Lemma kill_ok p k i :
  live_at l p k i ->
  let l' := <[p:=Ent None 0 HINDEX_DEAD]> l in
  table_ok l' n /\ table_map l' (delete k m).
Proof.
  intros Hp l'. eapply write_ok; simpl; eauto.
  - split; [intros [=]|intros [? [=]]].
  - intros ? ? [=].
  - intros k' i'. rewrite lookup_delete_Some, (Hmap k' i'). split.
    + intros [Hne [q Hq]]. right. exists q. split; [|done].
      intros ->. unfold live_at in *. by simplify_eq.
    + intros [?|[q [Hn H]]]; [done|]. split; [|eauto].
      intros ->. apply Hn. eapply tok_uniq; eauto.
Qed.

Lemma update_ok p k i i' :
  live_at l p k i ->
  let l' := <[p:=Ent (Some k) i' HINDEX_LIVE]> l in
  table_ok l' n /\ table_map l' (<[k:=i']> m).
Proof.
  intros Hp l'. eapply write_ok; simpl; eauto.
  - by split; eauto.
  - intros k' j [= <- <-]. split; [eapply tok_reach; eauto|].
    intros q j Hq. eapply tok_uniq; eauto.
  - intros k' j. rewrite lookup_insert_Some, (Hmap k' j). split.
    + intros [[-> ->]|[Hne [q Hq]]]; [auto|]. right. exists q. split; [|done].
      intros ->. unfold live_at in *. by simplify_eq.
    + intros [[= <- <-]|[q [Hn H]]]; [auto|]. right. split; [|eauto].
      intros ->. apply Hn. eapply tok_uniq; eauto.
Qed.

End table.

(** ** Counting the slots *)

Lemma count_state_insert f l p e0 e :
  l !! p = Some e0 ->
  (count_state f (<[p:=e]> l) + Nat.b2n (f (ent_state e0)) =
   count_state f l + Nat.b2n (f (ent_state e)))%nat.
Proof.
  intros Hp. unfold count_state.
  pose proof (length_filter_insert (fun x => f (ent_state x) = true) l p e0 e Hp) as H.
  destruct (f (ent_state e0)) eqn:E0, (f (ent_state e)) eqn:E1; simpl in *;
    rewrite E0, E1 in H; repeat case_decide; simpl in *; try congruence; lia.
Qed.

Lemma count_state_zero f n : f HINDEX_EMPTY = false -> count_state f (replicate n ent_zero) = 0%nat.
Proof.
  intros Hf. unfold count_state. induction n as [|n IH]; [done|].
  simpl. rewrite filter_cons. simpl. rewrite Hf. case_decide; [done|]. exact IH.
Qed.

Lemma count_live_le_busy l : (count_state is_live l <= count_state is_busy l)%nat.
Proof.
  unfold count_state. induction l as [|e l IH]; simpl; [lia|].
  rewrite !filter_cons. destruct (ent_state e);
    repeat first [rewrite decide_True by done | rewrite decide_False by done]; simpl; lia.
Qed.

(** A table that is not fully occupied has an empty slot. *)
Lemma empty_slot l n :
  length l = n -> (count_state is_busy l < n)%nat ->
  exists p e, l !! p = Some e /\ is_empty (ent_state e) = true.
Proof.
  intros <- Hlt. apply length_filter_lt in Hlt as (p & e & Hp & He).
  exists p, e. split; [done|]. by destruct (ent_state e).
Qed.

(** ** Compaction *)

(** A table with no tombstone, as [hindex_pack] builds it. *)
Definition no_dead (l : list hindex_ent_t) : Prop :=
  forall p e, l !! p = Some e -> ent_state e <> HINDEX_DEAD.

Lemma pack_zero_ok n :
  (0 < n)%nat -> table_ok (replicate n ent_zero) n /\ table_map (replicate n ent_zero) ∅ /\
  no_dead (replicate n ent_zero).
Proof.
  intros Hn.
  assert (Hz : forall p e, replicate n ent_zero !! p = Some e -> e = ent_zero).
  { intros p e Hp. by apply lookup_replicate in Hp as [-> _]. }
  assert (Hl : forall p k i, ~ live_at (replicate n ent_zero) p k i).
  { intros p k i Hp. by apply Hz in Hp. }
  split_and!; [split| |].
  - apply length_replicate.
  - done.
  - intros p e He. apply Hz in He as ->. simpl. split; [intros [=]|intros [? [=]]].
  - intros p q k i j Hp. by apply Hl in Hp.
  - intros p k i Hp. by apply Hl in Hp.
  - intros k i. rewrite lookup_empty. split; [done|]. intros [p Hp]. by apply Hl in Hp.
  - intros p e He. by apply Hz in He as ->.
Qed.

(** The probing loop of an insertion, in a table with an empty slot: it ends,
    and the slot it returns can take the key. *)
Lemma probe_insert_ok stop l n m k i :
  table_ok l n -> table_map l m -> m !! k = None ->
  (forall s, stop s = true -> s <> HINDEX_LIVE) ->
  (forall p e, l !! p = Some e -> stop (ent_state e) = false -> ent_state e <> HINDEX_EMPTY) ->
  (exists p e, l !! p = Some e /\ stop (ent_state e) = true) ->
  exists p e, probe_loop stop n l n (home n k) = Some p /\ l !! p = Some e /\
    stop (ent_state e) = true /\
    table_ok (<[p:=Ent (Some k) i HINDEX_LIVE]> l) n /\
    table_map (<[p:=Ent (Some k) i HINDEX_LIVE]> l) (<[k:=i]> m).
Proof.
  intros Hok Hmap Hk Hstop Hgo (q & e & Hq & He).
  pose proof (tok_len _ _ Hok) as Hlen. pose proof (tok_pos _ _ Hok) as Hpos.
  assert (Hb : (home n k < n)%nat) by eauto using home_lt.
  assert (Hbase : home n k = ((home n k + 0) mod n)%nat)
    by (rewrite Nat.add_0_r, Nat.mod_small; done).
  destruct (probe_loop_total l n Hlen Hpos stop (home n k) 0 n q e) as [p Hp]; try done.
  { intros j Hj. lia. }
  rewrite <- Hbase in Hp. exists p.
  pose proof Hp as Hp'. rewrite Hbase in Hp'.
  apply probe_loop_spec in Hp' as (d & Hd & Hpd & (e' & He' & Hs) & Hbefore); [|done..].
  exists e'. split; [done|]. split; [done|]. split; [done|].
  eapply place_ok; eauto. intros j Hj. destruct (Hbefore j Hj) as (e2 & He2 & Hs2).
  exists e2. split; [done|]. eauto.
Qed.

Lemma live_at_cons e l k i :
  (exists p, live_at (e :: l) p k i) <->
  e = Ent (Some k) i HINDEX_LIVE \/ exists p, live_at l p k i.
Proof.
  unfold live_at. split.
  - intros [[|p] Hp]; simpl in Hp; [left; by simplify_eq|eauto].
  - intros [->|[p Hp]]; [by exists 0%nat|by exists (S p)].
Qed.

Record pack_inv (n : nat) (neu : list hindex_ent_t) (live : nat) (m : gmap cstr Z) : Prop := {
  pi_ok : table_ok neu n;
  pi_map : table_map neu m;
  pi_dead : no_dead neu;
  pi_live : count_state is_live neu = live;
  pi_busy : count_state is_busy neu = live;
}.

Lemma pack_place n neu live m k i :
  pack_inv n neu live m -> m !! k = None -> (live < n)%nat ->
  exists pos, probe_loop not_live n neu n (home n k) = Some pos /\
    pack_inv n (<[pos:=Ent (Some k) i HINDEX_LIVE]> neu) (S live) (<[k:=i]> m).
Proof.
  intros [Hok Hmap Hnd Hl Hb] Hk Hlt.
  assert (Hst : forall p e, neu !! p = Some e ->
            not_live (ent_state e) = is_empty (ent_state e)).
  { intros p e He. specialize (Hnd _ _ He). by destruct (ent_state e). }
  destruct (probe_insert_ok not_live neu n m k i) as (p & e & Hp & He & Hs & Hok' & Hmap');
    try done.
  - by intros [].
  - intros p e He Hs. rewrite (Hst p e) in Hs by done. by destruct (ent_state e).
  - destruct (empty_slot neu n) as (p & e & Hp & He); [apply Hok|lia|].
    exists p, e. by rewrite (Hst p e).
  - exists p. split; [done|]. rewrite (Hst p e) in Hs by done. split; auto.
    + intros q e'. rewrite list_lookup_insert_Some.
      intros [(_ & <- & _)|(_ & Hq)]; [done|eauto].
    + pose proof (count_state_insert is_live neu p e (Ent (Some k) i HINDEX_LIVE) He).
      destruct (ent_state e); try done; cbn in *; lia.
    + pose proof (count_state_insert is_busy neu p e (Ent (Some k) i HINDEX_LIVE) He).
      destruct (ent_state e); try done; cbn in *; lia.
Qed.

Definition keys_ok (old : list hindex_ent_t) (m : gmap cstr Z) : Prop :=
  (forall p e, old !! p = Some e -> (ent_state e = HINDEX_LIVE <-> is_Some (ent_key e))) /\
  (forall p q k i j, live_at old p k i -> live_at old q k j -> p = q) /\
  (forall p k i, live_at old p k i -> m !! k = None).

Lemma keys_ok_tail e old m : keys_ok (e :: old) m -> keys_ok old m.
Proof.
  intros (Hkey & Huniq & Hfresh). split_and!.
  - intros p e'. apply (Hkey (S p)).
  - intros p q k i j Hp Hq. pose proof (Huniq (S p) (S q) k i j Hp Hq). lia.
  - intros p k i. apply (Hfresh (S p)).
Qed.

(** Moving every live entry of [old] into a table without tombstones keeps
    their bindings, whatever the order of the slots. *)
Lemma pack_loop_ok old n neu live m :
  pack_inv n neu live m -> keys_ok old m ->
  (live + count_state is_live old <= n)%nat ->
  exists neu' m', hindex_pack_loop old n neu live = Some (neu', live + count_state is_live old)%nat /\
    pack_inv n neu' (live + count_state is_live old) m' /\
    forall k i, m' !! k = Some i <-> m !! k = Some i \/ exists p, live_at old p k i.
Proof.
  revert neu live m. induction old as [|e old IH]; intros neu live m Hinv Hkeys Hn.
  { exists neu, m. rewrite Nat.add_0_r. split_and!; auto.
    intros k i. split; [auto|]. intros [?|[p Hp]]; done. }
  pose proof (keys_ok_tail _ _ _ Hkeys) as Htail.
  destruct Hkeys as (Hkey & Huniq & Hfresh).
  destruct e as [ek ei es]. pose proof (Hkey 0%nat _ eq_refl) as Hk0. simpl in Hk0.
  unfold count_state in *. rewrite filter_cons in Hn |- *. simpl in Hn |- *.
  destruct (decide (es = HINDEX_LIVE)) as [->|Hes].
  - destruct Hk0 as [Hk0 _]. destruct Hk0 as [k Hk]; [done|]. simpl in Hk. subst ek.
    rewrite decide_True in Hn |- * by done. simpl in Hn |- *.
    destruct (pack_place n neu live m k ei) as (pos & Hpos & Hinv'); [done| |lia|].
    { by apply (Hfresh 0%nat k ei). }
    rewrite Hpos. destruct (IH _ _ _ Hinv') as (neu' & m' & Hl & Hi & Hm').
    { destruct Htail as (? & ? & Hf). split_and!; auto. intros p k' i' Hp.
      rewrite lookup_insert_ne; [eauto|]. intros <-.
      pose proof (Huniq 0%nat (S p) k ei i' eq_refl Hp). lia. }
    { simpl. lia. }
    rewrite <- Nat.add_succ_comm. exists neu', m'. split_and!; auto.
    intros k' i'. rewrite Hm', lookup_insert_Some, live_at_cons.
    split; [intros [[[-> ->]|[? ?]]|?]; auto|].
    intros [Hm|[[= -> ->]|?]]; auto. left. right. split; [|done].
    intros ->. pose proof (Hfresh 0%nat k' ei eq_refl). congruence.
  - rewrite decide_False in Hn |- * by (by destruct es).
    destruct (IH _ _ _ Hinv Htail Hn) as (neu' & m' & Hl & Hi & Hm').
    exists neu', m'. split_and!; auto; [destruct es; done|].
    intros k i. rewrite Hm', live_at_cons. split; [intros [?|?]; auto|].
    intros [?|[[= -> -> ->]|?]]; auto. done.
Qed.

(** ** The operations against the map *)

Lemma table_map_size l m :
  table_map l m -> (forall p q k i j, live_at l p k i -> live_at l q k j -> p = q) ->
  (forall p e, l !! p = Some e -> (ent_state e = HINDEX_LIVE <-> is_Some (ent_key e))) ->
  count_state is_live l = size m.
Proof.
  revert m. induction l as [|e l IH]; intros m Hmap Huniq Hkey.
  { assert (m = ∅) as ->; [|done]. apply map_empty. intros k.
    destruct (m !! k) as [i|] eqn:Hk; [|done]. by apply Hmap in Hk as [p Hp]. }
  assert (Huniq' : forall p q k i j, live_at l p k i -> live_at l q k j -> p = q).
  { intros p q k i j Hp Hq. pose proof (Huniq (S p) (S q) k i j Hp Hq). lia. }
  assert (Hkey' : forall p e, l !! p = Some e ->
            (ent_state e = HINDEX_LIVE <-> is_Some (ent_key e))) by (intros p; apply (Hkey (S p))).
  pose proof (Hkey 0%nat e eq_refl) as Hk0.
  unfold count_state in *. rewrite filter_cons.
  destruct (decide (ent_state e = HINDEX_LIVE)) as [He|He].
  - destruct e as [ek ei es]; simpl in He, Hk0; subst es.
    destruct Hk0 as [[k ->] _]; [done|]. rewrite decide_True by done. simpl.
    assert (Hl : forall j q, ~ live_at l q k j).
    { intros j q Hq. pose proof (Huniq 0%nat (S q) k ei j eq_refl Hq). lia. }
    assert (Hmk : m !! k = Some ei) by (apply Hmap; by exists 0%nat).
    rewrite <- (insert_delete_id m k ei Hmk), map_size_insert_None by apply lookup_delete_eq.
    f_equal. apply IH; auto.
    intros k' i. rewrite lookup_delete_Some, (Hmap k' i), live_at_cons. split.
    + intros [Hne [[= <- _]|?]]; done.
    + intros [q Hq]. split; [|eauto]. intros <-. by eapply Hl.
  - rewrite decide_False by (by destruct (ent_state e)). apply IH; auto.
    intros k i. rewrite (Hmap k i), live_at_cons. split; [|auto].
    intros [->|?]; done.
Qed.

Lemma rep_size h m : hindex_rep h m -> cnt h = size m.
Proof.
  intros (l & _ & [? ? Hkey Huniq ?] & Hmap & -> & _). by apply table_map_size.
Qed.

Lemma count_state_le f l : (count_state f l <= length l)%nat.
Proof. apply length_filter. Qed.

Lemma rep_bounds h m :
  hindex_rep h m -> (cnt h <= used h <= cap h)%nat /\ (0 < cap h)%nat /\ Z.of_nat (cap h) * 24 < 2 ^ 64.
Proof.
  intros (l & _ & Hok & _ & -> & -> & Hc).
  pose proof (count_live_le_busy l). pose proof (count_state_le is_busy l).
  pose proof (tok_len _ _ Hok). pose proof (tok_pos _ _ Hok).
  unfold sizeof_hindex_ent in Hc. split_and!; lia.
Qed.

(** The 64-bit products of the load test are exact. *)
Lemma over_load_spec h m :
  hindex_rep h m -> over_load h = (3 * cap h <=? 4 * used h)%nat.
Proof.
  intros (Hle & Hpos & Hc)%rep_bounds. unfold over_load.
  rewrite !u64_small by lia. destruct (Nat.leb_spec (3 * cap h) (4 * used h)).
  - apply Z.leb_le. lia.
  - apply Z.leb_gt. lia.
Qed.

Lemma hindex_get_rep h m k :
  hindex_rep h m -> hindex_get (Some h) (Some k) = default (-1) (s64 <$> m !! k).
Proof.
  intros Hrep. pose proof (rep_size _ _ Hrep) as Hsz.
  destruct Hrep as (l & Hl & Hok & Hmap & Hc & _). unfold hindex_get. rewrite Hl.
  destruct (Nat.eqb_spec (cnt h) 0) as [Hz|_].
  { rewrite Hz in Hsz. symmetry in Hsz. apply map_size_empty_iff in Hsz as ->.
    by rewrite lookup_empty. }
  destruct (scan_spec l (cap h) m Hok Hmap k) as [[-> ->]|(p & i & -> & Hp & ->)]; [done|].
  by rewrite Hp.
Qed.

Lemma hindex_del_rep h m k :
  hindex_rep h m -> exists h', hindex_del (Some h) (Some k) = Some h' /\
    cap h' = cap h /\ hindex_rep h' (delete k m).
Proof.
  intros Hrep. pose proof (rep_size _ _ Hrep) as Hsz. pose proof Hrep as Hrep0.
  destruct Hrep as (l & Hl & Hok & Hmap & Hc & Hu & Hcap). unfold hindex_del. rewrite Hl.
  assert (Hid : m !! k = None -> hindex_rep h (delete k m)) by (intros; by rewrite delete_id).
  destruct (Nat.eqb_spec (cnt h) 0) as [Hz|_].
  { exists h. split_and!; auto. apply Hid.
    rewrite Hz in Hsz. symmetry in Hsz. by apply map_size_empty_iff in Hsz as ->. }
  destruct (scan_spec l (cap h) m Hok Hmap k) as [[-> ?]|(p & i & -> & Hp & ?)]; [eauto|].
  eexists. split_and!; [done..|].
  destruct (kill_ok l (cap h) m Hok Hmap p k i Hp) as [Hok' Hmap'].
  eexists. split_and!; [done..| | |done]; simpl.
  - pose proof (count_state_insert is_live l p _ (Ent None 0 HINDEX_DEAD) Hp). simpl in *. lia.
  - pose proof (count_state_insert is_busy l p _ (Ent None 0 HINDEX_DEAD) Hp). simpl in *. lia.
Qed.

(** Compaction terminates, keeps every binding and reclaims the tombstones. *)
Lemma hindex_pack_rep h l m :
  hindex_rep h m -> ents h = Some l ->
  exists h', hindex_pack l h true = Some (AIRY_SUCCESS, h') /\
    cap h' = cap h /\ hindex_rep h' m /\ used h' = size m.
Proof.
  intros Hrep Hl. pose proof (rep_bounds _ _ Hrep) as (Hle & Hpos & Hc).
  pose proof (rep_size _ _ Hrep) as Hsz.
  destruct Hrep as (l' & Hl' & Hok & Hmap & Hcnt & Hused & Hcap).
  assert (l' = l) as -> by congruence. unfold hindex_pack, calloc_ok.
  rewrite (proj2 (Z.ltb_lt _ _) Hcap). simpl.
  destruct (pack_zero_ok (cap h) Hpos) as (Hok0 & Hmap0 & Hnd0).
  destruct (pack_loop_ok l (cap h) (replicate (cap h) ent_zero) 0 ∅)
    as (neu & m' & -> & [Hok' Hmap' Hnd' Hl1 Hb1] & Hm').
  - split; auto; by apply count_state_zero.
  - split_and!; [apply Hok|apply Hok|]. intros. apply lookup_empty.
  - pose proof (count_state_le is_live l). rewrite (tok_len _ _ Hok) in *. lia.
  - eexists. split; [done|]. split; [done|]. simpl.
    assert (m' = m) as ->.
    { apply map_eq. intros k. apply option_eq. intros i. rewrite Hm', lookup_empty.
      rewrite (Hmap k i). split; [by intros [?|?]|auto]. }
    split; [|simpl in *; lia]. exists neu. simpl in *. split_and!; auto.
Qed.

Lemma insert_new_rep h m k i :
  hindex_rep h m -> m !! k = None -> over_load h = false ->
  exists h', hindex_insert_new h k i true = Some (AIRY_SUCCESS, h') /\
    cap h' = cap h /\ hindex_rep h' (<[k:=i]> m).
Proof.
  intros Hrep Hk Hload. rewrite (over_load_spec _ _ Hrep) in Hload.
  apply Nat.leb_gt in Hload.
  destruct Hrep as (l & Hl & Hok & Hmap & Hcnt & Hused & Hcap).
  unfold hindex_insert_new. rewrite Hl.
  destruct (probe_insert_ok is_empty l (cap h) m k i) as (p & e & -> & He & Hs & Hok' & Hmap');
    try done.
  - by intros [].
  - intros p e _. by destruct (ent_state e).
  - eapply empty_slot; [apply Hok|]. lia.
  - eexists. split_and!; [done..|]. eexists. split_and!; [done..| | |done]; simpl.
    + pose proof (count_state_insert is_live l p e (Ent (Some k) i HINDEX_LIVE) He).
      destruct (ent_state e); simpl in *; try done; lia.
    + pose proof (count_state_insert is_busy l p e (Ent (Some k) i HINDEX_LIVE) He).
      destruct (ent_state e); simpl in *; try done; lia.
Qed.

Lemma hindex_put_update h m k i a b :
  hindex_rep h m -> is_Some (m !! k) ->
  exists h', hindex_put (Some h) (Some k) i a b = Some (AIRY_SUCCESS, Some h') /\
    cap h' = cap h /\ hindex_rep h' (<[k:=i]> m).
Proof.
  intros (l & Hl & Hok & Hmap & Hcnt & Hused & Hcap) [j Hj].
  unfold hindex_put. rewrite Hl.
  destruct (scan_spec l (cap h) m Hok Hmap k) as [[_ ?]|(p & i' & -> & Hp & _)]; [congruence|].
  eexists. split_and!; [done..|].
  replace (alter _ p l) with (<[p:=Ent (Some k) i HINDEX_LIVE]> l).
  2:{ rewrite list_insert_alter. apply list_alter_ext; [|done]. intros e He.
      unfold live_at in Hp. by simplify_eq/=. }
  destruct (update_ok l (cap h) m Hok Hmap p k i' i Hp) as [Hok' Hmap'].
  eexists. split_and!; [done..| | |done]; simpl.
  - pose proof (count_state_insert is_live l p _ (Ent (Some k) i HINDEX_LIVE) Hp). simpl in *. lia.
  - pose proof (count_state_insert is_busy l p _ (Ent (Some k) i HINDEX_LIVE) Hp). simpl in *. lia.
Qed.

Lemma insert_new_fail h m k i :
  hindex_rep h m -> hindex_insert_new h k i false = Some (AIRY_ERR_OUT_OF_MEMORY, h).
Proof. intros (l & Hl & _). unfold hindex_insert_new. by rewrite Hl. Qed.

(** Every branch of [hindex_put] on a key that is not there. *)
Lemma hindex_put_new h m k i a b :
  hindex_rep h m -> m !! k = None ->
  exists rc m' h', hindex_put (Some h) (Some k) i a b = Some (rc, Some h') /\
    cap h' = cap h /\ hindex_rep h' m' /\ index_step (cap h) m (OpPut k i a b) rc m'.
Proof.
  intros Hrep Hk. pose proof (over_load_spec _ _ Hrep) as Hld.
  pose proof (rep_size _ _ Hrep) as Hsz. pose proof (rep_bounds _ _ Hrep) as (Hle & _ & _).
  assert (Hins : forall h0, hindex_rep h0 m -> cap h0 = cap h -> over_load h0 = false ->
    exists rc m' h', hindex_insert_new h0 k i b = Some (rc, h') /\
      cap h' = cap h /\ hindex_rep h' m' /\ index_step (cap h) m (OpPut k i a b) rc m').
  { intros h0 Hrep0 Hcap0 Hld0. destruct b.
    - destruct (insert_new_rep h0 m k i) as (h' & ? & ? & ?); try done.
      exists AIRY_SUCCESS, (<[k:=i]> m), h'. split_and!; auto; [congruence|].
      constructor; [done|]. rewrite (over_load_spec _ _ Hrep0) in Hld0.
      apply Nat.leb_gt in Hld0. pose proof (rep_size _ _ Hrep0).
      pose proof (rep_bounds _ _ Hrep0) as (? & _ & _). lia.
    - exists AIRY_ERR_OUT_OF_MEMORY, m, h0. rewrite (insert_new_fail h0 m) by done.
      split_and!; auto. constructor; auto. }
  pose proof Hrep as (l & Hl & Hok & Hmap & _). unfold hindex_put. rewrite Hl.
  destruct (scan_spec l (cap h) m Hok Hmap k) as [[-> _]|(p & i' & _ & _ & ?)]; [|congruence].
  destruct (over_load h) eqn:Hover.
  2:{ destruct (Hins h Hrep eq_refl Hover) as (rc & m' & h' & -> & ?). eauto 10. }
  symmetry in Hld. apply Nat.leb_le in Hld.
  destruct (Nat.ltb_spec (cnt h) (used h)).
  2:{ exists AIRY_ERR_OUT_OF_MEMORY, m, h. split_and!; auto. constructor; [done|]. lia. }
  destruct a.
  - destruct (hindex_pack_rep h l m Hrep Hl) as (h1 & -> & Hc1 & Hrep1 & Hu1). simpl.
    destruct (over_load h1) eqn:Hover1.
    + exists AIRY_ERR_OUT_OF_MEMORY, m, h1. split_and!; auto. constructor; [done|].
      rewrite (over_load_spec _ _ Hrep1) in Hover1. apply Nat.leb_le in Hover1. lia.
    + destruct (Hins h1 Hrep1 Hc1 Hover1) as (rc & m' & h' & -> & ?). eauto 10.
  - unfold hindex_pack, calloc_ok. rewrite andb_false_r. simpl.
    exists AIRY_ERR_OUT_OF_MEMORY, m, h. split_and!; auto. constructor; auto.
Qed.

Lemma hindex_call_refines h m op :
  hindex_rep h m ->
  exists r m' h', hindex_call h op = Some (r, Some h') /\ cap h' = cap h /\
    hindex_rep h' m' /\ index_step (cap h) m op r m'.
Proof.
  intros Hrep. destruct op as [k i a b|k|k]; cbn [hindex_call].
  - destruct (m !! k) as [j|] eqn:Hk; [|by apply hindex_put_new].
    destruct (hindex_put_update h m k i a b) as (h' & ? & ? & ?); eauto.
    exists AIRY_SUCCESS, (<[k:=i]> m), h'. split_and!; auto. constructor; eauto.
  - eexists _, m, h. split_and!; auto. rewrite (hindex_get_rep h m k) by done. constructor.
  - destruct (hindex_del_rep h m k Hrep) as (h' & ? & ? & ?).
    exists 0, (delete k m), h'. rewrite H. split_and!; auto. constructor.
Qed.

Lemma hindex_calls_refine ops h m :
  hindex_rep h m ->
  exists rs m' h', hindex_calls h ops = Some (rs, h') /\ cap h' = cap h /\
    hindex_rep h' m' /\ index_run (cap h) m ops rs m'.
Proof.
  revert h m. induction ops as [|op ops IH]; intros h m Hrep; simpl.
  { exists [], m, h. split_and!; auto. constructor. }
  destruct (hindex_call_refines h m op Hrep) as (r & m1 & h1 & -> & Hc1 & Hrep1 & Hs1).
  destruct (IH h1 m1 Hrep1) as (rs & m' & h' & -> & Hc' & Hrep' & Hs').
  exists (r :: rs), m', h'. rewrite Hc1 in *. split_and!; auto. econstructor; eauto.
Qed.

Lemma hindex_init_rep n h :
  hindex_init true n true = (AIRY_SUCCESS, Some h) -> cap h = n /\ hindex_rep h ∅.
Proof.
  unfold hindex_init, calloc_ok. simpl. destruct (Nat.eqb_spec n 0); [done|].
  rewrite andb_true_r. case_match eqn:Hc; intros [= <-]. split; [done|].
  apply Z.ltb_lt in Hc. destruct (pack_zero_ok n) as (? & ? & _); [lia|].
  eexists. split_and!; simpl; auto; symmetry; by apply count_state_zero.
Qed.

(** ** Properties *)

(** C10: every sequence of put, get and del calls on an index made by
    [hindex_init] returns (no probing loop runs for ever, whatever the
    allocator answers), and its results are those of a finite map from strings
    to indices whose puts of a new key may fail only when an allocation fails
    or when three quarters of the slots hold live keys. *)
Theorem hindex_refines_map n h ops :
  hindex_init true n true = (AIRY_SUCCESS, Some h) ->
  exists rs m h', hindex_calls h ops = Some (rs, h') /\ index_run n ∅ ops rs m /\
    hindex_rep h' m.
Proof.
  intros [<- Hrep]%hindex_init_rep.
  destruct (hindex_calls_refine ops h ∅ Hrep) as (rs & m & h' & ? & ? & ? & ?). eauto 10.
Qed.

Definition ka : cstr := [97].
Definition kb : cstr := [98].
Definition ke : cstr := [101].

Lemma hindex_refines_map_witness :
  exists rs m h', hindex_calls (HIndex (Some (replicate 4 ent_zero)) 4 0 0)
      [OpPut ka 7 true true; OpPut ke 9 true true; OpDel ka; OpGet ke; OpGet ka] =
      Some (rs, h') /\
    index_run 4 ∅ [OpPut ka 7 true true; OpPut ke 9 true true; OpDel ka; OpGet ke; OpGet ka] rs m /\
    hindex_rep h' m.
Proof. apply (hindex_refines_map 4). reflexivity. Defined.

(** Deleting the head of a probing cluster does not hide the keys behind it. *)
Example hindex_cluster :
  home 4 ka = home 4 ke /\
  fst <$> hindex_calls (HIndex (Some (replicate 4 ent_zero)) 4 0 0)
    [OpPut ka 7 true true; OpPut ke 9 true true; OpDel ka; OpGet ke; OpGet ka] =
  Some [0; 0; 0; 9; -1].
Proof. by vm_compute. Qed.

(** A put of a new key into a represented index, with an allocator that
    answers, succeeds exactly when the live keys are below three quarters of
    the slots - tombstones never cost capacity - and otherwise fails closed:
    AIRY_ERR_OUT_OF_MEMORY and the same bindings. *)
Theorem hindex_put_capacity h m k i :
  hindex_rep h m -> m !! k = None ->
  exists rc h', hindex_put (Some h) (Some k) i true true = Some (rc, Some h') /\
    if (4 * size m <? 3 * cap h)%nat
    then rc = AIRY_SUCCESS /\ hindex_rep h' (<[k:=i]> m)
    else rc = AIRY_ERR_OUT_OF_MEMORY /\ hindex_rep h' m.
Proof.
  intros Hrep Hk.
  destruct (hindex_put_new h m k i true true Hrep Hk) as (rc & m' & h' & Hput & _ & Hrep' & Hst).
  exists rc, h'. split; [done|].
  destruct (Nat.ltb_spec (4 * size m) (3 * cap h)) as [Hlt|Hge];
    inversion Hst as [? ? ? ? [? ?]|? ? ? ? ?|? ? ? ? ? Hwhy| |]; simplify_eq/=; auto; try lia.
Qed.

Lemma hindex_put_capacity_witness :
  hindex_rep (HIndex (Some (replicate 4 ent_zero)) 4 0 0) ∅ /\
  exists rc h', hindex_put (Some (HIndex (Some (replicate 4 ent_zero)) 4 0 0)) (Some ka) 5 true true
      = Some (rc, Some h') /\
    if (4 * size (∅ : gmap cstr Z) <? 3 * 4)%nat
    then rc = AIRY_SUCCESS /\ hindex_rep h' (<[ka:=5]> ∅)
    else rc = AIRY_ERR_OUT_OF_MEMORY /\ hindex_rep h' ∅.
Proof.
  assert (Hrep : hindex_rep (HIndex (Some (replicate 4 ent_zero)) 4 0 0) ∅)
    by (apply (hindex_init_rep 4); reflexivity).
  split; [exact Hrep|]. apply (hindex_put_capacity _ ∅ ka 5 Hrep). reflexivity.
Defined.
