(* ===== verification/Utf8.v ===== *)
(** * UTF-8 utilities of utils/string/safe_utf8.c

    Decoding of one sequence, validation, truncation to a character boundary
    and sanitising, against the encoder of RFC 3629 as the reference. *)
From S2P Require Import Prelude.

#[local] Ltac Zify.zify_post_hook ::= Z.to_euclidean_division_equations.

(** ** The code *)

Definition kMinCp (n : nat) : Z :=
  match n with
  | 2%nat => 0x80
  | 3%nat => 0x800
  | 4%nat => 0x10000
  | _ => 0
  end.

Definition kRepl : list Z := [0xEF; 0xBF; 0xBD].

Definition utf8_seq_len (first : Z) : nat :=
  if first <? 0x80 then 1
  else if Z.land first 0xE0 =? 0xC0 then 2
  else if Z.land first 0xF0 =? 0xE0 then 3
  else if Z.land first 0xF8 =? 0xF0 then 4
  else 0.

(** [s[j]]; the callers stay within the buffer, so the default is never
    read. *)
Definition byte_at (s : list Z) (j : nat) : Z := default 0 (s !! j).

(** The loop [for (j = 1; j < n; j++)]: [fuel] iterations from [j]. *)
Fixpoint utf8_cont_loop (s : list Z) (j fuel : nat) : bool :=
  match fuel with
  | O => true
  | S fuel' =>
      if negb (Z.land (byte_at s j) 0xC0 =? 0x80) then false
      else utf8_cont_loop s (S j) fuel'
  end.

Definition utf8_cont_ok (s : list Z) (n : nat) : bool := utf8_cont_loop s 1 (n - 1).

Fixpoint utf8_cp_loop (s : list Z) (j fuel : nat) (cp : Z) : Z :=
  match fuel with
  | O => cp
  | S fuel' =>
      utf8_cp_loop s (S j) fuel' (u32 (Z.lor (u32 (Z.shiftl cp 6)) (Z.land (byte_at s j) 0x3F)))
  end.

Definition utf8_cp (s : list Z) (n : nat) : Z :=
  let cp := if (n =? 1)%nat then byte_at s 0
            else Z.land (byte_at s 0) (Z.shiftr 0xFF (Z.of_nat n + 1)) in
  utf8_cp_loop s 1 (n - 1) cp.

Definition utf8_cp_ok (cp min_cp : Z) : bool :=
  if (cp <? min_cp) || (0x10FFFF <? cp) then false
  else (cp <? 0xD800) || (0xDFFF <? cp).

(** [None]: the code returns false and leaves its outputs alone. *)
Definition utf8_decode (s : list Z) (avail : nat) : option (nat * Z) :=
  let len := utf8_seq_len (byte_at s 0) in
  if (len =? 0)%nat || (avail <? len)%nat || negb (utf8_cont_ok s len) then None
  else
    let v := utf8_cp s len in
    if negb (utf8_cp_ok v (kMinCp len)) then None else Some (len, v).

(** The length of the unit and its validity. *)
Definition utf8_unit (s : list Z) (avail : nat) : nat * bool :=
  match utf8_decode s avail with
  | Some (n, _) => (n, true)
  | None =>
      let len := utf8_seq_len (byte_at s 0) in
      (if (len =? 0)%nat || (avail <? len)%nat then 1%nat else len, false)
  end.

(** The number of bytes left once the trailing continuation bytes are
    skipped. *)
Fixpoint skip_cont (s : list Z) (k : nat) : nat :=
  match k with
  | O => O
  | S k' => if Z.land (byte_at s k') 0xC0 =? 0x80 then skip_cont s k' else k
  end.

Definition utf8_prefix_len (s : option (list Z)) : nat :=
  match s with
  | None => 0
  | Some s =>
      let len := length s in
      if (len =? 0)%nat then 0
      else
        let k := skip_cont s len in
        if (k =? 0)%nat then 0
        else
          let need := utf8_seq_len (byte_at s (k - 1)) in
          if (need =? 0)%nat || (len - (k - 1) <? need)%nat then (k - 1)%nat else len
  end%nat.

(** The loops below advance by at least one byte per round, so the number of
    bytes left is enough fuel. *)
Fixpoint utf8_validate_loop (fuel : nat) (s : list Z) : bool :=
  match fuel with
  | O => true
  | S fuel' =>
      match s with
      | [] => true
      | c :: _ =>
          if c =? 0 then true
          else
            let '(n, valid) := utf8_unit s (length s) in
            if negb valid then false else utf8_validate_loop fuel' (drop n s)
      end
  end.

Definition utf8_validate (str : option (list Z)) : bool :=
  match str with
  | None => false
  | Some s => utf8_validate_loop (length s) s
  end.

(** [acc] is what was written to [out] so far. *)
Fixpoint utf8_sanitize_loop (fuel : nat) (s : list Z) (out_cap : nat) (acc : list Z) : list Z :=
  match fuel with
  | O => acc
  | S fuel' =>
      match s with
      | [] => acc
      | _ :: _ =>
          let '(n, valid) := utf8_unit s (length s) in
          let chunk := if valid then take n s else kRepl in
          if (out_cap <? length acc + length chunk + 1)%nat then acc
          else
            utf8_sanitize_loop fuel' (drop (if valid then n else 1%nat) s) out_cap (acc ++ chunk)
      end
  end.

(** The bytes written before the terminating NUL and their number; [None] for
    the early return, which writes nothing. *)
Definition utf8_sanitize (s : option (list Z)) (has_out : bool) (out_cap : nat)
    : nat * option (list Z) :=
  match s with
  | Some s =>
      if negb has_out || (out_cap =? 0)%nat then (0%nat, None)
      else let out := utf8_sanitize_loop (length s) s out_cap [] in (length out, Some out)
  | None => (0%nat, None)
  end.

(** ** The reference: RFC 3629 *)

Definition scalar (cp : Z) : Prop := 0 <= cp <= 0x10FFFF /\ ~ (0xD800 <= cp <= 0xDFFF).

Definition utf8_encode (cp : Z) : list Z :=
  if cp <? 0x80 then [cp]
  else if cp <? 0x800 then [0xC0 + cp / 64; 0x80 + cp mod 64]
  else if cp <? 0x10000 then
    [0xE0 + cp / 4096; 0x80 + cp / 64 mod 64; 0x80 + cp mod 64]
  else
    [0xF0 + cp / 262144; 0x80 + cp / 4096 mod 64; 0x80 + cp / 64 mod 64; 0x80 + cp mod 64].

Definition utf8_text (cps : list Z) : list Z := concat (utf8_encode <$> cps).

(** ** Byte classes *)

(** The mask tests as ranges, by evaluation over the 256 bytes. *)
Lemma seq_len_ranges b :
  is_byte b ->
  utf8_seq_len b =
    if b <? 0x80 then 1%nat else if b <? 0xC0 then 0%nat else if b <? 0xE0 then 2%nat
    else if b <? 0xF0 then 3%nat else if b <? 0xF8 then 4%nat else 0%nat.
Proof.
  intros Hb. apply Nat.eqb_eq. revert b Hb. apply byte_forall. by vm_compute.
Qed.

Lemma cont_range b :
  is_byte b -> (Z.land b 0xC0 =? 0x80) = (0x80 <=? b) && (b <? 0xC0).
Proof.
  intros Hb. apply eqb_prop. revert b Hb. apply byte_forall. by vm_compute.
Qed.

(** The payload bits of a byte of a class. *)
Lemma payload b q n :
  0 <= n -> q * 2 ^ n <= b < (q + 1) * 2 ^ n -> Z.land b (Z.ones n) = b - q * 2 ^ n.
Proof.
  intros Hn Hb. rewrite Z.land_ones by done.
  replace b with (b - q * 2 ^ n + q * 2 ^ n) at 1 by lia. rewrite Z.mod_add by lia.
  apply Z.mod_small. lia.
Qed.

(** One round of the decoding loop. *)
Lemma cp_step cp b :
  0 <= cp < 2 ^ 26 -> 0x80 <= b < 0xC0 ->
  u32 (Z.lor (u32 (Z.shiftl cp 6)) (Z.land b 0x3F)) = cp * 64 + (b - 0x80).
Proof.
  intros Hcp Hb. change 0x3F with (Z.ones 6). rewrite (payload b 2 6) by lia.
  rewrite (u32_small (Z.shiftl cp 6)) by (rewrite Z.shiftl_mul_pow2 by done; lia).
  rewrite lor_shiftl_add by lia. apply u32_small. lia.
Qed.

Definition is_cont (b : Z) : bool := (0x80 <=? b) && (b <? 0xC0).

Lemma is_cont_spec b : is_cont b = true <-> 0x80 <= b < 0xC0.
Proof. unfold is_cont. rewrite andb_true_iff, Z.leb_le, Z.ltb_lt. done. Qed.

(** ** Decoding, class by class *)

Lemma byte_at_0 b s : byte_at (b :: s) 0 = b.
Proof. done. Qed.

Lemma byte_at_S b s j : byte_at (b :: s) (S j) = byte_at s j.
Proof. done. Qed.

(** Unfold a decoding whose leading byte is known to be in a class. *)
Ltac decode_class :=
  unfold utf8_decode; rewrite byte_at_0, seq_len_ranges by (unfold is_byte; lia);
  repeat first
    [rewrite (proj2 (Z.ltb_ge _ _)) by lia | rewrite (proj2 (Z.ltb_lt _ _)) by lia];
  rewrite (proj2 (Nat.ltb_ge _ _)) by lia;
  unfold utf8_cont_ok, utf8_cp; simpl; rewrite ?byte_at_S, ?byte_at_0, ?cont_range by done.

Ltac decode_finish :=
  simpl; unfold utf8_cp_ok; bool_prop; simpl; try lia; done.

Section decode.
Context (b0 : Z) (rest : list Z) (avail : nat).

Lemma decode_1 :
  0 <= b0 < 0x80 -> (1 <= avail)%nat -> utf8_decode (b0 :: rest) avail = Some (1%nat, b0).
Proof. intros Hb Ha. decode_class. decode_finish. Qed.

Lemma decode_0 :
  0x80 <= b0 < 0xC0 \/ 0xF8 <= b0 < 256 -> utf8_decode (b0 :: rest) avail = None.
Proof.
  intros Hb. unfold utf8_decode. rewrite byte_at_0, seq_len_ranges by (unfold is_byte; lia).
  bool_prop; try lia; done.
Qed.

Lemma decode_2 b1 :
  0xC0 <= b0 < 0xE0 -> is_byte b1 -> (2 <= avail)%nat ->
  utf8_decode (b0 :: b1 :: rest) avail =
    let v := (b0 - 0xC0) * 64 + (b1 - 0x80) in
    if is_cont b1 && (0x80 <=? v) then Some (2%nat, v) else None.
Proof.
  intros Hb Hb1 Ha. decode_class. change (Z.shiftr 255 (Z.of_nat 2 + 1)) with (Z.ones 5).
  rewrite (payload b0 6 5) by lia. fold (is_cont b1).
  destruct (is_cont b1) eqn:Hc; [|done]. apply is_cont_spec in Hc.
  rewrite (cp_step _ b1) by lia. decode_finish.
Qed.

Lemma decode_3 b1 b2 :
  0xE0 <= b0 < 0xF0 -> is_byte b1 -> is_byte b2 -> (3 <= avail)%nat ->
  utf8_decode (b0 :: b1 :: b2 :: rest) avail =
    let v := ((b0 - 0xE0) * 64 + (b1 - 0x80)) * 64 + (b2 - 0x80) in
    if is_cont b1 && is_cont b2 && (0x800 <=? v) && ((v <? 0xD800) || (0xDFFF <? v))
    then Some (3%nat, v) else None.
Proof.
  intros Hb Hb1 Hb2 Ha. decode_class. change (Z.shiftr 255 (Z.of_nat 3 + 1)) with (Z.ones 4).
  rewrite (payload b0 14 4) by lia. fold (is_cont b1) (is_cont b2).
  destruct (is_cont b1) eqn:Hc1; [|done]. destruct (is_cont b2) eqn:Hc2; [|done].
  apply is_cont_spec in Hc1, Hc2.
  rewrite (cp_step _ b1), (cp_step _ b2) by lia. decode_finish.
Qed.

Lemma decode_4 b1 b2 b3 :
  0xF0 <= b0 < 0xF8 -> is_byte b1 -> is_byte b2 -> is_byte b3 -> (4 <= avail)%nat ->
  utf8_decode (b0 :: b1 :: b2 :: b3 :: rest) avail =
    let v := (((b0 - 0xF0) * 64 + (b1 - 0x80)) * 64 + (b2 - 0x80)) * 64 + (b3 - 0x80) in
    if is_cont b1 && is_cont b2 && is_cont b3 && (0x10000 <=? v) && (v <=? 0x10FFFF)
    then Some (4%nat, v) else None.
Proof.
  intros Hb Hb1 Hb2 Hb3 Ha. decode_class.
  change (Z.shiftr 255 (Z.of_nat 4 + 1)) with (Z.ones 3).
  rewrite (payload b0 30 3) by lia. fold (is_cont b1) (is_cont b2) (is_cont b3).
  destruct (is_cont b1) eqn:Hc1; [|done]. destruct (is_cont b2) eqn:Hc2; [|done].
  destruct (is_cont b3) eqn:Hc3; [|done].
  apply is_cont_spec in Hc1, Hc2, Hc3.
  rewrite (cp_step _ b1), (cp_step _ b2), (cp_step _ b3) by lia. decode_finish.
Qed.

End decode.

(** ** Decoding inverts encoding *)

Lemma encode_bytes cp : scalar cp -> Forall is_byte (utf8_encode cp).
Proof.
  intros [Hcp _]. unfold utf8_encode, is_byte.
  bool_prop;
    repeat (apply Forall_cons; split; [lia|]); by apply Forall_nil.
Qed.

Lemma decode_encode cp rest avail :
  scalar cp -> (length (utf8_encode cp) <= avail)%nat ->
  utf8_decode (utf8_encode cp ++ rest) avail = Some (length (utf8_encode cp), cp).
Proof.
  intros Hs Ha. pose proof (encode_bytes cp Hs) as Hb. destruct Hs as [Hcp Hsur].
  unfold utf8_encode in *.
  destruct (Z.ltb_spec cp 0x80); [apply decode_1; simpl in Ha; lia|].
  destruct (Z.ltb_spec cp 0x800); [|destruct (Z.ltb_spec cp 0x10000)]; simpl in Ha |- *;
    decompose_Forall_hyps; [rewrite decode_2|rewrite decode_3|rewrite decode_4];
    try done; try lia; cbv zeta; unfold is_cont.
  - replace ((192 + cp / 64 - 192) * 64 + (128 + cp mod 64 - 128)) with cp by lia.
    bool_prop; simpl; try lia; done.
  - replace (((224 + cp / 4096 - 224) * 64 + (128 + (cp / 64) mod 64 - 128)) * 64 +
      (128 + cp mod 64 - 128)) with cp by lia.
    bool_prop; simpl; try lia; done.
  - replace ((((240 + cp / 262144 - 240) * 64 + (128 + (cp / 4096) mod 64 - 128)) * 64 +
      (128 + (cp / 64) mod 64 - 128)) * 64 + (128 + cp mod 64 - 128)) with cp by lia.
    bool_prop; simpl; try lia; done.
Qed.

Lemma encode_2 a b : 2 <= a < 32 -> 0 <= b < 64 -> utf8_encode (a * 64 + b) = [0xC0 + a; 0x80 + b].
Proof.
  intros Ha Hb. unfold utf8_encode. bool_prop; try lia. repeat f_equal; lia.
Qed.

Lemma encode_3 a b c :
  0 <= a < 16 -> 0 <= b < 64 -> 0 <= c < 64 -> 0x800 <= (a * 64 + b) * 64 + c ->
  utf8_encode ((a * 64 + b) * 64 + c) = [0xE0 + a; 0x80 + b; 0x80 + c].
Proof.
  intros Ha Hb Hc Hmin. unfold utf8_encode. bool_prop; try lia. repeat f_equal; lia.
Qed.

Lemma encode_4 a b c d :
  0 <= a < 8 -> 0 <= b < 64 -> 0 <= c < 64 -> 0 <= d < 64 ->
  0x10000 <= ((a * 64 + b) * 64 + c) * 64 + d ->
  utf8_encode (((a * 64 + b) * 64 + c) * 64 + d) = [0xF0 + a; 0x80 + b; 0x80 + c; 0x80 + d].
Proof.
  intros Ha Hb Hc Hd Hmin. unfold utf8_encode. bool_prop; try lia. repeat f_equal; lia.
Qed.

(** What is accepted is the encoding of a scalar value and nothing else:
    overlong forms, surrogates and values past U+10FFFF are refused. *)
Lemma decode_sound s avail n cp :
  Forall is_byte s -> (avail <= length s)%nat -> utf8_decode s avail = Some (n, cp) ->
  scalar cp /\ n = length (utf8_encode cp) /\ take n s = utf8_encode cp.
Proof.
  intros Hs Ha Hd.
  assert (Hav : (utf8_seq_len (byte_at s 0) <= avail)%nat).
  { unfold utf8_decode in Hd. destruct (Nat.ltb_spec avail (utf8_seq_len (byte_at s 0))); [|lia].
    by rewrite orb_true_r in Hd. }
  destruct s as [|b0 s]; [unfold utf8_seq_len in Hav; simpl in *; lia|].
  rewrite byte_at_0 in Hav. inversion Hs as [|? ? Hb0 Hs']; subst.
  rewrite seq_len_ranges in Hav by done. unfold is_byte in Hb0.
  destruct (Z.ltb_spec b0 0x80).
  { rewrite decode_1 in Hd by (try lia; done). simplify_eq. unfold scalar, utf8_encode.
    rewrite (proj2 (Z.ltb_lt cp 0x80)) by lia. split_and!; [lia..|done|done]. }
  destruct (Z.ltb_spec b0 0xC0); [rewrite decode_0 in Hd by lia; done|].
  destruct (Z.ltb_spec b0 0xE0); [|destruct (Z.ltb_spec b0 0xF0);
    [|destruct (Z.ltb_spec b0 0xF8); [|rewrite decode_0 in Hd by lia; done]]].
  - destruct s as [|b1 s]; [simpl in *; lia|]. decompose_Forall_hyps.
    rewrite decode_2 in Hd by done. simpl in Hd.
    destruct (is_cont b1) eqn:Hc1; [|done]. apply is_cont_spec in Hc1.
    destruct (Z.leb_spec 0x80 ((b0 - 192) * 64 + (b1 - 128))); simpl in Hd; [|done].
    simplify_eq. rewrite encode_2 by lia. unfold scalar.
    split_and!; [lia..|done|]. simpl. repeat f_equal; lia.
  - destruct s as [|b1 [|b2 s]]; [simpl in *; lia..|]. decompose_Forall_hyps.
    rewrite decode_3 in Hd by done. cbv zeta in Hd.
    destruct (is_cont b1) eqn:Hc1; [|done]. destruct (is_cont b2) eqn:Hc2; [|done].
    apply is_cont_spec in Hc1, Hc2. simpl in Hd.
    destruct (_ && _) eqn:Hr in Hd; [|done].
    apply andb_true_iff in Hr as [Hlo%Z.leb_le Hr%orb_true_iff].
    rewrite !Z.ltb_lt in Hr. simplify_eq. rewrite encode_3 by lia. unfold scalar.
    split_and!; [lia..|done|]. simpl. repeat f_equal; lia.
  - destruct s as [|b1 [|b2 [|b3 s]]]; [simpl in *; lia..|]. decompose_Forall_hyps.
    rewrite decode_4 in Hd by done. cbv zeta in Hd.
    destruct (is_cont b1) eqn:Hc1; [|done]. destruct (is_cont b2) eqn:Hc2; [|done].
    destruct (is_cont b3) eqn:Hc3; [|done].
    apply is_cont_spec in Hc1, Hc2, Hc3. simpl in Hd.
    destruct (_ && _) eqn:Hr in Hd; [|done].
    apply andb_true_iff in Hr as [Hlo%Z.leb_le Hhi%Z.leb_le].
    simplify_eq. rewrite encode_4 by lia. unfold scalar.
    split_and!; [lia..|done|]. simpl. repeat f_equal; lia.
Qed.

Lemma encode_nonempty cp : utf8_encode cp <> [].
Proof. unfold utf8_encode. by repeat case_match. Qed.

Lemma encode_head_zero cp c s : scalar cp -> utf8_encode cp = c :: s -> (c = 0 <-> cp = 0).
Proof.
  intros [Hcp _]. unfold utf8_encode. bool_prop; intros; simplify_eq; lia.
Qed.

Lemma text_cons cp cps : utf8_text (cp :: cps) = utf8_encode cp ++ utf8_text cps.
Proof. done. Qed.

Lemma text_app a b : utf8_text (a ++ b) = utf8_text a ++ utf8_text b.
Proof. unfold utf8_text. by rewrite fmap_app, concat_app. Qed.

(** ** The unit of the two consumers *)

Lemma unit_valid s n :
  Forall is_byte s -> utf8_unit s (length s) = (n, true) ->
  exists cp, scalar cp /\ n = length (utf8_encode cp) /\ s = utf8_encode cp ++ drop n s.
Proof.
  unfold utf8_unit. intros Hs. destruct (utf8_decode s (length s)) as [[n' cp]|] eqn:Hd; [|done].
  intros [= ->]. apply decode_sound in Hd as (Hcp & Hn & Ht); [|done..].
  exists cp. split_and!; auto. rewrite <- Ht. symmetry. apply take_drop.
Qed.

Lemma unit_encode cp rest :
  scalar cp ->
  utf8_unit (utf8_encode cp ++ rest) (length (utf8_encode cp ++ rest)) =
    (length (utf8_encode cp), true).
Proof.
  intros Hcp. unfold utf8_unit. rewrite decode_encode; [done..|]. rewrite length_app. lia.
Qed.

(** ** Validation *)

Lemma validate_loop_sound fuel s :
  Forall is_byte s -> (length s <= fuel)%nat -> utf8_validate_loop fuel s = true ->
  exists cps rest, Forall (fun cp => scalar cp /\ cp <> 0) cps /\ s = utf8_text cps ++ rest /\
    (rest = [] \/ head rest = Some 0).
Proof.
  revert s. induction fuel as [|fuel IH]; intros s Hs Hf Hv; destruct s as [|c s];
    try (simpl in Hf; lia); try (exists [], []; by auto).
  cbn [utf8_validate_loop] in Hv. destruct (Z.eqb_spec c 0) as [->|Hc].
  { exists [], (0 :: s). auto. }
  destruct (utf8_unit (c :: s) (length (c :: s))) as [n []] eqn:Hu; [|done]. simpl in Hv.
  apply unit_valid in Hu as (cp & Hcp & Hn & Heq); [|done].
  pose proof (encode_nonempty cp) as Hne.
  assert (Hn0 : n <> 0%nat) by (intros ->; by destruct (utf8_encode cp)).
  destruct (IH (drop n (c :: s))) as (cps & rest & Hall & Hdrop & Hrest); auto.
  { by apply Forall_drop. }
  { rewrite length_drop. simpl in *. lia. }
  exists (cp :: cps), rest. split_and!; auto.
  - constructor; [|done]. split; [done|]. destruct (utf8_encode cp) as [|c' e] eqn:He; [done|].
    rewrite <- (encode_head_zero cp c' e) by done. simpl in Heq. congruence.
  - by rewrite text_cons, <- app_assoc, <- Hdrop.
Qed.

Lemma validate_loop_complete fuel cps rest :
  Forall (fun cp => scalar cp /\ cp <> 0) cps -> rest = [] \/ head rest = Some 0 ->
  utf8_validate_loop fuel (utf8_text cps ++ rest) = true.
Proof.
  revert cps. induction fuel as [|fuel IH]; intros cps Hall Hrest; [done|].
  destruct Hall as [|cp cps [Hcp Hnz] Hall].
  { destruct Hrest as [->|Hrest]; [done|]. destruct rest; simplify_eq/=. done. }
  rewrite text_cons, <- app_assoc. pose proof (unit_encode cp (utf8_text cps ++ rest) Hcp) as Hu.
  destruct (utf8_encode cp ++ utf8_text cps ++ rest) as [|c s] eqn:Hs; [done|].
  cbn [utf8_validate_loop]. rewrite Hu. destruct (Z.eqb_spec c 0); [done|]. simpl negb. cbv iota.
  rewrite <- Hs, drop_app_length. by apply IH.
Qed.

(** ** Sanitising *)

Lemma kRepl_encode : kRepl = utf8_encode 0xFFFD.
Proof. reflexivity. Qed.

(** A sequence of bytes as characters: where the encoding of a scalar value
    starts it is that value, and a byte where none does is U+FFFD. *)
Inductive repaired : list Z -> list Z -> Prop :=
| repaired_nil : repaired [] []
| repaired_char cp s cps : scalar cp -> repaired s cps -> repaired (utf8_encode cp ++ s) (cp :: cps)
| repaired_byte b s cps : (forall cp rest, scalar cp -> b :: s <> utf8_encode cp ++ rest) -> repaired s cps -> repaired (b :: s) (0xFFFD :: cps).

(** The characters from the first on whose encodings fit into [room] bytes. *)
Fixpoint fitting (room : nat) (cps : list Z) : list Z :=
  match cps with
  | [] => []
  | cp :: cps' => if (room <? length (utf8_encode cp))%nat then [] else cp :: fitting (room - length (utf8_encode cp)) cps'
  end.

Lemma fitting_length room cps : (length (utf8_text (fitting room cps)) <= room)%nat.
Proof.
  revert room. induction cps as [|cp cps IH]; intros room; cbn [fitting]; [cbn; lia|].
  destruct (Nat.ltb_spec room (length (utf8_encode cp))); [cbn; lia|]. rewrite text_cons, length_app. specialize (IH (room - length (utf8_encode cp))%nat). lia.
Qed.

Lemma fitting_all room cps : (length (utf8_text cps) <= room)%nat -> fitting room cps = cps.
Proof.
  revert room. induction cps as [|cp cps IH]; intros room; [done|]. rewrite text_cons, length_app. intros H. cbn [fitting].
  rewrite (proj2 (Nat.ltb_ge _ _)) by lia. by rewrite IH by lia.
Qed.

Lemma repaired_scalar s cps : repaired s cps -> Forall scalar cps.
Proof. induction 1; constructor; try done. unfold scalar. lia. Qed.

Lemma repaired_text cps : Forall scalar cps -> repaired (utf8_text cps) cps.
Proof. induction 1; [constructor|]. rewrite text_cons. by constructor. Qed.

(** What [utf8_unit] says of the start of a text is what [repaired] says. *)
Lemma unit_invalid b s n : utf8_unit (b :: s) (length (b :: s)) = (n, false) -> forall cp rest, scalar cp -> b :: s <> utf8_encode cp ++ rest.
Proof. intros Hu cp rest Hcp H. rewrite H, unit_encode in Hu by done. done. Qed.

Lemma repaired_total s : Forall is_byte s -> exists cps, repaired s cps.
Proof.
  induction s as [[|b s] IH] using (induction_ltof1 _ (@length Z)); intros Hs; [exists []; constructor|].
  destruct (utf8_unit (b :: s) (length (b :: s))) as [n []] eqn:Hu.
  - apply unit_valid in Hu as (cp & Hcp & -> & Heq); [|done]. pose proof (encode_nonempty cp) as Hne.
    destruct (IH (drop (length (utf8_encode cp)) (b :: s))) as (cps & Hr).
    { unfold ltof. rewrite length_drop. destruct (utf8_encode cp); [done|cbn; lia]. } { by apply Forall_drop. }
    exists (cp :: cps). rewrite Heq. by constructor.
  - apply Forall_cons in Hs as [_ Hs]. destruct (IH s) as (cps & Hr); [unfold ltof; cbn; lia|done|]. exists (0xFFFD :: cps). constructor; [by eapply unit_invalid|done].
Qed.

(** The loop writes the characters that fit behind what it has written. *)
Lemma sanitize_loop_repaired s cps fuel out_cap acc :
  Forall is_byte s -> repaired s cps -> (length s <= fuel)%nat -> (length acc < out_cap)%nat ->
  utf8_sanitize_loop fuel s out_cap acc = acc ++ utf8_text (fitting (out_cap - 1 - length acc) cps).
Proof.
  intros Hs Hr. revert fuel acc. induction Hr as [|cp s cps Hcp Hr IH|b s cps Hno Hr IH]; intros fuel acc Hf Hacc.
  - destruct fuel; cbn; by rewrite app_nil_r.
  - pose proof (unit_encode cp s Hcp) as Hu. pose proof (encode_nonempty cp) as Hne. apply Forall_app in Hs as [_ Hs].
    destruct fuel as [|fuel]; [rewrite length_app in Hf; destruct (utf8_encode cp); [done|cbn in Hf; lia]|].
    cbn [utf8_sanitize_loop fitting]. destruct (utf8_encode cp ++ s) as [|c t] eqn:E; [by apply app_eq_nil in E as [? _]|]. rewrite Hu, <- E, take_app_length, drop_app_length.
    destruct (Nat.ltb_spec out_cap (length acc + length (utf8_encode cp) + 1)), (Nat.ltb_spec (out_cap - 1 - length acc) (length (utf8_encode cp))); try lia; [cbn; by rewrite app_nil_r|].
    rewrite (IH Hs); [|rewrite <- E, length_app in Hf; destruct (utf8_encode cp); [done|cbn in Hf; lia]|rewrite length_app; lia].
    rewrite text_cons, <- app_assoc, length_app. do 4 f_equal. lia.
  - apply Forall_cons in Hs as [Hb Hs]. destruct fuel as [|fuel]; [cbn in Hf; lia|]. cbn [utf8_sanitize_loop fitting].
    destruct (utf8_unit (b :: s) (length (b :: s))) as [n []] eqn:Hu.
    { apply unit_valid in Hu as (cp & Hcp & _ & Heq); [|by constructor]. by destruct (Hno cp _ Hcp Heq). }
    rewrite <- kRepl_encode. cbn [drop].
    destruct (Nat.ltb_spec out_cap (length acc + length kRepl + 1)), (Nat.ltb_spec (out_cap - 1 - length acc) (length kRepl)); try lia; [cbn; by rewrite app_nil_r|].
    rewrite (IH Hs); [|cbn in Hf; lia|rewrite length_app; lia]. rewrite text_cons, <- kRepl_encode, <- app_assoc, length_app. do 4 f_equal. lia.
Qed.

Lemma text_length_ge cps : (length cps <= length (utf8_text cps))%nat.
Proof.
  induction cps as [|cp cps IH]; [done|]. rewrite text_cons, length_app.
  pose proof (encode_nonempty cp). destruct (utf8_encode cp); simpl in *; [done|lia].
Qed.

(** ** Character boundaries *)

Lemma encode_shape cp :
  scalar cp -> exists lead conts, utf8_encode cp = lead :: conts /\
    is_byte lead /\ is_cont lead = false /\ utf8_seq_len lead = S (length conts) /\
    Forall (fun b => is_byte b /\ is_cont b = true) conts.
Proof.
  intros Hs. pose proof (encode_bytes cp Hs) as Hb. destruct Hs as [Hcp _].
  unfold utf8_encode in *. bool_prop; (eexists _, _; split; [reflexivity|]);
    decompose_Forall_hyps; (split; [done|]); rewrite seq_len_ranges by done;
    split_and!; rewrite ?Forall_cons, ?Forall_nil; unfold is_cont in *;
    repeat split; try done; bool_prop; simpl; try lia; done.
Qed.

Lemma byte_at_app_l s t j : (j < length s)%nat -> byte_at (s ++ t) j = byte_at s j.
Proof. intros. unfold byte_at. by rewrite lookup_app_l. Qed.

Lemma byte_at_middle pre b t : byte_at (pre ++ b :: t) (length pre) = b.
Proof. unfold byte_at. by rewrite list_lookup_middle. Qed.

Lemma skip_cont_spec pre lead conts :
  is_byte lead -> is_cont lead = false ->
  Forall (fun b => is_byte b /\ is_cont b = true) conts ->
  forall j, (j <= length conts)%nat ->
  skip_cont (pre ++ lead :: conts) (S (length pre + j)) = S (length pre).
Proof.
  intros Hl Hlc Hall. induction j as [|j IH]; intros Hj; cbn [skip_cont].
  - rewrite Nat.add_0_r, byte_at_middle, cont_range by done. fold (is_cont lead). by rewrite Hlc.
  - destruct (lookup_lt_is_Some_2 conts j) as [b Hb]; [lia|].
    pose proof (Forall_lookup_1 _ _ _ _ Hall Hb) as [Hbb Hbc].
    assert (byte_at (pre ++ lead :: conts) (length pre + S j) = b) as ->.
    { unfold byte_at. rewrite lookup_app_r by lia.
      replace (length pre + S j - length pre)%nat with (S j) by lia. simpl. by rewrite Hb. }
    rewrite cont_range by done. fold (is_cont b). rewrite Hbc.
    replace (length pre + S j)%nat with (S (length pre + j)) by lia. apply IH. lia.
Qed.

Lemma prefix_len_spec pre lead conts :
  is_byte lead -> is_cont lead = false ->
  Forall (fun b => is_byte b /\ is_cont b = true) conts ->
  utf8_seq_len lead <> 0%nat ->
  utf8_prefix_len (Some (pre ++ lead :: conts)) =
    if (S (length conts) <? utf8_seq_len lead)%nat then length pre
    else length (pre ++ lead :: conts).
Proof.
  intros Hl Hlc Hall Hn. unfold utf8_prefix_len.
  assert (Hlen : length (pre ++ lead :: conts) = S (length pre + length conts))
    by (rewrite length_app; simpl; lia).
  cbv zeta. rewrite !Hlen. cbn [Nat.eqb]. rewrite (skip_cont_spec pre lead conts) by done.
  cbn [Nat.eqb]. rewrite Nat.sub_succ, Nat.sub_0_r, byte_at_middle.
  replace (S (length pre + length conts) - length pre)%nat with (S (length conts)) by lia.
  by destruct (Nat.eqb_spec (utf8_seq_len lead) 0).
Qed.

(** A cut inside a text falls in one of its characters. *)
Lemma cut_position cps k :
  (k <= length (utf8_text cps))%nat ->
  exists j, (length (utf8_text (take j cps)) <= k)%nat /\
    ((j = length cps /\ k = length (utf8_text cps)) \/
     exists cp, cps !! j = Some cp /\
       (k < length (utf8_text (take j cps)) + length (utf8_encode cp))%nat).
Proof.
  revert k. induction cps as [|cp cps IH]; intros k Hk.
  { exists 0%nat. simpl in *. split; [lia|]. left. split; [done|lia]. }
  rewrite text_cons, length_app in Hk.
  destruct (decide (k < length (utf8_encode cp))%nat) as [Hlt|Hge].
  { exists 0%nat. simpl. split; [lia|]. right. exists cp. split; [done|]. lia. }
  destruct (IH (k - length (utf8_encode cp))%nat) as (j & Hj & Hcase); [lia|].
  exists (S j). cbn [take]. rewrite !text_cons, !length_app. split; [lia|].
  destruct Hcase as [[-> He]|(cp' & Hcp' & Hlt)]; [left|right; exists cp'].
  - split; [done|]. rewrite He in *. lia.
  - split; [done|]. lia.
Qed.

Lemma text_take_split cps j cp k :
  cps !! j = Some cp -> (length (utf8_text (take j cps)) <= k)%nat ->
  (k < length (utf8_text (take j cps)) + length (utf8_encode cp))%nat ->
  take k (utf8_text cps) =
    utf8_text (take j cps) ++ take (k - length (utf8_text (take j cps))) (utf8_encode cp).
Proof.
  intros Hj Hle Hlt. rewrite <- (take_drop_middle cps j cp Hj) at 1.
  rewrite text_app, text_cons, take_app_ge by done. f_equal. apply take_app_le. lia.
Qed.

(** A whole text is a character boundary. *)
Lemma prefix_len_text cps :
  Forall scalar cps -> utf8_prefix_len (Some (utf8_text cps)) = length (utf8_text cps).
Proof.
  intros Hall. induction cps as [|cp cps _] using rev_ind; [done|].
  apply Forall_app in Hall as [_ [Hcp _]%Forall_cons].
  destruct (encode_shape cp Hcp) as (lead & conts & He & Hb & Hl & Hsl & Hall).
  rewrite text_app, text_cons, He, app_nil_r, prefix_len_spec by (done || by rewrite Hsl).
  by rewrite Hsl, Nat.ltb_irrefl.
Qed.

(** ** Properties *)

(** Decoding a Unicode scalar value's RFC 3629 encoding gives it back with
    its length, whatever follows in the buffer. *)
Theorem utf8_decode_encode cp rest :
  scalar cp ->
  utf8_decode (utf8_encode cp ++ rest) (length (utf8_encode cp ++ rest)) =
    Some (length (utf8_encode cp), cp).
Proof. intros Hcp. apply decode_encode; [done|]. rewrite length_app. lia. Qed.

Lemma utf8_decode_encode_witness :
  utf8_decode ([0xE4; 0xB8; 0xAD] ++ [65]) 4 = Some (3%nat, 0x4E2D).
Proof. apply (utf8_decode_encode 0x4E2D [65]). unfold scalar. lia. Defined.

(** The decoder accepts nothing but encodings of scalar values: when it
    accepts a sequence of bytes, the code point is a scalar value and the bytes
    consumed are exactly its shortest encoding, so overlong forms, surrogates
    and values past U+10FFFF are refused. *)
Theorem utf8_decode_canonical s n cp :
  Forall is_byte s -> utf8_decode s (length s) = Some (n, cp) ->
  scalar cp /\ n = length (utf8_encode cp) /\ take n s = utf8_encode cp.
Proof. intros Hs. by apply decode_sound. Qed.

Lemma utf8_decode_canonical_witness :
  utf8_decode [0xC3; 0xA9; 0] 3 = Some (2%nat, 0xE9) /\
  (scalar 0xE9 /\ 2%nat = length (utf8_encode 0xE9) /\ take 2 [0xC3; 0xA9; 0] = utf8_encode 0xE9).
Proof.
  split; [reflexivity|]. apply (utf8_decode_canonical [0xC3; 0xA9; 0] 2 0xE9); [|reflexivity].
  repeat (apply Forall_cons; split; [unfold is_byte; lia|]); by apply Forall_nil.
Defined.

(** C17: [utf8_validate] returns true exactly for a buffer that is the encoding
    of a sequence of non-zero scalar values, up to its end or its first NUL. *)
Theorem utf8_validate_iff s :
  Forall is_byte s ->
  utf8_validate (Some s) = true <->
  exists cps rest, Forall (fun cp => scalar cp /\ cp <> 0) cps /\ s = utf8_text cps ++ rest /\
    (rest = [] \/ head rest = Some 0).
Proof.
  intros Hs. split; [by apply validate_loop_sound|].
  intros (cps & rest & Hall & -> & Hrest). by apply validate_loop_complete.
Qed.

Lemma utf8_validate_iff_witness :
  utf8_validate (Some [0x41; 0xC3; 0xA9; 0; 0xFF]) = true <->
  exists cps rest, Forall (fun cp => scalar cp /\ cp <> 0) cps /\
    [0x41; 0xC3; 0xA9; 0; 0xFF] = utf8_text cps ++ rest /\ (rest = [] \/ head rest = Some 0).
Proof.
  apply utf8_validate_iff.
  repeat (apply Forall_cons; split; [unfold is_byte; lia|]); by apply Forall_nil.
Defined.

(** C36: Sanitising any bytes into a buffer of [out_cap] bytes writes the encoding
    of the characters of the input, in which each byte at which no encoding of a
    scalar value starts counts as U+FFFD, from the first on as long as they fit
    with the terminating NUL, and returns the number of bytes written; a valid
    text that fits is copied unchanged. *)
Theorem utf8_sanitize_spec s out_cap :
  Forall is_byte s -> (0 < out_cap)%nat ->
  exists cps, repaired s cps /\ Forall scalar cps /\
    (let out := utf8_text (fitting (out_cap - 1) cps) in utf8_sanitize (Some s) true out_cap = (length out, Some out) /\ (length out < out_cap)%nat) /\
    (forall cps', Forall scalar cps' -> s = utf8_text cps' -> (length s < out_cap)%nat -> utf8_sanitize (Some s) true out_cap = (length s, Some s)).
Proof.
  intros Hs Hcap. destruct (repaired_total s Hs) as (cps & Hr).
  assert (forall cps, repaired s cps -> utf8_sanitize (Some s) true out_cap = (length (utf8_text (fitting (out_cap - 1) cps)), Some (utf8_text (fitting (out_cap - 1) cps)))) as Hout.
  { intros c Hc. unfold utf8_sanitize. rewrite (proj2 (Nat.eqb_neq out_cap 0)) by lia. cbn [negb orb]. rewrite (sanitize_loop_repaired s c) by (done || lia). cbn [app length]. by rewrite Nat.sub_0_r. }
  exists cps. split; [done|]. split; [by eapply repaired_scalar|]. split.
  - split; [by apply Hout|]. pose proof (fitting_length (out_cap - 1) cps). lia.
  - intros cps' Hc -> Hfit. rewrite (Hout cps') by (by apply repaired_text). rewrite fitting_all by lia. done.
Qed.

Lemma utf8_sanitize_spec_witness :
  utf8_sanitize (Some [0x41; 0xC0; 0x80; 0xC3; 0xA9]) true 9 = (7%nat, Some [0x41; 0xEF; 0xBF; 0xBD; 0xEF; 0xBF; 0xBD]) /\
  exists cps, repaired [0x41; 0xC0; 0x80; 0xC3; 0xA9] cps /\ utf8_sanitize (Some [0x41; 0xC0; 0x80; 0xC3; 0xA9]) true 9 = (length (utf8_text (fitting 8 cps)), Some (utf8_text (fitting 8 cps))).
Proof.
  split; [reflexivity|]. destruct (utf8_sanitize_spec [0x41; 0xC0; 0x80; 0xC3; 0xA9] 9) as (cps & H1 & _ & (H2 & _) & _); [|lia|exists cps; exact (conj H1 H2)].
  repeat (apply Forall_cons; split; [unfold is_byte; lia|]); by apply Forall_nil.
Defined.

(** Cutting a UTF-8 text at any byte and applying [utf8_prefix_len] gives
    the last character boundary at or before the cut: the prefix is a whole
    number of characters and one more would not fit. *)
Theorem utf8_prefix_len_boundary cps k :
  Forall scalar cps -> (k <= length (utf8_text cps))%nat ->
  exists j, utf8_prefix_len (Some (take k (utf8_text cps))) = length (utf8_text (take j cps)) /\
    (length (utf8_text (take j cps)) <= k)%nat /\
    (j = length cps \/ (j < length cps)%nat /\ (k < length (utf8_text (take (S j) cps)))%nat).
Proof.
  intros Hall Hk. destruct (cut_position cps k Hk) as (j & Hle & Hcase). exists j.
  destruct Hcase as [[-> ->]|(cp & Hcp & Hlt)].
  { rewrite !firstn_all in *. rewrite prefix_len_text by done. auto. }
  pose proof (Forall_lookup_1 _ _ _ _ Hall Hcp) as Hs.
  split; [|split; [done|right]].
  2:{ erewrite take_S_r by done. rewrite text_app, text_cons, !length_app. simpl.
      split; [by eapply lookup_lt_Some|lia]. }
  rewrite (text_take_split cps j cp k) by done.
  destruct (encode_shape cp Hs) as (lead & conts & He & Hb & Hl & Hsl & Hc).
  rewrite He in *. destruct (k - length (utf8_text (take j cps)))%nat as [|r] eqn:Hr.
  - rewrite app_nil_r. apply prefix_len_text. by apply Forall_take.
  - cbn [take]. rewrite prefix_len_spec by (done || by apply Forall_take || by rewrite Hsl).
    rewrite Hsl, (proj2 (Nat.ltb_lt _ _)); [done|]. rewrite length_take. simpl in Hlt. lia.
Qed.

Definition sample_text : list Z := [0x41; 0x4E2D].

Lemma utf8_prefix_len_boundary_witness :
  exists j, utf8_prefix_len (Some (take 3 (utf8_text sample_text))) =
      length (utf8_text (take j sample_text)) /\
    (length (utf8_text (take j sample_text)) <= 3)%nat /\
    (j = length sample_text \/ (j < length sample_text)%nat /\
      (3 < length (utf8_text (take (S j) sample_text)))%nat).
Proof.
  apply utf8_prefix_len_boundary; [|vm_compute; lia].
  repeat (apply Forall_cons; split; [unfold scalar; lia|]); by apply Forall_nil.
Defined.
