(* ===== verification/TaskDesc.v ===== *)
(** * Task descriptors: utils/task/task_desc.c

    The CRC-32 routine and the creation and validation of the 128-byte task
    descriptor of include/airymax/task_desc.h. *)
From S2P Require Import Prelude.

(** ** Data *)

(** The result codes the two functions return. *)
Inductive td_err :=
| TD_EOK | TD_EINVAL | TD_EIPC_MAGIC | TD_ECFGVERSION | TD_EIPC_FLAGS
| TD_EIPC_RESERVED | TD_EIPC_PAYLOAD | TD_EIPC_CRC32.

#[export] Instance td_err_eq_dec : EqDecision td_err.
Proof. solve_decision. Defined.

Definition AIRY_TASK_DESC_MAGIC : Z := 0x41475453.
Definition AIRY_TASK_DESC_VERSION : Z := 1.
Definition AIRY_TASK_FLAG_RESERVED : Z := 0xFFFC.

Record airy_task_desc_hdr := TaskHdr {
  magic : Z;           (** u32 *)
  version : Z;         (** u16 *)
  opcode : Z;          (** u16 *)
  task_id : Z;         (** u64 *)
  parent_task_id : Z;  (** u64 *)
  submit_time_ns : Z;  (** u64 *)
  deadline_ns : Z;     (** u64 *)
  src_task : Z;        (** u64 *)
  dst_task : Z;        (** u64 *)
  payload_len : Z;     (** u32 *)
  flags : Z;           (** u32 *)
  priority : Z;        (** u32 *)
  crc32 : Z;           (** u32 *)
  reserved : list Z;   (** 56 bytes *)
}.

(** The [n] bytes of a little-endian integer. *)
Fixpoint le_bytes (n : nat) (z : Z) : list Z :=
  match n with
  | O => []
  | S n' => z mod 256 :: le_bytes n' (z / 256)
  end.

(** The bytes of the structure before [crc32]: the natural alignment of the
    fields leaves no padding, as the static assertions of the header check. *)
Definition hdr_bytes (d : airy_task_desc_hdr) : list Z :=
  le_bytes 4 (magic d) ++ le_bytes 2 (version d) ++ le_bytes 2 (opcode d) ++
  le_bytes 8 (task_id d) ++ le_bytes 8 (parent_task_id d) ++
  le_bytes 8 (submit_time_ns d) ++ le_bytes 8 (deadline_ns d) ++
  le_bytes 8 (src_task d) ++ le_bytes 8 (dst_task d) ++
  le_bytes 4 (payload_len d) ++ le_bytes 4 (flags d) ++ le_bytes 4 (priority d).

(** ** CRC-32 *)

Definition CRC_POLY : Z := 0xEDB88320.

(** One of the eight shifts of a byte. *)
Definition crc_shift (crc : Z) : Z :=
  if Z.testbit crc 0 then Z.lxor (Z.shiftr crc 1) CRC_POLY else Z.shiftr crc 1.

Definition crc_byte (crc b : Z) : Z := Nat.iter 8 crc_shift (Z.lxor crc b).

Definition crc_bytes (crc : Z) (data : list Z) : Z := foldl crc_byte crc data.

(** [~crc] on 32 bits *)
Definition not32 (z : Z) : Z := Z.lxor z 0xFFFFFFFF.

Definition airy_task_desc_crc32 (data : list Z) : Z := not32 (crc_bytes 0xFFFFFFFF data).

(** [payload = None] is NULL; the code reads [plen] bytes of it. *)
Definition task_desc_compute_crc (d : airy_task_desc_hdr) (payload : option (list Z)) (plen : Z) : Z :=
  let crc := crc_bytes 0xFFFFFFFF (hdr_bytes d) in
  let crc := match payload with
             | Some p => if 0 <? plen then crc_bytes crc (take (Z.to_nat plen) p) else crc
             | None => crc
             end in
  not32 crc.

(** ** Creation and validation *)

(** [None] as descriptor: nothing is written.  [now_ns] is the value of
    [airy_time_ns()]. *)
Definition airy_task_desc_create (has_desc : bool) (now_ns : Z)
    (op tid ptid deadline src dst : Z) (payload : option (list Z)) (plen fl prio : Z)
    : td_err * option airy_task_desc_hdr :=
  if negb has_desc then (TD_EINVAL, None)
  else if (match payload with None => true | Some _ => false end) && negb (plen =? 0) then
    (TD_EINVAL, None)
  else if negb (Z.land fl AIRY_TASK_FLAG_RESERVED =? 0) then (TD_EINVAL, None)
  else
    let d := TaskHdr AIRY_TASK_DESC_MAGIC AIRY_TASK_DESC_VERSION op tid ptid now_ns deadline
               src dst plen fl prio 0 (replicate 56 0) in
    (TD_EOK,
     Some (TaskHdr (magic d) (version d) (opcode d) (task_id d) (parent_task_id d)
       (submit_time_ns d) (deadline_ns d) (src_task d) (dst_task d) (payload_len d) (flags d)
       (priority d) (task_desc_compute_crc d payload plen) (reserved d))).

Definition airy_task_desc_validate (desc : option airy_task_desc_hdr)
    (payload : option (list Z)) (plen : Z) : td_err :=
  match desc with
  | None => TD_EINVAL
  | Some d =>
      if negb (magic d =? AIRY_TASK_DESC_MAGIC) then TD_EIPC_MAGIC
      else if negb (version d =? AIRY_TASK_DESC_VERSION) then TD_ECFGVERSION
      else if negb (Z.land (flags d) AIRY_TASK_FLAG_RESERVED =? 0) then TD_EIPC_FLAGS
      else if existsb (fun b => negb (b =? 0)) (reserved d) then TD_EIPC_RESERVED
      else if (payload_len d =? 0) && negb (plen =? 0) then TD_EIPC_PAYLOAD
      else if (0 <? payload_len d) &&
              ((match payload with None => true | Some _ => false end) || (plen <? payload_len d))
      then TD_EIPC_PAYLOAD
      else if negb (crc32 d =? task_desc_compute_crc d payload (payload_len d)) then TD_EIPC_CRC32
      else TD_EOK
  end.

(** ** The shift register *)

Definition word32 (c : Z) : Prop := 0 <= c < 2 ^ 32.

(** The inverse of one shift: bit 31 of the result tells whether the
    polynomial was added. *)
Definition crc_unshift (c : Z) : Z :=
  if Z.testbit c 31 then 2 * Z.lxor c CRC_POLY + 1 else 2 * c.

Lemma lxor_word n a b : 0 <= n -> 0 <= a < 2 ^ n -> 0 <= b < 2 ^ n -> 0 <= Z.lxor a b < 2 ^ n.
Proof.
  intros Hn Ha Hb. assert (Hnn : 0 <= Z.lxor a b) by (apply Z.lxor_nonneg; lia).
  split; [done|]. destruct (Z.eq_dec (Z.lxor a b) 0) as [->|Hne]; [lia|].
  apply Z.log2_lt_pow2; [lia|].
  destruct (Z.eq_dec a 0) as [->|Ha0].
  { rewrite Z.lxor_0_l in *. apply Z.log2_lt_pow2; lia. }
  destruct (Z.eq_dec b 0) as [->|Hb0].
  { rewrite Z.lxor_0_r in *. apply Z.log2_lt_pow2; lia. }
  eapply Z.le_lt_trans; [apply Z.log2_lxor; lia|]. apply Z.max_lub_lt; apply Z.log2_lt_pow2; lia.
Qed.

Lemma crc_shift_word c : word32 c -> word32 (crc_shift c).
Proof.
  unfold word32, crc_shift. intros Hc.
  assert (0 <= Z.shiftr c 1 < 2 ^ 32).
  { rewrite Z.shiftr_div_pow2 by done. change (2 ^ 1) with 2.
    split; [apply Z.div_pos; lia|apply Z.div_lt_upper_bound; lia]. }
  case_match; [|done]. apply lxor_word; [done..|]. unfold CRC_POLY. lia.
Qed.

Lemma crc_unshift_shift c : word32 c -> crc_unshift (crc_shift c) = c.
Proof.
  unfold word32, crc_unshift, crc_shift. intros Hc.
  assert (Hs : 0 <= Z.shiftr c 1 < 2 ^ 31).
  { rewrite Z.shiftr_div_pow2 by done. change (2 ^ 1) with 2.
    split; [apply Z.div_pos; lia|apply Z.div_lt_upper_bound; lia]. }
  assert (Hhi : Z.testbit (Z.shiftr c 1) 31 = false) by (by apply (testbit_high _ 31)).
  pose proof (Z.div2_odd c) as Hodd. rewrite Z.div2_spec in Hodd.
  rewrite Z.bit0_odd. destruct (Z.odd c); simpl Z.b2z in Hodd.
  - rewrite Z.lxor_spec, Hhi. change (Z.testbit CRC_POLY 31) with true. simpl xorb. cbv iota.
    rewrite Z.lxor_assoc, Z.lxor_nilpotent, Z.lxor_0_r. lia.
  - rewrite Hhi. lia.
Qed.

(** Bits that the shift does not reach are carried along. *)
Lemma crc_shift_lxor c z : crc_shift (Z.lxor c (2 * z)) = Z.lxor (crc_shift c) z.
Proof.
  unfold crc_shift. rewrite Z.lxor_spec, Z.testbit_even_0, xorb_false_r.
  replace (Z.shiftr (Z.lxor c (2 * z)) 1) with (Z.lxor (Z.shiftr c 1) z).
  - case_match; [|done]. rewrite !Z.lxor_assoc. f_equal. apply Z.lxor_comm.
  - rewrite Z.shiftr_lxor. f_equal. rewrite Z.shiftr_div_pow2 by done.
    change (2 ^ 1) with 2. rewrite Z.mul_comm, Z.div_mul; done.
Qed.

Fixpoint le_word (xs : list Z) : Z :=
  match xs with
  | [] => 0
  | x :: xs' => Z.lxor x (2 ^ 8 * le_word xs')
  end.

Lemma lxor_low_add x w : is_byte x -> Z.lxor x (2 ^ 8 * w) = x + 2 ^ 8 * w.
Proof.
  intros Hx. symmetry. apply Z.add_nocarry_lxor.
  rewrite Z.land_comm, (Z.mul_comm (2 ^ 8)). apply land_shift_low; [done|]. unfold is_byte in Hx. lia.
Qed.

Lemma le_word_bound xs :
  Forall is_byte xs -> 0 <= le_word xs < 2 ^ (8 * Z.of_nat (length xs)).
Proof.
  induction 1 as [|x xs Hx Hxs IH]; [done|]. cbn [le_word length].
  rewrite lxor_low_add by done. unfold is_byte in Hx.
  replace (8 * Z.of_nat (S (length xs))) with (8 + 8 * Z.of_nat (length xs)) by lia.
  rewrite Z.pow_add_r by lia. lia.
Qed.

Lemma le_word_inj xs ys :
  Forall is_byte xs -> Forall is_byte ys -> length xs = length ys ->
  le_word xs = le_word ys -> xs = ys.
Proof.
  intros Hxs. revert ys. induction Hxs as [|x xs Hx Hxs IH]; intros [|y ys] Hys Hlen Heq; try done.
  apply Forall_cons in Hys as [Hy Hys]. cbn [le_word] in Heq.
  rewrite !lxor_low_add in Heq by done. unfold is_byte in *.
  assert (x = y /\ le_word xs = le_word ys) as [-> Hw] by lia.
  f_equal. apply IH; auto.
Qed.

Lemma iter_shift_lxor n c z :
  Nat.iter n crc_shift (Z.lxor c (2 ^ Z.of_nat n * z)) = Z.lxor (Nat.iter n crc_shift c) z.
Proof.
  revert c z. induction n as [|n IH]; intros c z.
  { change (Z.lxor c (1 * z) = Z.lxor c z). by rewrite Z.mul_1_l. }
  rewrite Nat2Z.inj_succ, Z.pow_succ_r, (Z.mul_comm 2), <- Z.mul_assoc by lia.
  change (Nat.iter (S n) crc_shift ?x) with (crc_shift (Nat.iter n crc_shift x)).
  rewrite IH. apply crc_shift_lxor.
Qed.

(** The register after a block of bytes is the block as one integer, added to
    the register and shifted out. *)
Lemma crc_bytes_block xs c :
  crc_bytes c xs = Nat.iter (8 * length xs) crc_shift (Z.lxor c (le_word xs)).
Proof.
  revert c. induction xs as [|x xs IH]; intros c.
  { by rewrite Z.lxor_0_r. }
  change (crc_bytes c (x :: xs)) with (crc_bytes (crc_byte c x) xs). rewrite IH.
  cbn [length le_word]. rewrite Nat.mul_succ_r, Nat.iter_add. f_equal.
  unfold crc_byte. rewrite <- iter_shift_lxor. f_equal. by rewrite Z.lxor_assoc.
Qed.

Lemma iter_shift_word n c : word32 c -> word32 (Nat.iter n crc_shift c).
Proof. intros Hc. induction n as [|n IH]; [done|]. by apply crc_shift_word. Qed.

Lemma iter_shift_inj n c d :
  word32 c -> word32 d -> Nat.iter n crc_shift c = Nat.iter n crc_shift d -> c = d.
Proof.
  intros Hc Hd. induction n as [|n IH]; [done|]. intros Heq. apply IH.
  rewrite <- (crc_unshift_shift (Nat.iter n crc_shift c)) by (by apply iter_shift_word).
  rewrite <- (crc_unshift_shift (Nat.iter n crc_shift d)) by (by apply iter_shift_word).
  f_equal. exact Heq.
Qed.

Lemma crc_byte_word c b : word32 c -> is_byte b -> word32 (crc_byte c b).
Proof.
  intros Hc Hb. apply iter_shift_word. unfold word32, is_byte in *. apply lxor_word; lia.
Qed.

Lemma crc_bytes_word xs c : Forall is_byte xs -> word32 c -> word32 (crc_bytes c xs).
Proof.
  intros Hxs. revert c. induction Hxs as [|x xs Hx _ IH]; intros c Hc; [done|].
  apply IH. by apply crc_byte_word.
Qed.

(** Equal data after a difference keep the difference. *)
Lemma crc_bytes_inj xs c d :
  Forall is_byte xs -> word32 c -> word32 d -> crc_bytes c xs = crc_bytes d xs -> c = d.
Proof.
  intros Hxs. revert c d. induction Hxs as [|x xs Hx _ IH]; intros c d Hc Hd Heq; [done|].
  apply IH in Heq; [|by apply crc_byte_word..].
  apply iter_shift_inj in Heq; try (unfold word32, is_byte in *; apply lxor_word; lia).
  apply (f_equal (fun z => Z.lxor z x)) in Heq.
  by rewrite !Z.lxor_assoc, !Z.lxor_nilpotent, !Z.lxor_0_r in Heq.
Qed.

(** A difference within four consecutive bytes changes the register. *)
Lemma crc_burst c x y s :
  word32 c -> Forall is_byte x -> Forall is_byte y -> Forall is_byte s ->
  length x = length y -> (length x <= 4)%nat ->
  crc_bytes c (x ++ s) = crc_bytes c (y ++ s) -> x = y.
Proof.
  intros Hc Hx Hy Hs Hlen Hle Heq. unfold crc_bytes in Heq. rewrite !foldl_app in Heq.
  apply crc_bytes_inj in Heq; try done; try (by apply crc_bytes_word).
  assert (Hw : forall z, Forall is_byte z -> (length z <= 4)%nat -> word32 (Z.lxor c (le_word z))).
  { intros z Hz Hz4. pose proof (le_word_bound z Hz) as [? Hlt]. unfold word32 in *.
    apply lxor_word; [done..|]. split; [done|]. eapply Z.lt_le_trans; [exact Hlt|].
    apply Z.pow_le_mono_r; lia. }
  change (crc_bytes c x = crc_bytes c y) in Heq. rewrite !crc_bytes_block, Hlen in Heq.
  apply iter_shift_inj in Heq; [|apply Hw; auto; lia..].
  apply le_word_inj; auto.
  apply (f_equal (Z.lxor c)) in Heq.
  by rewrite <- !Z.lxor_assoc, !Z.lxor_nilpotent, !Z.lxor_0_l in Heq.
Qed.

Lemma not32_inj a b : not32 a = not32 b -> a = b.
Proof.
  unfold not32. intros Heq. apply (f_equal (fun z => Z.lxor z 0xFFFFFFFF)) in Heq.
  by rewrite !Z.lxor_assoc, !Z.lxor_nilpotent, !Z.lxor_0_r in Heq.
Qed.

(** ** Descriptors *)

Lemma le_bytes_byte n z : Forall is_byte (le_bytes n z).
Proof.
  revert z. induction n as [|n IH]; intros z; constructor; [|apply IH].
  apply Z.mod_pos_bound. lia.
Qed.

Lemma hdr_bytes_byte d : Forall is_byte (hdr_bytes d).
Proof. unfold hdr_bytes. rewrite !Forall_app. split_and!; apply le_bytes_byte. Qed.

(** The payload bytes that the checksum covers. *)
Definition covered_payload (payload : option (list Z)) (plen : Z) : list Z :=
  match payload with Some p => take (Z.to_nat plen) p | None => [] end.

Definition covered (d : airy_task_desc_hdr) (payload : option (list Z)) : list Z :=
  hdr_bytes d ++ covered_payload payload (payload_len d).

Lemma compute_crc_covered d payload plen :
  task_desc_compute_crc d payload plen =
  not32 (crc_bytes 0xFFFFFFFF (hdr_bytes d ++ covered_payload payload plen)).
Proof.
  unfold task_desc_compute_crc, covered_payload, crc_bytes. rewrite foldl_app.
  cbv zeta. destruct payload as [p|]; [|cbn [foldl]; reflexivity].
  destruct (Z.ltb_spec 0 plen); [reflexivity|].
  rewrite Z2Nat.nonpos, take_0 by assumption. cbn [foldl]. reflexivity.
Qed.

Lemma validate_crc d payload plen :
  airy_task_desc_validate (Some d) payload plen = TD_EOK ->
  crc32 d = not32 (crc_bytes 0xFFFFFFFF (covered d payload)).
Proof.
  intros H. unfold covered. rewrite <- compute_crc_covered.
  destruct (Z.eqb_spec (crc32 d) (task_desc_compute_crc d payload (payload_len d))) as [E|E];
    [exact E|]. exfalso. revert H. unfold airy_task_desc_validate.
  rewrite (proj2 (Z.eqb_neq _ _) E). cbn [negb]. repeat (case_match; try discriminate).
Qed.

(** ** Properties *)

(** A descriptor made by [airy_task_desc_create] passes
    [airy_task_desc_validate] with its payload. *)
Lemma create_accepted now op tid ptid dl src dst payload plen fl prio d plen' :
  0 <= plen <= plen' -> (plen = 0 -> plen' = 0) ->
  airy_task_desc_create true now op tid ptid dl src dst payload plen fl prio = (TD_EOK, Some d) ->
  airy_task_desc_validate (Some d) payload plen' = TD_EOK.
Proof.
  intros Hlen Hzero. unfold airy_task_desc_create. simpl negb. cbv iota.
  destruct (_ && _) eqn:Hnull; [done|]. destruct (negb (Z.land fl _ =? 0)) eqn:Hfl; [done|].
  intros [= <-]. unfold airy_task_desc_validate. cbn [magic version flags reserved payload_len crc32].
  rewrite !Z.eqb_refl, Hfl. replace (existsb _ _) with false by reflexivity. cbn [negb].
  destruct (Z.eqb_spec plen 0) as [Hp|Hp].
  { rewrite Hzero by done. rewrite Hp. reflexivity. }
  destruct payload as [p|]; [|done]. cbn [andb orb].
  by rewrite (proj2 (Z.ltb_ge plen' plen)), andb_false_r by lia.
Qed.

Definition sample_desc : airy_task_desc_hdr :=
  default (TaskHdr 0 0 0 0 0 0 0 0 0 0 0 0 0 [])
    (snd (airy_task_desc_create true 1000 2 7 0 0 1 2 (Some [1; 2; 3; 4; 5; 6]) 6 1 5)).

(** An accepted descriptor whose covered bytes (the header up to the
    checksum and the payload) are altered within any four consecutive bytes,
    keeping the stored checksum, is no longer accepted. *)
Theorem task_desc_burst_detected d d' payload payload' plen plen' pre x y suf :
  airy_task_desc_validate (Some d) payload plen = TD_EOK ->
  crc32 d' = crc32 d ->
  covered d payload = pre ++ x ++ suf -> covered d' payload' = pre ++ y ++ suf ->
  Forall is_byte (covered d payload) -> Forall is_byte (covered d' payload') ->
  length x = length y -> (length x <= 4)%nat -> x <> y ->
  airy_task_desc_validate (Some d') payload' plen' <> TD_EOK.
Proof.
  intros Hv Hcrc Hcov Hcov' Hb Hb' Hlen Hle Hne Hv'. apply validate_crc in Hv, Hv'.
  rewrite Hcrc, Hv in Hv'. apply not32_inj in Hv'. rewrite Hcov, Hcov' in *.
  apply Forall_app in Hb as [Hpre [Hx Hsuf]%Forall_app].
  apply Forall_app in Hb' as [_ [Hy _]%Forall_app].
  unfold crc_bytes in Hv'. rewrite !(foldl_app crc_byte pre) in Hv'.
  apply Hne. eapply crc_burst; [|exact Hx|exact Hy|exact Hsuf|done|done|exact Hv'].
  apply crc_bytes_word; [done|]. unfold word32. lia.
Qed.

Lemma task_desc_burst_detected_witness :
  airy_task_desc_validate (Some sample_desc) (Some [1; 9; 3; 4; 5; 6]) 6 <> TD_EOK.
Proof.
  apply (task_desc_burst_detected sample_desc sample_desc (Some [1; 2; 3; 4; 5; 6])
    (Some [1; 9; 3; 4; 5; 6]) 6 6 (hdr_bytes sample_desc ++ [1]) [2] [9] [3; 4; 5; 6]);
    try (vm_compute; reflexivity); try done; try (simpl; lia).
  all: apply Forall_app; split; [apply hdr_bytes_byte|].
  all: repeat (apply Forall_cons; split; [unfold is_byte; lia|]); by apply Forall_nil.
Defined.

(** The standard check value of CRC-32, over the bytes of 123456789. *)
Example crc32_check : airy_task_desc_crc32 [49; 50; 51; 52; 53; 54; 55; 56; 57] = 0xCBF43926.
Proof. by vm_compute. Qed.

(** C18: a descriptor made by [airy_task_desc_create] passes
    [airy_task_desc_validate] with its payload, also when the caller's buffer is
    longer than the payload.  Every descriptor and payload with its checksum
    whose covered bytes (the header up to the checksum, and the payload) differ
    from those of the made one within four consecutive bytes is rejected.  The
    checksum is CRC-32: it has the standard check value. *)
Theorem task_desc_create_validate now op tid ptid dl src dst payload plen fl prio d plen' :
  0 <= plen <= plen' -> (plen = 0 -> plen' = 0) ->
  airy_task_desc_create true now op tid ptid dl src dst payload plen fl prio = (TD_EOK, Some d) ->
  airy_task_desc_validate (Some d) payload plen' = TD_EOK /\
  (forall d' payload' plen'' pre x y suf,
    crc32 d' = crc32 d -> covered d payload = pre ++ x ++ suf -> covered d' payload' = pre ++ y ++ suf ->
    Forall is_byte (covered d payload) -> Forall is_byte (covered d' payload') -> length x = length y -> (length x <= 4)%nat -> x <> y ->
    airy_task_desc_validate (Some d') payload' plen'' <> TD_EOK) /\
  airy_task_desc_crc32 [49; 50; 51; 52; 53; 54; 55; 56; 57] = 0xCBF43926.
Proof.
  intros H1 H2 H3. assert (airy_task_desc_validate (Some d) payload plen' = TD_EOK) as Hv by (by eapply create_accepted). split; [done|].
  split; [|by vm_compute]. intros d' payload' plen'' pre x y suf. by eapply task_desc_burst_detected.
Qed.

Lemma task_desc_create_validate_witness :
  airy_task_desc_validate (Some sample_desc) (Some [1; 2; 3; 4; 5; 6]) 6 = TD_EOK /\
  airy_task_desc_validate (Some sample_desc) (Some [1; 9; 3; 4; 5; 6]) 6 <> TD_EOK.
Proof.
  destruct (task_desc_create_validate 1000 2 7 0 0 1 2 (Some [1; 2; 3; 4; 5; 6]) 6 1 5 sample_desc 6) as (H1 & H2 & _);
    [lia|lia|vm_compute; reflexivity|]. split; [exact H1|].
  refine (H2 sample_desc (Some [1; 9; 3; 4; 5; 6]) 6 (hdr_bytes sample_desc ++ [1]) [2] [9] [3; 4; 5; 6] eq_refl _ _ _ _ eq_refl _ _);
    [vm_compute; reflexivity|vm_compute; reflexivity|..|cbn; lia|discriminate].
  all: apply Forall_app; split; [apply hdr_bytes_byte|].
  all: repeat (apply Forall_cons; split; [unfold is_byte; lia|]); by apply Forall_nil.
Defined.
