(* ===== verification/Uuid.v ===== *)
(** * UUIDs: utils/uuid/uuid_generator.c

    Generation, formatting, validation and parsing of UUIDs, in the Linux
    configuration of the source (random bytes read from /dev/urandom). *)
From S2P Require Import Prelude.

(** ** Data *)

Inductive uuid_err := AIRY_UUID_SUCCESS | AIRY_UUID_EINVALID | AIRY_UUID_ENOMEM | AIRY_UUID_EUNAVAIL.

#[export] Instance uuid_err_eq_dec : EqDecision uuid_err.
Proof. solve_decision. Defined.

(** [g_uuid_initialized] and [g_uuid_counter]. *)
Record uuid_state := UuidState { uuid_initialized : bool; uuid_counter : Z }.

(** What the system answers during a call: whether /dev/urandom opens (at the
    probe and at the read), the bytes that one read returns, the clock. *)
Record uuid_env := UuidEnv {
  probe_ok : bool;
  open_ok : bool;
  random : list Z;
  clock : Z;
}.

Definition AIRY_UUID_STR_LEN : nat := 37.
Definition AIRY_UUID_PREFIXED_STR_LEN : nat := 64.

Definition dash : Z := 45.

(** ** Formatting *)

Definition hex_digit (d : Z) : Z := if d <? 10 then 48 + d else 87 + d.

(** [%02x] *)
Definition hex2 (b : Z) : cstr := [hex_digit (b / 16); hex_digit (b mod 16)].

Definition ub (u : list Z) (i : nat) : Z := default 0 (u !! i).

Definition uuid_format (u : list Z) : cstr :=
  hex2 (ub u 0) ++ hex2 (ub u 1) ++ hex2 (ub u 2) ++ hex2 (ub u 3) ++ [dash] ++
  hex2 (ub u 4) ++ hex2 (ub u 5) ++ [dash] ++
  hex2 (ub u 6) ++ hex2 (ub u 7) ++ [dash] ++
  hex2 (ub u 8) ++ hex2 (ub u 9) ++ [dash] ++
  hex2 (ub u 10) ++ hex2 (ub u 11) ++ hex2 (ub u 12) ++ hex2 (ub u 13) ++
  hex2 (ub u 14) ++ hex2 (ub u 15).

(** [snprintf] into a buffer of [n > 0] bytes keeps [n - 1] characters. *)
Definition snprintf (n : nat) (s : cstr) : cstr := take (n - 1) s.

(** ** Operations *)

Definition airy_uuid_init (env : uuid_env) (st : uuid_state) : uuid_err * uuid_state :=
  if uuid_initialized st then (AIRY_UUID_SUCCESS, st)
  else if probe_ok env then
    (AIRY_UUID_SUCCESS, UuidState true (Z.lxor (u64 (clock env)) 0x123456789ABCDEF0))
  else (AIRY_UUID_EUNAVAIL, UuidState false (uuid_counter st)).

Definition airy_uuid_cleanup (st : uuid_state) : uuid_state := UuidState false 0.

Definition set_bits (u : list Z) : list Z :=
  let u := <[6%nat := Z.lor (Z.land (ub u 6) 0x0F) 0x40]> u in
  <[8%nat := Z.lor (Z.land (ub u 8) 0x3F) 0x80]> u.

(** The string written to [out_buf], [None] when nothing is written. *)
Definition airy_uuid_v4 (env : uuid_env) (has_buf : bool) (buf_len : nat) (st : uuid_state)
    : uuid_err * option cstr * uuid_state :=
  if negb has_buf || (buf_len <? AIRY_UUID_STR_LEN)%nat then (AIRY_UUID_EINVALID, None, st)
  else
    let '(err, st) := if uuid_initialized st then (AIRY_UUID_SUCCESS, st)
                      else airy_uuid_init env st in
    if bool_decide (err <> AIRY_UUID_SUCCESS) then (err, None, st)
    else if negb (open_ok env) then (AIRY_UUID_EUNAVAIL, None, st)
    else if negb (length (random env) =? 16)%nat then (AIRY_UUID_EUNAVAIL, None, st)
    else
      (AIRY_UUID_SUCCESS, Some (snprintf buf_len (uuid_format (set_bits (random env)))),
       UuidState (uuid_initialized st) (u64 (uuid_counter st + 1))).

Definition airy_uuid_with_prefix (env : uuid_env) (prefix : option cstr) (has_buf : bool)
    (buf_len : nat) (st : uuid_state) : uuid_err * option cstr * uuid_state :=
  match prefix with
  | None => (AIRY_UUID_EINVALID, None, st)
  | Some prefix =>
      if negb has_buf || (buf_len <? AIRY_UUID_PREFIXED_STR_LEN)%nat then
        (AIRY_UUID_EINVALID, None, st)
      else if (buf_len <=? length prefix)%nat then (AIRY_UUID_EINVALID, None, st)
      else
        match airy_uuid_v4 env true AIRY_UUID_STR_LEN st with
        | (AIRY_UUID_SUCCESS, Some u, st') =>
            (AIRY_UUID_SUCCESS, Some (snprintf buf_len (prefix ++ u)), st')
        | (err, _, st') => (err, None, st')
        end
  end.

Definition is_hex (c : Z) : bool :=
  ((48 <=? c) && (c <=? 57)) || ((97 <=? c) && (c <=? 102)) || ((65 <=? c) && (c <=? 70)).

Definition is_dash_pos (i : nat) : bool :=
  (i =? 8)%nat || (i =? 13)%nat || (i =? 18)%nat || (i =? 23)%nat.

(** The loop of [airy_uuid_is_valid] from position [i], [n] positions left;
    [p] is the string from that position, and past its end the terminating
    NUL is read. *)
Fixpoint uuid_chars_ok (n i : nat) (p : cstr) : bool :=
  match n with
  | O => true
  | S n' =>
      let c := default 0 (head p) in
      if is_dash_pos i then
        if negb (c =? dash) then false else uuid_chars_ok n' (S i) (tail p)
      else
        if negb (is_hex c) then false else uuid_chars_ok n' (S i) (tail p)
  end.

Definition skip_brace (uuid : cstr) : cstr :=
  if default 0 (head uuid) =? 123 then tail uuid else uuid.

Definition airy_uuid_is_valid (uuid : option cstr) : bool :=
  match uuid with
  | None => false
  | Some uuid =>
      let len := length uuid in
      if negb (len =? 36)%nat && negb (len =? 38)%nat then false
      else
        let p := skip_brace uuid in
        if negb (uuid_chars_ok 36 0 p) then false
        else if default 0 (p !! 36%nat) =? 125 then true
        else (len =? 36)%nat
  end.

Definition airy_uuid_bin_to_str (uuid_bin : option (list Z)) (has_buf : bool) (buf_len : nat)
    : uuid_err * option cstr :=
  match uuid_bin with
  | None => (AIRY_UUID_EINVALID, None)
  | Some u =>
      if negb has_buf || (buf_len <? AIRY_UUID_STR_LEN)%nat then (AIRY_UUID_EINVALID, None)
      else (AIRY_UUID_SUCCESS, Some (snprintf buf_len (uuid_format u)))
  end.

Definition hex_val (c : Z) : Z :=
  if c <=? 57 then c - 48 else if c <=? 70 then c - 55 else c - 87.

(** [strtol] in base 16 on two characters, which are hexadecimal digits
    whenever the string has passed the validation. *)
Definition strtol16 (c d : Z) : Z :=
  if is_hex c then if is_hex d then hex_val c * 16 + hex_val d else hex_val c else 0.

(** The loop of [airy_uuid_str_to_bin] over the [n] characters left at [p]. *)
Fixpoint str_to_bin_loop (n : nat) (p : cstr) : list Z :=
  match n with
  | O => []
  | S n' =>
      let c := default 0 (head p) in
      if c =? dash then str_to_bin_loop n' (tail p)
      else
        u8 (strtol16 c (default 0 (head (tail p)))) ::
        match n' with
        | O => []
        | S n'' => str_to_bin_loop n'' (tail (tail p))
        end
  end.

Definition airy_uuid_str_to_bin (uuid_str : option cstr) (has_out : bool)
    : uuid_err * option (list Z) :=
  match uuid_str with
  | None => (AIRY_UUID_EINVALID, None)
  | Some s =>
      if negb has_out then (AIRY_UUID_EINVALID, None)
      else if negb (airy_uuid_is_valid (Some s)) then (AIRY_UUID_EINVALID, None)
      else (AIRY_UUID_SUCCESS, Some (str_to_bin_loop 36 (skip_brace s)))
  end.

(** ** Hexadecimal digits *)

Lemma hex_digit_facts d :
  0 <= d < 16 ->
  is_hex (hex_digit d) = true /\ hex_digit d <> dash /\ hex_digit d <> 123 /\ hex_val (hex_digit d) = d.
Proof.
  intros Hd. unfold is_hex, hex_digit, hex_val, dash. bool_prop; simpl; split_and!; try lia; done.
Qed.

Lemma byte_digits b : is_byte b -> 0 <= b / 16 < 16 /\ 0 <= b mod 16 < 16 /\ b / 16 * 16 + b mod 16 = b.
Proof.
  unfold is_byte. intros Hb. pose proof (Z.div_mod b 16). pose proof (Z.mod_pos_bound b 16).
  split_and!; lia.
Qed.

Lemma str_to_bin_hex2 n b s :
  is_byte b -> str_to_bin_loop (S (S n)) (hex2 b ++ s) = b :: str_to_bin_loop n s.
Proof.
  intros Hb. destruct (byte_digits b Hb) as (H1 & H2 & H3).
  destruct (hex_digit_facts _ H1) as (Hh1 & Hd1 & _ & Hv1).
  destruct (hex_digit_facts _ H2) as (Hh2 & _ & _ & Hv2).
  cbn [str_to_bin_loop hex2 app head tail from_option id]. rewrite (proj2 (Z.eqb_neq _ _) Hd1).
  unfold strtol16. rewrite Hh1, Hh2, Hv1, Hv2, H3.
  f_equal. apply u8_small. exact Hb.
Qed.

Lemma str_to_bin_dash n s : str_to_bin_loop (S n) ([dash] ++ s) = str_to_bin_loop n s.
Proof. done. Qed.

Lemma chars_ok_hex2 n i b s :
  is_byte b -> is_dash_pos i = false -> is_dash_pos (S i) = false ->
  uuid_chars_ok (S (S n)) i (hex2 b ++ s) = uuid_chars_ok n (S (S i)) s.
Proof.
  intros Hb Hi Hsi. destruct (byte_digits b Hb) as (H1 & H2 & H3).
  destruct (hex_digit_facts _ H1) as (Hh1 & _). destruct (hex_digit_facts _ H2) as (Hh2 & _).
  cbn [uuid_chars_ok hex2 app head tail from_option id]. by rewrite Hi, Hsi, Hh1, Hh2.
Qed.

Lemma chars_ok_dash n i s :
  is_dash_pos i = true -> uuid_chars_ok (S n) i ([dash] ++ s) = uuid_chars_ok n (S i) s.
Proof. intros Hi. cbn [uuid_chars_ok app head tail]. by rewrite Hi. Qed.

Section format.
Context (u : list Z) (Hlen : length u = 16%nat) (Hu : Forall is_byte u).

Lemma ub_byte i : is_byte (ub u i).
Proof.
  unfold ub. destruct (u !! i) as [b|] eqn:Hb; [|unfold is_byte; simpl; lia].
  by apply (Forall_lookup_1 _ _ _ _ Hu Hb).
Qed.

Lemma format_length : length (uuid_format u) = 36%nat.
Proof. reflexivity. Qed.

Lemma format_bytes : str_to_bin_loop 36 (uuid_format u) = ub u <$> seq 0 16.
Proof.
  unfold uuid_format.
  repeat first [rewrite str_to_bin_hex2 by apply ub_byte | rewrite str_to_bin_dash].
  rewrite <- (app_nil_r (hex2 (ub u 15))). by rewrite str_to_bin_hex2 by apply ub_byte.
Qed.

Lemma format_chars_ok : uuid_chars_ok 36 0 (uuid_format u) = true.
Proof.
  unfold uuid_format.
  repeat first [rewrite chars_ok_hex2 by (apply ub_byte || done) | rewrite chars_ok_dash by done].
  rewrite <- (app_nil_r (hex2 (ub u 15))). by rewrite chars_ok_hex2 by (apply ub_byte || done).
Qed.

Lemma format_no_brace : skip_brace (uuid_format u) = uuid_format u.
Proof.
  unfold skip_brace, uuid_format. cbn [hex2 app head from_option id].
  destruct (byte_digits (ub u 0) (ub_byte 0)) as (H1 & _).
  destruct (hex_digit_facts _ H1) as (_ & _ & Hb & _). by rewrite (proj2 (Z.eqb_neq _ _) Hb).
Qed.

Lemma format_valid : airy_uuid_is_valid (Some (uuid_format u)) = true.
Proof.
  unfold airy_uuid_is_valid. rewrite format_no_brace, format_chars_ok. reflexivity.
Qed.

Lemma ub_all : ub u <$> seq 0 16 = u.
Proof.
  apply list_eq. intros i. rewrite list_lookup_fmap. destruct (decide (i < 16)%nat).
  - rewrite lookup_seq_lt by done. simpl. unfold ub.
    destruct (lookup_lt_is_Some_2 u i) as [b ->]; [lia|done].
  - rewrite lookup_seq_ge by lia. simpl. symmetry. apply lookup_ge_None. lia.
Qed.

End format.

(** ** Properties *)

(** Formatting 16 bytes into a buffer of the documented size and parsing
    the string back gives the same bytes, and the string is valid. *)
Theorem uuid_roundtrip u buf_len :
  length u = 16%nat -> Forall is_byte u -> (AIRY_UUID_STR_LEN <= buf_len)%nat ->
  exists s, airy_uuid_bin_to_str (Some u) true buf_len = (AIRY_UUID_SUCCESS, Some s) /\
    length s = 36%nat /\ airy_uuid_is_valid (Some s) = true /\
    airy_uuid_str_to_bin (Some s) true = (AIRY_UUID_SUCCESS, Some u).
Proof.
  intros Hlen Hu Hbuf. exists (uuid_format u). unfold airy_uuid_bin_to_str, AIRY_UUID_STR_LEN in *.
  rewrite (proj2 (Nat.ltb_ge _ _) Hbuf). unfold snprintf.
  rewrite take_ge by (rewrite format_length; lia). 
  split; [reflexivity|]. split; [apply format_length|]. split; [by apply format_valid|].
  unfold airy_uuid_str_to_bin. rewrite format_valid by done. cbn [negb].
  rewrite format_no_brace, format_bytes, ub_all by done. done.
Qed.

Definition sample_uuid : list Z := [0x55; 0x0e; 0x84; 0x00; 0xe2; 0x9b; 0x41; 0xd4; 0xa7; 0x16; 0x44; 0x66; 0x55; 0x44; 0; 0xff].

Lemma uuid_roundtrip_witness :
  exists s, airy_uuid_bin_to_str (Some sample_uuid) true 37 = (AIRY_UUID_SUCCESS, Some s) /\
    length s = 36%nat /\ airy_uuid_is_valid (Some s) = true /\
    airy_uuid_str_to_bin (Some s) true = (AIRY_UUID_SUCCESS, Some sample_uuid).
Proof.
  apply uuid_roundtrip; [reflexivity| |unfold AIRY_UUID_STR_LEN; lia].
  repeat (apply Forall_cons; split; [unfold is_byte; lia|]); by apply Forall_nil.
Defined.

(** The two masked bytes of a version 4 UUID. *)
Lemma version_byte b : is_byte b ->
  is_byte (Z.lor (Z.land b 0x0F) 0x40) /\ hex_digit (Z.lor (Z.land b 0x0F) 0x40 / 16) = 52.
Proof.
  intros Hb. cut (bool_decide (is_byte (Z.lor (Z.land b 0x0F) 0x40) /\
    hex_digit (Z.lor (Z.land b 0x0F) 0x40 / 16) = 52) = true).
  { apply bool_decide_eq_true_1. }
  revert b Hb. apply byte_forall. by vm_compute.
Qed.

Lemma variant_byte b : is_byte b ->
  is_byte (Z.lor (Z.land b 0x3F) 0x80) /\
  hex_digit (Z.lor (Z.land b 0x3F) 0x80 / 16) ∈ [56; 57; 97; 98].
Proof.
  intros Hb. cut (bool_decide (is_byte (Z.lor (Z.land b 0x3F) 0x80) /\
    hex_digit (Z.lor (Z.land b 0x3F) 0x80 / 16) ∈ [56; 57; 97; 98]) = true).
  { apply bool_decide_eq_true_1. }
  revert b Hb. apply byte_forall. by vm_compute.
Qed.

Lemma set_bits_facts r :
  length r = 16%nat -> Forall is_byte r ->
  length (set_bits r) = 16%nat /\ Forall is_byte (set_bits r) /\
  hex_digit (ub (set_bits r) 6 / 16) = 52 /\
  hex_digit (ub (set_bits r) 8 / 16) ∈ [56; 57; 97; 98] /\
  (forall i, i <> 6%nat -> i <> 8%nat -> set_bits r !! i = r !! i).
Proof.
  intros Hlen Hr. destruct (version_byte (ub r 6)) as [V1 V2]; [by apply ub_byte|].
  assert (H8 : ub (<[6%nat:=Z.lor (Z.land (ub r 6) 0x0F) 0x40]> r) 8 = ub r 8)
    by (unfold ub; by rewrite list_lookup_insert_ne by lia).
  destruct (variant_byte (ub r 8)) as [W1 W2]; [by apply ub_byte|].
  unfold set_bits. cbv zeta. rewrite H8. split_and!.
  - by rewrite !length_insert.
  - by repeat apply Forall_insert.
  - unfold ub at 1. rewrite list_lookup_insert_ne, list_lookup_insert_eq by lia. exact V2.
  - unfold ub at 1. rewrite list_lookup_insert_eq by (rewrite length_insert; lia). exact W2.
  - intros i H6 Hi8. by rewrite !list_lookup_insert_ne by done.
Qed.

(** A version 4 UUID generated with 16 random bytes is a valid 36-character
    string whose version digit is 4 and whose variant digit is 8, 9, a or b, and
    which parses to the random bytes in the other fourteen places. *)
Theorem uuid_v4_bits env st buf_len :
  probe_ok env = true -> open_ok env = true -> length (random env) = 16%nat ->
  Forall is_byte (random env) -> (AIRY_UUID_STR_LEN <= buf_len)%nat ->
  exists s st' u, airy_uuid_v4 env true buf_len st = (AIRY_UUID_SUCCESS, Some s, st') /\
    uuid_initialized st' = true /\
    length s = 36%nat /\ airy_uuid_is_valid (Some s) = true /\
    s !! 14%nat = Some 52 /\ (exists c, s !! 19%nat = Some c /\ c ∈ [56; 57; 97; 98]) /\
    airy_uuid_str_to_bin (Some s) true = (AIRY_UUID_SUCCESS, Some u) /\
    (forall i, i <> 6%nat -> i <> 8%nat -> u !! i = random env !! i).
Proof.
  intros Hprobe Hopen Hlen Hrnd Hbuf.
  destruct (set_bits_facts (random env) Hlen Hrnd) as (Hl & Hb & H6 & H8 & Hi).
  set (u := set_bits (random env)) in *.
  exists (uuid_format u), (UuidState true (u64 (uuid_counter
    (if uuid_initialized st then st else snd (airy_uuid_init env st)) + 1))), u.
  split.
  { unfold airy_uuid_v4, airy_uuid_init. unfold AIRY_UUID_STR_LEN in *.
    rewrite (proj2 (Nat.ltb_ge _ _) Hbuf), Hprobe, Hopen, Hlen. unfold snprintf. fold u.
    rewrite take_ge by (rewrite format_length; lia).
    destruct (uuid_initialized st) eqn:Hst; simpl; by rewrite ?Hst. }
  split; [done|]. split; [apply format_length|]. split; [by apply format_valid|].
  split; [by rewrite <- H6|]. split; [eexists; split; [reflexivity|exact H8]|]. split; [|done].
  unfold airy_uuid_str_to_bin. rewrite format_valid by done. cbn [negb].
  by rewrite format_no_brace, format_bytes, ub_all.
Qed.

Lemma uuid_v4_bits_witness :
  let env := UuidEnv true true sample_uuid 1700000000 in
  exists s st' u, airy_uuid_v4 env true 64 (UuidState false 0) = (AIRY_UUID_SUCCESS, Some s, st') /\
    uuid_initialized st' = true /\
    length s = 36%nat /\ airy_uuid_is_valid (Some s) = true /\
    s !! 14%nat = Some 52 /\ (exists c, s !! 19%nat = Some c /\ c ∈ [56; 57; 97; 98]) /\
    airy_uuid_str_to_bin (Some s) true = (AIRY_UUID_SUCCESS, Some u) /\
    (forall i, i <> 6%nat -> i <> 8%nat -> u !! i = random env !! i).
Proof.
  apply (uuid_v4_bits (UuidEnv true true sample_uuid 1700000000) (UuidState false 0) 64);
    try reflexivity; [|unfold AIRY_UUID_STR_LEN; lia].
  repeat (apply Forall_cons; split; [unfold is_byte; lia|]); by apply Forall_nil.
Defined.

(** A 38-character string need not be wrapped in braces to be accepted: a
    closing brace after the 36 characters is enough, whatever comes last. *)
Lemma uuid_unwrapped_accepted u c :
  length u = 16%nat -> Forall is_byte u ->
  airy_uuid_is_valid (Some (uuid_format u ++ [125; c])) = true.
Proof.
  intros Hlen Hu. unfold airy_uuid_is_valid. rewrite length_app, format_length.
  replace (skip_brace (uuid_format u ++ [125; c])) with (uuid_format u ++ [125; c]).
  - replace (uuid_chars_ok 36 0 (uuid_format u ++ [125; c])) with true; [reflexivity|].
    symmetry. unfold uuid_format. rewrite <- !app_assoc.
    repeat first [rewrite chars_ok_hex2 by (done || by apply ub_byte) | rewrite chars_ok_dash by done].
    done.
  - symmetry. pose proof (format_no_brace u Hlen Hu) as H. unfold skip_brace in *.
    cbn [uuid_format hex2 app head from_option id] in *. case_match; [|done].
    apply (f_equal length) in H. discriminate H.
Qed.
