(* ===== verification/Strings.v ===== *)
(** * Strings: utils/string/safe_string_utils.c and utils/string/text_utils.c

    A buffer is the list of the bytes of its memory; reading or writing outside
    it is undefined ([None]).  An argument that is only read is a C string (its
    bytes before the NUL). *)
From S2P Require Import Prelude.

(** ** Memory *)

Definition mem_write (off : nat) (bytes : list Z) (m : list Z) : option (list Z) :=
  if (off + length bytes <=? length m)%nat
  then Some (take off m ++ bytes ++ drop (off + length bytes) m) else None.

(** [strlen] of a buffer: it reads up to the first NUL. *)
Fixpoint c_strlen (m : list Z) : option nat :=
  match m with
  | [] => None
  | b :: m' => if b =? 0 then Some 0%nat else n ← c_strlen m'; Some (S n)
  end.

(** The string a buffer holds. *)
Definition mem_string (m : list Z) : option cstr := n ← c_strlen m; Some (take n m).

(** ** safe_string_utils.c *)

Definition safe_strcpy (dest : option (list Z)) (src : option cstr) (dest_size : nat)
    : option (Z * option (list Z)) :=
  match dest, src with
  | Some d, Some s =>
      if (dest_size =? 0)%nat then Some (AIRY_ERR_INVALID_PARAM, Some d)
      else if (dest_size <=? length s)%nat then
        d ← mem_write 0 (take (dest_size - 1) s) d;
        d ← mem_write (dest_size - 1) [0] d;
        Some (AIRY_ERR_OVERFLOW, Some d)
      else d ← mem_write 0 (s ++ [0]) d; Some (0, Some d)
  | _, _ => Some (AIRY_ERR_INVALID_PARAM, dest)
  end.

Definition safe_strcat (dest : option (list Z)) (src : option cstr) (dest_size : nat)
    : option (Z * option (list Z)) :=
  match dest, src with
  | Some d, Some s =>
      if (dest_size =? 0)%nat then Some (AIRY_ERR_INVALID_PARAM, Some d)
      else
        dest_len ← c_strlen d;
        if (dest_size <=? dest_len)%nat then
          d ← mem_write (dest_size - 1) [0] d; Some (AIRY_ERR_OVERFLOW, Some d)
        else if (dest_size - dest_len - 1 <? length s)%nat then
          let remaining := (dest_size - dest_len - 1)%nat in
          d ← mem_write dest_len (take remaining s) d;
          d ← mem_write (dest_len + remaining) [0] d;
          Some (AIRY_ERR_OVERFLOW, Some d)
        else d ← mem_write dest_len (s ++ [0]) d; Some (0, Some d)
  | _, _ => Some (AIRY_ERR_INVALID_PARAM, dest)
  end.

(** [vsnprintf] printed [text], or failed ([None]). *)
Definition safe_sprintf (dest : option (list Z)) (dest_size : nat) (text : option cstr)
    : option (Z * option (list Z)) :=
  match dest with
  | Some d =>
      if (dest_size =? 0)%nat then Some (AIRY_ERR_INVALID_PARAM, Some d)
      else
        match text with
        | None => d ← mem_write (dest_size - 1) [0] d; Some (AIRY_ERR_PARSE_ERROR, Some d)
        | Some t =>
            d ← mem_write 0 (take (dest_size - 1) t ++ [0]) d;
            if (dest_size <=? length t)%nat then
              d ← mem_write (dest_size - 1) [0] d; Some (AIRY_ERR_PARSE_ERROR, Some d)
            else Some (Z.of_nat (length t), Some d)
        end
  | None => Some (AIRY_ERR_INVALID_PARAM, None)
  end.

Fixpoint safe_strlen_loop (s : cstr) (max_len : nat) : nat :=
  match max_len, s with
  | O, _ => 0
  | S _, [] => 0
  | S n, _ :: s' => S (safe_strlen_loop s' n)
  end.

Definition safe_strlen (str : option cstr) (max_len : nat) : nat :=
  match str with None => 0%nat | Some s => safe_strlen_loop s max_len end.

Fixpoint safe_strcmp_loop (s1 s2 : cstr) (max_len : nat) : Z :=
  match max_len with
  | O => 0
  | S n =>
      match s1, s2 with
      | [], [] => 0
      | [], _ :: _ => AIRY_ERR_PARSE_ERROR
      | _ :: _, [] => 1
      | a :: s1', b :: s2' => let diff := a - b in if negb (diff =? 0) then diff else safe_strcmp_loop s1' s2' n
      end
  end.

Definition safe_strcmp (s1 s2 : option cstr) (max_len : nat) : Z :=
  match s1, s2 with
  | None, None => 0
  | None, Some _ => AIRY_ERR_INVALID_PARAM
  | Some _, None => 1
  | Some a, Some b => safe_strcmp_loop a b max_len
  end.

Definition safe_strdup_with_limit (str : option cstr) (max_copy_len : nat) (alloc : bool) : option cstr :=
  s ← str;
  let len := if (0 <? max_copy_len)%nat && (max_copy_len <? length s)%nat then max_copy_len else length s in
  if alloc then Some (take len s) else None.

Definition secure_clear (buf : option (list Z)) (size : nat) : option (option (list Z)) :=
  match buf with
  | None => Some None
  | Some m => m ← mem_write 0 (replicate size 0) m; Some (Some m)
  end.

(** The first loop gives the length, or refuses a string that does not end
    within [max_len] bytes. *)
Definition validate_string_input (str : option cstr) (max_len : nat) : bool :=
  match str with
  | None => false
  | Some s =>
      if (max_len =? 0)%nat then true
      else if (max_len <=? length s)%nat then false
      else forallb (fun c => negb ((c <? 0x20) && negb (c =? 9) && negb (c =? 10) && negb (c =? 13))) s
  end.

Definition validate_pointer {A} (p : option A) : bool := match p with Some _ => true | None => false end.
Definition validate_range (value min_val max_val : Z) : bool := (min_val <=? value) && (value <=? max_val).

Definition is_valid_ascii (str : option cstr) (len : nat) : bool :=
  match str with None => false | Some s => forallb (fun c => c <=? 0x7F) (take len s) end.

Definition SIZE_MAX : Z := 2 ^ 64 - 1.

(** The number of bytes asked of the allocator, if it is asked at all. *)
Definition safe_malloc (size : Z) : option Z := if size =? 0 then None else Some size.
Definition safe_calloc (count size : Z) : option Z :=
  if (count =? 0) || (size =? 0) then None
  else if SIZE_MAX / size <? count then None else Some (count * size).

(** ** text_utils.c *)

Definition airy_text_lower (str : option cstr) : option cstr := map tolower <$> str.

(** The inner loop of [airy_text_icontains]: does [needle] match here? *)
Fixpoint imatch (haystack needle : cstr) : bool :=
  match needle, haystack with
  | [], _ => true
  | _ :: _, [] => false
  | n :: needle', h :: haystack' => if tolower h =? tolower n then imatch haystack' needle' else false
  end.

(** The outer loop over the [count] starting positions. *)
Fixpoint icontains_loop (count : nat) (haystack needle : cstr) : bool :=
  match count with
  | O => false
  | S count' => if imatch haystack needle then true else icontains_loop count' (drop 1 haystack) needle
  end.

Definition airy_text_icontains (haystack needle : option cstr) : Z :=
  match haystack, needle with
  | Some h, Some n =>
      if (length h <? length n)%nat then 0
      else if icontains_loop (length h - length n + 1) h n then 1 else 0
  | _, _ => 0
  end.

(** How many characters agree from here on. *)
Fixpoint agree_len (s1 s2 : cstr) : nat :=
  match s1, s2 with
  | a :: s1', b :: s2' => if tolower a =? tolower b then S (agree_len s1' s2') else 0
  | _, _ => 0
  end.

Fixpoint similar_inner (s1 s2 : cstr) (longest : nat) : nat :=
  match s2 with
  | [] => longest
  | _ :: s2' =>
      let k := agree_len s1 s2 in
      similar_inner s1 s2' (if (longest <? k)%nat then k else longest)
  end.

Fixpoint similar_outer (s1 s2 : cstr) (longest : nat) : nat :=
  match s1 with
  | [] => longest
  | _ :: s1' => similar_outer s1' s2 (similar_inner s1 s2 longest)
  end.

(** A [float], rounded to nearest even. *)
Definition to_float (n : nat) : spec_float := binary_normalize 24 128 (Z.of_nat n) 0 false.

Definition airy_text_similar (s1 s2 : option cstr) : spec_float :=
  match s1, s2 with
  | Some s1, Some s2 =>
      let denom := if (length s2 <? length s1)%nat then length s1 else length s2 in
      if (denom =? 0)%nat then S754_zero false
      else SFdiv 24 128 (to_float (similar_outer s1 s2 0)) (to_float denom)
  | _, _ => S754_zero false
  end.

Definition delims : cstr := cs " ,.!?;:" ++ [9; 10; 13].
Definition is_delim (b : Z) : bool := existsb (Z.eqb b) delims.

Fixpoint skip_delims (s : cstr) : cstr :=
  match s with [] => [] | b :: s' => if is_delim b then skip_delims s' else s end.

(** The token at the start, and what follows its delimiter. *)
Fixpoint take_token (s : cstr) : cstr * cstr :=
  match s with
  | [] => ([], [])
  | b :: s' => if is_delim b then ([], s') else let (t, r) := take_token s' in (b :: t, r)
  end.

(** [strtok_r]: the next token and the rest. *)
Definition strtok (s : cstr) : option (cstr * cstr) :=
  match skip_delims s with [] => None | s' => Some (take_token s') end.

(** [dups] tells which copies of keywords can be made; the loop runs while there
    are tokens, [fuel] of them at most. *)
Fixpoint keywords_loop (fuel : nat) (s : cstr) (max_keywords : nat) (dups : list bool) (acc : list cstr)
    : list cstr :=
  match fuel with
  | O => acc
  | S fuel' =>
      match strtok s with
      | None => acc
      | Some (token, rest) =>
          if (length acc <? max_keywords)%nat then
            if (2 <? length token)%nat then
              let (ok, dups) := match dups with [] => (true, []) | d :: dups' => (d, dups') end in
              keywords_loop fuel' rest max_keywords dups
                (if (ok : bool) then acc ++ [map tolower token] else acc)
            else keywords_loop fuel' rest max_keywords dups acc
          else acc
      end
  end.

Definition airy_text_keywords (text : option cstr) (has_keywords : bool) (max_keywords : nat) (copy_ok : bool)
    (dups : list bool) : list cstr :=
  match text with
  | None => []
  | Some t =>
      if negb has_keywords || (max_keywords =? 0)%nat || negb copy_ok then []
      else keywords_loop (S (length t)) t max_keywords dups []
  end.

(** ** Lemmas *)

Lemma mem_write_some off bytes m :
  (off + length bytes <= length m)%nat ->
  mem_write off bytes m = Some (take off m ++ bytes ++ drop (off + length bytes) m).
Proof. intros H. unfold mem_write. by rewrite (proj2 (Nat.leb_le _ _) H). Qed.

Lemma c_strlen_app s rest : Forall is_char s -> c_strlen (s ++ 0 :: rest) = Some (length s).
Proof.
  induction 1 as [|b s Hb Hs IH]; simpl; [done|]. unfold is_char in Hb.
  destruct (Z.eqb_spec b 0); [lia|]. by rewrite IH.
Qed.

Lemma mem_string_app s rest : Forall is_char s -> mem_string (s ++ 0 :: rest) = Some s.
Proof. intros H. unfold mem_string. rewrite c_strlen_app by done. simpl. by rewrite take_app_length. Qed.

Lemma c_strlen_split d n :
  c_strlen d = Some n -> exists rest, d = take n d ++ 0 :: rest /\ length (take n d) = n.
Proof.
  revert n. induction d as [|b d IH]; intros n; simpl; [done|]. destruct (Z.eqb_spec b 0) as [->|].
  - intros [= <-]. by exists d.
  - destruct (c_strlen d) as [k|]; simpl; [|done]. intros [= <-].
    destruct (IH k eq_refl) as (rest & Hd & Hl). exists rest. simpl. rewrite <- Hd. split; [done|by rewrite Hl].
Qed.

(** A string and its NUL written at [off] into a buffer that starts with
    [head]. *)
Lemma string_written head tail s (size : nat) d d' :
  d = head ++ tail -> (length head + length s + 1 <= size)%nat -> (size <= length d)%nat ->
  d' = head ++ s ++ [0] ++ drop (length head + length s + 1) d ->
  Forall is_char head -> Forall is_char s ->
  length d' = length d /\ mem_string d' = Some (head ++ s) /\ drop size d' = drop size d.
Proof.
  intros Hd Hsz Hlen -> Hh Hs. split_and!.
  - rewrite !length_app, length_drop. simpl. lia.
  - replace (head ++ s ++ [0] ++ drop (length head + length s + 1) d)
      with ((head ++ s) ++ 0 :: drop (length head + length s + 1) d) by (by rewrite <- app_assoc).
    apply mem_string_app. by apply Forall_app.
  - replace (head ++ s ++ [0] ++ drop (length head + length s + 1) d)
      with ((head ++ s ++ [0]) ++ drop (length head + length s + 1) d) by (by rewrite <- !app_assoc).
    rewrite drop_app_ge by (rewrite !length_app; simpl; lia). rewrite drop_drop. f_equal.
    rewrite !length_app. simpl. lia.
Qed.

(** Two adjacent writes. *)
Lemma write_then_nul off s d :
  (off + length s + 1 <= length d)%nat ->
  (d ← mem_write off s d; mem_write (off + length s) [0] d) =
  Some (take off d ++ s ++ [0] ++ drop (off + length s + 1) d).
Proof.
  intros H. rewrite mem_write_some by lia. cbn [mbind option_bind].
  assert (Hl : length (take off d ++ s) = (off + length s)%nat) by (rewrite length_app, length_take; lia).
  rewrite mem_write_some by (rewrite !length_app, length_take, length_drop; simpl; lia).
  f_equal. rewrite (app_assoc (take off d)).
  rewrite take_app_le by lia. rewrite take_ge by lia. rewrite <- app_assoc. do 3 f_equal.
  rewrite drop_app_ge by (rewrite Hl; simpl; lia). rewrite drop_drop, Hl. f_equal. simpl. lia.
Qed.

Lemma imatch_iff h n :
  imatch h n = true <-> exists mid post, h = mid ++ post /\ map tolower mid = map tolower n.
Proof.
  revert h. induction n as [|x n IH]; intros h; simpl.
  - split; [|by destruct h]. intros _. by exists [], h.
  - destruct h as [|y h]; simpl.
    + split; [done|]. intros (mid & post & Hh & Hm). destruct mid; [done|]. done.
    + destruct (Z.eqb_spec (tolower y) (tolower x)) as [E|E].
      * rewrite IH. split.
        -- intros (mid & post & -> & Hm). exists (y :: mid), post. simpl. by rewrite E, Hm.
        -- intros ([|z mid] & post & Hh & Hm); [done|]. simplify_eq/=. eauto.
      * split; [done|]. intros ([|z mid] & post & Hh & Hm); [done|]. by simplify_eq/=.
Qed.

Lemma icontains_loop_iff count h n :
  icontains_loop count h n = true <-> exists i, (i < count)%nat /\ imatch (drop i h) n = true.
Proof.
  revert h. induction count as [|count IH]; intros h; simpl.
  { split; [done|]. intros (i & Hi & _). lia. }
  destruct (imatch h n) eqn:E.
  - split; [|done]. intros _. exists 0%nat. split; [lia|done].
  - rewrite IH. split.
    + intros (i & Hi & Hm). exists (S i). split; [lia|]. by rewrite drop_drop in Hm.
    + intros ([|i] & Hi & Hm); [by rewrite drop_0, E in Hm|]. exists i. split; [lia|]. by rewrite drop_drop.
Qed.

(** Common substrings, up to letter case. *)
Definition common (s1 s2 : cstr) (k : nat) : Prop :=
  exists i j, length (take k (drop i s1)) = k /\ map tolower (take k (drop i s1)) = map tolower (take k (drop j s2)).

Lemma agree_len_ok s1 s2 :
  (agree_len s1 s2 <= length s1)%nat /\
  map tolower (take (agree_len s1 s2) s1) = map tolower (take (agree_len s1 s2) s2) /\
  forall k, (k <= length s1)%nat -> map tolower (take k s1) = map tolower (take k s2) -> (k <= agree_len s1 s2)%nat.
Proof.
  revert s2. induction s1 as [|a s1 IH]; intros s2; simpl.
  { split_and!; [lia|done|lia]. }
  destruct s2 as [|b s2]; simpl.
  { split_and!; [lia|done|]. intros [|k] Hk; [lia|]. done. }
  destruct (IH s2) as (H1 & H2 & H3). destruct (Z.eqb_spec (tolower a) (tolower b)) as [E|E]; simpl.
  - split_and!; [lia|by rewrite E, H2|]. intros [|k] Hk; [lia|]. simpl. intros [= _ Hm].
    specialize (H3 k ltac:(lia) Hm). lia.
  - split_and!; [lia|done|]. intros [|k] Hk; [lia|]. simpl. intros [= Hm _]. done.
Qed.

Lemma agree_len_max s1 s2 k :
  length (take k s1) = k -> map tolower (take k s1) = map tolower (take k s2) -> (k <= agree_len s1 s2)%nat.
Proof.
  intros Hl Hm. destruct (agree_len_ok s1 s2) as (_ & _ & H). apply H; [|done].
  rewrite length_take in Hl. lia.
Qed.

(** The loops compute a maximum. *)
Lemma similar_inner_max s1 s2 longest :
  (longest <= similar_inner s1 s2 longest)%nat /\
  (forall j, (j < length s2)%nat -> (agree_len s1 (drop j s2) <= similar_inner s1 s2 longest)%nat) /\
  (similar_inner s1 s2 longest = longest \/
   exists j, similar_inner s1 s2 longest = agree_len s1 (drop j s2)).
Proof.
  revert longest. induction s2 as [|b s2 IH]; intros longest.
  { simpl. split_and!; [lia|lia|by left]. }
  cbn [similar_inner]. set (k := agree_len s1 (b :: s2)).
  destruct (IH (if (longest <? k)%nat then k else longest)) as (H1 & H2 & H3).
  assert (Hk : (k <= (if (longest <? k)%nat then k else longest))%nat /\
    (longest <= (if (longest <? k)%nat then k else longest))%nat)
    by (destruct (Nat.ltb_spec longest k); lia).
  split_and!; [lia| |].
  - intros [|j] Hj; [rewrite drop_0; fold k; lia|]. apply H2. simpl in Hj. lia.
  - destruct H3 as [->|[j ->]]; [|right; by exists (S j)].
    destruct (Nat.ltb_spec longest k); [right; by exists 0%nat|by left].
Qed.

Lemma similar_outer_max s1 s2 longest :
  (longest <= similar_outer s1 s2 longest)%nat /\
  (forall i j, (i < length s1)%nat -> (j < length s2)%nat ->
    (agree_len (drop i s1) (drop j s2) <= similar_outer s1 s2 longest)%nat) /\
  (similar_outer s1 s2 longest = longest \/
   exists i j, similar_outer s1 s2 longest = agree_len (drop i s1) (drop j s2)).
Proof.
  revert longest. induction s1 as [|a s1 IH]; intros longest.
  { simpl. split_and!; [lia|lia|by left]. }
  cbn [similar_outer].
  destruct (similar_inner_max (a :: s1) s2 longest) as (I1 & I2 & I3).
  destruct (IH (similar_inner (a :: s1) s2 longest)) as (H1 & H2 & H3).
  split_and!; [lia| |].
  - intros [|i] j Hi Hj; [rewrite drop_0; specialize (I2 j Hj); lia|]. apply H2; [simpl in Hi; lia|done].
  - destruct H3 as [->|(i & j & ->)]; [|right; by exists (S i), j].
    destruct I3 as [->|[j ->]]; [by left|right; by exists 0%nat, j].
Qed.

Lemma similar_common s1 s2 :
  common s1 s2 (similar_outer s1 s2 0) /\ forall k, common s1 s2 k -> (k <= similar_outer s1 s2 0)%nat.
Proof.
  destruct (similar_outer_max s1 s2 0) as (_ & H2 & H3). split.
  - destruct H3 as [->|(i & j & ->)]; [by exists 0%nat, 0%nat|].
    destruct (agree_len_ok (drop i s1) (drop j s2)) as (Hle & Hm & _). exists i, j.
    split; [|done]. rewrite length_take. lia.
  - intros k (i & j & Hl & Hm). destruct k as [|k]; [lia|].
    pose proof (agree_len_max _ _ _ Hl Hm) as Hk.
    assert (Hi : (i < length s1)%nat) by (rewrite length_take, length_drop in Hl; lia).
    assert (Hj : (j < length s2)%nat).
    { apply (f_equal length) in Hm. rewrite !length_map, Hl, length_take, length_drop in Hm. lia. }
    specialize (H2 i j Hi Hj). lia.
Qed.

(** ** Properties *)

(** Concatenation into a buffer of [dest_size] bytes never writes past it
    and always leaves a NUL-terminated string, the concatenation cut to the
    buffer; it succeeds exactly when nothing is cut. *)
Theorem safe_strcat_bounded d s0 src dest_size :
  mem_string d = Some s0 -> Forall is_char s0 -> Forall is_char src ->
  (length s0 < dest_size <= length d)%nat ->
  exists d', safe_strcat (Some d) (Some src) dest_size =
      Some (if (length s0 + length src <? dest_size)%nat then 0 else AIRY_ERR_OVERFLOW, Some d') /\
    length d' = length d /\ mem_string d' = Some (take (dest_size - 1) (s0 ++ src)) /\
    drop dest_size d' = drop dest_size d.
Proof.
  intros Hd Hs0 Hsrc [Hlt Hle]. unfold mem_string in Hd.
  destruct (c_strlen d) as [n|] eqn:Hn; simpl in Hd; [|done]. injection Hd as <-.
  destruct (c_strlen_split d n Hn) as (rest & Hd & Hl). rewrite Hl in *.
  unfold safe_strcat. destruct (Nat.eqb_spec dest_size 0); [lia|]. rewrite Hn. cbn [mbind option_bind].
  destruct (Nat.leb_spec dest_size n); [lia|].
  rewrite take_app_ge, Hl by lia.
  destruct (Nat.ltb_spec (dest_size - n - 1) (length src)) as [Hcut|Hfit];
    destruct (Nat.ltb_spec (n + length src) dest_size); try lia.
  - set (s := take (dest_size - n - 1) src).
    assert (Hls : length s = (dest_size - n - 1)%nat) by (unfold s; rewrite length_take; lia).
    pose proof (write_then_nul n s d ltac:(lia)) as Hw. rewrite Hls in Hw.
    replace (d ← mem_write n s d; d0 ← mem_write (n + (dest_size - n - 1)) [0] d; Some (AIRY_ERR_OVERFLOW, Some d0))
      with ((d ← mem_write n s d; mem_write (n + (dest_size - n - 1)) [0] d) ≫= fun d0 => Some (AIRY_ERR_OVERFLOW, Some d0))
      by (by destruct (mem_write n s d)).
    rewrite Hw. simpl. eexists. split; [done|].
    replace (dest_size - 1 - n)%nat with (dest_size - n - 1)%nat by lia. fold s.
    eapply string_written; [exact Hd|rewrite Hl; lia|done|rewrite Hl, Hls; done|done|].
    unfold s. by apply Forall_take.
  - rewrite mem_write_some by (rewrite length_app; simpl; lia). simpl. eexists. split; [done|].
    rewrite (take_ge src) by lia.
    eapply string_written; [exact Hd|rewrite Hl; lia|done| |done|done].
    rewrite Hl, length_app, <- app_assoc. simpl. do 4 f_equal. lia.
Qed.

Lemma safe_strcat_bounded_witness :
  exists d', safe_strcat (Some (cs "ab" ++ [0; 7; 7; 7])) (Some (cs "cde")) 5 = Some (AIRY_ERR_OVERFLOW, Some d') /\
    length d' = 6%nat /\ mem_string d' = Some (cs "abcd") /\ drop 5 d' = [7].
Proof.
  apply (safe_strcat_bounded (cs "ab" ++ [0; 7; 7; 7]) (cs "ab") (cs "cde") 5);
    [reflexivity| | |simpl; lia]; refine (bool_decide_eq_true_1 _ _); vm_compute; reflexivity.
Defined.

(** C37: [airy_text_icontains] answers 1 exactly when the needle occurs in the
    haystack up to letter case. *)
Theorem text_icontains_iff h n :
  airy_text_icontains (Some h) (Some n) = 1 <->
  exists pre mid post, h = pre ++ mid ++ post /\ map tolower mid = map tolower n.
Proof.
  unfold airy_text_icontains. destruct (Nat.ltb_spec (length h) (length n)) as [Hlt|Hge].
  { split; [done|]. intros (pre & mid & post & -> & Hm). apply (f_equal length) in Hm.
    rewrite !length_map in Hm. rewrite !length_app in Hlt. lia. }
  destruct (icontains_loop _ _ _) eqn:E.
  - split; [|done]. intros _. apply icontains_loop_iff in E as (i & _ & (mid & post & Hd & Hm)%imatch_iff).
    exists (take i h), mid, post. by rewrite <- Hd, take_drop.
  - split; [done|]. intros (pre & mid & post & -> & Hm).
    assert (Hl : length mid = length n) by (apply (f_equal length) in Hm; by rewrite !length_map in Hm).
    exfalso.
    assert (icontains_loop (length (pre ++ mid ++ post) - length n + 1) (pre ++ mid ++ post) n = true);
      [|congruence].
    apply icontains_loop_iff. exists (length pre). rewrite !length_app. split; [lia|].
    apply imatch_iff. exists mid, post. by rewrite drop_app_length.
Qed.

(** The similarity of two texts is the length of their longest common
    substring, up to letter case, over the length of the longer text. *)
Theorem text_similar_lcs s1 s2 :
  (0 < Nat.max (length s1) (length s2))%nat ->
  exists k, airy_text_similar (Some s1) (Some s2) =
      SFdiv 24 128 (to_float k) (to_float (Nat.max (length s1) (length s2))) /\
    common s1 s2 k /\ forall k', common s1 s2 k' -> (k' <= k)%nat.
Proof.
  intros Hpos. exists (similar_outer s1 s2 0). split; [|apply similar_common].
  unfold airy_text_similar.
  replace (if (length s2 <? length s1)%nat then length s1 else length s2)
    with (Nat.max (length s1) (length s2)) by (destruct (Nat.ltb_spec (length s2) (length s1)); lia).
  destruct (Nat.eqb_spec (Nat.max (length s1) (length s2)) 0); [lia|done].
Qed.

Lemma text_similar_lcs_witness :
  exists k, airy_text_similar (Some (cs "Search")) (Some (cs "reseARch")) = SFdiv 24 128 (to_float k) (to_float 8) /\
    common (cs "Search") (cs "reseARch") k.
Proof.
  destruct (text_similar_lcs (cs "Search") (cs "reseARch")) as (k & H & Hc & _); [simpl; lia|].
  exists k. split; [exact H|exact Hc].
Defined.
