(* ===== verification/RegexParse.v ===== *)
(** * The parser of regular expressions: utils/compat/airy_regex_parse.c

    The parser reads an extended regular expression into a tree.  A list linked
    by [next] is a list here, with [NULL] the empty list; the nodes are values,
    since a node is filled by the call that allocates it and never shared.  The
    answers of the allocator are a parameter. *)
From S2P Require Import Prelude.

(** ** Calls that change a state *)

(** A call returns, is undefined (overflow of a signed integer, access outside
    an object), or does not end within the fuel of the model. *)
Inductive outcome (A : Type) := Ret (a : A) | Undef | NoFuel.
Arguments Ret {A} a.
Arguments Undef {A}.
Arguments NoFuel {A}.

Definition M (S A : Type) : Type := S -> outcome (A * S).

Section monad.
Context {S : Type}.

Definition ret {A} (a : A) : M S A := fun s => Ret (a, s).
Definition bind {A B} (m : M S A) (k : A -> M S B) : M S B :=
  fun s => match m s with Ret (a, s) => k a s | Undef => Undef | NoFuel => NoFuel end.
Definition get : M S S := fun s => Ret (s, s).
Definition modify (f : S -> S) : M S unit := fun s => Ret (tt, f s).
Definition undef {A} : M S A := fun _ => Undef.
Definition nofuel {A} : M S A := fun _ => NoFuel.

End monad.

Declare Scope re_scope.
Delimit Scope re_scope with re.
Notation "x <- m ;; k" := (bind m (fun x => k))
  (at level 100, m at next level, right associativity) : re_scope.
Notation "m ;; k" := (bind m (fun _ => k)) (at level 100, right associativity) : re_scope.
(** [x = m; if (!x) return NULL;] *)
Notation "x <-? m ;; k" := (bind m (fun o => match o with Some x => k | None => ret None end))
  (at level 100, m at next level, right associativity) : re_scope.
#[local] Open Scope re_scope.

(** ** Data *)

Definition AIRY_RE_MAX_GROUPS : Z := 10.
Definition AIRY_RE_MAX_BODY : Z := 256.
Definition INT_MAX : Z := 2147483647.

Inductive airy_re_ast_t :=
| AIRY_RE_A_EMPTY
| AIRY_RE_A_CHAR (c : Z)
| AIRY_RE_A_ANY
| AIRY_RE_A_CLASS (tbl : list Z)
| AIRY_RE_A_ANCHOR (c : Z)
| AIRY_RE_A_ALT (a b : list airy_re_ast_t)
| AIRY_RE_A_REPEAT (a : airy_re_ast_t) (lo hi : Z) (greedy : bool)
| AIRY_RE_A_GROUP (a : list airy_re_ast_t) (gid : Z).

(** [ps_p] is the text from the read position to [end]; [nodes] counts the nodes
    of the ownership list [head]. *)
Record airy_re_parser_t := Parser {
  ps_p : list Z;
  ngroups : Z;
  ps_error : bool;
  nodes : nat;
}.

Definition set_p (l : list Z) (ps : airy_re_parser_t) := Parser l (ngroups ps) (ps_error ps) (nodes ps).
Definition set_error (ps : airy_re_parser_t) := Parser (ps_p ps) (ngroups ps) true (nodes ps).
Definition set_ngroups (n : Z) (ps : airy_re_parser_t) := Parser (ps_p ps) n (ps_error ps) (nodes ps).

(** The characters the parser distinguishes. *)
Abbreviation LPAR := 40 (only parsing).
Abbreviation RPAR := 41 (only parsing).
Abbreviation STAR := 42 (only parsing).
Abbreviation PLUS := 43 (only parsing).
Abbreviation COMMA := 44 (only parsing).
Abbreviation DASH := 45 (only parsing).
Abbreviation DOT := 46 (only parsing).
Abbreviation DIGIT0 := 48 (only parsing).
Abbreviation DIGIT9 := 57 (only parsing).
Abbreviation QUEST := 63 (only parsing).
Abbreviation LBRACKET := 91 (only parsing).
Abbreviation BACKSLASH := 92 (only parsing).
Abbreviation RBRACKET := 93 (only parsing).
Abbreviation CARET := 94 (only parsing).
Abbreviation DOLLAR := 36 (only parsing).
Abbreviation LBRACE := 123 (only parsing).
Abbreviation BAR := 124 (only parsing).
Abbreviation RBRACE := 125 (only parsing).

(** ** The parser *)

Section parser.
Variable malloc_ok : nat -> bool.

Definition airy_re_ast_new : M airy_re_parser_t bool :=
  fun ps =>
    if malloc_ok (nodes ps) then Ret (true, Parser (ps_p ps) (ngroups ps) (ps_error ps) (S (nodes ps)))
    else Ret (false, set_error ps).

Definition airy_re_peek : M airy_re_parser_t Z :=
  ps <- get ;; ret (match ps_p ps with [] => -1 | c :: _ => c end).

Definition airy_re_next : M airy_re_parser_t Z :=
  ps <- get ;;
  match ps_p ps with [] => ret (-1) | c :: l => modify (set_p l) ;; ret c end.

(** [ps->error = 1; return r;] *)
Definition fail {A} (r : A) : M airy_re_parser_t A := modify set_error ;; ret r.

(** [tbl[(unsigned char)ch >> 3] |= 1u << ((unsigned char)ch & 7)] *)
Definition tbl_set (tbl : list Z) (ch : Z) : list Z :=
  let i := Z.to_nat (Z.shiftr (u8 ch) 3) in
  match tbl !! i with
  | Some b => <[i := u8 (Z.lor b (Z.shiftl 1 (Z.land (u8 ch) 7)))]> tbl
  | None => tbl
  end.

(** [for (int k = ch; k <= hi; k++)] *)
Definition tbl_set_range (tbl : list Z) (ch hi : Z) : list Z :=
  fold_left tbl_set (seqZ ch (hi - ch + 1)) tbl.

(** The loop over the members; [None] is the return of -1. *)
Fixpoint class_loop (l : list Z) (tbl : list Z) : option (list Z) * list Z :=
  match l with
  | [] => (None, [])
  | ch :: l1 =>
      if ch =? RBRACKET then (Some tbl, l1)
      else
        match l1 with
        | [] => class_loop l1 (tbl_set tbl ch)
        | d :: l2 =>
            if ch =? BACKSLASH then class_loop l2 (tbl_set tbl d)
            else
              match l2 with
              | [] => class_loop l1 (tbl_set tbl ch)
              | c :: l3 =>
                  if (d =? DASH) && negb (c =? RBRACKET) then
                    let hi := s8 c in
                    if hi <? ch then (None, l3) else class_loop l3 (tbl_set_range tbl ch hi)
                  else class_loop l1 (tbl_set tbl ch)
              end
        end
  end.

Definition airy_re_parse_class_body (neg : bool) : M airy_re_parser_t (option (list Z)) :=
  ps <- get ;;
  let (r, l) := class_loop (ps_p ps) (replicate 32 0) in
  modify (set_p l) ;;
  match r with
  | None => fail None
  | Some tbl => ret (Some (if neg then map (fun b => u8 (Z.lnot b)) tbl else tbl))
  end.

Definition airy_re_char (ch : Z) : M airy_re_parser_t (option airy_re_ast_t) :=
  ok <- airy_re_ast_new ;; ret (if ok then Some (AIRY_RE_A_CHAR ch) else None).

(** [parse_alt] is the recursive call. *)
Definition airy_re_group (parse_alt : M airy_re_parser_t (list airy_re_ast_t))
    : M airy_re_parser_t (option airy_re_ast_t) :=
  ps <- get ;;
  if AIRY_RE_MAX_GROUPS - 1 <=? ngroups ps then fail None
  else
    let gid := ngroups ps + 1 in
    modify (set_ngroups gid) ;;
    inner <- parse_alt ;;
    match inner with
    | [] => ret None
    | _ =>
        ch <- airy_re_peek ;;
        if negb (ch =? RPAR) then fail None
        else
          airy_re_next ;;
          ok <- airy_re_ast_new ;;
          ret (if ok then Some (AIRY_RE_A_GROUP inner gid) else None)
    end.

Definition airy_re_class : M airy_re_parser_t (option airy_re_ast_t) :=
  ch <- airy_re_peek ;;
  (if ch =? CARET then airy_re_next ;; ret tt else ret tt) ;;
  ok <- airy_re_ast_new ;;
  if negb ok then ret None
  else
    tbl <-? airy_re_parse_class_body (ch =? CARET) ;;
    ret (Some (AIRY_RE_A_CLASS tbl)).

Definition airy_re_escape : M airy_re_parser_t (option airy_re_ast_t) :=
  esc <- airy_re_next ;;
  if esc <? 0 then fail None else airy_re_char esc.

Definition airy_re_atom (parse_alt : M airy_re_parser_t (list airy_re_ast_t)) (ch : Z)
    : M airy_re_parser_t (option airy_re_ast_t) :=
  if ch =? LPAR then airy_re_next ;; airy_re_group parse_alt
  else if (ch =? CARET) || (ch =? DOLLAR) then
    airy_re_next ;;
    ok <- airy_re_ast_new ;;
    ret (if ok then Some (AIRY_RE_A_ANCHOR ch) else None)
  else if ch =? DOT then
    airy_re_next ;; ok <- airy_re_ast_new ;; ret (if ok then Some AIRY_RE_A_ANY else None)
  else if ch =? LBRACKET then airy_re_next ;; airy_re_class
  else if ch =? BACKSLASH then airy_re_next ;; airy_re_escape
  else if (ch =? BAR) || (ch =? PLUS) || (ch =? STAR) || (ch =? QUEST) || (ch =? LBRACE) || (ch =? RBRACE)
  then fail None
  else airy_re_next ;; airy_re_char ch.

(** The value is an [int]: its overflow is undefined. *)
Fixpoint digits_loop (l : list Z) (n : Z) (seen : bool) : outcome (Z * list Z) :=
  match l with
  | c :: l' =>
      if (DIGIT0 <=? c) && (c <=? DIGIT9) then
        if INT_MAX <? n * 10 + (c - DIGIT0) then Undef
        else digits_loop l' (n * 10 + (c - DIGIT0)) true
      else Ret (if seen then n else -1, l)
  | [] => Ret (if seen then n else -1, l)
  end.

Definition airy_re_digits : M airy_re_parser_t Z :=
  fun ps =>
    match digits_loop (ps_p ps) 0 false with
    | Ret (n, l) => Ret (n, set_p l ps)
    | Undef => Undef
    | NoFuel => NoFuel
    end.

(** Returns [lo] and [hi], [None] for -1. *)
Definition airy_re_bounds : M airy_re_parser_t (option (Z * Z)) :=
  n <- airy_re_digits ;;
  if n <? 0 then fail None
  else
    ch <- airy_re_peek ;;
    hi <- (if ch =? COMMA then
             airy_re_next ;; m <- airy_re_digits ;; ret (if 0 <=? m then m else -1)
           else ret n) ;;
    ch <- airy_re_peek ;;
    if negb (ch =? RBRACE) then fail None
    else airy_re_next ;; ret (Some (n, hi)).

Definition airy_re_rep_ok (lo hi : Z) : M airy_re_parser_t bool :=
  if (AIRY_RE_MAX_BODY <? lo) || ((0 <=? hi) && (AIRY_RE_MAX_BODY <? hi)) then fail false
  else if (0 <=? hi) && (hi <? lo) then fail false
  else ret true.

Definition airy_re_repeat (atom : airy_re_ast_t) : M airy_re_parser_t (option airy_re_ast_t) :=
  q <- airy_re_peek ;;
  if negb (q =? STAR) && negb (q =? PLUS) && negb (q =? QUEST) && negb (q =? LBRACE) then ret (Some atom)
  else
    airy_re_next ;;
    ok <- airy_re_ast_new ;;
    if negb ok then ret None
    else
      b <-? (if q =? STAR then ret (Some (0, -1))
             else if q =? PLUS then ret (Some (1, -1))
             else if q =? QUEST then ret (Some (0, 1))
             else airy_re_bounds) ;;
      ok <- airy_re_rep_ok b.1 b.2 ;;
      if negb ok then ret None
      else
        ch <- airy_re_peek ;;
        if ch =? QUEST then airy_re_next ;; ret (Some (AIRY_RE_A_REPEAT atom b.1 b.2 false))
        else ret (Some (AIRY_RE_A_REPEAT atom b.1 b.2 true)).

(** [head] is the list read so far. *)
Fixpoint concat_loop (fuel : nat) (parse_alt : M airy_re_parser_t (list airy_re_ast_t))
    (head : list airy_re_ast_t) : M airy_re_parser_t (list airy_re_ast_t) :=
  match fuel with
  | O => nofuel
  | S fuel' =>
      ch <- airy_re_peek ;;
      if (ch <? 0) || (ch =? RPAR) || (ch =? BAR) then ret head
      else
        atom <- airy_re_atom parse_alt ch ;;
        match atom with
        | None => ret []
        | Some atom =>
            atom <- airy_re_repeat atom ;;
            match atom with
            | None => ret []
            | Some atom => concat_loop fuel' parse_alt (head ++ [atom])
            end
        end
  end.

(** Every turn of a loop of the parser reads a character. *)
Definition airy_re_parse_concat (parse_alt : M airy_re_parser_t (list airy_re_ast_t))
    : M airy_re_parser_t (list airy_re_ast_t) :=
  ps <- get ;; concat_loop (S (length (ps_p ps))) parse_alt [].

Fixpoint alt_loop (fuel : nat) (parse_concat : M airy_re_parser_t (list airy_re_ast_t))
    (left : list airy_re_ast_t) : M airy_re_parser_t (list airy_re_ast_t) :=
  match fuel with
  | O => nofuel
  | S fuel' =>
      ch <- airy_re_peek ;;
      if negb (ch =? BAR) then ret left
      else
        airy_re_next ;;
        right <- parse_concat ;;
        match right with
        | [] => ret []
        | _ =>
            ok <- airy_re_ast_new ;;
            if negb ok then ret [] else alt_loop fuel' parse_concat [AIRY_RE_A_ALT left right]
        end
  end.

(** [depth] bounds the nesting of groups. *)
Fixpoint airy_re_parse_alt (depth : nat) : M airy_re_parser_t (list airy_re_ast_t) :=
  match depth with
  | O => nofuel
  | S depth' =>
      left <- airy_re_parse_concat (airy_re_parse_alt depth') ;;
      ps <- get ;;
      match left, ps_error ps with
      | [], true => ret []
      | _, _ => alt_loop (S (length (ps_p ps))) (airy_re_parse_concat (airy_re_parse_alt depth')) left
      end
  end.

(** The parse of a whole pattern, as [airy_re_regcomp] starts it: a pattern has
    no more groups inside each other than characters. *)
Definition parse_pattern (pattern : cstr) : outcome (list airy_re_ast_t * airy_re_parser_t) :=
  airy_re_parse_alt (S (length pattern)) (Parser pattern 0 false 0).

End parser.
