(* ===== verification/RegexCompile.v ===== *)
(** * The compiler of regular expressions: utils/compat/airy_regex_compile.c

    The compiler turns a tree into instructions linked by pointers, each
    fragment compiled with the instruction that continues it.  An instruction's
    address is its rank in the order of allocation; the list of instructions is
    the ownership list [all]. *)
From S2P Require Import Prelude RegexParse.
#[local] Open Scope re_scope.

(** ** Data *)

Inductive airy_re_op :=
| AIRY_RE_I_CHAR | AIRY_RE_I_ANY | AIRY_RE_I_CLASS | AIRY_RE_I_ANCHOR
| AIRY_RE_I_SAVE | AIRY_RE_I_SPLIT | AIRY_RE_I_JMP | AIRY_RE_I_MATCH.

#[export] Instance airy_re_op_eq_dec : EqDecision airy_re_op.
Proof. solve_decision. Defined.

Record airy_re_inst_t := Inst {
  i_op : airy_re_op;
  i_c : Z;
  i_a : option nat;
  i_b : option nat;
}.

(** [calls] counts the calls of the allocator. *)
Record airy_re_comp_t := Comp {
  all : list airy_re_inst_t;
  tables : list Z;
  ntab : nat;
  co_error : bool;
  calls : nat;
}.

Definition set_c (x : Z) (ip : airy_re_inst_t) := Inst (i_op ip) x (i_a ip) (i_b ip).
Definition set_a (x : option nat) (ip : airy_re_inst_t) := Inst (i_op ip) (i_c ip) x (i_b ip).
Definition set_b (x : option nat) (ip : airy_re_inst_t) := Inst (i_op ip) (i_c ip) (i_a ip) x.

Definition set_all (l : list airy_re_inst_t) (co : airy_re_comp_t) :=
  Comp l (tables co) (ntab co) (co_error co) (calls co).
Definition set_co_error (co : airy_re_comp_t) :=
  Comp (all co) (tables co) (ntab co) true (calls co).

(** ** Allocation and access *)

Section compiler.
Variable malloc_ok : nat -> bool.

Definition airy_re_inst_new (o : airy_re_op) : M airy_re_comp_t (option nat) :=
  fun co =>
    if malloc_ok (calls co) then
      Ret (Some (length (all co)),
           Comp (all co ++ [Inst o 0 None None]) (tables co) (ntab co) (co_error co) (S (calls co)))
    else Ret (None, set_co_error co).

Definition load (i : nat) : M airy_re_comp_t airy_re_inst_t :=
  co <- get ;; match all co !! i with Some ip => ret ip | None => undef end.

Definition store (i : nat) (f : airy_re_inst_t -> airy_re_inst_t) : M airy_re_comp_t unit :=
  ip <- load i ;; modify (fun co => set_all (<[i := f ip]> (all co)) co).

(** ** Walks along the chain of [i_a] *)

Fixpoint clone_loop (fuel : nat) (it head tail : option nat) : M airy_re_comp_t (option nat) :=
  match it with
  | None => ret head
  | Some i =>
      match fuel with
      | O => nofuel
      | S fuel' =>
          ip <- load i ;;
          cp <-? airy_re_inst_new (i_op ip) ;;
          store cp (set_c (i_c ip)) ;;
          match tail with
          | Some t => store t (set_a (Some cp)) ;; clone_loop fuel' (i_a ip) head (Some cp)
          | None => clone_loop fuel' (i_a ip) (Some cp) (Some cp)
          end
      end
  end.

Definition airy_re_clone_linear (body : option nat) : M airy_re_comp_t (option nat) :=
  co <- get ;; clone_loop (length (all co)) body None None.

Fixpoint tail_loop (fuel : nat) (t : nat) (next : option nat) : M airy_re_comp_t unit :=
  match fuel with
  | O => nofuel
  | S fuel' =>
      ip <- load t ;;
      match i_a ip with
      | Some t' => tail_loop fuel' t' next
      | None => store t (set_a next)
      end
  end.

Definition airy_re_chain_tail (f : nat) (next : option nat) : M airy_re_comp_t unit :=
  co <- get ;; tail_loop (length (all co)) f next.

(** The check that a fragment has no branch. *)
Fixpoint linear_loop (fuel : nat) (it : option nat) : M airy_re_comp_t bool :=
  match it with
  | None => ret true
  | Some i =>
      match fuel with
      | O => nofuel
      | S fuel' =>
          ip <- load i ;;
          match i_b ip with
          | Some _ => ret false
          | None => linear_loop fuel' (i_a ip)
          end
      end
  end.

(** ** Repetitions *)

(** The loops over copies give the new [seq]; [None] is the return of NULL. *)
Definition branch (sp : nat) (greedy : bool) (cp : nat) (seq : option nat) : M airy_re_comp_t unit :=
  if greedy then store sp (set_a (Some cp)) ;; store sp (set_b seq)
  else store sp (set_a seq) ;; store sp (set_b (Some cp)).

Fixpoint optional_loop (n : nat) (body : nat) (greedy : bool) (seq : option nat)
    : M airy_re_comp_t (option (option nat)) :=
  match n with
  | O => ret (Some seq)
  | S n' =>
      sp <-? airy_re_inst_new AIRY_RE_I_SPLIT ;;
      cp <-? airy_re_clone_linear (Some body) ;;
      branch sp greedy cp seq ;;
      airy_re_chain_tail cp seq ;;
      optional_loop n' body greedy (Some sp)
  end.

Fixpoint mandatory_loop (n : nat) (body : nat) (seq : option nat)
    : M airy_re_comp_t (option (option nat)) :=
  match n with
  | O => ret (Some seq)
  | S n' =>
      cp <-? airy_re_clone_linear (Some body) ;;
      airy_re_chain_tail cp seq ;;
      mandatory_loop n' body (Some cp)
  end.

Definition unbounded_tail (body : nat) (greedy : bool) (seq : option nat)
    : M airy_re_comp_t (option (option nat)) :=
  loop <-? airy_re_inst_new AIRY_RE_I_SPLIT ;;
  cp <-? airy_re_clone_linear (Some body) ;;
  branch loop greedy cp seq ;;
  airy_re_chain_tail cp (Some loop) ;;
  ret (Some (Some loop)).

(** [compile_a] compiles the repeated node with no continuation. *)
Definition airy_re_compile_repeat (compile_a : M airy_re_comp_t (option nat)) (lo hi : Z)
    (greedy : bool) (after : option nat) : M airy_re_comp_t (option nat) :=
  body <-? compile_a ;;
  co <- get ;;
  lin <- linear_loop (length (all co)) (Some body) ;;
  if negb lin then modify set_co_error ;; ret None
  else
    seq <-? (if hi <? 0 then unbounded_tail body greedy after
             else optional_loop (Z.to_nat (hi - lo)) body greedy after) ;;
    seq <-? mandatory_loop (Z.to_nat lo) body seq ;;
    ret seq.

(** ** Nodes and sequences *)

Definition compile_class (tbl : list Z) (after : option nat) : M airy_re_comp_t (option nat) :=
  co <- get ;;
  if negb (malloc_ok (calls co)) then modify set_co_error ;; ret None
  else
    modify (fun co => Comp (all co) (tables co ++ tbl) (S (ntab co)) (co_error co) (S (calls co))) ;;
    ip <-? airy_re_inst_new AIRY_RE_I_CLASS ;;
    store ip (set_c (Z.of_nat (ntab co))) ;;
    store ip (set_a after) ;;
    ret (Some ip).

Definition compile_leaf (o : airy_re_op) (x : Z) (after : option nat) : M airy_re_comp_t (option nat) :=
  ip <-? airy_re_inst_new o ;;
  store ip (set_c x) ;;
  store ip (set_a after) ;;
  ret (Some ip).

(** The first 256 nodes of a list, compiled from the last one back; the loop
    stops at the first node that does not compile. *)
Definition compile_seq_with (compile_one : airy_re_ast_t -> option nat -> M airy_re_comp_t (option nat)) :=
  fix seq (count : nat) (list : list airy_re_ast_t) (after : option nat) {struct list}
      : M airy_re_comp_t (option nat) :=
    match list, count with
    | [], _ => ret after
    | _, O => ret after
    | n :: list', S count' =>
        match list', count' with
        | [], _ => compile_one n after
        | _, O => compile_one n after
        | _, _ => cont <-? seq count' list' after ;; compile_one n (Some cont)
        end
    end.

Definition MAX_NODES : nat := 256.

Fixpoint airy_re_compile_one (n : airy_re_ast_t) (after : option nat) {struct n}
    : M airy_re_comp_t (option nat) :=
  match n with
  | AIRY_RE_A_EMPTY => ret after
  | AIRY_RE_A_CHAR x => compile_leaf AIRY_RE_I_CHAR x after
  | AIRY_RE_A_ANCHOR x => compile_leaf AIRY_RE_I_ANCHOR x after
  | AIRY_RE_A_ANY => compile_leaf AIRY_RE_I_ANY 0 after
  | AIRY_RE_A_CLASS tbl => compile_class tbl after
  | AIRY_RE_A_GROUP inner gid =>
      save0 <-? airy_re_inst_new AIRY_RE_I_SAVE ;;
      store save0 (set_c (gid * 2)) ;;
      save1 <-? airy_re_inst_new AIRY_RE_I_SAVE ;;
      store save1 (set_c (gid * 2 + 1)) ;;
      store save1 (set_a after) ;;
      body <-? compile_seq_with airy_re_compile_one MAX_NODES inner (Some save1) ;;
      store save0 (set_a (Some body)) ;;
      ret (Some save0)
  | AIRY_RE_A_ALT x y =>
      b1 <-? compile_seq_with airy_re_compile_one MAX_NODES x after ;;
      b2 <-? compile_seq_with airy_re_compile_one MAX_NODES y after ;;
      sp <-? airy_re_inst_new AIRY_RE_I_SPLIT ;;
      store sp (set_a (Some b1)) ;;
      store sp (set_b (Some b2)) ;;
      ret (Some sp)
  | AIRY_RE_A_REPEAT x lo hi greedy =>
      airy_re_compile_repeat (airy_re_compile_one x None) lo hi greedy after
  end.

Definition airy_re_compile_seq (list : list airy_re_ast_t) (after : option nat)
    : M airy_re_comp_t (option nat) :=
  compile_seq_with airy_re_compile_one MAX_NODES list after.

End compiler.

(** ** Programs *)

(** The program of a list of nodes: [code l e k] says that the instructions
    from [e] run [l] and continue at [k]. *)
Section program.
Variables (bot : nat) (st : list airy_re_inst_t) (tb : list Z).

Definition has_table (idx : Z) (tbl : list Z) : Prop :=
  0 <= idx /\ forall j x, tbl !! j = Some x -> tb !! (Z.to_nat idx * 32 + j)%nat = Some x.

Definition pred_hi (hi : Z) : Z := if hi <? 0 then hi else hi - 1.
Definition split_inst (greedy : bool) (x : Z) (e m : option nat) : airy_re_inst_t :=
  if greedy then Inst AIRY_RE_I_SPLIT x e m else Inst AIRY_RE_I_SPLIT x m e.

(** The instruction at an address from [bot] on. *)
Definition fetch (i : nat) (ip : airy_re_inst_t) : Prop := (bot <= i)%nat /\ st !! i = Some ip.

Inductive code : list airy_re_ast_t -> option nat -> option nat -> Prop :=
| code_nil k : code [] k k
| code_empty l e k : code l e k -> code (AIRY_RE_A_EMPTY :: l) e k
| code_char x l i m k :
    fetch i (Inst AIRY_RE_I_CHAR x m None) -> code l m k ->
    code (AIRY_RE_A_CHAR x :: l) (Some i) k
| code_any x l i m k :
    fetch i (Inst AIRY_RE_I_ANY x m None) -> code l m k ->
    code (AIRY_RE_A_ANY :: l) (Some i) k
| code_class tbl x l i m k :
    fetch i (Inst AIRY_RE_I_CLASS x m None) -> has_table x tbl -> code l m k ->
    code (AIRY_RE_A_CLASS tbl :: l) (Some i) k
| code_anchor x l i m k :
    fetch i (Inst AIRY_RE_I_ANCHOR x m None) -> code l m k ->
    code (AIRY_RE_A_ANCHOR x :: l) (Some i) k
| code_group inner gid l i e j m k :
    fetch i (Inst AIRY_RE_I_SAVE (gid * 2) e None) -> code inner e (Some j) ->
    fetch j (Inst AIRY_RE_I_SAVE (gid * 2 + 1) m None) -> code l m k ->
    code (AIRY_RE_A_GROUP inner gid :: l) (Some i) k
| code_alt x y l i z e1 e2 m k :
    fetch i (Inst AIRY_RE_I_SPLIT z (Some e1) (Some e2)) ->
    code x (Some e1) m -> code y (Some e2) m -> code l m k ->
    code (AIRY_RE_A_ALT x y :: l) (Some i) k
| code_done x g l e k : code l e k -> code (AIRY_RE_A_REPEAT x 0 0 g :: l) e k
| code_mand x lo hi g l e m k :
    0 <= lo -> code [x] e m -> code (AIRY_RE_A_REPEAT x lo (pred_hi hi) g :: l) m k ->
    code (AIRY_RE_A_REPEAT x (lo + 1) hi g :: l) e k
| code_opt x hi g l i z e m k :
    0 < hi -> fetch i (split_inst g z (Some e) m) -> code [x] (Some e) m ->
    code (AIRY_RE_A_REPEAT x 0 (hi - 1) g :: l) m k ->
    code (AIRY_RE_A_REPEAT x 0 hi g :: l) (Some i) k
| code_star x hi g l i z e m k :
    hi < 0 -> fetch i (split_inst g z (Some e) m) -> code [x] (Some e) (Some i) -> code l m k ->
    code (AIRY_RE_A_REPEAT x 0 hi g :: l) (Some i) k.

(** A straight piece of program: operations linked by [i_a], with no branch. *)
Inductive path : option nat -> list (airy_re_op * Z) -> option nat -> Prop :=
| path_nil k : path k [] k
| path_cons i o x m ops k :
    fetch i (Inst o x m None) -> path m ops k -> path (Some i) ((o, x) :: ops) k.

(** The instructions met along [i_a] up to the first one that stops. *)
Inductive trail (stop : airy_re_inst_t -> bool) : option nat -> list nat -> Prop :=
| trail_end : trail stop None []
| trail_stop i ip : st !! i = Some ip -> stop ip = true -> trail stop (Some i) [i]
| trail_step i ip vs :
    st !! i = Some ip -> stop ip = false -> trail stop (i_a ip) vs -> trail stop (Some i) (i :: vs).

Lemma trail_inj stop e vs vs' : trail stop e vs -> trail stop e vs' -> vs = vs'.
Proof.
  intros H. revert vs'. induction H as [|i ip Hi Hs|i ip vs Hi Hs Hv IH]; intros vs' H'; inversion H'; subst;
    try done; simplify_eq; try congruence.
  f_equal. by apply IH.
Qed.

Lemma trail_suffix stop e vs i :
  trail stop e vs -> i ∈ vs -> exists vs', trail stop (Some i) vs' /\ (length vs' <= length vs)%nat.
Proof.
  induction 1 as [|j ip Hj Hs|j ip vs Hj Hs Hv IH]; intros Hin.
  - by apply not_elem_of_nil in Hin.
  - apply list_elem_of_singleton in Hin as ->. exists [j]. split; [by eapply trail_stop|done].
  - apply elem_of_cons in Hin as [->|Hin].
    + exists (j :: vs). split; [by eapply trail_step|done].
    + destruct (IH Hin) as (vs' & ? & ?). exists vs'. split; [done|]. simpl. lia.
Qed.

(** A walk that ends meets an instruction only once, so it is no longer than
    the program. *)
Lemma trail_length stop e vs : trail stop e vs -> (length vs <= length st)%nat.
Proof.
  intros Ht. assert (NoDup vs /\ forall i, i ∈ vs -> (i < length st)%nat) as [Hnd Hlt].
  { induction Ht as [|i ip Hi Hs|i ip vs Hi Hs Hv [Hnd IH]].
    - split; [constructor|]. intros i []%not_elem_of_nil.
    - split; [apply NoDup_singleton|]. intros j ->%list_elem_of_singleton. by eapply lookup_lt_Some.
    - split.
      + apply NoDup_cons. split; [|done]. intros Hin.
        destruct (trail_suffix _ _ _ _ Hv Hin) as (vs' & Hv' & Hle).
        pose proof (trail_inj _ _ _ _ Hv' (trail_step _ _ _ _ Hi Hs Hv)) as ->. simpl in Hle. lia.
      + intros j [->|Hj]%elem_of_cons; [by eapply lookup_lt_Some|auto]. }
  rewrite <- (length_seq (length st) 0). apply submseteq_length, NoDup_submseteq; [done|].
  intros i Hi. apply elem_of_seq. specialize (Hlt i Hi). lia.
Qed.

Lemma path_app e ops1 m ops2 k : path e ops1 m -> path m ops2 k -> path e (ops1 ++ ops2) k.
Proof. induction 1; [done|]. intros. simpl. econstructor; eauto. Qed.

Lemma path_app_inv e ops1 ops2 k : path e (ops1 ++ ops2) k -> exists m, path e ops1 m /\ path m ops2 k.
Proof.
  revert e. induction ops1 as [|[o x] ops1 IH]; intros e H.
  - exists e. split; [constructor|done].
  - inversion H as [|? ? ? m ? ? Hi Hp]; subst. destruct (IH _ Hp) as (m' & ? & ?). exists m'. split; [|done]. by econstructor.
Qed.

Definition branches (ip : airy_re_inst_t) : bool := match i_b ip with Some _ => true | None => false end.

Lemma path_trail e ops k vs : path e ops k -> trail branches k vs ->
  exists us, trail branches e (us ++ vs) /\ length us = length ops.
Proof.
  induction 1 as [k|i o x m ops k Hi Hp IH]; intros Hv; [by exists []|].
  destruct (IH Hv) as (us & Hu & Hl). exists (i :: us). split; [|simpl; lia].
  destruct Hi as [_ Hi]. by eapply trail_step.
Qed.

Lemma code_some l e k : code l e k -> k <> None -> e <> None.
Proof. induction 1; auto. Qed.

End program.

Lemma has_table_ext tb tb' idx tbl : tb `prefix_of` tb' -> has_table tb idx tbl -> has_table tb' idx tbl.
Proof. intros Hp [? H]. split; [done|]. intros j x Hx. eapply prefix_lookup_Some; eauto. Qed.

(** Instructions from [bot] on that stay where they are. *)
Definition agree (bot bot' : nat) (st st' : list airy_re_inst_t) : Prop :=
  (bot' <= bot)%nat /\ forall i ip, (bot <= i)%nat -> st !! i = Some ip -> st' !! i = Some ip.

Lemma agree_prefix bot st st' : st `prefix_of` st' -> agree bot bot st st'.
Proof. intros Hp. split; [done|]. intros i ip _ Hi. by eapply prefix_lookup_Some. Qed.

Lemma fetch_agree bot bot' st st' i ip : agree bot bot' st st' -> fetch bot st i ip -> fetch bot' st' i ip.
Proof. intros [Hb Ha] [Hi Hl]. split; [lia|auto]. Qed.

Lemma code_agree bot bot' st st' tb tb' l e k :
  agree bot bot' st st' -> tb `prefix_of` tb' -> code bot st tb l e k -> code bot' st' tb' l e k.
Proof. intros Ha Ht. induction 1; eauto using code, has_table_ext, fetch_agree. Qed.

Lemma code_ext bot st st' tb tb' l e k :
  st `prefix_of` st' -> tb `prefix_of` tb' -> code bot st tb l e k -> code bot st' tb' l e k.
Proof. eauto using code_agree, agree_prefix. Qed.

Lemma path_agree bot bot' st st' e ops k :
  agree bot bot' st st' -> path bot st e ops k -> path bot' st' e ops k.
Proof. intros Ha. induction 1; econstructor; eauto using fetch_agree. Qed.

Lemma path_ext bot st st' e ops k : st `prefix_of` st' -> path bot st e ops k -> path bot st' e ops k.
Proof. eauto using path_agree, agree_prefix. Qed.

Lemma code_app bot st tb l1 l2 e m k :
  code bot st tb l1 e m -> code bot st tb l2 m k -> code bot st tb (l1 ++ l2) e k.
Proof. induction 1; intros; simpl; eauto using code. Qed.

(** ** Straight expressions *)

(** The expressions whose program has no branch. *)
Fixpoint linear (n : airy_re_ast_t) : bool :=
  match n with
  | AIRY_RE_A_EMPTY | AIRY_RE_A_CHAR _ | AIRY_RE_A_ANY | AIRY_RE_A_CLASS _ | AIRY_RE_A_ANCHOR _ => true
  | AIRY_RE_A_ALT _ _ => false
  | AIRY_RE_A_REPEAT x lo hi _ => (lo =? hi) && ((hi =? 0) || linear x)
  | AIRY_RE_A_GROUP l _ => forallb linear l
  end.

(** The operations [ops], laid out anywhere, run [l]. *)
Definition realizes (tb : list Z) (ops : list (airy_re_op * Z)) (l : list airy_re_ast_t) : Prop :=
  forall bot st tb' e k, tb `prefix_of` tb' -> path bot st e ops k -> code bot st tb' l e k.

Lemma realizes_app tb ops1 ops2 l1 l2 :
  realizes tb ops1 l1 -> realizes tb ops2 l2 -> realizes tb (ops1 ++ ops2) (l1 ++ l2).
Proof.
  intros H1 H2 bot st tb' e k Ht (m & Hp1 & Hp2)%path_app_inv. eapply code_app; [by apply H1|by apply H2].
Qed.

Lemma realizes_cons tb o x ops n l :
  (forall bot st tb' i m k, tb `prefix_of` tb' -> fetch bot st i (Inst o x m None) ->
     code bot st tb' l m k -> code bot st tb' (n :: l) (Some i) k) ->
  realizes tb ops l -> realizes tb ((o, x) :: ops) (n :: l).
Proof.
  intros Hn Hl bot st tb' e k Ht Hp. inversion Hp; subst. eapply Hn; eauto.
Qed.

(** One more operation in front of a straight program. *)
Ltac straight_step IH Hl :=
  let ops := fresh in let Hp := fresh in let Hr := fresh in
  destruct (IH Hl) as (ops & Hp & Hr); eexists (_ :: ops); split; [by econstructor|];
  apply realizes_cons; [|done]; intros; econstructor; eauto using has_table_ext.

Lemma linear_path bot st tb l e k :
  code bot st tb l e k -> forallb linear l = true -> exists ops, path bot st e ops k /\ realizes tb ops l.
Proof.
  induction 1 as [k|l e k Hc IH|x l i m k Hi Hc IH|x l i m k Hi Hc IH|tbl x l i m k Hi Ht Hc IH
    |x l i m k Hi Hc IH|inner gid l i e j m k Hi H1 IH1 Hj H2 IH2|x y l i z e1 e2 m k Hi H1 IH1 H2 IH2 H3 IH3
    |x g l e k Hc IH|x lo hi g l e m k Hlo H1 IH1 H2 IH2|x hi g l i z e m k Hhi Hi H1 IH1 H2 IH2
    |x hi g l i z e m k Hhi Hi H1 IH1 H2 IH2]; cbn [forallb linear]; intros Hl.
  - exists []. split; [constructor|]. intros bot' st' tb' e k' _ Hp. inversion Hp. constructor.
  - destruct (IH Hl) as (ops & Hp & Hr). exists ops. split; [done|].
    intros bot' st' tb' e' k' Ht Hp'. constructor. by apply Hr.
  - straight_step IH Hl.
  - straight_step IH Hl.
  - straight_step IH Hl.
  - straight_step IH Hl.
  - apply andb_prop in Hl as [Hl1 Hl2]. destruct (IH1 Hl1) as (ops1 & Hp1 & Hr1).
    destruct (IH2 Hl2) as (ops2 & Hp2 & Hr2).
    exists ((AIRY_RE_I_SAVE, gid * 2) :: ops1 ++ (AIRY_RE_I_SAVE, gid * 2 + 1) :: ops2). split.
    + econstructor; [done|]. eapply path_app; [done|]. by econstructor.
    + intros bot' st' tb' e' k' Ht Hp. inversion Hp as [|? ? ? m' ? ? Hi' Hp']; subst.
      apply path_app_inv in Hp' as (j' & Ha & Hb). inversion Hb; subst.
      eapply code_group; eauto.
  - done.
  - destruct (IH Hl) as (ops & Hp & Hr). exists ops. split; [done|].
    intros bot' st' tb' e' k' Ht Hp'. constructor. by apply Hr.
  - apply andb_prop in Hl as [[Hlh Hx]%andb_prop Hl]. apply Z.eqb_eq in Hlh.
    rewrite (proj2 (Z.eqb_neq hi 0)) in Hx by lia. simpl in Hx.
    destruct IH1 as (ops1 & Hp1 & Hr1); [by cbn; rewrite Hx|].
    destruct IH2 as (ops2 & Hp2 & Hr2).
    { cbn [forallb linear]. rewrite Hx, Hl, orb_true_r, !andb_true_r. unfold pred_hi. bool_prop; lia. }
    exists (ops1 ++ ops2). split; [by eapply path_app|].
    intros bot' st' tb' e' k' Ht (m' & Ha & Hb)%path_app_inv.
    eapply code_mand; [done|by apply Hr1|by apply Hr2].
  - apply andb_prop in Hl as [[Hlh Hx]%andb_prop Hl]. apply Z.eqb_eq in Hlh. lia.
  - apply andb_prop in Hl as [[Hlh Hx]%andb_prop Hl]. apply Z.eqb_eq in Hlh. lia.
Qed.

(** A program that is not straight has a branch within reach of the walk, when
    its continuation is not the end. *)
Definition hits_branch (st : list airy_re_inst_t) (e : option nat) : Prop :=
  exists vs i ip, trail st branches e (vs ++ [i]) /\ st !! i = Some ip /\ branches ip = true.

Lemma hits_branch_step bot st i o x m :
  fetch bot st i (Inst o x m None) -> hits_branch st m -> hits_branch st (Some i).
Proof.
  intros [_ Hi] (vs & j & ip & Ht & Hj & Hb). exists (i :: vs), j, ip. split; [|done].
  simpl. by eapply trail_step.
Qed.

Lemma hits_branch_here bot st i ip : fetch bot st i ip -> branches ip = true -> hits_branch st (Some i).
Proof. intros [_ Hi] Hb. exists [], i, ip. split; [by eapply trail_stop|done]. Qed.

Lemma hits_branch_path bot st e ops m : path bot st e ops m -> hits_branch st m -> hits_branch st e.
Proof. induction 1; eauto using hits_branch_step. Qed.

Lemma nonlinear_hits bot st tb l e k :
  code bot st tb l e k -> k <> None -> forallb linear l = false -> hits_branch st e.
Proof.
  induction 1 as [k|l e k Hc IH|x l i m k Hi Hc IH|x l i m k Hi Hc IH|tbl x l i m k Hi Ht Hc IH
    |x l i m k Hi Hc IH|inner gid l i e j m k Hi H1 IH1 Hj H2 IH2|x y l i z e1 e2 m k Hi H1 IH1 H2 IH2 H3 IH3
    |x g l e k Hc IH|x lo hi g l e m k Hlo H1 IH1 H2 IH2|x hi g l i z e m k Hhi Hi H1 IH1 H2 IH2
    |x hi g l i z e m k Hhi Hi H1 IH1 H2 IH2]; cbn [forallb linear]; intros Hk Hl; eauto using hits_branch_step.
  - done.
  - eapply hits_branch_step; [done|].
    destruct (forallb linear inner) eqn:Hin; [|by apply IH1].
    destruct (linear_path _ _ _ _ _ _ H1 Hin) as (ops & Hp & _).
    eapply hits_branch_path; [done|]. eapply hits_branch_step; eauto.
  - by eapply hits_branch_here.
  - pose proof (code_some _ _ _ _ _ _ H2 Hk) as Hm.
    destruct (linear x) eqn:Hx; [|apply IH1; [done|]; by cbn; rewrite Hx].
    destruct (linear_path _ _ _ _ _ _ H1) as (ops & Hp & _); [by cbn; rewrite Hx|].
    eapply hits_branch_path; [done|]. apply IH2; [done|]. cbn [forallb linear]. rewrite Hx, orb_true_r in *.
    destruct (forallb linear l); [|by rewrite !andb_false_r]. rewrite !andb_true_r in *. unfold pred_hi.
    bool_prop; lia.
  - pose proof (code_some _ _ _ _ _ _ H2 Hk) as Hm. eapply hits_branch_here; [done|].
    destruct g, m; done.
  - pose proof (code_some _ _ _ _ _ _ H2 Hk) as Hm. eapply hits_branch_here; [done|].
    destruct g, m; done.
Qed.

(** ** The walks *)

Lemma linear_loop_path bot fuel co e ops :
  path bot (all co) e ops None -> (length ops <= fuel)%nat -> linear_loop fuel e co = Ret (true, co).
Proof.
  revert fuel e. induction ops as [|[o x] ops IH]; intros fuel e Hp Hf.
  - inversion Hp; subst. by destruct fuel.
  - inversion Hp as [|i ? ? m ? ? [_ Hi] Hp']; subst. destruct fuel as [|fuel]; simpl in Hf; [lia|].
    simpl. unfold load, bind, get. rewrite Hi. simpl. apply IH; [done|lia].
Qed.

Lemma linear_loop_branch fuel co e vs i ip :
  trail (all co) branches e (vs ++ [i]) -> all co !! i = Some ip -> branches ip = true ->
  (length vs < fuel)%nat -> linear_loop fuel e co = Ret (false, co).
Proof.
  intros Ht Hi Hb. revert fuel e Ht. induction vs as [|j vs IH]; intros fuel e Ht Hf;
    (destruct fuel as [|fuel]; [simpl in Hf; lia|]); inversion Ht as [|? jp Hj Hs Heq|? jp us Hj Hs Hv]; subst.
  - simpl. unfold load, bind, get. rewrite Hj. unfold branches in Hs. simpl. by destruct (i_b jp).
  - rewrite Hi in Hj. injection Hj as ->. congruence.
  - by destruct vs.
  - simpl. unfold load, bind, get. rewrite Hj. unfold branches in Hs. simpl. destruct (i_b jp); [done|]. apply IH; [done|simpl in Hf; lia].
Qed.

(** The check of the code tells straight programs from others. *)
Lemma linear_check bot co l e :
  code bot (all co) (tables co) l (Some e) None ->
  (forallb linear l = true -> linear_loop (length (all co)) (Some e) co = Ret (true, co)) /\
  (hits_branch (all co) (Some e) -> linear_loop (length (all co)) (Some e) co = Ret (false, co)).
Proof.
  intros Hc. split.
  - intros Hl. destruct (linear_path _ _ _ _ _ _ Hc Hl) as (ops & Hp & _).
    eapply linear_loop_path; [done|].
    destruct (path_trail _ _ _ _ _ _ Hp (trail_end _ _)) as (us & Hu & <-).
    rewrite app_nil_r in Hu. by eapply trail_length.
  - intros (vs & i & ip & Ht & Hi & Hb). eapply linear_loop_branch; [done..|].
    pose proof (trail_length _ _ _ _ Ht) as Hlen. rewrite length_app in Hlen. simpl in Hlen. lia.
Qed.

(** A chain of fresh instructions from address [n] on, continued by [k]. *)
Fixpoint chain_from (n : nat) (ops : list (airy_re_op * Z)) (k : option nat) : list airy_re_inst_t :=
  match ops with
  | [] => []
  | (o, x) :: ops' =>
      Inst o x (match ops' with [] => k | _ => Some (S n) end) None :: chain_from (S n) ops' k
  end.

Lemma chain_length n ops k : length (chain_from n ops k) = length ops.
Proof. revert n. induction ops as [|[o x] ops IH]; intros n; simpl; [done|]. by rewrite IH. Qed.

Lemma chain_snoc n ops o x k :
  chain_from n (ops ++ [(o, x)]) k = chain_from n ops (Some (n + length ops)%nat) ++ [Inst o x k None].
Proof.
  revert n. induction ops as [|[o' x'] ops IH]; intros n; simpl; [done|]. rewrite IH.
  replace (S n + length ops)%nat with (n + S (length ops))%nat by lia.
  destruct ops; simpl; [|done]. do 3 f_equal. lia.
Qed.

Lemma chain_path bot base more ops k :
  ops <> [] -> (bot <= length base)%nat ->
  path bot (base ++ chain_from (length base) ops k ++ more) (Some (length base)) ops k.
Proof.
  revert base. induction ops as [|[o x] ops IH]; intros base Hne Hb; [done|].
  econstructor.
  - split; [done|]. rewrite lookup_app_r, Nat.sub_diag by done. simpl. reflexivity.
  - destruct ops as [|y ops]; [constructor|].
    specialize (IH (base ++ [Inst o x (Some (S (length base))) None])).
    rewrite length_app, Nat.add_1_r, <- app_assoc in IH. apply IH; [done|lia].
Qed.

Lemma tail_loop_chain base ops next fuel co :
  ops <> [] -> all co = base ++ chain_from (length base) ops None -> (length ops <= fuel)%nat ->
  tail_loop fuel (length base) next co =
    Ret (tt, set_all (base ++ chain_from (length base) ops next) co).
Proof.
  revert base fuel. induction ops as [|[o x] ops IH]; intros base fuel Hne Hall Hf; [done|].
  destruct fuel as [|fuel]; simpl in Hf; [lia|]. simpl. unfold load, bind, get.
  assert (all co !! length base =
    Some (Inst o x (match ops with [] => None | _ => Some (S (length base)) end) None)) as Hl.
  { rewrite Hall, lookup_app_r, Nat.sub_diag by done. done. }
  rewrite Hl. simpl. destruct ops as [|y ops].
  - unfold store, load, bind, get. rewrite Hl. simpl. unfold modify, set_a. simpl.
    rewrite Hall, insert_app_r_alt, Nat.sub_diag by done. done.
  - specialize (IH (base ++ [Inst o x (Some (S (length base))) None]) fuel).
    rewrite length_app, Nat.add_1_r, <- !app_assoc in IH. apply IH; [done|done|simpl in *; lia].
Qed.

(** ** The trees the parser makes *)

Lemma ast_ind' (P : airy_re_ast_t -> Prop) :
  P AIRY_RE_A_EMPTY -> (forall x, P (AIRY_RE_A_CHAR x)) -> P AIRY_RE_A_ANY ->
  (forall tbl, P (AIRY_RE_A_CLASS tbl)) -> (forall x, P (AIRY_RE_A_ANCHOR x)) ->
  (forall x y, Forall P x -> Forall P y -> P (AIRY_RE_A_ALT x y)) ->
  (forall x lo hi g, P x -> P (AIRY_RE_A_REPEAT x lo hi g)) ->
  (forall l gid, Forall P l -> P (AIRY_RE_A_GROUP l gid)) ->
  forall n, P n.
Proof.
  intros He Hc Ha Hcl Han Halt Hrep Hg. fix IH 1. intros [].
  - exact He.
  - apply Hc.
  - exact Ha.
  - apply Hcl.
  - apply Han.
  - apply Halt; [induction a as [|n l IHl]|induction b as [|n l IHl]]; constructor; auto.
  - apply Hrep, IH.
  - apply Hg. induction a as [|n l IHl]; constructor; auto.
Qed.

(** What may be repeated. *)
Definition atom (n : airy_re_ast_t) : bool :=
  match n with
  | AIRY_RE_A_CHAR _ | AIRY_RE_A_ANY | AIRY_RE_A_CLASS _ | AIRY_RE_A_ANCHOR _ | AIRY_RE_A_GROUP _ _ => true
  | _ => false
  end.

(** The shape of the parser's trees, with lists of at most [MAX_NODES] nodes. *)
Fixpoint well_formed (n : airy_re_ast_t) : bool :=
  match n with
  | AIRY_RE_A_EMPTY | AIRY_RE_A_CHAR _ | AIRY_RE_A_ANY | AIRY_RE_A_ANCHOR _ => true
  | AIRY_RE_A_CLASS tbl => (length tbl =? 32)%nat
  | AIRY_RE_A_ALT x y =>
      (length x <=? MAX_NODES)%nat && forallb well_formed x && (length y <=? MAX_NODES)%nat && forallb well_formed y
  | AIRY_RE_A_REPEAT x lo hi _ => atom x && well_formed x && (0 <=? lo) && ((hi <? 0) || (lo <=? hi))
  | AIRY_RE_A_GROUP l gid =>
      (length l <=? MAX_NODES)%nat && forallb well_formed l && (1 <=? gid) && (gid <? AIRY_RE_MAX_GROUPS)
  end.

Definition well_formed_list (l : list airy_re_ast_t) : bool :=
  (length l <=? MAX_NODES)%nat && forallb well_formed l.

(** The compiler refuses to repeat what has a branch. *)
Fixpoint compilable (n : airy_re_ast_t) : bool :=
  match n with
  | AIRY_RE_A_ALT x y => forallb compilable x && forallb compilable y
  | AIRY_RE_A_REPEAT x _ _ _ => linear x && compilable x
  | AIRY_RE_A_GROUP l _ => forallb compilable l
  | _ => true
  end.

(** Whether the program has an instruction of its own, so that its entry is not
    NULL even at the end of the expression. *)
Definition solid_with (solid : airy_re_ast_t -> bool) : list airy_re_ast_t -> bool :=
  fix go l := match l with [] => false | n :: l' => match l' with [] => solid n | _ => go l' end end.

Fixpoint solid (n : airy_re_ast_t) : bool :=
  match n with
  | AIRY_RE_A_EMPTY => false
  | AIRY_RE_A_REPEAT _ lo hi _ => negb ((lo =? 0) && (hi =? 0))
  | AIRY_RE_A_ALT x y => solid_with solid x && solid_with solid y
  | _ => true
  end.

Abbreviation solid_list := (solid_with solid).

(** ** Copies *)

Section compiler_spec.
Variable malloc_ok : nat -> bool.

Definition out_of_memory : Prop := exists n, malloc_ok n = false.

(** The compiler only adds instructions and tables. *)
Record ext (co co' : airy_re_comp_t) : Prop := {
  ext_all : all co `prefix_of` all co';
  ext_tables : tables co `prefix_of` tables co';
}.

Lemma ext_refl co : ext co co.
Proof. by split. Qed.

Lemma ext_trans co1 co2 co3 : ext co1 co2 -> ext co2 co3 -> ext co1 co3.
Proof. intros [] []. split; by etransitivity. Qed.

Definition grow (l : list airy_re_inst_t) (co : airy_re_comp_t) : airy_re_comp_t :=
  Comp (all co ++ l) (tables co) (ntab co) (co_error co) (calls co + length l).

Lemma grow_ext l co : ext co (grow l co).
Proof. split; simpl; [by apply prefix_app_r|done]. Qed.

Lemma inst_new_spec o co :
  airy_re_inst_new malloc_ok o co = Ret (Some (length (all co)), grow [Inst o 0 None None] co) \/
  (airy_re_inst_new malloc_ok o co = Ret (None, set_co_error co) /\ out_of_memory).
Proof.
  unfold airy_re_inst_new. destruct (malloc_ok (calls co)) eqn:Hm; [left|right].
  - unfold grow. simpl. by rewrite Nat.add_1_r.
  - split; [done|by exists (calls co)].
Qed.

Lemma store_spec i f ip co :
  all co !! i = Some ip -> store i f co = Ret (tt, set_all (<[i := f ip]> (all co)) co).
Proof. intros Hi. unfold store, load, bind, get. by rewrite Hi. Qed.

(** One turn of the copying loop: the copy of one instruction is linked behind
    the last one. *)
Lemma link_copy {A} (D : list airy_re_inst_t) o x o1 x1 co (k : M airy_re_comp_t A) :
  all co = D ++ [Inst o x None None; Inst o1 0 None None] ->
  (store (S (length D)) (set_c x1) ;; store (length D) (set_a (Some (S (length D)))) ;; k) co =
  k (set_all (D ++ [Inst o x (Some (S (length D))) None; Inst o1 x1 None None]) co).
Proof.
  intros Hall. unfold bind at 1. rewrite (store_spec _ _ (Inst o1 0 None None)).
  2: { rewrite Hall, lookup_app_r by lia. by replace (S (length D) - length D)%nat with 1%nat by lia. }
  rewrite Hall, insert_app_r_alt by lia. replace (S (length D) - length D)%nat with 1%nat by lia. simpl.
  unfold bind at 1. rewrite (store_spec _ _ (Inst o x None None)).
  2: { simpl. by rewrite lookup_app_r, Nat.sub_diag by lia. }
  simpl. by rewrite insert_app_r_alt, Nat.sub_diag by lia.
Qed.

(** What copying [ops] behind [base] gives. *)
Definition copied (base : list airy_re_inst_t) (ops : list (airy_re_op * Z)) (co : airy_re_comp_t)
    (r : outcome (option nat * airy_re_comp_t)) : Prop :=
  (exists n, r = Ret (Some (length base),
     Comp (base ++ chain_from (length base) ops None) (tables co) (ntab co) (co_error co) n)) \/
  exists co', r = Ret (None, co') /\ out_of_memory /\ base `prefix_of` all co' /\ tables co' = tables co.

(** [base] is what is there before the copy, [done] what is copied so far. *)
Lemma clone_loop_spec bot fuel base done o x ops it co :
  path bot base it ops None -> (length ops <= fuel)%nat ->
  all co = base ++ chain_from (length base) (done ++ [(o, x)]) None ->
  copied base (done ++ (o, x) :: ops) co
    (clone_loop malloc_ok fuel it (Some (length base)) (Some (length base + length done)%nat) co).
Proof.
  revert fuel done o x it co. induction ops as [|[o1 x1] ops IH]; intros fuel done o x it co Hp Hf Hall.
  - inversion Hp; subst. left. destruct co as [al tb nt er ca]; simpl in *. subst al.
    exists ca. by destruct fuel.
  - inversion Hp as [|i ? ? m ? ? [_ Hi] Hp']; subst. destruct fuel as [|fuel]; simpl in Hf; [lia|].
    assert (all co !! i = Some (Inst o1 x1 m None)) as Hi'.
    { rewrite Hall. eapply prefix_lookup_Some; [done|]. by apply prefix_app_r. }
    cbn [clone_loop]. unfold bind at 1, load, bind at 1, get at 1. rewrite Hi'. simpl.
    unfold bind at 1. destruct (inst_new_spec o1 co) as [->|[-> Hm]].
    2: { right. eexists. split_and!; [done|done| |done]. simpl. rewrite Hall. by apply prefix_app_r. }
    set (D := base ++ chain_from (length base) done (Some (length base + length done)%nat)).
    assert (length D = length base + length done)%nat as HD by (unfold D; rewrite length_app, chain_length; lia).
    rewrite chain_snoc, app_assoc in Hall. fold D in Hall.
    assert (length (all co) = S (length D)) as Hn by (rewrite Hall, length_app; simpl; lia).
    rewrite Hn, <- HD, link_copy with (o := o) (x := x) (o1 := o1).
    2: { simpl. rewrite Hall, <- app_assoc. done. }
    specialize (IH fuel (done ++ [(o, x)]) o1 x1 m
      (set_all (D ++ [Inst o x (Some (S (length D))) None; Inst o1 x1 None None]) (grow [Inst o1 0 None None] co))).
    rewrite length_app, Nat.add_1_r, Nat.add_succ_r, <- HD, <- !app_assoc in IH. simpl in IH.
    apply IH; [done|lia|]. change [(o, x); (o1, x1)] with ([(o, x)] ++ [(o1, x1)]).
    rewrite (app_assoc done [(o, x)] [(o1, x1)]), !chain_snoc, length_app, HD. simpl. unfold D.
    by rewrite <- !app_assoc, Nat.add_1_r, Nat.add_succ_r.
Qed.
Lemma path_none_length bot st e ops : path bot st e ops None -> (length ops <= length st)%nat.
Proof.
  intros Hp. destruct (path_trail _ _ _ _ _ _ Hp (trail_end _ _)) as (us & Hu & <-).
  rewrite app_nil_r in Hu. by eapply trail_length.
Qed.

Lemma clone_linear_spec bot body ops co :
  path bot (all co) (Some body) ops None -> copied (all co) ops co (airy_re_clone_linear malloc_ok (Some body) co).
Proof.
  intros Hp. pose proof (path_none_length _ _ _ _ Hp) as Hlen.
  inversion Hp as [|i o x m ops' ? [_ Hi] Hp']; subst. simpl in Hlen.
  unfold airy_re_clone_linear, bind at 1, get at 1.
  destruct (length (all co)) as [|fuel] eqn:Hl; [lia|]. cbn [clone_loop].
  unfold bind at 1, load, bind at 1, get at 1. rewrite Hi. simpl. unfold bind at 1.
  destruct (inst_new_spec o co) as [->|[-> Hm]].
  2: { right. eexists. split_and!; [done|done| |done]. done. }
  unfold bind at 1. rewrite (store_spec _ _ (Inst o 0 None None)).
  2: { simpl. by rewrite lookup_app_r, Nat.sub_diag by done. }
  simpl. rewrite insert_app_r_alt, Nat.sub_diag by done.
  pose proof (clone_loop_spec bot fuel (all co) [] o x ops' m
    (set_all (all co ++ [Inst o x None None]) (grow [Inst o 0 None None] co))) as H.
  rewrite Nat.add_0_r in H. apply H; [done|lia|done].
Qed.

(** A copy continued by [seq]. *)
Lemma copy_link {A} bot body ops seq co (kont : nat -> M airy_re_comp_t (option A)) :
  path bot (all co) (Some body) ops None -> ops <> [] ->
  let m := cp <-? airy_re_clone_linear malloc_ok (Some body) ;; airy_re_chain_tail cp seq ;; kont cp in
  (exists n, m co = kont (length (all co))
     (Comp (all co ++ chain_from (length (all co)) ops seq) (tables co) (ntab co) (co_error co) n)) \/
  (exists co', m co = Ret (None, co') /\ out_of_memory /\ ext co co' /\ tables co' = tables co).
Proof.
  intros Hp Hne m. unfold m, bind at 1 3.
  destruct (clone_linear_spec _ _ _ _ Hp) as [[n ->]|(co' & -> & Hm & Hpre & Ht)].
  - left. exists n. unfold bind at 1, airy_re_chain_tail, bind at 1, get at 1. simpl.
    rewrite (tail_loop_chain _ ops); [done|done|done|]. rewrite length_app, chain_length. lia.
  - right. exists co'. split_and!; try done. split; [done|by rewrite Ht].
Qed.
Lemma branch_spec (D L : list airy_re_inst_t) x g cp seq co :
  all co = D ++ Inst AIRY_RE_I_SPLIT x None None :: L ->
  branch (length D) g cp seq co = Ret (tt, set_all (D ++ split_inst g x (Some cp) seq :: L) co).
Proof.
  intros Hall. unfold branch. destruct g; unfold bind;
    rewrite (store_spec _ _ (Inst AIRY_RE_I_SPLIT x None None)) by (by rewrite Hall, list_lookup_middle);
    rewrite Hall, insert_app_r_alt, Nat.sub_diag by done; simpl;
    (erewrite store_spec; [|simpl; by rewrite list_lookup_middle]); simpl;
    by rewrite insert_app_r_alt, Nat.sub_diag by done.
Qed.

(** A branch to a copy of the body, and to [seq]. *)
Lemma split_copy {A} bot body ops g seq (next : nat -> option nat) co
    (kont : nat -> M airy_re_comp_t (option A)) :
  path bot (all co) (Some body) ops None -> ops <> [] ->
  let m := sp <-? airy_re_inst_new malloc_ok AIRY_RE_I_SPLIT ;;
           cp <-? airy_re_clone_linear malloc_ok (Some body) ;;
           branch sp g cp seq ;; airy_re_chain_tail cp (next sp) ;; kont sp in
  let i := length (all co) in
  (exists n, m co = kont i
     (Comp (all co ++ split_inst g 0 (Some (S i)) seq :: chain_from (S i) ops (next i))
        (tables co) (ntab co) (co_error co) n)) \/
  (exists co', m co = Ret (None, co') /\ out_of_memory /\ ext co co' /\ tables co' = tables co).
Proof.
  intros Hp Hne m i. unfold m, bind at 1 5. destruct (inst_new_spec AIRY_RE_I_SPLIT co) as [->|[-> Hm]].
  2: { right. eexists. split_and!; [done|done|by split|done]. }
  set (co1 := grow [Inst AIRY_RE_I_SPLIT 0 None None] co).
  assert (path bot (all co1) (Some body) ops None) as Hp1 by (eapply path_ext; [by apply prefix_app_r|done]).
  assert (length (all co1) = S i) as Hl1 by (simpl; rewrite length_app; simpl; lia).
  unfold bind at 1 4. destruct (clone_linear_spec _ _ _ _ Hp1) as [[n ->]|(co' & -> & Hm & Hpre & Ht)].
  2: { right. exists co'. split_and!; [done|done| |by rewrite Ht].
       split; [by etransitivity; [apply prefix_app_r|exact Hpre]|by rewrite Ht]. }
  left. exists n. rewrite Hl1. unfold bind at 1. rewrite (branch_spec (all co) (chain_from (S i) ops None) 0).
  2: { simpl. by rewrite <- app_assoc. }
  unfold bind at 1, airy_re_chain_tail, bind at 1, get at 1. simpl.
  set (D := all co ++ [split_inst g 0 (Some (S i)) seq]).
  assert (S i = length D) as HD by (unfold D; rewrite length_app; simpl; lia).
  replace (tail_loop _ (S i)) with (tail_loop (length (all co ++ split_inst g 0 (Some (S i)) seq :: chain_from (S i) ops None)) (length D))
    by by rewrite HD.
  rewrite (tail_loop_chain D ops); [|done| |].
  - simpl. unfold D. rewrite <- app_assoc, length_app, Nat.add_1_r. done.
  - simpl. unfold D. by rewrite <- app_assoc, length_app, Nat.add_1_r.
  - rewrite length_app. simpl. rewrite chain_length. lia.
Qed.
Lemma copy_code bot st X tb ops x k :
  realizes tb ops [x] -> ops <> [] -> (bot <= length st)%nat ->
  code bot (st ++ X :: chain_from (S (length st)) ops k) tb [x] (Some (S (length st))) k.
Proof.
  intros Hr Hne Hb. apply Hr; [done|]. pose proof (chain_path bot (st ++ [X]) [] ops k Hne) as H.
  rewrite length_app, Nat.add_1_r, app_nil_r, <- app_assoc in H. apply H. lia.
Qed.

(** The state after a part of a repetition: what [code] it added, or that the
    memory ran out. *)
Definition seq_result (bot : nat) (co co' : airy_re_comp_t) (l : list airy_re_ast_t) (k : option nat)
    (r : option (option nat)) (some : Prop) : Prop :=
  ext co co' /\
  match r with
  | Some seq => tables co' = tables co /\ ntab co' = ntab co /\ co_error co' = co_error co /\ code bot (all co') (tables co') l seq k /\ (some -> seq <> None)
  | None => out_of_memory
  end.

Lemma optional_loop_spec n bot body ops g seq co x m l k :
  path 0 (all co) (Some body) ops None -> ops <> [] -> realizes (tables co) ops [x] ->
  (bot <= length (all co))%nat -> code bot (all co) (tables co) (AIRY_RE_A_REPEAT x 0 (Z.of_nat m) g :: l) seq k ->
  exists r co', optional_loop malloc_ok n body g seq co = Ret (r, co') /\
    seq_result bot co co' (AIRY_RE_A_REPEAT x 0 (Z.of_nat (m + n)) g :: l) k r (n <> 0%nat \/ seq <> None).
Proof.
  revert m seq co. induction n as [|n IH]; intros m seq co Hp Hne Hr Hb Hc.
  - exists (Some seq), co. split; [done|]. rewrite Nat.add_0_r. split; [apply ext_refl|]. split_and!; try done. tauto.
  - cbn [optional_loop].
    destruct (split_copy 0 body ops g seq (fun _ => seq) co
      (fun sp => optional_loop malloc_ok n body g (Some sp)) Hp Hne) as [[c ->]|(co' & -> & Hm & He & Ht)].
    2: { by exists None, co'. }
    set (co1 := Comp _ _ _ _ _). assert (ext co co1) as He by (split; [by apply prefix_app_r|done]).
    destruct (IH (S m) (Some (length (all co))) co1) as (r & co' & -> & He' & Hres).
    + eapply path_ext; [apply He|done].
    + done.
    + done.
    + simpl. rewrite length_app. lia.
    + eapply code_opt; [lia|split; [done|simpl; by rewrite list_lookup_middle]|simpl; by apply copy_code|].
      eapply code_ext; [apply He|done|]. by replace (Z.of_nat (S m) - 1) with (Z.of_nat m) by lia.
    + exists r, co'. split; [done|]. split; [by eapply ext_trans|].
      destruct r as [seq'|]; [|done]. destruct Hres as (? & ? & ? & Hc' & Hs). split_and!; try done.
      * by rewrite Nat.add_succ_r, <- Nat.add_succ_l.
      * intros _. apply Hs. by right.
Qed.
Lemma unbounded_tail_spec bot body ops g seq co x hi l k :
  path 0 (all co) (Some body) ops None -> ops <> [] -> realizes (tables co) ops [x] ->
  (bot <= length (all co))%nat -> code bot (all co) (tables co) l seq k -> hi < 0 ->
  exists r co', unbounded_tail malloc_ok body g seq co = Ret (r, co') /\
    seq_result bot co co' (AIRY_RE_A_REPEAT x 0 hi g :: l) k r True.
Proof.
  intros Hp Hne Hr Hb Hc Hhi. unfold unbounded_tail.
  destruct (split_copy 0 body ops g seq Some co (fun loop => ret (Some (Some loop))) Hp Hne)
    as [[n ->]|(co' & -> & Hm & He & Ht)]; [|by exists None, co'].
  set (co1 := Comp _ _ _ _ _). assert (ext co co1) as He by (split; [by apply prefix_app_r|done]).
  exists (Some (Some (length (all co)))), co1. split; [done|]. split; [done|]. split_and!; try done.
  eapply code_star; [done|split; [done|simpl; by rewrite list_lookup_middle]|simpl; by apply copy_code|].
  eapply code_ext; [apply He|done|done].
Qed.

Definition add_hi (hi n : Z) : Z := if hi <? 0 then hi else hi + n.

Lemma mandatory_loop_spec n bot body ops g seq co x m hi l k :
  path 0 (all co) (Some body) ops None -> ops <> [] -> realizes (tables co) ops [x] ->
  (bot <= length (all co))%nat -> code bot (all co) (tables co) (AIRY_RE_A_REPEAT x (Z.of_nat m) hi g :: l) seq k ->
  exists r co', mandatory_loop malloc_ok n body seq co = Ret (r, co') /\
    seq_result bot co co' (AIRY_RE_A_REPEAT x (Z.of_nat (m + n)) (add_hi hi (Z.of_nat n)) g :: l) k r
      (n <> 0%nat \/ seq <> None).
Proof.
  revert m hi seq co. induction n as [|n IH]; intros m hi seq co Hp Hne Hr Hb Hc.
  - exists (Some seq), co. split; [done|]. rewrite Nat.add_0_r.
    replace (add_hi hi (Z.of_nat 0)) with hi by (unfold add_hi; bool_prop; lia).
    split; [apply ext_refl|]. split_and!; try done. tauto.
  - cbn [mandatory_loop].
    destruct (copy_link 0 body ops seq co (fun cp => mandatory_loop malloc_ok n body (Some cp)) Hp Hne)
      as [[c ->]|(co' & -> & Hm & He & Ht)]; [|by exists None, co'].
    set (co1 := Comp _ _ _ _ _). assert (ext co co1) as He by (split; [by apply prefix_app_r|done]).
    destruct (IH (S m) (add_hi hi 1) (Some (length (all co))) co1) as (r & co' & -> & He' & Hres).
    + eapply path_ext; [apply He|done].
    + done.
    + done.
    + simpl. rewrite length_app. lia.
    + replace (Z.of_nat (S m)) with (Z.of_nat m + 1) by lia. eapply code_mand; [lia| |].
      * apply Hr; [done|]. simpl. rewrite <- (app_nil_r (chain_from _ _ _)). apply chain_path; [done|lia].
      * replace (pred_hi (add_hi hi 1)) with hi by (unfold pred_hi, add_hi; bool_prop; lia).
        eapply code_ext; [apply He|done|done].
    + exists r, co'. split; [done|]. split; [by eapply ext_trans|].
      destruct r as [seq'|]; [|done]. destruct Hres as (? & ? & ? & Hc' & Hs). split_and!; try done.
      * rewrite Nat.add_succ_r, <- Nat.add_succ_l.
        by replace (add_hi hi (Z.of_nat (S n))) with (add_hi (add_hi hi 1) (Z.of_nat n))
          by (unfold add_hi; bool_prop; lia).
      * intros _. apply Hs. by right.
Qed.
(** ** Nodes *)

Definition tables_ok (co : airy_re_comp_t) : Prop := length (tables co) = (ntab co * 32)%nat.

Definition node_result (co co' : airy_re_comp_t) (l : list airy_re_ast_t) (k r : option nat) : Prop :=
  ext co co' /\
  match r with
  | Some e => tables_ok co' /\ co_error co' = co_error co /\ code (length (all co)) (all co') (tables co') l (Some e) k
  | None => out_of_memory \/ forallb compilable l = false \/ (k = None /\ solid_list l = false)
  end.

Definition compiles (m : option nat -> M airy_re_comp_t (option nat)) (l : list airy_re_ast_t) : Prop :=
  forall k co, tables_ok co -> exists r co', m k co = Ret (r, co') /\ node_result co co' l k r.

Lemma leaf_spec o x n k co :
  (forall bot st i, fetch bot st i (Inst o x k None) -> code bot st (tables co) [n] (Some i) k) -> tables_ok co ->
  exists r co', compile_leaf malloc_ok o x k co = Ret (r, co') /\ node_result co co' [n] k r.
Proof.
  intros Hn Ht. unfold compile_leaf, bind at 1.
  destruct (inst_new_spec o co) as [->|[-> Hm]].
  2: { exists None, (set_co_error co). split; [done|]. split; [by split|]. by left. }
  unfold bind at 1. rewrite (store_spec _ _ (Inst o 0 None None)) by (simpl; by rewrite list_lookup_middle).
  unfold bind at 1. rewrite (store_spec _ _ (Inst o x None None)).
  2: { simpl. rewrite insert_app_r_alt, Nat.sub_diag by done. simpl. by rewrite list_lookup_middle. }
  simpl. rewrite list_insert_insert_eq, insert_app_r_alt, Nat.sub_diag by done. simpl.
  eexists (Some _), _. split; [done|]. split; [split; simpl; [by apply prefix_app_r|done]|].
  split; [done|]. split; [done|]. apply Hn. split; [done|]. simpl. by rewrite list_lookup_middle.
Qed.
Lemma class_spec tbl : length tbl = 32%nat -> compiles (compile_class malloc_ok tbl) [AIRY_RE_A_CLASS tbl].
Proof.
  intros Hlen k co Ht. unfold compile_class, bind at 1, get at 1.
  destruct (malloc_ok (calls co)) eqn:Hm; simpl.
  2: { exists None, (set_co_error co). split; [done|]. split; [by split|]. left. by exists (calls co). }
  unfold bind at 1, modify at 1. set (co1 := Comp _ _ _ _ _).
  assert (ext co co1) as He by (split; simpl; [done|by apply prefix_app_r]).
  assert (tables_ok co1) as Ht1 by (unfold tables_ok; simpl; rewrite length_app, Ht, Hlen; lia).
  destruct (leaf_spec AIRY_RE_I_CLASS (Z.of_nat (ntab co)) (AIRY_RE_A_CLASS tbl) k co1)
    as (r & co' & Hr & He' & Hres); [|done|].
  - intros bot st i Hi. eapply code_class; [done| |constructor]. split; [lia|]. intros j x Hj. simpl.
    rewrite Nat2Z.id, <- Ht. by rewrite lookup_app_r, Nat.add_comm, Nat.add_sub by lia.
  - exists r, co'. split; [exact Hr|]. split; [by eapply ext_trans|done].
Qed.

Lemma compile_seq_spec count l :
  (length l <= count)%nat -> Forall (fun n => compiles (airy_re_compile_one malloc_ok n) [n]) l ->
  compiles (compile_seq_with (airy_re_compile_one malloc_ok) count l) l.
Proof.
  revert count. induction l as [|n l IH]; intros count Hlen Hall k co Ht.
  - exists k, co. split; [by destruct count|]. split; [apply ext_refl|].
    destruct k; [split_and!; [done|done|constructor]|]. by right; right.
  - apply Forall_cons in Hall as [Hn Hl]. destruct count as [|count]; simpl in Hlen; [lia|].
    destruct l as [|n' l]; [by apply Hn|]. destruct count as [|count]; [simpl in Hlen; lia|].
    destruct (IH (S count) ltac:(lia) Hl k co Ht) as (r & co1 & Hr & He & Hres).
    cbn [compile_seq_with] in *. unfold bind at 1. rewrite Hr. destruct r as [cont|].
    + destruct Hres as (Ht1 & Herr & Hc). destruct (Hn (Some cont) co1 Ht1) as (r & co2 & -> & He2 & Hres).
      exists r, co2. split; [done|]. split; [by eapply ext_trans|]. destruct r as [e|].
      * destruct Hres as (Ht2 & Herr2 & Hc2). split; [done|]. split; [congruence|]. apply (code_app _ _ _ [n] _ _ (Some cont)).
        -- eapply code_agree; [|done|done]. split; [by apply prefix_length, He|done].
        -- eapply code_ext; [apply He2|apply He2|done].
      * destruct Hres as [?|[Hcp|[? _]]]; [by left| |done]. right. left. simpl in *.
        rewrite andb_true_r in Hcp. by rewrite Hcp.
    + exists None, co1. split; [done|]. split; [done|].
      destruct Hres as [?|[Hcp|[? Hs]]]; [by left|right; left|by right; right].
      cbn [forallb] in *. by rewrite Hcp, andb_false_r.
Qed.
(** A fresh instruction, filled. *)
Lemma store_last o x m f (D : list airy_re_inst_t) co :
  all co = D ++ [Inst o x m None] ->
  store (length D) f co = Ret (tt, set_all (D ++ [f (Inst o x m None)]) co).
Proof.
  intros Hall. rewrite (store_spec _ _ (Inst o x m None)) by (by rewrite Hall, list_lookup_middle).
  by rewrite Hall, insert_app_r_alt, Nat.sub_diag by done.
Qed.

Lemma group_saves {A} gid k co (kont : nat -> nat -> M airy_re_comp_t (option A)) :
  let m := save0 <-? airy_re_inst_new malloc_ok AIRY_RE_I_SAVE ;;
           store save0 (set_c (gid * 2)) ;;
           save1 <-? airy_re_inst_new malloc_ok AIRY_RE_I_SAVE ;;
           store save1 (set_c (gid * 2 + 1)) ;; store save1 (set_a k) ;; kont save0 save1 in
  let i := length (all co) in
  (exists n, m co = kont i (S i) (Comp (all co ++ [Inst AIRY_RE_I_SAVE (gid * 2) None None;
       Inst AIRY_RE_I_SAVE (gid * 2 + 1) k None]) (tables co) (ntab co) (co_error co) n)) \/
  (exists co', m co = Ret (None, co') /\ out_of_memory /\ ext co co' /\ tables co' = tables co /\ ntab co' = ntab co).
Proof.
  intros m i. unfold m, bind at 1 6. destruct (inst_new_spec AIRY_RE_I_SAVE co) as [->|[-> Hm]].
  2: { right. eexists. split_and!; [done|done|by split|done|done]. }
  fold i. unfold bind at 1 5. rewrite !(store_last AIRY_RE_I_SAVE 0 None _ (all co)) by done. simpl.
  set (co1 := set_all _ _).
  assert (length (all co1) = S i) as Hl by (simpl; rewrite length_app; simpl; lia).
  unfold bind at 1 4. destruct (inst_new_spec AIRY_RE_I_SAVE co1) as [->|[-> Hm]].
  2: { right. eexists. split_and!; [done|done|split; simpl; [by apply prefix_app_r|done]|done|done]. }
  pose proof (fun x => store_last AIRY_RE_I_SAVE x None) as Hst. specialize (fun x f => Hst x f (all co1)).
  rewrite Hl in *. left. eexists. unfold bind at 1. rewrite (Hst 0) by done.
  unfold bind at 1. rewrite (Hst (gid * 2 + 1)) by done. simpl.
  rewrite <- app_assoc. simpl. reflexivity.
Qed.
Lemma ext_length co co' : ext co co' -> (length (all co) <= length (all co'))%nat.
Proof. intros [Ha _]. by apply prefix_length. Qed.

Lemma group_spec inner gid :
  compiles (compile_seq_with (airy_re_compile_one malloc_ok) MAX_NODES inner) inner ->
  compiles (airy_re_compile_one malloc_ok (AIRY_RE_A_GROUP inner gid)) [AIRY_RE_A_GROUP inner gid].
Proof.
  intros Hin k co Ht. cbn [airy_re_compile_one].
  destruct (group_saves gid k co (fun save0 save1 =>
      body <-? compile_seq_with (airy_re_compile_one malloc_ok) MAX_NODES inner (Some save1) ;;
      store save0 (set_a (Some body)) ;; ret (Some save0))) as [[n ->]|(co' & -> & Hm & He & Ht' & Hn)].
  2: { exists None, co'. split; [done|]. split; [done|]. by left. }
  set (co1 := Comp _ _ _ _ _). set (i := length (all co)).
  assert (ext co co1) as He by (split; simpl; [by apply prefix_app_r|done]).
  unfold bind at 1. destruct (Hin (Some (S i)) co1 Ht) as (r & co2 & -> & He2 & Hres).
  destruct r as [body|].
  2: { exists None, co2. split; [done|]. split; [by eapply ext_trans|].
       destruct Hres as [?|[Hc|[? _]]]; [by left| |done]. right. left. simpl. by rewrite Hc. }
  destruct Hres as (Ht2 & Herr & Hc).
  assert (all co2 !! i = Some (Inst AIRY_RE_I_SAVE (gid * 2) None None)) as Hi.
  { eapply prefix_lookup_Some; [|apply He2]. simpl. by rewrite list_lookup_middle. }
  assert (all co2 !! S i = Some (Inst AIRY_RE_I_SAVE (gid * 2 + 1) k None)) as Hj.
  { eapply prefix_lookup_Some; [|apply He2]. simpl. rewrite lookup_app_r by (unfold i; lia).
    by replace (S i - length (all co))%nat with 1%nat by (unfold i; lia). }
  unfold bind at 1. rewrite (store_spec _ _ _ _ Hi). eexists (Some i), _. split; [done|].
  split; [|split; [done|split; [done|]]].
  - destruct (ext_trans _ _ _ He He2) as [Hp Htp]. split; [|done]. simpl.
    destruct Hp as [L ->]. rewrite insert_app_r_alt by done. by apply prefix_app_r.
  - simpl. eapply (code_group _ _ _ _ _ _ _ (Some body) (S i) k).
    + split; [done|]. apply list_lookup_insert_eq. by eapply lookup_lt_Some.
    + eapply code_agree; [|done|exact Hc]. split; [by apply ext_length|]. simpl. intros j ip Hj' Hl.
      rewrite length_app in Hj'. simpl in Hj'. by rewrite list_lookup_insert_ne by (unfold i; lia).
    + split; [unfold i; lia|]. by rewrite list_lookup_insert_ne by lia.
    + constructor.
Qed.
Lemma alt_spec x y :
  compiles (compile_seq_with (airy_re_compile_one malloc_ok) MAX_NODES x) x ->
  compiles (compile_seq_with (airy_re_compile_one malloc_ok) MAX_NODES y) y ->
  compiles (airy_re_compile_one malloc_ok (AIRY_RE_A_ALT x y)) [AIRY_RE_A_ALT x y].
Proof.
  intros Hx Hy k co Ht. cbn [airy_re_compile_one]. unfold bind at 1.
  destruct (Hx k co Ht) as (r & co1 & -> & He1 & Hres1). destruct r as [b1|].
  2: { exists None, co1. split; [done|]. split; [done|]. cbn [forallb compilable solid_with solid].
       destruct Hres1 as [?|[->|[-> ->]]]; [by left|right; by left|by right; right]. }
  destruct Hres1 as (Ht1 & Herr1 & Hc1).
  unfold bind at 1. destruct (Hy k co1 Ht1) as (r & co2 & -> & He2 & Hres2).
  pose proof (ext_trans _ _ _ He1 He2) as He. destruct r as [b2|].
  2: { exists None, co2. split; [done|]. split; [done|]. cbn [forallb compilable solid_with solid].
       destruct Hres2 as [?|[->|[-> ->]]]; [by left|right; left|right; right]; by rewrite ?andb_false_r. }
  destruct Hres2 as (Ht2 & Herr2 & Hc2). unfold bind at 1.
  destruct (inst_new_spec AIRY_RE_I_SPLIT co2) as [->|[-> Hm]].
  2: { exists None, (set_co_error co2). split; [done|]. split; [by destruct He; split|]. by left. }
  unfold bind at 1. rewrite (store_last AIRY_RE_I_SPLIT 0 None _ (all co2)) by done.
  unfold bind at 1. rewrite (store_last AIRY_RE_I_SPLIT 0 (Some b1) _ (all co2)) by done. simpl.
  eexists (Some _), _. split; [done|]. split; [|split; [done|split; [simpl; congruence|]]].
  - destruct He as [Ha ?]. split; [|done]. simpl. etransitivity; [exact Ha|by apply prefix_app_r].
  - simpl. eapply code_alt; [|eapply code_ext; [|apply He2|exact Hc1]|eapply code_agree; [|done|exact Hc2]|constructor].
    + split; [by apply ext_length|by apply list_lookup_middle].
    + etransitivity; [apply He2|by apply prefix_app_r].
    + split; [by apply ext_length|]. intros i ip _ Hi. eapply prefix_lookup_Some; [done|by apply prefix_app_r].
Qed.

(** The copies of a straight body. *)
Lemma copies_spec body ops lo hi g k co x :
  path 0 (all co) (Some body) ops None -> ops <> [] -> realizes (tables co) ops [x] ->
  0 <= lo -> (hi < 0 \/ lo <= hi) -> tables_ok co ->
  exists r co', (seq <-? (if hi <? 0 then unbounded_tail malloc_ok body g k
                          else optional_loop malloc_ok (Z.to_nat (hi - lo)) body g k) ;;
                 seq <-? mandatory_loop malloc_ok (Z.to_nat lo) body seq ;; ret seq) co = Ret (r, co') /\
    node_result co co' [AIRY_RE_A_REPEAT x lo hi g] k r.
Proof.
  intros Hp Hne Hr Hlo Hhi Ht. set (i := length (all co)).
  assert (exists r co1, (if hi <? 0 then unbounded_tail malloc_ok body g k
      else optional_loop malloc_ok (Z.to_nat (hi - lo)) body g k) co = Ret (r, co1) /\
    seq_result i co co1 [AIRY_RE_A_REPEAT x (Z.of_nat 0) (add_hi hi (- lo)) g] k r
      (hi < 0 \/ hi - lo <> 0 \/ k <> None)) as (r & co1 & Hop & He1 & Hres1).
  { unfold add_hi. destruct (Z.ltb_spec hi 0).
    - destruct (unbounded_tail_spec i body ops g k co x hi [] k) as (r & co1 & -> & He & Hs); try done; [constructor|].
      exists r, co1. split; [done|]. split; [done|]. destruct r; [|done].
      destruct Hs as (? & ? & ? & ? & Hs). split_and!; try done. intros _. by apply Hs.
    - destruct (optional_loop_spec (Z.to_nat (hi - lo)) i body ops g k co x 0 [] k)
        as (r & co1 & -> & He & Hs); try done; [repeat constructor|].
      exists r, co1. split; [done|]. split; [done|]. destruct r; [|done]. simpl in Hs.
      rewrite Z2Nat.id in Hs by lia. replace (hi + - lo) with (hi - lo) by lia.
      destruct Hs as (? & ? & ? & ? & Hs). split_and!; try done. intros Hc. apply Hs.
      destruct Hc as [?|[?|?]]; [lia|left; lia|by right]. }
  unfold bind at 1. rewrite Hop. destruct r as [seq|].
  2: { exists None, co1. split; [done|]. split; [done|]. by left. }
  destruct Hres1 as (Ht1 & Hn1 & Herr1 & Hc1 & Hs1).
  destruct (mandatory_loop_spec (Z.to_nat lo) i body ops g seq co1 x 0 (add_hi hi (- lo)) [] k)
    as (r & co2 & Hop2 & He2 & Hres2); try done.
  { eapply path_ext; [apply He1|done]. }
  { by rewrite Ht1. }
  { by apply ext_length. }
  unfold bind at 1. rewrite Hop2. pose proof (ext_trans _ _ _ He1 He2) as He. destruct r as [seq'|].
  2: { exists None, co2. split; [done|]. split; [done|]. by left. }
  destruct Hres2 as (Ht2 & Hn2 & Herr2 & Hc2 & Hs2). exists seq', co2. split; [done|]. split; [done|]. rewrite Nat.add_0_l, Z2Nat.id in Hc2 by lia.
  replace (add_hi (add_hi hi (- lo)) lo) with hi in Hc2 by (unfold add_hi; bool_prop; lia).
  destruct seq' as [e|]; [split_and!; [unfold tables_ok; congruence|congruence|done]|]. right. right.
  destruct k as [k|]; [exfalso; apply Hs2; [|done]; right; apply Hs1; by right; right|].
  split; [done|]. cbn [solid_with solid].
  destruct (Z.eqb_spec lo 0), (Z.eqb_spec hi 0); try done; exfalso; apply Hs2; try done; try (left; lia);
    right; apply Hs1; lia.
Qed.
Lemma repeat_spec x lo hi g :
  atom x = true -> 0 <= lo -> (hi < 0 \/ lo <= hi) ->
  compiles (airy_re_compile_one malloc_ok x) [x] ->
  compiles (airy_re_compile_one malloc_ok (AIRY_RE_A_REPEAT x lo hi g)) [AIRY_RE_A_REPEAT x lo hi g].
Proof.
  intros Hat Hlo Hhi Hx k co Ht. cbn [airy_re_compile_one]. unfold airy_re_compile_repeat, bind at 1.
  destruct (Hx None co Ht) as (r & co1 & -> & He1 & Hres). destruct r as [body|].
  2: { exists None, co1. split; [done|]. split; [done|]. cbn [forallb compilable] in *.
       destruct Hres as [?|[Hc|[_ Hs]]]; [by left| |by destruct x].
       right. left. rewrite andb_true_r in Hc. by rewrite Hc, !andb_false_r. }
  destruct Hres as (Ht1 & Herr1 & Hc1). unfold bind at 1, get at 1, bind at 1.
  destruct (linear_check _ _ _ _ Hc1) as [Hlin Hbr]. destruct (linear x) eqn:Hl.
  - rewrite Hlin by (cbn; by rewrite Hl). simpl negb. cbv iota.
    destruct (linear_path _ _ _ _ _ _ Hc1) as (ops & Hp & Hr); [cbn; by rewrite Hl|].
    destruct (copies_spec body ops lo hi g k co1 x) as (r & co2 & Hop & He2 & Hres); try done.
    { eapply path_agree; [|done]. split; [lia|done]. }
    { intros ->. inversion Hp. }
    exists r, co2. split; [exact Hop|]. split; [by eapply ext_trans|]. destruct r as [e|]; [|done].
    destruct Hres as (? & ? & Hc). split_and!; [done|congruence|].
    eapply code_agree; [|done|exact Hc]. split; [by apply ext_length|done].
  - rewrite Hbr; [simpl; exists None, (set_co_error co1); split; [done|]; split; [by destruct He1; split|];
      right; left; simpl; by rewrite Hl|].
    destruct x as [| | | | | |x lo' hi' g'|inner gid]; try done.
    inversion Hc1 as [| | | | | |? ? ? i e j m ? Hi Hin Hj Hk| | | | |]; subst.
    eapply hits_branch_step; [done|]. eapply nonlinear_hits; [done..|exact Hl].
Qed.

(** The program of a well-formed tree. *)
Lemma compile_one_spec n : well_formed n = true -> compiles (airy_re_compile_one malloc_ok n) [n].
Proof.
  assert (forall l, (length l <=? MAX_NODES)%nat = true -> forallb well_formed l = true ->
    Forall (fun n => well_formed n = true -> compiles (airy_re_compile_one malloc_ok n) [n]) l ->
    compiles (compile_seq_with (airy_re_compile_one malloc_ok) MAX_NODES l) l) as Hseq.
  { intros l Hlen%Nat.leb_le Hwf Hall. apply compile_seq_spec; [done|]. rewrite forallb_forall in Hwf.
    rewrite Forall_forall in *. intros n' Hn. apply Hall; [done|]. by apply Hwf, list_elem_of_In. }
  induction n as [|x| |tbl|x|x y IHx IHy|x lo hi g IH|l gid IHl] using ast_ind'; cbn [well_formed]; intros Hwf.
  - intros k co Ht. exists k, co. split; [done|]. split; [apply ext_refl|].
    destruct k; [split_and!; [done|done|repeat constructor]|by right; right].
  - intros k co Ht. apply leaf_spec; [|done]. intros. eapply code_char; [done|constructor].
  - intros k co Ht. apply leaf_spec; [|done]. intros. eapply code_any; [done|constructor].
  - apply class_spec. by apply Nat.eqb_eq.
  - intros k co Ht. apply leaf_spec; [|done]. intros. eapply code_anchor; [done|constructor].
  - rewrite !andb_true_iff in Hwf. destruct Hwf as [[[? ?] ?] ?]. apply alt_spec; by apply Hseq.
  - rewrite !andb_true_iff, orb_true_iff in Hwf. destruct Hwf as [[[? ?] ?] ?].
    apply repeat_spec; [done|lia|lia|by apply IH].
  - rewrite !andb_true_iff in Hwf. destruct Hwf as [[[? ?] _] _]. apply group_spec. by apply Hseq.
Qed.

Lemma compile_list_spec l : well_formed_list l = true -> compiles (airy_re_compile_seq malloc_ok l) l.
Proof.
  unfold well_formed_list. rewrite andb_true_iff. intros [Hlen Hwf]. apply compile_seq_spec; [by apply Nat.leb_le|].
  rewrite forallb_forall in Hwf. apply Forall_forall. intros n Hn. apply compile_one_spec, Hwf. by apply list_elem_of_In.
Qed.
End compiler_spec.
