(* ===== verification/RegexSyntax.v ===== *)
(** * What the parser of regular expressions accepts

    The trees of the parser are well formed and the parser returns on every
    pattern.  Extended regular expressions are written down as a syntax with a
    printer and a language of their own; the parser reads back what is
    printed. *)
From S2P Require Import Prelude RegexParse RegexCompile.
#[local] Open Scope re_scope.

(** ** Reasoning about the parser *)

(** The call returns within its fuel and its result satisfies [Q]. *)
Definition ok {A} (m : M airy_re_parser_t A) (ps : airy_re_parser_t) (Q : A -> airy_re_parser_t -> Prop) : Prop :=
  match m ps with Ret (r, ps') => Q r ps' | Undef => True | NoFuel => False end.

Lemma ok_bind {A B} (m : M airy_re_parser_t A) (k : A -> M airy_re_parser_t B) ps Q :
  ok m ps (fun r ps' => ok (k r) ps' Q) -> ok (bind m k) ps Q.
Proof. unfold ok, bind. by destruct (m ps) as [[r ps']| |]. Qed.

Lemma ok_conseq {A} (m : M airy_re_parser_t A) ps (Q Q' : A -> airy_re_parser_t -> Prop) :
  ok m ps Q -> (forall r ps', Q r ps' -> Q' r ps') -> ok m ps Q'.
Proof. unfold ok. destruct (m ps) as [[r ps']| |]; auto. Qed.

Lemma ok_ret {A} (r : A) ps (Q : A -> airy_re_parser_t -> Prop) : Q r ps -> ok (ret r) ps Q.
Proof. done. Qed.

Lemma ok_get ps (Q : airy_re_parser_t -> airy_re_parser_t -> Prop) : Q ps ps -> ok get ps Q.
Proof. done. Qed.

Lemma ok_modify f ps (Q : unit -> airy_re_parser_t -> Prop) : Q tt (f ps) -> ok (modify f) ps Q.
Proof. done. Qed.

(** The text that is left. *)
Definition remaining (ps : airy_re_parser_t) : nat := length (ps_p ps).

(** What every call keeps: it only reads on, and counts at most nine groups. *)
Record advances (ps ps' : airy_re_parser_t) : Prop := {
  adv_left : (remaining ps' <= remaining ps)%nat;
  adv_groups : 0 <= ngroups ps < AIRY_RE_MAX_GROUPS -> 0 <= ngroups ps' < AIRY_RE_MAX_GROUPS;
}.

Lemma advances_refl ps : advances ps ps.
Proof. by split. Qed.

Lemma advances_trans ps1 ps2 ps3 : advances ps1 ps2 -> advances ps2 ps3 -> advances ps1 ps3.
Proof. intros [] []. split; [lia|auto]. Qed.

Lemma advances_error ps1 ps2 : advances ps1 ps2 -> advances ps1 (set_error ps2).
Proof. intros []. by split. Qed.

Section invariant.
Variable malloc_ok : nat -> bool.

Lemma new_ok ps (Q : bool -> airy_re_parser_t -> Prop) :
  (forall b ps', ps_p ps' = ps_p ps -> ngroups ps' = ngroups ps -> Q b ps') -> ok (airy_re_ast_new malloc_ok) ps Q.
Proof. intros HQ. unfold ok, airy_re_ast_new. destruct (malloc_ok _); by apply HQ. Qed.

Lemma peek_ok ps (Q : Z -> airy_re_parser_t -> Prop) :
  Q (match ps_p ps with [] => -1 | c :: _ => c end) ps -> ok airy_re_peek ps Q.
Proof. done. Qed.

Lemma next_ok ps (Q : Z -> airy_re_parser_t -> Prop) :
  (ps_p ps = [] -> Q (-1) ps) -> (forall c l, ps_p ps = c :: l -> Q c (set_p l ps)) -> ok airy_re_next ps Q.
Proof.
  intros H1 H2. unfold ok, airy_re_next, bind, get. destruct (ps_p ps) as [|c l] eqn:Hp; simpl; [by apply H1|by apply H2].
Qed.

Lemma fail_ok {A} (r : A) ps (Q : A -> airy_re_parser_t -> Prop) : Q r (set_error ps) -> ok (fail r) ps Q.
Proof. done. Qed.

Lemma tbl_set_length tbl ch : length (tbl_set tbl ch) = length tbl.
Proof. unfold tbl_set. destruct (tbl !! _); [apply length_insert|done]. Qed.

Lemma tbl_set_range_length tbl ch hi : length (tbl_set_range tbl ch hi) = length tbl.
Proof.
  unfold tbl_set_range. generalize (seqZ ch (hi - ch + 1)). intros l. revert tbl.
  induction l as [|x l IH]; intros tbl; simpl; [done|]. by rewrite IH, tbl_set_length.
Qed.

Lemma class_loop_ok n l tbl :
  (length l <= n)%nat ->
  let (r, l') := class_loop l tbl in
  (length l' <= length l)%nat /\ match r with Some tbl' => length tbl' = length tbl | None => True end.
Proof.
  revert l tbl. induction n as [|n IH]; intros [|ch l] tbl Hn; simpl in *; try done; try lia.
  assert (forall k tbl', (length k <= length l)%nat -> length tbl' = length tbl ->
    let (r, l') := class_loop k tbl' in
    (length l' <= S (length l))%nat /\ match r with Some tbl' => length tbl' = length tbl | None => True end) as Hk.
  { intros k tbl' Hk Ht. specialize (IH k tbl' ltac:(lia)). destruct (class_loop k tbl') as [[]]; intuition lia. }
  destruct (ch =? RBRACKET); [simpl; split; [lia|done]|].
  destruct l as [|d l2]; [apply Hk; [done|apply tbl_set_length]|].
  destruct (ch =? BACKSLASH); [apply Hk; [simpl; lia|apply tbl_set_length]|].
  destruct l2 as [|c l3]; [apply Hk; [done|apply tbl_set_length]|].
  destruct (_ && _); [|apply Hk; [done|apply tbl_set_length]].
  destruct (s8 c <? ch); [simpl; split; [lia|done]|]. apply Hk; [simpl; lia|apply tbl_set_range_length].
Qed.

Definition atom_post (ps : airy_re_parser_t) (r : option airy_re_ast_t) (ps' : airy_re_parser_t) : Prop :=
  advances ps ps' /\
  match r with
  | Some n => well_formed n = true /\ atom n = true /\ (remaining ps' < remaining ps)%nat
  | None => True
  end.

Definition good_node (n : airy_re_ast_t) : Prop := well_formed n = true /\ atom n = true.

(** A node made once [c] is read. *)
Lemma char_ok ps0 c l ps ch :
  ps_p ps0 = c :: l -> ps_p ps = l -> ngroups ps = ngroups ps0 -> ok (airy_re_char malloc_ok ch) ps (atom_post ps0).
Proof.
  intros H0 Hp Hg. apply ok_bind, new_ok. intros b ps' Hp' Hg'. apply ok_ret. unfold atom_post, remaining.
  split; [split; unfold remaining; [rewrite Hp', Hp, H0; simpl; lia|congruence]|].
  destruct b; [|done]. rewrite Hp', Hp, H0. simpl. split_and!; [done|done|lia].
Qed.

Lemma leaf_ok ps0 c l ps n :
  ps_p ps0 = c :: l -> ps_p ps = l -> ngroups ps = ngroups ps0 -> good_node n ->
  ok (bind (airy_re_ast_new malloc_ok) (fun b => ret (if b then Some n else None))) ps (atom_post ps0).
Proof.
  intros H0 Hp Hg [Hwf Hat]. apply ok_bind, new_ok. intros b ps' Hp' Hg'. apply ok_ret. unfold atom_post.
  split; [split; unfold remaining; [rewrite Hp', Hp, H0; simpl; lia|congruence]|].
  destruct b; [|done]. unfold remaining. rewrite Hp', Hp, H0. simpl. split_and!; [done|done|lia].
Qed.

Lemma class_body_ok neg ps (Q : option (list Z) -> airy_re_parser_t -> Prop) :
  (forall r ps', (remaining ps' <= remaining ps)%nat -> ngroups ps' = ngroups ps ->
    match r with Some tbl => length tbl = 32%nat | None => True end -> Q r ps') ->
  ok (airy_re_parse_class_body neg) ps Q.
Proof.
  intros HQ. apply ok_bind, ok_get.
  pose proof (class_loop_ok _ (ps_p ps) (replicate 32 0) ltac:(done)) as Hl.
  destruct (class_loop _ _) as [r l]. destruct Hl as [Hlen Ht]. apply ok_bind, ok_modify.
  destruct r as [tbl|].
  - apply ok_ret, HQ; [done|done|]. rewrite length_replicate in Ht. destruct neg; [by rewrite length_map|done].
  - apply fail_ok, HQ; done.
Qed.

Lemma class_ok ps0 c l ps :
  ps_p ps0 = c :: l -> ps_p ps = l -> ngroups ps = ngroups ps0 -> ok (airy_re_class malloc_ok) ps (atom_post ps0).
Proof.
  intros H0 Hp Hg. apply ok_bind, peek_ok.
  set (neg := _ =? CARET). apply ok_bind.
  assert (forall ps', (remaining ps' <= length l)%nat -> ngroups ps' = ngroups ps0 -> forall neg,
    ok (b <- airy_re_ast_new malloc_ok ;; if negb b then ret None
        else tbl <-? airy_re_parse_class_body neg ;; ret (Some (AIRY_RE_A_CLASS tbl))) ps' (atom_post ps0)) as Hrest.
  { intros ps' Hl Hg' neg'. apply ok_bind, new_ok. intros b ps1 Hp1 Hg1. unfold remaining in Hl. rewrite <- Hp1 in Hl.
    assert (advances ps0 ps1) as Hadv by (split; unfold remaining; [rewrite H0; simpl; lia|congruence]).
    destruct b; simpl; [|by apply ok_ret]. apply ok_bind, class_body_ok. intros r ps2 Hl2 Hg2 Ht.
    assert (advances ps0 ps2) as Hadv2
      by (eapply advances_trans; [done|]; split; [done|by rewrite Hg2]).
    destruct r as [tbl|]; [|by apply ok_ret]. apply ok_ret. split; [done|].
    unfold remaining in *. rewrite H0. simpl. rewrite Ht. split_and!; [done|done|lia]. }
  destruct neg.
  - apply ok_bind, next_ok; [intros Hnil|intros c' l' Hc].
    + apply ok_ret, Hrest; [unfold remaining; rewrite Hnil; simpl; lia|congruence].
    + apply ok_ret, Hrest; [unfold remaining; simpl; rewrite <- Hp, Hc; simpl; lia|done].
  - apply ok_ret, Hrest; [unfold remaining; by rewrite Hp|done].
Qed.

Definition list_post (ps : airy_re_parser_t) (r : list airy_re_ast_t) (ps' : airy_re_parser_t) : Prop :=
  advances ps ps' /\ well_formed_list r = true.

(** A call that parses a list whenever at most [N] characters are left. *)
Definition parses (N : nat) (m : M airy_re_parser_t (list airy_re_ast_t)) : Prop :=
  forall ps, (remaining ps <= N)%nat -> (remaining ps <= MAX_NODES)%nat -> 0 <= ngroups ps < AIRY_RE_MAX_GROUPS ->
  ok m ps (list_post ps).

Lemma group_ok ps0 c l ps N alt :
  ps_p ps0 = c :: l -> ps_p ps = l -> ngroups ps = ngroups ps0 -> 0 <= ngroups ps0 < AIRY_RE_MAX_GROUPS ->
  (length l <= N)%nat -> (length l <= MAX_NODES)%nat -> parses N alt ->
  ok (airy_re_group malloc_ok alt) ps (atom_post ps0).
Proof.
  intros H0 Hp Hg Hrange HN HM Halt. apply ok_bind, ok_get.
  assert (advances ps0 ps) as Hadv by (split; unfold remaining; [rewrite Hp, H0; simpl; lia|congruence]).
  destruct (Z.leb_spec (AIRY_RE_MAX_GROUPS - 1) (ngroups ps)) as [Hm|Hm].
  { apply fail_ok. split; [by apply advances_error|done]. }
  apply ok_bind, ok_modify, ok_bind.
  assert (0 <= ngroups ps + 1 < AIRY_RE_MAX_GROUPS) as Hg1 by lia.
  eapply ok_conseq; [apply Halt; unfold remaining; simpl; rewrite ?Hp; lia|].
  intros inner ps1 [[Hl1 Hgr1] Hwf]. unfold remaining in Hl1. simpl in Hl1, Hgr1. rewrite Hp in Hl1.
  assert (forall ps2, (remaining ps2 <= remaining ps1)%nat -> ngroups ps2 = ngroups ps1 -> advances ps0 ps2) as Hadv2.
  { intros ps2 Hl2 Hg2. split; [unfold remaining in *; rewrite H0; simpl; lia|]. intros _. rewrite Hg2. auto. }
  destruct inner as [|n inner]; [apply ok_ret; split; [by apply Hadv2|done]|].
  apply ok_bind, peek_ok. destruct (_ =? RPAR); simpl; [|apply fail_ok; split; [by apply Hadv2|done]].
  apply ok_bind, next_ok.
  - intros Hnil. apply ok_bind, new_ok. intros b ps2 Hp2 Hg2. apply ok_ret. unfold atom_post.
    assert (remaining ps2 <= remaining ps1)%nat as Hl2 by (unfold remaining; rewrite Hp2; done).
    split; [by apply Hadv2|]. destruct b; [|done]. unfold remaining in *. rewrite H0. cbn [well_formed].
    unfold well_formed_list in Hwf. rewrite Hwf. split_and!; [lia|done|simpl; lia].
  - intros c' l' Hc. apply ok_bind, new_ok. intros b ps2 Hp2 Hg2. apply ok_ret. unfold atom_post.
    assert (remaining ps2 <= remaining ps1)%nat as Hl2 by (unfold remaining; rewrite Hp2, Hc; simpl; lia).
    split; [by apply Hadv2|]. destruct b; [|done]. unfold remaining in *. rewrite H0. cbn [well_formed].
    unfold well_formed_list in Hwf. rewrite Hwf. split_and!; [lia|done|simpl; lia].
Qed.

Lemma atom_ok ps c l N alt :
  ps_p ps = c :: l -> 0 <= ngroups ps < AIRY_RE_MAX_GROUPS -> (length l <= N)%nat -> (length l <= MAX_NODES)%nat ->
  parses N alt -> ok (airy_re_atom malloc_ok alt c) ps (atom_post ps).
Proof.
  intros Hp Hg HN HM Halt. unfold airy_re_atom.
  assert (forall A (m : M airy_re_parser_t A) Q, ok m (set_p l ps) Q -> ok (airy_re_next ;; m) ps Q) as Hnext.
  { intros A m Q Hm. apply ok_bind, next_ok; [by rewrite Hp|]. intros c' l' Heq. rewrite Hp in Heq. by injection Heq as -> ->. }
  destruct (c =? LPAR); [apply Hnext; by apply (group_ok ps c l _ N)|].
  destruct ((c =? CARET) || (c =? DOLLAR)); [apply Hnext; eapply leaf_ok; [done..|by split]|].
  destruct (c =? DOT); [apply Hnext; eapply leaf_ok; [done..|by split]|].
  destruct (c =? LBRACKET); [apply Hnext; by eapply class_ok|].
  destruct (c =? BACKSLASH).
  { apply Hnext, ok_bind, next_ok; simpl.
    - intros ->. apply fail_ok. split; [|done]. split; unfold remaining; simpl; [lia|done].
    - intros e l' ->. destruct (e <? 0).
      + apply fail_ok. split; [|done]. split; unfold remaining; simpl; [rewrite Hp; simpl; lia|done].
      + eapply ok_conseq; [eapply (char_ok (set_p (c :: l') ps)); done|].
        intros r ps' [[Ha Hb] Hr]. unfold remaining in *. simpl in *. split; [split; unfold remaining; rewrite ?Hp; simpl; [lia|done]|].
        destruct r; [|done]. unfold remaining. rewrite Hp. simpl. split_and!; [tauto|tauto|lia]. }
  case_match; [apply fail_ok; split; [by apply advances_error, advances_refl|done]|]. apply Hnext; by eapply char_ok.
Qed.

(** ** Repetitions and lists *)

Lemma digits_loop_ok l n seen :
  0 <= n ->
  match digits_loop l n seen with
  | Ret (v, l') => (length l' <= length l)%nat /\ (0 <= v \/ v = -1)
  | Undef => True
  | NoFuel => False
  end.
Proof.
  revert n seen. induction l as [|c l IH]; intros n seen Hn; simpl; [split; [done|destruct seen; lia]|].
  destruct (Z.leb_spec DIGIT0 c), (Z.leb_spec c DIGIT9); simpl; try (split; [done|destruct seen; lia]).
  destruct (_ <? _); [done|]. specialize (IH (n * 10 + (c - DIGIT0)) true ltac:(lia)).
  destruct (digits_loop _ _ _) as [[v l']| |]; [|done|done]. split; [lia|tauto].
Qed.

(** The calls that only move the read position. *)
Definition moved (ps ps' : airy_re_parser_t) : Prop :=
  (remaining ps' <= remaining ps)%nat /\ ngroups ps' = ngroups ps.

Lemma moved_advances ps ps' : moved ps ps' -> advances ps ps'.
Proof. intros [Hl Hg]. split; [done|by rewrite Hg]. Qed.

Lemma digits_ok ps (Q : Z -> airy_re_parser_t -> Prop) :
  (forall v ps', moved ps ps' -> 0 <= v \/ v = -1 -> Q v ps') -> ok airy_re_digits ps Q.
Proof.
  intros HQ. unfold ok, airy_re_digits. pose proof (digits_loop_ok (ps_p ps) 0 false ltac:(lia)) as Hd.
  destruct (digits_loop _ _ _) as [[v l]| |]; [|done|done]. apply HQ; [|tauto]. split; [apply Hd|done].
Qed.

Lemma next_moved ps (Q : Z -> airy_re_parser_t -> Prop) :
  (forall v ps', moved ps ps' -> Q v ps') -> ok airy_re_next ps Q.
Proof.
  intros HQ. apply next_ok; intros; apply HQ; [done|]. split; [|done]. unfold remaining. simpl.
  match goal with H : ps_p ps = _ |- _ => rewrite H end. simpl. lia.
Qed.

Lemma bounds_ok ps (Q : option (Z * Z) -> airy_re_parser_t -> Prop) :
  (forall r ps', moved ps ps' -> match r with Some (lo, hi) => 0 <= lo | None => True end -> Q r ps') ->
  ok airy_re_bounds ps Q.
Proof.
  intros HQ. apply ok_bind, digits_ok. intros n ps1 [Hl1 Hg1] Hn.
  destruct (Z.ltb_spec n 0); [apply fail_ok, HQ; [by split|done]|].
  apply ok_bind, peek_ok, ok_bind.
  apply (ok_conseq _ _ (fun _ ps2 => moved ps ps2)).
  - destruct (_ =? COMMA); [|by apply ok_ret]. apply ok_bind, next_moved. intros _ ps2 [Hl2 Hg2].
    apply ok_bind, digits_ok. intros m ps3 [Hl3 Hg3] _. apply ok_ret. split; [lia|congruence].
  - intros hi ps2 Hm2. apply ok_bind, peek_ok.
    destruct (_ =? RBRACE); simpl; [|apply fail_ok, HQ; [apply Hm2|done]].
    apply ok_bind, next_moved. intros _ ps3 [Hl3 Hg3]. apply ok_ret, HQ; [|done].
    destruct Hm2. split; [lia|congruence].
Qed.

Definition node_post (ps : airy_re_parser_t) (r : option airy_re_ast_t) (ps' : airy_re_parser_t) : Prop :=
  advances ps ps' /\ match r with Some n => well_formed n = true | None => True end.

Lemma repeat_ok n ps : well_formed n = true -> atom n = true -> ok (airy_re_repeat malloc_ok n) ps (node_post ps).
Proof.
  intros Hwf Hat. apply ok_bind, peek_ok. generalize (match ps_p ps with [] => -1 | c :: _ => c end). intros q.
  case_match; [apply ok_ret; split; [apply advances_refl|done]|].
  apply ok_bind, next_moved. intros _ ps1 Hm1. apply ok_bind, new_ok. intros b ps2 Hp2 Hg2.
  assert (moved ps ps2) as Hm2 by (destruct Hm1; split; [unfold remaining in *; by rewrite Hp2|congruence]).
  destruct b; simpl; [|apply ok_ret; split; [by apply moved_advances|done]].
  apply ok_bind. apply (ok_conseq _ _ (fun r ps3 => moved ps ps3 /\ match r with Some (lo, hi) => 0 <= lo | None => True end)).
  { destruct (q =? STAR); [by apply ok_ret|]. destruct (q =? PLUS); [by apply ok_ret|].
    destruct (q =? QUEST); [by apply ok_ret|]. apply bounds_ok. intros r ps3 [Hl3 Hg3] Hr.
    split; [|done]. destruct Hm2. split; [lia|congruence]. }
  intros [[lo hi]|] ps3 [Hm3 Hlo]; [|apply ok_ret; split; [by apply moved_advances|done]]. simpl.
  apply ok_bind. unfold airy_re_rep_ok.
  case_match; [apply fail_ok; simpl; apply ok_ret; split; [by apply moved_advances|done]|].
  destruct ((0 <=? hi) && (hi <? lo)) eqn:Hhi; [apply fail_ok; simpl; apply ok_ret; split; [by apply moved_advances|done]|].
  apply ok_ret. simpl. apply ok_bind, peek_ok.
  assert (forall g, well_formed (AIRY_RE_A_REPEAT n lo hi g) = true) as Hw.
  { intros g. cbn [well_formed]. rewrite Hwf, Hat. simpl. lia. }
  case_match; [|apply ok_ret; split; [by apply moved_advances|done]].
  apply ok_bind, next_moved. intros _ ps4 [Hl4 Hg4]. apply ok_ret. split; [|done].
  destruct Hm3. apply moved_advances. split; [lia|congruence].
Qed.

Lemma concat_loop_ok fuel N alt head ps0 ps :
  parses N alt -> (remaining ps <= S N)%nat -> (remaining ps < fuel)%nat ->
  (length head + remaining ps <= MAX_NODES)%nat -> forallb well_formed head = true ->
  advances ps0 ps -> 0 <= ngroups ps < AIRY_RE_MAX_GROUPS ->
  ok (concat_loop malloc_ok fuel alt head) ps (list_post ps0).
Proof.
  intros Halt. revert head ps. induction fuel as [|fuel IH]; intros head ps HN Hf HM Hwf Hadv Hg; [lia|].
  cbn [concat_loop]. apply ok_bind, peek_ok.
  destruct (ps_p ps) as [|c l] eqn:Hp.
  { apply ok_ret. split; [done|]. unfold well_formed_list. rewrite Hwf, andb_true_r. apply Nat.leb_le. lia. }
  unfold remaining in HN, Hf, HM. rewrite Hp in HN, Hf, HM. simpl in HN, Hf, HM.
  case_match. { apply ok_ret. split; [done|]. unfold well_formed_list. rewrite Hwf, andb_true_r. apply Nat.leb_le. lia. }
  apply ok_bind. eapply ok_conseq; [apply (atom_ok ps c l N alt); [done|done|lia|lia|done]|].
  intros [n|] ps1 [Hadv1 Hn]; [|apply ok_ret; split; [by eapply advances_trans|done]].
  destruct Hn as (Hwfn & Hat & Hlt). apply ok_bind. eapply ok_conseq; [by apply repeat_ok|].
  intros [n'|] ps2 [Hadv2 Hn']; (assert (advances ps0 ps2) by (eapply advances_trans; [done|by eapply advances_trans]));
    [|by apply ok_ret].
  destruct Hadv1 as [Hl1 Hg1], Hadv2 as [Hl2 Hg2]. unfold remaining in *. rewrite Hp in *. simpl in *.
  apply IH; unfold remaining; [lia|lia|rewrite length_app; simpl; lia|rewrite forallb_app; cbn; by rewrite Hwf, Hn'|done|auto].
Qed.

Lemma concat_ok N alt : parses N alt -> parses (S N) (airy_re_parse_concat malloc_ok alt).
Proof.
  intros Halt ps HN HM Hg. apply ok_bind, ok_get.
  apply (concat_loop_ok _ N); [done|done|unfold remaining; lia|done|done|apply advances_refl|done].
Qed.

Lemma alt_loop_ok fuel N concat l ps0 ps :
  parses N concat -> (remaining ps <= N)%nat -> (remaining ps < fuel)%nat -> (remaining ps <= MAX_NODES)%nat ->
  well_formed_list l = true -> advances ps0 ps -> 0 <= ngroups ps < AIRY_RE_MAX_GROUPS ->
  ok (alt_loop malloc_ok fuel concat l) ps (list_post ps0).
Proof.
  intros Hcon. revert l ps. induction fuel as [|fuel IH]; intros l ps HN Hf HM Hwf Hadv Hg; [lia|].
  cbn [alt_loop]. apply ok_bind, peek_ok. destruct (ps_p ps) as [|c t] eqn:Hp; [by apply ok_ret|].
  unfold remaining in *. rewrite Hp in HN, Hf, HM. simpl in HN, Hf, HM.
  destruct (c =? BAR); simpl; [|by apply ok_ret].
  apply ok_bind, next_ok; [by rewrite Hp|]. intros c' t' Heq. rewrite Hp in Heq. injection Heq as <- <-.
  apply ok_bind. eapply ok_conseq; [apply Hcon; unfold remaining; simpl; [lia|lia|done]|].
  intros r ps1 [[Hl1 Hg1] Hwf1]. unfold remaining in Hl1. simpl in Hl1, Hg1.
  assert (forall ps2, ps_p ps2 = ps_p ps1 -> ngroups ps2 = ngroups ps1 -> advances ps0 ps2) as Hadv2.
  { intros ps2 Hp2 Hg2. eapply advances_trans; [done|]. split; unfold remaining; rewrite ?Hp2, ?Hp; simpl; [lia|by rewrite Hg2]. }
  destruct r as [|n r]; [apply ok_ret; split; [by apply Hadv2|done]|].
  apply ok_bind, new_ok. intros b ps2 Hp2 Hg2. destruct b; simpl; [|apply ok_ret; split; [by apply Hadv2|done]].
  apply IH; unfold remaining; rewrite ?Hp2; [lia|lia|lia| |by apply Hadv2|rewrite Hg2; auto].
  generalize dependent (n :: r). intros y Hwf1.
  unfold well_formed_list in *. apply andb_prop in Hwf as [Ha Hb], Hwf1 as [Hc Hd].
  cbn [forallb well_formed]. by rewrite Ha, Hb, Hc, Hd.
Qed.

Lemma parse_alt_ok depth : parses depth (airy_re_parse_alt malloc_ok (S depth)).
Proof.
  assert (forall N alt, parses N (airy_re_parse_concat malloc_ok alt) ->
    parses N (l <- airy_re_parse_concat malloc_ok alt ;; ps <- get ;;
      match l, ps_error ps with
      | [], true => ret []
      | _, _ => alt_loop malloc_ok (S (length (ps_p ps))) (airy_re_parse_concat malloc_ok alt) l
      end)) as Hstep.
  { intros N alt Hcon ps HN HM Hg. apply ok_bind. eapply ok_conseq; [by apply Hcon|]. intros l ps1 [Hadv Hwf].
    pose proof Hadv as [Hl Hgr]. apply ok_bind, ok_get.
    assert (ok (alt_loop malloc_ok (S (length (ps_p ps1))) (airy_re_parse_concat malloc_ok alt) l) ps1 (list_post ps)).
    { eapply alt_loop_ok; [done|lia|unfold remaining; lia|lia|done|done|auto]. }
    destruct l, (ps_error ps1); try done. }
  induction depth as [|depth IH]; apply Hstep.
  - intros ps HN HM Hg. apply ok_bind, ok_get. cbn [concat_loop]. apply ok_bind, peek_ok.
    unfold remaining in HN. destruct (ps_p ps); [|simpl in HN; lia]. apply ok_ret. split; [apply advances_refl|done].
  - apply concat_ok, IH.
Qed.

(** The parser returns on every pattern (or overflows an [int] while reading a
    bound), and its trees are well formed on patterns of at most [MAX_NODES]
    characters. *)
Lemma parse_pattern_ok pattern :
  (length pattern <= MAX_NODES)%nat ->
  match parse_pattern malloc_ok pattern with
  | Ret (root, ps) => well_formed_list root = true /\ 0 <= ngroups ps < AIRY_RE_MAX_GROUPS
  | Undef => True
  | NoFuel => False
  end.
Proof.
  intros Hlen. pose proof (parse_alt_ok (length pattern) (Parser pattern 0 false 0)) as H.
  unfold ok, parse_pattern in *. destruct (airy_re_parse_alt _ _ _) as [[root ps]| |];
    [|done|apply H; [done|done|unfold AIRY_RE_MAX_GROUPS; simpl; lia]].
  destruct H as [[_ Hg] Hwf]; [done|done|unfold AIRY_RE_MAX_GROUPS; simpl; lia|].
  split; [done|]. apply Hg. unfold AIRY_RE_MAX_GROUPS. simpl. lia.
Qed.

End invariant.

(** ** Extended regular expressions *)

Inductive citem := CChar (x : Z) | CRange (x y : Z).

Inductive quant :=
| QStar | QPlus | QOpt | QExact (n : Z) | QAtLeast (n : Z) | QBetween (n m : Z).

(** A group has alternatives, each of them a sequence. *)
Inductive ere :=
| EChar (x : Z)
| EAny
| EClass (neg : bool) (items : list citem)
| EBol
| EEol
| ERep (e : ere) (q : quant) (greedy : bool)
| EGroup (bs : list (list ere)).

Lemma ere_ind' (P : ere -> Prop) :
  (forall x, P (EChar x)) -> P EAny -> (forall neg items, P (EClass neg items)) -> P EBol -> P EEol ->
  (forall e q g, P e -> P (ERep e q g)) -> (forall bs, Forall (Forall P) bs -> P (EGroup bs)) -> forall e, P e.
Proof.
  intros Hc Ha Hcl Hb He Hr Hg. fix IH 1. intros [].
  - apply Hc.
  - apply Ha.
  - apply Hcl.
  - apply Hb.
  - apply He.
  - apply Hr, IH.
  - apply Hg. induction bs as [|b bs IHbs]; constructor; [|done]. induction b as [|e b IHb]; constructor; auto.
Qed.

Definition q_lo (q : quant) : Z :=
  match q with QStar => 0 | QPlus => 1 | QOpt => 0 | QExact n => n | QAtLeast n => n | QBetween n _ => n end.
Definition q_hi (q : quant) : Z :=
  match q with QStar => -1 | QPlus => -1 | QOpt => 1 | QExact n => n | QAtLeast _ => -1 | QBetween _ m => m end.

(** *** Printing *)

Definition is_meta (x : Z) : bool :=
  bool_decide (x ∈ [LPAR; RPAR; STAR; PLUS; DOT; QUEST; LBRACKET; BACKSLASH; CARET; DOLLAR; LBRACE; BAR; RBRACE]).
Definition class_meta (x : Z) : bool := bool_decide (x ∈ [RBRACKET; BACKSLASH; CARET; DASH]).

Definition print_char (x : Z) : cstr := if is_meta x then [BACKSLASH; x] else [x].
Definition print_item (it : citem) : cstr :=
  match it with
  | CChar x => if class_meta x then [BACKSLASH; x] else [x]
  | CRange x y => [x; DASH; y]
  end.

Definition print_quant (q : quant) : cstr :=
  match q with
  | QStar => [STAR]
  | QPlus => [PLUS]
  | QOpt => [QUEST]
  | QExact n => LBRACE :: fmt_u n ++ [RBRACE]
  | QAtLeast n => LBRACE :: fmt_u n ++ [COMMA; RBRACE]
  | QBetween n m => LBRACE :: fmt_u n ++ COMMA :: fmt_u m ++ [RBRACE]
  end.

(** [join b bs]: the alternatives after the first have a bar in front. *)
Definition print_branches (print : ere -> cstr) (bs : list (list ere)) : cstr :=
  match map (fun b => concat (map print b)) bs with
  | [] => []
  | b :: bs => b ++ concat (map (cons BAR) bs)
  end.

Fixpoint print (e : ere) : cstr :=
  match e with
  | EChar x => print_char x
  | EAny => [DOT]
  | EClass neg items => LBRACKET :: (if neg then [CARET] else []) ++ concat (map print_item items) ++ [RBRACKET]
  | EBol => [CARET]
  | EEol => [DOLLAR]
  | ERep e q greedy => print e ++ print_quant q ++ (if greedy then [] else [QUEST])
  | EGroup bs => LPAR :: print_branches print bs ++ [RPAR]
  end.

Abbreviation print_seq b := (concat (map print b)).
Abbreviation print_alts := (print_branches print).

(** *** The trees of the parser *)

Section numbered.
Context {A B : Type} (f : A -> Z -> B * Z).

(** From left to right, with the number of groups so far. *)
Fixpoint numbered (l : list A) (n : Z) : list B * Z :=
  match l with
  | [] => ([], n)
  | x :: l => let (y, n) := f x n in let (ys, n) := numbered l n in (y :: ys, n)
  end.

End numbered.

Definition add_item (tbl : list Z) (it : citem) : list Z :=
  match it with CChar x => tbl_set tbl x | CRange x y => tbl_set_range tbl x y end.

Definition class_table (neg : bool) (items : list citem) : list Z :=
  let tbl := fold_left add_item items (replicate 32 0) in
  if neg then map (fun b => u8 (Z.lnot b)) tbl else tbl.

Definition join_alts (ls : list (list airy_re_ast_t)) : list airy_re_ast_t :=
  match ls with [] => [] | l :: ls => fold_left (fun x y => [AIRY_RE_A_ALT x y]) ls l end.

Fixpoint elab (e : ere) (n : Z) : airy_re_ast_t * Z :=
  match e with
  | EChar x => (AIRY_RE_A_CHAR x, n)
  | EAny => (AIRY_RE_A_ANY, n)
  | EClass neg items => (AIRY_RE_A_CLASS (class_table neg items), n)
  | EBol => (AIRY_RE_A_ANCHOR CARET, n)
  | EEol => (AIRY_RE_A_ANCHOR DOLLAR, n)
  | ERep e q greedy => let (x, n) := elab e n in (AIRY_RE_A_REPEAT x (q_lo q) (q_hi q) greedy, n)
  | EGroup bs => let (ls, m) := numbered (numbered elab) bs (n + 1) in (AIRY_RE_A_GROUP (join_alts ls) (n + 1), m)
  end.

Definition elab_alts (bs : list (list ere)) (n : Z) : list airy_re_ast_t * Z :=
  let (ls, n) := numbered (numbered elab) bs n in (join_alts ls, n).

(** *** What can be printed *)

Definition item_ok (it : citem) : bool :=
  match it with
  | CChar x => bool_decide (is_char x)
  | CRange x y =>
      (0 <? x) && (x <=? y) && (y <? 128) && negb (class_meta x) && negb (y =? RBRACKET)
  end.

Definition quant_ok (q : quant) : bool :=
  match q with
  | QStar | QPlus | QOpt => true
  | QExact n | QAtLeast n => (0 <=? n) && (n <=? AIRY_RE_MAX_BODY)
  | QBetween n m => (0 <=? n) && (n <=? m) && (m <=? AIRY_RE_MAX_BODY)
  end.

Definition is_atom (e : ere) : bool := match e with ERep _ _ _ => false | _ => true end.
Definition nonempty {A} (l : list A) : bool := match l with [] => false | _ => true end.

Fixpoint ere_ok (e : ere) : bool :=
  match e with
  | EChar x => bool_decide (is_char x)
  | EAny | EBol | EEol => true
  | EClass _ items => forallb item_ok items
  | ERep e q _ => is_atom e && ere_ok e && quant_ok q
  | EGroup bs => nonempty bs && forallb (fun b => nonempty b && forallb ere_ok b) bs
  end.

Definition alts_ok (bs : list (list ere)) : bool :=
  nonempty bs && forallb (fun b => nonempty b && forallb ere_ok b) bs.

(** ** The parser reads what is printed *)

(** *** Numbers and repetitions *)

Definition is_digit (x : Z) : bool := (DIGIT0 <=? x) && (x <=? DIGIT9).
Definition dec_value (acc : Z) (l : cstr) : Z := fold_left (fun n x => n * 10 + (x - DIGIT0)) l acc.

Lemma dec_value_mono acc l : 0 <= acc -> forallb is_digit l = true -> acc <= dec_value acc l.
Proof.
  revert acc. induction l as [|x l IH]; intros acc Hacc; simpl; [lia|]. unfold is_digit. intros [Hx Hl]%andb_prop.
  transitivity (acc * 10 + (x - DIGIT0)); [lia|]. apply IH; [lia|done].
Qed.

Definition no_digit (rest : cstr) : Prop := match rest with x :: _ => is_digit x = false | [] => True end.

Lemma digits_loop_read l acc seen rest :
  0 <= acc -> forallb is_digit l = true -> dec_value acc l <= INT_MAX -> no_digit rest -> l <> [] \/ seen = true ->
  digits_loop (l ++ rest) acc seen = Ret (dec_value acc l, rest).
Proof.
  intros Hacc Hl Hmax Hr. revert acc seen Hacc Hl Hmax. induction l as [|x l IH]; intros acc seen Hacc Hl Hmax Hs.
  - destruct Hs as [?| ->]; [done|]. destruct rest as [|y rest]; [done|]. simpl in *. unfold is_digit in Hr. by rewrite Hr.
  - simpl in *. apply andb_prop in Hl as [Hx Hl]. pose proof Hx as Hx'. unfold is_digit in Hx. rewrite Hx.
    pose proof (dec_value_mono (acc * 10 + (x - DIGIT0)) l ltac:(lia) Hl). unfold dec_value in *. simpl in *.
    destruct (Z.ltb_spec INT_MAX (acc * 10 + (x - DIGIT0))); [lia|]. apply IH; [lia|done|done|by right].
Qed.

Definition small_number (n : Z) : bool :=
  forallb is_digit (fmt_u n) && (dec_value 0 (fmt_u n) =? n) && nonempty (fmt_u n).

Lemma small_numbers n : 0 <= n <= AIRY_RE_MAX_BODY -> small_number n = true.
Proof.
  intros Hn. assert (forallb small_number (seqZ 0 257) = true) as Hall by (vm_compute; reflexivity).
  rewrite forallb_forall in Hall. apply Hall, list_elem_of_In, elem_of_seqZ. unfold AIRY_RE_MAX_BODY in Hn. lia.
Qed.

Lemma digits_read n rest g k :
  0 <= n <= AIRY_RE_MAX_BODY -> no_digit rest ->
  airy_re_digits (Parser (fmt_u n ++ rest) g false k) = Ret (n, Parser rest g false k).
Proof.
  intros Hn Hr. pose proof (small_numbers n Hn) as Hs. unfold small_number in Hs.
  apply andb_prop in Hs as [[Hd Hv%Z.eqb_eq]%andb_prop Hne]. unfold airy_re_digits. simpl.
  rewrite digits_loop_read; [by rewrite Hv|lia|done| |done|left; by destruct (fmt_u n)].
  rewrite Hv. unfold INT_MAX, AIRY_RE_MAX_BODY in *. lia.
Qed.

(** What may follow an element, so that it is not read as a repetition of it. *)
Definition follow_ok (rest : cstr) : Prop :=
  match rest with x :: _ => x <> STAR /\ x <> PLUS /\ x <> QUEST /\ x <> LBRACE | [] => True end.

Lemma bounds_read q rest g k t :
  quant_ok q = true -> print_quant q = LBRACE :: t ->
  airy_re_bounds (Parser (t ++ rest) g false k) = Ret (Some (q_lo q, q_hi q), Parser rest g false k).
Proof.
  intros Hq Ht. unfold airy_re_bounds, bind.
  destruct q as [| | |n|n|n m]; simpl in Ht; try discriminate; injection Ht as <-; simpl in Hq.
  - rewrite <- app_assoc, digits_read by (try done; lia). rewrite (proj2 (Z.ltb_ge n 0)) by lia. done.
  - rewrite <- app_assoc, digits_read by (try done; lia). rewrite (proj2 (Z.ltb_ge n 0)) by lia. done.
  - rewrite <- app_assoc, digits_read by (try done; lia). rewrite (proj2 (Z.ltb_ge n 0)) by lia.
    unfold airy_re_peek, airy_re_next, bind, get. simpl. rewrite <- app_assoc. simpl.
    change (set_p (fmt_u m ++ RBRACE :: rest) _) with (Parser (fmt_u m ++ RBRACE :: rest) g false k).
    rewrite digits_read by (try done; lia). simpl. by rewrite (proj2 (Z.leb_le 0 m)) by lia.
Qed.

Section roundtrip.
Variable malloc_ok : nat -> bool.
Hypothesis memory : forall n, malloc_ok n = true.

Lemma new_read ps :
  airy_re_ast_new malloc_ok ps = Ret (true, Parser (ps_p ps) (ngroups ps) (ps_error ps) (S (nodes ps))).
Proof. unfold airy_re_ast_new. by rewrite memory. Qed.

Lemma no_repeat n rest g k :
  follow_ok rest -> airy_re_repeat malloc_ok n (Parser rest g false k) = Ret (Some n, Parser rest g false k).
Proof.
  intros Hf. unfold airy_re_repeat, airy_re_peek, bind, get, ret. simpl. destruct rest as [|x rest]; [done|].
  destruct Hf as (H1 & H2 & H3 & H4). by rewrite !(proj2 (Z.eqb_neq _ _)) by done.
Qed.

Lemma rep_ok_read q ps : quant_ok q = true -> airy_re_rep_ok (q_lo q) (q_hi q) ps = Ret (true, ps).
Proof.
  intros Hq. unfold airy_re_rep_ok.
  assert (q_lo q <= AIRY_RE_MAX_BODY /\ q_hi q <= AIRY_RE_MAX_BODY /\ (q_hi q < 0 \/ q_lo q <= q_hi q)) as (H1 & H2 & H3).
  { destruct q; simpl in *; unfold AIRY_RE_MAX_BODY in *; lia. }
  rewrite (proj2 (Z.ltb_ge AIRY_RE_MAX_BODY (q_lo q))), (proj2 (Z.ltb_ge AIRY_RE_MAX_BODY (q_hi q))) by done.
  rewrite andb_false_r. simpl. destruct (Z.leb_spec 0 (q_hi q)), (Z.ltb_spec (q_hi q) (q_lo q)); simpl; try done; lia.
Qed.

(** The mark of the non-greedy form. *)
Lemma greedy_read n lo hi (greedy : bool) rest g k :
  follow_ok rest ->
  (ch <- airy_re_peek ;;
   if ch =? QUEST then airy_re_next ;; ret (Some (AIRY_RE_A_REPEAT n lo hi false))
   else ret (Some (AIRY_RE_A_REPEAT n lo hi true))) (Parser ((if greedy then [] else [QUEST]) ++ rest) g false k) =
  Ret (Some (AIRY_RE_A_REPEAT n lo hi greedy), Parser rest g false k).
Proof.
  intros Hf. unfold airy_re_peek, airy_re_next, bind, get, ret. destruct greedy; simpl; [|done].
  destruct rest as [|x rest]; [done|]. destruct Hf as (_ & _ & H3 & _). by rewrite (proj2 (Z.eqb_neq _ _)) by done.
Qed.

Lemma repeat_read n q (greedy : bool) rest g k :
  quant_ok q = true -> follow_ok rest ->
  airy_re_repeat malloc_ok n (Parser (print_quant q ++ (if greedy then [] else [QUEST]) ++ rest) g false k) =
  Ret (Some (AIRY_RE_A_REPEAT n (q_lo q) (q_hi q) greedy), Parser rest g false (S k)).
Proof.
  intros Hq Hf. set (tail := (if greedy then [] else [QUEST]) ++ rest).
  unfold airy_re_repeat, bind at 1. destruct (print_quant q) as [|c t] eqn:Ht; [by destruct q|].
  simpl. unfold bind at 1.
  assert ((c = STAR /\ q = QStar \/ c = PLUS /\ q = QPlus \/ c = QUEST /\ q = QOpt) /\ t = [] \/ c = LBRACE) as Hc.
  { destruct q; simpl in Ht; injection Ht as <- <-; auto 10. }
  pose proof (rep_ok_read q) as Hrep.
  destruct Hc as [[[[-> ->]|[[-> ->]|[-> ->]]] ->]| ->]; simpl; unfold bind at 1; rewrite new_read; simpl.
  1-3: unfold bind at 1, ret at 1; simpl; unfold bind at 1; rewrite Hrep by done; simpl; by apply greedy_read.
  unfold bind at 1. rewrite (bounds_read q _ _ _ t) by done. unfold bind at 1. simpl.
  rewrite Hrep by done. simpl. by apply greedy_read.
Qed.

(** *** Classes *)

Definition item_follow (rest : cstr) : Prop := match rest with x :: _ => x <> DASH | [] => False end.

Lemma class_meta_false x : class_meta x = false -> x <> RBRACKET /\ x <> BACKSLASH /\ x <> CARET /\ x <> DASH.
Proof. unfold class_meta. intros H%bool_decide_eq_false. rewrite !not_elem_of_cons in H. tauto. Qed.

Lemma item_read it tbl rest :
  item_ok it = true -> item_follow rest ->
  class_loop (print_item it ++ rest) tbl = class_loop rest (add_item tbl it).
Proof.
  intros Hok Hf. destruct rest as [|d rest]; [done|]. simpl in Hf. destruct it as [x|x y]; simpl.
  - destruct (class_meta x) eqn:Hm; [done|]. apply class_meta_false in Hm as (H1 & H2 & _ & _). simpl.
    rewrite !(proj2 (Z.eqb_neq x _)) by done. destruct rest; [done|]. by rewrite (proj2 (Z.eqb_neq d _)) by done.
  - simpl in Hok. rewrite !andb_true_iff in Hok. destruct Hok as [[[[H1 H2] H3] Hm%negb_true_iff] Hy%negb_true_iff].
    apply class_meta_false in Hm as (H4 & H5 & _ & _). rewrite !(proj2 (Z.eqb_neq x _)) by done. rewrite Hy. simpl.
    replace (s8 y) with y by (unfold s8; rewrite Z.mod_small; lia). destruct (Z.ltb_spec y x); [lia|done].
Qed.

Lemma items_read items tbl rest :
  forallb item_ok items = true ->
  class_loop (concat (map print_item items) ++ RBRACKET :: rest) tbl = (Some (fold_left add_item items tbl), rest).
Proof.
  revert tbl. induction items as [|it items IH]; intros tbl; [done|]. simpl. intros [Hit Hits]%andb_prop.
  rewrite <- app_assoc, item_read; [by apply IH|done|].
  destruct items as [|[x|x y] items]; simpl; [done|..].
  - destruct (class_meta x) eqn:Hm; simpl; [done|]. apply class_meta_false in Hm. tauto.
  - simpl in Hits. rewrite !andb_true_iff in Hits. destruct Hits as [[[_ Hm%negb_true_iff] _] _]. apply class_meta_false in Hm. tauto.
Qed.

Lemma class_read (neg : bool) items rest g k :
  forallb item_ok items = true ->
  airy_re_class malloc_ok
    (Parser ((if neg then [CARET] else []) ++ concat (map print_item items) ++ RBRACKET :: rest) g false k) =
  Ret (Some (AIRY_RE_A_CLASS (class_table neg items)), Parser rest g false (S k)).
Proof.
  intros Hok. unfold airy_re_class, airy_re_peek, bind at 1, bind at 1, get at 1. simpl.
  assert (forall ps, ps = Parser (concat (map print_item items) ++ RBRACKET :: rest) g false k ->
    (b <- airy_re_ast_new malloc_ok ;; if negb b then ret None
     else tbl <-? airy_re_parse_class_body neg ;; ret (Some (AIRY_RE_A_CLASS tbl))) ps =
    Ret (Some (AIRY_RE_A_CLASS (class_table neg items)), Parser rest g false (S k))) as Hbody.
  { intros ps ->. unfold bind at 1. rewrite new_read. simpl. unfold bind at 1, airy_re_parse_class_body, bind at 1, get at 1.
    simpl. by rewrite items_read. }
  destruct neg; simpl.
  - unfold bind at 1, airy_re_next, bind at 1, bind at 1, get at 1. simpl. by apply Hbody.
  - assert ((match concat (map print_item items) ++ RBRACKET :: rest with [] => -1 | c :: _ => c end =? CARET) = false) as ->.
    { destruct items as [|[x|x y] items]; simpl; [done|..].
      - destruct (class_meta x) eqn:Hm; simpl; [done|]. apply class_meta_false in Hm. apply Z.eqb_neq. tauto.
      - simpl in Hok. rewrite !andb_true_iff in Hok. destruct Hok as [[[_ Hm%negb_true_iff] _] _].
        apply class_meta_false in Hm. apply Z.eqb_neq. tauto. }
    unfold bind at 1, ret at 1. by apply Hbody.
Qed.

(** *** Elements *)

Lemma is_meta_false x : is_meta x = false ->
  Forall (fun y => x <> y) [LPAR; RPAR; STAR; PLUS; DOT; QUEST; LBRACKET; BACKSLASH; CARET; DOLLAR; LBRACE; BAR; RBRACE].
Proof.
  unfold is_meta. intros H%bool_decide_eq_false. apply Forall_forall. intros y Hy ->. done.
Qed.

(** The first character of an element is none of those that end a sequence or
    repeat. *)
Definition head_ok (l : cstr) : Prop :=
  match l with
  | x :: _ => 0 < x /\ x <> RPAR /\ x <> BAR /\ x <> STAR /\ x <> PLUS /\ x <> QUEST /\ x <> LBRACE
  | [] => False
  end.

Lemma head_ok_app l rest : head_ok l -> head_ok (l ++ rest).
Proof. by destruct l. Qed.

Lemma print_head e : ere_ok e = true -> head_ok (print e).
Proof.
  induction e as [x| |neg items| | |e q g IH|bs _] using ere_ind'; simpl; intros Hok; try (split_and!; lia).
  - unfold print_char. destruct (is_meta x) eqn:Hm; simpl; [split_and!; lia|]. apply is_meta_false in Hm.
    apply bool_decide_eq_true in Hok. unfold is_char in Hok. rewrite !Forall_cons in Hm. split_and!; [lia|tauto..].
  - rewrite !andb_true_iff in Hok. apply head_ok_app, IH, Hok.
Qed.

Definition elem_first (e : ere) : Z := hd (-1) (print e).

(** The atom at the read position. *)
Definition atom_reads (d : nat) (e : ere) : Prop :=
  forall rest n k, 0 <= n -> (elab e n).2 < AIRY_RE_MAX_GROUPS -> (length (print e) <= d)%nat ->
  exists k', airy_re_atom malloc_ok (airy_re_parse_alt malloc_ok d) (elem_first e) (Parser (print e ++ rest) n false k) =
    Ret (Some (elab e n).1, Parser rest (elab e n).2 false k').

(** An element of a sequence: an atom and its repetition. *)
Definition elem_reads (d : nat) (e : ere) : Prop :=
  forall rest n k, follow_ok rest -> 0 <= n -> (elab e n).2 < AIRY_RE_MAX_GROUPS -> (length (print e) <= d)%nat ->
  exists x ps k', airy_re_atom malloc_ok (airy_re_parse_alt malloc_ok d) (elem_first e) (Parser (print e ++ rest) n false k) =
      Ret (Some x, ps) /\
    airy_re_repeat malloc_ok x ps = Ret (Some (elab e n).1, Parser rest (elab e n).2 false k').

Lemma atom_elem d e : atom_reads d e -> elem_reads d e.
Proof.
  intros Ha rest n k Hf Hn Hg Hd. destruct (Ha rest n k Hn Hg Hd) as [k' He].
  eexists _, _, k'. split; [exact He|by apply no_repeat].
Qed.

Lemma rep_elem d e q g : ere_ok e = true -> quant_ok q = true -> atom_reads d e -> elem_reads d (ERep e q g).
Proof.
  intros Hok Hq Ha rest n k Hf Hn Hg Hd. cbn [elab print] in *. destruct (elab e n) as [x n'] eqn:He. simpl in Hg.
  rewrite !length_app in Hd.
  destruct (Ha (print_quant q ++ (if g then [] else [QUEST]) ++ rest) n k Hn) as [k' Hr]; [by rewrite He|lia|].
  rewrite He in Hr. simpl in Hr. exists x, (Parser (print_quant q ++ (if g then [] else [QUEST]) ++ rest) n' false k'), (S k').
  split; [|by apply repeat_read]. unfold elem_first in *. cbn [print]. rewrite <- !app_assoc.
  pose proof (print_head e Hok) as Hh. destruct (print e) as [|c t]; [done|]. exact Hr.
Qed.

Lemma bind_eq {A B} (m : M airy_re_parser_t A) (kont : A -> M airy_re_parser_t B) ps r ps' :
  m ps = Ret (r, ps') -> bind m kont ps = kont r ps'.
Proof. intros H. unfold bind. by rewrite H. Qed.

Lemma next_read x l g er k : airy_re_next (Parser (x :: l) g er k) = Ret (x, Parser l g er k).
Proof. done. Qed.

Lemma peek_read x l g er k : airy_re_peek (Parser (x :: l) g er k) = Ret (x, Parser (x :: l) g er k).
Proof. done. Qed.

Lemma char_reads d x : is_char x -> atom_reads d (EChar x).
Proof.
  intros Hx rest n k Hn Hg Hd. exists (S k). unfold is_char in Hx. unfold elem_first. cbn [print elab]. unfold print_char.
  destruct (is_meta x) eqn:Hm; cbn [hd app].
  - change (airy_re_atom malloc_ok (airy_re_parse_alt malloc_ok d) BACKSLASH) with (airy_re_next ;; airy_re_escape malloc_ok).
    rewrite (bind_eq _ _ _ _ _ (next_read _ _ _ _ _)). unfold airy_re_escape.
    rewrite (bind_eq _ _ _ _ _ (next_read _ _ _ _ _)). destruct (Z.ltb_spec x 0); [lia|].
    unfold airy_re_char. by rewrite (bind_eq _ _ _ _ _ (new_read _)).
  - apply is_meta_false in Hm. rewrite !Forall_cons in Hm. unfold airy_re_atom.
    rewrite !(proj2 (Z.eqb_neq x _)) by tauto. cbn [orb].
    rewrite (bind_eq _ _ _ _ _ (next_read _ _ _ _ _)). unfold airy_re_char. by rewrite (bind_eq _ _ _ _ _ (new_read _)).
Qed.

Lemma leaf_reads d e c x :
  print e = [c] -> (forall n, elab e n = (x, n)) ->
  (forall alt, airy_re_atom malloc_ok alt c =
     (airy_re_next ;; b <- airy_re_ast_new malloc_ok ;; ret (if b then Some x else None))) -> atom_reads d e.
Proof.
  intros Hp He Hat rest n k Hn Hg Hd. exists (S k). unfold elem_first. rewrite Hp, He. cbn [hd app]. rewrite Hat.
  rewrite (bind_eq _ _ _ _ _ (next_read _ _ _ _ _)). by rewrite (bind_eq _ _ _ _ _ (new_read _)).
Qed.

Lemma class_reads d neg items : forallb item_ok items = true -> atom_reads d (EClass neg items).
Proof.
  intros Hok rest n k Hn Hg Hd. exists (S k). unfold elem_first. cbn [print elab hd app].
  change (airy_re_atom malloc_ok (airy_re_parse_alt malloc_ok d) LBRACKET) with (airy_re_next ;; airy_re_class malloc_ok).
  rewrite (bind_eq _ _ _ _ _ (next_read _ _ _ _ _)). rewrite <- !app_assoc. by apply class_read.
Qed.

(** *** Sequences and alternatives *)

(** What ends a sequence. *)
Definition seq_end (rest : cstr) : Prop := match rest with x :: _ => x = RPAR \/ x = BAR | [] => True end.

Lemma seq_end_follow rest : seq_end rest -> follow_ok rest.
Proof. destruct rest as [|x rest]; [done|]. intros [->| ->]; done. Qed.

Lemma seq_follow b rest : forallb ere_ok b = true -> seq_end rest -> follow_ok (print_seq b ++ rest).
Proof.
  intros Hok Hr. destruct b as [|e b]; [by apply seq_end_follow|]. simpl in *. apply andb_prop in Hok as [He _].
  pose proof (print_head e He) as Hh. destruct (print e) as [|c t]; [done|]. simpl in *. tauto.
Qed.

Lemma numbered_le {A B} (f : A -> Z -> B * Z) l n :
  Forall (fun x => forall n, n <= (f x n).2) l -> n <= (numbered f l n).2.
Proof.
  revert n. induction l as [|x l IH]; intros n Hl; simpl; [lia|]. apply Forall_cons in Hl as [Hx Hl].
  specialize (Hx n). destruct (f x n) as [y n1]. specialize (IH n1 Hl). destruct (numbered f l n1) as [ys n2]. simpl in *. lia.
Qed.

Lemma elab_le e n : n <= (elab e n).2.
Proof.
  revert n. induction e as [x| |neg items| | |e q g IH|bs IH] using ere_ind'; intros n; simpl; try lia.
  - specialize (IH n). by destruct (elab e n).
  - assert (n + 1 <= (numbered (numbered elab) bs (n + 1)).2).
    { apply numbered_le. eapply Forall_impl; [exact IH|]. intros b Hb m. by apply numbered_le. }
    destruct (numbered _ bs (n + 1)). simpl in *. lia.
Qed.

Lemma concat_reads d fuel b head rest n k :
  Forall (elem_reads d) b -> forallb ere_ok b = true -> seq_end rest -> 0 <= n ->
  (numbered elab b n).2 < AIRY_RE_MAX_GROUPS -> (length (print_seq b) <= d)%nat -> (length b < fuel)%nat ->
  exists k', concat_loop malloc_ok fuel (airy_re_parse_alt malloc_ok d) head (Parser (print_seq b ++ rest) n false k) =
    Ret (head ++ (numbered elab b n).1, Parser rest (numbered elab b n).2 false k').
Proof.
  intros Hall. revert fuel head n k. induction b as [|e b IH]; intros fuel head n k Hok Hr Hn Hg Hd Hf.
  - destruct fuel as [|fuel]; [lia|]. exists k. simpl. rewrite app_nil_r.
    unfold airy_re_peek, bind, get, ret. simpl. destruct rest as [|x rest]; [done|].
    by destruct Hr as [->| ->].
  - destruct fuel as [|fuel]; [simpl in Hf; lia|]. apply Forall_cons in Hall as [He Hb].
    cbn [forallb numbered map concat] in *. apply andb_prop in Hok as [Hoke Hokb]. rewrite length_app in Hd.
    pose proof (elab_le e n) as Hle.
    destruct (elab e n) as [x n1] eqn:Hx. simpl in Hle.
    assert (n1 <= (numbered elab b n1).2) as Hle1.
    { apply numbered_le, Forall_forall. intros; apply elab_le. }
    destruct (numbered elab b n1) as [xs n2] eqn:Hxs. simpl in Hg, Hle1.
    destruct (He (print_seq b ++ rest) n k) as (y & ps & k1 & Ha & Hrep);
      [by apply seq_follow|done|rewrite Hx; simpl; lia|lia|].
    rewrite Hx in Hrep. simpl in Hrep. rewrite <- app_assoc. cbn [concat_loop].
    pose proof (print_head e Hoke) as Hh. unfold elem_first in Ha. destruct (print e) as [|c t]; [done|].
    cbn [hd app] in *. rewrite (bind_eq _ _ _ _ _ (peek_read _ _ _ _ _)). destruct Hh as (H0 & H1 & H2 & _).
    rewrite (proj2 (Z.ltb_ge c 0)), !(proj2 (Z.eqb_neq c _)) by (done || lia). change (false || false || false) with false. cbv iota.
    rewrite (bind_eq _ _ _ _ _ Ha), (bind_eq _ _ _ _ _ Hrep).
    destruct (IH Hb fuel (head ++ [x]) n1 k1) as [k2 IH2]; [done|done|lia|by rewrite Hxs|lia|simpl in Hf; lia|].
    exists k2. rewrite IH2, Hxs, <- app_assoc. done.
Qed.

Definition branch_ok (b : list ere) : bool := nonempty b && forallb ere_ok b.

Lemma print_seq_length b : forallb ere_ok b = true -> (length b <= length (print_seq b))%nat.
Proof.
  induction b as [|e b IH]; simpl; [lia|]. intros [He Hb]%andb_prop. rewrite length_app.
  pose proof (print_head e He). destruct (print e); [done|]. simpl. specialize (IH Hb). lia.
Qed.

Lemma branch_reads d b rest n k :
  Forall (elem_reads d) b -> branch_ok b = true -> seq_end rest -> 0 <= n ->
  (numbered elab b n).2 < AIRY_RE_MAX_GROUPS -> (length (print_seq b) <= d)%nat ->
  exists k', airy_re_parse_concat malloc_ok (airy_re_parse_alt malloc_ok d) (Parser (print_seq b ++ rest) n false k) =
    Ret ((numbered elab b n).1, Parser rest (numbered elab b n).2 false k').
Proof.
  intros Hall [Hne Hok]%andb_prop Hr Hn Hg Hd. unfold airy_re_parse_concat, bind at 1, get at 1. cbn [ps_p].
  apply concat_reads; try done. rewrite length_app. pose proof (print_seq_length b Hok). lia.
Qed.

Lemma numbered_nonempty b n : branch_ok b = true -> (numbered elab b n).1 <> [].
Proof.
  destruct b as [|e b]; [done|]. intros _. simpl. destruct (elab e n) as [x n1]. by destruct (numbered elab b n1).
Qed.

Definition alts_end (rest : cstr) : Prop := match rest with x :: _ => x = RPAR | [] => True end.

Lemma alt_loop_reads d fuel bs l rest n k :
  Forall (Forall (elem_reads d)) bs -> forallb branch_ok bs = true -> alts_end rest -> 0 <= n ->
  (numbered (numbered elab) bs n).2 < AIRY_RE_MAX_GROUPS ->
  (length (concat (map (cons BAR) (map (fun b => print_seq b) bs))) <= d)%nat -> (length bs < fuel)%nat ->
  exists k', alt_loop malloc_ok fuel (airy_re_parse_concat malloc_ok (airy_re_parse_alt malloc_ok d)) l
      (Parser (concat (map (cons BAR) (map (fun b => print_seq b) bs)) ++ rest) n false k) =
    Ret (fold_left (fun x y => [AIRY_RE_A_ALT x y]) (numbered (numbered elab) bs n).1 l,
         Parser rest (numbered (numbered elab) bs n).2 false k').
Proof.
  intros Hall. revert fuel l n k. induction bs as [|b bs IH]; intros fuel l n k Hok Hr Hn Hg Hd Hf.
  - destruct fuel as [|fuel]; [lia|]. exists k. simpl. unfold airy_re_peek, bind, get, ret. simpl.
    destruct rest as [|x rest]; [done|]. simpl in Hr. by subst x.
  - destruct fuel as [|fuel]; [simpl in Hf; lia|]. apply Forall_cons in Hall as [Hb Hbs].
    cbn [forallb numbered map concat] in *. apply andb_prop in Hok as [Hokb Hokbs].
    rewrite length_app in Hd. cbn [length] in Hd.
    assert (n <= (numbered elab b n).2) as Hle by (apply numbered_le, Forall_forall; intros; apply elab_le).
    pose proof (numbered_nonempty b n Hokb) as Hne.
    pose proof (fun k rest H => branch_reads d b rest n k Hb Hokb H Hn) as Hread.
    destruct (numbered elab b n) as [xs n1] eqn:Hxs. simpl in Hle, Hne, Hread.
    assert (n1 <= (numbered (numbered elab) bs n1).2) as Hle1.
    { apply numbered_le, Forall_forall. intros y _ m. apply numbered_le, Forall_forall. intros; apply elab_le. }
    destruct (numbered (numbered elab) bs n1) as [ls n2] eqn:Hls. simpl in Hg, Hle1.
    rewrite <- app_assoc. cbn [alt_loop app]. rewrite (bind_eq _ _ _ _ _ (peek_read _ _ _ _ _)).
    change (negb (BAR =? BAR)) with false. cbv iota.
    rewrite (bind_eq _ _ _ _ _ (next_read _ _ _ _ _)).
    destruct (Hread k (concat (map (cons BAR) (map (fun b => print_seq b) bs)) ++ rest)) as [k1 Hr1]; [|lia|lia|].
    { destruct bs; simpl; [destruct rest; [done|by left]|by right]. }
    rewrite (bind_eq _ _ _ _ _ Hr1). destruct xs as [|x xs]; [done|].
    rewrite (bind_eq _ _ _ _ _ (new_read _)). change (negb true) with false. cbv iota.
    destruct (IH Hbs fuel [AIRY_RE_A_ALT l (x :: xs)] n1 (S k1)) as [k2 IH2]; [done|done|lia|by rewrite Hls|lia|simpl in Hf; lia|].
    exists k2. simpl. rewrite IH2, Hls. done.
Qed.

Lemma alts_reads d bs rest n k :
  Forall (Forall (elem_reads d)) bs -> alts_ok bs = true -> alts_end rest -> 0 <= n ->
  (elab_alts bs n).2 < AIRY_RE_MAX_GROUPS -> (length (print_alts bs) <= d)%nat ->
  exists k', airy_re_parse_alt malloc_ok (S d) (Parser (print_alts bs ++ rest) n false k) =
    Ret ((elab_alts bs n).1, Parser rest (elab_alts bs n).2 false k').
Proof.
  intros Hall [Hne Hok]%andb_prop Hr Hn. destruct bs as [|b bs]; [done|]. unfold elab_alts, print_branches.
  apply Forall_cons in Hall as [Hb Hbs]. cbn [forallb numbered map] in *. apply andb_prop in Hok as [Hokb Hokbs].
  change (nonempty b && forallb ere_ok b) with (branch_ok b) in Hokb.
  pose proof (numbered_nonempty b n Hokb) as Hnb.
  pose proof (fun k rest H => branch_reads d b rest n k Hb Hokb H Hn) as Hread.
  assert (n <= (numbered elab b n).2) as Hle by (apply numbered_le, Forall_forall; intros; apply elab_le).
  destruct (numbered elab b n) as [xs n1] eqn:Hxs. simpl in Hnb, Hread, Hle.
  assert (n1 <= (numbered (numbered elab) bs n1).2) as Hle1.
  { apply numbered_le, Forall_forall. intros y _ m. apply numbered_le, Forall_forall. intros; apply elab_le. }
  destruct (numbered (numbered elab) bs n1) as [ls n2] eqn:Hls. cbn [fst snd] in *. intros Hg Hd.
  rewrite length_app in Hd. rewrite <- app_assoc. cbn [airy_re_parse_alt].
  destruct (Hread k (concat (map (cons BAR) (map (fun b => print_seq b) bs)) ++ rest)) as [k1 Hr1]; [|lia|lia|].
  { destruct bs; simpl; [destruct rest; [done|by left]|by right]. }
  rewrite (bind_eq _ _ _ _ _ Hr1). unfold bind at 1, get at 1. cbn [ps_p ps_error].
  destruct (alt_loop_reads d (S (length (concat (map (cons BAR) (map (fun b => print_seq b) bs)) ++ rest))) bs xs rest n1 k1)
    as [k2 Hloop]; [done|done|done|lia|by rewrite Hls|lia| |].
  { rewrite length_app. clear. induction bs as [|b bs IH]; simpl; [lia|]. rewrite length_app. lia. }
  exists k2. rewrite Hls in Hloop. destruct xs as [|x xs]; [done|]. exact Hloop.
Qed.

Lemma group_reads d bs :
  Forall (Forall (fun e => forall d, elem_reads d e)) bs -> alts_ok bs = true -> atom_reads d (EGroup bs).
Proof.
  intros Hall Hok rest n k Hn Hg Hd. cbn [print elab] in *. unfold elem_first. cbn [print hd app].
  pose proof (fun rest k => alts_reads (pred d) bs rest (n + 1) k) as Hread. unfold elab_alts in Hread.
  assert (n + 1 <= (numbered (numbered elab) bs (n + 1)).2) as Hle.
  { apply numbered_le, Forall_forall. intros y _ m. apply numbered_le, Forall_forall. intros; apply elab_le. }
  assert (join_alts (numbered (numbered elab) bs (n + 1)).1 <> []) as Hne.
  { clear -Hok. apply andb_prop in Hok as [Hne Hok]. destruct bs as [|b bs]; [done|]. simpl in *.
    apply andb_prop in Hok as [Hb _]. pose proof (numbered_nonempty b (n + 1) Hb) as Hnb.
    destruct (numbered elab b (n + 1)) as [xs n1]. destruct (numbered _ bs n1) as [ls n2]. simpl in *.
    clear -Hnb. revert xs Hnb. induction ls as [|l ls IH]; intros xs Hnb; simpl; [done|]. by apply IH. }
  destruct (numbered (numbered elab) bs (n + 1)) as [ls m]. cbn [fst snd] in *.
  simpl in Hd. rewrite length_app in Hd. simpl in Hd. destruct d as [|d]; [lia|]. simpl in Hread.
  change (airy_re_atom malloc_ok (airy_re_parse_alt malloc_ok (S d)) LPAR)
    with (airy_re_next ;; airy_re_group malloc_ok (airy_re_parse_alt malloc_ok (S d))).
  rewrite (bind_eq _ _ _ _ _ (next_read _ _ _ _ _)). unfold airy_re_group, bind at 1, get at 1. cbn [ngroups].
  rewrite (proj2 (Z.leb_gt (AIRY_RE_MAX_GROUPS - 1) n)) by lia. unfold bind at 1, modify at 1. simpl set_ngroups.
  destruct (Hread (RPAR :: rest) k) as [k1 Hr]; [|done|done|lia|lia|lia|].
  { eapply Forall_impl; [exact Hall|]. intros b Hb. eapply Forall_impl; [exact Hb|]. auto. }
  rewrite <- app_assoc. unfold set_ngroups. cbn [ps_p ps_error nodes]. rewrite (bind_eq _ _ _ _ _ Hr).
  exists (S k1). destruct (join_alts ls) as [|x xs]; [done|].
  rewrite (bind_eq _ _ _ _ _ (peek_read _ _ _ _ _)). change (negb (RPAR =? RPAR)) with false. cbv iota.
  rewrite (bind_eq _ _ _ _ _ (next_read _ _ _ _ _)). by rewrite (bind_eq _ _ _ _ _ (new_read _)).
Qed.

Lemma ere_reads e : ere_ok e = true -> forall d, (is_atom e = true -> atom_reads d e) /\ elem_reads d e.
Proof.
  intros Hok d. assert (forall e, atom_reads d e -> (is_atom e = true -> atom_reads d e) /\ elem_reads d e) as Hat.
  { intros e' H. split; [done|by apply atom_elem]. }
  revert d Hat Hok. induction e as [x| |neg items| | |e q g IH|bs IH] using ere_ind'; intros d Hat; cbn [ere_ok]; intros Hok.
  - apply Hat, char_reads. by apply bool_decide_eq_true in Hok.
  - by apply Hat, (leaf_reads d EAny DOT AIRY_RE_A_ANY).
  - by apply Hat, class_reads.
  - by apply Hat, (leaf_reads d EBol CARET (AIRY_RE_A_ANCHOR CARET)).
  - by apply Hat, (leaf_reads d EEol DOLLAR (AIRY_RE_A_ANCHOR DOLLAR)).
  - rewrite !andb_true_iff in Hok. destruct Hok as [[Ha Hok] Hq]. split; [done|]. apply rep_elem; [done|done|].
    by apply IH.
  - apply Hat, group_reads; [|done]. apply andb_prop in Hok as [_ Hok]. rewrite forallb_forall in Hok.
    rewrite Forall_forall in *. intros b Hb. specialize (IH b Hb). rewrite Forall_forall in *. intros e He d'.
    apply IH; [done| |].
    + intros e' H. split; [done|by apply atom_elem].
    + specialize (Hok b ltac:(by apply list_elem_of_In)). apply andb_prop in Hok as [_ Hok].
      rewrite forallb_forall in Hok. by apply Hok, list_elem_of_In.
Qed.

Lemma alts_elem_reads bs d : alts_ok bs = true -> Forall (Forall (elem_reads d)) bs.
Proof.
  intros [_ Hok]%andb_prop. rewrite forallb_forall in Hok. apply Forall_forall. intros b Hb.
  specialize (Hok b ltac:(by apply list_elem_of_In)). apply andb_prop in Hok as [_ Hok]. rewrite forallb_forall in Hok.
  apply Forall_forall. intros e He. apply ere_reads. by apply Hok, list_elem_of_In.
Qed.

Lemma parse_print bs :
  alts_ok bs = true -> (elab_alts bs 0).2 < AIRY_RE_MAX_GROUPS ->
  exists k, parse_pattern malloc_ok (print_alts bs) =
    Ret ((elab_alts bs 0).1, Parser [] (elab_alts bs 0).2 false k).
Proof.
  intros Hok Hg. unfold parse_pattern.
  destruct (alts_reads (length (print_alts bs)) bs [] 0 0) as [k Hr]; [by apply alts_elem_reads|done..|].
  exists k. by rewrite app_nil_r in Hr.
Qed.

End roundtrip.

(** ** The language of an expression *)

Definition item_has (y : Z) (it : citem) : bool :=
  match it with CChar x => y =? x | CRange x z => (x <=? y) && (y <=? z) end.

Definition class_denotes (neg : bool) (items : list citem) (y : Z) : bool := xorb neg (existsb (item_has y) items).

Section language.
Variable str : cstr.

(** [lang e i j]: the text from [i] to [j] is matched by [e]. *)
Inductive lang : ere -> nat -> nat -> Prop :=
| lang_char x i : str !! i = Some x -> lang (EChar x) i (S i)
| lang_any y i : str !! i = Some y -> lang EAny i (S i)
| lang_class neg items y i :
    str !! i = Some y -> class_denotes neg items y = true -> lang (EClass neg items) i (S i)
| lang_bol : lang EBol 0 0
| lang_eol : lang EEol (length str) (length str)
| lang_rep e q g n i j :
    q_lo q <= Z.of_nat n -> (q_hi q < 0 \/ Z.of_nat n <= q_hi q) -> lang_seq (replicate n e) i j -> lang (ERep e q g) i j
| lang_group bs i j : lang_alts bs i j -> lang (EGroup bs) i j
with lang_seq : list ere -> nat -> nat -> Prop :=
| lang_nil i : lang_seq [] i i
| lang_cons e b i k j : lang e i k -> lang_seq b k j -> lang_seq (e :: b) i j
with lang_alts : list (list ere) -> nat -> nat -> Prop :=
| lang_here b bs i j : lang_seq b i j -> lang_alts (b :: bs) i j
| lang_there b bs i j : lang_alts bs i j -> lang_alts (b :: bs) i j.

End language.

(** *** Class tables *)

Definition tbl_mem (tbl : list Z) (y : Z) : bool :=
  Z.testbit (default 0 (tbl !! Z.to_nat (Z.shiftr y 3))) (Z.land y 7).

Definition tbl_ok (tbl : list Z) : Prop := length tbl = 32%nat /\ Forall is_byte tbl.

Lemma byte_index y : is_byte y -> 0 <= Z.shiftr y 3 < 32 /\ 0 <= Z.land y 7 < 8 /\ y = Z.shiftr y 3 * 8 + Z.land y 7.
Proof.
  intros Hy. unfold is_byte in Hy. change 7 with (Z.ones 3). rewrite Z.land_ones, Z.shiftr_div_pow2 by lia.
  change (2 ^ 3) with 8. pose proof (Z.div_mod y 8 ltac:(lia)). pose proof (Z.mod_pos_bound y 8 ltac:(lia)).
  split_and!; lia.
Qed.

Lemma set_bit_byte b i : is_byte b -> 0 <= i < 8 -> u8 (Z.lor b (Z.shiftl 1 i)) = Z.lor b (Z.shiftl 1 i).
Proof.
  intros Hb Hi. apply u8_small. rewrite Z.shiftl_1_l. unfold is_byte in Hb. split; [apply Z.lor_nonneg; lia|].
  destruct (decide (Z.lor b (2 ^ i) = 0)) as [->|Hne]; [lia|].
  apply Z.log2_lt_cancel. rewrite Z.log2_lor, Z.log2_pow2 by lia. change (Z.log2 256) with 8.
  assert (Z.log2 b < 8) by (destruct (decide (b = 0)) as [->|]; [simpl; lia|]; apply Z.log2_lt_pow2; lia). lia.
Qed.

Lemma tbl_set_spec tbl x :
  tbl_ok tbl -> is_byte x ->
  tbl_ok (tbl_set tbl x) /\ forall y, is_byte y -> tbl_mem (tbl_set tbl x) y = (y =? x) || tbl_mem tbl y.
Proof.
  intros [Hlen Hb] Hx. pose proof (byte_index x Hx) as (Hi & Hl & Hxe). unfold tbl_set, tbl_mem. rewrite (u8_small x Hx).
  destruct (lookup_lt_is_Some_2 tbl (Z.to_nat (Z.shiftr x 3))) as [b Hbx]; [lia|]. rewrite Hbx.
  pose proof (Forall_lookup_1 _ _ _ _ Hb Hbx) as Hbb. rewrite set_bit_byte by done. split.
  - split; [by rewrite length_insert|]. apply Forall_insert; [done|].
    rewrite <- (set_bit_byte b _ Hbb Hl). apply u8_range.
  - intros y Hy. pose proof (byte_index y Hy) as (Hiy & Hly & Hye).
    destruct (decide (Z.to_nat (Z.shiftr x 3) = Z.to_nat (Z.shiftr y 3))) as [Heq|Hne].
    + assert (Z.shiftr x 3 = Z.shiftr y 3) as Heq' by lia. rewrite <- Heq, list_lookup_insert_eq, Hbx by lia. simpl.
      rewrite Z.lor_spec, Z.shiftl_1_l, Z.pow2_bits_eqb, orb_comm by lia. f_equal.
      destruct (Z.eqb_spec (Z.land x 7) (Z.land y 7)), (Z.eqb_spec y x); try done; [lia|]. subst. done.
    + rewrite list_lookup_insert_ne by done. destruct (Z.eqb_spec y x); [by subst|done].
Qed.

Lemma tbl_set_range_spec tbl x z :
  tbl_ok tbl -> 0 <= x -> z < 256 ->
  tbl_ok (tbl_set_range tbl x z) /\
  forall y, is_byte y -> tbl_mem (tbl_set_range tbl x z) y = ((x <=? y) && (y <=? z)) || tbl_mem tbl y.
Proof.
  intros Ht Hx Hz. unfold tbl_set_range.
  assert (forall l tbl, tbl_ok tbl -> Forall is_byte l ->
    tbl_ok (fold_left tbl_set l tbl) /\
    forall y, is_byte y -> tbl_mem (fold_left tbl_set l tbl) y = existsb (Z.eqb y) l || tbl_mem tbl y) as Hfold.
  { induction l as [|w l IH]; intros t Htt Hl; simpl; [done|]. apply Forall_cons in Hl as [Hw Hl].
    destruct (tbl_set_spec t w Htt Hw) as [Hok Hmem]. destruct (IH _ Hok Hl) as [Hok' Hmem']. split; [done|].
    intros y Hy. rewrite Hmem', Hmem by done. destruct (y =? w), (existsb (Z.eqb y) l); done. }
  destruct (Hfold (seqZ x (z - x + 1)) tbl Ht) as [Hok Hmem].
  { apply Forall_forall. intros w Hw%elem_of_seqZ. unfold is_byte. lia. }
  split; [done|]. intros y Hy. rewrite Hmem by done. f_equal.
  destruct (existsb (Z.eqb y) _) eqn:He.
  - apply existsb_exists in He as (w & Hw%list_elem_of_In%elem_of_seqZ & ->%Z.eqb_eq). lia.
  - destruct (Z.leb_spec x y), (Z.leb_spec y z); try done. simpl. exfalso.
    assert (existsb (Z.eqb y) (seqZ x (z - x + 1)) = true); [|congruence].
    apply existsb_exists. exists y. split; [apply list_elem_of_In, elem_of_seqZ; lia|apply Z.eqb_refl].
Qed.

Lemma class_table_spec neg items y :
  forallb item_ok items = true -> is_byte y ->
  length (class_table neg items) = 32%nat /\ tbl_mem (class_table neg items) y = class_denotes neg items y.
Proof.
  intros Hok Hy. unfold class_table, class_denotes.
  assert (forall tbl, tbl_ok tbl -> tbl_ok (fold_left add_item items tbl) /\
    tbl_mem (fold_left add_item items tbl) y = existsb (item_has y) items || tbl_mem tbl y) as Hfold.
  { induction items as [|it items IH]; intros tbl Ht; simpl; [done|]. simpl in Hok. apply andb_prop in Hok as [Hit Hok].
    assert (tbl_ok (add_item tbl it) /\ tbl_mem (add_item tbl it) y = item_has y it || tbl_mem tbl y) as [H1 H2].
    { destruct it as [x|x z]; simpl in *.
      - apply bool_decide_eq_true in Hit. destruct (tbl_set_spec tbl x Ht) as [? Hm]; [unfold is_char, is_byte in *; lia|].
        split; [done|by apply Hm].
      - destruct (tbl_set_range_spec tbl x z Ht ltac:(lia) ltac:(lia)) as [? Hm]. split; [done|by apply Hm]. }
    destruct (IH Hok _ H1) as [H3 H4]. split; [done|]. rewrite H4, H2.
    by destruct (item_has y it), (existsb (item_has y) items). }
  destruct (Hfold (replicate 32 0)) as [[Hlen Hb] Hmem].
  { split; [by rewrite length_replicate|]. apply Forall_replicate. unfold is_byte. lia. }
  assert (tbl_mem (replicate 32 0) y = false) as H0.
  { unfold tbl_mem. pose proof (byte_index y Hy) as (Hi & _). rewrite lookup_replicate_2 by lia. apply Z.bits_0. }
  rewrite H0, orb_false_r in Hmem. clear Hfold H0.
  generalize dependent (fold_left add_item items (replicate 32 0)). intros tbl Hlen Hb Hmem.
  destruct neg; [|by split]. split; [by rewrite length_map|].
  rewrite <- Hmem. unfold tbl_mem. pose proof (byte_index y Hy) as (Hi & Hl & _).
  destruct (lookup_lt_is_Some_2 tbl (Z.to_nat (Z.shiftr y 3))) as [b Hb']; [lia|].
  rewrite list_lookup_fmap, Hb'.
  change (Z.testbit (u8 (Z.lnot b)) (Z.land y 7) = negb (Z.testbit b (Z.land y 7))).
  unfold u8. rewrite Z.mod_pow2_bits_low by lia. by rewrite Z.lnot_spec by lia.
Qed.
