(* ===== verification/Regex.v ===== *)
(** * Matching of regular expressions: utils/compat/airy_regex.c

    The interface of the engine and the machine that runs a compiled
    expression, by backtracking over the two branches of each [SPLIT]. *)
From S2P Require Import Prelude RegexParse RegexCompile RegexSyntax.

Definition AIRY_RE_MAX_DEPTH : Z := 4096.
Definition REG_EXTENDED : Z := 1.
Definition REG_NOSUB : Z := 2.
Definition REG_NOMATCH : Z := 1.

(** [ast_nodes] and [insts] are the two ownership lists. *)
Record airy_regex_t := Regex {
  ast_nodes : nat;
  insts : list airy_re_inst_t;
  prog : option nat;
  re_tables : list Z;
  re_ntab : nat;
  nsub : Z;
  re_flags : Z;
  pat_owned : option cstr;
}.

Definition zero_regex : airy_regex_t := Regex 0 [] None [] 0 0 0 None.

Record airy_regmatch_t := Regmatch { rm_so : Z; rm_eo : Z }.

(** The machine; the string and the start of the match, which do not change,
    are parameters of the run. *)
Record airy_re_vm_t := Vm { caps : list Z; depth : Z; overflow : bool }.

Definition set_caps (l : list Z) (vm : airy_re_vm_t) := Vm l (depth vm) (overflow vm).
Definition set_depth (d : Z) (vm : airy_re_vm_t) := Vm (caps vm) d (overflow vm).
Definition set_overflow (vm : airy_re_vm_t) := Vm (caps vm) (depth vm) true.

(** ** The machine *)

Section vm.
Variables (re : airy_regex_t) (str : cstr) (start : nat).

(** [*sp]; the terminating NUL ends the string. *)
Definition char_at (sp : nat) : Z := default 0 (str !! sp).

(** [tbl[cc >> 3] & (1u << (cc & 7))] *)
Definition class_has (idx cc : Z) : option bool :=
  b ← re_tables re !! Z.to_nat (idx * 32 + Z.shiftr cc 3);
  Some (negb (Z.land b (Z.shiftl 1 (Z.land cc 7)) =? 0)).

Definition leave (r : bool) (vm : airy_re_vm_t) : outcome (bool * airy_re_vm_t) :=
  Ret (r, set_depth (depth vm - 1) vm).

(** The entry of [airy_re_run] and its loop: [enter] is a call, [run_loop] a
    turn of the loop, and [fuel] bounds the instructions executed along one
    branch. *)
Definition enter (loop : airy_re_vm_t -> option nat -> nat -> outcome (bool * airy_re_vm_t))
    (vm : airy_re_vm_t) (pc : option nat) (sp : nat) : outcome (bool * airy_re_vm_t) :=
  if AIRY_RE_MAX_DEPTH <? depth vm + 1 then Ret (false, set_overflow vm)
  else loop (set_depth (depth vm + 1) vm) pc sp.

Fixpoint run_loop (fuel : nat) (vm : airy_re_vm_t) (pc : option nat) (sp : nat)
    : outcome (bool * airy_re_vm_t) :=
  match pc with
  | None => leave true vm
  | Some i =>
      match fuel, insts re !! i with
      | O, _ => NoFuel
      | _, None => Undef
      | S fuel', Some ip =>
          match i_op ip with
          | AIRY_RE_I_CHAR =>
              if negb (char_at sp =? 0) && (char_at sp =? u8 (i_c ip)) then run_loop fuel' vm (i_a ip) (S sp)
              else leave false vm
          | AIRY_RE_I_ANY =>
              if negb (char_at sp =? 0) then run_loop fuel' vm (i_a ip) (S sp) else leave false vm
          | AIRY_RE_I_CLASS =>
              let cc := char_at sp in
              if cc =? 0 then leave false vm
              else
                match class_has (i_c ip) cc with
                | None => Undef
                | Some true => run_loop fuel' vm (i_a ip) (S sp)
                | Some false => leave false vm
                end
          | AIRY_RE_I_ANCHOR =>
              if i_c ip =? CARET then
                if (sp =? 0)%nat then run_loop fuel' vm (i_a ip) sp else leave false vm
              else if char_at sp =? 0 then run_loop fuel' vm (i_a ip) sp else leave false vm
          | AIRY_RE_I_SAVE =>
              let slot := Z.to_nat (i_c ip) in
              if (slot <? length (caps vm))%nat then
                run_loop fuel' (set_caps (<[slot := Z.of_nat sp - Z.of_nat start]> (caps vm)) vm) (i_a ip) sp
              else Undef
          | AIRY_RE_I_SPLIT =>
              let save_caps := caps vm in
              match enter (run_loop fuel') vm (i_a ip) sp with
              | Ret (true, vm) => Ret (true, vm)
              | Ret (false, vm) =>
                  if overflow vm then leave false vm
                  else
                    match enter (run_loop fuel') (set_caps save_caps vm) (i_b ip) sp with
                    | Ret (r, vm) => leave r vm
                    | o => o
                    end
              | o => o
              end
          | AIRY_RE_I_JMP => run_loop fuel' vm (i_a ip) sp
          | AIRY_RE_I_MATCH => leave true vm
          end
      end
  end.

Definition airy_re_run (fuel : nat) : airy_re_vm_t -> option nat -> nat -> outcome (bool * airy_re_vm_t) :=
  enter (run_loop fuel).

End vm.

(** A branch has at most [AIRY_RE_MAX_DEPTH] calls, each of which runs through
    every instruction at most once before the next. *)
Definition vm_fuel (re : airy_regex_t) : nat := Z.to_nat (AIRY_RE_MAX_DEPTH + 1) * S (length (insts re)).

(** ** The interface *)

Section interface.
Variables (parse_malloc compile_malloc : nat -> bool).

Definition airy_re_regcomp (preg : option airy_regex_t) (pattern : option cstr) (cflags : Z)
    (pat_malloc : bool) : outcome (Z * option airy_regex_t) :=
  match preg, pattern with
  | Some _, Some pattern =>
      if negb (Z.land cflags (Z.lnot (Z.lor REG_EXTENDED REG_NOSUB)) =? 0) then Ret (-1, Some zero_regex)
      else if negb pat_malloc then Ret (-1, Some zero_regex)
      else
        match parse_pattern parse_malloc pattern with
        | Undef => Undef
        | NoFuel => NoFuel
        | Ret ([], _) => Ret (-1, Some zero_regex)
        | Ret (root, ps) =>
            if ps_error ps then Ret (-1, Some zero_regex)
            else
              match airy_re_compile_seq compile_malloc root None (Comp [] [] 0 false 0) with
              | Undef => Undef
              | NoFuel => NoFuel
              | Ret (None, _) => Ret (-1, Some zero_regex)
              | Ret (Some entry, co) =>
                  if co_error co then Ret (-1, Some zero_regex)
                  else Ret (0, Some (Regex (nodes ps) (all co) (Some entry) (tables co) (ntab co)
                                       (ngroups ps + 1) cflags (Some pattern)))
              end
        end
  | _, _ => Ret (-1, preg)
  end.

(** What the caller gets in [pmatch]: the first [min(nmatch, 10)] pairs. *)
Definition pmatch_of (groups : nat) (caps : list Z) : list airy_regmatch_t :=
  map (fun g => Regmatch (default 0 (caps !! (2 * g)%nat)) (default 0 (caps !! (2 * g + 1)%nat))) (seq 0 groups).

Definition fill_pmatch (pmatch : option (list airy_regmatch_t)) (nmatch : nat) (caps : list Z)
    : option (option (list airy_regmatch_t)) :=
  match pmatch with
  | None => Some None
  | Some m =>
      let groups := Nat.min nmatch (Z.to_nat AIRY_RE_MAX_GROUPS) in
      if (groups <=? length m)%nat then Some (Some (pmatch_of groups caps ++ drop groups m)) else None
  end.

Fixpoint exec_loop (re : airy_regex_t) (string : cstr) (nmatch : nat)
    (pmatch : option (list airy_regmatch_t)) (turns start : nat)
    : outcome (Z * option (list airy_regmatch_t)) :=
  match turns with
  | O => NoFuel
  | S turns' =>
      match airy_re_run re string start (vm_fuel re) (Vm (replicate 20 0) 0 false) (prog re) start with
      | Undef => Undef
      | NoFuel => NoFuel
      | Ret (true, vm) =>
          match fill_pmatch pmatch nmatch (caps vm) with Some m => Ret (0, m) | None => Undef end
      | Ret (false, vm) =>
          if overflow vm then Ret (-1, pmatch)
          else if (length string <=? start)%nat then Ret (REG_NOMATCH, pmatch)
          else exec_loop re string nmatch pmatch turns' (S start)
      end
  end.

Definition airy_re_regexec (preg : option airy_regex_t) (string : option cstr) (nmatch : nat)
    (pmatch : option (list airy_regmatch_t)) : outcome (Z * option (list airy_regmatch_t)) :=
  match preg, string with
  | Some re, Some s =>
      match prog re with
      | None => Ret (-1, pmatch)
      | Some _ => exec_loop re s nmatch pmatch (S (length s)) 0
      end
  | _, _ => Ret (-1, pmatch)
  end.

Definition airy_re_regfree (preg : option airy_regex_t) : option airy_regex_t :=
  match preg with None => None | Some _ => Some zero_regex end.

End interface.

(** ** What a tree matches *)

Definition in_class (tbl : list Z) (ch : Z) : bool :=
  negb (Z.land (default 0 (tbl !! Z.to_nat (Z.shiftr ch 3))) (Z.shiftl 1 (Z.land ch 7)) =? 0).

Section semantics.
Variables (str : cstr) (start : nat).

Definition save (slot : Z) (i : nat) (caps : list Z) : list Z :=
  <[Z.to_nat slot := Z.of_nat i - Z.of_nat start]> caps.

(** From position [i] with captures [c] to position [j] with captures [d]. *)
Inductive amatch : airy_re_ast_t -> nat -> list Z -> nat -> list Z -> Prop :=
| am_empty i c : amatch AIRY_RE_A_EMPTY i c i c
| am_char x i c : str !! i = Some (u8 x) -> amatch (AIRY_RE_A_CHAR x) i c (S i) c
| am_any y i c : str !! i = Some y -> amatch AIRY_RE_A_ANY i c (S i) c
| am_class tbl y i c : str !! i = Some y -> in_class tbl y = true -> amatch (AIRY_RE_A_CLASS tbl) i c (S i) c
| am_bol c : amatch (AIRY_RE_A_ANCHOR CARET) 0 c 0 c
| am_eol x c : x <> CARET -> amatch (AIRY_RE_A_ANCHOR x) (length str) c (length str) c
| am_left x y i c j d : amatches x i c j d -> amatch (AIRY_RE_A_ALT x y) i c j d
| am_right x y i c j d : amatches y i c j d -> amatch (AIRY_RE_A_ALT x y) i c j d
| am_repeat x lo hi g n i c j d :
    lo <= Z.of_nat n -> (hi < 0 \/ Z.of_nat n <= hi) -> amatches (replicate n x) i c j d ->
    amatch (AIRY_RE_A_REPEAT x lo hi g) i c j d
| am_group l gid i c j d :
    amatches l i (save (gid * 2) i c) j d ->
    amatch (AIRY_RE_A_GROUP l gid) i c j (save (gid * 2 + 1) j d)
with amatches : list airy_re_ast_t -> nat -> list Z -> nat -> list Z -> Prop :=
| am_nil i c : amatches [] i c i c
| am_cons n l i c k e j d : amatch n i c k e -> amatches l k e j d -> amatches (n :: l) i c j d.

Lemma amatches_app x y i c k e j d : amatches x i c k e -> amatches y k e j d -> amatches (x ++ y) i c j d.
Proof.
  revert i c. induction x as [|n x IH]; intros i c Hx Hy; inversion Hx; subst; [done|].
  simpl. econstructor; [done|]. by eapply IH.
Qed.

Lemma amatches_one n i c j d : amatches [n] i c j d <-> amatch n i c j d.
Proof.
  split.
  - intros H. inversion H as [|? ? ? ? k e ? ? Hn Hl]; subst. inversion Hl; by subst.
  - intros H. econstructor; [done|constructor].
Qed.

(** One copy more or less of a repetition. *)
Lemma repeat_more x lo hi g i c k e j d :
  0 <= lo -> amatch x i c k e -> amatch (AIRY_RE_A_REPEAT x lo (pred_hi hi) g) k e j d ->
  (hi < 0 \/ 0 < hi) -> amatch (AIRY_RE_A_REPEAT x (lo + 1) hi g) i c j d.
Proof.
  intros Hlo Hx Hr Hhi. inversion Hr as [| | | | | | | |? ? ? ? n ? ? ? ? H1 H2 H3|]; subst.
  apply (am_repeat _ _ _ _ (S n)); [lia| |simpl; by econstructor].
  unfold pred_hi in H2. bool_prop; lia.
Qed.

Lemma repeat_less x lo hi g i c j d :
  0 <= lo -> amatch (AIRY_RE_A_REPEAT x (lo + 1) hi g) i c j d ->
  exists k e, amatch x i c k e /\ amatch (AIRY_RE_A_REPEAT x lo (pred_hi hi) g) k e j d.
Proof.
  intros Hlo Hr. inversion Hr as [| | | | | | | |? ? ? ? n ? ? ? ? H1 H2 H3|]; subst.
  destruct n as [|n]; [lia|]. simpl in H3. inversion H3 as [|? ? ? ? k e ? ? Hn Hl]; subst.
  exists k, e. split; [done|]. apply (am_repeat _ _ _ _ n); [lia| |done]. unfold pred_hi. bool_prop; lia.
Qed.

Lemma repeat_none x hi g i c : 0 <= hi \/ hi < 0 -> amatch (AIRY_RE_A_REPEAT x 0 hi g) i c i c.
Proof. intros Hhi. apply (am_repeat _ _ _ _ 0); [lia|lia|constructor]. Qed.

End semantics.

Lemma wf_mand x lo hi g l :
  0 <= lo -> forallb well_formed (AIRY_RE_A_REPEAT x (lo + 1) hi g :: l) = true ->
  forallb well_formed [x] = true /\ forallb well_formed (AIRY_RE_A_REPEAT x lo (pred_hi hi) g :: l) = true.
Proof.
  intros Hlo. cbn [forallb well_formed]. rewrite !andb_true_iff, !orb_true_iff, !Z.leb_le, !Z.ltb_lt.
  unfold pred_hi. intros Hwf. bool_prop; (split; [tauto|]); split; try tauto; split; [|lia]; tauto.
Qed.

Lemma wf_mand_hi x lo hi g l :
  0 <= lo -> forallb well_formed (AIRY_RE_A_REPEAT x (lo + 1) hi g :: l) = true -> hi < 0 \/ 0 < hi.
Proof. intros Hlo. cbn [forallb well_formed]. rewrite !andb_true_iff, orb_true_iff. lia. Qed.

Lemma wf_opt x hi g l :
  0 < hi -> forallb well_formed (AIRY_RE_A_REPEAT x 0 hi g :: l) = true ->
  forallb well_formed [x] = true /\ forallb well_formed (AIRY_RE_A_REPEAT x 0 (hi - 1) g :: l) = true.
Proof.
  intros Hhi. cbn [forallb well_formed]. rewrite !andb_true_iff, !orb_true_iff, !Z.leb_le, !Z.ltb_lt.
  intros Hwf. split; [tauto|]. split; [|tauto]. split; [tauto|]. lia.
Qed.

Lemma wf_repeat x lo hi g l :
  forallb well_formed (AIRY_RE_A_REPEAT x lo hi g :: l) = true ->
  forallb well_formed [x] = true /\ forallb well_formed l = true.
Proof. cbn [forallb well_formed]. rewrite !andb_true_iff. tauto. Qed.

(** ** Measures of a tree *)

(** The least number of characters of a match. *)
Fixpoint minlen (n : airy_re_ast_t) : nat :=
  match n with
  | AIRY_RE_A_CHAR _ | AIRY_RE_A_ANY | AIRY_RE_A_CLASS _ => 1
  | AIRY_RE_A_EMPTY | AIRY_RE_A_ANCHOR _ => 0
  | AIRY_RE_A_ALT x y => Nat.min (sum_list_with minlen x) (sum_list_with minlen y)
  | AIRY_RE_A_REPEAT x lo _ _ => Z.to_nat lo * minlen x
  | AIRY_RE_A_GROUP l _ => sum_list_with minlen l
  end.

(** The branches of the program, a loop counted once. *)
Fixpoint cost (n : airy_re_ast_t) : nat :=
  match n with
  | AIRY_RE_A_ALT x y => S (sum_list_with cost x + sum_list_with cost y)
  | AIRY_RE_A_REPEAT _ lo hi _ => if hi <? 0 then 1 else Z.to_nat (hi - lo)
  | AIRY_RE_A_GROUP l _ => sum_list_with cost l
  | _ => 0
  end.

(** What is repeated without bound takes at least one character. *)
Fixpoint progresses (n : airy_re_ast_t) : bool :=
  match n with
  | AIRY_RE_A_ALT x y => forallb progresses x && forallb progresses y
  | AIRY_RE_A_REPEAT x _ hi _ => ((0 <=? hi) || (0 <? minlen x)%nat) && progresses x
  | AIRY_RE_A_GROUP l _ => forallb progresses l
  | _ => true
  end.

Lemma linear_mand x lo hi g l :
  0 <= lo -> forallb linear (AIRY_RE_A_REPEAT x (lo + 1) hi g :: l) = true ->
  forallb linear [x] = true /\ forallb linear (AIRY_RE_A_REPEAT x lo (pred_hi hi) g :: l) = true.
Proof.
  intros Hlo. cbn [forallb linear]. rewrite !andb_true_iff, !orb_true_iff, !Z.eqb_eq. unfold pred_hi.
  intros [[Hhi Hx] Hl]. split; [split; [|done]; destruct Hx; [lia|done]|]. bool_prop; (split; [split; [lia|]|done]).
  - lia.
  - destruct Hx; [lia|by right].
Qed.

Lemma minlen_mand x lo hi hi' g l :
  0 <= lo ->
  (sum_list_with minlen (AIRY_RE_A_REPEAT x (lo + 1) hi g :: l) =
   minlen x + sum_list_with minlen (AIRY_RE_A_REPEAT x lo hi' g :: l))%nat.
Proof. intros Hlo. simpl. rewrite Z2Nat.inj_add by lia. simpl. lia. Qed.

Lemma progresses_hi x lo lo' hi hi' g l :
  (0 <=? hi) = (0 <=? hi') -> forallb progresses (AIRY_RE_A_REPEAT x lo hi g :: l) = true ->
  forallb progresses (AIRY_RE_A_REPEAT x lo' hi' g :: l) = true.
Proof. intros Hhi. cbn [forallb progresses]. by rewrite Hhi. Qed.

Lemma progresses_mand x lo hi g l :
  0 <= lo -> forallb well_formed (AIRY_RE_A_REPEAT x (lo + 1) hi g :: l) = true ->
  forallb progresses (AIRY_RE_A_REPEAT x (lo + 1) hi g :: l) = true ->
  forallb progresses (AIRY_RE_A_REPEAT x lo (pred_hi hi) g :: l) = true.
Proof.
  intros Hlo Hwf. apply progresses_hi. pose proof (wf_mand_hi _ _ _ _ _ Hlo Hwf).
  unfold pred_hi. bool_prop; lia.
Qed.

(** ** Runs of a program *)

Section runs.
Variables (re : airy_regex_t) (str : cstr) (start : nat).

(** One instruction: from [i] and captures [c] to [pc'], [i'] and [c']. *)
Inductive step : airy_re_inst_t -> nat -> list Z -> option nat -> nat -> list Z -> Prop :=
| step_char x m b i c : str !! i = Some (u8 x) -> step (Inst AIRY_RE_I_CHAR x m b) i c m (S i) c
| step_any x m b y i c : str !! i = Some y -> step (Inst AIRY_RE_I_ANY x m b) i c m (S i) c
| step_class x m b y i c :
    str !! i = Some y -> class_has re x y = Some true -> step (Inst AIRY_RE_I_CLASS x m b) i c m (S i) c
| step_bol m b c : step (Inst AIRY_RE_I_ANCHOR CARET m b) 0 c m 0 c
| step_eol x m b c : x <> CARET -> step (Inst AIRY_RE_I_ANCHOR x m b) (length str) c m (length str) c
| step_save x m b i c : step (Inst AIRY_RE_I_SAVE x m b) i c m i (save start x i c)
| step_left x m b i c : step (Inst AIRY_RE_I_SPLIT x m b) i c m i c
| step_right x m b i c : step (Inst AIRY_RE_I_SPLIT x m b) i c b i c
| step_jmp x m b i c : step (Inst AIRY_RE_I_JMP x m b) i c m i c.

(** A run of [n] instructions that ends in a match at [j] with captures [d]. *)
Inductive runs : nat -> option nat -> nat -> list Z -> nat -> list Z -> Prop :=
| runs_end i c : runs 0 None i c i c
| runs_match p ip i c : insts re !! p = Some ip -> i_op ip = AIRY_RE_I_MATCH -> runs 0 (Some p) i c i c
| runs_step n p ip i c m i' c' j d :
    insts re !! p = Some ip -> step ip i c m i' c' -> runs n m i' c' j d -> runs (S n) (Some p) i c j d.

Abbreviation prog_code := (code 0 (insts re) (re_tables re)).

Lemma fetch_run n p ip i c m i' c' j d :
  fetch 0 (insts re) p ip -> step ip i c m i' c' -> runs n m i' c' j d -> runs (S n) (Some p) i c j d.
Proof. intros [_ Hp]. by apply runs_step. Qed.

Lemma fetch_run_inv n p ip i c j d :
  fetch 0 (insts re) p ip -> i_op ip <> AIRY_RE_I_MATCH -> runs n (Some p) i c j d ->
  exists n' m i' c', n = S n' /\ step ip i c m i' c' /\ runs n' m i' c' j d.
Proof.
  intros [_ Hp] Hop Hr. inversion Hr as [|? ip' ? ? Hp'|? ? ip' ? ? m i' c' ? ? Hp' Hs Hr']; subst;
    rewrite Hp in Hp'; injection Hp' as <-; [done|]. eauto 10.
Qed.

(** The table of a class is read as the tree has it. *)
Lemma class_has_table idx tbl y :
  length tbl = 32%nat -> has_table (re_tables re) idx tbl -> is_byte y ->
  class_has re idx y = Some (in_class tbl y).
Proof.
  intros Hlen [Hidx Ht] [Hy1 Hy2]. unfold class_has, in_class.
  assert (0 <= Z.shiftr y 3 < 32) as Hs 
    by (rewrite Z.shiftr_div_pow2 by lia; split; [apply Z.div_pos|apply Z.div_lt_upper_bound]; lia).
  destruct (lookup_lt_is_Some_2 tbl (Z.to_nat (Z.shiftr y 3))) as [b Hb]; [lia|].
  rewrite Hb. rewrite Z2Nat.inj_add, Z2Nat.inj_mul by lia. change (Z.to_nat 32) with 32%nat.
  by rewrite (Ht _ _ Hb).
Qed.

Definition bytes_ok : Prop := Forall is_char str.

Lemma bytes_lookup i y : bytes_ok -> str !! i = Some y -> is_byte y /\ y <> 0.
Proof. intros H Hy. eapply Forall_lookup_1 in H; [|done]. unfold is_char, is_byte in *. lia. Qed.

(** [l] is carried out from [e] to [k]: whatever it matches, a run can do. *)
Definition carries (l : list airy_re_ast_t) (e k : option nat) : Prop :=
  forall i c j d n jf df, amatches str start l i c j d -> runs n k j d jf df -> exists n', runs n' e i c jf df.

Lemma carries_cons x l e m k : carries [x] e m -> carries l m k -> carries (x :: l) e k.
Proof.
  intros Hx Hl i c j d n jf df Hm Hr. inversion Hm as [|? ? ? ? i' c' ? ? Hn Hm']; subst.
  destruct (Hl _ _ _ _ _ _ _ Hm' Hr) as [n' Hr']. eapply Hx; [by apply amatches_one|done].
Qed.

Lemma carries_step x p ip m :
  fetch 0 (insts re) p ip -> (forall i c j d, amatch str start x i c j d -> step ip i c m j d) -> carries [x] (Some p) m.
Proof.
  intros Hp Hx i c j d n jf df Hm%amatches_one Hr. exists (S n). eapply fetch_run; eauto.
Qed.

Lemma carries_group inner gid p e q m :
  fetch 0 (insts re) p (Inst AIRY_RE_I_SAVE (gid * 2) e None) -> carries inner e (Some q) ->
  fetch 0 (insts re) q (Inst AIRY_RE_I_SAVE (gid * 2 + 1) m None) -> carries [AIRY_RE_A_GROUP inner gid] (Some p) m.
Proof.
  intros Hp Hin Hq i c j d n jf df Hm%amatches_one Hr. inversion Hm; subst.
  edestruct Hin as [n' Hr']; [done|eapply fetch_run; [done|constructor|done]|].
  exists (S n'). eapply fetch_run; [done|constructor|done].
Qed.

Lemma carries_alt x y p z e1 e2 m :
  fetch 0 (insts re) p (Inst AIRY_RE_I_SPLIT z e1 e2) -> carries x e1 m -> carries y e2 m ->
  carries [AIRY_RE_A_ALT x y] (Some p) m.
Proof.
  intros Hp Hx Hy i c j d n jf df Hm%amatches_one Hr. inversion Hm; subst.
  - destruct (Hx _ _ _ _ _ _ _ H5 Hr) as [n' Hr']. exists (S n'). eapply fetch_run; [done|apply step_left|done].
  - destruct (Hy _ _ _ _ _ _ _ H5 Hr) as [n' Hr']. exists (S n'). eapply fetch_run; [done|apply step_right|done].
Qed.

Lemma split_step g z e m i c : step (split_inst g z e m) i c e i c /\ step (split_inst g z e m) i c m i c.
Proof. destruct g; split; constructor. Qed.

(** A turn of a repetition: through the body, or on. *)
Lemma split_body g z p e m n i c j d :
  fetch 0 (insts re) p (split_inst g z e m) -> runs n e i c j d -> runs (S n) (Some p) i c j d.
Proof. intros Hp Hr. eapply fetch_run; [done|apply (proj1 (split_step g z e m i c))|done]. Qed.

Lemma split_skip g z p e m n i c j d :
  fetch 0 (insts re) p (split_inst g z e m) -> runs n m i c j d -> runs (S n) (Some p) i c j d.
Proof. intros Hp Hr. eapply fetch_run; [done|apply (proj2 (split_step g z e m i c))|done]. Qed.

Lemma carries_mand x lo hi g l e m k :
  0 <= lo -> carries [x] e m -> carries (AIRY_RE_A_REPEAT x lo (pred_hi hi) g :: l) m k ->
  carries (AIRY_RE_A_REPEAT x (lo + 1) hi g :: l) e k.
Proof.
  intros Hlo Hx Hl i c j d n jf df Hm Hr. inversion Hm as [|? ? ? ? i' c' ? ? Hn Hm']; subst.
  destruct (repeat_less _ _ _ _ _ _ _ _ _ _ Hlo Hn) as (i1 & c1 & Hx1 & Hr1).
  destruct (Hl i1 c1 j d n jf df) as [n' Hr']; [by econstructor|done|].
  eapply Hx; [by apply amatches_one|done].
Qed.

Lemma carries_opt x hi g l p z e m k :
  0 < hi -> fetch 0 (insts re) p (split_inst g z e m) -> carries [x] e m ->
  carries (AIRY_RE_A_REPEAT x 0 (hi - 1) g :: l) m k -> carries (AIRY_RE_A_REPEAT x 0 hi g :: l) (Some p) k.
Proof.
  intros Hhi Hp Hx Hl i c j d n jf df Hm Hr. inversion Hm as [|? ? ? ? i' c' ? ? Hn Hm']; subst.
  inversion Hn as [| | | | | | | |? ? ? ? t ? ? ? ? H1 H2 H3|]; subst. destruct t as [|t].
  - destruct (Hl i c j d n jf df) as [n' Hr']; [|done|eauto using split_skip].
    inversion H3; subst. econstructor; [apply repeat_none; lia|done].
  - simpl in H3. inversion H3 as [|? ? ? ? i1 c1 ? ? Hx1 Ht]; subst.
    destruct (Hl i1 c1 j d n jf df) as [n' Hr']; [|done|].
    + econstructor; [|done]. apply (am_repeat _ _ _ _ _ _ t); [lia|lia|done].
    + destruct (Hx i c i1 c1 n' jf df) as [n1 Hr1]; [by apply amatches_one|done|eauto using split_body].
Qed.

Lemma carries_star x hi g l p z e m k :
  hi < 0 -> fetch 0 (insts re) p (split_inst g z e m) -> carries [x] e (Some p) ->
  carries l m k -> carries (AIRY_RE_A_REPEAT x 0 hi g :: l) (Some p) k.
Proof.
  intros Hhi Hp Hx Hl i c j d n jf df Hm Hr. inversion Hm as [|? ? ? ? i' c' ? ? Hn Hm']; subst.
  inversion Hn as [| | | | | | | |? ? ? ? t ? ? ? ? H1 H2 H3|]; subst. clear Hm Hn H1.
  revert i c H3. induction t as [|t IH]; intros i c H3; simpl in H3.
  - inversion H3; subst. destruct (Hl _ _ _ _ _ _ _ Hm' Hr) as [n' Hr']. eauto using split_skip.
  - inversion H3 as [|? ? ? ? i1 c1 ? ? Hx1 Ht]; subst. destruct (IH ltac:(by left) _ _ Ht) as [n' Hr'].
    destruct (Hx i c i1 c1 n' jf df) as [n1 Hr1]; [by apply amatches_one|done|eauto using split_body].
Qed.

(** Every match of the tree is a run of its program. *)
Lemma match_runs l e k : bytes_ok -> prog_code l e k -> forallb well_formed l = true -> carries l e k.
Proof.
  intros Hb Hc.
  induction Hc as [k|l e k Hc IH|x l i m k Hi Hc IH|x l i m k Hi Hc IH|tbl x l i m k Hi Ht Hc IH
    |x l i m k Hi Hc IH|inner gid l i e j m k Hi H1 IH1 Hj H2 IH2|x y l i z e1 e2 m k Hi H1 IH1 H2 IH2 H3 IH3
    |x g l e k Hc IH|x lo hi g l e m k Hlo H1 IH1 H2 IH2|x hi g l i z e m k Hhi Hi H1 IH1 H2 IH2
    |x hi g l i z e m k Hhi Hi H1 IH1 H2 IH2]; intros Hwf.
  - intros i c j d n jf df Hm Hr. inversion Hm; subst. eauto.
  - apply (carries_cons _ _ _ e); [|by apply IH]. intros i c j d n jf df Hm%amatches_one Hr. inversion Hm; subst. eauto.
  - eapply carries_cons; [eapply carries_step; [done|]|by apply IH]. intros ? ? ? ? Hm. inversion Hm; subst. by constructor.
  - eapply carries_cons; [eapply carries_step; [done|]|by apply IH]. intros ? ? ? ? Hm. inversion Hm; subst. by econstructor.
  - apply andb_prop in Hwf as [Hlen%Nat.eqb_eq Hwf].
    eapply carries_cons; [eapply carries_step; [done|]|by apply IH]. intros ? ? ? ? Hm.
    inversion Hm as [| | |? y ? ? Hy Hin| | | | | |]; subst. econstructor; [done|].
    rewrite (class_has_table _ _ _ Hlen Ht); [by rewrite Hin|]. by eapply bytes_lookup.
  - eapply carries_cons; [eapply carries_step; [done|]|by apply IH]. intros ? ? ? ? Hm. inversion Hm; subst; by constructor.
  - cbn [forallb well_formed] in Hwf. rewrite !andb_true_iff in Hwf.
    eapply carries_cons; [eapply carries_group; [done|apply IH1, Hwf|done]|apply IH2, Hwf].
  - cbn [forallb well_formed] in Hwf. rewrite !andb_true_iff in Hwf.
    eapply carries_cons; [eapply carries_alt; [done|apply IH1, Hwf|apply IH2, Hwf]|apply IH3, Hwf].
  - apply wf_repeat in Hwf as [_ Hwf].
    apply (carries_cons _ _ _ e); [|by apply IH]. intros i c j d n jf df Hm%amatches_one Hr.
    inversion Hm as [| | | | | | | |? ? ? ? t ? ? ? ? H1 H2 H3|]; subst. destruct t; [|lia]. inversion H3; subst. eauto.
  - apply wf_mand in Hwf as [Hwf1 Hwf2]; [|done]. eapply carries_mand; eauto.
  - apply wf_opt in Hwf as [Hwf1 Hwf2]; [|done]. eapply carries_opt; eauto.
  - apply wf_repeat in Hwf as [Hwf1 Hwf2]. eapply carries_star; eauto.
Qed.

(** ** The tree of a run *)

(** Every run through the program of [l] passes [k] after a match of [l]. *)
Definition splits_at (n : nat) (l : list airy_re_ast_t) (e k : option nat) : Prop :=
  forall n0 i c jf df, (n0 <= n)%nat -> runs n0 e i c jf df ->
  exists n' j d, (n' <= n0)%nat /\ amatches str start l i c j d /\ runs n' k j d jf df.

Lemma splits_cons n x l e m k : splits_at n [x] e m -> splits_at n l m k -> splits_at n (x :: l) e k.
Proof.
  intros Hx Hl n0 i c jf df Hn Hr. destruct (Hx _ _ _ _ _ Hn Hr) as (n1 & j1 & d1 & Hn1 & Hm1%amatches_one & Hr1).
  destruct (Hl n1 _ _ _ _ ltac:(lia) Hr1) as (n2 & j2 & d2 & Hn2 & Hm2 & Hr2).
  exists n2, j2, d2. split_and!; [lia|by econstructor|done].
Qed.

Lemma splits_step n x p ip m :
  fetch 0 (insts re) p ip -> i_op ip <> AIRY_RE_I_MATCH ->
  (forall i c m' j d, step ip i c m' j d -> m' = m /\ amatch str start x i c j d) -> splits_at n [x] (Some p) m.
Proof.
  intros Hp Hop Hx n0 i c jf df Hn Hr. destruct (fetch_run_inv _ _ _ _ _ _ _ Hp Hop Hr) as (n1 & m' & j & d & -> & Hs & Hr1).
  destruct (Hx _ _ _ _ _ Hs) as [-> Hm]. exists n1, j, d. split_and!; [lia|by apply amatches_one|done].
Qed.

Lemma splits_group n inner gid p e q m :
  fetch 0 (insts re) p (Inst AIRY_RE_I_SAVE (gid * 2) e None) -> splits_at n inner e (Some q) ->
  fetch 0 (insts re) q (Inst AIRY_RE_I_SAVE (gid * 2 + 1) m None) -> splits_at n [AIRY_RE_A_GROUP inner gid] (Some p) m.
Proof.
  intros Hp Hin Hq n0 i c jf df Hn Hr.
  destruct (fetch_run_inv _ _ _ _ _ _ _ Hp ltac:(done) Hr) as (n1 & m1 & i1 & c1 & -> & Hs1 & Hr1). inversion Hs1; subst.
  destruct (Hin n1 _ _ _ _ ltac:(lia) Hr1) as (n2 & j & d & Hn2 & Hm & Hr2).
  destruct (fetch_run_inv _ _ _ _ _ _ _ Hq ltac:(done) Hr2) as (n3 & m3 & i3 & c3 & -> & Hs3 & Hr3). inversion Hs3; subst.
  eexists n3, _, _. split_and!; [lia|apply amatches_one; by econstructor|done].
Qed.

Lemma splits_alt n x y p z e1 e2 m :
  fetch 0 (insts re) p (Inst AIRY_RE_I_SPLIT z e1 e2) -> splits_at n x e1 m -> splits_at n y e2 m ->
  splits_at n [AIRY_RE_A_ALT x y] (Some p) m.
Proof.
  intros Hp Hx Hy n0 i c jf df Hn Hr.
  destruct (fetch_run_inv _ _ _ _ _ _ _ Hp ltac:(done) Hr) as (n1 & m1 & i1 & c1 & -> & Hs1 & Hr1).
  inversion Hs1; subst.
  - destruct (Hx n1 _ _ _ _ ltac:(lia) Hr1) as (n2 & j & d & Hn2 & Hm & Hr2).
    exists n2, j, d. split_and!; [lia|apply amatches_one; by apply am_left|done].
  - destruct (Hy n1 _ _ _ _ ltac:(lia) Hr1) as (n2 & j & d & Hn2 & Hm & Hr2).
    exists n2, j, d. split_and!; [lia|apply amatches_one; by apply am_right|done].
Qed.

Lemma split_run_inv g z p e m n i c j d :
  fetch 0 (insts re) p (split_inst g z e m) -> runs n (Some p) i c j d ->
  exists n', n = S n' /\ (runs n' e i c j d \/ runs n' m i c j d).
Proof.
  intros Hp Hr. destruct (fetch_run_inv _ _ _ _ _ _ _ Hp ltac:(by destruct g) Hr) as (n1 & m1 & i1 & c1 & -> & Hs1 & Hr1).
  exists n1. split; [done|]. destruct g; inversion Hs1; subst; auto.
Qed.

Lemma splits_mand n x lo hi g l e m k :
  0 <= lo -> (hi < 0 \/ 0 < hi) -> splits_at n [x] e m -> splits_at n (AIRY_RE_A_REPEAT x lo (pred_hi hi) g :: l) m k ->
  splits_at n (AIRY_RE_A_REPEAT x (lo + 1) hi g :: l) e k.
Proof.
  intros Hlo Hhi Hx Hl n0 i c jf df Hn Hr.
  destruct (Hx _ _ _ _ _ Hn Hr) as (n1 & j1 & d1 & Hn1 & Hm1%amatches_one & Hr1).
  destruct (Hl n1 _ _ _ _ ltac:(lia) Hr1) as (n2 & j2 & d2 & Hn2 & Hm2 & Hr2).
  inversion Hm2 as [|? ? ? ? i' c' ? ? Hm3 Hm4]; subst. exists n2, j2, d2. split_and!; [lia| |done].
  econstructor; [by eapply repeat_more|done].
Qed.

Lemma splits_opt n x hi g l p z e m k :
  0 < hi -> fetch 0 (insts re) p (split_inst g z e m) -> splits_at n [x] e m ->
  splits_at n (AIRY_RE_A_REPEAT x 0 (hi - 1) g :: l) m k -> splits_at n (AIRY_RE_A_REPEAT x 0 hi g :: l) (Some p) k.
Proof.
  intros Hhi Hp Hx Hl n0 i c jf df Hn Hr. destruct (split_run_inv _ _ _ _ _ _ _ _ _ _ Hp Hr) as (n1 & -> & [Hr1|Hr1]).
  - destruct (splits_mand n x 0 hi g l e m k) with (n0 := n1) (i := i) (c := c) (jf := jf) (df := df)
      as (n2 & j & d & Hn2 & Hm & Hr2); [lia|lia|done| |lia|done|].
    + unfold pred_hi. by rewrite (proj2 (Z.ltb_ge hi 0)) by lia.
    + exists n2, j, d. split_and!; [lia| |done]. inversion Hm as [|? ? ? ? i' c' ? ? Hm3 Hm4]; subst.
      econstructor; [|done]. inversion Hm3; subst. econstructor; [|done|done]. lia.
  - destruct (Hl n1 _ _ _ _ ltac:(lia) Hr1) as (n2 & j & d & Hn2 & Hm & Hr2).
    exists n2, j, d. split_and!; [lia| |done]. inversion Hm as [|? ? ? ? i' c' ? ? Hm3 Hm4]; subst.
    econstructor; [|done]. inversion Hm3; subst. econstructor; [done| |done]. lia.
Qed.

Lemma splits_star n x hi g l p z e m k :
  hi < 0 -> fetch 0 (insts re) p (split_inst g z e m) -> splits_at n [x] e (Some p) ->
  splits_at n l m k -> splits_at n (AIRY_RE_A_REPEAT x 0 hi g :: l) (Some p) k.
Proof.
  intros Hhi Hp Hx Hl n0. induction (lt_wf n0) as [n0 _ IH]. intros i c jf df Hn Hr.
  destruct (split_run_inv _ _ _ _ _ _ _ _ _ _ Hp Hr) as (n1 & -> & [Hr1|Hr1]).
  - destruct (Hx n1 _ _ _ _ ltac:(lia) Hr1) as (n2 & j & d & Hn2 & Hm%amatches_one & Hr2).
    destruct (IH n2 ltac:(lia) _ _ _ _ ltac:(lia) Hr2) as (n3 & j3 & d3 & Hn3 & Hm3 & Hr3).
    exists n3, j3, d3. split_and!; [lia| |done]. inversion Hm3 as [|? ? ? ? i' c' ? ? Hm4 Hm5]; subst.
    econstructor; [|done]. inversion Hm4 as [| | | | | | | |? ? ? ? t ? ? ? ? H1 H2 H3|]; subst.
    apply (am_repeat _ _ _ _ _ _ (S t)); [lia|by left|]. simpl. by econstructor.
  - destruct (Hl n1 _ _ _ _ ltac:(lia) Hr1) as (n2 & j & d & Hn2 & Hm & Hr2).
    exists n2, j, d. split_and!; [lia| |done]. econstructor; [apply repeat_none; lia|done].
Qed.

Lemma runs_match_tree n l e k :
  bytes_ok -> prog_code l e k -> forallb well_formed l = true -> splits_at n l e k.
Proof.
  intros Hb Hc.
  induction Hc as [k|l e k Hc IH|x l i m k Hi Hc IH|x l i m k Hi Hc IH|tbl x l i m k Hi Ht Hc IH
    |x l i m k Hi Hc IH|inner gid l i e j m k Hi H1 IH1 Hj H2 IH2|x y l i z e1 e2 m k Hi H1 IH1 H2 IH2 H3 IH3
    |x g l e k Hc IH|x lo hi g l e m k Hlo H1 IH1 H2 IH2|x hi g l i z e m k Hhi Hi H1 IH1 H2 IH2
    |x hi g l i z e m k Hhi Hi H1 IH1 H2 IH2]; intros Hwf.
  - intros n0 i c jf df Hn Hr. exists n0, i, c. split_and!; [done|constructor|done].
  - apply (splits_cons _ _ _ _ e); [|by apply IH]. intros n0 i c jf df Hn Hr. exists n0, i, c.
    split_and!; [done|apply amatches_one; constructor|done].
  - eapply splits_cons; [eapply splits_step; [done|done|]|by apply IH].
    intros ? ? ? ? ? Hs. inversion Hs; subst. split; [done|by constructor].
  - eapply splits_cons; [eapply splits_step; [done|done|]|by apply IH].
    intros ? ? ? ? ? Hs. inversion Hs; subst. split; [done|by econstructor].
  - apply andb_prop in Hwf as [Hlen%Nat.eqb_eq Hwf]. eapply splits_cons; [eapply splits_step; [done|done|]|by apply IH].
    intros ? ? ? ? ? Hs. inversion Hs as [| |? ? ? y ? ? Hy Hh| | | | | |]; subst. split; [done|]. econstructor; [done|].
    rewrite (class_has_table _ _ _ Hlen Ht) in Hh; [by injection Hh|]. by eapply bytes_lookup.
  - eapply splits_cons; [eapply splits_step; [done|done|]|by apply IH].
    intros ? ? ? ? ? Hs. inversion Hs; subst; (split; [done|by constructor]).
  - cbn [forallb well_formed] in Hwf. rewrite !andb_true_iff in Hwf.
    eapply splits_cons; [eapply splits_group; [done|apply IH1, Hwf|done]|apply IH2, Hwf].
  - cbn [forallb well_formed] in Hwf. rewrite !andb_true_iff in Hwf.
    eapply splits_cons; [eapply splits_alt; [done|apply IH1, Hwf|apply IH2, Hwf]|apply IH3, Hwf].
  - apply wf_repeat in Hwf as [_ Hwf]. apply (splits_cons _ _ _ _ e); [|by apply IH].
    intros n0 i c jf df Hn Hr. exists n0, i, c. split_and!; [done|apply amatches_one, repeat_none; lia|done].
  - pose proof (wf_mand_hi _ _ _ _ _ Hlo Hwf) as Hhi. apply wf_mand in Hwf as [Hwf1 Hwf2]; [|done]. eapply splits_mand; eauto.
  - apply wf_opt in Hwf as [Hwf1 Hwf2]; [|done]. eapply splits_opt; eauto.
  - apply wf_repeat in Hwf as [Hwf1 Hwf2]. eapply splits_star; eauto.
Qed.

(** ** The machine follows the runs *)

(** What the result of the machine from [pc] at [i] says. *)
Definition verdict (vm : airy_re_vm_t) (pc : option nat) (i : nat) (r : bool) (vm' : airy_re_vm_t) : Prop :=
  if r then exists n j, runs n pc i (caps vm) j (caps vm')
  else overflow vm' = false -> depth vm' = depth vm - 1 /\ forall n j d, ~ runs n pc i (caps vm) j d.

Lemma char_at_some i : bytes_ok -> char_at str i <> 0 -> str !! i = Some (char_at str i).
Proof. intros Hb. unfold char_at. by destruct (str !! i). Qed.

Lemma char_at_eq i y : bytes_ok -> str !! i = Some y -> char_at str i = y /\ y <> 0.
Proof. intros Hb Hy. unfold char_at. rewrite Hy. split; [done|]. by eapply bytes_lookup. Qed.

Lemma char_at_end i : bytes_ok -> (i <= length str)%nat -> char_at str i = 0 <-> i = length str.
Proof.
  intros Hb Hi. unfold char_at. split.
  - intros H0. destruct (str !! i) as [y|] eqn:Hy; [|apply lookup_ge_None in Hy; lia].
    by destruct (bytes_lookup i y Hb Hy).
  - intros ->. by rewrite lookup_ge_None_2 by lia.
Qed.

Lemma verdict_fail vm p ip i :
  insts re !! p = Some ip -> i_op ip <> AIRY_RE_I_MATCH -> (forall m i' c', ~ step ip i (caps vm) m i' c') ->
  verdict vm (Some p) i false (set_depth (depth vm - 1) vm).
Proof.
  intros Hp Hop Hs _. split; [done|]. intros n j d Hr.
  destruct (fetch_run_inv n p ip i (caps vm) j d) as (? & ? & ? & ? & _ & Hst & _); [by split; [lia|]|done|done|].
  by eapply Hs.
Qed.

(** An instruction with one successor. *)
Lemma verdict_next vm1 vm p ip m i i' r vm' :
  insts re !! p = Some ip -> i_op ip <> AIRY_RE_I_MATCH -> depth vm1 = depth vm ->
  step ip i (caps vm) m i' (caps vm1) ->
  (forall m2 i2 c2, step ip i (caps vm) m2 i2 c2 -> m2 = m /\ i2 = i' /\ c2 = caps vm1) ->
  verdict vm1 m i' r vm' -> verdict vm (Some p) i r vm'.
Proof.
  intros Hp Hop Hd Hs Hdet. destruct r; simpl.
  - intros (n & j & Hr). exists (S n), j. by eapply runs_step.
  - intros Hv Ho. destruct (Hv Ho) as [Hd' Hno]. split; [congruence|]. intros n j d Hr.
    destruct (fetch_run_inv n p ip i (caps vm) j d) as (n' & m2 & i2 & c2 & -> & Hst & Hr'); [by split; [lia|]|done|done|].
    destruct (Hdet _ _ _ Hst) as (-> & -> & ->). by eapply Hno.
Qed.

(** The verdict of a call, which restores the depth. *)
Definition call_verdict (vm : airy_re_vm_t) (pc : option nat) (i : nat) (r : bool) (vm' : airy_re_vm_t) : Prop :=
  if r then exists n j, runs n pc i (caps vm) j (caps vm')
  else overflow vm' = false -> depth vm' = depth vm /\ forall n j d, ~ runs n pc i (caps vm) j d.

Lemma enter_verdict loop vm pc i r vm' :
  (forall vm1 r1 vm1', loop vm1 pc i = Ret (r1, vm1') -> verdict vm1 pc i r1 vm1') ->
  enter loop vm pc i = Ret (r, vm') -> call_verdict vm pc i r vm'.
Proof.
  intros Hl. unfold enter. destruct (Z.ltb_spec AIRY_RE_MAX_DEPTH (depth vm + 1)).
  - intros [= <- <-]. done.
  - intros Hr%Hl. destruct r; [done|]. intros Ho. destruct (Hr Ho) as [Hd Hno]. simpl in *. split; [lia|done].
Qed.

Lemma verdict_split loop vm p ip i r vm' :
  (forall vm1 pc1 r1 vm1', loop vm1 pc1 i = Ret (r1, vm1') -> verdict vm1 pc1 i r1 vm1') ->
  insts re !! p = Some ip -> i_op ip = AIRY_RE_I_SPLIT ->
  match enter loop vm (i_a ip) i with
  | Ret (true, vm) => Ret (true, vm)
  | Ret (false, vm1) =>
      if overflow vm1 then leave false vm1
      else match enter loop (set_caps (caps vm) vm1) (i_b ip) i with Ret (r, vm) => leave r vm | o => o end
  | o => o
  end = Ret (r, vm') -> verdict vm (Some p) i r vm'.
Proof.
  intros Hl Hp Hop. destruct ip as [o x ma mb]. simpl in Hop. subst o. simpl i_a. simpl i_b.
  destruct (enter loop vm ma i) as [[r1 vm1]| |] eqn:H1; [|done|done].
  apply enter_verdict in H1; [|eauto]. destruct r1.
  { intros [= <- <-]. destruct H1 as (n & j & Hr). exists (S n), j. eapply runs_step; [done|apply step_left|done]. }
  destruct (overflow vm1) eqn:Ho1; [intros [= <- <-]; simpl; congruence|].
  destruct (H1 Ho1) as [Hd1 Hno1]. destruct (enter _ _ mb i) as [[r2 vm2]| |] eqn:H2; [|done|done].
  apply enter_verdict in H2; [|eauto]. intros [= <- <-]. destruct r2; simpl in *.
  - destruct H2 as (n & j & Hr). exists (S n), j. eapply runs_step; [done|apply step_right|done].
  - intros Ho2. destruct (H2 Ho2) as [Hd2 Hno2]. split; [lia|]. intros n j d Hr.
    destruct (fetch_run_inv n p (Inst AIRY_RE_I_SPLIT x ma mb) i (caps vm) j d)
      as (n' & m2 & i2 & c2 & -> & Hst & Hr'); [by split; [lia|]|done|done|].
    inversion Hst; subst; [by eapply Hno1|by eapply Hno2].
Qed.

(** A step other than a branch has one outcome. *)
Lemma step_det o x m b i c i' c' m2 i2 c2 :
  o <> AIRY_RE_I_SPLIT -> step (Inst o x m b) i c m i' c' -> step (Inst o x m b) i c m2 i2 c2 ->
  m2 = m /\ i2 = i' /\ c2 = c'.
Proof. intros Ho H1 H2. inversion H1; subst; inversion H2; subst; done. Qed.

(** An instruction that tests the text and goes on, or fails. *)
Lemma verdict_test loop (test : bool) vm p o x m b i i' r vm' :
  insts re !! p = Some (Inst o x m b) -> o <> AIRY_RE_I_MATCH -> o <> AIRY_RE_I_SPLIT ->
  (test = true -> step (Inst o x m b) i (caps vm) m i' (caps vm)) ->
  (forall m2 i2 c2, step (Inst o x m b) i (caps vm) m2 i2 c2 -> test = true) ->
  (test = true -> loop vm m i' = Ret (r, vm') -> verdict vm m i' r vm') ->
  (if test then loop vm m i' else leave false vm) = Ret (r, vm') -> verdict vm (Some p) i r vm'.
Proof.
  intros Hp Hm Hs Hok Hno Hl. destruct test.
  - intros Hr%Hl; [|done]. eapply (verdict_next vm); [done|done|done|by apply Hok| |done].
    intros. eapply step_det; [done|by apply Hok|done].
  - intros [= <- <-]. eapply verdict_fail; [done|done|]. intros ? ? ? Hst%Hno. done.
Qed.

(** The test of each instruction that reads the text. *)
Definition test_of (o : airy_re_op) (x : Z) (i : nat) : bool :=
  match o with
  | AIRY_RE_I_CHAR => negb (char_at str i =? 0) && (char_at str i =? u8 x)
  | AIRY_RE_I_ANY => negb (char_at str i =? 0)
  | AIRY_RE_I_CLASS => negb (char_at str i =? 0) && bool_decide (class_has re x (char_at str i) = Some true)
  | AIRY_RE_I_ANCHOR => if x =? CARET then (i =? 0)%nat else char_at str i =? 0
  | _ => false
  end.

Definition moves (o : airy_re_op) : bool :=
  match o with AIRY_RE_I_CHAR | AIRY_RE_I_ANY | AIRY_RE_I_CLASS => true | _ => false end.

Definition is_class (o : airy_re_op) : bool := match o with AIRY_RE_I_CLASS => true | _ => false end.

Definition reads (o : airy_re_op) : bool := match o with AIRY_RE_I_ANCHOR => true | _ => moves o end.

Lemma test_step o x m b i c :
  bytes_ok -> (i <= length str)%nat -> reads o = true -> test_of o x i = true ->
  step (Inst o x m b) i c m (if moves o then S i else i) c /\ ((if moves o then S i else i) <= length str)%nat.
Proof.
  intros Hb Hi Ho Ht. unfold reads in Ho. destruct o; simpl in *; try done.
  - apply andb_prop in Ht as [H0%negb_true_iff%Z.eqb_neq H1%Z.eqb_eq].
    pose proof (char_at_some i Hb H0) as Hc. rewrite H1 in Hc. split; [by constructor|]. by apply lookup_lt_Some in Hc.
  - apply negb_true_iff, Z.eqb_neq in Ht. pose proof (char_at_some i Hb Ht) as Hc.
    split; [by econstructor|]. by apply lookup_lt_Some in Hc.
  - apply andb_prop in Ht as [H0%negb_true_iff%Z.eqb_neq H1%bool_decide_eq_true].
    pose proof (char_at_some i Hb H0) as Hc. split; [by econstructor|]. by apply lookup_lt_Some in Hc.
  - split; [|done]. destruct (Z.eqb_spec x CARET) as [->|Hx].
    + apply Nat.eqb_eq in Ht as ->. constructor.
    + apply Z.eqb_eq in Ht. apply char_at_end in Ht as ->; [|done..]. by constructor.
Qed.

Lemma step_test o x m b i c m2 i2 c2 :
  bytes_ok -> reads o = true -> step (Inst o x m b) i c m2 i2 c2 -> test_of o x i = true.
Proof.
  intros Hb Ho Hs. inversion Hs as [? ? ? ? ? Hy|? ? ? y ? ? Hy|? ? ? y ? ? Hy Hh| | | | | |]; subst; simpl; try done.
  - destruct (char_at_eq i (u8 x) Hb Hy) as [-> H0]. by rewrite Z.eqb_refl, (proj2 (Z.eqb_neq _ _) H0).
  - destruct (char_at_eq i y Hb Hy) as [-> H0]. by rewrite (proj2 (Z.eqb_neq _ _) H0).
  - destruct (char_at_eq i y Hb Hy) as [-> H0]. rewrite (proj2 (Z.eqb_neq _ _) H0), Hh. done.
  - rewrite (proj2 (Z.eqb_neq _ _)) by done. apply Z.eqb_eq, char_at_end; done.
Qed.

(** A turn of the loop at an instruction that reads the text. *)
Lemma run_reads fuel vm p o x m b i :
  insts re !! p = Some (Inst o x m b) -> reads o = true ->
  run_loop re str start (S fuel) vm (Some p) i =
    if test_of o x i then run_loop re str start fuel vm m (if moves o then S i else i)
    else if is_class o && negb (char_at str i =? 0) &&
            bool_decide (class_has re x (char_at str i) = None) then Undef
    else leave false vm.
Proof.
  intros Hp Ho. cbn [run_loop]. rewrite Hp. cbn [i_op i_c i_a]. destruct o; simpl; try done.
  - destruct (char_at str i =? 0); simpl; [done|]. by destruct (class_has re x (char_at str i)) as [[]|].
  - by destruct (x =? CARET), (i =? 0)%nat, (char_at str i =? 0).
Qed.

Lemma run_verdict fuel vm pc i r vm' :
  bytes_ok -> (i <= length str)%nat ->
  run_loop re str start fuel vm pc i = Ret (r, vm') -> verdict vm pc i r vm'.
Proof.
  intros Hb. revert vm pc i r vm'. induction fuel as [|fuel IH]; intros vm pc i r vm' Hi Hr.
  { destruct pc; [done|]. injection Hr as <- <-. exists 0%nat, i. constructor. }
  destruct pc as [p|]; [|injection Hr as <- <-; exists 0%nat, i; constructor].
  destruct (insts re !! p) as [[o x m b]|] eqn:Hp; [|cbn [run_loop] in Hr; by rewrite Hp in Hr].
  destruct (reads o) eqn:Ho.
  - rewrite (run_reads _ _ _ _ _ _ _ _ Hp Ho) in Hr.
    eapply (verdict_test (run_loop re str start fuel) (test_of o x i) vm p o x m b i (if moves o then S i else i));
      [done|by intros ->|by intros ->|by intros; eapply test_step|by intros; eapply step_test| |].
    + intros Ht Hl. eapply IH; [|done]. by eapply test_step.
    + destruct (test_of o x i); [done|]. by destruct (_ && _).
  - cbn [run_loop] in Hr. rewrite Hp in Hr. destruct o; cbn [i_op i_c i_a i_b] in Hr; try done.
    + destruct (Nat.ltb_spec (Z.to_nat x) (length (caps vm))); [|done]. apply IH in Hr; [|done].
      refine (verdict_next (set_caps (save start x i (caps vm)) vm) vm p _ m i i r vm' Hp _ _
        (step_save x m b i (caps vm)) _ Hr); [done|done|].
      intros m2 i2 c2 Hs. by inversion Hs.
    + eapply (verdict_split (run_loop re str start fuel)); [|done|done|exact Hr]. intros. by eapply IH.
    + apply IH in Hr; [|done]. eapply (verdict_next vm); [done..|by constructor| |done].
      intros m2 i2 c2 Hs. by inversion Hs.
    + injection Hr as <- <-. exists 0%nat, i. by eapply runs_match.
Qed.

(** ** The machine returns *)

Definition is_split (ip : airy_re_inst_t) : bool := match i_op ip with AIRY_RE_I_SPLIT => true | _ => false end.

(** With [d] calls left, the machine returns from [pc] at [i]. *)
Definition ready (d : nat) (pc : option nat) (i : nat) : Prop :=
  exists vs, trail (insts re) is_split pc vs /\
  forall vm f, length (caps vm) = 20%nat -> depth vm = AIRY_RE_MAX_DEPTH - Z.of_nat d ->
    (length vs + d * S (length (insts re)) <= f)%nat ->
    exists r vm', run_loop re str start f vm pc i = Ret (r, vm') /\ length (caps vm') = 20%nat.

Lemma ready_end d i : ready d None i.
Proof. exists []. split; [constructor|]. intros vm f Hc Hd Hf. exists true, (set_depth (depth vm - 1) vm). by destruct f. Qed.

Lemma ready_reads d p o x m i :
  bytes_ok -> (i <= length str)%nat -> fetch 0 (insts re) p (Inst o x m None) -> reads o = true ->
  (o = AIRY_RE_I_CLASS -> exists tbl, length tbl = 32%nat /\ has_table (re_tables re) x tbl) ->
  (forall j, (j <= length str)%nat -> ready d m j) -> ready d (Some p) i.
Proof.
  intros Hb Hi [_ Hp] Ho Hcl Hm. destruct (Hm i Hi) as (vs & Ht & _). exists (p :: vs). split.
  { eapply trail_step; [done| |done]. by destruct o. }
  intros vm f Hc Hd Hf. destruct f as [|f]; simpl in Hf; [lia|].
  rewrite (run_reads _ _ _ _ _ _ _ _ Hp Ho). destruct (test_of o x i) eqn:Htest.
  - destruct (test_step o x m None i (caps vm) Hb Hi Ho Htest) as [_ Hle].
    destruct (Hm _ Hle) as (vs' & Ht' & Hrun). rewrite (trail_inj _ _ _ _ _ Ht' Ht) in Hrun. apply Hrun; [done|done|lia].
  - destruct (is_class o) eqn:Hcls; simpl; [|by eexists _, _].
    destruct o; try done. destruct Hcl as (tbl & Hlen & Htbl); [done|].
    destruct (Z.eqb_spec (char_at str i) 0) as [H0|H0]; simpl; [by eexists _, _|].
    rewrite (class_has_table x tbl); [|done|done|]; [by eexists _, _|].
    eapply bytes_lookup; [done|]. by apply char_at_some.
Qed.

Lemma ready_save d p x m i :
  fetch 0 (insts re) p (Inst AIRY_RE_I_SAVE x m None) -> 0 <= x < 20 -> ready d m i -> ready d (Some p) i.
Proof.
  intros [_ Hp] Hx (vs & Ht & Hrun). exists (p :: vs). split; [by eapply trail_step|].
  intros vm f Hc Hd Hf. destruct f as [|f]; simpl in Hf; [lia|]. cbn [run_loop]. rewrite Hp. cbn [i_op i_c i_a].
  destruct (Nat.ltb_spec (Z.to_nat x) (length (caps vm))); [|lia].
  apply Hrun; [simpl; by rewrite length_insert|done|lia].
Qed.

Lemma enter_ready d f vm pc i :
  bytes_ok -> (i <= length str)%nat -> (d * S (length (insts re)) <= f)%nat ->
  (forall d', d = S d' -> ready d' pc i) -> length (caps vm) = 20%nat -> depth vm = AIRY_RE_MAX_DEPTH - Z.of_nat d ->
  exists r vm', enter (run_loop re str start f) vm pc i = Ret (r, vm') /\
    length (caps vm') = 20%nat /\ call_verdict vm pc i r vm'.
Proof.
  intros Hb Hi Hf Hr Hc Hd.
  assert (exists r vm', enter (run_loop re str start f) vm pc i = Ret (r, vm') /\ length (caps vm') = 20%nat)
    as (r & vm' & He & Hc').
  { unfold enter. destruct (Z.ltb_spec AIRY_RE_MAX_DEPTH (depth vm + 1)); [by eexists _, _|].
    destruct d as [|d]; [lia|]. destruct (Hr d eq_refl) as (vs & Ht & Hrun).
    apply Hrun; [done|simpl; lia|]. apply trail_length in Ht. lia. }
  exists r, vm'. split_and!; [done|done|]. eapply enter_verdict; [|done]. intros. by eapply run_verdict.
Qed.

Lemma ready_split d p ip i :
  bytes_ok -> (i <= length str)%nat -> fetch 0 (insts re) p ip -> i_op ip = AIRY_RE_I_SPLIT ->
  (forall d', d = S d' -> ready d' (i_a ip) i /\ ready d' (i_b ip) i) -> ready d (Some p) i.
Proof.
  intros Hb Hi [_ Hp] Hop Hr. exists [p]. split; [eapply trail_stop; [done|]; unfold is_split; by rewrite Hop|].
  intros vm f Hc Hd Hf. destruct f as [|f]; simpl in Hf; [lia|]. cbn [run_loop]. rewrite Hp, Hop.
  destruct (enter_ready d f vm (i_a ip) i) as (r1 & vm1 & -> & Hc1 & Hv1); [done|done|lia|by intros; apply Hr|done|done|].
  destruct r1; [by eexists _, _|]. destruct (overflow vm1) eqn:Ho; [by eexists _, _|]. destruct (Hv1 Ho) as [Hd1 _].
  destruct (enter_ready d f (set_caps (caps vm) vm1) (i_b ip) i) as (r2 & vm2 & -> & Hc2 & _);
    [done|done|lia|by intros; apply Hr|done|simpl; lia|]. by eexists _, _.
Qed.

Lemma ready_branch d p g z e m i :
  bytes_ok -> (i <= length str)%nat -> fetch 0 (insts re) p (split_inst g z e m) ->
  (forall d', d = S d' -> ready d' e i /\ ready d' m i) -> ready d (Some p) i.
Proof.
  intros Hb Hi Hp Hr. eapply ready_split; [done|done|done|by destruct g|]. intros d' Hd. destruct (Hr d' Hd). by destruct g.
Qed.

Definition ready_upto (d : nat) (pc : option nat) : Prop :=
  forall d' j, (d' <= d)%nat -> (j <= length str)%nat -> ready d' pc j.

Lemma ready_upto_mono d d' pc : (d' <= d)%nat -> ready_upto d pc -> ready_upto d' pc.
Proof. intros Hd H d1 j Hd1 Hj. apply H; [lia|done]. Qed.

Lemma ready_star d p g z e m :
  bytes_ok -> fetch 0 (insts re) p (split_inst g z e m) ->
  (forall d', ready_upto d' (Some p) -> ready_upto d' e) -> ready_upto d m -> ready_upto d (Some p).
Proof.
  intros Hb Hp He Hm. induction d as [|d IH]; intros d' j Hd' Hj.
  - eapply ready_branch; [done|done|done|]. lia.
  - eapply ready_branch; [done|done|done|]. intros d1 ->. split.
    + apply (He d); [apply IH; eapply ready_upto_mono; [|done]; lia|lia|done].
    + apply Hm; [lia|done].
Qed.

Lemma ready_code l e k :
  bytes_ok -> prog_code l e k -> forallb well_formed l = true -> forall d, ready_upto d k -> ready_upto d e.
Proof.
  intros Hb Hc.
  induction Hc as [k|l e k Hc IH|x l i m k Hi Hc IH|x l i m k Hi Hc IH|tbl x l i m k Hi Ht Hc IH
    |x l i m k Hi Hc IH|inner gid l i e j m k Hi H1 IH1 Hj H2 IH2|x y l i z e1 e2 m k Hi H1 IH1 H2 IH2 H3 IH3
    |x g l e k Hc IH|x lo hi g l e m k Hlo H1 IH1 H2 IH2|x hi g l i z e m k Hhi Hi H1 IH1 H2 IH2
    |x hi g l i z e m k Hhi Hi H1 IH1 H2 IH2]; intros Hwf d Hk.
  - done.
  - by apply IH.
  - intros d' j Hd Hj. eapply ready_reads; [done..|]. intros. by apply (IH Hwf d Hk).
  - intros d' j Hd Hj. eapply ready_reads; [done..|]. intros. by apply (IH Hwf d Hk).
  - apply andb_prop in Hwf as [Hlen%Nat.eqb_eq Hwf].
    intros d' j Hd Hj. eapply ready_reads; [done..|by exists tbl|]. intros. by apply (IH Hwf d Hk).
  - intros d' j Hd Hj. eapply ready_reads; [done..|]. intros. by apply (IH Hwf d Hk).
  - cbn [forallb well_formed] in Hwf. rewrite !andb_true_iff in Hwf.
    assert (1 <= gid < AIRY_RE_MAX_GROUPS) as Hgid by lia. unfold AIRY_RE_MAX_GROUPS in Hgid.
    intros d' j' Hd Hj'. eapply ready_save; [done|lia|]. apply (IH1 ltac:(tauto) d); [|done|done].
    intros d1 j1 Hd1 Hj1. eapply ready_save; [done|lia|]. by apply (IH2 ltac:(tauto) d Hk).
  - cbn [forallb well_formed] in Hwf. rewrite !andb_true_iff in Hwf.
    pose proof (IH3 ltac:(tauto) d Hk) as Hm. intros d' j Hd Hj. eapply ready_split; [done|done|done|done|].
    intros d1 ->. simpl. split; [apply (IH1 ltac:(tauto) d Hm)|apply (IH2 ltac:(tauto) d Hm)]; try done; lia.
  - apply wf_repeat in Hwf as [_ Hwf]. by apply IH.
  - apply wf_mand in Hwf as [Hwf1 Hwf2]; [|done]. auto.
  - apply wf_opt in Hwf as [Hwf1 Hwf2]; [|done]. pose proof (IH2 Hwf2 d Hk) as Hm.
    intros d' j Hd Hj. eapply ready_branch; [done..|]. intros d1 ->.
    split; [apply (IH1 Hwf1 d Hm)|apply Hm]; try done; lia.
  - apply wf_repeat in Hwf as [Hwf1 Hwf2]. eapply ready_star; [done|done|by apply IH1|by apply IH2].
Qed.

(** ** The depth of the machine *)

(** [D] nested calls are enough from [pc] at [i]. *)
Definition calm (D : nat) (pc : option nat) (i : nat) : Prop :=
  forall vm f r vm', overflow vm = false -> depth vm + Z.of_nat D <= AIRY_RE_MAX_DEPTH ->
    run_loop re str start f vm pc i = Ret (r, vm') -> overflow vm' = false.

Lemma calm_mono D D' pc i : (D <= D')%nat -> calm D pc i -> calm D' pc i.
Proof. intros HD Hc vm f r vm' Ho Hd Hr. eapply Hc; [done| |done]. lia. Qed.

Lemma calm_end D i : calm D None i.
Proof. intros vm f r vm' Ho Hd Hr. destruct f; injection Hr as <- <-; done. Qed.

Lemma calm_reads D p o x m i :
  bytes_ok -> (i <= length str)%nat -> fetch 0 (insts re) p (Inst o x m None) -> reads o = true ->
  (test_of o x i = true -> calm D m (if moves o then S i else i)) -> calm D (Some p) i.
Proof.
  intros Hb Hi [_ Hp] Ho Hm vm f r vm' Hov Hd Hr. destruct f as [|f]; [done|].
  rewrite (run_reads _ _ _ _ _ _ _ _ Hp Ho) in Hr. destruct (test_of o x i); [by eapply Hm|].
  destruct (_ && _); [done|]. by injection Hr as <- <-.
Qed.

Lemma calm_save D p x m i : fetch 0 (insts re) p (Inst AIRY_RE_I_SAVE x m None) -> calm D m i -> calm D (Some p) i.
Proof.
  intros [_ Hp] Hm vm f r vm' Hov Hd Hr. destruct f as [|f]; [done|]. cbn [run_loop] in Hr. rewrite Hp in Hr.
  cbn [i_op i_c i_a] in Hr. destruct (_ <? _)%nat; [|done]. by eapply Hm in Hr.
Qed.

Lemma calm_enter D f vm pc i r vm' :
  calm D pc i -> overflow vm = false -> depth vm + Z.of_nat (S D) <= AIRY_RE_MAX_DEPTH ->
  enter (run_loop re str start f) vm pc i = Ret (r, vm') -> overflow vm' = false.
Proof.
  intros Hc Ho Hd. unfold enter. destruct (Z.ltb_spec AIRY_RE_MAX_DEPTH (depth vm + 1)); [lia|].
  intros Hr. eapply Hc; [| |exact Hr]; [done|simpl; lia].
Qed.

Lemma calm_split D p ip i :
  bytes_ok -> (i <= length str)%nat -> fetch 0 (insts re) p ip -> i_op ip = AIRY_RE_I_SPLIT ->
  calm D (i_a ip) i -> calm D (i_b ip) i -> calm (S D) (Some p) i.
Proof.
  intros Hb Hi [_ Hp] Hop Ha Hbr vm f r vm' Ho Hd Hr. destruct f as [|f]; [done|].
  cbn [run_loop] in Hr. rewrite Hp, Hop in Hr.
  destruct (enter (run_loop re str start f) vm (i_a ip) i) as [[r1 vm1]| |] eqn:H1; [|done|done].
  pose proof (calm_enter _ _ _ _ _ _ _ Ha Ho Hd H1) as Ho1. destruct r1; [by injection Hr as <- <-|].
  rewrite Ho1 in Hr. apply enter_verdict in H1; [|by intros; eapply run_verdict]. destruct (H1 Ho1) as [Hd1 _].
  destruct (enter _ _ (i_b ip) i) as [[r2 vm2]| |] eqn:H2; [|done|done].
  eapply calm_enter in H2; [|exact Hbr|done|simpl; lia]. by injection Hr as <- <-.
Qed.

Lemma calm_branch D p g z e m i :
  bytes_ok -> (i <= length str)%nat -> fetch 0 (insts re) p (split_inst g z e m) ->
  calm D e i -> calm D m i -> calm (S D) (Some p) i.
Proof. intros Hb Hi Hp He Hm. eapply calm_split; [done..|by destruct g| |]; by destruct g. Qed.

(** A straight program needs no call of its own. *)
Lemma calm_linear D l e k i :
  bytes_ok -> prog_code l e k -> forallb linear l = true -> (i <= length str)%nat ->
  (forall j, (i + sum_list_with minlen l <= j)%nat -> (j <= length str)%nat -> calm D k j) -> calm D e i.
Proof.
  intros Hb Hc. revert i.
  induction Hc as [k|l e k Hc IH|x l p m k Hp Hc IH|x l p m k Hp Hc IH|tbl x l p m k Hp Ht Hc IH
    |x l p m k Hp Hc IH|inner gid l p e q m k Hp H1 IH1 Hq H2 IH2|x y l p z e1 e2 m k Hp H1 IH1 H2 IH2 H3 IH3
    |x g l e k Hc IH|x lo hi g l e m k Hlo H1 IH1 H2 IH2|x hi g l p z e m k Hhi Hp H1 IH1 H2 IH2
    |x hi g l p z e m k Hhi Hp H1 IH1 H2 IH2]; intros i Hl Hi Hk.
  3-6: eapply calm_reads; [done..|]; intros Htest;
    destruct (fun Ho => test_step _ _ None None _ [] Hb Hi Ho Htest) as [_ Hle]; [done|];
    apply IH; [done|exact Hle|]; intros j Hj; apply Hk; simpl in *; lia.
  - apply Hk; simpl; lia.
  - by apply IH.
  - cbn [forallb linear] in Hl. apply andb_prop in Hl as [Hl1 Hl2].
    eapply calm_save; [done|]. apply IH1; [done..|]. intros j Hj Hj'. eapply calm_save; [done|].
    apply IH2; [done..|]. intros j2 Hj2. apply Hk. simpl in *. lia.
  - done.
  - cbn [forallb linear] in Hl. apply andb_prop in Hl as [_ Hl]. by apply IH.
  - apply linear_mand in Hl as [Hl1 Hl2]; [|done]. apply IH1; [done..|]. intros j Hj Hj'.
    apply IH2; [done..|]. intros j2 Hj2. apply Hk. rewrite (minlen_mand _ _ _ (pred_hi hi)) by done. simpl in *. lia.
  - cbn [forallb linear] in Hl. rewrite !andb_true_iff, Z.eqb_eq in Hl. lia.
  - cbn [forallb linear] in Hl. rewrite !andb_true_iff, Z.eqb_eq in Hl. lia.
Qed.

Lemma calm_star D p g z e m x i :
  bytes_ok -> fetch 0 (insts re) p (split_inst g z e m) -> prog_code [x] e (Some p) -> linear x = true ->
  (0 < minlen x)%nat -> (i <= length str)%nat ->
  (forall j, (i <= j)%nat -> (j <= length str)%nat -> calm (D + (length str - j)) m j) ->
  calm (S (D + (length str - i))) (Some p) i.
Proof.
  intros Hb Hp Hx Hl Hmin Hi. remember (length str - i)%nat as t eqn:Ht. revert i Hi Ht.
  induction (lt_wf t) as [t _ IH]. intros i Hi -> Hm.
  eapply calm_branch; [done..| |by apply Hm].
  eapply calm_linear; [done|done|cbn; by rewrite Hl|done|]. simpl. intros j Hj Hj'.
  eapply calm_mono; [|apply (IH (length str - j)%nat); [lia|done|done|]]; [lia|].
  intros j2 Hj2 Hj2'. apply Hm; [lia|done].
Qed.

(** The calls needed: one for each branch of the tree and each character. *)
Definition calm_list (l : list airy_re_ast_t) (e k : option nat) : Prop :=
  forall D i, (i <= length str)%nat ->
  (forall j, (i + sum_list_with minlen l <= j)%nat -> (j <= length str)%nat -> calm (D + (length str - j)) k j) ->
  calm (sum_list_with cost l + D + (length str - i)) e i.

Lemma calm_list_reads o x n l p m k :
  bytes_ok -> fetch 0 (insts re) p (Inst o x m None) -> reads o = true -> cost n = 0%nat ->
  minlen n = (if moves o then 1 else 0)%nat -> calm_list l m k -> calm_list (n :: l) (Some p) k.
Proof.
  intros Hb Hp Ho Hn Hm Hl D i Hi Hk. eapply calm_reads; [done..|]. intros Htest.
  destruct (test_step o x None None i [] Hb Hi Ho Htest) as [_ Hle].
  eapply calm_mono; [|apply (Hl D _ Hle)]; simpl; rewrite ?Hn; [destruct (moves o); lia|].
  intros j Hj. apply Hk. simpl. rewrite Hm. destruct (moves o); simpl; lia.
Qed.

Lemma calm_list_group inner gid l p e q m k :
  fetch 0 (insts re) p (Inst AIRY_RE_I_SAVE (gid * 2) e None) -> calm_list inner e (Some q) ->
  fetch 0 (insts re) q (Inst AIRY_RE_I_SAVE (gid * 2 + 1) m None) -> calm_list l m k ->
  calm_list (AIRY_RE_A_GROUP inner gid :: l) (Some p) k.
Proof.
  intros Hp Hin Hq Hl D i Hi Hk. eapply calm_save; [done|].
  eapply calm_mono; [|apply (Hin (sum_list_with cost l + D)%nat i Hi)]; [simpl; lia|].
  intros j Hj Hj'. eapply calm_save; [done|]. apply Hl; [done|]. intros j2 Hj2. apply Hk. simpl in *. lia.
Qed.

Lemma calm_list_alt x y l p z e1 e2 m k :
  bytes_ok -> fetch 0 (insts re) p (Inst AIRY_RE_I_SPLIT z e1 e2) -> calm_list x e1 m -> calm_list y e2 m ->
  calm_list l m k -> calm_list (AIRY_RE_A_ALT x y :: l) (Some p) k.
Proof.
  intros Hb Hp Hx Hy Hl D i Hi Hk.
  assert (forall j, (i + Nat.min (sum_list_with minlen x) (sum_list_with minlen y) <= j)%nat ->
    (j <= length str)%nat -> calm (sum_list_with cost l + D + (length str - j)) m j) as Hm.
  { intros j Hj Hj'. apply Hl; [done|]. intros j2 Hj2. apply Hk. simpl in *. lia. }
  simpl. eapply calm_split; [done..| |]; simpl.
  - eapply calm_mono; [|apply (Hx (sum_list_with cost l + D)%nat i Hi)]; [lia|]. intros j Hj. apply Hm. lia.
  - eapply calm_mono; [|apply (Hy (sum_list_with cost l + D)%nat i Hi)]; [lia|]. intros j Hj. apply Hm. lia.
Qed.

Lemma calm_list_mand x lo hi g l e m k :
  bytes_ok -> 0 <= lo -> (hi < 0 \/ 0 < hi) -> prog_code [x] e m -> linear x = true ->
  calm_list (AIRY_RE_A_REPEAT x lo (pred_hi hi) g :: l) m k -> calm_list (AIRY_RE_A_REPEAT x (lo + 1) hi g :: l) e k.
Proof.
  intros Hb Hlo Hhi Hx Hlx Hl D i Hi Hk.
  eapply calm_linear; [done|done|cbn; by rewrite Hlx|done|]. intros j Hj Hj'.
  eapply calm_mono; [|apply (Hl D j Hj')].
  - simpl. unfold pred_hi. destruct (Z.ltb_spec hi 0).
    + rewrite (proj2 (Z.ltb_lt hi 0)) by done. lia.
    + destruct (Z.ltb_spec (hi - 1) 0); lia.
  - intros j2 Hj2. apply Hk. rewrite (minlen_mand _ _ _ (pred_hi hi)) by done. simpl in *. lia.
Qed.

Lemma calm_list_opt x hi g l p z e m k :
  bytes_ok -> 0 < hi -> fetch 0 (insts re) p (split_inst g z e m) -> prog_code [x] e m -> linear x = true ->
  calm_list (AIRY_RE_A_REPEAT x 0 (hi - 1) g :: l) m k -> calm_list (AIRY_RE_A_REPEAT x 0 hi g :: l) (Some p) k.
Proof.
  intros Hb Hhi Hp Hx Hlx Hl D i Hi Hk.
  set (C := sum_list_with cost (AIRY_RE_A_REPEAT x 0 (hi - 1) g :: l)).
  assert (forall j, (i <= j)%nat -> (j <= length str)%nat -> calm (C + D + (length str - j)) m j) as Hm.
  { intros j Hj Hj'. apply (Hl D j Hj'). intros j2 Hj2. apply Hk. simpl in *. lia. }
  eapply calm_mono; [|eapply (calm_branch (C + D + (length str - i)))]; [|done..| |by apply Hm].
  - unfold C. simpl. bool_prop; lia.
  - eapply calm_linear; [done|done|cbn; by rewrite Hlx|done|]. intros j Hj Hj'.
    eapply calm_mono; [|apply Hm; [simpl in Hj; lia|done]]. lia.
Qed.

Lemma calm_list_star x hi g l p z e m k :
  bytes_ok -> hi < 0 -> fetch 0 (insts re) p (split_inst g z e m) -> prog_code [x] e (Some p) -> linear x = true ->
  (0 < minlen x)%nat -> calm_list l m k -> calm_list (AIRY_RE_A_REPEAT x 0 hi g :: l) (Some p) k.
Proof.
  intros Hb Hhi Hp Hx Hlx Hmin Hl D i Hi Hk.
  eapply calm_mono; [|eapply (calm_star (sum_list_with cost l + D)); [done..|]].
  - simpl. rewrite (proj2 (Z.ltb_lt hi 0)) by lia. lia.
  - intros j Hj Hj'. apply Hl; [done|]. intros j2 Hj2. apply Hk. simpl in *. lia.
Qed.

Lemma calm_code l e k :
  bytes_ok -> prog_code l e k -> forallb well_formed l = true -> forallb compilable l = true ->
  forallb progresses l = true -> calm_list l e k.
Proof.
  intros Hb Hc.
  induction Hc as [k|l e k Hc IH|x l p m k Hp Hc IH|x l p m k Hp Hc IH|tbl x l p m k Hp Ht Hc IH
    |x l p m k Hp Hc IH|inner gid l p e q m k Hp H1 IH1 Hq H2 IH2|x y l p z e1 e2 m k Hp H1 IH1 H2 IH2 H3 IH3
    |x g l e k Hc IH|x lo hi g l e m k Hlo H1 IH1 H2 IH2|x hi g l p z e m k Hhi Hp H1 IH1 H2 IH2
    |x hi g l p z e m k Hhi Hp H1 IH1 H2 IH2]; intros Hwf Hcp Hpr.
  - intros D i Hi Hk. apply Hk; simpl; lia.
  - by apply IH.
  - eapply calm_list_reads; [done..|]. by apply IH.
  - eapply calm_list_reads; [done..|]. by apply IH.
  - apply andb_prop in Hwf as [_ Hwf]. eapply calm_list_reads; [done..|]. by apply IH.
  - eapply calm_list_reads; [done..|]. by apply IH.
  - cbn [forallb well_formed compilable progresses] in *. rewrite !andb_true_iff in *.
    eapply calm_list_group; [done|apply IH1; tauto|done|apply IH2; tauto].
  - cbn [forallb well_formed compilable progresses] in *. rewrite !andb_true_iff in *.
    eapply calm_list_alt; [done|done|apply IH1; tauto|apply IH2; tauto|apply IH3; tauto].
  - apply wf_repeat in Hwf as [_ Hwf]. cbn [forallb compilable progresses] in *. rewrite !andb_true_iff in *.
    intros D i Hi Hk. apply IH; tauto.
  - pose proof (progresses_mand _ _ _ _ _ Hlo Hwf Hpr) as Hpr2. pose proof (wf_mand_hi _ _ _ _ _ Hlo Hwf) as Hhi.
    apply wf_mand in Hwf as [Hwf1 Hwf2]; [|done]. eapply calm_list_mand; [done..| |by apply IH2]. cbn in Hcp. by destruct (linear x).
  - apply wf_opt in Hwf as [Hwf1 Hwf2]; [|done].
    eapply calm_list_opt; [done..|cbn in Hcp; by destruct (linear x)|apply IH2; [done|done|]].
    eapply progresses_hi; [|exact Hpr]. by bool_prop; lia.
  - apply wf_repeat in Hwf as [Hwf1 Hwf2].
    cbn [forallb compilable progresses] in Hcp, Hpr. rewrite !andb_true_iff, ?orb_true_iff, Nat.ltb_lt in *.
    eapply calm_list_star; [done..|tauto|lia|apply IH2; tauto].
Qed.

End runs.

(** ** The language of the tree *)

Lemma in_class_mem tbl y : is_byte y -> in_class tbl y = tbl_mem tbl y.
Proof.
  intros Hy. unfold in_class, tbl_mem. pose proof (byte_index y Hy) as (_ & Hl & _).
  set (b := default 0 _). set (k := Z.land y 7) in *. rewrite Z.shiftl_1_l.
  destruct (Z.testbit b k) eqn:Hb.
  - apply negb_true_iff, Z.eqb_neq. intros H0. assert (Z.testbit (Z.land b (2 ^ k)) k = false) as Hf by (rewrite H0; apply Z.bits_0).
    rewrite Z.land_spec, Hb, Z.pow2_bits_true in Hf by lia. done.
  - apply negb_false_iff, Z.eqb_eq, Z.bits_inj'. intros i Hi. rewrite Z.land_spec, Z.bits_0, Z.pow2_bits_eqb by lia.
    destruct (Z.eqb_spec k i); [subst i; by rewrite Hb|by rewrite andb_false_r].
Qed.

Section tree_language.
Variables (str : cstr) (start : nat).
Hypothesis Hstr : Forall is_char str.

(** The tree [n] matches what [P] says, whatever the captures. *)
Definition denotes (n : airy_re_ast_t) (P : nat -> nat -> Prop) : Prop :=
  forall i c j, (exists d, amatch str start n i c j d) <-> P i j.
Definition denotes_list (l : list airy_re_ast_t) (P : nat -> nat -> Prop) : Prop :=
  forall i c j, (exists d, amatches str start l i c j d) <-> P i j.

Definition elab_denotes (e : ere) : Prop := forall n, denotes (elab e n).1 (lang str e).

Lemma denotes_nil : denotes_list [] (lang_seq str []).
Proof.
  intros i c j. split; [intros [d H]; inversion H; subst; constructor|].
  intros H. inversion H; subst. exists c. constructor.
Qed.

Lemma denotes_cons n l e b :
  denotes n (lang str e) -> denotes_list l (lang_seq str b) -> denotes_list (n :: l) (lang_seq str (e :: b)).
Proof.
  intros Hn Hl i c j. split.
  - intros [d H]. inversion H as [|? ? ? ? k e' ? ? H1 H2]; subst.
    econstructor; [eapply Hn; by eexists|eapply Hl; by eexists].
  - intros H. inversion H as [|? ? ? k ? H1 H2]; subst. apply (Hn i c k) in H1 as [e' H1].
    apply (Hl k e' j) in H2 as [d H2]. exists d. by econstructor.
Qed.

Lemma denotes_replicate n e m : denotes n (lang str e) -> denotes_list (replicate m n) (lang_seq str (replicate m e)).
Proof. intros Hn. induction m as [|m IH]; [apply denotes_nil|]. by apply denotes_cons. Qed.

Lemma denotes_seq b : Forall elab_denotes b -> forall n, denotes_list (numbered elab b n).1 (lang_seq str b).
Proof.
  induction b as [|e b IH]; intros Hb n; [apply denotes_nil|]. apply Forall_cons in Hb as [He Hb]. simpl.
  specialize (He n). destruct (elab e n) as [x n1]. specialize (IH Hb n1). destruct (numbered elab b n1) as [xs n2].
  by apply denotes_cons.
Qed.

Lemma denotes_alt x y P Q : denotes_list x P -> denotes_list y Q ->
  denotes_list [AIRY_RE_A_ALT x y] (fun i j => P i j \/ Q i j).
Proof.
  intros Hx Hy i c j. setoid_rewrite amatches_one. rewrite <- (Hx i c j), <- (Hy i c j). split.
  - intros [d H]. inversion H; subst; [left|right]; by eexists.
  - intros [[d H]|[d H]]; exists d; by constructor.
Qed.

Lemma denotes_ext l P Q : (forall i j, P i j <-> Q i j) -> denotes_list l P -> denotes_list l Q.
Proof. intros HPQ Hl i c j. rewrite <- HPQ. apply Hl. Qed.

Lemma denotes_join bs : Forall (Forall elab_denotes) bs -> forall n l P, denotes_list l P ->
  denotes_list (fold_left (fun x y => [AIRY_RE_A_ALT x y]) (numbered (numbered elab) bs n).1 l)
    (fun i j => P i j \/ lang_alts str bs i j).
Proof.
  induction bs as [|b bs IH]; intros Hbs n l P Hl.
  - eapply denotes_ext; [|exact Hl]. intros i j. split; [by left|]. intros [?|H]; [done|inversion H].
  - apply Forall_cons in Hbs as [Hb Hbs]. simpl. pose proof (denotes_seq b Hb n) as Hd.
    destruct (numbered elab b n) as [xs n1]. specialize (IH Hbs n1 _ _ (denotes_alt _ _ _ _ Hl Hd)).
    destruct (numbered (numbered elab) bs n1) as [ls n2]. eapply denotes_ext; [|exact IH]. intros i j. simpl. split.
    + intros [[?|?]|?]; [by left|right; by constructor|right; by apply lang_there].
    + intros [?|H]; [by left; left|]. inversion H; subst; [by left; right|by right].
Qed.

Lemma denotes_alts bs : nonempty bs = true -> Forall (Forall elab_denotes) bs -> forall n,
  denotes_list (elab_alts bs n).1 (lang_alts str bs).
Proof.
  intros Hne Hbs n. destruct bs as [|b bs]; [done|]. apply Forall_cons in Hbs as [Hb Hbs]. unfold elab_alts. simpl.
  pose proof (denotes_seq b Hb n) as Hd. destruct (numbered elab b n) as [xs n1].
  pose proof (denotes_join bs Hbs n1 _ _ Hd) as Hj. destruct (numbered (numbered elab) bs n1) as [ls n2].
  eapply denotes_ext; [|exact Hj]. intros i j. split; [intros [?|?]; by constructor|].
  intros H. inversion H; subst; auto.
Qed.

Lemma elab_denotes_ok e : ere_ok e = true -> elab_denotes e.
Proof.
  induction e as [x| |neg items| | |e q g IH|bs IH] using ere_ind'; cbn [ere_ok]; intros Hok n i c j; cbn [elab fst].
  - apply bool_decide_eq_true in Hok. assert (u8 x = x) as Hx by (apply u8_small; unfold is_char in Hok; lia). split.
    + intros [d H]. inversion H; subst. constructor. congruence.
    + intros H. inversion H; subst. exists c. constructor. congruence.
  - split; [intros [d H]; inversion H; subst; by econstructor|]. intros H. inversion H; subst. exists c. by econstructor.
  - assert (forall y, str !! i = Some y -> in_class (class_table neg items) y = class_denotes neg items y) as Hcl.
    { intros y Hy. assert (is_byte y) as Hb by (eapply Forall_lookup_1 in Hstr; [|done]; unfold is_char, is_byte in *; lia).
      rewrite in_class_mem by done. by apply class_table_spec. }
    split.
    + intros [d H]. inversion H as [| | |? y ? ? Hy Hin| | | | | |]; subst. econstructor; [done|]. by rewrite <- Hcl.
    + intros H. inversion H as [| |? ? y ? Hy Hin| | | |]; subst. exists c. econstructor; [done|]. by rewrite Hcl.
  - split; [intros [d H]; inversion H; subst; [constructor|done]|]. intros H. inversion H; subst. exists c. constructor.
  - split; [intros [d H]; inversion H; subst; constructor|]. intros H. inversion H; subst. exists c. by constructor.
  - rewrite !andb_true_iff in Hok. destruct Hok as [[_ Hok] _]. specialize (IH Hok n). destruct (elab e n) as [x n1].
    pose proof (fun m => denotes_replicate x e m IH) as Hrep. split.
    + intros [d H]. inversion H as [| | | | | | | |? ? ? ? m ? ? ? ? H1 H2 H3|]; subst.
      apply (lang_rep _ _ _ _ m); [done|done|]. eapply Hrep. by eexists.
    + intros H. inversion H as [| | | | |? ? ? m ? ? H1 H2 H3|]; subst. apply (Hrep m i c j) in H3 as [d H3].
      exists d. by apply (am_repeat _ _ _ _ _ _ m).
  - apply andb_prop in Hok as [Hne Hok].
    assert (Forall (Forall elab_denotes) bs) as Hbs.
    { rewrite forallb_forall in Hok. rewrite Forall_forall in *. intros b Hb. specialize (IH b Hb).
      specialize (Hok b ltac:(by apply list_elem_of_In)). apply andb_prop in Hok as [_ Hok]. rewrite forallb_forall in Hok.
      rewrite Forall_forall in *. intros e He. apply IH; [done|]. by apply Hok, list_elem_of_In. }
    pose proof (denotes_alts bs Hne Hbs (n + 1)) as Hd. unfold elab_alts in Hd.
    destruct (numbered (numbered elab) bs (n + 1)) as [ls m]. cbn [fst] in *. split.
    + intros [d H]. inversion H; subst. constructor. eapply Hd. by eexists.
    + intros H. inversion H; subst. eapply (Hd i (save start ((n + 1) * 2) i c) j) in H1 as [d H1].
      eexists. by constructor.
Qed.

End tree_language.

(** ** Searching *)

Definition no_caps : list Z := replicate 20 0.

(** There is a match that starts at [i]. *)
Definition starts_at (root : list airy_re_ast_t) (str : cstr) (i : nat) : Prop :=
  exists j d, amatches str i root i no_caps j d.

(** [re] is the compiled form of [root]. *)
Definition compiled (re : airy_regex_t) (root : list airy_re_ast_t) : Prop :=
  exists e, prog re = Some e /\ code 0 (insts re) (re_tables re) root (Some e) None /\ well_formed_list root = true.

Section search.
Variables (re : airy_regex_t) (root : list airy_re_ast_t) (str : cstr).
Hypothesis Hstr : Forall is_char str.
Hypothesis Hre : compiled re root.

(** One run of the machine. *)
Lemma run_start start :
  (start <= length str)%nat ->
  exists r vm, airy_re_run re str start (vm_fuel re) (Vm no_caps 0 false) (prog re) start = Ret (r, vm) /\
    (r = true -> exists j, amatches str start root start no_caps j (caps vm)) /\
    (r = false -> overflow vm = false -> ~ starts_at root str start).
Proof.
  intros Hs. destruct Hre as (e & -> & Hc & Hwf). unfold well_formed_list in Hwf. apply andb_prop in Hwf as [_ Hwf].
  destruct (enter_ready re str start (Z.to_nat AIRY_RE_MAX_DEPTH) (vm_fuel re) (Vm no_caps 0 false) (Some e) start)
    as (r & vm & Hrun & Hlen & Hv); [done|done| | |done|done|].
  { unfold vm_fuel, AIRY_RE_MAX_DEPTH. rewrite Z2Nat.inj_add by lia. lia. }
  { intros d' _. eapply (ready_code _ _ _ _ _ _ Hstr Hc Hwf d'); [|done|done]. intros d1 j _ _. apply ready_end. }
  exists r, vm. split; [done|]. split.
  - intros ->. destruct Hv as (n & j & Hr).
    destruct (runs_match_tree re str start n _ _ _ Hstr Hc Hwf n start no_caps j (caps vm) ltac:(done) Hr)
      as (n' & j' & d' & _ & Hm & Hend). inversion Hend; subst. eauto.
  - intros -> Ho (j & d & Hm). destruct (Hv Ho) as [_ Hno].
    destruct (match_runs re str start _ _ _ Hstr Hc Hwf _ _ _ _ 0%nat j d Hm) as [n Hr]; [constructor|]. by eapply Hno.
Qed.

(** With no loop over the empty text, the calls needed are bounded. *)
Lemma run_no_overflow start r vm :
  (start <= length str)%nat -> forallb compilable root = true -> forallb progresses root = true ->
  Z.of_nat (sum_list_with cost root + length str) < AIRY_RE_MAX_DEPTH ->
  airy_re_run re str start (vm_fuel re) (Vm no_caps 0 false) (prog re) start = Ret (r, vm) -> overflow vm = false.
Proof.
  intros Hs Hcp Hpr Hlt. destruct Hre as (e & -> & Hc & Hwf). unfold well_formed_list in Hwf. apply andb_prop in Hwf as [_ Hwf].
  intros Hrun. eapply (calm_enter re str start (sum_list_with cost root + 0 + (length str - start))); [| | |exact Hrun].
  - eapply calm_code; try done. intros. apply calm_end.
  - done.
  - simpl. unfold AIRY_RE_MAX_DEPTH in *. lia.
Qed.

(** What a search from [lo] on returns. *)
Definition search_result (lo nmatch : nat) (pmatch : option (list airy_regmatch_t))
    (rc : Z) (m : option (list airy_regmatch_t)) : Prop :=
  (rc = 0 /\ exists i j d, (lo <= i <= length str)%nat /\ amatches str i root i no_caps j d /\
     (forall i', (lo <= i' < i)%nat -> ~ starts_at root str i') /\
     Some m = fill_pmatch pmatch nmatch d) \/
  (rc = REG_NOMATCH /\ m = pmatch /\ forall i, (lo <= i <= length str)%nat -> ~ starts_at root str i) \/
  (rc = -1 /\ m = pmatch).

Definition room (nmatch : nat) (pmatch : option (list airy_regmatch_t)) : Prop :=
  match pmatch with
  | Some m => (Nat.min nmatch (Z.to_nat AIRY_RE_MAX_GROUPS) <= length m)%nat
  | None => True
  end.

Lemma exec_loop_spec nmatch pmatch turns start :
  room nmatch pmatch -> (turns + start = S (length str))%nat -> turns <> 0%nat ->
  exists rc m, exec_loop re str nmatch pmatch turns start = Ret (rc, m) /\
    search_result start nmatch pmatch rc m /\
    (forallb compilable root = true -> forallb progresses root = true ->
     Z.of_nat (sum_list_with cost root + length str) < AIRY_RE_MAX_DEPTH -> rc <> -1).
Proof.
  intros Hroom. revert start. induction turns as [|turns IH]; intros start Ht Hne; [done|]. cbn [exec_loop].
  destruct (run_start start ltac:(lia)) as (r & vm & Hrun & Hyes & Hno).
  pose proof (run_no_overflow start r vm ltac:(lia)) as Hover. fold no_caps. rewrite Hrun. destruct r.
  - destruct (Hyes eq_refl) as [j Hm].
    assert (exists m, fill_pmatch pmatch nmatch (caps vm) = Some m) as [m Hfill].
    { unfold fill_pmatch, room in *. destruct pmatch; [|by eexists]. rewrite (proj2 (Nat.leb_le _ _)) by done. by eexists. }
    rewrite Hfill. exists 0, m. split; [done|]. split; [left|done]. split; [done|].
    exists start, j, (caps vm). split_and!; [lia|lia|done|lia|done].
  - destruct (overflow vm) eqn:Ho.
    + exists (-1), pmatch. split; [done|]. split; [by right; right|]. intros Hcp Hpr Hlt.
      specialize (Hover Hcp Hpr Hlt Hrun). congruence.
    + specialize (Hno eq_refl eq_refl). destruct (Nat.leb_spec (length str) start).
      * exists REG_NOMATCH, pmatch. split; [done|]. split; [|done]. right. left. split_and!; [done|done|].
        intros i Hi. by replace i with start by lia.
      * destruct (IH (S start) ltac:(lia) ltac:(lia)) as (rc & m & -> & Hres & Hnov). exists rc, m. split; [done|].
        split; [|done]. destruct Hres as [(-> & i & j & d & Hi & Hm & Hmin & Hf)|[(-> & -> & Hall)|[-> ->]]].
        -- left. split; [done|]. exists i, j, d. split_and!; [lia|lia|done| |done]. intros i' Hi'.
           destruct (decide (i' = start)) as [->|]; [done|]. apply Hmin. lia.
        -- right. left. split_and!; [done|done|]. intros i Hi. destruct (decide (i = start)) as [->|]; [done|].
           apply Hall. lia.
        -- by right; right.
Qed.

End search.

(** ** Compilation *)

Lemma regcomp_compiled pm cm preg pattern cflags mem re :
  (length pattern <= MAX_NODES)%nat ->
  airy_re_regcomp pm cm preg (Some pattern) cflags mem = Ret (0, Some re) ->
  exists root ps, parse_pattern pm pattern = Ret (root, ps) /\ compiled re root.
Proof.
  intros Hlen. unfold airy_re_regcomp. destruct preg; [|done]. case_match; [done|]. destruct mem; [|done]. simpl.
  pose proof (parse_pattern_ok pm pattern Hlen) as Hp.
  destruct (parse_pattern pm pattern) as [[root ps]| |]; [|done|done]. destruct Hp as [Hwf _].
  destruct root as [|n root]; [done|]. destruct (ps_error ps); [done|].
  destruct (compile_list_spec cm (n :: root) Hwf None (Comp [] [] 0 false 0)) as (r & co & -> & _ & Hres); [done|].
  destruct r as [e|]; [|done]. destruct Hres as (_ & Herr & Hc). rewrite Herr. simpl. intros [= <-].
  eexists _, _. split; [done|]. exists e. split_and!; done.
Qed.

(** ** The engine *)

(** For every pattern of at most 256 characters that [airy_re_regcomp]
    accepts and every text, [airy_re_regexec] returns.  It returns 0 exactly
    with the leftmost position at which the pattern's tree matches, and the
    captures of one match there; it returns [REG_NOMATCH] only when the tree
    matches nowhere; its only other result is -1. *)
Theorem regexec_searches pm cm preg pattern cflags mem re str nmatch pmatch :
  (length pattern <= MAX_NODES)%nat ->
  airy_re_regcomp pm cm preg (Some pattern) cflags mem = Ret (0, Some re) ->
  Forall is_char str -> room nmatch pmatch ->
  exists root ps rc m, parse_pattern pm pattern = Ret (root, ps) /\
    airy_re_regexec (Some re) (Some str) nmatch pmatch = Ret (rc, m) /\
    search_result root str 0 nmatch pmatch rc m.
Proof.
  intros Hlen Hcomp Hstr Hroom. destruct (regcomp_compiled _ _ _ _ _ _ _ Hlen Hcomp) as (root & ps & Hparse & Hre).
  destruct (exec_loop_spec re root str Hstr Hre nmatch pmatch (S (length str)) 0) as (rc & m & Hexec & Hres & _);
    [done|lia|done|].
  exists root, ps, rc, m. split_and!; [done| |done].
  unfold airy_re_regexec. destruct Hre as (e & Hpe & _). by rewrite Hpe.
Qed.

(** What the engine supports of the expressions that can be printed: at most
    nine groups, no branch under a repetition, and an end that is more than a
    repetition [{0}]. *)
Definition supported (bs : list (list ere)) : bool :=
  let (root, n) := elab_alts bs 0 in
  alts_ok bs && (n <? AIRY_RE_MAX_GROUPS) && (length (print_alts bs) <=? MAX_NODES)%nat &&
  forallb compilable root && solid_list root.

Lemma supported_spec bs : supported bs = true ->
  alts_ok bs = true /\ (elab_alts bs 0).2 < AIRY_RE_MAX_GROUPS /\ (length (print_alts bs) <= MAX_NODES)%nat /\
  forallb compilable (elab_alts bs 0).1 = true /\ solid_list (elab_alts bs 0).1 = true.
Proof.
  unfold supported. destruct (elab_alts bs 0) as [root n]. rewrite !andb_true_iff, Nat.leb_le, Z.ltb_lt. tauto.
Qed.

Lemma regcomp_printed pm cm preg bs cflags :
  (forall n, pm n = true) -> (forall n, cm n = true) ->
  supported bs = true -> Z.land cflags (Z.lnot (Z.lor REG_EXTENDED REG_NOSUB)) = 0 ->
  exists re, airy_re_regcomp pm cm (Some preg) (Some (print_alts bs)) cflags true = Ret (0, Some re) /\
    compiled re (elab_alts bs 0).1.
Proof.
  intros Hpm Hcm (Hok & Hg & Hlen & Hcp & Hso)%supported_spec Hfl.
  destruct (parse_print pm Hpm bs Hok Hg) as [k Hparse].
  assert (exists re, airy_re_regcomp pm cm (Some preg) (Some (print_alts bs)) cflags true = Ret (0, Some re)) as [re Hre].
  { pose proof (parse_pattern_ok pm (print_alts bs) Hlen) as Hwf. unfold airy_re_regcomp. rewrite Hfl. simpl.
    rewrite Hparse in *. destruct Hwf as [Hwf _].
    destruct (compile_list_spec cm _ Hwf None (Comp [] [] 0 false 0)) as (r & co & Hr & _ & Hres); [done|].
    destruct (elab_alts bs 0).1 as [|x root]; [done|]. simpl ps_error. cbv iota. rewrite Hr. destruct r as [e|].
    - destruct Hres as (_ & Herr & _). rewrite Herr. by eexists.
    - exfalso. destruct Hres as [[m Hm]|[?|[_ ?]]]; congruence. }
  exists re. split; [done|]. destruct (regcomp_compiled _ _ _ _ _ _ _ Hlen Hre) as (root & ps & Hp & Hc).
  rewrite Hparse in Hp. by injection Hp as <- <-.
Qed.

Lemma alts_denote bs str start : Forall is_char str -> alts_ok bs = true ->
  denotes_list str start (elab_alts bs 0).1 (lang_alts str bs).
Proof.
  intros Hstr [Hne Hok]%andb_prop. apply denotes_alts; [done|]. rewrite forallb_forall in Hok.
  apply Forall_forall. intros b Hb. specialize (Hok b ltac:(by apply list_elem_of_In)).
  apply andb_prop in Hok as [_ Hok]. rewrite forallb_forall in Hok. apply Forall_forall. intros e He.
  apply elab_denotes_ok; [done|]. by apply Hok, list_elem_of_In.
Qed.

(** C35: reading back.  The parser, with memory enough, reads the text of an
    expression to its end, into a tree that matches, from any position and with
    any captures, exactly the texts of the expression's language. *)
Theorem parse_printed_language pm bs str start :
  (forall n, pm n = true) -> alts_ok bs = true -> (elab_alts bs 0).2 < AIRY_RE_MAX_GROUPS -> Forall is_char str ->
  exists root ps, parse_pattern pm (print_alts bs) = Ret (root, ps) /\ ps_p ps = [] /\ ps_error ps = false /\
    forall i c j, (exists d, amatches str start root i c j d) <-> lang_alts str bs i j.
Proof.
  intros Hpm Hok Hg Hstr. destruct (parse_print pm Hpm bs Hok Hg) as [k Hp]. eexists _, _. split_and!; [exact Hp|done|done|].
  by apply alts_denote.
Qed.

(** C5: the engine decides its expressions: a supported expression, written as
    a pattern, compiles, and on every text for which the branches of the
    expression and the characters of the text number less than 4096, with no
    loop over the empty text, the search returns 0 when some part of the text
    is in the language and [REG_NOMATCH] otherwise. *)
Theorem regex_decides pm cm preg bs cflags str :
  (forall n, pm n = true) -> (forall n, cm n = true) -> supported bs = true ->
  Z.land cflags (Z.lnot (Z.lor REG_EXTENDED REG_NOSUB)) = 0 -> Forall is_char str ->
  forallb progresses (elab_alts bs 0).1 = true ->
  Z.of_nat (sum_list_with cost (elab_alts bs 0).1 + length str) < AIRY_RE_MAX_DEPTH ->
  exists re rc, airy_re_regcomp pm cm (Some preg) (Some (print_alts bs)) cflags true = Ret (0, Some re) /\
    airy_re_regexec (Some re) (Some str) 0 None = Ret (rc, None) /\
    (rc = 0 /\ (exists i j, (i <= length str)%nat /\ lang_alts str bs i j) \/
     rc = REG_NOMATCH /\ forall i j, (i <= length str)%nat -> ~ lang_alts str bs i j).
Proof.
  intros Hpm Hcm Hsup Hfl Hstr Hpr Hcost. destruct (regcomp_printed pm cm preg bs cflags Hpm Hcm Hsup Hfl) as (re & Hcomp & Hre).
  apply supported_spec in Hsup as (Hok & _ & _ & Hcp & _).
  destruct (exec_loop_spec re _ str Hstr Hre 0 None (S (length str)) 0) as (rc & m & Hexec & Hres & Hnov); [done|lia|done|].
  assert (m = None) as ->.
  { destruct Hres as [(_ & i & j & d & _ & _ & _ & [= ->])|[(_ & -> & _)|[_ ->]]]; done. }
  exists re, rc. split_and!; [done|unfold airy_re_regexec; destruct Hre as (e & Hpe & _); by rewrite Hpe|].
  destruct Hres as [(-> & i & j & d & Hi & Hm & _)|[(-> & _ & Hall)|[-> _]]].
  - left. split; [done|]. exists i, j. split; [lia|]. eapply (alts_denote bs str i Hstr Hok). by eexists.
  - right. split; [done|]. intros i j Hi Hl. apply (Hall i ltac:(lia)).
    apply (alts_denote bs str i Hstr Hok i no_caps j) in Hl as [d Hm]. by exists j, d.
  - by destruct (Hnov Hcp Hpr Hcost).
Qed.

(** ** Examples *)

Definition malloc_all (n : nat) : bool := true.

Definition sample_ere : list (list ere) :=
  [[EChar 97; EGroup [[ERep (EClass false [CRange 48 57; CChar 45]) QPlus true]]; ERep EAny (QBetween 0 2) false; EEol];
   [EBol; EChar 42]].

(** The engine compiled and run. *)
Definition compile_run (pattern str : cstr) (nmatch : nat) (pmatch : option (list airy_regmatch_t)) :=
  match airy_re_regcomp malloc_all malloc_all (Some zero_regex) (Some pattern) REG_EXTENDED true with
  | Ret (0, Some re) => Some (airy_re_regexec (Some re) (Some str) nmatch pmatch)
  | _ => None
  end.

Lemma regexec_searches_witness :
  exists re rc m, airy_re_regcomp malloc_all malloc_all (Some zero_regex) (Some (cs "a(b+)c*d$")) REG_EXTENDED true = Ret (0, Some re) /\
    airy_re_regexec (Some re) (Some (cs "xabbd")) 2 (Some (replicate 2 (Regmatch 7 7))) = Ret (rc, m) /\
    rc = 0 /\ m = Some [Regmatch 0 0; Regmatch 1 3].
Proof.
  assert (exists re, airy_re_regcomp malloc_all malloc_all (Some zero_regex) (Some (cs "a(b+)c*d$")) REG_EXTENDED true =
    Ret (0, Some re)) as [re Hre] by (vm_compute; eexists; reflexivity).
  destruct (regexec_searches malloc_all malloc_all (Some zero_regex) (cs "a(b+)c*d$") REG_EXTENDED true re (cs "xabbd") 2
    (Some (replicate 2 (Regmatch 7 7)))) as (root & ps & rc & m & _ & Hexec & _).
  - apply Nat.leb_le. reflexivity.
  - exact Hre.
  - by apply (bool_decide_unpack (Forall is_char _)).
  - by apply (bool_decide_unpack (_ <= _)%nat).
  - exists re, rc, m. split; [exact Hre|]. split; [exact Hexec|]. vm_compute in Hre. injection Hre as <-.
    vm_compute in Hexec. by injection Hexec as <- <-.
Defined.

Lemma parse_printed_language_witness :
  exists root ps, parse_pattern malloc_all (print_alts sample_ere) = Ret (root, ps) /\ ps_p ps = [] /\
    ((exists d, amatches (cs "a7") 0 root 0 no_caps 2 d) <-> lang_alts (cs "a7") sample_ere 0 2).
Proof.
  destruct (parse_printed_language malloc_all sample_ere (cs "a7") 0) as (root & ps & Hp & Hr & _ & Hl).
  - done.
  - reflexivity.
  - reflexivity.
  - by apply (bool_decide_unpack (Forall is_char _)).
  - exists root, ps. split; [exact Hp|]. split; [exact Hr|]. apply Hl.
Defined.

Lemma regex_decides_witness :
  exists re rc, airy_re_regcomp malloc_all malloc_all (Some zero_regex) (Some (print_alts sample_ere)) 1 true = Ret (0, Some re) /\
    airy_re_regexec (Some re) (Some (cs "xa12--zz")) 0 None = Ret (rc, None) /\ rc = 0 /\
    exists i j, (i <= 8)%nat /\ lang_alts (cs "xa12--zz") sample_ere i j.
Proof.
  destruct (regex_decides malloc_all malloc_all zero_regex sample_ere 1 (cs "xa12--zz")) as (re & rc & Hc & He & Hr).
  - done.
  - done.
  - vm_compute. reflexivity.
  - reflexivity.
  - by apply (bool_decide_unpack (Forall is_char _)).
  - vm_compute. reflexivity.
  - apply Z.ltb_lt. vm_compute. reflexivity.
  - exists re, rc. split; [exact Hc|]. split; [exact He|]. destruct Hr as [[Hrc Hl]|[Hrc _]]; [by split|].
    exfalso. vm_compute in Hc. injection Hc as <-. vm_compute in He. injection He as <-. discriminate Hrc.
Defined.

(** *** What the engine does not do *)

(** The text after an unmatched parenthesis is ignored. *)
Lemma unmatched_paren_ignored : compile_run (cs "a)b") (cs "xay") 0 None = Some (Ret (0, None)).
Proof. vm_compute. reflexivity. Qed.

(** An empty alternative inside a group makes the parser lose the group: the
    unbalanced pattern is accepted. *)
Lemma unbalanced_accepted : compile_run (cs "((a||b)") (cs "b") 0 None = Some (Ret (0, None)).
Proof. vm_compute. reflexivity. Qed.

(** A loop over the empty text runs out of depth, although zero repetitions
    match. *)
Lemma empty_loop_fails : compile_run (cs "^*x") (cs "x") 0 None = Some (Ret (-1, None)).
Proof. vm_compute. reflexivity. Qed.

(** A sequence of more than 256 nodes is cut. *)
Lemma long_pattern_cut :
  compile_run (replicate 256 97 ++ [98]) (replicate 256 97) 0 None = Some (Ret (0, None)).
Proof. vm_compute. reflexivity. Qed.

(** The whole match is not reported, and groups are reported relative to its
    start. *)
Lemma whole_match_unset :
  compile_run (cs "b(c)") (cs "aabc") 2 (Some (replicate 2 (Regmatch 7 7))) =
    Some (Ret (0, Some [Regmatch 0 0; Regmatch 1 2])).
Proof. vm_compute. reflexivity. Qed.

(** A branch may not be repeated. *)
Lemma repeated_branch_rejected : compile_run (cs "(a|b)*") (cs "ab") 0 None = None.
Proof. vm_compute. reflexivity. Qed.
