(* ===== verification/IpcBackoff.v ===== *)
(** * Reconnection back-off and failure windows: utils/ipc/ipc_backoff.c *)
From S2P Require Import Prelude.

(** ** Exponential back-off *)

Record ipc_bkoff_t := Bkoff { base_ms : Z; cap_ms : Z; cur_ms : Z }.

Definition IPC_BKOFF_DEF_BASE_MS : Z := 200.
Definition IPC_BKOFF_DEF_CAP_MS : Z := 5000.

Definition ipc_bkoff_init (b : option ipc_bkoff_t) (base cap : Z) : option ipc_bkoff_t :=
  match b with
  | None => None
  | Some _ =>
      let base := if base =? 0 then IPC_BKOFF_DEF_BASE_MS else base in
      let cap := if cap =? 0 then IPC_BKOFF_DEF_CAP_MS else cap in
      let cap := if cap <? base then base else cap in
      Some (Bkoff base cap base)
  end.

Definition ipc_bkoff_next (b : option ipc_bkoff_t) : Z * option ipc_bkoff_t :=
  match b with
  | None => (0, None)
  | Some b =>
      let delay := cur_ms b in
      if cur_ms b <? cap_ms b then
        let next := u64 (cur_ms b * 2) in
        (delay, Some (Bkoff (base_ms b) (cap_ms b) (if cap_ms b <? next then cap_ms b else u32 next)))
      else (delay, Some b)
  end.

Definition ipc_bkoff_reset (b : option ipc_bkoff_t) : option ipc_bkoff_t :=
  match b with
  | None => None
  | Some b => Some (Bkoff (base_ms b) (cap_ms b) (base_ms b))
  end.

(** [n] successive calls of [ipc_bkoff_next]. *)
Fixpoint bkoff_delays (n : nat) (b : option ipc_bkoff_t) : list Z :=
  match n with
  | O => []
  | S n' => let '(d, b') := ipc_bkoff_next b in d :: bkoff_delays n' b'
  end.

(** ** Failure windows *)

Record ipc_agg_t := Agg { win_sec : Z; win_start : Z; count : Z }.

Definition IPC_AGG_DEF_WIN_SEC : Z := 60.

Definition ipc_agg_init (a : option ipc_agg_t) (win : Z) : option ipc_agg_t :=
  match a with
  | None => None
  | Some _ => Some (Agg (if win =? 0 then IPC_AGG_DEF_WIN_SEC else win) 0 0)
  end.

(** The returned flag and [*prev_count]. *)
Definition ipc_agg_feed (a : option ipc_agg_t) (now : Z) : bool * Z * option ipc_agg_t :=
  match a with
  | None => (true, 0, None)
  | Some a =>
      if (0 <? count a) && (now <? u64 (win_start a + win_sec a)) then
        (false, 0, Some (Agg (win_sec a) (win_start a) (u64 (count a + 1))))
      else
        let prev := if 1 <? count a then count a else 0 in
        (true, prev, Some (Agg (win_sec a) now 1))
  end.

Definition ipc_agg_reset (a : option ipc_agg_t) : option ipc_agg_t :=
  match a with
  | None => None
  | Some a => Some (Agg (win_sec a) 0 0)
  end.

Fixpoint agg_feeds (a : option ipc_agg_t) (nows : list Z) : list (bool * Z) * option ipc_agg_t :=
  match nows with
  | [] => ([], a)
  | now :: nows' =>
      let '(r, p, a') := ipc_agg_feed a now in
      let '(rs, a'') := agg_feeds a' nows' in
      ((r, p) :: rs, a'')
  end.

(** ** Lemmas *)

Record bkoff_ok (b : ipc_bkoff_t) : Prop := {
  bk_pos : 0 < base_ms b;
  bk_cur : base_ms b <= cur_ms b <= cap_ms b;
  bk_cap : cap_ms b < 2 ^ 32;
}.

Lemma bkoff_next_ok b :
  bkoff_ok b -> ipc_bkoff_next (Some b) =
    (cur_ms b, Some (Bkoff (base_ms b) (cap_ms b) (Z.min (cap_ms b) (2 * cur_ms b)))).
Proof.
  intros [Hp Hc Hcap]. unfold ipc_bkoff_next. rewrite (u64_small (cur_ms b * 2)) by lia.
  destruct (Z.ltb_spec (cur_ms b) (cap_ms b)).
  - repeat f_equal. destruct (Z.ltb_spec (cap_ms b) (cur_ms b * 2)); [lia|].
    rewrite u32_small by lia. lia.
  - destruct b as [x y z]; simpl in *. repeat f_equal. lia.
Qed.

Lemma bkoff_delays_nth n b i :
  bkoff_ok b -> (i < n)%nat ->
  bkoff_delays n (Some b) !! i = Some (Z.min (cap_ms b) (cur_ms b * 2 ^ Z.of_nat i)).
Proof.
  revert b i. induction n as [|n IH]; intros b i Hok Hi; [lia|].
  cbn [bkoff_delays]. rewrite bkoff_next_ok by done. destruct Hok as [Hp Hc Hcap].
  destruct i as [|i].
  { change (Some (cur_ms b) = Some (Z.min (cap_ms b) (cur_ms b * 1))). f_equal. lia. }
  change (bkoff_delays n (Some (Bkoff (base_ms b) (cap_ms b) (Z.min (cap_ms b) (2 * cur_ms b)))) !! i =
    Some (Z.min (cap_ms b) (cur_ms b * 2 ^ Z.of_nat (S i)))).
  rewrite IH; [|split; simpl; lia|lia]. f_equal. cbn [cap_ms cur_ms].
  rewrite Nat2Z.inj_succ, Z.pow_succ_r by lia.
  assert (0 < 2 ^ Z.of_nat i) by (apply Z.pow_pos_nonneg; lia). nia.
Qed.

Lemma agg_feeds_inside a nows n :
  count a = n -> 0 < n -> n + Z.of_nat (length nows) < 2 ^ 64 ->
  win_start a + win_sec a < 2 ^ 64 -> 0 <= win_start a -> 0 <= win_sec a ->
  Forall (fun now => now < win_start a + win_sec a) nows ->
  agg_feeds (Some a) nows =
    (replicate (length nows) (false, 0),
     Some (Agg (win_sec a) (win_start a) (n + Z.of_nat (length nows)))).
Proof.
  intros Hn Hpos Hlen Hw Hs Hws Hall. revert a n Hn Hpos Hlen Hw Hs Hws Hall.
  induction nows as [|now nows IH]; intros a n Hn Hpos Hlen Hw Hs Hws Hall.
  { simpl. rewrite Z.add_0_r, <- Hn. by destruct a. }
  apply Forall_cons in Hall as [Hnow Hall]. cbn [length] in Hlen.
  cbn [agg_feeds ipc_agg_feed]. rewrite (u64_small (win_start a + win_sec a)) by lia.
  rewrite (proj2 (Z.ltb_lt 0 (count a))), (proj2 (Z.ltb_lt now _)) by lia. cbn [andb].
  rewrite u64_small by lia. rewrite (IH _ (n + 1)); simpl; auto; try lia.
  replace (n + 1 + Z.of_nat (length nows)) with (n + Z.of_nat (S (length nows))) by lia. done.
Qed.

(** ** Properties *)

(** After initialisation the successive delays are base, 2*base, 4*base and
    so on, capped at the cap: the doubling never overflows, the defaults replace
    zero arguments and the cap is never below the base. *)
Theorem bkoff_delays_exact b0 base cap n i :
  0 <= base < 2 ^ 32 -> 0 <= cap < 2 ^ 32 -> (i < n)%nat ->
  let base' := if base =? 0 then 200 else base in
  let cap' := Z.max base' (if cap =? 0 then 5000 else cap) in
  bkoff_delays n (ipc_bkoff_init (Some b0) base cap) !! i =
    Some (Z.min cap' (base' * 2 ^ Z.of_nat i)).
Proof.
  intros Hb Hc Hi base' cap'. unfold ipc_bkoff_init, IPC_BKOFF_DEF_BASE_MS, IPC_BKOFF_DEF_CAP_MS.
  fold base'. replace (if _ <? base' then base' else _) with cap'.
  - rewrite bkoff_delays_nth; [done| |done]. unfold cap', base' in *.
    split; simpl; bool_prop; lia.
  - unfold cap'. bool_prop; lia.
Qed.

Lemma bkoff_delays_exact_witness :
  bkoff_delays 8 (ipc_bkoff_init (Some (Bkoff 0 0 0)) 0 0) !! 5%nat = Some (Z.min 5000 (200 * 2 ^ 5)).
Proof. apply (bkoff_delays_exact (Bkoff 0 0 0) 0 0 8 5); lia. Defined.

(** One failure per window is reported: the failure that opens a window is,
    the [k] following ones inside the window are suppressed, and the first one
    after the window is reported with the number of failures of the window it
    closes ([k + 1], or 0 when the first was alone). *)
Theorem agg_window a t nows t' :
  count a = 0 -> 0 <= win_sec a -> 0 <= t -> t + win_sec a < 2 ^ 64 ->
  Forall (fun now => now < t + win_sec a) nows -> Z.of_nat (length nows) + 1 < 2 ^ 64 ->
  t + win_sec a <= t' ->
  agg_feeds (Some a) (t :: nows ++ [t']) =
    ((true, 0) :: replicate (length nows) (false, 0) ++
       [(true, if (length nows =? 0)%nat then 0 else Z.of_nat (length nows) + 1)],
     Some (Agg (win_sec a) t' 1)).
Proof.
  intros Hc Hw Ht Hsum Hall Hlen Ht'. cbn [agg_feeds ipc_agg_feed]. rewrite Hc.
  cbn [Z.ltb Z.compare andb].
  assert (Happ : forall x l1 l2, agg_feeds x (l1 ++ l2) =
    let '(r1, x1) := agg_feeds x l1 in let '(r2, x2) := agg_feeds x1 l2 in (r1 ++ r2, x2)).
  { intros x l1 l2. revert x. induction l1 as [|now l1 IH]; intros x; simpl.
    - by destruct (agg_feeds x l2).
    - destruct (ipc_agg_feed x now) as [[r p] x1]. rewrite IH.
      destruct (agg_feeds x1 l1), (agg_feeds _ l2). done. }
  rewrite Happ, (agg_feeds_inside _ nows 1); simpl; try done; try lia.
  rewrite (u64_small (t + win_sec a)) by lia.
  rewrite (proj2 (Z.ltb_ge t' (t + win_sec a))), andb_false_r by done.
  destruct nows as [|now nows]; [done|]. cbn [length Nat.eqb].
  rewrite (proj2 (Z.ltb_lt 1 _)) by lia. by rewrite (Z.add_comm 1).
Qed.

Lemma agg_window_witness :
  agg_feeds (Some (Agg 60 0 0)) (100 :: [101; 150] ++ [160]) =
    ((true, 0) :: replicate 2 (false, 0) ++ [(true, 3)], Some (Agg 60 160 1)).
Proof.
  apply (agg_window (Agg 60 0 0) 100 [101; 150] 160); simpl; try lia.
  repeat (apply Forall_cons; split; [lia|]); by apply Forall_nil.
Defined.
