(* ===== verification/CancelToken.v ===== *)
(** * Cancellation tokens: utils/sync/cancel_token.c

    The operations as transitions of the token; each one is a critical section
    of the token's lock, so a sequence of operations is an interleaving of the
    calls of several threads.  A callback is named by its function and its
    context; what a call of [airy_cancel_token_cancel] fires, after the lock is
    released, is the list it returns. *)
From S2P Require Import Prelude.

(** ** Data and operations *)

Definition AIRY_CANCEL_TOKEN_MAX_CBS : nat := 8.

Record airy_cancel_token_t := Token {
  cancelled : bool;
  init_done : bool;
  cbs : list (Z * Z);   (** the [cb_count] registered callbacks and contexts *)
}.

(** [mtx_ok] and [cond_ok] tell whether the lock and the condition variable
    could be made; on failure the structure is zeroed and not initialised. *)
Definition airy_cancel_token_init (present mtx_ok cond_ok : bool) : Z * option airy_cancel_token_t :=
  if negb present then (AIRY_EINVAL, None)
  else if negb mtx_ok then (AIRY_ERR_SYS_MUTEX, Some (Token false false []))
  else if negb cond_ok then (AIRY_ERR_SYS_CONDITION, Some (Token false false []))
  else (0, Some (Token false true [])).

Definition airy_cancel_token_destroy (t : option airy_cancel_token_t) : option airy_cancel_token_t :=
  match t with
  | Some t => if negb (init_done t) then Some t else Some (Token (cancelled t) false [])
  | None => None
  end.

Definition airy_cancel_token_cancel (t : option airy_cancel_token_t)
    : list (Z * Z) * option airy_cancel_token_t :=
  match t with
  | Some t =>
      if negb (init_done t) then ([], Some t)
      else
        let was_canceled := cancelled t in
        let snap := if was_canceled then [] else take AIRY_CANCEL_TOKEN_MAX_CBS (cbs t) in
        (snap, Some (Token true (init_done t) (cbs t)))
  | None => ([], None)
  end.

Definition airy_cancel_token_is_canceled (t : option airy_cancel_token_t) : bool :=
  match t with
  | Some t => if negb (init_done t) then false else cancelled t
  | None => false
  end.

Definition airy_cancel_token_reset (t : option airy_cancel_token_t) : option airy_cancel_token_t :=
  match t with
  | Some t => if negb (init_done t) then Some t else Some (Token false (init_done t) (cbs t))
  | None => None
  end.

(** [cb = None] is the NULL function. *)
Definition airy_cancel_token_register (t : option airy_cancel_token_t) (cb : option Z) (ctx : Z)
    : Z * option airy_cancel_token_t :=
  match t, cb with
  | Some t, Some cb =>
      if negb (init_done t) then (AIRY_EINVAL, Some t)
      else if (AIRY_CANCEL_TOKEN_MAX_CBS <=? length (cbs t))%nat then (AIRY_ERR_OVERFLOW, Some t)
      else (0, Some (Token (cancelled t) (init_done t) (cbs t ++ [(cb, ctx)])))
  | _, _ => (AIRY_EINVAL, t)
  end.

(** One round of the waiting loop reads the clock and then the flag; between
    rounds the thread sleeps on the condition variable and other threads run.
    [obs] is what the successive rounds read; [None]: still waiting. *)
Fixpoint wait_loop (obs : list (Z * bool)) (deadline : Z) : option Z :=
  match obs with
  | [] => None
  | (now, c) :: obs' =>
      if c then Some 0
      else if deadline <=? now then Some 1
      else wait_loop obs' deadline
  end.

Fixpoint wait_forever (obs : list (Z * bool)) : option Z :=
  match obs with
  | [] => None
  | (_, c) :: obs' => if c then Some 0 else wait_forever obs'
  end.

Definition airy_cancel_token_wait (t : option airy_cancel_token_t) (timeout_ms start : Z)
    (obs : list (Z * bool)) : option Z :=
  match t with
  | Some t =>
      if negb (init_done t) then Some AIRY_EINVAL
      else if cancelled t then Some 0
      else if timeout_ms =? 0 then wait_forever obs
      else wait_loop obs (u64 (start + timeout_ms))
  | None => Some AIRY_EINVAL
  end.

(** ** Sequences of critical sections *)

Inductive token_op := OpRegister (cb ctx : Z) | OpCancel | OpIsCanceled | OpReset.

Definition token_call (t : airy_cancel_token_t) (op : token_op)
    : list (Z * Z) * option airy_cancel_token_t :=
  match op with
  | OpRegister cb ctx => ([], snd (airy_cancel_token_register (Some t) (Some cb) ctx))
  | OpCancel => airy_cancel_token_cancel (Some t)
  | OpIsCanceled => ([], Some t)
  | OpReset => ([], airy_cancel_token_reset (Some t))
  end.

(** The callbacks fired by a sequence, in order. *)
Fixpoint token_fired (t : airy_cancel_token_t) (ops : list token_op) : list (Z * Z) :=
  match ops with
  | [] => []
  | op :: ops' =>
      match token_call t op with
      | (fired, Some t') => fired ++ token_fired t' ops'
      | (fired, None) => fired
      end
  end.

Definition registrations (ops : list token_op) : list (Z * Z) :=
  omap (fun op => match op with OpRegister cb ctx => Some (cb, ctx) | _ => None end) ops.

Definition is_reset (op : token_op) : bool :=
  match op with OpReset => true | _ => false end.

Definition is_cancel (op : token_op) : bool :=
  match op with OpCancel => true | _ => false end.

(** ** Lemmas *)

Lemma fired_after_cancel t ops :
  init_done t = true -> cancelled t = true -> existsb is_reset ops = false ->
  token_fired t ops = [].
Proof.
  revert t. induction ops as [|op ops IH]; intros t Hi Hc Hr; [done|].
  simpl in Hr. apply orb_false_iff in Hr as [Hop Hr].
  destruct op as [cb ctx| | |]; cbn [token_fired token_call]; [| |by apply IH|done].
  - unfold airy_cancel_token_register. rewrite Hi. cbn [negb].
    destruct (AIRY_CANCEL_TOKEN_MAX_CBS <=? length (cbs t))%nat; cbn [snd app]; by apply IH.
  - unfold airy_cancel_token_cancel. rewrite Hi, Hc. by apply IH.
Qed.

Lemma fired_before_cancel t ops1 ops2 :
  init_done t = true -> cancelled t = false -> (length (cbs t) <= 8)%nat ->
  existsb is_cancel ops1 = false -> existsb is_reset ops1 = false ->
  existsb is_reset ops2 = false ->
  token_fired t (ops1 ++ OpCancel :: ops2) = take 8 (cbs t ++ registrations ops1).
Proof.
  revert t. induction ops1 as [|op ops1 IH]; intros t Hi Hc Hlen H1 H2 H3.
  { simpl. rewrite Hi, Hc. simpl. rewrite fired_after_cancel by done. by rewrite !app_nil_r. }
  simpl in H1, H2. apply orb_false_iff in H1 as [Hop1 H1], H2 as [Hop2 H2].
  destruct op as [cb ctx| | |]; try done; cbn [app token_fired token_call].
  - unfold airy_cancel_token_register, AIRY_CANCEL_TOKEN_MAX_CBS. rewrite Hi. simpl negb. cbv iota.
    destruct (Nat.leb_spec 8 (length (cbs t))); cbn [snd app].
    + rewrite IH by done. rewrite !take_app_le by lia. done.
    + rewrite IH; simpl; auto; [by rewrite <- app_assoc|]. rewrite length_app. simpl. lia.
  - by rewrite IH.
Qed.

(** ** Properties *)

(** Until the token is reset, the callbacks that fire, over every
    interleaving of registrations, queries and cancellations from several
    threads, are exactly those registered before the first cancellation (eight
    at most), each once and in the order of registration; the later
    cancellations fire nothing. *)
Theorem cancel_fires_once ops1 ops2 t :
  airy_cancel_token_init true true true = (0, Some t) ->
  existsb is_cancel ops1 = false -> existsb is_reset (ops1 ++ ops2) = false ->
  token_fired t (ops1 ++ OpCancel :: ops2) = take 8 (registrations ops1).
Proof.
  intros [= <-] Hc Hr. rewrite existsb_app in Hr. apply orb_false_iff in Hr as [Hr1 Hr2].
  apply (fired_before_cancel (Token false true []) ops1 ops2); auto. simpl. lia.
Qed.

Lemma cancel_fires_once_witness :
  token_fired (Token false true [])
    ([OpRegister 1 10; OpIsCanceled; OpRegister 2 20] ++ OpCancel :: [OpRegister 3 30; OpCancel]) =
  [(1, 10); (2, 20)].
Proof.
  apply (cancel_fires_once [OpRegister 1 10; OpIsCanceled; OpRegister 2 20] [OpRegister 3 30; OpCancel]
    (Token false true [])); reflexivity.
Defined.
