(* ===== verification/Dispatcher.v ===== *)
(** * JSON-RPC requests and their dispatch: utils/ipc/method_dispatcher.c,
    utils/ipc/param_validator.c and the request half of
    utils/ipc/jsonrpc_helpers.c

    JSON values are those of the cJSON library, which is not part of the
    sources: the development is parametrised by their type and by the accessors
    the code calls. *)
From S2P Require Import Prelude.

Definition AIRY_ERR_NULL_POINTER : Z := -3.
Definition JSONRPC_INVALID_REQUEST : Z := -32600.
Definition JSONRPC_METHOD_NOT_FOUND : Z := -32601.

(** The accessors of cJSON: lookup of a member ignoring case and with case,
    and the string, number and type tests. *)
Class CJson (J : Type) := {
  cJSON_GetObjectItem : J -> cstr -> option J;
  cJSON_GetObjectItemCaseSensitive : J -> cstr -> option J;
  cJSON_string : J -> option cstr;   (** [cJSON_IsString] and [valuestring] *)
  cJSON_number : J -> option Z;      (** [cJSON_IsNumber] and [valueint] *)
  cJSON_IsNull : J -> bool;
  cJSON_IsObject : J -> bool;
}.

Definition s_jsonrpc : cstr := [106; 115; 111; 110; 114; 112; 99].
Definition s_method : cstr := [109; 101; 116; 104; 111; 100].
Definition s_params : cstr := [112; 97; 114; 97; 109; 115].
Definition s_id : cstr := [105; 100].
Definition s_2_0 : cstr := [50; 46; 48].

(** [method_fn] values and user data are names; [user_data = 0] is NULL. *)
Record method_handler := Handler {
  mh_method : cstr;
  mh_handler : Z;
  mh_user_data : Z;
}.

Record method_dispatcher := Disp {
  handlers : list method_handler;   (** the [method_count] registered ones *)
  max_methods : nat;
}.

Section requests.
Context {J : Type} `{!CJson J}.

(** ** Requests *)

Definition is_string_eq (o : option J) (s : cstr) : bool :=
  match o with
  | Some j => match cJSON_string j with Some v => bool_decide (v = s) | None => false end
  | None => false
  end.

Definition is_string (o : option J) : bool :=
  match o with Some j => bool_decide (is_Some (cJSON_string j)) | None => false end.

Definition jsonrpc_validate_request (req : option J) : Z :=
  match req with
  | None => AIRY_ERR_INVALID_PARAM
  | Some req =>
      if negb (is_string_eq (cJSON_GetObjectItem req s_jsonrpc) s_2_0) then AIRY_ERR_PARSE_ERROR
      else if negb (is_string (cJSON_GetObjectItem req s_method)) then AIRY_ERR_PARSE_ERROR
      else 0
  end.

(** The outputs: method, parameters, id.  The duplication of the method string
    can fail; [dup_ok] tells. *)
Definition jsonrpc_parse_request_ptr (req : option J) (dup_ok : bool)
    : Z * (option cstr * option J * Z) :=
  match req with
  | None => (AIRY_ERR_INVALID_PARAM, (None, None, 0))
  | Some r =>
      if negb (jsonrpc_validate_request req =? 0) then
        (JSONRPC_INVALID_REQUEST, (None, None, 0))
      else
        let method := match cJSON_GetObjectItem r s_method with
                      | Some m => if dup_ok then cJSON_string m else None
                      | None => None
                      end in
        let params := cJSON_GetObjectItem r s_params in
        let id := match cJSON_GetObjectItem r s_id with
                  | Some i => default 0 (cJSON_number i)
                  | None => 0
                  end in
        (0, (method, params, id))
  end.

Definition jsonrpc_check_strict (req : option J) : Z :=
  match req with
  | None => AIRY_ERR_NULL_POINTER
  | Some r =>
      if negb (bool_decide (is_Some (cJSON_GetObjectItem r s_jsonrpc))) ||
         negb (bool_decide (is_Some (cJSON_GetObjectItem r s_method))) ||
         negb (bool_decide (is_Some (cJSON_GetObjectItem r s_id)))
      then AIRY_ERR_PARSE_ERROR
      else if negb (is_string_eq (cJSON_GetObjectItemCaseSensitive r s_jsonrpc) s_2_0)
      then AIRY_ERR_PARSE_ERROR
      else
        match cJSON_GetObjectItemCaseSensitive r s_method with
        | None => AIRY_ERR_PARSE_ERROR
        | Some m =>
            match cJSON_string m with
            | None => AIRY_ERR_PARSE_ERROR
            | Some v =>
                if (length v =? 0)%nat then AIRY_ERR_PARSE_ERROR
                else
                  match cJSON_GetObjectItemCaseSensitive r s_id with
                  | None => AIRY_ERR_PARSE_ERROR
                  | Some i =>
                      if negb (bool_decide (is_Some (cJSON_number i))) &&
                         negb (bool_decide (is_Some (cJSON_string i))) && negb (cJSON_IsNull i)
                      then AIRY_ERR_PARSE_ERROR else 0
                  end
            end
        end
  end.

(** The variadic list of field names ends at the NULL. *)
Definition validate_required_fields (obj : option J) (fields : list cstr) : Z :=
  match obj with
  | None => AIRY_ERR_INVALID_PARAM
  | Some o =>
      if negb (cJSON_IsObject o) then AIRY_ERR_INVALID_PARAM
      else if forallb (fun f => bool_decide (is_Some (cJSON_GetObjectItem o f))) fields then 0
      else AIRY_ERR_INVALID_PARAM
  end.

Definition validate_jsonrpc_request (req : option J)
    : Z * option (option J * option J * option J * option J) :=
  match req with
  | None => (AIRY_ERR_INVALID_PARAM, None)
  | Some r =>
      if negb (cJSON_IsObject r) then (AIRY_ERR_INVALID_PARAM, None)
      else
        let jsonrpc := cJSON_GetObjectItem r s_jsonrpc in
        let method := cJSON_GetObjectItem r s_method in
        let params := cJSON_GetObjectItem r s_params in
        let id := cJSON_GetObjectItem r s_id in
        let out := Some (jsonrpc, method, params, id) in
        if negb (is_string_eq jsonrpc s_2_0) || negb (is_string method) ||
           negb (bool_decide (is_Some id))
        then (AIRY_ERR_INVALID_PARAM, out) else (0, out)
  end.

(** ** The dispatcher *)

(** The linear scan; [AIRY_ERR_NOT_FOUND] is [None]. *)
Fixpoint find_method_index_loop (hs : list method_handler) (method : cstr) (i : nat) : option nat :=
  match hs with
  | [] => None
  | h :: hs' =>
      if decide (mh_method h = method) then Some i
      else find_method_index_loop hs' method (S i)
  end.

Definition find_method_index (d : method_dispatcher) (method : cstr) : option nat :=
  find_method_index_loop (handlers d) method 0.

Definition method_dispatcher_create (n : nat) (alloc1 alloc2 : bool) : option method_dispatcher :=
  if (n =? 0)%nat then None
  else if negb alloc1 then None
  else if negb alloc2 then None
  else Some (Disp [] n).

Definition method_dispatcher_register (d : option method_dispatcher) (method : option cstr)
    (handler : option Z) (user_data : Z) : Z * option method_dispatcher :=
  match d, method, handler with
  | Some d', Some m, Some h =>
      if (max_methods d' <=? length (handlers d'))%nat then (AIRY_ERR_OVERFLOW, d)
      else
        match find_method_index d' m with
        | Some _ => (AIRY_ERR_UNKNOWN, d)
        | None => (0, Some (Disp (handlers d' ++ [Handler m h user_data]) (max_methods d')))
        end
  | _, _, _ => (AIRY_ERR_INVALID_PARAM, d)
  end.

(** [strchr(method, '.')]: the rest of the string after the first dot. *)
Fixpoint after_dot (s : cstr) : option cstr :=
  match s with
  | [] => None
  | c :: s' => if c =? 46 then Some s' else after_dot s'
  end.

(** What a dispatch does to the outside: it calls a handler, or asks for an
    error response. *)
Inductive dispatch_event :=
| CallHandler (handler : Z) (params : option J) (id : Z) (data : Z)
| ErrorResponse (code : Z) (id : Z).

Definition resolve_method (d : method_dispatcher) (method : cstr) : option nat :=
  match find_method_index d method with
  | Some i => Some i
  | None =>
      match after_dot method with
      | Some (c :: rest) => find_method_index d (c :: rest)
      | _ => None
      end
  end.

(** [None]: the method string could not be duplicated and the code passes NULL
    to [strcmp]. *)
Definition method_dispatcher_dispatch (d : option method_dispatcher) (req : option J)
    (has_error_fn dup_ok : bool) (user_data : Z) : option (Z * list dispatch_event) :=
  match d, req with
  | Some d', Some _ =>
      match jsonrpc_parse_request_ptr req dup_ok with
      | (rc, (method, params, id)) =>
          if negb (rc =? 0) then
            Some (AIRY_ERR_PARSE_ERROR,
                  if has_error_fn then [ErrorResponse JSONRPC_INVALID_REQUEST id] else [])
          else
            match method with
            | None => None
            | Some m =>
                match resolve_method d' m with
                | None =>
                    Some (AIRY_ERR_NOT_FOUND,
                          if has_error_fn then [ErrorResponse JSONRPC_METHOD_NOT_FOUND id] else [])
                | Some i =>
                    match handlers d' !! i with
                    | None => None
                    | Some h =>
                        let data := if mh_user_data h =? 0 then user_data else mh_user_data h in
                        Some (0, [CallHandler (mh_handler h) params id data])
                    end
                end
            end
      end
  | _, _ => Some (AIRY_ERR_INVALID_PARAM, [])
  end.

End requests.

Arguments dispatch_event : clear implicits.

(** ** The table of a dispatcher *)

(** The registered handlers as a map from method names. *)
Definition disp_table (d : method_dispatcher) : gmap cstr (Z * Z) :=
  list_to_map ((fun h => (mh_method h, (mh_handler h, mh_user_data h))) <$> handlers d).

Record disp_ok (d : method_dispatcher) : Prop := {
  disp_nodup : NoDup (mh_method <$> handlers d);
  disp_len : (length (handlers d) <= max_methods d)%nat;
}.

(** What a dispatch looks up: the full name, then the name after the first
    dot. *)
Definition disp_lookup (t : gmap cstr (Z * Z)) (method : cstr) : option (Z * Z) :=
  match t !! method with
  | Some x => Some x
  | None => match after_dot method with
            | Some (c :: rest) => t !! (c :: rest)
            | _ => None
            end
  end.

Lemma find_loop_spec hs m i :
  match find_method_index_loop hs m i with
  | Some j => exists k h, j = (i + k)%nat /\ hs !! k = Some h /\ mh_method h = m
  | None => m ∉ (mh_method <$> hs)
  end.
Proof.
  revert i. induction hs as [|h hs IH]; intros i; simpl; [apply not_elem_of_nil|].
  case_decide as Hm; [by exists 0%nat, h; rewrite Nat.add_0_r|].
  specialize (IH (S i)). case_match.
  - destruct IH as (k & h' & -> & Hk & Hh). exists (S k), h'. rewrite Nat.add_succ_r. done.
  - rewrite not_elem_of_cons. split; [congruence|done].
Qed.

Lemma fst_table (hs : list method_handler) :
  fst <$> ((fun h => (mh_method h, (mh_handler h, mh_user_data h))) <$> hs) = mh_method <$> hs.
Proof. by rewrite <- list_fmap_compose. Qed.

Lemma find_method_table d m :
  disp_ok d ->
  match find_method_index d m with
  | Some i => exists h, handlers d !! i = Some h /\
      disp_table d !! m = Some (mh_handler h, mh_user_data h)
  | None => disp_table d !! m = None
  end.
Proof.
  intros [Hnd _]. pose proof (find_loop_spec (handlers d) m 0) as H.
  unfold find_method_index, disp_table. case_match.
  - destruct H as (k & h & -> & Hk & <-). exists h. split; [done|].
    apply elem_of_list_to_map_1; [by rewrite fst_table|].
    apply list_elem_of_fmap. exists h. split; [done|]. by eapply list_elem_of_lookup_2.
  - apply not_elem_of_list_to_map_1. by rewrite fst_table.
Qed.

Lemma resolve_table d m :
  disp_ok d ->
  match resolve_method d m with
  | Some i => exists h, handlers d !! i = Some h /\
      disp_lookup (disp_table d) m = Some (mh_handler h, mh_user_data h)
  | None => disp_lookup (disp_table d) m = None
  end.
Proof.
  intros Hok. unfold resolve_method, disp_lookup. pose proof (find_method_table d m Hok) as H.
  destruct (find_method_index d m) as [i|].
  { destruct H as (h & ? & ->). eauto. }
  rewrite H. destruct (after_dot m) as [[|c rest]|]; [done| |done].
  apply (find_method_table d (c :: rest) Hok).
Qed.

(** ** Properties *)

(** A dispatcher is a bounded table of methods: registering succeeds
    exactly when there is room and the name is new, and then binds the name,
    leaving the other names alone; every failure leaves the dispatcher as it
    was. *)
Theorem register_table d m h ud :
  disp_ok d ->
  exists rc d', method_dispatcher_register (Some d) (Some m) (Some h) ud = (rc, Some d') /\
    disp_ok d' /\ max_methods d' = max_methods d /\
    if decide ((length (handlers d) < max_methods d)%nat /\ disp_table d !! m = None)
    then rc = 0 /\ disp_table d' = <[m := (h, ud)]> (disp_table d)
    else rc <> 0 /\ d' = d.
Proof.
  intros Hok. pose proof (find_method_table d m Hok) as Hf. unfold method_dispatcher_register.
  destruct (Nat.leb_spec (max_methods d) (length (handlers d))).
  { eexists _, d. split; [done|]. split; [done|]. split; [done|].
    rewrite decide_False by lia. done. }
  destruct (find_method_index d m) as [i|].
  { destruct Hf as (h' & _ & Ht). eexists _, d. split; [done|]. split; [done|]. split; [done|].
    rewrite decide_False by (intros [_ ?]; congruence). done. }
  eexists _, _. split; [done|]. split; [|split; [done|]].
  - destruct Hok as [Hnd Hlen]. split; simpl.
    + rewrite fmap_app. apply NoDup_app. split; [done|]. split; [|apply NoDup_singleton].
      intros x Hx. simpl. rewrite list_elem_of_singleton. intros ->.
      pose proof (not_elem_of_list_to_map_2 _ _ Hf) as Hn. rewrite fst_table in Hn. done.
    + rewrite length_app. simpl. lia.
  - rewrite decide_True by done. split; [done|]. unfold disp_table in *. simpl.
    rewrite fmap_app, list_to_map_app. simpl.
    rewrite <- insert_union_r by done. by rewrite map_union_empty.
Qed.

Lemma register_table_witness :
  let d := Disp [Handler [115] 1 0] 2 in
  disp_ok d /\
  exists rc d', method_dispatcher_register (Some d) (Some [116]) (Some 5) 9 = (rc, Some d') /\
    disp_ok d' /\ max_methods d' = max_methods d /\
    if decide ((length (handlers d) < max_methods d)%nat /\ disp_table d !! [116] = None)
    then rc = 0 /\ disp_table d' = <[[116] := (5, 9)]> (disp_table d)
    else rc <> 0 /\ d' = d.
Proof.
  assert (Hok : disp_ok (Disp [Handler [115] 1 0] 2)).
  { split; simpl; [apply NoDup_singleton|lia]. }
  split; [exact Hok|]. exact (register_table _ [116] 5 9 Hok).
Defined.

(** A well-formed request is dispatched to the handler bound to its method
    name or, failing that, to the name after its first dot, exactly once, with
    its parameters and id and with the handler's own data when it has any; a
    name bound to neither is answered by a method-not-found error and no handler
    runs. *)
Theorem dispatch_resolves {J : Type} `{!CJson J} d (req : J) m params id has_error_fn ud :
  disp_ok d ->
  jsonrpc_parse_request_ptr (Some req) true = (0, (Some m, params, id)) ->
  method_dispatcher_dispatch (Some d) (Some req) has_error_fn true ud =
    Some (match disp_lookup (disp_table d) m with
          | Some (h, data) => (0, [CallHandler h params id (if data =? 0 then ud else data)])
          | None => (AIRY_ERR_NOT_FOUND,
                     if has_error_fn then [ErrorResponse JSONRPC_METHOD_NOT_FOUND id] else [])
          end).
Proof.
  intros Hok Hparse. unfold method_dispatcher_dispatch. rewrite Hparse. simpl.
  pose proof (resolve_table d m Hok) as H. destruct (resolve_method d m) as [i|].
  - destruct H as (h & -> & ->). done.
  - by rewrite H.
Qed.

(** A small JSON type for the witness. *)
Inductive json := JNull | JNum (z : Z) | JStr (s : cstr) | JObj (fields : list (cstr * json)).

Definition jget (j : json) (k : cstr) : option json :=
  match j with
  | JObj fs => snd <$> find (fun f => bool_decide (fst f = k)) fs
  | _ => None
  end.

#[local] Instance json_cjson : CJson json := {|
  cJSON_GetObjectItem := jget;
  cJSON_GetObjectItemCaseSensitive := jget;
  cJSON_string j := match j with JStr s => Some s | _ => None end;
  cJSON_number j := match j with JNum z => Some z | _ => None end;
  cJSON_IsNull j := match j with JNull => true | _ => false end;
  cJSON_IsObject j := match j with JObj _ => true | _ => false end;
|}.

Definition sample_request : json :=
  JObj [(s_jsonrpc, JStr s_2_0); (s_method, JStr [97; 46; 115]); (s_id, JNum 7)].

Lemma dispatch_resolves_witness :
  method_dispatcher_dispatch (Some (Disp [Handler [115] 1 0] 2)) (Some sample_request) true true 33 =
    Some (0, [CallHandler 1 None 7 33]).
Proof.
  refine (dispatch_resolves (Disp [Handler [115] 1 0] 2) sample_request [97; 46; 115] None 7 true 33 _ _);
    [|reflexivity].
  split; simpl; [apply NoDup_singleton|lia].
Defined.
