(* ===== verification/Breaker.v ===== *)
(** * Circuit breakers: utils/ipc/circuit_breaker.c

    One breaker is the record [cb_internal_t]; its operations run in a small
    state monad over the breaker, the clock and the notifications sent so far.
    Every operation is a critical section of the breaker's mutex, so a list of
    operations is an interleaving of the calls of several threads.  The clock
    is a sequence of readings (the code reads it several times per operation)
    and the rates are IEEE doubles.  The manager is a list of handles into a
    heap of breakers, in which a freed handle is absent. *)
From S2P Require Import Prelude.

(** ** Data *)

Definition CB_MAX_BREAKERS : nat := 64.
Definition CB_MAX_NAME_LEN : nat := 64.
Definition CB_MAX_CALLBACKS : nat := 8.
Definition CB_DEFAULT_FAILURE_THRESHOLD : Z := 5.
Definition CB_DEFAULT_SUCCESS_THRESHOLD : Z := 3.
Definition CB_DEFAULT_TIMEOUT_MS : Z := 30000.
Definition CB_DEFAULT_HALF_OPEN_MAX : Z := 1.
Definition AIRY_CB_WINDOW_SIZE_MS : Z := 60000.
Definition AIRY_CB_SLOW_CALL_MS : Z := 5000.
Definition AIRY_CB_SLOW_CALL_RATE_PCT : Z := 50.
Definition AIRY_CB_FAILURE_RATE_PCT : Z := 50.
Definition AIRY_DEFAULT_MAX_RETRIES : Z := 3.
Definition AIRY_DEFAULT_RETRY_DELAY_MS : Z := 100.
Definition AIRY_DEFAULT_BACKOFF_FACTOR : Z := 2.

Inductive cb_state_t := CB_STATE_CLOSED | CB_STATE_OPEN | CB_STATE_HALF_OPEN.

#[export] Instance cb_state_eq_dec : EqDecision cb_state_t.
Proof. solve_decision. Defined.

Record cb_config_t := Config {
  failure_threshold : Z;
  success_threshold : Z;
  timeout_ms : Z;
  half_open_max_calls : Z;
  window_size_ms : Z;
  slow_call_duration_ms : Z;
  slow_call_rate_threshold : Z;
  failure_rate_threshold : Z;
  enable_slow_call_detection : bool;
  enable_auto_failover : bool;
}.

Record cb_stats_t := Stats {
  total_calls : Z;
  successful_calls : Z;
  failed_calls : Z;
  rejected_calls : Z;
  timeout_calls : Z;
  slow_calls : Z;
  state_transitions : Z;
  last_failure_time : Z;
  last_success_time : Z;
  last_state_change_time : Z;
  failure_rate : spec_float;
  slow_call_rate : spec_float;
  consecutive_failures : Z;
  consecutive_successes : Z;
}.

(** The only event type the file sends is [CB_EVENT_STATE_CHANGE]. *)
Record cb_event_t := Event {
  ev_breaker_name : cstr;
  ev_old_state : cb_state_t;
  ev_new_state : cb_state_t;
  ev_message : cstr;
  ev_timestamp : Z;
}.

(** A strategy outside the enum is representable, and handled by the code. *)
Record cb_failover_config_t := Failover {
  strategy : Z;
  fallback_service : cstr;
  max_retries : Z;
  retry_delay_ms : Z;
  retry_backoff_factor : Z;
}.

(** The pointer to the manager and the mutex are left out: every breaker belongs
    to the manager that made it. *)
Record cb_internal_t := Breaker {
  cb_name : cstr;
  config : cb_config_t;
  failover_config : cb_failover_config_t;
  state : cb_state_t;
  stats : cb_stats_t;
  state_changed_at : Z;
  half_open_calls : Z;
  window_start : Z;
  window_failures : Z;
  window_calls : Z;
  destroying : bool;
}.

Definition set_total_calls (v : Z) (r : cb_stats_t) : cb_stats_t :=
  Stats v (successful_calls r) (failed_calls r) (rejected_calls r) (timeout_calls r) (slow_calls
    r) (state_transitions r) (last_failure_time r) (last_success_time r) (last_state_change_time
    r) (failure_rate r) (slow_call_rate r) (consecutive_failures r) (consecutive_successes r).
Definition set_successful_calls (v : Z) (r : cb_stats_t) : cb_stats_t :=
  Stats (total_calls r) v (failed_calls r) (rejected_calls r) (timeout_calls r) (slow_calls r)
    (state_transitions r) (last_failure_time r) (last_success_time r) (last_state_change_time r)
    (failure_rate r) (slow_call_rate r) (consecutive_failures r) (consecutive_successes r).
Definition set_failed_calls (v : Z) (r : cb_stats_t) : cb_stats_t :=
  Stats (total_calls r) (successful_calls r) v (rejected_calls r) (timeout_calls r) (slow_calls r)
    (state_transitions r) (last_failure_time r) (last_success_time r) (last_state_change_time r)
    (failure_rate r) (slow_call_rate r) (consecutive_failures r) (consecutive_successes r).
Definition set_rejected_calls (v : Z) (r : cb_stats_t) : cb_stats_t :=
  Stats (total_calls r) (successful_calls r) (failed_calls r) v (timeout_calls r) (slow_calls r)
    (state_transitions r) (last_failure_time r) (last_success_time r) (last_state_change_time r)
    (failure_rate r) (slow_call_rate r) (consecutive_failures r) (consecutive_successes r).
Definition set_timeout_calls (v : Z) (r : cb_stats_t) : cb_stats_t :=
  Stats (total_calls r) (successful_calls r) (failed_calls r) (rejected_calls r) v (slow_calls r)
    (state_transitions r) (last_failure_time r) (last_success_time r) (last_state_change_time r)
    (failure_rate r) (slow_call_rate r) (consecutive_failures r) (consecutive_successes r).
Definition set_slow_calls (v : Z) (r : cb_stats_t) : cb_stats_t :=
  Stats (total_calls r) (successful_calls r) (failed_calls r) (rejected_calls r) (timeout_calls r)
    v (state_transitions r) (last_failure_time r) (last_success_time r) (last_state_change_time
    r) (failure_rate r) (slow_call_rate r) (consecutive_failures r) (consecutive_successes r).
Definition set_state_transitions (v : Z) (r : cb_stats_t) : cb_stats_t :=
  Stats (total_calls r) (successful_calls r) (failed_calls r) (rejected_calls r) (timeout_calls r)
    (slow_calls r) v (last_failure_time r) (last_success_time r) (last_state_change_time r)
    (failure_rate r) (slow_call_rate r) (consecutive_failures r) (consecutive_successes r).
Definition set_last_failure_time (v : Z) (r : cb_stats_t) : cb_stats_t :=
  Stats (total_calls r) (successful_calls r) (failed_calls r) (rejected_calls r) (timeout_calls r)
    (slow_calls r) (state_transitions r) v (last_success_time r) (last_state_change_time r)
    (failure_rate r) (slow_call_rate r) (consecutive_failures r) (consecutive_successes r).
Definition set_last_success_time (v : Z) (r : cb_stats_t) : cb_stats_t :=
  Stats (total_calls r) (successful_calls r) (failed_calls r) (rejected_calls r) (timeout_calls r)
    (slow_calls r) (state_transitions r) (last_failure_time r) v (last_state_change_time r)
    (failure_rate r) (slow_call_rate r) (consecutive_failures r) (consecutive_successes r).
Definition set_last_state_change_time (v : Z) (r : cb_stats_t) : cb_stats_t :=
  Stats (total_calls r) (successful_calls r) (failed_calls r) (rejected_calls r) (timeout_calls r)
    (slow_calls r) (state_transitions r) (last_failure_time r) (last_success_time r) v
    (failure_rate r) (slow_call_rate r) (consecutive_failures r) (consecutive_successes r).
Definition set_failure_rate (v : spec_float) (r : cb_stats_t) : cb_stats_t :=
  Stats (total_calls r) (successful_calls r) (failed_calls r) (rejected_calls r) (timeout_calls r)
    (slow_calls r) (state_transitions r) (last_failure_time r) (last_success_time r)
    (last_state_change_time r) v (slow_call_rate r) (consecutive_failures r)
    (consecutive_successes r).
Definition set_slow_call_rate (v : spec_float) (r : cb_stats_t) : cb_stats_t :=
  Stats (total_calls r) (successful_calls r) (failed_calls r) (rejected_calls r) (timeout_calls r)
    (slow_calls r) (state_transitions r) (last_failure_time r) (last_success_time r)
    (last_state_change_time r) (failure_rate r) v (consecutive_failures r)
    (consecutive_successes r).
Definition set_consecutive_failures (v : Z) (r : cb_stats_t) : cb_stats_t :=
  Stats (total_calls r) (successful_calls r) (failed_calls r) (rejected_calls r) (timeout_calls r)
    (slow_calls r) (state_transitions r) (last_failure_time r) (last_success_time r)
    (last_state_change_time r) (failure_rate r) (slow_call_rate r) v (consecutive_successes r).
Definition set_consecutive_successes (v : Z) (r : cb_stats_t) : cb_stats_t :=
  Stats (total_calls r) (successful_calls r) (failed_calls r) (rejected_calls r) (timeout_calls r)
    (slow_calls r) (state_transitions r) (last_failure_time r) (last_success_time r)
    (last_state_change_time r) (failure_rate r) (slow_call_rate r) (consecutive_failures r) v.

Definition set_failover_config (v : cb_failover_config_t) (r : cb_internal_t) : cb_internal_t :=
  Breaker (cb_name r) (config r) v (state r) (stats r) (state_changed_at r) (half_open_calls r)
    (window_start r) (window_failures r) (window_calls r) (destroying r).
Definition set_state (v : cb_state_t) (r : cb_internal_t) : cb_internal_t :=
  Breaker (cb_name r) (config r) (failover_config r) v (stats r) (state_changed_at r)
    (half_open_calls r) (window_start r) (window_failures r) (window_calls r) (destroying r).
Definition set_stats (v : cb_stats_t) (r : cb_internal_t) : cb_internal_t :=
  Breaker (cb_name r) (config r) (failover_config r) (state r) v (state_changed_at r)
    (half_open_calls r) (window_start r) (window_failures r) (window_calls r) (destroying r).
Definition set_state_changed_at (v : Z) (r : cb_internal_t) : cb_internal_t :=
  Breaker (cb_name r) (config r) (failover_config r) (state r) (stats r) v (half_open_calls r)
    (window_start r) (window_failures r) (window_calls r) (destroying r).
Definition set_half_open_calls (v : Z) (r : cb_internal_t) : cb_internal_t :=
  Breaker (cb_name r) (config r) (failover_config r) (state r) (stats r) (state_changed_at r) v
    (window_start r) (window_failures r) (window_calls r) (destroying r).
Definition set_window_start (v : Z) (r : cb_internal_t) : cb_internal_t :=
  Breaker (cb_name r) (config r) (failover_config r) (state r) (stats r) (state_changed_at r)
    (half_open_calls r) v (window_failures r) (window_calls r) (destroying r).
Definition set_window_failures (v : Z) (r : cb_internal_t) : cb_internal_t :=
  Breaker (cb_name r) (config r) (failover_config r) (state r) (stats r) (state_changed_at r)
    (half_open_calls r) (window_start r) v (window_calls r) (destroying r).
Definition set_window_calls (v : Z) (r : cb_internal_t) : cb_internal_t :=
  Breaker (cb_name r) (config r) (failover_config r) (state r) (stats r) (state_changed_at r)
    (half_open_calls r) (window_start r) (window_failures r) v (destroying r).
Definition set_destroying (v : bool) (r : cb_internal_t) : cb_internal_t :=
  Breaker (cb_name r) (config r) (failover_config r) (state r) (stats r) (state_changed_at r)
    (half_open_calls r) (window_start r) (window_failures r) (window_calls r) v.

(** ** The monad of one breaker *)

(** A registered callback and its user data; the function may be NULL. *)
Abbreviation cb_callback_entry_t := (option Z * Z)%type.

Record cb_env := Env {
  clk : nat -> Z;                          (** the readings of [airy_time_ms] *)
  tick : nat;                              (** how many have been taken *)
  notified : list (Z * Z * cb_event_t);    (** callbacks run, in order *)
}.

Definition M (A : Type) : Type := cb_internal_t * cb_env -> A * (cb_internal_t * cb_env).

Definition ret {A} (a : A) : M A := fun s => (a, s).
Definition bind {A B} (m : M A) (f : A -> M B) : M B := fun s => let (a, s') := m s in f a s'.
Definition get_cb : M cb_internal_t := fun s => (s.1, s).
Definition modify_cb (f : cb_internal_t -> cb_internal_t) : M unit := fun s => (tt, (f s.1, s.2)).
Definition modify_stats (f : cb_stats_t -> cb_stats_t) : M unit :=
  modify_cb (fun cb => set_stats (f (stats cb)) cb).
Definition airy_time_ms : M Z := fun s =>
  (clk s.2 (tick s.2), (s.1, Env (clk s.2) (S (tick s.2)) (notified s.2))).
Definition run_callback (fn ud : Z) (ev : cb_event_t) : M unit := fun s =>
  (tt, (s.1, Env (clk s.2) (tick s.2) (notified s.2 ++ [(fn, ud, ev)]))).

Declare Scope cb_scope.
Delimit Scope cb_scope with cb.
Notation "x <- m ;; k" := (bind m (fun x => k))
  (at level 100, m at next level, right associativity) : cb_scope.
Notation "m ;; k" := (bind m (fun _ => k))
  (at level 100, right associativity) : cb_scope.
#[local] Open Scope cb_scope.

(** ** Operations of one breaker *)

Definition cb_state_to_string (s : cb_state_t) : cstr :=
  match s with
  | CB_STATE_CLOSED => cs "CLOSED"
  | CB_STATE_OPEN => cs "OPEN"
  | CB_STATE_HALF_OPEN => cs "HALF_OPEN"
  end.

(** [safe_strcpy] into a buffer of [size > 0] bytes. *)
Definition name_copy (src : cstr) : cstr := take (CB_MAX_NAME_LEN - 1) src.

Fixpoint notify_loop (l : list cb_callback_entry_t) (ev : cb_event_t) : M unit :=
  match l with
  | [] => ret tt
  | (Some fn, ud) :: l' => run_callback fn ud ev ;; notify_loop l' ev
  | (None, _) :: l' => notify_loop l' ev
  end.

(** [mgr] is the manager's table of callbacks, [None] the NULL manager. *)
Definition notify_event (mgr : option (list cb_callback_entry_t)) (ev : cb_event_t) : M unit :=
  match mgr with None => ret tt | Some l => notify_loop l ev end.

Definition transition_state (mgr : option (list cb_callback_entry_t)) (new_state : cb_state_t)
    : M unit :=
  cb <- get_cb ;;
  let old_state := state cb in
  if decide (old_state = new_state) then ret tt
  else
    modify_cb (set_state new_state) ;;
    t <- airy_time_ms ;;
    modify_cb (set_state_changed_at t) ;;
    modify_stats (fun s => set_state_transitions (u64 (state_transitions s + 1)) s) ;;
    modify_stats (set_last_state_change_time t) ;;
    (if decide (new_state = CB_STATE_HALF_OPEN) then
       modify_cb (set_half_open_calls 0) ;;
       modify_stats (set_consecutive_successes 0)
     else ret tt) ;;
    (if decide (new_state = CB_STATE_CLOSED) then
       modify_stats (set_consecutive_failures 0) ;;
       modify_stats (set_consecutive_successes 0) ;;
       modify_cb (set_window_failures 0) ;;
       modify_cb (set_window_calls 0) ;;
       t' <- airy_time_ms ;;
       modify_cb (set_window_start t')
     else ret tt) ;;
    let msg := snprintf_into 128 [] (cs "State: " ++ cb_state_to_string old_state ++ cs " -> " ++
                                     cb_state_to_string new_state) in
    notify_event mgr (Event (name_copy (cb_name cb)) old_state new_state msg t).

(** The lock is taken and, on a breaker being destroyed, released again: the
    operation then returns [dead] without doing anything. *)
Definition cb_lock_alive {A} (dead : A) (body : M A) : M A :=
  cb <- get_cb ;;
  if destroying cb then ret dead else body.

Definition check_window_reset : M unit :=
  now <- airy_time_ms ;;
  cb <- get_cb ;;
  if (0 <? window_size_ms (config cb)) &&
     (window_size_ms (config cb) <=? u64 (now - window_start cb))
  then
    modify_cb (set_window_start now) ;;
    modify_cb (set_window_failures 0) ;;
    modify_cb (set_window_calls 0)
  else ret tt.

(** [(double)a * 100.0 / b]. *)
Definition percent (a b : Z) : spec_float :=
  SFdiv 53 1024 (SFmul 53 1024 (of_int a) (of_int 100)) (of_int b).

Definition should_trip (cb : cb_internal_t) : bool :=
  if failure_threshold (config cb) <=? consecutive_failures (stats cb) then true
  else if (0 <? failure_rate_threshold (config cb)) && (0 <? window_calls cb) &&
          SFleb (of_int (failure_rate_threshold (config cb)))
                (percent (window_failures cb) (window_calls cb)) then true
  else enable_slow_call_detection (config cb) && (0 <? total_calls (stats cb)) &&
       (0 <? slow_call_rate_threshold (config cb)) &&
       SFleb (of_int (slow_call_rate_threshold (config cb))) (slow_call_rate (stats cb)).

Definition note_failure_locked (mgr : option (list cb_callback_entry_t)) : M unit :=
  t <- airy_time_ms ;;
  modify_stats (set_last_failure_time t) ;;
  modify_stats (fun s => set_consecutive_failures (u32 (consecutive_failures s + 1)) s) ;;
  modify_stats (set_consecutive_successes 0) ;;
  modify_cb (fun cb => set_window_calls (u32 (window_calls cb + 1)) cb) ;;
  modify_cb (fun cb => set_window_failures (u32 (window_failures cb + 1)) cb) ;;
  check_window_reset ;;
  cb <- get_cb ;;
  (if 0 <? window_calls cb then
     modify_stats (set_failure_rate (percent (window_failures cb) (window_calls cb)))
   else ret tt) ;;
  cb <- get_cb ;;
  match state cb with
  | CB_STATE_CLOSED => if should_trip cb then transition_state mgr CB_STATE_OPEN else ret tt
  | CB_STATE_HALF_OPEN => transition_state mgr CB_STATE_OPEN
  | CB_STATE_OPEN => ret tt
  end.

Definition cb_create_default_config : cb_config_t :=
  Config CB_DEFAULT_FAILURE_THRESHOLD CB_DEFAULT_SUCCESS_THRESHOLD CB_DEFAULT_TIMEOUT_MS
    CB_DEFAULT_HALF_OPEN_MAX AIRY_CB_WINDOW_SIZE_MS AIRY_CB_SLOW_CALL_MS
    AIRY_CB_SLOW_CALL_RATE_PCT AIRY_CB_FAILURE_RATE_PCT true false.

Definition cb_create_default_failover_config : cb_failover_config_t :=
  Failover 0 [] AIRY_DEFAULT_MAX_RETRIES AIRY_DEFAULT_RETRY_DELAY_MS AIRY_DEFAULT_BACKOFF_FACTOR.

Definition cb_allow_request (mgr : option (list cb_callback_entry_t)) : M bool :=
  cb_lock_alive false (
    cb <- get_cb ;;
    match state cb with
    | CB_STATE_CLOSED => ret true
    | CB_STATE_OPEN =>
        now <- airy_time_ms ;;
        if timeout_ms (config cb) <=? u64 (now - state_changed_at cb) then
          transition_state mgr CB_STATE_HALF_OPEN ;; ret true
        else
          modify_stats (fun s => set_rejected_calls (u64 (rejected_calls s + 1)) s) ;; ret false
    | CB_STATE_HALF_OPEN =>
        if half_open_calls cb <? half_open_max_calls (config cb) then
          modify_cb (set_half_open_calls (u32 (half_open_calls cb + 1))) ;; ret true
        else
          modify_stats (fun s => set_rejected_calls (u64 (rejected_calls s + 1)) s) ;; ret false
    end).

Definition cb_record_success (mgr : option (list cb_callback_entry_t)) (duration_ms : Z) : M unit :=
  cb_lock_alive tt (
    modify_stats (fun s => set_total_calls (u64 (total_calls s + 1)) s) ;;
    modify_stats (fun s => set_successful_calls (u64 (successful_calls s + 1)) s) ;;
    t <- airy_time_ms ;;
    modify_stats (set_last_success_time t) ;;
    modify_stats (set_consecutive_failures 0) ;;
    modify_stats (fun s => set_consecutive_successes (u32 (consecutive_successes s + 1)) s) ;;
    modify_cb (fun cb => set_window_calls (u32 (window_calls cb + 1)) cb) ;;
    check_window_reset ;;
    cb <- get_cb ;;
    (if enable_slow_call_detection (config cb) &&
        (slow_call_duration_ms (config cb) <? duration_ms) then
       modify_stats (fun s => set_slow_calls (u64 (slow_calls s + 1)) s) ;;
       cb <- get_cb ;;
       if 0 <? total_calls (stats cb) then
         modify_stats (set_slow_call_rate (percent (slow_calls (stats cb)) (total_calls (stats cb))))
       else ret tt
     else ret tt) ;;
    cb <- get_cb ;;
    match state cb with
    | CB_STATE_HALF_OPEN =>
        if success_threshold (config cb) <=? consecutive_successes (stats cb)
        then transition_state mgr CB_STATE_CLOSED else ret tt
    | _ => ret tt
    end).

Definition cb_record_failure (mgr : option (list cb_callback_entry_t)) : M unit :=
  cb_lock_alive tt (
    modify_stats (fun s => set_total_calls (u64 (total_calls s + 1)) s) ;;
    modify_stats (fun s => set_failed_calls (u64 (failed_calls s + 1)) s) ;;
    note_failure_locked mgr).

Definition cb_record_timeout (mgr : option (list cb_callback_entry_t)) : M unit :=
  cb_lock_alive tt (
    modify_stats (fun s => set_total_calls (u64 (total_calls s + 1)) s) ;;
    modify_stats (fun s => set_timeout_calls (u64 (timeout_calls s + 1)) s) ;;
    modify_stats (fun s => set_failed_calls (u64 (failed_calls s + 1)) s) ;;
    note_failure_locked mgr).

Definition cb_get_state (cb : option cb_internal_t) : cb_state_t :=
  match cb with None => CB_STATE_OPEN | Some cb => state cb end.

Definition cb_get_name (cb : option cb_internal_t) : option cstr := cb_name <$> cb.

Definition cb_get_stats : M (Z * option cb_stats_t) :=
  cb_lock_alive (AIRY_EINVAL, None) (cb <- get_cb ;; ret (AIRY_SUCCESS, Some (stats cb))).

Definition cb_reset : M unit :=
  cb_lock_alive tt (
    cb <- get_cb ;;
    let old := state cb in
    modify_cb (set_state CB_STATE_CLOSED) ;;
    t <- airy_time_ms ;;
    modify_cb (set_state_changed_at t) ;;
    modify_stats (set_consecutive_failures 0) ;;
    modify_stats (set_consecutive_successes 0) ;;
    modify_cb (set_window_failures 0) ;;
    modify_cb (set_window_calls 0) ;;
    t' <- airy_time_ms ;;
    modify_cb (set_window_start t') ;;
    modify_cb (set_half_open_calls 0) ;;
    if decide (old = CB_STATE_CLOSED) then ret tt
    else
      modify_stats (fun s => set_state_transitions (u64 (state_transitions s + 1)) s) ;;
      modify_stats (set_last_state_change_time t)).

Definition cb_force_open (mgr : option (list cb_callback_entry_t)) : M unit :=
  cb_lock_alive tt (transition_state mgr CB_STATE_OPEN).

Definition cb_force_close (mgr : option (list cb_callback_entry_t)) : M unit :=
  cb_lock_alive tt (transition_state mgr CB_STATE_CLOSED).

Definition cb_set_failover_config (c : option cb_failover_config_t) : M Z :=
  match c with
  | None => ret AIRY_EINVAL
  | Some c => cb_lock_alive AIRY_EINVAL (modify_cb (set_failover_config c) ;; ret AIRY_SUCCESS)
  end.

(** A JSON string literal: the text between two quotes. *)
Definition quoted (s : cstr) : cstr := 34 :: s ++ [34].
Definition failover_head (what name : cstr) : cstr :=
  cs "{" ++ quoted (cs "failover") ++ cs ":" ++ quoted what ++ cs "," ++
  quoted (cs "service") ++ cs ":" ++ quoted name.

(** The result buffer [fallback_result] of [result_size] bytes and its
    contents after the call. *)
Definition cb_execute_failover (original_error : Z) (fallback_result : cstr) (result_size : nat)
    : M (Z * cstr) :=
  cb_lock_alive (AIRY_EINVAL, fallback_result) (
    cb <- get_cb ;;
    let fc := failover_config cb in
    let print := snprintf_into result_size fallback_result in
    ret
      (if strategy fc =? 0 then
         (AIRY_SUCCESS, print (failover_head (cs "retry") (cb_name cb) ++
            cs "," ++ quoted (cs "retries") ++ cs ":" ++ fmt_u (max_retries fc) ++
            cs "," ++ quoted (cs "delay_ms") ++ cs ":" ++ fmt_u (retry_delay_ms fc) ++ cs "}"))
       else if strategy fc =? 1 then
         (AIRY_SUCCESS, print (failover_head (cs "fallback") (cb_name cb) ++
            cs "," ++ quoted (cs "fallback") ++ cs ":" ++ quoted (fallback_service fc) ++ cs "}"))
       else if strategy fc =? 2 then
         (AIRY_SUCCESS, print (failover_head (cs "redirect") (cb_name cb) ++
            cs "," ++ quoted (cs "target") ++ cs ":" ++ quoted (fallback_service fc) ++ cs "}"))
       else if strategy fc =? 3 then
         (AIRY_SUCCESS, print (failover_head (cs "cache") (cb_name cb) ++
            cs "," ++ quoted (cs "error") ++ cs ":" ++ fmt_d original_error ++ cs "}"))
       else
         (AIRY_ERR_UNKNOWN, print (failover_head (cs "none") (cb_name cb) ++
            cs "," ++ quoted (cs "error") ++ cs ":" ++ fmt_d original_error ++ cs "}")))).

(** ** The manager *)

(** Handles are numbers; [heap] holds the live breakers, [next] the handle the
    next allocation gives. *)
Record cb_manager := Manager {
  breakers : list nat;
  callbacks : list cb_callback_entry_t;
  heap : gmap nat cb_internal_t;
  next : nat;
}.

Definition cb_manager_create (alloc mtx_ok : bool) : option cb_manager :=
  if alloc && mtx_ok then Some (Manager [] [] ∅ 0) else None.

(** The loop of [cb_create] and [cb_find]: [None] when it meets a freed
    breaker. *)
Fixpoint find_name (h : gmap nat cb_internal_t) (l : list nat) (name : cstr)
    : option (option nat) :=
  match l with
  | [] => Some None
  | b :: l' =>
      cb ← h !! b;
      if decide (cb_name cb = name) then Some (Some b) else find_name h l' name
  end.

(** The inner [option nat] is the returned handle, NULL when [None]. *)
Definition cb_create (m : cb_manager) (name : option cstr) (cfg : option cb_config_t)
    (alloc mtx_ok : bool) (t1 t2 : Z) : option (option nat * cb_manager) :=
  match name with
  | None => Some (None, m)
  | Some name =>
      if (CB_MAX_BREAKERS <=? length (breakers m))%nat then Some (None, m)
      else
        found ← find_name (heap m) (breakers m) name;
        match found with
        | Some b => Some (Some b, m)
        | None =>
            if negb alloc then Some (None, m)
            else
              let cb := Breaker (name_copy name) (default cb_create_default_config cfg)
                cb_create_default_failover_config CB_STATE_CLOSED
                (Stats 0 0 0 0 0 0 0 0 0 0 (S754_zero false) (S754_zero false) 0 0)
                t1 0 t2 0 0 false in
              if negb mtx_ok then Some (None, m)
              else Some (Some (next m),
                Manager (breakers m ++ [next m]) (callbacks m) (<[next m := cb]> (heap m)) (S (next m)))
        end
  end.

Definition cb_find (m : cb_manager) (name : option cstr) : option (option nat) :=
  match name with None => Some None | Some name => find_name (heap m) (breakers m) name end.

Definition cb_count (m : cb_manager) : nat := length (breakers m).

(** The shift of the handles after the one removed. *)
Fixpoint remove_handle (b : nat) (l : list nat) : list nat :=
  match l with
  | [] => []
  | x :: l' => if decide (x = b) then l' else x :: remove_handle b l'
  end.

(** Destroying a freed handle is undefined. *)
Definition cb_destroy (m : cb_manager) (b : option nat) : option cb_manager :=
  match b with
  | None => Some m
  | Some b =>
      _ ← heap m !! b;
      Some (Manager (remove_handle b (breakers m)) (callbacks m) (delete b (heap m)) (next m))
  end.

Definition cb_manager_destroy (m : cb_manager) : gmap nat cb_internal_t :=
  foldl (fun h b => delete b h) (heap m) (breakers m).

Definition cb_register_event_callback (m : cb_manager) (fn : option Z) (ud : Z) : Z * cb_manager :=
  match fn with
  | None => (AIRY_EINVAL, m)
  | Some fn =>
      if (CB_MAX_CALLBACKS <=? length (callbacks m))%nat then (AIRY_ENOMEM, m)
      else (AIRY_SUCCESS,
            Manager (breakers m) (callbacks m ++ [(Some fn, ud)]) (heap m) (next m))
  end.

(** An operation run through the handle [b]: the NULL handle gives [null], a
    freed one is undefined. *)
Definition on_breaker {A} (null : A) (op : option (list cb_callback_entry_t) -> M A)
    (m : cb_manager) (b : option nat) (e : cb_env) : option (A * cb_manager * cb_env) :=
  match b with
  | None => Some (null, m, e)
  | Some b =>
      cb ← heap m !! b;
      let '(a, (cb', e')) := op (Some (callbacks m)) (cb, e) in
      Some (a, Manager (breakers m) (callbacks m) (<[b := cb']> (heap m)) (next m), e')
  end.

(** ** The specification: the textbook three-state breaker *)

Inductive cb_op :=
| OpAllow | OpSuccess (duration_ms : Z) | OpFailure | OpTimeout
| OpReset | OpForceOpen | OpForceClose.

Definition cb_call (mgr : option (list cb_callback_entry_t)) (op : cb_op) : M (option bool) :=
  match op with
  | OpAllow => b <- cb_allow_request mgr ;; ret (Some b)
  | OpSuccess d => cb_record_success mgr d ;; ret None
  | OpFailure => cb_record_failure mgr ;; ret None
  | OpTimeout => cb_record_timeout mgr ;; ret None
  | OpReset => cb_reset ;; ret None
  | OpForceOpen => cb_force_open mgr ;; ret None
  | OpForceClose => cb_force_close mgr ;; ret None
  end.

Fixpoint cb_run (mgr : option (list cb_callback_entry_t)) (ops : list cb_op) : M (list (option bool)) :=
  match ops with
  | [] => ret []
  | op :: ops' => r <- cb_call mgr op ;; rs <- cb_run mgr ops' ;; ret (r :: rs)
  end.

(** Closed with the current run of failures; open since a time; half open with
    the probes counted and the current run of successes. *)
Inductive cb_abs := AClosed (fails : Z) | AOpen (since : Z) | AHalf (probes succ : Z).

Definition is_failure (op : cb_op) : bool :=
  match op with OpFailure | OpTimeout => true | _ => false end.

(** Whether a rate criterion can trip the breaker at all. *)
Definition rates_on (c : cb_config_t) : bool :=
  (0 <? failure_rate_threshold c) ||
  (enable_slow_call_detection c && (0 <? slow_call_rate_threshold c)).

Definition abs_kind (a : cb_abs) : cb_state_t :=
  match a with AClosed _ => CB_STATE_CLOSED | AOpen _ => CB_STATE_OPEN | AHalf _ _ => CB_STATE_HALF_OPEN end.

(** One operation: the answer, and the state after it.  [T] holds of the clock
    readings taken during the operation. *)
Inductive abs_step (c : cb_config_t) (T : Z -> Prop) : cb_abs -> cb_op -> option bool -> cb_abs -> Prop :=
| step_closed_allow n : abs_step c T (AClosed n) OpAllow (Some true) (AClosed n)
| step_closed_success n d : abs_step c T (AClosed n) (OpSuccess d) None (AClosed 0)
| step_closed_fail n op :
    is_failure op = true -> n + 1 < failure_threshold c ->
    abs_step c T (AClosed n) op None (AClosed (n + 1))
| step_closed_trip n op t :
    is_failure op = true -> failure_threshold c <= n + 1 \/ rates_on c = true -> T t ->
    abs_step c T (AClosed n) op None (AOpen t)
| step_open_reject s now :
    T now -> u64 (now - s) < timeout_ms c -> abs_step c T (AOpen s) OpAllow (Some false) (AOpen s)
| step_open_probe s now :
    T now -> timeout_ms c <= u64 (now - s) -> abs_step c T (AOpen s) OpAllow (Some true) (AHalf 0 0)
| step_open_success s d : abs_step c T (AOpen s) (OpSuccess d) None (AOpen s)
| step_open_failure s op : is_failure op = true -> abs_step c T (AOpen s) op None (AOpen s)
| step_half_allow p k :
    p < half_open_max_calls c -> abs_step c T (AHalf p k) OpAllow (Some true) (AHalf (p + 1) k)
| step_half_reject p k :
    half_open_max_calls c <= p -> abs_step c T (AHalf p k) OpAllow (Some false) (AHalf p k)
| step_half_success p k d :
    k + 1 < success_threshold c -> abs_step c T (AHalf p k) (OpSuccess d) None (AHalf p (k + 1))
| step_half_close p k d :
    success_threshold c <= k + 1 -> abs_step c T (AHalf p k) (OpSuccess d) None (AClosed 0)
| step_half_failure p k op t :
    is_failure op = true -> T t -> abs_step c T (AHalf p k) op None (AOpen t)
| step_reset a : abs_step c T a OpReset None (AClosed 0)
| step_force_open a t :
    abs_kind a <> CB_STATE_OPEN -> T t -> abs_step c T a OpForceOpen None (AOpen t)
| step_force_open_open s : abs_step c T (AOpen s) OpForceOpen None (AOpen s)
| step_force_close a :
    abs_kind a <> CB_STATE_CLOSED -> abs_step c T a OpForceClose None (AClosed 0)
| step_force_close_closed n : abs_step c T (AClosed n) OpForceClose None (AClosed n).

(** The changes of state an operation must announce: all but those of
    [cb_reset]. *)
Definition announced (op : cb_op) (a a' : cb_abs) : list (cb_state_t * cb_state_t) :=
  match op with
  | OpReset => []
  | _ => if decide (abs_kind a = abs_kind a') then [] else [(abs_kind a, abs_kind a')]
  end.

(** A run: the operations with their answers and the changes announced, the
    clock readings being those of [clk] from [i] on. *)
Inductive abs_run (c : cb_config_t) (clk : nat -> Z) :
    nat -> cb_abs -> list cb_op -> list (option bool) -> list (cb_state_t * cb_state_t) ->
    nat -> cb_abs -> Prop :=
| run_nil i a : abs_run c clk i a [] [] [] i a
| run_cons i j k a a' a'' op r ops rs evs :
    (i <= j)%nat ->
    abs_step c (fun t => exists n, (i <= n < j)%nat /\ t = clk n) a op r a' ->
    abs_run c clk j a' ops rs evs k a'' ->
    abs_run c clk i a (op :: ops) (r :: rs) (announced op a a' ++ evs) k a''.

(** What the rates go by: the window with its calls and failures, and the slow
    calls among all calls, with their rate when the last one was counted. *)
Record rates := Rates { r_start : Z; r_calls : Z; r_fails : Z; r_slow : Z; r_total : Z; r_slow_rate : spec_float }.

(** A window that is over at [t] is followed by an empty one. *)
Definition in_window (c : cb_config_t) (t : Z) (w : rates) : rates :=
  if (0 <? window_size_ms c) && (window_size_ms c <=? u64 (t - r_start w))
  then Rates t 0 0 (r_slow w) (r_total w) (r_slow_rate w) else w.

Definition count_failure (w : rates) : rates :=
  Rates (r_start w) (u32 (r_calls w + 1)) (u32 (r_fails w + 1)) (r_slow w) (u64 (r_total w + 1)) (r_slow_rate w).

Definition count_success (w : rates) : rates :=
  Rates (r_start w) (u32 (r_calls w + 1)) (r_fails w) (r_slow w) (u64 (r_total w + 1)) (r_slow_rate w).

Definition count_slow (c : cb_config_t) (d : Z) (w : rates) : rates :=
  if enable_slow_call_detection c && (slow_call_duration_ms c <? d) then
    let n := u64 (r_slow w + 1) in
    Rates (r_start w) (r_calls w) (r_fails w) n (r_total w) (if 0 <? r_total w then percent n (r_total w) else r_slow_rate w)
  else w.

(** The outcome of a call is counted in the window that it falls into. *)
Definition counted (c : cb_config_t) (T : Z -> Prop) (op : cb_op) (w w' : rates) : Prop :=
  match op with
  | OpFailure | OpTimeout => exists t, T t /\ w' = in_window c t (count_failure w)
  | OpSuccess d => exists t, T t /\ w' = count_slow c d (in_window c t (count_success w))
  | _ => w' = w
  end.

(** The rate of failures in the window, or that of slow calls, has reached its
    threshold (in percent, in doubles); a threshold of 0 is none. *)
Definition rate_reached (c : cb_config_t) (w : rates) : bool :=
  (0 <? failure_rate_threshold c) && (0 <? r_calls w) && SFleb (of_int (failure_rate_threshold c)) (percent (r_fails w) (r_calls w)) ||
  enable_slow_call_detection c && (0 <? r_total w) && (0 <? slow_call_rate_threshold c) && SFleb (of_int (slow_call_rate_threshold c)) (r_slow_rate w).

(** A breaker that closes, or is reset, starts an empty window. *)
Definition settled (T : Z -> Prop) (op : cb_op) (a a' : cb_abs) (w w' : rates) : Prop :=
  let fresh := exists t, T t /\ w' = Rates t 0 0 (r_slow w) (r_total w) (r_slow_rate w) in
  match op, abs_kind a, abs_kind a' with
  | OpReset, _, _ => fresh
  | _, CB_STATE_CLOSED, _ => w' = w
  | _, _, CB_STATE_CLOSED => fresh
  | _, _, _ => w' = w
  end.

(** One operation with the rates: a closed breaker trips at a failure exactly
    when the run of failures or a rate has reached its threshold. *)
Definition rated_step (c : cb_config_t) (T : Z -> Prop) (x : cb_abs * rates) (op : cb_op) (r : option bool) (y : cb_abs * rates) : Prop :=
  exists w, counted c T op x.2 w /\ abs_step c T x.1 op r y.1 /\ settled T op x.1 y.1 w y.2 /\
    forall n, x.1 = AClosed n -> is_failure op = true ->
      abs_kind y.1 = CB_STATE_OPEN <-> failure_threshold c <= n + 1 \/ rate_reached c w = true.

Inductive rated_run (c : cb_config_t) (clk : nat -> Z) :
    nat -> cb_abs * rates -> list cb_op -> list (option bool) -> list (cb_state_t * cb_state_t) -> nat -> cb_abs * rates -> Prop :=
| rated_nil i x : rated_run c clk i x [] [] [] i x
| rated_cons i j k x y z op r ops rs evs :
    (i <= j)%nat -> rated_step c (fun t => exists n, (i <= n < j)%nat /\ t = clk n) x op r y -> rated_run c clk j y ops rs evs k z ->
    rated_run c clk i x (op :: ops) (r :: rs) (announced op x.1 y.1 ++ evs) k z.

Definition rates_view (cb : cb_internal_t) : rates :=
  Rates (window_start cb) (window_calls cb) (window_failures cb) (slow_calls (stats cb)) (total_calls (stats cb)) (slow_call_rate (stats cb)).

(** What the breaker shows of itself. *)
Definition cb_view (cb : cb_internal_t) : cb_abs :=
  match state cb with
  | CB_STATE_CLOSED => AClosed (consecutive_failures (stats cb))
  | CB_STATE_OPEN => AOpen (state_changed_at cb)
  | CB_STATE_HALF_OPEN => AHalf (half_open_calls cb) (consecutive_successes (stats cb))
  end.

Definition config_ok (c : cb_config_t) : Prop :=
  0 <= failure_threshold c < 2 ^ 32 /\ 0 <= success_threshold c < 2 ^ 32 /\
  0 <= half_open_max_calls c < 2 ^ 32 /\ 0 <= timeout_ms c < 2 ^ 32.

(** The counters the state depends on are below their thresholds, so they do
    not wrap. *)
Definition abs_ok (c : cb_config_t) (a : cb_abs) : Prop :=
  match a with
  | AClosed n => 0 <= n < Z.max 1 (failure_threshold c)
  | AOpen _ => True
  | AHalf p k => 0 <= p <= half_open_max_calls c /\ 0 <= k < Z.max 1 (success_threshold c)
  end.

(** The callbacks a notification runs, and a notification reduced to the
    change it reports. *)
Definition fired (mgr : option (list cb_callback_entry_t)) (ev : cb_event_t) : list (Z * Z * cb_event_t) :=
  omap (fun '(fn, ud) => (fun f => (f, ud, ev)) <$> fn) (default [] mgr).

Definition change_of (n : Z * Z * cb_event_t) : Z * Z * (cb_state_t * cb_state_t) :=
  (n.1, (ev_old_state n.2, ev_new_state n.2)).

Definition announce (mgr : option (list cb_callback_entry_t)) (evs : list (cb_state_t * cb_state_t))
    : list (Z * Z * (cb_state_t * cb_state_t)) :=
  evs ≫= fun ch => omap (fun '(fn, ud) => (fun f => (f, ud, ch)) <$> fn) (default [] mgr).

(** ** Lemmas *)

Arguments Nat.leb : simpl never.
Arguments cb_create : simpl never.
Arguments cb_destroy : simpl never.
Arguments u32 : simpl never.
Arguments u64 : simpl never.
Arguments percent : simpl never.
Arguments of_int : simpl never.
Arguments should_trip : simpl never.
Arguments notify_event : simpl never.
Arguments snprintf_into : simpl never.

Lemma notify_event_run mgr ev cb e :
  notify_event mgr ev (cb, e) = (tt, (cb, Env (clk e) (tick e) (notified e ++ fired mgr ev))).
Proof.
  unfold notify_event, fired. destruct mgr as [l|]; simpl; [|by rewrite app_nil_r; destruct e].
  revert e. induction l as [|[[fn|] ud] l IH]; intros e; simpl; [by rewrite app_nil_r; destruct e| |].
  - unfold bind; simpl. rewrite IH. simpl. by rewrite <- app_assoc.
  - apply IH.
Qed.

Lemma change_of_fired mgr ev :
  map change_of (fired mgr ev) = announce mgr [(ev_old_state ev, ev_new_state ev)].
Proof.
  unfold fired, announce. simpl. rewrite app_nil_r.
  induction (default [] mgr) as [|[[fn|] ud] l IH]; simpl; [done| |done].
  f_equal. done.
Qed.

Lemma announce_app mgr l1 l2 : announce mgr (l1 ++ l2) = announce mgr l1 ++ announce mgr l2.
Proof. unfold announce. apply bind_app. Qed.

(** Everything of the breaker that no operation of [cb_op] changes. *)
Definition same_identity (cb cb' : cb_internal_t) : Prop :=
  config cb' = config cb /\ cb_name cb' = cb_name cb /\ destroying cb' = destroying cb /\
  failover_config cb' = failover_config cb.

(** The clock advances and the notifications are extended by [evs]. *)
Definition env_step (mgr : option (list cb_callback_entry_t)) (e e' : cb_env)
    (evs : list (cb_state_t * cb_state_t)) : Prop :=
  clk e' = clk e /\ (tick e <= tick e')%nat /\
  map change_of (notified e') = map change_of (notified e) ++ announce mgr evs.

Lemma env_step_trans mgr e1 e2 e3 l1 l2 :
  env_step mgr e1 e2 l1 -> env_step mgr e2 e3 l2 -> env_step mgr e1 e3 (l1 ++ l2).
Proof.
  intros (Hc & Ht & Hn) (Hc' & Ht' & Hn'). unfold env_step.
  rewrite announce_app, Hn', Hn, app_assoc. split_and!; [congruence|lia|done].
Qed.

Lemma transition_run mgr new cb e :
  let s := (transition_state mgr new (cb, e)).2 in
  same_identity cb s.1 /\ state s.1 = new /\
  env_step mgr e s.2 (if decide (state cb = new) then [] else [(state cb, new)]) /\
  (state cb <> new ->
   (tick e < tick s.2)%nat /\ state_changed_at s.1 = clk e (tick e) /\
   match new with
   | CB_STATE_CLOSED => consecutive_failures (stats s.1) = 0
   | CB_STATE_OPEN => True
   | CB_STATE_HALF_OPEN => half_open_calls s.1 = 0 /\ consecutive_successes (stats s.1) = 0
   end) /\
  (state cb = new -> s = (cb, e)).
Proof.
  unfold transition_state, bind, get_cb. simpl. case_decide as Heq.
  { simpl. split_and!; try done; unfold env_step; simpl.
    split_and!; [done|lia|by rewrite app_nil_r]. }
  destruct new; simpl; unfold bind; simpl; rewrite notify_event_run; simpl;
    (split; [done|split; [done|split; [|split; [intros _; split; [simpl; lia|done]|done]]]]);
    unfold env_step; simpl; (split; [done|split; [lia|]]);
    by rewrite map_app, change_of_fired.
Qed.

(** The fields the state machine depends on. *)
Definition same_control (cb cb' : cb_internal_t) : Prop :=
  same_identity cb cb' /\ state cb' = state cb /\ state_changed_at cb' = state_changed_at cb /\
  half_open_calls cb' = half_open_calls cb /\
  consecutive_failures (stats cb') = consecutive_failures (stats cb) /\
  consecutive_successes (stats cb') = consecutive_successes (stats cb).

Lemma same_control_view cb cb' : same_control cb cb' -> cb_view cb' = cb_view cb.
Proof.
  intros (_ & Hs & Ht & Hh & Hf & Hc). unfold cb_view. by rewrite Hs, Ht, Hh, Hf, Hc.
Qed.

Lemma env_step_refl mgr e : env_step mgr e e [].
Proof. unfold env_step. rewrite app_nil_r. split_and!; [done|lia|done]. Qed.

Lemma check_window_reset_run mgr cb e :
  let s := (check_window_reset (cb, e)).2 in
  same_control cb s.1 /\ env_step mgr e s.2 [] /\ stats s.1 = stats cb /\
  rates_view s.1 = in_window (config cb) (clk e (tick e)) (rates_view cb) /\ tick s.2 = S (tick e).
Proof.
  unfold check_window_reset, bind, airy_time_ms, get_cb, in_window. cbn [rates_view r_start]. simpl.
  destruct (_ && _); simpl; unfold same_control, same_identity, env_step; simpl;
    rewrite app_nil_r; split_and!; (done || lia).
Qed.

Lemma should_trip_false cb :
  should_trip cb = false -> consecutive_failures (stats cb) < failure_threshold (config cb).
Proof. unfold should_trip. destruct (Z.leb_spec (failure_threshold (config cb)) (consecutive_failures (stats cb))); [done|lia]. Qed.

Lemma should_trip_true cb :
  should_trip cb = true ->
  failure_threshold (config cb) <= consecutive_failures (stats cb) \/ rates_on (config cb) = true.
Proof.
  unfold should_trip, rates_on.
  destruct (Z.leb_spec (failure_threshold (config cb)) (consecutive_failures (stats cb))); [by left|].
  destruct (0 <? failure_rate_threshold (config cb)); simpl; [by right|].
  destruct (enable_slow_call_detection (config cb)), (0 <? slow_call_rate_threshold (config cb));
    simpl; rewrite ?andb_false_r; simpl; by auto.
Qed.

(** What happened in one operation: who it is about, the clock, and the step
    of the specification, which keeps the counters in range. *)
Definition op_ok (mgr : option (list cb_callback_entry_t)) (op : cb_op) (r : option bool)
    (cb cb' : cb_internal_t) (e e' : cb_env) : Prop :=
  same_identity cb cb' /\
  abs_step (config cb) (fun t => exists n, (tick e <= n < tick e')%nat /\ t = clk e n)
    (cb_view cb) op r (cb_view cb') /\
  abs_ok (config cb) (cb_view cb') /\
  env_step mgr e e' (announced op (cb_view cb) (cb_view cb')).

(** The counting part of [note_failure_locked], before it looks at the state. *)
Definition failure_counted (cb cb' : cb_internal_t) : Prop :=
  same_identity cb cb' /\ state cb' = state cb /\ state_changed_at cb' = state_changed_at cb /\
  half_open_calls cb' = half_open_calls cb /\
  consecutive_failures (stats cb') = u32 (consecutive_failures (stats cb) + 1).

Lemma note_failure_run mgr cb e :
  exists cb1 e1, failure_counted cb cb1 /\ env_step mgr e e1 [] /\
  (rates_view cb1 = in_window (config cb) (clk e (S (tick e)))
     (Rates (window_start cb) (u32 (window_calls cb + 1)) (u32 (window_failures cb + 1)) (slow_calls (stats cb)) (total_calls (stats cb)) (slow_call_rate (stats cb))) /\
   tick e1 = S (S (tick e))) /\
  note_failure_locked mgr (cb, e) =
  match state cb with
  | CB_STATE_CLOSED => if should_trip cb1 then transition_state mgr CB_STATE_OPEN (cb1, e1) else (tt, (cb1, e1))
  | CB_STATE_HALF_OPEN => transition_state mgr CB_STATE_OPEN (cb1, e1)
  | CB_STATE_OPEN => (tt, (cb1, e1))
  end.
Proof.
  unfold note_failure_locked, bind, airy_time_ms, get_cb, modify_stats, modify_cb. simpl.
  match goal with |- context [check_window_reset (?c, ?f)] =>
    pose proof (check_window_reset_run mgr c f) as H; destruct (check_window_reset (c, f)) as [[] [cb1 e1]] end.
  cbv zeta in H. cbn [snd fst] in H. destruct H as ((Hid & Hs & Ht & Hh & Hf & Hc) & He & Hst & Hw & Hk).
  set (cb2 := if 0 <? window_calls cb1
    then set_stats (set_failure_rate (percent (window_failures cb1) (window_calls cb1)) (stats cb1)) cb1
    else cb1).
  exists cb2, e1.
  assert (same_control cb1 cb2) as (Hid2 & Hs2 & Ht2 & Hh2 & Hf2 & Hc2)
    by (unfold cb2; by case_match).
  assert (Hw2 : rates_view cb2 = rates_view cb1) by (unfold cb2; by case_match).
  split; [|split; [|split]].
  - destruct Hid as (?&?&?&?), Hid2 as (?&?&?&?).
    unfold failure_counted, same_identity. split_and!; (etrans; [eassumption|]); assumption.
  - destruct He as (Hclk & Htk & Hn). split_and!; [done|simpl in *; lia|done].
  - split; [by rewrite Hw2, Hw|exact Hk].
  - change (state cb1 = state cb) in Hs. rewrite <- Hs. unfold cb2.
    simpl. destruct (0 <? window_calls cb1); simpl; destruct (state cb1); try done; by case_match.
Qed.

Lemma transition_view mgr new cb e :
  state cb <> new ->
  let s := (transition_state mgr new (cb, e)).2 in
  same_identity cb s.1 /\ (tick e < tick s.2)%nat /\
  env_step mgr e s.2 [(state cb, new)] /\
  cb_view s.1 = match new with
                | CB_STATE_CLOSED => AClosed 0
                | CB_STATE_OPEN => AOpen (clk e (tick e))
                | CB_STATE_HALF_OPEN => AHalf 0 0
                end.
Proof.
  intros Hne. pose proof (transition_run mgr new cb e) as (Hid & Hs & He & Hch & _).
  cbv zeta in *. rewrite decide_False in He by done. specialize (Hch Hne) as (Ht & Hat & Hc).
  split_and!; try done; unfold cb_view; rewrite Hs; destruct new; rewrite ?Hc, ?Hat; try done.
  by destruct Hc as [-> ->].
Qed.

Lemma abs_kind_view cb : abs_kind (cb_view cb) = state cb.
Proof. unfold cb_view. by destruct (state cb). Qed.

Lemma same_identity_trans cb cb1 cb2 :
  same_identity cb cb1 -> same_identity cb1 cb2 -> same_identity cb cb2.
Proof. unfold same_identity. intuition congruence. Qed.

Lemma announced_not_reset op a a' :
  op <> OpReset ->
  announced op a a' = if decide (abs_kind a = abs_kind a') then [] else [(abs_kind a, abs_kind a')].
Proof. by destruct op. Qed.

(** The operation ends with a transition that the specification allows for
    every reading of the clock taken during it. *)
Lemma transition_ok mgr op r new cb cb1 e e1 a' :
  op <> OpReset -> same_identity cb cb1 -> state cb1 = state cb -> state cb <> new ->
  env_step mgr e e1 [] ->
  (forall T : Z -> Prop, T (clk e (tick e1)) -> abs_step (config cb) T (cb_view cb) op r a') ->
  a' = match new with
       | CB_STATE_CLOSED => AClosed 0
       | CB_STATE_OPEN => AOpen (clk e (tick e1))
       | CB_STATE_HALF_OPEN => AHalf 0 0
       end ->
  abs_ok (config cb) a' ->
  let s := (transition_state mgr new (cb1, e1)).2 in op_ok mgr op r cb s.1 e s.2.
Proof.
  intros Hop Hid Hs Hne He Hstep -> Hok.
  pose proof (transition_view mgr new cb1 e1 ltac:(congruence)) as (Hid' & Ht & He' & Hv).
  cbv zeta. pose proof He as (Hclk & Htk & _). rewrite Hclk in Hv. unfold op_ok. rewrite Hv.
  assert (Hk : abs_kind (match new with
       | CB_STATE_CLOSED => AClosed 0
       | CB_STATE_OPEN => AOpen (clk e (tick e1))
       | CB_STATE_HALF_OPEN => AHalf 0 0
       end) = new) by (by destruct new).
  rewrite announced_not_reset, Hk, abs_kind_view, decide_False by done.
  split_and!; [by eapply same_identity_trans| |done|].
  - apply Hstep. exists (tick e1). split; [lia|done].
  - rewrite <- Hs. by apply (env_step_trans mgr e e1 _ []).
Qed.

(** An operation that stays in the same state of the machine. *)
Lemma stay_ok mgr op r cb cb' e e' :
  op <> OpReset -> same_identity cb cb' -> state cb' = state cb -> env_step mgr e e' [] ->
  abs_step (config cb) (fun t => exists n, (tick e <= n < tick e')%nat /\ t = clk e n)
    (cb_view cb) op r (cb_view cb') ->
  abs_ok (config cb) (cb_view cb') -> op_ok mgr op r cb cb' e e'.
Proof.
  intros Hop Hid Hs He Hstep Hok. unfold op_ok.
  rewrite announced_not_reset, !abs_kind_view, Hs, decide_True by done. done.
Qed.

(** An operation that counts a failure and then looks at the state. *)
Lemma failure_ok mgr op cb e cb0 :
  is_failure op = true -> config_ok (config cb) -> abs_ok (config cb) (cb_view cb) ->
  same_control cb cb0 ->
  let s := (note_failure_locked mgr (cb0, e)).2 in op_ok mgr op None cb s.1 e s.2.
Proof.
  intros Hop Hcfg Hok (Hid0 & Hs0 & Ht0 & Hh0 & Hf0 & Hc0).
  destruct (note_failure_run mgr cb0 e) as (cb1 & e1 & (Hid & Hs & Ht & Hh & Hf) & He & _ & ->).
  assert (Hid1 : same_identity cb cb1) by (by eapply same_identity_trans).
  assert (Hop' : op <> OpReset) by (by destruct op).
  assert (Hcf : config cb1 = config cb) by apply Hid1.
  rewrite Hs0 in Hs |- *. unfold cb_view in Hok.
  destruct (state cb) eqn:E; [|apply stay_ok; try done; [simpl; congruence|..]|].
  - assert (Hn : consecutive_failures (stats cb1) = consecutive_failures (stats cb) + 1)
      by (rewrite Hf, Hf0; simpl in Hok; unfold config_ok in Hcfg; apply u32_small; lia).
    destruct (should_trip cb1) eqn:Htrip.
    + apply (transition_ok mgr op None CB_STATE_OPEN cb cb1 e e1 (AOpen (clk e (tick e1)))); try done;
        [congruence..|].
      intros T HT. unfold cb_view. rewrite E. apply step_closed_trip; try done.
      apply should_trip_true in Htrip. rewrite Hn, Hcf in Htrip. done.
    + apply should_trip_false in Htrip. rewrite Hn, Hcf in Htrip.
      apply stay_ok; try done; [simpl; congruence|..]; unfold cb_view; cbn [snd fst]; rewrite Hs, ?E, Hn.
      * by apply step_closed_fail.
      * simpl in *. lia.
  - unfold cb_view. simpl. rewrite E, Hs, Ht, Ht0. by apply step_open_failure.
  - unfold cb_view. simpl. by rewrite Hs.
  - apply (transition_ok mgr op None CB_STATE_OPEN cb cb1 e e1 (AOpen (clk e (tick e1)))); try done;
      [congruence..|].
    intros T HT. unfold cb_view. rewrite E. by apply step_half_failure.
Qed.

(** The counting part of [cb_record_success]. *)
Definition success_counted (cb cb' : cb_internal_t) : Prop :=
  same_identity cb cb' /\ state cb' = state cb /\ state_changed_at cb' = state_changed_at cb /\
  half_open_calls cb' = half_open_calls cb /\
  consecutive_failures (stats cb') = 0 /\
  consecutive_successes (stats cb') = u32 (consecutive_successes (stats cb) + 1).

Lemma record_success_run mgr d cb e :
  destroying cb = false ->
  exists cb1 e1, success_counted cb cb1 /\ env_step mgr e e1 [] /\
  (rates_view cb1 = count_slow (config cb) d (in_window (config cb) (clk e (S (tick e))) (count_success (rates_view cb))) /\
   tick e1 = S (S (tick e))) /\
  cb_record_success mgr d (cb, e) =
  match state cb with
  | CB_STATE_HALF_OPEN =>
      if success_threshold (config cb) <=? consecutive_successes (stats cb1)
      then transition_state mgr CB_STATE_CLOSED (cb1, e1) else (tt, (cb1, e1))
  | _ => (tt, (cb1, e1))
  end.
Proof.
  intros Hd. unfold cb_record_success, cb_lock_alive, bind, airy_time_ms, get_cb, modify_stats, modify_cb.
  simpl. rewrite Hd. simpl.
  match goal with |- context [check_window_reset (?c, ?f)] =>
    pose proof (check_window_reset_run mgr c f) as H; destruct (check_window_reset (c, f)) as [[] [cb1 e1]] end.
  cbv zeta in H. cbn [snd fst] in H. destruct H as ((Hid & Hs & Ht & Hh & Hf & Hc) & He & Hst & Hw & Hk).
  change (state cb1 = state cb) in Hs. simpl.
  destruct He as (Hclk & Htk & Hn). simpl in Htk.
  assert (He : env_step mgr e e1 []) by (split_and!; [done|lia|done]).
  assert (Hcf : config cb1 = config cb) by apply Hid.
  assert (Hdone : forall cb2, same_control cb1 cb2 -> success_counted cb cb2).
  { intros cb2 (Hid2 & Hs2 & Ht2 & Hh2 & Hf2 & Hc2).
    split_and!; [by eapply same_identity_trans in Hid2; [|exact Hid]|etrans; eassumption..]. }
  assert (Hcf1 : in_window (config cb) (clk e (S (tick e))) (count_success (rates_view cb)) = rates_view cb1) by (by rewrite Hw).
  rewrite Hcf1. unfold count_slow. rewrite <- Hcf.
  destruct (_ && _); simpl.
  - set (cb2 := set_stats (set_slow_calls (u64 (slow_calls (stats cb1) + 1)) (stats cb1)) cb1).
    exists (if 0 <? total_calls (stats cb1)
      then set_stats (set_slow_call_rate
        (percent (slow_calls (stats cb2)) (total_calls (stats cb2))) (stats cb2)) cb2
      else cb2), e1.
    split; [apply Hdone; unfold cb2; by case_match|split; [done|]]. unfold cb2. simpl.
    split; [split; [unfold rates_view; simpl; by case_match|exact Hk]|].
    destruct (0 <? _); simpl; rewrite Hs; destruct (state cb); try done; by case_match.
  - exists cb1, e1. split; [by apply Hdone|split; [done|]]. split; [by split|].
    rewrite Hs; destruct (state cb); try done; by case_match.
Qed.

Lemma success_ok mgr d cb e :
  config_ok (config cb) -> destroying cb = false -> abs_ok (config cb) (cb_view cb) ->
  let s := (cb_record_success mgr d (cb, e)).2 in op_ok mgr (OpSuccess d) None cb s.1 e s.2.
Proof.
  intros Hcfg Hd Hok.
  destruct (record_success_run mgr d cb e Hd) as (cb1 & e1 & (Hid & Hs & Ht & Hh & Hf & Hc) & He & _ & ->).
  unfold cb_view in Hok. destruct (state cb) eqn:E.
  - apply stay_ok; try done; [simpl; congruence|..]; unfold cb_view; cbn [snd fst]; rewrite Hs, ?E, Hf;
      [constructor|simpl; lia].
  - apply stay_ok; try done; [simpl; congruence|..]; unfold cb_view; cbn [snd fst]; rewrite Hs, ?E, ?Ht;
      [constructor|done].
  - assert (Hn : consecutive_successes (stats cb1) = consecutive_successes (stats cb) + 1)
      by (rewrite Hc; simpl in Hok; unfold config_ok in Hcfg; apply u32_small; lia).
    rewrite Hn. destruct (Z.leb_spec (success_threshold (config cb)) (consecutive_successes (stats cb) + 1)).
    + apply (transition_ok mgr (OpSuccess d) None CB_STATE_CLOSED cb cb1 e e1 (AClosed 0)); try done;
        [congruence..| |simpl; lia].
      intros T HT. unfold cb_view. rewrite E. by apply step_half_close.
    + apply stay_ok; try done; [simpl; congruence|..]; unfold cb_view; cbn [snd fst];
        rewrite Hs, ?E, Hn, Hh; [by apply step_half_success|simpl in *; lia].
Qed.

(** A breaker with one more rejected call, and the clock after one reading. *)
Definition rejected (cb : cb_internal_t) : cb_internal_t :=
  set_stats (set_rejected_calls (u64 (rejected_calls (stats cb) + 1)) (stats cb)) cb.
Definition ticked (e : cb_env) : cb_env := Env (clk e) (S (tick e)) (notified e).

Lemma allow_run mgr cb e :
  destroying cb = false ->
  cb_allow_request mgr (cb, e) =
  match state cb with
  | CB_STATE_CLOSED => (true, (cb, e))
  | CB_STATE_OPEN =>
      if timeout_ms (config cb) <=? u64 (clk e (tick e) - state_changed_at cb)
      then (true, (transition_state mgr CB_STATE_HALF_OPEN (cb, ticked e)).2)
      else (false, (rejected cb, ticked e))
  | CB_STATE_HALF_OPEN =>
      if half_open_calls cb <? half_open_max_calls (config cb)
      then (true, (set_half_open_calls (u32 (half_open_calls cb + 1)) cb, e))
      else (false, (rejected cb, e))
  end.
Proof.
  intros Hd. unfold cb_allow_request, cb_lock_alive, bind, get_cb. simpl. rewrite Hd.
  simpl. destruct (state cb); simpl; [done| |by case_match].
  case_match; simpl; [|done]. by destruct (transition_state _ _ _).
Qed.

Lemma ticked_step mgr e : env_step mgr e (ticked e) [].
Proof. split_and!; simpl; [done|lia|by rewrite app_nil_r]. Qed.

Lemma allow_ok mgr cb e :
  config_ok (config cb) -> destroying cb = false -> abs_ok (config cb) (cb_view cb) ->
  let s := cb_allow_request mgr (cb, e) in op_ok mgr OpAllow (Some s.1) cb s.2.1 e s.2.2.
Proof.
  intros Hcfg Hd Hok. rewrite allow_run by done. unfold cb_view in Hok.
  assert (HT : exists n, (tick e <= n < tick (ticked e))%nat /\ clk e (tick e) = clk e n)
    by (exists (tick e); simpl; split; [lia|done]).
  destruct (state cb) eqn:E; cbv zeta.
  - apply stay_ok; try done; [apply env_step_refl|..]; unfold cb_view; simpl; rewrite E; [constructor|done].
  - destruct (Z.leb_spec (timeout_ms (config cb)) (u64 (clk e (tick e) - state_changed_at cb))) as [Hle|Hlt].
    + pose proof (transition_view mgr CB_STATE_HALF_OPEN cb (ticked e)) as (Hid & Ht & He & Hv);
        [congruence|].
      cbv zeta in Hv. cbn [fst snd]. unfold op_ok.
      rewrite announced_not_reset, Hv, abs_kind_view, E by done.
      rewrite E in He. split_and!; [done| |split; simpl; unfold config_ok in Hcfg; lia|].
      * unfold cb_view. rewrite E. apply (step_open_probe _ _ _ (clk e (tick e))); [|done].
        exists (tick e). simpl in Ht. split; [lia|done].
      * by apply (env_step_trans mgr e (ticked e) _ []); [apply ticked_step|].
    + apply stay_ok; try done; [apply ticked_step|..]; unfold cb_view; simpl; rewrite E; [|done].
      by apply (step_open_reject _ _ _ (clk e (tick e))).
  - destruct (Z.ltb_spec (half_open_calls cb) (half_open_max_calls (config cb))) as [Hlt|Hge];
      apply stay_ok; try done; try apply env_step_refl; unfold cb_view; simpl; rewrite E; simpl in Hok.
    + rewrite u32_small by (unfold config_ok in Hcfg; lia). by constructor.
    + rewrite u32_small by (unfold config_ok in Hcfg; lia). simpl. lia.
    + by constructor.
    + done.
Qed.

Lemma transition_op_ok mgr op new cb e :
  op <> OpReset -> destroying cb = false -> config_ok (config cb) -> abs_ok (config cb) (cb_view cb) ->
  (state cb = new -> forall T : Z -> Prop, abs_step (config cb) T (cb_view cb) op None (cb_view cb)) ->
  (state cb <> new -> forall T : Z -> Prop, T (clk e (tick e)) ->
   abs_step (config cb) T (cb_view cb) op None
     match new with
     | CB_STATE_CLOSED => AClosed 0
     | CB_STATE_OPEN => AOpen (clk e (tick e))
     | CB_STATE_HALF_OPEN => AHalf 0 0
     end) ->
  let s := (transition_state mgr new (cb, e)).2 in op_ok mgr op None cb s.1 e s.2.
Proof.
  intros Hop Hd Hcfg Hok Hsame Hdiff. destruct (decide (state cb = new)) as [Heq|Hne].
  - pose proof (transition_run mgr new cb e) as (_ & _ & _ & _ & Hst). cbv zeta in *.
    rewrite (Hst Heq). apply stay_ok; try done; [apply env_step_refl|]. by apply Hsame.
  - eapply transition_ok; try done; [apply env_step_refl|by apply Hdiff|].
    destruct new; simpl; [|done|split]; unfold config_ok in Hcfg; lia.
Qed.

Lemma reset_ok mgr cb e :
  config_ok (config cb) -> destroying cb = false ->
  let s := (cb_reset (cb, e)).2 in op_ok mgr OpReset None cb s.1 e s.2.
Proof.
  intros Hcfg Hd. unfold cb_reset, cb_lock_alive, bind, get_cb. simpl. rewrite Hd. simpl.
  unfold op_ok, env_step. unfold config_ok in Hcfg.
  destruct (decide (state cb = CB_STATE_CLOSED)); simpl;
    (split_and!; [done|constructor|simpl; lia..|done|lia|by rewrite app_nil_r]).
Qed.

(** Every operation is a step of the specification. *)
Lemma call_ok mgr op cb e :
  config_ok (config cb) -> destroying cb = false -> abs_ok (config cb) (cb_view cb) ->
  let s := cb_call mgr op (cb, e) in op_ok mgr op s.1 cb s.2.1 e s.2.2.
Proof.
  intros Hcfg Hd Hok. destruct op; unfold cb_call, bind; cbv zeta.
  - pose proof (allow_ok mgr cb e Hcfg Hd Hok) as H. by destruct (cb_allow_request _ _) as [? [??]].
  - pose proof (success_ok mgr duration_ms cb e Hcfg Hd Hok) as H.
    by destruct (cb_record_success _ _ _) as [? [??]].
  - unfold cb_record_failure, cb_lock_alive, bind, get_cb, modify_stats, modify_cb. simpl. rewrite Hd. simpl.
    match goal with |- context [note_failure_locked ?m (?c, ?f)] =>
      pose proof (failure_ok m OpFailure cb f c eq_refl Hcfg Hok) as H;
      destruct (note_failure_locked m (c, f)) as [? [??]] end. by apply H.
  - unfold cb_record_timeout, cb_lock_alive, bind, get_cb, modify_stats, modify_cb. simpl. rewrite Hd. simpl.
    match goal with |- context [note_failure_locked ?m (?c, ?f)] =>
      pose proof (failure_ok m OpTimeout cb f c eq_refl Hcfg Hok) as H;
      destruct (note_failure_locked m (c, f)) as [? [??]] end. by apply H.
  - pose proof (reset_ok mgr cb e Hcfg Hd) as H. by destruct (cb_reset _) as [? [??]].
  - unfold cb_force_open, cb_lock_alive, bind, get_cb. simpl. rewrite Hd.
    pose proof (transition_op_ok mgr OpForceOpen CB_STATE_OPEN cb e) as H.
    destruct (transition_state _ _ _) as [? [??]]. apply H; try done; intros Hs T.
    + unfold cb_view. rewrite Hs. apply step_force_open_open.
    + intros HT. constructor; [by rewrite abs_kind_view|done].
  - unfold cb_force_close, cb_lock_alive, bind, get_cb. simpl. rewrite Hd.
    pose proof (transition_op_ok mgr OpForceClose CB_STATE_CLOSED cb e) as H.
    destruct (transition_state _ _ _) as [? [??]]. apply H; try done; intros Hs T.
    + unfold cb_view. rewrite Hs. apply step_force_close_closed.
    + intros HT. constructor. by rewrite abs_kind_view.
Qed.

(** ** The rates *)

Lemma transition_rates mgr new cb e :
  let s := (transition_state mgr new (cb, e)).2 in
  rates_view s.1 = match state cb, new with
                   | CB_STATE_CLOSED, _ => rates_view cb
                   | _, CB_STATE_CLOSED => Rates (clk e (S (tick e))) 0 0 (r_slow (rates_view cb)) (r_total (rates_view cb)) (r_slow_rate (rates_view cb))
                   | _, _ => rates_view cb
                   end /\
  (tick e <= tick s.2)%nat /\ (state cb <> CB_STATE_CLOSED -> new = CB_STATE_CLOSED -> tick s.2 = S (S (tick e))).
Proof.
  unfold transition_state, bind, get_cb. simpl. case_decide as Heq.
  { simpl. subst new. destruct (state cb); (split; [done|]); (split; [lia|]); done. }
  destruct new; simpl; unfold bind; simpl; rewrite notify_event_run; simpl; destruct (state cb); simpl; try done; split_and!; (done || lia).
Qed.

Lemma should_trip_rates cb :
  should_trip cb = (failure_threshold (config cb) <=? consecutive_failures (stats cb)) || rate_reached (config cb) (rates_view cb).
Proof.
  unfold should_trip, rate_reached, rates_view. cbn [r_calls r_fails r_total r_slow_rate].
  destruct (failure_threshold (config cb) <=? _); [done|]. by destruct (_ && _ && _).
Qed.

(** What one operation does to the rates, and when it trips. *)
Definition rates_ok (op : cb_op) (cb cb' : cb_internal_t) (e e' : cb_env) : Prop :=
  let T := fun t => exists n, (tick e <= n < tick e')%nat /\ t = clk e n in
  exists w, counted (config cb) T op (rates_view cb) w /\ settled T op (cb_view cb) (cb_view cb') w (rates_view cb') /\
    (state cb = CB_STATE_CLOSED -> is_failure op = true ->
     state cb' = CB_STATE_OPEN <-> failure_threshold (config cb) <= consecutive_failures (stats cb) + 1 \/ rate_reached (config cb) w = true).

Lemma settled_same T op a a' w : op <> OpReset -> (abs_kind a' = CB_STATE_CLOSED -> abs_kind a = CB_STATE_CLOSED) -> settled T op a a' w w.
Proof. intros Hop Ha. unfold settled. destruct op; try done; destruct (abs_kind a), (abs_kind a'); try done; by specialize (Ha eq_refl). Qed.

Lemma failure_rates mgr op cb e cb0 :
  is_failure op = true -> config_ok (config cb) -> abs_ok (config cb) (cb_view cb) -> same_control cb cb0 ->
  rates_view cb0 = Rates (window_start cb) (window_calls cb) (window_failures cb) (slow_calls (stats cb)) (u64 (total_calls (stats cb) + 1)) (slow_call_rate (stats cb)) ->
  let s := (note_failure_locked mgr (cb0, e)).2 in rates_ok op cb s.1 e s.2.
Proof.
  intros Hop Hcfg Hok (Hid0 & Hs0 & Ht0 & Hh0 & Hf0 & Hc0) [= Hr1 Hr2 Hr3 Hr4 Hr5 Hr6].
  destruct (note_failure_run mgr cb0 e) as (cb1 & e1 & (Hid & Hs & _ & _ & Hf) & (Hclk & _) & [Hw Hk] & ->).
  assert (Hcf0 : config cb0 = config cb) by apply Hid0. assert (Hcf : config cb1 = config cb) by (rewrite <- Hcf0; apply Hid).
  rewrite Hr1, Hr2, Hr3, Hr4, Hr5, Hr6, Hcf0 in Hw. rewrite Hs0 in Hs |- *.
  assert (forall s', (S (S (tick e)) <= tick s')%nat -> counted (config cb) (fun t => exists n, (tick e <= n < tick s')%nat /\ t = clk e n) op (rates_view cb) (rates_view cb1)) as Hcnt.
  { intros s' Hs'. rewrite Hw. destruct op; try done; (exists (clk e (S (tick e))); split; [exists (S (tick e)); split; [lia|done]|done]). }
  assert (forall b s', b = CB_STATE_OPEN -> (S (S (tick e)) <= tick s'.2)%nat -> state cb <> CB_STATE_CLOSED -> state s'.1 = b -> rates_view s'.1 = rates_view cb1 ->
    rates_ok op cb s'.1 e s'.2) as Hopen.
  { intros b s' -> Ht Hne Hst Hv. exists (rates_view cb1). split; [by apply Hcnt|]. rewrite Hv. split; [|done]. apply settled_same; [by destruct op|]. rewrite !abs_kind_view. congruence. }
  destruct (state cb) eqn:E.
  - assert (Hn : consecutive_failures (stats cb1) = consecutive_failures (stats cb) + 1)
      by (rewrite Hf, Hf0; unfold cb_view in Hok; rewrite E in Hok; simpl in Hok; unfold config_ok in Hcfg; apply u32_small; lia).
    pose proof (should_trip_rates cb1) as Hst. rewrite Hcf, Hn in Hst. destruct (should_trip cb1) eqn:Et.
    + pose proof (transition_rates mgr CB_STATE_OPEN cb1 e1) as (Hv & Ht & _). pose proof (transition_run mgr CB_STATE_OPEN cb1 e1) as (_ & Hn1 & _).
      cbv zeta in *. rewrite Hs in Hv. exists (rates_view cb1). split; [apply Hcnt; lia|]. rewrite Hv. split; [apply settled_same; [by destruct op|by rewrite !abs_kind_view, E]|].
      intros _ _. split; [|done]. intros _. symmetry in Hst. apply orb_true_iff in Hst as [H%Z.leb_le|H]; auto.
    + exists (rates_view cb1). split; [apply Hcnt; cbn; lia|]. split; [apply settled_same; [by destruct op|by rewrite !abs_kind_view, E]|].
      intros _ _. cbn [snd fst]. rewrite Hs. split; [done|]. symmetry in Hst. apply orb_false_iff in Hst as [H1%Z.leb_gt H2]. intros [?|?]; [lia|congruence].
  - apply (Hopen CB_STATE_OPEN (cb1, e1)); try done; cbn; lia.
  - pose proof (transition_rates mgr CB_STATE_OPEN cb1 e1) as (Hv & Ht & _). pose proof (transition_run mgr CB_STATE_OPEN cb1 e1) as (_ & Hn1 & _).
    cbv zeta in *. rewrite Hs in Hv. apply (Hopen CB_STATE_OPEN); try done. lia.
Qed.

Lemma success_rates mgr d cb e :
  destroying cb = false -> let s := (cb_record_success mgr d (cb, e)).2 in rates_ok (OpSuccess d) cb s.1 e s.2.
Proof.
  intros Hd. destruct (record_success_run mgr d cb e Hd) as (cb1 & e1 & (Hid & Hs & _) & (Hclk & _) & [Hw Hk] & ->). cbv zeta.
  assert (forall s', (S (S (tick e)) <= tick s')%nat -> counted (config cb) (fun t => exists n, (tick e <= n < tick s')%nat /\ t = clk e n) (OpSuccess d) (rates_view cb) (rates_view cb1)) as Hcnt.
  { intros s' Hs'. rewrite Hw. exists (clk e (S (tick e))). split; [exists (S (tick e)); split; [lia|done]|done]. }
  assert (state cb = CB_STATE_HALF_OPEN \/ state cb <> CB_STATE_HALF_OPEN) as [E|E] by (destruct (state cb); auto).
  - rewrite E. destruct (_ <=? _).
    + pose proof (transition_rates mgr CB_STATE_CLOSED cb1 e1) as (Hv & Ht & Ht'). pose proof (transition_run mgr CB_STATE_CLOSED cb1 e1) as (_ & Hn1 & _).
      cbv zeta in *. rewrite Hs, E in Hv. specialize (Ht' ltac:(congruence) eq_refl). exists (rates_view cb1). split; [apply Hcnt; lia|]. split; [|done]. unfold settled.
      rewrite !abs_kind_view, E, Hn1, Hv, Hclk. exists (clk e (S (tick e1))). split; [|done]. exists (S (tick e1)). split; [lia|done].
    + exists (rates_view cb1). split; [apply Hcnt; cbn; lia|]. split; [apply settled_same; [done|rewrite !abs_kind_view; cbn [fst snd]; congruence]|done].
  - assert (match state cb with CB_STATE_HALF_OPEN => if success_threshold (config cb) <=? consecutive_successes (stats cb1) then transition_state mgr CB_STATE_CLOSED (cb1, e1) else (tt, (cb1, e1)) | _ => (tt, (cb1, e1)) end = (tt, (cb1, e1))) as -> by (by destruct (state cb)).
    exists (rates_view cb1). split; [apply Hcnt; cbn; lia|]. split; [apply settled_same; [done|rewrite !abs_kind_view; cbn [fst snd]; congruence]|done].
Qed.

Lemma quiet_rates op cb cb' e e' :
  is_failure op = false -> counted (config cb) (fun _ => False) op (rates_view cb) (rates_view cb) -> op <> OpReset ->
  (state cb' = CB_STATE_CLOSED -> state cb = CB_STATE_CLOSED) -> rates_view cb' = rates_view cb -> rates_ok op cb cb' e e'.
Proof.
  intros Hf Hc Hop Hs Hv. exists (rates_view cb). split; [destruct op; try done; destruct Hc as (t & [] & _)|]. rewrite Hv. split; [|congruence].
  apply settled_same; [done|]. by rewrite !abs_kind_view.
Qed.

Lemma call_rates mgr op cb e :
  config_ok (config cb) -> destroying cb = false -> abs_ok (config cb) (cb_view cb) ->
  let s := cb_call mgr op (cb, e) in rates_ok op cb s.2.1 e s.2.2.
Proof.
  intros Hcfg Hd Hok. destruct op; unfold cb_call, bind; cbv zeta.
  - pose proof (allow_run mgr cb e Hd) as H. destruct (cb_allow_request mgr (cb, e)) as [b [cb' e']] eqn:Ea. cbn [ret fst snd].
    destruct (state cb) eqn:E; [injection H as -> -> ->; by apply quiet_rates| |case_match; injection H as -> -> ->; by apply quiet_rates].
    case_match; [|injection H as -> -> ->; by apply quiet_rates].
    pose proof (transition_rates mgr CB_STATE_HALF_OPEN cb (ticked e)) as (Hv & _). pose proof (transition_run mgr CB_STATE_HALF_OPEN cb (ticked e)) as (_ & Hn1 & _).
    injection H as -> H. rewrite <- H in Hv, Hn1. cbv zeta in Hv, Hn1. cbn [fst snd] in Hv, Hn1. rewrite E in Hv. apply quiet_rates; try done. congruence.
  - pose proof (success_rates mgr duration_ms cb e Hd) as H. by destruct (cb_record_success _ _ _) as [? [??]].
  - unfold cb_record_failure, cb_lock_alive, bind, get_cb, modify_stats, modify_cb. simpl. rewrite Hd. simpl.
    match goal with |- context [note_failure_locked ?m (?c, ?f)] =>
      pose proof (failure_rates m OpFailure cb f c eq_refl Hcfg Hok) as H;
      destruct (note_failure_locked m (c, f)) as [? [??]] end. by apply H.
  - unfold cb_record_timeout, cb_lock_alive, bind, get_cb, modify_stats, modify_cb. simpl. rewrite Hd. simpl.
    match goal with |- context [note_failure_locked ?m (?c, ?f)] =>
      pose proof (failure_rates m OpTimeout cb f c eq_refl Hcfg Hok) as H;
      destruct (note_failure_locked m (c, f)) as [? [??]] end. by apply H.
  - unfold cb_reset, cb_lock_alive, bind, get_cb. simpl. rewrite Hd. simpl.
    exists (rates_view cb). split; [done|]. split; [|done]. destruct (decide (state cb = CB_STATE_CLOSED)); simpl; (exists (clk e (S (tick e))); split; [exists (S (tick e)); simpl; split; [lia|done]|done]).
  - unfold cb_force_open, cb_lock_alive, bind, get_cb. simpl. rewrite Hd.
    pose proof (transition_rates mgr CB_STATE_OPEN cb e) as (Hv & _). pose proof (transition_run mgr CB_STATE_OPEN cb e) as (_ & Hn1 & _).
    destruct (transition_state _ _ _) as [? [cb' e']]. cbv zeta in *. cbn [fst snd ret] in *. apply quiet_rates; try done; [congruence|]. by destruct (state cb).
  - unfold cb_force_close, cb_lock_alive, bind, get_cb. simpl. rewrite Hd.
    pose proof (transition_rates mgr CB_STATE_CLOSED cb e) as (Hv & _ & Ht). pose proof (transition_run mgr CB_STATE_CLOSED cb e) as (_ & Hn1 & _).
    destruct (transition_state _ _ _) as [? [cb' e']]. cbv zeta in *. cbn [fst snd ret] in *. exists (rates_view cb). split; [done|]. split; [|done].
    unfold settled. rewrite !abs_kind_view, Hn1. destruct (state cb) eqn:E; [done|..]; rewrite Hv; (exists (clk e (S (tick e))); split; [|done]);
      exists (S (tick e)); (split; [|done]); rewrite Ht by done; lia.
Qed.

(** The state of a run: identity kept, counters in range, notifications and
    answers those of the specification. *)
Lemma run_ok mgr ops cb e :
  config_ok (config cb) -> destroying cb = false -> abs_ok (config cb) (cb_view cb) ->
  let s := cb_run mgr ops (cb, e) in
  same_identity cb s.2.1 /\ abs_ok (config cb) (cb_view s.2.1) /\
  exists evs, env_step mgr e s.2.2 evs /\
  rated_run (config cb) (clk e) (tick e) (cb_view cb, rates_view cb) ops s.1 evs (tick s.2.2) (cb_view s.2.1, rates_view s.2.1).
Proof.
  revert cb e. induction ops as [|op ops IH]; intros cb e Hcfg Hd Hok; cbv zeta; cbn [cb_run].
  { split; [done|split; [done|]]. exists []. split; [apply env_step_refl|constructor]. }
  pose proof (call_ok mgr op cb e Hcfg Hd Hok) as H. pose proof (call_rates mgr op cb e Hcfg Hd Hok) as Hr. unfold bind. simpl.
  destruct (cb_call mgr op (cb, e)) as [r [cb1 e1]]. simpl in H, Hr.
  destruct H as (Hid & Hstep & Hok1 & He). pose proof Hid as (Hcf & _ & Hdd & _).
  rewrite <- Hcf in Hok1. specialize (IH cb1 e1). rewrite Hcf in IH, Hok1.
  destruct IH as (Hid' & Hok' & evs & He' & Hrun); [done|congruence|done|].
  destruct (cb_run mgr ops (cb1, e1)) as [rs [cb2 e2]]. simpl in *.
  split; [by eapply same_identity_trans|split; [done|]].
  pose proof He as (Hclk & Ht & _). rewrite Hclk in Hrun.
  exists (announced op (cb_view cb) (cb_view cb1) ++ evs).
  split; [by eapply env_step_trans|]. eapply (rated_cons _ _ _ _ _ (cb_view cb, rates_view cb) (cb_view cb1, rates_view cb1)); [done| |done].
  destruct Hr as (w & Hw1 & Hw2 & Hw3). exists w. cbn [fst snd]. split_and!; [done..|]. intros n Hn Hf. rewrite abs_kind_view.
  unfold cb_view in Hn. destruct (state cb) eqn:E; [|done..]. injection Hn as <-. by apply Hw3.
Qed.

Lemma rated_abs c clk i x ops rs evs j y : rated_run c clk i x ops rs evs j y -> abs_run c clk i x.1 ops rs evs j y.1.
Proof. induction 1 as [|i j k x y z op r ops rs evs Hij (w & _ & Hs & _) _ IH]; econstructor; done. Qed.

Lemma run_abs mgr ops cb e :
  config_ok (config cb) -> destroying cb = false -> abs_ok (config cb) (cb_view cb) ->
  let s := cb_run mgr ops (cb, e) in
  same_identity cb s.2.1 /\ abs_ok (config cb) (cb_view s.2.1) /\
  exists evs, env_step mgr e s.2.2 evs /\
  abs_run (config cb) (clk e) (tick e) (cb_view cb) ops s.1 evs (tick s.2.2) (cb_view s.2.1).
Proof.
  intros H1 H2 H3. destruct (run_ok mgr ops cb e H1 H2 H3) as (Hid & Hok & evs & He & Hr%rated_abs). split; [done|]. split; [done|]. by exists evs.
Qed.

(** ** Runs of the specification *)

Definition only_calls (op : cb_op) : bool :=
  match op with OpAllow | OpSuccess _ | OpFailure | OpTimeout => true | _ => false end.

Definition is_allow (op : cb_op) : bool := match op with OpAllow => true | _ => false end.
Definition is_success (op : cb_op) : bool := match op with OpSuccess _ => true | _ => false end.

Definition count (p : cb_op -> bool) (ops : list cb_op) : Z := Z.of_nat (length (List.filter p ops)).

(** The requests let through, from the answers. *)
Definition admitted (rs : list (option bool)) : Z :=
  Z.of_nat (length (List.filter (fun r => match r with Some true => true | _ => false end) rs)).

(** The answers when every request is answered [b]. *)
Definition answers (b : bool) (ops : list cb_op) : list (option bool) :=
  map (fun op => if is_allow op then Some b else None) ops.

Lemma count_cons p op ops : count p (op :: ops) = (if p op then 1 else 0) + count p ops.
Proof. unfold count. simpl. destruct (p op); simpl; lia. Qed.

Lemma admitted_cons r rs :
  admitted (r :: rs) = (match r with Some true => 1 | _ => 0 end) + admitted rs.
Proof. unfold admitted. simpl. destruct r as [[]|]; simpl; lia. Qed.

Lemma abs_run_open c clk i s ops rs evs j a :
  abs_run c clk i (AOpen s) ops rs evs j a ->
  forallb (fun op => only_calls op || match op with OpForceOpen => true | _ => false end) ops = true ->
  (forall n, (i <= n < j)%nat -> u64 (clk n - s) < timeout_ms c) ->
  a = AOpen s /\ rs = answers false ops /\ evs = [].
Proof.
  intros Hrun. remember (AOpen s) as a0 eqn:E. revert E.
  induction Hrun as [|i j k a0 a' a'' op r ops rs evs Hij Hstep Hrun IH]; intros -> Hops Ht; [done|].
  simpl in Hops. apply andb_true_iff in Hops as [Hop Hops].
  assert (Hmono : (j <= k)%nat).
  { clear -Hrun. induction Hrun; lia. }
  assert (a' = AOpen s /\ r = (if is_allow op then Some false else None)) as [-> ->].
  { inversion Hstep; subst; simpl in *; try done; [|by destruct op].
    match goal with H : exists n, _ |- _ => destruct H as (n & Hn & ->) end.
    specialize (Ht n ltac:(lia)). lia. }
  destruct IH as (-> & -> & ->); [done|done|intros n Hn; apply Ht; lia|].
  rewrite app_nil_r. split; [done|split; [done|]]. destruct op; done.
Qed.

Lemma forallb_calls (p : cb_op -> bool) ops :
  forallb only_calls ops = true -> forallb (fun op => only_calls op || p op) ops = true.
Proof. rewrite !forallb_forall. intros H x Hx. by rewrite (H x Hx). Qed.

Lemma abs_run_half c clk i p k ops rs evs j a :
  abs_run c clk i (AHalf p k) ops rs evs j a ->
  forallb (fun op => is_allow op || is_success op) ops = true ->
  0 <= p <= half_open_max_calls c -> k + count is_success ops < success_threshold c ->
  a = AHalf (Z.min (half_open_max_calls c) (p + count is_allow ops)) (k + count is_success ops) /\
  admitted rs = Z.min (count is_allow ops) (half_open_max_calls c - p) /\ evs = [].
Proof.
  intros Hrun. remember (AHalf p k) as a0 eqn:E. revert p k E.
  induction Hrun as [|i j kk a0 a' a'' op r ops rs evs Hij Hstep Hrun IH];
    intros p k -> Hops Hp Hk.
  { unfold count, admitted. simpl. split_and!; [f_equal; lia|lia|done]. }
  simpl in Hops. apply andb_true_iff in Hops as [Hop Hops].
  rewrite !count_cons in *. rewrite admitted_cons.
  assert (0 <= count is_success ops) by (unfold count; lia).
  assert (0 <= count is_allow ops) by (unfold count; lia).
  inversion Hstep; subst; simpl in *; try done; try lia; try (by destruct op);
    (edestruct IH as (-> & Hadm & ->); [done|done|lia|lia|]);
    (split_and!; [f_equal; lia|lia|done]).
Qed.

(** The failures since the last success. *)
Definition failure_run (ops : list cb_op) : Z :=
  fold_left (fun n op => if is_success op then 0 else if is_failure op then n + 1 else n) ops 0.

Lemma failure_run_snoc ops op :
  failure_run (ops ++ [op]) =
  if is_success op then 0 else if is_failure op then failure_run ops + 1 else failure_run ops.
Proof. unfold failure_run. by rewrite fold_left_app. Qed.

Lemma abs_run_snoc c clk i a ops op rs evs j a' :
  abs_run c clk i a (ops ++ [op]) rs evs j a' ->
  exists rs0 evs0 a0 r k (T : Z -> Prop), abs_run c clk i a ops rs0 evs0 k a0 /\ abs_step c T a0 op r a' /\
  rs = rs0 ++ [r].
Proof.
  revert i a rs evs. induction ops as [|o ops IH]; intros i a rs evs Hrun.
  - inversion Hrun as [|? ? ? ? ? ? ? ? ? ? ? ? Hstep Hrun']; subst. inversion Hrun'; subst.
    eexists [], [], a, _, i, _. split_and!; [constructor|eassumption|done].
  - inversion Hrun as [|? ? ? ? ? ? ? ? ? ? ? Hij Hstep Hrun']; subst.
    apply IH in Hrun' as (rs1 & evs1 & a1 & r1 & k1 & T & Hrun' & Hstep' & ->).
    eexists (_ :: rs1), _, a1, r1, k1, T. split_and!; [by eapply run_cons|done|done].
Qed.

Lemma abs_run_closed c clk i ops rs evs j a :
  abs_run c clk i (AClosed 0) ops rs evs j a ->
  rates_on c = false -> forallb only_calls ops = true ->
  (forall pre, pre `prefix_of` ops -> failure_run pre < failure_threshold c) ->
  a = AClosed (failure_run ops) /\ rs = answers true ops.
Proof.
  intros Hrun Hoff Hcalls Hpre. revert rs evs j a Hrun Hcalls Hpre.
  induction ops as [|op ops IH] using rev_ind; intros rs evs j a Hrun Hcalls Hpre.
  { inversion Hrun; subst. done. }
  apply abs_run_snoc in Hrun as (rs0 & evs0 & a0 & r & k & T & Hrun & Hstep & ->).
  rewrite forallb_app in Hcalls. apply andb_true_iff in Hcalls as [Hcalls Hop]. simpl in Hop.
  destruct (IH _ _ _ _ Hrun Hcalls) as [-> ->].
  { intros pre Hp. apply Hpre. by apply prefix_app_r. }
  specialize (Hpre (ops ++ [op]) ltac:(done)). unfold answers. rewrite map_app.
  rewrite failure_run_snoc in *. simpl.
  inversion Hstep; subst; simpl in *; try done; destruct op; simpl in *; try done;
    destruct_or?; try lia; congruence.
Qed.

Lemma abs_run_trips c clk i ops op rs evs j a :
  abs_run c clk i (AClosed 0) (ops ++ [op]) rs evs j a ->
  rates_on c = false -> forallb only_calls ops = true -> is_failure op = true ->
  (forall pre, pre `prefix_of` ops -> failure_run pre < failure_threshold c) ->
  abs_kind a = if failure_threshold c <=? failure_run (ops ++ [op]) then CB_STATE_OPEN else CB_STATE_CLOSED.
Proof.
  intros Hrun Hoff Hcalls Hop Hpre.
  apply abs_run_snoc in Hrun as (rs0 & evs0 & a0 & r & k & T & Hrun & Hstep & ->).
  destruct (abs_run_closed _ _ _ _ _ _ _ _ Hrun Hoff Hcalls Hpre) as [-> ->].
  rewrite failure_run_snoc. destruct op; simpl in *; try done;
    (inversion Hstep; subst; simpl; destruct_or?; try congruence;
     destruct (Z.leb_spec (failure_threshold c) (failure_run ops + 1)); (done || lia)).
Qed.

(** ** The counters *)

(** Total, successful, failed, timed-out and rejected calls. *)
Record counters := Counters { n_total : Z; n_success : Z; n_failed : Z; n_timeout : Z; n_rejected : Z }.

Definition counters_of (cb : cb_internal_t) : counters :=
  Counters (total_calls (stats cb)) (successful_calls (stats cb)) (failed_calls (stats cb))
    (timeout_calls (stats cb)) (rejected_calls (stats cb)).

Definition b2z (b : bool) : Z := if b then 1 else 0.
Definition is_timeout (op : cb_op) : bool := match op with OpTimeout => true | _ => false end.
Definition is_call (op : cb_op) : bool := is_success op || is_failure op.
Definition is_reject (r : option bool) : bool := match r with Some false => true | _ => false end.
Definition rejections (rs : list (option bool)) : Z := Z.of_nat (length (List.filter is_reject rs)).

Definition counters_step (op : cb_op) (r : option bool) (k : counters) : counters :=
  let add (b : bool) (n : Z) := if b then u64 (n + 1) else n in
  Counters (add (is_call op) (n_total k)) (add (is_success op) (n_success k))
    (add (is_failure op) (n_failed k)) (add (is_timeout op) (n_timeout k)) (add (is_reject r) (n_rejected k)).

Lemma transition_counters mgr new cb e :
  counters_of (transition_state mgr new (cb, e)).2.1 = counters_of cb.
Proof.
  unfold transition_state, bind, get_cb. simpl. case_decide; [done|].
  destruct new; simpl; unfold bind; simpl; by rewrite notify_event_run.
Qed.

Lemma window_counters cb e : counters_of (check_window_reset (cb, e)).2.1 = counters_of cb.
Proof.
  pose proof (check_window_reset_run None cb e) as (_ & _ & H & _). unfold counters_of. by rewrite H.
Qed.

Lemma note_failure_counters mgr cb e :
  counters_of (note_failure_locked mgr (cb, e)).2.1 = counters_of cb.
Proof.
  unfold note_failure_locked, bind, airy_time_ms, get_cb, modify_stats, modify_cb. simpl.
  match goal with |- context [check_window_reset (?c, ?f)] =>
    pose proof (window_counters c f) as H; destruct (check_window_reset (c, f)) as [[] [cb1 e1]] end.
  simpl in *. destruct (0 <? window_calls cb1); simpl; destruct (state cb1);
    try (destruct (should_trip _)); rewrite ?transition_counters; done.
Qed.

Lemma success_counters mgr d cb e :
  destroying cb = false ->
  counters_of (cb_record_success mgr d (cb, e)).2.1 = counters_step (OpSuccess d) None (counters_of cb).
Proof.
  intros Hd. unfold cb_record_success, cb_lock_alive, bind, airy_time_ms, get_cb, modify_stats, modify_cb.
  simpl. rewrite Hd. simpl.
  match goal with |- context [check_window_reset (?c, ?f)] =>
    pose proof (window_counters c f) as H; destruct (check_window_reset (c, f)) as [[] [cb1 e1]] end.
  simpl in *. destruct (_ && _); simpl; [destruct (0 <? _); simpl|]; destruct (state cb1); try done;
    (destruct (_ <=? _); [rewrite transition_counters|]; done).
Qed.

Lemma call_counters mgr op cb e :
  destroying cb = false ->
  let s := cb_call mgr op (cb, e) in counters_of s.2.1 = counters_step op s.1 (counters_of cb).
Proof.
  intros Hd. destruct op; unfold cb_call, bind; cbv zeta.
  - rewrite allow_run by done. destruct (state cb); [done| |by destruct (_ <? _)].
    destruct (_ <=? _); [|done].
    by apply (transition_counters mgr CB_STATE_HALF_OPEN cb (ticked e)).
  - pose proof (success_counters mgr duration_ms cb e Hd) as H.
    by destruct (cb_record_success _ _ _) as [? [??]].
  - unfold cb_record_failure, cb_lock_alive, bind, get_cb, modify_stats, modify_cb. simpl. rewrite Hd. simpl.
    match goal with |- context [note_failure_locked ?m (?c, ?f)] =>
      pose proof (note_failure_counters m c f) as H; destruct (note_failure_locked m (c, f)) as [? [??]] end.
    done.
  - unfold cb_record_timeout, cb_lock_alive, bind, get_cb, modify_stats, modify_cb. simpl. rewrite Hd. simpl.
    match goal with |- context [note_failure_locked ?m (?c, ?f)] =>
      pose proof (note_failure_counters m c f) as H; destruct (note_failure_locked m (c, f)) as [? [??]] end.
    done.
  - unfold cb_reset, cb_lock_alive, bind, get_cb. simpl. rewrite Hd. simpl. by case_decide.
  - unfold cb_force_open, cb_lock_alive, bind, get_cb. simpl. rewrite Hd.
    pose proof (transition_counters mgr CB_STATE_OPEN cb e) as H.
    by destruct (transition_state _ _ _) as [? [??]].
  - unfold cb_force_close, cb_lock_alive, bind, get_cb. simpl. rewrite Hd.
    pose proof (transition_counters mgr CB_STATE_CLOSED cb e) as H.
    by destruct (transition_state _ _ _) as [? [??]].
Qed.

Lemma u64_add_idemp a b : u64 (u64 a + b) = u64 (a + b).
Proof. unfold u64. by rewrite Zplus_mod_idemp_l. Qed.

Lemma rejections_cons r rs : rejections (r :: rs) = b2z (is_reject r) + rejections rs.
Proof. unfold rejections. simpl. destruct (is_reject r); simpl; lia. Qed.

Definition counters_add (k : counters) (ops : list cb_op) (rs : list (option bool)) : counters :=
  Counters (u64 (n_total k + count is_call ops)) (u64 (n_success k + count is_success ops))
    (u64 (n_failed k + count is_failure ops)) (u64 (n_timeout k + count is_timeout ops))
    (u64 (n_rejected k + rejections rs)).

Definition counters_in_range (k : counters) : Prop :=
  u64 (n_total k) = n_total k /\ u64 (n_success k) = n_success k /\ u64 (n_failed k) = n_failed k /\
  u64 (n_timeout k) = n_timeout k /\ u64 (n_rejected k) = n_rejected k.

Lemma counters_step_add op r k ops rs :
  counters_add (counters_step op r k) ops rs = counters_add k (op :: ops) (r :: rs).
Proof.
  unfold counters_add, counters_step. rewrite rejections_cons, !count_cons. simpl.
  f_equal; repeat case_match; try done; simpl; rewrite ?u64_add_idemp; f_equal; unfold b2z; lia.
Qed.

Lemma counters_step_range op r k : counters_in_range k -> counters_in_range (counters_step op r k).
Proof.
  intros (?&?&?&?&?). unfold counters_in_range, counters_step. simpl.
  split_and!; case_match; try done; apply u64_small, u64_range.
Qed.

Lemma run_counters mgr ops cb e :
  config_ok (config cb) -> destroying cb = false -> abs_ok (config cb) (cb_view cb) ->
  counters_in_range (counters_of cb) ->
  let s := cb_run mgr ops (cb, e) in counters_of s.2.1 = counters_add (counters_of cb) ops s.1.
Proof.
  revert cb e. induction ops as [|op ops IH]; intros cb e Hcfg Hd Hok Hr; cbv zeta; cbn [cb_run].
  { unfold counters_add, count, rejections. simpl. rewrite !Z.add_0_r.
    destruct Hr as (?&?&?&?&?). simpl in *. unfold counters_of at 1. f_equal; congruence. }
  pose proof (call_counters mgr op cb e Hd) as Hk. pose proof (call_ok mgr op cb e Hcfg Hd Hok) as H.
  unfold bind. simpl. destruct (cb_call mgr op (cb, e)) as [r [cb1 e1]]. cbn [fst snd] in *.
  destruct H as ((Hcf & _ & Hdd & _) & _ & Hok1 & _).
  specialize (IH cb1 e1). rewrite Hcf, Hk, counters_step_add in IH.
  destruct (cb_run mgr ops (cb1, e1)) as [rs [cb2 e2]]. cbn [fst snd] in *.
  apply IH; [done|congruence|done|by apply counters_step_range].
Qed.

(** ** The manager as a map from names to handles *)

Record mgr_rep (m : cb_manager) (t : gmap cstr nat) : Prop := {
  mr_size : size t = length (breakers m) /\ (length (breakers m) <= CB_MAX_BREAKERS)%nat;
  mr_fresh : forall b, is_Some (heap m !! b) -> (b < next m)%nat;
  mr_live : forall b, b ∈ breakers m -> is_Some (heap m !! b);
  mr_name : forall name b, t !! name = Some b <->
    b ∈ breakers m /\ exists cb, heap m !! b = Some cb /\ cb_name cb = name;
  mr_nodup : NoDup (breakers m);
}.

Lemma find_name_spec h l name :
  (forall b, b ∈ l -> is_Some (h !! b)) ->
  exists r, find_name h l name = Some r /\
  match r with
  | Some b => b ∈ l /\ exists cb, h !! b = Some cb /\ cb_name cb = name
  | None => forall b cb, b ∈ l -> h !! b = Some cb -> cb_name cb <> name
  end.
Proof.
  induction l as [|b l IH]; intros Hl; simpl.
  { exists None. split; [done|]. intros b cb H. by apply elem_of_nil in H. }
  destruct (Hl b) as [cb Hcb]; [by left|]. rewrite Hcb. simpl. case_decide as Hn.
  { exists (Some b). split; [done|]. split; [by left|eauto]. }
  destruct IH as ([b'|] & -> & Hr); [by intros; apply Hl; right|..]; eexists; (split; [done|]).
  - destruct Hr as [Hin Hr]. split; [by right|done].
  - intros b' cb' [->|Hin]%elem_of_cons Hb'; [congruence|by eapply Hr].
Qed.

Lemma find_name_rep m t name :
  mgr_rep m t -> find_name (heap m) (breakers m) name = Some (t !! name).
Proof.
  intros []. destruct (find_name_spec (heap m) (breakers m) name) as (r & -> & Hr); [done|].
  f_equal. symmetry. destruct r as [b|]; [by apply mr_name0|].
  apply eq_None_not_Some. intros [b (Hin & cb & Hcb & Hn)%mr_name0]. by eapply Hr.
Qed.

Lemma remove_handle_filter b l : NoDup l -> remove_handle b l = filter (fun x => x <> b) l.
Proof.
  induction 1 as [|x l Hx Hl IH]; simpl; [done|]. rewrite filter_cons.
  repeat case_decide; subst; try done; [|by f_equal].
  symmetry. clear IH. induction Hl as [|y l Hy Hl IH]; [done|]. rewrite filter_cons.
  apply not_elem_of_cons in Hx as [Hxy Hx]. rewrite decide_True by done. f_equal. auto.
Qed.

Lemma size_delete_handle (t : gmap cstr nat) name b :
  t !! name = Some b -> size (delete name t) = pred (size t).
Proof. intros H. rewrite map_size_delete, H. done. Qed.

Lemma remove_handle_length b l :
  b ∈ l -> length (remove_handle b l) = pred (length l).
Proof.
  induction l as [|x l IH]; intros Hin; [by apply elem_of_nil in Hin|]. simpl. case_decide; [done|].
  apply elem_of_cons in Hin as [->|Hin]; [done|]. simpl. rewrite IH by done.
  destruct l; [by apply elem_of_nil in Hin|done].
Qed.

Lemma create_rep m t name cfg t1 t2 :
  mgr_rep m t -> (length name < CB_MAX_NAME_LEN)%nat -> t !! name = None ->
  (length (breakers m) < CB_MAX_BREAKERS)%nat ->
  exists m', cb_create m (Some name) cfg true true t1 t2 = Some (Some (next m), m') /\
    mgr_rep m' (<[name := next m]> t).
Proof.
  intros Hrep Hlen Hnone Hlt. unfold cb_create.
  destruct (Nat.leb_spec CB_MAX_BREAKERS (length (breakers m))); [lia|].
  rewrite (find_name_rep m t name Hrep), Hnone. simpl. eexists. split; [done|].
  destruct Hrep as [[Hsz Hle] Hfr Hlv Hnm Hnd].
  assert (Hnb : next m ∉ breakers m).
  { intros Hin. specialize (Hfr _ (Hlv _ Hin)). lia. }
  assert (Hcopy : name_copy name = name) by (apply take_ge; unfold CB_MAX_NAME_LEN in *; lia).
  split; simpl.
  - rewrite map_size_insert_None by done. rewrite length_app. simpl. lia.
  - intros b [cb Hb]. destruct (decide (b = next m)) as [->|Hne]; [lia|].
    rewrite lookup_insert_ne in Hb by done. specialize (Hfr b ltac:(eauto)). lia.
  - intros b [Hin| ->%list_elem_of_singleton]%elem_of_app; [|by rewrite lookup_insert_eq].
    rewrite lookup_insert_ne by (by intros <-). by apply Hlv.
  - intros n b. rewrite elem_of_app, list_elem_of_singleton.
    destruct (decide (n = name)) as [->|Hne].
    + rewrite lookup_insert_eq. split.
      * intros [= <-]. split; [by right|]. rewrite lookup_insert_eq. by eexists.
      * intros ([Hin| ->] & cb & Hb & Hcb); [|done]. exfalso.
        rewrite lookup_insert_ne in Hb by (by intros <-).
        assert (t !! name = Some b) by (apply Hnm; eauto). congruence.
    + rewrite lookup_insert_ne by done. rewrite Hnm. split.
      * intros (Hin & Hcb). split; [by left|]. by rewrite lookup_insert_ne by (by intros <-).
      * intros ([Hin| ->] & cb & Hb & Hcb).
        -- rewrite lookup_insert_ne in Hb by (by intros <-). eauto.
        -- rewrite lookup_insert_eq in Hb. by simplify_eq/=.
  - apply NoDup_app. split_and!; [done| |apply NoDup_singleton].
    intros x Hx ->%list_elem_of_singleton. done.
Qed.

Lemma destroy_rep m t name b :
  mgr_rep m t -> t !! name = Some b ->
  exists m', cb_destroy m (Some b) = Some m' /\ mgr_rep m' (delete name t).
Proof.
  intros [[Hsz Hle] Hfr Hlv Hnm Hnd] Hb. pose proof Hb as (Hin & cb & Hcb & Hn)%Hnm.
  unfold cb_destroy. rewrite Hcb. simpl. eexists. split; [done|].
  split; simpl.
  - rewrite (size_delete_handle t name b), remove_handle_length, Hsz by done. lia.
  - intros b' [cb' Hb']. apply lookup_delete_Some in Hb' as [_ Hb']. apply Hfr. eauto.
  - intros b'. rewrite remove_handle_filter, list_elem_of_filter by done. intros [Hne Hin'].
    rewrite lookup_delete_ne by done. by apply Hlv.
  - intros n b'. rewrite lookup_delete_Some, Hnm, remove_handle_filter, list_elem_of_filter by done. split.
    + intros (Hne & Hin' & cb' & Hb' & Hn'). assert (b' <> b) by (intros ->; congruence).
      split; [done|]. rewrite lookup_delete_ne by done. eauto.
    + intros ((Hne & Hin') & cb' & Hb' & Hn'). rewrite lookup_delete_ne in Hb' by done.
      split; [|eauto]. intros ->. assert (t !! n = Some b') by (apply Hnm; eauto). congruence.
  - rewrite remove_handle_filter by done. by apply NoDup_filter.
Qed.

Lemma transition_identity mgr new cb e : same_identity cb (transition_state mgr new (cb, e)).2.1.
Proof. apply (transition_run mgr new cb e). Qed.

Lemma note_failure_identity mgr cb e : same_identity cb (note_failure_locked mgr (cb, e)).2.1.
Proof.
  destruct (note_failure_run mgr cb e) as (cb1 & e1 & (Hid & _) & _ & _ & ->).
  destruct (state cb); [destruct (should_trip cb1)|..]; try done;
    (eapply same_identity_trans; [exact Hid|apply transition_identity]).
Qed.

Lemma call_identity mgr op cb e : same_identity cb (cb_call mgr op (cb, e)).2.1.
Proof.
  destruct (destroying cb) eqn:Hd.
  { destruct op; unfold cb_call, cb_allow_request, cb_record_success, cb_record_failure,
      cb_record_timeout, cb_reset, cb_force_open, cb_force_close, cb_lock_alive, bind, get_cb;
      simpl; by rewrite Hd. }
  destruct op; unfold cb_call, bind.
  - rewrite allow_run by done. destruct (state cb); [done| |by destruct (_ <? _)].
    destruct (_ <=? _); [|done]. apply (transition_identity mgr _ cb (ticked e)).
  - destruct (record_success_run mgr duration_ms cb e Hd) as (cb1 & e1 & (Hid & _) & _ & _ & ->).
    destruct (state cb); try done. destruct (_ <=? _); [|done].
    pose proof (transition_identity mgr CB_STATE_CLOSED cb1 e1) as H.
    destruct (transition_state _ _ _) as [? [??]]. by eapply same_identity_trans.
  - unfold cb_record_failure, cb_lock_alive, bind, get_cb, modify_stats, modify_cb. simpl. rewrite Hd. simpl.
    match goal with |- context [note_failure_locked ?m (?c, ?f)] =>
      pose proof (note_failure_identity m c f) as H; destruct (note_failure_locked m (c, f)) as [? [??]] end.
    done.
  - unfold cb_record_timeout, cb_lock_alive, bind, get_cb, modify_stats, modify_cb. simpl. rewrite Hd. simpl.
    match goal with |- context [note_failure_locked ?m (?c, ?f)] =>
      pose proof (note_failure_identity m c f) as H; destruct (note_failure_locked m (c, f)) as [? [??]] end.
    done.
  - unfold cb_reset, cb_lock_alive, bind, get_cb. simpl. rewrite Hd. simpl. by case_decide.
  - unfold cb_force_open, cb_lock_alive, bind, get_cb. simpl. rewrite Hd.
    pose proof (transition_identity mgr CB_STATE_OPEN cb e) as H.
    by destruct (transition_state _ _ _) as [? [??]].
  - unfold cb_force_close, cb_lock_alive, bind, get_cb. simpl. rewrite Hd.
    pose proof (transition_identity mgr CB_STATE_CLOSED cb e) as H.
    by destruct (transition_state _ _ _) as [? [??]].
Qed.

(** Calls to the manager, and calls to a breaker looked up by name. *)
Inductive mgr_op :=
| MCreate (name : cstr) (cfg : option cb_config_t) (alloc mtx_ok : bool) (t1 t2 : Z)
| MFind (name : cstr)
| MDestroy (name : cstr)
| MCall (name : cstr) (op : cb_op).

Definition mgr_call (m : cb_manager) (e : cb_env) (op : mgr_op)
    : option (option nat * cb_manager * cb_env) :=
  match op with
  | MCreate name cfg alloc mtx_ok t1 t2 =>
      '(r, m') ← cb_create m (Some name) cfg alloc mtx_ok t1 t2; Some (r, m', e)
  | MFind name => r ← cb_find m (Some name); Some (r, m, e)
  | MDestroy name => r ← cb_find m (Some name); m' ← cb_destroy m r; Some (r, m', e)
  | MCall name op =>
      r ← cb_find m (Some name);
      '(_, m', e') ← on_breaker None (fun mgr => cb_call mgr op) m r e; Some (r, m', e')
  end.

Fixpoint mgr_run (m : cb_manager) (e : cb_env) (ops : list mgr_op) : option (list (option nat)) :=
  match ops with
  | [] => Some []
  | op :: ops' => '(r, m', e') ← mgr_call m e op; rs ← mgr_run m' e' ops'; Some (r :: rs)
  end.

(** The specification: a bounded table of names; handles are handed out in
    order and not reused. *)
Definition map_call (t : gmap cstr nat) (nx : nat) (op : mgr_op) : option nat * gmap cstr nat * nat :=
  match op with
  | MCreate name _ alloc mtx_ok _ _ =>
      if (CB_MAX_BREAKERS <=? size t)%nat then (None, t, nx)
      else match t !! name with
           | Some b => (Some b, t, nx)
           | None => if alloc && mtx_ok then (Some nx, <[name := nx]> t, S nx) else (None, t, nx)
           end
  | MFind name => (t !! name, t, nx)
  | MDestroy name => (t !! name, delete name t, nx)
  | MCall name _ => (t !! name, t, nx)
  end.

Fixpoint map_run (t : gmap cstr nat) (nx : nat) (ops : list mgr_op) : list (option nat) :=
  match ops with
  | [] => []
  | op :: ops' => let '(r, t', nx') := map_call t nx op in r :: map_run t' nx' ops'
  end.

Definition short_names (op : mgr_op) : bool :=
  match op with
  | MCreate name _ _ _ _ _ => (length name <? CB_MAX_NAME_LEN)%nat
  | _ => true
  end.

Lemma update_rep m t b cb cb' :
  mgr_rep m t -> heap m !! b = Some cb -> cb_name cb' = cb_name cb ->
  mgr_rep (Manager (breakers m) (callbacks m) (<[b := cb']> (heap m)) (next m)) t.
Proof.
  intros [Hsz Hfr Hlv Hnm Hnd] Hb Hn. split; simpl; try done.
  - intros b' [cb'' Hb']. destruct (decide (b' = b)) as [->|]; [eauto|].
    rewrite lookup_insert_ne in Hb' by done. eauto.
  - intros b' Hin. destruct (decide (b' = b)) as [->|]; [by rewrite lookup_insert_eq|].
    rewrite lookup_insert_ne by done. auto.
  - intros n b'. rewrite Hnm. destruct (decide (b' = b)) as [->|].
    + rewrite lookup_insert_eq, Hb. split; intros (Hin & c & [= <-] & Hc); (split; [done|eexists; split; [done|congruence]]).
    + by rewrite lookup_insert_ne by done.
Qed.

Lemma mgr_call_rep m t e op :
  mgr_rep m t -> short_names op = true ->
  exists r m' e', mgr_call m e op = Some (r, m', e') /\
    mgr_rep m' (map_call t (next m) op).1.2 /\ map_call t (next m) op = (r, (map_call t (next m) op).1.2, next m').
Proof.
  intros Hrep Hs. destruct op as [name cfg alloc mtx_ok t1 t2|name|name|name op]; simpl in *.
  - apply Nat.ltb_lt in Hs. pose proof Hrep as [[Hsz Hle] _ _ _ _]. rewrite Hsz.
    destruct (Nat.leb_spec CB_MAX_BREAKERS (length (breakers m))) as [H|H].
    { unfold cb_create. rewrite (proj2 (Nat.leb_le _ _) H). simpl. eauto 6. }
    destruct (t !! name) as [b|] eqn:Hn; [|destruct (alloc && mtx_ok) eqn:Ha].
    + unfold cb_create. rewrite (proj2 (Nat.leb_gt _ _) H), (find_name_rep m t), Hn by done. simpl. eauto 6.
    + apply andb_true_iff in Ha as [-> ->].
      destruct (create_rep m t name cfg t1 t2 Hrep Hs Hn H) as (m' & Hc & Hrep'). rewrite Hc. simpl.
      eexists _, m', e. split_and!; [done|done|].
      revert Hc. unfold cb_create. rewrite (proj2 (Nat.leb_gt _ _) H), (find_name_rep m t), Hn by done.
      simpl. by intros [= <-].
    + unfold cb_create. rewrite (proj2 (Nat.leb_gt _ _) H), (find_name_rep m t), Hn by done. simpl.
      destruct alloc; [|simpl; eauto 6]. simpl in Ha. subst. simpl. eauto 6.
  - rewrite (find_name_rep m t) by done. simpl. eauto 6.
  - rewrite (find_name_rep m t) by done. simpl. destruct (t !! name) as [b|] eqn:Hn.
    + destruct (destroy_rep m t name b Hrep Hn) as (m' & Hd & Hrep'). rewrite Hd. simpl.
      eexists _, m', e. split_and!; [done|done|]. revert Hd. unfold cb_destroy.
      destruct (heap m !! b); simpl; [|done]. by intros [= <-].
    + simpl. rewrite delete_id by done. eauto 6.
  - rewrite (find_name_rep m t) by done. simpl. destruct (t !! name) as [b|] eqn:Hn; simpl; [|eauto 6].
    apply Hrep in Hn as (Hin & cb & Hcb & Hname). rewrite Hcb. simpl.
    pose proof (call_identity (Some (callbacks m)) op cb e) as (_ & Hid & _).
    destruct (cb_call _ op (cb, e)) as [r [cb' e']]. simpl in *.
    eexists _, _, e'. split_and!; [done| |done]. by apply (update_rep m t b cb).
Qed.

Lemma mgr_run_rep m t e ops :
  mgr_rep m t -> forallb short_names ops = true -> mgr_run m e ops = Some (map_run t (next m) ops).
Proof.
  revert m t e. induction ops as [|op ops IH]; intros m t e Hrep Hs; [done|].
  simpl in Hs. apply andb_true_iff in Hs as [Hop Hs].
  destruct (mgr_call_rep m t e op Hrep Hop) as (r & m' & e' & Hc & Hrep' & Hmap).
  simpl. rewrite Hc. simpl. rewrite (IH m' _ e' Hrep' Hs). simpl. rewrite Hmap. done.
Qed.

Lemma create_fresh m name cfg t1 t2 b m' cb :
  cb_create m (Some name) (Some cfg) true true t1 t2 = Some (Some b, m') ->
  b ∉ breakers m -> heap m' !! b = Some cb ->
  cb = Breaker (name_copy name) cfg cb_create_default_failover_config CB_STATE_CLOSED
         (Stats 0 0 0 0 0 0 0 0 0 0 (S754_zero false) (S754_zero false) 0 0) t1 0 t2 0 0 false.
Proof.
  unfold cb_create. destruct (_ <=? _)%nat; [done|].
  destruct (find_name _ _ _) as [[b'|]|] eqn:Hf; simpl; [| |done].
  - intros [= -> ->] Hb. exfalso. apply Hb. clear Hb. revert Hf. generalize (breakers m').
    induction l as [|x l IH]; simpl; [done|]. destruct (heap m' !! x); simpl; [|done].
    case_decide; intros H'; [simplify_eq; by left|right; auto].
  - intros [= <- <-] _. simpl. rewrite lookup_insert_eq. by intros [= <-].
Qed.

(** ** Properties *)


Definition sample_cfg : cb_config_t := Config 2 1 100 1 60000 5000 0 0 true false.
Definition sample_mgr : cb_manager := Manager [] [(Some 7, 70)] ∅ 0.
Definition sample_env : cb_env := Env (fun n => 1000 + 60 * Z.of_nat n) 0 [].
Definition sample_cb : cb_internal_t :=
  Breaker (cs "llm") sample_cfg cb_create_default_failover_config CB_STATE_CLOSED
    (Stats 0 0 0 0 0 0 0 0 0 0 (S754_zero false) (S754_zero false) 0 0) 5 0 6 0 0 false.
Definition sample_ops : list cb_op :=
  [OpAllow; OpFailure; OpTimeout; OpAllow; OpAllow; OpAllow; OpAllow; OpSuccess 1; OpAllow].


(** While the breaker is open and its timeout has not passed, it fails
    fast: over any interleaving of requests and outcomes of earlier calls,
    every request is rejected, the state does not change and nothing is
    announced. *)
Theorem open_fails_fast mgr cb ops e :
  config_ok (config cb) -> destroying cb = false -> state cb = CB_STATE_OPEN ->
  forallb only_calls ops = true ->
  let s := cb_run mgr ops (cb, e) in
  (forall n, (tick e <= n < tick s.2.2)%nat -> u64 (clk e n - state_changed_at cb) < timeout_ms (config cb)) ->
  s.1 = answers false ops /\ state s.2.1 = CB_STATE_OPEN /\
  state_changed_at s.2.1 = state_changed_at cb /\
  map change_of (notified s.2.2) = map change_of (notified e).
Proof.
  intros Hcfg Hd Hs Hops. cbv zeta. intros Ht.
  assert (Hv : cb_view cb = AOpen (state_changed_at cb)) by (unfold cb_view; by rewrite Hs).
  destruct (run_abs mgr ops cb e Hcfg Hd) as (_ & _ & evs & (_ & _ & He) & Hrun); [by rewrite Hv|].
  rewrite Hv in Hrun.
  apply abs_run_open in Hrun as (Hfin & -> & ->); [|by apply forallb_calls|done].
  rewrite He, app_nil_r. unfold cb_view in Hfin.
  destruct (state (cb_run mgr ops (cb, e)).2.1); simplify_eq; by split_and!.
Qed.

Definition sample_open : cb_internal_t :=
  set_state_changed_at 1000 (set_state CB_STATE_OPEN (set_destroying false sample_cb)).

Lemma open_fails_fast_witness :
  (cb_run (Some [(Some 7, 70)]) [OpAllow; OpSuccess 3; OpFailure; OpAllow]
     (sample_open, Env (fun _ => 1050) 0 [])).1 = [Some false; None; None; Some false].
Proof.
  apply (open_fails_fast (Some [(Some 7, 70)]) sample_open [OpAllow; OpSuccess 3; OpFailure; OpAllow]
    (Env (fun _ => 1050) 0 [])); try reflexivity; [unfold config_ok; simpl; lia].
Defined.

(** C19: an open breaker whose timeout has passed lets the next request through
    and becomes half open; until the probes have given a verdict it admits, of
    any number of requests, the first [half_open_max_calls + 1] (the request
    that causes the change is not counted), and it stays half open with its
    successes counted. *)
Theorem half_open_admits mgr cb ops e :
  config_ok (config cb) -> destroying cb = false -> state cb = CB_STATE_OPEN ->
  timeout_ms (config cb) <= u64 (clk e (tick e) - state_changed_at cb) ->
  forallb (fun op => is_allow op || is_success op) ops = true ->
  count is_success ops < success_threshold (config cb) ->
  let s := cb_run mgr (OpAllow :: ops) (cb, e) in
  admitted s.1 = Z.min (count is_allow (OpAllow :: ops)) (half_open_max_calls (config cb) + 1) /\
  state s.2.1 = CB_STATE_HALF_OPEN /\ consecutive_successes (stats s.2.1) = count is_success ops.
Proof.
  intros Hcfg Hd Hs Ht Hops Hk. cbv zeta. cbn [cb_run cb_call]. unfold bind. rewrite allow_run, Hs, (proj2 (Z.leb_le _ _) Ht) by done.
  destruct (transition_view mgr CB_STATE_HALF_OPEN cb (ticked e)) as (Hid & _ & _ & Hv); [congruence|].
  cbv zeta in Hid, Hv. destruct (transition_state _ _ _) as [[] [cb1 e1]]. cbn [fst snd] in *.
  destruct Hid as (Hcf & _ & Hdd & _). unfold config_ok in Hcfg.
  destruct (run_abs mgr ops cb1 e1) as (_ & _ & evs & _ & Hrun);
    [by rewrite Hcf|congruence|rewrite Hv, Hcf; simpl; lia|].
  rewrite Hv, Hcf in Hrun. unfold ret.
  destruct (cb_run mgr ops (cb1, e1)) as [rs [cb2 e2]]. cbn [fst snd] in *.
  apply abs_run_half in Hrun as (Hfin & Hadm & _); [|done|lia|lia].
  rewrite admitted_cons, Hadm, count_cons. cbn [is_allow].
  split; [lia|]. unfold cb_view in Hfin. destruct (state cb2) eqn:E2; try done. injection Hfin as _ Hsu. split; [done|exact Hsu].
Qed.

Lemma half_open_admits_witness :
  admitted (cb_run None [OpAllow; OpAllow; OpAllow; OpAllow] (sample_open, Env (fun _ => 1100) 0 [])).1 = 2.
Proof.
  apply (half_open_admits None sample_open [OpAllow; OpAllow; OpAllow] (Env (fun _ => 1100) 0 []));
    try reflexivity; unfold config_ok; simpl; lia.
Defined.

(** Without rate criteria, a breaker made by [cb_create] stays closed and
    admits every request as long as no run of failures reached
    [failure_threshold], and the failure that completes such a run (timeouts
    count, successes end a run) opens it at once. *)
Theorem closed_trips_at_threshold m name cfg t1 t2 b m' cb ops e :
  config_ok cfg -> rates_on cfg = false ->
  cb_create m (Some name) (Some cfg) true true t1 t2 = Some (Some b, m') ->
  b ∉ breakers m -> heap m' !! b = Some cb ->
  forallb only_calls ops = true ->
  (forall pre, pre `prefix_of` ops -> failure_run pre < failure_threshold cfg) ->
  let s := cb_run (Some (callbacks m')) ops (cb, e) in
  s.1 = answers true ops /\ state s.2.1 = CB_STATE_CLOSED /\
  (forall op, is_failure op = true ->
    state (cb_run (Some (callbacks m')) (ops ++ [op]) (cb, e)).2.1 =
    if failure_threshold cfg <=? failure_run (ops ++ [op]) then CB_STATE_OPEN else CB_STATE_CLOSED).
Proof.
  intros Hcfg Hoff Hc Hb Hcb Hops Hpre. rewrite (create_fresh _ _ _ _ _ _ _ _ Hc Hb Hcb).
  assert (Hrun : forall l, exists evs, let s := cb_run (Some (callbacks m')) l
    (Breaker (name_copy name) cfg cb_create_default_failover_config CB_STATE_CLOSED
       (Stats 0 0 0 0 0 0 0 0 0 0 (S754_zero false) (S754_zero false) 0 0) t1 0 t2 0 0 false, e) in
    abs_run cfg (clk e) (tick e) (AClosed 0) l s.1 evs (tick s.2.2) (cb_view s.2.1)).
  { intros l. match goal with |- context [cb_run _ _ (?c, _)] =>
      destruct (run_abs (Some (callbacks m')) l c e) as (_ & _ & evs & _ & H);
        [done|done|simpl; unfold config_ok in Hcfg; lia|] end.
    exists evs. exact H. }
  cbv zeta in *. destruct (Hrun ops) as [evs Hr].
  apply abs_run_closed in Hr as [Hv Hans]; [|done..].
  split; [done|split].
  - apply (f_equal abs_kind) in Hv. by rewrite abs_kind_view in Hv.
  - intros op Hop. destruct (Hrun (ops ++ [op])) as [evs' Hr].
    eapply abs_run_trips in Hr; [|done..]. by rewrite abs_kind_view in Hr.
Qed.

Lemma closed_trips_at_threshold_witness :
  state (cb_run (Some (callbacks sample_mgr)) ([OpFailure; OpSuccess 1; OpTimeout; OpAllow] ++ [OpFailure])
    (sample_cb, sample_env)).2.1 = CB_STATE_OPEN.
Proof.
  destruct (closed_trips_at_threshold sample_mgr (cs "llm") sample_cfg 5 6 0%nat
    (Manager [0%nat] [(Some 7, 70)] {[0%nat := sample_cb]} 1) sample_cb
    [OpFailure; OpSuccess 1; OpTimeout; OpAllow] sample_env) as (_ & _ & H);
    [unfold config_ok; simpl; lia|reflexivity|reflexivity|apply not_elem_of_nil|reflexivity|reflexivity| |].
  - intros pre Hpre.
    assert (Hn : exists n, pre = take n [OpFailure; OpSuccess 1; OpTimeout; OpAllow] /\ (n <= 4)%nat).
    { destruct Hpre as [k Hk]. exists (length pre). rewrite Hk.
      assert (Hl : length (pre ++ k) = 4%nat) by (by rewrite <- Hk). rewrite length_app in Hl.
      split; [by rewrite take_app_length|lia]. }
    destruct Hn as (n & -> & Hn). do 5 (destruct n; [by vm_compute|]). lia.
  - by rewrite H.
Defined.

(** The counters of a breaker made by [cb_create] are exact modulo 2^64
    over every interleaving: the calls recorded are the successes plus the
    failures, a timeout counts as both a timeout and a failure, and
    [rejected_calls] is the number of requests answered [false]. *)
Theorem counters_exact m name cfg t1 t2 b m' cb ops e :
  config_ok cfg ->
  cb_create m (Some name) (Some cfg) true true t1 t2 = Some (Some b, m') ->
  b ∉ breakers m -> heap m' !! b = Some cb ->
  let s := cb_run (Some (callbacks m')) ops (cb, e) in
  let st := stats s.2.1 in
  total_calls st = u64 (successful_calls st + failed_calls st) /\
  successful_calls st = u64 (count is_success ops) /\
  failed_calls st = u64 (count is_failure ops) /\
  timeout_calls st = u64 (count is_timeout ops) /\
  rejected_calls st = u64 (rejections s.1).
Proof.
  intros Hcfg Hc Hb Hcb. rewrite (create_fresh _ _ _ _ _ _ _ _ Hc Hb Hcb).
  match goal with |- context [cb_run _ _ (?c, _)] =>
    pose proof (run_counters (Some (callbacks m')) ops c e) as H end.
  cbv zeta in *. destruct (cb_run _ _ _) as [rs [cb' e']]. cbn [fst snd] in *.
  specialize (H Hcfg eq_refl). simpl in H. unfold config_ok in Hcfg.
  specialize (H ltac:(lia) ltac:(done)). unfold counters_of, counters_add in H. cbn in H.
  injection H as Ht Hs Hf Hto Hr. rewrite Ht, Hs, Hf, Hto, Hr. split_and!; try done.
  rewrite u64_add_idemp, (Z.add_comm _ (u64 _)), u64_add_idemp. f_equal. clear.
  induction ops as [|op ops IH]; [done|]. rewrite !count_cons. destruct op; simpl; lia.
Qed.

Lemma counters_exact_witness :
  rejected_calls (stats (cb_run (Some (callbacks sample_mgr)) sample_ops (sample_cb, sample_env)).2.1) = 2.
Proof.
  destruct (counters_exact sample_mgr (cs "llm") sample_cfg 5 6 0%nat
    (Manager [0%nat] [(Some 7, 70)] {[0%nat := sample_cb]} 1) sample_cb sample_ops sample_env)
    as (_ & _ & _ & _ & H); [unfold config_ok; simpl; lia|reflexivity|apply not_elem_of_nil|reflexivity|].
  exact H.
Defined.

(** For names that fit the name field, the manager is a table from names to
    breakers of at most 64 entries: over every sequence of creations (the
    allocations failing or not), look-ups, destructions and calls through the
    handles found, each call gives the handle of the table's binding, the same
    name never has two breakers, and no freed breaker is ever reached. *)
Theorem manager_refines_map m e ops :
  cb_manager_create true true = Some m -> forallb short_names ops = true ->
  mgr_run m e ops = Some (map_run ∅ 0 ops).
Proof.
  intros [= <-] Hs. apply (mgr_run_rep (Manager [] [] ∅ 0) ∅ e ops); [|done].
  split; simpl; [unfold CB_MAX_BREAKERS; rewrite map_size_empty; lia|intros b [? Hb]|
    intros b Hb|intros name b|by apply NoDup_nil].
  - by rewrite lookup_empty in Hb.
  - by apply elem_of_nil in Hb.
  - rewrite lookup_empty. split; [done|]. intros [Hb _]. by apply elem_of_nil in Hb.
Qed.

Lemma manager_refines_map_witness :
  mgr_run (Manager [] [] ∅ 0) sample_env
    [MCreate (cs "a") None true true 0 0; MCreate (cs "b") None true true 0 0;
     MCreate (cs "a") None true true 0 0; MCall (cs "a") OpFailure; MDestroy (cs "a"); MFind (cs "a")] =
  Some [Some 0%nat; Some 1%nat; Some 0%nat; Some 0%nat; Some 0%nat; None].
Proof.
  rewrite (manager_refines_map (Manager [] [] ∅ 0) sample_env); reflexivity.
Defined.

(** A name that does not fit the name field is stored cut, so the breaker is
    not found under the name it was created with. *)
Lemma long_name_not_found :
  let name := replicate 64 97 in
  exists m', cb_create (Manager [] [] ∅ 0) (Some name) None true true 0 0 = Some (Some 0%nat, m') /\
    cb_find m' (Some name) = Some None /\
    exists m'', cb_create m' (Some name) None true true 0 0 = Some (Some 1%nat, m'').
Proof. eexists. split_and!; [reflexivity..|]. eexists. reflexivity. Qed.

(** [cb_reset] closes an open breaker and announces nothing. *)
Lemma reset_is_silent :
  let s := (cb_call (Some [(Some 7, 70)]) OpReset (sample_open, sample_env)).2 in
  state s.1 = CB_STATE_CLOSED /\ notified s.2 = [].
Proof. split; reflexivity. Qed.
