(* ===== verification/Cache.v ===== *)
(** * The LRU cache: utils/cache/cache_common.c

    The cache at the level of its pointers: a heap of entries, each linked both
    in the list of its hash bucket and in the doubly linked list that orders
    the entries by use.  Reading or freeing an entry that is not in the heap is
    undefined ([None]), and so is a walk that does not end.  The specification
    is a list of bindings, the most recently used first.  Every operation is
    one critical section of the cache's lock. *)
From S2P Require Import Prelude.

Definition HASH_SIZE : nat := 1024.

(** What the cache asks of its keys: the hash and comparison functions of the
    configuration, with their contract. *)
Class CacheKey (K : Type) := {
  hash_func : K -> Z;
  compare_func : K -> K -> Z;
  hash_range : forall k, 0 <= hash_func k < Z.of_nat HASH_SIZE;
  compare_eq : forall a b, compare_func a b = 0 <-> a = b;
}.

Section cache.
Context {K V : Type} `{!CacheKey K, !EqDecision K}.

(** The allocator gives an address that is not in use; whether it fails is an
    argument of the operations. *)

(** ** Data *)

Record cache_entry := Entry {
  key : K;
  value : V;
  timestamp : Z;
  prev : option nat;
  next : option nat;
  hnext : option nat;
}.

Record cache_impl := Cache {
  heap : gmap nat cache_entry;
  buckets : list (option nat);
  lru_head : option nat;
  lru_tail : option nat;
  capacity : Z;
  size : Z;
  ttl_sec : Z;
  hits : Z;
  misses : Z;
  evictions : Z;
}.

Definition set_prev (v : option nat) (r : cache_entry) : cache_entry :=
  Entry (key r) (value r) (timestamp r) v (next r) (hnext r).
Definition set_next (v : option nat) (r : cache_entry) : cache_entry :=
  Entry (key r) (value r) (timestamp r) (prev r) v (hnext r).
Definition set_hnext (v : option nat) (r : cache_entry) : cache_entry :=
  Entry (key r) (value r) (timestamp r) (prev r) (next r) v.

Definition set_heap (v : gmap nat cache_entry) (r : cache_impl) : cache_impl :=
  Cache v (buckets r) (lru_head r) (lru_tail r) (capacity r) (size r) (ttl_sec r) (hits r) (misses
    r) (evictions r).
Definition set_buckets (v : list (option nat)) (r : cache_impl) : cache_impl :=
  Cache (heap r) v (lru_head r) (lru_tail r) (capacity r) (size r) (ttl_sec r) (hits r) (misses r)
    (evictions r).
Definition set_lru_head (v : option nat) (r : cache_impl) : cache_impl :=
  Cache (heap r) (buckets r) v (lru_tail r) (capacity r) (size r) (ttl_sec r) (hits r) (misses r)
    (evictions r).
Definition set_lru_tail (v : option nat) (r : cache_impl) : cache_impl :=
  Cache (heap r) (buckets r) (lru_head r) v (capacity r) (size r) (ttl_sec r) (hits r) (misses r)
    (evictions r).
Definition set_capacity (v : Z) (r : cache_impl) : cache_impl :=
  Cache (heap r) (buckets r) (lru_head r) (lru_tail r) v (size r) (ttl_sec r) (hits r) (misses r)
    (evictions r).
Definition set_size (v : Z) (r : cache_impl) : cache_impl :=
  Cache (heap r) (buckets r) (lru_head r) (lru_tail r) (capacity r) v (ttl_sec r) (hits r) (misses
    r) (evictions r).
Definition set_ttl_sec (v : Z) (r : cache_impl) : cache_impl :=
  Cache (heap r) (buckets r) (lru_head r) (lru_tail r) (capacity r) (size r) v (hits r) (misses r)
    (evictions r).
Definition set_hits (v : Z) (r : cache_impl) : cache_impl :=
  Cache (heap r) (buckets r) (lru_head r) (lru_tail r) (capacity r) (size r) (ttl_sec r) v (misses
    r) (evictions r).
Definition set_misses (v : Z) (r : cache_impl) : cache_impl :=
  Cache (heap r) (buckets r) (lru_head r) (lru_tail r) (capacity r) (size r) (ttl_sec r) (hits r)
    v (evictions r).
Definition set_evictions (v : Z) (r : cache_impl) : cache_impl :=
  Cache (heap r) (buckets r) (lru_head r) (lru_tail r) (capacity r) (size r) (ttl_sec r) (hits r)
    (misses r) v.

Variable malloc : gmap nat cache_entry -> nat.

(** [entry->field = ...] through a pointer. *)
Definition upd (p : nat) (f : cache_entry -> cache_entry) (c : cache_impl) : option cache_impl :=
  e ← heap c !! p; Some (set_heap (<[p := f e]> (heap c)) c).

(** ** The two containers *)

Definition lru_remove (c : cache_impl) (p : nat) : option cache_impl :=
  e ← heap c !! p;
  c ← match prev e with Some q => upd q (set_next (next e)) c | None => Some c end;
  c ← match next e with Some q => upd q (set_prev (prev e)) c | None => Some c end;
  let c := if decide (lru_head c = Some p) then set_lru_head (next e) c else c in
  let c := if decide (lru_tail c = Some p) then set_lru_tail (prev e) c else c in
  upd p (fun e => set_prev None (set_next None e)) c.

Definition lru_move_to_head (c : cache_impl) (p : nat) : option cache_impl :=
  if decide (lru_head c = Some p) then Some c
  else
    c ← lru_remove c p;
    c ← upd p (set_next (lru_head c)) c;
    c ← match lru_head c with Some q => upd q (set_prev (Some p)) c | None => Some c end;
    let c := set_lru_head (Some p) c in
    Some (match lru_tail c with None => set_lru_tail (Some p) c | Some _ => c end).

(** The walks along a bucket; [fuel] bounds the entries visited. *)
Fixpoint bucket_find_loop (fuel : nat) (h : gmap nat cache_entry) (entry : option nat) (k : K)
    : option (option nat) :=
  match entry, fuel with
  | None, _ => Some None
  | Some p, S fuel' =>
      e ← h !! p;
      if compare_func (key e) k =? 0 then Some (Some p) else bucket_find_loop fuel' h (hnext e) k
  | Some _, O => None
  end.

Definition walk_fuel (c : cache_impl) : nat := S (base.size (heap c)).

Definition bucket_find (c : cache_impl) (idx : nat) (k : K) : option (option nat) :=
  start ← buckets c !! idx;
  bucket_find_loop (walk_fuel c) (heap c) start k.

(** [link] is the address of the bucket ([None]) or of an entry's [hnext]. *)
Definition link_read (c : cache_impl) (idx : nat) (link : option nat) : option (option nat) :=
  match link with None => buckets c !! idx | Some q => hnext <$> heap c !! q end.

Definition link_write (c : cache_impl) (idx : nat) (link : option nat) (v : option nat)
    : option cache_impl :=
  match link with
  | None => Some (set_buckets (<[idx := v]> (buckets c)) c)
  | Some q => upd q (set_hnext v) c
  end.

Fixpoint bucket_unlink_loop (fuel : nat) (c : cache_impl) (idx p : nat) (link : option nat)
    : option cache_impl :=
  cur ← link_read c idx link;
  match cur, fuel with
  | None, _ => Some c
  | Some q, S fuel' =>
      if decide (q = p) then e ← heap c !! p; link_write c idx link (hnext e)
      else bucket_unlink_loop fuel' c idx p (Some q)
  | Some _, O => None
  end.

Definition bucket_unlink (c : cache_impl) (idx p : nat) : option cache_impl :=
  bucket_unlink_loop (walk_fuel c) c idx p None.

(** The key, the value and the entry are freed together. *)
Definition cache_entry_free (c : cache_impl) (p : nat) : option cache_impl :=
  _ ← heap c !! p; Some (set_heap (delete p (heap c)) c).

Definition entry_reap (c : cache_impl) (idx p : nat) : option cache_impl :=
  c ← bucket_unlink c idx p;
  c ← lru_remove c p;
  c ← cache_entry_free c p;
  Some (set_size (u64 (size c - 1)) c).

Definition evict_lru (c : cache_impl) : option cache_impl :=
  match lru_tail c with
  | None => Some c
  | Some victim =>
      e ← heap c !! victim;
      c ← entry_reap c (Z.to_nat (hash_func (key e))) victim;
      Some (set_evictions (u64 (evictions c + 1)) c)
  end.

(** [while (size > capacity) evict_lru()]. *)
Fixpoint evict_loop (fuel : nat) (c : cache_impl) : option cache_impl :=
  if capacity c <? size c then
    match fuel with
    | O => None
    | S fuel' => c ← evict_lru c; evict_loop fuel' c
    end
  else Some c.

Definition evict_all (c : cache_impl) : option cache_impl := evict_loop (Z.to_nat (size c)) c.

(** ** Operations *)

Record cache_config_t := CacheConfig { cfg_capacity : Z; cfg_ttl_sec : Z }.

Definition cache_create (cfg : cache_config_t) (alloc lock_ok : bool) : option cache_impl :=
  if alloc && lock_ok then
    Some (Cache ∅ (replicate HASH_SIZE None) None None (cfg_capacity cfg) 0 (cfg_ttl_sec cfg) 0 0 0)
  else None.

(** The copies of the key and of the value may fail as the allocation may. *)
Record alloc_env := AllocEnv { entry_ok : bool; key_ok : bool; value_ok : bool }.

Definition cache_entry_create (c : cache_impl) (k : K) (v : V) (now : Z) (a : alloc_env)
    : option (nat * cache_impl) :=
  if negb (entry_ok a) then None
  else if negb (key_ok a) then None
  else if negb (value_ok a) then None
  else
    let p := malloc (heap c) in
    Some (p, set_heap (<[p := Entry k v now None None None]> (heap c)) c).

(** The result is the returned code and what is left in [out_value]. *)
Definition cache_get (c : cache_impl) (k : option K) (now : Z) (copy_ok : bool)
    : option (Z * option V * cache_impl) :=
  match k with
  | None => Some (AIRY_EINVAL, None, c)
  | Some k =>
      let idx := Z.to_nat (hash_func k) in
      found ← bucket_find c idx k;
      match found with
      | None => Some (0, None, set_misses (u64 (misses c + 1)) c)
      | Some p =>
          e ← heap c !! p;
          if (0 <? ttl_sec c) && (ttl_sec c <? now - timestamp e) then
            c ← entry_reap c idx p;
            Some (0, None, set_misses (u64 (misses c + 1)) c)
          else
            c ← lru_move_to_head c p;
            Some (1, if copy_ok then Some (value e) else None, set_hits (u64 (hits c + 1)) c)
      end
  end.

Definition cache_put (c : cache_impl) (k : option K) (v : option V) (now : Z) (a : alloc_env)
    : option cache_impl :=
  match k with
  | None => Some c
  | Some k =>
      if capacity c =? 0 then Some c
      else
        let idx := Z.to_nat (hash_func k) in
        existing ← bucket_find c idx k;
        c ← match existing with Some p => entry_reap c idx p | None => Some c end;
        c ← match v with
            | None => Some c
            | Some v =>
                match cache_entry_create c k v now a with
                | None => Some c
                | Some (p, c) =>
                    b ← buckets c !! idx;
                    c ← upd p (set_hnext b) c;
                    let c := set_buckets (<[idx := Some p]> (buckets c)) c in
                    c ← lru_move_to_head c p;
                    Some (set_size (u64 (size c + 1)) c)
                end
            end;
        evict_all c
  end.

Definition cache_delete (c : cache_impl) (k : option K) : option cache_impl :=
  cache_put c k None 0 (AllocEnv true true true).

Fixpoint drain_bucket (fuel : nat) (h : gmap nat cache_entry) (entry : option nat)
    : option (gmap nat cache_entry) :=
  match entry, fuel with
  | None, _ => Some h
  | Some p, S fuel' => e ← h !! p; drain_bucket fuel' (delete p h) (hnext e)
  | Some _, O => None
  end.

Fixpoint drain_loop (h : gmap nat cache_entry) (l : list (option nat)) : option (gmap nat cache_entry) :=
  match l with
  | [] => Some h
  | b :: l' => h ← drain_bucket (S (base.size h)) h b; drain_loop h l'
  end.

Definition cache_drain (c : cache_impl) : option cache_impl :=
  h ← drain_loop (heap c) (buckets c);
  Some (Cache h (replicate HASH_SIZE None) None None (capacity c) 0 (ttl_sec c)
          (hits c) (misses c) (evictions c)).

Definition cache_clear (c : cache_impl) : option cache_impl := cache_drain c.

(** The entries left allocated after the cache is destroyed. *)
Definition cache_destroy (c : option cache_impl) : option (gmap nat cache_entry) :=
  match c with None => Some ∅ | Some c => c ← cache_drain c; Some (heap c) end.

Definition cache_get_size (c : option cache_impl) : Z :=
  match c with None => 0 | Some c => size c end.
Definition cache_get_capacity (c : option cache_impl) : Z :=
  match c with None => 0 | Some c => capacity c end.
Definition cache_get_ttl (c : option cache_impl) : Z :=
  match c with None => 0 | Some c => ttl_sec c end.

Definition cache_set_capacity (c : cache_impl) (n : Z) : option cache_impl :=
  evict_all (set_capacity n c).

Definition cache_set_ttl (c : cache_impl) (n : Z) : cache_impl := set_ttl_sec n c.

(** Entries, capacity, hits, misses, evictions and the hit rate. *)
Definition cache_get_stats (c : cache_impl) : Z * Z * Z * Z * Z * spec_float :=
  (size c, capacity c, hits c, misses c, evictions c,
   if 0 <? u64 (hits c + misses c)
   then SFdiv 53 1024 (of_int (hits c)) (of_int (u64 (hits c + misses c)))
   else S754_zero false).

(** ** The three views of the heap *)

Definition links (h : gmap nat cache_entry) (p : nat) : option (option nat * option nat) :=
  (fun e => (prev e, next e)) <$> h !! p.
Definition hlink (h : gmap nat cache_entry) (p : nat) : option (option nat) := hnext <$> h !! p.
Definition data (h : gmap nat cache_entry) (p : nat) : option (K * V * Z) :=
  (fun e => (key e, value e, timestamp e)) <$> h !! p.

(** The first and the last address of a list, or the given one. *)
Definition hd_or (d : option nat) (l : list nat) : option nat :=
  match head l with Some q => Some q | None => d end.
Definition last_or (d : option nat) (l : list nat) : option nat :=
  match last l with Some q => Some q | None => d end.

(** A doubly linked segment between [pv] and [nx], and a bucket chain. *)
Fixpoint dseg (h : gmap nat cache_entry) (pv : option nat) (ps : list nat) (nx : option nat) : Prop :=
  match ps with
  | [] => True
  | p :: ps' => links h p = Some (pv, hd_or nx ps') /\ dseg h (Some p) ps' nx
  end.

Fixpoint chain (h : gmap nat cache_entry) (start : option nat) (qs : list nat) : Prop :=
  match qs with
  | [] => start = None
  | q :: qs' => start = Some q /\ exists n, hlink h q = Some n /\ chain h n qs'
  end.

Definition lru_ok (c : cache_impl) (ps : list nat) : Prop :=
  dseg (heap c) None ps None /\ lru_head c = head ps /\ lru_tail c = last ps /\ NoDup ps.

(** Nothing but the fields of the LRU list has changed. *)
Definition only_lru (c c' : cache_impl) : Prop :=
  (forall p, data (heap c') p = data (heap c) p) /\ (forall p, hlink (heap c') p = hlink (heap c) p) /\
  buckets c' = buckets c /\ capacity c' = capacity c /\ size c' = size c /\ ttl_sec c' = ttl_sec c /\
  hits c' = hits c /\ misses c' = misses c /\ evictions c' = evictions c.

(** Nothing but the bucket chains has changed. *)
Definition only_bucket (c c' : cache_impl) : Prop :=
  (forall p, data (heap c') p = data (heap c) p) /\ (forall p, links (heap c') p = links (heap c) p) /\
  lru_head c' = lru_head c /\ lru_tail c' = lru_tail c /\
  capacity c' = capacity c /\ size c' = size c /\ ttl_sec c' = ttl_sec c /\
  hits c' = hits c /\ misses c' = misses c /\ evictions c' = evictions c.

Lemma only_lru_trans c1 c2 c3 : only_lru c1 c2 -> only_lru c2 c3 -> only_lru c1 c3.
Proof.
  intros (D & H & ?) (D' & H' & ?). split; [intros p; by rewrite D', D|].
  split; [intros p; by rewrite H', H|]. intuition congruence.
Qed.

Lemma only_lru_refl c : only_lru c c.
Proof. done. Qed.

(** *** Updates through the views *)

Lemma links_some h p x : links h p = Some x -> exists e, h !! p = Some e /\ x = (prev e, next e).
Proof. unfold links. destruct (h !! p) as [e|]; simpl; [|done]. intros [= <-]. eauto. Qed.

Lemma upd_next c p v x y :
  links (heap c) p = Some (x, y) ->
  exists c', upd p (set_next v) c = Some c' /\ only_lru c c' /\
    lru_head c' = lru_head c /\ lru_tail c' = lru_tail c /\
    links (heap c') p = Some (x, v) /\ forall q, q <> p -> links (heap c') q = links (heap c) q.
Proof.
  intros (e & He & [= -> ->])%links_some. unfold upd. rewrite He. simpl. eexists. split; [done|].
  unfold only_lru, data, hlink, links. simpl.
  split_and!; try done; try (intros q; destruct (decide (q = p)) as [->|];
    [by rewrite lookup_insert_eq, He|by rewrite lookup_insert_ne]); by rewrite lookup_insert_eq.
Qed.

Lemma upd_prev c p v x y :
  links (heap c) p = Some (x, y) ->
  exists c', upd p (set_prev v) c = Some c' /\ only_lru c c' /\
    lru_head c' = lru_head c /\ lru_tail c' = lru_tail c /\
    links (heap c') p = Some (v, y) /\ forall q, q <> p -> links (heap c') q = links (heap c) q.
Proof.
  intros (e & He & [= -> ->])%links_some. unfold upd. rewrite He. simpl. eexists. split; [done|].
  unfold only_lru, data, hlink, links. simpl.
  split_and!; try done; try (intros q; destruct (decide (q = p)) as [->|];
    [by rewrite lookup_insert_eq, He|by rewrite lookup_insert_ne]); by rewrite lookup_insert_eq.
Qed.

Lemma dseg_ext h h' pv ps nx :
  (forall p, p ∈ ps -> links h' p = links h p) -> dseg h pv ps nx -> dseg h' pv ps nx.
Proof.
  revert pv. induction ps as [|p ps IH]; intros pv Hext; simpl; [done|].
  intros [Hp Hs]. split; [rewrite Hext by (by left); done|].
  apply IH; [|done]. intros q Hq. apply Hext. by right.
Qed.

Lemma dseg_app h pv l1 l2 nx :
  dseg h pv (l1 ++ l2) nx <-> dseg h pv l1 (hd_or nx l2) /\ dseg h (last_or pv l1) l2 nx.
Proof.
  revert pv. induction l1 as [|p l1 IH]; intros pv; simpl; [unfold last_or; simpl; tauto|].
  rewrite IH. unfold last_or at 2. rewrite last_cons.
  replace (hd_or nx (l1 ++ l2)) with (hd_or (hd_or nx l2) l1) by (by destruct l1).
  unfold last_or. destruct (last l1); tauto.
Qed.

Lemma dseg_links h pv ps nx p : dseg h pv ps nx -> p ∈ ps -> exists x y, links h p = Some (x, y).
Proof.
  revert pv. induction ps as [|q ps IH]; intros pv; simpl; [by intros _ ?%elem_of_nil|].
  intros [Hq Hs] [->|Hin]%elem_of_cons; eauto.
Qed.

Lemma last_or_snoc pv l q : last_or pv (l ++ [q]) = Some q.
Proof. unfold last_or. by rewrite last_snoc. Qed.

(** Redirecting the end, and the start, of a segment. *)
Lemma dseg_set_next h h' pv l q nx nx' :
  dseg h pv (l ++ [q]) nx -> links h' q = Some (last_or pv l, nx') ->
  (forall x, x ∈ l -> links h' x = links h x) -> dseg h' pv (l ++ [q]) nx'.
Proof.
  rewrite !dseg_app. intros [Hl _] Hq Hx. simpl. split; [|done]. by eapply dseg_ext.
Qed.

Lemma dseg_set_prev h h' pv pv' r l nx :
  dseg h pv (r :: l) nx -> links h' r = Some (pv', hd_or nx l) ->
  (forall x, x ∈ l -> links h' x = links h x) -> dseg h' pv' (r :: l) nx.
Proof. simpl. intros [_ Hl] Hr Hx. split; [done|]. by eapply dseg_ext. Qed.

(** *** The LRU list *)

Lemma head_hd_or l : head l = hd_or None l.
Proof. by destruct l. Qed.
Lemma last_last_or l : last l = last_or None l.
Proof. unfold last_or. by destruct (last l). Qed.

(** The node before the hole now points past it. *)
Lemma lru_bypass_prev c l1 p l2 :
  dseg (heap c) None (l1 ++ p :: l2) None -> NoDup (l1 ++ p :: l2) ->
  exists c', match last_or None l1 with
             | Some q => upd q (set_next (hd_or None l2)) c
             | None => Some c
             end = Some c' /\
    only_lru c c' /\ lru_head c' = lru_head c /\ lru_tail c' = lru_tail c /\
    dseg (heap c') None l1 (hd_or None l2) /\ dseg (heap c') (last_or None l1) (p :: l2) None.
Proof.
  intros Hseg Hnd. rewrite dseg_app in Hseg. destruct Hseg as [H1 H2].
  destruct l1 as [|q l1] using rev_ind; [by exists c|].
  clear IHl1. rewrite last_or_snoc in *. rewrite <- app_assoc in Hnd.
  apply NoDup_app in Hnd as (Hnd1 & Hdis & Hnd2). simpl in Hnd2. apply NoDup_cons in Hnd2 as [Hq Hnd2].
  pose proof H1 as H1'. rewrite dseg_app in H1'. destruct H1' as [_ [Hlq _]].
  destruct (upd_next c q (hd_or None l2) _ _ Hlq) as (c' & -> & Ho & Hh & Ht & Hq' & Hx).
  exists c'. split_and!; try done.
  - eapply dseg_set_next; [done|done|]. intros x Hxl. apply Hx. intros ->.
    apply (Hdis q Hxl). by left.
  - apply (dseg_ext (heap c)); [|done]. intros x Hxl. apply Hx. intros ->. done.
Qed.

(** The node after the hole now points before it. *)
Lemma lru_bypass_next c l1 p l2 :
  dseg (heap c) None l1 (hd_or None l2) -> dseg (heap c) (last_or None l1) (p :: l2) None ->
  NoDup (l1 ++ p :: l2) ->
  exists c', match hd_or None l2 with
             | Some q => upd q (set_prev (last_or None l1)) c
             | None => Some c
             end = Some c' /\
    only_lru c c' /\ lru_head c' = lru_head c /\ lru_tail c' = lru_tail c /\
    dseg (heap c') None (l1 ++ l2) None /\ is_Some (links (heap c') p).
Proof.
  intros H1 [Hp H2] Hnd. destruct l2 as [|r l2].
  { exists c. rewrite app_nil_r. by split_and!; try done; rewrite Hp. }
  apply NoDup_app in Hnd as (Hnd1 & Hdis & Hnd2).
  apply NoDup_cons in Hnd2 as [Hpn Hnd2]. apply NoDup_cons in Hnd2 as [Hr Hnd2].
  pose proof H2 as [Hlr _]. cbn [hd_or head].
  destruct (upd_prev c r (last_or None l1) _ _ Hlr) as (c' & -> & Ho & Hh & Ht & Hr' & Hx).
  exists c'. split_and!; try done.
  - rewrite dseg_app. split.
    + apply (dseg_ext (heap c)); [|done]. intros x Hxl. apply Hx. intros ->.
      apply (Hdis r Hxl). by right; left.
    + eapply dseg_set_prev; [done|done|]. intros x Hxl. apply Hx. by intros ->.
  - rewrite Hx; [by rewrite Hp|]. intros ->. apply Hpn. by left.
Qed.

Lemma upd_detach c p x :
  links (heap c) p = Some x ->
  exists c', upd p (fun e => set_prev None (set_next None e)) c = Some c' /\ only_lru c c' /\
    lru_head c' = lru_head c /\ lru_tail c' = lru_tail c /\
    links (heap c') p = Some (None, None) /\ forall q, q <> p -> links (heap c') q = links (heap c) q.
Proof.
  intros (e & He & _)%links_some. unfold upd. rewrite He. simpl. eexists. split; [done|].
  unfold only_lru, data, hlink, links. simpl.
  split_and!; try done; try (intros q; destruct (decide (q = p)) as [->|];
    [by rewrite lookup_insert_eq, He|by rewrite lookup_insert_ne]); by rewrite lookup_insert_eq.
Qed.

Lemma head_app_elem (l1 l2 : list nat) p :
  NoDup (l1 ++ p :: l2) ->
  (if decide (head (l1 ++ p :: l2) = Some p) then hd_or None l2 else head (l1 ++ p :: l2)) = head (l1 ++ l2).
Proof.
  intros Hnd. destruct l1 as [|x l1]; simpl.
  - rewrite decide_True by done. by rewrite <- head_hd_or.
  - rewrite decide_False; [done|]. intros [= ->]. apply NoDup_cons in Hnd as [Hn _].
    apply Hn, elem_of_app. right. by left.
Qed.

Lemma last_app_elem (l1 l2 : list nat) p :
  NoDup (l1 ++ p :: l2) ->
  (if decide (last (l1 ++ p :: l2) = Some p) then last_or None l1 else last (l1 ++ p :: l2)) = last (l1 ++ l2).
Proof.
  intros Hnd. destruct l2 as [|x l2 _] using rev_ind.
  - rewrite last_snoc, decide_True, app_nil_r by done. by rewrite <- last_last_or.
  - rewrite app_comm_cons, !app_assoc, !last_snoc. rewrite decide_False; [done|]. intros [= ->].
    rewrite app_comm_cons, app_assoc in Hnd. apply NoDup_app in Hnd as (_ & Hd & _).
    apply (Hd p); [apply elem_of_app; right; by left|by apply list_elem_of_singleton].
Qed.

(** Removing a node of the list. *)
Lemma lru_remove_spec c l1 p l2 :
  lru_ok c (l1 ++ p :: l2) ->
  exists c', lru_remove c p = Some c' /\ only_lru c c' /\ lru_ok c' (l1 ++ l2) /\
    links (heap c') p = Some (None, None).
Proof.
  intros (Hseg & Hh & Ht & Hnd). pose proof Hseg as Hseg'. rewrite dseg_app in Hseg'.
  destruct Hseg' as [_ [Hp _]]. pose proof Hp as (e & He & [= Hpv Hnx])%links_some.
  unfold lru_remove. rewrite He. simpl. rewrite <- Hpv, <- Hnx.
  destruct (lru_bypass_prev c l1 p l2 Hseg Hnd) as (c1 & -> & Ho1 & Hh1 & Ht1 & H1 & H2). simpl.
  destruct (lru_bypass_next c1 l1 p l2 H1 H2 Hnd) as (c2 & -> & Ho2 & Hh2 & Ht2 & Hs & [x Hx]). simpl.
  rewrite Hh2, Hh1, Hh.
  set (c3 := if decide (head (l1 ++ p :: l2) = Some p) then set_lru_head (hd_or None l2) c2 else c2).
  assert (Hc3 : only_lru c2 c3 /\ lru_tail c3 = lru_tail c2 /\ heap c3 = heap c2 /\
    lru_head c3 = head (l1 ++ l2)).
  { rewrite <- (head_app_elem l1 l2 p Hnd). unfold c3. case_decide; split_and!; try done; congruence. }
  destruct Hc3 as (Ho3 & Ht3 & Hp3 & Hh3). rewrite Ht3, Ht2, Ht1, Ht.
  set (c4 := if decide (last (l1 ++ p :: l2) = Some p) then set_lru_tail (last_or None l1) c3 else c3).
  assert (Hc4 : only_lru c3 c4 /\ lru_head c4 = lru_head c3 /\ heap c4 = heap c3 /\
    lru_tail c4 = last (l1 ++ l2)).
  { rewrite <- (last_app_elem l1 l2 p Hnd). unfold c4. case_decide; split_and!; try done; congruence. }
  destruct Hc4 as (Ho4 & Hh4 & Hp4 & Ht4).
  destruct (upd_detach c4 p x) as (c5 & -> & Ho5 & Hh5 & Ht5 & Hl5 & Hx5); [by rewrite Hp4, Hp3|].
  exists c5. split; [done|]. split; [eauto 6 using only_lru_trans|]. split; [|done].
  apply NoDup_app in Hnd as (Hnd1 & Hdis & [Hpn Hnd2]%NoDup_cons).
  split_and!; [|congruence..|].
  - apply (dseg_ext (heap c2)); [|done]. intros y Hy. rewrite Hx5, Hp4, Hp3; [done|]. intros ->.
    apply elem_of_app in Hy as [Hy|Hy]; [|done]. apply (Hdis p Hy). by left.
  - apply NoDup_app. split_and!; [done| |done]. intros y Hy Hy2. apply (Hdis y Hy). by right.
Qed.

(** Removing a node that is not linked does nothing to the list. *)
Lemma lru_remove_new c p ps :
  lru_ok c ps -> p ∉ ps -> links (heap c) p = Some (None, None) ->
  exists c', lru_remove c p = Some c' /\ only_lru c c' /\ lru_ok c' ps /\
    links (heap c') p = Some (None, None).
Proof.
  intros (Hseg & Hh & Ht & Hnd) Hp Hl. pose proof Hl as (e & He & [= Hpv Hnx])%links_some.
  unfold lru_remove. rewrite He. simpl. rewrite <- Hpv, <- Hnx. simpl.
  rewrite decide_False; [rewrite decide_False|].
  - destruct (upd_detach c p _ Hl) as (c' & -> & Ho & Hh' & Ht' & Hl' & Hx).
    exists c'. split_and!; try done. split_and!; [|congruence..|done].
    apply (dseg_ext (heap c)); [|done]. intros y Hy. apply Hx. by intros ->.
  - rewrite Hh. intros Hhead. apply Hp. destruct ps; simplify_eq/=. by left.
  - replace (lru_tail _) with (last ps) by (by case_decide). intros Hlast. apply Hp. by apply last_Some_elem_of.
Qed.

(** The end of [lru_move_to_head]: an unlinked node becomes the first. *)
Lemma lru_push c p ps :
  lru_ok c ps -> p ∉ ps -> links (heap c) p = Some (None, None) ->
  exists c', (c ← upd p (set_next (lru_head c)) c;
    c ← match lru_head c with Some q => upd q (set_prev (Some p)) c | None => Some c end;
    let c := set_lru_head (Some p) c in
    Some (match lru_tail c with None => set_lru_tail (Some p) c | Some _ => c end)) = Some c' /\
    only_lru c c' /\ lru_ok c' (p :: ps).
Proof.
  intros (Hseg & Hh & Ht & Hnd) Hp Hl.
  destruct (upd_next c p (lru_head c) _ _ Hl) as (c1 & -> & Ho1 & Hh1 & Ht1 & Hl1 & Hx1). simpl.
  assert (Hseg1 : dseg (heap c1) None ps None)
    by (apply (dseg_ext (heap c)); [|done]; intros y Hy; apply Hx1; by intros ->).
  rewrite Hh1, Hh in *. destruct ps as [|q ps]; simpl.
  - eexists. split; [done|]. rewrite Ht1, Ht. split; [done|]. split_and!; simpl; [|done..|by apply NoDup_singleton].
    done.
  - pose proof Hseg1 as [Hlq Hrest].
    destruct (upd_prev c1 q (Some p) _ _ Hlq) as (c2 & -> & Ho2 & Hh2 & Ht2 & Hl2 & Hx2). simpl.
    eexists. split; [done|]. rewrite Ht2, Ht1, Ht, last_cons.
    apply not_elem_of_cons in Hp as [Hpq Hp]. pose proof Hnd as [Hq _]%NoDup_cons.
    assert (Ho : only_lru c c2) by (by eapply only_lru_trans).
    assert (Hs : dseg (heap c2) None (p :: q :: ps) None).
    { split; [by rewrite Hx2, Hl1|]. apply (dseg_set_prev (heap c1) _ None (Some p)); [done|done|].
      intros y Hy. apply Hx2. by intros ->. }
    assert (Hnd' : NoDup (p :: q :: ps)).
    { apply NoDup_cons. split; [by apply not_elem_of_cons|done]. }
    destruct (last ps) as [z|] eqn:Ez.
    + split; [done|]. split_and!; simpl; try done. by rewrite Ht2, Ht1, Ht, !last_cons, Ez.
    + split; [done|]. split_and!; simpl; try done. by rewrite Ht2, Ht1, Ht, !last_cons, Ez.
Qed.

Lemma lru_move_to_head_spec c l1 p l2 :
  lru_ok c (l1 ++ p :: l2) ->
  exists c', lru_move_to_head c p = Some c' /\ only_lru c c' /\ lru_ok c' (p :: l1 ++ l2).
Proof.
  intros Hok. unfold lru_move_to_head. case_decide as Hh.
  - exists c. split; [done|split; [done|]]. destruct Hok as (Hseg & Hhd & Ht & Hnd).
    destruct l1 as [|x l1]; [done|]. rewrite Hhd in Hh. injection Hh as ->.
    apply NoDup_cons in Hnd as [Hn _]. exfalso. apply Hn, elem_of_app. right. by left.
  - destruct (lru_remove_spec c l1 p l2 Hok) as (c1 & -> & Ho1 & Hok1 & Hl1).
    destruct (lru_push c1 p (l1 ++ l2) Hok1) as (c2 & Hc2 & Ho2 & Hok2);
      [|done|exists c2; split; [exact Hc2|eauto using only_lru_trans]].
    destruct Hok as (_ & _ & _ & (_ & Hd & [Hn _]%NoDup_cons)%NoDup_app).
    intros [Hin|Hin]%elem_of_app; [|done]. apply (Hd p Hin). by left.
Qed.

Lemma lru_move_new c p ps :
  lru_ok c ps -> p ∉ ps -> links (heap c) p = Some (None, None) ->
  exists c', lru_move_to_head c p = Some c' /\ only_lru c c' /\ lru_ok c' (p :: ps).
Proof.
  intros Hok Hp Hl. unfold lru_move_to_head. rewrite decide_False.
  - destruct (lru_remove_new c p ps Hok Hp Hl) as (c1 & -> & Ho1 & Hok1 & Hl1).
    destruct (lru_push c1 p ps Hok1 Hp Hl1) as (c2 & Hc2 & Ho2 & Hok2).
    exists c2. split; [exact Hc2|eauto using only_lru_trans].
  - destruct Hok as (_ & -> & _). intros Hhead. apply Hp. destruct ps; simplify_eq/=. by left.
Qed.

(** *** The bucket chains *)

Lemma chain_ext h h' start qs :
  (forall q, q ∈ qs -> hlink h' q = hlink h q) -> chain h start qs -> chain h' start qs.
Proof.
  revert start. induction qs as [|q qs IH]; intros start Hext; simpl; [done|].
  intros (-> & n & Hn & Hc). split; [done|]. exists n. split; [by rewrite Hext by (by left)|].
  apply IH; [|done]. intros x Hx. apply Hext. by right.
Qed.

Lemma bucket_find_spec h start qs k fuel :
  chain h start qs -> (length qs <= fuel)%nat -> (forall q, q ∈ qs -> is_Some (h !! q)) ->
  exists r, bucket_find_loop fuel h start k = Some r /\
  match r with
  | Some p => p ∈ qs /\ exists e, h !! p = Some e /\ key e = k
  | None => forall p e, p ∈ qs -> h !! p = Some e -> key e <> k
  end.
Proof.
  revert start fuel. induction qs as [|q qs IH]; intros start fuel; simpl.
  { intros -> _ _. exists None. split; [by destruct fuel|]. by intros p e ?%elem_of_nil. }
  intros (-> & n & Hn & Hc) Hlen Hl. destruct fuel as [|fuel]; [lia|]. simpl.
  unfold hlink in Hn. destruct (h !! q) as [e|] eqn:He; [|done]. injection Hn as <-. simpl.
  destruct (Z.eqb_spec (compare_func (key e) k) 0) as [Heq|Hne].
  { exists (Some q). split; [done|]. split; [by left|]. exists e. split; [done|]. by apply compare_eq. }
  destruct (IH (hnext e) fuel) as (r & -> & Hr); [done|lia|by intros; apply Hl; right|].
  exists r. split; [done|]. destruct r as [p|].
  - destruct Hr as [Hp Hr]. split; [by right|done].
  - intros p e' [->|Hp]%elem_of_cons He'; [|by eapply Hr].
    rewrite He in He'. injection He' as <-. rewrite <- compare_eq. done.
Qed.

(** What unlinking leaves alone: the other chains. *)
Definition chain_frame (idx : nat) (changed : nat -> Prop) (c c' : cache_impl) : Prop :=
  only_bucket c c' /\ length (buckets c') = length (buckets c) /\
  (forall j, j <> idx -> buckets c' !! j = buckets c !! j) /\
  (forall x, ~ changed x -> hlink (heap c') x = hlink (heap c) x).

Lemma link_write_spec c idx link old v :
  link_read c idx link = Some old ->
  exists c', link_write c idx link v = Some c' /\ link_read c' idx link = Some v /\
    chain_frame idx (fun x => Some x = link) c c' /\
    (link <> None -> buckets c' = buckets c).
Proof.
  unfold link_read, link_write, chain_frame, only_bucket. destruct link as [q|].
  - destruct (heap c !! q) as [e|] eqn:He; [|done]. intros _. unfold upd. rewrite He. simpl.
    eexists. split; [done|]. simpl. rewrite lookup_insert_eq. split; [done|].
    unfold data, links, hlink. split_and!; try done; intros x; (destruct (decide (x = q)) as [->|];
      [rewrite lookup_insert_eq, ?He|rewrite lookup_insert_ne by done]); try done.
  - intros Hold. eexists. split; [done|]. simpl.
    apply lookup_lt_Some in Hold. rewrite list_lookup_insert_eq by done.
    split_and!; try done; [by rewrite length_insert|intros j Hj; by rewrite list_lookup_insert_ne].
Qed.

Lemma bucket_unlink_loop_spec c idx p link start qs1 qs2 fuel :
  link_read c idx link = Some start -> chain (heap c) start (qs1 ++ p :: qs2) ->
  NoDup (qs1 ++ p :: qs2) -> (forall q, link = Some q -> q ∉ qs1 ++ p :: qs2) ->
  (length (qs1 ++ p :: qs2) <= fuel)%nat ->
  exists c', bucket_unlink_loop fuel c idx p link = Some c' /\
    chain_frame idx (fun x => Some x = link \/ x ∈ qs1) c c' /\
    (link <> None -> buckets c' = buckets c) /\
    exists start', link_read c' idx link = Some start' /\ chain (heap c') start' (qs1 ++ qs2).
Proof.
  revert link start fuel. induction qs1 as [|q qs1 IH]; intros link start fuel Hr Hc Hnd Hlink Hlen.
  - simpl in Hc. destruct Hc as (-> & n & Hn & Hc). destruct fuel as [|fuel]; [simpl in Hlen; lia|].
    simpl. rewrite Hr. simpl. rewrite decide_True by done.
    unfold hlink in Hn. destruct (heap c !! p) as [e|] eqn:He; [|done]. injection Hn as <-. simpl.
    destruct (link_write_spec c idx link _ (hnext e) Hr) as (c' & -> & Hr' & Hf & Hb).
    exists c'. split; [done|]. destruct Hf as (Ho & Hl & Hj & Hx).
    split; [split_and!; try done; intros x Hn; apply Hx; tauto|]. split; [done|].
    exists (hnext e). split; [done|]. apply (chain_ext (heap c)); [|done].
    intros x Hxq. apply Hx. intros Heq. apply (Hlink x); [done|by right].
  - simpl in Hc. destruct Hc as (-> & n & Hn & Hc). destruct fuel as [|fuel]; [simpl in Hlen; lia|].
    simpl in Hnd. apply NoDup_cons in Hnd as [Hq Hnd].
    assert (Hqp : q <> p) by (intros ->; apply Hq, elem_of_app; right; by left).
    cbn [bucket_unlink_loop]. rewrite Hr. cbn [mbind option_bind]. rewrite decide_False by done.
    destruct (IH (Some q) n fuel) as (c' & -> & Hf & Hb & start' & Hr' & Hc');
      [done|done|done|by intros ? [= <-]|simpl in Hlen; lia|].
    exists c'. split; [done|]. destruct Hf as (Ho & Hl & Hj & Hx).
    assert (Hfr : forall x, ~ (Some x = link \/ x ∈ q :: qs1) -> hlink (heap c') x = hlink (heap c) x).
    { intros x Hnx. apply Hx. rewrite elem_of_cons in Hnx. intros [[= ->]|]; tauto. }
    split; [by split_and!|]. split; [by intros _; apply Hb|].
    exists (Some q). split.
    + unfold link_read in *. destruct link as [z|]; [|by rewrite Hb].
      change (hlink (heap c') z = Some (Some q)). rewrite Hx; [done|].
      specialize (Hlink z eq_refl). intros [[= ->]|Hin]; apply Hlink; [by left|].
      right. apply elem_of_app. by left.
    + simpl. split; [done|]. by exists start'.
Qed.

(** *** The representation *)

(** The abstract cache: the bindings with their times, most recent first. *)
Record lru_state := LRU {
  l_entries : list (K * V * Z); l_capacity : Z; l_ttl : Z;
  l_hits : Z; l_misses : Z; l_evictions : Z;
}.

Definition ent_key (x : K * V * Z) : K := x.1.1.

(** The entries of bucket [i]. *)
Definition bucket_ok (c : cache_impl) (ps : list nat) (i : nat) (qs : list nat) : Prop :=
  (exists start, buckets c !! i = Some start /\ chain (heap c) start qs) /\ NoDup qs /\
  forall p, p ∈ qs <-> p ∈ ps /\ exists x, data (heap c) p = Some x /\ Z.to_nat (hash_func (ent_key x)) = i.

(** The pointers [ps] hold the bindings [l], in order; [n] is the size field. *)
Record rep_list (c : cache_impl) (ps : list nat) (l : list (K * V * Z)) : Prop := {
  rl_lru : lru_ok c ps;
  rl_data : Forall2 (fun p x => data (heap c) p = Some x) ps l;
  rl_dom : forall p, is_Some (heap c !! p) -> p ∈ ps;
  rl_buckets : forall i, (i < HASH_SIZE)%nat -> exists qs, bucket_ok c ps i qs;
  rl_length : length (buckets c) = HASH_SIZE;
  rl_keys : NoDup (map ent_key l);
}.

Record cache_rep (c : cache_impl) (s : lru_state) : Prop := {
  cr_list : exists ps, rep_list c ps (l_entries s);
  cr_size : size c = Z.of_nat (length (l_entries s));
  cr_capacity : capacity c = l_capacity s;
  cr_ttl : ttl_sec c = l_ttl s;
  cr_hits : hits c = l_hits s;
  cr_misses : misses c = l_misses s;
  cr_evictions : evictions c = l_evictions s;
}.

Lemma hash_index k : (Z.to_nat (hash_func k) < HASH_SIZE)%nat.
Proof. pose proof (hash_range k). lia. Qed.

Lemma rep_dom_length c ps l : rep_list c ps l -> (length ps <= base.size (heap c))%nat.
Proof.
  intros [(Hseg & _ & _ & Hnd) _ _ _ _ _].
  rewrite <- (size_dom (heap c)). rewrite <- (size_list_to_set (C:=gset nat) ps Hnd).
  apply subseteq_size. intros p Hp. apply elem_of_list_to_set in Hp. apply elem_of_dom.
  destruct (dseg_links _ _ _ _ _ Hseg Hp) as (x & y & (e & -> & _)%links_some). done.
Qed.

Lemma rep_bucket_length c ps l i qs :
  rep_list c ps l -> bucket_ok c ps i qs -> (length qs <= base.size (heap c))%nat.
Proof.
  intros Hrep (_ & Hnd & Hin). etrans; [|by eapply rep_dom_length].
  rewrite <- (size_list_to_set (C:=gset nat) qs Hnd).
  destruct Hrep as [(_ & _ & _ & Hndp) _ _ _ _ _]. rewrite <- (size_list_to_set (C:=gset nat) ps Hndp).
  apply subseteq_size. intros p Hp. apply elem_of_list_to_set in Hp. apply elem_of_list_to_set.
  by apply Hin.
Qed.

Lemma data_some h p x :
  data h p = Some x -> exists e, h !! p = Some e /\ x = (key e, value e, timestamp e).
Proof. unfold data. destruct (h !! p) as [e|]; simpl; [|done]. intros [= <-]. eauto. Qed.

Lemma rep_find c ps l k :
  rep_list c ps l ->
  exists r, bucket_find c (Z.to_nat (hash_func k)) k = Some r /\
  match r with
  | Some p => exists ps1 ps2 l1 l2 v t, ps = ps1 ++ p :: ps2 /\ l = l1 ++ (k, v, t) :: l2 /\
      length ps1 = length l1 /\ data (heap c) p = Some (k, v, t)
  | None => k ∉ map ent_key l
  end.
Proof.
  intros Hrep. destruct (rl_buckets _ _ _ Hrep _ (hash_index k)) as [qs Hb].
  pose proof (rep_bucket_length _ _ _ _ _ Hrep Hb) as Hlen.
  destruct Hb as ((start & Hs & Hc) & Hnd & Hin). unfold bucket_find. rewrite Hs. cbn [mbind option_bind].
  destruct (bucket_find_spec (heap c) start qs k (walk_fuel c)) as (r & -> & Hr);
    [done|unfold walk_fuel; lia| |].
  { intros q (_ & x & (e & -> & _)%data_some & _)%Hin. done. }
  exists r. split; [done|]. destruct Hrep as [_ Hd _ _ _ _]. destruct r as [p|].
  - destruct Hr as (Hp & e & He & Hk). apply Hin in Hp as (Hp & _).
    apply list_elem_of_split in Hp as (ps1 & ps2 & ->).
    apply Forall2_app_inv_l in Hd as (l1 & l' & Hd1 & Hd2 & ->).
    inversion Hd2 as [|? x ? l2 Hx Hd3]; subst.
    destruct (data_some _ _ _ Hx) as (e' & He' & ->). assert (e' = e) as -> by congruence.
    exists ps1, ps2, l1, l2, (value e), (timestamp e).
    split_and!; [done|done|by eapply Forall2_length|done].
  - intros (x & Hk & Hx)%list_elem_of_fmap. apply list_elem_of_lookup_1 in Hx as [i Hi].
    destruct (Forall2_lookup_r _ _ _ _ _ Hd Hi) as (p & Hp & Hpx).
    destruct (data_some _ _ _ Hpx) as (e & He & ->). apply (Hr p e); [|done|by rewrite Hk].
    apply Hin. split; [by eapply list_elem_of_lookup_2|]. eexists. split; [done|]. by rewrite <- Hk.
Qed.

Lemma rep_unlink c ps1 p ps2 l x :
  rep_list c (ps1 ++ p :: ps2) l -> data (heap c) p = Some x ->
  exists c', bucket_unlink c (Z.to_nat (hash_func (ent_key x))) p = Some c' /\ only_bucket c c' /\
    length (buckets c') = HASH_SIZE /\
    forall i, (i < HASH_SIZE)%nat -> exists qs, bucket_ok c' (ps1 ++ ps2) i qs.
Proof.
  intros Hrep Hx. set (idx := Z.to_nat (hash_func (ent_key x))).
  assert (Hp : p ∈ ps1 ++ p :: ps2) by (apply elem_of_app; right; by left).
  assert (Hnd : NoDup (ps1 ++ p :: ps2)) by apply Hrep.
  assert (Hmem : forall y, y ∈ ps1 ++ ps2 <-> y ∈ ps1 ++ p :: ps2 /\ y <> p).
  { intros y. by apply elem_of_remove_middle. }
  destruct (rl_buckets _ _ _ Hrep idx (hash_index _)) as [qs Hb].
  pose proof (rep_bucket_length _ _ _ _ _ Hrep Hb) as Hlen.
  destruct Hb as ((start & Hs & Hc) & Hndq & Hin).
  assert (Hpq : p ∈ qs) by (apply Hin; eauto).
  apply list_elem_of_split in Hpq as (qs1 & qs2 & ->).
  destruct (bucket_unlink_loop_spec c idx p None start qs1 qs2 (walk_fuel c))
    as (c' & Hu & (Ho & Hl & Hj & Hf) & _ & start' & Hr' & Hc'); [done|done|done|done|unfold walk_fuel; lia|].
  exists c'. split; [done|]. split; [done|]. split; [rewrite Hl; apply Hrep|].
  pose proof Ho as (Hdat & _). intros i Hi. destruct (decide (i = idx)) as [->|Hne].
  - exists (qs1 ++ qs2). split; [by exists start'|].
    split; [by eapply NoDup_remove_middle|].
    intros y. rewrite (elem_of_remove_middle qs1 qs2 p y Hndq), Hmem, Hdat, Hin. tauto.
  - destruct (rl_buckets _ _ _ Hrep i Hi) as [qs ((st & Hst & Hcq) & Hndi & Hini)].
    exists qs. split.
    + exists st. split; [by rewrite Hj|]. apply (chain_ext (heap c)); [|done].
      intros y Hy. apply Hf. intros [|Hy1]; [done|].
      assert (y ∈ qs1 ++ p :: qs2) as (_ & z & Hz & Hzi)%Hin by (apply elem_of_app; by left).
      apply Hini in Hy as (_ & z' & Hz' & Hzi'). congruence.
    + split; [done|]. intros y. rewrite Hmem, Hdat, Hini. split; [|tauto].
      intros (Hy & z & Hz & Hzi). split; [split; [done|]|eauto]. intros ->. apply Hne. unfold idx. congruence.
Qed.

(** Fields neither container holds. *)
Definition same_scalars (c c' : cache_impl) : Prop :=
  capacity c' = capacity c /\ ttl_sec c' = ttl_sec c /\ hits c' = hits c /\
  misses c' = misses c /\ evictions c' = evictions c.

Lemma bucket_ok_ext c c' ps ps' i qs :
  buckets c' = buckets c -> (forall p, p ∈ ps -> data (heap c') p = data (heap c) p) ->
  (forall p, p ∈ ps -> hlink (heap c') p = hlink (heap c) p) ->
  (forall p, p ∈ ps' <-> p ∈ ps) -> bucket_ok c ps i qs -> bucket_ok c' ps' i qs.
Proof.
  intros Hb Hd Hl Hps ((start & Hs & Hc) & Hnd & Hin). split; [|split; [done|]].
  - exists start. split; [by rewrite Hb|]. apply (chain_ext (heap c)); [|done].
    intros q Hq. apply Hl. by apply Hin.
  - intros p. rewrite Hin, Hps. split; intros (Hp & x & Hx & Hi); (split; [done|]); exists x;
      (split; [|done]); [by rewrite Hd|by rewrite <- Hd].
Qed.

Lemma Forall2_data_ext h h' (ps : list nat) (l : list (K * V * Z)) :
  (forall p, p ∈ ps -> data h' p = data h p) ->
  Forall2 (fun p x => data h p = Some x) ps l -> Forall2 (fun p x => data h' p = Some x) ps l.
Proof.
  intros Hd H. induction H as [|p x ps l Hp H IH]; constructor; [by rewrite Hd by (by left)|].
  apply IH. intros q Hq. apply Hd. by right.
Qed.

Lemma is_Some_data (h : gmap nat cache_entry) p : is_Some (h !! p) <-> is_Some (data h p).
Proof. unfold data. by rewrite fmap_is_Some. Qed.

Lemma Forall2_middle {A B} (P : A -> B -> Prop) l1 x l2 k1 y k2 :
  length l1 = length k1 -> Forall2 P (l1 ++ x :: l2) (k1 ++ y :: k2) ->
  Forall2 P l1 k1 /\ P x y /\ Forall2 P l2 k2.
Proof.
  intros Hl H. apply Forall2_app_inv in H as [H1 H2]; [|done].
  inversion H2; subst. done.
Qed.

(** Reaping an entry removes its binding. *)
Lemma rep_reap c ps1 p ps2 l1 x l2 :
  rep_list c (ps1 ++ p :: ps2) (l1 ++ x :: l2) -> length ps1 = length l1 ->
  exists c', entry_reap c (Z.to_nat (hash_func (ent_key x))) p = Some c' /\
    rep_list c' (ps1 ++ ps2) (l1 ++ l2) /\ same_scalars c c' /\ size c' = u64 (size c - 1).
Proof.
  intros Hrep Hlen. destruct (Forall2_middle _ _ _ _ _ _ _ Hlen (rl_data _ _ _ Hrep)) as (Hd1 & Hx & Hd2).
  unfold entry_reap.
  destruct (rep_unlink c ps1 p ps2 _ x Hrep Hx) as (c1 & -> & Ho1 & Hl1 & Hb1). cbn [mbind option_bind].
  pose proof Ho1 as (Hdat1 & Hlk1 & Hhd1 & Htl1 & Hsc1).
  assert (Hok1 : lru_ok c1 (ps1 ++ p :: ps2)).
  { destruct (rl_lru _ _ _ Hrep) as (Hs & Hh & Ht & Hnd). split_and!; [|congruence..|done].
    by apply (dseg_ext (heap c)). }
  destruct (lru_remove_spec c1 ps1 p ps2 Hok1) as (c2 & -> & Ho2 & Hok2 & Hlp). cbn [mbind option_bind].
  pose proof Ho2 as (Hdat2 & Hlk2 & Hbk2 & Hsc2). unfold cache_entry_free.
  pose proof Hlp as (e & He & _)%links_some. rewrite He. cbn [mbind option_bind].
  eexists. split; [done|].
  pose proof (NoDup_remove_middle _ _ _ (proj2 (proj2 (proj2 Hok1)))) as Hnd'.
  assert (Hne : forall q, q ∈ ps1 ++ ps2 -> q <> p)
    by (intros q Hq; eapply elem_of_remove_middle; [apply Hok1|done]).
  split; [|unfold same_scalars; simpl; intuition congruence].
  split; simpl.
  - destruct Hok2 as (Hs & Hh & Ht & _). split_and!; simpl; try done. apply (dseg_ext (heap c2)); [|done].
    intros q Hq. unfold links. by rewrite lookup_delete_ne by (symmetry; auto).
  - apply (Forall2_data_ext (heap c)); [|by apply Forall2_app].
    intros q Hq. rewrite <- Hdat1, <- Hdat2. unfold data. by rewrite lookup_delete_ne by (symmetry; auto).
  - intros q Hq. apply lookup_delete_is_Some in Hq as [Hqp Hq].
    apply (elem_of_remove_middle _ _ p); [apply Hok1|]. split; [|done].
    apply (rl_dom _ _ _ Hrep), is_Some_data. rewrite <- Hdat1, <- Hdat2. by apply is_Some_data.
  - intros i Hi. destruct (Hb1 i Hi) as [qs Hqs]. exists qs.
    eapply bucket_ok_ext; [| | | |exact Hqs]; simpl; [done| | |done]; intros q Hq; unfold data, hlink;
      (rewrite lookup_delete_ne by (symmetry; auto)); [apply Hdat2|apply Hlk2].
  - by rewrite Hbk2.
  - pose proof (rl_keys _ _ _ Hrep) as Hk. rewrite map_app in Hk |- *. simpl in Hk.
    by eapply NoDup_remove_middle.
Qed.

Lemma rep_move c ps1 p ps2 l1 x l2 :
  rep_list c (ps1 ++ p :: ps2) (l1 ++ x :: l2) -> length ps1 = length l1 ->
  exists c', lru_move_to_head c p = Some c' /\ only_lru c c' /\
    rep_list c' (p :: ps1 ++ ps2) (x :: l1 ++ l2).
Proof.
  intros [Hok Hd Hdom Hb Hl Hk] Hlen.
  destruct (lru_move_to_head_spec c ps1 p ps2 Hok) as (c' & -> & Ho & Hok').
  exists c'. split; [done|split; [done|]]. pose proof Ho as (Hdat & Hlk & Hbk & _).
  assert (Hmem : forall q, q ∈ p :: ps1 ++ ps2 <-> q ∈ ps1 ++ p :: ps2).
  { intros q. rewrite elem_of_cons, !elem_of_app, elem_of_cons. tauto. }
  split; [done| | | |by rewrite Hbk|].
  - apply Forall2_middle in Hd as (Hd1 & Hx & Hd2); [|done].
    apply (Forall2_data_ext (heap c)); [by intros; apply Hdat|]. constructor; [done|by apply Forall2_app].
  - intros q Hq. apply Hmem, Hdom, is_Some_data. rewrite <- Hdat. by apply is_Some_data.
  - intros i Hi. destruct (Hb i Hi) as [qs Hqs]. exists qs.
    by eapply bucket_ok_ext; [exact Hbk|by intros; apply Hdat|by intros; apply Hlk|exact Hmem|].
  - rewrite map_app in Hk. simpl in *. rewrite map_app.
    apply NoDup_cons. split; [|by eapply NoDup_remove_middle].
    intros Hin. eapply elem_of_remove_middle in Hin; [|exact Hk]. by destruct Hin.
Qed.

(** The new entry at the head of its bucket. *)
Lemma bucket_push c ps l p e :
  rep_list c ps l -> heap c !! p = None -> hnext e = None ->
  let idx := Z.to_nat (hash_func (key e)) in
  exists b, buckets c !! idx = Some b /\
  let c' := set_buckets (<[idx := Some p]> (buckets c))
              (set_heap (<[p := set_hnext b e]> (heap c)) c) in
  forall i, (i < HASH_SIZE)%nat -> exists qs, bucket_ok c' (p :: ps) i qs.
Proof.
  intros Hrep Hp He idx.
  destruct (lookup_lt_is_Some_2 (buckets c) idx) as [b Hb]; [rewrite (rl_length _ _ _ Hrep); apply hash_index|].
  exists b. split; [done|]. intros c' i Hi.
  destruct (rl_buckets _ _ _ Hrep i Hi) as [qs ((st & Hst & Hc) & Hnd & Hin)].
  assert (Hnp : p ∉ qs).
  { intros (_ & x & (e' & He' & _)%data_some & _)%Hin. congruence. }
  assert (Hpp : p ∉ ps).
  { intros Hpp. destruct (dseg_links _ _ _ _ _ (proj1 (rl_lru _ _ _ Hrep)) Hpp) as (? & ? & (e' & He' & _)%links_some).
    congruence. }
  assert (Hc' : chain (heap c') st qs).
  { apply (chain_ext (heap c)); [|done]. intros q Hq. unfold hlink. simpl.
    rewrite lookup_insert_ne; [done|]. by intros ->. }
  assert (Hdat : forall q, q <> p -> data (heap c') q = data (heap c) q).
  { intros q Hq. unfold data. simpl. by rewrite lookup_insert_ne by done. }
  assert (Hdp : data (heap c') p = Some (key e, value e, timestamp e)).
  { unfold data. simpl. by rewrite lookup_insert_eq. }
  destruct (decide (i = idx)) as [->|Hne].
  - exists (p :: qs). split; [|split; [by apply NoDup_cons|]].
    + exists (Some p). simpl. rewrite list_lookup_insert_eq by (by eapply lookup_lt_Some).
      split; [done|]. split; [done|]. exists st. split; [|done].
      unfold hlink. rewrite lookup_insert_eq. simpl. congruence.
    + intros q. rewrite !elem_of_cons. destruct (decide (q = p)) as [->|Hqp].
      * rewrite Hdp. split; [intros _|by left]. split; [by left|]. by eexists.
      * rewrite Hdat, Hin by done. tauto.
  - exists qs. split; [|split; [done|]].
    + exists st. simpl. by rewrite list_lookup_insert_ne by done.
    + intros q. rewrite elem_of_cons. destruct (decide (q = p)) as [->|Hqp].
      * split; [done|]. intros (_ & x & Hx & Hxi). rewrite Hdp in Hx. injection Hx as <-. done.
      * rewrite Hdat, Hin by done. tauto.
Qed.

Lemma rep_insert c ps l p k v now :
  rep_list c ps l -> heap c !! p = None -> k ∉ map ent_key l ->
  let idx := Z.to_nat (hash_func k) in
  let c1 := set_heap (<[p := Entry k v now None None None]> (heap c)) c in
  exists b c', buckets c1 !! idx = Some b /\
    (c2 ← upd p (set_hnext b) c1;
     lru_move_to_head (set_buckets (<[idx := Some p]> (buckets c2)) c2) p) = Some c' /\
    rep_list c' (p :: ps) ((k, v, now) :: l) /\ same_scalars c c' /\ size c' = size c.
Proof.
  intros Hrep Hp Hk idx c1.
  destruct (bucket_push c ps l p (Entry k v now None None None) Hrep Hp eq_refl) as (b & Hb & Hbk).
  assert (Hu : upd p (set_hnext b) c1 = Some (set_heap (<[p := Entry k v now None None b]> (heap c)) c)).
  { unfold upd, c1. simpl. rewrite lookup_insert_eq. simpl. by rewrite insert_insert_eq. }
  exists b. rewrite Hu.
  set (c2 := set_buckets (<[idx := Some p]> (buckets c))
    (set_heap (<[p := Entry k v now None None b]> (heap c)) c)).
  assert (Hpp : p ∉ ps).
  { intros Hpp. destruct (dseg_links _ _ _ _ _ (proj1 (rl_lru _ _ _ Hrep)) Hpp) as (? & ? & (e' & He' & _)%links_some).
    congruence. }
  assert (Hext : forall q, q ∈ ps -> heap c2 !! q = heap c !! q).
  { intros q Hq. simpl. rewrite lookup_insert_ne; [done|]. by intros ->. }
  assert (Hok2 : lru_ok c2 ps).
  { destruct (rl_lru _ _ _ Hrep) as (Hs & Hh & Ht & Hnd). split_and!; try done.
    apply (dseg_ext (heap c)); [|done]. intros q Hq. unfold links. by rewrite Hext. }
  destruct (lru_move_new c2 p ps Hok2 Hpp) as (c' & Hc' & Ho & Hok');
    [unfold links; simpl; by rewrite lookup_insert_eq|].
  exists c'. split; [done|]. split; [exact Hc'|]. pose proof Ho as (Hdat & Hlk & Hbk' & Hsc).
  split; [|unfold same_scalars; simpl in Hsc; intuition congruence].
  split; [done| | | | |].
  - constructor; [rewrite Hdat; unfold data; simpl; by rewrite lookup_insert_eq|].
    apply (Forall2_data_ext (heap c)); [|apply Hrep]. intros q Hq. rewrite Hdat. unfold data. by rewrite Hext.
  - intros q Hq. apply is_Some_data in Hq. rewrite Hdat in Hq. apply is_Some_data in Hq. simpl in Hq.
    destruct (decide (q = p)) as [->|Hqp]; [by left|]. rewrite lookup_insert_ne in Hq by done.
    right. by apply (rl_dom _ _ _ Hrep).
  - intros i Hi. destruct (Hbk i Hi) as [qs Hqs]. exists qs.
    eapply bucket_ok_ext; [exact Hbk'|by intros; apply Hdat|by intros; apply Hlk|done|exact Hqs].
  - rewrite Hbk'. simpl. rewrite length_insert. apply Hrep.
  - simpl. apply NoDup_cons. split; [done|apply Hrep].
Qed.

Lemma rep_length c ps l : rep_list c ps l -> length ps = length l.
Proof. intros H. eapply Forall2_length, H. Qed.

Lemma rep_evict c ps l x :
  rep_list c ps (l ++ [x]) ->
  exists c' ps', evict_lru c = Some c' /\ rep_list c' ps' l /\ size c' = u64 (size c - 1) /\
    capacity c' = capacity c /\ ttl_sec c' = ttl_sec c /\ hits c' = hits c /\ misses c' = misses c /\
    evictions c' = u64 (evictions c + 1).
Proof.
  intros Hrep. pose proof (rep_length _ _ _ Hrep) as Hlen. rewrite length_app in Hlen. simpl in Hlen.
  destruct ps as [|p ps _] using rev_ind; [simpl in Hlen; lia|].
  rewrite length_app in Hlen. simpl in Hlen.
  pose proof (rl_lru _ _ _ Hrep) as (_ & _ & Ht & _). rewrite last_snoc in Ht.
  unfold evict_lru. rewrite Ht.
  destruct (Forall2_middle _ ps p [] l x [] ltac:(lia) (rl_data _ _ _ Hrep)) as (_ & Hx & _).
  destruct (data_some _ _ _ Hx) as (e & He & ->). rewrite He. cbn [mbind option_bind].
  change (key e) with (ent_key (key e, value e, timestamp e)).
  destruct (rep_reap c ps p [] l _ [] Hrep ltac:(lia)) as (c' & -> & Hrep' & Hsc & Hsz).
  rewrite !app_nil_r in Hrep'. cbn [mbind option_bind].
  destruct Hsc as (H1 & H2 & H3 & H4 & H5).
  eexists _, ps. split; [done|]. simpl. split; [|by rewrite H5].
  destruct Hrep' as [Hok Hd Hdom Hb Hl Hk]. by split.
Qed.

Lemma rep_evict_loop c ps l fuel :
  rep_list c ps l -> size c = Z.of_nat (length l) -> 0 <= capacity c -> size c < 2 ^ 64 ->
  (length l <= fuel)%nat ->
  exists c' ps', evict_loop fuel c = Some c' /\ rep_list c' ps' (take (Z.to_nat (capacity c)) l) /\
    size c' = Z.of_nat (length (take (Z.to_nat (capacity c)) l)) /\
    capacity c' = capacity c /\ ttl_sec c' = ttl_sec c /\ hits c' = hits c /\ misses c' = misses c /\
    evictions c' = Nat.iter (length l - Z.to_nat (capacity c)) (fun n => u64 (n + 1)) (evictions c).
Proof.
  revert c ps l. induction fuel as [|fuel IH]; intros c ps l Hrep Hsz Hcap Hb Hf; simpl;
    destruct (Z.ltb_spec (capacity c) (size c)) as [Hlt|Hge].
  - lia.
  - exists c, ps. rewrite take_ge by lia. replace (length l - Z.to_nat (capacity c))%nat with 0%nat by lia. done.
  - destruct l as [|x l _] using rev_ind; [simpl in Hsz; lia|].
    rewrite length_app in Hsz, Hf. simpl in Hsz, Hf.
    destruct (rep_evict c ps l x Hrep) as (c1 & ps1 & -> & Hrep1 & Hs1 & Hc1 & Ht1 & Hh1 & Hm1 & He1). simpl.
    rewrite u64_small in Hs1 by lia.
    destruct (IH c1 ps1 l) as (c2 & ps2 & Hev & Hrep2 & Hs2 & Hc2 & Ht2 & Hh2 & Hm2 & He2);
      [done|lia|lia|lia|lia|].
    rewrite Hc1 in *. exists c2, ps2. rewrite take_app_le by lia.
    split_and!; try done; try congruence.
    rewrite He2, He1, length_app. simpl.
    replace (length l + 1 - Z.to_nat (capacity c))%nat with (S (length l - Z.to_nat (capacity c))) by lia.
    by rewrite Nat.iter_succ_r.
  - exists c, ps. rewrite take_ge by lia. replace (length l - Z.to_nat (capacity c))%nat with 0%nat by lia. done.
Qed.

(** *** Draining *)

Lemma drain_bucket_spec h start qs fuel :
  chain h start qs -> NoDup qs -> (length qs <= fuel)%nat ->
  (forall q, q ∈ qs -> is_Some (h !! q)) ->
  exists h', drain_bucket fuel h start = Some h' /\
    (forall q, q ∈ qs -> h' !! q = None) /\ (forall q, q ∉ qs -> h' !! q = h !! q).
Proof.
  revert h start fuel. induction qs as [|q qs IH]; intros h start fuel; simpl.
  { intros -> _ _ _. exists h. split; [by destruct fuel|]. split; [by intros q ?%elem_of_nil|done]. }
  intros (-> & n & Hn & Hc) [Hq Hnd]%NoDup_cons Hlen Hl. destruct fuel as [|fuel]; [lia|]. simpl.
  unfold hlink in Hn. destruct (h !! q) as [e|] eqn:He; [|done]. injection Hn as <-. simpl.
  destruct (IH (delete q h) (hnext e) fuel) as (h' & -> & Hin & Hout).
  - apply (chain_ext h); [|done]. intros x Hx. unfold hlink. rewrite lookup_delete_ne; [done|]. by intros ->.
  - done.
  - lia.
  - intros x Hx. rewrite lookup_delete_ne; [apply Hl; by right|]. by intros ->.
  - exists h'. split; [done|]. split.
    + intros x [->|Hx]%elem_of_cons; [|by apply Hin]. rewrite Hout by done. by rewrite lookup_delete_eq.
    + intros x [Hx Hx']%not_elem_of_cons. rewrite Hout by done. by rewrite lookup_delete_ne by done.
Qed.

Lemma chain_size h start qs :
  chain h start qs -> NoDup qs -> (length qs <= base.size h)%nat.
Proof.
  intros Hc Hnd. rewrite <- (size_dom h), <- (size_list_to_set (C:=gset nat) qs Hnd).
  apply subseteq_size. intros q Hq. apply elem_of_list_to_set in Hq. apply elem_of_dom.
  clear Hnd. revert start Hc Hq. induction qs as [|x qs IH]; intros start Hc Hq; [by apply elem_of_nil in Hq|].
  destruct Hc as (-> & n & Hn & Hc). apply elem_of_cons in Hq as [->|Hq]; [|by eapply IH].
  unfold hlink in Hn. by destruct (h !! x).
Qed.

Lemma drain_loop_spec bs (qss : list (list nat)) h :
  Forall2 (fun b qs => chain h b qs /\ NoDup qs) bs qss ->
  (forall i j qi qj p, qss !! i = Some qi -> qss !! j = Some qj -> p ∈ qi -> p ∈ qj -> i = j) ->
  exists h', drain_loop h bs = Some h' /\ forall p, is_Some (h' !! p) ->
    is_Some (h !! p) /\ forall i qs, qss !! i = Some qs -> p ∉ qs.
Proof.
  intros Hc. revert h Hc. revert qss. induction bs as [|b bs IH]; intros qss h Hc Hdis.
  { exists h. split; [done|]. intros p Hp. split; [done|]. inversion Hc; subst. by intros [] qs. }
  inversion Hc as [|? qs ? qss' [Hb Hnd] Hrest]; subst. cbn [drain_loop].
  pose proof (chain_size _ _ _ Hb Hnd) as Hsz.
  destruct (drain_bucket_spec h b qs (S (base.size h))) as (h1 & -> & Hin & Hout); [done|done|lia| |].
  { intros q Hq. clear -Hb Hq. revert b Hb. induction qs as [|x qs IHq]; intros b Hb; [by apply elem_of_nil in Hq|].
    destruct Hb as (-> & n & Hn & Hb). apply elem_of_cons in Hq as [->|Hq]; [|by eapply IHq].
    unfold hlink in Hn. by destruct (h !! x). }
  cbn [mbind option_bind].
  destruct (IH qss' h1) as (h' & -> & Hh').
  - apply Forall2_same_length_lookup. split; [by eapply Forall2_length|]. intros i b' qs' Hb' Hqs'.
    destruct (Forall2_lookup_lr _ _ _ _ _ _ Hrest Hb' Hqs') as [Hch Hn]. split; [|done].
    apply (chain_ext h); [|done]. intros q Hq. unfold hlink. rewrite Hout; [done|].
    intros Hq0. specialize (Hdis 0%nat (S i) qs qs' q eq_refl Hqs' Hq0 Hq). lia.
  - intros i j qi qj p Hi Hj Hpi Hpj. specialize (Hdis (S i) (S j) qi qj p Hi Hj Hpi Hpj). lia.
  - exists h'. split; [done|]. intros p Hp. destruct (Hh' p Hp) as [Hp1 Hn].
    destruct (decide (p ∈ qs)) as [Hpq|Hpq]; [rewrite Hin in Hp1 by done; by destruct Hp1|].
    rewrite Hout in Hp1 by done. split; [done|]. intros [|i] qs' Hi; simpl in Hi; [congruence|by eapply Hn].
Qed.

(** ** The specification: a bounded list ordered by use *)

Fixpoint lru_find (k : K) (l : list (K * V * Z)) : option (V * Z) :=
  match l with
  | [] => None
  | (k', v, t) :: l' => if decide (k' = k) then Some (v, t) else lru_find k l'
  end.

Definition remove_key (k : K) (l : list (K * V * Z)) : list (K * V * Z) :=
  filter (fun x => ent_key x <> k) l.

(** The entries beyond the capacity are evicted, the least recent first. *)
Definition lru_trim (s : lru_state) : lru_state :=
  LRU (take (Z.to_nat (l_capacity s)) (l_entries s)) (l_capacity s) (l_ttl s) (l_hits s) (l_misses s)
    (Nat.iter (length (l_entries s) - Z.to_nat (l_capacity s)) (fun n => u64 (n + 1)) (l_evictions s)).

Definition set_entries (l : list (K * V * Z)) (s : lru_state) : lru_state :=
  LRU l (l_capacity s) (l_ttl s) (l_hits s) (l_misses s) (l_evictions s).
Definition lru_hit (s : lru_state) : lru_state :=
  LRU (l_entries s) (l_capacity s) (l_ttl s) (u64 (l_hits s + 1)) (l_misses s) (l_evictions s).
Definition lru_miss (s : lru_state) : lru_state :=
  LRU (l_entries s) (l_capacity s) (l_ttl s) (l_hits s) (u64 (l_misses s + 1)) (l_evictions s).

Definition expired (s : lru_state) (now t : Z) : bool := (0 <? l_ttl s) && (l_ttl s <? now - t).

Definition lru_get (s : lru_state) (k : K) (now : Z) (copy_ok : bool) : Z * option V * lru_state :=
  match lru_find k (l_entries s) with
  | None => (0, None, lru_miss s)
  | Some (v, t) =>
      if expired s now t then (0, None, lru_miss (set_entries (remove_key k (l_entries s)) s))
      else (1, if copy_ok then Some v else None,
            lru_hit (set_entries ((k, v, t) :: remove_key k (l_entries s)) s))
  end.

Definition lru_put (s : lru_state) (k : K) (v : option V) (now : Z) (a : alloc_env) : lru_state :=
  if l_capacity s =? 0 then s
  else
    let l := remove_key k (l_entries s) in
    lru_trim (set_entries
      (match v with
       | Some v => if entry_ok a && key_ok a && value_ok a then (k, v, now) :: l else l
       | None => l
       end) s).

Inductive cache_op :=
| CGet (k : K) (now : Z) (copy_ok : bool)
| CPut (k : K) (v : V) (now : Z) (a : alloc_env)
| CDelete (k : K)
| CClear
| CSetCapacity (n : Z)
| CSetTtl (n : Z)
| CStats.

Inductive cache_res :=
| RUnit | RGet (code : Z) (v : option V) | RStats (entries cap hits misses evicted : Z).

Definition cache_call (c : cache_impl) (op : cache_op) : option (cache_res * cache_impl) :=
  match op with
  | CGet k now copy_ok => '(code, v, c) ← cache_get c (Some k) now copy_ok; Some (RGet code v, c)
  | CPut k v now a => c ← cache_put c (Some k) (Some v) now a; Some (RUnit, c)
  | CDelete k => c ← cache_delete c (Some k); Some (RUnit, c)
  | CClear => c ← cache_clear c; Some (RUnit, c)
  | CSetCapacity n => c ← cache_set_capacity c n; Some (RUnit, c)
  | CSetTtl n => Some (RUnit, cache_set_ttl c n)
  | CStats => let '(n, cap, h, m, e, _) := cache_get_stats c in Some (RStats n cap h m e, c)
  end.

Definition lru_call (s : lru_state) (op : cache_op) : cache_res * lru_state :=
  match op with
  | CGet k now copy_ok => let '(code, v, s) := lru_get s k now copy_ok in (RGet code v, s)
  | CPut k v now a => (RUnit, lru_put s k (Some v) now a)
  | CDelete k => (RUnit, lru_put s k None 0 (AllocEnv true true true))
  | CClear => (RUnit, set_entries [] s)
  | CSetCapacity n => (RUnit, lru_trim (LRU (l_entries s) n (l_ttl s) (l_hits s) (l_misses s) (l_evictions s)))
  | CSetTtl n => (RUnit, LRU (l_entries s) (l_capacity s) n (l_hits s) (l_misses s) (l_evictions s))
  | CStats => (RStats (Z.of_nat (length (l_entries s))) (l_capacity s) (l_hits s) (l_misses s) (l_evictions s), s)
  end.

Fixpoint cache_run (c : cache_impl) (ops : list cache_op) : option (list cache_res * cache_impl) :=
  match ops with
  | [] => Some ([], c)
  | op :: ops' => '(r, c) ← cache_call c op; '(rs, c) ← cache_run c ops'; Some (r :: rs, c)
  end.

Fixpoint lru_run (s : lru_state) (ops : list cache_op) : list cache_res * lru_state :=
  match ops with
  | [] => ([], s)
  | op :: ops' => let (r, s) := lru_call s op in let (rs, s) := lru_run s ops' in (r :: rs, s)
  end.

(** Capacities a 64-bit size can exceed by one. *)
Definition capacity_ok (n : Z) : Prop := 0 <= n < 2 ^ 64 - 1.
Definition op_capacity_ok (op : cache_op) : Prop :=
  match op with CSetCapacity n => capacity_ok n | _ => True end.

(** ** The refinement *)

Hypothesis malloc_fresh : forall h, h !! malloc h = None.

Lemma lru_find_middle k v t l1 l2 :
  NoDup (map ent_key (l1 ++ (k, v, t) :: l2)) ->
  lru_find k (l1 ++ (k, v, t) :: l2) = Some (v, t) /\ remove_key k (l1 ++ (k, v, t) :: l2) = l1 ++ l2.
Proof.
  rewrite map_app. simpl. intros Hnd. unfold remove_key.
  assert (Hno : forall l, k ∉ map ent_key l -> filter (fun x => ent_key x <> k) l = l).
  { induction l as [|x l IH]; intros Hx; [done|]. simpl in Hx. apply not_elem_of_cons in Hx as [Hx Hl].
    rewrite filter_cons_True by done. f_equal. auto. }
  apply NoDup_app in Hnd as (_ & Hd & [Hk _]%NoDup_cons).
  assert (Hk1 : k ∉ map ent_key l1) by (intros Hin; apply (Hd k Hin); by left).
  rewrite filter_app, filter_cons_False, !Hno by (done || tauto). split; [|done].
  clear -Hk1. induction l1 as [|[[k' v'] t'] l1 IH]; simpl; [by rewrite decide_True|].
  simpl in Hk1. apply not_elem_of_cons in Hk1 as [Hne Hk1]. rewrite decide_False by done. auto.
Qed.

Lemma lru_find_none k l : k ∉ map ent_key l -> lru_find k l = None /\ remove_key k l = l.
Proof.
  unfold remove_key. induction l as [|[[k' v] t] l IH]; intros Hk; [done|].
  simpl in Hk. apply not_elem_of_cons in Hk as [Hne Hk]. destruct (IH Hk) as [H1 H2]. simpl.
  rewrite decide_False by done. rewrite filter_cons_True by done. split; [done|by f_equal].
Qed.

Lemma rep_ext c c' ps l :
  heap c' = heap c -> buckets c' = buckets c -> lru_head c' = lru_head c -> lru_tail c' = lru_tail c ->
  rep_list c ps l -> rep_list c' ps l.
Proof.
  intros Hh Hb Hhd Htl [(Hs & H1 & H2 & H3) Hd Hdom Hbk Hl Hk].
  split; try congruence; rewrite ?Hh; try done.
  - split_and!; [by rewrite Hh|congruence..|done].
  - intros i Hi. destruct (Hbk i Hi) as [qs Hqs]. exists qs. unfold bucket_ok. by rewrite Hh, Hb.
Qed.

Lemma cache_get_refines c s k now copy_ok :
  cache_rep c s -> 0 <= l_capacity s < 2 ^ 64 - 1 -> Z.of_nat (length (l_entries s)) <= l_capacity s ->
  exists c', cache_get c (Some k) now copy_ok = Some ((lru_get s k now copy_ok).1, c') /\
    cache_rep c' (lru_get s k now copy_ok).2.
Proof.
  intros [[ps Hrep] Hsz Hcap Httl Hh Hm He] Hc Hle. unfold cache_get, lru_get.
  destruct (rep_find c ps _ k Hrep) as (r & -> & Hr). cbn [mbind option_bind]. destruct r as [p|].
  - destruct Hr as (ps1 & ps2 & l1 & l2 & v & t & -> & Hl & Hlen & Hx). rewrite Hl in *.
    destruct (lru_find_middle k v t l1 l2 (rl_keys _ _ _ Hrep)) as [-> ->].
    destruct (data_some _ _ _ Hx) as (e & He' & [= Hk Hv Ht]). rewrite He'. cbn [mbind option_bind].
    unfold expired. rewrite Httl, <- Ht. rewrite length_app in *. simpl in *.
    destruct ((0 <? l_ttl s) && (l_ttl s <? now - t)).
    + change (hash_func k) with (hash_func (ent_key (k, v, t))).
      destruct (rep_reap c ps1 p ps2 l1 _ l2 Hrep Hlen) as (c' & -> & Hrep' & (H1 & H2 & H3 & H4 & H5) & Hsz').
      simpl. rewrite u64_small in Hsz' by lia. eexists. split; [done|].
      split; simpl; try congruence; [|rewrite length_app; lia].
      exists (ps1 ++ ps2). by eapply rep_ext; [..|exact Hrep'].
    + destruct (rep_move c ps1 p ps2 l1 _ l2 Hrep Hlen) as (c' & -> & Ho & Hrep'). simpl.
      destruct Ho as (_ & _ & _ & H1 & H2 & H3 & H4 & H5 & H6). eexists. split; [by rewrite Hv|].
      split; simpl; try congruence; [|rewrite length_app; lia].
      eexists. by eapply rep_ext; [..|exact Hrep'].
  - destruct (lru_find_none k _ Hr) as [-> _]. simpl. eexists. split; [done|].
    split; simpl; try congruence. exists ps. by eapply rep_ext; [..|exact Hrep].
Qed.

(** The part of [cache_put] that removes the old binding. *)
Lemma put_remove c ps l k :
  rep_list c ps l -> size c = Z.of_nat (length l) -> size c < 2 ^ 64 ->
  exists c' ps', (existing ← bucket_find c (Z.to_nat (hash_func k)) k;
      match existing with Some p => entry_reap c (Z.to_nat (hash_func k)) p | None => Some c end) = Some c' /\
    rep_list c' ps' (remove_key k l) /\ same_scalars c c' /\
    size c' = Z.of_nat (length (remove_key k l)) /\ k ∉ map ent_key (remove_key k l).
Proof.
  intros Hrep Hsz Hb. destruct (rep_find c ps _ k Hrep) as (r & -> & Hr). cbn [mbind option_bind].
  assert (Hno : k ∉ map ent_key (remove_key k l)).
  { intros (x & Hk & [Hne _]%list_elem_of_filter)%list_elem_of_fmap. congruence. }
  destruct r as [p|].
  - destruct Hr as (ps1 & ps2 & l1 & l2 & v & t & -> & -> & Hlen & Hx).
    destruct (lru_find_middle k v t l1 l2 (rl_keys _ _ _ Hrep)) as [_ Hrm]. rewrite Hrm in *.
    change (hash_func k) with (hash_func (ent_key (k, v, t))).
    destruct (rep_reap c ps1 p ps2 l1 _ l2 Hrep Hlen) as (c' & -> & Hrep' & Hsc & Hsz').
    exists c', (ps1 ++ ps2). rewrite length_app in Hsz. simpl in Hsz. rewrite u64_small in Hsz' by lia.
    split_and!; try done. rewrite length_app. lia.
  - exists c, ps. destruct (lru_find_none k _ Hr) as [_ Hrm]. rewrite Hrm in *. done.
Qed.

(** The part that stores the new one. *)
Lemma put_insert c ps l k v now a :
  rep_list c ps l -> size c = Z.of_nat (length l) -> size c < 2 ^ 64 - 1 -> k ∉ map ent_key l ->
  let l' := match v with
            | Some v => if entry_ok a && key_ok a && value_ok a then (k, v, now) :: l else l
            | None => l
            end in
  exists c' ps', match v with
      | None => Some c
      | Some v =>
          match cache_entry_create c k v now a with
          | None => Some c
          | Some (p, c) =>
              b ← buckets c !! Z.to_nat (hash_func k);
              c ← upd p (set_hnext b) c;
              let c := set_buckets (<[Z.to_nat (hash_func k) := Some p]> (buckets c)) c in
              c ← lru_move_to_head c p;
              Some (set_size (u64 (size c + 1)) c)
          end
      end = Some c' /\ rep_list c' ps' l' /\ same_scalars c c' /\ size c' = Z.of_nat (length l').
Proof.
  intros Hrep Hsz Hb Hk l'. unfold l'. clear l'. destruct v as [v|]; [|by exists c, ps].
  unfold cache_entry_create.
  destruct (entry_ok a); simpl; [|by exists c, ps]. destruct (key_ok a); simpl; [|by exists c, ps].
  destruct (value_ok a); simpl; [|by exists c, ps].
  destruct (rep_insert c ps l (malloc (heap c)) k v now Hrep (malloc_fresh _) Hk)
    as (b & c' & Hbk & Hc' & Hrep' & Hsc & Hsz').
  simpl in Hbk. rewrite Hbk. cbn [mbind option_bind].
  match type of Hc' with context [upd ?p ?f ?c1] => destruct (upd p f c1) as [c2|] eqn:Hu end; [|done].
  cbn [mbind option_bind] in Hc' |- *. rewrite Hc'. simpl.
  eexists _, (malloc (heap c) :: ps). split; [done|]. split; [by eapply rep_ext; [..|exact Hrep']|].
  split; [done|]. simpl. rewrite Hsz', u64_small; lia.
Qed.

Lemma remove_key_length k (l : list (K * V * Z)) : (length (remove_key k l) <= length l)%nat.
Proof. apply length_filter. Qed.

Lemma cache_put_refines c s k v now a :
  cache_rep c s -> 0 <= l_capacity s < 2 ^ 64 - 1 -> Z.of_nat (length (l_entries s)) <= l_capacity s ->
  exists c', cache_put c (Some k) v now a = Some c' /\ cache_rep c' (lru_put s k v now a).
Proof.
  intros [[ps Hrep] Hsz Hcap Httl Hh Hm He] Hc Hle. unfold cache_put, lru_put. rewrite Hcap.
  destruct (l_capacity s =? 0); [exists c; split; [done|]; split; eauto|].
  destruct (put_remove c ps _ k Hrep Hsz) as (c1 & ps1 & Hc1 & Hrep1 & Hsc1 & Hsz1 & Hk1); [lia|].
  destruct (bucket_find c (Z.to_nat (hash_func k)) k) as [existing|]; [|done].
  cbn [mbind option_bind] in Hc1 |- *. rewrite Hc1. cbn [mbind option_bind].
  pose proof (remove_key_length k (l_entries s)) as Hrl.
  destruct (put_insert c1 ps1 _ k v now a Hrep1 Hsz1) as (c2 & ps2 & Hc2 & Hrep2 & Hsc2 & Hsz2); [lia|done|].
  destruct Hsc1 as (A1 & A2 & A3 & A4 & A5), Hsc2 as (B1 & B2 & B3 & B4 & B5).
  set (l' := match v with
    | Some v => if entry_ok a && key_ok a && value_ok a
                then (k, v, now) :: remove_key k (l_entries s) else remove_key k (l_entries s)
    | None => remove_key k (l_entries s)
    end) in *.
  assert (Hl' : Z.of_nat (length l') <= l_capacity s + 1)
    by (unfold l'; destruct v; [destruct (_ && _)|]; cbn [length]; lia).
  destruct (rep_evict_loop c2 ps2 l' (Z.to_nat (size c2)) Hrep2 Hsz2)
    as (c3 & ps3 & Hev & Hrep3 & Hsz3 & Hcap3 & Httl3 & Hh3 & Hm3 & He3); [lia..|].
  exists c3. split; [exact (eq_trans (f_equal (fun x => x ≫= evict_all) Hc2) Hev)|].
  clear Hc1 Hc2. replace (capacity c2) with (l_capacity s) in * by congruence.
  split; simpl; try congruence. by exists ps3.
Qed.

Lemma cache_set_capacity_refines c s n :
  cache_rep c s -> capacity_ok n -> Z.of_nat (length (l_entries s)) < 2 ^ 64 ->
  exists c', cache_set_capacity c n = Some c' /\ cache_rep c' (lru_call s (CSetCapacity n)).2.
Proof.
  intros [[ps Hrep] Hsz Hcap Httl Hh Hm He] Hn Hle. unfold cache_set_capacity, evict_all.
  unfold capacity_ok in Hn.
  destruct (rep_evict_loop (set_capacity n c) ps (l_entries s) (Z.to_nat (size c)))
    as (c3 & ps3 & Hev & Hrep3 & Hsz3 & Hcap3 & Httl3 & Hh3 & Hm3 & He3);
    [by eapply rep_ext; [..|exact Hrep]|done|simpl; lia..|].
  exists c3. split; [exact Hev|]. simpl in *. split; simpl; try congruence. by exists ps3.
Qed.

Lemma bucket_choice c ps l n :
  rep_list c ps l -> (n <= HASH_SIZE)%nat ->
  exists qss, length qss = n /\ forall i qs, qss !! i = Some qs -> bucket_ok c ps i qs.
Proof.
  intros Hrep. induction n as [|n IH]; intros Hn; [by exists []|].
  destruct IH as (qss & Hl & Hqs); [lia|]. destruct (rl_buckets _ _ _ Hrep n) as [q Hq]; [lia|].
  exists (qss ++ [q]). rewrite length_app. split; [simpl; lia|]. intros i qs Hi.
  apply lookup_app_Some in Hi as [Hi|[Hle Hi]]; [by apply Hqs|].
  apply list_lookup_singleton_Some in Hi as [Hi ->]. by replace i with n by lia.
Qed.

Lemma rep_empty cap n ttl h m e :
  rep_list (Cache ∅ (replicate HASH_SIZE None) None None cap n ttl h m e) [] [].
Proof.
  split; cbn [heap buckets].
  - split_and!; try done. apply NoDup_nil_2.
  - constructor.
  - intros p [x Hpx]. by rewrite lookup_empty in Hpx.
  - intros i Hi. exists []. split; [|split; [apply NoDup_nil_2|]].
    + exists None. cbn [buckets]. split; [by apply lookup_replicate_2|done].
    + intros p. split; [by intros ?%elem_of_nil|by intros [?%elem_of_nil _]].
  - by rewrite length_replicate.
  - apply NoDup_nil_2.
Qed.

Lemma cache_drain_refines c s :
  cache_rep c s -> exists c', cache_drain c = Some c' /\ heap c' = ∅ /\ cache_rep c' (set_entries [] s).
Proof.
  intros [[ps Hrep] Hsz Hcap Httl Hh Hm He]. unfold cache_drain.
  destruct (bucket_choice c ps _ HASH_SIZE Hrep ltac:(done)) as (qss & Hlen & Hqs).
  destruct (drain_loop_spec (buckets c) qss (heap c)) as (h' & -> & Hh').
  - apply Forall2_same_length_lookup. split; [by rewrite Hlen, (rl_length _ _ _ Hrep)|].
    intros i b qs Hb Hi. destruct (Hqs i qs Hi) as ((st & Hst & Hch) & Hnd & _).
    rewrite Hb in Hst. injection Hst as ->. done.
  - intros i j qi qj p Hi Hj Hpi Hpj.
    apply (Hqs _ _ Hi) in Hpi as (_ & x & Hx & <-). apply (Hqs _ _ Hj) in Hpj as (_ & y & Hy & <-). congruence.
  - assert (h' = ∅) as ->.
    { apply map_empty. intros p. apply eq_None_not_Some. intros Hp.
      destruct (Hh' p Hp) as [[e Hpe] Hn].
      assert (Hps : p ∈ ps) by (apply (rl_dom _ _ _ Hrep); eauto).
      destruct (lookup_lt_is_Some_2 qss (Z.to_nat (hash_func (key e)))) as [qs Hi];
        [rewrite Hlen; apply hash_index|].
      apply (Hn _ _ Hi). apply (Hqs _ _ Hi). split; [done|]. unfold data. rewrite Hpe. simpl. by eexists. }
    cbn [mbind option_bind]. eexists. split; [done|]. split; [done|].
    split; [exists []; apply rep_empty|done..].
Qed.

(** Never more bindings than the capacity. *)
Definition lru_ok_state (s : lru_state) : Prop :=
  0 <= l_capacity s < 2 ^ 64 - 1 /\ Z.of_nat (length (l_entries s)) <= l_capacity s.

Lemma lru_trim_ok s : 0 <= l_capacity s < 2 ^ 64 - 1 -> lru_ok_state (lru_trim s).
Proof. intros H. split; [done|]. simpl. rewrite length_take. lia. Qed.

Lemma lru_find_length k l v t :
  lru_find k l = Some (v, t) -> (length (remove_key k l) < length l)%nat.
Proof.
  induction l as [|[[k' v'] t'] l IH]; simpl; [done|]. unfold remove_key. case_decide as Hk.
  - intros _. rewrite filter_cons_False by (simpl; tauto). pose proof (remove_key_length k l).
    unfold remove_key in *. lia.
  - intros H. rewrite filter_cons_True by done. simpl. apply IH in H. unfold remove_key in H. lia.
Qed.

Lemma lru_call_ok s op : lru_ok_state s -> op_capacity_ok op -> lru_ok_state (lru_call s op).2.
Proof.
  intros [Hc Hl] Hop. destruct op as [k now cp|k v now a|k| |n|n|]; simpl.
  - unfold lru_get. destruct (lru_find k (l_entries s)) as [[v t]|] eqn:Hf; simpl; [|done].
    apply lru_find_length in Hf. destruct (expired s now t); split; simpl; try done; lia.
  - unfold lru_put. destruct (_ =? _); [done|]. by apply lru_trim_ok.
  - unfold lru_put. destruct (_ =? _); [done|]. by apply lru_trim_ok.
  - split; [done|]. simpl. lia.
  - by apply (lru_trim_ok (LRU _ n _ _ _ _)).
  - done.
  - done.
Qed.

Lemma cache_call_refines c s op :
  cache_rep c s -> lru_ok_state s -> op_capacity_ok op ->
  exists c', cache_call c op = Some ((lru_call s op).1, c') /\ cache_rep c' (lru_call s op).2.
Proof.
  intros Hrep [Hc Hl] Hop. destruct op as [k now cp|k v now a|k| |n|n|]; unfold cache_call.
  - destruct (cache_get_refines c s k now cp Hrep Hc Hl) as (c' & Hg & Hrep'). rewrite Hg. simpl.
    destruct (lru_get s k now cp) as [[code v] s']. eauto.
  - destruct (cache_put_refines c s k (Some v) now a Hrep Hc Hl) as (c' & -> & Hrep'). eauto.
  - destruct (cache_put_refines c s k None 0 (AllocEnv true true true) Hrep Hc Hl) as (c' & Hd & Hrep').
    unfold cache_delete. rewrite Hd. eauto.
  - destruct (cache_drain_refines c s Hrep) as (c' & Hd & _ & Hrep'). unfold cache_clear. rewrite Hd. eauto.
  - destruct (cache_set_capacity_refines c s n Hrep Hop) as (c' & -> & Hrep'); [lia|]. eauto.
  - eexists. split; [done|]. destruct Hrep as [[ps Hr] ? ? ? ? ? ?]. split; simpl; try done.
    exists ps. by eapply rep_ext; [..|exact Hr].
  - exists c. split; [|done]. destruct Hrep as [_ Hs Hcp _ Hh Hm He]. simpl. by rewrite Hs, Hcp, Hh, Hm, He.
Qed.

Lemma cache_run_refines c s ops :
  cache_rep c s -> lru_ok_state s -> Forall op_capacity_ok ops ->
  exists c', cache_run c ops = Some ((lru_run s ops).1, c') /\ cache_rep c' (lru_run s ops).2 /\
    lru_ok_state (lru_run s ops).2.
Proof.
  intros Hrep Hok Hops. revert c s Hrep Hok. induction Hops as [|op ops Hop Hops IH]; intros c s Hrep Hok.
  { exists c. done. }
  destruct (cache_call_refines c s op Hrep Hok Hop) as (c1 & Hc1 & Hrep1).
  pose proof (lru_call_ok s op Hok Hop) as Hok1. cbn [cache_run lru_run]. rewrite Hc1. cbn [mbind option_bind].
  destruct (lru_call s op) as [r s1]. simpl in *.
  destruct (IH c1 s1 Hrep1 Hok1) as (c2 & -> & Hrep2 & Hok2). simpl.
  destruct (lru_run s1 ops) as [rs s2]. eauto.
Qed.

Lemma cache_create_rep cfg c :
  cache_create cfg true true = Some c ->
  cache_rep c (LRU [] (cfg_capacity cfg) (cfg_ttl_sec cfg) 0 0 0).
Proof. intros [= <-]. split; [exists []; apply rep_empty|done..]. Qed.

(** ** How long a binding is kept *)

Definition touches (op : cache_op) : list K :=
  match op with CGet k _ _ | CPut k _ _ _ | CDelete k => [k] | _ => [] end.

(** Gets, puts and deletions. *)
Definition is_access (op : cache_op) : bool :=
  match op with CGet _ _ _ | CPut _ _ _ _ | CDelete _ | CStats => true | _ => false end.

Definition distinct (l : list K) : nat := length (remove_dups l).

(** [k] is bound, and the bindings more recent than it are for keys of [T]. *)
Definition kept (k : K) (v : V) (t : Z) (T : list K) (s : lru_state) : Prop :=
  exists pre post, l_entries s = pre ++ (k, v, t) :: post /\ NoDup (map ent_key (l_entries s)) /\
    forall x, x ∈ map ent_key pre -> x ∈ T.

Lemma distinct_length pre (T : list K) :
  NoDup (map ent_key pre) -> (forall x, x ∈ map ent_key pre -> x ∈ T) -> (length pre <= distinct T)%nat.
Proof.
  intros Hnd Hsub. unfold distinct. rewrite <- (length_map ent_key pre).
  apply submseteq_length, NoDup_submseteq; [done|]. intros x Hx. apply elem_of_remove_dups. auto.
Qed.

Lemma NoDup_remove_key k (l : list (K * V * Z)) :
  NoDup (map ent_key l) -> NoDup (map ent_key (remove_key k l)).
Proof.
  unfold remove_key. induction l as [|x l IH]; [done|]. simpl. intros [Hx Hnd]%NoDup_cons.
  rewrite filter_cons. case_decide; [|auto]. simpl. apply NoDup_cons. split; [|auto].
  intros (y & Hk & [_ Hy]%list_elem_of_filter)%list_elem_of_fmap. apply Hx.
  rewrite Hk. by apply list_elem_of_fmap_2.
Qed.

Lemma remove_key_not_in k (l : list (K * V * Z)) : k ∉ map ent_key (remove_key k l).
Proof. intros (x & Hk & [Hne _]%list_elem_of_filter)%list_elem_of_fmap. congruence. Qed.

Lemma NoDup_app_l {A} (l1 l2 : list A) : NoDup (l1 ++ l2) -> NoDup l1.
Proof. by intros [? _]%NoDup_app. Qed.

(** Removing another key keeps the binding. *)
Lemma kept_remove k v t T s k' l :
  kept k v t T s -> k' <> k -> l = remove_key k' (l_entries s) ->
  kept k v t T (set_entries l s).
Proof.
  intros (pre & post & Hl & Hnd & Hpre) Hne ->. exists (remove_key k' pre), (remove_key k' post). simpl.
  split_and!.
  - rewrite Hl. unfold remove_key. rewrite filter_app, filter_cons_True; [done|]. by apply not_eq_sym.
  - by apply NoDup_remove_key.
  - intros x (y & Hk & [_ Hy]%list_elem_of_filter)%list_elem_of_fmap. apply Hpre.
    rewrite Hk. by apply list_elem_of_fmap_2.
Qed.

Lemma kept_cons k v t T s x :
  kept k v t T s -> ent_key x ∉ map ent_key (l_entries s) -> ent_key x ∈ T ->
  kept k v t T (set_entries (x :: l_entries s) s).
Proof.
  intros (pre & post & Hl & Hnd & Hpre) Hx HxT. exists (x :: pre), post. simpl.
  split_and!; [by rewrite Hl|by apply NoDup_cons|].
  intros y [->|Hy]%elem_of_cons; auto.
Qed.

Lemma kept_trim k v t T s :
  kept k v t T s -> Z.of_nat (distinct T) < l_capacity s -> kept k v t T (lru_trim s).
Proof.
  intros (pre & post & Hl & Hnd & Hpre) Hcap.
  assert (Hlen : (length pre <= distinct T)%nat).
  { apply distinct_length; [|done]. rewrite Hl, map_app in Hnd. by eapply NoDup_app_l. }
  exists pre, (take (Z.to_nat (l_capacity s) - length pre - 1) post). simpl. split_and!; [| |done].
  - rewrite Hl, take_app_ge by lia. f_equal.
    replace (Z.to_nat (l_capacity s) - length pre)%nat
      with (S (Z.to_nat (l_capacity s) - length pre - 1)) by lia.
    cbn [take]. do 3 f_equal. lia.
  - rewrite <- (take_drop (Z.to_nat (l_capacity s)) (l_entries s)), map_app in Hnd. by eapply NoDup_app_l.
Qed.

Lemma kept_put k v t T s k' v' now a :
  kept k v t T s -> k' <> k -> k' ∈ T -> Z.of_nat (distinct T) < l_capacity s ->
  kept k v t T (lru_put s k' v' now a).
Proof.
  intros Hk Hne HT Hcap. unfold lru_put. destruct (_ =? _); [done|]. apply kept_trim; [|done].
  pose proof (kept_remove k v t T s k' _ Hk Hne eq_refl) as Hr.
  destruct v' as [v'|]; [|done]. destruct (_ && _); [|done].
  apply (kept_cons _ _ _ _ _ (k', v', now)) in Hr; [done|simpl; apply remove_key_not_in|done].
Qed.

Lemma kept_call k v t T s op :
  kept k v t T s -> is_access op = true -> (forall x, x ∈ touches op -> x <> k /\ x ∈ T) ->
  Z.of_nat (distinct T) < l_capacity s -> kept k v t T (lru_call s op).2.
Proof.
  intros Hk Hacc Ht Hcap. destruct op as [k' now cp|k' v' now a|k'| |n|n|]; try done; simpl in *.
  - destruct (Ht k') as [Hne HT]; [by left|].
    unfold lru_get. destruct (lru_find k' (l_entries s)) as [[v' t']|]; [|done].
    pose proof (kept_remove k v t T s k' _ Hk Hne eq_refl) as Hr. destruct (expired s now t'); [done|].
    apply (kept_cons _ _ _ _ _ (k', v', t')) in Hr; [done|simpl; apply remove_key_not_in|done].
  - destruct (Ht k') as [Hne HT]; [by left|]. by apply kept_put.
  - destruct (Ht k') as [Hne HT]; [by left|]. by apply kept_put.
Qed.

Lemma access_config s op :
  is_access op = true ->
  l_capacity (lru_call s op).2 = l_capacity s /\ l_ttl (lru_call s op).2 = l_ttl s.
Proof.
  intros Hacc. destruct op as [k' now cp|k' v' now a|k'| |n|n|]; try done; simpl.
  - unfold lru_get. destruct (lru_find _ _) as [[]|]; [|done]. by destruct (expired _ _ _).
  - unfold lru_put. by destruct (_ =? _).
  - unfold lru_put. by destruct (_ =? _).
Qed.

Lemma kept_run k v t T s ops :
  kept k v t T s -> forallb is_access ops = true ->
  (forall x, x ∈ ops ≫= touches -> x <> k /\ x ∈ T) -> Z.of_nat (distinct T) < l_capacity s ->
  kept k v t T (lru_run s ops).2 /\ l_ttl (lru_run s ops).2 = l_ttl s.
Proof.
  revert s. induction ops as [|op ops IH]; intros s Hk Hacc Ht Hcap; [done|].
  simpl in Hacc. apply andb_true_iff in Hacc as [Hop Hacc]. cbn [lru_run].
  pose proof (access_config s op Hop) as [Hc Hl].
  assert (Hk1 : kept k v t T (lru_call s op).2).
  { apply kept_call; try done. intros x Hx. apply Ht. simpl. apply elem_of_app. by left. }
  destruct (lru_call s op) as [r s1]. simpl in *.
  destruct (IH s1) as [Hk2 Hl2]; [done|done| |by rewrite Hc|].
  { intros x Hx. apply Ht, elem_of_app. by right. }
  destruct (lru_run s1 ops). simpl in *. split; [done|congruence].
Qed.

Lemma rep_heap_size c ps l : rep_list c ps l -> base.size (heap c) = length l.
Proof.
  intros Hrep. rewrite <- (rep_length _ _ _ Hrep). apply Nat.le_antisymm; [|by eapply rep_dom_length].
  rewrite <- (size_dom (heap c)).
  rewrite <- (size_list_to_set (C:=gset nat) ps) by apply Hrep.
  apply subseteq_size. intros p Hp. apply elem_of_list_to_set, (rl_dom _ _ _ Hrep). by apply elem_of_dom.
Qed.

Lemma lru_run_app s ops1 ops2 :
  lru_run s (ops1 ++ ops2) =
  let (rs1, s1) := lru_run s ops1 in let (rs2, s2) := lru_run s1 ops2 in (rs1 ++ rs2, s2).
Proof.
  revert s. induction ops1 as [|op ops1 IH]; intros s; simpl; [by destruct (lru_run s ops2)|].
  destruct (lru_call s op) as [r s1]. rewrite IH. destruct (lru_run s1 ops1) as [rs1 s2].
  by destruct (lru_run s2 ops2).
Qed.

Lemma rep_kept_put c s k v t a :
  cache_rep c s -> 0 < l_capacity s -> entry_ok a && key_ok a && value_ok a = true ->
  kept k v t [] (lru_put s k (Some v) t a).
Proof.
  intros [[ps Hrep] _ _ _ _ _ _] Hcap Ha. unfold lru_put.
  destruct (Z.eqb_spec (l_capacity s) 0); [lia|]. rewrite Ha. apply kept_trim; [|done].
  exists [], (remove_key k (l_entries s)). simpl. split_and!; [done| |by intros x ?%elem_of_nil].
  apply NoDup_cons. split; [apply remove_key_not_in|]. apply NoDup_remove_key, Hrep.
Qed.

Lemma kept_weaken k v t T T' s : kept k v t T s -> (forall x, x ∈ T -> x ∈ T') -> kept k v t T' s.
Proof. intros (pre & post & Hl & Hnd & Hpre) HT. exists pre, post. auto. Qed.

Lemma kept_get k v t T s now :
  kept k v t T s -> expired s now t = false -> (lru_get s k now true).1 = (1, Some v).
Proof.
  intros (pre & post & Hl & Hnd & _) He. unfold lru_get. rewrite Hl in *.
  destruct (lru_find_middle k v t pre post Hnd) as [-> _]. by rewrite He.
Qed.

(** ** Properties *)

(** C4: over every sequence of operations, with every choice of addresses by
    the allocator and every failure of the copies, the cache never reads or
    frees an entry that is not allocated, every walk ends, and its answers are
    those of the bounded list ordered by use; destroying it then frees every
    entry. *)
Theorem cache_refines_lru cfg ops c :
  capacity_ok (cfg_capacity cfg) -> Forall op_capacity_ok ops -> cache_create cfg true true = Some c ->
  let s := lru_run (LRU [] (cfg_capacity cfg) (cfg_ttl_sec cfg) 0 0 0) ops in
  exists c', cache_run c ops = Some (s.1, c') /\ cache_rep c' s.2 /\ cache_destroy (Some c') = Some ∅.
Proof.
  intros Hcap Hops Hc s. unfold capacity_ok in Hcap.
  destruct (cache_run_refines c _ ops (cache_create_rep cfg c Hc)) as (c' & Hrun & Hrep & _);
    [split; simpl; lia|done|].
  exists c'. split_and!; [done|done|].
  destruct (cache_drain_refines c' _ Hrep) as (c2 & Hd & Hh & _). simpl. by rewrite Hd, <- Hh.
Qed.

(** At every moment the size field is the number of entries allocated, and
    it does not exceed the capacity, also after the capacity is lowered. *)
Theorem cache_size_bounded cfg ops c rs c' :
  capacity_ok (cfg_capacity cfg) -> Forall op_capacity_ok ops -> cache_create cfg true true = Some c ->
  cache_run c ops = Some (rs, c') ->
  size c' = Z.of_nat (base.size (heap c')) /\ size c' <= capacity c'.
Proof.
  intros Hcap Hops Hc Hrun. unfold capacity_ok in Hcap.
  destruct (cache_run_refines c _ ops (cache_create_rep cfg c Hc)) as (c2 & Hrun2 & Hrep & _ & Hle);
    [split; simpl; lia|done|].
  rewrite Hrun in Hrun2. injection Hrun2 as -> <-. destruct Hrep as [[ps Hrep] Hsz Hcp _ _ _ _].
  rewrite (rep_heap_size _ _ _ Hrep). split; [done|lia].
Qed.

(** A binding stored in the cache is found again as long as fewer distinct
    other keys than the capacity were accessed since, whatever the accesses
    and their order, and it has not expired. *)
Theorem cache_keeps_recent cfg ops c rs1 c1 k v t a ops2 now rs c' :
  capacity_ok (cfg_capacity cfg) -> Forall op_capacity_ok ops -> cache_create cfg true true = Some c ->
  cache_run c ops = Some (rs1, c1) -> 0 < capacity c1 ->
  entry_ok a && key_ok a && value_ok a = true ->
  forallb is_access ops2 = true -> k ∉ ops2 ≫= touches ->
  Z.of_nat (distinct (ops2 ≫= touches)) < capacity c1 ->
  ttl_sec c1 <= 0 \/ now - t <= ttl_sec c1 ->
  cache_run c1 (CPut k v t a :: ops2 ++ [CGet k now true]) = Some (rs, c') ->
  last rs = Some (RGet 1 (Some v)).
Proof.
  intros Hcap Hops Hc Hrun1 Hpos Ha Hacc Hk Hd Httl Hrun. unfold capacity_ok in Hcap.
  destruct (cache_run_refines c _ ops (cache_create_rep cfg c Hc)) as (c1' & Hrun1' & Hrep1 & Hok1);
    [split; simpl; lia|done|].
  rewrite Hrun1 in Hrun1'. injection Hrun1' as Hrs <-. set (s1 := (lru_run _ ops).2) in *.
  assert (Hacc' : forall l, forallb is_access l = true -> Forall op_capacity_ok l).
  { induction l as [|op l IH]; intros Hl; constructor; simpl in Hl; apply andb_true_iff in Hl as [Hop Hl];
      [by destruct op|auto]. }
  destruct (cache_run_refines c1 s1 (CPut k v t a :: ops2 ++ [CGet k now true]) Hrep1 Hok1)
    as (c2 & Hrun2 & _); [apply Hacc'; simpl; rewrite forallb_app, Hacc; done|].
  rewrite Hrun in Hrun2. injection Hrun2 as -> _.
  rewrite (cr_capacity _ _ Hrep1) in Hpos, Hd. rewrite (cr_ttl _ _ Hrep1) in Httl.
  pose proof (rep_kept_put c1 s1 k v t a Hrep1 Hpos Ha) as Hkept.
  assert (Hcfg : l_capacity (lru_put s1 k (Some v) t a) = l_capacity s1 /\
    l_ttl (lru_put s1 k (Some v) t a) = l_ttl s1) by (by apply (access_config s1 (CPut k v t a))).
  cbn [lru_run lru_call]. set (s2 := lru_put s1 k (Some v) t a) in *. destruct Hcfg as [Hc2 Ht2].
  destruct (kept_run k v t (ops2 ≫= touches) s2 ops2) as [Hkept2 Httl2];
    [by eapply kept_weaken; [|intros x ?%elem_of_nil]|done|
     intros x Hx; split; [by intros ->|done]|by rewrite Hc2|].
  rewrite lru_run_app. destruct (lru_run s2 ops2) as [rs2 s3]. cbn [lru_run lru_call fst snd] in *.
  assert (He : expired s3 now t = false).
  { unfold expired. rewrite Httl2, Ht2. apply andb_false_iff. rewrite !Z.ltb_ge. lia. }
  pose proof (kept_get _ _ _ _ _ now Hkept2 He) as Hg.
  destruct (lru_get s3 k now true) as [[code o] s4]. simpl in Hg. injection Hg as -> ->. simpl.
  rewrite last_cons, last_snoc. done.
Qed.

End cache.

(** ** The string cache *)

(** [*str++] is a signed [char]. *)
Fixpoint cache_string_hash_from (h : Z) (str : cstr) : Z :=
  match str with
  | [] => h
  | b :: str' => cache_string_hash_from (u32 (u32 (Z.shiftl h 5) + h + s8 b)) str'
  end.

Definition cache_string_hash (str : cstr) : Z := cache_string_hash_from 5381 str mod Z.of_nat HASH_SIZE.

(** [strcmp]: the difference at the first place where the strings differ, the
    terminating NUL included. *)
Fixpoint cache_string_compare (a b : cstr) : Z :=
  match a, b with
  | [], [] => 0
  | [], y :: _ => - y
  | x :: _, [] => x
  | x :: a', y :: b' => if x =? y then cache_string_compare a' b' else x - y
  end.

(** Strings of non-NUL bytes. *)
Definition c_string : Type := { s : cstr | forallb (fun b => (0 <? b) && (b <? 256)) s = true }.

#[export] Instance c_string_eq_dec : EqDecision c_string.
Proof.
  intros [a Ha] [b Hb]. destruct (decide (a = b)) as [->|Hne].
  - left. f_equal. apply (Eqdep_dec.UIP_dec bool_dec).
  - right. intros [= Heq]. done.
Defined.

Lemma cache_string_compare_eq (a b : cstr) :
  forallb (fun b => (0 <? b) && (b <? 256)) a = true -> forallb (fun b => (0 <? b) && (b <? 256)) b = true ->
  cache_string_compare a b = 0 <-> a = b.
Proof.
  revert b. induction a as [|x a IH]; intros [|y b]; simpl; intros Ha Hb; try done.
  - apply andb_true_iff in Hb as [[Hy _]%andb_true_iff _]. apply Z.ltb_lt in Hy. split; [lia|done].
  - apply andb_true_iff in Ha as [[Hx _]%andb_true_iff _]. apply Z.ltb_lt in Hx. split; [lia|done].
  - apply andb_true_iff in Ha as [_ Ha], Hb as [_ Hb]. destruct (Z.eqb_spec x y) as [->|Hne].
    + rewrite IH by done. split; [by intros ->|by intros [= ->]].
    + split; [lia|by intros [= -> _]].
Qed.

#[export] Program Instance string_cache_key : CacheKey c_string := {
  hash_func s := cache_string_hash (`s);
  compare_func a b := cache_string_compare (`a) (`b);
}.
Next Obligation. intros [s Hs]. apply Z.mod_pos_bound. done. Qed.
Next Obligation.
  intros [a Ha] [b Hb]. simpl. rewrite cache_string_compare_eq by done. split.
  - intros ->. f_equal. apply (Eqdep_dec.UIP_dec bool_dec).
  - by intros [= ->].
Qed.

Definition cache_create_default_config : cache_config_t := CacheConfig 1000 3600.

Definition cache_create_string_cache (capacity ttl_sec : Z) (alloc lock_ok : bool)
    : option (@cache_impl c_string cstr) :=
  cache_create (CacheConfig capacity ttl_sec) alloc lock_ok.

Definition cache_get_string (c : @cache_impl c_string cstr) (k : option c_string) (now : Z) (copy_ok : bool) :=
  cache_get c k now copy_ok.

Definition cache_put_string (malloc : gmap nat (@cache_entry c_string cstr) -> nat)
    (c : @cache_impl c_string cstr) (k : option c_string) (v : option cstr) (now : Z) (a : alloc_env) :=
  cache_put malloc c k v now a.

(** ** Witnesses *)

Definition fresh_malloc (h : gmap nat (@cache_entry c_string cstr)) : nat := fresh (elements (dom h : gset nat)).

Lemma fresh_malloc_ok h : h !! fresh_malloc h = None.
Proof.
  apply (not_elem_of_dom (D:=gset nat)). rewrite <- elem_of_elements. apply infinite_is_fresh.
Qed.

Definition key_a : c_string := exist _ (cs "a") eq_refl.
Definition key_b : c_string := exist _ (cs "b") eq_refl.
Definition key_c : c_string := exist _ (cs "c") eq_refl.
Definition all_ok : alloc_env := AllocEnv true true true.

Definition sample_ops : list (@cache_op c_string cstr) :=
  [CPut key_a (cs "1") 10 all_ok; CPut key_b (cs "2") 11 all_ok; CGet key_a 12 true;
   CPut key_c (cs "3") 13 all_ok; CGet key_b 14 true; CGet key_a 3700 true; CStats].

Definition sample_cache : @cache_impl c_string cstr :=
  Cache ∅ (replicate HASH_SIZE None) None None 2 0 3600 0 0 0.

Lemma cache_refines_lru_witness :
  exists c', cache_run fresh_malloc sample_cache sample_ops =
    Some ([RUnit; RUnit; RGet 1 (Some (cs "1")); RUnit; RGet 0 None; RGet 0 None; RStats 1 2 1 2 1], c').
Proof.
  destruct (cache_refines_lru fresh_malloc fresh_malloc_ok (CacheConfig 2 3600) sample_ops sample_cache)
    as (c' & Hrun & _).
  - unfold capacity_ok. simpl. lia.
  - repeat (constructor; [done|]). constructor.
  - reflexivity.
  - exists c'. rewrite Hrun. reflexivity.
Defined.

Lemma cache_size_bounded_witness :
  exists rs c', cache_run fresh_malloc sample_cache [CPut key_a (cs "1") 0 all_ok; CSetCapacity 0] = Some (rs, c') /\
    size c' <= capacity c'.
Proof.
  destruct (cache_run fresh_malloc sample_cache [CPut key_a (cs "1") 0 all_ok; CSetCapacity 0])
    as [[rs c']|] eqn:Hrun; [|vm_compute in Hrun; discriminate Hrun].
  exists rs, c'. split; [reflexivity|].
  apply (cache_size_bounded fresh_malloc fresh_malloc_ok (CacheConfig 2 3600)
    [CPut key_a (cs "1") 0 all_ok; CSetCapacity 0] sample_cache rs c').
  - unfold capacity_ok. simpl. lia.
  - constructor; [exact I|]. constructor; [unfold op_capacity_ok, capacity_ok; lia|constructor].
  - reflexivity.
  - exact Hrun.
Defined.

Lemma cache_keeps_recent_witness :
  exists rs c', cache_run fresh_malloc sample_cache
    (CPut key_a (cs "1") 0 all_ok :: [CPut key_b (cs "2") 1 all_ok; CGet key_b 2 true] ++ [CGet key_a 3 true]) =
    Some (rs, c') /\ last rs = Some (RGet 1 (Some (cs "1"))).
Proof.
  destruct (cache_run fresh_malloc sample_cache
    (CPut key_a (cs "1") 0 all_ok :: [CPut key_b (cs "2") 1 all_ok; CGet key_b 2 true] ++ [CGet key_a 3 true]))
    as [[rs c']|] eqn:Hrun; [|vm_compute in Hrun; discriminate Hrun].
  exists rs, c'. split; [reflexivity|].
  apply (cache_keeps_recent fresh_malloc fresh_malloc_ok (CacheConfig 2 3600) [] sample_cache [] sample_cache
    key_a (cs "1") 0 all_ok [CPut key_b (cs "2") 1 all_ok; CGet key_b 2 true] 3 rs c').
  - unfold capacity_ok. simpl. lia.
  - constructor.
  - reflexivity.
  - reflexivity.
  - reflexivity.
  - reflexivity.
  - reflexivity.
  - rewrite <- (bool_decide_eq_true (key_a ∉ _)). reflexivity.
  - reflexivity.
  - right. simpl. lia.
  - exact Hrun.
Defined.
