(* ===== verification/Svc.v ===== *)
(** * Services: utils/svc/svc_common.c, svc_common_ops.c, svc_common_registry.c

    A service is a record in a heap of services; the registry is the linked
    list through the [next] fields that the static variable [g_registry] heads.
    Reaching a service that was freed is undefined ([None]).  The functions of a
    service's interface belong to the caller: their results are arguments of
    the operations, and the calls made to them are logged. *)
From S2P Require Import Prelude.

(** ** Data *)

Definition MAX_SERVICE_NAME_LEN : nat := 64.
Definition MAX_SERVICE_VERSION_LEN : nat := 32.
Definition AIRY_SVC_CAP_PAUSEABLE : Z := 8.

Inductive airy_svc_state_t :=
| AIRY_SVC_STATE_NONE | AIRY_SVC_STATE_CREATED | AIRY_SVC_STATE_INITIALIZING | AIRY_SVC_STATE_READY
| AIRY_SVC_STATE_RUNNING | AIRY_SVC_STATE_PAUSED | AIRY_SVC_STATE_STOPPING | AIRY_SVC_STATE_STOPPED
| AIRY_SVC_STATE_ZOMBIE | AIRY_SVC_STATE_ERROR.

#[export] Instance airy_svc_state_eq_dec : EqDecision airy_svc_state_t.
Proof. solve_decision. Defined.

Record airy_svc_config_t := SvcConfig {
  cfg_version : option cstr;
  cfg_capabilities : Z;
  max_concurrent : Z;
  timeout_ms : Z;
  priority : Z;
  auto_start : bool;
  enable_metrics : bool;
  enable_tracing : bool;
}.

Record airy_svc_stats_t := SvcStats {
  request_count : Z;
  success_count : Z;
  error_count : Z;
  total_time_ms : Z;
  max_time_ms : Z;
  min_time_ms : Z;
  current_concurrent : Z;
  peak_concurrent : Z;
  avg_time_ms : spec_float;
}.

Definition zero_stats : airy_svc_stats_t := SvcStats 0 0 0 0 0 0 0 0 (S754_zero false).

(** Which functions of the interface are present. *)
Record airy_svc_interface_t := SvcInterface {
  has_init : bool;
  has_start : bool;
  has_stop : bool;
  has_destroy : bool;
  has_healthcheck : bool;
  has_handle_request : bool;
}.

(** The calls made to the interface of a service. *)
Inductive svc_call :=
| CallInit (p : nat) (r : Z) | CallStart (p : nat) (r : Z) | CallStop (p : nat) (force : bool) (r : Z)
| CallDestroy (p : nat) | CallHealthcheck (p : nat) (r : Z).

(** The mutexes and the array of threads (which nothing fills) are left out. *)
Record airy_svc_internal_t := Svc {
  name : cstr;
  version : cstr;
  state : airy_svc_state_t;
  config : airy_svc_config_t;
  capabilities : Z;
  stats : airy_svc_stats_t;
  iface : airy_svc_interface_t;
  last_healthcheck_time : Z;
  healthcheck_failures : Z;
  user_data : option Z;
  thread_pool : option Z;
  next : option nat;
}.

(** The heap of services, [g_registry], and the calls made so far. *)
Record svc_world := World {
  services : gmap nat airy_svc_internal_t;
  reg_head : option nat;
  service_count : Z;
  initialized : bool;
  calls : list svc_call;
}.

Definition set_state (v : airy_svc_state_t) (r : airy_svc_internal_t) : airy_svc_internal_t :=
  Svc (name r) (version r) v (config r) (capabilities r) (stats r) (iface r)
    (last_healthcheck_time r) (healthcheck_failures r) (user_data r) (thread_pool r) (next r).
Definition set_stats (v : airy_svc_stats_t) (r : airy_svc_internal_t) : airy_svc_internal_t :=
  Svc (name r) (version r) (state r) (config r) (capabilities r) v (iface r)
    (last_healthcheck_time r) (healthcheck_failures r) (user_data r) (thread_pool r) (next r).
Definition set_last_healthcheck_time (v : Z) (r : airy_svc_internal_t) : airy_svc_internal_t :=
  Svc (name r) (version r) (state r) (config r) (capabilities r) (stats r) (iface r) v
    (healthcheck_failures r) (user_data r) (thread_pool r) (next r).
Definition set_healthcheck_failures (v : Z) (r : airy_svc_internal_t) : airy_svc_internal_t :=
  Svc (name r) (version r) (state r) (config r) (capabilities r) (stats r) (iface r)
    (last_healthcheck_time r) v (user_data r) (thread_pool r) (next r).
Definition set_user_data (v : option Z) (r : airy_svc_internal_t) : airy_svc_internal_t :=
  Svc (name r) (version r) (state r) (config r) (capabilities r) (stats r) (iface r)
    (last_healthcheck_time r) (healthcheck_failures r) v (thread_pool r) (next r).
Definition set_thread_pool (v : option Z) (r : airy_svc_internal_t) : airy_svc_internal_t :=
  Svc (name r) (version r) (state r) (config r) (capabilities r) (stats r) (iface r)
    (last_healthcheck_time r) (healthcheck_failures r) (user_data r) v (next r).
Definition set_next (v : option nat) (r : airy_svc_internal_t) : airy_svc_internal_t :=
  Svc (name r) (version r) (state r) (config r) (capabilities r) (stats r) (iface r)
    (last_healthcheck_time r) (healthcheck_failures r) (user_data r) (thread_pool r) v.

Definition set_services (v : gmap nat airy_svc_internal_t) (r : svc_world) : svc_world :=
  World v (reg_head r) (service_count r) (initialized r) (calls r).
Definition set_reg_head (v : option nat) (r : svc_world) : svc_world :=
  World (services r) v (service_count r) (initialized r) (calls r).
Definition set_service_count (v : Z) (r : svc_world) : svc_world :=
  World (services r) (reg_head r) v (initialized r) (calls r).
Definition set_initialized (v : bool) (r : svc_world) : svc_world :=
  World (services r) (reg_head r) (service_count r) v (calls r).
Definition set_calls (v : list svc_call) (r : svc_world) : svc_world :=
  World (services r) (reg_head r) (service_count r) (initialized r) v.

Definition upd_svc (p : nat) (f : airy_svc_internal_t -> airy_svc_internal_t) (w : svc_world)
    : option svc_world :=
  s ← services w !! p; Some (set_services (<[p := f s]> (services w)) w).

Definition log_call (c : svc_call) (w : svc_world) : svc_world := set_calls (calls w ++ [c]) w.

(** ** The registry *)

(** The result of the mutex's initialisation is [mtx]. *)
Definition svc_common_module_init (w : svc_world) (mtx : Z) : Z * svc_world :=
  if initialized w then (AIRY_SUCCESS, w)
  else if negb (mtx =? AIRY_SUCCESS) then (AIRY_ERR_SYS_MUTEX, w)
  else (AIRY_SUCCESS, set_initialized true w).

(** The list of services is kept. *)
Definition svc_common_module_cleanup (w : svc_world) : svc_world :=
  if negb (initialized w) then w else set_initialized false w.

Definition airy_svc_common_cleanup (w : svc_world) : svc_world := svc_common_module_cleanup w.

(** The walks along the list; [fuel] bounds the services visited. *)
Fixpoint find_loop (fuel : nat) (h : gmap nat airy_svc_internal_t) (current : option nat) (n : cstr)
    : option (option nat) :=
  match current, fuel with
  | None, _ => Some None
  | Some p, S fuel' =>
      s ← h !! p;
      if decide (name s = n) then Some (Some p) else find_loop fuel' h (next s) n
  | Some _, O => None
  end.

Definition walk_fuel (w : svc_world) : nat := S (base.size (services w)).

Definition find_service_internal (w : svc_world) (n : option cstr) : option (option nat) :=
  match n with
  | None => Some None
  | Some n => if negb (initialized w) then Some None else find_loop (walk_fuel w) (services w) (reg_head w) n
  end.

(** [service->next = g_registry.services; g_registry.services = service]. *)
Definition reg_push (w : svc_world) (p : nat) : option svc_world :=
  w ← upd_svc p (set_next (reg_head w)) w;
  Some (set_service_count (u32 (service_count w + 1)) (set_reg_head (Some p) w)).

Definition register_service_internal (w : svc_world) (p : nat) : option (Z * svc_world) :=
  if negb (initialized w) then Some (AIRY_EINVAL, w)
  else
    s ← services w !! p;
    found ← find_service_internal w (Some (name s));
    match found with
    | Some _ => Some (AIRY_EEXIST, w)
    | None => w ← reg_push w p; Some (AIRY_SUCCESS, w)
    end.

(** [prev] is the address of the head ([None]) or of a service's [next]. *)
Fixpoint unlink_loop (fuel : nat) (w : svc_world) (p : nat) (prev current : option nat)
    : option (Z * svc_world) :=
  match current, fuel with
  | None, _ => Some (AIRY_ENOENT, w)
  | Some q, S fuel' =>
      s ← services w !! q;
      if decide (q = p) then
        w ← match prev with
            | None => Some (set_reg_head (next s) w)
            | Some q' => upd_svc q' (set_next (next s)) w
            end;
        Some (AIRY_SUCCESS, set_service_count (u32 (service_count w - 1)) w)
      else unlink_loop fuel' w p (Some q) (next s)
  | Some _, O => None
  end.

Definition unregister_service_internal (w : svc_world) (p : nat) : option (Z * svc_world) :=
  if negb (initialized w) then Some (AIRY_EINVAL, w)
  else unlink_loop (walk_fuel w) w p None (reg_head w).

Fixpoint member_loop (fuel : nat) (h : gmap nat airy_svc_internal_t) (current : option nat) (p : nat)
    : option bool :=
  match current, fuel with
  | None, _ => Some false
  | Some q, S fuel' => if decide (q = p) then Some true else s ← h !! q; member_loop fuel' h (next s) p
  | Some _, O => None
  end.

Definition airy_svc_register (w : svc_world) (p : option nat) (mtx : Z) : option (Z * svc_world) :=
  match p with
  | None => Some (AIRY_EINVAL, w)
  | Some p =>
      let (err, w) := if initialized w then (AIRY_SUCCESS, w) else svc_common_module_init w mtx in
      if negb (err =? AIRY_SUCCESS) then Some (err, w)
      else
        present ← member_loop (walk_fuel w) (services w) (reg_head w) p;
        if (present : bool) then Some (AIRY_SUCCESS, w)
        else w ← reg_push w p; Some (AIRY_SUCCESS, w)
  end.

Definition airy_svc_unregister (w : svc_world) (p : option nat) : option (Z * svc_world) :=
  match p with
  | None => Some (AIRY_EINVAL, w)
  | Some p =>
      if negb (initialized w) then Some (AIRY_ENOTINIT, w)
      else unlink_loop (walk_fuel w) w p None (reg_head w)
  end.

Definition airy_svc_find (w : svc_world) (n : option cstr) : option (option nat) :=
  match n with
  | None => Some None
  | Some n => if negb (initialized w) then Some None else find_service_internal w (Some n)
  end.

Definition airy_svc_count (w : svc_world) : Z := if negb (initialized w) then 0 else service_count w.

(** The handles given to the callback, in order. *)
Fixpoint foreach_loop (fuel : nat) (h : gmap nat airy_svc_internal_t) (current : option nat)
    : option (list nat) :=
  match current, fuel with
  | None, _ => Some []
  | Some p, S fuel' => s ← h !! p; l ← foreach_loop fuel' h (next s); Some (p :: l)
  | Some _, O => None
  end.

Definition airy_svc_foreach (w : svc_world) (callback : bool) : option (list nat) :=
  if negb callback || negb (initialized w) then Some []
  else foreach_loop (walk_fuel w) (services w) (reg_head w).

(** ** The life cycle *)

Section create.
Variable malloc : gmap nat airy_svc_internal_t -> nat.

(** The answers of the system: the registry's mutex, the allocation and the
    two mutexes of the service. *)
Record svc_env := SvcEnv { reg_mtx : Z; alloc_ok : bool; state_mtx : Z; stats_mtx : Z }.

(** The new handle is [Some] when the call succeeds. *)
Definition airy_svc_create (w : svc_world) (n : option cstr) (i : option airy_svc_interface_t)
    (c : option airy_svc_config_t) (env : svc_env) : option (Z * option nat * svc_world) :=
  match n, i, c with
  | Some n, Some i, Some c =>
      let (err, w) := svc_common_module_init w (reg_mtx env) in
      if negb (err =? AIRY_SUCCESS) then Some (err, None, w)
      else if (length n =? 0)%nat || (MAX_SERVICE_NAME_LEN <=? length n)%nat then Some (AIRY_EINVAL, None, w)
      else if negb (alloc_ok env) then Some (AIRY_ENOMEM, None, w)
      else if (MAX_SERVICE_VERSION_LEN <=? length (default [] (cfg_version c)))%nat
      then Some (AIRY_EINVAL, None, w)
      else if negb (state_mtx env =? AIRY_SUCCESS) then Some (state_mtx env, None, w)
      else if negb (stats_mtx env =? AIRY_SUCCESS) then Some (stats_mtx env, None, w)
      else
        let p := malloc (services w) in
        let s := Svc n (default [] (cfg_version c)) AIRY_SVC_STATE_CREATED c (cfg_capabilities c)
                   zero_stats i 0 0 None None None in
        let w := set_services (<[p := s]> (services w)) w in
        '(err, w) ← register_service_internal w p;
        if negb (err =? AIRY_SUCCESS) then Some (err, None, set_services (delete p (services w)) w)
        else Some (AIRY_SUCCESS, Some p, w)
  | _, _, _ => Some (AIRY_EINVAL, None, w)
  end.

End create.

(** [r] is the result of the interface's function, where it is called. *)
Definition airy_svc_init (w : svc_world) (p : option nat) (r : Z) : option (Z * svc_world) :=
  match p with
  | None => Some (AIRY_EINVAL, w)
  | Some p =>
      s ← services w !! p;
      if decide (state s = AIRY_SVC_STATE_CREATED) then
        w ← upd_svc p (set_state AIRY_SVC_STATE_INITIALIZING) w;
        let (err, w) := if has_init (iface s) then (r, log_call (CallInit p r) w) else (AIRY_SUCCESS, w) in
        w ← upd_svc p (set_state (if err =? AIRY_SUCCESS then AIRY_SVC_STATE_READY
                                  else AIRY_SVC_STATE_ERROR)) w;
        Some (err, w)
      else Some (AIRY_ERR_SVC_NOT_READY, w)
  end.

Definition startable (st : airy_svc_state_t) : bool :=
  match st with
  | AIRY_SVC_STATE_READY | AIRY_SVC_STATE_STOPPED | AIRY_SVC_STATE_PAUSED | AIRY_SVC_STATE_ZOMBIE => true
  | _ => false
  end.

Definition airy_svc_start (w : svc_world) (p : option nat) (r : Z) : option (Z * svc_world) :=
  match p with
  | None => Some (AIRY_EINVAL, w)
  | Some p =>
      s ← services w !! p;
      if negb (startable (state s)) then Some (AIRY_ERR_SVC_NOT_READY, w)
      else
        let old_state := state s in
        w ← upd_svc p (set_state AIRY_SVC_STATE_RUNNING) w;
        let (err, w) := if has_start (iface s) then (r, log_call (CallStart p r) w) else (AIRY_SUCCESS, w) in
        if negb (err =? AIRY_SUCCESS) then
          w ← upd_svc p (set_state old_state) w; Some (err, w)
        else Some (AIRY_SUCCESS, w)
  end.

Definition stoppable (st : airy_svc_state_t) : bool :=
  match st with AIRY_SVC_STATE_RUNNING | AIRY_SVC_STATE_PAUSED => true | _ => false end.

(** [timed_out] tells whether the alarm of a forced stop went off. *)
Definition airy_svc_stop (w : svc_world) (p : option nat) (force : bool) (r : Z) (timed_out : bool)
    : option (Z * svc_world) :=
  match p with
  | None => Some (AIRY_EINVAL, w)
  | Some p =>
      s ← services w !! p;
      if negb (stoppable (state s)) then Some (AIRY_ERR_SVC_NOT_READY, w)
      else
        w ← upd_svc p (set_state AIRY_SVC_STATE_STOPPING) w;
        let '(err, zombie, w) :=
          if has_stop (iface s) then (r, force && timed_out, log_call (CallStop p force r) w)
          else (AIRY_SUCCESS, false, w) in
        w ← upd_svc p (set_state
              (if (err =? AIRY_SUCCESS) || force
               then (if zombie then AIRY_SVC_STATE_ZOMBIE else AIRY_SVC_STATE_STOPPED)
               else AIRY_SVC_STATE_ERROR)) w;
        Some (err, w)
  end.

(** [frees]: the interface's [destroy] frees the service, as its type says that
    it does; what follows then uses freed memory. *)
Definition airy_svc_destroy (w : svc_world) (p : option nat) (r : Z) (timed_out frees : bool) : option svc_world :=
  match p with
  | None => Some w
  | Some p =>
      s ← services w !! p;
      w ← (if stoppable (state s) then '(_, w) ← airy_svc_stop w (Some p) true r timed_out; Some w
           else Some w);
      '(_, w) ← unregister_service_internal w p;
      let w := if has_destroy (iface s) then
                 let w := log_call (CallDestroy p) w in if frees then set_services (delete p (services w)) w else w
               else w in
      _ ← services w !! p;
      Some (set_services (delete p (services w)) w)
  end.

Definition airy_svc_pause (w : svc_world) (p : option nat) : option (Z * svc_world) :=
  match p with
  | None => Some (AIRY_EINVAL, w)
  | Some p =>
      s ← services w !! p;
      if decide (state s = AIRY_SVC_STATE_RUNNING) then
        if Z.land (capabilities s) AIRY_SVC_CAP_PAUSEABLE =? 0 then Some (AIRY_EPROTONOSUPPORT, w)
        else w ← upd_svc p (set_state AIRY_SVC_STATE_PAUSED) w; Some (AIRY_SUCCESS, w)
      else Some (AIRY_ERR_SVC_NOT_READY, w)
  end.

Definition airy_svc_resume (w : svc_world) (p : option nat) : option (Z * svc_world) :=
  match p with
  | None => Some (AIRY_EINVAL, w)
  | Some p =>
      s ← services w !! p;
      if decide (state s = AIRY_SVC_STATE_PAUSED) then
        w ← upd_svc p (set_state AIRY_SVC_STATE_RUNNING) w; Some (AIRY_SUCCESS, w)
      else Some (AIRY_ERR_SVC_NOT_READY, w)
  end.

(** ** Queries *)

Definition airy_svc_get_state (s : option airy_svc_internal_t) : airy_svc_state_t :=
  match s with None => AIRY_SVC_STATE_NONE | Some s => state s end.

Definition airy_svc_is_ready (s : option airy_svc_internal_t) : bool :=
  bool_decide (airy_svc_get_state s = AIRY_SVC_STATE_READY).

Definition airy_svc_is_running (s : option airy_svc_internal_t) : bool :=
  bool_decide (airy_svc_get_state s = AIRY_SVC_STATE_RUNNING).

Definition airy_svc_get_name (s : option airy_svc_internal_t) : option cstr := name <$> s.

(** [AIRYRT_VERSION] is injected by the build. *)
Definition airy_svc_get_version (AIRYRT_VERSION : cstr) (s : option airy_svc_internal_t) : option cstr :=
  (fun s => match version s with [] => AIRYRT_VERSION | _ => version s end) <$> s.

Definition airy_svc_get_stats (s : option airy_svc_internal_t) : Z * option airy_svc_stats_t :=
  match s with None => (AIRY_EINVAL, None) | Some s => (AIRY_SUCCESS, Some (stats s)) end.

Definition airy_svc_reset_stats (w : svc_world) (p : option nat) : option svc_world :=
  match p with None => Some w | Some p => upd_svc p (set_stats zero_stats) w end.

(** [healthcheck_failures] is an [int]; [now] is the clock. *)
Definition airy_svc_healthcheck (w : svc_world) (p : option nat) (r now : Z) : option (Z * svc_world) :=
  match p with
  | None => Some (AIRY_EINVAL, w)
  | Some p =>
      s ← services w !! p;
      if has_healthcheck (iface s) then
        let w := log_call (CallHealthcheck p r) w in
        w ← upd_svc p (set_last_healthcheck_time now) w;
        w ← upd_svc p (fun s => set_healthcheck_failures
              (if negb (r =? AIRY_SUCCESS) then healthcheck_failures s + 1 else 0) s) w;
        Some (r, w)
      else
        Some (match state s with
              | AIRY_SVC_STATE_READY | AIRY_SVC_STATE_RUNNING | AIRY_SVC_STATE_PAUSED => AIRY_SUCCESS
              | AIRY_SVC_STATE_ERROR => AIRY_ERR_SVC_HEALTH
              | _ => AIRY_ERR_SVC_NOT_READY
              end, w)
  end.

Definition airy_svc_has_capability (s : option airy_svc_internal_t) (capability : Z) : bool :=
  match s with None => false | Some s => negb (Z.land (capabilities s) capability =? 0) end.

Definition airy_svc_set_user_data (w : svc_world) (p : option nat) (d : option Z) : option (Z * svc_world) :=
  match p with
  | None => Some (AIRY_EINVAL, w)
  | Some p => w ← upd_svc p (set_user_data d) w; Some (AIRY_SUCCESS, w)
  end.

Definition airy_svc_get_user_data (s : option airy_svc_internal_t) : option Z := s ≫= user_data.

Definition airy_svc_set_thread_pool (w : svc_world) (p : option nat) (pool : option Z)
    : option (Z * svc_world) :=
  match p with
  | None => Some (AIRY_EINVAL, w)
  | Some p => w ← upd_svc p (set_thread_pool pool) w; Some (AIRY_SUCCESS, w)
  end.

Definition airy_svc_state_to_string (st : airy_svc_state_t) : cstr :=
  match st with
  | AIRY_SVC_STATE_NONE => cs "NONE" | AIRY_SVC_STATE_CREATED => cs "CREATED"
  | AIRY_SVC_STATE_INITIALIZING => cs "INITIALIZING" | AIRY_SVC_STATE_READY => cs "READY"
  | AIRY_SVC_STATE_RUNNING => cs "RUNNING" | AIRY_SVC_STATE_PAUSED => cs "PAUSED"
  | AIRY_SVC_STATE_STOPPING => cs "STOPPING" | AIRY_SVC_STATE_STOPPED => cs "STOPPED"
  | AIRY_SVC_STATE_ZOMBIE => cs "ZOMBIE" | AIRY_SVC_STATE_ERROR => cs "ERROR"
  end.

(** [strcasecmp(a, b) == 0] in the C locale. *)
Definition strcasecmp_eq (a b : cstr) : bool := bool_decide (map tolower a = map tolower b).

Definition state_map : list (cstr * airy_svc_state_t) :=
  [(cs "NONE", AIRY_SVC_STATE_NONE); (cs "CREATED", AIRY_SVC_STATE_CREATED);
   (cs "INITIALIZING", AIRY_SVC_STATE_INITIALIZING); (cs "READY", AIRY_SVC_STATE_READY);
   (cs "RUNNING", AIRY_SVC_STATE_RUNNING); (cs "PAUSED", AIRY_SVC_STATE_PAUSED);
   (cs "STOPPING", AIRY_SVC_STATE_STOPPING); (cs "STOPPED", AIRY_SVC_STATE_STOPPED);
   (cs "ZOMBIE", AIRY_SVC_STATE_ZOMBIE); (cs "ERROR", AIRY_SVC_STATE_ERROR)].

Fixpoint state_lookup (m : list (cstr * airy_svc_state_t)) (str : cstr) : airy_svc_state_t :=
  match m with
  | [] => AIRY_SVC_STATE_NONE
  | (n, st) :: m' => if strcasecmp_eq str n then st else state_lookup m' str
  end.

Definition airy_svc_state_from_string (str : option cstr) : airy_svc_state_t :=
  match str with None => AIRY_SVC_STATE_NONE | Some str => state_lookup state_map str end.

(** ** Asynchronous requests *)

(** What a request does outside: the call of the interface's handler, the
    completion callback, and the release of the response and of the request's
    context. *)
Inductive async_event :=
| AHandle (method : option cstr) (params : option cstr)
| AComplete (cb : Z) (method : option cstr) (err : Z) (response : option cstr) (ud : option Z)
| AFreeResponse (response : cstr)
| AFreeContext.

Record async_request_context_t := AsyncCtx {
  ctx_method : option cstr; ctx_params_json : option cstr;
  ctx_on_complete : option Z; ctx_user_data : option Z;
}.

(** [result] is what the handler returns: a code and a response. *)
Definition async_request_worker (s : airy_svc_internal_t) (ctx : async_request_context_t)
    (result : Z * option cstr) : list async_event :=
  let '(evs, err, response) :=
    if has_handle_request (iface s)
    then ([AHandle (ctx_method ctx) (ctx_params_json ctx)], result.1, result.2)
    else ([], AIRY_EINVAL, None) in
  evs ++
  match ctx_on_complete ctx with
  | Some cb => [AComplete cb (ctx_method ctx) err response (ctx_user_data ctx)]
  | None => match response with Some r => [AFreeResponse r] | None => [] end
  end ++ [AFreeContext].

(** [dup_method] and [dup_params] tell whether the copies could be made, [rc]
    is the answer of the thread pool, which runs the worker later when it
    accepts it. *)
Definition airy_svc_handle_request_async (s : option airy_svc_internal_t) (method params_json : option cstr)
    (on_complete : option Z) (ud : option Z) (alloc dup_method dup_params : bool) (rc : Z)
    (result : Z * option cstr) : Z * list async_event :=
  match s, method with
  | Some s, Some method =>
      if negb alloc then (AIRY_ERR_OUT_OF_MEMORY, [])
      else
        let ctx := AsyncCtx (if dup_method then Some method else None)
          (if dup_params then params_json else None) on_complete ud in
        match thread_pool s with
        | Some _ => if negb (rc =? 0) then (rc, [AFreeContext]) else (0, async_request_worker s ctx result)
        | None => (0, async_request_worker s ctx result)
        end
  | _, _ => (AIRY_ERR_INVALID_PARAM, [])
  end.

(** ** The registry as a list of handles *)

Fixpoint reg_seg (h : gmap nat airy_svc_internal_t) (start : option nat) (l : list nat) : Prop :=
  match l with
  | [] => start = None
  | p :: l' => start = Some p /\ exists s, h !! p = Some s /\ reg_seg h (next s) l'
  end.

Record reg_ok (w : svc_world) (l : list nat) : Prop := {
  ro_seg : reg_seg (services w) (reg_head w) l;
  ro_nodup : NoDup l;
  ro_count : service_count w = u32 (Z.of_nat (length l));
  ro_init : initialized w = true;
}.

Lemma reg_seg_live h start l p : reg_seg h start l -> p ∈ l -> is_Some (h !! p).
Proof.
  revert start. induction l as [|q l IH]; intros start; simpl; [by intros _ ?%elem_of_nil|].
  intros (-> & s & Hs & Hl) [->|Hp]%elem_of_cons; eauto.
Qed.

Lemma reg_seg_length h start l : reg_seg h start l -> NoDup l -> (length l <= base.size h)%nat.
Proof.
  intros Hs Hnd. rewrite <- (size_dom h), <- (size_list_to_set (C:=gset nat) l Hnd).
  apply subseteq_size. intros p Hp. apply elem_of_list_to_set in Hp. apply elem_of_dom.
  by eapply reg_seg_live.
Qed.

Lemma reg_seg_ext h h' start l :
  (forall p, p ∈ l -> next <$> h' !! p = next <$> h !! p) -> reg_seg h start l -> reg_seg h' start l.
Proof.
  revert start. induction l as [|p l IH]; intros start Hext; simpl; [done|].
  intros (-> & s & Hs & Hl). split; [done|]. pose proof (Hext p ltac:(by left)) as Hp. rewrite Hs in Hp.
  destruct (h' !! p) as [s'|]; [|done]. exists s'. split; [done|]. injection Hp as ->.
  apply IH; [|done]. intros q Hq. apply Hext. by right.
Qed.

(** The first handle of the list with a given name. *)
Fixpoint first_named (h : gmap nat airy_svc_internal_t) (l : list nat) (n : cstr) : option nat :=
  match l with
  | [] => None
  | p :: l' => if decide (name <$> h !! p = Some n) then Some p else first_named h l' n
  end.

Lemma svc_find_loop_spec h start l n fuel :
  reg_seg h start l -> (length l <= fuel)%nat -> find_loop fuel h start n = Some (first_named h l n).
Proof.
  revert start fuel. induction l as [|p l IH]; intros start fuel; simpl.
  - intros -> _. by destruct fuel.
  - intros (-> & s & Hs & Hl) Hf. destruct fuel as [|fuel]; [lia|]. simpl. rewrite Hs. simpl.
    destruct (decide (name s = n)) as [->|Hne]; [by rewrite decide_True|].
    rewrite decide_False by congruence. apply IH; [done|lia].
Qed.

Lemma member_loop_spec h start l p fuel :
  reg_seg h start l -> (length l <= fuel)%nat -> member_loop fuel h start p = Some (bool_decide (p ∈ l)).
Proof.
  revert start fuel. induction l as [|q l IH]; intros start fuel; simpl.
  - intros -> _. by destruct fuel.
  - intros (-> & s & Hs & Hl) Hf. destruct fuel as [|fuel]; [lia|]. simpl. destruct (decide (q = p)) as [->|Hq].
    + f_equal. symmetry. apply bool_decide_eq_true_2. by left.
    + rewrite Hs. simpl. rewrite (IH (next s)) by (done || lia). f_equal. apply bool_decide_ext.
      rewrite elem_of_cons. split; [by right|by intros [|]].
Qed.

Lemma foreach_loop_spec h start l fuel :
  reg_seg h start l -> (length l <= fuel)%nat -> foreach_loop fuel h start = Some l.
Proof.
  revert start fuel. induction l as [|p l IH]; intros start fuel; simpl.
  - intros -> _. by destruct fuel.
  - intros (-> & s & Hs & Hl) Hf. destruct fuel as [|fuel]; [lia|]. simpl. rewrite Hs. simpl.
    by rewrite (IH (next s)) by (done || lia).
Qed.

Lemma reg_seg_next h start l p s : reg_seg h start l -> p ∈ l -> h !! p = Some s -> exists l1 l2,
  l = l1 ++ p :: l2 /\ reg_seg h (next s) l2.
Proof.
  revert start. induction l as [|q l IH]; intros start Hl Hp Hs; [by apply elem_of_nil in Hp|].
  destruct Hl as (-> & s' & Hs' & Hl). destruct (decide (q = p)) as [->|Hne].
  - exists [], l. split; [done|]. congruence.
  - apply elem_of_cons in Hp as [->|Hp]; [done|].
    destruct (IH _ Hl Hp Hs) as (l1 & l2 & -> & H2). by exists (q :: l1), l2.
Qed.

(** The fields other than the link of a service are not changed. *)
Definition same_service (s s' : airy_svc_internal_t) : Prop := set_next None s' = set_next None s.

Definition same_services (h h' : gmap nat airy_svc_internal_t) : Prop :=
  forall p, set_next None <$> h' !! p = set_next None <$> h !! p.

Lemma same_services_refl h : same_services h h.
Proof. done. Qed.

Lemma same_services_insert h p s s' :
  h !! p = Some s -> same_service s s' -> same_services h (<[p := s']> h).
Proof.
  intros Hs Hsame q. destruct (decide (q = p)) as [->|Hne].
  - rewrite lookup_insert_eq, Hs. simpl. by rewrite Hsame.
  - by rewrite lookup_insert_ne by done.
Qed.

Lemma unlink_loop_spec w p prev start l fuel :
  reg_seg (services w) start l -> NoDup l -> (length l <= fuel)%nat ->
  (match prev with
   | None => start = reg_head w
   | Some q => (q ∉ l) /\ exists s, services w !! q = Some s /\ next s = start
   end) ->
  if decide (p ∈ l) then
    exists l1 l2 w', l = l1 ++ p :: l2 /\ unlink_loop fuel w p prev start = Some (AIRY_SUCCESS, w') /\
      same_services (services w) (services w') /\ service_count w' = u32 (service_count w - 1) /\
      initialized w' = initialized w /\ calls w' = calls w /\
      (forall x, Some x <> prev -> (x ∉ l) -> services w' !! x = services w !! x) /\
      exists start', reg_seg (services w') start' (l1 ++ l2) /\
        match prev with
        | None => reg_head w' = start'
        | Some q => reg_head w' = reg_head w /\ next <$> services w' !! q = Some start'
        end
  else unlink_loop fuel w p prev start = Some (AIRY_ENOENT, w).
Proof.
  revert prev start fuel. induction l as [|q l IH]; intros prev start fuel Hs Hnd Hf Hprev.
  { rewrite decide_False by apply not_elem_of_nil. simpl in Hs. subst. by destruct fuel. }
  destruct Hs as (-> & s & Hsq & Hl). destruct fuel as [|fuel]; [simpl in Hf; lia|].
  apply NoDup_cons in Hnd as [Hq Hnd]. cbn [unlink_loop]. rewrite Hsq. cbn [mbind option_bind].
  destruct (decide (q = p)) as [->|Hne].
  - rewrite decide_True by (by left). exists [], l. destruct prev as [z|].
    + destruct Hprev as (Hz & sz & Hsz & Hnz). unfold upd_svc. rewrite Hsz. simpl.
      apply not_elem_of_cons in Hz as [Hzp Hz].
      eexists. split_and!; try done; simpl.
      * by eapply same_services_insert.
      * intros x Hx _. rewrite lookup_insert_ne by congruence. done.
      * exists (next s). split; [|by rewrite lookup_insert_eq].
        apply (reg_seg_ext (services w)); [|done]. intros x Hx.
        rewrite lookup_insert_ne by (by intros ->). done.
    + eexists. split_and!; try done; simpl. exists (next s). done.
  - specialize (IH (Some q) (next s) fuel Hl Hnd ltac:(simpl in Hf; lia)
      (conj Hq (ex_intro _ s (conj Hsq eq_refl)))).
    destruct (decide (p ∈ l)) as [Hp|Hp].
    + rewrite decide_True by (by right).
      destruct IH as (l1 & l2 & w' & -> & -> & Hsame & Hc & Hi & Hcl & Hfr & start' & Hseg & Hh & Hn).
      exists (q :: l1), l2, w'. split_and!; try done.
      * intros x Hx Hxl. apply not_elem_of_cons in Hxl as [Hxq Hxl]. apply Hfr; [congruence|done].
      * exists (Some q). split.
        -- split; [done|]. destruct (services w' !! q) as [s'|]; [|done]. injection Hn as <-. by exists s'.
        -- destruct prev as [z|]; [|congruence]. split; [done|]. destruct Hprev as (Hz & sz & Hsz & Hnz).
           apply not_elem_of_cons in Hz as [Hzq Hz]. rewrite Hfr, Hsz; simpl; congruence.
    + rewrite decide_False; [done|]. by intros [->|?]%elem_of_cons.
Qed.

Lemma u32_sub_idemp a : u32 (u32 a - 1) = u32 (a - 1).
Proof. unfold u32. by rewrite Zminus_mod_idemp_l. Qed.

Lemma u32_add_idemp a : u32 (u32 a + 1) = u32 (a + 1).
Proof. unfold u32. by rewrite Zplus_mod_idemp_l. Qed.

(** The list without a handle. *)
Definition without (p : nat) (l : list nat) : list nat := filter (fun q => q <> p) l.

Lemma without_not_in p l : p ∉ l -> without p l = l.
Proof.
  unfold without. induction l as [|x l IH]; intros Hp; [done|]. apply not_elem_of_cons in Hp as [Hx Hp].
  rewrite filter_cons_True by (by apply not_eq_sym). f_equal. auto.
Qed.

Lemma without_middle p l1 l2 : NoDup (l1 ++ p :: l2) -> without p (l1 ++ p :: l2) = l1 ++ l2.
Proof.
  intros (_ & Hd & [Hn _]%NoDup_cons)%NoDup_app.
  assert (H1 : p ∉ l1) by (intros Hin; apply (Hd p Hin); by left).
  rewrite <- (without_not_in p l1 H1) at 2. rewrite <- (without_not_in p l2 Hn) at 2.
  unfold without. by rewrite filter_app, (filter_cons_False _ p) by tauto.
Qed.

Lemma reg_fuel w l : reg_ok w l -> (length l <= walk_fuel w)%nat.
Proof. intros []. unfold walk_fuel. pose proof (reg_seg_length _ _ _ ro_seg0 ro_nodup0). lia. Qed.

Lemma unregister_spec w l p :
  reg_ok w l ->
  exists w', unlink_loop (walk_fuel w) w p None (reg_head w) =
    Some (if decide (p ∈ l) then AIRY_SUCCESS else AIRY_ENOENT, w') /\
    reg_ok w' (without p l) /\ same_services (services w) (services w') /\ calls w' = calls w.
Proof.
  intros Hok. pose proof (reg_fuel w l Hok) as Hf. destruct Hok as [Hs Hnd Hc Hi].
  pose proof (unlink_loop_spec w p None (reg_head w) l (walk_fuel w) Hs Hnd Hf eq_refl) as H.
  destruct (decide (p ∈ l)) as [Hp|Hp].
  - destruct H as (l1 & l2 & w' & -> & -> & Hsame & Hc' & Hi' & Hcl & _ & start' & Hseg & Hh).
    exists w'. rewrite without_middle by done. split_and!; try done. split.
    + by rewrite Hh.
    + by eapply NoDup_remove_middle.
    + rewrite Hc', Hc, u32_sub_idemp, !length_app. simpl. f_equal. lia.
    + congruence.
  - exists w. rewrite H, without_not_in by done. done.
Qed.

Lemma push_spec w l p :
  reg_ok w l -> p ∉ l -> is_Some (services w !! p) ->
  exists w', reg_push w p = Some w' /\ reg_ok w' (p :: l) /\
    same_services (services w) (services w') /\ calls w' = calls w.
Proof.
  intros [Hs Hnd Hc Hi] Hp [s Hsp]. unfold reg_push, upd_svc. rewrite Hsp. simpl.
  eexists. split; [done|]. simpl. split_and!; [|by eapply same_services_insert|done].
  split; simpl; [|by apply NoDup_cons| |done].
  - split; [done|]. eexists. rewrite lookup_insert_eq. split; [done|].
    apply (reg_seg_ext (services w)); [|done]. intros x Hx. rewrite lookup_insert_ne by (by intros ->). done.
  - rewrite Hc, u32_add_idemp. f_equal. lia.
Qed.

(** ** The registry's specification *)

Inductive life_op :=
| LInit (r : Z) | LStart (r : Z) | LStop (force : bool) (r : Z) (timed_out : bool)
| LPause | LResume | LHealthcheck (r now : Z).

Definition life_call (w : svc_world) (p : nat) (op : life_op) : option (Z * svc_world) :=
  match op with
  | LInit r => airy_svc_init w (Some p) r
  | LStart r => airy_svc_start w (Some p) r
  | LStop force r t => airy_svc_stop w (Some p) force r t
  | LPause => airy_svc_pause w (Some p)
  | LResume => airy_svc_resume w (Some p)
  | LHealthcheck r now => airy_svc_healthcheck w (Some p) r now
  end.

Inductive reg_op :=
| RCreate (n : cstr) (i : airy_svc_interface_t) (c : airy_svc_config_t) (env : svc_env)
| RDestroy (p : nat) (r : Z) (timed_out frees : bool)
| RRegister (p : nat)
| RUnregister (p : nat)
| RFind (n : cstr)
| RCount
| RForeach
| RLife (p : nat) (op : life_op).

Inductive reg_res :=
| ResCode (err : Z) | ResHandle (err : Z) (p : option nat) | ResFound (p : option nat)
| ResNum (n : Z) | ResList (l : list nat).

Definition reg_call (malloc : gmap nat airy_svc_internal_t -> nat) (w : svc_world) (op : reg_op)
    : option (reg_res * svc_world) :=
  match op with
  | RCreate n i c env =>
      '(err, p, w) ← airy_svc_create malloc w (Some n) (Some i) (Some c) env; Some (ResHandle err p, w)
  | RDestroy p r t frees => w ← airy_svc_destroy w (Some p) r t frees; Some (ResCode AIRY_SUCCESS, w)
  | RRegister p => '(err, w) ← airy_svc_register w (Some p) AIRY_SUCCESS; Some (ResCode err, w)
  | RUnregister p => '(err, w) ← airy_svc_unregister w (Some p); Some (ResCode err, w)
  | RFind n => r ← airy_svc_find w (Some n); Some (ResFound r, w)
  | RCount => Some (ResNum (airy_svc_count w), w)
  | RForeach => l ← airy_svc_foreach w true; Some (ResList l, w)
  | RLife p op => '(err, w) ← life_call w p op; Some (ResCode err, w)
  end.

(** The names of the live services, and the registered handles, the most
    recent first. *)
Record registry := Registry { live : gmap nat cstr; regs : list nat }.

Fixpoint first_with (m : gmap nat cstr) (l : list nat) (n : cstr) : option nat :=
  match l with
  | [] => None
  | p :: l' => if decide (m !! p = Some n) then Some p else first_with m l' n
  end.

(** The first reason for which a creation fails before the registry is asked. *)
Definition create_check (n : cstr) (c : airy_svc_config_t) (env : svc_env) : Z :=
  if (length n =? 0)%nat || (MAX_SERVICE_NAME_LEN <=? length n)%nat then AIRY_EINVAL
  else if negb (alloc_ok env) then AIRY_ENOMEM
  else if (MAX_SERVICE_VERSION_LEN <=? length (default [] (cfg_version c)))%nat then AIRY_EINVAL
  else if negb (state_mtx env =? AIRY_SUCCESS) then state_mtx env
  else if negb (stats_mtx env =? AIRY_SUCCESS) then stats_mtx env
  else AIRY_SUCCESS.

Inductive reg_step (a : registry) : reg_op -> reg_res -> registry -> Prop :=
| rs_create n i c env p :
    create_check n c env = AIRY_SUCCESS -> first_with (live a) (regs a) n = None -> live a !! p = None ->
    reg_step a (RCreate n i c env) (ResHandle AIRY_SUCCESS (Some p)) (Registry (<[p := n]> (live a)) (p :: regs a))
| rs_create_exists n i c env p :
    create_check n c env = AIRY_SUCCESS -> first_with (live a) (regs a) n = Some p ->
    reg_step a (RCreate n i c env) (ResHandle AIRY_EEXIST None) a
| rs_create_fails n i c env :
    create_check n c env <> AIRY_SUCCESS ->
    reg_step a (RCreate n i c env) (ResHandle (create_check n c env) None) a
| rs_destroy p r t frees :
    is_Some (live a !! p) ->
    reg_step a (RDestroy p r t frees) (ResCode AIRY_SUCCESS) (Registry (delete p (live a)) (without p (regs a)))
| rs_register_again p : p ∈ regs a -> reg_step a (RRegister p) (ResCode AIRY_SUCCESS) a
| rs_register p :
    (p ∉ regs a) -> is_Some (live a !! p) ->
    reg_step a (RRegister p) (ResCode AIRY_SUCCESS) (Registry (live a) (p :: regs a))
| rs_unregister p :
    reg_step a (RUnregister p) (ResCode (if decide (p ∈ regs a) then AIRY_SUCCESS else AIRY_ENOENT))
      (Registry (live a) (without p (regs a)))
| rs_find n : reg_step a (RFind n) (ResFound (first_with (live a) (regs a) n)) a
| rs_count : reg_step a RCount (ResNum (u32 (Z.of_nat (length (regs a))))) a
| rs_foreach : reg_step a RForeach (ResList (regs a)) a
| rs_life p op err : is_Some (live a !! p) -> reg_step a (RLife p op) (ResCode err) a.

(** The handles an operation uses are live. *)
Definition uses_live (a : registry) (op : reg_op) : Prop :=
  match op with
  | RDestroy p _ _ _ | RRegister p | RLife p _ => is_Some (live a !! p)
  | _ => True
  end.

(** The interface leaves the freeing of the service to [airy_svc_destroy]. *)
Definition leaves_freeing (op : reg_op) : Prop := match op with RDestroy _ _ _ frees => frees = false | _ => True end.

Record world_rep (w : svc_world) (a : registry) : Prop := {
  wr_reg : reg_ok w (regs a);
  wr_live : forall p, live a !! p = name <$> services w !! p;
}.

Lemma first_named_with w a n l : world_rep w a -> first_named (services w) l n = first_with (live a) l n.
Proof.
  intros [_ Hl]. induction l as [|p l IH]; simpl; [done|]. rewrite <- Hl.
  destruct (decide _); [done|apply IH].
Qed.

Lemma same_services_name h h' : same_services h h' -> forall p, name <$> h' !! p = name <$> h !! p.
Proof.
  intros H p. specialize (H p). destruct (h !! p) as [s|], (h' !! p) as [s'|]; simpl in *; try done.
  injection H as Hn. by rewrite Hn.
Qed.

Lemma world_rep_live w a p : world_rep w a -> is_Some (live a !! p) <-> is_Some (services w !! p).
Proof. intros [_ Hl]. rewrite Hl. by rewrite fmap_is_Some. Qed.

(** What the life cycle does to the world: the states and counters of one
    service. *)
Definition life_frame (w w' : svc_world) : Prop :=
  reg_head w' = reg_head w /\ service_count w' = service_count w /\ initialized w' = initialized w /\
  forall q, (fun s => (name s, next s)) <$> services w' !! q = (fun s => (name s, next s)) <$> services w !! q.

Lemma life_frame_trans w1 w2 w3 : life_frame w1 w2 -> life_frame w2 w3 -> life_frame w1 w3.
Proof.
  intros (A1 & A2 & A3 & A4) (B1 & B2 & B3 & B4). unfold life_frame.
  split_and!; [congruence..|]. intros q. by rewrite B4, A4.
Qed.

Lemma life_frame_rep w w' a : life_frame w w' -> world_rep w a -> world_rep w' a.
Proof.
  intros (Hh & Hc & Hi & Hs) [[Hseg Hnd Hcnt Hin] Hl].
  assert (Hn : forall q, name <$> services w' !! q = name <$> services w !! q).
  { intros q. specialize (Hs q). destruct (services w !! q), (services w' !! q); simplify_eq/=; congruence. }
  assert (Hx : forall q, next <$> services w' !! q = next <$> services w !! q).
  { intros q. specialize (Hs q). destruct (services w !! q), (services w' !! q); simplify_eq/=; congruence. }
  split; [split; [|done|congruence..]|].
  - rewrite Hh. apply (reg_seg_ext (services w)); [|done]. auto.
  - intros p. by rewrite Hl, Hn.
Qed.

Lemma upd_svc_frame w p f s :
  services w !! p = Some s -> name (f s) = name s -> next (f s) = next s ->
  upd_svc p f w = Some (set_services (<[p := f s]> (services w)) w) /\
  life_frame w (set_services (<[p := f s]> (services w)) w).
Proof.
  intros Hs Hn Hx. unfold upd_svc. rewrite Hs. split; [done|]. unfold life_frame. split_and!; try done.
  intros q. simpl. destruct (decide (q = p)) as [->|Hne].
  - rewrite lookup_insert_eq, Hs. simpl. by rewrite Hn, Hx.
  - by rewrite lookup_insert_ne by done.
Qed.

(** One service: its state, and the calls made to its interface. *)
Lemma set_state_twice w p s st1 st2 :
  services w !! p = Some s ->
  upd_svc p (set_state st2) (set_services (<[p := set_state st1 s]> (services w)) w) =
  Some (set_services (<[p := set_state st2 s]> (services w)) w).
Proof. intros Hs. unfold upd_svc. simpl. rewrite lookup_insert_eq. simpl. by rewrite insert_insert_eq. Qed.

Definition put_svc (p : nat) (s : airy_svc_internal_t) (w : svc_world) : svc_world :=
  set_services (<[p := s]> (services w)) w.

(** The life cycle of a service as a function of its state: the new state, the
    code returned and the call made. *)
Definition life_spec (i : airy_svc_interface_t) (caps : Z) (p : nat) (st : airy_svc_state_t) (op : life_op)
    : airy_svc_state_t * Z * list svc_call :=
  match op with
  | LInit r =>
      if decide (st = AIRY_SVC_STATE_CREATED) then
        if has_init i then
          (if r =? AIRY_SUCCESS then AIRY_SVC_STATE_READY else AIRY_SVC_STATE_ERROR, r, [CallInit p r])
        else (AIRY_SVC_STATE_READY, AIRY_SUCCESS, [])
      else (st, AIRY_ERR_SVC_NOT_READY, [])
  | LStart r =>
      if startable st then
        if has_start i then (if r =? AIRY_SUCCESS then AIRY_SVC_STATE_RUNNING else st, r, [CallStart p r])
        else (AIRY_SVC_STATE_RUNNING, AIRY_SUCCESS, [])
      else (st, AIRY_ERR_SVC_NOT_READY, [])
  | LStop force r t =>
      if stoppable st then
        if has_stop i then
          (if (r =? AIRY_SUCCESS) || force
           then (if force && t then AIRY_SVC_STATE_ZOMBIE else AIRY_SVC_STATE_STOPPED)
           else AIRY_SVC_STATE_ERROR, r, [CallStop p force r])
        else (AIRY_SVC_STATE_STOPPED, AIRY_SUCCESS, [])
      else (st, AIRY_ERR_SVC_NOT_READY, [])
  | LPause =>
      if decide (st = AIRY_SVC_STATE_RUNNING) then
        if Z.land caps AIRY_SVC_CAP_PAUSEABLE =? 0 then (st, AIRY_EPROTONOSUPPORT, [])
        else (AIRY_SVC_STATE_PAUSED, AIRY_SUCCESS, [])
      else (st, AIRY_ERR_SVC_NOT_READY, [])
  | LResume =>
      if decide (st = AIRY_SVC_STATE_PAUSED) then (AIRY_SVC_STATE_RUNNING, AIRY_SUCCESS, [])
      else (st, AIRY_ERR_SVC_NOT_READY, [])
  | LHealthcheck r now =>
      if has_healthcheck i then (st, r, [CallHealthcheck p r])
      else (st, match st with
                | AIRY_SVC_STATE_READY | AIRY_SVC_STATE_RUNNING | AIRY_SVC_STATE_PAUSED => AIRY_SUCCESS
                | AIRY_SVC_STATE_ERROR => AIRY_ERR_SVC_HEALTH
                | _ => AIRY_ERR_SVC_NOT_READY
                end, [])
  end.

#[local] Ltac life_step :=
  rewrite ?lookup_insert_eq; simpl; rewrite ?insert_insert_eq, ?app_nil_r;
  unfold put_svc, set_services, set_calls, log_call; simpl;
  try (eexists; split; [reflexivity|done]).

Lemma life_call_spec w p s op :
  services w !! p = Some s ->
  let '(st, err, cl) := life_spec (iface s) (capabilities s) p (state s) op in
  exists s', life_call w p op = Some (err, set_calls (calls w ++ cl) (put_svc p s' w)) /\
    state s' = st /\ iface s' = iface s /\ capabilities s' = capabilities s /\
    name s' = name s /\ next s' = next s.
Proof.
  intros Hs.
  assert (Hid : put_svc p s w = w) by (unfold put_svc; rewrite insert_id by done; by destruct w).
  assert (Hnil : forall w0, set_calls (calls w0 ++ []) w0 = w0) by (intros []; unfold set_calls; simpl; by rewrite app_nil_r).
  assert (Hsame : forall r : Z, exists s', Some (r, w) = Some (r, set_calls (calls w ++ []) (put_svc p s' w)) /\
    state s' = state s /\ iface s' = iface s /\ capabilities s' = capabilities s /\
    name s' = name s /\ next s' = next s)
    by (intros r; exists s; rewrite Hid, Hnil; done).
  destruct op as [r|r|force r t| | |r now]; unfold life_call, life_spec, airy_svc_init, airy_svc_start,
    airy_svc_stop, airy_svc_pause, airy_svc_resume, airy_svc_healthcheck; rewrite Hs; cbn [mbind option_bind].
  - destruct (decide (state s = AIRY_SVC_STATE_CREATED)); [|apply Hsame].
    unfold upd_svc. rewrite Hs. simpl. destruct (has_init (iface s)); simpl; life_step.
  - destruct (startable (state s)); [|apply Hsame]. unfold upd_svc. rewrite Hs. simpl.
    destruct (has_start (iface s)); simpl; [destruct (Z.eqb_spec r AIRY_SUCCESS) as [->|]; simpl|]; life_step.
  - destruct (stoppable (state s)); [|apply Hsame]. unfold upd_svc. rewrite Hs. simpl.
    destruct (has_stop (iface s)); simpl; life_step.
  - destruct (decide (state s = AIRY_SVC_STATE_RUNNING)); [|apply Hsame].
    destruct (_ =? 0); [apply Hsame|]. unfold upd_svc. rewrite Hs. simpl. life_step.
  - destruct (decide (state s = AIRY_SVC_STATE_PAUSED)); [|apply Hsame].
    unfold upd_svc. rewrite Hs. simpl. life_step.
  - destruct (has_healthcheck (iface s)); [|apply Hsame]. unfold upd_svc. simpl. rewrite Hs. simpl. life_step.
Qed.

Lemma life_call_frame w p s op :
  services w !! p = Some s -> exists err w', life_call w p op = Some (err, w') /\ life_frame w w'.
Proof.
  intros Hs. pose proof (life_call_spec w p s op Hs) as H.
  destruct (life_spec _ _ _ _ _) as [[st err] cl]. destruct H as (s' & -> & _ & _ & _ & Hn & Hx).
  eexists _, _. split; [done|]. unfold life_frame. split_and!; try done. intros q. simpl.
  destruct (decide (q = p)) as [->|Hne]; [rewrite lookup_insert_eq, Hs; simpl; by rewrite Hn, Hx|].
  by rewrite lookup_insert_ne by done.
Qed.

Lemma life_call_dead w p op : services w !! p = None -> life_call w p op = None.
Proof.
  intros Hs. destruct op; unfold life_call, airy_svc_init, airy_svc_start, airy_svc_stop,
    airy_svc_pause, airy_svc_resume, airy_svc_healthcheck; by rewrite Hs.
Qed.

(** *** The simulation *)

Section simulation.
Context (malloc : gmap nat airy_svc_internal_t -> nat).
Hypothesis malloc_fresh : forall h, h !! malloc h = None.

Lemma world_rep_fuel w a : world_rep w a -> (length (regs a) <= walk_fuel w)%nat.
Proof. intros []. by eapply reg_fuel. Qed.

Lemma same_services_rep w w' a l :
  world_rep w a -> same_services (services w) (services w') -> reg_ok w' l -> world_rep w' (Registry (live a) l).
Proof. intros [_ Hl] Hs Hok. split; [done|]. intros p. simpl. by rewrite Hl, (same_services_name _ _ Hs). Qed.

(** A new service that is not registered yet. *)
Lemma sim_add w a s :
  world_rep w a ->
  let p := malloc (services w) in
  exists w1, set_services (<[p := s]> (services w)) w = w1 /\ reg_ok w1 (regs a) /\
    (forall n, first_named (services w1) (regs a) n = first_with (live a) (regs a) n) /\
    services w1 !! p = Some s /\ forall q, name <$> services w1 !! q = <[p := name s]> (live a) !! q.
Proof.
  intros Hrep p. pose proof Hrep as [[Hseg Hnd Hcnt Hin] Hl].
  assert (Hp : p ∉ regs a).
  { intros Hin'. destruct (reg_seg_live _ _ _ _ Hseg Hin') as [s' Hs']. unfold p in Hs'.
    by rewrite malloc_fresh in Hs'. }
  assert (Hext : forall q, q ∈ regs a -> (<[p := s]> (services w)) !! q = services w !! q).
  { intros q Hq. rewrite lookup_insert_ne; [done|]. by intros ->. }
  eexists. split; [done|]. split_and!; simpl.
  - split; simpl; try done. apply (reg_seg_ext (services w)); [|done]. intros q Hq. by rewrite Hext.
  - intros n. rewrite <- (first_named_with w a n (regs a) Hrep). clear -Hext.
    induction (regs a) as [|q l IH]; simpl; [done|]. rewrite Hext by (by left).
    rewrite IH; [done|]. intros x Hx. apply Hext. by right.
  - by rewrite lookup_insert_eq.
  - intros q. destruct (decide (q = p)) as [->|Hne]; [by rewrite !lookup_insert_eq|].
    by rewrite !lookup_insert_ne by done.
Qed.

Lemma sim_create w a n i c env :
  world_rep w a -> exists r w' a', reg_call malloc w (RCreate n i c env) = Some (r, w') /\
    reg_step a (RCreate n i c env) r a' /\ world_rep w' a'.
Proof.
  intros Hrep. pose proof Hrep as [Hok Hl]. pose proof Hok as [Hseg Hnd Hcnt Hin].
  assert (Hfail : forall e, create_check n c env = e -> e <> AIRY_SUCCESS -> exists r w' a',
    (Some (e, @None nat, w) ≫= fun '(err, p, w) => Some (ResHandle err p, w)) = Some (r, w') /\
    reg_step a (RCreate n i c env) r a' /\ world_rep w' a').
  { intros e He Hne. eexists _, w, a. split; [done|]. split; [|done]. rewrite <- He in *. by constructor. }
  unfold reg_call, airy_svc_create, svc_common_module_init. rewrite Hin. unfold create_check in Hfail.
  cbn [negb Z.eqb AIRY_SUCCESS].
  destruct ((length n =? 0)%nat || (MAX_SERVICE_NAME_LEN <=? length n)%nat) eqn:E1; [by apply Hfail|].
  destruct (negb (alloc_ok env)) eqn:E2; [by apply Hfail|].
  destruct ((MAX_SERVICE_VERSION_LEN <=? _)%nat) eqn:E3; [by apply Hfail|].
  destruct (Z.eqb_spec (state_mtx env) AIRY_SUCCESS) as [E4|E4]; [|by apply Hfail].
  destruct (Z.eqb_spec (stats_mtx env) AIRY_SUCCESS) as [E5|E5]; [|by apply Hfail].
  assert (Hcheck : create_check n c env = AIRY_SUCCESS).
  { unfold create_check. rewrite E1, E2, E3, E4, E5. done. }
  set (s := Svc n _ _ _ _ _ _ _ _ _ _ _). cbn [negb].
  destruct (sim_add w a s Hrep) as (w1 & Hw1 & Hok1 & Hother & Hp & Hlv).
  set (p := malloc (services w)) in *. unfold register_service_internal.
  rewrite Hw1. rewrite (ro_init _ _ Hok1). cbn [negb]. rewrite Hp. cbn [mbind option_bind].
  unfold find_service_internal. rewrite (ro_init _ _ Hok1). cbn [negb].
  rewrite (svc_find_loop_spec _ _ (regs a)) by (apply Hok1 || by eapply reg_fuel).
  change (name s) with n. rewrite Hother. cbn [mbind option_bind].
  destruct (first_with (live a) (regs a) n) as [q|] eqn:Hq; cbn [mbind option_bind].
  - eexists _, _, a. split; [done|]. split; [by eapply rs_create_exists|].
    rewrite <- Hw1. unfold set_services at 1. simpl. fold p. rewrite delete_insert_id by apply malloc_fresh.
    by destruct w.
  - destruct (push_spec w1 (regs a) p Hok1) as (w2 & -> & Hok2 & Hsame & _); [|by rewrite Hp|].
    { intros Hin'. destruct (reg_seg_live _ _ _ _ Hseg Hin') as [s' Hs']. unfold p in Hs'.
      by rewrite malloc_fresh in Hs'. }
    cbn [mbind option_bind]. eexists _, w2, _. split; [done|]. split.
    + apply rs_create; [done|done|]. rewrite Hl. unfold p. by rewrite malloc_fresh.
    + split; [done|]. intros q. simpl. rewrite (same_services_name _ _ Hsame), Hlv. done.
Qed.

Lemma without_not_elem p (l : list nat) : p ∉ without p l.
Proof. intros [Hne _]%list_elem_of_filter. done. Qed.

Lemma sim_destroy w a p r t :
  world_rep w a -> is_Some (live a !! p) ->
  exists w', airy_svc_destroy w (Some p) r t false = Some w' /\
    world_rep w' (Registry (delete p (live a)) (without p (regs a))).
Proof.
  intros Hrep Hlive. apply (world_rep_live w a p Hrep) in Hlive as [s Hs].
  unfold airy_svc_destroy. rewrite Hs. cbn [mbind option_bind].
  assert (Hst : exists w1, (if stoppable (state s) then '(_, w1) ← airy_svc_stop w (Some p) true r t; Some w1
    else Some w) = Some w1 /\ world_rep w1 a).
  { destruct (stoppable (state s)); [|eauto].
    destruct (life_call_frame w p s (LStop true r t) Hs) as (err & w1 & Hc & Hf). unfold life_call in Hc.
    rewrite Hc. simpl. eauto using life_frame_rep. }
  destruct Hst as (w1 & -> & Hrep1). cbn [mbind option_bind].
  unfold unregister_service_internal. rewrite (ro_init _ _ (wr_reg _ _ Hrep1)). cbn [negb].
  destruct (unregister_spec w1 (regs a) p (wr_reg _ _ Hrep1)) as (w2 & -> & Hok2 & Hsame & _).
  cbn [mbind option_bind]. pose proof (same_services_rep _ _ _ _ Hrep1 Hsame Hok2) as Hrep2.
  set (w3 := if has_destroy (iface s) then log_call (CallDestroy p) w2 else w2).
  assert (Hrep3 : world_rep w3 (Registry (live a) (without p (regs a)))).
  { unfold w3. destruct (has_destroy _); [|done]. eapply life_frame_rep; [|exact Hrep2]. done. }
  assert (Hp3 : is_Some (services w3 !! p)).
  { apply (world_rep_live _ _ p Hrep3). simpl. apply (world_rep_live _ _ p Hrep). by rewrite Hs. }
  destruct Hp3 as [s3 Hs3]. rewrite Hs3. cbn [mbind option_bind]. eexists. split; [done|].
  destruct Hrep3 as [[Hseg Hnd Hcnt Hin] Hl]. simpl in *. split; simpl.
  - split; simpl; try done. apply (reg_seg_ext (services w3)); [|done]. intros q Hq.
    rewrite lookup_delete_ne; [done|]. intros ->. by apply without_not_elem in Hq.
  - intros q. destruct (decide (q = p)) as [->|Hne]; [by rewrite !lookup_delete_eq|].
    rewrite !lookup_delete_ne by done. apply Hl.
Qed.

(** Every operation on live handles is defined and is a step of the
    specification. *)
Lemma destroy_returns w p r t w' : airy_svc_destroy w (Some p) r t true = Some w' -> airy_svc_destroy w (Some p) r t false = Some w'.
Proof.
  unfold airy_svc_destroy. destruct (services w !! p) as [s|]; [|done]. cbn [mbind option_bind].
  destruct (if stoppable (state s) then _ else Some w) as [w1|]; [|done]. cbn [mbind option_bind].
  destruct (unregister_service_internal w1 p) as [[e w2]|]; [|done]. cbn [mbind option_bind]. destruct (has_destroy (iface s)); [|done].
  cbn [set_services services]. by rewrite lookup_delete_eq.
Qed.

Lemma sim_step w a op :
  world_rep w a -> uses_live a op -> leaves_freeing op ->
  exists r w' a', reg_call malloc w op = Some (r, w') /\ reg_step a op r a' /\ world_rep w' a'.
Proof.
  intros Hrep Hlive Hfree. pose proof Hrep as [Hok _]. pose proof (ro_init _ _ Hok) as Hin.
  pose proof (world_rep_fuel _ _ Hrep) as Hf. pose proof (ro_seg _ _ Hok) as Hseg.
  destruct op as [n i c env|p r t frees|p|p|n| | |p op]; unfold reg_call.
  - by apply sim_create.
  - cbn in Hfree. subst frees. destruct (sim_destroy w a p r t Hrep Hlive) as (w' & -> & Hrep'). simpl.
    eexists _, w', _. split; [done|]. split; [by constructor|done].
  - unfold airy_svc_register. rewrite Hin. cbn [negb Z.eqb AIRY_SUCCESS].
    rewrite (member_loop_spec _ _ _ p _ Hseg Hf). cbn [mbind option_bind].
    case_bool_decide as Hp; [eexists _, w, a; split; [done|]; split; [by constructor|done]|].
    destruct (push_spec w (regs a) p Hok Hp) as (w' & -> & Hok' & Hsame & _);
      [by apply (world_rep_live _ _ p Hrep)|].
    cbn [mbind option_bind]. eexists _, w', _. split; [done|]. split; [by apply rs_register|].
    by eapply same_services_rep.
  - unfold airy_svc_unregister. rewrite Hin. cbn [negb].
    destruct (unregister_spec w (regs a) p Hok) as (w' & -> & Hok' & Hsame & _). cbn [mbind option_bind].
    eexists _, w', _. split; [done|]. split; [constructor|by eapply same_services_rep].
  - unfold airy_svc_find, find_service_internal. rewrite Hin. cbn [negb].
    rewrite (svc_find_loop_spec _ _ _ n _ Hseg Hf), (first_named_with w a) by done. cbn [mbind option_bind].
    eexists _, w, a. split; [done|]. split; [constructor|done].
  - unfold airy_svc_count. rewrite Hin. simpl. rewrite (ro_count _ _ Hok).
    eexists _, w, a. split; [done|]. split; [constructor|done].
  - unfold airy_svc_foreach. rewrite Hin. cbn [negb orb]. rewrite (foreach_loop_spec _ _ _ _ Hseg Hf).
    cbn [mbind option_bind]. eexists _, w, a. split; [done|]. split; [constructor|done].
  - pose proof Hlive as [s Hs]%(world_rep_live w a p Hrep).
    destruct (life_call_frame w p s op Hs) as (err & w' & -> & Hfr). cbn [mbind option_bind].
    eexists _, w', a. split; [done|]. split; [by constructor|by eapply life_frame_rep].
Qed.

(** A client: a list of operations, each on handles live at that point. *)
Inductive reg_run : svc_world -> list (reg_op * reg_res) -> svc_world -> Prop :=
| reg_run_nil w : reg_run w [] w
| reg_run_cons w op r w' l w'' :
    reg_call malloc w op = Some (r, w') -> reg_run w' l w'' -> reg_run w ((op, r) :: l) w''.

Inductive spec_run : registry -> list (reg_op * reg_res) -> registry -> Prop :=
| spec_run_nil a : spec_run a [] a
| spec_run_cons a op r a' l a'' :
    uses_live a op -> reg_step a op r a' -> spec_run a' l a'' -> spec_run a ((op, r) :: l) a''.

Lemma reg_call_live w a op r w' : world_rep w a -> reg_call malloc w op = Some (r, w') -> uses_live a op.
Proof.
  intros Hrep. destruct op as [n i c env|p r' t frees|p|p|n| | |p op]; unfold reg_call; try done; cbn [uses_live];
    rewrite (world_rep_live w a p Hrep); (destruct (services w !! p) eqn:Hs; [done|]).
  - unfold airy_svc_destroy. by rewrite Hs.
  - unfold airy_svc_register. rewrite (ro_init _ _ (wr_reg _ _ Hrep)). cbn [negb Z.eqb AIRY_SUCCESS].
    rewrite (member_loop_spec _ _ _ p _ (ro_seg _ _ (wr_reg _ _ Hrep)) (world_rep_fuel _ _ Hrep)).
    cbn [mbind option_bind]. case_bool_decide as Hp; [|unfold reg_push, upd_svc; by rewrite Hs].
    destruct (reg_seg_live _ _ _ _ (ro_seg _ _ (wr_reg _ _ Hrep)) Hp). congruence.
  - by rewrite life_call_dead.
Qed.

Lemma run_refines w a l w' :
  world_rep w a -> reg_run w l w' -> exists a', spec_run a l a' /\ world_rep w' a'.
Proof.
  intros Hrep Hrun. revert a Hrep. induction Hrun as [w|w op r w' l w'' Hc Hrun IH]; intros a Hrep.
  { exists a. split; [constructor|done]. }
  pose proof (reg_call_live _ _ _ _ _ Hrep Hc) as Hlive.
  assert (exists a', reg_step a op r a' /\ world_rep w' a') as (a' & Hstep & Hrep').
  { destruct op as [n i c env|p r0 t [] |p|p|n| | |p op].
    2: { cbn [reg_call] in Hc. destruct (airy_svc_destroy w (Some p) r0 t true) as [w1|] eqn:Hd; [|done]. injection Hc as <- <-.
      apply destroy_returns in Hd. destruct (sim_destroy w a p r0 t Hrep Hlive) as (w2 & Hd' & Hrep'). rewrite Hd in Hd'. injection Hd' as <-.
      eexists. split; [by constructor|done]. }
    all: match type of Hc with reg_call _ _ ?o = _ => destruct (sim_step w a o Hrep Hlive) as (r' & w1 & a' & Hc' & Hstep & Hrep'); [done|] end;
      rewrite Hc in Hc'; injection Hc' as <- <-; by exists a'. }
  destruct (IH a' Hrep') as (a'' & Hspec & Hrep'').
  exists a''. split; [by eapply spec_run_cons|done].
Qed.

Definition names_distinct (a : registry) : Prop :=
  forall p q n, p ∈ regs a -> q ∈ regs a -> live a !! p = Some n -> live a !! q = Some n -> p = q.

Lemma first_with_none m l n p : first_with m l n = None -> p ∈ l -> m !! p <> Some n.
Proof.
  induction l as [|q l IH]; simpl; [by intros _ ?%elem_of_nil|]. case_decide; [done|].
  intros Hn [->|Hp]%elem_of_cons; auto.
Qed.

Definition is_register (op : reg_op) : bool := match op with RRegister _ => true | _ => false end.

Lemma step_distinct a op r a' :
  names_distinct a -> (forall p, p ∈ regs a -> is_Some (live a !! p)) -> is_register op = false ->
  reg_step a op r a' -> names_distinct a' /\ forall p, p ∈ regs a' -> is_Some (live a' !! p).
Proof.
  intros Hd Hl Hreg Hstep. destruct Hstep as [n i c env p _ Hn Hp| | |p r t frees _| |p|p| | | |]; try done; simpl.
  - assert (Hne : forall q, q ∈ regs a -> q <> p) by (intros q Hq ->; destruct (Hl p Hq); congruence).
    split.
    + intros x y m [->|Hx]%elem_of_cons [->|Hy]%elem_of_cons; simpl; [done|..].
      * rewrite lookup_insert_eq. rewrite lookup_insert_ne by (symmetry; auto). intros [= <-] H.
        by apply (first_with_none _ _ _ _ Hn Hy) in H.
      * rewrite lookup_insert_eq. rewrite lookup_insert_ne by (symmetry; auto). intros H [= <-].
        by apply (first_with_none _ _ _ _ Hn Hx) in H.
      * rewrite !lookup_insert_ne by (symmetry; auto). by apply Hd.
    + intros x [->|Hx]%elem_of_cons; [by rewrite lookup_insert_eq|].
      rewrite lookup_insert_ne by (symmetry; auto). auto.
  - split.
    + intros x y m [Hx Hx']%list_elem_of_filter [Hy Hy']%list_elem_of_filter. simpl.
      rewrite !lookup_delete_ne by done. by apply Hd.
    + intros x [Hx Hx']%list_elem_of_filter. rewrite lookup_delete_ne by done. auto.
  - split; [|intros x [_ Hx]%list_elem_of_filter; auto].
    intros x y m [_ Hx]%list_elem_of_filter [_ Hy]%list_elem_of_filter. by apply Hd.
Qed.

Lemma run_distinct a l a' :
  spec_run a l a' -> names_distinct a -> (forall p, p ∈ regs a -> is_Some (live a !! p)) ->
  forallb (fun x => negb (is_register x.1)) l = true -> names_distinct a'.
Proof.
  induction 1 as [|a op r a' l a'' _ Hstep Hrun IH]; intros Hd Hl Hops; [done|].
  simpl in Hops. apply andb_true_iff in Hops as [Hop Hops]. apply negb_true_iff in Hop.
  destruct (step_distinct _ _ _ _ Hd Hl Hop Hstep). auto.
Qed.

End simulation.

(** The world once the module is initialised. *)
Definition fresh_world : svc_world :=
  (svc_common_module_init (World ∅ None 0 false []) AIRY_SUCCESS).2.

Lemma fresh_world_rep : world_rep fresh_world (Registry ∅ []).
Proof. split; [split; try done; apply NoDup_nil_2|]. intros p. simpl. by rewrite !lookup_empty. Qed.

(** ** The protocol of the interface *)

Inductive phase := PCreated | PIdle | PStarted | PFailed.

(** Where a call leaves the interface; [None]: the call is not allowed there. *)
Definition phase_call (ph : phase) (c : svc_call) : option phase :=
  match ph, c with
  | PCreated, CallInit _ r => Some (if r =? AIRY_SUCCESS then PIdle else PFailed)
  | PIdle, CallStart _ r => Some (if r =? AIRY_SUCCESS then PStarted else PIdle)
  | PStarted, CallStart _ _ => Some PStarted
  | PStarted, CallStop _ force r => Some (if (r =? AIRY_SUCCESS) || force then PIdle else PFailed)
  | ph, CallHealthcheck _ _ => Some ph
  | _, _ => None
  end.

Definition phase_run (ph : phase) (l : list svc_call) : option phase :=
  foldl (fun o c => ph ← o; phase_call ph c) (Some ph) l.

Definition phase_of (st : airy_svc_state_t) : option phase :=
  match st with
  | AIRY_SVC_STATE_CREATED => Some PCreated
  | AIRY_SVC_STATE_READY | AIRY_SVC_STATE_STOPPED | AIRY_SVC_STATE_ZOMBIE => Some PIdle
  | AIRY_SVC_STATE_RUNNING | AIRY_SVC_STATE_PAUSED => Some PStarted
  | AIRY_SVC_STATE_ERROR => Some PFailed
  | _ => None
  end.

Definition full_interface (i : airy_svc_interface_t) : bool := has_init i && has_start i && has_stop i.

Fixpoint life_run (w : svc_world) (p : nat) (ops : list life_op) : option (list Z * svc_world) :=
  match ops with
  | [] => Some ([], w)
  | op :: ops' => '(r, w) ← life_call w p op; '(rs, w) ← life_run w p ops'; Some (r :: rs, w)
  end.

Lemma life_spec_phase i caps p st op ph :
  full_interface i = true -> phase_of st = Some ph ->
  phase_run ph (life_spec i caps p st op).2 = phase_of (life_spec i caps p st op).1.1 /\
  is_Some (phase_of (life_spec i caps p st op).1.1).
Proof.
  unfold full_interface. intros Hfull Hst. apply andb_true_iff in Hfull as [[Hi Hs]%andb_true_iff Hp].
  destruct op as [r|r|force r t| | |r now]; unfold life_spec; rewrite ?Hi, ?Hs, ?Hp; simpl;
    destruct st; simpl in *; simplify_eq/=; unfold phase_run; simpl;
    repeat (case_match; simpl; simplify_eq/=); try done; try (by split; [|eexists]).
Qed.

Lemma phase_run_app ph l1 l2 ph' : phase_run ph l1 = Some ph' -> phase_run ph (l1 ++ l2) = phase_run ph' l2.
Proof. unfold phase_run. rewrite foldl_app. by intros ->. Qed.

Lemma life_run_phase w p s ph0 ph ops :
  services w !! p = Some s -> full_interface (iface s) = true -> phase_of (state s) = Some ph ->
  phase_run ph0 (calls w) = Some ph ->
  exists rs w' s' ph', life_run w p ops = Some (rs, w') /\ services w' !! p = Some s' /\
    phase_of (state s') = Some ph' /\ phase_run ph0 (calls w') = Some ph'.
Proof.
  revert w s ph. induction ops as [|op ops IH]; intros w s ph Hs Hfull Hst Hrun.
  { exists [], w, s, ph. done. }
  pose proof (life_call_spec w p s op Hs) as H.
  pose proof (life_spec_phase (iface s) (capabilities s) p (state s) op ph Hfull Hst) as [Hph [ph1 Hph1]].
  destruct (life_spec _ _ _ _ _) as [[st err] cl]. simpl in Hph, Hph1.
  destruct H as (s1 & Hc & Hst1 & Hi1 & _). cbn [life_run]. rewrite Hc. cbn [mbind option_bind].
  destruct (IH (set_calls (calls w ++ cl) (put_svc p s1 w)) s1 ph1)
    as (rs & w' & s' & ph' & -> & Hs' & Hp' & Hr'); simpl.
  - by rewrite lookup_insert_eq.
  - by rewrite Hi1.
  - by rewrite Hst1.
  - by rewrite (phase_run_app _ _ _ _ Hrun), Hph.
  - eexists _, w', s', ph'. done.
Qed.

(** ** Properties *)

(** C14: over every sequence of calls that returns, from an initialised module on
    and without a cleanup of the module, the registry is a list of handles with
    the most recent first: each call gives the answer of the list.  In the state
    reached every further call on live handles is defined, where a destroyed
    service's interface leaves its freeing to the module, so no walk meets a
    freed service or fails to end. *)
Theorem registry_refines_list malloc l w' :
  (forall h, h !! malloc h = None) -> reg_run malloc fresh_world l w' ->
  exists a, spec_run (Registry ∅ []) l a /\ world_rep w' a /\
    forall op, uses_live a op -> leaves_freeing op -> is_Some (reg_call malloc w' op).
Proof.
  intros Hm Hrun. destruct (run_refines malloc Hm _ _ _ _ fresh_world_rep Hrun) as (a & Hspec & Hrep).
  exists a. split_and!; [done|done|]. intros op Hop Hfree.
  destruct (sim_step malloc Hm w' a op Hrep Hop Hfree) as (r & w1 & a1 & -> & _). done.
Qed.

Definition fresh_svc (h : gmap nat airy_svc_internal_t) : nat := fresh (elements (dom h : gset nat)).

Lemma fresh_svc_ok h : h !! fresh_svc h = None.
Proof.
  apply (not_elem_of_dom (D:=gset nat)). rewrite <- elem_of_elements. apply infinite_is_fresh.
Qed.

Definition sample_iface : airy_svc_interface_t := SvcInterface true true true true false true.
Definition sample_cfg : airy_svc_config_t := SvcConfig (Some (cs "1.0")) 8 4 1000 0 false false false.
Definition sample_env : svc_env := SvcEnv 0 true 0 0.
Definition create_op (n : cstr) : reg_op := RCreate n sample_iface sample_cfg sample_env.

(** Runs of the calls, for the examples. *)
Fixpoint run_calls (w : svc_world) (ops : list reg_op) : option (list (reg_op * reg_res) * svc_world) :=
  match ops with
  | [] => Some ([], w)
  | op :: ops' =>
      '(r, w) ← reg_call fresh_svc w op; '(l, w) ← run_calls w ops'; Some ((op, r) :: l, w)
  end.

Lemma run_calls_run w ops l w' : run_calls w ops = Some (l, w') -> reg_run fresh_svc w l w'.
Proof.
  revert w l. induction ops as [|op ops IH]; intros w l; simpl; [intros [= <- <-]; constructor|].
  destruct (reg_call fresh_svc w op) as [[r w1]|] eqn:Hc; simpl; [|done].
  destruct (run_calls w1 ops) as [[l1 w2]|] eqn:Hr; simpl; [|done]. intros [= <- <-].
  eapply reg_run_cons; [done|]. by apply IH.
Qed.

Lemma registry_refines_list_witness :
  exists l w' a, run_calls fresh_world [create_op (cs "a"); create_op (cs "b"); create_op (cs "a"); RFind (cs "a");
      RDestroy 0 0 false false; RForeach] = Some (l, w') /\
    map snd l = [ResHandle 0 (Some 0%nat); ResHandle 0 (Some 1%nat); ResHandle (-17) None;
      ResFound (Some 0%nat); ResCode 0; ResList [1%nat]] /\ spec_run (Registry ∅ []) l a.
Proof.
  destruct (run_calls fresh_world [create_op (cs "a"); create_op (cs "b"); create_op (cs "a"); RFind (cs "a");
      RDestroy 0 0 false false; RForeach]) as [[l w']|] eqn:Hrun; [|vm_compute in Hrun; discriminate Hrun].
  destruct (registry_refines_list fresh_svc l w' fresh_svc_ok (run_calls_run _ _ _ _ Hrun)) as (a & Hspec & _).
  exists l, w', a. split; [reflexivity|]. split; [|exact Hspec].
  vm_compute in Hrun. injection Hrun as <- _. reflexivity.
Defined.

(** As long as services are registered only by their creation (the guard
    of [register_service_internal]), no two registered services have the same
    name, whatever is created, destroyed or unregistered. *)
Theorem registered_names_unique malloc l w' ps p q s s' :
  (forall h, h !! malloc h = None) -> reg_run malloc fresh_world l w' ->
  forallb (fun x => negb (is_register x.1)) l = true ->
  airy_svc_foreach w' true = Some ps -> p ∈ ps -> q ∈ ps ->
  services w' !! p = Some s -> services w' !! q = Some s' -> name s = name s' -> p = q.
Proof.
  intros Hm Hrun Hops Hps Hp Hq Hs Hs' Hn.
  destruct (run_refines malloc Hm _ _ _ _ fresh_world_rep Hrun) as (a & Hspec & Hrep).
  assert (Hd : names_distinct a).
  { eapply run_distinct; [exact Hspec| | |done]; simpl; [intros ? ? ? H|intros ? H]; by apply elem_of_nil in H. }
  pose proof Hrep as [Hok Hl]. unfold airy_svc_foreach in Hps. rewrite (ro_init _ _ Hok) in Hps. cbn [negb orb] in Hps.
  rewrite (foreach_loop_spec _ _ (regs a)) in Hps; [|apply Hok|by eapply reg_fuel].
  injection Hps as <-. apply (Hd p q (name s)); [done|done|by rewrite Hl, Hs|by rewrite Hl, Hs', Hn].
Qed.

Lemma registered_names_unique_witness :
  exists l w', run_calls fresh_world [create_op (cs "a"); create_op (cs "b")] = Some (l, w') /\
    forall p q s s', p ∈ [1%nat; 0%nat] -> q ∈ [1%nat; 0%nat] ->
      services w' !! p = Some s -> services w' !! q = Some s' -> name s = name s' -> p = q.
Proof.
  destruct (run_calls fresh_world [create_op (cs "a"); create_op (cs "b")]) as [[l w']|] eqn:Hrun;
    [|vm_compute in Hrun; discriminate Hrun].
  exists l, w'. split; [reflexivity|]. intros p q s s' Hp Hq Hs Hs' Hn.
  apply (registered_names_unique fresh_svc l w' [1%nat; 0%nat] p q s s'); try assumption.
  - exact fresh_svc_ok.
  - exact (run_calls_run _ _ _ _ Hrun).
  - vm_compute in Hrun. injection Hrun as <- _. reflexivity.
  - vm_compute in Hrun. injection Hrun as _ <-. reflexivity.
Defined.

(** C29: the functions of a service's interface are called in the order the
    life cycle promises, over every sequence of operations: [init] once and
    first, [start] only after a successful [init], [stop] only while a start is
    in effect, and nothing but health checks after a failed [init] or an
    unforced failed [stop]; and the state always tells which phase the
    interface is in. *)
Theorem svc_callback_protocol w p s ops :
  services w !! p = Some s -> full_interface (iface s) = true ->
  state s = AIRY_SVC_STATE_CREATED -> calls w = [] ->
  exists rs w' s' ph, life_run w p ops = Some (rs, w') /\ services w' !! p = Some s' /\
    phase_of (state s') = Some ph /\ phase_run PCreated (calls w') = Some ph.
Proof.
  intros Hs Hfull Hst Hc. apply (life_run_phase w p s PCreated PCreated ops); [done|done|by rewrite Hst|by rewrite Hc].
Qed.

Definition sample_svc : airy_svc_internal_t :=
  Svc (cs "a") (cs "1.0") AIRY_SVC_STATE_CREATED sample_cfg 8 zero_stats sample_iface 0 0 None None None.
Definition sample_world : svc_world := World {[ 0%nat := sample_svc ]} (Some 0%nat) 1 true [].

Lemma svc_callback_protocol_witness :
  exists rs w' s' ph,
    life_run sample_world 0 [LStart 0; LInit 0; LStart (-1); LStart 0; LPause; LStop true (-5) true; LStart 0] =
      Some (rs, w') /\ services w' !! 0%nat = Some s' /\
    phase_of (state s') = Some ph /\ phase_run PCreated (calls w') = Some ph.
Proof.
  apply (svc_callback_protocol sample_world 0 sample_svc
    [LStart 0; LInit 0; LStart (-1); LStart 0; LPause; LStop true (-5) true; LStart 0]); reflexivity.
Defined.

(** The names of the states are read back, in any letter case. *)
Theorem state_string_roundtrip st str :
  map tolower str = map tolower (airy_svc_state_to_string st) ->
  airy_svc_state_from_string (Some str) = st.
Proof.
  intros Hstr. unfold airy_svc_state_from_string.
  assert (H : forall m, state_lookup m str = state_lookup m (airy_svc_state_to_string st)).
  { induction m as [|[n st'] m IH]; [done|]. simpl. unfold strcasecmp_eq. by rewrite Hstr, IH. }
  rewrite H. by destruct st.
Qed.

Lemma state_string_roundtrip_witness :
  airy_svc_state_from_string (Some (cs "zombie")) = AIRY_SVC_STATE_ZOMBIE.
Proof. apply (state_string_roundtrip AIRY_SVC_STATE_ZOMBIE (cs "zombie")). reflexivity. Defined.

(** An asynchronous request that is accepted completes exactly once, with
    the handler's answer, and its context is released exactly once; one that is
    refused never completes. *)
Theorem async_completes_once s method params cb ud alloc dm dp rc result :
  let '(ret, evs) := airy_svc_handle_request_async s method params (Some cb) ud alloc dm dp rc result in
  omap (fun e => match e with AComplete c m err resp u => Some (c, err, resp, u) | _ => None end) evs =
    (if (ret =? 0) then
       match s with
       | Some s => [(cb, if has_handle_request (iface s) then result.1 else AIRY_EINVAL,
                     if has_handle_request (iface s) then result.2 else None, ud)]
       | None => []
       end
     else []) /\
  length (List.filter (fun e => match e with AFreeContext => true | _ => false end) evs) =
    (if alloc then match s, method with Some _, Some _ => 1 | _, _ => 0 end else 0)%nat.
Proof.
  unfold airy_svc_handle_request_async. destruct s as [s|]; [|by destruct method, alloc].
  destruct method as [method|]; [|by destruct alloc]. destruct alloc; [|done]. simpl.
  destruct (thread_pool s); [destruct (rc =? 0) eqn:E; simpl; [|by rewrite E]|];
    unfold async_request_worker; by destruct (has_handle_request (iface s)).
Qed.

(** [airy_svc_common_cleanup] keeps the list of services but makes
    [airy_svc_destroy] skip it: a service destroyed afterwards stays in the
    list, and the next creation reads it. *)
Lemma cleanup_leaves_dangling :
  exists l w, run_calls fresh_world [create_op (cs "a")] = Some (l, w) /\
    exists w2, airy_svc_destroy (airy_svc_common_cleanup w) (Some 0%nat) 0 false false = Some w2 /\
      services w2 !! 0%nat = None /\ reg_head w2 = Some 0%nat /\
      (forall p, airy_svc_create (fun _ => S p) w2 (Some (cs "b")) (Some sample_iface) (Some sample_cfg) sample_env = None).
Proof.
  eexists _, _. split; [reflexivity|]. eexists. split; [reflexivity|]. split; [reflexivity|].
  split; [reflexivity|]. intros p. unfold airy_svc_create. simpl. unfold register_service_internal. simpl.
  rewrite lookup_insert_eq. simpl. by rewrite lookup_insert_ne by done.
Qed.

(** [airy_svc_register] looks for the handle, not for the name: a service that
    was unregistered can be registered again beside another of the same
    name. *)
Lemma register_allows_duplicates :
  exists l w, run_calls fresh_world [create_op (cs "a"); RUnregister 0; create_op (cs "a"); RRegister 0; RForeach]
      = Some (l, w) /\
    map snd l = [ResHandle 0 (Some 0%nat); ResCode 0; ResHandle 0 (Some 1%nat); ResCode 0; ResList [0%nat; 1%nat]].
Proof. eexists _, _. split; reflexivity. Qed.

(** An interface whose [destroy] frees the service, as its type says: the module
    uses and frees it again. *)
Lemma documented_destroy_double_free :
  exists l w, run_calls fresh_world [create_op (cs "a")] = Some (l, w) /\ airy_svc_destroy w (Some 0%nat) 0 false true = None.
Proof. eexists _, _. split; reflexivity. Qed.
