(* ===== verification/ConfigCore.v ===== *)
(** * Configuration values and contexts:
    utils/config_unified/core_config_value.c and core_config.c

    A configuration value is a block of the heap with one owner; a context is
    an array of keys and pointers to the values it owns.  Operations run in a
    monad over the heap that is undefined ([None]) when a block that is not
    allocated is read or freed, and in which each request for memory is granted
    or refused by an arbitrary schedule.  A context operation that takes the
    mutex is one step. *)
From S2P Require Import Prelude CLib.

(** ** The heap *)

Inductive config_value :=
  | CNull
  | CBool (bool_value : bool)
  | CInt (int_value : Z)
  | CInt64 (int64_value : Z)
  | CDouble (double_value : spec_float)
  | CString (str : cstr) (len : Z).

(** [vals] holds the live value blocks, each with the string it owns; [oom] is
    what the allocator answers to the next requests ([false]: refused); it
    grants the ones after the end of the list. *)
Record mem := Mem { vals : gmap nat config_value; oom : list bool }.

Definition M (A : Type) : Type := mem -> option (A * mem).
Definition ret {A} (x : A) : M A := fun m => Some (x, m).
Definition bind {A B} (f : M A) (g : A -> M B) : M B :=
  fun m => match f m with Some (x, m') => g x m' | None => None end.
Definition undefined {A} : M A := fun _ => None.

Declare Scope mem_scope.
Delimit Scope mem_scope with M.
Notation "'let*' x := f 'in' g" := (bind f (fun x => g))
  (at level 100, x pattern, f at level 100, g at level 200, right associativity) : mem_scope.
Notation "f ;;; g" := (bind f (fun _ => g)) (at level 100, right associativity) : mem_scope.
Open Scope mem_scope.

(** Whether the next request for memory is granted. *)
Definition grant : M bool :=
  fun m => match oom m with [] => Some (true, m) | b :: r => Some (b, Mem (vals m) r) end.

Definition new_block (v : config_value) : M nat :=
  fun m => let p := fresh (dom (vals m)) in Some (p, Mem (<[p := v]> (vals m)) (oom m)).

Definition load (p : nat) : M config_value :=
  fun m => match vals m !! p with Some v => Some (v, m) | None => None end.

Definition free_block (p : nat) : M unit :=
  fun m => match vals m !! p with Some _ => Some (tt, Mem (delete p (vals m)) (oom m)) | None => None end.

(** ** Errors (core_config.h) *)
Definition CONFIG_SUCCESS : Z := 0.
Definition CONFIG_ERROR_INVALID_ARG : Z := 1.
Definition CONFIG_ERROR_NOT_FOUND : Z := 2.
Definition CONFIG_ERROR_OUT_OF_MEMORY : Z := 4.
Definition CONFIG_ERROR_IO : Z := 5.
Definition CONFIG_ERROR_PARSE : Z := 6.
Definition CONFIG_ERROR_UNSUPPORTED : Z := 8.

(** ** Values: core_config_value.c *)

Definition duplicate_string (str : option cstr) : M (option cstr) :=
  match str with
  | None => ret None
  | Some s => let* ok := grant in ret (if (ok : bool) then Some s else None)
  end.

(** The creation of a value without a string: one block. *)
Definition config_value_alloc (v : config_value) : M (option nat) :=
  let* ok := grant in
  if (ok : bool) then (let* p := new_block v in ret (Some p)) else ret None.

Definition config_value_create_null : M (option nat) := config_value_alloc CNull.
Definition config_value_create_bool (b : bool) : M (option nat) := config_value_alloc (CBool b).
Definition config_value_create_int (z : Z) : M (option nat) := config_value_alloc (CInt z).
Definition config_value_create_int64 (z : Z) : M (option nat) := config_value_alloc (CInt64 z).
Definition config_value_create_double (d : spec_float) : M (option nat) := config_value_alloc (CDouble d).

(** The block comes first and is given back when the string cannot be copied. *)
Definition config_value_create_string (value : option cstr) : M (option nat) :=
  match value with
  | None => config_value_create_null
  | Some s =>
      let* val := config_value_alloc (CString [] 0) in
      match val with
      | None => ret None
      | Some p =>
          let* copy := duplicate_string (Some s) in
          match copy with
          | None => free_block p ;;; ret None
          | Some s' =>
              fun m => Some (Some p, Mem (<[p := CString s' (Z.of_nat (length s))]> (vals m)) (oom m))
          end
      end
  end.

Definition config_value_clone (value : option nat) : M (option nat) :=
  match value with
  | None => ret None
  | Some p =>
      let* v := load p in
      match v with
      | CNull => config_value_create_null
      | CBool b => config_value_create_bool b
      | CInt z => config_value_create_int z
      | CInt64 z => config_value_create_int64 z
      | CDouble d => config_value_create_double d
      | CString s _ => config_value_create_string (Some s)
      end
  end.

Definition config_value_destroy (value : option nat) : M unit :=
  match value with None => ret tt | Some p => free_block p end.

(** The getters read a value ([None] is the null pointer); the conversion of a
    double that does not fit is undefined. *)
Definition config_value_get_type (value : option config_value) : Z :=
  match value with
  | None | Some CNull => 0
  | Some (CBool _) => 1
  | Some (CInt _) => 2
  | Some (CInt64 _) => 3
  | Some (CDouble _) => 4
  | Some (CString _ _) => 5
  end.

Definition config_value_get_bool (value : option config_value) (default_value : bool) : bool :=
  match value with Some (CBool b) => b | _ => default_value end.

Definition config_value_get_int (value : option config_value) (default_value : Z) : option Z :=
  match value with
  | Some (CInt z) => Some z
  | Some (CInt64 z) => Some (s32 z)
  | Some (CDouble d) => to_int INT32_MIN INT32_MAX d
  | Some (CString s _) => Some (s32 (fst (strtoll s 10)))
  | _ => Some default_value
  end.

Definition config_value_get_int64 (value : option config_value) (default_value : Z) : option Z :=
  match value with
  | Some (CInt z) => Some z
  | Some (CInt64 z) => Some z
  | Some (CDouble d) => to_int INT64_MIN INT64_MAX d
  | Some (CString s _) => Some (fst (strtoll s 10))
  | _ => Some default_value
  end.

Definition config_value_get_double (value : option config_value) (default_value : spec_float) : spec_float :=
  match value with
  | Some (CInt z) => of_int z
  | Some (CInt64 z) => of_int z
  | Some (CDouble d) => d
  | Some (CString s _) => fst (strtod s)
  | _ => default_value
  end.

Definition config_value_get_string (value : option config_value) (default_value : option cstr) : option cstr :=
  match value with Some (CString s _) => Some s | _ => default_value end.

(** ** Contexts: core_config.c *)

(** [items] are the entries in use, so [count] is their number. *)
Record config_context := Context {
  name : cstr;
  items : list (cstr * nat);
  capacity : Z;
  has_schema : bool;
  hot_reload_enabled : bool;
  reload_interval_ms : Z;
  encryption_enabled : bool;
}.

Definition set_items (v : list (cstr * nat)) (r : config_context) : config_context :=
  Context (name r) v (capacity r) (has_schema r) (hot_reload_enabled r) (reload_interval_ms r)
    (encryption_enabled r).
Definition set_capacity (v : Z) (r : config_context) : config_context :=
  Context (name r) (items r) v (has_schema r) (hot_reload_enabled r) (reload_interval_ms r)
    (encryption_enabled r).
Definition set_has_schema (v : bool) (r : config_context) : config_context :=
  Context (name r) (items r) (capacity r) v (hot_reload_enabled r) (reload_interval_ms r)
    (encryption_enabled r).
Definition set_hot_reload (b : bool) (ms : Z) (r : config_context) : config_context :=
  Context (name r) (items r) (capacity r) (has_schema r) b ms (encryption_enabled r).
Definition set_encryption (v : bool) (r : config_context) : config_context :=
  Context (name r) (items r) (capacity r) (has_schema r) (hot_reload_enabled r)
    (reload_interval_ms r) v.

Definition count (ctx : config_context) : Z := Z.of_nat (length (items ctx)).

Definition INDEX_NOT_FOUND : Z := -1.

(** The index is returned as an [int]. *)
Fixpoint find_item_loop (l : list (cstr * nat)) (i : Z) (key : cstr) : Z :=
  match l with
  | [] => INDEX_NOT_FOUND
  | (k, _) :: l' => if decide (k = key) then s32 i else find_item_loop l' (i + 1) key
  end.

Definition find_item_index (ctx : config_context) (key : cstr) : Z := find_item_loop (items ctx) 0 key.

Definition expand_context_capacity (ctx : config_context) : M (Z * config_context) :=
  let new_capacity := if capacity ctx =? 0 then 16 else capacity ctx * 2 in
  let* ok := grant in
  ret (if (ok : bool) then (CONFIG_SUCCESS, set_capacity new_capacity ctx)
       else (CONFIG_ERROR_OUT_OF_MEMORY, ctx)).

Definition config_context_create (nm : option cstr) : M (option config_context) :=
  let* ok := grant in
  if negb ok then ret None else
  let* copy := duplicate_string (match nm with Some s => Some s | None => Some (cs "default") end) in
  match copy with
  | None => ret None
  | Some s =>
      let* ok := grant in
      ret (if (ok : bool) then Some (Context s [] 16 false false 0 false) else None)
  end.

(** The loop shared by the destruction and the clearing of a context. *)
Fixpoint destroy_items (l : list (cstr * nat)) : M unit :=
  match l with
  | [] => ret tt
  | (_, p) :: l' => config_value_destroy (Some p) ;;; destroy_items l'
  end.

Definition config_context_destroy (ctx : config_context) : M unit := destroy_items (items ctx).

(** The value belongs to the context from here on, also when the call fails. *)
Definition config_context_set (ctx : config_context) (key : option cstr) (value : option nat)
    : M (Z * config_context) :=
  match key, value with
  | Some k, Some p =>
      let index := find_item_index ctx k in
      if 0 <=? index then
        match items ctx !! Z.to_nat index with
        | None => undefined
        | Some (k', old) =>
            config_value_destroy (Some old) ;;;
            ret (CONFIG_SUCCESS, set_items (<[Z.to_nat index := (k', p)]> (items ctx)) ctx)
        end
      else
        let* r := (if capacity ctx <=? count ctx then expand_context_capacity ctx
                   else ret (CONFIG_SUCCESS, ctx)) in
        let '(err, ctx) := r in
        if negb (err =? CONFIG_SUCCESS) then config_value_destroy (Some p) ;;; ret (err, ctx) else
        let* copy := duplicate_string (Some k) in
        match copy with
        | None => config_value_destroy (Some p) ;;; ret (CONFIG_ERROR_OUT_OF_MEMORY, ctx)
        | Some kc => ret (CONFIG_SUCCESS, set_items (items ctx ++ [(kc, p)]) ctx)
        end
  | _, Some p => config_value_destroy (Some p) ;;; ret (CONFIG_ERROR_INVALID_ARG, ctx)
  | _, None => ret (CONFIG_ERROR_INVALID_ARG, ctx)
  end.

(** The pointer is borrowed from the context. *)
Definition config_context_get (ctx : config_context) (key : option cstr) : option nat :=
  match key with
  | None => None
  | Some k =>
      let index := find_item_index ctx k in
      if 0 <=? index then snd <$> items ctx !! Z.to_nat index else None
  end.

Definition config_context_has (ctx : config_context) (key : option cstr) : bool :=
  match key with None => false | Some k => 0 <=? find_item_index ctx k end.

Definition config_context_clear (ctx : config_context) : M config_context :=
  destroy_items (items ctx) ;;; ret (set_items [] ctx).

Definition config_context_count (ctx : config_context) : Z := count ctx.

(** One round of the loops of clone and copy: the copies of the key and the
    value go to the end of [dst]; on failure they are given back. *)
Definition push_copy (dst : config_context) (it : cstr * nat) : M (Z * config_context) :=
  let* key_copy := duplicate_string (Some (fst it)) in
  match key_copy with
  | None => ret (CONFIG_ERROR_OUT_OF_MEMORY, dst)
  | Some kc =>
      let* val_copy := config_value_clone (Some (snd it)) in
      match val_copy with
      | None => ret (CONFIG_ERROR_OUT_OF_MEMORY, dst)
      | Some p =>
          let* r := (if capacity dst <=? count dst then expand_context_capacity dst
                     else ret (CONFIG_SUCCESS, dst)) in
          let '(err, dst) := r in
          if negb (err =? CONFIG_SUCCESS) then config_value_destroy (Some p) ;;; ret (err, dst)
          else ret (CONFIG_SUCCESS, set_items (items dst ++ [(kc, p)]) dst)
      end
  end.

Fixpoint push_copies (dst : config_context) (l : list (cstr * nat)) : M (Z * config_context) :=
  match l with
  | [] => ret (CONFIG_SUCCESS, dst)
  | it :: l' =>
      let* r := push_copy dst it in
      let '(err, dst) := r in
      if negb (err =? CONFIG_SUCCESS) then ret (err, dst) else push_copies dst l'
  end.

Definition config_context_clone (ctx : config_context) : M (option config_context) :=
  let* clone := config_context_create (Some (name ctx)) in
  match clone with
  | None => ret None
  | Some c =>
      let* r := push_copies c (items ctx) in
      let '(err, c) := r in
      if negb (err =? CONFIG_SUCCESS) then config_context_destroy c ;;; ret None else ret (Some c)
  end.

(** [src] is a context other than [dst]. *)
Definition config_context_copy (dst src : config_context) : M (Z * config_context) :=
  let* dst := config_context_clear dst in
  push_copies dst (items src).

(** [dst] and [src] are the same context: the entries are cleared before the
    loop reads them. *)
Definition config_context_copy_self (ctx : config_context) : M (Z * config_context) :=
  let* ctx := config_context_clear ctx in
  push_copies ctx (items ctx).

Definition config_context_set_schema (ctx : config_context) (schema : bool) : config_context :=
  set_has_schema schema ctx.
Definition config_context_set_hot_reload (ctx : config_context) (enabled : bool) (interval_ms : Z)
    : config_context := set_hot_reload enabled interval_ms ctx.
Definition config_context_set_encryption (ctx : config_context) (enabled : bool) : config_context :=
  set_encryption enabled ctx.

(** ** A program logic for the heap

    [st R hf L m]: the blocks of [m] are those of the list [L], which the code
    at hand owns, and those of the frame [hf], which it leaves alone; if [R]
    does not hold, no request for memory will be refused. *)

Definition wp {A} (f : M A) (Q : A -> mem -> Prop) (m : mem) : Prop :=
  exists x m', f m = Some (x, m') /\ Q x m'.

Definition st (R : Prop) (hf : gmap nat config_value) (L : list (nat * config_value)) (m : mem) : Prop :=
  NoDup L.*1 /\ (forall p, p ∈ L.*1 -> hf !! p = None) /\
  vals m = list_to_map L ∪ hf /\ (R \/ Forall (eq true) (oom m)).

Lemma wp_ret {A} (x : A) Q m : Q x m -> wp (ret x) Q m.
Proof. intros H. exists x, m. done. Qed.

Lemma wp_bind {A B} (f : M A) (g : A -> M B) Q m :
  wp f (fun x => wp (g x) Q) m -> wp (bind f g) Q m.
Proof.
  intros (x & m' & Hf & y & m'' & Hg & HQ). exists y, m''. unfold bind. rewrite Hf. done.
Qed.

Lemma wp_mono {A} (f : M A) (P Q : A -> mem -> Prop) m :
  wp f P m -> (forall x m', P x m' -> Q x m') -> wp f Q m.
Proof. intros (x & m' & Hf & HP) H. exists x, m'. auto. Qed.

(** A slot of a context: its key, its block and the value in the block. *)
Abbreviation slot := (cstr * nat * config_value)%type.

Section logic.
Context {R : Prop} {hf : gmap nat config_value}.
Implicit Types (L : list (nat * config_value)) (m : mem).

Abbreviation owns := (st R hf).

Lemma st_perm L L' m : L ≡ₚ L' -> owns L m -> owns L' m.
Proof.
  intros HP (Hnd & Hf & Hv & Ho). unfold st. split_and!; [by rewrite <- HP| |  |done].
  - intros p. rewrite <- HP. apply Hf.
  - rewrite Hv. f_equal. by apply list_to_map_proper.
Qed.

Lemma st_fresh L m p : vals m !! p = None -> owns L m -> (p ∉ L.*1) /\ hf !! p = None.
Proof.
  intros Hp (Hnd & Hf & Hv & _). rewrite Hv in Hp. apply lookup_union_None in Hp as [Hp ?].
  split; [|done]. by apply not_elem_of_list_to_map_2.
Qed.

Lemma wp_grant L m (Q : bool -> mem -> Prop) :
  owns L m -> (forall m', owns L m' -> Q true m') -> (R -> forall m', owns L m' -> Q false m') ->
  wp grant Q m.
Proof.
  intros (Hnd & Hf & Hv & Ho) HT HF. unfold wp, grant.
  destruct m as [h o]; simpl in *. destruct o as [|b o].
  - do 2 eexists. split; [done|]. apply HT. done.
  - do 2 eexists. split; [done|].
    assert (HR : b = true \/ R).
    { destruct Ho as [?|Ho]; [by right|]. inversion Ho; subst. by left. }
    assert (Hst : owns L (Mem h o)).
    { split_and!; try done; simpl. destruct Ho as [?|Ho]; [by left|]. inversion Ho. by right. }
    destruct b; [by apply HT|]. destruct HR; [done|by apply HF].
Qed.

Lemma wp_new_block L m v (Q : nat -> mem -> Prop) :
  owns L m -> (forall p m', owns ((p, v) :: L) m' -> Q p m') -> wp (new_block v) Q m.
Proof.
  intros Hst HQ. unfold wp, new_block. do 2 eexists. split; [done|]. apply HQ.
  pose proof (is_fresh (dom (vals m))) as Hfr. apply not_elem_of_dom in Hfr.
  destruct (st_fresh _ _ _ Hfr Hst) as [H1 H2]. destruct Hst as (Hnd & Hf & Hv & Ho).
  split_and!; simpl; [by constructor| | |done].
  - intros p [->|Hp]%elem_of_cons; auto.
  - rewrite Hv, insert_union_l. done.
Qed.

Lemma st_lookup L m p v : owns L m -> (p, v) ∈ L -> vals m !! p = Some v.
Proof.
  intros (Hnd & Hf & Hv & Ho) Hp. rewrite Hv. apply lookup_union_Some_l.
  by apply elem_of_list_to_map_1.
Qed.

Lemma wp_load L m p v (Q : config_value -> mem -> Prop) :
  owns L m -> (p, v) ∈ L -> Q v m -> wp (load p) Q m.
Proof.
  intros Hst Hp HQ. exists v, m. unfold load. by rewrite (st_lookup _ _ _ _ Hst Hp).
Qed.

Lemma wp_free_block L m p v (Q : unit -> mem -> Prop) :
  owns ((p, v) :: L) m -> (forall m', owns L m' -> Q tt m') -> wp (free_block p) Q m.
Proof.
  intros Hst HQ. unfold wp, free_block.
  rewrite (st_lookup _ _ p v Hst) by (by left). do 2 eexists. split; [done|]. apply HQ.
  destruct Hst as (Hnd & Hf & Hv & Ho). simpl in *. apply NoDup_cons in Hnd as [Hp Hnd].
  split_and!; simpl; [done| | |done].
  - intros q Hq. apply Hf. by right.
  - rewrite Hv. simpl. rewrite delete_union, delete_insert_id.
    + rewrite (delete_id hf); [done|]. apply Hf. by left.
    + by apply not_elem_of_list_to_map_1.
Qed.

Lemma st_store L m p v v' :
  owns ((p, v) :: L) m -> owns ((p, v') :: L) (Mem (<[p := v']> (vals m)) (oom m)).
Proof.
  intros (Hnd & Hf & Hv & Ho). split_and!; try done. simpl in *.
  rewrite Hv, insert_union_l. simpl. by rewrite insert_insert_eq.
Qed.

(** *** Values *)

Lemma wp_value_alloc L m v (Q : option nat -> mem -> Prop) :
  owns L m -> (forall p m', owns ((p, v) :: L) m' -> Q (Some p) m') ->
  (R -> forall m', owns L m' -> Q None m') -> wp (config_value_alloc v) Q m.
Proof.
  intros Hst HS HN. apply wp_bind, (wp_grant L); [done| |]; intros; [|by apply wp_ret, HN].
  apply wp_bind, (wp_new_block L); [done|]. intros. by apply wp_ret, HS.
Qed.

Lemma wp_duplicate_string L m s (Q : option cstr -> mem -> Prop) :
  owns L m -> (forall m', owns L m' -> Q (Some s) m') -> (R -> forall m', owns L m' -> Q None m') ->
  wp (duplicate_string (Some s)) Q m.
Proof.
  intros Hst HS HN. apply wp_bind, (wp_grant L); [done| |]; intros; apply wp_ret; auto.
Qed.

Lemma wp_value_create_string L m s (Q : option nat -> mem -> Prop) :
  owns L m -> (forall p m', owns ((p, CString s (Z.of_nat (length s))) :: L) m' -> Q (Some p) m') ->
  (R -> forall m', owns L m' -> Q None m') -> wp (config_value_create_string (Some s)) Q m.
Proof.
  intros Hst HS HN. apply wp_bind, (wp_value_alloc L); [done| |]; intros; [|by apply wp_ret, HN].
  apply wp_bind, (wp_duplicate_string ((p, CString [] 0) :: L)); [done| |]; intros.
  - do 2 eexists. split; [done|]. apply HS. by eapply st_store.
  - apply wp_bind, (wp_free_block L _ _ (CString [] 0)); [done|]. intros. by apply wp_ret, HN.
Qed.

(** A value that the creation functions make; the length of a string is the
    one of its text. *)
Definition value_wf (v : config_value) : Prop :=
  match v with CString s len => len = Z.of_nat (length s) | _ => True end.

Lemma wp_value_clone L m p v (Q : option nat -> mem -> Prop) :
  owns L m -> (p, v) ∈ L -> value_wf v -> (forall q m', owns ((q, v) :: L) m' -> Q (Some q) m') ->
  (R -> forall m', owns L m' -> Q None m') -> wp (config_value_clone (Some p)) Q m.
Proof.
  intros Hst Hp Hwf HS HN. apply wp_bind, (wp_load L _ _ v); [done..|].
  destruct v; try (by apply (wp_value_alloc L)).
  simpl in Hwf. subst. by apply (wp_value_create_string L).
Qed.

(** ** The creation function for each kind of value *)
Definition create_value (v : config_value) : M (option nat) :=
  match v with
  | CNull => config_value_create_null
  | CBool b => config_value_create_bool b
  | CInt z => config_value_create_int z
  | CInt64 z => config_value_create_int64 z
  | CDouble d => config_value_create_double d
  | CString s _ => config_value_create_string (Some s)
  end.

Lemma wp_create_value L m v (Q : option nat -> mem -> Prop) :
  owns L m -> value_wf v -> (forall p m', owns ((p, v) :: L) m' -> Q (Some p) m') ->
  (R -> forall m', owns L m' -> Q None m') -> wp (create_value v) Q m.
Proof.
  intros Hst Hwf HS HN. unfold create_value.
  destruct v; try (by apply (wp_value_alloc L)).
  simpl in Hwf. subst. by apply (wp_value_create_string L).
Qed.

(** ** Contexts as association lists *)

(** Replace the binding of a key in its place, or add it at the end. *)
Fixpoint aset (k : cstr) (v : config_value) (l : list (cstr * config_value)) : list (cstr * config_value) :=
  match l with
  | [] => [(k, v)]
  | (k', v') :: l' => if decide (k' = k) then (k', v) :: l' else (k', v') :: aset k v l'
  end.

Fixpoint aget (k : cstr) (l : list (cstr * config_value)) : option config_value :=
  match l with
  | [] => None
  | (k', v) :: l' => if decide (k' = k) then Some v else aget k l'
  end.

Lemma aget_aset k k' v l : aget k' (aset k v l) = if decide (k = k') then Some v else aget k' l.
Proof.
  induction l as [|[k0 v0] l IH]; simpl.
  - repeat case_decide; congruence.
  - destruct (decide (k0 = k)) as [->|Hne]; simpl; repeat case_decide; congruence.
Qed.

Lemma aset_length k v l : (length (aset k v l) <= S (length l))%nat.
Proof. induction l as [|[k' v'] l IH]; simpl; [lia|]. case_decide; simpl; lia. Qed.

Definition entry_of (t : slot) : cstr * nat := fst t.
Definition block_of (t : slot) : nat * config_value := (snd (fst t), snd t).
Definition binding_of (t : slot) : cstr * config_value := (fst (fst t), snd t).

(** The context [ctx] is the array of the slots [T]. *)
Definition rep (ctx : config_context) (T : list slot) : Prop :=
  items ctx = entry_of <$> T /\ 0 < capacity ctx /\ Forall (fun t => value_wf (snd t)) T.

(** [find_item_index] is the place of the first entry with the key. *)
Lemma find_item_loop_spec key T i :
  0 <= i -> i + Z.of_nat (length T) < 2 ^ 31 ->
  match aget key (binding_of <$> T) with
  | None => find_item_loop (entry_of <$> T) i key = INDEX_NOT_FOUND /\
            forall v, aset key v (binding_of <$> T) = (binding_of <$> T) ++ [(key, v)]
  | Some v => exists T1 p T2, T = T1 ++ (key, p, v) :: T2 /\
      find_item_loop (entry_of <$> T) i key = i + Z.of_nat (length T1) /\
      forall v', aset key v' (binding_of <$> T) = binding_of <$> (T1 ++ (key, p, v') :: T2)
  end.
Proof.
  revert i. induction T as [|[[k p] v] T IH]; intros i Hi Hlen; [done|].
  simpl length in Hlen. rewrite !fmap_cons. csimpl. destruct (decide (k = key)) as [->|Hne].
  - exists [], p, T. split_and!; [done| |done]. simpl. rewrite s32_small by lia. lia.
  - specialize (IH (i + 1)). destruct (aget key (binding_of <$> T)) as [v0|].
    + destruct IH as (T1 & p0 & T2 & -> & Hf & Ha); [lia..|].
      exists ((k, p, v) :: T1), p0, T2. split_and!; [done| |].
      * rewrite Hf. simpl length. lia.
      * intros v'. by rewrite Ha.
    + destruct IH as (Hf & Ha); [lia..|]. split; [done|]. intros v'. by rewrite Ha.
Qed.

(** ** The operations of a context, in the logic *)

Implicit Types (T : list slot) (ctx : config_context).

Abbreviation blocks T := (block_of <$> T).
Abbreviation bindings T := (binding_of <$> T).

Lemma wp_expand T L m ctx (Q : Z * config_context -> mem -> Prop) :
  owns L m -> rep ctx T ->
  (forall ctx' m', owns L m' -> rep ctx' T -> Q (CONFIG_SUCCESS, ctx') m') ->
  (R -> forall m', owns L m' -> Q (CONFIG_ERROR_OUT_OF_MEMORY, ctx) m') ->
  wp (if capacity ctx <=? count ctx then expand_context_capacity ctx else ret (CONFIG_SUCCESS, ctx)) Q m.
Proof.
  intros Hst Hr HS HN. case_match; [|by apply wp_ret, HS].
  unfold expand_context_capacity. apply wp_bind, (wp_grant L); [done| |]; intros; apply wp_ret; [|by apply HN].
  apply HS; [done|]. destruct Hr as (Hi & Hc & Hw). split_and!; [done| |done]. simpl.
  case_match; lia.
Qed.

Lemma rep_app T ctx k p v :
  rep ctx T -> value_wf v -> rep (set_items (items ctx ++ [(k, p)]) ctx) (T ++ [(k, p, v)]).
Proof.
  intros (Hi & Hc & Hw) Hv. split_and!; simpl; [|done|].
  - by rewrite Hi, fmap_app.
  - apply Forall_app. auto.
Qed.

(** A set that succeeds binds the key and gives the old value back; a set that
    fails, for lack of memory, changes nothing and gives the new value back. *)
Lemma wp_context_set T m ctx k p v (Q : Z * config_context -> mem -> Prop) :
  owns ((p, v) :: blocks T) m -> rep ctx T -> value_wf v -> Z.of_nat (length T) < 2 ^ 31 ->
  (forall ctx' T' m', owns (blocks T') m' -> rep ctx' T' -> bindings T' = aset k v (bindings T) ->
     Q (CONFIG_SUCCESS, ctx') m') ->
  (R -> forall ctx' m', owns (blocks T) m' -> rep ctx' T -> Q (CONFIG_ERROR_OUT_OF_MEMORY, ctx') m') ->
  wp (config_context_set ctx (Some k) (Some p)) Q m.
Proof.
  intros Hst Hr Hv Hlen HS HN. unfold config_context_set, find_item_index.
  pose proof (find_item_loop_spec k T 0) as Hfind. destruct Hr as (Hi & Hc & Hw). rewrite Hi.
  destruct (aget k (bindings T)) as [v0|].
  - destruct Hfind as (T1 & p0 & T2 & -> & -> & Ha); [lia..|].
    rewrite (proj2 (Z.leb_le _ _)) by lia. rewrite Z.add_0_l, Nat2Z.id, fmap_app, fmap_cons.
    assert (length (entry_of <$> T1) = length T1) as Hl1 by apply length_fmap.
    rewrite lookup_app_r, <- Hl1, Nat.sub_diag by lia. simpl.
    apply wp_bind, (wp_free_block ((p, v) :: blocks (T1 ++ T2)) _ _ v0).
    { eapply st_perm, Hst. rewrite !fmap_app, !fmap_cons. solve_Permutation. }
    intros m' Hst'. apply wp_ret, (HS _ (T1 ++ (k, p, v) :: T2)); [| |by rewrite Ha, !fmap_app].
    + eapply st_perm, Hst'. rewrite !fmap_app, !fmap_cons. solve_Permutation.
    + apply Forall_app in Hw as [Hw1 [_ Hw2]%Forall_cons]. split_and!; [|done|].
      * simpl. rewrite insert_app_r_alt, Nat.sub_diag by lia. by rewrite fmap_app.
      * apply Forall_app. split; [done|]. by constructor.
  - destruct Hfind as (-> & Ha); [lia..|]. simpl. apply wp_bind.
    apply (wp_expand T ((p, v) :: blocks T)); [done|by split_and!|..].
    + intros ctx' m' Hst' Hr'. simpl. apply wp_bind, (wp_duplicate_string ((p, v) :: blocks T)); [done|..].
      * intros m'' Hst''. apply wp_ret, (HS _ (T ++ [(k, p, v)])); [| |by rewrite fmap_app, Ha].
        -- eapply st_perm, Hst''. rewrite fmap_app. solve_Permutation.
        -- by apply rep_app.
      * intros HR m'' Hst''. apply wp_bind, (wp_free_block (blocks T) _ _ v); [done|].
        intros. apply wp_ret. by apply HN.
    + intros HR m' Hst'. simpl. apply wp_bind, (wp_free_block (blocks T) _ _ v); [done|].
      intros. apply wp_ret. apply HN; [done..|]. by split_and!.
Qed.

Lemma context_get_spec T ctx k :
  rep ctx T -> Z.of_nat (length T) < 2 ^ 31 ->
  match config_context_get ctx (Some k) with
  | Some p => exists v, aget k (bindings T) = Some v /\ (p, v) ∈ blocks T
  | None => aget k (bindings T) = None
  end /\ config_context_has ctx (Some k) = bool_decide (is_Some (aget k (bindings T))).
Proof.
  intros (Hi & Hc & Hw) Hlen. unfold config_context_get, config_context_has, find_item_index. rewrite Hi.
  pose proof (find_item_loop_spec k T 0) as Hfind. destruct (aget k (bindings T)) as [v0|].
  - destruct Hfind as (T1 & p0 & T2 & -> & -> & Ha); [lia..|].
    rewrite (proj2 (Z.leb_le _ _)) by lia. split; [|done].
    rewrite Z.add_0_l, Nat2Z.id, fmap_app, fmap_cons.
    assert (length (entry_of <$> T1) = length T1) as Hl1 by apply length_fmap.
    rewrite lookup_app_r, <- Hl1, Nat.sub_diag by lia. simpl. exists v0. split; [done|].
    rewrite fmap_app, fmap_cons. apply elem_of_app. right. by left.
  - by destruct Hfind as (-> & Ha); [lia..|].
Qed.

Lemma wp_destroy_items T m L (Q : unit -> mem -> Prop) :
  owns (blocks T ++ L) m -> (forall m', owns L m' -> Q tt m') -> wp (destroy_items (entry_of <$> T)) Q m.
Proof.
  intros Hst HQ. revert m Hst. induction T as [|[[k p] v] T IH]; intros m Hst; [by apply wp_ret, HQ|].
  apply wp_bind, (wp_free_block (blocks T ++ L) _ _ v); [done|]. intros. by apply IH.
Qed.

Lemma wp_context_clear T m ctx L (Q : config_context -> mem -> Prop) :
  owns (blocks T ++ L) m -> rep ctx T -> (forall ctx' m', owns L m' -> rep ctx' [] -> Q ctx' m') ->
  wp (config_context_clear ctx) Q m.
Proof.
  intros Hst (Hi & Hc & Hw) HQ. unfold config_context_clear. rewrite Hi.
  apply wp_bind, (wp_destroy_items T _ L); [done|]. intros. apply wp_ret, HQ; [done|].
  by split_and!; try constructor.
Qed.

Lemma wp_context_create m nm L (Q : option config_context -> mem -> Prop) :
  owns L m -> (forall ctx m', owns L m' -> rep ctx [] -> Q (Some ctx) m') ->
  (R -> forall m', owns L m' -> Q None m') -> wp (config_context_create nm) Q m.
Proof.
  intros Hst HS HN. apply wp_bind, (wp_grant L); [done| |]; intros; [|by apply wp_ret, HN].
  assert (Hs : exists s, match nm with Some s => Some s | None => Some (cs "default") end = Some s)
    by (destruct nm; eauto). destruct Hs as [s ->].
  apply wp_bind, (wp_duplicate_string L); [done| |]; intros; [|by apply wp_ret, HN].
  apply wp_bind, (wp_grant L); [done| |]; intros; apply wp_ret; [|by apply HN].
  apply HS; [done|]. by split_and!; try constructor.
Qed.

(** The copies of [T] go to the end of [dst], in order; a failure leaves a
    prefix of them. *)
Lemma wp_push_copies T T0 m dst L (Q : Z * config_context -> mem -> Prop) :
  owns (blocks T0 ++ L) m -> rep dst T0 -> Forall (fun t => value_wf (snd t)) T -> blocks T ⊆ L ->
  (forall dst' T' m', owns (blocks T' ++ L) m' -> rep dst' T' ->
     bindings T' = bindings T0 ++ bindings T -> Q (CONFIG_SUCCESS, dst') m') ->
  (R -> forall dst' T' n m', owns (blocks T' ++ L) m' -> rep dst' T' ->
     bindings T' = bindings T0 ++ take n (bindings T) -> Q (CONFIG_ERROR_OUT_OF_MEMORY, dst') m') ->
  wp (push_copies dst (entry_of <$> T)) Q m.
Proof.
  intros Hst Hr Hw Hin HS HN. revert T0 m dst Hst Hr HS HN.
  induction T as [|[[k p] v] T IH]; intros T0 m dst Hst Hr HS HN.
  { apply wp_ret, (HS _ T0); [done..|]. by rewrite app_nil_r. }
  apply Forall_cons in Hw as [Hv Hw]. simpl. apply wp_bind, wp_bind.
  assert (Hfail : R -> forall dst' m', owns (blocks T0 ++ L) m' -> rep dst' T0 ->
            Q (CONFIG_ERROR_OUT_OF_MEMORY, dst') m').
  { intros HR dst' m' H1 H2. apply (HN HR dst' T0 0%nat m'); [done..|]. by rewrite take_0, app_nil_r. }
  apply (wp_duplicate_string (blocks T0 ++ L)); [done| |intros; by apply wp_ret, wp_ret, Hfail].
  intros m1 Hst1. apply wp_bind, (wp_value_clone (blocks T0 ++ L) _ _ v); [done| |done| |].
  { apply elem_of_app. right. apply Hin. by left. }
  2:{ intros; by apply wp_ret, wp_ret, Hfail. }
  intros q m2 Hst2. apply wp_bind, (wp_expand T0 ((q, v) :: blocks T0 ++ L)); [done..| |].
  - intros dst' m3 Hst3 Hr3. apply wp_ret.
    assert (He : bindings (T0 ++ [(k, q, v)]) = bindings T0 ++ [(k, v)]) by by rewrite fmap_app.
    apply (IH Hw ltac:(intros x Hx; apply Hin; by right) (T0 ++ [(k, q, v)])).
    + eapply st_perm, Hst3. rewrite fmap_app. solve_Permutation.
    + by apply rep_app.
    + intros dst'' T' m4 H4 Hr4 Hb. apply (HS _ T'); [done..|].
      by rewrite Hb, He, fmap_cons, <- app_assoc.
    + intros HR dst'' T' n m4 H4 Hr4 Hb. apply (HN HR _ T' (S n)); [done..|].
      by rewrite Hb, He, fmap_cons, <- app_assoc.
  - intros HR m3 Hst3. apply wp_bind, (wp_free_block (blocks T0 ++ L) _ _ v); [done|].
    intros. by apply wp_ret, wp_ret, Hfail.
Qed.

End logic.

(** Blocks move between what is owned and the frame. *)
Lemma st_frame R hf L K m :
  NoDup K.*1 -> (forall p, p ∈ K.*1 -> hf !! p = None) ->
  st R hf (L ++ K) m <-> st R (list_to_map K ∪ hf) L m.
Proof.
  intros HK HKf. unfold st. rewrite fmap_app, list_to_map_app, <- map_union_assoc.
  split; intros (Hnd & Hf & Hv & Ho).
  - apply NoDup_app in Hnd as (Hnd & Hd & _). split_and!; [done| |done..].
    intros p Hp. apply lookup_union_None. split; [by apply not_elem_of_list_to_map_1, Hd|].
    apply Hf, elem_of_app. by left.
  - assert (Hd : forall p, p ∈ L.*1 -> (p ∉ K.*1) /\ hf !! p = None).
    { intros p Hp. apply Hf, lookup_union_None in Hp as [Hp ?]. split; [|done].
      by apply not_elem_of_list_to_map_2. }
    split_and!; [|intros p [Hp|Hp]%elem_of_app; auto; by apply Hd|done..].
    apply NoDup_app. split_and!; [done| |done]. intros p Hp. by apply Hd.
Qed.

(** ** A client: any number of contexts under any sequence of operations *)

Inductive op :=
  | OCreate (nm : option cstr)
  | ODestroy (c : nat)
  | OSet (c : nat) (k : cstr) (v : config_value)
  | OGet (c : nat) (k : cstr)
  | OHas (c : nat) (k : cstr)
  | OCount (c : nat)
  | OClear (c : nat)
  | OClone (c : nat)
  | OCopy (d s : nat).

Inductive result :=
  | RUnit
  | RHandle (ok : bool)
  | RErr (e : Z)
  | RValue (v : option config_value)
  | RBool (b : bool)
  | RCount (n : Z).

Abbreviation world := (list (option config_context)).

(** A handle is a place in the list; a destroyed context leaves an empty place,
    and the client does not use it any more. *)
Definition put (w : world) (oc : option config_context) : result * world :=
  (RHandle (bool_decide (is_Some oc)), w ++ [oc]).

Definition step (w : world) (o : op) : M (result * world) :=
  match o with
  | OCreate nm => let* oc := config_context_create nm in ret (put w oc)
  | ODestroy c =>
      match mjoin (w !! c) with
      | None => ret (RUnit, w)
      | Some ctx => config_context_destroy ctx ;;; ret (RUnit, <[c := None]> w)
      end
  | OSet c k v =>
      match mjoin (w !! c) with
      | None => ret (RUnit, w)
      | Some ctx =>
          let* p := create_value v in
          let* r := config_context_set ctx (Some k) p in
          ret (RErr (fst r), <[c := Some (snd r)]> w)
      end
  | OGet c k =>
      match mjoin (w !! c) with
      | None => ret (RUnit, w)
      | Some ctx =>
          match config_context_get ctx (Some k) with
          | None => ret (RValue None, w)
          | Some p => let* v := load p in ret (RValue (Some v), w)
          end
      end
  | OHas c k =>
      ret (match mjoin (w !! c) with
           | None => (RUnit, w) | Some ctx => (RBool (config_context_has ctx (Some k)), w) end)
  | OCount c =>
      ret (match mjoin (w !! c) with
           | None => (RUnit, w) | Some ctx => (RCount (config_context_count ctx), w) end)
  | OClear c =>
      match mjoin (w !! c) with
      | None => ret (RUnit, w)
      | Some ctx => let* ctx := config_context_clear ctx in ret (RUnit, <[c := Some ctx]> w)
      end
  | OClone c =>
      match mjoin (w !! c) with
      | None => ret (RUnit, w)
      | Some ctx => let* oc := config_context_clone ctx in ret (put w oc)
      end
  | OCopy d s =>
      match mjoin (w !! d), mjoin (w !! s) with
      | Some dst, Some src =>
          let* r := (if decide (d = s) then config_context_copy_self dst else config_context_copy dst src) in
          ret (RErr (fst r), <[d := Some (snd r)]> w)
      | _, _ => ret (RUnit, w)
      end
  end.

Fixpoint run (w : world) (os : list op) : M (list result * world) :=
  match os with
  | [] => ret ([], w)
  | o :: os' =>
      let* r := step w o in
      let* r' := run (snd r) os' in
      ret (fst r :: fst r', snd r')
  end.

(** The specification: contexts are association lists.  [R] allows the calls
    that need memory to fail. *)
Abbreviation abs := (list (option (list (cstr * config_value)))).

Inductive spec_step (R : Prop) (a : abs) : op -> result -> abs -> Prop :=
  | SpDead o : (forall nm, o <> OCreate nm) ->
      (match o with
       | OCreate _ => False
       | ODestroy c | OSet c _ _ | OGet c _ | OHas c _ | OCount c | OClear c | OClone c => mjoin (a !! c) = None
       | OCopy d s => mjoin (a !! d) = None \/ mjoin (a !! s) = None
       end) -> spec_step R a o RUnit a
  | SpCreate nm : spec_step R a (OCreate nm) (RHandle true) (a ++ [Some []])
  | SpCreateFail nm : R -> spec_step R a (OCreate nm) (RHandle false) (a ++ [None])
  | SpDestroy c l : a !! c = Some (Some l) -> spec_step R a (ODestroy c) RUnit (<[c := None]> a)
  | SpSet c k v l : a !! c = Some (Some l) ->
      spec_step R a (OSet c k v) (RErr CONFIG_SUCCESS) (<[c := Some (aset k v l)]> a)
  | SpSetFail c k v e : R -> e <> CONFIG_SUCCESS -> spec_step R a (OSet c k v) (RErr e) a
  | SpGet c k l : a !! c = Some (Some l) -> spec_step R a (OGet c k) (RValue (aget k l)) a
  | SpHas c k l : a !! c = Some (Some l) ->
      spec_step R a (OHas c k) (RBool (bool_decide (is_Some (aget k l)))) a
  | SpCount c l : a !! c = Some (Some l) -> spec_step R a (OCount c) (RCount (Z.of_nat (length l))) a
  | SpClear c l : a !! c = Some (Some l) -> spec_step R a (OClear c) RUnit (<[c := Some []]> a)
  | SpClone c l : a !! c = Some (Some l) -> spec_step R a (OClone c) (RHandle true) (a ++ [Some l])
  | SpCloneFail c : R -> spec_step R a (OClone c) (RHandle false) (a ++ [None])
  | SpCopy d s ld ls : d <> s -> a !! d = Some (Some ld) -> a !! s = Some (Some ls) ->
      spec_step R a (OCopy d s) (RErr CONFIG_SUCCESS) (<[d := Some ls]> a)
  | SpCopyFail d s ld ls n : R -> d <> s -> a !! d = Some (Some ld) -> a !! s = Some (Some ls) ->
      spec_step R a (OCopy d s) (RErr CONFIG_ERROR_OUT_OF_MEMORY) (<[d := Some (take n ls)]> a)
  | SpCopySelf c l : a !! c = Some (Some l) ->
      spec_step R a (OCopy c c) (RErr CONFIG_SUCCESS) (<[c := Some []]> a).

Inductive spec_run (R : Prop) : abs -> list op -> list result -> abs -> Prop :=
  | SpNil a : spec_run R a [] [] a
  | SpCons a o r a' os rs a'' :
      spec_step R a o r a' -> spec_run R a' os rs a'' -> spec_run R a (o :: os) (r :: rs) a''.

(** The blocks of the contexts of a world. *)
Definition slots_rep (oc : option config_context) (ot : option (list slot)) : Prop :=
  match oc, ot with
  | Some ctx, Some T => rep ctx T
  | None, None => True
  | _, _ => False
  end.

Definition owned (ts : list (option (list slot))) : list (nat * config_value) :=
  concat (map (fun ot => match ot with Some T => block_of <$> T | None => [] end) ts).

Definition abs_slot (ot : option (list slot)) : option (list (cstr * config_value)) :=
  match ot with Some T => Some (binding_of <$> T) | None => None end.

Definition abs_of (ts : list (option (list slot))) : abs := abs_slot <$> ts.

(** The contexts are the slots [ts], the heap holds their blocks and no others,
    and no context has more than [n] entries. *)
Definition world_ok (R : Prop) (n : nat) (w : world) (ts : list (option (list slot))) (m : mem) : Prop :=
  Forall2 slots_rep w ts /\ st R ∅ (owned ts) m /\
  Forall (fun ot => forall T, ot = Some T -> (length T <= n)%nat) ts.

Lemma owned_app ts ts' : owned (ts ++ ts') = owned ts ++ owned ts'.
Proof. unfold owned. by rewrite map_app, concat_app. Qed.

Lemma owned_middle A T B : owned (A ++ Some T :: B) ≡ₚ (block_of <$> T) ++ owned (A ++ B).
Proof. rewrite !owned_app. simpl. unfold owned at 2. simpl. fold (owned B). solve_Permutation. Qed.

(** One context of the world, with the others in the frame. *)
Record focus (R : Prop) (n : nat) (w : world) (ts : list (option (list slot))) (m : mem) (c : nat)
    (ctx : config_context) (A : list (option (list slot))) (T : list slot)
    (B : list (option (list slot))) : Prop := Focus {
  f_ts : ts = A ++ Some T :: B;
  f_c : c = length A;
  f_rep : rep ctx T;
  f_len : (length T <= n)%nat;
  f_nodup : NoDup (owned (A ++ B)).*1;
  f_st : st R (list_to_map (owned (A ++ B))) (block_of <$> T) m;
  f_lookup : abs_of ts !! c = Some (Some (binding_of <$> T));
}.

Lemma world_frame R n w ts m A T B :
  world_ok R n w ts m -> ts = A ++ Some T :: B ->
  NoDup (owned (A ++ B)).*1 /\ st R (list_to_map (owned (A ++ B))) (block_of <$> T) m.
Proof.
  intros (_ & Hst & _) ->. apply (st_perm _ _ _ (owned_middle A T B)) in Hst.
  assert (HK : NoDup (owned (A ++ B)).*1).
  { destruct Hst as (Hnd & _). rewrite fmap_app in Hnd. by apply NoDup_app in Hnd as (_ & _ & ?). }
  split; [done|]. rewrite <- (map_union_empty (list_to_map (owned (A ++ B)))). by apply st_frame.
Qed.

Lemma world_focus R n w ts m c :
  world_ok R n w ts m ->
  match mjoin (w !! c) with
  | None => mjoin (abs_of ts !! c) = None
  | Some ctx => exists A T B, focus R n w ts m c ctx A T B
  end.
Proof.
  intros Hok. pose proof Hok as (Hrep & _ & Hn).
  destruct (w !! c) as [oc|] eqn:Hc; simpl.
  - destruct (Forall2_lookup_l _ _ _ _ _ Hrep Hc) as (ot & Ht & Hr).
    assert (Ha : abs_of ts !! c = Some (abs_slot ot)) by (unfold abs_of; by rewrite list_lookup_fmap, Ht).
    destruct oc as [ctx|], ot as [T|]; simpl in Hr |- *; try done; [|by rewrite Ha].
    apply list_elem_of_split_length in Ht as (A & B & -> & ->). exists A, T, B.
    destruct (world_frame _ _ _ _ _ A T B Hok eq_refl) as [H1 H2]. split; try done.
    apply Forall_app in Hn as [_ [HT _]%Forall_cons]. by apply HT.
  - assert (ts !! c = None) as Ht by (
      apply lookup_ge_None; apply lookup_ge_None in Hc; by rewrite <- (Forall2_length _ _ _ Hrep)).
    unfold abs_of. by rewrite list_lookup_fmap, Ht.
Qed.

(** The context is put back, changed or destroyed. *)
Lemma focus_update R n w ts m c ctx A T B n' oc' ot' m' :
  world_ok R n w ts m -> focus R n w ts m c ctx A T B -> slots_rep oc' ot' -> (n <= n')%nat ->
  (forall T', ot' = Some T' -> (length T' <= n')%nat) ->
  st R (list_to_map (owned (A ++ B))) (owned [ot']) m' ->
  world_ok R n' (<[c := oc']> w) (A ++ ot' :: B) m' /\
  abs_of (A ++ ot' :: B) = <[c := abs_slot ot']> (abs_of ts).
Proof.
  intros (Hrep & Hst & Hn) [-> -> Hr Hl Hnd Hf Hlk] Hr' Hnn Hl' Hst'.
  assert (Hins : forall x : option (list slot), A ++ x :: B = <[length A := x]> (A ++ Some T :: B)).
  { intros x. by rewrite insert_app_r_alt, Nat.sub_diag by lia. }
  split; [split_and!|].
  - rewrite Hins. by apply Forall2_insert.
  - rewrite <- (map_union_empty (list_to_map (owned (A ++ B)))) in Hst'.
    apply st_frame in Hst'; [|done..]. eapply st_perm, Hst'.
    rewrite !owned_app. unfold owned at 1 4. simpl. fold (owned B). rewrite app_nil_r. solve_Permutation.
  - apply Forall_app in Hn as [HA [HT HB]%Forall_cons]. apply Forall_app.
    split; [|constructor; [done|]]; (eapply Forall_impl; [done|]); simpl; intros ot HH T' E;
      specialize (HH T' E); lia.
  - unfold abs_of. by rewrite Hins, list_fmap_insert.
Qed.

(** A new context goes to the end. *)
Lemma world_put R n w ts m oc ot m' :
  world_ok R n w ts m -> slots_rep oc ot -> (forall T, ot = Some T -> (length T <= n)%nat) ->
  st R ∅ (owned [ot] ++ owned ts) m' -> world_ok R n (w ++ [oc]) (ts ++ [ot]) m'.
Proof.
  intros (Hrep & Hst & Hn) Hr Hl Hst'. split_and!.
  - apply Forall2_app; [done|]. by repeat constructor.
  - eapply st_perm, Hst'. rewrite owned_app. solve_Permutation.
  - apply Forall_app. split; [done|]. by repeat constructor.
Qed.

Lemma world_mono R n n' w ts m : world_ok R n w ts m -> (n <= n')%nat -> world_ok R n' w ts m.
Proof.
  intros (Hrep & Hst & Hn) Hle. split_and!; [done..|]. eapply Forall_impl; [done|].
  simpl. intros ot HH T E. specialize (HH T E). lia.
Qed.

Definition op_wf (o : op) : Prop := match o with OSet _ _ v => value_wf v | _ => True end.

(** What a step establishes. *)
Definition step_post (R : Prop) (n : nat) (ts : list (option (list slot))) (o : op)
    (r : result * world) (m' : mem) : Prop :=
  exists ts', world_ok R (S n) (snd r) ts' m' /\ spec_step R (abs_of ts) o (fst r) (abs_of ts').

Lemma step_same R n w ts m o r :
  world_ok R n w ts m -> spec_step R (abs_of ts) o r (abs_of ts) -> step_post R n ts o (r, w) m.
Proof. intros Hok Hs. exists ts. split; [|done]. eapply world_mono; [done|]. lia. Qed.

Section steps.
Context {R : Prop} {n : nat} {w : world} {ts : list (option (list slot))} {m : mem}.
Hypothesis Hok : world_ok R n w ts m.
Hypothesis Hn : Z.of_nat n < 2 ^ 31.

Lemma step_put o oc ot m' :
  slots_rep oc ot -> (forall T, ot = Some T -> (length T <= n)%nat) -> st R ∅ (owned [ot] ++ owned ts) m' ->
  spec_step R (abs_of ts) o (RHandle (bool_decide (is_Some oc))) (abs_of ts ++ [abs_slot ot]) ->
  step_post R n ts o (put w oc) m'.
Proof.
  intros Hr Hl Hst Hs. exists (ts ++ [ot]). split.
  - eapply world_mono; [by eapply world_put|]. lia.
  - unfold abs_of. by rewrite fmap_app.
Qed.

Lemma step_focus o c ctx A T B oc' ot' r m' :
  focus R n w ts m c ctx A T B -> slots_rep oc' ot' ->
  (forall T', ot' = Some T' -> (length T' <= S n)%nat) ->
  st R (list_to_map (owned (A ++ B))) (owned [ot']) m' ->
  spec_step R (abs_of ts) o r (<[c := abs_slot ot']> (abs_of ts)) ->
  step_post R n ts o (r, <[c := oc']> w) m'.
Proof.
  intros HF Hr Hl Hst Hs.
  destruct (focus_update _ _ _ _ _ _ _ _ _ _ (S n) oc' ot' m' Hok HF Hr ltac:(lia) Hl Hst) as [H1 H2].
  exists (A ++ ot' :: B). split; [done|]. by rewrite H2.
Qed.

Lemma owned_one T : owned [Some T] = block_of <$> T.
Proof. unfold owned. simpl. by rewrite app_nil_r. Qed.

Lemma step_create_ok nm : wp (step w (OCreate nm)) (step_post R n ts (OCreate nm)) m.
Proof.
  pose proof Hok as (_ & Hst & _). apply wp_bind, (wp_context_create (hf:=∅) (R:=R) _ _ (owned ts)); [done|..].
  - intros ctx m' Hst' Hr. apply wp_ret, (step_put _ _ (Some [])); [done| |done|].
    + intros T [= <-]. simpl. lia.
    + constructor.
  - intros HR m' Hst'. apply wp_ret, (step_put _ _ None); [done..|]. by constructor.
Qed.

Lemma step_destroy_ok c : wp (step w (ODestroy c)) (step_post R n ts (ODestroy c)) m.
Proof.
  pose proof (world_focus _ _ _ _ _ c Hok) as HF. simpl.
  destruct (mjoin (w !! c)) as [ctx|]; [|by apply wp_ret, (step_same _ _ _ _ _ _ _ Hok); constructor].
  destruct HF as (A & T & B & HF). pose proof HF as [_ -> (Hi & _) _ Hnd Hst Hlk].
  apply wp_bind. unfold config_context_destroy. rewrite Hi.
  apply (wp_destroy_items (hf:=list_to_map (owned (A ++ B))) (R:=R) T _ []); [by rewrite app_nil_r|].
  intros m' Hst'. apply wp_ret, (step_focus _ _ _ _ _ _ _ None _ _ HF); [done..|].
  by econstructor.
Qed.

Lemma step_set_ok c k v : value_wf v -> wp (step w (OSet c k v)) (step_post R n ts (OSet c k v)) m.
Proof.
  intros Hv. pose proof (world_focus _ _ _ _ _ c Hok) as HF. simpl.
  destruct (mjoin (w !! c)) as [ctx|]; [|by apply wp_ret, (step_same _ _ _ _ _ _ _ Hok); constructor].
  destruct HF as (A & T & B & HF). pose proof HF as [_ -> Hr Hl Hnd Hst Hlk].
  assert (Hfail : R -> forall ctx' e m', e <> CONFIG_SUCCESS ->
    st R (list_to_map (owned (A ++ B))) (block_of <$> T) m' -> rep ctx' T ->
    step_post R n ts (OSet (length A) k v) (RErr e, <[length A := Some ctx']> w) m').
  { intros HR ctx' e m' He Hst' Hr'. apply (step_focus _ _ _ _ _ _ _ (Some T) _ _ HF); [done| | |].
    - intros T' [= <-]. lia.
    - by rewrite owned_one.
    - rewrite list_insert_id by done. by constructor. }
  apply wp_bind, (wp_create_value (R:=R) (hf:=list_to_map (owned (A ++ B))) (block_of <$> T)); [done..| |].
  - intros p m1 Hst1. apply wp_bind, (wp_context_set (R:=R) (hf:=list_to_map (owned (A ++ B))) T _ _ _ _ v);
      [done..|lia| |].
    + intros ctx' T' m2 Hst2 Hr2 Hb. apply wp_ret.
      apply (step_focus _ _ _ _ _ _ _ (Some T') _ _ HF); [done| | |].
      * intros ? [= <-]. rewrite <- (length_fmap binding_of), Hb.
        pose proof (aset_length k v (binding_of <$> T)). rewrite length_fmap in H. lia.
      * by rewrite owned_one.
      * simpl. rewrite Hb. by constructor.
    + intros HR ctx' m2 Hst2 Hr2. by apply wp_ret, Hfail.
  - intros HR m1 Hst1. apply wp_bind, wp_ret, wp_ret. by apply Hfail.
Qed.

Lemma step_read_ok o : match o with OGet _ _ | OHas _ _ | OCount _ => True | _ => False end ->
  wp (step w o) (step_post R n ts o) m.
Proof.
  intros Ho. destruct o; try done; unfold step;
    pose proof (world_focus _ _ _ _ _ c Hok) as HF;
    (destruct (mjoin (w !! c)) as [ctx|]; [|by apply wp_ret, (step_same _ _ _ _ _ _ _ Hok); constructor]);
    destruct HF as (A & T & B & HF); pose proof HF as [_ -> Hr Hl Hnd Hst Hlk].
  - destruct (context_get_spec T ctx k Hr) as [Hg _]; [lia|].
    destruct (config_context_get ctx (Some k)) as [p|].
    + destruct Hg as (v & Hv & Hp).
      apply wp_bind, (wp_load (R:=R) (hf:=list_to_map (owned (A ++ B))) (block_of <$> T) _ _ v); [done..|].
      apply wp_ret, (step_same _ _ _ _ _ _ _ Hok). rewrite <- Hv. by econstructor.
    + apply wp_ret, (step_same _ _ _ _ _ _ _ Hok). rewrite <- Hg. by econstructor.
  - destruct (context_get_spec T ctx k Hr) as [_ ->]; [lia|].
    apply wp_ret, (step_same _ _ _ _ _ _ _ Hok). by econstructor.
  - apply wp_ret, (step_same _ _ _ _ _ _ _ Hok). destruct Hr as (Hi & _).
    unfold config_context_count, count. rewrite Hi, length_fmap, <- (length_fmap binding_of). by econstructor.
Qed.

Lemma step_clear_ok c : wp (step w (OClear c)) (step_post R n ts (OClear c)) m.
Proof.
  pose proof (world_focus _ _ _ _ _ c Hok) as HF. simpl.
  destruct (mjoin (w !! c)) as [ctx|]; [|by apply wp_ret, (step_same _ _ _ _ _ _ _ Hok); constructor].
  destruct HF as (A & T & B & HF). pose proof HF as [_ -> Hr _ Hnd Hst Hlk].
  apply wp_bind, (wp_context_clear (R:=R) (hf:=list_to_map (owned (A ++ B))) T _ _ []);
    [by rewrite app_nil_r|done|].
  intros ctx' m' Hst' Hr'. apply wp_ret, (step_focus _ _ _ _ _ _ _ (Some []) _ _ HF); [done| |done|].
  - intros ? [= <-]. simpl. lia.
  - by econstructor.
Qed.

Lemma blocks_owned A T B : ts = A ++ Some T :: B -> block_of <$> T ⊆ owned ts.
Proof.
  intros -> x Hx. rewrite owned_app. apply elem_of_app. right. unfold owned. simpl.
  apply elem_of_app. by left.
Qed.

Lemma rep_bindings_length T T' : binding_of <$> T' = binding_of <$> T -> length T' = length T.
Proof. intros H. by rewrite <- (length_fmap binding_of), H, length_fmap. Qed.

Lemma step_clone_ok c : wp (step w (OClone c)) (step_post R n ts (OClone c)) m.
Proof.
  pose proof (world_focus _ _ _ _ _ c Hok) as HF. simpl.
  destruct (mjoin (w !! c)) as [ctx|]; [|by apply wp_ret, (step_same _ _ _ _ _ _ _ Hok); constructor].
  destruct HF as (A & T & B & [Hts -> Hr Hl Hnd _ Hlk]). pose proof Hok as (_ & Hst & _).
  pose proof (blocks_owned A T B Hts) as Hsub. destruct Hr as (Hi & Hc & Hw).
  assert (Hfail : R -> forall m', st R ∅ (owned ts) m' -> step_post R n ts (OClone (length A)) (put w None) m').
  { intros HR m' Hst'. apply (step_put _ _ None); [done..|]. by constructor. }
  apply wp_bind, wp_bind, (wp_context_create (hf:=∅) (R:=R) _ _ (owned ts)); [done| |].
  - intros cl m1 Hst1 Hr1. rewrite Hi. apply wp_bind.
    apply (wp_push_copies (hf:=∅) (R:=R) T [] _ _ (owned ts)); [done..| |].
    + intros dst' T' m2 Hst2 Hr2 Hb. apply wp_ret, wp_ret, (step_put _ _ (Some T')); [done| | |].
      * intros ? [= <-]. apply rep_bindings_length in Hb. lia.
      * by rewrite owned_one.
      * simpl. rewrite Hb. by constructor.
    + intros HR dst' T' k m2 Hst2 (Hi2 & _) Hb. apply wp_bind. unfold config_context_destroy. rewrite Hi2.
      apply (wp_destroy_items (hf:=∅) (R:=R) T' _ (owned ts)); [done|].
      intros m3 Hst3. by apply wp_ret, wp_ret, Hfail.
  - intros HR m1 Hst1. by apply wp_ret, wp_ret, Hfail.
Qed.

Lemma step_copy_self_ok c : wp (step w (OCopy c c)) (step_post R n ts (OCopy c c)) m.
Proof.
  pose proof (world_focus _ _ _ _ _ c Hok) as HF. simpl.
  destruct (mjoin (w !! c)) as [ctx|];
    [|by apply wp_ret, (step_same _ _ _ _ _ _ _ Hok); constructor; [|left]].
  destruct HF as (A & T & B & HF). pose proof HF as [_ -> Hr _ Hnd Hst Hlk].
  rewrite decide_True by done.
  apply wp_bind, wp_bind, (wp_context_clear (R:=R) (hf:=list_to_map (owned (A ++ B))) T _ _ []);
    [by rewrite app_nil_r|done|].
  intros ctx' m' Hst' Hr'. pose proof Hr' as (-> & _ & _). simpl. apply wp_ret, wp_ret.
  apply (step_focus _ _ _ _ _ _ _ (Some []) _ _ HF); [done| |done|].
  - intros ? [= <-]. simpl. lia.
  - by econstructor.
Qed.

(** The source of a copy is in the frame of its destination. *)
Lemma focus_other c c' ctx ctx' A T B A' T' B' :
  c <> c' -> focus R n w ts m c ctx A T B -> focus R n w ts m c' ctx' A' T' B' ->
  block_of <$> T' ⊆ owned (A ++ B).
Proof.
  intros Hne HF HF'. destruct HF as [H -> _ _ _ _ _]. destruct HF' as [H' -> _ _ _ _ _].
  assert (Hlk : (A ++ B) !! (if decide (length A' < length A)%nat then length A' else pred (length A')) = Some (Some T')).
  { assert (Hts : ts !! length A' = Some (Some T')).
    { rewrite H'. rewrite lookup_app_r, Nat.sub_diag by lia. done. }
    rewrite H in Hts. case_decide.
    - rewrite lookup_app_l in Hts |- * by done. done.
    - rewrite lookup_app_r in Hts |- * by lia.
      destruct (length A' - length A)%nat as [|d] eqn:E; [lia|]. simpl in Hts.
      by replace (pred (length A') - length A)%nat with d by lia. }
  apply list_elem_of_lookup_2, list_elem_of_split in Hlk as (A1 & B1 & ->).
  intros x Hx. rewrite owned_app. apply elem_of_app. right. unfold owned. simpl.
  apply elem_of_app. by left.
Qed.

Lemma focus_whole c ctx A T B m' T' :
  focus R n w ts m c ctx A T B ->
  st R ∅ ((block_of <$> T') ++ owned (A ++ B)) m' <-> st R (list_to_map (owned (A ++ B))) (owned [Some T']) m'.
Proof.
  intros [_ _ _ _ Hnd _ _]. rewrite owned_one.
  rewrite <- (map_union_empty (list_to_map (owned (A ++ B)))). by rewrite st_frame.
Qed.

Lemma step_copy_ok d s : d <> s -> wp (step w (OCopy d s)) (step_post R n ts (OCopy d s)) m.
Proof.
  intros Hne. pose proof (world_focus _ _ _ _ _ d Hok) as HF. pose proof (world_focus _ _ _ _ _ s Hok) as HS.
  simpl. destruct (mjoin (w !! d)) as [dst|];
    [|by apply wp_ret, (step_same _ _ _ _ _ _ _ Hok); constructor; [|left]].
  destruct (mjoin (w !! s)) as [src|];
    [|by apply wp_ret, (step_same _ _ _ _ _ _ _ Hok); constructor; [|right]].
  destruct HF as (A & T & B & HF), HS as (A' & T' & B' & HS).
  pose proof (focus_other _ _ _ _ _ _ _ _ _ _ Hne HF HS) as Hsub.
  pose proof (f_rep _ _ _ _ _ _ _ _ _ _ HF) as Hr. pose proof (f_st _ _ _ _ _ _ _ _ _ _ HF) as Hst.
  pose proof (f_lookup _ _ _ _ _ _ _ _ _ _ HF) as Hlk.
  destruct HS as [_ _ (Hi & _ & Hw) Hl _ _ Hlk'].
  rewrite decide_False by done. apply wp_bind, wp_bind.
  apply (wp_context_clear (R:=R) (hf:=∅) T _ _ (owned (A ++ B))); [|done|].
  { apply (focus_whole _ _ _ _ _ _ _ HF). by rewrite owned_one. }
  intros dst0 m1 Hst1 Hr1. rewrite Hi.
  apply (wp_push_copies (hf:=∅) (R:=R) T' [] _ _ (owned (A ++ B))); [done..| |].
  - intros dst' U m2 Hst2 Hr2 Hb. apply wp_ret, (step_focus _ _ _ _ _ _ _ (Some U) _ _ HF); [done| | |].
    + intros ? [= <-]. apply rep_bindings_length in Hb. lia.
    + by apply (focus_whole _ _ _ _ _ _ _ HF).
    + simpl. rewrite Hb. by econstructor.
  - intros HR dst' U k m2 Hst2 Hr2 Hb.
    apply wp_ret, (step_focus _ _ _ _ _ _ _ (Some U) _ _ HF); [done| | |].
    + intros ? [= <-]. rewrite <- (length_fmap binding_of), Hb. simpl. rewrite length_take, length_fmap. lia.
    + by apply (focus_whole _ _ _ _ _ _ _ HF).
    + simpl. rewrite Hb. by econstructor.
Qed.

Lemma world_step_ok o : op_wf o -> wp (step w o) (step_post R n ts o) m.
Proof.
  intros Hwf. destruct o.
  - apply step_create_ok.
  - apply step_destroy_ok.
  - by apply step_set_ok.
  - by apply step_read_ok.
  - by apply step_read_ok.
  - by apply step_read_ok.
  - apply step_clear_ok.
  - apply step_clone_ok.
  - destruct (decide (d = s)) as [->|]; [apply step_copy_self_ok|by apply step_copy_ok].
Qed.

End steps.

Lemma world_run_ok R os : Forall op_wf os -> forall n w ts m,
  world_ok R n w ts m -> Z.of_nat (n + length os) < 2 ^ 31 ->
  wp (run w os) (fun r m' => exists ts', world_ok R (n + length os) (snd r) ts' m' /\
        spec_run R (abs_of ts) os (fst r) (abs_of ts')) m.
Proof.
  induction 1 as [|o os Hwf Hwfs IH]; intros n w ts m Hok Hn.
  - apply wp_ret. exists ts. rewrite Nat.add_0_r. split; [done|constructor].
  - simpl length in Hn |- *. apply wp_bind. eapply wp_mono; [apply (world_step_ok Hok); [lia|done]|].
    intros [r w'] m' (ts' & Hok' & Hs). apply wp_bind. simpl.
    eapply wp_mono; [apply (IH (S n) w' ts'); [done|lia]|].
    intros [rs w''] m'' (ts'' & Hok'' & Hr). apply wp_ret. exists ts''. simpl. split.
    + by replace (n + S (length os))%nat with (S n + length os)%nat by lia.
    + by econstructor.
Qed.

(** The live blocks of the heap are those the contexts of [w] point to, each
    pointed to once. *)
Definition heap_owned (w : world) (m : mem) : Prop :=
  let ps := concat (map (fun oc => match oc with Some ctx => (items ctx).*2 | None => [] end) w) in
  NoDup ps /\ dom (vals m) = list_to_set ps.

Lemma world_ok_owned R n w ts m : world_ok R n w ts m -> heap_owned w m.
Proof.
  intros (Hrep & (Hnd & _ & Hv & _) & _). unfold heap_owned.
  assert (He : concat (map (fun oc => match oc with Some ctx => (items ctx).*2 | None => [] end) w) = (owned ts).*1).
  { clear -Hrep. induction Hrep as [|oc ot w ts Hr _ IH]; [done|]. simpl. rewrite IH. unfold owned. simpl.
    rewrite fmap_app. f_equal. destruct oc as [ctx|], ot as [T|]; try done. destruct Hr as (-> & _).
    rewrite <- !list_fmap_compose. done. }
  rewrite He. split; [done|]. rewrite Hv, map_union_empty. apply dom_list_to_map_L.
Qed.

(** A context holds the bindings of an association list. *)
Definition holds (m : mem) (oc : option config_context) (ol : option (list (cstr * config_value))) : Prop :=
  match oc, ol with
  | Some ctx, Some l => Forall2 (fun it b => fst it = fst b /\ vals m !! snd it = Some (snd b)) (items ctx) l
  | None, None => True
  | _, _ => False
  end.

Lemma world_ok_holds R n w ts m : world_ok R n w ts m -> Forall2 (holds m) w (abs_of ts).
Proof.
  intros (Hrep & Hst & _). unfold abs_of. apply Forall2_fmap_r, Forall2_same_length_lookup.
  split; [by eapply Forall2_length|]. intros i oc ot Hw Ht.
  pose proof (Forall2_lookup_lr _ _ _ _ _ _ Hrep Hw Ht) as Hr.
  destruct oc as [ctx|], ot as [T|]; try done. destruct Hr as (Hi & _). simpl. rewrite Hi.
  apply Forall2_fmap, Forall_Forall2_diag, Forall_forall. intros [[k p] v] Hin. split; [done|]. simpl.
  apply (st_lookup _ _ _ _ Hst). apply list_elem_of_split_length in Ht as (A & B & -> & _).
  rewrite owned_app. apply elem_of_app. right. unfold owned. simpl. apply elem_of_app. left.
  apply list_elem_of_fmap. by exists (k, p, v).
Qed.

(** C6: Over every sequence of operations on any number of contexts and every
    behaviour of the allocator (a schedule that says which requests are
    refused), nothing undefined happens: no value is freed twice or read after
    it is freed.  The results are those of association lists (a key is replaced
    in its place or added at the end; a failed set or clone changes nothing, a
    failed copy leaves a prefix of the source), calls fail only when the
    allocator refuses a request, and at every end the live values are exactly
    those the contexts hold, each held once: nothing leaks. *)
Theorem config_refines_maps (os : list op) (sched : list bool) :
  Forall op_wf os -> Z.of_nat (length os) < 2 ^ 31 ->
  exists rs w m a,
    run [] os (Mem ∅ sched) = Some ((rs, w), m) /\
    spec_run (~ Forall (eq true) sched) [] os rs a /\
    Forall2 (holds m) w a /\ heap_owned w m.
Proof.
  intros Hwf Hlen. set (R := ~ Forall (eq true) sched).
  assert (Hok : world_ok R 0 [] [] (Mem ∅ sched)).
  { split_and!; [constructor| |constructor]. split_and!; [constructor| |done|].
    - by intros p Hp%elem_of_nil.
    - simpl. unfold R. destruct (decide (Forall (eq true) sched)); tauto. }
  destruct (world_run_ok R os Hwf 0 [] [] _ Hok Hlen) as ([rs w] & m & Hrun & ts & Hok' & Hs).
  exists rs, w, m, (abs_of ts). split_and!; [done..| |].
  - by eapply world_ok_holds.
  - by eapply world_ok_owned.
Qed.

Lemma config_refines_maps_witness :
  let os := [OCreate None; OSet 0 (cs "a") (CInt 1); OSet 0 (cs "b") (CString (cs "x") 1);
             OSet 0 (cs "a") (CBool true); OClone 0; OSet 0 (cs "c") CNull; OGet 0 (cs "a"); ODestroy 0] in
  let sched := [true; true; true; true; true; true; true; true; true; true; true; true; true; true; true; true;
                true; true; true; false] in
  Forall op_wf os /\ Z.of_nat (length os) < 2 ^ 31 /\
  exists rs w m a,
    run [] os (Mem ∅ sched) = Some ((rs, w), m) /\
    spec_run (~ Forall (eq true) sched) [] os rs a /\
    Forall2 (holds m) w a /\ heap_owned w m.
Proof.
  assert (H1 : Forall op_wf [OCreate None; OSet 0 (cs "a") (CInt 1); OSet 0 (cs "b") (CString (cs "x") 1);
             OSet 0 (cs "a") (CBool true); OClone 0; OSet 0 (cs "c") CNull; OGet 0 (cs "a"); ODestroy 0])
    by (repeat constructor).
  split; [exact H1|]. split; [vm_compute; reflexivity|].
  apply config_refines_maps; [exact H1|vm_compute; reflexivity].
Defined.

(** A copy of a context to itself empties it. *)
Theorem config_copy_self_loses :
  exists w m, run [] [OCreate None; OSet 0 (cs "a") (CInt 1); OCopy 0 0; OGet 0 (cs "a")] (Mem ∅ [])
              = Some (([RHandle true; RErr CONFIG_SUCCESS; RErr CONFIG_SUCCESS; RValue None], w), m).
Proof. do 2 eexists. vm_compute. reflexivity. Qed.

(** The context [ctx] holds the bindings [l] in a heap whose other blocks are
    [hf], and no request for memory will be refused. *)
Definition ctx_at (hf : gmap nat config_value) (ctx : config_context) (l : list (cstr * config_value))
    (m : mem) : Prop :=
  exists T, rep ctx T /\ st False hf (block_of <$> T) m /\ binding_of <$> T = l.

Definition new_context : config_context := Context (cs "c") [] 16 false false 0 false.

Lemma new_context_at : ctx_at ∅ new_context [] (Mem ∅ []).
Proof.
  exists []. split_and!; [by split_and!; try constructor| |done].
  split_and!; [constructor| |done|by right]. by intros p Hp%elem_of_nil.
Qed.
