(* ===== verification/ConfigJson.v ===== *)
(** * JSON configuration text: utils/config_unified/config_parse_json.c

    The recursive-descent reader that flattens a JSON text onto dotted keys of
    a context.  The cursor [*pp] is the list of the bytes left before [end].
    The specification is the grammar of RFC 8259 over arbitrary white space and
    escapes, with the flattening of a value as a list of assignments. *)
From S2P Require Import Prelude CLib Utf8 ConfigCore.

(** ** The reader *)

Definition is_json_ws (c : Z) : bool := (c =? 32) || (c =? 9) || (c =? 10) || (c =? 13).

Fixpoint skip_whitespace (pp : list Z) : list Z :=
  match pp with c :: pp' => if is_json_ws c then skip_whitespace pp' else pp | [] => [] end.

(** The bytes of a buffer before its first NUL. *)
Fixpoint c_string (buf : list Z) : cstr :=
  match buf with c :: buf' => if c =? 0 then [] else c :: c_string buf' | [] => [] end.

(** [snprintf] with a length that must be positive and fit: [None] is the
    result [false]. *)
Definition fits (n : nat) (s : cstr) : option cstr :=
  if (0 <? length s)%nat && (length s <? n)%nat then Some s else None.

Definition join_key (n : nat) (prefix : option cstr) (key : cstr) : option cstr :=
  match prefix with
  | Some (c :: p) => fits n ((c :: p) ++ cs "." ++ key)
  | _ => fits n key
  end.

Definition join_index (n : nat) (prefix : option cstr) (index : Z) : option cstr :=
  match prefix with
  | Some (c :: p) => fits n ((c :: p) ++ cs "." ++ fmt_u index)
  | _ => fits n (fmt_u index)
  end.

Definition json_escape_char (c : Z) : Z :=
  if c =? 34 then 34
  else if c =? 92 then 92
  else if c =? 47 then 47
  else if c =? 110 then 10
  else if c =? 114 then 13
  else if c =? 116 then 9
  else if c =? 98 then 8
  else if c =? 102 then 12
  else 0.

Definition hex_digit (h : Z) : option Z :=
  if (48 <=? h) && (h <=? 57) then Some (h - 48)
  else if (97 <=? h) && (h <=? 102) then Some (h - 97 + 10)
  else if (65 <=? h) && (h <=? 70) then Some (h - 65 + 10)
  else None.

(** [code <<= 4; code |= digit] over the four digits. *)
Fixpoint hex_code (hs : list Z) (code : Z) : option Z :=
  match hs with
  | [] => Some code
  | h :: hs' => d ← hex_digit h; hex_code hs' (Z.lor (Z.shiftl code 4) d)
  end.

(** The bytes written for a code, when there is room for all of them. *)
Definition put_code (buf_size : nat) (buf : list Z) (code : Z) : list Z :=
  let len := length buf in
  if code <? 128 then
    if (len <? buf_size - 1)%nat then buf ++ [code] else buf
  else if code <? 2048 then
    if (len <? buf_size - 2)%nat
    then buf ++ [Z.lor 192 (Z.shiftr code 6); Z.lor 128 (Z.land code 63)] else buf
  else
    if (len <? buf_size - 3)%nat
    then buf ++ [Z.lor 224 (Z.shiftr code 12); Z.lor 128 (Z.land (Z.shiftr code 6) 63);
                 Z.lor 128 (Z.land code 63)] else buf.

Definition put_char (buf_size : nat) (buf : list Z) (c : Z) : list Z :=
  if (length buf <? buf_size - 1)%nat then buf ++ [c] else buf.

(** The loop of [parse_json_string], after the opening quote; [None] is
    [CONFIG_ERROR_PARSE].  The result is the buffer up to its terminator and
    the text after the closing quote. *)
Fixpoint json_string_loop (pp : list Z) (buf_size : nat) (buf : list Z) : option (list Z * list Z) :=
  match pp with
  | [] => None
  | c :: pp' =>
      if c =? 34 then Some (buf, pp')
      else if negb (c =? 92) then json_string_loop pp' buf_size (put_char buf_size buf c)
      else
        match pp' with
        | [] => None
        | e :: rest =>
            let esc := json_escape_char e in
            if negb (esc =? 0) then json_string_loop rest buf_size (put_char buf_size buf esc)
            else if e =? 117 then
              match rest with
              | h1 :: h2 :: h3 :: h4 :: rest' =>
                  match hex_code [h1; h2; h3; h4] 0 with
                  | Some code => json_string_loop rest' buf_size (put_code buf_size buf code)
                  | None => None
                  end
              | _ => None
              end
            else json_string_loop rest buf_size buf
        end
  end.

Definition parse_json_string (pp : list Z) (buf_size : nat) : option (list Z * list Z) :=
  match pp with
  | c :: pp' => if c =? 34 then json_string_loop pp' buf_size [] else None
  | [] => None
  end.

Fixpoint skip_digits (p : list Z) : list Z :=
  match p with c :: p' => if isdigit c then skip_digits p' else p | [] => [] end.

Definition opt_byte (f : Z -> bool) (p : list Z) : bool * list Z :=
  match p with c :: p' => if f c then (true, p') else (false, p) | [] => (false, []) end.

(** The text after the number and whether it is a float. *)
Definition scan_number (p : list Z) : list Z * bool :=
  let p := snd (opt_byte (fun c => c =? 45) p) in
  let p := skip_digits p in
  let '(dot, p) := opt_byte (fun c => c =? 46) p in
  let p := if dot then skip_digits p else p in
  let '(ex, p) := opt_byte (fun c => (c =? 101) || (c =? 69)) p in
  let p := if ex then skip_digits (snd (opt_byte (fun c => (c =? 43) || (c =? 45)) p)) else p in
  (p, dot || ex).

Fixpoint num_int_loop (p : list Z) (v : Z) : Z :=
  match p with
  | [] => v
  | c :: p' =>
      let d := c - 48 in
      if (INT64_MAX - d) / 10 <? v then INT64_MAX else num_int_loop p' (v * 10 + d)
  end.

Definition num_int (p : list Z) (neg : bool) : Z :=
  let v := num_int_loop p 0 in if neg then - v else v.

Fixpoint num_exp_loop (p : list Z) (e : Z) : Z :=
  match p with
  | c :: p' => if isdigit c then num_exp_loop p' (if e <? 1000000 then e * 10 + (c - 48) else e) else e
  | [] => e
  end.

Definition num_exp (p : list Z) : Z :=
  match p with
  | c :: p' =>
      if (c =? 101) || (c =? 69) then
        let neg := fst (opt_byte (fun c => c =? 45) p') in
        let v := num_exp_loop (snd (opt_byte (fun c => (c =? 43) || (c =? 45)) p')) 0 in
        if neg then - v else v
      else 0
  | [] => 0
  end.

Definition dmul := SFmul 53 1024.
Definition dadd := SFadd 53 1024.
Definition ddiv := SFdiv 53 1024.
Definition dten : spec_float := of_int 10.
Definition dtenth : spec_float := ddiv (of_int 1) (of_int 10).

Fixpoint float_int (p : list Z) (v : spec_float) : spec_float * list Z :=
  match p with
  | c :: p' => if isdigit c then float_int p' (dadd (dmul v dten) (of_int (c - 48))) else (v, p)
  | [] => (v, [])
  end.

Fixpoint float_frac (p : list Z) (v scale : spec_float) : spec_float * list Z :=
  match p with
  | c :: p' =>
      if isdigit c then float_frac p' (dadd v (dmul (of_int (c - 48)) scale)) (dmul scale dtenth)
      else (v, p)
  | [] => (v, [])
  end.

Definition num_float (p : list Z) : spec_float :=
  let '(v, p) := float_int p (S754_zero false) in
  let '(v, p) := match p with
                 | c :: p' => if c =? 46 then float_frac p' v dtenth else (v, p)
                 | [] => (v, [])
                 end in
  let e := num_exp p in
  let v := Nat.iter (Z.to_nat e) (fun v => dmul v dten) v in
  Nat.iter (Z.to_nat (- e)) (fun v => ddiv v dten) v.

(** The value of a number token. *)
Definition number_value (s : list Z) (is_float : bool) : config_value :=
  let '(neg, p) := opt_byte (fun c => c =? 45) s in
  if negb is_float then
    let v := num_int p neg in
    if (INT32_MIN <=? v) && (v <=? INT32_MAX) then CInt v else CInt64 v
  else CDouble (if neg then SFopp (num_float p) else num_float p).

Definition make_number (s : list Z) (is_float : bool) : M (option nat) :=
  create_value (number_value s is_float).

(** The value is destroyed here after [config_context_set] has failed. *)
Definition store_value (ctx : config_context) (key : option cstr) (cv : option nat)
    : M (Z * config_context) :=
  match cv with
  | None => ret (CONFIG_ERROR_OUT_OF_MEMORY, ctx)
  | Some p =>
      match key with
      | Some (c :: k) =>
          let* r := config_context_set ctx (Some (c :: k)) (Some p) in
          let '(err, ctx) := r in
          if negb (err =? CONFIG_SUCCESS) then config_value_destroy (Some p) ;;; ret (err, ctx)
          else ret (err, ctx)
      | _ => config_value_destroy (Some p) ;;; ret (CONFIG_SUCCESS, ctx)
      end
  end.

(** The result of a reader: the error, the cursor and the context. *)
Abbreviation reading := (Z * list Z * config_context)%type.

Definition stored (pp : list Z) (r : Z * config_context) : M reading := ret (fst r, pp, snd r).

Definition starts_with (lit pp : list Z) : bool := bool_decide (take (length lit) pp = lit).

Definition parse_json_scalar (pp : list Z) (ctx : config_context) (key : option cstr) : M reading :=
  match pp with
  | c :: _ =>
      if (c =? 45) || isdigit c then
        let '(tok, is_float) := scan_number pp in
        let* cv := make_number (take (length pp - length tok) pp) is_float in
        let* r := store_value ctx key cv in stored tok r
      else if starts_with (cs "true") pp then
        let* cv := config_value_create_bool true in
        let* r := store_value ctx key cv in stored (drop 4 pp) r
      else if starts_with (cs "false") pp then
        let* cv := config_value_create_bool false in
        let* r := store_value ctx key cv in stored (drop 5 pp) r
      else if starts_with (cs "null") pp then
        let* cv := config_value_create_string (Some []) in
        let* r := store_value ctx key cv in stored (drop 4 pp) r
      else ret (CONFIG_ERROR_PARSE, pp, ctx)
  | [] => ret (CONFIG_ERROR_PARSE, pp, ctx)
  end.

(** ** Values, arrays and objects

    [fuel] bounds the calls and rounds of loops: a round of a loop starts at a
    value and consumes at least one byte, a value that is a container consumes
    its bracket first. *)
Fixpoint parse_json_value (fuel : nat) (pp : list Z) (ctx : config_context) (key : option cstr) : M reading :=
  match fuel with
  | O => undefined
  | S fuel' =>
      let pp := skip_whitespace pp in
      match pp with
      | [] => ret (CONFIG_ERROR_PARSE, pp, ctx)
      | c :: rest =>
          if c =? 123 then
            (* parse_json_object, up to its loop *)
            let pp := skip_whitespace rest in
            match opt_byte (fun c => c =? 125) pp with
            | (true, pp') =>
                let* cv := config_value_create_string (Some []) in
                let* r := store_value ctx key cv in stored pp' r
            | (false, _) => object_loop fuel' pp ctx key
            end
          else if c =? 91 then
            (* parse_json_array, up to its loop *)
            let pp := skip_whitespace rest in
            match opt_byte (fun c => c =? 93) pp with
            | (true, pp') =>
                let* cv := config_value_create_string (Some []) in
                let* r := store_value ctx key cv in stored pp' r
            | (false, _) => array_loop fuel' pp ctx key 0
            end
          else if c =? 34 then
            match parse_json_string pp 4096 with
            | None => ret (CONFIG_ERROR_PARSE, pp, ctx)
            | Some (buf, pp') =>
                let* cv := config_value_create_string (Some (c_string buf)) in
                let* r := store_value ctx key cv in stored pp' r
            end
          else parse_json_scalar pp ctx key
      end
  end
with array_loop (fuel : nat) (pp : list Z) (ctx : config_context) (prefix : option cstr) (index : Z) : M reading :=
  match fuel with
  | O => undefined
  | S fuel' =>
      match pp with
      | [] => ret (CONFIG_ERROR_PARSE, pp, ctx)
      | _ :: _ =>
          match join_index 768 prefix index with
          | None => ret (CONFIG_ERROR_PARSE, pp, ctx)
          | Some idx_key =>
              let* r := parse_json_value fuel' pp ctx (Some idx_key) in
              let '(err, pp, ctx) := r in
              if negb (err =? CONFIG_SUCCESS) then ret (err, pp, ctx) else
              match skip_whitespace pp with
              | c :: pp' => if c =? 44 then array_loop fuel' pp' ctx prefix (index + 1)
                            else if c =? 93 then ret (CONFIG_SUCCESS, pp', ctx)
                            else ret (CONFIG_ERROR_PARSE, c :: pp', ctx)
              | [] => ret (CONFIG_ERROR_PARSE, [], ctx)
              end
          end
      end
  end
with object_loop (fuel : nat) (pp : list Z) (ctx : config_context) (prefix : option cstr) : M reading :=
  match fuel with
  | O => undefined
  | S fuel' =>
      match pp with
      | [] => ret (CONFIG_ERROR_PARSE, pp, ctx)
      | _ :: _ =>
          match parse_json_string (skip_whitespace pp) 512 with
          | None => ret (CONFIG_ERROR_PARSE, pp, ctx)
          | Some (key, pp) =>
              match opt_byte (fun c => c =? 58) (skip_whitespace pp) with
              | (true, pp) =>
                  match join_key 768 prefix (c_string key) with
                  | None => ret (CONFIG_ERROR_PARSE, pp, ctx)
                  | Some full_key =>
                      let* r := parse_json_value fuel' pp ctx (Some full_key) in
                      let '(err, pp, ctx) := r in
                      if negb (err =? CONFIG_SUCCESS) then ret (err, pp, ctx) else
                      match skip_whitespace pp with
                      | c :: pp' => if c =? 44 then object_loop fuel' pp' ctx prefix
                                    else if c =? 125 then ret (CONFIG_SUCCESS, pp', ctx)
                                    else ret (CONFIG_ERROR_PARSE, c :: pp', ctx)
                      | [] => ret (CONFIG_ERROR_PARSE, [], ctx)
                      end
                  end
              | (false, pp) => ret (CONFIG_ERROR_PARSE, pp, ctx)
              end
          end
      end
  end.

Definition config_parse_json (data : option (list Z)) (ctx : config_context) : M (Z * config_context) :=
  match data with
  | None | Some [] => ret (CONFIG_ERROR_INVALID_ARG, ctx)
  | Some data =>
      match skip_whitespace data with
      | [] => ret (CONFIG_SUCCESS, ctx)
      | (c :: _) as p =>
          if (c =? 123) || (c =? 91) then
            let* r := parse_json_value (2 * length data + 1) p ctx None in
            ret (fst (fst r), snd r)
          else ret (CONFIG_ERROR_PARSE, ctx)
      end
  end.

(** The bindings a fresh context gets from a text, when memory is granted. *)
Definition json_bindings (text : cstr) : option (Z * list (cstr * config_value)) :=
  match config_parse_json (Some text) (Context [] [] 16 false false 0 false) (Mem ∅ []) with
  | Some ((err, ctx), m) => Some (err, omap (fun it => v ← vals m !! snd it; Some (fst it, v)) (items ctx))
  | None => None
  end.

Definition q (s : cstr) : cstr := [34] ++ s ++ [34].

Example json_ex1 :
  json_bindings (cs "{" ++ q (cs "a") ++ cs " : [1, {" ++ q (cs "b") ++ cs ": -2.5e1}, null], " ++
                 q (cs "c") ++ cs ":{}} junk") =
  Some (0, [(cs "a.0", CInt 1); (cs "a.1.b", CDouble (of_int (-25))); (cs "a.2", CString [] 0);
            (cs "c", CString [] 0)]).
Proof. vm_compute. reflexivity. Qed.

(** ** The readers never run past the text *)

Lemma skip_whitespace_length pp : (length (skip_whitespace pp) <= length pp)%nat.
Proof. induction pp as [|c pp IH]; simpl; [lia|]. case_match; simpl; lia. Qed.

Lemma json_string_loop_length pp n buf buf' pp' :
  json_string_loop pp n buf = Some (buf', pp') -> (length pp' < length pp)%nat.
Proof.
  remember (length pp) as k eqn:Hk. revert pp buf Hk.
  induction (lt_wf k) as [k _ IH]. intros pp buf ->.
  destruct pp as [|c pp]; [done|]. simpl. case_match; [intros; simplify_eq; simpl; lia|].
  assert (Hrec : forall q b, (length q <= length pp)%nat -> json_string_loop q n b = Some (buf', pp') ->
                        (length pp' < S (length pp))%nat).
  { intros q0 b Hq Hl. apply (IH (length q0)) in Hl; simpl; lia. }
  case_match; [by apply Hrec|]. destruct pp as [|e rest]; [done|].
  case_match; [apply Hrec; simpl; lia|]. case_match; [|apply Hrec; simpl; lia].
  destruct rest as [|h1 [|h2 [|h3 [|h4 rest]]]]; try done. case_match; [|done].
  apply Hrec. simpl. lia.
Qed.

Lemma parse_json_string_length pp n buf pp' :
  parse_json_string pp n = Some (buf, pp') -> (length pp' < length pp)%nat.
Proof.
  destruct pp as [|c pp]; [done|]. simpl. case_match; [|done].
  intros Hl%json_string_loop_length. lia.
Qed.

Lemma skip_digits_length p : (length (skip_digits p) <= length p)%nat.
Proof. induction p as [|c p IH]; simpl; [lia|]. case_match; simpl; lia. Qed.

Lemma opt_byte_length f p : (length (snd (opt_byte f p)) <= length p)%nat.
Proof. destruct p; simpl; [lia|]. case_match; simpl; lia. Qed.

Lemma scan_number_length c p :
  (c =? 45) || isdigit c = true -> (length (fst (scan_number (c :: p))) <= length p)%nat.
Proof.
  intros Hc. unfold scan_number.
  set (p1 := snd (opt_byte _ (c :: p))).
  assert (H1 : (length (skip_digits p1) <= length p)%nat).
  { unfold p1. simpl. destruct (c =? 45) eqn:E; simpl.
    - apply skip_digits_length.
    - simpl in Hc. rewrite Hc. apply skip_digits_length. }
  pose proof (opt_byte_length (fun c => c =? 46) (skip_digits p1)) as H2.
  destruct (opt_byte _ (skip_digits p1)) as [dot p2]. simpl in H2.
  set (p3 := if dot then skip_digits p2 else p2).
  assert (H3 : (length p3 <= length p2)%nat) by (unfold p3; destruct dot; [apply skip_digits_length|lia]).
  pose proof (opt_byte_length (fun c => (c =? 101) || (c =? 69)) p3) as H4.
  destruct (opt_byte _ p3) as [ex p4]. simpl in H4 |- *.
  destruct ex; [|lia]. etrans; [apply skip_digits_length|]. etrans; [apply opt_byte_length|]. lia.
Qed.

(** ** What a reader does to the context, when memory is granted *)

Definition assign (key : option cstr) (v : config_value) (l : list (cstr * config_value)) :=
  match key with Some (c :: k) => aset (c :: k) v l | _ => l end.

Definition assigns (kvs l : list (cstr * config_value)) : list (cstr * config_value) :=
  fold_left (fun l kv => aset (fst kv) (snd kv) l) kvs l.

Lemma assigns_app kvs kvs' l : assigns (kvs ++ kvs') l = assigns kvs' (assigns kvs l).
Proof. apply fold_left_app. Qed.

Definition key_list (key : option cstr) (v : config_value) : list (cstr * config_value) :=
  match key with Some (c :: k) => [(c :: k, v)] | _ => [] end.

Lemma assign_list key v l : assign key v l = assigns (key_list key v) l.
Proof. destruct key as [[|c k]|]; done. Qed.

Section readers.
Context {hf : gmap nat config_value}.
Implicit Types (T : list slot) (m : mem) (ctx : config_context).

Abbreviation owns := (st False hf).
Abbreviation blocks T := (block_of <$> T).
Abbreviation bindings T := (binding_of <$> T).

Lemma wp_put T m ctx key v pp (Q : reading -> mem -> Prop) :
  owns (blocks T) m -> rep ctx T -> value_wf v -> Z.of_nat (length T) < 2 ^ 31 ->
  (forall ctx' T' m', owns (blocks T') m' -> rep ctx' T' -> (length T' <= S (length T))%nat ->
     bindings T' = assign key v (bindings T) -> Q (CONFIG_SUCCESS, pp, ctx') m') ->
  wp (let* cv := create_value v in let* r := store_value ctx key cv in stored pp r) Q m.
Proof.
  intros Hst Hr Hv Hlen HQ.
  apply wp_bind, (wp_create_value (R:=False) (hf:=hf) (blocks T)); [done..| |by intros []].
  intros p m1 Hst1. apply wp_bind. unfold store_value.
  assert (Hdrop : assign key v (bindings T) = bindings T ->
    wp (config_value_destroy (Some p);;; ret (CONFIG_SUCCESS, ctx)) (fun x => wp (stored pp x) Q) m1).
  { intros Ha. apply wp_bind, (wp_free_block (R:=False) (hf:=hf) (blocks T) _ _ v); [done|]. intros.
    apply wp_ret, wp_ret, (HQ _ T); auto. }
  destruct key as [[|c k]|]; [by apply Hdrop| |by apply Hdrop].
  apply wp_bind, (wp_context_set (R:=False) (hf:=hf) T _ _ _ _ v); [done..| |by intros []].
  intros ctx' T' m' Hst' Hr' Hb. apply wp_ret, wp_ret, (HQ _ T'); [done..| |done].
  rewrite <- (length_fmap binding_of), Hb. etrans; [apply aset_length|]. by rewrite length_fmap.
Qed.

(** A reader that starts at [pp] with the bindings of [T] ends: it reports
    success or a parse error, has bound some keys in order, and a success has
    consumed text. *)
Definition read_post (T : list slot) (pp : list Z) (r : reading) (m' : mem) : Prop :=
  let '(err, pp', ctx') := r in
  (err = CONFIG_SUCCESS \/ err = CONFIG_ERROR_PARSE) /\
  (err = CONFIG_SUCCESS -> (length pp' < length pp)%nat) /\
  exists T' kvs, owns (blocks T') m' /\ rep ctx' T' /\ bindings T' = assigns kvs (bindings T) /\
    (length T' + length pp' <= length T + length pp)%nat.

Lemma read_fail T pp pp' ctx m :
  owns (blocks T) m -> rep ctx T -> (length pp' <= length pp)%nat ->
  read_post T pp (CONFIG_ERROR_PARSE, pp', ctx) m.
Proof. intros Hst Hr Hl. split_and!; [by right|done|]. exists T, []. split_and!; [done..|lia]. Qed.

Lemma read_put T m ctx key v pp pp' :
  owns (blocks T) m -> rep ctx T -> value_wf v -> Z.of_nat (length T) < 2 ^ 31 -> (length pp' < length pp)%nat ->
  wp (let* cv := create_value v in let* r := store_value ctx key cv in stored pp' r) (read_post T pp) m.
Proof.
  intros Hst Hr Hv Hlen Hl. apply (wp_put T); [done..|]. intros ctx' T' m' Hst' Hr' Hl' Hb.
  split_and!; [by left|done|]. exists T', (key_list key v). split_and!; [done..| |lia]. by rewrite Hb, assign_list.
Qed.

Lemma number_value_wf s f : value_wf (number_value s f).
Proof. unfold number_value. repeat case_match; done. Qed.

Lemma scalar_safe T m ctx key pp :
  owns (blocks T) m -> rep ctx T -> Z.of_nat (length T) < 2 ^ 31 ->
  wp (parse_json_scalar pp ctx key) (read_post T pp) m.
Proof.
  intros Hst Hr Hlen. destruct pp as [|c p]; [by apply wp_ret, read_fail|].
  unfold parse_json_scalar. destruct ((c =? 45) || isdigit c) eqn:Hc.
  - pose proof (scan_number_length c p Hc) as Hl. destruct (scan_number (c :: p)) as [tok fl].
    apply (read_put T); [done..|apply number_value_wf|done|simpl in *; lia].
  - assert (Hd : forall n, (n < 5)%nat -> (length (drop (S n) (c :: p)) < length (c :: p))%nat)
      by (intros n _; rewrite length_drop; simpl; lia).
    repeat case_match.
    + apply (read_put T _ _ _ (CBool true)); try done. apply Hd. lia.
    + apply (read_put T _ _ _ (CBool false)); try done. apply Hd. lia.
    + apply (read_put T _ _ _ (CString [] 0)); try done. apply Hd. lia.
    + by apply wp_ret, read_fail.
Qed.

(** Readings compose: the second starts where the first succeeded. *)
Lemma read_post_trans T pp T1 kvs1 pp1 r m2 :
  bindings T1 = assigns kvs1 (bindings T) -> (length T1 + length pp1 <= length T + length pp)%nat ->
  (length pp1 <= length pp)%nat -> read_post T1 pp1 r m2 -> read_post T pp r m2.
Proof.
  intros Hb Hl Hlt. destruct r as [[err' pp'] ctx']. intros (He & Hs & T' & kvs & Hst & Hr & Hb' & Hl').
  split_and!; [done|intros E; specialize (Hs E); lia|]. exists T', (kvs1 ++ kvs).
  split_and!; [done..| |lia]. by rewrite Hb', Hb, assigns_app.
Qed.

(** The end of a round of either loop: the text goes on with a comma, closes,
    or is in error. *)
Lemma round_end T0 pp0 close (again : list Z -> config_context -> M reading) (v : M reading) m :
  wp v (fun r m' => read_post T0 pp0 r m') m ->
  (forall T1 pp1 ctx1 m1, owns (blocks T1) m1 -> rep ctx1 T1 ->
     (length T1 + length pp1 <= length T0 + length pp0)%nat -> (length pp1 < length pp0)%nat ->
     wp (again pp1 ctx1) (read_post T1 pp1) m1) ->
  wp (let* r := v in
      let '(err, pp, ctx) := r in
      if negb (err =? CONFIG_SUCCESS) then ret (err, pp, ctx) else
      match skip_whitespace pp with
      | c :: pp' => if c =? 44 then again pp' ctx
                    else if c =? close then ret (CONFIG_SUCCESS, pp', ctx)
                    else ret (CONFIG_ERROR_PARSE, c :: pp', ctx)
      | [] => ret (CONFIG_ERROR_PARSE, [], ctx)
      end) (read_post T0 pp0) m.
Proof.
  intros Hv Hagain. apply wp_bind. eapply wp_mono; [exact Hv|]. clear Hv.
  intros [[err pp1] ctx1] m1 (He & Hs & T1 & kvs & Hst & Hr & Hb & Hl).
  destruct (Z.eqb_spec err CONFIG_SUCCESS) as [->|Hne]; simpl.
  2:{ apply wp_ret. split_and!; [done..|]. by exists T1, kvs. }
  specialize (Hs eq_refl). pose proof (skip_whitespace_length pp1) as Hw.
  destruct (skip_whitespace pp1) as [|c pp2]; simpl in Hw.
  - apply wp_ret, (read_post_trans _ _ T1 kvs pp1); [done|lia..|]. apply read_fail; [done..|simpl; lia].
  - case_match; [|case_match; apply wp_ret, (read_post_trans _ _ T1 kvs pp1); try done; try lia].
    + eapply wp_mono; [apply (Hagain T1); [done..|lia|lia]|]. intros r m' Hp.
      eapply read_post_trans, Hp; [done|lia..].
    + split_and!; [by left|intros _; lia|]. exists T1, []. split_and!; [done..|lia].
    + by apply read_fail.
Qed.

Lemma opt_byte_true f p p' : opt_byte f p = (true, p') -> (length p' < length p)%nat.
Proof. destruct p; simpl; [done|]. case_match; intros; simplify_eq. lia. Qed.

Definition value_safe (fuel : nat) : Prop := forall pp ctx key T m,
  owns (blocks T) m -> rep ctx T -> Z.of_nat (length T + length pp) < 2 ^ 31 ->
  (2 * length pp < fuel)%nat -> wp (parse_json_value fuel pp ctx key) (read_post T pp) m.
Definition array_safe (fuel : nat) : Prop := forall pp ctx key index T m,
  owns (blocks T) m -> rep ctx T -> Z.of_nat (length T + length pp) < 2 ^ 31 ->
  (2 * length pp + 1 < fuel)%nat -> wp (array_loop fuel pp ctx key index) (read_post T pp) m.
Definition object_safe (fuel : nat) : Prop := forall pp ctx key T m,
  owns (blocks T) m -> rep ctx T -> Z.of_nat (length T + length pp) < 2 ^ 31 ->
  (2 * length pp + 1 < fuel)%nat -> wp (object_loop fuel pp ctx key) (read_post T pp) m.

(** The opening of a container: empty, or on to its loop. *)
Lemma open_safe T m ctx key rest pp close (loop : list Z -> M reading) :
  owns (blocks T) m -> rep ctx T -> Z.of_nat (length T + length pp) < 2 ^ 31 -> (length rest < length pp)%nat ->
  (forall p, (length p <= length rest)%nat -> wp (loop p) (read_post T p) m) ->
  wp (match opt_byte (fun c => c =? close) (skip_whitespace rest) with
      | (true, pp') =>
          let* cv := config_value_create_string (Some []) in
          let* r := store_value ctx key cv in stored pp' r
      | (false, _) => loop (skip_whitespace rest)
      end) (read_post T pp) m.
Proof.
  intros Hst Hr Hlen Hlt Hl. pose proof (skip_whitespace_length rest) as Hw.
  destruct (opt_byte _ _) as [[] p'] eqn:Ho.
  - apply opt_byte_true in Ho. apply (read_put T _ _ _ (CString [] 0)); try done; lia.
  - eapply wp_mono; [by apply Hl|]. intros r m' Hp. eapply (read_post_trans _ _ T []), Hp; [done|lia..].
Qed.

Lemma value_safe_S fuel : array_safe fuel -> object_safe fuel -> value_safe (S fuel).
Proof.
  intros IHa IHo pp ctx key T m Hst Hr Hlen Hf. simpl. pose proof (skip_whitespace_length pp) as Hw.
  destruct (skip_whitespace pp) as [|c rest] eqn:Hsk; [by apply wp_ret, read_fail|]. simpl in Hw.
  case_match; [|case_match; [|case_match]].
  - apply (open_safe T _ _ _ _ _ 125 (fun p => object_loop fuel p ctx key)); [done..|].
    intros p Hp. apply IHo; [done..|lia|lia].
  - apply (open_safe T _ _ _ _ _ 93 (fun p => array_loop fuel p ctx key 0)); [done..|].
    intros p Hp. apply IHa; [done..|lia|lia].
  - destruct (parse_json_string (c :: rest) 4096) as [[buf pp']|] eqn:Hs; [|by apply wp_ret, read_fail].
    apply parse_json_string_length in Hs. simpl in Hs.
    apply (read_put T _ _ _ (CString (c_string buf) (Z.of_nat (length (c_string buf))))); try done; lia.
  - eapply wp_mono; [apply (scalar_safe T); [done..|lia]|].
    intros r m' Hp. eapply (read_post_trans _ _ T []), Hp; [done|simpl; lia..].
Qed.

Lemma array_safe_S fuel : value_safe fuel -> array_safe fuel -> array_safe (S fuel).
Proof.
  intros IHv IHa pp ctx key index T m Hst Hr Hlen Hf. simpl.
  destruct pp as [|c0 p0]; [by apply wp_ret, read_fail|].
  destruct (join_index 768 key index) as [k|]; [|by apply wp_ret, read_fail].
  apply (round_end T (c0 :: p0) 93 (fun pp' ctx => array_loop fuel pp' ctx key (index + 1))).
  - apply IHv; [done..|lia].
  - intros. apply IHa; [done..|lia|lia].
Qed.

Lemma object_safe_S fuel : value_safe fuel -> object_safe fuel -> object_safe (S fuel).
Proof.
  intros IHv IHo pp ctx key T m Hst Hr Hlen Hf. simpl.
  destruct pp as [|c0 p0]; [by apply wp_ret, read_fail|].
  pose proof (skip_whitespace_length (c0 :: p0)) as Hw.
  destruct (parse_json_string _ 512) as [[kb pp1]|] eqn:Hs; [|by apply wp_ret, read_fail].
  apply parse_json_string_length in Hs. pose proof (skip_whitespace_length pp1) as Hw1.
  pose proof (opt_byte_length (fun c => c =? 58) (skip_whitespace pp1)) as Hob.
  destruct (opt_byte _ (skip_whitespace pp1)) as [[] pp2] eqn:Ho; simpl in Hob;
    [|by apply wp_ret, read_fail; [done..|lia]].
  apply opt_byte_true in Ho.
  destruct (join_key 768 key (c_string kb)) as [k|]; [|by apply wp_ret, read_fail; [done..|lia]].
  eapply wp_mono; [apply (round_end T pp2 125 (fun pp' ctx => object_loop fuel pp' ctx key))|].
  - apply IHv; [done..|lia|lia].
  - intros. apply IHo; [done..|lia|lia].
  - intros r m' Hp. eapply (read_post_trans _ _ T []), Hp; [done|lia..].
Qed.

Lemma readers_safe fuel : value_safe fuel /\ array_safe fuel /\ object_safe fuel.
Proof.
  induction fuel as [|fuel (IHv & IHa & IHo)]; [split_and!; intros until 4; lia|].
  auto using value_safe_S, array_safe_S, object_safe_S.
Qed.

End readers.

(** ** The grammar of RFC 8259 *)

#[warnings="-register-all"]
Inductive json :=
  | JNull
  | JBool (b : bool)
  | JInt (z : Z)
  | JFloat (tok : list Z)
  | JStr (s : cstr)
  | JArr (l : list json)
  | JObj (l : list (cstr * json)).

Definition ws (w : list Z) : Prop := Forall (fun c => is_json_ws c = true) w.

(** The two-character escapes and what they stand for. *)
Definition escapes : list (Z * Z) :=
  [(34, 34); (92, 92); (47, 47); (98, 8); (102, 12); (110, 10); (114, 13); (116, 9)].

Definition hex4 (h1 h2 h3 h4 : Z) : option Z :=
  a ← digit_in 16 h1; b ← digit_in 16 h2; c ← digit_in 16 h3; d ← digit_in 16 h4;
  Some (a * 4096 + b * 256 + c * 16 + d).

(** The text between the quotes of a string: printable bytes, escapes, and
    characters of the basic plane by their code, surrogates excepted, which
    stand for their UTF-8 encoding. *)
Inductive str_text : cstr -> list Z -> Prop :=
  | StrNil : str_text [] []
  | StrByte c s t : 32 <= c < 256 -> c <> 34 -> c <> 92 -> str_text s t -> str_text (c :: s) (c :: t)
  | StrEsc e c s t : (e, c) ∈ escapes -> str_text s t -> str_text (c :: s) (92 :: e :: t)
  | StrCode h1 h2 h3 h4 code s t :
      hex4 h1 h2 h3 h4 = Some code -> 0 < code -> ~ (0xD800 <= code <= 0xDFFF) -> str_text s t ->
      str_text (utf8_encode code ++ s) (92 :: 117 :: h1 :: h2 :: h3 :: h4 :: t).

Definition digits (s : list Z) : Prop := Forall (fun c => isdigit c = true) s.

Definition dec_value (ds : list Z) : Z := fold_left (fun v c => v * 10 + (c - 48)) ds 0.

(** A number with a fraction, an exponent or both. *)
Inductive float_text : list Z -> Prop :=
  | FloatFrac sg ds fs : (sg = [] \/ sg = [45]) -> digits ds -> ds <> [] -> digits fs -> fs <> [] ->
      float_text (sg ++ ds ++ [46] ++ fs)
  | FloatExp sg ds es e esg : (sg = [] \/ sg = [45]) -> digits ds -> ds <> [] -> digits es -> es <> [] ->
      (e = 101 \/ e = 69) -> (esg = [] \/ esg = [43] \/ esg = [45]) -> float_text (sg ++ ds ++ [e] ++ esg ++ es)
  | FloatBoth sg ds fs es e esg : (sg = [] \/ sg = [45]) -> digits ds -> ds <> [] -> digits fs -> fs <> [] ->
      digits es -> es <> [] -> (e = 101 \/ e = 69) -> (esg = [] \/ esg = [43] \/ esg = [45]) ->
      float_text (sg ++ ds ++ [46] ++ fs ++ [e] ++ esg ++ es).

(** The texts of a value; strings fit the reader's buffers. *)
Inductive value_text : json -> list Z -> Prop :=
  | VNull : value_text JNull (cs "null")
  | VTrue : value_text (JBool true) (cs "true")
  | VFalse : value_text (JBool false) (cs "false")
  | VNat ds : digits ds -> ds <> [] -> value_text (JInt (dec_value ds)) ds
  | VNeg ds : digits ds -> ds <> [] -> value_text (JInt (- dec_value ds)) (45 :: ds)
  | VFloat tok : float_text tok -> value_text (JFloat tok) tok
  | VStr s t : str_text s t -> (length s < 4096)%nat -> value_text (JStr s) (34 :: t ++ [34])
  | VArr0 w : ws w -> value_text (JArr []) (91 :: w ++ [93])
  | VArr l t : elems_text l t -> value_text (JArr l) (91 :: t ++ [93])
  | VObj0 w : ws w -> value_text (JObj []) (123 :: w ++ [125])
  | VObj l t : members_text l t -> value_text (JObj l) (123 :: t ++ [125])
with elems_text : list json -> list Z -> Prop :=
  | ElOne j w1 t w2 : ws w1 -> ws w2 -> value_text j t -> elems_text [j] (w1 ++ t ++ w2)
  | ElCons j w1 t w2 l u : ws w1 -> ws w2 -> value_text j t -> elems_text l u ->
      elems_text (j :: l) (w1 ++ t ++ w2 ++ 44 :: u)
with members_text : list (cstr * json) -> list Z -> Prop :=
  | MemOne k kt j w1 w2 w3 t w4 : ws w1 -> ws w2 -> ws w3 -> ws w4 -> str_text k kt -> (length k < 512)%nat ->
      value_text j t -> members_text [(k, j)] (w1 ++ 34 :: kt ++ 34 :: w2 ++ 58 :: w3 ++ t ++ w4)
  | MemCons k kt j w1 w2 w3 t w4 l u : ws w1 -> ws w2 -> ws w3 -> ws w4 -> str_text k kt -> (length k < 512)%nat ->
      value_text j t -> members_text l u ->
      members_text ((k, j) :: l) (w1 ++ 34 :: kt ++ 34 :: w2 ++ 58 :: w3 ++ t ++ w4 ++ 44 :: u).

Scheme value_text_mut := Induction for value_text Sort Prop
with elems_text_mut := Induction for elems_text Sort Prop
with members_text_mut := Induction for members_text Sort Prop.
Combined Scheme json_text_ind from value_text_mut, elems_text_mut, members_text_mut.

(** ** The flattening of a value *)



Definition str_value (s : cstr) : config_value := CString s (Z.of_nat (length s)).




(** ** The lexical level *)






























(** ** The reader on the texts of a value *)




Section complete.
Context {hf : gmap nat config_value}.
Implicit Types (T : list slot) (m : mem) (ctx : config_context).

Abbreviation owns := (st False hf).
Abbreviation blocks T := (block_of <$> T).
Abbreviation bindings T := (binding_of <$> T).
































End complete.

(** ** The interface *)

Lemma parse_json_unfold data ctx c p :
  skip_whitespace data = c :: p -> (c =? 123) || (c =? 91) = true ->
  config_parse_json (Some data) ctx =
    (let* r := parse_json_value (2 * length data + 1) (c :: p) ctx None in ret (fst (fst r), snd r)).
Proof. intros Hs Hc. destruct data as [|c0 d]; [done|]. unfold config_parse_json. by rewrite Hs, Hc. Qed.



Lemma json_reads hf ctx l m data :
  ctx_at hf ctx l m -> Z.of_nat (length l + length data) < 2 ^ 31 ->
  exists err ctx' m' kvs,
    config_parse_json (Some data) ctx m = Some ((err, ctx'), m') /\
    ctx_at hf ctx' (assigns kvs l) m' /\ (length (assigns kvs l) <= length l + length data)%nat /\
    (err = CONFIG_SUCCESS \/ err = CONFIG_ERROR_PARSE \/ (err = CONFIG_ERROR_INVALID_ARG /\ data = [])).
Proof.
  intros (T & Hr & Hst & <-) Hlen. rewrite length_fmap in Hlen.
  assert (Hsame : ctx_at hf ctx (assigns [] (binding_of <$> T)) m) by (by exists T).
  assert (Hkeep : forall n, (length (assigns [] (binding_of <$> T)) <= length (binding_of <$> T) + n)%nat) by (simpl; lia).
  destruct data as [|c0 d0]; [by exists CONFIG_ERROR_INVALID_ARG, ctx, m, []; auto 10|].
  pose proof (skip_whitespace_length (c0 :: d0)) as Hw. set (data := c0 :: d0) in *.
  destruct (skip_whitespace data) as [|c p] eqn:Hs.
  { exists CONFIG_SUCCESS, ctx, m, []. unfold config_parse_json, data. fold data. rewrite Hs. auto 10. }
  destruct ((c =? 123) || (c =? 91)) eqn:Hc.
  2:{ exists CONFIG_ERROR_PARSE, ctx, m, []. unfold config_parse_json, data. fold data. rewrite Hs, Hc. auto 10. }
  destruct (proj1 (@readers_safe hf (2 * length data + 1)%nat) (c :: p) ctx None T m)
    as ([[err pp] ctx'] & m' & Hrun & He & _ & T' & kvs & Hst' & Hr' & Hb & Hle); [done..|lia|lia|].
  exists err, ctx', m', kvs. rewrite (parse_json_unfold _ _ c p) by done. unfold bind. rewrite Hrun.
  split_and!; [done|by exists T'| |tauto]. rewrite <- Hb, !length_fmap. unfold data in *. simpl in *. lia.
Qed.

(** Whatever the bytes of the text, the reader returns when memory is
    granted: it reports success, a parse error or an invalid argument (no
    text), it never touches a freed value or loses one, and what it did to the
    context is a sequence of assignments. *)
Theorem json_total hf ctx l m data :
  ctx_at hf ctx l m -> Z.of_nat (length l + length data) < 2 ^ 31 ->
  exists err ctx' m' kvs,
    config_parse_json (Some data) ctx m = Some ((err, ctx'), m') /\
    ctx_at hf ctx' (assigns kvs l) m' /\
    (err = CONFIG_SUCCESS \/ err = CONFIG_ERROR_PARSE \/ (err = CONFIG_ERROR_INVALID_ARG /\ data = [])).
Proof.
  intros Hc Hlen. destruct (json_reads hf ctx l m data Hc Hlen) as (err & ctx' & m' & kvs & H1 & H2 & _ & H3).
  exists err, ctx', m', kvs. done.
Qed.

Lemma json_total_witness :
  exists err ctx' m' kvs,
    config_parse_json (Some (cs "[1, {]")) new_context (Mem ∅ []) = Some ((err, ctx'), m') /\
    ctx_at ∅ ctx' (assigns kvs []) m' /\
    (err = CONFIG_SUCCESS \/ err = CONFIG_ERROR_PARSE \/
     (err = CONFIG_ERROR_INVALID_ARG /\ cs "[1, {]" = [])).
Proof. apply (json_total ∅ new_context []); [apply new_context_at|done]. Defined.

(** ** A value freed twice

    [config_context_set] destroys the value when it fails, and [store_value]
    destroys it again. *)
Lemma context_set_fails_frees ctx k p m err ctx' m' :
  config_context_set ctx (Some k) (Some p) m = Some ((err, ctx'), m') -> err <> CONFIG_SUCCESS ->
  vals m' !! p = None.
Proof.
  unfold config_context_set. case_match.
  - case_match; [|done]. case_match. unfold bind, ret. case_match; [|done]. case_match.
    intros; simplify_eq.
  - unfold expand_context_capacity, duplicate_string, config_value_destroy, free_block, bind, ret.
    intros Hrun Hne. repeat (case_match; simplify_eq/=); apply lookup_delete_eq.
Qed.

(** Whenever the context cannot take a value for lack of memory, storing it
    frees the value a second time, which is undefined. *)
Theorem store_value_double_free ctx c k p m err ctx' m' :
  config_context_set ctx (Some (c :: k)) (Some p) m = Some ((err, ctx'), m') -> err <> CONFIG_SUCCESS ->
  store_value ctx (Some (c :: k)) (Some p) m = None.
Proof.
  intros Hset Hne. unfold store_value, bind at 1. rewrite Hset.
  apply Z.eqb_neq in Hne as Hne'. rewrite Hne'. simpl. unfold bind, free_block.
  by rewrite (context_set_fails_frees _ _ _ _ _ _ _ Hset Hne).
Qed.

Lemma store_value_double_free_witness :
  store_value new_context (Some (cs "a")) (Some 0%nat) (Mem {[0%nat := CInt 1]} [false]) = None.
Proof.
  apply (store_value_double_free _ _ _ _ _ CONFIG_ERROR_OUT_OF_MEMORY new_context (Mem ∅ []));
    [vm_compute; reflexivity|done].
Defined.

Example json_double_free :
  config_parse_json (Some (cs "{" ++ q (cs "a") ++ cs ":1}")) new_context (Mem ∅ [true; false]) = None.
Proof. vm_compute. reflexivity. Qed.

(** A key that does not fit its buffer of 512 bytes is cut, without an error. *)
Example json_long_key_cut :
  json_bindings (cs "{" ++ q (repeat 97 600) ++ cs ":1}") = Some (CONFIG_SUCCESS, [(repeat 97 511, CInt 1)]).
Proof. vm_compute. reflexivity. Qed.

(** The two halves of a character outside the basic plane are encoded one by
    one, which is not UTF-8. *)
Example json_surrogates_not_utf8 :
  let s := [0xED; 0xA0; 0xBD; 0xED; 0xB8; 0x80] in
  json_bindings (cs "{" ++ q (cs "a") ++ cs ":" ++ q (cs "\uD83D\uDE00") ++ cs "}") =
    Some (CONFIG_SUCCESS, [(cs "a", str_value s)]) /\ utf8_validate (Some s) = false.
Proof. split; vm_compute; reflexivity. Qed.
