(* ===== verification/ConfigIni.v ===== *)
(** * INI configuration text: utils/config_unified/config_parse.c

    The cursor is the list of the bytes left before [end].  The specification
    is a document of lines: blank lines, comments, section headers and pairs. *)
From S2P Require Import Prelude CLib Utf8 ConfigCore ConfigJson.

(** ** The reader *)

(** The start of the next line. *)
Fixpoint ini_eol (p : list Z) : list Z :=
  match p with c :: p' => if c =? 10 then p' else ini_eol p' | [] => [] end.

Definition is_blank (c : Z) : bool := (c =? 32) || (c =? 9).

Fixpoint ini_blank (p : list Z) : list Z :=
  match p with c :: p' => if is_blank c then ini_blank p' else p | [] => [] end.

(** The bytes before the first one that satisfies [f], and the rest. *)
Fixpoint split_at (f : Z -> bool) (p : list Z) : list Z * list Z :=
  match p with
  | [] => ([], [])
  | c :: p' => if f c then ([], p) else let '(a, b) := split_at f p' in (c :: a, b)
  end.

(** [p] is after the bracket; the name goes to the next closing bracket, on
    whichever line. *)
Definition ini_sect (p : list Z) (cap : nat) : list Z * list Z :=
  let '(name, close) := split_at (fun c => c =? 93) p in
  (take (cap - 1) name, ini_eol close).

(** The line, its part before the first '=' if there is one, and what starts
    at its end. *)
Definition ini_split (p : list Z) : list Z * option (list Z * list Z) * list Z :=
  let '(line, eol) := split_at (fun c => c =? 10) p in
  let '(k, v) := split_at (fun c => c =? 61) line in
  (line, match v with _ :: v' => Some (k, v') | [] => None end, eol).

(** Without the trailing bytes that satisfy [f]. *)
Fixpoint rtrim (f : Z -> bool) (s : list Z) : list Z :=
  match s with
  | [] => []
  | c :: s' => match rtrim f s' with [] => if f c then [] else [c] | t => c :: t end
  end.

Definition ini_pair (key_text val_text : list Z) (sect : list Z) (ctx : config_context)
    : M config_context :=
  let sect := c_string sect in
  let v := rtrim (fun c => (c =? 13) || (c =? 10) || (c =? 32)) val_text in
  let k := rtrim is_blank key_text in
  let key :=
    match sect with
    | _ :: _ =>
        let off := (length sect + 1)%nat in
        if (off + length k <? 512)%nat then sect ++ [46] ++ k else sect ++ [46]
    | [] => take 511 k
    end in
  let val := take 1023 v in
  let* cv := config_value_create_string (Some (c_string val)) in
  match cv with
  | None => ret ctx
  | Some p =>
      let* r := config_context_set ctx (Some (c_string key)) (Some p) in
      ret (snd r)
  end.

(** Each round consumes a byte. *)
Fixpoint ini_loop (fuel : nat) (p : list Z) (section : list Z) (ctx : config_context) : M config_context :=
  match fuel with
  | O => undefined
  | S fuel' =>
      match ini_blank p with
      | [] => ret ctx
      | c :: p' =>
          if (c =? 35) || (c =? 59) then ini_loop fuel' (ini_eol (c :: p')) section ctx
          else if c =? 91 then
            let '(section, p) := ini_sect p' 256 in
            ini_loop fuel' p section ctx
          else
            let '(_, kv, eol) := ini_split (c :: p') in
            let* ctx := (match kv with
                         | Some (k, v) => if (0 <? length k)%nat then ini_pair k v section ctx else ret ctx
                         | None => ret ctx
                         end) in
            ini_loop fuel' (drop 1 eol) section ctx
      end
  end.

Definition parse_ini_simple (data : option (list Z)) (ctx : config_context) : M (Z * config_context) :=
  match data with
  | None | Some [] => ret (CONFIG_ERROR_INVALID_ARG, ctx)
  | Some data =>
      let* ctx := ini_loop (S (length data)) data [] ctx in ret (CONFIG_SUCCESS, ctx)
  end.

Definition config_parse_ini (data : option (list Z)) (ctx : config_context) : M (Z * config_context) :=
  parse_ini_simple data ctx.

(** ** Documents *)

Inductive ini_line :=
  | LBlank (w : list Z)
  | LComment (w : list Z) (mark : Z) (text : list Z)
  | LSection (w : list Z) (name : cstr) (junk : list Z)
  | LPair (w : list Z) (k : cstr) (w2 : list Z) (v : cstr) (w3 : list Z).

Definition line_text (l : ini_line) : list Z :=
  match l with
  | LBlank w => w
  | LComment w mark text => w ++ mark :: text
  | LSection w name junk => w ++ 91 :: name ++ 93 :: junk
  | LPair w k w2 v w3 => w ++ k ++ w2 ++ 61 :: v ++ w3
  end.

(** Lines end with a newline, or the last one with the text. *)
Definition doc_text (ls : list ini_line) : list Z := concat (map (fun l => line_text l ++ [10]) ls).

Definition blanks (w : list Z) : Prop := Forall (fun c => is_blank c = true) w.
Definition no_eol (s : list Z) : Prop := Forall (fun c => c <> 10) s.
Definition trail (w : list Z) : Prop := Forall (fun c => c = 13 \/ c = 32) w.

Definition line_wf (l : ini_line) : Prop :=
  match l with
  | LBlank w => blanks w
  | LComment w mark text => blanks w /\ (mark = 35 \/ mark = 59) /\ no_eol text
  | LSection w name junk =>
      blanks w /\ Forall (fun c => c <> 0 /\ c <> 93) name /\ (length name < 256)%nat /\ no_eol junk
  | LPair w k w2 v w3 =>
      blanks w /\ blanks w2 /\ trail w3 /\
      Forall (fun c => c <> 0 /\ c <> 10 /\ c <> 61) k /\ (length k < 256)%nat /\
      Forall (fun c => c <> 0 /\ c <> 10) v /\ (length v < 1024)%nat /\
      (exists c k', k = c :: k' /\ is_blank c = false /\ c <> 35 /\ c <> 59 /\ c <> 91) /\
      (exists c k', k = k' ++ [c] /\ is_blank c = false) /\
      (v = [] \/ exists c v', v = v' ++ [c] /\ c <> 13 /\ c <> 32)
  end.

(** The assignments of a document, and the section it ends in. *)
Fixpoint doc_assigns (sect : cstr) (ls : list ini_line) : list (cstr * config_value) :=
  match ls with
  | [] => []
  | LBlank _ :: ls' | LComment _ _ _ :: ls' => doc_assigns sect ls'
  | LSection _ name _ :: ls' => doc_assigns name ls'
  | LPair _ k _ v _ :: ls' =>
      ((match sect with [] => k | _ => sect ++ [46] ++ k end, str_value v)) :: doc_assigns sect ls'
  end.

(** ** The reader on a document *)

Lemma split_at_app f a c b :
  Forall (fun x => f x = false) a -> f c = true -> split_at f (a ++ c :: b) = (a, c :: b).
Proof.
  intros Ha Hc. induction Ha as [|x a Hx Ha IH]; simpl; [by rewrite Hc|]. by rewrite Hx, IH.
Qed.

Lemma ini_eol_app a rest : no_eol a -> ini_eol (a ++ 10 :: rest) = rest.
Proof. induction 1 as [|x a Hx Ha IH]; simpl; [done|]. apply Z.eqb_neq in Hx. by rewrite Hx. Qed.

Lemma ini_blank_app w c p : blanks w -> is_blank c = false -> ini_blank (w ++ c :: p) = c :: p.
Proof. intros Hw Hc. induction Hw as [|x w Hx Hw IH]; simpl; [by rewrite Hc|by rewrite Hx]. Qed.

Lemma rtrim_all f w : Forall (fun c => f c = true) w -> rtrim f w = [].
Proof. induction 1 as [|c w Hc Hw IH]; simpl; [done|]. by rewrite IH, Hc. Qed.

Lemma rtrim_app f s c w : f c = false -> Forall (fun c => f c = true) w -> rtrim f ((s ++ [c]) ++ w) = s ++ [c].
Proof.
  intros Hc Hw. induction s as [|x s IH]; simpl.
  - by rewrite rtrim_all, Hc.
  - rewrite IH. by destruct s.
Qed.

Lemma c_string_id s : Forall (fun c => c <> 0) s -> c_string s = s.
Proof. induction 1 as [|c s Hc Hs IH]; simpl; [done|]. apply Z.eqb_neq in Hc. by rewrite Hc, IH. Qed.

Section ini.
Context {hf : gmap nat config_value}.
Implicit Types (T : list slot) (m : mem) (ctx : config_context).

Abbreviation owns := (st False hf).
Abbreviation blocks T := (block_of <$> T).
Abbreviation bindings T := (binding_of <$> T).

Lemma wp_ini_pair k v sect T m ctx (Q : config_context -> mem -> Prop) key val :
  owns (blocks T) m -> rep ctx T -> Z.of_nat (length T) < 2 ^ 31 ->
  c_string (match c_string sect with
            | _ :: _ => if (length (c_string sect) + 1 + length (rtrim is_blank k) <? 512)%nat
                        then c_string sect ++ [46] ++ rtrim is_blank k else c_string sect ++ [46]
            | [] => take 511 (rtrim is_blank k)
            end) = key ->
  c_string (take 1023 (rtrim (fun c => (c =? 13) || (c =? 10) || (c =? 32)) v)) = val ->
  (forall ctx' T' m', owns (blocks T') m' -> rep ctx' T' -> (length T' <= S (length T))%nat ->
     bindings T' = aset key (str_value val) (bindings T) -> Q ctx' m') ->
  wp (ini_pair k v sect ctx) Q m.
Proof.
  intros Hst Hr Hlen Hk Hv HQ. unfold ini_pair. rewrite Hk, Hv.
  apply wp_bind, (wp_value_create_string (R:=False) (hf:=hf) (blocks T)); [done| |by intros []].
  intros p m1 Hst1. apply wp_bind, (wp_context_set (R:=False) (hf:=hf) T _ _ _ _ (str_value val));
    [done..| |by intros []].
  intros ctx' T' m2 Hst2 Hr2 Hb. apply wp_ret, (HQ _ T'); [done..| |done].
  rewrite <- (length_fmap binding_of), Hb. etrans; [apply aset_length|]. by rewrite length_fmap.
Qed.

Definition assigned (kvs : list (cstr * config_value)) (T : list slot) (ctx' : config_context) (m' : mem) : Prop :=
  exists T', owns (blocks T') m' /\ rep ctx' T' /\ bindings T' = assigns kvs (bindings T).

(** One line of each kind. *)
Lemma loop_blank fuel w rest sect ctx :
  blanks w -> ini_loop (S fuel) (w ++ 10 :: rest) sect ctx = ini_loop fuel rest sect ctx.
Proof. intros Hw. cbn [ini_loop]. by rewrite ini_blank_app. Qed.

Lemma loop_comment fuel w mark text rest sect ctx :
  blanks w -> (mark = 35 \/ mark = 59) -> no_eol text ->
  ini_loop (S fuel) (w ++ mark :: text ++ 10 :: rest) sect ctx = ini_loop fuel rest sect ctx.
Proof.
  intros Hw Hm Ht. cbn [ini_loop]. rewrite ini_blank_app by (done || by destruct Hm as [-> | ->]).
  replace ((mark =? 35) || (mark =? 59)) with true by (by destruct Hm as [-> | ->]).
  f_equal. apply (ini_eol_app (mark :: text)). constructor; [by destruct Hm as [-> | ->]|done].
Qed.

Lemma loop_section fuel w name junk rest sect ctx :
  blanks w -> Forall (fun c => c <> 0 /\ c <> 93) name -> (length name < 256)%nat -> no_eol junk ->
  ini_loop (S fuel) (w ++ 91 :: name ++ 93 :: junk ++ 10 :: rest) sect ctx = ini_loop fuel rest name ctx.
Proof.
  intros Hw Hn Hl Hj. cbn [ini_loop]. rewrite ini_blank_app by done. unfold ini_sect. simpl.
  rewrite split_at_app by (done || (eapply Forall_impl; [exact Hn|]; intros c [_ ?]; by apply Z.eqb_neq)).
  rewrite take_ge by lia. f_equal. by apply (ini_eol_app (93 :: junk)); constructor.
Qed.

Lemma loop_pair fuel w k w2 v w3 rest sect T m ctx (Q : config_context -> mem -> Prop) :
  line_wf (LPair w k w2 v w3) -> Forall (fun c => c <> 0) sect -> (length sect < 256)%nat ->
  owns (blocks T) m -> rep ctx T -> Z.of_nat (length T) < 2 ^ 31 ->
  (forall ctx' T' m', owns (blocks T') m' -> rep ctx' T' -> (length T' <= S (length T))%nat ->
     bindings T' = aset (match sect with [] => k | _ => sect ++ [46] ++ k end) (str_value v) (bindings T) ->
     wp (ini_loop fuel rest sect ctx') Q m') ->
  wp (ini_loop (S fuel) (w ++ k ++ w2 ++ 61 :: v ++ w3 ++ 10 :: rest) sect ctx) Q m.
Proof.
  intros (Hw & Hw2 & Hw3 & Hk & Hkl & Hv & Hvl & Hk1 & Hk2 & Hv2) Hs Hsl Hst Hr Hlen HQ.
  destruct Hk1 as (c & k' & Ek & Hc & H35 & H59 & H91). cbn [ini_loop]. rewrite Ek. simpl app.
  rewrite ini_blank_app by done. apply Z.eqb_neq in H35, H59, H91. rewrite H35, H59, H91. simpl orb. cbv iota.
  unfold ini_split.
  replace (c :: k' ++ w2 ++ 61 :: v ++ w3 ++ 10 :: rest) with ((k ++ w2 ++ 61 :: v ++ w3) ++ 10 :: rest)
    by (rewrite Ek; simpl; by rewrite <- !app_assoc; simpl; rewrite <- !app_assoc).
  assert (Hbl : Forall (fun c => (c =? 10) = false) w2 /\ Forall (fun c => (c =? 61) = false) w2).
  { split; (eapply Forall_impl; [exact Hw2|]); intros x Hx; unfold is_blank in Hx;
      rewrite orb_true_iff, !Z.eqb_eq in Hx; by destruct Hx as [-> | ->]. }
  rewrite (split_at_app (fun c => c =? 10)).
  2:{ apply Forall_app. split; [|apply Forall_app; split; [apply Hbl|constructor; [done|apply Forall_app; split]]].
      - eapply Forall_impl; [exact Hk|]. intros x (_ & ? & _). by apply Z.eqb_neq.
      - eapply Forall_impl; [exact Hv|]. intros x (_ & ?). by apply Z.eqb_neq.
      - eapply Forall_impl; [exact Hw3|]. by intros x [-> | ->]. }
  2: done.
  rewrite app_assoc, (split_at_app (fun c => c =? 61)).
  2:{ apply Forall_app. split; [|apply Hbl]. eapply Forall_impl; [exact Hk|]. intros x (_ & _ & ?). by apply Z.eqb_neq. }
  2: done.
  apply wp_bind. replace (0 <? length (k ++ w2))%nat with true by (rewrite Ek; done).
  destruct Hk2 as (ck & k2 & Ek2 & Hck).
  apply (wp_ini_pair _ _ _ T _ _ _ (match sect with [] => k | _ => sect ++ [46] ++ k end) v); [done..| | |].
  - rewrite (c_string_id sect) by done. rewrite Ek2, rtrim_app, <- Ek2 by done.
    assert (Hk0 : Forall (fun c => c <> 0) k) by (eapply Forall_impl; [exact Hk|]; by intros x [? _]).
    destruct sect as [|s0 sect]; [by rewrite take_ge, c_string_id by (done || lia)|].
    destruct (Nat.ltb_spec (length (s0 :: sect) + 1 + length k) 512); [|lia].
    apply c_string_id. apply Forall_app. split; [done|]. constructor; done.
  - assert (Hw3' : Forall (fun c => (c =? 13) || (c =? 10) || (c =? 32) = true) w3)
      by (eapply Forall_impl; [exact Hw3|]; by intros x [-> | ->]).
    assert (Hrt : rtrim (fun c => (c =? 13) || (c =? 10) || (c =? 32)) (v ++ w3) = v).
    { destruct Hv2 as [-> | (cv & v2 & -> & H13 & H32)]; [by apply rtrim_all|]. apply rtrim_app; [|done].
      apply Forall_app in Hv as [_ [[_ H10] _]%Forall_cons].
      rewrite !orb_false_iff, !Z.eqb_neq. done. }
    rewrite Hrt, take_ge by lia. apply c_string_id. eapply Forall_impl; [exact Hv|]. by intros x [? _].
  - intros ctx' T' m' Hst' Hr' Hl' Hb. by apply (HQ _ T').
Qed.

Lemma loop_doc ls : Forall line_wf ls -> forall fuel sect T m ctx,
  (length (doc_text ls) < fuel)%nat -> Forall (fun c => c <> 0) sect -> (length sect < 256)%nat ->
  owns (blocks T) m -> rep ctx T -> Z.of_nat (length T + length ls) < 2 ^ 31 ->
  wp (ini_loop fuel (doc_text ls) sect ctx) (assigned (doc_assigns sect ls) T) m.
Proof.
  induction 1 as [|l ls Hl Hls IH]; intros fuel sect T m ctx Hf Hs Hsl Hst Hr Hlen;
    (destruct fuel as [|fuel]; [lia|]).
  { apply wp_ret. by exists T. }
  unfold doc_text in *. simpl map in *. simpl concat in *. fold (doc_text ls) in *.
  rewrite <- app_assoc in Hf |- *. rewrite length_app in Hf. simpl in Hf, Hlen.
  destruct l as [w|w mark text|w name junk|w k w2 v w3]; simpl line_text; simpl doc_assigns.
  - simpl app. rewrite loop_blank by done. apply IH; [lia|done..|lia].
  - destruct Hl as (Hw & Hm & Ht). rewrite <- app_assoc. simpl app. rewrite loop_comment by done.
    apply IH; [lia|done..|lia].
  - destruct Hl as (Hw & Hn & Hnl & Hj). rewrite <- app_assoc. simpl app. rewrite <- app_assoc. simpl app.
    rewrite loop_section by done. apply IH; [lia| |done..|lia].
    eapply Forall_impl; [exact Hn|]. by intros x [? _].
  - replace ((w ++ k ++ w2 ++ 61 :: v ++ w3) ++ [10] ++ doc_text ls)
      with (w ++ k ++ w2 ++ 61 :: v ++ w3 ++ 10 :: doc_text ls)
      by (rewrite <- !app_assoc; simpl; by rewrite <- !app_assoc).
    apply (loop_pair _ _ _ _ _ _ _ _ T); [done..|lia|]. intros ctx' T' m' Hst' Hr' Hl' Hb.
    eapply wp_mono; [apply (IH fuel sect T'); [lia|done..|lia]|].
    intros ctx'' m'' (T'' & ? & ? & Hb'). exists T''. split_and!; [done..|]. by rewrite Hb', Hb.
Qed.

End ini.

(** The INI reader binds, in order, the pairs of every well-formed document
    (blank lines, comments, section headers and pairs with any blanks): the key
    prefixed with the current section and a dot, and the value without the
    white space at its end. *)
Theorem ini_reads hf ctx l m ls :
  ctx_at hf ctx l m -> Forall line_wf ls -> ls <> [] -> Z.of_nat (length l + length ls) < 2 ^ 31 ->
  exists ctx' m',
    config_parse_ini (Some (doc_text ls)) ctx m = Some ((CONFIG_SUCCESS, ctx'), m') /\
    ctx_at hf ctx' (assigns (doc_assigns [] ls) l) m'.
Proof.
  intros (T & Hr & Hst & <-) Hls Hne Hlen. rewrite length_fmap in Hlen.
  destruct (loop_doc (hf:=hf) ls Hls (S (length (doc_text ls))) [] T m ctx)
    as (ctx' & m' & Hrun & T' & Hst' & Hr' & Hb); [lia|constructor|simpl; lia|done..|].
  exists ctx', m'. split; [|by exists T'].
  unfold config_parse_ini, parse_ini_simple.
  destruct (doc_text ls) as [|c d] eqn:Ed.
  - destruct ls as [|l0 ls]; [done|]. unfold doc_text in Ed. simpl in Ed. by destruct (line_text l0).
  - unfold bind. by rewrite Hrun.
Qed.

Lemma ini_reads_witness :
  let ls := [LComment [] 59 (cs " head"); LSection [32] (cs "net") []; LPair [9] (cs "port") [32] (cs " 80") [13];
             LBlank []; LPair [] (cs "host name") [] (cs "a=b") []] in
  exists ctx' m',
    config_parse_ini (Some (doc_text ls)) new_context (Mem ∅ []) = Some ((CONFIG_SUCCESS, ctx'), m') /\
    ctx_at ∅ ctx' (assigns [(cs "net.port", str_value (cs " 80")); (cs "net.host name", str_value (cs "a=b"))] []) m'.
Proof.
  refine (ini_reads ∅ new_context [] (Mem ∅ [])
            [LComment [] 59 (cs " head"); LSection [32] (cs "net") []; LPair [9] (cs "port") [32] (cs " 80") [13];
             LBlank []; LPair [] (cs "host name") [] (cs "a=b") []] new_context_at _ _ _); [|done|done].
  repeat apply Forall_cons_2; [..|apply Forall_nil_2]; unfold line_wf, no_eol, blanks, trail;
    repeat match goal with |- _ /\ _ => split end;
    try (by repeat constructor); try (by left); try (simpl; lia).
  - exists 112, (cs "ort"). done.
  - exists 116, (cs "por"). done.
  - right. exists 48, (cs " 8"). done.
  - exists 104, (cs "ost name"). done.
  - exists 101, (cs "host nam"). done.
  - right. exists 98, (cs "a="). done.
Defined.

(** ** Any text *)

Lemma ini_eol_length p : (length (ini_eol p) <= pred (length p))%nat.
Proof. induction p as [|c p IH]; simpl; [lia|]. case_match; lia. Qed.

Lemma ini_blank_length p : (length (ini_blank p) <= length p)%nat.
Proof. induction p as [|c p IH]; simpl; [lia|]. case_match; simpl; lia. Qed.

Lemma split_at_length f p a b : split_at f p = (a, b) -> length p = (length a + length b)%nat.
Proof.
  revert a b. induction p as [|c p IH]; simpl; intros a b; [by intros [= <- <-]|].
  case_match; [by intros [= <- <-]|]. destruct (split_at f p) as [a' b']. intros [= <- <-]. simpl.
  by rewrite (IH a' b').
Qed.

Lemma loop_total hf fuel p sect T m ctx :
  (length p < fuel)%nat -> st False hf (block_of <$> T) m -> rep ctx T ->
  Z.of_nat (length T + length p) < 2 ^ 31 ->
  wp (ini_loop fuel p sect ctx) (fun ctx' m' => exists kvs, assigned (hf:=hf) kvs T ctx' m' /\ (length kvs <= length p)%nat) m.
Proof.
  revert p sect T m ctx. induction fuel as [|fuel IH]; intros p sect T m ctx Hf Hst Hr Hlen; [lia|].
  cbn [ini_loop]. pose proof (ini_blank_length p) as Hb.
  destruct (ini_blank p) as [|c p']; [apply wp_ret; exists []; split; [by exists T|simpl; lia]|]. simpl in Hb.
  case_match; [|case_match].
  - pose proof (ini_eol_length (c :: p')) as He. simpl in He.
    eapply wp_mono; [apply IH; [cbn; lia|done..|cbn; lia]|]. intros ctx' m' (kvs & Ha & Hl). exists kvs. cbn in Hl. split; [done|lia].
  - unfold ini_sect. destruct (split_at _ p') as [nm close] eqn:Hs. apply split_at_length in Hs.
    pose proof (ini_eol_length close). eapply wp_mono; [apply IH; [lia|done..|lia]|].
    intros ctx' m' (kvs & Ha & Hl). exists kvs. split; [done|lia].
  - unfold ini_split. destruct (split_at (fun c => c =? 10) (c :: p')) as [line eol] eqn:Hs.
    destruct (split_at (fun c => c =? 61) line) as [k v] eqn:Hs2.
    assert (Hd : (length (drop 1 eol) <= length p')%nat).
    { apply split_at_length in Hs. rewrite length_drop. simpl in Hs. lia. }
    assert (Hgo : forall ctx1 T1 m1, st False hf (block_of <$> T1) m1 -> rep ctx1 T1 ->
      (length T1 <= S (length T))%nat -> (exists kvs, binding_of <$> T1 = assigns kvs (binding_of <$> T) /\ (length kvs <= 1)%nat) ->
      wp (ini_loop fuel (drop 1 eol) sect ctx1)
        (fun ctx' m' => exists kvs, assigned (hf:=hf) kvs T ctx' m' /\ (length kvs <= length p)%nat) m1).
    { intros ctx1 T1 m1 Hst1 Hr1 Hl1 (kvs & Hk & Hl). eapply wp_mono; [apply (IH _ _ T1); [lia|done..|lia]|].
      intros ctx' m' (kvs' & (T' & ? & ? & Hb') & Hl'). exists (kvs ++ kvs'). split; [|rewrite length_app; lia].
      exists T'. split_and!; [done..|]. by rewrite Hb', Hk, assigns_app. }
    assert (Hno : wp (ini_loop fuel (drop 1 eol) sect ctx)
      (fun ctx' m' => exists kvs, assigned (hf:=hf) kvs T ctx' m' /\ (length kvs <= length p)%nat) m)
      by (apply (Hgo _ T); try done; [lia|exists []; split; [done|simpl; lia]]).
    apply wp_bind. destruct v as [|? v]; [by apply wp_ret|]. case_match; [|by apply wp_ret].
    eapply (wp_ini_pair (hf:=hf) _ _ _ T); [done..|lia|done|done|].
    intros ctx' T' m' Hst' Hr' Hl' Hb'. apply (Hgo _ T'); [done..|]. eexists [(_, _)]. split; [exact Hb'|simpl; lia].
Qed.

(** Whatever the bytes of the text, the reader returns success and what it did
    to the context is a sequence of assignments. *)
Lemma ini_total hf ctx l m data :
  ctx_at hf ctx l m -> data <> [] -> Z.of_nat (length l + length data) < 2 ^ 31 ->
  exists ctx' m' kvs,
    config_parse_ini (Some data) ctx m = Some ((CONFIG_SUCCESS, ctx'), m') /\ ctx_at hf ctx' (assigns kvs l) m' /\
    (length kvs <= length data)%nat.
Proof.
  intros (T & Hr & Hst & <-) Hne Hlen. rewrite length_fmap in Hlen.
  destruct (loop_total hf (S (length data)) data [] T m ctx) as (ctx' & m' & Hrun & kvs & (T' & ? & ? & Hb) & Hl);
    [lia|done..|].
  exists ctx', m', kvs. split; [|split; [by exists T'|done]]. unfold config_parse_ini, parse_ini_simple.
  destruct data; [done|]. unfold bind. by rewrite Hrun.
Qed.

(** ** Examples of what is lost *)

Definition ini_bindings (text : cstr) : option (list (cstr * config_value)) :=
  match config_parse_ini (Some text) new_context (Mem ∅ []) with
  | Some ((err, ctx), m) => Some (omap (fun it => v ← vals m !! snd it; Some (fst it, v)) (items ctx))
  | None => None
  end.

(** In a section, keys that do not fit are all stored under the section's name
    and a dot. *)
Example ini_long_keys_collide :
  ini_bindings (cs "[s]" ++ [10] ++ repeat 97 600 ++ cs "=1" ++ [10] ++ repeat 98 600 ++ cs "=2") =
  Some [(cs "s.", str_value (cs "2"))].
Proof. vm_compute. reflexivity. Qed.

(** A header that is not closed on its line swallows the lines up to the next
    closing bracket. *)
Example ini_unclosed_header :
  ini_bindings (cs "[a" ++ [10] ++ cs "k=1" ++ [10] ++ cs "[b]" ++ [10] ++ cs "x=2") =
  Some [(cs "a" ++ [10] ++ cs "k=1" ++ [10] ++ cs "[b.x", str_value (cs "2"))].
Proof. vm_compute. reflexivity. Qed.
