(* ===== verification/Yaml.v ===== *)
(** * The YAML reader: utils/config_unified/yaml_minimal_*.c

    The lexer, the node arena with its anchors, the block and flow parsers, the
    document entry points, node access and serialisation.

    The source is a zipper: the bytes before the cursor, the nearest first, and
    the bytes from the cursor on; [pos] is the number of the former.  A node is
    a place in the document's [all_nodes]; a mapping is its array at its full
    capacity, so that a walk that does not meet a free slot runs past the array,
    which is undefined.  Computations may be undefined, may run out of fuel
    (the parsers call one another and loop), and meet refused requests for
    memory, by an arbitrary schedule. *)
From S2P Require Import Prelude CLib.

Inductive yaml_content :=
  | YNone
  | YScalar (value : option cstr) (length : Z)
  | YMapping (entries : option (list (option cstr * option nat)))
  | YSequence (items : option (list (option nat))).

Record yaml_node := Node {
  content : yaml_content;
  anchor_name : option cstr;
  tag : option cstr;
}.

(** [struct parse_ctx] with the parts of the document it writes.  [line_pos]
    and the other fields are never read. *)
Record yctx := YCtx {
  bef : list Z;
  aft : list Z;
  line : Z;
  error_msg : option cstr;
  all_nodes : list yaml_node;
  node_capacity : Z;
  anchors : list (option cstr * nat);
  anchor_capacity : Z;
  granted : list bool;
}.

Definition set_cursor (b a : list Z) (l : Z) (s : yctx) : yctx :=
  YCtx b a l (error_msg s) (all_nodes s) (node_capacity s) (anchors s) (anchor_capacity s) (granted s).
Definition set_error_msg (e : option cstr) (s : yctx) : yctx :=
  YCtx (bef s) (aft s) (line s) e (all_nodes s) (node_capacity s) (anchors s) (anchor_capacity s) (granted s).
Definition set_nodes (n : list yaml_node) (cap : Z) (s : yctx) : yctx :=
  YCtx (bef s) (aft s) (line s) (error_msg s) n cap (anchors s) (anchor_capacity s) (granted s).
Definition set_anchors (a : list (option cstr * nat)) (cap : Z) (s : yctx) : yctx :=
  YCtx (bef s) (aft s) (line s) (error_msg s) (all_nodes s) (node_capacity s) a cap (granted s).
Definition set_granted (g : list bool) (s : yctx) : yctx :=
  YCtx (bef s) (aft s) (line s) (error_msg s) (all_nodes s) (node_capacity s) (anchors s)
    (anchor_capacity s) g.

Definition Y (A : Type) : Type := yctx -> res (A * yctx).
Definition yret {A} (x : A) : Y A := fun s => Done (x, s).
Definition ybind {A B} (f : Y A) (g : A -> Y B) : Y B :=
  fun s => match f s with Done (x, s') => g x s' | NoFuel => NoFuel | Undefined => Undefined end.
Definition yundef {A} : Y A := fun _ => Undefined.
Definition yget {A} (f : yctx -> A) : Y A := fun s => Done (f s, s).
Definition yput (f : yctx -> yctx) : Y unit := fun s => Done (tt, f s).

Declare Scope yaml_scope.
Notation "'let!' x := f 'in' g" := (ybind f (fun x => g))
  (at level 100, x pattern, f at level 100, g at level 200, right associativity) : yaml_scope.
Notation "f ;! g" := (ybind f (fun _ => g)) (at level 100, right associativity) : yaml_scope.
Open Scope yaml_scope.

(** Whether the next request for memory is granted. *)
Definition ygrant : Y bool :=
  fun s => match granted s with [] => Done (true, s) | b :: r => Done (b, set_granted r s) end.

Definition ystrdup (str : cstr) : Y (option cstr) :=
  let! ok := ygrant in yret (if (ok : bool) then Some str else None).

(** ** Lexing: yaml_minimal_lexer.c *)

Definition peek (s : yctx) : Z := match aft s with c :: _ => c | [] => 0 end.
Definition at_end (s : yctx) : bool := match aft s with [] => true | _ => false end.

Definition step_line (c line : Z) : Z := if c =? 10 then line + 1 else line.

Definition advance (s : yctx) : yctx :=
  match aft s with
  | c :: a => set_cursor (c :: bef s) a (step_line c (line s)) s
  | [] => s
  end.

(** [while (!at_end(ctx) && f(peek(ctx))) advance(ctx);] *)
Fixpoint advance_while_from (f : Z -> bool) (b a : list Z) (l : Z) : list Z * list Z * Z :=
  match a with
  | c :: a' => if f c then advance_while_from f (c :: b) a' (step_line c l) else (b, a, l)
  | [] => (b, a, l)
  end.

Definition advance_while (f : Z -> bool) (s : yctx) : yctx :=
  let '(b, a, l) := advance_while_from f (bef s) (aft s) (line s) in set_cursor b a l s.

Definition is_ws (c : Z) : bool := (c =? 32) || (c =? 9).
Definition is_nl (c : Z) : bool := (c =? 10) || (c =? 13).

Definition skip_ws (s : yctx) : yctx := advance_while is_ws s.
Definition skip_ws_and_nl (s : yctx) : yctx := advance_while (fun c => is_ws c || is_nl c) s.

(** Each round but the last consumes a comment. *)
Fixpoint skip_comments_loop (fuel : nat) (s : yctx) : yctx :=
  let s := skip_ws_and_nl s in
  match fuel with
  | O => s
  | S fuel' =>
      if at_end s || negb (peek s =? 35) then s
      else skip_comments_loop fuel' (advance_while (fun c => negb (is_nl c)) s)
  end.

Definition skip_ws_nl_comments (s : yctx) : yctx := skip_comments_loop (length (aft s)) s.

(** "line %d: " and the message, cut to 511 bytes. *)
Definition set_error (msg : cstr) : Y unit :=
  let! l := yget line in
  let! m := ystrdup (take 511 (cs "line " ++ fmt_d l ++ cs ": " ++ msg)) in
  yput (set_error_msg m).

(** The whole of a line before the cursor, the first byte first. *)
Fixpoint line_prefix (b acc : list Z) : list Z :=
  match b with c :: b' => if is_nl c then acc else line_prefix b' (c :: acc) | [] => acc end.

Fixpoint leading_spaces (l : list Z) : Z :=
  match l with c :: l' => if c =? 32 then 1 + leading_spaces l' else 0 | [] => 0 end.

Definition line_indent (s : yctx) : Z := leading_spaces (line_prefix (bef s) []).

(** A tab counts as two columns and is reported. *)
Fixpoint count_indent_loop (a : list Z) (indent : Z) : Y Z :=
  match a with
  | c :: a' =>
      if c =? 32 then yput advance ;! count_indent_loop a' (indent + 1)
      else if c =? 9 then
        set_error (cs "YAML forbids tabs for indentation") ;!
        yput advance ;! count_indent_loop a' (indent + 2)
      else yret indent
  | [] => yret indent
  end.

Definition count_indent : Y Z := let! a := yget aft in count_indent_loop a 0.

Definition is_plain_scalar_char (c : Z) : bool :=
  negb (existsb (fun d => c =? d) [123; 125; 91; 93; 44; 38; 42; 35; 124; 62; 34; 39; 37; 64; 96; 10; 13])
  && negb (isspace c).

(** [Some cap']: there is room for one more byte and the terminator. *)
Definition buf_reserve (cap len : nat) : Y (option nat) :=
  if (len + 2 <? cap)%nat then yret (Some cap)
  else let! ok := ygrant in yret (if (ok : bool) then Some (cap * 2)%nat else None).

(** The bytes of a buffer before its first NUL. *)
Fixpoint c_str (buf : list Z) : cstr :=
  match buf with c :: buf' => if c =? 0 then [] else c :: c_str buf' | [] => [] end.

Definition name_stop (c : Z) : bool := is_ws c || is_nl c || (c =? 58).

(** [buf] is in order; its length is [len]. *)
Fixpoint name_loop (a : list Z) (cap : nat) (buf : list Z) : Y (option cstr) :=
  match a with
  | c :: a' =>
      if name_stop c then yret (Some (c_str buf))
      else
        yput advance ;!
        let! r := buf_reserve cap (length buf) in
        match r with
        | None => yret None
        | Some cap => name_loop a' cap (buf ++ [c])
        end
  | [] => yret (Some (c_str buf))
  end.

Definition name_scan : Y (option cstr) :=
  let! ok := ygrant in
  if negb ok then yret None else
  let! a := yget aft in name_loop a 64 [].

Definition parse_tag : Y (option cstr) :=
  let! c := yget peek in
  if negb (c =? 33) then yret None else
  yput advance ;!
  let! c := yget peek in
  (if c =? 33 then yput advance else yret tt) ;!
  name_scan.

Definition parse_anchor_name : Y (option cstr) := name_scan.

Definition last_is (c : Z) (buf : list Z) : bool :=
  match last buf with Some d => d =? c | None => false end.

Definition unescape (next : Z) : Z :=
  if next =? 110 then 10
  else if next =? 116 then 9
  else if next =? 114 then 13
  else if next =? 92 then 92
  else if next =? 39 then 39
  else if next =? 34 then 34
  else 92.

(** The loop of [parse_quoted_string]; the byte after a backslash is consumed
    with it. *)
Fixpoint quoted_loop (a : list Z) (quote : Z) (cap : nat) (buf : list Z) : Y (option cstr) :=
  match a with
  | [] => yret (Some (c_str buf))
  | c :: a' =>
      yput advance ;!
      if (c =? quote) && negb (last_is 92 buf) then yret (Some (c_str buf))
      else if c =? 92 then
        match a' with
        | next :: a'' =>
            yput advance ;!
            let! r := buf_reserve cap (length buf) in
            match r with
            | None => yret None
            | Some cap => quoted_loop a'' quote cap (buf ++ [unescape next])
            end
        | [] =>
            let! r := buf_reserve cap (length buf) in
            match r with
            | None => yret None
            | Some cap => yret (Some (c_str (buf ++ [c])))
            end
        end
      else
        let! r := buf_reserve cap (length buf) in
        match r with
        | None => yret None
        | Some cap => quoted_loop a' quote cap (buf ++ [c])
        end
  end.

Definition parse_quoted_string (quote : Z) : Y (option cstr) :=
  yput advance ;!
  let! ok := ygrant in
  if negb ok then yret None else
  let! a := yget aft in quoted_loop a quote 128 [].

(** A colon ends a scalar when a blank, a line end or the end follows. *)
Definition is_separator (a' : list Z) : bool :=
  match a' with [] => true | d :: _ => is_ws d || is_nl d end.

Fixpoint plain_loop (a : list Z) (cap : nat) (buf : list Z) : Y (option (list Z)) :=
  match a with
  | [] => yret (Some buf)
  | c :: a' =>
      if (c =? 58) && is_separator a' then yret (Some buf)
      else if (c =? 35) && last_is 32 buf then yret (Some buf)
      else if is_nl c then yret (Some buf)
      else if negb (is_plain_scalar_char c) then yret (Some buf)
      else
        yput advance ;!
        let! r := buf_reserve cap (length buf) in
        match r with
        | None => yret None
        | Some cap => plain_loop a' cap (buf ++ [c])
        end
  end.

(** Without the blanks at its end. *)
Fixpoint trim_end (f : Z -> bool) (l : list Z) : list Z :=
  match l with
  | [] => []
  | c :: l' => match trim_end f l' with [] => if f c then [] else [c] | t => c :: t end
  end.

Definition parse_plain_scalar : Y (option cstr) :=
  let! ok := ygrant in
  if negb ok then yret None else
  let! a := yget aft in
  let! r := plain_loop a 256 [] in
  match r with
  | None => yret None
  | Some buf =>
      match trim_end is_ws buf with
      | [] => ystrdup []
      | t => yret (Some (c_str t))
      end
  end.

(** ** Nodes and anchors: yaml_minimal_anchor.c, yaml_minimal_node.c *)

Definition INITIAL_NODE_CAPACITY : Z := 64.
Definition INITIAL_ANCHORS : Z := 64.

(** A new node, zero-filled apart from its type. *)
Definition alloc_node (c : yaml_content) : Y (option nat) :=
  let! n := yget all_nodes in
  let! cap := yget node_capacity in
  let! room := (if cap <=? Z.of_nat (length n) then
                  let new_cap := if cap * 2 =? 0 then INITIAL_NODE_CAPACITY else cap * 2 in
                  let! ok := ygrant in yret (if (ok : bool) then Some new_cap else None)
                else yret (Some cap)) in
  match room with
  | None => yret None
  | Some cap =>
      yput (set_nodes n cap) ;!
      let! ok := ygrant in
      if negb ok then yret None else
      yput (set_nodes (n ++ [Node c None None]) cap) ;! yret (Some (length n))
  end.

(** The three types as [alloc_node] makes them. *)
Definition new_scalar : yaml_content := YScalar None 0.
Definition new_mapping : yaml_content := YMapping None.
Definition new_sequence : yaml_content := YSequence None.

Definition node_at (p : nat) : Y yaml_node :=
  fun s => match all_nodes s !! p with Some n => Done (n, s) | None => Undefined end.

Definition upd_node (p : nat) (f : yaml_node -> yaml_node) : Y unit :=
  fun s => match all_nodes s !! p with
           | Some n => Done (tt, set_nodes (<[p := f n]> (all_nodes s)) (node_capacity s) s)
           | None => Undefined
           end.

Definition set_content (c : yaml_content) (n : yaml_node) : yaml_node := Node c (anchor_name n) (tag n).
Definition set_anchor_name (a : option cstr) (n : yaml_node) : yaml_node := Node (content n) a (tag n).
Definition set_tag (t : option cstr) (n : yaml_node) : yaml_node := Node (content n) (anchor_name n) t.

(** The walk of [yaml_size] over a mapping: it ends at the first free slot, and
    is undefined when it runs past the array. *)
Fixpoint mapping_size (m : list (option cstr * option nat)) : option nat :=
  match m with
  | [] => None
  | (None, _) :: _ => Some 0%nat
  | (Some _, _) :: m' => n ← mapping_size m'; Some (S n)
  end.

Definition content_size (c : yaml_content) : option nat :=
  match c with
  | YMapping (Some m) => mapping_size m
  | YMapping None => None
  | YSequence (Some l) => Some (length l)
  | YSequence None => Some 0%nat
  | _ => Some 0%nat
  end.

Definition yaml_size (node : option nat) : Y nat :=
  match node with
  | None => yret 0%nat
  | Some p =>
      let! n := node_at p in
      match content_size (content n) with Some k => yret k | None => yundef end
  end.

(** The first [k] slots of a mapping and the search for a key among them. *)
Fixpoint find_key (m : list (option cstr * option nat)) (key : cstr) : option (option nat) :=
  match m with
  | [] => None
  | (Some k, v) :: m' => if decide (k = key) then Some v else find_key m' key
  | (None, _) :: m' => find_key m' key
  end.

Definition yaml_lookup (node : option nat) (key : option cstr) : Y (option (option nat)) :=
  match node, key with
  | Some p, Some k =>
      let! n := node_at p in
      match content n with
      | YMapping om =>
          match om with
          | Some m => match mapping_size m with Some sz => yret (find_key (take sz m) k) | None => yundef end
          | None => yundef
          end
      | _ => yret None
      end
  | _, _ => yret None
  end.

Definition yaml_has_key (node : option nat) (key : option cstr) : Y bool :=
  let! r := yaml_lookup node key in yret (bool_decide (is_Some r)).

Definition yaml_get (node : option nat) (key : option cstr) : Y (option nat) :=
  let! r := yaml_lookup node key in yret (default None r).

Definition yaml_get_index (node : option nat) (index : nat) : Y (option nat) :=
  match node with
  | None => yret None
  | Some p =>
      let! n := node_at p in
      match content n with
      | YSequence (Some l) => yret (default None (l !! index))
      | _ => yret None
      end
  end.

Definition register_anchor (nm : option cstr) (node : nat) : Y unit :=
  match nm with
  | None => yret tt
  | Some nm =>
      let! l := yget anchors in
      let! cap := yget anchor_capacity in
      let! room := (if cap <=? Z.of_nat (length l) then
                      let new_cap := if cap * 2 =? 0 then INITIAL_ANCHORS else cap * 2 in
                      let! ok := ygrant in yret (if (ok : bool) then Some new_cap else None)
                    else yret (Some cap)) in
      match room with
      | None => yret tt
      | Some cap =>
          let! a := ystrdup nm in
          upd_node node (set_anchor_name a) ;!
          let! b := ystrdup nm in
          yput (set_anchors (l ++ [(b, node)]) cap)
      end
  end.

Fixpoint find_anchor (l : list (option cstr * nat)) (nm : cstr) : option nat :=
  match l with
  | [] => None
  | (Some k, p) :: l' => if decide (k = nm) then Some p else find_anchor l' nm
  | (None, _) :: l' => find_anchor l' nm
  end.

Definition lookup_anchor (nm : option cstr) : Y (option nat) :=
  match nm with
  | None => yret None
  | Some nm => let! l := yget anchors in yret (find_anchor l nm)
  end.

Definition strdup_opt (o : option cstr) : Y (option cstr) :=
  match o with None => yret None | Some s => ystrdup s end.

Definition free_slot : option cstr * option nat := (None, None).

Definition mapping_of (p : nat) : Y (list (option cstr * option nat)) :=
  let! n := node_at p in
  match content n with YMapping (Some m) => yret m | _ => yundef end.

Definition set_mapping (p : nat) (m : option (list (option cstr * option nat))) : Y unit :=
  upd_node p (set_content (YMapping m)).

(** A write to an array; out of range it is undefined. *)
Definition put_slot {A} (m : list A) (i : nat) (e : A) : Y (list A) :=
  if (i <? length m)%nat then yret (<[i := e]> m) else yundef.

(** [node->mapping[i].key = k] and [node->mapping[i].value = v]. *)
Definition put_entry (p i : nat) (k : option cstr) (v : option nat) : Y unit :=
  let! m := mapping_of p in
  let! m := put_slot m i (k, v) in
  set_mapping p (Some m).

Definition put_item (p i : nat) (v : option nat) : Y unit :=
  let! n := node_at p in
  match content n with
  | YSequence (Some l) => let! l := put_slot l i v in upd_node p (set_content (YSequence (Some l)))
  | _ => yundef
  end.

(** The copy is made before the copies of its children.  [fuel] bounds the
    depth; the arrays of the copy are not checked against refusal. *)
Fixpoint deep_copy_node (fuel : nat) (src : option nat) : Y (option nat) :=
  match src with
  | None => yret None
  | Some p =>
      match fuel with
      | O => fun _ => NoFuel
      | S fuel' =>
          let! n := node_at p in
          let! copy := alloc_node (match content n with
                                   | YNone => YNone
                                   | YScalar _ _ => new_scalar
                                   | YMapping _ => new_mapping
                                   | YSequence _ => new_sequence
                                   end) in
          match copy with
          | None => yret None
          | Some q =>
              let! a := strdup_opt (anchor_name n) in
              let! t := strdup_opt (tag n) in
              upd_node q (fun c => set_anchor_name a (set_tag t c)) ;!
              match content n with
              | YNone => yret (Some q)
              | YScalar None _ => yret (Some q)
              | YScalar (Some v) len =>
                  let! v' := ystrdup v in
                  upd_node q (set_content (YScalar v' len)) ;! yret (Some q)
              | YMapping om =>
                  let! sz := yaml_size (Some p) in
                  let! ok := ygrant in
                  if negb ok then (if (sz =? 0)%nat then yret (Some q) else yundef) else
                  set_mapping q (Some (replicate (sz + 1) free_slot)) ;!
                  (fix copy_entries (l : list (option cstr * option nat)) (i : nat) : Y unit :=
                     match l with
                     | [] => yret tt
                     | (k, v) :: l' =>
                         let! k' := strdup_opt k in
                         put_entry q i k' None ;!
                         let! v' := deep_copy_node fuel' v in
                         put_entry q i k' v' ;!
                         copy_entries l' (S i)
                     end) (take sz (default [] om)) 0%nat ;!
                  yret (Some q)
              | YSequence ol =>
                  let l := default [] ol in
                  let! ok := ygrant in
                  if negb ok then (if (length l =? 0)%nat then yret (Some q) else yundef) else
                  upd_node q (set_content (YSequence (Some (replicate (length l) None)))) ;!
                  (fix copy_items (l : list (option nat)) (i : nat) : Y unit :=
                     match l with
                     | [] => yret tt
                     | v :: l' =>
                         let! v' := deep_copy_node fuel' v in
                         put_item q i v' ;!
                         copy_items l' (S i)
                     end) l 0%nat ;!
                  yret (Some q)
              end
          end
      end
  end.

(** A path of nodes visits each node of the arena at most once, so this depth
    is enough. *)
Definition deep_copy (src : option nat) : Y (option nat) :=
  let! n := yget all_nodes in deep_copy_node (S (length n)) src.

(** ** Mappings under construction *)

(** The reallocated array keeps its slots, the new ones are zero-filled. *)
Definition yaml_mapping_grow (entries : list (option cstr * option nat)) (used new_capacity : nat)
    : Y (option (list (option cstr * option nat))) :=
  let! ok := ygrant in
  yret (if (ok : bool) then Some (take used entries ++ replicate (new_capacity - used) free_slot) else None).

(** [Some (count, cap)] after the append, [None] when the array cannot grow. *)
Definition yaml_mapping_append (p count cap : nat) (key : cstr) (value : option nat) : Y (option (nat * nat)) :=
  let! m := mapping_of p in
  let! r := (if (cap <=? count + 1)%nat then
               let! m' := yaml_mapping_grow m count (cap * 2) in
               set_mapping p m' ;! yret ((fun m' => (m', (cap * 2)%nat)) <$> m')
             else yret (Some (m, cap))) in
  match r with
  | None => yret None
  | Some (m, cap) =>
      let! m := put_slot m count (Some key, value) in
      set_mapping p (Some m) ;! yret (Some (S count, cap))
  end.

(** ** Block structures: yaml_minimal_parser.c *)

(** [while (cap <= need) cap *= 2;] *)
Fixpoint double_until (fuel cap need : nat) : nat :=
  match fuel with
  | O => cap
  | S fuel' => if (cap <=? need)%nat then double_until fuel' (cap * 2) need else cap
  end.

(** The loop over the entries of the source; [None] is the result 0. *)
Fixpoint merge_loop (p : nat) (src : list (option cstr * option nat)) (cap : nat) : Y (option nat) :=
  match src with
  | [] => yret (Some cap)
  | (k, v) :: src' =>
      let! tgt_current := yaml_size (Some p) in
      let! m := mapping_of p in
      if match k with Some k => bool_decide (is_Some (find_key (take tgt_current m) k)) | None => false end
      then merge_loop p src' cap
      else
        let! r := (if (cap <=? tgt_current + 1)%nat then
                     let! m' := yaml_mapping_grow m tgt_current (cap * 2) in
                     set_mapping p m' ;! yret ((fun m' => (m', (cap * 2)%nat)) <$> m')
                   else yret (Some (m, cap))) in
        match r with
        | None => yret None
        | Some (m, cap) =>
            let! k' := strdup_opt k in
            put_entry p tgt_current k' (snd (default free_slot (m !! tgt_current))) ;!
            let! v' := deep_copy v in
            put_entry p tgt_current k' v' ;!
            merge_loop p src' cap
        end
  end.

(** The capacity of the target after the merge, or [None] for 0. *)
Definition merge_mapping_into (target : nat) (source : option nat) : Y (option nat) :=
  match source with
  | None => yret None
  | Some q =>
      let! t := node_at target in
      let! s := node_at q in
      match content t, content s with
      | YMapping _, YMapping _ =>
          let! src_sz := yaml_size (Some q) in
          let! tgt_sz := yaml_size (Some target) in
          let cap := double_until (tgt_sz + src_sz) (tgt_sz + 1) (tgt_sz + src_sz) in
          let! m := mapping_of target in
          let! m' := yaml_mapping_grow m tgt_sz cap in
          set_mapping target m' ;!
          match m' with
          | None => yret None
          | Some _ =>
              let! src := mapping_of q in
              merge_loop target (take src_sz src) cap
          end
      | _, _ => yret None
      end
  end.

(** [content] is the place after the indentation of the current line. *)
Definition current_line_has_dash (s : yctx) (ind : Z) : bool :=
  match drop (Z.to_nat ind) (line_prefix (bef s) [] ++ aft s) with
  | c :: d :: _ => (c =? 45) && is_ws d
  | _ => false
  end.

(** The capacity after the merges, [None] for the result -1. *)
Fixpoint merge_items (target : nat) (items : list (option nat)) (cap : nat) : Y (option nat) :=
  match items with
  | [] => yret (Some cap)
  | it :: items' =>
      let! one := merge_mapping_into target it in
      match one with None => yret None | Some cap => merge_items target items' cap end
  end.

Definition apply_merge_key (map : nat) (val : option nat) (cap : nat) : Y (option nat) :=
  match val with
  | None => yundef
  | Some v =>
      let! n := node_at v in
      match content n with
      | YSequence ol => merge_items map (default [] ol) cap
      | _ => merge_mapping_into map (Some v)
      end
  end.

Record ymap_builder := Builder { bmap : nat; bsize : nat; bcap : nat; bindent : Z }.

Definition set_bindent (i : Z) (b : ymap_builder) : ymap_builder := Builder (bmap b) (bsize b) (bcap b) i.

Definition ymap_init : Y (option ymap_builder) :=
  let! map := alloc_node new_mapping in
  match map with
  | None => yret None
  | Some p =>
      let! ok := ygrant in
      if negb ok then yret None else
      set_mapping p (Some (replicate 8 free_slot)) ;! yret (Some (Builder p 0 8 (-1)))
  end.

Definition merge_key : cstr := cs "<<".

(** [None] is the result -1. *)
Definition ymap_put (b : ymap_builder) (key : cstr) (val : option nat) : Y (option ymap_builder) :=
  if decide (key = merge_key) then
    let! r := apply_merge_key (bmap b) val (bcap b) in
    match r with
    | None => yret None
    | Some cap =>
        let! sz := yaml_size (Some (bmap b)) in
        yret (Some (Builder (bmap b) sz cap (bindent b)))
    end
  else
    let! r := yaml_mapping_append (bmap b) (bsize b) (bcap b) key val in
    yret ((fun r => Builder (bmap b) (fst r) (snd r) (bindent b)) <$> r).

(** A node made a scalar with a text, as the code does for a missing value. *)
Definition empty_scalar (node : option nat) : Y unit :=
  match node with
  | None => yret tt
  | Some p =>
      let! n := node_at p in
      let c := match content n with YNone => new_scalar | c => c end in
      upd_node p (set_content c) ;!
      match c with
      | YScalar None len => let! v := ystrdup [] in upd_node p (set_content (YScalar v len))
      | _ => yret tt
      end
  end.

Definition ymap_key : Y (option cstr) :=
  let! key := parse_plain_scalar in
  match key with
  | None | Some [] => yret None
  | Some k =>
      yput skip_ws ;!
      let! c := yget peek in
      if negb (c =? 58) then
        set_error (cs "expected ':' after key '" ++ k ++ cs "'") ;! yret None
      else yput advance ;! yret (Some k)
  end.

Definition ymap_no_inline : Y bool :=
  yput skip_ws_and_nl ;!
  let! e := yget at_end in
  let! c := yget peek in
  yret (e || is_nl c).

(** Tags and anchors before a value. *)
Record pv_prefix := Prefix { ptag : option cstr; panchor : option cstr }.

Definition pv_prefix_parse : Y pv_prefix :=
  let! c := yget peek in
  let! t := (if c =? 33 then let! t := parse_tag in yput skip_ws ;! yret t else yret None) in
  let! c := yget peek in
  let! a := (if c =? 38 then
               yput advance ;! let! a := parse_anchor_name in yput skip_ws ;! yret a
             else yret None) in
  yret (Prefix t a).

(** The tail shared by the value constructors: [pv_apply] and [finish_node]. *)
Definition pv_apply (p : pv_prefix) (node : option nat) : Y (option nat) :=
  match node with
  | None => yret None
  | Some q =>
      register_anchor (panchor p) q ;!
      match ptag p with
      | Some t => upd_node q (set_tag (Some t))
      | None => yret tt
      end ;!
      yret (Some q)
  end.

Definition pv_is_seq_dash (s : yctx) : bool :=
  match aft s with
  | c :: d :: _ => (c =? 45) && (is_ws d || is_nl d)
  | _ => false
  end.

(** ** Scalars and flow values: yaml_minimal_value.c *)

Definition yaml_skip_eol (s : yctx) : yctx :=
  let s := if negb (at_end s) && (peek s =? 13) then advance s else s in
  if negb (at_end s) && (peek s =? 10) then advance s else s.

Inductive chomping := CHOMP_CLIP | CHOMP_STRIP | CHOMP_KEEP.

(** [None]: the buffer is gone, for lack of memory. *)
Definition yaml_buf_append (cap : nat) (buf : list Z) (ch : Z) : Y (option (nat * list Z)) :=
  if (cap <=? length buf + 2)%nat then
    let! ok := ygrant in
    yret (if (ok : bool) then Some ((cap * 2)%nat, buf ++ [ch]) else None)
  else yret (Some (cap, buf ++ [ch])).

Fixpoint block_header_loop (a : list Z) (chomp : chomping) (block_indent : Z) : Y (chomping * Z) :=
  match a with
  | md :: a' =>
      if md =? 45 then yput advance ;! block_header_loop a' CHOMP_STRIP block_indent
      else if md =? 43 then yput advance ;! block_header_loop a' CHOMP_KEEP block_indent
      else if (49 <=? md) && (md <=? 57) then yput advance ;! block_header_loop a' chomp (md - 48)
      else yret (chomp, block_indent)
  | [] => yret (chomp, block_indent)
  end.

Definition parse_block_header : Y (chomping * Z) :=
  let! a := yget aft in
  let! r := block_header_loop a CHOMP_CLIP (-1) in
  yput skip_ws ;!
  yput (fun s => if negb (at_end s) && (peek s =? 35) then advance_while (fun c => negb (is_nl c)) s else s) ;!
  yput yaml_skip_eol ;!
  yret r.

(** The variables of the loop over the lines of a block scalar. *)
Record block := Block {
  block_indent : Z; first_line_indent : Z; has_content : bool; blk_cap : nat; blk_buf : list Z }.

(** The rest of a line goes to the buffer. *)
Fixpoint block_text (a : list Z) (cap : nat) (buf : list Z) : Y (option (nat * list Z)) :=
  match a with
  | c :: a' =>
      if is_nl c then yret (Some (cap, buf))
      else
        yput advance ;!
        let! r := yaml_buf_append cap buf c in
        match r with None => yret None | Some (cap, buf) => block_text a' cap buf end
  | [] => yret (Some (cap, buf))
  end.

(** The separator between two lines; its failure is not noticed, and the
    buffer is used again. *)
Definition yaml_append_separator (is_folded : bool) (cap : nat) (buf : list Z) : Y (nat * list Z) :=
  if is_folded && last_is 10 buf then yret (cap, buf)
  else
    let! r := yaml_buf_append cap buf (if is_folded then 32 else 10) in
    match r with Some r => yret r | None => yundef end.

(** What a line does to the loop: it goes on, ends, or has lost the buffer. *)
Inductive block_step := BGo (b : block) | BEnd (b : block) | BLost.

Definition yaml_read_block_line (is_folded : bool) (b : block) : Y block_step :=
  let! before := yget bef in
  yput (advance_while (fun c => c =? 32)) ;!
  let! after := yget bef in
  let line_ind := Z.of_nat (length after) - Z.of_nat (length before) in
  let! e := yget at_end in
  if (e : bool) then yret (BEnd b) else
  let! line_char := yget peek in
  if is_nl line_char then
    yput yaml_skip_eol ;!
    let! r := yaml_buf_append (blk_cap b) (blk_buf b) 10 in
    match r with
    | None => yret BLost
    | Some (cap, buf) =>
        yret (BGo (Block (block_indent b) (first_line_indent b) (has_content b) cap buf))
    end
  else if is_ws line_char then yret (BGo b)
  else
    let b := if (block_indent b <? 0) && (first_line_indent b <? 0)
             then Block line_ind line_ind (has_content b) (blk_cap b) (blk_buf b) else b in
    if (line_ind <? block_indent b) && negb (line_char =? 0) then yret (BEnd b) else
    let! r := (if has_content b then yaml_append_separator is_folded (blk_cap b) (blk_buf b)
               else yret (blk_cap b, blk_buf b)) in
    let! a := yget aft in
    let! r := block_text a (fst r) (snd r) in
    match r with
    | None => yret BLost
    | Some (cap, buf) =>
        yput yaml_skip_eol ;!
        yret (BGo (Block (block_indent b) (first_line_indent b) true cap buf))
    end.

(** A round can leave the cursor where it was, so the loop has fuel. *)
Fixpoint yaml_read_block_lines (fuel : nat) (is_folded : bool) (b : block) : Y (option block) :=
  let! e := yget at_end in
  if (e : bool) then yret (Some b) else
  match fuel with
  | O => fun _ => NoFuel
  | S fuel' =>
      let! r := yaml_read_block_line is_folded b in
      match r with
      | BGo b => yaml_read_block_lines fuel' is_folded b
      | BEnd b => yret (Some b)
      | BLost => yret None
      end
  end.

Definition yaml_apply_chomp (chomp : chomping) (cap : nat) (buf : list Z) : Y (option (list Z)) :=
  match chomp with
  | CHOMP_STRIP => yret (Some (trim_end (fun c => c =? 10) buf))
  | CHOMP_KEEP => yret (Some buf)
  | CHOMP_CLIP =>
      match last buf with
      | Some c =>
          if c =? 10 then yret (Some buf)
          else let! r := yaml_buf_append cap buf 10 in yret (snd <$> r)
      | None => yret (Some buf)
      end
  end.

Definition parse_block_scalar_value (fuel : nat) (is_folded : bool) (p : pv_prefix) : Y (option nat) :=
  yput advance ;!
  let! h := parse_block_header in
  let! ok := ygrant in
  if negb ok then yret None else
  let! r := yaml_read_block_lines fuel is_folded (Block (snd h) (-1) false 1024 []) in
  match r with
  | None => yret None
  | Some b =>
      let! buf := yaml_apply_chomp (fst h) (blk_cap b) (blk_buf b) in
      match buf with
      | None => yret None
      | Some buf =>
          let! n := alloc_node new_scalar in
          match n with
          | None => pv_apply p None
          | Some q =>
              upd_node q (set_content (YScalar (Some (c_str buf)) (Z.of_nat (length buf)))) ;!
              pv_apply p (Some q)
          end
      end
  end.

Definition parse_alias_value (p : pv_prefix) : Y (option nat) :=
  yput advance ;!
  let! alias_name := parse_anchor_name in
  let! aliased := lookup_anchor alias_name in
  match aliased with
  | None =>
      set_error (cs "unknown alias '" ++ default (cs "(null)") alias_name ++ cs "'") ;! yret None
  | Some q =>
      let! copy := deep_copy (Some q) in
      match copy with
      | None => yret None
      | Some c =>
          match ptag p with Some t => upd_node c (set_tag (Some t)) | None => yret tt end ;!
          register_anchor (panchor p) c ;!
          yret (Some c)
      end
  end.

Definition parse_quoted_value (quote : Z) (p : pv_prefix) : Y (option nat) :=
  let! s := parse_quoted_string quote in
  let! n := alloc_node new_scalar in
  match n with
  | None => pv_apply p None
  | Some q =>
      upd_node q (set_content (YScalar s (match s with Some s => Z.of_nat (length s) | None => 0 end))) ;!
      pv_apply p (Some q)
  end.

(** An item goes to the end of a sequence; [None]: the array cannot grow. *)
Definition seq_push (seq cap : nat) (item : option nat) : Y (option nat) :=
  let! n := node_at seq in
  match content n with
  | YSequence (Some l) =>
      let! r := (if (cap <=? length l)%nat then
                   let! ok := ygrant in yret (if (ok : bool) then Some (cap * 2)%nat else None)
                 else yret (Some cap)) in
      match r with
      | None => upd_node seq (set_content (YSequence None)) ;! yret None
      | Some cap => upd_node seq (set_content (YSequence (Some (l ++ [item])))) ;! yret (Some cap)
      end
  | _ => yundef
  end.

(** The end of a flow value: its bracket, or an error unless one was set. *)
Definition flow_close (close : Z) (msg : cstr) : Y unit :=
  let! e := yget at_end in
  let! c := yget peek in
  if negb e && (c =? close) then yput advance
  else
    let! m := yget error_msg in
    match m with None => set_error msg | Some _ => yret tt end.

(** ** The parsers

    [fuel] bounds the calls and the rounds of the loops. *)

(** [ctx->pos--]. *)
Definition retreat (s : yctx) : yctx :=
  match bef s with c :: b => set_cursor b (c :: aft s) (line s) s | [] => s end.

Definition pos (s : yctx) : nat := length (bef s).

Definition MSG_SEQ : cstr := cs "unterminated flow sequence".
Definition MSG_MAP : cstr := cs "unterminated flow mapping".

Fixpoint parse_value (fuel : nat) (base_indent : Z) {struct fuel} : Y (option nat) :=
  match fuel with
  | O => fun _ => NoFuel
  | S fuel' =>
      yput skip_ws_nl_comments ;!
      let! e := yget at_end in
      if (e : bool) then alloc_node YNone else
      let! p := pv_prefix_parse in
      let! c := yget peek in
      let! dash := yget pv_is_seq_dash in
      if c =? 42 then parse_alias_value p
      else if (c =? 34) || (c =? 39) then parse_quoted_value c p
      else if (c =? 124) || (c =? 62) then parse_block_scalar_value fuel' (c =? 62) p
      else if (dash : bool) then
        (* parse_sequence *)
        let! seq := alloc_node new_sequence in
        match seq with
        | None => pv_apply p None
        | Some q =>
            let! ok := ygrant in
            if negb ok then pv_apply p None else
            upd_node q (set_content (YSequence (Some []))) ;!
            let! r := seq_loop fuel' q 8 base_indent in pv_apply p r
        end
      else if c =? 91 then
        (* parse_inline_sequence_value *)
        yput advance ;!
        let! seq := alloc_node new_sequence in
        match seq with
        | None => yundef
        | Some q =>
            let! ok := ygrant in
            (if (ok : bool) then upd_node q (set_content (YSequence (Some []))) else yret tt) ;!
            yput skip_ws ;!
            let! r := inline_seq_loop fuel' q 4 base_indent in
            if negb r then yret None else
            flow_close 93 MSG_SEQ ;! pv_apply p (Some q)
        end
      else if c =? 123 then
        (* parse_inline_mapping_value *)
        yput advance ;!
        let! map := alloc_node new_mapping in
        match map with
        | None => yundef
        | Some q =>
            let! ok := ygrant in
            (if (ok : bool) then set_mapping q (Some (replicate 4 free_slot)) else yret tt) ;!
            yput skip_ws ;!
            let! r := inline_map_loop fuel' q 0 4 base_indent in
            if negb r then yret None else
            flow_close 125 MSG_MAP ;! pv_apply p (Some q)
        end
      else
        (* pv_plain *)
        let! saved := yget (fun s => (bef s, aft s)) in
        let! scalar := parse_plain_scalar in
        match scalar with
        | None => alloc_node YNone
        | Some sc =>
            yput skip_ws ;!
            let! c := yget peek in
            if c =? 58 then
              yput (fun s => set_cursor (fst saved) (snd saved) (line s) s) ;!
              (* parse_mapping *)
              let! b := ymap_init in
              match b with
              | None => pv_apply p None
              | Some b => let! r := map_loop fuel' b base_indent in pv_apply p r
              end
            else
              let! n := alloc_node new_scalar in
              match n with
              | None => yret None
              | Some q =>
                  upd_node q (set_content (YScalar (Some sc) (Z.of_nat (length sc)))) ;!
                  pv_apply p (Some q)
              end
        end
  end
with seq_loop (fuel : nat) (seq cap : nat) (base_indent : Z) {struct fuel} : Y (option nat) :=
  match fuel with
  | O => fun _ => NoFuel
  | S fuel' =>
      yput skip_ws_nl_comments ;!
      let! e := yget at_end in
      if (e : bool) then yret (Some seq) else
      let! ind := yget line_indent in
      if ind <=? base_indent then yret (Some seq) else
      let! c := yget peek in
      if negb (c =? 45) then yret (Some seq) else
      yput advance ;!
      let! next_c := yget peek in
      yput (if is_ws next_c || (next_c =? 10) then skip_ws else retreat) ;!
      let! item := parse_value fuel' ind in
      match item with
      | None =>
          let! e := yget at_end in
          if (e : bool) then yret (Some seq) else seq_loop fuel' seq cap base_indent
      | Some _ =>
          let! r := seq_push seq cap item in
          match r with
          | None => yret None
          | Some cap =>
              let! e := yget at_end in
              if (e : bool) then yret (Some seq) else seq_loop fuel' seq cap base_indent
          end
      end
  end
with map_loop (fuel : nat) (b : ymap_builder) (base_indent : Z) {struct fuel} : Y (option nat) :=
  let! e := yget at_end in
  if (e : bool) then yret (Some (bmap b)) else
  match fuel with
  | O => fun _ => NoFuel
  | S fuel' =>
      yput skip_ws_nl_comments ;!
      let! e := yget at_end in
      if (e : bool) then yret (Some (bmap b)) else
      let! ind := yget line_indent in
      let! has_dash := yget (fun s => current_line_has_dash s ind) in
      let dash_line := (bindent b <? 0) && has_dash in
      if (ind <? base_indent) || ((ind =? base_indent) && negb dash_line) then yret (Some (bmap b)) else
      if negb (bindent b <? 0) && (ind <? bindent b) then yret (Some (bmap b)) else
      let b := if bindent b <? 0 then set_bindent (if dash_line then ind + 2 else ind) b else b in
      let! key := ymap_key in
      match key with
      | None => yret (Some (bmap b))
      | Some k =>
          let! no_inline := ymap_no_inline in
          let! r :=
            (if (no_inline : bool) then
               (* ymap_block *)
               let! next_ind := count_indent in
               let! val := (if ind <? next_ind then parse_value fuel' ind else yret None) in
               match val with
               | Some _ => ymap_put b k val
               | None =>
                   if decide (k = merge_key) then yret (Some b) else
                   let! n := alloc_node new_scalar in
                   empty_scalar n ;! ymap_put b k n
               end
             else
               (* ymap_inline *)
               let! val := parse_value fuel' ind in
               let! val := (match val with Some _ => yret val | None => alloc_node new_scalar end) in
               empty_scalar val ;! ymap_put b k val) in
          match r with
          | None => yret None
          | Some b => map_loop fuel' b base_indent
          end
      end
  end
with inline_seq_loop (fuel : nat) (seq cap : nat) (base_indent : Z) {struct fuel} : Y bool :=
  let! e := yget at_end in
  let! c := yget peek in
  if e || (c =? 93) then yret true else
  match fuel with
  | O => fun _ => NoFuel
  | S fuel' =>
      let! iter_start := yget pos in
      let! count := yaml_size (Some seq) in
      (if (0 <? count)%nat then
         (if c =? 44 then yput advance else yret tt) ;! yput skip_ws
       else yret tt) ;!
      let! item := parse_value fuel' (base_indent + 100) in
      let! r := (match item with Some _ => seq_push seq cap item | None => yret (Some cap) end) in
      match r with
      | None => yret false
      | Some cap =>
          yput skip_ws ;!
          let! now := yget pos in
          if (now =? iter_start)%nat then set_error MSG_SEQ ;! yret true
          else inline_seq_loop fuel' seq cap base_indent
      end
  end
with inline_map_loop (fuel : nat) (map msz cap : nat) (base_indent : Z) {struct fuel} : Y bool :=
  let! e := yget at_end in
  let! c := yget peek in
  if e || (c =? 125) then yret true else
  match fuel with
  | O => fun _ => NoFuel
  | S fuel' =>
      let! iter_start := yget pos in
      (if (0 <? msz)%nat then
         (if c =? 44 then yput advance else yret tt) ;! yput skip_ws
       else yret tt) ;!
      let! k := parse_plain_scalar in
      match k with
      | None => yret true
      | Some k =>
          yput skip_ws ;!
          let! c := yget peek in
          (if c =? 58 then yput advance else yret tt) ;!
          yput skip_ws ;!
          let! v := parse_value fuel' (base_indent + 100) in
          let! v := (match v with Some _ => yret v | None => alloc_node new_scalar end) in
          empty_scalar v ;!
          let! r := yaml_mapping_append map msz cap k v in
          match r with
          | None => yret false
          | Some (msz, cap) =>
              yput skip_ws ;!
              let! now := yget pos in
              if (now =? iter_start)%nat then set_error MSG_MAP ;! yret true
              else inline_map_loop fuel' map msz cap base_indent
          end
      end
  end.

(** ** Documents: yaml_minimal.c and the markers of yaml_minimal_parser.c *)

(** One step of [skip_yaml_directives] per directive or blank. *)
Fixpoint skip_directives_loop (fuel : nat) (s : yctx) : yctx :=
  match fuel with
  | O => s
  | S fuel' =>
      if at_end s then s
      else if peek s =? 37 then
        skip_directives_loop fuel' (yaml_skip_eol (advance_while (fun c => negb (is_nl c)) s))
      else if is_ws (peek s) || is_nl (peek s) then skip_directives_loop fuel' (advance s)
      else s
  end.

Definition skip_yaml_directives (s : yctx) : yctx := skip_directives_loop (length (aft s)) s.

Definition is_document_marker (marker : cstr) (s : yctx) : bool :=
  bool_decide (take (length marker) (aft s) = marker) &&
  match drop (length marker) (aft s) with
  | [] => true
  | c :: _ => is_ws c || is_nl c || (c =? 0)
  end.

Definition skip_document_marker (marker : cstr) (s : yctx) : yctx :=
  let n := length marker in
  let s := set_cursor (rev (take n (aft s)) ++ bef s) (drop n (aft s)) (line s) s in
  yaml_skip_eol (advance_while (fun c => negb (is_nl c)) s).

Definition BOM : list Z := [0xEF; 0xBB; 0xBF].

(** The cursor at the start of a text, after a byte-order mark. *)
Definition start_ctx (input : list Z) (g : list bool) : yctx :=
  if decide (take 3 input = BOM) then YCtx (rev BOM) (drop 3 input) 1 None [] 0 [] 0 g
  else YCtx [] input 1 None [] 0 [] 0 g.

Definition skip_prolog (s : yctx) : yctx :=
  let s := skip_yaml_directives s in
  if is_document_marker (cs "---") s then skip_document_marker (cs "---") s else s.

(** [yaml_parse_string] on a text of positive length; the length 0 stands for
    [strlen], so an empty text is the empty scalar.  The result is the code and
    the root. *)
Definition yaml_parse_string (fuel : nat) (input : list Z) (g : list bool) : res (Z * option nat * yctx) :=
  match input with
  | [] =>
      match (let! n := alloc_node new_scalar in empty_scalar n ;! yret n) (start_ctx [] g) with
      | Done (r, s) => Done (0, r, s)
      | NoFuel => NoFuel
      | Undefined => Undefined
      end
  | _ =>
      match (let! ok := ygrant in
             if negb ok then yret (AIRY_EINVAL, None) else
             yput skip_prolog ;!
             let! root := parse_value fuel (-1) in
             yret (match root with Some _ => 0 | None => -1 end, root)) (start_ctx input g) with
      | Done ((rc, r), s) => Done (rc, r, s)
      | NoFuel => NoFuel
      | Undefined => Undefined
      end
  end.

(** ** The tree of a node *)

Inductive ytree :=
  | TNone
  | TScalar (s : cstr)
  | TMap (l : list (cstr * ytree))
  | TSeq (l : list ytree).

(** [None]: a null pointer, or a mapping that is not closed by a free slot. *)
Fixpoint tree_of (fuel : nat) (ns : list yaml_node) (p : option nat) : option ytree :=
  match fuel with
  | O => None
  | S fuel' =>
      p ← p; n ← ns !! p;
      match content n with
      | YNone => Some TNone
      | YScalar v _ => v ← v; Some (TScalar v)
      | YMapping om =>
          m ← om; sz ← mapping_size m;
          l ← mapM (fun e : option cstr * option nat =>
                      k ← fst e; t ← tree_of fuel' ns (snd e); Some (k, t)) (take sz m);
          Some (TMap l)
      | YSequence ol => l ← ol; l' ← mapM (tree_of fuel' ns) l; Some (TSeq l')
      end
  end.

(** The tree of a text: with the code of the parser and its error message. *)
Definition yaml_tree (fuel : nat) (input : cstr) : res (Z * option ytree * option cstr) :=
  match yaml_parse_string fuel input [] with
  | Done (rc, r, s) => Done (rc, tree_of (S (length (all_nodes s))) (all_nodes s) r, error_msg s)
  | NoFuel => NoFuel
  | Undefined => Undefined
  end.
