(* ===== verification/YamlSafe.v ===== *)
(** * The YAML reader neither runs past its arrays nor, on most texts, forever

    The invariant of the arena and of the cursor, kept by every function of the
    reader when memory is granted: pointers are in range and lead to younger
    nodes, and every mapping ends in a free slot.  Texts without tabs in which a
    dash that starts a word is followed by a blank are read in a number of
    steps linear in their length. *)
From S2P Require Import Prelude CLib Yaml.

(** ** Outcomes *)

(** [f] at [s] is defined, and it returns if [G] holds. *)
Definition safe {A} (G : Prop) (f : Y A) (s : yctx) (Q : A -> yctx -> Prop) : Prop :=
  match f s with Done (x, s') => Q x s' | NoFuel => ~ G | Undefined => False end.

Lemma safe_ret {A} G (x : A) s (Q : A -> yctx -> Prop) : Q x s -> safe G (yret x) s Q.
Proof. done. Qed.

Lemma safe_get {A} G (f : yctx -> A) s (Q : A -> yctx -> Prop) : Q (f s) s -> safe G (yget f) s Q.
Proof. done. Qed.

Lemma safe_put G (f : yctx -> yctx) s (Q : unit -> yctx -> Prop) : Q tt (f s) -> safe G (yput f) s Q.
Proof. done. Qed.

Lemma safe_bind {A B} G (f : Y A) (g : A -> Y B) s (Q : B -> yctx -> Prop) :
  safe G f s (fun x s' => safe G (g x) s' Q) -> safe G (ybind f g) s Q.
Proof. unfold safe, ybind. by destruct (f s) as [[x s']| |]. Qed.

Lemma safe_mono {A} (G G' : Prop) (f : Y A) s (P Q : A -> yctx -> Prop) :
  safe G' f s P -> (G -> G') -> (forall x s', P x s' -> Q x s') -> safe G f s Q.
Proof. unfold safe. destruct (f s) as [[x s']| |]; [|tauto|done]. auto. Qed.

Lemma safe_done {A} G (f : Y A) s x s' (Q : A -> yctx -> Prop) :
  f s = Done (x, s') -> Q x s' -> safe G f s Q.
Proof. unfold safe. by intros ->. Qed.

(** ** The cursor *)

Definition text_of (s : yctx) : list Z := rev (bef s) ++ aft s.

(** A byte a word can end with; 191 is the last byte of a byte-order mark. *)
Definition wordy (c : Z) : bool := is_plain_scalar_char c && negb (c =? 58) && negb (c =? 191).

(** The cursor is not at a dash inside a word. *)
Definition off_word (b a : list Z) : Prop :=
  match a with
  | d :: _ => d = 45 -> match b with c :: _ => wordy c = false | [] => True end
  | [] => True
  end.

(** A move of the cursor over the same text, never backwards; an error message
    may be set. *)
Record moves (s s' : yctx) : Prop := Moves {
  mv_granted : granted s' = granted s;
  mv_nodes : all_nodes s' = all_nodes s;
  mv_anchors : anchors s' = anchors s;
  mv_text : text_of s' = text_of s;
  mv_len : (length (aft s') <= length (aft s))%nat;
}.

Lemma moves_refl s : moves s s.
Proof. split; done || lia. Qed.

Lemma moves_trans s1 s2 s3 : moves s1 s2 -> moves s2 s3 -> moves s1 s3.
Proof. intros [] []. split; congruence || lia. Qed.

#[local] Hint Resolve moves_refl : airy.

Lemma advance_moves s : moves s (advance s).
Proof.
  unfold advance. destruct (aft s) as [|c a] eqn:E; [apply moves_refl|].
  split; simpl; try done; [|rewrite E; simpl; lia]. unfold text_of. simpl. by rewrite E, <- app_assoc.
Qed.

Lemma advance_spec s c a : aft s = c :: a -> bef (advance s) = c :: bef s /\ aft (advance s) = a.
Proof. unfold advance. by intros ->. Qed.

Lemma advance_while_from_spec f b a l :
  exists p l', advance_while_from f b a l = (rev p ++ b, drop (length p) a, l') /\ take (length p) a = p /\
    Forall (fun c => f c = true) p /\ match drop (length p) a with c :: _ => f c = false | [] => True end.
Proof.
  revert b l. induction a as [|c a IH]; intros b l; simpl.
  - exists [], l. done.
  - destruct (f c) eqn:Hc.
    + destruct (IH (c :: b) (step_line c l)) as (p & l' & -> & Hp & Hf & Hd).
      exists (c :: p), l'. simpl. rewrite <- app_assoc. split_and!; [done|by rewrite Hp|by constructor|done].
    + exists [], l. simpl. rewrite Hc. done.
Qed.

(** The bytes that a scan skips. *)
Lemma advance_while_spec f s :
  exists p, aft s = p ++ aft (advance_while f s) /\ bef (advance_while f s) = rev p ++ bef s /\
    Forall (fun c => f c = true) p /\ match aft (advance_while f s) with c :: _ => f c = false | [] => True end.
Proof.
  unfold advance_while. destruct (advance_while_from_spec f (bef s) (aft s) (line s)) as (p & l' & -> & Hp & Hf & Hd).
  exists p. simpl. split_and!; [|done..]. by rewrite <- Hp at 1; rewrite take_drop.
Qed.

Lemma advance_while_moves f s : moves s (advance_while f s).
Proof.
  destruct (advance_while_spec f s) as (p & Ha & Hb & _ & _).
  assert (He : exists b a l, advance_while f s = set_cursor b a l s).
  { unfold advance_while. destruct (advance_while_from _ _ _ _) as [[b a] l]. eauto. }
  split; try (destruct He as (b & a & l & ->); done).
  - unfold text_of. by rewrite Hb, Ha, rev_app_distr, rev_involutive, <- app_assoc.
  - rewrite Ha, length_app. lia.
Qed.

(** Skipping bytes that are not part of words keeps the cursor off words. *)
Lemma advance_while_off f s :
  (forall c, f c = true -> wordy c = false) -> off_word (bef s) (aft s) ->
  off_word (bef (advance_while f s)) (aft (advance_while f s)).
Proof.
  intros Hf Ho. destruct (advance_while_spec f s) as (p & Ha & Hb & Hp & Hd).
  destruct p as [|c p _] using rev_ind; [by rewrite Ha, Hb in *|].
  rewrite Hb, rev_app_distr. apply Forall_app in Hp as [_ [Hc _]%Forall_cons].
  unfold off_word. destruct (aft (advance_while f s)); [done|]. intros _. simpl. by apply Hf.
Qed.

(** A scan up to a line end leaves the cursor off words. *)
Lemma advance_line_off s :
  let s' := advance_while (fun c => negb (is_nl c)) s in off_word (bef s') (aft s').
Proof.
  intros s'. destruct (advance_while_spec (fun c => negb (is_nl c)) s) as (p & _ & _ & _ & Hd).
  fold s' in Hd. unfold off_word. destruct (aft s'); [done|]. intros ->. done.
Qed.

Lemma ws_not_wordy c : is_ws c || is_nl c = true -> wordy c = false.
Proof.
  unfold is_ws, is_nl. rewrite !orb_true_iff, !Z.eqb_eq. intros [[-> | ->] | [-> | ->]]; done.
Qed.

Definition good (s s' : yctx) : Prop :=
  moves s s' /\ (off_word (bef s) (aft s) -> off_word (bef s') (aft s')).

Lemma good_refl s : good s s.
Proof. split; [apply moves_refl|done]. Qed.

Lemma good_trans s1 s2 s3 : good s1 s2 -> good s2 s3 -> good s1 s3.
Proof. intros [M1 O1] [M2 O2]. split; [by eapply moves_trans|auto]. Qed.

Lemma good_moves s s' : good s s' -> moves s s'.
Proof. by intros []. Qed.

#[local] Hint Resolve good_refl : airy.

Lemma skip_ws_good s : good s (skip_ws s).
Proof.
  split; [apply advance_while_moves|]. apply advance_while_off. intros c Hc. apply ws_not_wordy.
  by rewrite Hc.
Qed.

Lemma skip_ws_and_nl_good s : good s (skip_ws_and_nl s).
Proof. split; [apply advance_while_moves|]. apply advance_while_off, ws_not_wordy. Qed.

Lemma skip_comments_good s : good s (skip_ws_nl_comments s).
Proof.
  unfold skip_ws_nl_comments. generalize (length (aft s)) as n. intros n. revert s.
  induction n as [|n IH]; intros s; simpl; [apply skip_ws_and_nl_good|].
  case_match; [apply skip_ws_and_nl_good|].
  eapply good_trans; [apply skip_ws_and_nl_good|]. eapply good_trans; [|apply IH].
  split; [apply advance_while_moves|intros _; apply advance_line_off].
Qed.

Lemma skip_eol_good s : good s (yaml_skip_eol s).
Proof.
  assert (Hone : forall k s, is_nl k = true ->
    good s (if negb (at_end s) && (peek s =? k) then advance s else s)).
  { intros k t Hk. case_match eqn:E; [|apply good_refl]. apply andb_true_iff in E as [_ E%Z.eqb_eq].
    split; [apply advance_moves|]. intros _. unfold peek in E. unfold advance, off_word.
    destruct (aft t) as [|c a]; [subst; done|]. simpl. destruct a; [done|]. intros _. subst.
    apply ws_not_wordy. rewrite Hk. by rewrite orb_true_r. }
  unfold yaml_skip_eol. eapply good_trans; [by apply (Hone 13)|by apply (Hone 10)].
Qed.

(** ** The scanners, when memory is granted *)

Lemma grant_ok s : granted s = [] -> ygrant s = Done (true, s).
Proof. unfold ygrant. by intros ->. Qed.

Lemma strdup_ok s str : granted s = [] -> ystrdup str s = Done (Some str, s).
Proof. intros H. unfold ystrdup, ybind. by rewrite grant_ok. Qed.

Lemma strdup_opt_ok s o : granted s = [] -> strdup_opt o s = Done (o, s).
Proof. intros H. destruct o; [by apply strdup_ok|done]. Qed.

Lemma reserve_ok s cap len : granted s = [] -> exists cap', buf_reserve cap len s = Done (Some cap', s).
Proof.
  intros H. unfold buf_reserve. case_match; [by eexists|]. unfold ybind. rewrite grant_ok by done. by eexists.
Qed.

Lemma append_ok s cap buf c : granted s = [] ->
  exists cap', yaml_buf_append cap buf c s = Done (Some (cap', buf ++ [c]), s).
Proof.
  intros H. unfold yaml_buf_append. case_match; [|by eexists]. unfold ybind. rewrite grant_ok by done. by eexists.
Qed.

Lemma set_error_ok s msg : granted s = [] ->
  exists m, set_error msg s = Done (tt, set_error_msg (Some m) s).
Proof. intros H. unfold set_error, ybind, yget. rewrite strdup_ok by done. by eexists. Qed.

Lemma set_error_good s m : good s (set_error_msg m s).
Proof. split; [by split|done]. Qed.

Lemma set_error_safe G s msg (Q : unit -> yctx -> Prop) :
  granted s = [] -> (forall s', good s s' -> aft s' = aft s -> bef s' = bef s -> Q tt s') -> safe G (set_error msg) s Q.
Proof.
  intros H HQ. destruct (set_error_ok s msg H) as [m Hm]. eapply safe_done; [exact Hm|].
  apply HQ; [apply set_error_good|done..].
Qed.

(** What a scanner of granted memory gives: its value and a cursor that moved
    off words. *)
Definition scans {A} (f : Y A) (s : yctx) (Q : A -> yctx -> Prop) : Prop :=
  exists x s', f s = Done (x, s') /\ moves s s' /\ off_word (bef s') (aft s') /\ Q x s'.

Lemma advance_eq s c a : aft s = c :: a -> advance s = set_cursor (c :: bef s) a (step_line c (line s)) s.
Proof. unfold advance. by intros ->. Qed.

Lemma scan_step_ok {A} (f : Y A) s c a Q :
  aft s = c :: a -> scans f (advance s) Q -> scans (yput advance ;! f) s Q.
Proof.
  intros Ha (x & s' & Hf & Hm & Ho & HQ). exists x, s'. split_and!; [done| |done..].
  eapply moves_trans, Hm. apply advance_moves.
Qed.

Lemma name_loop_ok a s cap buf :
  aft s = a -> granted s = [] -> scans (name_loop a cap buf) s (fun r s' => is_Some r).
Proof.
  revert s cap buf. induction a as [|c a IH]; intros s cap buf Ha Hg; simpl.
  - exists (Some (c_str buf)), s. split_and!; eauto with airy. unfold off_word. by rewrite Ha.
  - case_match eqn:Hc.
    + exists (Some (c_str buf)), s. split_and!; eauto with airy. unfold off_word. rewrite Ha. by intros ->.
    + apply (scan_step_ok _ _ c a _ Ha).
      assert (Hg' : granted (advance s) = []) by (by rewrite (mv_granted _ _ (advance_moves s))).
      destruct (reserve_ok (advance s) cap (length buf) Hg') as [cap' Hr].
      destruct (IH (advance s) cap' (buf ++ [c])) as (x & s' & Hf & Hm & Ho & HQ); [by eapply advance_spec|done|].
      exists x, s'. split_and!; [|done..]. unfold ybind. by rewrite Hr.
Qed.

Lemma name_scan_ok s : granted s = [] -> scans name_scan s (fun r _ => is_Some r).
Proof.
  intros Hg. destruct (name_loop_ok (aft s) s 64 [] eq_refl Hg) as (x & s' & Hf & H). exists x, s'.
  split; [|done]. unfold name_scan, ybind. by rewrite grant_ok.
Qed.

Lemma quoted_loop_ok a s quote cap buf :
  (quote = 34 \/ quote = 39) -> aft s = a -> granted s = [] ->
  scans (quoted_loop a quote cap buf) s (fun r _ => is_Some r).
Proof.
  intros Hq. remember (length a) as n eqn:Hn. revert a Hn s cap buf.
  induction (lt_wf n) as [n _ IH]. intros a -> s cap buf Ha Hg.
  destruct a as [|c a]; cbn [quoted_loop].
  { exists (Some (c_str buf)), s. split_and!; eauto with airy. unfold off_word. by rewrite Ha. }
  apply (scan_step_ok _ _ c a _ Ha).
  assert (Hg' : granted (advance s) = []) by (by rewrite (mv_granted _ _ (advance_moves s))).
  destruct (advance_spec s c a Ha) as [Hb' Ha'].
  assert (Hrec : forall a' s' c', granted s' = [] -> aft s' = a' -> (length a' < length (c :: a))%nat ->
    scans (let! r := buf_reserve cap (length buf) in
           match r with None => yret None | Some cap => quoted_loop a' quote cap (buf ++ [c']) end) s'
      (fun r _ => is_Some r)).
  { intros a' s' c' Hg1 Ha1 Hl. destruct (reserve_ok s' cap (length buf) Hg1) as [cap' Hr].
    destruct (IH (length a') Hl a' eq_refl s' cap' (buf ++ [c']) Ha1 Hg1) as (x & s2 & Hf & H).
    exists x, s2. split; [|done]. unfold ybind. by rewrite Hr. }
  case_match eqn:E.
  { apply andb_true_iff in E as [->%Z.eqb_eq _]. exists (Some (c_str buf)), (advance s).
    split_and!; eauto with airy. unfold off_word. rewrite Ha', Hb'. destruct a; [done|]. intros _.
    by destruct Hq as [-> | ->]. }
  case_match; [|apply Hrec; simpl; done || lia].
  destruct a as [|next a].
  - destruct (reserve_ok (advance s) cap (length buf) Hg') as [cap' Hr].
    eexists _, (advance s). unfold ybind. rewrite Hr. split_and!; eauto with airy. unfold off_word. by rewrite Ha'.
  - apply (scan_step_ok _ _ next a _ Ha'). destruct (advance_spec _ _ _ Ha') as [_ Ha''].
    apply Hrec; [by rewrite (mv_granted _ _ (advance_moves _))|done|simpl; lia].
Qed.

Lemma plain_loop_ok a s cap buf :
  aft s = a -> granted s = [] ->
  scans (plain_loop a cap buf) s
    (fun r s' => exists buf', r = Some buf' /\
       (length (aft s') + length buf' = length (aft s) + length buf)%nat).
Proof.
  revert s cap buf. induction a as [|c a IH]; intros s cap buf Ha Hg; cbn [plain_loop].
  { exists (Some buf), s. split_and!; eauto with airy. unfold off_word. by rewrite Ha. }
  assert (Hstop : (c = 45 -> False) -> scans (yret (Some buf)) s
    (fun r s' => exists buf', r = Some buf' /\ (length (aft s') + length buf' = length (aft s) + length buf)%nat)).
  { intros Hc. exists (Some buf), s. split_and!; eauto with airy. unfold off_word. rewrite Ha. tauto. }
  repeat (case_match; [apply Hstop; intros ->; done|]).
  apply (scan_step_ok _ _ c a _ Ha).
  assert (Hg' : granted (advance s) = []) by (by rewrite (mv_granted _ _ (advance_moves s))).
  destruct (reserve_ok (advance s) cap (length buf) Hg') as [cap' Hr].
  destruct (advance_spec _ _ _ Ha) as [_ Ha'].
  destruct (IH (advance s) cap' (buf ++ [c]) Ha' Hg') as (x & s' & Hf & Hm & Ho & buf' & -> & Hl).
  exists (Some buf'), s'. split_and!; [by unfold ybind; rewrite Hr|done..|]. exists buf'. split; [done|].
  rewrite Ha' in Hl. rewrite Ha. rewrite length_app in Hl. simpl in *. lia.
Qed.

Lemma trim_end_length f l : (length (trim_end f l) <= length l)%nat.
Proof.
  induction l as [|c l IH]; simpl; [lia|]. destruct (trim_end f l); [case_match|]; simpl in *; lia.
Qed.

Lemma plain_scalar_ok s : granted s = [] ->
  scans parse_plain_scalar s
    (fun r s' => exists v, r = Some v /\ (v <> [] -> (length (aft s') < length (aft s))%nat)).
Proof.
  intros Hg. destruct (plain_loop_ok (aft s) s 256 [] eq_refl Hg) as (x & s' & Hf & Hm & Ho & buf & -> & Hl).
  unfold scans, parse_plain_scalar, ybind. rewrite grant_ok by done. unfold yget. simpl. rewrite Hf.
  pose proof (trim_end_length is_ws buf) as Ht. destruct (trim_end is_ws buf) as [|c t].
  - rewrite strdup_ok by (by rewrite (mv_granted _ _ Hm)). exists (Some []), s'. split_and!; [done..|]. by exists [].
  - exists (Some (c_str (c :: t))), s'. split_and!; [done..|]. eexists. split; [done|]. intros _. simpl in *. lia.
Qed.

Lemma parse_tag_ok s : granted s = [] -> peek s = 33 -> scans parse_tag s (fun r _ => is_Some r).
Proof.
  intros Hg Hp. unfold parse_tag, scans, ybind, yget, yput. rewrite Hp. simpl.
  set (s1 := advance s). assert (Hm1 : moves s s1) by apply advance_moves.
  set (s2 := if peek s1 =? 33 then advance s1 else s1).
  assert (Hm2 : moves s1 s2) by (unfold s2; case_match; [apply advance_moves|apply moves_refl]).
  assert (Hg2 : granted s2 = []) by (by rewrite (mv_granted _ _ Hm2), (mv_granted _ _ Hm1)).
  destruct (name_scan_ok s2 Hg2) as (x & s' & Hf & Hm & H).
  exists x, s'. split_and!; [|by eauto using moves_trans|apply H..].
  unfold s2 in Hf. by case_match.
Qed.

(** A step of a scan: the state moved and stays off words. *)
Lemma good_state s s' : good s s' -> granted s = [] -> off_word (bef s) (aft s) ->
  granted s' = [] /\ off_word (bef s') (aft s').
Proof. intros [Hm Ho] Hg Hw. split; [by rewrite (mv_granted _ _ Hm)|auto]. Qed.

Lemma scans_good {A} (f : Y A) s Q :
  scans f s Q -> exists x s', f s = Done (x, s') /\ good s s' /\ Q x s'.
Proof. intros (x & s' & Hf & Hm & Ho & HQ). exists x, s'. split_and!; [done|by split|done]. Qed.

Lemma prefix_parse_ok G s (Q : pv_prefix -> yctx -> Prop) :
  granted s = [] -> (forall p s', good s s' -> Q p s') -> safe G pv_prefix_parse s Q.
Proof.
  intros Hg HQ. unfold pv_prefix_parse. apply safe_bind, safe_get, safe_bind.
  assert (Hnext : forall t s1, good s s1 ->
    safe G (let! c := yget peek in
            let! a := (if c =? 38 then yput advance ;! let! a := parse_anchor_name in yput skip_ws ;! yret a
                       else yret None) in yret (Prefix t a)) s1 Q).
  { intros t s1 Hg1. assert (Hgr : granted s1 = []) by (by rewrite (mv_granted _ _ (proj1 Hg1))).
    apply safe_bind, safe_get, safe_bind. case_match eqn:E; [|by apply safe_ret, safe_ret, HQ].
    apply safe_bind, safe_put, safe_bind.
    assert (Hgr' : granted (advance s1) = []) by (by rewrite (mv_granted _ _ (advance_moves s1))).
    destruct (name_scan_ok (advance s1) Hgr') as (x & s2 & Hf & Hm & Ho & _).
    eapply safe_done; [exact Hf|]. apply safe_bind, safe_put, safe_ret, safe_ret, HQ.
    eapply good_trans; [exact Hg1|]. eapply good_trans, skip_ws_good.
    split; [eapply moves_trans, Hm; apply advance_moves|done]. }
  case_match eqn:E; [|by apply safe_ret, Hnext, good_refl].
  apply Z.eqb_eq in E. destruct (parse_tag_ok s Hg E) as (x & s1 & Hf & Hm & Ho & _).
  apply safe_bind. eapply safe_done; [exact Hf|]. apply safe_bind, safe_put, safe_ret, Hnext.
  eapply good_trans, skip_ws_good. by split.
Qed.

Lemma count_indent_ok G s (Q : Z -> yctx -> Prop) :
  granted s = [] -> (forall z s', good s s' -> Q z s') -> safe G count_indent s Q.
Proof.
  intros Hg HQ. unfold count_indent. apply safe_bind, safe_get. generalize 0 as i.
  remember (aft s) as a eqn:Ha. revert s Hg Ha HQ.
  induction a as [|c a IH]; intros s Hg Ha HQ i; cbn [count_indent_loop]; [by apply safe_ret, HQ, good_refl|].
  assert (Hadv : forall t, is_ws c = true -> aft t = c :: a -> good t (advance t)).
  { intros t Hc Ht. split; [apply advance_moves|]. intros _. destruct (advance_spec _ _ _ Ht) as [-> ->].
    unfold off_word. destruct a; [done|]. intros _. apply ws_not_wordy. by rewrite Hc. }
  unfold is_ws in Hadv. case_match eqn:E1; [|case_match eqn:E2].
  - apply safe_bind, safe_put. apply IH.
    + by rewrite (mv_granted _ _ (advance_moves s)).
    + by destruct (advance_spec s c a) as [_ ->].
    + intros z s' Hs'. apply HQ. eapply good_trans, Hs'. by apply Hadv.
  - apply safe_bind, set_error_safe; [done|]. intros s1 Hs1 Ha1 Hb1. apply safe_bind, safe_put.
    assert (Ha1' : aft s1 = c :: a) by congruence. apply IH.
    + by rewrite (mv_granted _ _ (advance_moves s1)), (mv_granted _ _ (proj1 Hs1)).
    + by destruct (advance_spec s1 c a Ha1') as [_ ->].
    + intros z s' Hs'. apply HQ. eapply good_trans; [exact Hs1|]. eapply good_trans, Hs'. by apply Hadv.
  - by apply safe_ret, HQ, good_refl.
Qed.

Lemma header_loop_ok a s ch bi :
  aft s = a -> scans (block_header_loop a ch bi) s (fun _ _ => True).
Proof.
  revert s ch bi. induction a as [|c a IH]; intros s ch bi Ha; cbn [block_header_loop].
  { eexists _, s. split_and!; eauto with airy. unfold off_word. by rewrite Ha. }
  destruct (advance_spec s c a Ha) as [_ Ha'].
  case_match eqn:E1; [|case_match; [|case_match]]; try (apply (scan_step_ok _ _ c a _ Ha), IH, Ha').
  eexists _, s. split_and!; eauto with airy. unfold off_word. rewrite Ha. apply Z.eqb_neq in E1. tauto.
Qed.

Lemma block_header_ok G s (Q : chomping * Z -> yctx -> Prop) :
  (forall r s', moves s s' -> off_word (bef s') (aft s') -> Q r s') -> safe G parse_block_header s Q.
Proof.
  intros HQ. unfold parse_block_header. apply safe_bind, safe_get, safe_bind.
  destruct (header_loop_ok (aft s) s CHOMP_CLIP (-1) eq_refl) as (x & s1 & Hf & Hm & Ho & _).
  eapply safe_done; [exact Hf|]. apply safe_bind, safe_put, safe_bind, safe_put, safe_bind, safe_put, safe_ret.
  assert (Hgood : good s1 (yaml_skip_eol (if negb (at_end (skip_ws s1)) && (peek (skip_ws s1) =? 35)
                 then advance_while (fun c => negb (is_nl c)) (skip_ws s1) else skip_ws s1))).
  { eapply good_trans; [apply skip_ws_good|]. eapply good_trans, skip_eol_good.
    case_match; [|apply good_refl]. split; [apply advance_while_moves|intros _; apply advance_line_off]. }
  apply HQ; [eapply moves_trans, Hgood; done|by apply Hgood].
Qed.

Lemma block_text_ok a s cap buf :
  aft s = a -> granted s = [] ->
  scans (block_text a cap buf) s (fun r s' => is_Some r /\
    match a with c :: _ => is_nl c = false -> (length (aft s') < length a)%nat | [] => True end).
Proof.
  revert s cap buf. induction a as [|c a IH]; intros s cap buf Ha Hg; cbn [block_text].
  { eexists _, s. split_and!; eauto with airy. unfold off_word. by rewrite Ha. }
  destruct (is_nl c) eqn:E.
  { eexists _, s. split_and!; [reflexivity|apply moves_refl| |by eexists|done].
    unfold off_word. rewrite Ha. by intros ->. }
  apply (scan_step_ok _ _ c a _ Ha).
  assert (Hg' : granted (advance s) = []) by (by rewrite (mv_granted _ _ (advance_moves s))).
  destruct (append_ok (advance s) cap buf c Hg') as [cap' Hr]. destruct (advance_spec _ _ _ Ha) as [_ Ha'].
  destruct (IH (advance s) cap' (buf ++ [c]) Ha' Hg') as (x & s' & Hf & Hm & Ho & Hx & _).
  exists x, s'. split_and!; [by unfold ybind; rewrite Hr|done..|]. intros _.
  pose proof (mv_len _ _ Hm). rewrite Ha' in *. simpl. lia.
Qed.

Lemma separator_ok s fo cap buf : granted s = [] ->
  exists r, yaml_append_separator fo cap buf s = Done (r, s).
Proof.
  intros Hg. unfold yaml_append_separator. case_match; [by eexists|]. unfold ybind.
  destruct (append_ok s cap buf (if fo then 32 else 10) Hg) as [cap' ->]. by eexists.
Qed.

Lemma tab_in_text s c a : aft s = c :: a -> (9 ∉ text_of s) -> c <> 9.
Proof. intros Ha Hn ->. apply Hn. unfold text_of. rewrite Ha. apply elem_of_app. right. by left. Qed.

(** The line of a block scalar makes progress unless it starts with a tab. *)
Definition line_post (s : yctx) (r : block_step) (s' : yctx) : Prop :=
  good s s' /\ r <> BLost /\
  forall b, r = BGo b -> (9 ∉ text_of s) -> (length (aft s') < length (aft s))%nat.

Lemma skip_eol_progress s : is_nl (peek s) = true -> at_end s = false -> (length (aft (yaml_skip_eol s)) < length (aft s))%nat.
Proof.
  unfold peek, at_end. destruct (aft s) as [|c a] eqn:Ha; [done|]. intros Hc _.
  destruct (advance_spec s c a Ha) as [_ Ha'].
  unfold is_nl in Hc. apply orb_true_iff in Hc as [->%Z.eqb_eq | ->%Z.eqb_eq]; unfold yaml_skip_eol, at_end, peek;
    rewrite Ha; simpl.
  - rewrite Ha. simpl. rewrite Ha'. lia.
  - pose proof (mv_len _ _ (advance_moves (advance s))). rewrite Ha' in *.
    case_match; rewrite ?Ha'; simpl; lia.
Qed.

Lemma block_line_ok G fo b s : granted s = [] -> safe G (yaml_read_block_line fo b) s (line_post s).
Proof.
  intros Hg. unfold yaml_read_block_line.
  apply safe_bind, safe_get, safe_bind, safe_put, safe_bind, safe_get, safe_bind, safe_get.
  set (s1 := advance_while (fun c => c =? 32) s).
  assert (Hs1 : good s s1).
  { split; [apply advance_while_moves|]. apply advance_while_off. by intros c ->%Z.eqb_eq. }
  assert (Hg1 : granted s1 = []) by (by rewrite (mv_granted _ _ (proj1 Hs1))).
  pose proof (mv_len _ _ (proj1 Hs1)) as Hl1.
  destruct (at_end s1) eqn:He; [by apply safe_ret; split_and!|].
  apply safe_bind, safe_get. destruct (is_nl (peek s1)) eqn:Hnl.
  - apply safe_bind, safe_put, safe_bind.
    assert (Hg2 : granted (yaml_skip_eol s1) = []) by (by rewrite (mv_granted _ _ (proj1 (skip_eol_good s1)))).
    destruct (append_ok _ (blk_cap b) (blk_buf b) 10 Hg2) as [cap' Hr]. eapply safe_done; [exact Hr|].
    apply safe_ret. split_and!; [by eapply good_trans; [|apply skip_eol_good]|done|].
    intros _ _ _. pose proof (skip_eol_progress s1 Hnl He). lia.
  - destruct (is_ws (peek s1)) eqn:Hws.
    { apply safe_ret. split_and!; [done..|]. intros _ _ Hno. exfalso.
      destruct (advance_while_spec (fun c => c =? 32) s) as (p & Ha & _ & _ & Hd). fold s1 in Ha, Hd.
      unfold peek, at_end in *. destruct (aft s1) as [|c a] eqn:Ha1; [done|].
      assert (c <> 9) by (apply (tab_in_text s1 c a Ha1); by rewrite (mv_text _ _ (proj1 Hs1))).
      unfold is_ws in Hws. rewrite Hd in Hws. simpl in Hws. by apply Z.eqb_eq in Hws. }
    set (b' := if (block_indent b <? 0) && (first_line_indent b <? 0) then _ else b).
    case_match; [by apply safe_ret; split_and!|]. apply safe_bind.
    assert (Hsep : exists r, (if has_content b' then yaml_append_separator fo (blk_cap b') (blk_buf b')
                      else yret (blk_cap b', blk_buf b')) s1 = Done (r, s1)).
    { case_match; [by apply separator_ok|by eexists]. }
    destruct Hsep as [r Hsep]. eapply safe_done; [exact Hsep|]. apply safe_bind, safe_get, safe_bind.
    destruct (block_text_ok (aft s1) s1 (fst r) (snd r) eq_refl Hg1) as (x & s2 & Hf & Hm & Ho & [[cap buf] ->] & Hp).
    eapply safe_done; [exact Hf|]. apply safe_bind, safe_put, safe_ret. split_and!; [|done|].
    + eapply good_trans; [exact Hs1|]. eapply good_trans, skip_eol_good. by split.
    + intros _ _ _. pose proof (mv_len _ _ (proj1 (skip_eol_good s2))). unfold peek, at_end in *.
      destruct (aft s1) as [|c a] eqn:Ha1; [done|]. specialize (Hp Hnl). simpl in *. lia.
Qed.

Lemma block_lines_ok fuel fo b s :
  granted s = [] ->
  safe ((9 ∉ text_of s) /\ (length (aft s) <= fuel)%nat) (yaml_read_block_lines fuel fo b) s
    (fun r s' => good s s' /\ is_Some r).
Proof.
  revert b s. induction fuel as [|fuel IH]; intros b s Hg; simpl; apply safe_bind, safe_get.
  - destruct (at_end s) eqn:He; [apply safe_ret; split; [apply good_refl|by eexists]|].
    unfold safe. intros [_ Hl]. unfold at_end in He. by destruct (aft s); simpl in Hl; [|lia].
  - destruct (at_end s) eqn:He; [apply safe_ret; split; [apply good_refl|by eexists]|].
    apply safe_bind. eapply safe_mono; [apply (block_line_ok ((9 ∉ text_of s) /\ (length (aft s) <= S fuel)%nat) fo b s Hg)|tauto|].
    intros r s' (Hgd & Hnl & Hp). destruct r as [b'|b'|]; [|apply safe_ret; split; [done|by eexists]|done].
    assert (Hg' : granted s' = []) by (by rewrite (mv_granted _ _ (proj1 Hgd))).
    eapply safe_mono; [apply (IH b' s' Hg')| |].
    + intros [Hn Hl]. rewrite (mv_text _ _ (proj1 Hgd)). split; [done|]. specialize (Hp b' eq_refl Hn). lia.
    + intros r s2 [H1 H2]. split; [|done]. by eapply good_trans.
Qed.

(** ** The arena *)

(** The children of node [p] are younger nodes of an arena of [len] nodes. *)
Definition child_ok (p len : nat) (v : option nat) : Prop := forall q, v = Some q -> (p < q < len)%nat.

(** A mapping of [count] entries in an array of [cap] slots: the slots after
    the entries are free, and there is at least one. *)
Definition array_ok (p len count cap : nat) (m : list (option cstr * option nat)) : Prop :=
  exists used, m = used ++ replicate (cap - count) free_slot /\ length used = count /\ (count < cap)%nat /\
    Forall (fun e => is_Some (fst e) /\ child_ok p len (snd e)) used.

Definition content_ok (p len : nat) (c : yaml_content) : Prop :=
  match c with
  | YNone | YScalar _ _ => True
  | YMapping om => exists m count cap, om = Some m /\ array_ok p len count cap m
  | YSequence ol => exists l, ol = Some l /\ Forall (child_ok p len) l
  end.

Definition arena_ok (ns : list yaml_node) : Prop :=
  forall p n, ns !! p = Some n -> content_ok p (length ns) (content n).

Record inv (s : yctx) : Prop := Inv {
  i_granted : granted s = [];
  i_off : off_word (bef s) (aft s);
  i_arena : arena_ok (all_nodes s);
  i_anchors : Forall (fun e => (snd e < length (all_nodes s))%nat) (anchors s);
}.

(** From [s] to [s'] the nodes below [n0] are as they were. *)
Record ext (n0 : nat) (s s' : yctx) : Prop := Ext {
  e_inv : inv s';
  e_nodes : forall q, (q < n0)%nat -> all_nodes s' !! q = all_nodes s !! q;
  e_more : (length (all_nodes s) <= length (all_nodes s'))%nat;
  e_text : text_of s' = text_of s;
  e_len : (length (aft s') <= length (aft s))%nat;
}.

Lemma yext_refl n0 s : inv s -> ext n0 s s.
Proof. intros. by split. Qed.

Lemma yext_trans n0 s1 s2 s3 : ext n0 s1 s2 -> ext n0 s2 s3 -> ext n0 s1 s3.
Proof. intros [] []. split; [done| |lia|congruence|lia]. intros q Hq. rewrite e_nodes1, e_nodes0 by done. done. Qed.

Lemma ext_le n0 n1 s s' : (n0 <= n1)%nat -> ext n1 s s' -> ext n0 s s'.
Proof. intros Hl []. split; try done. intros q Hq. apply e_nodes0. lia. Qed.

Lemma ext_good n0 s s' : inv s -> good s s' -> ext n0 s s'.
Proof.
  intros [Hg Ho Ha Hn] [[? Hnd Han ? ?] Hw]. split; try done; rewrite ?Hnd; try done.
  split; [congruence|by apply Hw|by rewrite Hnd|by rewrite Han, Hnd].
Qed.

Lemma child_mono p len len' v : (len <= len')%nat -> child_ok p len v -> child_ok p len' v.
Proof. intros Hl H q Hq. specialize (H q Hq). lia. Qed.

Lemma array_mono p len len' count cap m : (len <= len')%nat -> array_ok p len count cap m -> array_ok p len' count cap m.
Proof.
  intros Hl (used & -> & Hc & Hlt & Hu). exists used. split_and!; [done..|].
  eapply Forall_impl; [exact Hu|]. intros e [? ?]. eauto using child_mono.
Qed.

Lemma content_mono p len len' c : (len <= len')%nat -> content_ok p len c -> content_ok p len' c.
Proof.
  intros Hl. destruct c as [| |om|ol]; simpl; [done..| |].
  - intros (m & count & cap & -> & Hm). exists m, count, cap. eauto using array_mono.
  - intros (l & -> & Hf). exists l. split; [done|]. eapply Forall_impl; [exact Hf|]. eauto using child_mono.
Qed.

(** The walk over a mapping ends at its count. *)
Lemma array_size p len count cap m : array_ok p len count cap m -> mapping_size m = Some count.
Proof.
  intros (used & -> & <- & Hlt & Hu). clear -Hlt Hu.
  destruct (cap - length used)%nat as [|r] eqn:E; [lia|]. clear E Hlt.
  induction Hu as [|[k v] used [[k' Hk] _] Hu IH]; simpl in *; [done|]. subst. by rewrite IH.
Qed.

Lemma array_length p len count cap m : array_ok p len count cap m -> length m = cap /\ (count < cap)%nat.
Proof. intros (used & -> & <- & Hlt & _). rewrite length_app, length_replicate. lia. Qed.

(** ** Changes of the arena *)

Definition with_nodes (s s' : yctx) (ns : list yaml_node) : Prop :=
  bef s' = bef s /\ aft s' = aft s /\ granted s' = granted s /\ anchors s' = anchors s /\ all_nodes s' = ns.

Lemma ext_with_nodes n0 s s' ns :
  inv s -> with_nodes s s' ns -> arena_ok ns -> (length (all_nodes s) <= length ns)%nat ->
  (forall q, (q < n0)%nat -> ns !! q = all_nodes s !! q) -> ext n0 s s'.
Proof.
  intros [Hg Ho Ha Hn] (Hb & Hf & Hgr & Han & Hns) Harena Hl Hq.
  split; rewrite ?Hns; try done.
  - split; [congruence|by rewrite Hb, Hf|by rewrite Hns|]. rewrite Han, Hns.
    eapply Forall_impl; [exact Hn|]. simpl. lia.
  - unfold text_of. by rewrite Hb, Hf.
  - by rewrite Hf.
Qed.

Lemma alloc_ok s c : granted s = [] ->
  exists s', alloc_node c s = Done (Some (length (all_nodes s)), s') /\
    with_nodes s s' (all_nodes s ++ [Node c None None]).
Proof.
  intros Hg. unfold alloc_node, ybind, yget, yput.
  assert (Hroom : exists cap', (if node_capacity s <=? Z.of_nat (length (all_nodes s)) then
      fun s => match ygrant s with
        | Done (ok, s') => yret (if ok then Some (if node_capacity s' * 2 =? 0 then INITIAL_NODE_CAPACITY else node_capacity s' * 2) else None) s'
        | NoFuel => NoFuel | Undefined => Undefined end
      else yret (Some (node_capacity s))) s = Done (Some cap', s)).
  { case_match; [rewrite grant_ok by done|]; by eexists. }
  case_match; [rewrite grant_ok by done|]; simpl;
    rewrite grant_ok by done; eexists; (split; [reflexivity|]); done.
Qed.

Lemma arena_app ns c a t : arena_ok ns -> content_ok (length ns) (S (length ns)) c -> arena_ok (ns ++ [Node c a t]).
Proof.
  intros Ha Hc p n Hp. rewrite length_app. simpl. rewrite Nat.add_1_r.
  apply lookup_app_Some in Hp as [Hp|[Hl Hp]].
  - eapply content_mono, Ha, Hp. lia.
  - apply list_lookup_singleton_Some in Hp as [E <-]. assert (p = length ns) as -> by lia. done.
Qed.

Lemma arena_insert ns p n c a t :
  arena_ok ns -> ns !! p = Some n -> content_ok p (length ns) c -> arena_ok (<[p := Node c a t]> ns).
Proof.
  intros Ha Hp Hc q m Hq. rewrite length_insert. destruct (decide (p = q)) as [->|Hne].
  - rewrite list_lookup_insert_eq in Hq by (by eapply lookup_lt_Some). simplify_eq. done.
  - rewrite list_lookup_insert_ne in Hq by done. by apply Ha.
Qed.

Lemma upd_ok s p n f : all_nodes s !! p = Some n ->
  exists s', upd_node p f s = Done (tt, s') /\ with_nodes s s' (<[p := f n]> (all_nodes s)).
Proof. intros Hp. unfold upd_node. rewrite Hp. by eexists. Qed.
