(* ===== verification/YamlTotal.v ===== *)
(** * The YAML parsers are safe on every text, and return on tame texts

    Every function that builds the tree keeps the invariant of the arena, and
    leaves the nodes that are older than its own as they were; each loop of the
    parsers consumes bytes unless the text has a dash that is glued to a key or
    to a carriage return, or a tab. *)
From S2P Require Import Prelude CLib Yaml YamlSafe.

(** ** Nodes under construction *)

Definition is_seq (s : yctx) (q : nat) : Prop :=
  exists n l, all_nodes s !! q = Some n /\ content n = YSequence (Some l).

Definition is_map (s : yctx) (q count cap : nat) : Prop :=
  exists n m, all_nodes s !! q = Some n /\ content n = YMapping (Some m) /\
    length m = cap /\ mapping_size m = Some count.

(** A new node, among those that the caller does not have. *)
Definition fresh (n0 : nat) (s : yctx) (r : option nat) : Prop :=
  forall q, r = Some q -> (n0 <= q < length (all_nodes s))%nat.

Lemma fresh_ext n0 n1 s s' r : ext n1 s s' -> fresh n0 s r -> fresh n0 s' r.
Proof. intros H Hf q Hq. specialize (Hf q Hq). pose proof (e_more _ _ _ H). lia. Qed.

Lemma ext_is_seq n0 s s' q : ext n0 s s' -> (q < n0)%nat -> is_seq s q -> is_seq s' q.
Proof. intros H Hq (n & l & Hn & Hc). exists n, l. split; [|done]. by rewrite (e_nodes _ _ _ H). Qed.

Lemma ext_is_map n0 s s' q count cap : ext n0 s s' -> (q < n0)%nat -> is_map s q count cap -> is_map s' q count cap.
Proof. intros H Hq (n & m & Hn & Hc). exists n, m. split; [|done]. by rewrite (e_nodes _ _ _ H). Qed.

Lemma is_seq_lt s q : is_seq s q -> (q < length (all_nodes s))%nat.
Proof. intros (n & l & Hn & _). by eapply lookup_lt_Some. Qed.

Lemma is_map_lt s q count cap : is_map s q count cap -> (q < length (all_nodes s))%nat.
Proof. intros (n & m & Hn & _). by eapply lookup_lt_Some. Qed.

(** What the invariant says of a mapping and of a sequence. *)
Lemma inv_map s q n m : inv s -> all_nodes s !! q = Some n -> content n = YMapping (Some m) ->
  exists count, is_map s q count (length m) /\ array_ok q (length (all_nodes s)) count (length m) m.
Proof.
  intros Hi Hn Hc. pose proof (i_arena _ Hi q n Hn) as H. rewrite Hc in H.
  destruct H as (m' & count & cap & [= <-] & Ha). destruct (array_length _ _ _ _ _ Ha) as [<- _].
  exists count. split; [|done]. exists n, m. split_and!; [done..|]. by eapply array_size.
Qed.

Lemma is_map_array s q count cap n m : inv s -> is_map s q count cap -> all_nodes s !! q = Some n ->
  content n = YMapping (Some m) -> array_ok q (length (all_nodes s)) count cap m.
Proof.
  intros Hi (n' & m' & Hn' & Hc' & Hl & Hsz) Hn Hc.
  assert (n' = n) by congruence. subst n'. assert (m' = m) by congruence. subst m' cap.
  destruct (inv_map s q n m Hi Hn Hc) as (count' & _ & Ha). pose proof (array_size _ _ _ _ _ Ha). by simplify_eq.
Qed.

Lemma inv_seq s q n l : inv s -> all_nodes s !! q = Some n -> content n = YSequence (Some l) ->
  Forall (child_ok q (length (all_nodes s))) l.
Proof.
  intros Hi Hn Hc. pose proof (i_arena _ Hi q n Hn) as H. rewrite Hc in H. by destruct H as (l' & [= <-] & Hl).
Qed.

(** ** Steps on single nodes *)

Lemma node_at_safe {G p s n} (Q : yaml_node -> yctx -> Prop) :
  all_nodes s !! p = Some n -> Q n s -> safe G (node_at p) s Q.
Proof. intros Hp HQ. unfold safe, node_at. by rewrite Hp. Qed.

Lemma grant_safe G s (Q : bool -> yctx -> Prop) : granted s = [] -> Q true s -> safe G ygrant s Q.
Proof. intros Hg HQ. eapply safe_done; [by apply grant_ok|done]. Qed.

Lemma strdup_safe G s v (Q : option cstr -> yctx -> Prop) : granted s = [] -> Q (Some v) s -> safe G (ystrdup v) s Q.
Proof. intros Hg HQ. eapply safe_done; [by apply strdup_ok|done]. Qed.

Lemma with_nodes_trans s1 s2 s3 ns ns' : with_nodes s1 s2 ns -> with_nodes s2 s3 ns' -> with_nodes s1 s3 ns'.
Proof. intros (?&?&?&?&?) (?&?&?&?&?). repeat split; congruence. Qed.

Lemma insert_end {A} (l : list A) x y : <[length l := y]> (l ++ [x]) = l ++ [y].
Proof. rewrite insert_app_r_alt by lia. by rewrite Nat.sub_diag. Qed.

(** An update of one node of at least [n0]. *)
Lemma upd_safe G n0 p n f s (Q : unit -> yctx -> Prop) :
  inv s -> all_nodes s !! p = Some n -> (n0 <= p)%nat ->
  content_ok p (length (all_nodes s)) (content (f n)) ->
  (forall s', ext n0 s s' -> all_nodes s' = <[p := f n]> (all_nodes s) -> aft s' = aft s -> Q tt s') ->
  safe G (upd_node p f) s Q.
Proof.
  intros Hi Hp Hn0 Hc HQ. destruct (upd_ok s p n f Hp) as (s' & Hu & Hw). eapply safe_done; [exact Hu|].
  apply HQ; [|apply Hw..]. eapply ext_with_nodes; [done|exact Hw| |by rewrite length_insert|].
  - destruct (f n) as [c a t]. eapply arena_insert; [apply Hi|done|done].
  - intros q Hq. rewrite list_lookup_insert_ne; [done|lia].
Qed.

(** The same content with another anchor or tag. *)
Lemma label_safe G n0 p f s (Q : unit -> yctx -> Prop) :
  inv s -> (n0 <= p < length (all_nodes s))%nat -> (forall n, content (f n) = content n) ->
  (forall s', ext n0 s s' -> Q tt s') -> safe G (upd_node p f) s Q.
Proof.
  intros Hi [Hp0 Hp] Hf HQ. destruct (lookup_lt_is_Some_2 _ _ Hp) as [n Hn].
  eapply upd_safe; [done|exact Hn|done| |]; [|by intros; apply HQ].
  rewrite Hf. by apply (i_arena _ Hi).
Qed.

Lemma alloc_safe G c s (Q : option nat -> yctx -> Prop) :
  inv s -> content_ok (length (all_nodes s)) (S (length (all_nodes s))) c ->
  (forall s', ext (length (all_nodes s)) s s' -> fresh (length (all_nodes s)) s' (Some (length (all_nodes s))) ->
     all_nodes s' = all_nodes s ++ [Node c None None] ->
     Q (Some (length (all_nodes s))) s') -> safe G (alloc_node c) s Q.
Proof.
  intros Hi Hc HQ. destruct (alloc_ok s c (i_granted _ Hi)) as (s' & Ha & Hw).
  eapply safe_done; [exact Ha|]. destruct (Hw) as (_ & _ & _ & _ & Hns). apply HQ; [| |done].
  - eapply ext_with_nodes; [done|exact Hw|by apply arena_app; [apply Hi|]|rewrite length_app; simpl; lia|].
    intros q Hq. by rewrite lookup_app_l.
  - intros q [= <-]. rewrite Hns, length_app. simpl. lia.
Qed.

(** A container is allocated and then given its array. *)
Lemma alloc_bind {B} G c (k : option nat -> Y B) s (Q : B -> yctx -> Prop) :
  inv s ->
  (forall s', with_nodes s s' (all_nodes s ++ [Node c None None]) -> safe G (k (Some (length (all_nodes s)))) s' Q) ->
  safe G (ybind (alloc_node c) k) s Q.
Proof.
  intros Hi HQ. destruct (alloc_ok s c (i_granted _ Hi)) as (s' & Ha & Hw). apply safe_bind.
  eapply safe_done; [exact Ha|]. by apply HQ.
Qed.

Lemma upd_last G s s1 n f (Q : unit -> yctx -> Prop) :
  with_nodes s s1 (all_nodes s ++ [n]) ->
  (forall s2, with_nodes s s2 (all_nodes s ++ [f n]) -> Q tt s2) ->
  safe G (upd_node (length (all_nodes s)) f) s1 Q.
Proof.
  intros Hw HQ. destruct (Hw) as (_ & _ & _ & _ & Hns).
  destruct (upd_ok s1 (length (all_nodes s)) n f) as (s2 & Hu & Hw2).
  { by rewrite Hns, list_lookup_middle. }
  eapply safe_done; [exact Hu|]. apply HQ. rewrite Hns, insert_end in Hw2. by eapply with_nodes_trans.
Qed.

Lemma ext_app s s' n :
  inv s -> with_nodes s s' (all_nodes s ++ [n]) ->
  content_ok (length (all_nodes s)) (S (length (all_nodes s))) (content n) -> ext (length (all_nodes s)) s s'.
Proof.
  intros Hi Hw Hc. destruct n as [c a t].
  eapply ext_with_nodes; [done|exact Hw|by apply arena_app; [apply Hi|]|rewrite length_app; simpl; lia|].
  intros q Hq. by rewrite lookup_app_l.
Qed.

Lemma with_nodes_granted s s' ns : inv s -> with_nodes s s' ns -> granted s' = [].
Proof. intros Hi (_ & _ & Hg & _). by rewrite Hg, (i_granted _ Hi). Qed.

(** ** Anchors and labels *)

Lemma register_safe G n0 nm p s (Q : unit -> yctx -> Prop) :
  inv s -> (n0 <= p < length (all_nodes s))%nat -> (forall s', ext n0 s s' -> Q tt s') ->
  safe G (register_anchor nm p) s Q.
Proof.
  intros Hi Hp HQ. destruct nm as [nm|]; [|by apply safe_ret, HQ, yext_refl].
  unfold register_anchor. apply safe_bind, safe_get, safe_bind, safe_get, safe_bind.
  assert (Hg := i_granted _ Hi).
  assert (Hroom : forall cap, safe G (match Some cap with
      | None => yret tt
      | Some cap => let! a := ystrdup nm in upd_node p (set_anchor_name a) ;!
          let! b := ystrdup nm in yput (set_anchors (anchors s ++ [(b, p)]) cap)
      end) s Q).
  { intros cap. apply safe_bind, strdup_safe; [done|]. apply safe_bind.
    eapply label_safe; [done|exact Hp|done|]. intros s1 H1.
    apply safe_bind, strdup_safe; [apply H1|]. apply safe_put, HQ. destruct H1 as [[Hg1 Ho1 Ha1 Hn1] Hq Hm Ht Hl].
    split; try done. split; try done. simpl. apply Forall_app. split.
    - eapply Forall_impl; [apply (i_anchors _ Hi)|]. simpl. lia.
    - apply Forall_singleton. simpl. lia. }
  case_match; [apply safe_bind, grant_safe; [done|]|]; apply safe_ret, Hroom.
Qed.

Lemma apply_safe G n0 p r s (Q : option nat -> yctx -> Prop) :
  inv s -> fresh n0 s r -> (forall s', ext n0 s s' -> fresh n0 s' r -> Q r s') -> safe G (pv_apply p r) s Q.
Proof.
  intros Hi Hf HQ. destruct r as [q|]; [|by apply safe_ret, HQ; [apply yext_refl|]].
  apply safe_bind. eapply register_safe; [done|by apply Hf|]. intros s1 H1. apply safe_bind.
  assert (Hlast : forall s2, ext n0 s1 s2 -> safe G (yret (Some q)) s2 Q).
  { intros s2 H2. pose proof (yext_trans _ _ _ _ H1 H2) as H. by apply safe_ret, HQ; [|eapply fresh_ext]. }
  destruct (ptag p); [|by apply safe_ret, Hlast, yext_refl, H1].
  eapply label_safe; [apply H1| |done|apply Hlast]. by apply (fresh_ext _ _ _ _ _ H1 Hf).
Qed.

Lemma find_anchor_in l nm p : find_anchor l nm = Some p -> exists k, In (k, p) l.
Proof.
  induction l as [|[[k|] q] l IH]; simpl; [done| |]; [case_decide; [intros [= ->]; eauto|]|];
    intros (k' & Hk)%IH; eauto.
Qed.

Lemma lookup_anchor_safe G nm s (Q : option nat -> yctx -> Prop) :
  inv s -> (forall r, fresh 0 s r -> Q r s) -> safe G (lookup_anchor nm) s Q.
Proof.
  intros Hi HQ. destruct nm as [nm|]; [|apply safe_ret, HQ; by intros q [=]].
  apply safe_bind, safe_get, safe_ret, HQ. intros q Hq. split; [lia|].
  destruct (find_anchor_in _ _ _ Hq) as [k Hk]. pose proof (i_anchors _ Hi) as Hf. rewrite Forall_forall in Hf.
  by apply (Hf (k, q)), list_elem_of_In.
Qed.

Lemma empty_scalar_safe G n0 v s (Q : unit -> yctx -> Prop) :
  inv s -> fresh n0 s v -> (forall s', ext n0 s s' -> fresh n0 s' v -> Q tt s') -> safe G (empty_scalar v) s Q.
Proof.
  intros Hi Hf HQ. destruct v as [p|]; [|by apply safe_ret, HQ; [apply yext_refl|]]. simpl.
  destruct (Hf p eq_refl) as [Hp0 Hp]. destruct (lookup_lt_is_Some_2 _ _ Hp) as [n Hn].
  apply safe_bind. eapply node_at_safe; [exact Hn|].
  set (c := match content n with YNone => new_scalar | c => c end).
  assert (Hc : content_ok p (length (all_nodes s)) c).
  { pose proof (i_arena _ Hi p n Hn). unfold c. by destruct (content n). }
  apply safe_bind. eapply upd_safe; [done|exact Hn|exact Hp0|exact Hc|]. intros s1 H1 Hns _.
  assert (Hdone : forall s2, ext n0 s1 s2 -> Q tt s2).
  { intros s2 H2. pose proof (yext_trans _ _ _ _ H1 H2) as H. by apply HQ; [|eapply fresh_ext]. }
  destruct c as [|[v|] len| |]; try (by apply safe_ret, Hdone, yext_refl, H1).
  apply safe_bind, strdup_safe; [apply H1|].
  assert (Hn1 : all_nodes s1 !! p = Some (set_content (YScalar None len) n)).
  { rewrite Hns. by apply list_lookup_insert_eq. }
  eapply upd_safe; [apply H1|exact Hn1|exact Hp0|done|]. intros s2 H2 _ _. by apply Hdone.
Qed.

Lemma new_scalar_safe G s (Q : option nat -> yctx -> Prop) (n1 := length (all_nodes s)) :
  inv s -> (forall s', ext n1 s s' -> fresh n1 s' (Some n1) -> Q (Some n1) s') -> safe G (alloc_node new_scalar) s Q.
Proof. intros Hi HQ. apply alloc_safe; [done..|]. intros. by apply HQ. Qed.

(** A scalar node of a given text. *)
Lemma scalar_node_safe {B} G v len (k : nat -> Y B) (e : Y B) s (Q : B -> yctx -> Prop) (n1 := length (all_nodes s)) :
  inv s ->
  (forall s', ext n1 s s' -> fresh n1 s' (Some n1) -> safe G (k n1) s' Q) ->
  safe G (let! n := alloc_node new_scalar in
          match n with
          | None => e
          | Some q => upd_node q (set_content (YScalar v len)) ;! k q
          end) s Q.
Proof.
  intros Hi HQ. apply safe_bind, new_scalar_safe; [done|]. intros s1 H1 Hf1.
  destruct (lookup_lt_is_Some_2 (all_nodes s1) n1) as [n Hn]; [by apply Hf1|].
  apply safe_bind. eapply upd_safe; [apply H1|exact Hn|reflexivity|done|]. intros s2 H2 _ _.
  by apply HQ; [eapply yext_trans|eapply fresh_ext].
Qed.

(** ** Arrays *)

Lemma array_append p len count cap m k v :
  array_ok p len count cap m -> (S count < cap)%nat -> child_ok p len v ->
  array_ok p len (S count) cap (<[count := (Some k, v)]> m).
Proof.
  intros (used & -> & <- & Hlt & Hu) Hr Hv. destruct (cap - length used)%nat as [|r] eqn:E; [lia|].
  exists (used ++ [(Some k, v)]). rewrite insert_app_r_alt by lia. rewrite Nat.sub_diag. simpl.
  rewrite length_app. simpl. split_and!; [|lia..|].
  - rewrite <- app_assoc. simpl. do 3 f_equal. lia.
  - apply Forall_app. split; [done|]. apply Forall_singleton. split; [by eexists|done].
Qed.

Lemma array_overwrite p len count cap m i k v :
  array_ok p len count cap m -> (i < count)%nat -> child_ok p len v ->
  array_ok p len count cap (<[i := (Some k, v)]> m).
Proof.
  intros (used & -> & <- & Hlt & Hu) Hi Hv. exists (<[i := (Some k, v)]> used).
  rewrite insert_app_l by done. rewrite length_insert. split_and!; [done..|].
  apply Forall_insert; [done|]. split; [by eexists|done].
Qed.

Lemma array_grow p len count cap cap' m :
  array_ok p len count cap m -> (count < cap')%nat ->
  array_ok p len count cap' (take count m ++ replicate (cap' - count) free_slot).
Proof.
  intros (used & -> & <- & Hlt & Hu) Hl. exists used. rewrite take_app_length. done.
Qed.

Lemma array_empty p len cap : (0 < cap)%nat -> array_ok p len 0 cap (replicate cap free_slot).
Proof. intros H. exists []. simpl. rewrite Nat.sub_0_r. by split_and!. Qed.

Lemma array_entries p len count cap m : array_ok p len count cap m ->
  Forall (fun e => is_Some (fst e) /\ child_ok p len (snd e)) (take count m).
Proof. intros (used & -> & <- & _ & Hu). by rewrite take_app_length. Qed.

(** The mapping at [p] gets the array [m]. *)
Lemma set_mapping_nodes G n0 p n m count cap s (Q : unit -> yctx -> Prop) :
  inv s -> all_nodes s !! p = Some n -> (n0 <= p)%nat -> array_ok p (length (all_nodes s)) count cap m ->
  (forall s', ext n0 s s' -> is_map s' p count cap ->
     all_nodes s' = <[p := set_content (YMapping (Some m)) n]> (all_nodes s) -> Q tt s') ->
  safe G (set_mapping p (Some m)) s Q.
Proof.
  intros Hi Hn Hp Ha HQ. unfold set_mapping. eapply upd_safe; [done|exact Hn|exact Hp|by exists m, count, cap|].
  intros s' He Hns _. apply HQ; [done| |done].
  exists (set_content (YMapping (Some m)) n), m. split_and!; [|done| |].
  - rewrite Hns. apply list_lookup_insert_eq. by eapply lookup_lt_Some.
  - by destruct (array_length _ _ _ _ _ Ha).
  - by eapply array_size.
Qed.

Lemma set_mapping_safe G n0 p n m count cap s (Q : unit -> yctx -> Prop) :
  inv s -> all_nodes s !! p = Some n -> (n0 <= p)%nat -> array_ok p (length (all_nodes s)) count cap m ->
  (forall s', ext n0 s s' -> is_map s' p count cap ->
     all_nodes s' !! p = Some (set_content (YMapping (Some m)) n) ->
     length (all_nodes s') = length (all_nodes s) -> Q tt s') ->
  safe G (set_mapping p (Some m)) s Q.
Proof.
  intros Hi Hn Hp Ha HQ. eapply set_mapping_nodes; [done..|]. intros s' He Hm Hns. apply HQ; [done..| |].
  - rewrite Hns. apply list_lookup_insert_eq. by eapply lookup_lt_Some.
  - by rewrite Hns, length_insert.
Qed.

Lemma put_entry_safe G n0 p i k v count count' cap s (Q : unit -> yctx -> Prop) :
  inv s -> is_map s p count cap -> (n0 <= p)%nat -> (i < cap)%nat ->
  (forall m, array_ok p (length (all_nodes s)) count cap m ->
     array_ok p (length (all_nodes s)) count' cap (<[i := (k, v)]> m)) ->
  (forall s', ext n0 s s' -> is_map s' p count' cap -> length (all_nodes s') = length (all_nodes s) -> Q tt s') ->
  safe G (put_entry p i k v) s Q.
Proof.
  intros Hi Hm Hp Hic Ha HQ. destruct (Hm) as (n & m & Hn & Hc & Hl & Hsz).
  pose proof (is_map_array s p count cap n m Hi Hm Hn Hc) as Harr.
  unfold put_entry, mapping_of. apply safe_bind, safe_bind. eapply node_at_safe; [exact Hn|]. rewrite Hc.
  apply safe_ret, safe_bind. unfold put_slot. rewrite Hl. apply Nat.ltb_lt in Hic as ->. apply safe_ret.
  eapply set_mapping_safe; [done|exact Hn|exact Hp|by apply Ha|]. intros. by apply HQ.
Qed.

Lemma put_item_safe G n0 p i v l n s (Q : unit -> yctx -> Prop) :
  inv s -> all_nodes s !! p = Some n -> content n = YSequence (Some l) -> (n0 <= p)%nat -> (i < length l)%nat ->
  child_ok p (length (all_nodes s)) v ->
  (forall s', ext n0 s s' -> all_nodes s' !! p = Some (set_content (YSequence (Some (<[i := v]> l))) n) ->
     length (all_nodes s') = length (all_nodes s) -> Q tt s') ->
  safe G (put_item p i v) s Q.
Proof.
  intros Hi Hn Hc Hp Hil Hv HQ. unfold put_item. apply safe_bind. eapply node_at_safe; [exact Hn|]. rewrite Hc.
  apply safe_bind. unfold put_slot. apply Nat.ltb_lt in Hil as Hb. rewrite Hb. apply safe_ret.
  eapply upd_safe; [done|exact Hn|exact Hp| |].
  - eexists. split; [done|]. apply Forall_insert; [by eapply inv_seq|done].
  - intros s' He Hns _. apply HQ; [done|rewrite Hns; apply list_lookup_insert_eq; by eapply lookup_lt_Some|].
    by rewrite Hns, length_insert.
Qed.

Lemma seq_push_safe G q cap item s (Q : option nat -> yctx -> Prop) :
  inv s -> is_seq s q -> fresh (S q) s item ->
  (forall c s', ext q s s' -> is_seq s' q -> aft s' = aft s -> Q (Some c) s') ->
  safe G (seq_push q cap item) s Q.
Proof.
  intros Hi (n & l & Hn & Hc) Hf HQ. unfold seq_push. apply safe_bind. eapply node_at_safe; [exact Hn|]. rewrite Hc.
  apply safe_bind.
  assert (Hput : forall c, safe G (upd_node q (set_content (YSequence (Some (l ++ [item])))) ;! yret (Some c)) s Q).
  { intros c. apply safe_bind. eapply upd_safe; [done|exact Hn|reflexivity| |].
    - eexists. split; [done|]. apply Forall_app. split; [by eapply inv_seq|]. apply Forall_singleton.
      intros p Hp. specialize (Hf p Hp). lia.
    - intros s' He Hns Ha. apply safe_ret, HQ; [done| |done]. eexists _, _. rewrite Hns.
      split; [apply list_lookup_insert_eq; by eapply lookup_lt_Some|done]. }
  case_match; [apply safe_bind, grant_safe; [apply Hi|]|]; apply safe_ret, Hput.
Qed.

Lemma append_safe G p count cap k v s (Q : option (nat * nat) -> yctx -> Prop) :
  inv s -> is_map s p count cap -> fresh (S p) s v ->
  (forall cap' s', ext p s s' -> is_map s' p (S count) cap' -> Q (Some (S count, cap')) s') ->
  safe G (yaml_mapping_append p count cap k v) s Q.
Proof.
  intros Hi Hm Hf HQ. destruct (Hm) as (n & m & Hn & Hc & Hl & Hsz).
  pose proof (is_map_array s p count cap n m Hi Hm Hn Hc) as Harr.
  destruct (array_length _ _ _ _ _ Harr) as [_ Hlt].
  unfold yaml_mapping_append, mapping_of. apply safe_bind, safe_bind. eapply node_at_safe; [exact Hn|]. rewrite Hc.
  apply safe_ret, safe_bind.
  assert (Hput : forall m1 cap1 n1 s1, ext p s s1 -> all_nodes s1 !! p = Some n1 ->
    array_ok p (length (all_nodes s1)) count cap1 m1 -> (S count < cap1)%nat ->
    safe G (match Some (m1, cap1) with
      | None => yret None
      | Some (m, cap) => let! m := put_slot m count (Some k, v) in
          set_mapping p (Some m) ;! yret (Some (S count, cap)) end) s1 Q).
  { intros m1 cap1 n1 s1 H1 Hn1 Ha1 Hr. apply safe_bind. unfold put_slot.
    destruct (array_length _ _ _ _ _ Ha1) as [-> _]. destruct (Nat.ltb_spec count cap1); [|lia].
    apply safe_ret, safe_bind. eapply set_mapping_safe; [apply H1|exact Hn1|reflexivity| |].
    - apply array_append; [done..|]. intros q Hq. pose proof (fresh_ext _ _ _ _ _ H1 Hf q Hq). lia.
    - intros s2 H2 Hm2 _ _. apply safe_ret, HQ; [by eapply yext_trans|done]. }
  case_match eqn:E.
  - apply safe_bind. unfold yaml_mapping_grow. apply safe_bind, grant_safe; [apply Hi|]. apply safe_ret, safe_bind.
    eapply set_mapping_safe; [done|exact Hn|reflexivity|apply (array_grow _ _ _ _ (cap * 2) _ Harr); lia|].
    intros s1 H1 _ Hn1 Hl1. apply safe_ret. eapply Hput; [done|exact Hn1| |lia].
    rewrite Hl1. apply (array_grow _ _ _ _ (cap * 2) _ Harr). lia.
  - apply safe_ret. apply Nat.leb_gt in E. eapply Hput; [by apply yext_refl|exact Hn|done|lia].
Qed.

(** ** Deep copies *)

(** The first [n0] nodes are an arena of their own. *)
Definition closed (n0 : nat) (s : yctx) : Prop :=
  (n0 <= length (all_nodes s))%nat /\ arena_ok (take n0 (all_nodes s)).

Lemma closed_ext n0 n1 s s' : closed n0 s -> ext n1 s s' -> (n0 <= n1)%nat -> closed n0 s'.
Proof.
  intros [Hl Ha] He Hn. split; [pose proof (e_more _ _ _ He); lia|].
  replace (take n0 (all_nodes s')) with (take n0 (all_nodes s)); [done|].
  apply list_eq. intros i. destruct (decide (i < n0)%nat).
  - rewrite !lookup_take_lt by done. symmetry. apply (e_nodes _ _ _ He). lia.
  - by rewrite !lookup_take_ge by lia.
Qed.

Lemma closed_all s : inv s -> closed (length (all_nodes s)) s.
Proof. intros Hi. split; [done|]. rewrite take_ge by done. apply Hi. Qed.

Lemma closed_content n0 s p n : closed n0 s -> (p < n0)%nat -> all_nodes s !! p = Some n -> content_ok p n0 (content n).
Proof.
  intros [Hl Ha] Hp Hn. replace n0 with (length (take n0 (all_nodes s))) by (rewrite length_take; lia).
  apply Ha. by rewrite lookup_take_lt.
Qed.

Definition copies (n0 fuel : nat) (v : option nat) : Prop := forall p, v = Some p -> (p < n0 /\ n0 - p <= fuel)%nat.

(** The copy of a child, within the copy of its parent. *)
Definition copy_spec (G : Prop) (n0 fuel : nat) : Prop :=
  forall v s (Q : option nat -> yctx -> Prop), inv s -> closed n0 s -> copies n0 fuel v ->
    (forall r s', ext (length (all_nodes s)) s s' -> fresh (length (all_nodes s)) s' r -> Q r s') ->
    safe G (deep_copy_node fuel v) s Q.

Definition copy_entries (fuel q : nat) : list (option cstr * option nat) -> nat -> Y unit :=
  fix copy_entries l i :=
    match l with
    | [] => yret tt
    | (k, v) :: l' =>
        let! k' := strdup_opt k in
        put_entry q i k' None ;!
        let! v' := deep_copy_node fuel v in
        put_entry q i k' v' ;!
        copy_entries l' (S i)
    end.

Definition copy_items (fuel q : nat) : list (option nat) -> nat -> Y unit :=
  fix copy_items l i :=
    match l with
    | [] => yret tt
    | v :: l' => let! v' := deep_copy_node fuel v in put_item q i v' ;! copy_items l' (S i)
    end.

Lemma copy_entries_safe G n0 fuel q cap l i s (Q : unit -> yctx -> Prop) :
  copy_spec G n0 fuel -> inv s -> closed n0 s -> (n0 <= q)%nat -> is_map s q i cap -> (i + length l < cap)%nat ->
  Forall (fun e => is_Some (fst e) /\ copies n0 fuel (snd e)) l ->
  (forall s', ext q s s' -> Q tt s') -> safe G (copy_entries fuel q l i) s Q.
Proof.
  intros Hspec. revert i s Q. induction l as [|[k v] l IH]; intros i s Q Hi Hcl Hq Hm Hlen Hl HQ;
    [by apply safe_ret, HQ, yext_refl|].
  apply Forall_cons in Hl as [[[k' Hk] Hv] Hl]. simpl in *. subst k.
  apply safe_bind, strdup_safe; [apply Hi|]. apply safe_bind.
  eapply put_entry_safe; [done|exact Hm|reflexivity|lia| |].
  { intros m Ha. apply array_append; [done|lia|by intros ? [=]]. }
  intros s1 H1 Hm1 _. pose proof (closed_ext _ _ _ _ Hcl H1 Hq) as Hcl1. apply safe_bind, Hspec; [apply H1|done..|].
  intros r s2 H2 Hf2. pose proof (is_map_lt _ _ _ _ Hm1) as Hlt. apply safe_bind.
  eapply put_entry_safe; [apply H2|by eapply ext_is_map|reflexivity|lia| |].
  { intros m Ha. apply array_overwrite; [done|lia|]. intros p Hp. specialize (Hf2 p Hp). lia. }
  intros s3 H3 Hm3 _. assert (H12 : ext q s1 s2) by (eapply ext_le, H2; lia).
  eapply IH; [apply H3|eauto using closed_ext|done|done|lia|done|]. intros s4 H4. apply HQ. eauto using yext_trans.
Qed.

Lemma copy_items_safe G n0 fuel q n items l i s (Q : unit -> yctx -> Prop) :
  copy_spec G n0 fuel -> inv s -> closed n0 s -> (n0 <= q)%nat ->
  all_nodes s !! q = Some n -> content n = YSequence (Some items) -> (i + length l <= length items)%nat ->
  Forall (copies n0 fuel) l ->
  (forall s', ext q s s' -> Q tt s') -> safe G (copy_items fuel q l i) s Q.
Proof.
  intros Hspec. revert i n items s Q.
  induction l as [|v l IH]; intros i n items s Q Hi Hcl Hq Hn Hc Hlen Hl HQ; [by apply safe_ret, HQ, yext_refl|].
  apply Forall_cons in Hl as [Hv Hl]. simpl in *. apply safe_bind, Hspec; [done..|]. intros r s1 H1 Hf1.
  pose proof (lookup_lt_Some _ _ _ Hn) as Hlt. apply safe_bind.
  eapply put_item_safe; [apply H1|by rewrite (e_nodes _ _ _ H1)|exact Hc|reflexivity|lia| |].
  { intros p Hp. specialize (Hf1 p Hp). lia. }
  intros s2 H2 Hn2 _. assert (H01 : ext q s s1) by (eapply ext_le, H1; lia).
  eapply IH; [apply H2|eauto using closed_ext|done|exact Hn2|done|rewrite length_insert; lia|done|].
  intros s3 H3. apply HQ. eauto using yext_trans.
Qed.

Lemma copies_children p n0 fuel v : child_ok p n0 v -> (n0 - p <= S fuel)%nat -> copies n0 fuel v.
Proof. intros H Hp q Hq. specialize (H q Hq). lia. Qed.

(** The label of the copy goes to the node that was just allocated. *)
Lemma label_last G s s1 c a t (Q : unit -> yctx -> Prop) :
  with_nodes s s1 (all_nodes s ++ [Node c None None]) ->
  (forall s2, with_nodes s s2 (all_nodes s ++ [Node c a t]) -> Q tt s2) ->
  safe G (upd_node (length (all_nodes s)) (fun n => set_anchor_name a (set_tag t n))) s1 Q.
Proof. intros Hw HQ. eapply upd_last; [exact Hw|]. apply HQ. Qed.

Section Copy.
Context (G : Prop) (n0 fuel p : nat) (n : yaml_node) (s s1 : yctx) (a t : option cstr).
Context (Hspec : copy_spec G n0 fuel) (Hi : inv s) (Hcl : closed n0 s) (Hp : (p < n0)%nat) (Hd : (n0 - p <= S fuel)%nat).
Context (Hn : all_nodes s !! p = Some n).

Let q := length (all_nodes s).

Lemma copy_mapping_safe m (Q : unit -> yctx -> Prop) :
  content n = YMapping (Some m) -> with_nodes s s1 (all_nodes s ++ [Node new_mapping a t]) ->
  (forall s', ext q s s' -> fresh q s' (Some q) -> Q tt s') ->
  safe G (let! sz := yaml_size (Some p) in
          set_mapping q (Some (replicate (sz + 1) free_slot)) ;! copy_entries fuel q (take sz m) 0) s1 Q.
Proof.
  intros Hc Hw HQ. pose proof (closed_content _ _ _ _ Hcl Hp Hn) as H. rewrite Hc in H.
  destruct H as (m' & count & cap & [= <-] & Ha).
  assert (Hn1 : all_nodes s1 !! p = Some n).
  { destruct Hw as (_ & _ & _ & _ & ->). rewrite lookup_app_l; [done|]. by eapply lookup_lt_Some. }
  apply safe_bind, safe_bind. eapply node_at_safe; [exact Hn1|]. rewrite Hc. simpl.
  rewrite (array_size _ _ _ _ _ Ha). apply safe_ret, safe_bind. eapply upd_last; [exact Hw|]. intros s2 Hw2.
  pose proof (array_empty q (S q) (count + 1) ltac:(lia)) as He.
  assert (H2 : ext q s s2) by (eapply ext_app; [done|exact Hw2|simpl; eauto]).
  assert (Hm2 : is_map s2 q 0 (count + 1)).
  { destruct Hw2 as (_ & _ & _ & _ & Hns). eexists _, _. rewrite Hns, list_lookup_middle by done.
    split_and!; [done..|by rewrite length_replicate|]. by eapply array_size. }
  destruct Hcl as [Hle _].
  eapply (copy_entries_safe G n0); [done|apply H2|by eapply closed_ext|done|exact Hm2| | |].
  - rewrite length_take. destruct (array_length _ _ _ _ _ Ha). lia.
  - eapply Forall_impl; [by eapply array_entries|]. intros e [? Hch]. split; [done|].
    by eapply copies_children.
  - intros s3 H3. apply HQ; [by eapply yext_trans|]. intros ? [= <-]. pose proof (is_map_lt _ _ _ _ Hm2).
    pose proof (e_more _ _ _ H3). lia.
Qed.

Lemma copy_sequence_safe l (Q : unit -> yctx -> Prop) :
  content n = YSequence (Some l) -> with_nodes s s1 (all_nodes s ++ [Node new_sequence a t]) ->
  (forall s', ext q s s' -> fresh q s' (Some q) -> Q tt s') ->
  safe G (upd_node q (set_content (YSequence (Some (replicate (length l) None)))) ;! copy_items fuel q l 0) s1 Q.
Proof.
  intros Hc Hw HQ. pose proof (closed_content _ _ _ _ Hcl Hp Hn) as H. rewrite Hc in H.
  destruct H as (l' & [= <-] & Ha). apply safe_bind. eapply upd_last; [exact Hw|]. intros s2 Hw2.
  assert (H2 : ext q s s2).
  { eapply ext_app; [done|exact Hw2|]. eexists. split; [done|]. apply Forall_replicate. by intros ? [=]. }
  destruct Hcl as [Hle _].
  assert (Hn2 : all_nodes s2 !! q = Some (set_content (YSequence (Some (replicate (length l) None))) (Node new_sequence a t))).
  { destruct Hw2 as (_ & _ & _ & _ & ->). by rewrite list_lookup_middle. }
  eapply (copy_items_safe G n0); [done|apply H2|by eapply closed_ext|done|exact Hn2|done|by rewrite length_replicate| |].
  - eapply Forall_impl; [exact Ha|]. intros v Hv. by eapply copies_children.
  - intros s3 H3. apply HQ; [by eapply yext_trans|]. intros ? [= <-]. pose proof (lookup_lt_Some _ _ _ Hn2).
    pose proof (e_more _ _ _ H3). lia.
Qed.
End Copy.

(** The depth of a copy is bounded, since children are younger than parents. *)
Lemma deep_copy_node_safe G n0 fuel : copy_spec G n0 fuel.
Proof.
  induction fuel as [|fuel IH]; intros v s Q Hi Hcl Hv HQ;
    (destruct v as [p|]; [|apply safe_ret, HQ; [by apply yext_refl|by intros ? [=]]]); destruct (Hv p eq_refl) as [Hp Hd]; [lia|].
  destruct (lookup_lt_is_Some_2 (all_nodes s) p) as [n Hn]; [destruct Hcl; lia|].
  cbn [deep_copy_node]. apply safe_bind. eapply node_at_safe; [exact Hn|].
  apply alloc_bind; [done|]. intros s1 Hw1. pose proof (with_nodes_granted _ _ _ Hi Hw1) as Hg1.
  apply safe_bind. eapply safe_done; [by apply strdup_opt_ok|]. apply safe_bind.
  eapply safe_done; [by apply strdup_opt_ok|]. apply safe_bind. eapply label_last; [exact Hw1|]. intros s2 Hw2.
  pose proof (with_nodes_granted _ _ _ Hi Hw2) as Hg2. clear s1 Hw1 Hg1.
  pose proof (closed_content _ _ _ _ Hcl Hp Hn) as Hok.
  assert (Hend : forall s3, ext (length (all_nodes s)) s s3 -> fresh (length (all_nodes s)) s3 (Some (length (all_nodes s))) ->
    safe G (yret (Some (length (all_nodes s)))) s3 Q) by (intros; by apply safe_ret, HQ).
  assert (Hlast : forall s3 c, with_nodes s s3 (all_nodes s ++ [c]) -> content_ok (length (all_nodes s)) (S (length (all_nodes s))) (content c) ->
    safe G (yret (Some (length (all_nodes s)))) s3 Q).
  { intros s3 c Hw3 Hc. apply Hend; [by eapply ext_app|]. intros ? [= <-]. destruct Hw3 as (_ & _ & _ & _ & ->).
    rewrite length_app. simpl. lia. }
  destruct (content n) as [|[v|] len|om|ol] eqn:Hc.
  - by eapply Hlast.
  - apply safe_bind, strdup_safe; [done|]. apply safe_bind. eapply upd_last; [exact Hw2|]. intros s3 Hw3.
    by eapply Hlast.
  - by eapply Hlast.
  - destruct Hok as (m & count & cap & -> & Ha).
    pose proof (copy_mapping_safe G n0 fuel p n s s2 _ _ IH Hi Hcl Hp Hd Hn m
      (fun _ s3 => safe G (yret (Some (length (all_nodes s)))) s3 Q) Hc Hw2 Hend) as Hcopy.
    apply safe_bind. unfold safe, ybind in Hcopy |- *. destruct (yaml_size (Some p) s2) as [[sz s3]| |] eqn:Esz; [|done..].
    assert (s3 = s2) as ->.
    { unfold yaml_size, ybind, node_at in Esz. destruct (all_nodes s2 !! p) as [n2|]; [|done].
      destruct (content_size (content n2)); [by injection Esz|done]. }
    rewrite grant_ok by done. simpl. destruct (set_mapping _ _ s2) as [[[] s3]| |]; [|done..].
    destruct (copy_entries _ _ _ _ s3) as [[[] s4]| |] eqn:Ec; unfold copy_entries, ybind in Ec; by rewrite Ec.
  - destruct Hok as (l & -> & Ha). apply safe_bind, grant_safe; [done|].
    pose proof (copy_sequence_safe G n0 fuel p n s s2 _ _ IH Hi Hcl Hp Hd Hn l
      (fun _ s3 => safe G (yret (Some (length (all_nodes s)))) s3 Q) Hc Hw2 Hend) as Hcopy.
    simpl. unfold safe, ybind in Hcopy |- *. destruct (upd_node _ _ s2) as [[[] s3]| |]; [|done..].
    destruct (copy_items _ _ _ _ s3) as [[[] s4]| |] eqn:Ec; unfold copy_items, ybind in Ec; by rewrite Ec.
Qed.

Lemma deep_copy_safe G v s (Q : option nat -> yctx -> Prop) :
  inv s -> fresh 0 s v ->
  (forall r s', ext (length (all_nodes s)) s s' -> fresh (length (all_nodes s)) s' r -> Q r s') ->
  safe G (deep_copy v) s Q.
Proof.
  intros Hi Hf HQ. apply safe_bind, safe_get. eapply deep_copy_node_safe; [done|by apply closed_all| |done].
  intros p Hp. specialize (Hf p Hp). lia.
Qed.

(** ** Merges *)

Lemma size_map_safe G p count cap s (Q : nat -> yctx -> Prop) :
  is_map s p count cap -> Q count s -> safe G (yaml_size (Some p)) s Q.
Proof.
  intros (n & m & Hn & Hc & _ & Hsz) HQ. apply safe_bind. eapply node_at_safe; [exact Hn|]. rewrite Hc. simpl.
  rewrite Hsz. by apply safe_ret.
Qed.

Lemma mapping_of_safe G p count cap s (Q : list (option cstr * option nat) -> yctx -> Prop) :
  inv s -> is_map s p count cap ->
  (forall n m, all_nodes s !! p = Some n -> content n = YMapping (Some m) ->
     array_ok p (length (all_nodes s)) count cap m -> Q m s) -> safe G (mapping_of p) s Q.
Proof.
  intros Hi Hm HQ. destruct (Hm) as (n & m & Hn & Hc & _). apply safe_bind. eapply node_at_safe; [exact Hn|].
  rewrite Hc. apply safe_ret. eapply HQ; [done..|]. by eapply is_map_array.
Qed.

(** An entry of the source is copied into the target, and then the rest [K]. *)
Lemma merge_one_safe {B} G p k v cur cap m (K : Y B) s (Q : B -> yctx -> Prop) :
  inv s -> is_map s p cur cap -> array_ok p (length (all_nodes s)) cur cap m -> (S cur < cap)%nat ->
  fresh (S p) s v ->
  (forall s', ext p s s' -> is_map s' p (S cur) cap -> safe G K s' Q) ->
  safe G (let! k' := strdup_opt (Some k) in
          put_entry p cur k' (snd (default free_slot (m !! cur))) ;!
          let! v' := deep_copy v in put_entry p cur k' v' ;! K) s Q.
Proof.
  intros Hi Hm Ha Hc Hv HQ. apply safe_bind, strdup_safe; [apply Hi|]. apply safe_bind.
  assert (Hfree : snd (default free_slot (m !! cur)) = None).
  { destruct Ha as (used & -> & <- & Hlt & _). rewrite lookup_app_r, Nat.sub_diag by lia.
    by destruct (cap - length used)%nat eqn:E; [lia|]. }
  rewrite Hfree. eapply put_entry_safe; [done|exact Hm|reflexivity|lia| |].
  { intros m' Ha'. apply array_append; [done..|by intros ? [=]]. }
  intros s1 H1 Hm1 Hl1. pose proof (is_map_lt _ _ _ _ Hm1) as Hlt. apply safe_bind, deep_copy_safe; [apply H1| |].
  { intros q Hq. specialize (Hv q Hq). lia. }
  intros r s2 H2 Hf2. apply safe_bind. eapply put_entry_safe; [apply H2|by eapply ext_is_map|reflexivity|lia| |].
  { intros m' Ha'. apply array_overwrite; [done|lia|]. intros q Hq. specialize (Hf2 q Hq). lia. }
  intros s3 H3 Hm3 _. apply HQ; [|done]. eapply yext_trans; [exact H1|]. eapply yext_trans, H3. eapply ext_le, H2. lia.
Qed.

Lemma merge_loop_safe G p src count cap s (Q : option nat -> yctx -> Prop) :
  inv s -> is_map s p count cap -> Forall (fun e => is_Some (fst e) /\ fresh (S p) s (snd e)) src ->
  (forall count' cap' s', ext p s s' -> is_map s' p count' cap' -> Q (Some cap') s') ->
  safe G (merge_loop p src cap) s Q.
Proof.
  revert count cap s Q. induction src as [|[k v] src IH]; intros count cap s Q Hi Hm Hs HQ; cbn [merge_loop].
  { apply safe_ret. eapply HQ; [by apply yext_refl|done]. }
  apply Forall_cons in Hs as [[[k' Hk] Hv] Hs]. simpl in Hk, Hv. subst k.
  apply safe_bind. eapply size_map_safe; [exact Hm|]. apply safe_bind. eapply mapping_of_safe; [done..|].
  intros n m Hn Hc Ha. destruct (bool_decide _); [by eapply IH|]. apply safe_bind.
  destruct (array_length _ _ _ _ _ Ha) as [Hlm Hlt].
  assert (Hput : forall m1 cap1 s1, ext p s s1 -> is_map s1 p count cap1 ->
    array_ok p (length (all_nodes s1)) count cap1 m1 -> (S count < cap1)%nat ->
    safe G (let! k'0 := strdup_opt (Some k') in
            put_entry p count k'0 (snd (default free_slot (m1 !! count))) ;!
            let! v' := deep_copy v in put_entry p count k'0 v' ;! merge_loop p src cap1) s1 Q).
  { intros m1 cap1 s1 H1 Hm1 Ha1 Hr.
    eapply merge_one_safe; [apply H1|done..|by eapply fresh_ext|].
    intros s2 H2 Hm2. pose proof (yext_trans _ _ _ _ H1 H2) as H02. eapply IH; [apply H2|exact Hm2| |].
    - eapply Forall_impl; [exact Hs|]. intros e [? ?]. split; [done|by eapply fresh_ext].
    - intros c' cap' s3 H3 Hm3. eapply HQ; [by eapply yext_trans|done]. }
  case_match eqn:E.
  - apply safe_bind. unfold yaml_mapping_grow. apply safe_bind, grant_safe; [apply Hi|]. apply safe_ret, safe_bind.
    pose proof (array_grow _ _ _ _ (cap * 2) _ Ha ltac:(lia)) as Hgrow.
    eapply set_mapping_safe; [done|exact Hn|reflexivity|exact Hgrow|].
    intros s1 H1 Hm1 _ Hl1. apply safe_ret. eapply Hput; [done|done|by rewrite Hl1|lia].
  - apply safe_ret. apply Nat.leb_gt in E. eapply Hput; [by apply yext_refl|done|done|lia].
Qed.

Lemma double_until_ge fuel cap need : (cap <= double_until fuel cap need)%nat.
Proof. revert cap. induction fuel as [|fuel IH]; intros cap; simpl; [lia|]. case_match; [|lia]. specialize (IH (cap * 2)%nat). lia. Qed.

(** A merge leaves a mapping of the capacity that it tells. *)
Definition merged (p : nat) (s : yctx) (r : option nat) (s' : yctx) : Prop :=
  ext p s s' /\ forall cap', r = Some cap' -> exists count', is_map s' p count' cap'.

Lemma merge_into_safe G p v count cap s :
  inv s -> is_map s p count cap -> fresh (S p) s v -> safe G (merge_mapping_into p v) s (merged p s).
Proof.
  intros Hi Hm Hv. destruct v as [q|]; [|by apply safe_ret; split; [apply yext_refl|]].
  destruct (Hv q eq_refl) as [Hpq Hq]. destruct (lookup_lt_is_Some_2 _ _ Hq) as [nq Hnq].
  destruct (Hm) as (n & m & Hn & Hc & _). cbn [merge_mapping_into].
  apply safe_bind. eapply node_at_safe; [exact Hn|]. apply safe_bind. eapply node_at_safe; [exact Hnq|]. rewrite Hc.
  pose proof (i_arena _ Hi q nq Hnq) as Hok.
  destruct (content nq) as [| |oq|] eqn:Hcq; try (apply safe_ret; split; [by apply yext_refl|done]).
  destruct Hok as (mq & cq & capq & -> & Haq). pose proof (array_size _ _ _ _ _ Haq) as Hszq.
  destruct (array_length _ _ _ _ _ Haq) as [Hlq Hltq].
  assert (Hmq : is_map s q cq capq) by (by exists nq, mq).
  apply safe_bind. eapply size_map_safe; [exact Hmq|]. apply safe_bind. eapply size_map_safe; [exact Hm|].
  apply safe_bind. eapply mapping_of_safe; [done..|]. intros n' m' Hn' Hc' Ha.
  assert (n' = n) by congruence. subst n'.
  apply safe_bind. apply safe_bind, grant_safe; [apply Hi|]. apply safe_ret, safe_bind.
  set (cap1 := double_until _ _ _).
  assert (Hcap1 : (count < cap1)%nat) by (unfold cap1; pose proof (double_until_ge (count + cq) (count + 1) (count + cq)); lia).
  eapply set_mapping_nodes; [done|exact Hn|reflexivity|by apply (array_grow _ _ _ _ cap1 _ Ha)|].
  intros s1 H1 Hm1 Hns. apply safe_bind.
  assert (Hmq1 : is_map s1 q cq capq).
  { exists nq, mq. split; [|done]. rewrite Hns, list_lookup_insert_ne by lia. done. }
  eapply mapping_of_safe; [apply H1|exact Hmq1|]. intros n1 m1 Hn1 Hc1 Ha1.
  eapply merge_loop_safe; [apply H1|exact Hm1| |].
  - eapply Forall_impl; [by eapply array_entries|]. intros e [He Hch]. split; [done|].
    intros x Hx. specialize (Hch x Hx). lia.
  - intros count' cap' s2 H2 Hm2. split; [by eapply yext_trans|]. intros ? [= <-]. by eexists.
Qed.

Lemma merge_items_safe G p items count cap s :
  inv s -> is_map s p count cap -> Forall (fresh (S p) s) items -> safe G (merge_items p items cap) s (merged p s).
Proof.
  revert count cap s. induction items as [|v items IH]; intros count cap s Hi Hm Hf; cbn [merge_items].
  { apply safe_ret. split; [by apply yext_refl|]. intros ? [= <-]. by eexists. }
  apply Forall_cons in Hf as [Hv Hf]. apply safe_bind.
  eapply safe_mono; [by eapply merge_into_safe|exact id|]. intros [cap1|] s1 [H1 Hm1]; [|by apply safe_ret].
  destruct (Hm1 cap1 eq_refl) as [count1 Hm1']. eapply safe_mono; [|exact id|].
  - eapply IH; [apply H1|exact Hm1'|]. eapply Forall_impl; [exact Hf|]. intros x Hx. by eapply fresh_ext.
  - intros r s2 [H2 Hr]. split; [by eapply yext_trans|done].
Qed.

Lemma apply_merge_safe G p v count cap s :
  inv s -> is_map s p count cap -> fresh (S p) s (Some v) ->
  safe G (apply_merge_key p (Some v) cap) s (merged p s).
Proof.
  intros Hi Hm Hf. destruct (Hf v eq_refl) as [Hpv Hv]. destruct (lookup_lt_is_Some_2 _ _ Hv) as [n Hn].
  apply safe_bind. eapply node_at_safe; [exact Hn|]. pose proof (i_arena _ Hi v n Hn) as Hok.
  destruct (content n) as [| | |ol] eqn:Hc; try (by eapply merge_into_safe).
  destruct Hok as (l & -> & Hl). eapply merge_items_safe; [done..|]. eapply Forall_impl; [exact Hl|].
  intros x Hx y Hy. specialize (Hx y Hy). lia.
Qed.

Definition builder_ok (s : yctx) (b : ymap_builder) : Prop := is_map s (bmap b) (bsize b) (bcap b).

Lemma ymap_put_safe G b k v s (Q : option ymap_builder -> yctx -> Prop) :
  inv s -> builder_ok s b -> fresh (S (bmap b)) s v -> is_Some v ->
  (forall r s', ext (bmap b) s s' ->
     (forall b', r = Some b' -> bmap b' = bmap b /\ builder_ok s' b') -> Q r s') ->
  safe G (ymap_put b k v) s Q.
Proof.
  intros Hi Hb Hf [p ->] HQ. unfold ymap_put. case_decide; apply safe_bind.
  - eapply safe_mono; [by eapply apply_merge_safe|exact id|]. intros [cap|] s1 [H1 Hm1].
    + destruct (Hm1 cap eq_refl) as [count Hm]. apply safe_bind. eapply size_map_safe; [exact Hm|].
      apply safe_ret, HQ; [done|]. by intros b' [= <-].
    + by apply safe_ret, HQ.
  - eapply append_safe; [done..|]. intros cap' s1 H1 Hm1. apply safe_ret, HQ; [done|]. by intros b' [= <-].
Qed.

(** ** Scans within the parsers *)

Lemma scan_safe {A} G n0 (f : Y A) s (P Q : A -> yctx -> Prop) :
  inv s -> scans f s P -> (forall x s', ext n0 s s' -> P x s' -> Q x s') -> safe G f s Q.
Proof.
  intros Hi Hs HQ. destruct (scans_good _ _ _ Hs) as (x & s' & Hf & Hgd & HP).
  eapply safe_done; [exact Hf|]. apply HQ; [by apply ext_good|done].
Qed.

(** The cursor passes a byte that no word ends with. *)
Lemma advance_good s c a : aft s = c :: a -> wordy c = false -> good s (advance s).
Proof.
  intros Ha Hc. split; [apply advance_moves|]. intros _. destruct (advance_spec _ _ _ Ha) as [-> ->].
  unfold off_word. by destruct a.
Qed.

Lemma peek_cons s c : peek s = c -> c <> 0 -> exists a, aft s = c :: a.
Proof. unfold peek. destruct (aft s); [by intros <-|]. intros -> _. eauto. Qed.

Lemma advance_peek_good s c : peek s = c -> c <> 0 -> wordy c = false ->
  good s (advance s) /\ (length (aft (advance s)) < length (aft s))%nat.
Proof.
  intros Hp Hc Hw. destruct (peek_cons s c Hp Hc) as [a Ha]. split; [by eapply advance_good|].
  destruct (advance_spec _ _ _ Ha) as [_ ->]. rewrite Ha. simpl. lia.
Qed.

Lemma optional_advance_good s c : c <> 0 -> wordy c = false -> good s (if peek s =? c then advance s else s).
Proof. intros Hc Hw. case_match eqn:E; [|apply good_refl]. apply Z.eqb_eq in E. by eapply advance_peek_good. Qed.

Lemma ymap_key_safe G n0 s (Q : option cstr -> yctx -> Prop) :
  inv s ->
  (forall r s', ext n0 s s' -> (is_Some r -> length (aft s') < length (aft s))%nat -> Q r s') ->
  safe G ymap_key s Q.
Proof.
  intros Hi HQ. apply safe_bind. eapply (scan_safe _ n0); [done|apply plain_scalar_ok, Hi|].
  intros r s1 H1 (v & -> & Hv). destruct v as [|c v].
  { apply safe_ret, HQ; [done|]. by intros []. }
  assert (Hlt : (length (aft s1) < length (aft s))%nat) by (by apply Hv).
  apply safe_bind, safe_put, safe_bind, safe_get.
  pose proof (ext_good n0 _ _ (e_inv _ _ _ H1) (skip_ws_good s1)) as H2. pose proof (e_len _ _ _ H2).
  case_match eqn:E.
  - apply safe_bind, set_error_safe; [apply H2|]. intros s3 H3 _ _. pose proof (mv_len _ _ (proj1 H3)).
    apply safe_ret, HQ; [|lia]. eapply yext_trans; [exact H1|]. eapply yext_trans; [exact H2|].
    apply ext_good; [apply H2|done].
  - apply negb_false_iff, Z.eqb_eq in E. destruct (advance_peek_good _ _ E ltac:(done) eq_refl) as [H3 Hl3].
    apply safe_bind, safe_put, safe_ret, HQ; [|lia]. eapply yext_trans; [exact H1|]. eapply yext_trans; [exact H2|].
    apply ext_good; [apply H2|done].
Qed.

Lemma flow_close_safe G n0 close msg s (Q : unit -> yctx -> Prop) :
  inv s -> close <> 0 -> wordy close = false -> (forall s', ext n0 s s' -> Q tt s') ->
  safe G (flow_close close msg) s Q.
Proof.
  intros Hi Hc Hw HQ. apply safe_bind, safe_get, safe_bind, safe_get. case_match eqn:E.
  - apply andb_true_iff in E as [_ E%Z.eqb_eq]. apply safe_put, HQ, ext_good; [done|]. by eapply advance_peek_good.
  - apply safe_bind, safe_get. case_match; [by apply safe_ret, HQ, yext_refl|].
    apply set_error_safe; [apply Hi|]. intros s' Hs' _ _. by apply HQ, ext_good.
Qed.

Lemma ymap_init_safe G s (Q : option ymap_builder -> yctx -> Prop) (n1 := length (all_nodes s)) :
  inv s ->
  (forall s', ext n1 s s' -> builder_ok s' (Builder n1 0 8 (-1)) -> aft s' = aft s -> Q (Some (Builder n1 0 8 (-1))) s') ->
  safe G ymap_init s Q.
Proof.
  intros Hi HQ. apply alloc_bind; [done|]. intros s1 Hw1. apply safe_bind, grant_safe; [by eapply with_nodes_granted|].
  apply safe_bind. eapply upd_last; [exact Hw1|]. intros s2 Hw2.
  pose proof (array_empty n1 (S n1) 8 ltac:(lia)) as He.
  apply safe_ret, HQ; [eapply ext_app; [done|exact Hw2|simpl; eauto]| |apply Hw2].
  destruct Hw2 as (_ & _ & _ & _ & Hns). eexists _, _. rewrite Hns, list_lookup_middle by done. done.
Qed.

(** A flow or block sequence starts as an empty array. *)
Lemma seq_init_safe {B} G (k : nat -> Y B) (e1 e2 : Y B) s (Q : B -> yctx -> Prop) (n1 := length (all_nodes s)) :
  inv s ->
  (forall s', ext n1 s s' -> is_seq s' n1 -> aft s' = aft s -> safe G (k n1) s' Q) ->
  safe G (let! seq := alloc_node new_sequence in
          match seq with
          | None => e1
          | Some q =>
              let! ok := ygrant in
              if negb ok then e2 else upd_node q (set_content (YSequence (Some []))) ;! k q
          end) s Q.
Proof.
  intros Hi HQ. apply alloc_bind; [done|]. intros s1 Hw1. apply safe_bind, grant_safe; [by eapply with_nodes_granted|].
  apply safe_bind. eapply upd_last; [exact Hw1|]. intros s2 Hw2. apply HQ; [|by eexists _, _; destruct Hw2 as (_ & _ & _ & _ & ->); rewrite list_lookup_middle|apply Hw2].
  eapply ext_app; [done|exact Hw2|]. by eexists.
Qed.

(** ** Tame texts *)

(** The rest of a text after the plain scalar at its start, and after blanks. *)
Fixpoint plain_rest (a : list Z) : list Z :=
  match a with
  | c :: a' => if ((c =? 58) && is_separator a') || negb (is_plain_scalar_char c) then a else plain_rest a'
  | [] => []
  end.

Fixpoint after_blanks (a : list Z) : list Z :=
  match a with c :: a' => if is_ws c then after_blanks a' else a | [] => [] end.

(** A dash at the start of a word that belongs to a key of a mapping, as in
    [-k: v], or that is followed by a carriage return. *)
Definition glued_dash (b a : list Z) : bool :=
  match a with
  | d :: (e :: _) =>
      (d =? 45) && match b with c :: _ => negb (wordy c) | [] => true end &&
      ((e =? 13) ||
       (negb ((e =? 32) || (e =? 10)) &&
        match after_blanks (plain_rest a) with c :: _ => c =? 58 | [] => false end))
  | _ => false
  end.

(** No tab and no glued dash. *)
Fixpoint tame_from (b a : list Z) : bool :=
  match a with
  | c :: a' => negb (c =? 9) && negb (glued_dash b a) && tame_from (c :: b) a'
  | [] => true
  end.

Definition tame (text : list Z) : bool := tame_from [] text.

Lemma tame_suffix b0 b a : tame_from b0 (rev b ++ a) = true -> tame_from (b ++ b0) a = true.
Proof.
  revert b0 a. induction b as [|c b IH]; intros b0 a; [done|]. simpl. rewrite <- app_assoc. simpl.
  intros H%IH. simpl in H. by apply andb_true_iff in H as [_ H].
Qed.

Lemma tame_no_tab b a : tame_from b a = true -> (9 ∉ a).
Proof.
  revert b. induction a as [|c a IH]; intros b; simpl; [intros _; apply not_elem_of_nil|].
  intros [[Hc%negb_true_iff%Z.eqb_neq _]%andb_true_iff Ha%IH]%andb_true_iff.
  apply not_elem_of_cons. split; [congruence|done].
Qed.

Lemma tame_at s : tame (text_of s) = true -> glued_dash (bef s) (aft s) = false /\ (9 ∉ text_of s).
Proof.
  intros H. split; [|by apply tame_no_tab in H].
  apply tame_suffix in H. destruct (aft s) as [|c a]; [done|]. cbn [tame_from] in H.
  rewrite app_nil_r in H. apply andb_true_iff in H as [[_ Hg%negb_true_iff]%andb_true_iff _]. exact Hg.
Qed.

Lemma skip_ws_aft s : aft (skip_ws s) = after_blanks (aft s).
Proof.
  unfold skip_ws, advance_while. generalize (line s) as l, (bef s) as b.
  assert (H : forall a b l, snd (fst (advance_while_from is_ws b a l)) = after_blanks a).
  { induction a as [|c a IH]; intros b l; simpl; [done|]. by destruct (is_ws c). }
  intros l b. specialize (H (aft s) b l). by destruct (advance_while_from _ _ _ _) as [[b' a'] l'].
Qed.

Lemma plain_loop_rest a s cap buf x s' :
  aft s = a -> granted s = [] -> plain_loop a cap buf s = Done (x, s') -> aft s' = plain_rest a.
Proof.
  revert s cap buf. induction a as [|c a IH]; intros s cap buf Ha Hg H; cbn [plain_loop plain_rest] in *.
  { by injection H as _ <-. }
  destruct ((c =? 58) && is_separator a); [by injection H as _ <-|]. simpl.
  destruct (c =? 35) eqn:E35.
  { apply Z.eqb_eq in E35 as ->. simpl in *. by case_match; injection H as _ <-. }
  simpl in H. destruct (is_nl c) eqn:Enl.
  { assert (is_plain_scalar_char c = false) as ->; [|by injection H as _ <-].
    unfold is_nl in Enl. apply orb_true_iff in Enl as [->%Z.eqb_eq | ->%Z.eqb_eq]; done. }
  destruct (is_plain_scalar_char c); simpl in *; [|by injection H as _ <-].
  unfold ybind, yput in H. destruct (reserve_ok (advance s) cap (length buf)) as [cap' Hr].
  { by rewrite (mv_granted _ _ (advance_moves s)). }
  rewrite Hr in H. apply (IH (advance s) cap' (buf ++ [c])); [by eapply advance_spec| |done].
  by rewrite (mv_granted _ _ (advance_moves s)).
Qed.

Lemma plain_scalar_rest s x s' : granted s = [] -> parse_plain_scalar s = Done (x, s') -> aft s' = plain_rest (aft s).
Proof.
  intros Hg H. destruct (plain_loop_ok (aft s) s 256 [] eq_refl Hg) as (y & s1 & Hf & Hm & Ho & buf & -> & Hl).
  unfold parse_plain_scalar, ybind in H. rewrite grant_ok in H by done. unfold yget in H. simpl in H. rewrite Hf in H.
  pose proof (plain_loop_rest _ _ _ _ _ _ eq_refl Hg Hf) as Hr.
  destruct (trim_end is_ws buf); [rewrite strdup_ok in H by (by rewrite (mv_granted _ _ Hm))|]; by injection H as _ <-.
Qed.

(** ** What the parsers do at a given fuel *)

Definition budget (k fuel : nat) (s : yctx) : Prop := tame (text_of s) = true /\ (3 * length (aft s) + k < fuel)%nat.

Lemma budget_next k k' fuel fuel' n0 s s' :
  ext n0 s s' -> (3 * length (aft s) + k < fuel -> 3 * length (aft s') + k' < fuel')%nat ->
  budget k fuel s -> budget k' fuel' s'.
Proof. intros He Hl [Ht Hb]. split; [by rewrite (e_text _ _ _ He)|auto]. Qed.

Definition made (n0 : nat) (s : yctx) (r : option nat) (s' : yctx) : Prop := ext n0 s s' /\ fresh n0 s' r.

Definition value_spec (fuel : nat) : Prop := forall base s, inv s ->
  safe (budget 1 fuel s) (parse_value fuel base) s (made (length (all_nodes s)) s).

Definition seq_spec (fuel : nat) : Prop := forall q cap base s, inv s -> is_seq s q ->
  safe (budget 0 fuel s) (seq_loop fuel q cap base) s (made q s).

Definition map_spec (fuel : nat) : Prop := forall b base s, inv s -> builder_ok s b ->
  safe (budget 0 fuel s) (map_loop fuel b base) s (made (bmap b) s).

Definition iseq_spec (fuel : nat) : Prop := forall q cap base s, inv s -> is_seq s q ->
  safe (budget 2 fuel s) (inline_seq_loop fuel q cap base) s (fun _ s' => ext q s s').

Definition imap_spec (fuel : nat) : Prop := forall q msz cap base s, inv s -> is_map s q msz cap ->
  safe (budget 2 fuel s) (inline_map_loop fuel q msz cap base) s (fun _ s' => ext q s s').

Lemma made_ext n0 s0 s r s' : ext n0 s0 s -> made n0 s r s' -> made n0 s0 r s'.
Proof. intros H [H1 H2]. split; [by eapply yext_trans|done]. Qed.

Lemma made_le n0 n1 s r s' : (n0 <= n1)%nat -> made n1 s r s' -> made n0 s r s'.
Proof. intros Hn [H1 H2]. split; [by eapply ext_le|]. intros q Hq. specialize (H2 q Hq). lia. Qed.

(** A recursive call on a later state. *)
Lemma call_safe {A} (G : Prop) k k' fuel fuel' n0 (f : Y A) s0 s (P Q : A -> yctx -> Prop) :
  safe (budget k' fuel' s) f s P -> ext n0 s0 s -> (G -> budget k fuel s0) ->
  (G -> 3 * length (aft s0) + k < fuel -> 3 * length (aft s) + k' < fuel')%nat ->
  (forall x s', P x s' -> Q x s') -> safe G f s Q.
Proof.
  intros Hs He HG Hl HQ. eapply safe_mono; [exact Hs| |exact HQ]. intros Hg. by eapply (budget_next k); [exact He|apply Hl|apply HG].
Qed.

Lemma off_peek s : inv s -> peek s = 45 -> exists a, aft s = 45 :: a /\
  match bef s with c :: _ => wordy c = false | [] => True end.
Proof.
  intros Hi Hp. destruct (peek_cons s 45 Hp ltac:(done)) as [a Ha]. exists a. split; [done|].
  pose proof (i_off _ Hi) as Ho. unfold off_word in Ho. rewrite Ha in Ho. by apply Ho.
Qed.

(** A dash and its blanks. *)
Lemma dash_good s a : aft s = 45 :: a -> is_ws (peek (advance s)) || (peek (advance s) =? 10) = true ->
  good s (skip_ws (advance s)) /\ (length (aft (skip_ws (advance s))) < length (aft s))%nat.
Proof.
  intros Ha Hn. destruct (advance_spec _ _ _ Ha) as [Hb1 Ha1].
  pose proof (advance_while_moves is_ws (advance s)) as Hm. pose proof (mv_len _ _ Hm) as Hl. split.
  - split; [eapply moves_trans, Hm; apply advance_moves|]. intros _.
    destruct (advance_while_spec is_ws (advance s)) as (p & Hpa & Hpb & Hp & Hd). fold (skip_ws (advance s)) in *.
    destruct p as [|c p _] using rev_ind.
    + unfold peek in Hn. rewrite Hpa in Hn. unfold off_word. simpl in Hn. destruct (aft (skip_ws (advance s))) as [|d r]; [done|].
      rewrite Hd in Hn. simpl in Hn. apply Z.eqb_eq in Hn as ->. done.
    + apply Forall_app in Hp as [_ [Hc _]%Forall_cons]. rewrite Hpb, rev_app_distr. unfold off_word.
      destruct (aft (skip_ws (advance s))); [done|]. intros _. simpl. apply ws_not_wordy. by rewrite Hc.
  - rewrite Ha1 in Hl. rewrite Ha. simpl. unfold skip_ws. lia.
Qed.

Lemma retreat_good s a : aft s = 45 :: a -> good s (retreat (advance s)) /\ aft (retreat (advance s)) = aft s.
Proof.
  intros Ha. rewrite (advance_eq s 45 a Ha). unfold retreat. simpl. rewrite Ha. split; [|done].
  split; [|by rewrite Ha]. split; simpl; try done; [|by rewrite Ha]. unfold text_of. simpl. by rewrite Ha.
Qed.

Lemma advance_while_stop f s c a : aft s = c :: a -> f c = false -> advance_while f s = s.
Proof.
  intros Ha Hc. unfold advance_while. rewrite Ha. simpl. rewrite Hc. destruct s. simpl in Ha. by subst.
Qed.

Lemma skip_comments_stop s c a : aft s = c :: a -> is_ws c || is_nl c = false -> c <> 35 -> skip_ws_nl_comments s = s.
Proof.
  intros Ha Hc Hn. unfold skip_ws_nl_comments. assert (Hs : skip_ws_and_nl s = s) by (by eapply advance_while_stop).
  destruct (length (aft s)); simpl; rewrite Hs; [done|]. unfold at_end, peek. rewrite Ha.
  apply Z.eqb_neq in Hn as ->. done.
Qed.

Lemma plain_rest_length a : (length (plain_rest a) <= length a)%nat.
Proof. induction a as [|c a IH]; simpl; [lia|]. case_match; simpl; lia. Qed.

(** The dash is the start of a word. *)
Lemma unglued s a :
  inv s -> aft s = 45 :: a -> is_ws (peek (advance s)) || (peek (advance s) =? 10) = false ->
  glued_dash (bef s) (aft s) = false ->
  pv_is_seq_dash s = false /\ match after_blanks (plain_rest (aft s)) with c :: _ => c <> 58 | [] => True end.
Proof.
  intros Hi Ha Hn Hg. destruct (off_peek s Hi) as (a' & Ha' & Hb); [unfold peek; by rewrite Ha|].
  destruct (advance_spec _ _ _ Ha) as [_ Ha1]. unfold peek in Hn. rewrite Ha1 in Hn.
  unfold glued_dash in Hg. unfold pv_is_seq_dash. rewrite Ha in *. destruct a as [|e a]; [done|].
  replace (match bef s with c :: _ => negb (wordy c) | [] => true end) with true in Hg
    by (destruct (bef s); [done|by rewrite Hb]).
  rewrite !andb_true_l in Hg. apply orb_false_iff in Hg as [H13 Hg]. apply orb_false_iff in Hn as [Hws H10].
  unfold is_ws in Hws. apply orb_false_iff in Hws as [H32 H9]. unfold is_ws, is_nl. rewrite H32, H9, H10, H13 in *.
  split; [done|]. simpl in Hg. destruct (after_blanks _); [done|]. by apply Z.eqb_neq in Hg.
Qed.

(** A scalar that starts with a dash is read without a recursive call. *)
Lemma value_word fuel base s a :
  inv s -> aft s = 45 :: a -> is_ws (peek (advance s)) || (peek (advance s) =? 10) = false ->
  glued_dash (bef s) (aft s) = false ->
  safe True (parse_value (S fuel) base) s
    (fun r s' => made (length (all_nodes s)) s r s' /\ (length (aft s') < length (aft s))%nat).
Proof.
  intros Hi Ha Hn Hg. destruct (unglued s a Hi Ha Hn Hg) as [Hd Hr].
  assert (Hp : peek s = 45) by (unfold peek; by rewrite Ha).
  cbn [parse_value]. apply safe_bind, safe_put. rewrite (skip_comments_stop s 45 a) by done.
  apply safe_bind, safe_get. unfold at_end. rewrite Ha. apply safe_bind.
  unfold pv_prefix_parse. apply safe_bind, safe_get. rewrite Hp. apply safe_bind, safe_ret, safe_bind, safe_get.
  rewrite Hp. apply safe_bind, safe_ret, safe_ret, safe_bind, safe_get, safe_bind, safe_get. rewrite Hp, Hd. simpl.
  apply safe_bind, safe_get, safe_bind.
  destruct (plain_scalar_ok s (i_granted _ Hi)) as (x & s1 & Hf & Hm & Ho & v & -> & _).
  eapply safe_done; [exact Hf|]. pose proof (plain_scalar_rest _ _ _ (i_granted _ Hi) Hf) as Hr1.
  assert (H1 : ext (length (all_nodes s)) s s1) by (by apply ext_good; [|split]).
  apply safe_bind, safe_put, safe_bind, safe_get.
  assert (H2 : ext (length (all_nodes s)) s (skip_ws s1)).
  { eapply yext_trans; [exact H1|]. apply ext_good; [apply H1|apply skip_ws_good]. }
  assert (Hpk : peek (skip_ws s1) <> 58).
  { unfold peek. rewrite skip_ws_aft, Hr1. by destruct (after_blanks _). }
  apply Z.eqb_neq in Hpk as ->.
  assert (Hl : (length (aft (skip_ws s1)) < length (aft s))%nat).
  { pose proof (mv_len _ _ (proj1 (skip_ws_good s1))). rewrite Hr1, Ha in *. simpl in *.
    pose proof (plain_rest_length a). lia. }
  eapply scalar_node_safe; [apply H2|]. intros s3 H3 Hf3. pose proof (e_len _ _ _ H3).
  pose proof (e_more _ _ _ H2). split; [|rewrite Ha in Hl; simpl in Hl; lia]. eapply made_ext; [exact H2|]. by eapply made_le; [|split].
Qed.

(** ** One step of each parser *)

Lemma seq_item_safe {B} G fuel ind s (K : option nat -> Y B) (Q : B -> yctx -> Prop) :
  value_spec fuel -> inv s -> peek s = 45 -> (G -> budget 0 (S fuel) s) ->
  (forall r s', made (length (all_nodes s)) s r s' -> (G -> length (aft s') < length (aft s))%nat -> safe G (K r) s' Q) ->
  safe G (yput advance ;!
          let! next_c := yget peek in
          yput (if is_ws next_c || (next_c =? 10) then skip_ws else retreat) ;!
          let! item := parse_value fuel ind in K item) s Q.
Proof.
  intros Hvalue Hi Hp HG HK. destruct (off_peek s Hi Hp) as (a & Ha & _).
  apply safe_bind, safe_put, safe_bind, safe_get, safe_bind, safe_put, safe_bind.
  destruct (is_ws (peek (advance s)) || (peek (advance s) =? 10)) eqn:Hn.
  - destruct (dash_good s a Ha Hn) as [Hgd Hl]. pose proof (ext_good (length (all_nodes s)) _ _ Hi Hgd) as H1.
    eapply (call_safe G 0 1 (S fuel) fuel); [apply Hvalue, H1|exact H1|done|lia|].
    intros r s' Hr. apply HK.
    + eapply made_ext; [exact H1|]. by eapply made_le; [apply H1|].
    + intros _. pose proof (e_len _ _ _ (proj1 Hr)). lia.
  - destruct (retreat_good s a Ha) as [Hgd Haft]. set (s1 := retreat (advance s)) in *.
    pose proof (ext_good (length (all_nodes s)) _ _ Hi Hgd) as H1.
    assert (Hns : all_nodes s1 = all_nodes s) by (apply (mv_nodes _ _ (proj1 Hgd))).
    assert (Hs1 : advance s1 = advance s).
    { unfold s1. rewrite (advance_eq s 45 a Ha). unfold retreat. simpl. unfold advance. by simpl. }
    destruct (glued_dash (bef s1) (aft s1)) eqn:Eg.
    + assert (HnG : ~ G).
      { intros Hg. destruct (HG Hg) as [Ht _]. rewrite <- (e_text _ _ _ H1) in Ht. apply tame_at in Ht as [Ht _]. congruence. }
      eapply safe_mono; [apply Hvalue, H1|tauto|]. intros r s' Hr. apply HK; [|tauto]. rewrite Hns in Hr. by eapply made_ext.
    + destruct fuel as [|fuel].
      { simpl. unfold safe. intros Hg. destruct (HG Hg) as [_ Hl]. rewrite Ha in Hl. simpl in Hl. lia. }
      eapply safe_mono; [apply (value_word fuel ind s1 a); [apply H1|congruence|by rewrite Hs1|done]|done|].
      intros r s' [Hr Hl]. rewrite Hns in Hr. apply HK; [by eapply made_ext|]. intros _. congruence || (rewrite Haft in Hl; done).
Qed.

Lemma seq_step fuel : value_spec fuel -> seq_spec fuel -> seq_spec (S fuel).
Proof.
  intros Hvalue Hseq q cap base s Hi Hq. cbn [seq_loop]. apply safe_bind, safe_put.
  set (s1 := skip_ws_nl_comments s). pose proof (ext_good q _ _ Hi (skip_comments_good s) : ext q s s1) as H1.
  assert (Hns : all_nodes s1 = all_nodes s) by (apply (mv_nodes _ _ (proj1 (skip_comments_good s)))).
  assert (Hq1 : is_seq s1 q) by (destruct Hq as (n & l & Hn & Hc); exists n, l; by rewrite Hns).
  assert (Hself : forall s', ext q s s' -> made q s (Some q) s').
  { intros s' He. split; [done|]. intros ? [= <-]. pose proof (is_seq_lt _ _ Hq). pose proof (e_more _ _ _ He). lia. }
  apply safe_bind, safe_get. destruct (at_end s1); [by apply safe_ret, Hself|].
  apply safe_bind, safe_get. case_match; [by apply safe_ret, Hself|].
  apply safe_bind, safe_get. destruct (peek s1 =? 45) eqn:Hp; [|by apply safe_ret, Hself]. apply Z.eqb_eq in Hp.
  apply seq_item_safe; [done|apply H1|done| |].
  { intros HG. eapply (budget_next 0 0); [exact H1| |exact HG]. pose proof (e_len _ _ _ H1). lia. }
  intros r s2 [H2 Hf2] Hl2. pose proof (is_seq_lt _ _ Hq1) as Hlt.
  assert (H12 : ext q s1 s2) by (eapply ext_le, H2; lia). assert (H02 : ext q s s2) by (by eapply yext_trans).
  assert (Hgo : forall cap' s3, ext q s2 s3 -> is_seq s3 q ->
    safe (budget 0 (S fuel) s) (let! e := yget at_end in if (e : bool) then yret (Some q) else seq_loop fuel q cap' base) s3 (made q s)).
  { intros cap' s3 H3 Hq3. assert (H03 : ext q s s3) by (by eapply yext_trans).
    apply safe_bind, safe_get. case_match; [by apply safe_ret, Hself|].
    eapply (call_safe _ 0 0 (S fuel) fuel); [apply Hseq; [apply H3|exact Hq3]|exact H03|done| |].
    - intros HG. pose proof (e_len _ _ _ H3). pose proof (e_len _ _ _ H1). specialize (Hl2 HG). lia.
    - intros r' s4. by apply made_ext. }
  pose proof (ext_is_seq _ _ _ _ H2 Hlt Hq1) as Hq2.
  destruct r as [p|]; [|by apply Hgo; [apply yext_refl, H2|]].
  apply safe_bind. eapply seq_push_safe; [apply H2|exact Hq2| |].
  - intros ? [= <-]. specialize (Hf2 p eq_refl). lia.
  - intros cap' s3 H3 Hq3 _. by apply Hgo.
Qed.

(** The value after a key, for a mapping that is being built. *)
Lemma map_value_safe {B} G fuel ind b k (no_inline : bool) s (K : option ymap_builder -> Y B) (Q : B -> yctx -> Prop) :
  value_spec fuel -> inv s -> builder_ok s b -> (G -> budget 1 fuel s) ->
  (forall r s', ext (bmap b) s s' -> (forall b', r = Some b' -> bmap b' = bmap b /\ builder_ok s' b') -> safe G (K r) s' Q) ->
  safe G (let! r :=
            (if (no_inline : bool) then
               let! next_ind := count_indent in
               let! val := (if ind <? next_ind then parse_value fuel ind else yret None) in
               match val with
               | Some _ => ymap_put b k val
               | None =>
                   if decide (k = merge_key) then yret (Some b) else
                   let! n := alloc_node new_scalar in
                   empty_scalar n ;! ymap_put b k n
               end
             else
               let! val := parse_value fuel ind in
               let! val := (match val with Some _ => yret val | None => alloc_node new_scalar end) in
               empty_scalar val ;! ymap_put b k val) in K r) s Q.
Proof.
  intros Hvalue Hi Hb HG HK. apply safe_bind. pose proof (is_map_lt _ _ _ _ Hb) as Hlt.
  assert (Hput : forall s1 v, ext (S (bmap b)) s s1 -> fresh (S (bmap b)) s1 v -> is_Some v ->
    safe G (ymap_put b k v) s1 (fun r s' => safe G (K r) s' Q)).
  { intros s1 v H1 Hf Hv. eapply ymap_put_safe; [apply H1|by eapply (ext_is_map _ _ _ _ _ _ H1); [lia|]|done..|].
    intros r s2 H2 Hr. apply HK; [|done]. eapply yext_trans; [eapply ext_le; [|exact H1]; lia|done]. }
  assert (Hempty : forall s1 v, ext (S (bmap b)) s s1 -> fresh (S (bmap b)) s1 v -> is_Some v ->
    safe G (empty_scalar v ;! ymap_put b k v) s1 (fun r s' => safe G (K r) s' Q)).
  { intros s1 v H1 Hf Hv. apply safe_bind. eapply empty_scalar_safe; [apply H1|exact Hf|].
    intros s2 H2 Hf2. apply Hput; [by eapply yext_trans|done..]. }
  assert (Halloc : forall s1, ext (S (bmap b)) s s1 ->
    safe G (alloc_node new_scalar) s1 (fun v s' => safe G (empty_scalar v ;! ymap_put b k v) s' (fun r s' => safe G (K r) s' Q))).
  { intros s1 H1. apply new_scalar_safe; [apply H1|]. intros s2 H2 Hf2. pose proof (e_more _ _ _ H1).
    apply Hempty; [|by intros q Hq; specialize (Hf2 q Hq); lia|by eexists].
    eapply yext_trans; [exact H1|]. eapply ext_le, H2. lia. }
  assert (Hval : forall s1 (Q' : option nat -> yctx -> Prop), ext (S (bmap b)) s s1 ->
    (forall v s', ext (S (bmap b)) s s' -> fresh (S (bmap b)) s' v -> Q' v s') -> safe G (parse_value fuel ind) s1 Q').
  { intros s1 Q' H1 HQ'. pose proof (e_len _ _ _ H1). pose proof (e_more _ _ _ H1).
    eapply (call_safe G 1 1 fuel fuel); [apply Hvalue, H1|exact H1|done|lia|].
    intros v s2 Hm. eapply (made_le (S (bmap b))) in Hm; [|lia]. apply HQ'; [|apply Hm]. eapply yext_trans, Hm. done. }
  destruct no_inline.
  - apply safe_bind. eapply count_indent_ok; [apply Hi|]. intros z s1 Hgd. pose proof (ext_good (S (bmap b)) _ _ Hi Hgd) as H1.
    apply safe_bind.
    assert (Hnone : forall s2, ext (S (bmap b)) s s2 -> safe G
      (if decide (k = merge_key) then yret (Some b) else
       let! n := alloc_node new_scalar in empty_scalar n ;! ymap_put b k n) s2 (fun r s' => safe G (K r) s' Q)).
    { intros s2 H2. case_decide; [|by apply safe_bind, Halloc].
      apply safe_ret, HK; [eapply ext_le, H2; lia|]. intros b' [= <-]. split; [done|].
      by eapply (ext_is_map _ _ _ _ _ _ H2); [lia|]. }
    destruct (ind <? z); [|by apply safe_ret, Hnone]. apply Hval; [done|]. intros [v|] s2 H2 Hf2; [by apply Hput|by apply Hnone].
  - apply safe_bind, Hval; [by apply yext_refl|]. intros [v|] s2 H2 Hf2; apply safe_bind; [by apply safe_ret, Hempty|by apply Halloc].
Qed.

Lemma no_inline_safe G n0 s (Q : bool -> yctx -> Prop) :
  inv s -> (forall r s', ext n0 s s' -> all_nodes s' = all_nodes s -> Q r s') -> safe G ymap_no_inline s Q.
Proof.
  intros Hi HQ. apply safe_bind, safe_put, safe_bind, safe_get, safe_bind, safe_get, safe_ret, HQ.
  - apply ext_good; [done|apply skip_ws_and_nl_good].
  - apply (mv_nodes _ _ (proj1 (skip_ws_and_nl_good s))).
Qed.

Lemma map_step fuel : value_spec fuel -> map_spec fuel -> map_spec (S fuel).
Proof.
  intros Hvalue Hmap b base s Hi Hb. cbn [map_loop]. set (n0 := S (bmap b)).
  assert (Hself : forall s', ext (bmap b) s s' -> made (bmap b) s (Some (bmap b)) s').
  { intros s' He. split; [done|]. intros ? [= <-]. pose proof (is_map_lt _ _ _ _ Hb). pose proof (e_more _ _ _ He). lia. }
  apply safe_bind, safe_get. case_match eqn:E0; [by apply safe_ret, Hself, yext_refl|]. apply safe_bind, safe_put.
  set (s1 := skip_ws_nl_comments s). pose proof (ext_good n0 _ _ Hi (skip_comments_good s) : ext n0 s s1) as H1.
  assert (H1' : ext (bmap b) s s1) by (eapply ext_le, H1; lia).
  apply safe_bind, safe_get. destruct (at_end s1); [by apply safe_ret, Hself|].
  apply safe_bind, safe_get, safe_bind, safe_get.
  set (ind := line_indent s1). set (dl := _ && _). case_match eqn:E1; [by apply safe_ret, Hself|].
  case_match eqn:E2; [by apply safe_ret, Hself|].
  set (b1 := if bindent b <? 0 then _ else b).
  assert (Hb1 : bmap b1 = bmap b /\ builder_ok s1 b1).
  { pose proof (ext_is_map _ _ _ _ _ _ H1 (Nat.lt_succ_diag_r _) Hb). unfold b1. by case_match. }
  destruct Hb1 as [Hbm Hb1]. apply safe_bind. apply (ymap_key_safe _ n0); [apply H1|].
  intros r s2 H2 Hl2. assert (H02 : ext n0 s s2) by (by eapply yext_trans).
  destruct r as [k|]; [|rewrite Hbm; apply safe_ret, Hself; eapply ext_le, H02; lia].
  specialize (Hl2 ltac:(by eexists)). pose proof (e_len _ _ _ H1) as Hl1.
  apply safe_bind, (no_inline_safe _ n0); [apply H2|]. intros ni s3 H3 _. assert (H03 : ext n0 s s3) by (by eapply yext_trans).
  pose proof (e_len _ _ _ H3) as Hl3.
  eapply map_value_safe; [done|apply H3| | |].
  - eapply (ext_is_map n0 s1); [by eapply yext_trans|lia|exact Hb1].
  - intros HG. eapply (budget_next 0 1); [exact H03| |exact HG]. lia.
  - rewrite Hbm. intros r s4 H4 Hr. assert (H04 : ext (bmap b) s s4) by (eapply yext_trans; [eapply ext_le; [|exact H03]; lia|done]).
    destruct r as [b'|]; [|by apply safe_ret; split; [|intros ? [=]]]. destruct (Hr b' eq_refl) as [Hbm' Hb'].
    pose proof (e_len _ _ _ H4).
    eapply (call_safe _ 0 0 (S fuel) fuel); [apply Hmap; [apply H4|exact Hb']|exact H04|done|lia|].
    intros x s5 Hx. rewrite Hbm' in Hx. by eapply made_ext.
Qed.

Lemma pos_progress n0 s s' : ext n0 s s' -> (pos s' =? pos s)%nat = false -> (length (aft s') < length (aft s))%nat.
Proof.
  intros He Hp%Nat.eqb_neq. pose proof (e_len _ _ _ He). pose proof (f_equal length (e_text _ _ _ He)) as Ht.
  unfold text_of in Ht. rewrite !length_app, !length_rev in Ht. unfold pos in Hp. lia.
Qed.

Lemma advance_if_safe G n0 c s (Q : unit -> yctx -> Prop) :
  inv s -> c <> 0 -> wordy c = false -> (forall s', ext n0 s s' -> Q tt s') ->
  safe G (if peek s =? c then yput advance else yret tt) s Q.
Proof.
  intros Hi Hc Hw HQ. pose proof (optional_advance_good s c Hc Hw) as Hgd. case_match.
  - by apply safe_put, HQ, ext_good.
  - by apply safe_ret, HQ, yext_refl.
Qed.

Lemma skip_ws_ext n0 s s' : ext n0 s s' -> ext n0 s (skip_ws s').
Proof. intros He. eapply yext_trans; [exact He|]. apply ext_good; [apply He|apply skip_ws_good]. Qed.

Lemma comma_safe G n0 (more : bool) s (Q : unit -> yctx -> Prop) :
  inv s -> (forall s', ext n0 s s' -> Q tt s') ->
  safe G (if more then (if peek s =? 44 then yput advance else yret tt) ;! yput skip_ws else yret tt) s Q.
Proof.
  intros Hi HQ. destruct more; [|by apply safe_ret, HQ, yext_refl]. apply safe_bind.
  apply (advance_if_safe _ n0); [done..|]. intros s' He. by apply safe_put, HQ, skip_ws_ext.
Qed.

(** The value of a flow item, in a loop whose container is [q]. *)
Lemma flow_value_safe G fuel base q s0 s (Q : option nat -> yctx -> Prop) :
  value_spec fuel -> ext (S q) s0 s -> (q < length (all_nodes s0))%nat -> (G -> budget 2 (S fuel) s0) ->
  (forall v s', ext (S q) s0 s' -> fresh (S q) s' v -> Q v s') -> safe G (parse_value fuel base) s Q.
Proof.
  intros Hvalue He Hq HG HQ. pose proof (e_len _ _ _ He). pose proof (e_more _ _ _ He).
  eapply (call_safe G 2 1 (S fuel) fuel); [apply Hvalue, He|exact He|done|lia|].
  intros v s' Hm. eapply (made_le (S q)) in Hm; [|lia]. apply HQ; [|apply Hm]. eapply yext_trans, Hm. done.
Qed.

Lemma size_seq_safe G q s (Q : nat -> yctx -> Prop) : is_seq s q -> (forall k, Q k s) -> safe G (yaml_size (Some q)) s Q.
Proof.
  intros (n & l & Hn & Hc) HQ. apply safe_bind. eapply node_at_safe; [exact Hn|]. rewrite Hc. by apply safe_ret, HQ.
Qed.

(** The end of a round of a flow loop. *)
Lemma flow_round_safe G n0 s0 s msg (K : Y bool) :
  ext n0 s0 s -> (forall s', ext n0 s0 s' -> (length (aft s') < length (aft s0))%nat -> s' = skip_ws s -> safe G K s' (fun _ s' => ext n0 s0 s')) ->
  safe G (yput skip_ws ;! let! now := yget pos in
          if (now =? pos s0)%nat then set_error msg ;! yret true else K) s (fun _ s' => ext n0 s0 s').
Proof.
  intros He HK. apply safe_bind, safe_put, safe_bind, safe_get. pose proof (skip_ws_ext _ _ _ He) as H1.
  case_match eqn:E; [|by apply HK; [|eapply pos_progress|]].
  apply safe_bind, set_error_safe; [apply H1|]. intros s' Hs' _ _. apply safe_ret.
  eapply yext_trans; [exact H1|]. apply ext_good; [apply H1|done].
Qed.

Lemma skip_ws_nodes s : all_nodes (skip_ws s) = all_nodes s.
Proof. apply (mv_nodes _ _ (proj1 (skip_ws_good s))). Qed.

Lemma iseq_step fuel : value_spec fuel -> iseq_spec fuel -> iseq_spec (S fuel).
Proof.
  intros Hvalue Hloop q cap base s Hi Hq. cbn [inline_seq_loop]. apply safe_bind, safe_get, safe_bind, safe_get.
  pose proof (is_seq_lt _ _ Hq) as Hlt. case_match eqn:E0; [by apply safe_ret, yext_refl|].
  apply safe_bind, safe_get, safe_bind. apply size_seq_safe; [done|]. intros count.
  apply safe_bind. apply (comma_safe _ (S q)); [done|]. intros s1 H1. apply safe_bind.
  eapply flow_value_safe; [done|exact H1|done|exact id|]. intros v s2 H2 Hf2. apply safe_bind.
  assert (Hnext : forall c s3, ext q s s3 -> is_seq s3 q ->
    safe (budget 2 (S fuel) s) (yput skip_ws ;! let! now := yget pos in
      if (now =? pos s)%nat then set_error MSG_SEQ ;! yret true else inline_seq_loop fuel q c base) s3 (fun _ s' => ext q s s')).
  { intros c s3 H3 Hq3. apply flow_round_safe; [done|]. intros s4 H4 Hl4 ->.
    eapply (call_safe _ 2 2 (S fuel) fuel); [apply Hloop; [apply H4|]|exact H4|done|lia|].
    - destruct Hq3 as (n & l & Hn & Hc). exists n, l. by rewrite skip_ws_nodes.
    - intros x s5 H5. by eapply yext_trans. }
  assert (H2' : ext q s s2) by (eapply ext_le, H2; lia).
  pose proof (ext_is_seq _ _ _ _ H2 (Nat.lt_succ_diag_r _) Hq) as Hq2.
  destruct v as [p|]; [|by apply safe_ret, Hnext].
  eapply seq_push_safe; [apply H2|exact Hq2|done|]. intros c s3 H3 Hq3 _. apply Hnext; [by eapply yext_trans|done].
Qed.

Lemma imap_step fuel : value_spec fuel -> imap_spec fuel -> imap_spec (S fuel).
Proof.
  intros Hvalue Hloop q msz cap base s Hi Hq. cbn [inline_map_loop]. apply safe_bind, safe_get, safe_bind, safe_get.
  pose proof (is_map_lt _ _ _ _ Hq) as Hlt. case_match eqn:E0; [by apply safe_ret, yext_refl|].
  apply safe_bind, safe_get, safe_bind. apply (comma_safe _ (S q)); [done|]. intros s1 H1.
  apply safe_bind. eapply (scan_safe _ (S q)); [apply H1|apply plain_scalar_ok, H1|]. intros k s2 H2 (kv & -> & _).
  apply safe_bind, safe_put, safe_bind, safe_get, safe_bind.
  pose proof (skip_ws_ext _ _ _ (yext_trans _ _ _ _ H1 H2)) as H3.
  apply (advance_if_safe _ (S q)); [apply H3|done..|]. intros s4 H4. apply safe_bind, safe_put, safe_bind.
  pose proof (skip_ws_ext _ _ _ (yext_trans _ _ _ _ H3 H4)) as H5.
  eapply flow_value_safe; [done|exact H5|done|exact id|]. intros v s6 H6 Hf6. apply safe_bind.
  assert (Hput : forall v s7, ext (S q) s s7 -> fresh (S q) s7 v ->
    safe (budget 2 (S fuel) s) (empty_scalar v ;! let! r := yaml_mapping_append q msz cap kv v in
      match r with
      | None => yret false
      | Some (msz, cap) => yput skip_ws ;! let! now := yget pos in
          if (now =? pos s)%nat then set_error MSG_MAP ;! yret true else inline_map_loop fuel q msz cap base
      end) s7 (fun _ s' => ext q s s')).
  { intros u s7 H7 Hf7. apply safe_bind. eapply empty_scalar_safe; [apply H7|exact Hf7|]. intros s8 H8 Hf8.
    pose proof (yext_trans _ _ _ _ H7 H8) as H08.
    pose proof (ext_is_map _ _ _ _ _ _ H08 (Nat.lt_succ_diag_r _) Hq) as Hq8.
    apply safe_bind. eapply append_safe; [apply H8|exact Hq8|exact Hf8|]. intros cap' s9 H9 Hq9.
    apply flow_round_safe; [eapply yext_trans; [eapply ext_le; [|exact H08]; lia|done]|]. intros s10 H10 Hl10 ->.
    eapply (call_safe _ 2 2 (S fuel) fuel); [apply Hloop; [apply H10|]|exact H10|done|lia|].
    - destruct Hq9 as (n & m & Hn & Hc). exists n, m. by rewrite skip_ws_nodes.
    - intros x s11 H11. by eapply yext_trans. }
  destruct v as [p|]; [by apply safe_ret, Hput|]. pose proof (e_more _ _ _ H6).
  apply new_scalar_safe; [apply H6|]. intros s7 H7 Hf7. apply Hput.
  - eapply yext_trans; [exact H6|]. eapply ext_le, H7. lia.
  - intros x Hx. specialize (Hf7 x Hx). lia.
Qed.

(** ** The kinds of values *)

Lemma ext_advance n0 s c : inv s -> peek s = c -> c <> 0 -> wordy c = false ->
  ext n0 s (advance s) /\ all_nodes (advance s) = all_nodes s /\ (length (aft (advance s)) < length (aft s))%nat.
Proof.
  intros Hi Hp Hc Hw. destruct (advance_peek_good _ _ Hp Hc Hw) as [Hgd Hl].
  split_and!; [by apply ext_good|apply (mv_nodes _ _ (proj1 Hgd))|done].
Qed.

Lemma made_later n0 s0 s r s' : ext n0 s0 s -> (n0 <= length (all_nodes s))%nat ->
  made (length (all_nodes s)) s r s' -> made n0 s0 r s'.
Proof. intros He Hl Hm. eapply made_ext; [exact He|]. by eapply made_le. Qed.

(** The end of a value: its node gets its anchor and its tag. *)
Lemma finish_safe G n0 p r s0 s : ext n0 s0 s -> fresh n0 s r -> safe G (pv_apply p r) s (made n0 s0).
Proof.
  intros He Hf. eapply apply_safe; [apply He|exact Hf|]. intros s' H1 Hf'. split; [by eapply yext_trans|done].
Qed.

Lemma alias_safe G p s : inv s -> peek s = 42 -> safe G (parse_alias_value p) s (made (length (all_nodes s)) s).
Proof.
  intros Hi Hp. set (n0 := length (all_nodes s)). destruct (ext_advance n0 s 42 Hi Hp ltac:(done) eq_refl) as (H1 & Hn1 & _).
  apply safe_bind, safe_put, safe_bind. eapply (scan_safe _ n0); [apply H1|apply name_scan_ok, H1|].
  intros nm s2 H2 _. pose proof (yext_trans _ _ _ _ H1 H2) as H02. apply safe_bind, lookup_anchor_safe; [apply H2|].
  intros [q|] Hq.
  - apply safe_bind, deep_copy_safe; [apply H2|done|]. intros r s3 H3 Hf3. pose proof (e_more _ _ _ H02) as Hm.
    assert (H03 : ext n0 s s3) by (eapply yext_trans; [exact H02|]; by eapply ext_le).
    assert (Hf : fresh n0 s3 r) by (intros x Hx; specialize (Hf3 x Hx); lia). clear H3 Hf3.
    destruct r as [c|]; [|by apply safe_ret]. apply safe_bind.
    assert (Hreg : forall s4, ext n0 s3 s4 -> safe G (register_anchor (panchor p) c ;! yret (Some c)) s4 (made n0 s)).
    { intros s4 H4. pose proof (fresh_ext _ _ _ _ _ H4 Hf) as Hf4. apply safe_bind.
      eapply register_safe; [apply H4|by apply Hf4|]. intros s5 H5. apply safe_ret. split; [eauto using yext_trans|].
      by eapply fresh_ext. }
    destruct (ptag p); [|by apply safe_ret, Hreg, yext_refl, H03].
    eapply label_safe; [apply H03|by apply Hf|done|apply Hreg].
  - apply safe_bind, set_error_safe; [apply H02|]. intros s3 H3 _ _. apply safe_ret. split; [|by intros ? [=]].
    eapply yext_trans; [exact H02|]. apply ext_good; [apply H02|done].
Qed.

Lemma quoted_safe G quote p s : inv s -> peek s = quote -> quote = 34 \/ quote = 39 ->
  safe G (parse_quoted_value quote p) s (made (length (all_nodes s)) s).
Proof.
  intros Hi Hp Hq. set (n0 := length (all_nodes s)).
  destruct (ext_advance n0 s quote Hi Hp) as (H1 & Hn1 & _); [by destruct Hq as [-> | ->]..|].
  apply safe_bind. unfold parse_quoted_string. apply safe_bind, safe_put, safe_bind, grant_safe; [apply H1|].
  apply safe_bind, safe_get. eapply (scan_safe _ n0); [apply H1|apply quoted_loop_ok; [done..|apply H1]|].
  intros v s2 H2 _. pose proof (yext_trans _ _ _ _ H1 H2) as H02. pose proof (e_more _ _ _ H02).
  eapply scalar_node_safe; [apply H2|]. intros s3 H3 Hf3. apply finish_safe.
  - eapply yext_trans; [exact H02|]. by eapply ext_le.
  - intros x Hx. specialize (Hf3 x Hx). lia.
Qed.

Lemma chomp_safe G ch cap buf s (Q : option (list Z) -> yctx -> Prop) :
  granted s = [] -> (forall b, Q (Some b) s) -> safe G (yaml_apply_chomp ch cap buf) s Q.
Proof.
  intros Hg HQ. destruct ch; simpl; try (by apply safe_ret, HQ). destruct (last buf); [|by apply safe_ret, HQ].
  case_match; [by apply safe_ret, HQ|]. apply safe_bind. destruct (append_ok s cap buf 10 Hg) as [cap' Hr].
  eapply safe_done; [exact Hr|]. by apply safe_ret, HQ.
Qed.

Lemma block_safe fuel (fo : bool) p s : inv s -> peek s = (if fo then 62 else 124) ->
  safe (budget 1 (S fuel) s) (parse_block_scalar_value fuel fo p) s (made (length (all_nodes s)) s).
Proof.
  intros Hi Hp. set (n0 := length (all_nodes s)).
  destruct (ext_advance n0 s _ Hi Hp) as (H1 & Hn1 & Hl1); [by destruct fo..|].
  apply safe_bind, safe_put, safe_bind, block_header_ok. intros h s2 Hm2 Ho2.
  assert (H2 : ext n0 (advance s) s2) by (by apply ext_good; [apply H1|split]).
  pose proof (yext_trans _ _ _ _ H1 H2) as H02. apply safe_bind, grant_safe; [apply H2|]. apply safe_bind.
  eapply safe_mono; [apply block_lines_ok, H2| |].
  { intros [Ht Hb]. pose proof (e_len _ _ _ H2). rewrite (e_text _ _ _ H02). apply tame_at in Ht as [_ Ht].
    split; [done|lia]. }
  intros r s3 [Hgd [b ->]]. pose proof (yext_trans _ _ _ _ H02 (ext_good n0 _ _ (e_inv _ _ _ H2) Hgd)) as H03.
  apply safe_bind, chomp_safe; [apply H03|]. intros buf. pose proof (e_more _ _ _ H03).
  eapply scalar_node_safe; [apply H03|]. intros s4 H4 Hf4. apply finish_safe.
  - eapply yext_trans; [exact H03|]. by eapply ext_le.
  - intros x Hx. specialize (Hf4 x Hx). lia.
Qed.

Lemma block_seq_safe fuel base p s : seq_spec fuel -> inv s ->
  safe (budget 1 (S fuel) s)
    (let! seq := alloc_node new_sequence in
     match seq with
     | None => pv_apply p None
     | Some q =>
         let! ok := ygrant in
         if negb ok then pv_apply p None else
         upd_node q (set_content (YSequence (Some []))) ;!
         let! r := seq_loop fuel q 8 base in pv_apply p r
     end) s (made (length (all_nodes s)) s).
Proof.
  intros Hseq Hi. apply (seq_init_safe _ (fun q => let! r := seq_loop fuel q 8 base in pv_apply p r)); [done|].
  intros s1 H1 Hq Ha. apply safe_bind.
  eapply (call_safe _ 1 0 (S fuel) fuel); [apply Hseq; [apply H1|exact Hq]|exact H1|exact id|rewrite Ha; lia|].
  intros r s2 [H2 Hf2]. apply finish_safe; [by eapply yext_trans|done].
Qed.

(** The opening of a flow value: its bracket, its node with an empty array. *)
Lemma flow_open_safe {B} G c f open (e : Y B) (k : nat -> Y B) s (Q : B -> yctx -> Prop) (n0 := length (all_nodes s)) :
  inv s -> peek s = open -> open <> 0 -> wordy open = false ->
  content_ok n0 (S n0) (content (f (Node c None None))) ->
  (forall s', ext n0 s s' -> all_nodes s' !! n0 = Some (f (Node c None None)) ->
     (length (aft s') < length (aft s))%nat -> safe G (k n0) s' Q) ->
  safe G (yput advance ;!
          let! node := alloc_node c in
          match node with
          | None => e
          | Some q =>
              let! ok := ygrant in
              (if (ok : bool) then upd_node q f else yret tt) ;! yput skip_ws ;! k q
          end) s Q.
Proof.
  intros Hi Hp Ho Hw Hc HQ. destruct (ext_advance n0 s open Hi Hp Ho Hw) as (H1 & Hn1 & Hl1).
  apply safe_bind, safe_put. apply alloc_bind; [apply H1|]. intros s2 Hw2.
  apply safe_bind, grant_safe; [by eapply with_nodes_granted; [apply H1|]|]. apply safe_bind.
  eapply upd_last; [exact Hw2|]. intros s3 Hw3. rewrite Hn1.
  assert (H3 : ext n0 s s3).
  { eapply yext_trans; [exact H1|]. unfold n0. rewrite <- Hn1. eapply ext_app; [apply H1|exact Hw3|].
    by rewrite Hn1. }
  rewrite Hn1 in Hw3.
  destruct Hw3 as (_ & Ha3 & _ & _ & Hns). apply safe_bind, safe_put, HQ; [by apply skip_ws_ext| |].
  - rewrite skip_ws_nodes, Hns. by rewrite list_lookup_middle.
  - pose proof (mv_len _ _ (proj1 (skip_ws_good s3))). rewrite Ha3 in *. lia.
Qed.

(** Its closing, after a loop that leaves the node [q] in place. *)
Lemma flow_end_safe G n0 q close msg p (r : bool) s0 s :
  ext n0 s0 s -> (n0 <= q < length (all_nodes s))%nat -> close <> 0 -> wordy close = false ->
  safe G (if negb r then yret None else flow_close close msg ;! pv_apply p (Some q)) s (made n0 s0).
Proof.
  intros He Hq Hc Hw. destruct r; [|by apply safe_ret; split; [|intros ? [=]]].
  apply safe_bind, (flow_close_safe _ n0); [apply He|done..|]. intros s1 H1. apply finish_safe; [by eapply yext_trans|].
  intros ? [= <-]. pose proof (e_more _ _ _ H1). lia.
Qed.

Lemma flow_seq_safe fuel base p s : iseq_spec fuel -> inv s -> peek s = 91 ->
  safe (budget 1 (S fuel) s)
    (yput advance ;!
     let! seq := alloc_node new_sequence in
     match seq with
     | None => yundef
     | Some q =>
         let! ok := ygrant in
         (if (ok : bool) then upd_node q (set_content (YSequence (Some []))) else yret tt) ;!
         yput skip_ws ;!
         let! r := inline_seq_loop fuel q 4 base in
         if negb r then yret None else flow_close 93 MSG_SEQ ;! pv_apply p (Some q)
     end) s (made (length (all_nodes s)) s).
Proof.
  intros Hseq Hi Hp. eapply flow_open_safe; [done|exact Hp|done|done|by eexists|]. intros s1 H1 Hn Hl.
  apply safe_bind. eapply (call_safe _ 1 2 (S fuel) fuel); [apply Hseq; [apply H1|by eexists _, _]|exact H1|exact id|lia|].
  intros r s2 H2. apply flow_end_safe; [by eapply yext_trans| |done..].
  pose proof (lookup_lt_Some _ _ _ Hn). pose proof (e_more _ _ _ H2). lia.
Qed.

Lemma flow_map_safe fuel base p s : imap_spec fuel -> inv s -> peek s = 123 ->
  safe (budget 1 (S fuel) s)
    (yput advance ;!
     let! map := alloc_node new_mapping in
     match map with
     | None => yundef
     | Some q =>
         let! ok := ygrant in
         (if (ok : bool) then set_mapping q (Some (replicate 4 free_slot)) else yret tt) ;!
         yput skip_ws ;!
         let! r := inline_map_loop fuel q 0 4 base in
         if negb r then yret None else flow_close 125 MSG_MAP ;! pv_apply p (Some q)
     end) s (made (length (all_nodes s)) s).
Proof.
  intros Hmap Hi Hp. pose proof (array_empty (length (all_nodes s)) (S (length (all_nodes s))) 4 ltac:(lia)) as He.
  eapply flow_open_safe; [done|exact Hp|done|done|simpl; eauto|]. intros s1 H1 Hn Hl.
  apply safe_bind. eapply (call_safe _ 1 2 (S fuel) fuel); [apply Hmap; [apply H1|by eexists _, _]|exact H1|exact id|lia|].
  intros r s2 H2. apply flow_end_safe; [by eapply yext_trans| |done..].
  pose proof (lookup_lt_Some _ _ _ Hn). pose proof (e_more _ _ _ H2). lia.
Qed.

Lemma none_safe G s n0 s0 : ext n0 s0 s -> (n0 <= length (all_nodes s))%nat ->
  safe G (alloc_node YNone) s (made n0 s0).
Proof.
  intros He Hl. apply alloc_safe; [apply He|done|]. intros s' H1 Hf _. eapply made_later; [exact He|done|done].
Qed.

Lemma plain_safe fuel base p s : map_spec fuel -> inv s ->
  safe (budget 1 (S fuel) s)
    (let! saved := yget (fun s => (bef s, aft s)) in
     let! scalar := parse_plain_scalar in
     match scalar with
     | None => alloc_node YNone
     | Some sc =>
         yput skip_ws ;!
         let! c := yget peek in
         if c =? 58 then
           yput (fun s => set_cursor (fst saved) (snd saved) (line s) s) ;!
           let! b := ymap_init in
           match b with
           | None => pv_apply p None
           | Some b => let! r := map_loop fuel b base in pv_apply p r
           end
         else
           let! n := alloc_node new_scalar in
           match n with
           | None => yret None
           | Some q =>
               upd_node q (set_content (YScalar (Some sc) (Z.of_nat (length sc)))) ;!
               pv_apply p (Some q)
           end
     end) s (made (length (all_nodes s)) s).
Proof.
  intros Hmap Hi. set (n0 := length (all_nodes s)). apply safe_bind, safe_get, safe_bind.
  destruct (plain_scalar_ok s (i_granted _ Hi)) as (x & s1 & Hf & Hm & Ho & sc & -> & _).
  eapply safe_done; [exact Hf|]. assert (H1 : ext n0 s s1) by (by apply ext_good; [|split]).
  apply safe_bind, safe_put, safe_bind, safe_get. pose proof (skip_ws_ext _ _ _ H1) as H2.
  assert (Hn2 : all_nodes (skip_ws s1) = all_nodes s) by (by rewrite skip_ws_nodes, (mv_nodes _ _ Hm)).
  case_match.
  - apply safe_bind, safe_put. set (s3 := set_cursor _ _ _ _).
    assert (Hgd : good s s3).
    { split; [|done]. split; simpl; try done; [|by rewrite (mv_anchors _ _ (proj1 (skip_ws_good s1))), (mv_anchors _ _ Hm)].
      by rewrite (i_granted _ (e_inv _ _ _ H2)), (i_granted _ Hi). }
    pose proof (ext_good n0 _ _ Hi Hgd) as H3. assert (Hn3 : all_nodes s3 = all_nodes s) by done.
    apply safe_bind, ymap_init_safe; [apply H3|]. rewrite Hn3. fold n0. intros s4 H4 Hb Ha4.
    apply safe_bind. pose proof (yext_trans _ _ _ _ H3 H4) as H04.
    eapply (call_safe _ 1 0 (S fuel) fuel); [apply Hmap; [apply H4|exact Hb]|exact H04|exact id| |].
    + rewrite Ha4. simpl. lia.
    + intros r s5 [H5 Hf5]. simpl in *. apply finish_safe; [by eapply yext_trans|done].
  - eapply scalar_node_safe; [apply H2|]. rewrite Hn2. fold n0. intros s3 H3 Hf3. apply finish_safe; [by eapply yext_trans|done].
Qed.

Lemma value_step fuel : seq_spec fuel -> map_spec fuel -> iseq_spec fuel -> imap_spec fuel -> value_spec (S fuel).
Proof.
  intros Hseq Hmap Hiseq Himap base s Hi. cbn [parse_value]. set (n0 := length (all_nodes s)).
  apply safe_bind, safe_put. set (s1 := skip_ws_nl_comments s).
  pose proof (ext_good n0 _ _ Hi (skip_comments_good s) : ext n0 s s1) as H1. pose proof (e_more _ _ _ H1) as Hm1.
  apply safe_bind, safe_get. destruct (at_end s1); [by apply none_safe|].
  apply safe_bind, prefix_parse_ok; [apply H1|]. intros p s2 Hgd.
  pose proof (yext_trans _ _ _ _ H1 (ext_good n0 _ _ (e_inv _ _ _ H1) Hgd)) as H2. pose proof (e_more _ _ _ H2) as Hm2.
  apply safe_bind, safe_get, safe_bind, safe_get.
  assert (Hlift : forall f, safe (budget 1 (S fuel) s2) f s2 (made (length (all_nodes s2)) s2) ->
    safe (budget 1 (S fuel) s) f s2 (made n0 s)).
  { intros f Hf. eapply (call_safe _ 1 1 (S fuel) (S fuel)); [exact Hf|exact H2|exact id| |].
    - pose proof (e_len _ _ _ H2). lia.
    - intros r s3. by apply made_later. }
  assert (Hi2 := e_inv _ _ _ H2).
  destruct (peek s2 =? 42) eqn:E1; [apply Z.eqb_eq in E1; by apply Hlift, alias_safe|].
  destruct ((peek s2 =? 34) || (peek s2 =? 39)) eqn:E2.
  { apply orb_true_iff in E2. apply Hlift, quoted_safe; [done..|]. rewrite <- !Z.eqb_eq. tauto. }
  destruct ((peek s2 =? 124) || (peek s2 =? 62)) eqn:E3.
  { apply Hlift, block_safe; [done|]. case_match eqn:E4; [by apply Z.eqb_eq in E4|].
    rewrite orb_false_r in E3. by apply Z.eqb_eq in E3. }
  destruct (pv_is_seq_dash s2); [by apply Hlift, block_seq_safe|].
  destruct (peek s2 =? 91) eqn:E5; [apply Z.eqb_eq in E5; by apply Hlift, flow_seq_safe|].
  destruct (peek s2 =? 123) eqn:E6; [apply Z.eqb_eq in E6; by apply Hlift, flow_map_safe|].
  by apply Hlift, plain_safe.
Qed.

Lemma no_fuel_safe {A} k s (Q : A -> yctx -> Prop) : safe (budget k 0 s) (fun _ => NoFuel) s Q.
Proof. intros [_ Hb]. lia. Qed.

Lemma all_specs fuel : value_spec fuel /\ seq_spec fuel /\ map_spec fuel /\ iseq_spec fuel /\ imap_spec fuel.
Proof.
  induction fuel as [|fuel (IH1 & IH2 & IH3 & IH4 & IH5)].
  - split_and!.
    + intros base s Hi. apply no_fuel_safe.
    + intros q cap base s Hi Hq. apply no_fuel_safe.
    + intros b base s Hi Hb. apply safe_bind, safe_get. case_match; [|apply no_fuel_safe]. apply safe_ret.
      split; [by apply yext_refl|]. intros ? [= <-]. split; [done|]. by eapply is_map_lt.
    + intros q cap base s Hi Hq. apply safe_bind, safe_get, safe_bind, safe_get.
      case_match; [by apply safe_ret, yext_refl|apply no_fuel_safe].
    + intros q msz cap base s Hi Hq. apply safe_bind, safe_get, safe_bind, safe_get.
      case_match; [by apply safe_ret, yext_refl|apply no_fuel_safe].
  - split_and!; [by apply value_step|by apply seq_step|by apply map_step|by apply iseq_step|by apply imap_step].
Qed.

(** ** Documents *)

Lemma directives_good n s : good s (skip_directives_loop n s).
Proof.
  revert s. induction n as [|n IH]; intros s; simpl; [apply good_refl|]. case_match; [apply good_refl|].
  case_match; [|case_match eqn:E].
  - eapply good_trans, IH. eapply good_trans, skip_eol_good.
    split; [apply advance_while_moves|intros _; apply advance_line_off].
  - eapply good_trans, IH. unfold peek in E. destruct (aft s) as [|c a] eqn:Ha; [done|].
    by eapply advance_good, ws_not_wordy.
  - apply good_refl.
Qed.

Lemma marker_good marker s : good s (skip_document_marker marker s).
Proof.
  unfold skip_document_marker. eapply good_trans, skip_eol_good.
  split; [|intros _; apply advance_line_off]. eapply moves_trans, advance_while_moves.
  split; simpl; try done.
  - unfold text_of. simpl. by rewrite rev_app_distr, rev_involutive, <- app_assoc, take_drop.
  - rewrite length_drop. lia.
Qed.

Lemma prolog_good s : good s (skip_prolog s).
Proof.
  unfold skip_prolog. eapply good_trans; [apply directives_good|]. case_match; [apply marker_good|apply good_refl].
Qed.

Lemma start_inv input : inv (start_ctx input []).
Proof.
  unfold start_ctx. case_decide.
  - split; simpl; [done| |by intros p n Hp|by constructor]. unfold off_word. by destruct (drop 3 input).
  - split; simpl; [done| |by intros p n Hp|by constructor]. unfold off_word. by destruct input.
Qed.

Lemma start_text input : text_of (start_ctx input []) = input.
Proof.
  unfold start_ctx. case_decide as E; [|done]. unfold text_of. simpl. rewrite <- (take_drop 3 input) at 2. by rewrite E.
Qed.

(** What reading a document does when memory is granted: it is defined, it
    returns if the text is tame and the fuel is in proportion, and then the
    arena is sound and the root is in it. *)
Lemma yaml_document_safe fuel input :
  match yaml_parse_string fuel input [] with
  | Done (rc, r, s) => inv s /\ fresh 0 s r /\ rc = match r with Some _ => 0 | None => -1 end
  | NoFuel => ~ (tame input = true /\ (3 * length input + 1 < fuel)%nat)
  | Undefined => False
  end.
Proof.
  unfold yaml_parse_string. destruct input as [|c0 t0] eqn:Hin; [|rewrite <- Hin; clear c0 t0 Hin].
  - pose proof (start_inv []) as Hi.
    assert (H : safe True (let! n := alloc_node new_scalar in empty_scalar n ;! yret n) (start_ctx [] [])
      (fun r s => inv s /\ fresh 0 s r /\ is_Some r)).
    { apply safe_bind, new_scalar_safe; [done|]. intros s1 H1 Hf1. apply safe_bind.
      eapply (empty_scalar_safe _ 0); [apply H1|done|]. intros s2 H2 Hf2. apply safe_ret. split_and!; [apply H2|done|by eexists]. }
    unfold safe in H. destruct (ybind (alloc_node new_scalar) _ _) as [[r s]| |]; [|by destruct (H I)|done].
    by destruct H as (? & ? & [? ->]).
  - pose proof (start_inv input) as Hi. destruct (all_specs fuel) as [Hv _].
    assert (H : safe (tame input = true /\ (3 * length input + 1 < fuel)%nat)
      (let! ok := ygrant in if negb ok then yret (AIRY_EINVAL, None) else
       yput skip_prolog ;! let! root := parse_value fuel (-1) in
       yret (match root with Some _ => 0 | None => -1 end, root)) (start_ctx input [])
      (fun r s => inv s /\ fresh 0 s (snd r) /\ fst r = match snd r with Some _ => 0 | None => -1 end)).
    { apply safe_bind, grant_safe; [apply Hi|]. apply safe_bind, safe_put, safe_bind.
      pose proof (ext_good 0 _ _ Hi (prolog_good (start_ctx input []))) as H1.
      eapply safe_mono; [apply Hv, H1| |].
      - intros [Ht Hb]. split; [by rewrite (e_text _ _ _ H1), start_text|].
        pose proof (e_len _ _ _ H1). pose proof (f_equal length (start_text input)) as Hl. unfold text_of in Hl.
        rewrite length_app in Hl. lia.
      - intros r s [H2 Hf2]. apply safe_ret. split_and!; [apply H2| |done]. intros q Hq. specialize (Hf2 q Hq). lia. }
    unfold safe in H. destruct (ybind ygrant _ _) as [[[rc r] s]| |]; done.
Qed.

(** C7: The YAML reader is memory-safe: on any bytes, with any fuel and memory
    granted, no step of the parsers reads or writes outside an array or a null
    pointer; when it returns, every pointer of the document leads to a younger
    node (so the document is a finite tree), every mapping ends in a free slot,
    the root is in the document, and the result is 0 exactly when there is a
    root. *)
Theorem yaml_parse_safe fuel input :
  match yaml_parse_string fuel input [] with
  | Done (rc, r, s) => arena_ok (all_nodes s) /\ fresh 0 s r /\ rc = match r with Some _ => 0 | None => -1 end
  | NoFuel => True
  | Undefined => False
  end.
Proof.
  pose proof (yaml_document_safe fuel input) as H. destruct (yaml_parse_string fuel input []) as [[[rc r] s]| |]; [|done..].
  destruct H as (Hi & Hf & Hr). split_and!; [apply Hi|done..].
Qed.

(** C9: The YAML reader returns: on a text without tabs in which no dash at the
    start of a word is glued to a key ([-k: v]) or followed by a carriage
    return, it needs a number of nested calls and rounds that is linear in the
    length of the text. *)
Theorem yaml_parse_terminates input fuel :
  tame input = true -> (3 * length input + 1 < fuel)%nat ->
  exists rc r s, yaml_parse_string fuel input [] = Done (rc, r, s).
Proof.
  intros Ht Hl. pose proof (yaml_document_safe fuel input) as H.
  destruct (yaml_parse_string fuel input []) as [[[rc r] s]| |]; [by eauto|tauto|done].
Qed.

Definition sample_yaml : cstr :=
  cs "a: &x {k: [1, 'two']}" ++ [10] ++ cs "b:" ++ [10] ++ cs "  - -5" ++ [10] ++ cs "  - <<: *x" ++ [10].

Lemma yaml_parse_terminates_witness :
  tame sample_yaml = true /\ exists rc r s, yaml_parse_string 140 sample_yaml [] = Done (rc, r, s).
Proof. split; [vm_compute; reflexivity|apply (yaml_parse_terminates sample_yaml 140); vm_compute; reflexivity || lia]. Defined.

(** The sample: an anchored flow mapping, a negative number, a merge. *)
Example sample_yaml_tree :
  yaml_tree 140 sample_yaml =
    let m := TMap [(cs "k", TSeq [TScalar (cs "1"); TScalar (cs "two")])] in
    Done (0, Some (TMap [(cs "a", m); (cs "b", TSeq [TScalar (cs "-5"); m])]), None).
Proof. vm_compute. reflexivity. Qed.

(** ** Texts that are not tame are read forever *)

(** A bare dash before a carriage return: the item is an empty sequence that
    consumes nothing. *)
Lemma bare_dash_item fuel s rest (n0 := length (all_nodes s)) :
  inv s -> bef s = [] -> aft s = 45 :: 13 :: rest ->
  safe False (parse_value fuel 0) s
    (fun r s' => r = Some n0 /\ ext n0 s s' /\ fresh n0 s' r /\ bef s' = [] /\ aft s' = aft s).
Proof.
  intros Hi Hb Ha. destruct fuel as [|fuel]; [by intros []|].
  assert (Hp : peek s = 45) by (unfold peek; by rewrite Ha).
  assert (Hd : pv_is_seq_dash s = true) by (unfold pv_is_seq_dash; by rewrite Ha).
  cbn [parse_value]. apply safe_bind, safe_put. rewrite (skip_comments_stop s 45 (13 :: rest)) by done.
  apply safe_bind, safe_get. unfold at_end at 1. rewrite Ha. apply safe_bind.
  unfold pv_prefix_parse. apply safe_bind, safe_get. rewrite Hp. apply safe_bind, safe_ret, safe_bind, safe_get.
  rewrite Hp. apply safe_bind, safe_ret, safe_ret, safe_bind, safe_get, safe_bind, safe_get. rewrite Hp, Hd.
  apply alloc_bind; [done|]. intros s1 Hw1. apply safe_bind, grant_safe; [by eapply with_nodes_granted|].
  apply safe_bind. eapply upd_last; [exact Hw1|]. intros s2 Hw2.
  assert (H2 : ext n0 s s2) by (eapply ext_app; [done|exact Hw2|by eexists]).
  destruct Hw2 as (Hb2 & Ha2 & _ & _ & Hns). rewrite Hb in Hb2. rewrite Ha in Ha2.
  apply safe_bind. destruct fuel as [|fuel]; [by intros []|].
  cbn [seq_loop]. apply safe_bind, safe_put. rewrite (skip_comments_stop s2 45 (13 :: rest)) by done.
  apply safe_bind, safe_get. unfold at_end at 1. rewrite Ha2. apply safe_bind, safe_get.
  unfold line_indent at 1. rewrite Hb2. apply safe_ret. apply safe_ret. split_and!; [done..| |done|congruence].
  intros q [= <-]. rewrite Hns, length_app. unfold n0. simpl. lia.
Qed.

Lemma ext_bef n0 s s' : ext n0 s s' -> aft s' = aft s -> bef s' = bef s.
Proof.
  intros He Ha. pose proof (e_text _ _ _ He) as Ht. unfold text_of in Ht. rewrite Ha in Ht.
  apply app_inv_tail in Ht. by apply (f_equal (@rev Z)) in Ht; rewrite !rev_involutive in Ht.
Qed.

Lemma bare_dash_stuck fuel q cap s rest :
  inv s -> is_seq s q -> bef s = [] -> aft s = 45 :: 13 :: rest ->
  safe False (seq_loop fuel q cap (-1)) s (fun _ _ => False).
Proof.
  revert cap s. induction fuel as [|fuel IH]; intros cap s Hi Hq Hb Ha; [by intros []|].
  assert (Hp : peek s = 45) by (unfold peek; by rewrite Ha).
  cbn [seq_loop]. apply safe_bind, safe_put. rewrite (skip_comments_stop s 45 (13 :: rest)) by done.
  apply safe_bind, safe_get. unfold at_end at 1. rewrite Ha. apply safe_bind, safe_get.
  unfold line_indent at 1. rewrite Hb. cbn [line_prefix leading_spaces]. apply safe_bind, safe_get. rewrite Hp.
  apply safe_bind, safe_put, safe_bind, safe_get. rewrite (advance_eq s 45 _ Ha).
  change (peek (set_cursor _ (13 :: rest) _ _)) with 13. apply safe_bind, safe_put.
  assert (Hs : retreat (set_cursor (45 :: bef s) (13 :: rest) (step_line 45 (line s)) s) = s).
  { unfold retreat. simpl. destruct s. simpl in *. by subst. }
  change (is_ws 13 || (13 =? 10)) with false. cbv iota. rewrite Hs. apply safe_bind.
  replace (line_indent s) with 0 by (unfold line_indent; by rewrite Hb).
  eapply safe_mono; [by eapply bare_dash_item|done|]. intros r s1 (-> & H1 & Hf & Hb1 & Ha1).
  pose proof (is_seq_lt _ _ Hq) as Hlt. apply safe_bind.
  eapply seq_push_safe; [apply H1|by eapply (ext_is_seq _ _ _ _ H1)| |].
  - intros x Hx. specialize (Hf x Hx). lia.
  - intros c s2 H2 Hq2 Ha2. apply safe_bind, safe_get. unfold at_end. rewrite Ha2, Ha1, Ha.
    apply IH; [apply H2|done| |congruence]. rewrite <- Hb1. by eapply ext_bef.
Qed.

(** A document that starts with a dash and a carriage return, as a list
    item on a line of its own in a file with CR LF line ends, is read forever
    (and grows the document at every round): no fuel is enough, whatever
    follows. *)
Theorem yaml_crlf_dash_diverges fuel rest : yaml_parse_string fuel (45 :: 13 :: rest) [] = NoFuel.
Proof.
  set (s := start_ctx (45 :: 13 :: rest) []). pose proof (start_inv (45 :: 13 :: rest) : inv s) as Hi.
  assert (Hs : skip_prolog s = s) by done.
  assert (Hstuck : safe False (parse_value fuel (-1)) s (fun _ _ => False)).
  { destruct fuel as [|fuel]; [by intros []|].
    cbn [parse_value]. apply safe_bind, safe_put. rewrite (skip_comments_stop s 45 (13 :: rest)) by done.
    apply safe_bind, safe_get, safe_bind. eapply safe_done; [reflexivity|]. apply safe_bind, safe_get, safe_bind, safe_get.
    change (peek s) with 45. change (pv_is_seq_dash s) with true. cbv iota.
    apply (seq_init_safe _ (fun q => let! r := seq_loop fuel q 8 (-1) in pv_apply _ r)); [done|].
    intros s1 H1 Hq Ha. apply safe_bind. apply (safe_mono _ False _ _ (fun _ _ => False)); [|done|by intros ? ? []].
    eapply bare_dash_stuck; [apply H1|exact Hq| |exact Ha]. exact (ext_bef _ _ _ H1 Ha). }
  unfold yaml_parse_string, ybind, yput. fold s. rewrite grant_ok by done. simpl. rewrite Hs.
  unfold safe in Hstuck. by destruct (parse_value fuel (-1) s) as [[r s']| |].
Qed.

Lemma tab_line_stuck fo b s rest : aft s = 9 :: rest -> yaml_read_block_line fo b s = Done (BGo b, s).
Proof.
  intros Ha. unfold yaml_read_block_line, ybind, yget, yput. rewrite (advance_while_stop _ s 9 rest Ha eq_refl).
  unfold at_end. rewrite Ha. assert (Hp : peek s = 9) by (unfold peek; by rewrite Ha). by rewrite Hp.
Qed.

Lemma tab_lines_stuck fuel fo b s rest : aft s = 9 :: rest -> yaml_read_block_lines fuel fo b s = NoFuel.
Proof.
  intros Ha. induction fuel as [|fuel IH]; simpl; unfold ybind at 1, yget at 1, at_end at 1; rewrite Ha; [done|].
  unfold ybind. by rewrite (tab_line_stuck fo b s rest Ha).
Qed.

(** A block scalar with a line that starts with a tab is read forever: no
    fuel is enough, whatever follows. *)
Theorem yaml_block_tab_diverges fuel rest : yaml_parse_string fuel (124 :: 10 :: 9 :: rest) [] = NoFuel.
Proof.
  set (s := start_ctx (124 :: 10 :: 9 :: rest) []).
  assert (Hs : skip_prolog s = s) by done.
  assert (Hstuck : safe False (parse_value fuel (-1)) s (fun _ _ => False)).
  { destruct fuel as [|fuel]; [by intros []|].
    cbn [parse_value]. apply safe_bind, safe_put. rewrite (skip_comments_stop s 124 (10 :: 9 :: rest)) by done.
    apply safe_bind, safe_get, safe_bind. eapply safe_done; [reflexivity|]. apply safe_bind, safe_get, safe_bind, safe_get.
    change (peek s) with 124. cbv iota. apply safe_bind, safe_put, safe_bind. eapply safe_done; [reflexivity|].
    apply safe_bind, grant_safe; [done|]. apply safe_bind. unfold safe.
    rewrite (tab_lines_stuck _ _ _ _ rest) by reflexivity. by intros []. }
  unfold yaml_parse_string, ybind, yput. fold s. rewrite grant_ok by done. simpl. rewrite Hs.
  unfold safe in Hstuck. by destruct (parse_value fuel (-1) s) as [[r s']| |].
Qed.
