(* ===== verification/YamlDoc.v ===== *)
(** * YAML documents: streams, scalar conversions and serialisation
    (utils/config_unified/yaml_minimal.c, yaml_minimal_scalar.c,
    yaml_minimal_serialize.c)

    A text of several documents is read in one pass over one cursor, each
    document with its own arena; a tree is written to a bounded buffer through
    one shared offset. *)
From S2P Require Import Prelude CLib Yaml YamlSafe YamlTotal.

(** ** Streams of documents *)

(** A document that was read: its root, its nodes and its error message. *)
Record ydoc := YDoc { root : option nat; nodes : list yaml_node; doc_error : option cstr }.

Definition current_doc (r : option nat) : Y ydoc := yget (fun s => YDoc r (all_nodes s) (error_msg s)).

(** A new document for the same cursor; the anchors are forgotten. *)
Definition next_doc (s : yctx) : yctx :=
  set_error_msg None (set_nodes [] 0 (set_anchors [] (anchor_capacity s) s)).

(** The loop of [yaml_parse_multi]; each round consumes a marker, so [rounds]
    is enough when it exceeds the length of the text. *)
Fixpoint multi_loop (rounds fuel : nat) (r : option nat) : Y (list ydoc) :=
  match rounds with
  | O => fun _ => NoFuel
  | S rounds' =>
      let! cur := current_doc r in
      let! e := yget at_end in
      if (e : bool) then yret [cur] else
      yput skip_ws_and_nl ;!
      yput (fun s => if is_document_marker (cs "...") s then skip_ws_and_nl (skip_document_marker (cs "...") s) else s) ;!
      let! e := yget at_end in
      if (e : bool) then yret [cur] else
      yput skip_yaml_directives ;!
      let! marker := yget (is_document_marker (cs "---")) in
      if negb marker then yret [cur] else
      yput (skip_document_marker (cs "---")) ;!
      let! ok := ygrant in
      if negb ok then yret [cur] else
      yput next_doc ;!
      let! r' := parse_value fuel (-1) in
      let! docs := multi_loop rounds' fuel r' in
      yret (cur :: docs)
  end.

(** The code and the documents, the first one first. *)
Definition yaml_parse_multi (fuel : nat) (input : list Z) (g : list bool) : res (Z * list ydoc) :=
  match (let! ok := ygrant in
         if negb ok then yret (AIRY_EINVAL, []) else
         yput skip_prolog ;!
         let! r := parse_value fuel (-1) in
         let! docs := multi_loop (S (length input)) fuel r in
         yret (match r with Some _ => 0 | None => -1 end, docs)) (start_ctx input g) with
  | Done (r, _) => Done r
  | NoFuel => NoFuel
  | Undefined => Undefined
  end.

(** A document whose root is a mapping; [None] for the document otherwise, which
    is destroyed.  The text is a C string. *)
Definition yaml_parse_root (fuel : nat) (input : option cstr) (g : list bool) : res (Z * option (nat * yctx)) :=
  match input with
  | None => Done (AIRY_ERR_INVALID_PARAM, None)
  | Some input =>
      match ygrant (start_ctx input g) with
      | Done (false, _) => Done (AIRY_ERR_OUT_OF_MEMORY, None)
      | Done (true, s) =>
          match yaml_parse_string fuel input (granted s) with
          | Done (rc, r, s) =>
              if negb (rc =? 0) then Done (AIRY_ERR_PARSE_ERROR, None) else
              match r with
              | None => Done (AIRY_ERR_PARSE_ERROR, None)
              | Some p =>
                  match all_nodes s !! p with
                  | Some n =>
                      match content n with
                      | YMapping _ => Done (0, Some (p, s))
                      | _ => Done (AIRY_ERR_PARSE_ERROR, None)
                      end
                  | None => Undefined
                  end
              end
          | NoFuel => NoFuel
          | Undefined => Undefined
          end
      | NoFuel => NoFuel
      | Undefined => Undefined
      end
  end.

(** ** Scalars: yaml_minimal_scalar.c *)

Definition scalar_text (n : option yaml_node) : option cstr :=
  match n with Some n => match content n with YScalar v _ => v | _ => None end | None => None end.

Definition yaml_as_string (n : option yaml_node) (default_val : option cstr) : option cstr :=
  match scalar_text n with Some v => Some v | None => default_val end.

Definition yaml_as_int64 (n : option yaml_node) (default_val : Z) : Z :=
  match scalar_text n with
  | Some v => let '(z, n) := strtoll v 0 in if (n =? length v)%nat then z else default_val
  | None => default_val
  end.

Definition yaml_as_double (n : option yaml_node) (default_val : spec_float) : spec_float :=
  match scalar_text n with
  | Some v => let '(d, n) := strtod v in if (n =? length v)%nat then d else default_val
  | None => default_val
  end.

Definition one_of (s : cstr) (l : list cstr) : bool := existsb (fun t => bool_decide (s = t)) l.

Definition yaml_as_bool (n : option yaml_node) (default_val : bool) : bool :=
  match scalar_text n with
  | Some s =>
      if one_of s [cs "true"; cs "yes"; cs "on"; cs "1"] then true
      else if one_of s [cs "false"; cs "no"; cs "off"; cs "0"; cs "null"; cs "~"] then false
      else default_val
  | None => default_val
  end.

(** ** Serialisation: yaml_minimal_serialize.c *)

(** The text in the buffer, and the offset. *)
Abbreviation sink := (list Z * nat)%type.

(** [YAML_APPEND]: what [snprintf] has room for is written, the offset goes on
    by the whole length, up to the size of the buffer. *)
Definition YAML_APPEND (bufsize : nat) (str : cstr) (o : sink) : sink :=
  let '(buf, off) := o in
  let '(buf, off) :=
    if (off <? bufsize)%nat then (take off buf ++ take (bufsize - off - 1) str, (off + length str)%nat)
    else (buf, off) in
  (buf, if (bufsize <? off)%nat then bufsize else off).

Fixpoint yaml_put_indent (bufsize depth : nat) (o : sink) : sink :=
  match depth with
  | O => o
  | S depth' => yaml_put_indent bufsize depth' (YAML_APPEND bufsize (cs "  ") o)
  end.

Definition needs_quotes (v : cstr) : bool :=
  match v with [] => true | _ => existsb (fun c => existsb (fun d => c =? d) [58; 35; 91; 123; 44; 34; 39]) v end.

Definition quote_scalar (v : cstr) : cstr := if needs_quotes v then [34] ++ v ++ [34] else v.

Section dump.
Context (bufsize : nat) (ns : list yaml_node).

(** The loops of [yaml_dump_mapping] and [yaml_dump_sequence] over the entries,
    with what writes a child at the next depth. *)
Fixpoint dump_entries (dump : option nat -> nat -> sink -> option sink) (indent : nat)
    (l : list (option cstr * option nat)) (o : sink) : option sink :=
  match l with
  | [] => Some o
  | (k, v) :: l' =>
      k ← k;
      let o := yaml_put_indent bufsize (S indent) o in
      let o := YAML_APPEND bufsize (k ++ cs ": ") o in
      o ← dump v (S indent) o;
      let o := match l' with [] => o | _ => YAML_APPEND bufsize (cs ",") o end in
      dump_entries dump indent l' (YAML_APPEND bufsize [10] o)
  end.

Fixpoint dump_items (dump : option nat -> nat -> sink -> option sink) (indent : nat)
    (l : list (option nat)) (o : sink) : option sink :=
  match l with
  | [] => Some o
  | v :: l' =>
      o ← dump v (S indent) o;
      let o := match l' with [] => o | _ => YAML_APPEND bufsize (cs ",") o end in
      dump_items dump indent l' (YAML_APPEND bufsize [10] o)
  end.

Definition yaml_dump_mapping (dump : option nat -> nat -> sink -> option sink)
    (m : list (option cstr * option nat)) (indent : nat) (o : sink) : option sink :=
  sz ← mapping_size m;
  if (sz =? 0)%nat then Some (YAML_APPEND bufsize (cs "{}") o) else
  o ← dump_entries dump indent (take sz m) (YAML_APPEND bufsize (cs "{" ++ [10]) o);
  Some (YAML_APPEND bufsize (cs "}") (yaml_put_indent bufsize indent o)).

Definition yaml_dump_sequence (dump : option nat -> nat -> sink -> option sink)
    (l : list (option nat)) (indent : nat) (o : sink) : option sink :=
  if (length l =? 0)%nat then Some (YAML_APPEND bufsize (cs "[]") o) else
  o ← dump_items dump indent l (YAML_APPEND bufsize (cs "[" ++ [10]) o);
  Some (YAML_APPEND bufsize (cs "]") (yaml_put_indent bufsize indent o)).

(** [None]: undefined, or [fuel], the depth, is too small. *)
Fixpoint yaml_dump_append (fuel : nat) (node : option nat) (indent : nat) (o : sink) : option sink :=
  match node with
  | None => Some o
  | Some p =>
      match fuel with
      | O => None
      | S fuel' =>
          n ← ns !! p;
          let o := yaml_put_indent bufsize indent o in
          match content n with
          | YNone => Some (YAML_APPEND bufsize (cs "~") o)
          | YScalar v _ => Some (YAML_APPEND bufsize (quote_scalar (default [] v)) o)
          | YMapping om => m ← om; yaml_dump_mapping (yaml_dump_append fuel') m indent o
          | YSequence ol => yaml_dump_sequence (yaml_dump_append fuel') (default [] ol) indent o
          end
      end
  end.

End dump.

Definition SERIALIZE_SIZE : nat := 4096.

(** [yaml_dump] continues the text of a buffer. *)
Definition yaml_dump (ns : list yaml_node) (fuel : nat) (node : option nat) (buf : cstr) (bufsize indent : nat)
    : option cstr :=
  match node with
  | None => Some buf
  | Some _ =>
      if (bufsize =? 0)%nat || (bufsize <=? length buf)%nat then Some buf else
      o ← yaml_dump_append bufsize ns fuel node indent (buf, length buf);
      Some (take (bufsize - 1) (fst o))
  end.

(** The text of a document; the result is cut where the buffer ends. *)
Definition yaml_serialize (d : ydoc) (fuel : nat) : option cstr :=
  match root d with
  | None => None
  | r => o ← yaml_dump_append SERIALIZE_SIZE (nodes d) fuel r 0 ([], 0%nat);
         Some (take (if (SERIALIZE_SIZE <=? snd o)%nat then SERIALIZE_SIZE - 1 else snd o) (fst o))
  end.

(** *** The reference: the text of a tree *)

Fixpoint pad (n : nat) : cstr := match n with O => [] | S n' => cs "  " ++ pad n' end.

(** Lines with a comma after each but the last. *)
Fixpoint comma_lines (l : list cstr) : cstr :=
  match l with
  | [] => []
  | x :: l' => x ++ (match l' with [] => [] | _ => cs "," end) ++ [10] ++ comma_lines l'
  end.

Fixpoint show (indent : nat) (t : ytree) : cstr :=
  pad indent ++
  match t with
  | TNone => cs "~"
  | TScalar s => quote_scalar s
  | TMap [] => cs "{}"
  | TMap l =>
      cs "{" ++ [10] ++
      comma_lines (map (fun e => pad (S indent) ++ fst e ++ cs ": " ++ show (S indent) (snd e)) l) ++
      pad indent ++ cs "}"
  | TSeq [] => cs "[]"
  | TSeq l => cs "[" ++ [10] ++ comma_lines (map (show (S indent)) l) ++ pad indent ++ cs "]"
  end.

(** The sink has the text [F], as far as the buffer goes. *)
Definition holds_text (bufsize : nat) (F : cstr) (o : sink) : Prop :=
  o = (take (bufsize - 1) F, Nat.min bufsize (length F)).

Lemma append_holds bufsize F str o :
  (0 < bufsize)%nat -> holds_text bufsize F o -> holds_text bufsize (F ++ str) (YAML_APPEND bufsize str o).
Proof.
  intros Hb ->. unfold YAML_APPEND, holds_text. rewrite length_app.
  destruct (Nat.ltb_spec (Nat.min bufsize (length F)) bufsize) as [Hlt|Hge].
  - rewrite Nat.min_r in * by lia. f_equal.
    + rewrite take_take, (take_ge F (Nat.min _ _)), take_app by lia. rewrite (take_ge F) by lia. do 2 f_equal. lia.
    + destruct (Nat.ltb_spec bufsize (length F + length str)); lia.
  - f_equal; [|destruct (Nat.ltb_spec bufsize (Nat.min bufsize (length F))); lia].
    rewrite take_app_le by lia. done.
Qed.

Lemma indent_holds bufsize n F o :
  (0 < bufsize)%nat -> holds_text bufsize F o -> holds_text bufsize (F ++ pad n) (yaml_put_indent bufsize n o).
Proof.
  intros Hb. revert F o. induction n as [|n IH]; intros F o Ho; cbn [pad yaml_put_indent]; [by rewrite app_nil_r|].
  rewrite app_assoc. by apply IH, append_holds.
Qed.

Lemma mapping_size_le m sz : mapping_size m = Some sz -> (sz <= length m)%nat.
Proof.
  revert sz. induction m as [|[[k|] v] m IH]; intros sz; simpl; [done| |by intros [= <-]; lia].
  destruct (mapping_size m) as [n|]; [|done]. intros [= <-]. specialize (IH n eq_refl). lia.
Qed.

Section dump_show.
Context (bufsize : nat) (ns : list yaml_node) (Hb : (0 < bufsize)%nat).

(** [dump] writes the text of the trees that [tree] gives. *)
Definition dumps (dump : option nat -> nat -> sink -> option sink) (tree : option nat -> option ytree) : Prop :=
  forall v t indent F o, tree v = Some t -> holds_text bufsize F o ->
    exists o', dump v indent o = Some o' /\ holds_text bufsize (F ++ show indent t) o'.

Lemma comma_holds {A} (l : list A) F o :
  holds_text bufsize F o ->
  holds_text bufsize (F ++ (match l with [] => [] | _ => cs "," end) ++ [10])
    (YAML_APPEND bufsize [10] (match l with [] => o | _ => YAML_APPEND bufsize (cs ",") o end)).
Proof. intros Ho. rewrite app_assoc. apply append_holds; [done|]. destruct l; [by rewrite app_nil_r|by apply append_holds]. Qed.

Lemma comma_lines_cons x l : comma_lines (x :: l) = x ++ ((match l with [] => [] | _ => cs "," end) ++ [10]) ++ comma_lines l.
Proof. cbn [comma_lines]. by rewrite <- !app_assoc. Qed.

Lemma dump_entries_show dump tree indent l lt F o :
  dumps dump tree ->
  mapM (fun e : option cstr * option nat => k ← fst e; t ← tree (snd e); Some (k, t)) l = Some lt ->
  holds_text bufsize F o ->
  exists o', dump_entries bufsize dump indent l o = Some o' /\
    holds_text bufsize (F ++ comma_lines (map (fun e => pad (S indent) ++ fst e ++ cs ": " ++ show (S indent) (snd e)) lt)) o'.
Proof.
  intros Hd. revert lt F o. induction l as [|[k v] l IH]; intros lt F o Hm Ho.
  { injection Hm as <-. exists o. simpl. by rewrite app_nil_r. }
  cbn [mapM] in Hm. simpl fst in Hm. simpl snd in Hm.
  destruct k as [k|]; [|done]. simpl in Hm. destruct (tree v) as [t|] eqn:Ht; [|done]. simpl in Hm.
  destruct (mapM _ l) as [lt'|] eqn:El; [|done]. injection Hm as <-. cbn [dump_entries mbind option_bind].
  destruct (Hd v t (S indent) ((F ++ pad (S indent)) ++ (k ++ cs ": "))
    (YAML_APPEND bufsize (k ++ cs ": ") (yaml_put_indent bufsize (S indent) o)) Ht) as (o1 & -> & Ho1).
  { by apply append_holds, indent_holds. }
  simpl option_bind. apply (comma_holds l) in Ho1. destruct (IH lt' _ _ eq_refl Ho1) as (o2 & H2 & Ho2).
  exists o2. split; [destruct l; exact H2|]. cbn [map]. rewrite comma_lines_cons.
  assert (Hcm : match l with [] => [] | _ => cs "," end =
    match map (fun e : cstr * ytree => pad (S indent) ++ fst e ++ cs ": " ++ show (S indent) (snd e)) lt' with
    | [] => [] | _ => cs "," end).
  { apply length_mapM in El. destruct l, lt'; done. }
  rewrite <- Hcm. simpl fst. simpl snd. revert Ho2. by rewrite <- !app_assoc.
Qed.

Lemma dump_items_show dump tree indent l lt F o :
  dumps dump tree -> mapM tree l = Some lt -> holds_text bufsize F o ->
  exists o', dump_items bufsize dump indent l o = Some o' /\
    holds_text bufsize (F ++ comma_lines (map (show (S indent)) lt)) o'.
Proof.
  intros Hd. revert lt F o. induction l as [|v l IH]; intros lt F o Hm Ho.
  { injection Hm as <-. exists o. simpl. by rewrite app_nil_r. }
  cbn [mapM] in Hm. destruct (tree v) as [t|] eqn:Ht; [|done]. simpl in Hm.
  destruct (mapM tree l) as [lt'|] eqn:El; [|done]. injection Hm as <-. cbn [dump_items].
  destruct (Hd v t (S indent) F o Ht Ho) as (o1 & -> & Ho1). simpl option_bind. apply (comma_holds l) in Ho1.
  destruct (IH lt' _ _ eq_refl Ho1) as (o2 & H2 & Ho2). exists o2. split; [destruct l; exact H2|].
  cbn [map]. rewrite comma_lines_cons.
  assert (Hcm : match l with [] => [] | _ => cs "," end = match map (show (S indent)) lt' with [] => [] | _ => cs "," end).
  { apply length_mapM in El. destruct l, lt'; done. }
  rewrite <- Hcm. revert Ho2. by rewrite <- !app_assoc.
Qed.

Lemma dump_show fuel : dumps (yaml_dump_append bufsize ns fuel) (tree_of fuel ns).
Proof.
  induction fuel as [|fuel IH]; intros v t indent F o Ht Ho; [done|]. cbn [tree_of] in Ht.
  destruct v as [p|]; [|done]. cbn [yaml_dump_append mbind option_bind] in *. destruct (ns !! p) as [n|]; [|done].
  simpl in Ht |- *. pose proof (indent_holds bufsize indent F o Hb Ho) as Hp.
  set (o1 := yaml_put_indent bufsize indent o) in *. destruct (content n) as [|[v|] len|om|ol].
  - injection Ht as <-. eexists. split; [done|]. cbn [show]. rewrite app_assoc. by apply append_holds.
  - injection Ht as <-. eexists. split; [done|]. cbn [show]. rewrite app_assoc. by apply append_holds.
  - done.
  - destruct om as [m|]; [|done]. unfold yaml_dump_mapping. cbn [mbind option_bind] in Ht |- *.
    destruct (mapping_size m) as [sz|] eqn:Hsz; [|done]. cbn [mbind option_bind] in Ht |- *.
    destruct (mapM _ (take sz m)) as [l|] eqn:El; [|done]. injection Ht as <-.
    assert (Hl : length l = sz).
    { apply length_mapM in El. rewrite <- El, length_take. pose proof (mapping_size_le _ _ Hsz). lia. }
    destruct (Nat.eqb_spec sz 0) as [->|Hne].
    + destruct l; [|done]. eexists. split; [done|]. cbn [show]. rewrite app_assoc. by apply append_holds.
    + destruct (dump_entries_show _ _ indent _ _ _ _ IH El (append_holds bufsize _ (cs "{" ++ [10]) _ Hb Hp)) as (o2 & -> & Ho2).
      cbn [mbind option_bind]. eexists. split; [done|]. apply (indent_holds bufsize indent) in Ho2; [|done].
      apply (append_holds bufsize _ (cs "}")) in Ho2; [|done]. destruct l as [|e l]; [done|].
      cbn [show]. revert Ho2. by rewrite <- !app_assoc.
  - destruct ol as [l|]; [|done]. cbn [mbind option_bind] in Ht |- *.
    change (default [] (Some l)) with l. destruct (mapM _ l) as [lt|] eqn:El; [|done]. injection Ht as <-.
    pose proof (length_mapM _ _ _ El) as Hl. unfold yaml_dump_sequence. destruct l as [|v l].
    + destruct lt; [|done]. eexists. split; [done|]. cbn [show]. rewrite app_assoc. by apply append_holds.
    + cbn [length Nat.eqb].
      destruct (dump_items_show _ _ indent _ _ _ _ IH El (append_holds bufsize _ (cs "[" ++ [10]) _ Hb Hp)) as (o2 & -> & Ho2).
      cbn [mbind option_bind]. eexists. split; [done|]. apply (indent_holds bufsize indent) in Ho2; [|done].
      apply (append_holds bufsize _ (cs "]")) in Ho2; [|done]. destruct lt as [|t lt]; [done|].
      cbn [show]. revert Ho2. by rewrite <- !app_assoc.
Qed.
End dump_show.

(** Writing a tree through one shared offset is writing its text and cutting
    it at the end of the buffer: [yaml_dump] leaves the first [bufsize - 1]
    bytes of the old text followed by the text of the tree, never more, and
    [yaml_serialize] gives the first 4095 bytes of the text of the document. *)
Theorem yaml_dump_cuts (d : ydoc) (fuel : nat) (t : ytree) (buf : cstr) (bufsize indent : nat) :
  tree_of fuel (nodes d) (root d) = Some t -> (length buf < bufsize)%nat ->
  yaml_dump (nodes d) fuel (root d) buf bufsize indent = Some (take (bufsize - 1) (buf ++ show indent t)) /\
  yaml_serialize d fuel = Some (take (SERIALIZE_SIZE - 1) (show 0 t)).
Proof.
  intros Ht Hl. assert (Hr : exists p, root d = Some p) by (destruct fuel, (root d); by eauto).
  destruct Hr as [p Hr]. split.
  - unfold yaml_dump. rewrite Hr in *. destruct (Nat.eqb_spec bufsize 0), (Nat.leb_spec bufsize (length buf)); [lia..|].
    destruct (dump_show bufsize (nodes d) ltac:(lia) fuel _ _ indent buf (buf, length buf) Ht) as (o & Ho & ->).
    { unfold holds_text. rewrite take_ge, Nat.min_r by lia. done. }
    simpl. rewrite Ho. simpl. by rewrite take_take, Nat.min_id.
  - unfold yaml_serialize. rewrite Hr in *.
    destruct (dump_show SERIALIZE_SIZE (nodes d) ltac:(unfold SERIALIZE_SIZE; lia) fuel _ _ 0%nat [] ([], 0%nat) Ht) as (o & Ho & ->); [done|].
    simpl app in *. cbn [mbind option_bind]. rewrite Ho. cbn [mbind option_bind fst snd]. f_equal. rewrite take_take.
    destruct (Nat.leb_spec SERIALIZE_SIZE (Nat.min SERIALIZE_SIZE (length (show 0 t)))); [by rewrite Nat.min_id|].
    rewrite !take_ge by (unfold SERIALIZE_SIZE in *; lia). done.
Qed.

(** The document of a text. *)
Definition doc_of (fuel : nat) (text : cstr) : ydoc :=
  match yaml_parse_string fuel text [] with
  | Done (_, r, s) => YDoc r (all_nodes s) (error_msg s)
  | _ => YDoc None [] None
  end.

Definition sample_doc : ydoc := doc_of 99 (cs "k: [1, 'a,b']").
Definition sample_tree : ytree := TMap [(cs "k", TSeq [TScalar (cs "1"); TScalar (cs "a,b")])].

Lemma yaml_dump_cuts_witness :
  tree_of 9 (nodes sample_doc) (root sample_doc) = Some sample_tree /\
  yaml_dump (nodes sample_doc) 9 (root sample_doc) (cs "# x") 20 0 = Some (take 19 (cs "# x" ++ show 0 sample_tree)).
Proof.
  assert (H : tree_of 9 (nodes sample_doc) (root sample_doc) = Some sample_tree) by (vm_compute; reflexivity).
  split; [exact H|]. apply (yaml_dump_cuts sample_doc 9 sample_tree (cs "# x") 20 0 H). vm_compute. lia.
Defined.

(** What is written is not read back: the reader does not expect the line end
    after the bracket, and makes an empty key of it. *)
Example yaml_serialize_unread :
  let d := doc_of 99 (cs "k: 1") in
  let text := default [] (yaml_serialize d 9) in
  text = cs "{" ++ [10] ++ cs "  k:   1" ++ [10] ++ cs "}" /\
  yaml_tree 99 text = Done (0, Some (TMap [([], TMap []); (cs "k", TScalar (cs "1")); ([], TScalar [])]), None).
Proof. vm_compute. done. Qed.

(** A text that needs quotes inside quotes is not read back either. *)
Example yaml_serialize_quotes :
  show 0 (TScalar (cs "a" ++ [34] ++ cs "b")) = [34] ++ cs "a" ++ [34] ++ cs "b" ++ [34] /\
  yaml_tree 99 (show 0 (TScalar (cs "a" ++ [34] ++ cs "b"))) = Done (0, Some (TScalar (cs "a")), None).
Proof. vm_compute. done. Qed.

(** ** Streams are read safely *)

Lemma next_doc_inv s : inv s -> inv (next_doc s).
Proof. intros [Hg Ho _ _]. split; [done|done|by intros p n Hp|by constructor]. Qed.

(** The arena of a document that was read. *)
Definition doc_ok (d : ydoc) : Prop :=
  arena_ok (nodes d) /\ forall p, root d = Some p -> (p < length (nodes d))%nat.

Lemma current_ok r s : inv s -> fresh 0 s r -> doc_ok (YDoc r (all_nodes s) (error_msg s)).
Proof. intros Hi Hf. split; [apply Hi|]. intros p Hp. by apply Hf. Qed.

Definition inv_good s s' : inv s -> good s s' -> inv s' := fun Hi Hg => e_inv _ _ _ (ext_good 0 s s' Hi Hg).

(** A marker is at least one byte. *)
Lemma marker_progress marker s : marker <> [] -> is_document_marker marker s = true ->
  (length (aft (skip_document_marker marker s)) < length (aft s))%nat.
Proof.
  intros Hm [H _]%andb_true_iff. apply bool_decide_eq_true in H. unfold skip_document_marker.
  set (s1 := set_cursor _ _ _ _). assert (Hl : (length (aft s1) < length (aft s))%nat).
  { simpl. rewrite length_drop. assert (length (take (length marker) (aft s)) = length marker) as E by (by rewrite H).
    rewrite length_take in E. assert (0 < length marker)%nat by (destruct marker; [done|simpl; lia]). lia. }
  pose proof (mv_len _ _ (advance_while_moves (fun c => negb (is_nl c)) s1)).
  pose proof (mv_len _ _ (proj1 (skip_eol_good (advance_while (fun c => negb (is_nl c)) s1)))). lia.
Qed.

Lemma dots_good s :
  good s (if is_document_marker (cs "...") s then skip_ws_and_nl (skip_document_marker (cs "...") s) else s).
Proof. case_match; [|apply good_refl]. eapply good_trans; [apply marker_good|apply skip_ws_and_nl_good]. Qed.

Lemma multi_loop_safe rounds fuel r s (L : nat) :
  inv s -> fresh 0 s r -> (length (aft s) <= L)%nat ->
  safe (tame (text_of s) = true /\ (3 * L + 1 < fuel)%nat /\ (length (aft s) < rounds)%nat) (multi_loop rounds fuel r) s
    (fun docs _ => Forall doc_ok docs /\ exists d docs', docs = d :: docs' /\ root d = r).
Proof.
  revert r s. induction rounds as [|rounds IH]; intros r s Hi Hf HL; [intros (_ & _ & H); lia|]. cbn [multi_loop].
  apply safe_bind, safe_get. set (cur := YDoc _ _ _). assert (Hcur : doc_ok cur) by (by apply current_ok).
  assert (Hstop : Forall doc_ok [cur] /\ exists d docs', [cur] = d :: docs' /\ root d = r) by (split; [by constructor|by eexists _, _]).
  apply safe_bind, safe_get. destruct (at_end s); [by apply safe_ret|]. apply safe_bind, safe_put.
  set (s1 := skip_ws_and_nl s). apply safe_bind, safe_put. set (s2 := if is_document_marker _ s1 then _ else _).
  apply safe_bind, safe_get. destruct (at_end s2); [by apply safe_ret|]. apply safe_bind, safe_put.
  set (s3 := skip_yaml_directives s2). apply safe_bind, safe_get.
  destruct (is_document_marker (cs "---") s3) eqn:Em; [|by apply safe_ret]. cbn [negb]. apply safe_bind, safe_put.
  set (s4 := skip_document_marker _ s3).
  assert (Hgd : good s s3).
  { eapply good_trans; [apply skip_ws_and_nl_good|]. eapply good_trans; [apply dots_good|]. apply directives_good. }
  assert (Hl4 : (length (aft s4) < length (aft s))%nat).
  { pose proof (mv_len _ _ (proj1 Hgd)). pose proof (marker_progress (cs "---") s3 ltac:(done) Em) as Hm. unfold s4. lia. }
  assert (Hgd4 : good s s4) by (eapply good_trans; [exact Hgd|apply marker_good]).
  pose proof (inv_good _ _ Hi Hgd4) as Hi4. apply safe_bind, grant_safe; [apply Hi4|]. apply safe_bind, safe_put, safe_bind.
  set (s5 := next_doc s4). pose proof (next_doc_inv _ Hi4 : inv s5) as Hi5.
  destruct (all_specs fuel) as [Hv _].
  eapply safe_mono; [apply (Hv (-1) s5 Hi5)| |].
  { intros (Ht & Hb & _). split; [by change (text_of s5) with (text_of s4); rewrite (mv_text _ _ (proj1 Hgd4))|].
    change (aft s5) with (aft s4). lia. }
  intros r' s6 [H6 Hf6]. pose proof (e_len _ _ _ H6) as Hl6. change (aft s5) with (aft s4) in Hl6.
  assert (Hf6' : fresh 0 s6 r') by (intros p Hp; specialize (Hf6 p Hp); lia).
  apply safe_bind. eapply safe_mono; [apply (IH r' s6 (e_inv _ _ _ H6) Hf6'); lia| |].
  { intros (Ht & Hb & Hr). split_and!; [|lia..]. rewrite (e_text _ _ _ H6).
    change (text_of s5) with (text_of s4). by rewrite (mv_text _ _ (proj1 Hgd4)). }
  intros docs s7 [Hd _]. apply safe_ret. split; [by constructor|by eexists _, _].
Qed.

(** A stream of documents is read safely: on any bytes, with any fuel and
    memory granted, nothing undefined happens, at least one document is read,
    the pointers of every document stay within it, its mappings end in a free
    slot, and the code is 0 exactly when the first document has a root; on tame
    texts the stream is read to its end with fuel in proportion to its
    length. *)
Theorem yaml_multi_safe fuel input :
  match yaml_parse_multi fuel input [] with
  | Done (rc, docs) =>
      Forall doc_ok docs /\
      exists d docs', docs = d :: docs' /\ rc = match root d with Some _ => 0 | None => -1 end
  | NoFuel => ~ (tame input = true /\ (3 * length input + 1 < fuel)%nat)
  | Undefined => False
  end.
Proof.
  pose proof (start_inv input) as Hi. destruct (all_specs fuel) as [Hv _].
  pose proof (prolog_good (start_ctx input [])) as Hgd. pose proof (inv_good _ _ Hi Hgd) as Hi1.
  assert (Hlen : (length (aft (start_ctx input [])) <= length input)%nat).
  { pose proof (f_equal length (start_text input)) as E. unfold text_of in E. rewrite length_app in E. lia. }
  pose proof (mv_len _ _ (proj1 Hgd)) as Hl1.
  assert (H : safe (tame input = true /\ (3 * length input + 1 < fuel)%nat)
    (let! ok := ygrant in if negb ok then yret (AIRY_EINVAL, []) else
     yput skip_prolog ;! let! r := parse_value fuel (-1) in
     let! docs := multi_loop (S (length input)) fuel r in
     yret (match r with Some _ => 0 | None => -1 end, docs)) (start_ctx input [])
    (fun r _ => Forall doc_ok (snd r) /\
       exists d docs', snd r = d :: docs' /\ fst r = match root d with Some _ => 0 | None => -1 end)).
  { apply safe_bind, grant_safe; [apply Hi|]. apply safe_bind, safe_put, safe_bind.
    assert (Ht1 : text_of (skip_prolog (start_ctx input [])) = input) by (by rewrite (mv_text _ _ (proj1 Hgd)), start_text).
    eapply safe_mono; [apply (Hv (-1) _ Hi1)| |].
    { intros [Ht Hb]. split; [by rewrite Ht1|lia]. }
    intros r s [H1 Hf]. pose proof (e_len _ _ _ H1). apply safe_bind.
    assert (Hf' : fresh 0 s r) by (intros p Hp; specialize (Hf p Hp); lia).
    eapply safe_mono; [apply (multi_loop_safe _ fuel r s (length input) (e_inv _ _ _ H1) Hf'); lia| |].
    { intros [Ht Hb]. split_and!; [by rewrite (e_text _ _ _ H1), Ht1|lia..]. }
    intros docs s2 (Hd & d & docs' & -> & Hr). apply safe_ret. split; [done|]. exists d, docs'. by rewrite Hr. }
  unfold yaml_parse_multi. unfold safe in H. destruct (ybind ygrant _ _) as [[[rc docs] s]| |]; done.
Qed.

(** The trees of a stream. *)
Definition stream_trees (text : cstr) : option (Z * list (option ytree)) :=
  match yaml_parse_multi 99 text [] with
  | Done (rc, docs) => Some (rc, map (fun d => tree_of 9 (nodes d) (root d)) docs)
  | _ => None
  end.

(** Flow documents are read one by one.  A block mapping takes the marker after
    it for a key, and the documents after it are lost, with the code 0; a block
    sequence takes the marker for an item and goes on with the items of the
    next document. *)
Theorem yaml_multi_markers :
  stream_trees (cs "{a: 1}" ++ [10] ++ cs "---" ++ [10] ++ cs "{b: 2}") =
    Some (0, [Some (TMap [(cs "a", TScalar (cs "1"))]); Some (TMap [(cs "b", TScalar (cs "2"))])]) /\
  stream_trees (cs "a: 1" ++ [10] ++ cs "---" ++ [10] ++ cs "b: 2") =
    Some (0, [Some (TMap [(cs "a", TScalar (cs "1"))])]) /\
  stream_trees (cs "- 1" ++ [10] ++ cs "---" ++ [10] ++ cs "- 2") =
    Some (0, [Some (TSeq [TScalar (cs "1"); TScalar (cs "---"); TScalar (cs "2")])]).
Proof. vm_compute. done. Qed.
