(* ===== verification/ConfigYaml.v ===== *)
(** * Flattening YAML into a configuration: utils/config_unified/config_parse_yaml.c

    The tree of a document becomes assignments of strings to dotted keys, in a
    heap of configuration values; the nodes of the document live apart, in the
    arena of the reader. *)
From S2P Require Import Prelude CLib ConfigCore ConfigJson Yaml YamlSafe YamlTotal.

(** ** Computations that read YAML

    They may also run forever, so their outcomes are those of the reader. *)
Definition C (A : Type) : Type := mem -> res (A * mem).
Definition cret {A} (x : A) : C A := fun m => Done (x, m).
Definition cbind {A B} (f : C A) (g : A -> C B) : C B :=
  fun m => match f m with Done (x, m') => g x m' | NoFuel => NoFuel | Undefined => Undefined end.
Definition lift {A} (f : M A) : C A :=
  fun m => match f m with Some (x, m') => Done (x, m') | None => Undefined end.

Declare Scope conf_scope.
Notation "'let?' x := f 'in' g" := (cbind f (fun x => g))
  (at level 100, x pattern, f at level 100, g at level 200, right associativity) : conf_scope.
Open Scope conf_scope.

(** ** The flattening *)

Definition KEY_SIZE : nat := 1024.

(** [snprintf] into a buffer of 1024 bytes. *)
Definition cut_key (k : cstr) : cstr := take (KEY_SIZE - 1) k.

Definition map_key (prefix key : cstr) : cstr :=
  cut_key (match prefix with [] => key | _ => prefix ++ [46] ++ key end).

Definition seq_key (prefix : cstr) (i : nat) : cstr := cut_key (prefix ++ [46] ++ fmt_u (Z.of_nat i)).

(** A string value for a key; the outcome of the call is not looked at. *)
Definition set_string (ctx : config_context) (key val : cstr) : M config_context :=
  let* cv := config_value_create_string (Some val) in
  match cv with
  | None => ret ctx
  | Some p => let* r := config_context_set ctx (Some key) (Some p) in ret (snd r)
  end.

(** The walk over the entries of a mapping, to the first free slot; past the
    array it is undefined. *)
Fixpoint flatten_entries (f : option nat -> cstr -> config_context -> M config_context) (prefix : cstr)
    (m : list (option cstr * option nat)) (ctx : config_context) : M config_context :=
  match m with
  | [] => undefined
  | (None, _) :: _ => ret ctx
  | (Some k, v) :: m' => let* ctx := f v (map_key prefix k) ctx in flatten_entries f prefix m' ctx
  end.

Fixpoint flatten_items (f : option nat -> cstr -> config_context -> M config_context) (prefix : cstr)
    (l : list (option nat)) (i : nat) (ctx : config_context) : M config_context :=
  match l with
  | [] => ret ctx
  | v :: l' => let* ctx := f v (seq_key prefix i) ctx in flatten_items f prefix l' (S i) ctx
  end.

(** [fuel] bounds the depth of the tree; a pointer outside the arena is
    undefined. *)
Fixpoint flatten_node (fuel : nat) (ns : list yaml_node) (node : option nat) (prefix : cstr) (ctx : config_context)
    : M config_context :=
  match node with
  | None => ret ctx
  | Some p =>
      match fuel with
      | O => undefined
      | S fuel' =>
          match ns !! p with
          | None => undefined
          | Some n =>
              match content n with
              | YNone => ret ctx
              | YScalar v _ => set_string ctx prefix (default [] v)
              | YMapping None => set_string ctx prefix []
              | YMapping (Some m) => flatten_entries (flatten_node fuel' ns) prefix m ctx
              | YSequence ol =>
                  match ol with
                  | None | Some [] => set_string ctx prefix []
                  | Some l => flatten_items (flatten_node fuel' ns) prefix l 0 ctx
                  end
              end
          end
      end
  end.

(** [g] answers the requests for memory of the reader, the heap's own schedule
    the other ones.  The depth of a document is at most the number of its
    nodes. *)
Definition config_parse_yaml (fuel : nat) (g : list bool) (data : option (list Z)) (ctx : config_context)
    : C (Z * config_context) :=
  match data with
  | None => cret (CONFIG_ERROR_INVALID_ARG, ctx)
  | Some data =>
      let? ok := lift grant in
      if negb ok then cret (CONFIG_ERROR_OUT_OF_MEMORY, ctx) else
      fun m =>
        match yaml_parse_string fuel data g with
        | Done (rc, root, s) =>
            if negb (rc =? 0) then Done ((CONFIG_ERROR_PARSE, ctx), m)
            else (let? ctx := lift (flatten_node (S (length (all_nodes s))) (all_nodes s) root [] ctx) in
                  cret (CONFIG_SUCCESS, ctx)) m
        | NoFuel => NoFuel
        | Undefined => Undefined
        end
  end.

(** ** The reference: the assignments of a tree *)

Fixpoint yflat (prefix : cstr) (t : ytree) : list (cstr * config_value) :=
  match t with
  | TNone => []
  | TScalar s => [(prefix, CString s (Z.of_nat (length s)))]
  | TMap l => concat (map (fun e => yflat (map_key prefix (fst e)) (snd e)) l)
  | TSeq [] => [(prefix, CString [] 0)]
  | TSeq l =>
      (fix go (l : list ytree) (i : nat) : list (cstr * config_value) :=
         match l with [] => [] | t :: l' => yflat (seq_key prefix i) t ++ go l' (S i) end) l 0%nat
  end.

Definition yflat_items (prefix : cstr) : list ytree -> nat -> list (cstr * config_value) :=
  fix go l i := match l with [] => [] | t :: l' => yflat (seq_key prefix i) t ++ go l' (S i) end.

Lemma yflat_seq prefix t l : yflat prefix (TSeq (t :: l)) = yflat_items prefix (t :: l) 0.
Proof. reflexivity. Qed.

(** ** Contexts in the heap *)

(** Below [2^31] entries a context binds one more key; what was there stays. *)
Lemma set_string_at hf ctx l m k s :
  ctx_at hf ctx l m -> Z.of_nat (length l) < 2 ^ 31 ->
  exists ctx' m', set_string ctx k s m = Some (ctx', m') /\
    ctx_at hf ctx' (aset k (CString s (Z.of_nat (length s))) l) m'.
Proof.
  intros (T & Hr & Hst & <-) Hl. rewrite length_fmap in Hl.
  assert (H : wp (set_string ctx k s) (fun ctx' m' =>
    ctx_at hf ctx' (aset k (CString s (Z.of_nat (length s))) (binding_of <$> T)) m') m).
  { apply wp_bind, (wp_value_create_string (R:=False) (hf:=hf) (block_of <$> T)); [done| |by intros []].
    intros p m1 Hst1. apply wp_bind, (wp_context_set (R:=False) (hf:=hf) T _ _ _ _ (CString s (Z.of_nat (length s)))); [done..| |by intros []].
    intros ctx' T' m2 Hst2 Hr2 Hb. apply wp_ret. exists T'. done. }
  destruct H as (ctx' & m' & Hrun & H). eauto.
Qed.

Lemma assigns_length kvs l : (length (assigns kvs l) <= length kvs + length l)%nat.
Proof.
  revert l. induction kvs as [|[k v] kvs IH]; intros l; simpl; [lia|]. unfold assigns in *. simpl.
  etrans; [apply IH|]. pose proof (aset_length k v l). lia.
Qed.

Section flatten.
Context (hf : gmap nat config_value) (ns : list yaml_node).

(** [f] makes the assignments of the trees that [tree] gives. *)
Definition flattens (f : option nat -> cstr -> config_context -> M config_context) (tree : option nat -> option ytree) : Prop :=
  forall v t prefix ctx l m, tree v = Some t -> ctx_at hf ctx l m ->
    Z.of_nat (length (yflat prefix t) + length l) < 2 ^ 31 ->
    exists ctx' m', f v prefix ctx m = Some (ctx', m') /\ ctx_at hf ctx' (assigns (yflat prefix t) l) m'.

Lemma flatten_entries_ok f tree prefix m sz lt ctx l mm :
  flattens f tree -> mapping_size m = Some sz ->
  mapM (fun e : option cstr * option nat => k ← fst e; t ← tree (snd e); Some (k, t)) (take sz m) = Some lt ->
  ctx_at hf ctx l mm -> Z.of_nat (length (yflat prefix (TMap lt)) + length l) < 2 ^ 31 ->
  exists ctx' mm', flatten_entries f prefix m ctx mm = Some (ctx', mm') /\
    ctx_at hf ctx' (assigns (yflat prefix (TMap lt)) l) mm'.
Proof.
  intros Hf. revert sz lt ctx l mm. induction m as [|[[k|] v] m IH]; intros sz lt ctx l mm Hsz Hm Hc Hl; [done| |].
  - simpl in Hsz. destruct (mapping_size m) as [n|]; [|done]. injection Hsz as <-. cbn [take mapM] in Hm.
    cbn [fst snd mbind option_bind] in Hm. destruct (tree v) as [t|] eqn:Ht; [|done]. cbn [mbind option_bind] in Hm.
    destruct (mapM _ (take n m)) as [lt'|] eqn:El; [|done]. injection Hm as <-. simpl in Hl |- *.
    rewrite length_app in Hl. destruct (Hf v t (map_key prefix k) ctx l mm Ht Hc) as (ctx1 & m1 & H1 & Hc1); [lia|].
    destruct (IH n lt' ctx1 _ m1 eq_refl El Hc1) as (ctx2 & m2 & H2 & Hc2).
    { pose proof (assigns_length (yflat (map_key prefix k) t) l). simpl. lia. }
    exists ctx2, m2. unfold bind. rewrite H1, H2. split; [done|]. by rewrite assigns_app.
  - injection Hsz as <-. injection Hm as <-. by exists ctx, mm.
Qed.

Lemma flatten_items_ok f tree prefix its lt i ctx l mm :
  flattens f tree -> mapM tree its = Some lt ->
  ctx_at hf ctx l mm -> Z.of_nat (length (yflat_items prefix lt i) + length l) < 2 ^ 31 ->
  exists ctx' mm', flatten_items f prefix its i ctx mm = Some (ctx', mm') /\
    ctx_at hf ctx' (assigns (yflat_items prefix lt i) l) mm'.
Proof.
  intros Hf. revert lt i ctx l mm. induction its as [|v its IH]; intros lt i ctx l mm Hm Hc Hl.
  - injection Hm as <-. by exists ctx, mm.
  - cbn [mapM] in Hm. destruct (tree v) as [t|] eqn:Ht; [|done]. cbn [mbind option_bind] in Hm.
    destruct (mapM _ its) as [lt'|] eqn:El; [|done]. injection Hm as <-. simpl in Hl |- *.
    rewrite length_app in Hl. destruct (Hf v t (seq_key prefix i) ctx l mm Ht Hc) as (ctx1 & m1 & H1 & Hc1); [lia|].
    destruct (IH lt' (S i) ctx1 _ m1 eq_refl Hc1) as (ctx2 & m2 & H2 & Hc2).
    { pose proof (assigns_length (yflat (seq_key prefix i) t) l). lia. }
    exists ctx2, m2. unfold bind. rewrite H1, H2. split; [done|]. by rewrite assigns_app.
Qed.

Lemma flatten_node_ok fuel : flattens (flatten_node fuel ns) (tree_of fuel ns).
Proof.
  induction fuel as [|fuel IH]; intros v t prefix ctx l m Ht Hc Hl; [done|]. cbn [tree_of] in Ht.
  destruct v as [p|]; [|done]. cbn [flatten_node mbind option_bind] in *. destruct (ns !! p) as [n|]; [|done].
  cbn [mbind option_bind] in Ht. destruct (content n) as [|[v|] len|om|ol].
  - injection Ht as <-. by exists ctx, m.
  - injection Ht as <-. apply set_string_at; [done|]. simpl in Hl. lia.
  - done.
  - destruct om as [mp|]; [|done]. cbn [mbind option_bind] in Ht. destruct (mapping_size mp) as [sz|] eqn:Hsz; [|done].
    cbn [mbind option_bind] in Ht. destruct (mapM _ (take sz mp)) as [lt|] eqn:El; [|done]. injection Ht as <-.
    by eapply flatten_entries_ok.
  - destruct ol as [its|]; [|done]. cbn [mbind option_bind] in Ht. destruct (mapM _ its) as [lt|] eqn:El; [|done].
    injection Ht as <-. pose proof (length_mapM _ _ _ El) as Hlen. destruct its as [|v its], lt as [|t lt]; try done.
    + apply set_string_at; [done|]. simpl in Hl. lia.
    + rewrite yflat_seq in *. by eapply flatten_items_ok.
Qed.
End flatten.

Lemma grant_at hf ctx l m : ctx_at hf ctx l m -> exists m', grant m = Some (true, m') /\ ctx_at hf ctx l m'.
Proof.
  intros (T & Hr & Hst & Hb).
  assert (H : wp grant (fun b m' => b = true /\ ctx_at hf ctx l m') m).
  { apply (wp_grant (R:=False) (hf:=hf) (block_of <$> T)); [done| |by intros []]. intros m' Hst'. split; [done|]. by exists T. }
  destruct H as (b & m' & Hrun & -> & H). eauto.
Qed.

Lemma config_yaml_at hf ctx l m fuel data t e :
  ctx_at hf ctx l m -> yaml_tree fuel data = Done (0, Some t, e) ->
  Z.of_nat (length (yflat [] t) + length l) < 2 ^ 31 ->
  exists ctx' m',
    config_parse_yaml fuel [] (Some data) ctx m = Done ((CONFIG_SUCCESS, ctx'), m') /\
    ctx_at hf ctx' (assigns (yflat [] t) l) m'.
Proof.
  intros Hc Hy Hl. destruct (grant_at _ _ _ _ Hc) as (m1 & Hg & Hc1). unfold yaml_tree in Hy.
  unfold config_parse_yaml, cbind, lift. rewrite Hg. cbn [negb].
  destruct (yaml_parse_string fuel data []) as [[[rc r] s]| |]; [|done..]. injection Hy as -> Ht _.
  destruct (flatten_node_ok hf (all_nodes s) (S (length (all_nodes s))) r t [] ctx l m1 Ht Hc1 Hl) as (ctx' & m2 & H2 & Hc2).
  exists ctx', m2. cbn [negb]. rewrite H2. done.
Qed.

(** ** Whole documents *)




Section whole.
Context (hf : gmap nat config_value) (ns : list yaml_node) (Hns : arena_ok ns).




End whole.




(** The keys of the sample. *)
Example yaml_conf_keys :
  yflat [] (TMap [(cs "net", TMap [(cs "port", TScalar (cs "80")); (cs "hosts", TSeq [TScalar (cs "a"); TScalar (cs "b")])])]) =
    [(cs "net.port", CString (cs "80") 2); (cs "net.hosts.0", CString (cs "a") 1); (cs "net.hosts.1", CString (cs "b") 1)].
Proof. vm_compute. reflexivity. Qed.

(** The keys a text binds. *)
Definition yaml_keys (text : cstr) : option (Z * list cstr) :=
  match config_parse_yaml 200 [] (Some text) new_context (Mem ∅ []) with
  | Done ((e, ctx), _) => Some (e, (items ctx).*1)
  | _ => None
  end.

Definition json_keys (text : cstr) : option (Z * list cstr) :=
  match config_parse_json (Some text) new_context (Mem ∅ []) with
  | Some ((e, ctx), _) => Some (e, (items ctx).*1)
  | None => None
  end.

(** The two readers do not agree on the same document: an empty mapping binds
    no key in YAML and the empty string in JSON, and the items of a sequence at
    the root have keys that start with a dot in YAML only. *)
Theorem yaml_json_differ :
  yaml_keys (cs "{a: {}, b: 1}") = Some (CONFIG_SUCCESS, [cs "b"]) /\
  json_keys (map (fun c => if c =? 39 then 34 else c) (cs "{'a': {}, 'b': 1}")) = Some (CONFIG_SUCCESS, [cs "a"; cs "b"]) /\
  yaml_keys (cs "[1, 2]") = Some (CONFIG_SUCCESS, [cs ".0"; cs ".1"]) /\
  json_keys (cs "[1, 2]") = Some (CONFIG_SUCCESS, [cs "0"; cs "1"]).
Proof. vm_compute. done. Qed.

(** A plain scalar ends at its first blank: the rest of the line and of the
    document is dropped, with a success. *)
Theorem yaml_blank_drops_rest :
  yaml_tree 200 (cs "a: hello world" ++ [10] ++ cs "b: 2") = Done (0, Some (TMap [(cs "a", TScalar (cs "hello"))]),
    Some (cs "line 1: expected ':' after key 'world'")).
Proof. vm_compute. reflexivity. Qed.
