(* ===== verification/ConfigSource.v ===== *)
(** * Configuration sources, schemas and the service:
    utils/config_unified/config_source.c, config_source_env.c,
    config_source_memory.c, config_service.c, config_service_validator.c

    A source loads assignments into a context: the variables of the
    environment with a prefix, or a text in one of three formats.  A schema
    gives defaults to the keys that are not bound.  The tables of function
    pointers of the two adapters are the two kinds of private data. *)
From S2P Require Import Prelude CLib ConfigCore ConfigJson ConfigIni Yaml YamlSafe YamlTotal ConfigYaml.

(** ** Sources *)

Record env_source_priv := EnvPriv {
  prefix : option cstr;
  case_sensitive : bool;
  separator : option cstr;
  env_hash : Z;
}.

Record memory_source_priv := MemoryPriv {
  data : cstr;
  data_len : Z;
  format : option cstr;
}.

Inductive source_priv := PEnv (p : env_source_priv) | PMemory (p : memory_source_priv).

Inductive config_source_type := CONFIG_SOURCE_ENV | CONFIG_SOURCE_MEMORY.

Record config_source_attr := Attr {
  stype : config_source_type;
  sname : option cstr;
  priority : Z;
  read_only : bool;
  watchable : bool;
  timestamp : Z;
  version : Z;
}.

Record config_source := Source { priv_data : source_priv; attributes : config_source_attr }.

Definition config_source_type_to_string (t : config_source_type) : cstr :=
  match t with CONFIG_SOURCE_ENV => cs "env" | CONFIG_SOURCE_MEMORY => cs "memory" end.

(** [now] is the time; a name that cannot be copied is left out. *)
Definition config_source_create_base (t : config_source_type) (nm : option cstr) (now : Z) : M (option config_source_attr) :=
  let* ok := grant in
  if negb ok then ret None else
  let* n := duplicate_string nm in
  ret (Some (Attr t n 50 false false now 1)).

Definition set_read_only (a : config_source_attr) : config_source_attr :=
  Attr (stype a) (sname a) (priority a) true false (timestamp a) (version a).

(** ** The environment: config_source_env.c *)

(** The place of the first [=]. *)
Fixpoint find_eq (e : cstr) : option nat :=
  match e with
  | [] => None
  | c :: e' => if c =? 61 then Some 0%nat else S <$> find_eq e'
  end.

Definition ENV_KEY_SIZE : nat := 512.

(** The key and the value of an entry.  The length of the key is unsigned: it
    wraps when the [=] is inside the prefix, and then the copy reads past the
    entry. *)
Definition env_key_of (entry : cstr) (prefix_len cap : nat) : option (option (cstr * cstr)) :=
  match find_eq entry with
  | None => Some None
  | Some eq =>
      let len := Z.to_nat (Z.min (u64 (Z.of_nat eq - Z.of_nat prefix_len)) (Z.of_nat cap - 1)) in
      if (prefix_len + len <=? length entry + 1)%nat
      then Some (Some (c_str (take len (drop prefix_len (entry ++ [0]))), drop (S eq) entry))
      else None
  end.

Definition env_lower (s : cstr) : cstr := map tolower s.

Definition is_prefix (p s : cstr) : bool := bool_decide (take (length p) s = p).

(** A doubled separator is a dot; [room] is what is left of the buffer. *)
Fixpoint env_key_map_loop (fuel : nat) (src sep : cstr) (room : nat) : cstr :=
  match fuel, room, src with
  | S fuel', S room', c :: src' =>
      if (0 <? length sep)%nat && is_prefix sep src && is_prefix sep (drop (length sep) src)
      then 46 :: env_key_map_loop fuel' (drop (length sep * 2) src) sep room'
      else c :: env_key_map_loop fuel' src' sep room'
  | _, _, _ => []
  end.

Definition env_key_map (key sep : cstr) (cap : nat) : cstr := env_key_map_loop (length key) key sep (cap - 1).

(** What [env_value_parse] makes of a text: an [int] when the whole of it is a
    decimal number, a Boolean, or the text. *)
Definition env_value (val : cstr) : config_value :=
  let '(iv, n) := strtoll val 10 in
  if negb (n =? 0)%nat && (n =? length val)%nat then CInt (s32 iv)
  else if (64 <=? length val)%nat then CString val (Z.of_nat (length val))
  else if decide (env_lower val = cs "true") then CBool true
  else if decide (env_lower val = cs "false") then CBool false
  else CString val (Z.of_nat (length val)).

Definition env_value_parse (val : cstr) : M (option nat) := create_value (env_value val).

Definition FNV_OFFSET : Z := 14695981039346656037.
Definition FNV_PRIME : Z := 1099511628211.

Definition fnv_step (h c : Z) : Z := u64 (Z.lxor h c * FNV_PRIME).

Definition has_env_prefix (priv : env_source_priv) (entry : cstr) : bool :=
  match prefix priv with None => true | Some p => is_prefix p entry end.

Definition compute_env_hash (priv : env_source_priv) (environ : option (list cstr)) : Z :=
  match environ with
  | None => 0
  | Some env =>
      fold_left (fun h e => if has_env_prefix priv e then fnv_step (fold_left fnv_step e h) 255 else h) env FNV_OFFSET
  end.

(** One entry of the environment. *)
Definition env_load_entry (priv : env_source_priv) (entry : cstr) (ctx : config_context) : M config_context :=
  if negb (has_env_prefix priv entry) then ret ctx else
  match env_key_of entry (length (default [] (prefix priv))) ENV_KEY_SIZE with
  | None => undefined
  | Some None => ret ctx
  | Some (Some (key, val)) =>
      let key := if case_sensitive priv then key else env_lower key in
      let mapped := env_key_map key (default (cs "_") (separator priv)) ENV_KEY_SIZE in
      let* cv := env_value_parse val in
      match cv with
      | None => ret ctx
      | Some p => let* r := config_context_set ctx (Some mapped) (Some p) in ret (snd r)
      end
  end.

Fixpoint env_load_loop (priv : env_source_priv) (env : list cstr) (ctx : config_context) : M config_context :=
  match env with
  | [] => ret ctx
  | e :: env' => let* ctx := env_load_entry priv e ctx in env_load_loop priv env' ctx
  end.

Definition set_env_hash (h : Z) (p : env_source_priv) : env_source_priv :=
  EnvPriv (prefix p) (case_sensitive p) (separator p) h.

Definition env_source_load (priv : env_source_priv) (environ : option (list cstr)) (ctx : config_context)
    : M (Z * config_context * env_source_priv) :=
  match environ with
  | None => ret (CONFIG_SUCCESS, ctx, priv)
  | Some env =>
      let* ctx := env_load_loop priv env ctx in
      ret (CONFIG_SUCCESS, ctx, set_env_hash (compute_env_hash priv environ) priv)
  end.

Definition env_source_save : Z := CONFIG_ERROR_UNSUPPORTED.

Definition env_source_has_changed (priv : env_source_priv) (environ : option (list cstr)) : bool * env_source_priv :=
  let current := compute_env_hash priv environ in
  if negb (current =? env_hash priv) then (true, set_env_hash current priv) else (false, priv).

(** The copy of the prefix is not checked. *)
Definition config_source_create_env (opt_prefix opt_separator : option cstr) (opt_case : bool) (now : Z)
    : M (option config_source) :=
  let nm := match opt_prefix with Some p => Some p | None => Some (cs "env") end in
  let* a := config_source_create_base CONFIG_SOURCE_ENV nm now in
  match a with
  | None => ret None
  | Some a =>
      let* ok := grant in
      if negb ok then ret None else
      let* p := duplicate_string opt_prefix in
      let* s := duplicate_string (match opt_separator with Some s => Some s | None => Some (cs "_") end) in
      if bool_decide (is_Some opt_separator) && bool_decide (s = None) then ret None
      else ret (Some (Source (PEnv (EnvPriv p opt_case s 0)) (set_read_only a)))
  end.

(** ** Texts in memory: config_source_memory.c *)

(** The [data_len] bytes that the parsers are given; the copy of the text has
    one byte more than its length, and a longer claim is out of its bounds. *)
Definition memory_text (p : memory_source_priv) : option (list Z) :=
  if data_len p <=? Z.of_nat (length (data p)) + 1
  then Some (take (Z.to_nat (data_len p)) (data p ++ [0])) else None.

(** A text of no length stands for the whole of the copy where the reader asks
    for [strlen]. *)
Definition yaml_text (p : memory_source_priv) (text : list Z) : list Z :=
  match text with [] => data p | _ => text end.

Definition memory_source_load (fuel : nat) (g : list bool) (p : memory_source_priv) (ctx : config_context)
    : C (Z * config_context) :=
  match memory_text p with
  | None => fun _ => Undefined
  | Some text =>
      if decide (format p = Some (cs "json")) then lift (config_parse_json (Some text) ctx)
      else if decide (format p = Some (cs "yaml")) then config_parse_yaml fuel g (Some (yaml_text p text)) ctx
      else if decide (format p = Some (cs "ini")) then lift (config_parse_ini (Some text) ctx)
      else
        let? r := lift (config_parse_json (Some text) ctx) in
        let '(err, ctx) := r in
        if negb (err =? CONFIG_SUCCESS) then config_parse_yaml fuel g (Some (yaml_text p text)) ctx
        else cret (err, ctx)
  end.

Definition memory_source_save : Z := CONFIG_SUCCESS.
Definition memory_source_has_changed : bool := false.

(** The text is copied as a string, its length is taken from the options. *)
Definition config_source_create_memory (opt_data : option cstr) (opt_len : Z) (opt_format : option cstr) (now : Z)
    : M (option config_source) :=
  match opt_data with
  | None => ret None
  | Some d =>
      let* a := config_source_create_base CONFIG_SOURCE_MEMORY (Some (cs "memory")) now in
      match a with
      | None => ret None
      | Some a =>
          let* ok := grant in
          if negb ok then ret None else
          let* copy := duplicate_string (Some d) in
          let* f := duplicate_string (match opt_format with Some f => Some f | None => Some (cs "json") end) in
          match copy, f with
          | Some copy, Some f =>
              let len := if opt_len =? 0 then Z.of_nat (length d) else opt_len in
              ret (Some (Source (PMemory (MemoryPriv copy len (Some f))) (set_read_only a)))
          | _, _ => ret None
          end
      end
  end.

(** ** The interface: config_source.c *)

Definition config_source_load (fuel : nat) (g : list bool) (environ : option (list cstr)) (src : config_source)
    (ctx : config_context) : C (Z * config_context * config_source) :=
  match priv_data src with
  | PEnv p =>
      let? r := lift (env_source_load p environ ctx) in
      let '(err, ctx, p) := r in cret (err, ctx, Source (PEnv p) (attributes src))
  | PMemory p => let? r := memory_source_load fuel g p ctx in cret (fst r, snd r, src)
  end.

Definition config_source_save (src : config_source) : Z :=
  match priv_data src with PEnv _ => env_source_save | PMemory _ => memory_source_save end.

Definition config_source_has_changed (environ : option (list cstr)) (src : config_source) : bool * config_source :=
  match priv_data src with
  | PEnv p => let '(b, p) := env_source_has_changed p environ in (b, Source (PEnv p) (attributes src))
  | PMemory _ => (memory_source_has_changed, src)
  end.

Definition config_source_get_attributes (src : config_source) : config_source_attr := attributes src.

(** ** Schemas: config_service_validator.c *)

Record schema_item := Item {
  ikey : cstr;
  itype : Z;
  required : bool;
  description : option cstr;
  default_value : option cstr;
}.

Record config_schema := Schema { schema_name : cstr; schema_items : list schema_item; schema_capacity : Z }.

Fixpoint find_schema_loop (l : list schema_item) (i : Z) (key : cstr) : Z :=
  match l with
  | [] => INDEX_NOT_FOUND
  | it :: l' => if decide (ikey it = key) then s32 i else find_schema_loop l' (i + 1) key
  end.

Definition find_schema_item (schema : config_schema) (key : cstr) : Z := find_schema_loop (schema_items schema) 0 key.

Definition config_schema_create (nm : option cstr) : M (option config_schema) :=
  match nm with
  | None => ret None
  | Some n =>
      let* ok := grant in
      if negb ok then ret None else
      let* copy := duplicate_string (Some n) in
      match copy with
      | None => ret None
      | Some n' => let* ok := grant in ret (if (ok : bool) then Some (Schema n' [] 16) else None)
      end
  end.

Definition config_schema_add_item (schema : config_schema) (item : schema_item) : M (Z * config_schema) :=
  if 0 <=? find_schema_item schema (ikey item) then ret (CONFIG_ERROR_INVALID_ARG, schema) else
  let* r := (if schema_capacity schema <=? Z.of_nat (length (schema_items schema)) then
               let* ok := grant in
               ret (if (ok : bool) then Some (schema_capacity schema * 2) else None)
             else ret (Some (schema_capacity schema))) in
  match r with
  | None => ret (CONFIG_ERROR_OUT_OF_MEMORY, schema)
  | Some cap =>
      let schema := Schema (schema_name schema) (schema_items schema) cap in
      let* k := duplicate_string (Some (ikey item)) in
      match k with
      | None => ret (CONFIG_ERROR_OUT_OF_MEMORY, schema)
      | Some k =>
          let* d := duplicate_string (description item) in
          if bool_decide (is_Some (description item)) && bool_decide (d = None)
          then ret (CONFIG_ERROR_OUT_OF_MEMORY, schema) else
          let* v := duplicate_string (default_value item) in
          if bool_decide (is_Some (default_value item)) && bool_decide (v = None)
          then ret (CONFIG_ERROR_OUT_OF_MEMORY, schema) else
          ret (CONFIG_SUCCESS,
               Schema (schema_name schema) (schema_items schema ++ [Item k (itype item) (required item) d v]) cap)
      end
  end.

(** The value of a default; [None] for a type without defaults. *)
Definition item_value (ty : Z) (s : cstr) : option config_value :=
  if ty =? 1 then Some (CBool (bool_decide (map tolower s = cs "true")))
  else if ty =? 2 then Some (CInt (s32 (fst (strtoll s 10))))
  else if ty =? 3 then Some (CInt64 (fst (strtoll s 10)))
  else if ty =? 4 then Some (CDouble (fst (strtod s)))
  else if ty =? 5 then Some (CString s (Z.of_nat (length s)))
  else None.

Fixpoint apply_defaults_loop (l : list schema_item) (ctx : config_context) : M (Z * config_context) :=
  match l with
  | [] => ret (CONFIG_SUCCESS, ctx)
  | it :: l' =>
      match default_value it with
      | None => apply_defaults_loop l' ctx
      | Some s =>
          if config_context_has ctx (Some (ikey it)) then apply_defaults_loop l' ctx else
          match item_value (itype it) s with
          | None => apply_defaults_loop l' ctx
          | Some v =>
              let* cv := create_value v in
              match cv with
              | None => apply_defaults_loop l' ctx
              | Some p =>
                  let* r := config_context_set ctx (Some (ikey it)) (Some p) in
                  let '(err, ctx) := r in
                  if negb (err =? CONFIG_SUCCESS) then ret (err, ctx) else apply_defaults_loop l' ctx
              end
          end
      end
  end.

Definition config_schema_apply_defaults (schema : config_schema) (ctx : config_context) : M (Z * config_context) :=
  apply_defaults_loop (schema_items schema) ctx.

(** ** The service: config_service.c *)

Definition config_service_create (service_name : option cstr) (schema : option config_schema)
    (enable_hot_reload enable_encryption : bool) : M (option config_context) :=
  match service_name with
  | None => ret None
  | Some _ =>
      let* c := config_context_create service_name in
      match c with
      | None => ret None
      | Some ctx =>
          let* ctx := (match schema with
                       | None => ret ctx
                       | Some sc =>
                           let* r := config_schema_apply_defaults sc (config_context_set_schema ctx true) in
                           ret (snd r)
                       end) in
          let ctx := if enable_hot_reload then config_context_set_hot_reload ctx true 5000 else ctx in
          let ctx := if enable_encryption then config_context_set_encryption ctx true else ctx in
          ret (Some ctx)
      end
  end.

(** The sources are loaded in order up to the first error; a null source is
    passed over.  [gs] answers the requests of the YAML reader, source by
    source.  The sources come back with the hashes they took. *)
Fixpoint service_load_loop (fuel : nat) (gs : list (list bool)) (environ : option (list cstr))
    (sources : list (option config_source)) (ctx : config_context)
    : C (Z * config_context * list (option config_source)) :=
  match sources with
  | [] => cret (CONFIG_SUCCESS, ctx, [])
  | None :: sources' =>
      let? r := service_load_loop fuel (tail gs) environ sources' ctx in
      let '(err, ctx, rest) := r in cret (err, ctx, None :: rest)
  | Some src :: sources' =>
      let? r := config_source_load fuel (default [] (head gs)) environ src ctx in
      let '(err, ctx, src) := r in
      if negb (err =? CONFIG_SUCCESS) then cret (err, ctx, Some src :: sources')
      else
        let? r := service_load_loop fuel (tail gs) environ sources' ctx in
        let '(err, ctx, rest) := r in cret (err, ctx, Some src :: rest)
  end.

Definition config_service_load (fuel : nat) (gs : list (list bool)) (environ : option (list cstr))
    (sources : list (option config_source)) (ctx : config_context)
    : C (Z * config_context * list (option config_source)) :=
  match sources with
  | [] => cret (CONFIG_ERROR_INVALID_ARG, ctx, [])
  | _ => service_load_loop fuel gs environ sources ctx
  end.

(** ** One binding *)

Lemma put_at hf ctx l m k v :
  ctx_at hf ctx l m -> value_wf v -> Z.of_nat (length l) < 2 ^ 31 ->
  exists p m1 ctx' m', create_value v m = Some (Some p, m1) /\
    config_context_set ctx (Some k) (Some p) m1 = Some ((CONFIG_SUCCESS, ctx'), m') /\
    ctx_at hf ctx' (aset k v l) m'.
Proof.
  intros (T & Hr & Hst & <-) Hv Hl. rewrite length_fmap in Hl.
  assert (H : wp (create_value v) (fun op m1 => exists p, op = Some p /\
    wp (config_context_set ctx (Some k) (Some p)) (fun r m' => fst r = CONFIG_SUCCESS /\
      ctx_at hf (snd r) (aset k v (binding_of <$> T)) m') m1) m).
  { apply (wp_create_value (R:=False) (hf:=hf) (block_of <$> T)); [done..| |by intros []]. intros p m1 Hst1.
    exists p. split; [done|]. apply (wp_context_set (R:=False) (hf:=hf) T _ _ _ _ v); [done..| |by intros []].
    intros ctx' T' m' Hst' Hr' Hb. split; [done|]. by exists T'. }
  destruct H as (op & m1 & H1 & p & -> & [err ctx'] & m' & H2 & He & Hc). simpl in *. subst err. eauto 10.
Qed.

Lemma has_at hf ctx l m k :
  ctx_at hf ctx l m -> Z.of_nat (length l) < 2 ^ 31 -> config_context_has ctx (Some k) = bool_decide (is_Some (aget k l)).
Proof. intros (T & Hr & Hst & <-) Hl. rewrite length_fmap in Hl. by apply context_get_spec. Qed.

(** ** Defaults *)

Lemma item_value_wf ty s v : item_value ty s = Some v -> value_wf v.
Proof. unfold item_value. intros H. repeat (case_match; [by injection H as <-|]). done. Qed.

(** What the defaults of a schema do to the bindings. *)
Fixpoint with_defaults (its : list schema_item) (l : list (cstr * config_value)) : list (cstr * config_value) :=
  match its with
  | [] => l
  | it :: its' =>
      with_defaults its'
        (match default_value it ≫= item_value (itype it), aget (ikey it) l with
         | Some v, None => aset (ikey it) v l
         | _, _ => l
         end)
  end.

Lemma apply_defaults_at hf its ctx l m :
  ctx_at hf ctx l m -> Z.of_nat (length l + length its) < 2 ^ 31 ->
  exists ctx' m', apply_defaults_loop its ctx m = Some ((CONFIG_SUCCESS, ctx'), m') /\
    ctx_at hf ctx' (with_defaults its l) m'.
Proof.
  revert ctx l m. induction its as [|it its IH]; intros ctx l m Hc Hl; [by eauto|].
  cbn [apply_defaults_loop with_defaults length] in Hl |- *.
  destruct (default_value it) as [s|]; cbn [mbind option_bind]; [|apply (IH _ l); [done|lia]].
  rewrite (has_at _ _ _ _ (ikey it) Hc) by lia.
  destruct (aget (ikey it) l) as [v0|] eqn:Ha; cbn [bool_decide decide_rel is_Some_dec].
  { destruct (item_value (itype it) s); apply IH; done || lia. }
  destruct (item_value (itype it) s) as [v|] eqn:Hv; [|apply IH; [done|lia]].
  destruct (put_at hf ctx l m (ikey it) v Hc (item_value_wf _ _ _ Hv)) as (p & m1 & ctx' & m' & H1 & H2 & Hc'); [lia|].
  unfold bind at 1. rewrite H1. unfold bind at 1. rewrite H2. simpl. apply IH; [done|].
  pose proof (aset_length (ikey it) v l). lia.
Qed.

Lemma with_defaults_keeps its l k v : aget k l = Some v -> aget k (with_defaults its l) = Some v.
Proof.
  revert l. induction its as [|it its IH]; intros l Hk; simpl; [done|]. apply IH.
  repeat case_match; try done. rewrite aget_aset. by case_decide; [congruence|].
Qed.

Lemma with_defaults_binds its l it v :
  it ∈ its -> default_value it ≫= item_value (itype it) = Some v -> is_Some (aget (ikey it) (with_defaults its l)).
Proof.
  intros Hin Hv. revert l. induction Hin as [it its|it it' its _ IH]; intros l; simpl; [|by apply IH].
  rewrite Hv. destruct (aget (ikey it) l) as [v0|] eqn:Ha.
  - exists v0. by apply with_defaults_keeps.
  - exists v. apply with_defaults_keeps. rewrite aget_aset. by rewrite decide_True.
Qed.

Lemma with_defaults_only its l k v :
  aget k (with_defaults its l) = Some v ->
  aget k l = Some v \/ exists it, it ∈ its /\ ikey it = k /\ default_value it ≫= item_value (itype it) = Some v.
Proof.
  revert l. induction its as [|it its IH]; intros l; simpl; [by left|]. intros [H | (it' & ? & ?)]%IH.
  - destruct (default_value it ≫= item_value (itype it)) as [v1|] eqn:Hv; [|by left].
    destruct (aget (ikey it) l) eqn:Ha; [by left|]. rewrite aget_aset in H. case_decide as E; [|by left].
    injection H as <-. right. exists it. split_and!; [by left|done|done].
  - right. exists it'. split; [by right|done].
Qed.

Lemma with_defaults_id its l :
  (forall it v, it ∈ its -> default_value it ≫= item_value (itype it) = Some v -> is_Some (aget (ikey it) l)) ->
  with_defaults its l = l.
Proof.
  induction its as [|it its IH]; intros H; simpl; [done|].
  replace (match default_value it ≫= item_value (itype it), aget (ikey it) l with
           | Some v, None => aset (ikey it) v l | _, _ => l end) with l.
  - apply IH. intros it' v Hin. apply H. by right.
  - destruct (default_value it ≫= _) as [v|] eqn:Hv; [|done].
    by destruct (H it v (list_elem_of_here _ _) Hv) as [v0 ->].
Qed.

(** The defaults of a schema fill the gaps of a context and nothing else:
    the call succeeds, every key that was bound keeps its value, every item
    with a default of a known type has its key bound, and each new binding is
    the default of an item; a second application changes nothing. *)
Theorem schema_defaults_fill hf sc ctx l m :
  ctx_at hf ctx l m -> Z.of_nat (length l + length (schema_items sc)) < 2 ^ 31 ->
  exists ctx' m' l',
    config_schema_apply_defaults sc ctx m = Some ((CONFIG_SUCCESS, ctx'), m') /\ ctx_at hf ctx' l' m' /\
    (forall k v, aget k l = Some v -> aget k l' = Some v) /\
    (forall it v, it ∈ schema_items sc -> default_value it ≫= item_value (itype it) = Some v -> is_Some (aget (ikey it) l')) /\
    (forall k v, aget k l' = Some v -> aget k l = Some v \/
       exists it, it ∈ schema_items sc /\ ikey it = k /\ default_value it ≫= item_value (itype it) = Some v) /\
    with_defaults (schema_items sc) l' = l'.
Proof.
  intros Hc Hl. destruct (apply_defaults_at hf (schema_items sc) ctx l m Hc Hl) as (ctx' & m' & Hrun & Hc').
  exists ctx', m', (with_defaults (schema_items sc) l). split_and!; [done..| | | |].
  - intros k v. apply with_defaults_keeps.
  - intros it v. apply with_defaults_binds.
  - intros k v. apply with_defaults_only.
  - apply with_defaults_id. intros it v. apply with_defaults_binds.
Qed.

Definition sample_schema : config_schema :=
  Schema (cs "s") [Item (cs "port") 2 false None (Some (cs "80")); Item (cs "host") 5 true None (Some (cs "local"));
                   Item (cs "x") 0 false None (Some (cs "1"))] 16.

Lemma schema_defaults_fill_witness :
  exists ctx' m' l',
    config_schema_apply_defaults sample_schema new_context (Mem ∅ []) = Some ((CONFIG_SUCCESS, ctx'), m') /\
    ctx_at ∅ ctx' l' m' /\
    (forall k v, aget k [] = Some v -> aget k l' = Some v) /\
    (forall it v, it ∈ schema_items sample_schema -> default_value it ≫= item_value (itype it) = Some v -> is_Some (aget (ikey it) l')) /\
    (forall k v, aget k l' = Some v -> aget k [] = Some v \/
       exists it, it ∈ schema_items sample_schema /\ ikey it = k /\ default_value it ≫= item_value (itype it) = Some v) /\
    with_defaults (schema_items sample_schema) l' = l'.
Proof. apply (schema_defaults_fill ∅ sample_schema new_context [] (Mem ∅ []) new_context_at). vm_compute. reflexivity. Defined.

(** ** The environment *)

Definition DOT : cstr := [46].

Fixpoint join (sep : cstr) (ws : list cstr) : cstr :=
  match ws with [] => [] | [w] => w | w :: ws' => w ++ sep ++ join sep ws' end.

Lemma is_prefix_app p s : is_prefix p (p ++ s) = true.
Proof. unfold is_prefix. rewrite take_app_length. by apply bool_decide_eq_true. Qed.

Lemma is_prefix_not c p s : p <> [] -> (c ∉ p) -> is_prefix p (c :: s) = false.
Proof.
  intros Hp Hc. unfold is_prefix. apply bool_decide_eq_false. destruct p as [|d p]; [done|]. simpl. intros [= ->].
  apply Hc. by left.
Qed.

Lemma key_map_word sep w rest fuel room :
  sep <> [] -> Forall (fun c => c ∉ sep) w -> (length w <= fuel)%nat -> (length w <= room)%nat ->
  env_key_map_loop fuel (w ++ rest) sep room = w ++ env_key_map_loop (fuel - length w) rest sep (room - length w).
Proof.
  intros Hs. revert fuel room. induction w as [|c w IH]; intros fuel room Hw Hf Hr; simpl in *; [by rewrite !Nat.sub_0_r|].
  apply Forall_cons in Hw as [Hc Hw]. destruct fuel as [|fuel]; [lia|]. destruct room as [|room]; [lia|]. simpl.
  rewrite (is_prefix_not c) by done. rewrite andb_false_r. simpl. f_equal. apply IH; [done|lia..].
Qed.

Lemma key_map_end fuel sep room : env_key_map_loop fuel [] sep room = [].
Proof. by destruct fuel, room. Qed.

Lemma key_map_join sep ws fuel room :
  sep <> [] -> Forall (Forall (fun c => c ∉ sep)) ws ->
  (length (join (sep ++ sep) ws) <= fuel)%nat -> (length (join DOT ws) <= room)%nat ->
  env_key_map_loop fuel (join (sep ++ sep) ws) sep room = join DOT ws.
Proof.
  intros Hs. revert fuel room. induction ws as [|w ws IH]; intros fuel room Hw Hf Hr; [by apply key_map_end|].
  apply Forall_cons in Hw as [Hw Hws]. destruct ws as [|w' ws].
  { simpl in *. rewrite <- (app_nil_r w) at 1. rewrite key_map_word by done. by rewrite key_map_end, app_nil_r. }
  change (join (sep ++ sep) (w :: w' :: ws)) with (w ++ (sep ++ sep) ++ join (sep ++ sep) (w' :: ws)) in *.
  change (join DOT (w :: w' :: ws)) with (w ++ DOT ++ join DOT (w' :: ws)) in *.
  rewrite !length_app in Hf, Hr. rewrite key_map_word by (done || lia). f_equal.
  destruct (fuel - length w)%nat as [|f] eqn:Ef; [destruct sep; [done|simpl in *; lia]|].
  destruct (room - length w)%nat as [|r] eqn:Er; [simpl in *; lia|].
  rewrite <- app_assoc. destruct sep as [|c sep]; [done|]. set (sp := c :: sep) in *.
  change (sp ++ sp ++ join (sp ++ sp) (w' :: ws)) with (c :: (sep ++ sp ++ join (sp ++ sp) (w' :: ws))).
  cbn [env_key_map_loop]. change (c :: sep ++ sp ++ join (sp ++ sp) (w' :: ws)) with (sp ++ sp ++ join (sp ++ sp) (w' :: ws)).
  rewrite is_prefix_app, drop_app_length, is_prefix_app. simpl ((0 <? length sp)%nat).
  cbn [andb app]. f_equal. rewrite app_assoc, (drop_app_length' (sp ++ sp)) by (rewrite length_app; lia).
  apply IH; [done|simpl in *; lia|simpl in *; lia].
Qed.

(** A line of the environment: a variable under the prefix whose name is a path
    of words, or one that the source passes over. *)
Inductive env_line := EPath (ws : list cstr) (v : cstr) | EOther (text : cstr).

Definition SEP : cstr := cs "_".

Definition line_text (p : cstr) (e : env_line) : cstr :=
  match e with EPath ws v => p ++ join (SEP ++ SEP) ws ++ [61] ++ v | EOther t => t end.

Definition line_ok (p : cstr) (e : env_line) : Prop :=
  match e with
  | EPath ws v => Forall (Forall (fun c => c <> 95 /\ c <> 61 /\ c <> 0)) ws /\ (length (join (SEP ++ SEP) ws) < ENV_KEY_SIZE)%nat
  | EOther t => is_prefix p t = false \/ find_eq t = None
  end.

(** The name in lower case, with dots between the words. *)
Definition line_binding (e : env_line) : option (cstr * config_value) :=
  match e with EPath ws v => Some (join DOT (map env_lower ws), env_value v) | EOther _ => None end.

Lemma find_eq_app a v : (61 ∉ a) -> find_eq (a ++ 61 :: v) = Some (length a).
Proof.
  induction a as [|c a IH]; intros Ha; simpl; [done|]. apply not_elem_of_cons in Ha as [Hc Ha].
  destruct (Z.eqb_spec c 61); [congruence|]. by rewrite IH.
Qed.

Lemma join_chars (P : Z -> Prop) sep ws : Forall P sep -> Forall (Forall P) ws -> Forall P (join sep ws).
Proof.
  intros Hs. induction ws as [|w ws IH]; intros Hw; [constructor|]. apply Forall_cons in Hw as [Hw Hws].
  destruct ws; [done|]. apply Forall_app. split; [done|]. apply Forall_app. split; [done|by apply IH].
Qed.

Lemma lower_join sep ws : env_lower (join sep ws) = join (env_lower sep) (map env_lower ws).
Proof.
  induction ws as [|w ws IH]; [done|]. destruct ws; [done|].
  change (join sep (w :: l :: ws)) with (w ++ sep ++ join sep (l :: ws)). unfold env_lower in *. by rewrite !map_app, IH.
Qed.

Lemma join_length sep sep' ws : (length sep' <= length sep)%nat -> (length (join sep' ws) <= length (join sep ws))%nat.
Proof.
  intros H. induction ws as [|w ws IH]; [done|]. destruct ws as [|w' ws]; [done|].
  change (join sep (w :: w' :: ws)) with (w ++ sep ++ join sep (w' :: ws)).
  change (join sep' (w :: w' :: ws)) with (w ++ sep' ++ join sep' (w' :: ws)). rewrite !length_app. lia.
Qed.

Lemma c_str_id w : Forall (fun c => c <> 0) w -> c_str w = w.
Proof. induction 1 as [|c w Hc _ IH]; simpl; [done|]. destruct (Z.eqb_spec c 0); [done|]. by rewrite IH. Qed.

Lemma env_key_of_path p ws v :
  (61 ∉ p) -> line_ok p (EPath ws v) ->
  env_key_of (line_text p (EPath ws v)) (length p) ENV_KEY_SIZE = Some (Some (join (SEP ++ SEP) ws, v)).
Proof.
  intros Hp [Hw Hl]. unfold env_key_of, line_text. set (k := join (SEP ++ SEP) ws) in *.
  assert (Hk : Forall (fun c => c <> 61 /\ c <> 0) k).
  { apply join_chars; [by repeat constructor|]. eapply Forall_impl; [exact Hw|]. intros w Hw'.
    eapply Forall_impl; [exact Hw'|]. by intros c [_ Hc]. }
  assert (Hk61 : (61 ∉ p ++ k)).
  { intros [H|H]%elem_of_app; [done|]. rewrite Forall_forall in Hk. by apply Hk in H as [? _]. }
  rewrite app_assoc. change (([61] ++ v)) with (61 :: v). rewrite find_eq_app by done. rewrite length_app.
  replace (u64 _) with (Z.of_nat (length k)).
  2:{ unfold u64. rewrite Z.mod_small; unfold ENV_KEY_SIZE in Hl; lia. }
  unfold ENV_KEY_SIZE in *. rewrite Z.min_l, Nat2Z.id by lia.
  rewrite (proj2 (Nat.leb_le _ _)) by (rewrite !length_app; simpl; lia). do 3 f_equal.
  - rewrite <- !app_assoc. rewrite drop_app_length, take_app_length. apply c_str_id.
    eapply Forall_impl; [exact Hk|]. by intros c [_ Hc].
  - replace (S (length p + length k)) with (length ((p ++ k) ++ [61])) by (rewrite !length_app; simpl; lia).
    change ((p ++ k) ++ 61 :: v) with ((p ++ k) ++ [61] ++ v). by rewrite app_assoc, drop_app_length.
Qed.

Lemma env_value_wf v : value_wf (env_value v).
Proof. unfold env_value. repeat case_match; done. Qed.

Lemma env_entry_at hf p h e ctx l m :
  (61 ∉ p) -> line_ok p e -> ctx_at hf ctx l m -> Z.of_nat (length l) < 2 ^ 31 ->
  exists ctx' m', env_load_entry (EnvPriv (Some p) false (Some SEP) h) (line_text p e) ctx m = Some (ctx', m') /\
    ctx_at hf ctx' (match line_binding e with Some (k, v) => aset k v l | None => l end) m'.
Proof.
  intros Hp He Hc Hl. unfold env_load_entry, has_env_prefix. cbn [prefix]. destruct e as [ws v|t].
  - assert (Hpre : is_prefix p (line_text p (EPath ws v)) = true) by apply is_prefix_app. rewrite Hpre. cbn [negb]. change (length (default [] (Some p))) with (length p).
    rewrite env_key_of_path by done. cbn [case_sensitive].
    change (default (cs "_") (separator _)) with SEP. destruct He as [Hw Hlen].
    assert (Hmap : env_key_map (env_lower (join (SEP ++ SEP) ws)) SEP ENV_KEY_SIZE = join DOT (map env_lower ws)).
    { unfold env_key_map. rewrite lower_join. change (env_lower (SEP ++ SEP)) with (SEP ++ SEP).
      assert (Hlw : length (join (SEP ++ SEP) (map env_lower ws)) = length (join (SEP ++ SEP) ws)).
      { change (SEP ++ SEP) with (env_lower (SEP ++ SEP)) at 1. rewrite <- lower_join. apply length_map. }
      apply key_map_join; [done| |unfold env_lower in *; lia|].
      - apply Forall_map. eapply Forall_impl; [exact Hw|]. intros w Hw'. apply Forall_map.
        eapply Forall_impl; [exact Hw'|]. intros c (Hc95 & _). apply not_elem_of_cons. split; [|apply not_elem_of_nil].
        unfold tolower. change (Z.of_nat _) with 95. case_match eqn:E; [|done].
        apply andb_true_iff in E as [H1%Z.leb_le H2%Z.leb_le]. lia.
      - pose proof (join_length (SEP ++ SEP) DOT (map env_lower ws) ltac:(simpl; lia)). unfold ENV_KEY_SIZE in *. lia. }
    rewrite Hmap. unfold env_value_parse.
    destruct (put_at hf ctx l m (join DOT (map env_lower ws)) (env_value v) Hc (env_value_wf v) Hl) as (q & m1 & ctx' & m' & H1 & H2 & H3).
    exists ctx', m'. unfold bind. rewrite H1, H2. done.
  - cbn [line_text line_binding]. destruct He as [He|He].
    + rewrite He. by exists ctx, m.
    + destruct (is_prefix p t); [|by exists ctx, m]. unfold env_key_of. rewrite He. by exists ctx, m.
Qed.

Lemma env_loop_at hf p h es ctx l m :
  (61 ∉ p) -> Forall (line_ok p) es -> ctx_at hf ctx l m -> Z.of_nat (length l + length es) < 2 ^ 31 ->
  exists ctx' m', env_load_loop (EnvPriv (Some p) false (Some SEP) h) (map (line_text p) es) ctx m = Some (ctx', m') /\
    ctx_at hf ctx' (assigns (omap line_binding es) l) m'.
Proof.
  intros Hp Hes. revert ctx l m. induction Hes as [|e es He _ IH]; intros ctx l m Hc Hl; [by exists ctx, m|]. simpl in Hl.
  destruct (env_entry_at hf p h e ctx l m Hp He Hc) as (ctx1 & m1 & H1 & Hc1); [lia|].
  cbn [map env_load_loop]. unfold bind. rewrite H1. cbn [omap list_omap]. destruct (line_binding e) as [[k v]|].
  - apply (IH _ (aset k v l)); [done|]. pose proof (aset_length k v l). lia.
  - apply IH; [done|lia].
Qed.

(** An environment source with a prefix binds, in the order of the
    environment, each variable whose name is the prefix and words joined by
    doubled separators: the key is the words in lower case joined by dots, the
    value an integer, a Boolean or the text; other variables are passed over.
    Right after, the source reports no change of the same environment. *)
Theorem env_source_binds_paths hf p h es ctx l m :
  (61 ∉ p) -> Forall (line_ok p) es -> ctx_at hf ctx l m -> Z.of_nat (length l + length es) < 2 ^ 31 ->
  let env := Some (map (line_text p) es) in
  exists ctx' m' priv',
    env_source_load (EnvPriv (Some p) false (Some SEP) h) env ctx m = Some ((CONFIG_SUCCESS, ctx', priv'), m') /\
    ctx_at hf ctx' (assigns (omap line_binding es) l) m' /\
    env_source_has_changed priv' env = (false, priv').
Proof.
  intros Hp Hes Hc Hl env. destruct (env_loop_at hf p h es ctx l m Hp Hes Hc Hl) as (ctx' & m' & H & Hc').
  eexists ctx', m', _. unfold env_source_load, env, bind. rewrite H. split_and!; [done..|].
  unfold env_source_has_changed. simpl env_hash. by rewrite Z.eqb_refl.
Qed.

Lemma env_source_binds_paths_witness :
  let es := [EPath [cs "Net"; cs "Port"] (cs "80"); EOther (cs "PATH=/bin"); EPath [cs "DEBUG"] (cs "True")] in
  Forall (line_ok (cs "AGENT_")) es /\
  exists ctx' m' priv',
    env_source_load (EnvPriv (Some (cs "AGENT_")) false (Some SEP) 0)
      (Some [cs "AGENT_Net__Port=80"; cs "PATH=/bin"; cs "AGENT_DEBUG=True"]) new_context (Mem ∅ [])
      = Some ((CONFIG_SUCCESS, ctx', priv'), m') /\
    ctx_at ∅ ctx' [(cs "net.port", CInt 80); (cs "debug", CBool true)] m' /\
    env_source_has_changed priv' (Some [cs "AGENT_Net__Port=80"; cs "PATH=/bin"; cs "AGENT_DEBUG=True"]) = (false, priv').
Proof.
  set (es := [EPath [cs "Net"; cs "Port"] (cs "80"); EOther (cs "PATH=/bin"); EPath [cs "DEBUG"] (cs "True")]).
  assert (H : Forall (line_ok (cs "AGENT_")) es).
  { repeat constructor; try (intro; discriminate); try (vm_compute; lia). }
  split; [exact H|].
  refine (env_source_binds_paths ∅ (cs "AGENT_") 0 es new_context [] (Mem ∅ []) _ H new_context_at _); [|vm_compute; reflexivity].
  apply (bool_decide_unpack _). vm_compute. exact I.
Defined.

(** ** Loading sources *)

Definition prefix_ok (p : env_source_priv) : Prop := 61 ∉ default [] (prefix p).

Lemma find_eq_prefix p e i : (61 ∉ p) -> is_prefix p e = true -> find_eq e = Some i -> (length p <= i < length e)%nat.
Proof.
  intros Hp He Hi. apply bool_decide_eq_true in He. revert e i He Hi.
  assert (Hlt : forall e i, find_eq e = Some i -> (i < length e)%nat).
  { induction e as [|c e IH]; intros i; simpl; [done|]. case_match; [intros [= <-]; lia|].
    destruct (find_eq e) as [j|]; [|done]. intros [= <-]. specialize (IH j eq_refl). lia. }
  induction p as [|c p IH]; intros e i He Hi; [split; [simpl; lia|by apply Hlt]|].
  apply not_elem_of_cons in Hp as [Hc Hp]. destruct e as [|d e]; [done|]. injection He as -> He. simpl in Hi.
  destruct (Z.eqb_spec c 61); [congruence|]. destruct (find_eq e) as [j|] eqn:Hj; [|done]. injection Hi as <-.
  specialize (IH Hp e j He Hj). simpl. lia.
Qed.

Lemma env_entry_total hf p e ctx l m :
  prefix_ok p -> ctx_at hf ctx l m -> Z.of_nat (length l) < 2 ^ 31 ->
  exists ctx' m' kvs, env_load_entry p e ctx m = Some (ctx', m') /\ ctx_at hf ctx' (assigns kvs l) m' /\ (length kvs <= 1)%nat.
Proof.
  intros Hp Hc Hl. assert (Hsame : exists ctx' m' kvs, ret ctx m = Some (ctx', m') /\ ctx_at hf ctx' (assigns kvs l) m' /\ (length kvs <= 1)%nat).
  { exists ctx, m, []. split_and!; [done..|simpl; lia]. }
  unfold env_load_entry. destruct (has_env_prefix p e) eqn:He; cbn [negb]; [|done].
  assert (Hpre : is_prefix (default [] (prefix p)) e = true).
  { unfold has_env_prefix in He. unfold is_prefix in *. destruct (prefix p); [done|]. by apply bool_decide_eq_true. }
  unfold env_key_of. destruct (find_eq e) as [i|] eqn:Hi; [|done].
  pose proof (find_eq_prefix _ _ _ Hp Hpre Hi) as [Hi1 Hi2]. set (n := length (default [] (prefix p))) in *.
  set (len := Z.to_nat _).
  assert (Hlen : (n + len <= length e + 1)%nat).
  { unfold len, u64. pose proof (Z.mod_le (Z.of_nat i - Z.of_nat n) (2 ^ 64) ltac:(lia) ltac:(lia)).
    unfold ENV_KEY_SIZE. lia. }
  rewrite (proj2 (Nat.leb_le _ _) Hlen). set (key := if case_sensitive p then _ else _). unfold env_value_parse.
  set (mapped := env_key_map _ _ _). set (v := env_value _).
  destruct (put_at hf ctx l m mapped v Hc (env_value_wf _) Hl) as (q & m1 & ctx' & m' & H1 & H2 & H3).
  exists ctx', m', [(mapped, v)]. unfold bind. rewrite H1, H2. split_and!; [done..|simpl; lia].
Qed.

Lemma env_loop_total hf p env ctx l m :
  prefix_ok p -> ctx_at hf ctx l m -> Z.of_nat (length l + length env) < 2 ^ 31 ->
  exists ctx' m' kvs, env_load_loop p env ctx m = Some (ctx', m') /\ ctx_at hf ctx' (assigns kvs l) m' /\
    (length kvs <= length env)%nat.
Proof.
  intros Hp. revert ctx l m. induction env as [|e env IH]; intros ctx l m Hc Hl; [by exists ctx, m, []|]. simpl in Hl.
  destruct (env_entry_total hf p e ctx l m Hp Hc) as (ctx1 & m1 & kvs1 & H1 & Hc1 & Hk1); [lia|].
  destruct (IH ctx1 _ m1 Hc1) as (ctx2 & m2 & kvs2 & H2 & Hc2 & Hk2).
  { pose proof (assigns_length kvs1 l). lia. }
  exists ctx2, m2, (kvs1 ++ kvs2). simpl. unfold bind. rewrite H1, H2, assigns_app, length_app. split_and!; [done..|lia].
Qed.

(** A source that can be loaded, with a bound on the bindings it makes: an
    environment source whose prefix has no [=], or a text of at most its length
    in JSON or INI, or in YAML where the reader returns a tree. *)
Inductive loadable (fuel : nat) (environ : option (list cstr)) : config_source -> nat -> Prop :=
  | LoadEnv p a : prefix_ok p -> loadable fuel environ (Source (PEnv p) a) (length (default [] environ))
  | LoadJson p a text : format p = Some (cs "json") -> memory_text p = Some text ->
      loadable fuel environ (Source (PMemory p) a) (length text)
  | LoadIni p a text : format p = Some (cs "ini") -> memory_text p = Some text -> text <> [] ->
      loadable fuel environ (Source (PMemory p) a) (length text)
  | LoadYaml p a text t e : format p = Some (cs "yaml") -> memory_text p = Some text ->
      yaml_tree fuel (yaml_text p text) = Done (0, Some t, e) ->
      loadable fuel environ (Source (PMemory p) a) (length (yflat [] t)).

Definition loads (hf : gmap nat config_value) (l : list (cstr * config_value)) (n : nat) {A} (f : C (Z * config_context * A)) (m : mem) : Prop :=
  exists err ctx' x m' kvs, f m = Done ((err, ctx', x), m') /\ ctx_at hf ctx' (assigns kvs l) m' /\
    (length (assigns kvs l) <= length l + n)%nat /\
    (err = CONFIG_SUCCESS \/ err = CONFIG_ERROR_PARSE \/ err = CONFIG_ERROR_INVALID_ARG).

Lemma source_loads hf fuel environ src n ctx l m :
  loadable fuel environ src n -> ctx_at hf ctx l m -> Z.of_nat (length l + n) < 2 ^ 31 ->
  loads hf l n (config_source_load fuel [] environ src ctx) m.
Proof.
  intros Hs Hc Hl. unfold loads, config_source_load, memory_source_load, cbind, lift, cret.
  destruct Hs as [p a Hp|p a text Hf Ht|p a text Hf Ht Hne|p a text t e Hf Ht Hy]; cbn [priv_data attributes].
  - unfold env_source_load. destruct environ as [env|]; simpl in Hl |- *.
    + destruct (env_loop_total hf p env ctx l m Hp Hc Hl) as (ctx' & m' & kvs & H & Hc' & Hk).
      eexists CONFIG_SUCCESS, ctx', _, m', kvs. unfold bind. rewrite H. split_and!; [done..| |by left].
      pose proof (assigns_length kvs l). lia.
    + eexists CONFIG_SUCCESS, ctx, _, m, []. split_and!; [done..|simpl; lia|by left].
  - rewrite Ht, Hf, decide_True by done.
    destruct (json_reads hf ctx l m text Hc Hl) as (err & ctx' & m' & kvs & H & Hc' & Hk & He).
    eexists err, ctx', _, m', kvs. rewrite H. split_and!; [done..|tauto].
  - rewrite Ht, Hf, decide_False, decide_False, decide_True by done.
    destruct (ini_total hf ctx l m text Hc Hne Hl) as (ctx' & m' & kvs & H & Hc' & Hk).
    eexists _, ctx', _, m', kvs. rewrite H. split_and!; [done..| |by left]. pose proof (assigns_length kvs l). lia.
  - rewrite Ht, Hf, decide_False, decide_True by done.
    destruct (config_yaml_at hf ctx l m fuel (yaml_text p text) t e Hc Hy) as (ctx' & m' & H & Hc'); [lia|].
    eexists _, ctx', _, m', _. rewrite H. split_and!; [done..| |by left].
    pose proof (assigns_length (yflat [] t) l). lia.
Qed.

Definition slot_loadable (fuel : nat) (environ : option (list cstr)) (src : option config_source) (n : nat) : Prop :=
  match src with None => n = 0%nat | Some src => loadable fuel environ src n end.

Lemma service_loop_loads hf fuel environ sources ns ctx l m :
  Forall2 (slot_loadable fuel environ) sources ns -> ctx_at hf ctx l m -> Z.of_nat (length l + sum_list ns) < 2 ^ 31 ->
  loads hf l (sum_list ns) (service_load_loop fuel [] environ sources ctx) m.
Proof.
  intros Hs. revert ctx l m. induction Hs as [|[src|] n sources ns Hn _ IH]; intros ctx l m Hc Hl;
    cbn [service_load_loop]; try change (sum_list (n :: ns)) with (n + sum_list ns)%nat in *.
  - exists CONFIG_SUCCESS, ctx, [], m, []. split_and!; [done..|simpl; lia|by left].
  - destruct (source_loads hf fuel environ src n ctx l m Hn Hc) as (err & ctx1 & src1 & m1 & kvs1 & H1 & Hc1 & Hk1 & He1); [lia|].
    unfold loads, cbind, cret. simpl default. cbn [tail]. rewrite H1. destruct (Z.eqb_spec err CONFIG_SUCCESS) as [->|Hne]; cbn [negb].
    + destruct (IH ctx1 _ m1 Hc1) as (err2 & ctx2 & rest & m2 & kvs2 & H2 & Hc2 & Hk2 & He2); [lia|].
      exists err2, ctx2, (Some src1 :: rest), m2, (kvs1 ++ kvs2). rewrite H2, assigns_app. split_and!; [done..|lia|done].
    + exists err, ctx1, (Some src1 :: sources), m1, kvs1. split_and!; [done..|lia|done].
  - simpl in Hn. subst n. unfold loads, cbind, cret. simpl tail.
    destruct (IH ctx l m Hc Hl) as (err2 & ctx2 & rest & m2 & kvs2 & H2 & Hrest).
    exists err2, ctx2, (None :: rest), m2, kvs2. by rewrite H2.
Qed.

(** Loading any list of sources that can be read (environments, texts in
    JSON, INI or YAML) always returns: it reports success, a parse error or an
    invalid argument, and what it did to the context, also when a later source
    failed, is a sequence of assignments; no value is lost, freed twice or read
    after it is freed. *)
Theorem config_service_loads hf fuel environ sources ns ctx l m :
  sources <> [] -> Forall2 (slot_loadable fuel environ) sources ns -> ctx_at hf ctx l m ->
  Z.of_nat (length l + sum_list ns) < 2 ^ 31 ->
  exists err ctx' sources' m' kvs,
    config_service_load fuel [] environ sources ctx m = Done ((err, ctx', sources'), m') /\
    ctx_at hf ctx' (assigns kvs l) m' /\
    (err = CONFIG_SUCCESS \/ err = CONFIG_ERROR_PARSE \/ err = CONFIG_ERROR_INVALID_ARG).
Proof.
  intros Hne Hs Hc Hl. destruct (service_loop_loads hf fuel environ sources ns ctx l m Hs Hc Hl)
    as (err & ctx' & src' & m' & kvs & H & Hc' & _ & He).
  exists err, ctx', src', m', kvs. split_and!; [|done..]. unfold config_service_load. by destruct sources.
Qed.

Definition sample_attr : config_source_attr := Attr CONFIG_SOURCE_MEMORY None 50 true false 0 1.

Lemma config_service_loads_witness :
  let srcs := [Some (Source (PMemory (MemoryPriv (cs "a: 1") 4 (Some (cs "yaml")))) sample_attr); None;
               Some (Source (PMemory (MemoryPriv (cs "b=2") 3 (Some (cs "ini")))) sample_attr);
               Some (Source (PEnv (EnvPriv (Some (cs "X_")) false (Some SEP) 0)) sample_attr)] in
  exists err ctx' sources' m' kvs,
    config_service_load 99 [] (Some [cs "X_A=3"]) srcs new_context (Mem ∅ []) = Done ((err, ctx', sources'), m') /\
    ctx_at ∅ ctx' (assigns kvs []) m' /\
    (err = CONFIG_SUCCESS \/ err = CONFIG_ERROR_PARSE \/ err = CONFIG_ERROR_INVALID_ARG).
Proof.
  refine (config_service_loads ∅ 99 (Some [cs "X_A=3"]) _ [_; 0%nat; 3%nat; 1%nat] new_context [] (Mem ∅ []) _ _ new_context_at _).
  - discriminate.
  - apply Forall2_cons; split; [|apply Forall2_cons; split; [|apply Forall2_cons; split; [|apply Forall2_cons; split]]].
    + apply (LoadYaml 99 _ _ sample_attr (cs "a: 1") (TMap [(cs "a", TScalar (cs "1"))]) None); vm_compute; reflexivity.
    + reflexivity.
    + apply (LoadIni 99 _ _ sample_attr (cs "b=2")); [vm_compute; reflexivity..|discriminate].
    + apply LoadEnv. apply (bool_decide_unpack _). vm_compute. exact I.
    + constructor.
  - vm_compute. reflexivity.
Defined.

(** ** What goes wrong *)

(** The copy of the prefix is refused and the others are granted: the source
    is created without a prefix, and loads the whole environment. *)
Theorem env_prefix_dropped :
  exists src, config_source_create_env (Some (cs "AGENT_")) None false 0 (Mem ∅ [true; true; true; false; true]) =
    Some (Some src, Mem ∅ []) /\
  exists ctx' src' m', config_source_load 0 [] (Some [cs "HOME=/root"]) src new_context (Mem ∅ []) =
    Done ((CONFIG_SUCCESS, ctx', src'), m') /\ (items ctx').*1 = [cs "home"].
Proof. eexists. split; [vm_compute; reflexivity|]. do 3 eexists. split; [vm_compute; reflexivity|vm_compute; reflexivity]. Qed.

(** The length of the options is believed although only the string was copied:
    the parser is given bytes past the end of the copy. *)
Theorem memory_length_unchecked :
  exists src, config_source_create_memory (Some (cs "a: 1")) 100 (Some (cs "yaml")) 0 (Mem ∅ []) = Some (Some src, Mem ∅ []) /\
  forall fuel g env ctx m, config_source_load fuel g env src ctx m = Undefined.
Proof. eexists. split; [vm_compute; reflexivity|]. reflexivity. Qed.

(** A number that does not fit an [int] becomes another number. *)
Example env_number_wraps : env_value (cs "4294967297") = CInt 1.
Proof. vm_compute. reflexivity. Qed.
