(* ===== verification/Decimal.v ===== *)
(** * Decimal texts

    What [%u] prints, read back: the value of a run of digits, the length of a
    number, fixed widths ([%04u]).  Shared by the files whose sources write
    numbers into names and read them again. *)
From S2P Require Import Prelude.

Definition is_dec (c : Z) : bool := (48 <=? c) && (c <=? 57).

Definition dec_value (s : cstr) : Z := foldl (fun a d => a * 10 + (d - 48)) 0 s.

(** [%0wu]: the number, filled with zeros up to the width. *)
Definition pad (w : nat) (n : Z) : cstr := replicate (w - length (fmt_u n)) 48 ++ fmt_u n.

(** The integer nearest to [n / d], ties to even. *)
Definition round_half_even (n d : Z) : Z :=
  let q := n / d in let r := n mod d in
  if (2 * r <? d) || ((2 * r =? d) && Z.even q) then q else q + 1.

Lemma dec_value_digits fuel n : 0 <= n < 10 ^ Z.of_nat fuel -> dec_value (dec_digits fuel n) = n.
Proof.
  revert n. induction fuel as [|fuel IH]; intros n Hn.
  { change (10 ^ Z.of_nat 0) with 1 in Hn. unfold dec_value. simpl. lia. }
  cbn [dec_digits].
  unfold dec_value in *. rewrite foldl_app. cbn [foldl]. rewrite Nat2Z.inj_succ, Z.pow_succ_r in Hn by lia.
  pose proof (Z.div_mod n 10). pose proof (Z.mod_pos_bound n 10). destruct (Z.ltb_spec n 10).
  - cbn [foldl]. rewrite Z.mod_small by lia. lia.
  - rewrite IH; [lia|]. split; [apply Z.div_pos; lia|]. apply Z.div_lt_upper_bound; lia.
Qed.

Lemma fmt_u_value n : 0 <= n < 10 ^ 20 -> dec_value (fmt_u n) = n.
Proof. intros Hn. apply dec_value_digits. change (Z.of_nat 20) with 20. lia. Qed.

Lemma fmt_u_inj m n : 0 <= m < 10 ^ 20 -> 0 <= n < 10 ^ 20 -> fmt_u m = fmt_u n -> m = n.
Proof. intros Hm Hn H. by rewrite <- (fmt_u_value m), <- (fmt_u_value n), H. Qed.

Lemma dec_digits_length k fuel n : 0 <= n < 10 ^ Z.of_nat (S k) -> (length (dec_digits fuel n) <= S k)%nat.
Proof.
  revert fuel n. induction k as [|k IH]; intros fuel n Hn; (destruct fuel as [|fuel]; cbn [dec_digits]; [simpl; lia|]);
    rewrite length_app; simpl length; destruct (Z.ltb_spec n 10); simpl length; try lia.
  rewrite Nat2Z.inj_succ, Z.pow_succ_r in Hn by lia. specialize (IH fuel (n / 10)).
  assert (0 <= n / 10 < 10 ^ Z.of_nat (S k)) by (split; [apply Z.div_pos; lia|apply Z.div_lt_upper_bound; lia]).
  specialize (IH ltac:(done)). lia.
Qed.

Lemma fmt_u_length fuel n : 0 <= n -> n < 10 ^ 10 -> (length (dec_digits fuel n) <= 10)%nat.
Proof. intros H1 H2. apply dec_digits_length. change (Z.of_nat 10) with 10. lia. Qed.

Lemma dec_digits_dec fuel n : 0 <= n -> Forall (fun c => is_dec c = true) (dec_digits fuel n).
Proof.
  revert n. induction fuel as [|fuel IH]; intros n Hn; cbn [dec_digits]; [constructor|].
  apply Forall_app. split.
  - destruct (n <? 10); [constructor|]. apply IH, Z.div_pos; lia.
  - constructor; [|constructor]. unfold is_dec. pose proof (Z.mod_pos_bound n 10). apply andb_true_iff. lia.
Qed.

Lemma fmt_u_dec n : 0 <= n -> Forall (fun c => is_dec c = true) (fmt_u n).
Proof. apply dec_digits_dec. Qed.

Lemma fmt_u_nonempty n : fmt_u n <> [].
Proof. unfold fmt_u. cbn [dec_digits]. by destruct (if n <? 10 then _ else _). Qed.

Lemma dec_value_zeros k s : dec_value (replicate k 48 ++ s) = dec_value s.
Proof. unfold dec_value. rewrite foldl_app. f_equal. induction k as [|k IH]; [done|]. exact IH. Qed.

Lemma pad_value w n : 0 <= n < 10 ^ 20 -> dec_value (pad w n) = n.
Proof. intros Hn. unfold pad. by rewrite dec_value_zeros, fmt_u_value. Qed.

Lemma pad_dec w n : 0 <= n -> Forall (fun c => is_dec c = true) (pad w n).
Proof. intros Hn. apply Forall_app. split; [by apply Forall_replicate|by apply fmt_u_dec]. Qed.

Lemma pad_nonempty w n : pad w n <> [].
Proof. unfold pad. intros H. apply app_nil in H as [_ H]. by apply fmt_u_nonempty in H. Qed.

Lemma pad_length w n : (0 < w)%nat -> 0 <= n < 10 ^ Z.of_nat w -> length (pad w n) = w.
Proof.
  intros Hw Hn. destruct w as [|k]; [lia|].
  unfold pad. rewrite length_app, length_replicate. pose proof (dec_digits_length k 20 n Hn). unfold fmt_u. lia.
Qed.

(** The value of a run of digits read after [v]. *)
Definition dec_from (v : Z) (s : cstr) : Z := foldl (fun a d => a * 10 + (d - 48)) v s.

Lemma dec_from_ge v s : Forall (fun c => is_dec c = true) s -> 0 <= v -> v <= dec_from v s.
Proof.
  intros Hs. revert v. induction Hs as [|c s Hc Hs IH]; intros v Hv; [done|].
  unfold is_dec in Hc. apply andb_prop in Hc as [Hc1 Hc2].
  change (dec_from v (c :: s)) with (dec_from (v * 10 + (c - 48)) s).
  specialize (IH (v * 10 + (c - 48)) ltac:(lia)). lia.
Qed.

(** One step of a reader that reduces to 64 bits. *)
Lemma dec_from_step v c s :
  Forall (fun c => is_dec c = true) (c :: s) -> 0 <= v -> dec_from v (c :: s) < 2 ^ 64 ->
  (48 <=? c) && (c <=? 57) = true /\ 0 <= v * 10 + (c - 48) /\ u64 (v * 10 + (c - 48)) = v * 10 + (c - 48)
  /\ dec_from (v * 10 + (c - 48)) s = dec_from v (c :: s).
Proof.
  intros Hs Hv Hlt. apply Forall_cons in Hs as [Hc Hs]. unfold is_dec in Hc. split; [done|].
  apply andb_prop in Hc as [Hc1 Hc2]. pose proof (dec_from_ge (v * 10 + (c - 48)) s Hs ltac:(lia)) as Hge.
  change (dec_from v (c :: s)) with (dec_from (v * 10 + (c - 48)) s) in *.
  split; [lia|]. split; [|done]. apply u64_small. lia.
Qed.

(** ** Order of texts *)

(** [strcmp] is negative. *)
Fixpoint lex_lt (s t : cstr) : Prop :=
  match s, t with
  | c :: s', d :: t' => c < d \/ c = d /\ lex_lt s' t'
  | [], _ :: _ => True
  | _, [] => False
  end.

Lemma lex_app_eq x s t : lex_lt s t -> lex_lt (x ++ s) (x ++ t).
Proof. intros H. induction x as [|c x IH]; [done|]. right. done. Qed.

Lemma lex_app_lt x y s t : length x = length y -> lex_lt x y -> lex_lt (x ++ s) (y ++ t).
Proof.
  revert y. induction x as [|c x IH]; intros [|d y] Hl H; try done. cbn [app lex_lt] in *.
  destruct H as [H|[-> H]]; [by left|]. right. split; [done|]. apply IH; [|done]. cbn in Hl. lia.
Qed.

Lemma dec_from_range v s :
  Forall (fun c => is_dec c = true) s ->
  v * 10 ^ Z.of_nat (length s) <= dec_from v s < (v + 1) * 10 ^ Z.of_nat (length s).
Proof.
  intros Hs. revert v. induction Hs as [|c s Hc _ IH]; intros v.
  - unfold dec_from. cbn. lia.
  - unfold is_dec in Hc. change (dec_from v (c :: s)) with (dec_from (v * 10 + (c - 48)) s).
    specialize (IH (v * 10 + (c - 48))). cbn [length]. rewrite Nat2Z.inj_succ, Z.pow_succ_r by lia.
    assert (0 < 10 ^ Z.of_nat (length s)) by (apply Z.pow_pos_nonneg; lia). nia.
Qed.

Lemma dec_lex v s t :
  Forall (fun c => is_dec c = true) s -> Forall (fun c => is_dec c = true) t -> length s = length t ->
  dec_from v s < dec_from v t -> lex_lt s t.
Proof.
  intros Hs. revert v t. induction Hs as [|c s Hc Hs IH]; intros v [|d t] Ht Hl Hlt; try done.
  { unfold dec_from in Hlt. cbn in Hlt. lia. }
  apply Forall_cons in Ht as [Hd Ht]. cbn [length] in Hl. cbn [lex_lt].
  change (dec_from (v * 10 + (c - 48)) s < dec_from (v * 10 + (d - 48)) t) in Hlt.
  destruct (Z.lt_trichotomy c d) as [H|[->|H]]; [by left|right; split; [done|by eapply IH; eauto]|exfalso].
  pose proof (dec_from_range (v * 10 + (c - 48)) s Hs). pose proof (dec_from_range (v * 10 + (d - 48)) t Ht).
  rewrite <- (eq_add_S _ _ Hl) in *. assert (0 < 10 ^ Z.of_nat (length s)) by (apply Z.pow_pos_nonneg; lia). nia.
Qed.

(** Fields of a fixed width compare as numbers. *)
Lemma lex_field w a b s t :
  (0 < w <= 19)%nat -> 0 <= a < 10 ^ Z.of_nat w -> 0 <= b < 10 ^ Z.of_nat w -> a < b \/ a = b /\ lex_lt s t ->
  lex_lt (pad w a ++ s) (pad w b ++ t).
Proof.
  intros Hw Ha Hb [H|[-> H]]; [|by apply lex_app_eq].
  assert (10 ^ Z.of_nat w < 10 ^ 20) by (apply Z.pow_lt_mono_r; lia).
  apply lex_app_lt; [rewrite !pad_length; lia|].
  apply (dec_lex 0); [apply pad_dec; lia|apply pad_dec; lia|rewrite !pad_length; lia|].
  change (dec_value (pad w a) < dec_value (pad w b)). rewrite !pad_value; lia.
Qed.
