(* ===== verification/Keyed.v ===== *)
(** * Arrays of records with a key, as finite maps

    Several components keep an array of records that are found by a name,
    replaced in place, appended, and removed by moving the last record into
    the gap.  This file has the search and the removal, and shows that on
    arrays without duplicate keys they are the operations of a finite map. *)
From S2P Require Import Prelude.

(** The first place where [f] holds. *)
Fixpoint index_of {A} (f : A -> bool) (l : list A) : option nat :=
  match l with [] => None | x :: l' => if f x then Some 0%nat else S <$> index_of f l' end.

Lemma index_of_Some {A} (f : A -> bool) l i :
  index_of f l = Some i -> exists x, l !! i = Some x /\ f x = true.
Proof.
  revert i. induction l as [|x l IH]; intros i; simpl; [done|]. destruct (f x) eqn:E.
  - intros [= <-]. by exists x.
  - destruct (index_of f l) as [j|]; [|done]. intros [= <-]. by apply IH.
Qed.

Lemma index_of_None {A} (f : A -> bool) l : index_of f l = None -> forall x, x ∈ l -> f x = false.
Proof.
  induction l as [|y l IH]; simpl; intros H x Hx; [by apply elem_of_nil in Hx|].
  destruct (f y) eqn:E; [done|]. destruct (index_of f l); [done|]. apply elem_of_cons in Hx as [->|Hx]; auto.
Qed.

Lemma index_of_full {A} (f : A -> bool) l :
  index_of (fun x => negb (f x)) l = None -> length (filter (fun x => f x = true) l) = length l.
Proof.
  induction l as [|x l IH]; simpl; [done|]. rewrite filter_cons. destruct (f x); simpl; [|done].
  destruct (index_of _ l); [done|]. intros _. by rewrite IH.
Qed.

(** ** Removal that moves the last element into the gap *)

Definition swap_remove {A} (j : nat) (l : list A) : list A :=
  let n := (length l - 1)%nat in
  take n (match l !! n with
          | Some x => if (j <? n)%nat then <[j := x]> l else l
          | None => l
          end).

Lemma swap_remove_perm {A} (l : list A) j x : l !! j = Some x -> l ≡ₚ x :: swap_remove j l.
Proof.
  intros Hj. pose proof (lookup_lt_Some _ _ _ Hj) as Hlt. unfold swap_remove.
  destruct (exists_last (l := l)) as (l0 & y & ->); [by intros ->|]. rewrite length_app in *. simpl in *.
  replace (length l0 + 1 - 1)%nat with (length l0) by lia.
  rewrite lookup_app_r, Nat.sub_diag by lia. simpl. destruct (Nat.ltb_spec j (length l0)) as [Hl|Hl].
  - rewrite lookup_app_l in Hj by done. rewrite insert_app_l, take_app_le, take_ge by (rewrite ?length_insert; lia).
    rewrite Permutation_app_comm. simpl. rewrite <- (take_drop_middle l0 j x Hj) at 1.
    rewrite insert_take_drop by done. rewrite !Permutation_middle. simpl. solve_Permutation.
  - replace j with (length l0) in Hj by lia. rewrite lookup_app_r, Nat.sub_diag in Hj by lia. injection Hj as <-.
    rewrite take_app_le, take_ge by lia. by rewrite Permutation_app_comm.
Qed.

Lemma swap_remove_length {A} (l : list A) j : length (swap_remove j l) = (length l - 1)%nat.
Proof.
  unfold swap_remove. rewrite length_take. case_match; [|lia]. case_match; rewrite ?length_insert; lia.
Qed.

Lemma swap_remove_take {A} (l : list A) j : (j < length l)%nat -> take j (swap_remove j l) = take j l.
Proof.
  intros Hj. unfold swap_remove. rewrite take_take, Nat.min_l by lia.
  case_match; [|done]. case_match; [|done]. by rewrite take_insert_ge.
Qed.

Lemma swap_remove_drop {A} (l : list A) j x :
  l !! j = Some x -> drop j l ≡ₚ x :: drop j (swap_remove j l).
Proof.
  intros Hj. pose proof (lookup_lt_Some _ _ _ Hj) as Hlt.
  apply (Permutation_app_inv_l (take j l)). rewrite take_drop.
  rewrite <- (swap_remove_take l j) at 1 by done. rewrite <- Permutation_middle, take_drop. by apply swap_remove_perm.
Qed.

Lemma alter_as_insert {A} (f : A -> A) (l : list A) i x : l !! i = Some x -> alter f i l = <[i := f x]> l.
Proof.
  revert i. induction l as [|y l IH]; intros [|i] Hi; [done|done|by injection Hi as ->|].
  change (y :: alter f i l = y :: <[i := f x]> l). by rewrite IH.
Qed.

(** ** The map of an array *)

Section keyed.
Context {A K V : Type} `{Countable K} (key : A -> K) (val : A -> V).

Definition kmap (l : list A) : gmap K V := list_to_map ((fun x => (key x, val x)) <$> l).

Definition keys_distinct (l : list A) : Prop := NoDup (key <$> l).

Lemma kmap_fst l : ((fun x => (key x, val x)) <$> l).*1 = key <$> l.
Proof. rewrite <- list_fmap_compose. done. Qed.

Lemma kmap_lookup l x : keys_distinct l -> x ∈ l -> kmap l !! key x = Some (val x).
Proof.
  intros Hn Hx. apply elem_of_list_to_map; [by rewrite kmap_fst|]. apply list_elem_of_fmap. eauto.
Qed.

Lemma kmap_lookup_Some l k v : keys_distinct l -> kmap l !! k = Some v <-> exists x, x ∈ l /\ key x = k /\ val x = v.
Proof.
  intros Hn. unfold kmap. rewrite <- elem_of_list_to_map by (by rewrite kmap_fst). rewrite list_elem_of_fmap.
  split; [intros (x & [= -> ->] & Hx); eauto|intros (x & Hx & <- & <-); eauto].
Qed.

Lemma kmap_lookup_None l k : kmap l !! k = None <-> k ∉ key <$> l.
Proof. unfold kmap. rewrite <- not_elem_of_list_to_map, kmap_fst. done. Qed.

Lemma kmap_perm l l' : keys_distinct l -> l ≡ₚ l' -> kmap l = kmap l'.
Proof. intros Hn Hp. apply list_to_map_proper; [by rewrite kmap_fst|by rewrite Hp]. Qed.

Lemma keys_distinct_perm l l' : l ≡ₚ l' -> keys_distinct l -> keys_distinct l'.
Proof. intros Hp. unfold keys_distinct. by rewrite Hp. Qed.

Lemma kmap_size l : keys_distinct l -> size (kmap l) = length l.
Proof.
  induction l as [|x l IH]; intros Hn; [done|]. unfold keys_distinct in *. cbn [fmap list_fmap] in Hn.
  apply NoDup_cons in Hn as [Hx Hn]. cbn [kmap fmap list_fmap list_to_map].
  change (size (<[key x:=val x]> (kmap l)) = S (length l)). rewrite map_size_insert_None; [by rewrite IH|].
  by apply kmap_lookup_None.
Qed.

(** Replacing a record by one with the same key. *)
Lemma keys_insert (l : list A) (i : nat) x y : l !! i = Some x -> key y = key x -> key <$> <[i := y]> l = key <$> l.
Proof.
  intros Hi Hk. rewrite list_fmap_insert, Hk. apply list_insert_id. by rewrite list_lookup_fmap, Hi.
Qed.

Lemma keys_distinct_insert (l : list A) (i : nat) x y :
  l !! i = Some x -> key y = key x -> keys_distinct l -> keys_distinct (<[i := y]> l).
Proof. intros Hi Hk. unfold keys_distinct. by rewrite (keys_insert _ _ _ _ Hi Hk). Qed.

Lemma kmap_insert (l : list A) (i : nat) x y :
  keys_distinct l -> l !! i = Some x -> key y = key x -> kmap (<[i := y]> l) = <[key x := val y]> (kmap l).
Proof.
  revert i. induction l as [|z l IH]; intros [|i] Hn Hi Hk; [done|done| |]; simpl in Hi.
  - injection Hi as ->. unfold kmap. cbn. rewrite Hk. by rewrite insert_insert_eq.
  - unfold keys_distinct in *. cbn [fmap list_fmap] in Hn. apply NoDup_cons in Hn as [Hz Hn].
    change (kmap (<[S i := y]> (z :: l))) with (<[key z := val z]> (kmap (<[i := y]> l))).
    rewrite (IH i Hn Hi Hk). change (kmap (z :: l)) with (<[key z := val z]> (kmap l)).
    apply insert_insert_ne. intros E. apply Hz. rewrite E. apply list_elem_of_fmap. exists x. split; [done|]. by eapply list_elem_of_lookup_2.
Qed.

(** Appending a record with a new key. *)
Lemma keys_distinct_snoc l y : keys_distinct l -> key y ∉ key <$> l -> keys_distinct (l ++ [y]).
Proof.
  intros Hn Hy. unfold keys_distinct. rewrite fmap_app. apply NoDup_app. split_and!; [done| |].
  - intros k Hk Hk'. cbn in Hk'. apply list_elem_of_singleton in Hk' as ->. done.
  - apply NoDup_singleton.
Qed.

Lemma kmap_snoc l y : keys_distinct l -> key y ∉ key <$> l -> kmap (l ++ [y]) = <[key y := val y]> (kmap l).
Proof.
  intros Hn Hy. rewrite (kmap_perm _ (y :: l)); [done|by apply keys_distinct_snoc|]. by rewrite Permutation_app_comm.
Qed.

(** Removing a record. *)
Lemma keys_distinct_swap_remove (l : list A) (i : nat) x :
  l !! i = Some x -> keys_distinct l -> keys_distinct (swap_remove i l).
Proof.
  intros Hi Hn. apply swap_remove_perm in Hi. unfold keys_distinct in *. rewrite Hi in Hn.
  by apply NoDup_cons in Hn as [_ Hn].
Qed.

Lemma kmap_swap_remove (l : list A) (i : nat) x :
  keys_distinct l -> l !! i = Some x -> kmap (swap_remove i l) = delete (key x) (kmap l).
Proof.
  intros Hn Hi. pose proof (swap_remove_perm _ _ _ Hi) as Hp. rewrite (kmap_perm _ _ Hn Hp).
  change (kmap (x :: swap_remove i l)) with (<[key x := val x]> (kmap (swap_remove i l))).
  rewrite delete_insert_eq. symmetry. apply delete_id, kmap_lookup_None.
  unfold keys_distinct in Hn. rewrite Hp in Hn. by apply NoDup_cons in Hn as [Hx _].
Qed.

(** The search by key is the lookup. *)
Lemma index_of_key (l : list A) k :
  keys_distinct l ->
  match index_of (fun x => bool_decide (key x = k)) l with
  | Some i => exists x, l !! i = Some x /\ key x = k /\ kmap l !! k = Some (val x)
  | None => (k ∉ key <$> l) /\ kmap l !! k = None
  end.
Proof.
  intros Hn. destruct (index_of _ l) as [i|] eqn:E.
  - apply index_of_Some in E as (x & Hx & Hk%bool_decide_eq_true). exists x. split; [done|]. split; [done|].
    rewrite <- Hk. apply kmap_lookup; [done|]. by eapply list_elem_of_lookup_2.
  - assert (Hk : k ∉ key <$> l).
    { intros (x & -> & Hx)%list_elem_of_fmap. pose proof (index_of_None _ _ E x Hx) as Hf. by apply bool_decide_eq_false in Hf. }
    split; [done|]. by apply kmap_lookup_None.
Qed.

End keyed.

(** ** The last entries of a list *)

Definition last_n {A} (n : nat) (l : list A) : list A := drop (length l - n) l.

Lemma last_n_push {A} n (l : list A) y : last_n (S n) (last_n (S n) l ++ [y]) = last_n (S n) (l ++ [y]).
Proof.
  unfold last_n. rewrite !length_app, length_drop. cbn [length]. destruct (Nat.le_gt_cases (length l) n) as [H|H].
  - replace (length l - S n)%nat with O by lia. rewrite drop_0. f_equal. lia.
  - rewrite (drop_app_le (drop _ l)) by (rewrite length_drop; lia). rewrite drop_drop, (drop_app_le l) by lia. f_equal. f_equal. lia.
Qed.

Lemma last_n_length {A} n (l : list A) : length (last_n n l) = Nat.min n (length l).
Proof. unfold last_n. rewrite length_drop. lia. Qed.

Lemma last_n_room {A} n (l : list A) y : (length (last_n n l) < n)%nat -> last_n n (l ++ [y]) = last_n n l ++ [y].
Proof.
  rewrite last_n_length. intros H. unfold last_n. rewrite length_app. cbn [length].
  replace (length l + 1 - n)%nat with O by lia. replace (length l - n)%nat with O by lia. done.
Qed.

Lemma last_n_full {A} n (l : list A) x r y : last_n n l = x :: r -> length (x :: r) = n -> last_n n (l ++ [y]) = r ++ [y].
Proof.
  intros H Hn. destruct n as [|n]; [done|]. rewrite <- last_n_push, H. unfold last_n. rewrite length_app, Hn. cbn [length].
  by replace (S n + 1 - S n)%nat with 1%nat by lia.
Qed.
