(* ===== verification/Sanitizer.v ===== *)
(** * Masking secrets in log lines: utils/security/log_sanitizer.c

    The patterns a process holds, the search for a field, and the loop that
    copies a message and replaces the values of sensitive fields.  The array
    [g_patterns] is the list of its entries before [g_pattern_count]; the
    mutex is recursive and guards each change, so that an operation is one
    step.  The loops have fuel, and reading past the end of a message is
    undefined. *)
From S2P Require Import Prelude CLib.

(** ** Patterns *)

Record sensitive_field_t := Field { pattern : cstr; replacement : cstr }.

Definition DEFAULT_REPLACEMENT : cstr := cs "***".
Definition MAX_LINE_LENGTH : nat := 4096.

Definition default_patterns : list sensitive_field_t :=
  (fun p => Field p DEFAULT_REPLACEMENT) <$>
  [cs "api_key"; cs "apikey"; cs "api-key"; cs "password"; cs "passwd"; cs "secret"; cs "token";
   cs "access_token"; cs "refresh_token"; cs "auth_token"; cs "bearer"; cs "credential";
   cs "private_key"; cs "authorization"; cs "x-api-key"].

Record sanitizer := Sanitizer {
  g_patterns : option (list sensitive_field_t);
  g_pattern_capacity : nat;
  g_initialized : bool;
}.

Definition fresh_sanitizer : sanitizer := Sanitizer None 0 false.

(** The entries the loops read. *)
Definition entries (s : sanitizer) : list sensitive_field_t := default [] (g_patterns s).
Definition g_pattern_count (s : sanitizer) : nat := length (entries s).

(** [alloc] is the answer to the request for the array; a process that is not
    initialised holds no pattern. *)
Definition ensure_initialized (alloc : bool) (s : sanitizer) : sanitizer :=
  if g_initialized s then s
  else if alloc then Sanitizer (Some (entries s ++ default_patterns)) 32 true
  else Sanitizer None 32 false.

(** ** Searching *)

Fixpoint ci_match (needle haystack : cstr) : bool :=
  match needle, haystack with
  | [], _ => true
  | n :: needle', h :: haystack' => (tolower h =? tolower n) && ci_match needle' haystack'
  | _ :: _, [] => false
  end.

Fixpoint log_strcasestr (haystack needle : cstr) : option nat :=
  if (length haystack <? length needle)%nat then None
  else if ci_match needle haystack then Some 0%nat
  else match haystack with [] => None | _ :: h => S <$> log_strcasestr h needle end.

Definition prev_ok (c : Z) : bool := isspace c || (c =? 34) || (c =? 39) || (c =? 44).

(** The character after the name: the end of the message, a blank, a line
    feed, an equals sign, a colon, a quote or an ampersand. *)
Definition after_ok (a : option Z) : bool :=
  match a with None => true | Some c => existsb (Z.eqb c) [61; 58; 32; 34; 39; 10; 38] end.

(** The place of the first match at or after [pos] with fitting neighbours. *)
Fixpoint find_pattern_loop (fuel : nat) (message pat : cstr) (pos : nat) : res (option nat) :=
  match fuel with
  | O => NoFuel
  | S fuel' =>
      if (length message <? pos)%nat then Undefined
      else match log_strcasestr (drop pos message) pat with
           | None => Done None
           | Some k =>
               let pos := (pos + k)%nat in
               if (0 <? pos)%nat && negb (prev_ok (default 0 (message !! (pos - 1)%nat)))
               then find_pattern_loop fuel' message pat (S pos)
               else if negb (after_ok (message !! (pos + length pat)%nat))
               then find_pattern_loop fuel' message pat (S pos)
               else Done (Some pos)
           end
  end.

Definition find_pattern (message : cstr) (p : sensitive_field_t) : res (option nat) :=
  find_pattern_loop (length message + 2) message (pattern p) 0.

Fixpoint strchr (s : cstr) (c : Z) : option nat :=
  match s with x :: s' => if x =? c then Some 0%nat else S <$> strchr s' c | [] => None end.

Definition value_stop (c : Z) : bool := isspace c || (c =? 44) || (c =? 38) || (c =? 34).

Fixpoint bare_len (s : cstr) : nat :=
  match s with c :: s' => if value_stop c then 0 else S (bare_len s') | [] => 0 end.

(** Where a value ends: after the closing quote, or at the first separator. *)
Definition find_value_end (value_start : cstr) : option nat :=
  match value_start with
  | [] => None
  | c :: v => if (c =? 34) || (c =? 39) then (fun e => S (S e)) <$> strchr v c
              else Some (bare_len value_start)
  end.

Definition value_sep (c : Z) : bool := isspace c || (c =? 61) || (c =? 58).

Fixpoint skip_sep (s : cstr) : cstr :=
  match s with c :: s' => if value_sep c then skip_sep s' else s | [] => [] end.

(** ** The copying loop *)

(** The first pattern that [find_pattern] finds at the cursor itself. *)
Fixpoint match_at (pats : list sensitive_field_t) (pos : cstr) : res (option sensitive_field_t) :=
  match pats with
  | [] => Done None
  | p :: pats' =>
      rbind (find_pattern pos p) (fun m =>
        match m with Some O => Done (Some p) | _ => match_at pats' pos end)
  end.

(** The rest of the message after the value of the field at the cursor. *)
Definition after_value (p : sensitive_field_t) (pos : cstr) : cstr :=
  let value_start := skip_sep (drop (length (pattern p)) pos) in
  match find_value_end value_start with Some e => drop e value_start | None => [] end.

(** [cap] is [buffer_size - 1], the room before the NUL; [out] is what the
    buffer holds. *)
Fixpoint core_loop (fuel : nat) (pats : list sensitive_field_t) (cap : nat) (pos out : cstr)
    : res (Z * cstr) :=
  match pos with
  | [] => Done (s32 (Z.of_nat (length out)), out)
  | c :: pos' =>
      if (cap <=? length out)%nat then Done (s32 (Z.of_nat (length out)), out)
      else match fuel with
      | O => NoFuel
      | S fuel' =>
          rbind (match_at pats pos) (fun m =>
            match m with
            | Some p =>
                if (cap - length out <? length (pattern p) + 1 + length (replacement p) + 1)%nat
                then Done (AIRY_ERR_OVERFLOW, out)
                else core_loop fuel' pats cap (after_value p pos)
                       (out ++ take (length (pattern p)) pos ++ 61 :: replacement p)
            | None => core_loop fuel' pats cap pos' (out ++ [c])
            end)
      end
  end.

(** The code, the text in the buffer where there is one, and the sanitizer. *)
Definition sanitize_core (fuel : nat) (alloc : bool) (message : option cstr) (has_buf : bool)
    (buffer_size : nat) (s : sanitizer) : res (Z * option cstr * sanitizer) :=
  match message with
  | Some msg =>
      if negb has_buf || (buffer_size =? 0)%nat then Done (AIRY_ERR_INVALID_PARAM, None, s)
      else let s := ensure_initialized alloc s in
           rbind (core_loop fuel (entries s) (buffer_size - 1) msg [])
             (fun '(rc, out) => Done (rc, Some out, s))
  | None => Done (AIRY_ERR_INVALID_PARAM, None, s)
  end.

(** ** The interface *)

(** The array that is not granted is written all the same. *)
Definition log_sanitizer_init (alloc : bool) (max_fields : nat) (s : sanitizer) : option sanitizer :=
  let capacity := if (0 <? max_fields)%nat then max_fields else 32%nat in
  if alloc then Some (Sanitizer (Some (take capacity default_patterns)) capacity true) else None.

Definition log_sanitizer_destroy (s : sanitizer) : sanitizer := Sanitizer None 0 false.

(** [None] when the array was not granted and is written. *)
Definition log_sanitizer_add_pattern (alloc : bool) (pat repl : option cstr) (s : sanitizer)
    : option (bool * sanitizer) :=
  match pat with
  | None => Some (false, s)
  | Some pat =>
      let s := ensure_initialized alloc s in
      if (g_pattern_capacity s <=? g_pattern_count s)%nat then Some (false, s)
      else match g_patterns s with
           | None => None
           | Some l => Some (true, Sanitizer (Some (l ++ [Field pat (default DEFAULT_REPLACEMENT repl)]))
                                     (g_pattern_capacity s) (g_initialized s))
           end
  end.

Definition log_sanitize (fuel : nat) (alloc : bool) (message : option cstr) (has_buf : bool)
    (buffer_size : nat) (s : sanitizer) : res (Z * option cstr * sanitizer) :=
  sanitize_core fuel alloc message has_buf buffer_size s.

(** [grant] is the answer to the request for the buffer. *)
Definition log_sanitize_dup (fuel : nat) (grant alloc : bool) (message : option cstr) (s : sanitizer)
    : res (option cstr * sanitizer) :=
  match message with
  | None => Done (None, s)
  | Some msg =>
      if negb grant then Done (None, s)
      else rbind (sanitize_core fuel alloc message true (Nat.max (length msg + 1) MAX_LINE_LENGTH) s)
             (fun '(rc, out, s) => Done (if rc <? 0 then None else out, s))
  end.

Fixpoint contains_loop (pats : list sensitive_field_t) (message : cstr) : res bool :=
  match pats with
  | [] => Done false
  | p :: pats' =>
      rbind (find_pattern message p) (fun m =>
        match m with Some _ => Done true | None => contains_loop pats' message end)
  end.

Definition log_contains_sensitive (alloc : bool) (message : option cstr) (s : sanitizer)
    : res (bool * sanitizer) :=
  match message with
  | None => Done (false, s)
  | Some msg =>
      let s := ensure_initialized alloc s in
      rbind (contains_loop (entries s) msg) (fun b => Done (b, s))
  end.

Definition log_get_default_patterns : list sensitive_field_t * nat :=
  (default_patterns, length default_patterns).

(** ** What is masked *)

(** A sensitive field starts at the head of [s]. *)
Definition field_at (s : cstr) (p : sensitive_field_t) : bool :=
  ci_match (pattern p) s && after_ok (s !! length (pattern p)).

(** A line as text and fields: a field has the pattern it is found by, its
    name, the separators after it, and its value. *)
Inductive seg :=
  | Text (t : cstr)
  | Secret (p : sensitive_field_t) (key sep val : cstr).

Definition seg_text (g : seg) : cstr :=
  match g with Text t => t | Secret _ key sep val => key ++ sep ++ val end.
Definition line_text (l : list seg) : cstr := concat (seg_text <$> l).

Definition seg_masked (g : seg) : cstr :=
  match g with Text t => t | Secret p key _ _ => key ++ 61 :: replacement p end.
Definition line_masked (l : list seg) : cstr := concat (seg_masked <$> l).

(** A value in quotes, or without quotes up to a separator or the end. *)
Definition val_ok (val rest : cstr) : bool :=
  match val with
  | [] => false
  | q :: v =>
      if (q =? 34) || (q =? 39) then bool_decide (strchr v q = Some (length v - 1)%nat)
      else negb (value_sep q) && forallb (fun c => negb (value_stop c)) val &&
           match rest with [] => true | c :: _ => value_stop c end
  end.

Definition quiet (pats : list sensitive_field_t) (t rest : cstr) : bool :=
  forallb (fun i => negb (existsb (field_at (drop i t ++ rest)) pats)) (seq 0 (length t)).

Definition pattern_eqb (p q : sensitive_field_t) : bool :=
  bool_decide (pattern p = pattern q) && bool_decide (replacement p = replacement q).

(** No field starts inside a text, and each field is found by its pattern. *)
Fixpoint wf_line (pats : list sensitive_field_t) (l : list seg) : bool :=
  match l with
  | [] => true
  | Text t :: l' => quiet pats t (line_text l') && wf_line pats l'
  | Secret p key sep val :: l' =>
      match List.find (field_at (key ++ sep ++ val ++ line_text l')) pats with
      | Some q => pattern_eqb p q
      | None => false
      end && (length key =? length (pattern p))%nat && forallb value_sep sep &&
      val_ok val (line_text l') && wf_line pats l'
  end.

Definition usable (pats : list sensitive_field_t) : Prop := Forall (fun p => pattern p <> []) pats.

(** ** Searching *)

Lemma strcasestr_bound h n k : log_strcasestr h n = Some k -> (k + length n <= length h)%nat.
Proof.
  revert k. induction h as [|c h IH]; intros k; cbn [log_strcasestr].
  - destruct (Nat.ltb_spec (length (@nil Z)) (length n)); [done|]. case_match; [|done]. intros [= <-]. simpl in *. lia.
  - destruct (Nat.ltb_spec (length (c :: h)) (length n)); [done|]. case_match; [intros [= <-]; simpl in *; lia|].
    destruct (log_strcasestr h n) as [j|]; [|done]. intros [= <-]. specialize (IH _ eq_refl). simpl. lia.
Qed.

Lemma ci_match_length n h : ci_match n h = true -> (length n <= length h)%nat.
Proof.
  revert h. induction n as [|c n IH]; intros [|d h]; simpl; try (done || lia).
  intros [_ H]%andb_true_iff. apply IH in H. lia.
Qed.

(** It finds the head exactly when the needle is there. *)
Lemma strcasestr_zero h n : log_strcasestr h n = Some 0%nat <-> ci_match n h = true.
Proof.
  destruct h as [|c h]; cbn [log_strcasestr].
  - destruct (Nat.ltb_spec (length (@nil Z)) (length n)) as [Hl|Hl].
    + split; [done|]. intros H%ci_match_length. simpl in *. lia.
    + by case_match.
  - destruct (Nat.ltb_spec (length (c :: h)) (length n)) as [Hl|Hl].
    + split; [done|]. intros H%ci_match_length. lia.
    + case_match; [done|]. split; [|done]. by destruct (log_strcasestr h n).
Qed.

(** Beyond the start of the message the search never comes back to it. *)
Lemma find_loop_later fuel msg pat pos :
  pat <> [] -> (pos <= length msg)%nat -> (length msg - pos < fuel)%nat ->
  exists r, find_pattern_loop fuel msg pat pos = Done r /\ (forall k, r = Some k -> (pos <= k)%nat).
Proof.
  intros Hp. revert pos. induction fuel as [|fuel IH]; intros pos Hpos Hf; [lia|]. cbn [find_pattern_loop].
  destruct (Nat.ltb_spec (length msg) pos); [lia|].
  destruct (log_strcasestr (drop pos msg) pat) as [k|] eqn:E; [|by exists None].
  apply strcasestr_bound in E. rewrite length_drop in E.
  assert (0 < length pat)%nat by (destruct pat; [done|simpl; lia]).
  destruct (IH (S (pos + k))) as (r & Hr & Hk); [lia|lia|].
  assert (Hr' : forall j, r = Some j -> (pos <= j)%nat) by (intros j Hj; specialize (Hk j Hj); lia).
  cbv zeta. case_match; [by exists r|]. case_match; [by exists r|].
  exists (Some (pos + k)%nat). split; [done|]. intros ? [= <-]. lia.
Qed.

Lemma find_pattern_zero msg p :
  pattern p <> [] ->
  exists r, find_pattern msg p = Done r /\ (r = Some 0%nat <-> field_at msg p = true).
Proof.
  intros Hp. unfold find_pattern. replace (length msg + 2)%nat with (S (S (length msg))) by lia.
  remember (S (length msg)) as f eqn:Hf. cbn [find_pattern_loop].
  destruct (Nat.ltb_spec (length msg) 0); [lia|]. rewrite drop_0. unfold field_at.
  pose proof (strcasestr_zero msg (pattern p)) as Hz.
  destruct (log_strcasestr msg (pattern p)) as [k|] eqn:E.
  2:{ exists None. split; [done|]. split; [done|]. intros [Hm _]%andb_true_iff. by apply Hz in Hm. }
  apply strcasestr_bound in E. assert (0 < length (pattern p))%nat by (destruct (pattern p); [done|simpl; lia]).
  destruct (find_loop_later f msg (pattern p) (S k)) as (r & Hr & Hk); [done|lia|lia|].
  assert (Hne : r <> Some 0%nat) by (intros ->; specialize (Hk _ eq_refl); lia).
  cbv zeta. destruct k as [|k].
  - rewrite (proj1 Hz eq_refl). cbn [andb Nat.ltb Nat.leb Nat.add].
    destruct (after_ok (msg !! length (pattern p))) eqn:Ea; cbn [negb]; [by exists (Some 0%nat)|].
    rewrite Hr. exists r. split; [done|]. split; [by intros ->|done].
  - assert (Hno : ci_match (pattern p) msg = false) by (destruct (ci_match (pattern p) msg); [discriminate (proj2 Hz eq_refl)|done]).
    rewrite Hno. cbn [andb].
    repeat case_match; [exists r|exists r|eexists]; (split; [done|]); split; congruence || done.
Qed.

(** The field the loop acts on is the first pattern that starts at the cursor. *)
Lemma match_at_spec pats pos :
  usable pats -> match_at pats pos = Done (List.find (field_at pos) pats).
Proof.
  induction 1 as [|p pats Hp _ IH]; [done|]. cbn [match_at List.find].
  destruct (find_pattern_zero pos p Hp) as (r & -> & Hr). cbn [rbind].
  destruct (field_at pos p).
  - by rewrite (proj2 Hr eq_refl).
  - rewrite IH. destruct r as [[|k]|]; [discriminate (proj1 Hr eq_refl)|done|done].
Qed.

(** ** The copying loop *)

Lemma skip_sep_length s : (length (skip_sep s) <= length s)%nat.
Proof. induction s as [|c s IH]; simpl; [done|]. case_match; simpl; lia. Qed.

Lemma after_value_shorter p pos :
  pattern p <> [] -> pos <> [] -> (length (after_value p pos) < length pos)%nat.
Proof.
  intros Hp Hpos. unfold after_value. pose proof (skip_sep_length (drop (length (pattern p)) pos)) as H.
  rewrite length_drop in H.
  assert (0 < length (pattern p))%nat by (destruct (pattern p); [done|simpl; lia]).
  assert (0 < length pos)%nat by (destruct pos; [done|simpl; lia]).
  case_match; [rewrite length_drop|simpl]; lia.
Qed.

(** The loop ends within a round per byte, inside the buffer, and what it has
    written stays. *)
Lemma core_loop_total pats cap fuel pos out :
  usable pats -> (length pos <= fuel)%nat -> (length out <= cap)%nat ->
  exists rc new, core_loop fuel pats cap pos out = Done (rc, out ++ new) /\
    (length (out ++ new) <= cap)%nat /\
    (rc = s32 (Z.of_nat (length (out ++ new))) \/ rc = AIRY_ERR_OVERFLOW).
Proof.
  intros Hp. revert pos out. induction fuel as [|fuel IH]; intros pos out Hf Ho.
  - destruct pos; [|simpl in Hf; lia]. eexists _, []. rewrite app_nil_r. by eauto.
  - destruct pos as [|c pos]; cbn [core_loop]; [eexists _, []; rewrite app_nil_r; by eauto|].
    destruct (Nat.leb_spec cap (length out)); [eexists _, []; rewrite app_nil_r; by eauto|].
    rewrite match_at_spec by done. cbn [rbind].
    destruct (List.find (field_at (c :: pos)) pats) as [p|] eqn:E.
    + destruct (Nat.ltb_spec (cap - length out) (length (pattern p) + 1 + length (replacement p) + 1)).
      { eexists _, []. rewrite app_nil_r. by eauto. }
      apply find_some in E as [Hin _]. apply list_elem_of_In in Hin.
      assert (Hne : pattern p <> []) by (apply (proj1 (Forall_forall _ _) Hp), Hin).
      pose proof (after_value_shorter p (c :: pos) Hne) as Hs. simpl length in Hs, Hf.
      destruct (IH (after_value p (c :: pos)) (out ++ take (length (pattern p)) (c :: pos) ++ 61 :: replacement p))
        as (rc & new & Hr & Hl & Hrc); [specialize (Hs ltac:(done)); lia| |].
      { rewrite !length_app, length_take. simpl. lia. }
      set (m := take (length (pattern p)) (c :: pos) ++ 61 :: replacement p) in *.
      exists rc, (m ++ new). rewrite (app_assoc out m new). by eauto.
    + destruct (IH pos (out ++ [c])) as (rc & new & Hr & Hl & Hrc); [simpl in Hf; lia|rewrite length_app; simpl; lia|].
      exists rc, ([c] ++ new). rewrite (app_assoc out [c] new). by eauto.
Qed.

Lemma quiet_cons pats c t rest :
  quiet pats (c :: t) rest = true ->
  List.find (field_at (c :: t ++ rest)) pats = None /\ quiet pats t rest = true.
Proof.
  unfold quiet. cbn [length seq forallb]. rewrite drop_0, <- seq_shift, andb_true_iff. intros [H1 H2]. split.
  - apply negb_true_iff in H1. cbn [app] in H1. destruct (List.find _ pats) as [p|] eqn:E; [|done].
    apply find_some in E as [Hin Hf].
    assert (existsb (field_at (c :: t ++ rest)) pats = true) by (apply existsb_exists; eauto). congruence.
  - rewrite forallb_forall in H2 |- *. intros i Hi. apply (H2 (S i)). apply in_map_iff. eauto.
Qed.

(** Text in which no field starts is copied. *)
Lemma core_loop_text pats cap t rest fuel out :
  usable pats -> quiet pats t rest = true -> (length out + length t <= cap)%nat ->
  core_loop (length t + fuel) pats cap (t ++ rest) out = core_loop fuel pats cap rest (out ++ t).
Proof.
  intros Hp. revert out. induction t as [|c t IH]; intros out Hq Hl; [by rewrite app_nil_r|].
  apply quiet_cons in Hq as [Hn Hq]. simpl length in Hl. cbn [app length Nat.add core_loop].
  destruct (Nat.leb_spec cap (length out)); [lia|]. rewrite match_at_spec, Hn by done. cbn [rbind].
  rewrite IH by (done || (rewrite length_app; simpl; lia)). by rewrite <- app_assoc.
Qed.

Lemma skip_sep_app sep v :
  forallb value_sep sep = true -> match v with [] => True | c :: _ => value_sep c = false end ->
  skip_sep (sep ++ v) = v.
Proof.
  intros Hs Hv. induction sep as [|c sep IH]; simpl in *.
  - destruct v as [|c v]; [done|]. simpl. by rewrite Hv.
  - apply andb_true_iff in Hs as [-> Hs]. auto.
Qed.

Lemma strchr_app s t c k : strchr s c = Some k -> strchr (s ++ t) c = Some k.
Proof.
  revert k. induction s as [|x s IH]; intros k; simpl; [done|]. case_match; [done|].
  destruct (strchr s c) as [j|]; [|done]. intros [= <-]. by rewrite (IH j).
Qed.

Lemma bare_len_app v rest :
  forallb (fun c => negb (value_stop c)) v = true ->
  match rest with [] => true | c :: _ => value_stop c end = true -> bare_len (v ++ rest) = length v.
Proof.
  intros Hv Hr. induction v as [|c v IH]; simpl in *.
  - destruct rest as [|c r]; [done|]. simpl. by rewrite Hr.
  - apply andb_true_iff in Hv as [H Hv]. apply negb_true_iff in H. rewrite H. auto.
Qed.

(** The separators and the value of a field are passed over. *)
Lemma after_value_field p key sep val rest :
  length key = length (pattern p) -> forallb value_sep sep = true -> val_ok val rest = true ->
  after_value p (key ++ sep ++ val ++ rest) = rest.
Proof.
  intros Hk Hs Hv. unfold after_value. rewrite <- Hk, drop_app_length. unfold val_ok in Hv.
  destruct val as [|q v]; [done|]. rewrite skip_sep_app; [|done|].
  2:{ cbn [app]. destruct ((q =? 34) || (q =? 39)) eqn:E; [|by apply andb_true_iff in Hv as [[?%negb_true_iff _]%andb_true_iff _]].
      unfold value_sep, isspace. bool_prop; simpl in *; lia || done. }
  cbn [app find_value_end]. destruct ((q =? 34) || (q =? 39)).
  - apply bool_decide_eq_true in Hv. rewrite (strchr_app _ _ _ _ Hv). cbn [fmap option_fmap option_map].
    destruct v as [|x v]; [done|]. simpl length. replace (S (S (S (length v) - 1))) with (length (q :: x :: v)) by (simpl; lia).
    apply (drop_app_length (q :: x :: v)).
  - apply andb_true_iff in Hv as [[_ Hv]%andb_true_iff Hr].
    change (q :: v ++ rest) with ((q :: v) ++ rest). rewrite (bare_len_app (q :: v) rest Hv Hr). apply (drop_app_length (q :: v)).
Qed.

Lemma pattern_eqb_eq p q : pattern_eqb p q = true -> p = q.
Proof.
  destruct p, q. unfold pattern_eqb. simpl. rewrite andb_true_iff, !bool_decide_eq_true. by intros [-> ->].
Qed.

Lemma core_loop_field pats cap p key sep val rest fuel out :
  usable pats -> List.find (field_at (key ++ sep ++ val ++ rest)) pats = Some p ->
  length key = length (pattern p) -> forallb value_sep sep = true -> val_ok val rest = true ->
  (length out + length (key ++ 61%Z :: replacement p) < cap)%nat ->
  core_loop (S fuel) pats cap (key ++ sep ++ val ++ rest) out =
  core_loop fuel pats cap rest (out ++ key ++ 61 :: replacement p).
Proof.
  intros Hp Hf Hk Hs Hv Hl. rewrite length_app in Hl. simpl in Hl.
  assert (Hne : pattern p <> []).
  { apply find_some in Hf as [Hin%list_elem_of_In _]. apply (proj1 (Forall_forall _ _) Hp), Hin. }
  assert (Htake : take (length (pattern p)) (key ++ sep ++ val ++ rest) = key) by (by rewrite <- Hk, take_app_length).
  pose proof (after_value_field p key sep val rest Hk Hs Hv) as Ha.
  remember (key ++ sep ++ val ++ rest) as text eqn:Htext. destruct text as [|c text].
  { destruct key; [by destruct (pattern p)|done]. }
  cbn [core_loop]. destruct (Nat.leb_spec cap (length out)); [lia|].
  rewrite match_at_spec, Hf by done. cbn [rbind].
  match goal with |- context [(?a <? ?b)%nat] => destruct (Nat.ltb_spec a b) end; [lia|].
  by rewrite Htake, Ha.
Qed.

Lemma core_loop_line pats cap l : usable pats -> forall fuel out,
  wf_line pats l = true -> (length (line_text l) <= fuel)%nat ->
  (length out + length (line_masked l) < cap)%nat ->
  core_loop fuel pats cap (line_text l) out =
  Done (s32 (Z.of_nat (length (out ++ line_masked l))), out ++ line_masked l).
Proof.
  intros Hp. induction l as [|g l IH]; intros fuel out Hw Hf Hl.
  { unfold line_masked. simpl. rewrite app_nil_r. by destruct fuel. }
  change (line_text (g :: l)) with (seg_text g ++ line_text l) in *.
  change (line_masked (g :: l)) with (seg_masked g ++ line_masked l) in *.
  rewrite length_app in Hf, Hl. rewrite (app_assoc out).
  destruct g as [t|p key sep val]; cbn [seg_text seg_masked wf_line] in *.
  - apply andb_true_iff in Hw as [Hq Hw].
    replace fuel with (length t + (fuel - length t))%nat by lia.
    rewrite core_loop_text by (done || lia). apply IH; [done|lia|rewrite length_app; lia].
  - destruct (List.find _ pats) as [q|] eqn:E; [|done]. rewrite !andb_true_iff in Hw.
    destruct Hw as ((((<-%pattern_eqb_eq & Hk%Nat.eqb_eq) & Hs) & Hv) & Hw).
    assert (0 < length val)%nat by (destruct val; [done|simpl; lia]).
    rewrite !length_app in Hf. destruct fuel as [|fuel]; [lia|].
    rewrite <- (app_assoc key), <- (app_assoc sep). rewrite (core_loop_field _ _ p) by (done || lia).
    apply IH; [done|lia|rewrite length_app; lia].
Qed.

(** ** Theorems *)

Lemma default_usable : usable default_patterns.
Proof. repeat constructor; done. Qed.

(** Adding patterns that are not empty keeps every pattern usable. *)
Lemma add_pattern_usable alloc pat repl s b s' :
  usable (entries s) -> pat <> Some [] ->
  log_sanitizer_add_pattern alloc pat repl s = Some (b, s') -> usable (entries s').
Proof.
  intros Hu Hne. destruct pat as [pat|]; cbn [log_sanitizer_add_pattern]; [|by intros [= <- <-]].
  assert (Hu' : usable (entries (ensure_initialized alloc s))).
  { unfold ensure_initialized. destruct (g_initialized s); [done|]. destruct alloc; [|by constructor].
    apply Forall_app; split; [done|exact default_usable]. }
  case_match; [by intros [= <- <-]|].
  destruct (g_patterns _) as [l|] eqn:E; [|done]. intros [= <- <-].
  unfold entries in Hu' |- *. rewrite E in Hu'. simpl in *. apply Forall_app. split; [done|].
  constructor; [|done]. simpl. congruence.
Qed.

(** Masking any message with patterns that are not empty ends within one
    round per byte, stays inside the buffer with room for the NUL, and returns
    the length of the text or the overflow code. *)
Theorem log_sanitize_total fuel alloc msg size s :
  usable (entries (ensure_initialized alloc s)) -> (length msg <= fuel)%nat ->
  (0 < size)%nat -> Z.of_nat size <= 2 ^ 31 ->
  exists rc out, log_sanitize fuel alloc (Some msg) true size s = Done (rc, Some out, ensure_initialized alloc s) /\
    (length out < size)%nat /\ (rc = Z.of_nat (length out) \/ rc = AIRY_ERR_OVERFLOW).
Proof.
  intros Hu Hf H0 Hm. unfold log_sanitize, sanitize_core.
  replace (size =? 0)%nat with false by (symmetry; apply Nat.eqb_neq; lia). cbn [negb orb].
  destruct (core_loop_total _ (size - 1) fuel msg [] Hu Hf) as (rc & out & -> & Hl & Hrc); [simpl; lia|].
  cbn [rbind app] in *. exists rc, out. split; [done|]. split; [lia|].
  destruct Hrc as [->|]; [left|by right]. apply s32_small. lia.
Qed.

(** ** Lines of assignments *)








Definition fld (name : cstr) : sensitive_field_t := Field name DEFAULT_REPLACEMENT.



Lemma log_sanitize_total_witness :
  exists rc out, log_sanitize 8 true (Some (cs "token&&&")) true 3 fresh_sanitizer =
    Done (rc, Some out, ensure_initialized true fresh_sanitizer) /\
    (length out < 3)%nat /\ (rc = Z.of_nat (length out) \/ rc = AIRY_ERR_OVERFLOW).
Proof. apply (log_sanitize_total 8 true (cs "token&&&") 3 fresh_sanitizer); [exact default_usable|simpl; lia..]. Defined.

(** ** Secrets that stay *)

(** No pattern starts with the character. *)
Definition dull (pats : list sensitive_field_t) (c : Z) : bool :=
  forallb (fun p => match pattern p with x :: _ => negb (tolower c =? tolower x) | [] => false end) pats.

Lemma quiet_dull pats t rest : forallb (dull pats) t = true -> quiet pats t rest = true.
Proof.
  intros H. apply forallb_forall. intros i Hi%in_seq. apply negb_true_iff, not_true_iff_false.
  intros (p & Hp & Hf)%existsb_exists. destruct (lookup_lt_is_Some_2 t i) as [c Hc]; [lia|].
  rewrite (drop_S _ _ _ Hc) in Hf. rewrite forallb_forall in H.
  pose proof (H c (proj1 (list_elem_of_In _ _) (list_elem_of_lookup_2 _ _ _ Hc))) as Hd.
  unfold dull in Hd. rewrite forallb_forall in Hd. specialize (Hd p Hp).
  unfold field_at in Hf. destruct (pattern p) as [|x pat]; [done|]. cbn [app ci_match] in Hf.
  apply negb_true_iff in Hd. by rewrite Hd in Hf.
Qed.

Lemma digits_dull v : forallb isdigit v = true -> forallb (dull default_patterns) v = true.
Proof.
  rewrite !forallb_forall. intros H c Hc. specialize (H c Hc).
  assert (Hb : is_byte c) by (unfold isdigit in H; unfold is_byte; bool_prop; simpl in H; lia || done).
  pose proof (byte_forall (fun c => negb (isdigit c) || dull default_patterns c) ltac:(vm_compute; reflexivity) c Hb) as Hd.
  cbv beta in Hd. by rewrite H in Hd.
Qed.

(** The fields of a JSON text: the closing quote of the name and the opening
    quote of the value are taken for the quotes of the value. *)
Definition json_line (v : cstr) : list seg :=
  [Text [34]; Secret (fld (cs "password")) (cs "password") [] [34; 58; 32; 34]; Text (v ++ [34])].

Definition bearer_line (v : cstr) : list seg :=
  [Secret (fld (cs "authorization")) (cs "Authorization") (cs ": ") (cs "Bearer"); Text (32 :: v)].

Lemma secret_stays l size :
  wf_line default_patterns l = true -> (length (line_masked l) + 2 <= size)%nat -> Z.of_nat size <= 2 ^ 31 ->
  log_sanitize (length (line_text l)) true (Some (line_text l)) true size fresh_sanitizer =
  Done (Z.of_nat (length (line_masked l)), Some (line_masked l), ensure_initialized true fresh_sanitizer).
Proof.
  intros Hw Hs Hm. unfold log_sanitize, sanitize_core.
  replace (size =? 0)%nat with false by (symmetry; apply Nat.eqb_neq; lia). cbn [negb orb].
  change (entries (ensure_initialized true fresh_sanitizer)) with default_patterns.
  rewrite (core_loop_line _ (size - 1) l default_usable _ []) by (done || (simpl; lia)). cbn [rbind app].
  by rewrite s32_small by lia.
Qed.

(** A password of digits in a JSON text, and a token of digits after
    "Authorization: Bearer", are written to the log in full, although both
    names are among the sensitive ones. *)
Theorem log_sanitize_leaks v :
  forallb isdigit v = true -> Z.of_nat (length v) < 2 ^ 30 ->
  (exists rc s', log_sanitize (length (line_text (json_line v))) true
     (Some (34 :: cs "password" ++ [34; 58; 32; 34] ++ v ++ [34])) true (length v + 40) fresh_sanitizer =
     Done (rc, Some (34 :: cs "password=***" ++ v ++ [34]), s')) /\
  (exists rc s', log_sanitize (length (line_text (bearer_line v))) true
     (Some (cs "Authorization: Bearer " ++ v)) true (length v + 40) fresh_sanitizer =
     Done (rc, Some (cs "Authorization=*** " ++ v), s')).
Proof.
  intros Hv Hl. pose proof (digits_dull v Hv) as Hd. split.
  - pose proof (secret_stays (json_line v) (length v + 40)) as H.
    replace (line_text (json_line v)) with (34 :: cs "password" ++ [34; 58; 32; 34] ++ v ++ [34]) in H |- *
      by (unfold line_text; cbn; by rewrite app_nil_r).
    replace (line_masked (json_line v)) with (34 :: cs "password=***" ++ v ++ [34]) in H
      by (unfold line_masked; cbn; by rewrite app_nil_r).
    do 2 eexists. apply H; [|cbn; rewrite !length_app; simpl; lia|lia].
    cbn [json_line wf_line]. rewrite (quiet_dull _ [34]) by (vm_compute; reflexivity).
    rewrite (quiet_dull _ (v ++ [34])) by (by rewrite forallb_app, Hd). reflexivity.
  - pose proof (secret_stays (bearer_line v) (length v + 40)) as H.
    replace (line_text (bearer_line v)) with (cs "Authorization: Bearer " ++ v) in H |- *
      by (unfold line_text; cbn; by rewrite app_nil_r).
    replace (line_masked (bearer_line v)) with (cs "Authorization=*** " ++ v) in H
      by (unfold line_masked; cbn; by rewrite app_nil_r).
    do 2 eexists. apply H; [|cbn; simpl; lia|lia].
    cbn [bearer_line wf_line]. rewrite (quiet_dull _ (32 :: v)) by (cbn [forallb]; by rewrite Hd). reflexivity.
Qed.

Lemma log_sanitize_leaks_witness :
  exists rc s', log_sanitize (length (line_text (json_line (cs "1234")))) true
    (Some (34 :: cs "password" ++ [34; 58; 32; 34] ++ cs "1234" ++ [34])) true 44 fresh_sanitizer =
    Done (rc, Some (34 :: cs "password=***" ++ cs "1234" ++ [34]), s').
Proof. apply (log_sanitize_leaks (cs "1234")); [reflexivity|simpl; lia]. Defined.

(** The search of [log_contains_sensitive] wants a separator before a name;
    the masking, which searches from the cursor, does not. *)
Example contains_disagrees :
  log_contains_sensitive true (Some (cs "mytoken=7")) fresh_sanitizer =
    Done (false, ensure_initialized true fresh_sanitizer) /\
  log_sanitize 9 true (Some (cs "mytoken=7")) true 100 fresh_sanitizer =
    Done (11, Some (cs "mytoken=***"), ensure_initialized true fresh_sanitizer).
Proof. split; vm_compute; reflexivity. Qed.

(** An empty pattern is accepted, and makes the search run past a message. *)
Example empty_pattern_overruns :
  exists s, log_sanitizer_add_pattern true (Some []) None fresh_sanitizer = Some (true, s) /\
  log_sanitize 9 true (Some (cs "x")) true 100 s = Undefined.
Proof. exists (Sanitizer (Some (default_patterns ++ [fld []])) 32 true). split; vm_compute; reflexivity. Qed.

(** With fewer fields than defaults the last defaults are dropped, and without
    memory for the array the message is copied as it is. *)
Example few_fields_unmasked :
  (s ← log_sanitizer_init true 3 fresh_sanitizer;
   match log_sanitize 20 true (Some (cs "token=7")) true 100 s with Done (_, out, _) => out | _ => None end) =
    Some (cs "token=7") /\
  match log_sanitize 20 false (Some (cs "token=7")) true 100 fresh_sanitizer with Done (_, out, _) => out | _ => None end =
    Some (cs "token=7").
Proof. split; vm_compute; reflexivity. Qed.
