(* ===== verification/Sd.v ===== *)
(** * Service discovery: utils/sd

    The registry of services and their instances, the operations of the
    interface, the backend interface with the in-memory backend, expiry, the
    queries and the checks of dependencies.  Load balancing is in [SdBalance].

    An array with its count is the list of the entries before the count; an
    entry is written in full before its count grows, so the rest is never read.
    A fixed character array holds a string shorter than itself.  Each operation
    takes the mutex once and is one step; callbacks run outside it (or inside,
    for expiry) and are recorded in [trace].  [clk k] is the answer of the
    clock to the operation's question number [k]. *)
From S2P Require Import Prelude CLib Keyed.

Definition SD_MAX_SERVICES : nat := 128.
Definition SD_MAX_NAME_LEN : nat := 64.
Definition SD_MAX_TYPE_LEN : nat := 32.
Definition SD_MAX_TAGS_LEN : nat := 256.
Definition SD_MAX_DEPS_LEN : nat := 512.
Definition SD_MAX_INSTANCES : nat := 8.
Definition SD_MAX_CALLBACKS : nat := 8.
Definition SD_DEFAULT_HEARTBEAT_MS : Z := 10000.
Definition SD_DEFAULT_EXPIRE_MS : Z := 30000.
Definition SD_SHM_DEFAULT_SIZE : Z := 1024 * 1024.
Definition AIRY_ERR_SVC_DEPENDENCY : Z := -305.

(** ** Data *)

Record sd_instance_t := Inst {
  instance_id : cstr;
  endpoint : cstr;
  state : Z;
  healthy : bool;
  weight : Z;
  active_connections : Z;
  max_connections : Z;
  last_heartbeat : Z;
  register_time : Z;
  pid : Z;
}.

#[export] Instance sd_instance_eq_dec : EqDecision sd_instance_t.
Proof. solve_decision. Defined.

Record sd_service_entry_t := Entry {
  name : cstr;
  version : cstr;
  service_type : cstr;
  tags : cstr;
  dependencies : cstr;
  capabilities : Z;
  instances : list sd_instance_t;
  active : bool;
  last_updated : Z;
}.

Inductive sd_lb_strategy_t :=
  SD_LB_ROUND_ROBIN | SD_LB_WEIGHTED | SD_LB_LEAST_CONNECTION | SD_LB_RANDOM | SD_LB_LEAST_LOAD.

Record sd_config_t := Config {
  heartbeat_interval_ms : Z;
  expire_timeout_ms : Z;
  default_lb_strategy : sd_lb_strategy_t;
  enable_auto_expire : bool;
  enable_health_propagation : bool;
  shm_name : cstr;
  shm_size : Z;
}.

Record sd_stats_t := Stats {
  registrations : Z;
  deregistrations : Z;
  discoveries : Z;
  heartbeats : Z;
  expirations : Z;
  lb_selections : Z;
  active_services : Z;
  active_instances : Z;
}.

Inductive sd_event_type_t :=
  | SD_EVENT_REGISTERED | SD_EVENT_DEREGISTERED | SD_EVENT_HEALTH_CHANGE
  | SD_EVENT_EXPIRED | SD_EVENT_INSTANCE_UP | SD_EVENT_INSTANCE_DOWN.

(** A call of a callback: the callback and its data, and its arguments. *)
Record sd_call := Call {
  called : Z * Z;
  event : sd_event_type_t;
  event_service : cstr;
  event_instance : sd_instance_t;
}.

Record sd_internal_t := SD {
  config : sd_config_t;
  services : list sd_service_entry_t;
  callbacks : list (Z * Z);
  stats : sd_stats_t;
  running : bool;
  rr_counter : Z;
  trace : list sd_call;
}.

Definition set_services (v : list sd_service_entry_t) (sd : sd_internal_t) : sd_internal_t :=
  SD (config sd) v (callbacks sd) (stats sd) (running sd) (rr_counter sd) (trace sd).
Definition set_callbacks (v : list (Z * Z)) (sd : sd_internal_t) : sd_internal_t :=
  SD (config sd) (services sd) v (stats sd) (running sd) (rr_counter sd) (trace sd).
Definition upd_stats (f : sd_stats_t -> sd_stats_t) (sd : sd_internal_t) : sd_internal_t :=
  SD (config sd) (services sd) (callbacks sd) (f (stats sd)) (running sd) (rr_counter sd) (trace sd).
Definition set_running (v : bool) (sd : sd_internal_t) : sd_internal_t :=
  SD (config sd) (services sd) (callbacks sd) (stats sd) v (rr_counter sd) (trace sd).
Definition set_rr (v : Z) (sd : sd_internal_t) : sd_internal_t :=
  SD (config sd) (services sd) (callbacks sd) (stats sd) (running sd) v (trace sd).
Definition add_trace (v : list sd_call) (sd : sd_internal_t) : sd_internal_t :=
  SD (config sd) (services sd) (callbacks sd) (stats sd) (running sd) (rr_counter sd) (trace sd ++ v).

Definition set_instances (v : list sd_instance_t) (e : sd_service_entry_t) : sd_service_entry_t :=
  Entry (name e) (version e) (service_type e) (tags e) (dependencies e) (capabilities e) v (active e)
    (last_updated e).
Definition set_last_updated (v : Z) (e : sd_service_entry_t) : sd_service_entry_t :=
  Entry (name e) (version e) (service_type e) (tags e) (dependencies e) (capabilities e) (instances e)
    (active e) v.
Definition set_heartbeat (v : Z) (i : sd_instance_t) : sd_instance_t :=
  Inst (instance_id i) (endpoint i) (state i) (healthy i) (weight i) (active_connections i)
    (max_connections i) v (register_time i) (pid i).
Definition set_register_time (v : Z) (i : sd_instance_t) : sd_instance_t :=
  Inst (instance_id i) (endpoint i) (state i) (healthy i) (weight i) (active_connections i)
    (max_connections i) (last_heartbeat i) v (pid i).
Definition set_pid (v : Z) (i : sd_instance_t) : sd_instance_t :=
  Inst (instance_id i) (endpoint i) (state i) (healthy i) (weight i) (active_connections i)
    (max_connections i) (last_heartbeat i) (register_time i) v.
Definition set_healthy (v : bool) (i : sd_instance_t) : sd_instance_t :=
  Inst (instance_id i) (endpoint i) (state i) v (weight i) (active_connections i)
    (max_connections i) (last_heartbeat i) (register_time i) (pid i).
Definition set_active_connections (v : Z) (i : sd_instance_t) : sd_instance_t :=
  Inst (instance_id i) (endpoint i) (state i) (healthy i) (weight i) v
    (max_connections i) (last_heartbeat i) (register_time i) (pid i).

Definition instance_count (e : sd_service_entry_t) : nat := length (instances e).
Definition service_count (sd : sd_internal_t) : nat := length (services sd).

Definition zero_instance : sd_instance_t := Inst [] [] 0 false 0 0 0 0 0 0.
Definition zero_stats : sd_stats_t := Stats 0 0 0 0 0 0 0 0.

(** What [safe_strcpy] leaves in an array of [size] bytes. *)
Definition strcpy_cut (size : nat) (s : cstr) : cstr := take (size - 1) s.

(** ** Searching *)

Definition find_service_index (sd : sd_internal_t) (n : cstr) : option nat :=
  index_of (fun e => bool_decide (name e = n)) (services sd).

Definition find_instance_index (e : sd_service_entry_t) (id : cstr) : option nat :=
  index_of (fun i => bool_decide (instance_id i = id)) (instances e).

Definition notify_event (ev : sd_event_type_t) (service : cstr) (i : sd_instance_t) (sd : sd_internal_t)
    : sd_internal_t :=
  add_trace ((fun c => Call c ev service i) <$> callbacks sd) sd.

(** ** Expiry *)

Section clock.
Context (clk : nat -> Z).

(** The answer, and the number of the next question to the clock. *)
Definition is_instance_expired (i : sd_instance_t) (expire_ms : Z) (k : nat) : bool * nat :=
  if expire_ms =? 0 then (false, k) else (expire_ms <? u64 (clk k - last_heartbeat i), S k).

(** The loop over the instances of a service: those that stay, those that
    expired in the order of their removal, and the next question. *)
Fixpoint expire_instances (fuel : nat) (expire_ms : Z) (k j : nat) (insts dead : list sd_instance_t)
    : list sd_instance_t * list sd_instance_t * nat :=
  match fuel with
  | O => (insts, dead, k)
  | S fuel' =>
      match insts !! j with
      | None => (insts, dead, k)
      | Some i =>
          let '(expired, k') := is_instance_expired i expire_ms k in
          if expired then expire_instances fuel' expire_ms k' j (swap_remove j insts) (dead ++ [i])
          else expire_instances fuel' expire_ms k' (S j) insts dead
      end
  end.

Definition add_expirations (n : nat) (st : sd_stats_t) : sd_stats_t :=
  Stats (registrations st) (deregistrations st) (discoveries st) (heartbeats st)
    (u64 (expirations st + Z.of_nat n)) (lb_selections st) (active_services st) (active_instances st).

(** The effects of removing the instances [dead] of a service: counts and
    callbacks. *)
Definition report_dead (service : cstr) (dead : list sd_instance_t) (sd : sd_internal_t) : sd_internal_t :=
  foldl (fun sd i => notify_event SD_EVENT_EXPIRED service i sd)
    (upd_stats (add_expirations (length dead)) sd) dead.

(** The loop over the services.  The index is a [uint32_t]: removing the first
    service takes it below zero, and the increment of the loop brings it
    back. *)
Fixpoint expire_services (fuel : nat) (now : Z) (k : nat) (i : Z) (changed : bool) (sd : sd_internal_t)
    : res (bool * sd_internal_t) :=
  match services sd !! Z.to_nat i with
  | None => Done (changed, sd)
  | Some e =>
      match fuel with
      | O => NoFuel
      | S fuel' =>
          let timeout := expire_timeout_ms (config sd) in
          let '(insts, dead, k') := expire_instances (instance_count e) timeout k 0 (instances e) [] in
          let e' := set_instances insts e in
          let sd' := report_dead (name e) dead (set_services (<[Z.to_nat i := e']> (services sd)) sd) in
          let changed' := changed || negb (bool_decide (dead = [])) in
          if (instance_count e' =? 0)%nat && (u32 (timeout * 2) <? u64 (now - last_updated e'))
          then expire_services fuel' now k' (u32 (u32 (i - 1) + 1)) true
                 (set_services (swap_remove (Z.to_nat i) (services sd')) sd')
          else expire_services fuel' now k' (u32 (i + 1)) changed' sd'
      end
  end.

(** ** The registry *)

Definition count_instances (l : list sd_service_entry_t) : Z :=
  foldl (fun n e => u32 (n + Z.of_nat (instance_count e))) 0 l.

Definition set_active (sd : sd_internal_t) (st : sd_stats_t) : sd_stats_t :=
  Stats (registrations st) (deregistrations st) (discoveries st) (heartbeats st) (expirations st)
    (lb_selections st) (Z.of_nat (service_count sd)) (count_instances (services sd)).

Definition count_registration (st : sd_stats_t) : sd_stats_t :=
  Stats (u64 (registrations st + 1)) (deregistrations st) (discoveries st) (heartbeats st) (expirations st)
    (lb_selections st) (active_services st) (active_instances st).

Definition new_entry (n ty : cstr) (tg deps : option cstr) (now : Z) : sd_service_entry_t :=
  Entry (strcpy_cut SD_MAX_NAME_LEN n) [] (strcpy_cut SD_MAX_TYPE_LEN ty)
    (default [] (strcpy_cut SD_MAX_TAGS_LEN <$> tg)) (default [] (strcpy_cut SD_MAX_DEPS_LEN <$> deps))
    0 [] true now.

(** The place of the service, which is appended when it is new, and the next
    question; [None]: no room. *)
Definition find_or_add (sd : sd_internal_t) (n ty : cstr) (tg deps : option cstr)
    : option (nat * nat * sd_internal_t) :=
  match find_service_index sd n with
  | Some idx => Some (idx, 0%nat, sd)
  | None =>
      if (SD_MAX_SERVICES <=? service_count sd)%nat then None
      else Some (service_count sd, 1%nat,
                 upd_stats count_registration
                   (set_services (services sd ++ [new_entry n ty tg deps (clk 0)]) sd))
  end.

(** The instance written over an old one, or appended; [None]: no room. *)
Definition put_instance (getpid : Z) (k : nat) (inst : sd_instance_t) (e : sd_service_entry_t)
    : option (list sd_instance_t * nat) :=
  match find_instance_index e (instance_id inst) with
  | Some j =>
      let i := set_heartbeat (clk k) inst in
      if 0 <? register_time i then Some (<[j := i]> (instances e), S k)
      else Some (<[j := set_register_time (clk (S k)) i]> (instances e), S (S k))
  | None =>
      if (SD_MAX_INSTANCES <=? instance_count e)%nat then None
      else Some (instances e ++
                   [set_pid getpid (set_register_time (clk (S k)) (set_heartbeat (clk k) inst))], S (S k))
  end.

Definition sd_registry_add_instance (getpid : Z) (n ty : cstr) (inst : sd_instance_t) (tg deps : option cstr)
    (sd : sd_internal_t) : Z * sd_internal_t :=
  match find_or_add sd n ty tg deps with
  | None => (AIRY_ENOMEM, sd)
  | Some (idx, k, sd) =>
      match services sd !! idx with
      | None => (AIRY_ENOMEM, sd)
      | Some e =>
          match put_instance getpid k inst e with
          | None => (AIRY_ENOMEM, sd)
          | Some (insts, k) =>
              let e := set_last_updated (clk k) (set_instances insts e) in
              let sd := set_services (<[idx := e]> (services sd)) sd in
              (AIRY_SUCCESS, upd_stats (set_active sd) sd)
          end
      end
  end.

Definition count_deregistration (sd : sd_internal_t) (st : sd_stats_t) : sd_stats_t :=
  Stats (registrations st) (u64 (deregistrations st + 1)) (discoveries st) (heartbeats st) (expirations st)
    (lb_selections st) (active_services st) (count_instances (services sd)).

(** The service, the place of the instance and the instance. *)
Definition find_both (sd : sd_internal_t) (n id : cstr)
    : option (nat * sd_service_entry_t * nat * sd_instance_t) :=
  idx ← find_service_index sd n; e ← services sd !! idx;
  j ← find_instance_index e id; i ← instances e !! j; Some (idx, e, j, i).

Definition sd_registry_remove_instance (n id : cstr) (sd : sd_internal_t) : Z * sd_internal_t :=
  match find_both sd n id with
  | None => (AIRY_ENOENT, sd)
  | Some (idx, e, j, _) =>
      let e := set_last_updated (clk 0) (set_instances (swap_remove j (instances e)) e) in
      let sd := set_services (<[idx := e]> (services sd)) sd in
      (AIRY_SUCCESS, upd_stats (count_deregistration sd) sd)
  end.

End clock.

(** ** Backends *)

(** The interface between the registry and the medium that holds it.  The codes
    of [refresh] and [commit] are not used by their callers. *)
Record sd_backend (M : Type) := Backend {
  backend_name : cstr;
  register_service : (nat -> Z) -> Z -> cstr -> cstr -> sd_instance_t -> option cstr -> option cstr ->
    sd_internal_t -> M -> Z * sd_internal_t * M;
  deregister_service : (nat -> Z) -> cstr -> cstr -> sd_internal_t -> M -> Z * sd_internal_t * M;
  deregister_all : (nat -> Z) -> cstr -> sd_internal_t -> M -> Z * sd_internal_t * M;
  refresh : option cstr -> sd_internal_t -> M -> sd_internal_t * M;
  commit : option cstr -> sd_internal_t -> M -> sd_internal_t * M;
}.
Arguments backend_name {M} _.
Arguments register_service {M} _ _ _ _ _ _ _ _ _ _.
Arguments deregister_service {M} _ _ _ _ _ _.
Arguments deregister_all {M} _ _ _ _ _.
Arguments refresh {M} _ _ _ _.
Arguments commit {M} _ _ _ _.

(** The in-memory backend: the registry is its own medium. *)
Definition shm_register (clk : nat -> Z) (getpid : Z) (n ty : cstr) (inst : sd_instance_t) (tg deps : option cstr)
    (sd : sd_internal_t) (m : unit) : Z * sd_internal_t * unit :=
  (sd_registry_add_instance clk getpid n ty inst tg deps sd, m).

Definition shm_deregister (clk : nat -> Z) (n id : cstr) (sd : sd_internal_t) (m : unit)
    : Z * sd_internal_t * unit :=
  (sd_registry_remove_instance clk n id sd, m).

Definition shm_deregister_all (clk : nat -> Z) (n : cstr) (sd : sd_internal_t) (m : unit)
    : Z * sd_internal_t * unit :=
  match find_service_index sd n with
  | None => (AIRY_ENOENT, sd, m)
  | Some idx =>
      (AIRY_SUCCESS,
       set_services (alter (fun e => set_last_updated (clk 0%nat) (set_instances [] e)) idx (services sd)) sd, m)
  end.

Definition shm_lookup (n : cstr) (sd : sd_internal_t) : Z * option sd_service_entry_t :=
  match find_service_index sd n with
  | None => (AIRY_ENOENT, None)
  | Some idx => (AIRY_SUCCESS, services sd !! idx)
  end.

Definition shm_list (max : nat) (sd : sd_internal_t) : Z * list sd_service_entry_t :=
  (AIRY_SUCCESS, take max (services sd)).

Definition shm_refresh (n : option cstr) (sd : sd_internal_t) (m : unit) : sd_internal_t * unit := (sd, m).
Definition shm_commit (n : option cstr) (sd : sd_internal_t) (m : unit) : sd_internal_t * unit := (sd, m).

Definition sd_backend_shm : sd_backend unit :=
  Backend unit (cs "shm") shm_register shm_deregister shm_deregister_all shm_refresh shm_commit.

(** The backend that the environment variable selects. *)
Inductive backend_kind := ShmBackend | FileBackend.
Definition sd_backend_select (has_cjson : bool) (env : option cstr) : backend_kind :=
  match env with
  | Some v =>
      if has_cjson && (bool_decide (v = cs "file") || bool_decide (v = cs "filesystem"))
      then FileBackend else ShmBackend
  | None => ShmBackend
  end.

(** ** Life cycle *)

Definition sd_create_default_config : sd_config_t :=
  Config SD_DEFAULT_HEARTBEAT_MS SD_DEFAULT_EXPIRE_MS SD_LB_ROUND_ROBIN true true
    (strcpy_cut 256 (cs "/airy_svc_registry")) SD_SHM_DEFAULT_SIZE.

(** [alloc], [mtx] and [init]: the allocation, the mutex and the backend's
    initialisation succeed. *)
Definition sd_create (alloc mtx init : bool) (cfg : option sd_config_t) : option sd_internal_t :=
  if alloc && mtx && init
  then Some (SD (default sd_create_default_config cfg) [] [] zero_stats false 0 [])
  else None.

Definition sd_start (sd : option sd_internal_t) : Z * option sd_internal_t :=
  match sd with
  | None => (AIRY_EINVAL, None)
  | Some s => (AIRY_SUCCESS, Some (if running s then s else set_running true s))
  end.

Definition sd_stop (sd : option sd_internal_t) : Z * option sd_internal_t :=
  match sd with
  | None => (AIRY_EINVAL, None)
  | Some s => (AIRY_SUCCESS, Some (set_running false s))
  end.

(** The registry as it is when its memory is freed. *)
Definition sd_destroy (sd : option sd_internal_t) : option sd_internal_t :=
  match sd with
  | None => None
  | Some s => if running s then (sd_stop sd).2 else Some s
  end.

Definition sd_is_running (sd : option sd_internal_t) : bool :=
  match sd with None => false | Some s => running s end.

Definition sd_register_event_callback (callback : option Z) (user_data : Z) (sd : sd_internal_t)
    : Z * sd_internal_t :=
  match callback with
  | None => (AIRY_EINVAL, sd)
  | Some c =>
      if (SD_MAX_CALLBACKS <=? length (callbacks sd))%nat then (AIRY_ENOMEM, sd)
      else (AIRY_SUCCESS, set_callbacks (callbacks sd ++ [(c, user_data)]) sd)
  end.

Definition sd_lb_strategy_to_string (strategy : Z) : cstr :=
  if (strategy <? 0) || (4 <? strategy) then cs "UNKNOWN"
  else default [] ([cs "ROUND_ROBIN"; cs "WEIGHTED"; cs "LEAST_CONNECTION"; cs "RANDOM"; cs "LEAST_LOAD"]
                   !! Z.to_nat strategy).

(** ** Text queries *)

Fixpoint has_prefix (needle s : cstr) : bool :=
  match needle, s with
  | [], _ => true
  | x :: n, y :: s' => (x =? y) && has_prefix n s'
  | _ :: _, [] => false
  end.

Fixpoint strstr (s needle : cstr) : bool :=
  has_prefix needle s || match s with [] => false | _ :: s' => strstr s' needle end.

(** The tokens of [strtok_r] with the delimiter ",": the runs without commas. *)
Fixpoint tokens_acc (s acc : cstr) : list cstr :=
  let flush := match acc with [] => [] | _ => [acc] end in
  match s with
  | [] => flush
  | c :: s' => if c =? 44 then flush ++ tokens_acc s' [] else tokens_acc s' (acc ++ [c])
  end.
Definition tokens (s : cstr) : list cstr := tokens_acc s [].

Fixpoint skip_blanks (s : cstr) : cstr :=
  match s with c :: s' => if c =? 32 then skip_blanks s' else s | [] => [] end.

(** ** The operations *)

Section interface.
Context {M : Type} (B : sd_backend M) (clk : nat -> Z).

Definition world : Type := sd_internal_t * M.

Definition expire_stale_instances (w : world) : res world :=
  let '(sd, m) := w in
  if negb (enable_auto_expire (config sd)) then Done w
  else rbind (expire_services clk (service_count sd) (clk 0) 1 0 false sd)
         (fun '(changed, sd) => Done (if (changed : bool) then commit B None sd m else (sd, m))).

(** The pointers that the source checks are options. *)
Definition sd_register (getpid : Z) (service_name service_type : option cstr) (inst : option sd_instance_t)
    (tg deps : option cstr) (w : world) : Z * world :=
  match service_name, service_type, inst with
  | Some n, Some ty, Some i =>
      let '(err, sd, m) := register_service B clk getpid n ty i tg deps w.1 w.2 in
      if err =? AIRY_SUCCESS then (AIRY_SUCCESS, (notify_event SD_EVENT_REGISTERED n i sd, m))
      else (err, (sd, m))
  | _, _, _ => (AIRY_EINVAL, w)
  end.

Definition sd_deregister (service_name instance_id : option cstr) (w : world) : Z * world :=
  match service_name, instance_id with
  | Some n, Some id =>
      let removed := match find_both w.1 n id with Some (_, _, _, i) => i | None => zero_instance end in
      let '(err, sd, m) := deregister_service B clk n id w.1 w.2 in
      if err =? AIRY_SUCCESS then (AIRY_SUCCESS, (notify_event SD_EVENT_DEREGISTERED n removed sd, m))
      else (err, (sd, m))
  | _, _ => (AIRY_EINVAL, w)
  end.

Definition sd_deregister_all (service_name : option cstr) (w : world) : Z * world :=
  match service_name with
  | Some n => let '(err, sd, m) := deregister_all B clk n w.1 w.2 in (err, (sd, m))
  | None => (AIRY_EINVAL, w)
  end.

Definition count_discovery (st : sd_stats_t) : sd_stats_t :=
  Stats (registrations st) (deregistrations st) (u64 (discoveries st + 1)) (heartbeats st) (expirations st)
    (lb_selections st) (active_services st) (active_instances st).

(** The copies that fit [max_count]. *)
Fixpoint copy_if {A} (f : A -> bool) (l : list A) (max_count : nat) : list A :=
  match l, max_count with
  | x :: l', S max' => if f x then x :: copy_if f l' max' else copy_if f l' max_count
  | _, _ => []
  end.

(** The instances copied out; their number is [found_count]. *)
Definition sd_discover (service_name : option cstr) (has_out : bool) (max_count : nat) (w : world)
    : res (Z * option (list sd_instance_t) * world) :=
  match service_name with
  | Some n =>
      if negb has_out then Done (AIRY_EINVAL, None, w)
      else rbind (expire_stale_instances (refresh B (Some n) w.1 w.2)) (fun '(sd, m) =>
        match e ← find_service_index sd n; services sd !! e with
        | None => Done (AIRY_ENOENT, Some [], (sd, m))
        | Some e =>
            Done (AIRY_SUCCESS, Some (copy_if healthy (instances e) max_count),
                  (upd_stats count_discovery sd, m))
        end)
  | None => Done (AIRY_EINVAL, None, w)
  end.

Definition sd_discover_by_type (ty : option cstr) (has_out : bool) (max_count : nat) (w : world)
    : res (Z * option (list sd_service_entry_t) * world) :=
  match ty with
  | Some ty =>
      if negb has_out then Done (AIRY_EINVAL, None, w)
      else rbind (expire_stale_instances (refresh B None w.1 w.2)) (fun '(sd, m) =>
        Done (AIRY_SUCCESS,
              Some (copy_if (fun e => bool_decide (service_type e = ty)) (services sd) max_count),
              (upd_stats count_discovery sd, m)))
  | None => Done (AIRY_EINVAL, None, w)
  end.

(** The services whose tags contain the token and that are not yet there. *)
Fixpoint tag_scan (l : list sd_service_entry_t) (token : cstr) (max_count : nat)
    (found : list sd_service_entry_t) : list sd_service_entry_t :=
  match l with
  | [] => found
  | e :: l' =>
      if (max_count <=? length found)%nat then found
      else if strstr (tags e) token && negb (existsb (fun f => bool_decide (name f = name e)) found)
      then tag_scan l' token max_count (found ++ [e])
      else tag_scan l' token max_count found
  end.

Fixpoint tag_loop (toks : list cstr) (l : list sd_service_entry_t) (max_count : nat)
    (found : list sd_service_entry_t) : list sd_service_entry_t :=
  match toks with
  | [] => found
  | t :: toks' =>
      if (max_count <=? length found)%nat then found
      else tag_loop toks' l max_count (tag_scan l (skip_blanks t) max_count found)
  end.

Definition sd_discover_by_tags (filter_tags : option cstr) (has_out : bool) (max_count : nat) (w : world)
    : res (Z * option (list sd_service_entry_t) * world) :=
  match filter_tags with
  | Some tg =>
      if negb has_out then Done (AIRY_EINVAL, None, w)
      else rbind (expire_stale_instances (refresh B None w.1 w.2)) (fun '(sd, m) =>
        Done (AIRY_SUCCESS,
              Some (tag_loop (tokens (strcpy_cut SD_MAX_TAGS_LEN tg)) (services sd) max_count []),
              (upd_stats count_discovery sd, m)))
  | None => Done (AIRY_EINVAL, None, w)
  end.

(** The instance under the mutex, after a refresh of its service: its place
    (the [sd_ref_t] of the source), or an error. *)
Definition sd_lock_ref (service_name id : option cstr) (w : world)
    : Z * option (nat * sd_service_entry_t * nat * sd_instance_t) * world :=
  match service_name, id with
  | Some n, Some id =>
      let w' := refresh B (Some n) w.1 w.2 in
      match find_both w'.1 n id with
      | Some r => (AIRY_SUCCESS, Some r, w')
      | None => (AIRY_ENOENT, None, w')
      end
  | _, _ => (AIRY_EINVAL, None, w)
  end.

Definition write_ref (idx j : nat) (e : sd_service_entry_t) (i : sd_instance_t) (sd : sd_internal_t)
    : sd_internal_t :=
  set_services (<[idx := set_instances (<[j := i]> (instances e)) e]> (services sd)) sd.

Definition count_heartbeat (st : sd_stats_t) : sd_stats_t :=
  Stats (registrations st) (deregistrations st) (discoveries st) (u64 (heartbeats st + 1)) (expirations st)
    (lb_selections st) (active_services st) (active_instances st).

Definition sd_heartbeat (service_name id : option cstr) (w : world) : Z * world :=
  match sd_lock_ref service_name id w with
  | (_, Some (idx, e, j, i), (sd, m)) =>
      let sd := upd_stats count_heartbeat (write_ref idx j e (set_heartbeat (clk 0%nat) i) sd) in
      (AIRY_SUCCESS, commit B service_name sd m)
  | (err, None, w) => (err, w)
  end.

Definition sd_update_health (service_name id : option cstr) (h : bool) (w : world) : Z * world :=
  match sd_lock_ref service_name id w with
  | (_, Some (idx, e, j, i), (sd, m)) =>
      let i' := set_heartbeat (clk 0%nat) (set_healthy h i) in
      let '(sd, m) := commit B service_name (write_ref idx j (set_last_updated (clk 1%nat) e) i' sd) m in
      (AIRY_SUCCESS,
       (if bool_decide (healthy i = h) then sd
        else notify_event (if h then SD_EVENT_INSTANCE_UP else SD_EVENT_INSTANCE_DOWN)
               (default [] service_name) i' sd, m))
  | (err, None, w) => (err, w)
  end.

Definition sd_update_connections (service_name id : option cstr) (n : Z) (w : world) : Z * world :=
  match sd_lock_ref service_name id w with
  | (_, Some (idx, e, j, i), (sd, m)) =>
      (AIRY_SUCCESS, commit B service_name (write_ref idx j e (set_active_connections n i) sd) m)
  | (err, None, w) => (err, w)
  end.

(** ** Dependencies *)

(** [safe_strcpy] into an array whose length is cast to 32 bits; [None]: the
    array is left as it is. *)
Definition copy_out (s : cstr) (max_len : Z) : option cstr :=
  if u32 max_len =? 0 then None else Some (strcpy_cut (Z.to_nat (u32 max_len)) s).

Definition sd_get_dependencies (service_name : option cstr) (has_out : bool) (max_len : Z) (w : world)
    : Z * option cstr * world :=
  match service_name with
  | Some n =>
      if negb has_out then (AIRY_EINVAL, None, w)
      else let w := refresh B (Some n) w.1 w.2 in
           match e ← find_service_index w.1 n; services w.1 !! e with
           | None => (AIRY_ENOENT, None, w)
           | Some e => (AIRY_SUCCESS, copy_out (dependencies e) max_len, w)
           end
  | None => (AIRY_EINVAL, None, w)
  end.

Definition dep_available (sd : sd_internal_t) (dep : cstr) : bool :=
  match e ← find_service_index sd dep; services sd !! e with
  | Some e => existsb healthy (instances e)
  | None => false
  end.

Definition strcat_cut (size : nat) (d s : cstr) : cstr := take (size - 1) (d ++ s).

(** One missing dependency: the buffer and [missing_len]. *)
Definition add_missing (token missing : cstr) (missing_len : nat) : cstr * nat :=
  if (missing_len + length token + 2 <? SD_MAX_DEPS_LEN)%nat then
    let '(missing, missing_len) :=
      if (0 <? missing_len)%nat then (strcat_cut SD_MAX_DEPS_LEN missing [44], S missing_len)
      else (missing, missing_len) in
    (strcat_cut SD_MAX_DEPS_LEN missing token, (missing_len + length token)%nat)
  else (missing, missing_len).

Fixpoint check_loop (sd : sd_internal_t) (toks : list cstr) (missing : cstr) (missing_len : nat) : cstr * nat :=
  match toks with
  | [] => (missing, missing_len)
  | t :: toks' =>
      let token := skip_blanks t in
      let '(missing, missing_len) :=
        if dep_available sd token then (missing, missing_len) else add_missing token missing missing_len in
      check_loop sd toks' missing missing_len
  end.

(** [out_len] is [max_len] where there is a buffer for the missing ones. *)
Definition sd_check_dependencies (service_name : option cstr) (out_len : option Z) (w : world)
    : Z * option cstr * world :=
  match service_name with
  | Some n =>
      let w := refresh B None w.1 w.2 in
      match e ← find_service_index w.1 n; services w.1 !! e with
      | None => (AIRY_ENOENT, None, w)
      | Some e =>
          let '(missing, missing_len) :=
            check_loop w.1 (tokens (strcpy_cut SD_MAX_DEPS_LEN (dependencies e))) [] 0 in
          (if (0 <? missing_len)%nat then AIRY_ERR_SVC_DEPENDENCY else AIRY_SUCCESS,
           match out_len with Some l => if 0 <? l then copy_out missing l else None | None => None end, w)
      end
  | None => (AIRY_EINVAL, None, w)
  end.

(** ** Statistics *)

Definition sd_get_stats (has_out : bool) (w : world) : Z * option sd_stats_t * world :=
  if negb has_out then (AIRY_EINVAL, None, w)
  else let w := refresh B None w.1 w.2 in (AIRY_SUCCESS, Some (set_active w.1 (stats w.1)), w).

Definition sd_service_count (w : world) : nat * world :=
  let w := refresh B None w.1 w.2 in (service_count w.1, w).

(** The counts that [sd_dump_stats] prints. *)
Definition sd_dump_stats (w : world) : sd_stats_t * Z * bool * world :=
  let w := refresh B None w.1 w.2 in
  (set_active w.1 (stats w.1),
   foldl (fun n e => u32 (n + Z.of_nat (length (filter (fun i => healthy i = true) (instances e))))) 0 (services w.1),
   running w.1, w).

End interface.
