(* ===== verification/SdBalance.v ===== *)
(** * Load balancing: utils/sd/service_discovery_lb.c, sd_select_instance

    The five strategies, what each promises, and the selection that uses them.
    [r] is the answer of the random pool; [airy_random_uint32] reduces it to
    the range it is asked for. *)
From S2P Require Import Prelude CLib Keyed Sd.

Definition UINT32_MAX : Z := 2 ^ 32 - 1.

Definition airy_random_uint32 (r lo hi : Z) : Z :=
  let range := if lo <=? hi then u32 (hi - lo + 1) else 0 in
  if range =? 0 then lo else u32 (lo + r mod range).

(** ** The strategies *)

(** The search from [start], [fuel] instances long. *)
Fixpoint rr_loop (fuel start i : nat) (insts : list sd_instance_t) : option (nat * sd_instance_t) :=
  match fuel with
  | O => None
  | S fuel' =>
      let idx := ((start + i) mod length insts)%nat in
      match insts !! idx with
      | Some x => if healthy x then Some (idx, x) else rr_loop fuel' start (S i) insts
      | None => None
      end
  end.

Definition lb_round_robin (e : sd_service_entry_t) (sd : sd_internal_t) : Z * option sd_instance_t * sd_internal_t :=
  if (instance_count e =? 0)%nat then (AIRY_ENOENT, None, sd)
  else match rr_loop (instance_count e) (Z.to_nat (rr_counter sd mod Z.of_nat (instance_count e))) 0 (instances e) with
       | Some (idx, x) => (AIRY_SUCCESS, Some x, set_rr (Z.of_nat idx + 1) sd)
       | None => (AIRY_ENOENT, None, sd)
       end.

Definition total_weight (insts : list sd_instance_t) : Z :=
  foldl (fun n i => if healthy i then u32 (n + weight i) else n) 0 insts.

Fixpoint weighted_loop (insts : list sd_instance_t) (random_val cumulative : Z) : option sd_instance_t :=
  match insts with
  | [] => None
  | i :: l =>
      if healthy i then
        let cumulative := u32 (cumulative + weight i) in
        if random_val <? cumulative then Some i else weighted_loop l random_val cumulative
      else weighted_loop l random_val cumulative
  end.

Definition lb_weighted (r : Z) (e : sd_service_entry_t) : Z * option sd_instance_t :=
  let total := total_weight (instances e) in
  if total =? 0 then (AIRY_ENOENT, None)
  else match weighted_loop (instances e) (airy_random_uint32 r 0 (total - 1)) 0 with
       | Some i => (AIRY_SUCCESS, Some i)
       | None => match List.find healthy (instances e) with
                 | Some i => (AIRY_SUCCESS, Some i)
                 | None => (AIRY_ENOENT, None)
                 end
       end.

(** The first healthy instance with the least [f] below [UINT32_MAX]. *)
Fixpoint least_loop (f : sd_instance_t -> Z) (insts : list sd_instance_t) (best : option sd_instance_t) (least : Z)
    : option sd_instance_t :=
  match insts with
  | [] => best
  | i :: l =>
      if healthy i && (f i <? least) then least_loop f l (Some i) (f i) else least_loop f l best least
  end.

Definition found (i : option sd_instance_t) : Z * option sd_instance_t :=
  (match i with Some _ => AIRY_SUCCESS | None => AIRY_ENOENT end, i).

Definition lb_least_connection (e : sd_service_entry_t) : Z * option sd_instance_t :=
  found (least_loop active_connections (instances e) None UINT32_MAX).

Definition load_of (i : sd_instance_t) : Z :=
  if 0 <? max_connections i then u32 (active_connections i * 100) / max_connections i else 0.

Definition lb_least_load (e : sd_service_entry_t) : Z * option sd_instance_t :=
  found (least_loop load_of (instances e) None UINT32_MAX).

Fixpoint random_loop (insts : list sd_instance_t) (idx count : Z) : option sd_instance_t :=
  match insts with
  | [] => None
  | i :: l =>
      if healthy i then if count =? idx then Some i else random_loop l idx (count + 1)
      else random_loop l idx count
  end.

Definition healthy_count (insts : list sd_instance_t) : Z :=
  Z.of_nat (length (filter (fun i => healthy i = true) insts)).

Definition lb_random (r : Z) (e : sd_service_entry_t) : Z * option sd_instance_t :=
  let n := healthy_count (instances e) in
  if n =? 0 then (AIRY_ENOENT, None)
  else found (random_loop (instances e) (airy_random_uint32 r 0 (n - 1)) 0).

(** ** Selection *)

Definition count_selection (st : sd_stats_t) : sd_stats_t :=
  Stats (registrations st) (deregistrations st) (discoveries st) (heartbeats st) (expirations st)
    (u64 (lb_selections st + 1)) (active_services st) (active_instances st).

(** Any other value of the strategy is the round robin. *)
Definition lb_select (strategy : option sd_lb_strategy_t) (r : Z) (e : sd_service_entry_t) (sd : sd_internal_t)
    : Z * option sd_instance_t * sd_internal_t :=
  match strategy with
  | Some SD_LB_WEIGHTED => (lb_weighted r e, sd)
  | Some SD_LB_LEAST_CONNECTION => (lb_least_connection e, sd)
  | Some SD_LB_RANDOM => (lb_random r e, sd)
  | Some SD_LB_LEAST_LOAD => (lb_least_load e, sd)
  | Some SD_LB_ROUND_ROBIN | None => lb_round_robin e sd
  end.

Definition sd_select_instance {M} (B : sd_backend M) (clk : nat -> Z) (r : Z) (service_name : option cstr)
    (strategy : option sd_lb_strategy_t) (has_out : bool) (w : sd_internal_t * M)
    : res (Z * option sd_instance_t * (sd_internal_t * M)) :=
  match service_name with
  | Some n =>
      if negb has_out then Done (AIRY_EINVAL, None, w)
      else rbind (expire_stale_instances B clk (refresh B (Some n) w.1 w.2)) (fun '(sd, m) =>
        match e ← find_service_index sd n; services sd !! e with
        | None => Done (AIRY_ENOENT, None, (sd, m))
        | Some e =>
            let '(err, i, sd) := lb_select strategy r e sd in
            Done (err, i, (if err =? AIRY_SUCCESS then upd_stats count_selection sd else sd, m))
        end)
  | None => Done (AIRY_EINVAL, None, w)
  end.

(** ** Round robin is a rotating queue *)

(** The instances from the position of the counter on, around the end. *)
Definition rotated (l : list sd_instance_t) (rr : Z) : list sd_instance_t :=
  let s := Z.to_nat (rr mod Z.of_nat (length l)) in drop s l ++ take s l.

(** The healthy ones in that order: the queue the counter stands for. *)
Definition rr_queue (l : list sd_instance_t) (rr : Z) : list sd_instance_t :=
  filter (fun i => healthy i = true) (rotated l rr).

Lemma filter_healthy_cons x l :
  filter (fun i => healthy i = true) (x :: l) =
  if healthy x then x :: filter (fun i => healthy i = true) l else filter (fun i => healthy i = true) l.
Proof. rewrite filter_cons. case_decide as H; [by rewrite H|]. by destruct (healthy x). Qed.

(** Positions from [start] on, around the end, are the rotation. *)
Lemma rotated_lookup (l : list sd_instance_t) s i :
  (s <= length l)%nat -> (i < length l)%nat ->
  (drop s l ++ take s l) !! i = l !! ((s + i) mod length l)%nat.
Proof.
  intros Hs Hi. destruct (decide (s + i < length l)%nat) as [H|H].
  - rewrite lookup_app_l by (rewrite length_drop; lia). rewrite lookup_drop, Nat.mod_small by lia. done.
  - rewrite lookup_app_r by (rewrite length_drop; lia). rewrite length_drop, lookup_take by lia.
    replace (s + i)%nat with (i - (length l - s) + 1 * length l)%nat by lia.
    rewrite Nat.Div0.mod_add, Nat.mod_small by lia. case_decide; [done|lia].
Qed.

(** The search finds the first healthy instance of the rotation, with the ones
    before it not healthy. *)
Lemma rr_loop_spec l s fuel i :
  (s < length l)%nat -> (fuel + i = length l)%nat ->
  match rr_loop fuel s i l with
  | Some (idx, x) =>
      exists d, (d < fuel)%nat /\ idx = ((s + (i + d)) mod length l)%nat /\ l !! idx = Some x /\ healthy x = true /\
      forall d', (d' < d)%nat -> forall y, l !! ((s + (i + d')) mod length l)%nat = Some y -> healthy y = false
  | None => forall d y, (d < fuel)%nat -> l !! ((s + (i + d)) mod length l)%nat = Some y -> healthy y = false
  end.
Proof.
  intros Hs. revert i. induction fuel as [|fuel IH]; intros i Hf; cbn [rr_loop]; [intros; lia|].
  destruct (lookup_lt_is_Some_2 l ((s + i) mod length l)) as [x Hx]; [apply Nat.mod_upper_bound; lia|].
  rewrite Hx. destruct (healthy x) eqn:Hh.
  - exists 0%nat. rewrite Nat.add_0_r. split_and!; [lia|done|done|done|]. intros; lia.
  - specialize (IH (S i)). destruct (rr_loop fuel s (S i) l) as [[idx y]|].
    + destruct IH as (d & Hd & -> & Hy & Hhy & Hmin); [lia|]. exists (S d).
      replace (i + S d)%nat with (S i + d)%nat by lia. split_and!; [lia|done|done|done|].
      intros [|d'] Hd' z Hz; [rewrite Nat.add_0_r in Hz; congruence|]. apply (Hmin d'); [lia|].
      by replace (S i + d')%nat with (i + S d')%nat by lia.
    + intros [|d] z Hd Hz; [rewrite Nat.add_0_r in Hz; congruence|]. apply (IH ltac:(lia) d); [lia|].
      by replace (S i + d)%nat with (i + S d)%nat by lia.
Qed.

Lemma rotated_again (l : list sd_instance_t) s d :
  (s < length l)%nat -> (d < length l)%nat ->
  let R := drop s l ++ take s l in let s' := (((s + d) mod length l + 1) mod length l)%nat in
  drop s' l ++ take s' l = drop (S d) R ++ take (S d) R.
Proof.
  intros Hs Hd R s'. assert (HR : length R = length l) by (subst R; rewrite length_app, length_drop, length_take; lia).
  assert (Hs' : (s' < length l)%nat) by (apply Nat.mod_upper_bound; lia).
  apply list_eq_same_length with (n := length l);
    [by rewrite length_app, length_drop, length_take; lia..|].
  intros i x y Hi. rewrite rotated_lookup by lia. rewrite rotated_lookup by lia. rewrite HR. subst R.
  rewrite rotated_lookup by (lia || (apply Nat.mod_upper_bound; lia)). subst s'.
  rewrite mod_succ_idemp by lia. rewrite Nat.Div0.add_mod_idemp_l, Nat.Div0.add_mod_idemp_r.
  replace (s + S d + i)%nat with (s + (S d + i))%nat by lia. congruence.
Qed.

Lemma filter_healthy_none l :
  (forall d y, l !! d = Some y -> healthy y = false) -> filter (fun i => healthy i = true) l = [].
Proof.
  induction l as [|x l IH]; intros H; [done|]. rewrite filter_healthy_cons, (H 0%nat x eq_refl).
  apply IH. intros d. apply (H (S d)).
Qed.

(** A selection takes the head of the queue to its end; an empty queue is an
    error and changes nothing. *)
Lemma rr_select e sd :
  0 <= rr_counter sd ->
  match rr_queue (instances e) (rr_counter sd) with
  | [] => lb_round_robin e sd = (AIRY_ENOENT, None, sd)
  | x :: q =>
      exists rr', lb_round_robin e sd = (AIRY_SUCCESS, Some x, set_rr rr' sd) /\ 0 < rr' <= Z.of_nat (instance_count e) /\
                  rr_queue (instances e) rr' = q ++ [x]
  end.
Proof.
  intros Hrr. unfold lb_round_robin, instance_count, rr_queue, rotated. set (l := instances e).
  destruct (Nat.eqb_spec (length l) 0) as [H0|H0].
  { rewrite (nil_length_inv _ H0), drop_nil, take_nil. done. }
  set (s := Z.to_nat (rr_counter sd mod Z.of_nat (length l))).
  assert (Hs : (s < length l)%nat).
  { subst s. pose proof (Z.mod_pos_bound (rr_counter sd) (Z.of_nat (length l))). lia. }
  pose proof (rr_loop_spec l s (length l) 0 Hs ltac:(lia)) as H.
  destruct (rr_loop (length l) s 0 l) as [[idx x]|].
  2:{ rewrite filter_healthy_none; [done|]. intros d y Hy. pose proof (lookup_lt_Some _ _ _ Hy) as Hd.
      rewrite length_app, length_drop, length_take in Hd. rewrite rotated_lookup in Hy by lia. apply (H d y); [lia|done]. }
  destruct H as (d & Hd & -> & Hx & Hh & Hmin). cbn [Nat.add] in *.
  assert (Hlen : length (drop s l ++ take s l) = length l) by (rewrite length_app, length_drop, length_take; lia).
  pose proof (rotated_again l s d Hs Hd) as Hagain. cbv zeta in Hagain.
  set (R := drop s l ++ take s l) in *.
  assert (HR : R !! d = Some x) by (subst R; rewrite rotated_lookup by lia; done).
  assert (H1 : filter (fun i => healthy i = true) (take d R) = []).
  { apply filter_healthy_none. intros d' y Hy. pose proof (lookup_lt_Some _ _ _ Hy) as Hd'.
    rewrite length_take in Hd'. rewrite lookup_take_lt in Hy by lia. subst R. rewrite rotated_lookup in Hy by lia.
    apply (Hmin d'); [lia|done]. }
  assert (Hq : filter (fun i => healthy i = true) R = x :: filter (fun i => healthy i = true) (drop (S d) R)).
  { rewrite <- (take_drop_middle R d x HR) at 1. by rewrite filter_app, H1, filter_healthy_cons, Hh. }
  rewrite Hq.
  set (idx := ((s + d) mod length l)%nat) in *.
  assert (Hidx : (idx < length l)%nat) by (apply Nat.mod_upper_bound; lia).
  exists (Z.of_nat idx + 1). split; [done|]. split; [lia|].
  replace (Z.to_nat ((Z.of_nat idx + 1) mod Z.of_nat (length l))) with ((idx + 1) mod length l)%nat.
  2:{ replace (Z.of_nat idx + 1) with (Z.of_nat (idx + 1)) by lia. by rewrite <- Nat2Z.inj_mod, Nat2Z.id. }
  rewrite Hagain, filter_app, (take_S_r _ _ _ HR), filter_app, H1. cbn [app].
  by rewrite filter_healthy_cons, Hh.
Qed.

(** [n] selections of the same service. *)
Fixpoint rr_run (n : nat) (e : sd_service_entry_t) (sd : sd_internal_t) : list (option sd_instance_t) * sd_internal_t :=
  match n with
  | O => ([], sd)
  | S n' => let '(_, i, sd) := lb_round_robin e sd in let '(rest, sd) := rr_run n' e sd in (i :: rest, sd)
  end.

Lemma rr_run_queue e q1 q2 sd :
  0 <= rr_counter sd -> rr_queue (instances e) (rr_counter sd) = q1 ++ q2 ->
  exists rr', rr_run (length q1) e sd = (Some <$> q1, set_rr rr' sd) /\ 0 <= rr' /\
              rr_queue (instances e) rr' = q2 ++ q1.
Proof.
  revert q2 sd. induction q1 as [|x q1 IH]; intros q2 sd Hrr Hq.
  - exists (rr_counter sd). rewrite app_nil_r. cbn [app] in Hq. by destruct sd.
  - cbn [app] in Hq. pose proof (rr_select e sd Hrr) as H. rewrite Hq in H.
    destruct H as (rr1 & Hs & Hr1 & Hq1). cbn [length rr_run]. rewrite Hs. cbv beta iota.
    destruct (IH (q2 ++ [x]) (set_rr rr1 sd)) as (rr2 & Hrun & Hr2 & Hq2); [simpl; lia|by rewrite app_assoc|].
    rewrite Hrun. exists rr2. split; [done|]. split; [done|]. by rewrite Hq2, <- app_assoc.
Qed.

Lemma rr_queue_perm l rr : rr_queue l rr ≡ₚ filter (fun i => healthy i = true) l.
Proof.
  unfold rr_queue, rotated. rewrite Permutation_app_comm, take_drop. done.
Qed.

(** C39: From any value of the counter, as many round-robin selections of a
    service as it has healthy instances return each of them exactly once, and
    the next round has the same order. *)
Theorem round_robin_fair e sd :
  0 <= rr_counter sd ->
  exists q rr', q ≡ₚ filter (fun i => healthy i = true) (instances e) /\
    rr_run (length q) e sd = (Some <$> q, set_rr rr' sd) /\
    (rr_run (length q) e (set_rr rr' sd)).1 = Some <$> q.
Proof.
  intros Hrr. set (q := rr_queue (instances e) (rr_counter sd)).
  destruct (rr_run_queue e q [] sd Hrr) as (rr' & Hrun & Hr & Hq); [by rewrite app_nil_r|].
  destruct (rr_run_queue e q [] (set_rr rr' sd)) as (rr2 & Hrun2 & _ & Hq2); [done|by rewrite app_nil_r|].
  exists q, rr'. split; [apply rr_queue_perm|]. split; [done|]. by rewrite Hrun2.
Qed.

(** ** Weights *)

(** The sum of the healthy weights, without wrapping. *)
Fixpoint hw (l : list sd_instance_t) : Z :=
  match l with [] => 0 | i :: l' => (if healthy i then weight i else 0) + hw l' end.

Definition weights_ok (l : list sd_instance_t) : Prop := Forall (fun i => 0 <= weight i) l.

Lemma hw_nonneg l : weights_ok l -> 0 <= hw l.
Proof. induction 1; simpl; [done|]. case_match; lia. Qed.

Lemma hw_app l1 l2 : hw (l1 ++ l2) = hw l1 + hw l2.
Proof. induction l1; simpl; lia. Qed.

Lemma total_weight_from l c :
  weights_ok l -> 0 <= c -> c + hw l < 2 ^ 32 ->
  foldl (fun n i => if healthy i then u32 (n + weight i) else n) c l = c + hw l.
Proof.
  intros Hw. revert c. induction Hw as [|i l Hi Hw IH]; intros c Hc Hs; simpl in *; [lia|].
  pose proof (hw_nonneg l Hw). destruct (healthy i); [rewrite u32_small by lia|]; rewrite IH; lia.
Qed.

Lemma total_weight_hw l : weights_ok l -> hw l < 2 ^ 32 -> total_weight l = hw l.
Proof. intros Hw Hs. unfold total_weight. rewrite total_weight_from; [lia|done|lia|lia]. Qed.

(** The interval of random values that choose an instance. *)
Lemma weighted_loop_at l1 x l2 v c :
  weights_ok (l1 ++ x :: l2) -> healthy x = true -> 0 <= c -> c + hw (l1 ++ x :: l2) < 2 ^ 32 ->
  c + hw l1 <= v < c + hw l1 + weight x -> weighted_loop (l1 ++ x :: l2) v c = Some x.
Proof.
  intros Hw Hx. revert c. induction l1 as [|i l1 IH]; intros c Hc Hs Hv; cbn [app weighted_loop hw] in *.
  - apply Forall_cons in Hw as [Hi Hw]. pose proof (hw_nonneg l2 Hw). rewrite Hx in *. rewrite u32_small by lia.
    destruct (Z.ltb_spec v (c + weight x)); [done|lia].
  - apply Forall_cons in Hw as [Hi Hw]. pose proof (hw_nonneg _ Hw).
    assert (0 <= hw l1) by (apply hw_nonneg; by apply Forall_app in Hw as [? _]).
    destruct (healthy i); [|apply IH; (done || lia)].
    rewrite u32_small by lia. destruct (Z.ltb_spec v (c + weight i)); [lia|]. apply IH; (done || lia).
Qed.

Lemma weighted_loop_inv l v c x :
  weights_ok l -> 0 <= c <= v -> c + hw l < 2 ^ 32 -> weighted_loop l v c = Some x ->
  exists l1 l2, l = l1 ++ x :: l2 /\ healthy x = true /\ c + hw l1 <= v < c + hw l1 + weight x.
Proof.
  intros Hw. revert c. induction Hw as [|i l Hi Hw IH]; intros c Hc Hs; cbn [weighted_loop hw] in *; [done|].
  pose proof (hw_nonneg l Hw). destruct (healthy i) eqn:Hh.
  - rewrite u32_small by lia. destruct (Z.ltb_spec v (c + weight i)).
    + intros [= <-]. exists [], l. simpl. split; [done|]. split; [done|lia].
    + intros H1. destruct (IH (c + weight i)) as (l1 & l2 & -> & Hx & Hv); [lia|lia|done|].
      exists (i :: l1), l2. simpl. rewrite Hh. split; [done|]. split; [done|lia].
  - intros H1. destruct (IH c) as (l1 & l2 & -> & Hx & Hv); [lia|lia|done|].
    exists (i :: l1), l2. simpl. rewrite Hh. split; [done|]. split; [done|lia].
Qed.

Lemma nodup_split {A} (l1 l1' l2 l2' : list A) x :
  NoDup (l1 ++ x :: l2) -> l1 ++ x :: l2 = l1' ++ x :: l2' -> l1 = l1'.
Proof.
  revert l1'. induction l1 as [|y l1 IH]; intros [|z l1'] Hn; cbn [app]; intros Heq; [done|injection Heq as Hh Ht..].
  - subst z. apply NoDup_cons in Hn as [Hn _]. destruct Hn. rewrite Ht. set_solver.
  - subst y. apply NoDup_cons in Hn as [Hn _]. destruct Hn. set_solver.
  - subst z. f_equal. apply NoDup_cons in Hn as [_ Hn]. by apply IH.
Qed.

Lemma count_interval a w t :
  0 <= a -> 0 <= w -> a + w <= t ->
  Z.of_nat (length (filter (fun v => a <= v < a + w) (seqZ 0 t))) = w.
Proof.
  intros Ha Hw Ht. replace t with (a + (w + (t - a - w))) by lia. rewrite !seqZ_app by lia. rewrite !filter_app, !length_app.
  assert (Hnone : forall b n, (forall v, b <= v < b + n -> ~ (a <= v < a + w)) ->
                  length (filter (fun v => a <= v < a + w) (seqZ b n)) = 0%nat).
  { intros b n H. destruct (filter _ _) as [|v l] eqn:E; [done|]. exfalso.
    assert (Hv : v ∈ filter (fun v => a <= v < a + w) (seqZ b n)) by (rewrite E; set_solver).
    apply list_elem_of_filter in Hv as [Hv Hin%elem_of_seqZ]. by apply (H v). }
  rewrite (Hnone 0 a), (Hnone (0 + a + w)) by (intros; lia).
  assert (Hall : forall l, Forall (fun v => a <= v < a + w) l -> filter (fun v => a <= v < a + w) l = l).
  { induction 1 as [|v l Hv _ IH]; [done|]. rewrite filter_cons. case_decide; [by rewrite IH|done]. }
  rewrite Hall; [rewrite length_seqZ; lia|]. apply Forall_forall. intros v Hv%elem_of_seqZ. lia.
Qed.

Lemma random_below r n : 0 < n < 2 ^ 32 -> airy_random_uint32 r 0 (n - 1) = r mod n.
Proof.
  intros Hn. unfold airy_random_uint32. destruct (Z.leb_spec 0 (n - 1)); [|lia].
  replace (n - 1 - 0 + 1) with n by lia. rewrite u32_small by lia.
  destruct (Z.eqb_spec n 0); [lia|]. rewrite Z.add_0_l. apply u32_small. pose proof (Z.mod_pos_bound r n). lia.
Qed.

Lemma weighted_loop_some l r c :
  weights_ok l -> 0 <= c <= r -> r < c + hw l -> c + hw l < 2 ^ 32 -> exists y, weighted_loop l r c = Some y.
Proof.
  intros Hw. revert c. induction Hw as [|i l Hi Hw IH]; intros c Hc Hr Hb; cbn [weighted_loop hw] in *; [lia|].
  pose proof (hw_nonneg l Hw). destruct (healthy i); [|apply IH; lia].
  rewrite u32_small by lia. destruct (Z.ltb_spec r (c + weight i)); [by eauto|apply IH; lia].
Qed.

Lemma lb_weighted_iff r e x :
  weights_ok (instances e) -> 0 < hw (instances e) < 2 ^ 32 -> 0 <= r < hw (instances e) ->
  lb_weighted r e = (AIRY_SUCCESS, Some x) <->
  exists l1 l2, instances e = l1 ++ x :: l2 /\ healthy x = true /\ hw l1 <= r < hw l1 + weight x.
Proof.
  intros Hw Hs Hr. unfold lb_weighted. rewrite total_weight_hw by (done || lia).
  destruct (Z.eqb_spec (hw (instances e)) 0); [lia|]. rewrite random_below, Z.mod_small by lia.
  assert (Hex : exists y, weighted_loop (instances e) r 0 = Some y).
  { apply weighted_loop_some; (done || lia). }
  destruct Hex as [y Hy]. rewrite Hy. split.
  - intros [= <-]. destruct (weighted_loop_inv (instances e) r 0 y Hw) as (l1 & l2 & H1 & H2 & H3); [lia|lia|done|].
    exists l1, l2. split; [done|]. split; [done|lia].
  - intros (l1 & l2 & He & Hx & Hv). rewrite He in *. rewrite weighted_loop_at in Hy by (done || lia). congruence.
Qed.

(** Weighted balancing is exact: of the equally likely random values below
    the total weight, each healthy instance is chosen by as many as its
    weight. *)
Theorem weighted_exact e x :
  NoDup (instances e) -> weights_ok (instances e) -> 0 < hw (instances e) < 2 ^ 32 ->
  x ∈ instances e -> healthy x = true ->
  Z.of_nat (length (filter (fun r => lb_weighted r e = (AIRY_SUCCESS, Some x)) (seqZ 0 (hw (instances e))))) = weight x.
Proof.
  intros Hn Hw Hs Hx Hh. apply list_elem_of_split in Hx as (l1 & l2 & He).
  assert (Hw1 : weights_ok l1 /\ 0 <= weight x /\ weights_ok l2).
  { unfold weights_ok in Hw |- *. rewrite He, Forall_app, Forall_cons in Hw. tauto. }
  destruct Hw1 as (Hw1 & Hwx & Hw2). pose proof (hw_nonneg _ Hw1). pose proof (hw_nonneg _ Hw2).
  assert (Hsum : hw (instances e) = hw l1 + (weight x + hw l2)) by (rewrite He, hw_app; simpl; by rewrite Hh).
  rewrite <- (count_interval (hw l1) (weight x) (hw (instances e))) by lia. do 2 f_equal.
  assert (Hiff : forall r, r ∈ seqZ 0 (hw (instances e)) ->
            lb_weighted r e = (AIRY_SUCCESS, Some x) <-> hw l1 <= r < hw l1 + weight x).
  { intros r Hr%elem_of_seqZ. rewrite lb_weighted_iff by (done || lia). split.
    - intros (l1' & l2' & He' & _ & Hr'). rewrite He in Hn, He'.
      rewrite <- (nodup_split _ _ _ _ _ Hn He') in Hr'. lia.
    - intros Hr'. exists l1, l2. done. }
  revert Hiff. generalize (seqZ 0 (hw (instances e))). intros l. induction l as [|r l IH]; intros Hiff; [done|].
  rewrite !filter_cons.
  assert (IH' := IH (fun r' Hr => Hiff r' (list_elem_of_further _ _ _ Hr))).
  specialize (Hiff r (list_elem_of_here _ _)). repeat case_decide; [by f_equal|tauto|tauto|done].
Qed.

(** ** The least *)

Lemma least_loop_inv f l best least i :
  least_loop f l best least = Some i ->
  (best = Some i /\ forall j, j ∈ l -> healthy j = true -> least <= f j) \/
  (i ∈ l /\ healthy i = true /\ f i < least /\ forall j, j ∈ l -> healthy j = true -> f i <= f j).
Proof.
  revert best least. induction l as [|x l IH]; intros best least; cbn [least_loop].
  - intros ->. left. split; [done|set_solver].
  - destruct (healthy x && (f x <? least)) eqn:E.
    + apply andb_true_iff in E as [Hx Hl]. apply Z.ltb_lt in Hl.
      intros [[[= ->] Hm]|(Hi & Hh & Hlt & Hm)]%IH; right.
      * split_and!; [set_solver|done|done|]. intros j [->|Hj]%elem_of_cons Hhj; [done|by apply Hm].
      * split_and!; [set_solver|done|lia|]. intros j [->|Hj]%elem_of_cons Hhj; [lia|by apply Hm].
    + assert (Hx : healthy x = true -> least <= f x).
      { intros Hx. rewrite Hx in E. by apply Z.ltb_ge in E. }
      intros [[-> Hm]|(Hi & Hh & Hlt & Hm)]%IH.
      * left. split; [done|]. intros j [->|Hj]%elem_of_cons Hhj; auto.
      * right. split_and!; [set_solver|done|done|]. intros j [->|Hj]%elem_of_cons Hhj; [specialize (Hx Hhj); lia|by apply Hm].
Qed.

Lemma least_loop_none f l best least :
  least_loop f l best least = None -> best = None /\ forall j, j ∈ l -> healthy j = true -> least <= f j.
Proof.
  revert best least. induction l as [|x l IH]; intros best least; cbn [least_loop]; [set_solver|].
  destruct (healthy x && (f x <? least)) eqn:E; [by intros [? _]%IH|].
  intros [-> Hm]%IH. split; [done|]. intros j [->|Hj]%elem_of_cons Hhj; [|by apply Hm].
  rewrite Hhj in E. by apply Z.ltb_ge in E.
Qed.

Lemma random_loop_nth l idx c :
  0 <= c <= idx ->
  random_loop l idx c = filter (fun i => healthy i = true) l !! Z.to_nat (idx - c).
Proof.
  revert c. induction l as [|x l IH]; intros c Hc; [done|]. cbn [random_loop]. rewrite filter_healthy_cons.
  destruct (healthy x); [|by apply IH]. destruct (Z.eqb_spec c idx) as [->|Hne].
  - by rewrite Z.sub_diag.
  - rewrite IH by lia. replace (Z.to_nat (idx - c)) with (S (Z.to_nat (idx - (c + 1)))) by lia. done.
Qed.

(** ** Selection *)

(** Values that no counter of the strategies loses: weights that do not wrap,
    some of them not zero, and connections that leave room for the factor. *)
Definition sane (l : list sd_instance_t) : Prop :=
  weights_ok l /\ hw l < 2 ^ 32 /\ Z.of_nat (length l) < 2 ^ 32 /\
  Forall (fun i => healthy i = true -> 0 < weight i /\ 0 <= active_connections i < 2 ^ 25) l.

Definition chosen_by (strategy : option sd_lb_strategy_t) (l : list sd_instance_t) (i : sd_instance_t) : Prop :=
  match strategy with
  | Some SD_LB_LEAST_CONNECTION =>
      forall j, j ∈ l -> healthy j = true -> active_connections i <= active_connections j
  | Some SD_LB_LEAST_LOAD => forall j, j ∈ l -> healthy j = true -> load_of i <= load_of j
  | _ => True
  end.

Lemma hw_pos l x : weights_ok l -> x ∈ l -> healthy x = true -> weight x <= hw l.
Proof.
  intros Hw Hx Hh. apply list_elem_of_split in Hx as (l1 & l2 & ->).
  apply Forall_app in Hw as [H1 [H2 H3]%Forall_cons]. rewrite hw_app. simpl. rewrite Hh.
  pose proof (hw_nonneg _ H1). pose proof (hw_nonneg _ H3). lia.
Qed.

Lemma load_of_small i : 0 <= active_connections i < 2 ^ 25 -> load_of i < UINT32_MAX.
Proof.
  intros H. unfold load_of, UINT32_MAX. destruct (Z.ltb_spec 0 (max_connections i)); [|lia].
  rewrite u32_small by lia. apply Z.div_lt_upper_bound; [done|]. nia.
Qed.

Lemma least_select f l :
  (forall j, j ∈ l -> healthy j = true -> f j < UINT32_MAX) ->
  match least_loop f l None UINT32_MAX with
  | Some i => i ∈ l /\ healthy i = true /\ forall j, j ∈ l -> healthy j = true -> f i <= f j
  | None => forall j, j ∈ l -> healthy j = false
  end.
Proof.
  intros Hf. destruct (least_loop f l None UINT32_MAX) as [i|] eqn:E.
  - apply least_loop_inv in E as [[? _]|(Hi & Hh & _ & Hm)]; done.
  - apply least_loop_none in E as [_ Hm]. intros j Hj. destruct (healthy j) eqn:Hh; [|done].
    specialize (Hm j Hj Hh). specialize (Hf j Hj Hh). lia.
Qed.

Lemma no_healthy l : filter (fun i => healthy i = true) l = [] -> forall j, j ∈ l -> healthy j = false.
Proof.
  intros H j Hj. destruct (healthy j) eqn:Hh; [|done]. destruct (filter_nil_not_elem_of _ _ _ H Hh Hj).
Qed.

(** Every strategy returns a healthy instance of the service, the least where
    it promises the least, and fails exactly when there is none. *)
Lemma lb_select_spec strategy r e sd :
  0 <= rr_counter sd -> sane (instances e) -> 0 <= r ->
  match lb_select strategy r e sd with
  | (err, Some i, _) =>
      err = AIRY_SUCCESS /\ i ∈ instances e /\ healthy i = true /\ chosen_by strategy (instances e) i
  | (err, None, sd') => err = AIRY_ENOENT /\ sd' = sd /\ forall j, j ∈ instances e -> healthy j = false
  end.
Proof.
  intros Hrr (Hw & Hs & Hn & Hc) Hr. unfold lb_select.
  assert (Hconn : forall j, j ∈ instances e -> healthy j = true -> 0 < weight j /\ 0 <= active_connections j < 2 ^ 25)
    by exact (proj1 (Forall_forall _ _) Hc).
  assert (Hrob : match lb_round_robin e sd with
    | (err, Some i, _) => err = AIRY_SUCCESS /\ i ∈ instances e /\ healthy i = true /\ True
    | (err, None, sd') => err = AIRY_ENOENT /\ sd' = sd /\ forall j, j ∈ instances e -> healthy j = false end).
  { pose proof (rr_select e sd Hrr) as H. pose proof (rr_queue_perm (instances e) (rr_counter sd)) as Hp.
    destruct (rr_queue (instances e) (rr_counter sd)) as [|x q].
    - rewrite H. split; [done|]. split; [done|]. apply no_healthy. symmetry. by apply Permutation_nil_l.
    - destruct H as (rr' & -> & _).
      assert (Hx : x ∈ filter (fun i => healthy i = true) (instances e)) by (rewrite <- Hp; set_solver).
      apply list_elem_of_filter in Hx as [? ?]. done. }
  destruct strategy as [[]|]; [exact Hrob| | | | |exact Hrob].
  - destruct (decide (hw (instances e) = 0)) as [H0|H0].
    + unfold lb_weighted. rewrite total_weight_hw, H0 by done. split; [done|]. split; [done|].
      intros j Hj. destruct (healthy j) eqn:Hh; [|done]. pose proof (hw_pos _ _ Hw Hj Hh). destruct (Hconn j Hj Hh). lia.
    + pose proof (hw_nonneg _ Hw). unfold lb_weighted. rewrite total_weight_hw by done.
      destruct (Z.eqb_spec (hw (instances e)) 0); [done|]. rewrite random_below by lia.
      pose proof (Z.mod_pos_bound r (hw (instances e))).
      destruct (weighted_loop_some (instances e) (r mod hw (instances e)) 0) as [y Hy]; [done|lia..|]. rewrite Hy.
      destruct (weighted_loop_inv (instances e) (r mod hw (instances e)) 0 y Hw) as (l1 & l2 & He & Hh & _); [lia|lia|done|].
      split; [done|]. split; [rewrite He; set_solver|done].
  - unfold lb_least_connection, found.
    pose proof (least_select active_connections (instances e)) as H. destruct (least_loop _ _ _ _) as [i|].
    + destruct H as (H1 & H2 & H3); [|by split_and!]. intros j Hj Hh. destruct (Hconn j Hj Hh). unfold UINT32_MAX. lia.
    + split; [done|]. split; [done|]. apply H. intros j Hj Hh. destruct (Hconn j Hj Hh). unfold UINT32_MAX. lia.
  - unfold lb_random, healthy_count. set (q := filter (fun i => healthy i = true) (instances e)).
    assert (Hq : (length q <= length (instances e))%nat) by apply length_filter.
    destruct (Z.eqb_spec (Z.of_nat (length q)) 0) as [H0|H0].
    { split; [done|]. split; [done|]. apply no_healthy, nil_length_inv. fold q. lia. }
    rewrite random_below by lia. pose proof (Z.mod_pos_bound r (Z.of_nat (length q))).
    rewrite random_loop_nth, Z.sub_0_r by lia. fold q.
    destruct (lookup_lt_is_Some_2 q (Z.to_nat (r mod Z.of_nat (length q)))) as [x Hx]; [lia|]. rewrite Hx.
    apply list_elem_of_lookup_2, list_elem_of_filter in Hx as [? ?]. done.
  - unfold lb_least_load, found.
    pose proof (least_select load_of (instances e)) as H. destruct (least_loop _ _ _ _) as [i|].
    + destruct H as (H1 & H2 & H3); [|by split_and!]. intros j Hj Hh. by apply load_of_small, Hconn.
    + split; [done|]. split; [done|]. apply H. intros j Hj Hh. by apply load_of_small, Hconn.
Qed.

Definition rr_sample : sd_service_entry_t :=
  Entry (cs "db") [] [] [] [] 0
    [Inst (cs "a") [] 3 true 1 0 9 0 0 7; Inst (cs "b") [] 3 false 1 0 9 0 0 7; Inst (cs "c") [] 3 true 2 0 9 0 0 7]
    true 0.
Definition rr_state (rr : Z) : sd_internal_t := SD sd_create_default_config [] [] zero_stats true rr [].

Lemma round_robin_fair_witness :
  exists q rr', q ≡ₚ filter (fun i => healthy i = true) (instances rr_sample) /\
    rr_run (length q) rr_sample (rr_state 5) = (Some <$> q, set_rr rr' (rr_state 5)) /\
    (rr_run (length q) rr_sample (set_rr rr' (rr_state 5))).1 = Some <$> q.
Proof. apply (round_robin_fair rr_sample (rr_state 5)). done. Defined.

Lemma weighted_exact_witness :
  Z.of_nat (length (filter (fun r => lb_weighted r rr_sample = (AIRY_SUCCESS, Some (Inst (cs "c") [] 3 true 2 0 9 0 0 7)))
    (seqZ 0 (hw (instances rr_sample))))) = 2.
Proof.
  apply (weighted_exact rr_sample (Inst (cs "c") [] 3 true 2 0 9 0 0 7)); [|repeat constructor; simpl; lia|simpl; lia|simpl|done].
  - apply (bool_decide_unpack _). vm_compute. done.
  - right. right. left.
Defined.

(** ** One counter for all services *)

(** A client that selects an instance of one service and then of another. *)
Fixpoint alternate (n : nat) (e1 e2 : sd_service_entry_t) (sd : sd_internal_t) : list (option sd_instance_t) :=
  match n with
  | O => []
  | S n' =>
      let '(_, i, sd) := lb_round_robin e1 sd in let '(_, _, sd) := lb_round_robin e2 sd in
      i :: alternate n' e1 e2 sd
  end.

(** The counter is shared by the services: a client that selects in turn
    from a service with two healthy instances and from one with a single
    instance gets the second instance every time, and never the first. *)
Theorem shared_counter_starves n e1 e2 sd a b c :
  instances e1 = [a; b] -> instances e2 = [c] -> healthy a = true -> healthy b = true -> healthy c = true ->
  rr_counter sd = 1 -> alternate n e1 e2 sd = replicate n (Some b).
Proof.
  intros H1 H2 Ha Hb Hc. revert sd. induction n as [|n IH]; intros sd Hrr; [done|].
  assert (E1 : lb_round_robin e1 sd = (AIRY_SUCCESS, Some b, set_rr 2 sd)).
  { unfold lb_round_robin, instance_count. rewrite H1, Hrr.
    change (Z.to_nat (1 mod Z.of_nat (length [a; b]))) with 1%nat. cbn. by rewrite Hb. }
  assert (E2 : lb_round_robin e2 (set_rr 2 sd) = (AIRY_SUCCESS, Some c, set_rr 1 (set_rr 2 sd))).
  { unfold lb_round_robin, instance_count. rewrite H2.
    change (Z.to_nat (rr_counter (set_rr 2 sd) mod Z.of_nat (length [c]))) with 0%nat. cbn. by rewrite Hc. }
  cbn [alternate]. rewrite E1, E2. cbn [replicate]. f_equal. by apply IH.
Qed.

Definition sample_a : sd_instance_t := Inst (cs "a") [] 3 true 1 0 9 0 0 7.
Definition sample_b : sd_instance_t := Inst (cs "b") [] 3 true 1 0 9 0 0 7.

Lemma shared_counter_starves_witness :
  alternate 4 (Entry [] [] [] [] [] 0 [sample_a; sample_b] true 0) (Entry [] [] [] [] [] 0 [sample_a] true 0)
    (rr_state 1) = replicate 4 (Some sample_b).
Proof. apply (shared_counter_starves 4 _ _ _ sample_a sample_b sample_a); reflexivity. Defined.
