(* ===== verification/SdSpec.v ===== *)
(** * What service discovery promises

    The registry as a finite map from names to services, each with a finite map
    from identifiers to instances; expiry as a relation that lets each
    instance be judged at one of the clock's answers; and the refinement of
    every operation of the interface with the in-memory backend, for any
    sequence of operations. *)
From S2P Require Import Prelude CLib Keyed Sd SdBalance.

(** ** The abstract registry *)

Record svc := Svc { meta : sd_service_entry_t; insts : gmap cstr sd_instance_t }.

Definition imap (l : list sd_instance_t) : gmap cstr sd_instance_t := kmap instance_id (fun i => i) l.
Definition abs_entry (e : sd_service_entry_t) : svc := Svc (set_instances [] e) (imap (instances e)).
Definition abs (sd : sd_internal_t) : gmap cstr svc := kmap name abs_entry (services sd).

(** The invariant of a registry. *)
Definition entry_ok (e : sd_service_entry_t) : Prop :=
  keys_distinct instance_id (instances e) /\ (instance_count e <= SD_MAX_INSTANCES)%nat /\
  (length (name e) < SD_MAX_NAME_LEN)%nat.

Definition registry_ok (sd : sd_internal_t) : Prop :=
  keys_distinct name (services sd) /\ (service_count sd <= SD_MAX_SERVICES)%nat /\ Forall entry_ok (services sd).

(** ** Expiry *)

(** The instance is stale when the clock shows [t]. *)
Definition stale (ms t : Z) (i : sd_instance_t) : Prop := ms <> 0 /\ ms < u64 (t - last_heartbeat i).

#[export] Instance stale_dec ms t i : Decision (stale ms t i).
Proof. unfold stale. apply _. Defined.

Section sweeping.
Context (clk : nat -> Z).

Definition judged_stale (ms : Z) (i : sd_instance_t) : Prop := exists k, stale ms (clk k) i.
Definition judged_fresh (ms : Z) (i : sd_instance_t) : Prop := exists k, ~ stale ms (clk k) i.

(** The fate of a service: what is left of it, and the instances it lost. *)
Inductive swept (ms : Z) (e : sd_service_entry_t) : option sd_service_entry_t -> list sd_instance_t -> Prop :=
  | swept_keep l dead :
      instances e ≡ₚ l ++ dead -> Forall (judged_fresh ms) l -> Forall (judged_stale ms) dead ->
      (l <> [] \/ u64 (clk 0 - last_updated e) <= u32 (ms * 2)) ->
      swept ms e (Some (set_instances l e)) dead
  | swept_drop dead :
      instances e ≡ₚ dead -> Forall (judged_stale ms) dead -> u32 (ms * 2) < u64 (clk 0 - last_updated e) ->
      swept ms e None dead.

Lemma expired_judged i ms k :
  let '(b, k') := is_instance_expired clk i ms k in if b then judged_stale ms i else judged_fresh ms i.
Proof.
  unfold is_instance_expired. destruct (Z.eqb_spec ms 0) as [->|Hne].
  - exists k. by intros [? _].
  - destruct (Z.ltb_spec ms (u64 (clk k - last_heartbeat i))); exists k; [by split|]. intros [_ ?]. lia.
Qed.

(** Every instance from [j] on is judged once. *)
Lemma expire_instances_spec ms fuel k j l dead :
  (fuel + j = length l)%nat ->
  exists l' dead' k', expire_instances clk fuel ms k j l dead = (l', dead ++ dead', k') /\
    take j l' = take j l /\ drop j l ≡ₚ drop j l' ++ dead' /\
    Forall (judged_fresh ms) (drop j l') /\ Forall (judged_stale ms) dead'.
Proof.
  revert k j l dead. induction fuel as [|fuel IH]; intros k j l dead Hf; cbn [expire_instances].
  { exists l, [], k. rewrite !app_nil_r, !drop_ge by lia. done. }
  destruct (lookup_lt_is_Some_2 l j) as [i Hi]; [lia|]. rewrite Hi.
  pose proof (expired_judged i ms k) as Hj. destruct (is_instance_expired clk i ms k) as [[] k1].
  - pose proof (swap_remove_length l j) as Hlen.
    destruct (IH k1 j (swap_remove j l) (dead ++ [i])) as (l' & dead' & k' & -> & Ht & Hp & Hl & Hd); [lia|].
    exists l', ([i] ++ dead'), k'. rewrite <- app_assoc. split; [done|]. split_and!.
    + rewrite Ht. apply swap_remove_take. lia.
    + rewrite (swap_remove_drop _ _ _ Hi), Hp. cbn [app]. by rewrite Permutation_middle.
    + done.
    + by constructor.
  - destruct (IH k1 (S j) l dead) as (l' & dead' & k' & -> & Ht & Hp & Hl & Hd); [lia|].
    assert (Hi' : l' !! j = Some i).
    { rewrite <- (lookup_take_lt l' (S j) j), Ht, lookup_take_lt by lia. done. }
    exists l', dead', k'. split; [done|]. rewrite (drop_S _ _ _ Hi), (drop_S _ _ _ Hi'). split_and!; [|by rewrite Hp|by constructor|done].
    rewrite <- (Nat.min_l j (S j)), <- !take_take by lia. by rewrite Ht.
Qed.

Lemma expire_instances_all ms k e :
  exists l dead k', expire_instances clk (instance_count e) ms k 0 (instances e) [] = (l, dead, k') /\
    instances e ≡ₚ l ++ dead /\ Forall (judged_fresh ms) l /\ Forall (judged_stale ms) dead.
Proof.
  destruct (expire_instances_spec ms (instance_count e) k 0 (instances e) []) as (l & dead & k' & H & _ & Hp & Hl & Hd);
    [unfold instance_count; lia|]. rewrite !drop_0 in Hp. rewrite drop_0 in Hl. by exists l, dead, k'.
Qed.

(** The calls of the callbacks for the instances of a service that expired. *)
Definition expiry_calls (cbs : list (Z * Z)) (service : cstr) (dead : list sd_instance_t) : list sd_call :=
  concat ((fun i => (fun c => Call c SD_EVENT_EXPIRED service i) <$> cbs) <$> dead).

Lemma report_dead_trace service dead sd :
  report_dead service dead sd =
  add_trace (expiry_calls (callbacks sd) service dead) (upd_stats (add_expirations (length dead)) sd).
Proof.
  unfold report_dead. set (sd1 := upd_stats _ sd). change (callbacks sd) with (callbacks sd1). clearbody sd1. clear sd.
  revert sd1. induction dead as [|i dead IH]; intros sd; cbn [foldl].
  - unfold add_trace, expiry_calls. simpl. rewrite app_nil_r. by destruct sd.
  - rewrite IH. unfold notify_event, add_trace, expiry_calls. simpl. by rewrite <- app_assoc.
Qed.

(** The rest of the state does not change. *)
Definition same_rest (sd sd' : sd_internal_t) : Prop :=
  config sd' = config sd /\ callbacks sd' = callbacks sd /\ running sd' = running sd /\ rr_counter sd' = rr_counter sd.

Lemma drop_insert_here {A} (l : list A) i y : (i < length l)%nat -> drop i (<[i := y]> l) = y :: drop (S i) l.
Proof.
  intros Hi. rewrite (drop_S _ y) by (by rewrite list_lookup_insert_eq). by rewrite drop_insert_lt by lia.
Qed.

(** Each service is swept once. *)
Definition sweeps ms (rs : list (sd_service_entry_t * option sd_service_entry_t * list sd_instance_t)) : Prop :=
  Forall (fun r => swept ms r.1.1 r.1.2 r.2) rs.

Definition sweep_calls (cbs : list (Z * Z)) (rs : list (sd_service_entry_t * option sd_service_entry_t * list sd_instance_t)) : list sd_call :=
  concat ((fun r => expiry_calls cbs (name r.1.1) r.2) <$> rs).

Lemma expire_services_spec fuel k i changed sd :
  (i <= service_count sd)%nat -> (service_count sd - i <= fuel)%nat -> Z.of_nat (service_count sd) < 2 ^ 32 ->
  exists rs changed' sd', expire_services clk fuel (clk 0) k (Z.of_nat i) changed sd = Done (changed', sd') /\
    drop i (services sd) ≡ₚ rs.*1.*1 /\ sweeps (expire_timeout_ms (config sd)) rs /\
    services sd' ≡ₚ take i (services sd) ++ omap (fun r => r.1.2) rs /\
    trace sd' = trace sd ++ sweep_calls (callbacks sd) rs /\ same_rest sd sd'.
Proof.
  unfold service_count. revert k i changed sd. induction fuel as [|fuel IH]; intros k i changed sd Hi Hf Hb.
  { cbn [expire_services]. rewrite Nat2Z.id, lookup_ge_None_2 by lia. exists [], changed, sd.
    rewrite drop_ge, take_ge by lia. unfold sweep_calls. simpl. rewrite !app_nil_r. split_and!; try done. constructor. }
  cbn [expire_services]. rewrite Nat2Z.id. destruct (services sd !! i) as [e|] eqn:He.
  2:{ apply lookup_ge_None in He. exists [], changed, sd.
    rewrite drop_ge, take_ge by lia. unfold sweep_calls. simpl. rewrite !app_nil_r. split_and!; try done. constructor. }
  pose proof (lookup_lt_Some _ _ _ He) as Hlt. set (ms := expire_timeout_ms (config sd)).
  destruct (expire_instances_all ms k e) as (l & dead & k' & -> & Hp & Hl & Hd). rewrite report_dead_trace.
  set (sd1 := add_trace _ _). set (e1 := set_instances l e).
  assert (Hs1 : services sd1 = <[i := e1]> (services sd)) by done.
  assert (Hlen1 : length (services sd1) = length (services sd)) by (by rewrite Hs1, length_insert).
  case_match eqn:Hdrop.
  - apply andb_true_iff in Hdrop as [Hemp%Nat.eqb_eq%nil_length_inv Hold%Z.ltb_lt]. cbn in Hemp. subst l.
    replace (u32 (u32 (Z.of_nat i - 1) + 1)) with (Z.of_nat i).
    2:{ unfold u32. rewrite Zplus_mod_idemp_l, Z.sub_add, Z.mod_small; [done|lia]. }
    set (sd2 := set_services _ sd1). assert (Hs2 : services sd2 = swap_remove i (services sd1)) by done.
    assert (He1 : services sd1 !! i = Some e1) by (rewrite Hs1; by apply list_lookup_insert_eq).
    destruct (IH k' i true sd2) as (rs & ch & sd' & -> & Hp' & Hsw & Hs' & Ht & Hr);
      [rewrite Hs2, swap_remove_length, Hlen1; lia..|].
    exists ((e, None, dead) :: rs), ch, sd'. split; [done|]. split_and!; [| | | |done].
    + cbn [fmap list_fmap fst]. rewrite (drop_S _ _ _ He). constructor. rewrite <- Hp', Hs2.
      apply (Permutation_cons_inv (a := e1)). rewrite <- (swap_remove_drop _ _ _ He1), Hs1, drop_insert_here by lia. done.
    + constructor; [|done]. simpl. constructor; done.
    + rewrite Hs', Hs2. cbn [omap list_omap fst snd]. rewrite swap_remove_take by lia. by rewrite Hs1, take_insert_ge.
    + rewrite Ht. unfold sweep_calls. cbn. by rewrite <- app_assoc.
  - replace (u32 (Z.of_nat i + 1)) with (Z.of_nat (S i)) by (rewrite u32_small; lia).
    destruct (IH k' (S i) (changed || negb (bool_decide (dead = []))) sd1) as (rs & ch & sd' & -> & Hp' & Hsw & Hs' & Ht & Hr); [lia..|].
    exists ((e, Some e1, dead) :: rs), ch, sd'. split; [done|]. split_and!; [| | | |done].
    + cbn [fmap list_fmap fst]. rewrite (drop_S _ _ _ He). constructor. rewrite <- Hp', Hs1. by rewrite drop_insert_lt by lia.
    + constructor; [|done]. simpl. constructor; [done..|].
      apply andb_false_iff in Hdrop as [H%Nat.eqb_neq|H%Z.ltb_ge]; [left; intros ->; by apply H|by right].
    + rewrite Hs'. cbn [omap list_omap fst snd]. rewrite Hs1.
      rewrite (take_S_r _ _ e1) by (by apply list_lookup_insert_eq). rewrite take_insert_ge by lia. by rewrite <- app_assoc.
    + rewrite Ht. unfold sweep_calls. cbn. by rewrite <- app_assoc.
Qed.

End sweeping.

(** ** The abstract operations *)

Section specification.
Context (clk : nat -> Z).

(** What expiry may do to a service. *)
Definition expired_svc (ms : Z) (s : svc) (o : option svc) : Prop :=
  match o with
  | Some s' =>
      meta s' = meta s /\ insts s' ⊆ insts s /\ map_Forall (fun _ => judged_fresh clk ms) (insts s') /\
      map_Forall (fun id i => insts s' !! id = None -> judged_stale clk ms i) (insts s) /\
      (insts s' <> ∅ \/ u64 (clk 0 - last_updated (meta s)) <= u32 (ms * 2))
  | None =>
      map_Forall (fun _ => judged_stale clk ms) (insts s) /\
      u32 (ms * 2) < u64 (clk 0 - last_updated (meta s))
  end.

Definition expires_to (ms : Z) (R R' : gmap cstr svc) : Prop :=
  forall n, match R !! n with None => R' !! n = None | Some s => expired_svc ms s (R' !! n) end.

Definition put_spec (getpid : Z) (k : nat) (i : sd_instance_t) (s : svc) : option svc :=
  match insts s !! instance_id i with
  | Some _ =>
      let i := set_heartbeat (clk k) i in
      if 0 <? register_time i
      then Some (Svc (set_last_updated (clk (S k)) (meta s)) (<[instance_id i := i]> (insts s)))
      else Some (Svc (set_last_updated (clk (S (S k))) (meta s))
                   (<[instance_id i := set_register_time (clk (S k)) i]> (insts s)))
  | None =>
      if (SD_MAX_INSTANCES <=? size (insts s))%nat then None
      else Some (Svc (set_last_updated (clk (S (S k))) (meta s))
                   (<[instance_id i := set_pid getpid (set_register_time (clk (S k)) (set_heartbeat (clk k) i))]>
                      (insts s)))
  end.

Definition spec_register (getpid : Z) (n ty : cstr) (i : sd_instance_t) (tg deps : option cstr) (R : gmap cstr svc)
    : Z * gmap cstr svc :=
  let '(k, s) := match R !! n with
                 | Some s => (0%nat, Some s)
                 | None => (1%nat, if (SD_MAX_SERVICES <=? size R)%nat then None
                                   else Some (Svc (new_entry n ty tg deps (clk 0)) ∅))
                 end in
  match s ≫= put_spec getpid k i with
  | Some s => (AIRY_SUCCESS, <[n := s]> R)
  | None => (AIRY_ENOMEM, R)
  end.

(** Changing one instance and the service around it. *)
Definition spec_update (n id : cstr) (f : svc -> sd_instance_t -> svc) (R : gmap cstr svc) : Z * gmap cstr svc :=
  match s ← R !! n; i ← insts s !! id; Some (f s i) with
  | Some s => (AIRY_SUCCESS, <[n := s]> R)
  | None => (AIRY_ENOENT, R)
  end.

Definition put_inst (f : sd_instance_t -> sd_instance_t) (s : svc) (i : sd_instance_t) : svc :=
  Svc (meta s) (<[instance_id i := f i]> (insts s)).

Definition spec_deregister (n id : cstr) : gmap cstr svc -> Z * gmap cstr svc :=
  spec_update n id (fun s i => Svc (set_last_updated (clk 0) (meta s)) (delete id (insts s))).

Definition spec_deregister_all (n : cstr) (R : gmap cstr svc) : Z * gmap cstr svc :=
  match R !! n with
  | Some s => (AIRY_SUCCESS, <[n := Svc (set_last_updated (clk 0) (meta s)) ∅]> R)
  | None => (AIRY_ENOENT, R)
  end.

Definition spec_heartbeat (n id : cstr) : gmap cstr svc -> Z * gmap cstr svc :=
  spec_update n id (put_inst (set_heartbeat (clk 0))).

Definition spec_health (n id : cstr) (h : bool) : gmap cstr svc -> Z * gmap cstr svc :=
  spec_update n id (fun s i => Svc (set_last_updated (clk 1) (meta s))
                                 (<[instance_id i := set_heartbeat (clk 0) (set_healthy h i)]> (insts s))).

Definition spec_connections (n id : cstr) (c : Z) : gmap cstr svc -> Z * gmap cstr svc :=
  spec_update n id (put_inst (set_active_connections c)).

(** The answer to a query for the healthy instances of a service: as many as
    fit, in some order. *)
Definition spec_found (n : cstr) (max_count : nat) (R : gmap cstr svc) (rc : Z) (found : list sd_instance_t) : Prop :=
  match R !! n with
  | None => rc = AIRY_ENOENT /\ found = []
  | Some s => rc = AIRY_SUCCESS /\
      exists l, l ≡ₚ (map_to_list (insts s)).*2 /\ found = take max_count (filter (fun i => healthy i = true) l)
  end.

End specification.

(** ** Reading the arrays as maps *)

Lemma copy_if_take {A} (f : A -> bool) l max :
  copy_if f l max = take max (filter (fun x => f x = true) l).
Proof.
  revert max. induction l as [|x l IH]; intros [|max]; try done. cbn [copy_if]. rewrite filter_cons, !IH.
  destruct (f x); [by rewrite decide_True|by rewrite decide_False].
Qed.

Lemma find_service_spec sd n : registry_ok sd ->
  match find_service_index sd n with
  | Some idx => exists e, services sd !! idx = Some e /\ name e = n /\ entry_ok e /\ abs sd !! n = Some (abs_entry e)
  | None => (n ∉ name <$> services sd) /\ abs sd !! n = None
  end.
Proof.
  intros (Hn & _ & Hall). unfold find_service_index, abs.
  pose proof (index_of_key name abs_entry (services sd) n Hn) as H. destruct (index_of _ _) as [idx|]; [|done].
  destruct H as (e & He & Hname & Ha). exists e. split_and!; [done|done| |done].
  by apply (Forall_lookup_1 _ _ _ _ Hall He).
Qed.

Lemma find_instance_spec e id : entry_ok e ->
  match find_instance_index e id with
  | Some j => exists i, instances e !! j = Some i /\ instance_id i = id /\ imap (instances e) !! id = Some i
  | None => (id ∉ instance_id <$> instances e) /\ imap (instances e) !! id = None
  end.
Proof. intros (Hn & _). apply (index_of_key instance_id (fun x => x) (instances e) id Hn). Qed.

(** Writing an entry back. *)
Lemma write_entry sd idx e e' :
  registry_ok sd -> services sd !! idx = Some e -> name e' = name e -> entry_ok e' ->
  registry_ok (set_services (<[idx := e']> (services sd)) sd) /\
  abs (set_services (<[idx := e']> (services sd)) sd) = <[name e := abs_entry e']> (abs sd).
Proof.
  intros (Hn & Hc & Hall) He Hname Hok. split.
  - split_and!; simpl.
    + by eapply keys_distinct_insert.
    + unfold service_count. simpl. by rewrite length_insert.
    + by apply Forall_insert.
  - unfold abs. simpl. by apply kmap_insert.
Qed.

(** Appending an entry. *)
Lemma append_entry sd e :
  registry_ok sd -> (name e ∉ name <$> services sd) -> (service_count sd < SD_MAX_SERVICES)%nat -> entry_ok e ->
  registry_ok (set_services (services sd ++ [e]) sd) /\
  abs (set_services (services sd ++ [e]) sd) = <[name e := abs_entry e]> (abs sd).
Proof.
  intros (Hn & Hc & Hall) Hname Hlt Hok. split.
  - split_and!; simpl.
    + by apply keys_distinct_snoc.
    + unfold service_count in *. simpl. rewrite length_app. simpl. lia.
    + apply Forall_app. split; [done|]. by constructor.
  - unfold abs. simpl. by apply kmap_snoc.
Qed.

Lemma abs_size sd : registry_ok sd -> size (abs sd) = service_count sd.
Proof. intros (Hn & _). by apply kmap_size. Qed.

Lemma imap_size e : entry_ok e -> size (imap (instances e)) = instance_count e.
Proof. intros (Hn & _). by apply kmap_size. Qed.

Lemma imap_insert e j i i' :
  entry_ok e -> instances e !! j = Some i -> instance_id i' = instance_id i ->
  imap (<[j := i']> (instances e)) = <[instance_id i := i']> (imap (instances e)).
Proof. intros (Hn & _) Hj Hid. by apply kmap_insert. Qed.

(** An entry with one instance replaced. *)
Lemma entry_ok_insert e j i i' t :
  entry_ok e -> instances e !! j = Some i -> instance_id i' = instance_id i ->
  entry_ok (set_last_updated t (set_instances (<[j := i']> (instances e)) e)).
Proof.
  intros (Hn & Hc & Hl) Hj Hid. split_and!; [by eapply keys_distinct_insert| |done].
  unfold instance_count in *. simpl. by rewrite length_insert.
Qed.

Lemma put_refines clk getpid k i e :
  entry_ok e ->
  match put_instance clk getpid k i e with
  | None => put_spec clk getpid k i (abs_entry e) = None
  | Some (l, k') =>
      let e' := set_last_updated (clk k') (set_instances l e) in
      entry_ok e' /\ put_spec clk getpid k i (abs_entry e) = Some (abs_entry e')
  end.
Proof.
  intros Hok. unfold put_instance, put_spec. cbn [insts abs_entry].
  pose proof (find_instance_spec e (instance_id i) Hok) as H. destruct (find_instance_index e (instance_id i)) as [j|].
  - destruct H as (i0 & Hj & Hid & ->). cbv zeta.
    destruct (0 <? register_time (set_heartbeat (clk k) i)); (split; [by eapply entry_ok_insert|]);
      unfold abs_entry; cbn [instances set_last_updated set_instances];
      rewrite (imap_insert e j i0) by done; by rewrite Hid.
  - destruct H as (Hid & ->). rewrite imap_size by done.
    destruct (SD_MAX_INSTANCES <=? instance_count e)%nat eqn:E; [done|]. apply Nat.leb_gt in E.
    destruct Hok as (Hn & Hc & Hl). split.
    + split_and!; [by apply keys_distinct_snoc| |done]. unfold instance_count in *. simpl. rewrite length_app. simpl. lia.
    + unfold abs_entry. cbn [instances set_last_updated set_instances]. unfold imap. by rewrite kmap_snoc.
Qed.

Lemma strcpy_cut_short size s : (length s < size)%nat -> strcpy_cut size s = s.
Proof. intros H. unfold strcpy_cut. rewrite take_ge; [done|lia]. Qed.

Lemma add_instance_refines clk getpid n ty i tg deps sd :
  registry_ok sd -> (length n < SD_MAX_NAME_LEN)%nat ->
  let '(rc, sd') := sd_registry_add_instance clk getpid n ty i tg deps sd in
  registry_ok sd' /\ spec_register clk getpid n ty i tg deps (abs sd) = (rc, abs sd').
Proof.
  intros Hok Hlen. unfold sd_registry_add_instance, spec_register, find_or_add.
  pose proof (find_service_spec sd n Hok) as H. destruct (find_service_index sd n) as [idx|].
  - destruct H as (e & He & Hname & Heok & ->). rewrite He. cbn [mbind option_bind].
    pose proof (put_refines clk getpid 0 i e Heok) as Hput. destruct (put_instance clk getpid 0 i e) as [[l k]|].
    2:{ by rewrite Hput. }
    destruct Hput as (Heok' & ->). cbv zeta.
    destruct (write_entry sd idx e (set_last_updated (clk k) (set_instances l e)) Hok He eq_refl Heok') as (Hok' & Habs). split; [exact Hok'|].
    change (abs (upd_stats ?f ?x)) with (abs x). rewrite Habs. by rewrite Hname.
  - destruct H as (Hnot & ->). rewrite abs_size by done.
    destruct (SD_MAX_SERVICES <=? service_count sd)%nat eqn:E; [done|]. apply Nat.leb_gt in E.
    set (e := new_entry n ty tg deps (clk 0%nat)).
    assert (Hname : name e = n) by (by apply strcpy_cut_short).
    assert (Heok : entry_ok e).
    { split_and!; [constructor|unfold instance_count; simpl; lia|by rewrite Hname]. }
    destruct (append_entry sd e Hok) as (Hok1 & Habs1); [by rewrite Hname|done|done|].
    cbn [mbind option_bind].
    assert (Hidx : (services sd ++ [e]) !! service_count sd = Some e)
      by (unfold service_count; by rewrite lookup_app_r, Nat.sub_diag by lia).
    change (services (upd_stats ?f (set_services ?l sd))) with l. rewrite Hidx.
    pose proof (put_refines clk getpid 1 i e Heok) as Hput. destruct (put_instance clk getpid 1 i e) as [[l k]|] eqn:Hpi.
    2:{ done. }
    destruct Hput as (Heok' & Hput). change (Svc e ∅) with (abs_entry e). rewrite Hput. cbv zeta.
    destruct (write_entry _ (service_count sd) e (set_last_updated (clk k) (set_instances l e)) Hok1 Hidx eq_refl Heok') as (Hok' & Habs). split; [exact Hok'|].
    change (services (set_services ?l sd)) with l in Habs.
    change (abs (upd_stats ?f ?x)) with (abs x).
    change (abs (set_services ?l (upd_stats ?f (set_services ?l2 sd)))) with (abs (set_services l (set_services l2 sd))).
    rewrite Habs, Habs1, Hname. by rewrite insert_insert_eq.
Qed.

Lemma find_both_spec sd n id :
  registry_ok sd ->
  match find_both sd n id with
  | Some (idx, e, j, i) =>
      services sd !! idx = Some e /\ name e = n /\ entry_ok e /\ instances e !! j = Some i /\ instance_id i = id /\
      abs sd !! n = Some (abs_entry e) /\ imap (instances e) !! id = Some i
  | None => (s ← abs sd !! n; insts s !! id) = None
  end.
Proof.
  intros Hok. unfold find_both. pose proof (find_service_spec sd n Hok) as H.
  destruct (find_service_index sd n) as [idx|]; cbn [mbind option_bind].
  2:{ destruct H as [_ ->]. done. }
  destruct H as (e & He & Hname & Heok & Ha). rewrite He, Ha. cbn [mbind option_bind].
  pose proof (find_instance_spec e id Heok) as H. destruct (find_instance_index e id) as [j|]; cbn [mbind option_bind].
  - destruct H as (i & Hj & Hid & Hi). rewrite Hj. cbn [mbind option_bind]. split_and!; done.
  - by destruct H as [_ H].
Qed.

(** An update of one instance through its place. *)
Lemma update_refines sd n id (f : svc -> sd_instance_t -> svc) (g : sd_service_entry_t -> nat -> sd_instance_t -> sd_service_entry_t) :
  registry_ok sd ->
  (forall e j i, entry_ok e -> instances e !! j = Some i -> instance_id i = id ->
     name (g e j i) = name e /\ entry_ok (g e j i) /\ f (abs_entry e) i = abs_entry (g e j i)) ->
  match find_both sd n id with
  | Some (idx, e, j, i) =>
      let sd' := set_services (<[idx := g e j i]> (services sd)) sd in
      registry_ok sd' /\ spec_update n id f (abs sd) = (AIRY_SUCCESS, abs sd')
  | None => spec_update n id f (abs sd) = (AIRY_ENOENT, abs sd)
  end.
Proof.
  intros Hok Hg. pose proof (find_both_spec sd n id Hok) as H. unfold spec_update.
  destruct (find_both sd n id) as [[[[idx e] j] i]|].
  - destruct H as (He & Hname & Heok & Hj & Hid & Ha & Hi). destruct (Hg e j i Heok Hj Hid) as (Hgn & Hgok & Hf).
    destruct (write_entry sd idx e (g e j i) Hok He Hgn Hgok) as [Hok' Habs]. split; [done|].
    rewrite Ha. cbn [mbind option_bind insts abs_entry]. rewrite Hi. cbn [mbind option_bind].
    rewrite Habs. change (Svc (set_instances [] e) (imap (instances e))) with (abs_entry e). by rewrite Hf, Hname.
  - destruct (abs sd !! n) as [s|]; [|done]. cbn [mbind option_bind] in H |- *. by rewrite H.
Qed.

Lemma remove_refines clk n id sd :
  registry_ok sd ->
  let '(rc, sd') := sd_registry_remove_instance clk n id sd in
  registry_ok sd' /\ spec_deregister clk n id (abs sd) = (rc, abs sd').
Proof.
  intros Hok. unfold sd_registry_remove_instance, spec_deregister.
  pose proof (update_refines sd n id (fun s i => Svc (set_last_updated (clk 0%nat) (meta s)) (delete id (insts s)))
    (fun e j i => set_last_updated (clk 0%nat) (set_instances (swap_remove j (instances e)) e)) Hok) as H.
  destruct (find_both sd n id) as [[[[idx e] j] i]|]; [|split; [done|]]; apply H.
  all: clear; intros e j i (Hn & Hc & Hl) Hj Hid; split; [done|]; split.
  1, 3: split_and!; [by eapply keys_distinct_swap_remove| |done]; unfold instance_count in *; simpl; rewrite swap_remove_length; lia.
  all: unfold abs_entry; cbn [meta insts instances set_last_updated set_instances]; unfold imap;
    rewrite (kmap_swap_remove instance_id (fun i => i) _ _ i) by done; by rewrite Hid.
Qed.

Lemma deregister_all_refines clk n sd m :
  registry_ok sd ->
  let '(rc, sd', _) := shm_deregister_all clk n sd m in
  registry_ok sd' /\ spec_deregister_all clk n (abs sd) = (rc, abs sd').
Proof.
  intros Hok. unfold shm_deregister_all, spec_deregister_all. pose proof (find_service_spec sd n Hok) as H.
  destruct (find_service_index sd n) as [idx|]; [|by destruct H as [_ ->]].
  destruct H as (e & He & Hname & (_ & _ & Hl) & ->).
  rewrite (alter_as_insert _ _ _ _ He).
  destruct (write_entry sd idx e (set_last_updated (clk 0%nat) (set_instances [] e)) Hok He eq_refl) as [Hok' Habs].
  { split_and!; [constructor|unfold instance_count; simpl; lia|done]. }
  split; [done|]. rewrite Habs. by rewrite Hname.
Qed.

(** The operations that write one instance back. *)
Lemma write_inst_refines sd n id (f : sd_instance_t -> sd_instance_t) :
  registry_ok sd -> (forall i, instance_id (f i) = instance_id i) ->
  match find_both sd n id with
  | Some (idx, e, j, i) =>
      registry_ok (write_ref idx j e (f i) sd) /\
      spec_update n id (put_inst f) (abs sd) = (AIRY_SUCCESS, abs (write_ref idx j e (f i) sd))
  | None => spec_update n id (put_inst f) (abs sd) = (AIRY_ENOENT, abs sd)
  end.
Proof.
  intros Hok Hf. apply (update_refines sd n id (put_inst f)
    (fun e j i => set_instances (<[j := f i]> (instances e)) e) Hok).
  intros e j i Heok Hj Hid. split; [done|]. split; [exact (entry_ok_insert e j i (f i) 0 Heok Hj (Hf i))|].
  unfold put_inst, abs_entry. cbn [meta insts instances set_instances]. by rewrite (imap_insert e j i).
Qed.

Lemma write_health_refines sd n id h t0 t1 :
  registry_ok sd ->
  match find_both sd n id with
  | Some (idx, e, j, i) =>
      let sd' := write_ref idx j (set_last_updated t1 e) (set_heartbeat t0 (set_healthy h i)) sd in
      registry_ok sd' /\
      spec_update n id (fun s i => Svc (set_last_updated t1 (meta s))
        (<[instance_id i := set_heartbeat t0 (set_healthy h i)]> (insts s))) (abs sd) = (AIRY_SUCCESS, abs sd')
  | None => spec_update n id (fun s i => Svc (set_last_updated t1 (meta s))
        (<[instance_id i := set_heartbeat t0 (set_healthy h i)]> (insts s))) (abs sd) = (AIRY_ENOENT, abs sd)
  end.
Proof.
  intros Hok. apply (update_refines sd n id
    (fun s i => Svc (set_last_updated t1 (meta s)) (<[instance_id i := set_heartbeat t0 (set_healthy h i)]> (insts s)))
    (fun e j i => set_instances (<[j := set_heartbeat t0 (set_healthy h i)]> (instances e)) (set_last_updated t1 e)) Hok).
  intros e j i Heok Hj Hid. split; [done|].
  split; [exact (entry_ok_insert e j i (set_heartbeat t0 (set_healthy h i)) 0 Heok Hj eq_refl)|].
  unfold abs_entry. cbn [meta insts instances set_instances set_last_updated]. by rewrite (imap_insert e j i).
Qed.

(** ** Expiry on the map *)

Lemma swept_name clk ms e e' dead : swept clk ms e (Some e') dead -> name e' = name e.
Proof. by inversion 1. Qed.

Lemma swept_ok clk ms e e' dead : entry_ok e -> swept clk ms e (Some e') dead -> entry_ok e'.
Proof.
  intros (Hn & Hc & Hl). inversion 1 as [l dd Hp H1 H2 H3|]; subst. split_and!; [| |done].
  - apply (keys_distinct_perm _ _ _ Hp) in Hn. unfold keys_distinct in *. rewrite fmap_app in Hn.
    by apply NoDup_app in Hn as [Hn _].
  - unfold instance_count in *. rewrite Hp, length_app in Hc. simpl. lia.
Qed.

Lemma sweeps_names clk ms rs :
  sweeps clk ms rs -> name <$> omap (fun r => r.1.2) rs `sublist_of` name <$> rs.*1.*1.
Proof.
  induction 1 as [|[[e o] dead] rs Hr _ IH]; [done|]. cbn in *. destruct o as [e'|]; [|by constructor].
  cbn. rewrite (swept_name _ _ _ _ _ Hr). by constructor.
Qed.

Lemma sweeps_registry_ok clk ms sd sd' rs :
  registry_ok sd -> services sd ≡ₚ rs.*1.*1 -> sweeps clk ms rs -> services sd' ≡ₚ omap (fun r => r.1.2) rs ->
  registry_ok sd'.
Proof.
  intros (Hn & Hc & Hall) Hp Hs Hp'. pose proof (sweeps_names _ _ _ Hs) as Hsub.
  assert (Hn' : NoDup (name <$> rs.*1.*1)) by (rewrite <- Hp; exact Hn).
  split_and!.
  - apply (keys_distinct_perm _ _ _ (symmetry Hp')). unfold keys_distinct. by eapply sublist_NoDup.
  - unfold service_count in *. rewrite Hp'. apply sublist_length in Hsub. rewrite !length_fmap in Hsub.
    rewrite Hp, !length_fmap in Hc. lia.
  - rewrite Hp'. apply Forall_forall. intros e' He'. apply list_elem_of_omap in He' as ([[e o] dead] & Hr & Ho).
    simpl in Ho. subst o. rewrite Hp in Hall. rewrite Forall_forall in Hall.
    unfold sweeps in Hs. rewrite Forall_forall in Hs. specialize (Hs _ Hr). simpl in Hs.
    eapply swept_ok; [|exact Hs]. apply Hall. apply list_elem_of_fmap. exists (e, Some e'). split; [done|].
    apply list_elem_of_fmap. by exists (e, Some e', dead).
Qed.

(** What a sweep does to the entry is what expiry may do to the service. *)
Lemma swept_expired clk ms e o dead :
  entry_ok e -> swept clk ms e o dead -> expired_svc clk ms (abs_entry e) (abs_entry <$> o).
Proof.
  intros Hok Hs. assert (Hn := proj1 Hok).
  destruct Hs as [l dead Hp Hl Hd Hold|dead Hp Hd Hold]; unfold expired_svc; cbn [fmap option_fmap option_map].
  - assert (Hok' : entry_ok (set_instances l e)) by (eapply swept_ok; [exact Hok|by econstructor]).
    assert (Hnl := proj1 Hok' : keys_distinct instance_id l). cbn [abs_entry meta insts instances set_instances].
    assert (Hin : forall i, i ∈ instances e <-> i ∈ l \/ i ∈ dead) by (intros i; by rewrite Hp, elem_of_app).
    split; [done|]. split; [|split; [|split]].
    + apply map_subseteq_spec. intros k v (i & Hi & Hk & Hv)%kmap_lookup_Some; [|done].
      apply kmap_lookup_Some; [done|]. exists i. split; [apply Hin; by left|done].
    + intros k v (i & Hi & Hk & <-)%kmap_lookup_Some; [|done]. rewrite Forall_forall in Hl. by apply Hl.
    + intros k v (i & Hi & Hk & <-)%kmap_lookup_Some Hnone; [|done].
      apply Hin in Hi as [Hi|Hi]; [|rewrite Forall_forall in Hd; by apply Hd].
      rewrite <- Hk in Hnone. unfold imap in Hnone. rewrite (kmap_lookup instance_id (fun i => i) l i) in Hnone by done. done.
    + destruct Hold as [Hne|Hold]; [left|by right]. intros Hemp. destruct l as [|i l]; [done|].
      pose proof (kmap_lookup instance_id (fun i => i) (i :: l) i Hnl ltac:(by left)) as Hi. unfold imap in Hemp. by rewrite Hemp in Hi.
  - split; [|done]. intros k v (i & Hi & Hk & <-)%kmap_lookup_Some; [|done]. rewrite Hp in Hi.
    rewrite Forall_forall in Hd. by apply Hd.
Qed.

Lemma sweeps_expire clk ms sd sd' rs :
  registry_ok sd -> services sd ≡ₚ rs.*1.*1 -> sweeps clk ms rs -> services sd' ≡ₚ omap (fun r => r.1.2) rs ->
  expires_to clk ms (abs sd) (abs sd').
Proof.
  intros Hok Hp Hs Hp' n. pose proof (sweeps_registry_ok _ _ _ _ _ Hok Hp Hs Hp') as Hok'.
  destruct Hok as (Hn & _ & Hall). destruct Hok' as (Hn' & _ & _).
  unfold sweeps in Hs. rewrite Forall_forall in Hs. rewrite Forall_forall in Hall.
  assert (Hfst : forall e o d, (e, o, d) ∈ rs -> e ∈ services sd).
  { intros e o d Hr. rewrite Hp. apply list_elem_of_fmap. exists (e, o). split; [done|].
    apply list_elem_of_fmap. by exists (e, o, d). }
  destruct (abs sd !! n) as [s|] eqn:Hsn.
  - apply kmap_lookup_Some in Hsn as (e & He & Hname & <-); [|done].
    assert (Hr : exists o d, (e, o, d) ∈ rs).
    { rewrite Hp in He. apply list_elem_of_fmap in He as ([e0 o] & -> & He).
      apply list_elem_of_fmap in He as ([[e1 o1] d] & [= -> ->] & He). by exists o1, d. }
    destruct Hr as (o & d & Hr). pose proof (Hs _ Hr) as Hsw. simpl in Hsw.
    replace (abs sd' !! n) with (abs_entry <$> o); [by apply (swept_expired _ _ _ _ d); [apply Hall|]|].
    symmetry. destruct o as [e'|]; cbn [fmap option_fmap option_map].
    + apply kmap_lookup_Some; [done|]. exists e'. split; [rewrite Hp'; apply list_elem_of_omap; by eexists|].
      split; [|done]. rewrite <- Hname. by apply (swept_name _ _ _ _ _ Hsw).
    + apply kmap_lookup_None. intros (e2 & Hname2 & He2)%list_elem_of_fmap. rewrite Hp' in He2.
      apply list_elem_of_omap in He2 as ([[e3 o3] d3] & Hr3 & Ho3). simpl in Ho3. subst o3.
      pose proof (Hs _ Hr3) as Hsw3. simpl in Hsw3. pose proof (swept_name _ _ _ _ _ Hsw3) as Hn3.
      assert (Hnd : NoDup (name <$> rs.*1.*1)) by (rewrite <- Hp; exact Hn).
      apply list_elem_of_lookup in Hr as [p Hr]. apply list_elem_of_lookup in Hr3 as [p3 Hr3].
      assert (Hpp : p = p3).
      { apply (NoDup_lookup _ _ _ n Hnd); rewrite !list_lookup_fmap; [rewrite Hr|rewrite Hr3]; simpl; congruence. }
      subst p3. congruence.
  - apply kmap_lookup_None in Hsn. apply kmap_lookup_None. intros (e' & -> & He')%list_elem_of_fmap. apply Hsn.
    rewrite Hp' in He'. apply list_elem_of_omap in He' as ([[e o] d] & Hr & Ho). simpl in Ho. subst o.
    pose proof (Hs _ Hr) as Hsw. simpl in Hsw. rewrite (swept_name _ _ _ _ _ Hsw).
    apply list_elem_of_fmap. exists e. split; [done|]. by eapply Hfst.
Qed.

(** A property of the instances of a service that a part of them inherits. *)
Lemma sweeps_inherit clk ms rs l l' (P : list sd_instance_t -> Prop) :
  (forall l1 l2, l1 ≡ₚ l2 -> P l1 -> P l2) -> (forall l1 l2, P (l1 ++ l2) -> P l1) ->
  l ≡ₚ rs.*1.*1 -> sweeps clk ms rs -> l' ≡ₚ omap (fun r => r.1.2) rs ->
  Forall (fun e => P (instances e)) l -> Forall (fun e => P (instances e)) l'.
Proof.
  intros Hperm Happ Hp Hs Hp'. rewrite Hp, Hp'. clear Hp Hp' l l'.
  induction Hs as [|[[e o] dead] rs Hr _ IH]; intros H; [constructor|]. cbn in *. apply Forall_cons in H as [He H].
  destruct Hr as [l dd Hp _ _ _|dd _ _ _]; cbn; [constructor|]; auto. simpl. apply (Happ l dd). by apply (Hperm (instances e)).
Qed.

(** ** Backends that keep the registry in memory *)

(** What the operations need of a backend: it works on the registry with the
    operations of the core, and a refresh or a commit does not change it. *)
Class PlainBackend {M} (B : sd_backend M) : Prop := {
  plain_register clk getpid n ty i tg deps sd m :
    (register_service B clk getpid n ty i tg deps sd m).1 = sd_registry_add_instance clk getpid n ty i tg deps sd;
  plain_deregister clk n id sd m :
    (deregister_service B clk n id sd m).1 = sd_registry_remove_instance clk n id sd;
  plain_deregister_all clk n sd m : (deregister_all B clk n sd m).1 = (shm_deregister_all clk n sd tt).1;
  plain_refresh n sd m : (refresh B n sd m).1 = sd;
  plain_commit n sd m : (commit B n sd m).1 = sd;
}.

#[export] Instance shm_plain : PlainBackend sd_backend_shm.
Proof. split; intros; try done. by destruct m. Qed.

Inductive sd_op :=
  | Register (getpid : Z) (n ty : cstr) (i : sd_instance_t) (tg deps : option cstr)
  | Deregister (n id : cstr)
  | DeregisterAll (n : cstr)
  | Discover (n : cstr) (max_count : nat)
  | Heartbeat (n id : cstr)
  | UpdateHealth (n id : cstr) (h : bool)
  | UpdateConnections (n id : cstr) (c : Z).

Definition op_wf (o : sd_op) : Prop :=
  match o with Register _ n _ _ _ _ => (length n < SD_MAX_NAME_LEN)%nat | _ => True end.

Definition out : Type := Z * list sd_instance_t.

(** The abstract step: an operation that returns no instances is a function of
    the map; a query may expire instances first. *)
Definition determined (x : Z * gmap cstr svc) (r : out) (R' : gmap cstr svc) : Prop := r = (x.1, []) /\ R' = x.2.

Definition spec_expire (cfg : sd_config_t) (clk : nat -> Z) (R R' : gmap cstr svc) : Prop :=
  if enable_auto_expire cfg then expires_to clk (expire_timeout_ms cfg) R R' else R' = R.

Definition spec_step (cfg : sd_config_t) (clk : nat -> Z) (o : sd_op) (R : gmap cstr svc) (r : out)
    (R' : gmap cstr svc) : Prop :=
  match o with
  | Register getpid n ty i tg deps => determined (spec_register clk getpid n ty i tg deps R) r R'
  | Deregister n id => determined (spec_deregister clk n id R) r R'
  | DeregisterAll n => determined (spec_deregister_all clk n R) r R'
  | Discover n max => spec_expire cfg clk R R' /\ spec_found n max R' r.1 r.2
  | Heartbeat n id => determined (spec_heartbeat clk n id R) r R'
  | UpdateHealth n id h => determined (spec_health clk n id h R) r R'
  | UpdateConnections n id c => determined (spec_connections n id c R) r R'
  end.

Inductive spec_run (cfg : sd_config_t) : list ((nat -> Z) * sd_op) -> gmap cstr svc -> list out -> gmap cstr svc -> Prop :=
  | spec_run_nil R : spec_run cfg [] R [] R
  | spec_run_cons clk o ops R r R1 rs R2 :
      spec_step cfg clk o R r R1 -> spec_run cfg ops R1 rs R2 -> spec_run cfg ((clk, o) :: ops) R (r :: rs) R2.

Section refinement.
Context {M : Type} (B : sd_backend M) `{!PlainBackend B}.

Definition quiet_out (r : Z * world (M := M)) : res (out * world (M := M)) := Done (r.1, [], r.2).

Definition sd_step (clk : nat -> Z) (o : sd_op) (w : world) : res (out * world) :=
  match o with
  | Register getpid n ty i tg deps => quiet_out (sd_register B clk getpid (Some n) (Some ty) (Some i) tg deps w)
  | Deregister n id => quiet_out (sd_deregister B clk (Some n) (Some id) w)
  | DeregisterAll n => quiet_out (sd_deregister_all B clk (Some n) w)
  | Discover n max =>
      rbind (sd_discover B clk (Some n) true max w) (fun '(rc, found, w) => Done (rc, default [] found, w))
  | Heartbeat n id => quiet_out (sd_heartbeat B clk (Some n) (Some id) w)
  | UpdateHealth n id h => quiet_out (sd_update_health B clk (Some n) (Some id) h w)
  | UpdateConnections n id c => quiet_out (sd_update_connections B (Some n) (Some id) c w)
  end.

Fixpoint sd_run (ops : list ((nat -> Z) * sd_op)) (w : world) : res (list out * world) :=
  match ops with
  | [] => Done ([], w)
  | (clk, o) :: ops' =>
      rbind (sd_step clk o w) (fun '(r, w) => rbind (sd_run ops' w) (fun '(rs, w) => Done (r :: rs, w)))
  end.

Lemma expire_refines clk sd m :
  registry_ok sd ->
  exists sd' m', expire_stale_instances B clk (sd, m) = Done (sd', m') /\ registry_ok sd' /\ config sd' = config sd /\
    rr_counter sd' = rr_counter sd /\ spec_expire (config sd) clk (abs sd) (abs sd') /\
    (forall P : list sd_instance_t -> Prop, (forall l1 l2, l1 ≡ₚ l2 -> P l1 -> P l2) -> (forall l1 l2, P (l1 ++ l2) -> P l1) ->
       Forall (fun e => P (instances e)) (services sd) -> Forall (fun e => P (instances e)) (services sd')).
Proof using PlainBackend0.
  intros Hok. unfold expire_stale_instances, spec_expire. destruct (enable_auto_expire (config sd)); cbn [negb]; [|by exists sd, m].
  destruct (expire_services_spec clk (service_count sd) 1 0 false sd) as (rs & ch & sd1 & He1 & Hp & Hs & Hp' & Ht & Hr1 & Hr2 & Hr3 & Hr4);
    [lia|lia| |change (Z.of_nat 0) with 0 in He1; rewrite He1].
  { destruct Hok as (_ & Hc & _). unfold SD_MAX_SERVICES in Hc. lia. }
  rewrite drop_0 in Hp. rewrite take_0 in Hp'. cbn [rbind app] in *.
  pose proof (sweeps_registry_ok _ _ _ _ _ Hok Hp Hs Hp') as Hok1. pose proof (sweeps_expire _ _ _ _ _ Hok Hp Hs Hp') as He.
  assert (Hin : forall P : list sd_instance_t -> Prop, (forall l1 l2, l1 ≡ₚ l2 -> P l1 -> P l2) -> (forall l1 l2, P (l1 ++ l2) -> P l1) ->
     Forall (fun e => P (instances e)) (services sd) -> Forall (fun e => P (instances e)) (services sd1)) by eauto using sweeps_inherit.
  destruct ch; [|by exists sd1, m]. destruct (commit B None sd1 m) as [sd2 m2] eqn:Ec.
  pose proof (plain_commit None sd1 m) as Hc. rewrite Ec in Hc. simpl in Hc. subst sd2. by exists sd1, m2.
Qed.

Lemma discover_refines clk n max sd m :
  registry_ok sd ->
  exists rc l sd' m', sd_discover B clk (Some n) true max (sd, m) = Done (rc, Some l, (sd', m')) /\
    registry_ok sd' /\ config sd' = config sd /\ spec_expire (config sd) clk (abs sd) (abs sd') /\
    spec_found n max (abs sd') rc l.
Proof using PlainBackend0.
  intros Hok. unfold sd_discover. cbn [negb fst snd]. destruct (refresh B (Some n) sd m) as [sd0 m0] eqn:Er.
  pose proof (plain_refresh (Some n) sd m) as Hr. rewrite Er in Hr. simpl in Hr. subst sd0.
  destruct (expire_refines clk sd m0 Hok) as (sd' & m' & -> & Hok' & Hcfg & _ & He & _). cbn [rbind].
  unfold spec_found. pose proof (find_service_spec sd' n Hok') as H.
  destruct (find_service_index sd' n) as [idx|]; cbn [mbind option_bind].
  - destruct H as (e & Hse & Hname & (Hn & _) & Ha). rewrite Hse. cbn [mbind option_bind].
    do 4 eexists. split; [done|]. split; [exact Hok'|]. split; [exact Hcfg|]. split; [exact He|].
    change (abs (upd_stats count_discovery sd')) with (abs sd'). rewrite Ha. split; [done|].
    exists (instances e). split; [|apply copy_if_take]. cbn [insts abs_entry]. unfold imap, kmap.
    rewrite map_to_list_to_map by (by rewrite kmap_fst). rewrite <- list_fmap_compose. unfold compose. simpl. by rewrite list_fmap_id.
  - destruct H as [_ Ha]. do 4 eexists. split; [done|]. rewrite Ha. done.
Qed.

(** A locked reference is the place of the instance in the same registry. *)
Lemma lock_ref_plain n id sd m :
  exists m', sd_lock_ref B (Some n) (Some id) (sd, m) =
    match find_both sd n id with
    | Some r => (AIRY_SUCCESS, Some r, (sd, m'))
    | None => (AIRY_ENOENT, None, (sd, m'))
    end.
Proof using PlainBackend0.
  unfold sd_lock_ref. cbn [fst snd]. destruct (refresh B (Some n) sd m) as [sd0 m0] eqn:Er.
  pose proof (plain_refresh (Some n) sd m) as Hr. rewrite Er in Hr. simpl in Hr. subst sd0.
  exists m0. cbn [fst]. by destruct (find_both sd n id).
Qed.

Lemma commit_plain n sd m : exists m', commit B n sd m = (sd, m').
Proof using PlainBackend0.
  destruct (commit B n sd m) as [sd0 m0] eqn:E. pose proof (plain_commit n sd m) as H. rewrite E in H. simpl in H.
  subst. eauto.
Qed.

(** An operation that leaves the code and the registry of [x], the rest of the
    configuration unchanged. *)
Definition steps_to (cfg : sd_config_t) (x : Z * gmap cstr svc) (r : res (out * world (M := M))) : Prop :=
  exists rc sd' m', r = Done (rc, [], (sd', m')) /\ registry_ok sd' /\ config sd' = cfg /\ x = (rc, abs sd').

Lemma register_steps clk getpid n ty i tg deps sd m :
  registry_ok sd -> (length n < SD_MAX_NAME_LEN)%nat ->
  steps_to (config sd) (spec_register clk getpid n ty i tg deps (abs sd))
    (sd_step clk (Register getpid n ty i tg deps) (sd, m)).
Proof using PlainBackend0.
  intros Hok Hn. unfold sd_step, sd_register, quiet_out. cbn [fst snd].
  destruct (register_service B clk getpid n ty i tg deps sd m) as [[rc sd1] m1] eqn:E.
  pose proof (plain_register clk getpid n ty i tg deps sd m) as Hp. rewrite E in Hp. simpl in Hp.
  pose proof (add_instance_refines clk getpid n ty i tg deps sd Hok Hn) as H. rewrite <- Hp in H.
  assert (Hcfg : config sd1 = config sd).
  { clear -Hp. unfold sd_registry_add_instance, find_or_add in Hp. repeat case_match; simplify_eq; done. }
  destruct H as [Hok1 Hs]. destruct (Z.eqb_spec rc AIRY_SUCCESS) as [->|Hne]; cbn [fst snd]; do 3 eexists;
    (split; [reflexivity|]); split_and!; [exact Hok1|exact Hcfg|exact Hs|exact Hok1|exact Hcfg|exact Hs].
Qed.

Lemma deregister_steps clk n id sd m :
  registry_ok sd ->
  steps_to (config sd) (spec_deregister clk n id (abs sd)) (sd_step clk (Deregister n id) (sd, m)).
Proof using PlainBackend0.
  intros Hok. unfold sd_step, sd_deregister, quiet_out. cbn [fst snd].
  destruct (deregister_service B clk n id sd m) as [[rc sd1] m1] eqn:E.
  pose proof (plain_deregister clk n id sd m) as Hp. rewrite E in Hp. simpl in Hp.
  pose proof (remove_refines clk n id sd Hok) as H. rewrite <- Hp in H.
  assert (Hcfg : config sd1 = config sd).
  { clear -Hp. unfold sd_registry_remove_instance in Hp. repeat case_match; simplify_eq; done. }
  destruct H as [Hok1 Hs]. destruct (Z.eqb_spec rc AIRY_SUCCESS) as [->|Hne]; cbn [fst snd]; do 3 eexists;
    (split; [reflexivity|]); split_and!; [exact Hok1|exact Hcfg|exact Hs|exact Hok1|exact Hcfg|exact Hs].
Qed.

Lemma deregister_all_steps clk n sd m :
  registry_ok sd ->
  steps_to (config sd) (spec_deregister_all clk n (abs sd)) (sd_step clk (DeregisterAll n) (sd, m)).
Proof using PlainBackend0.
  intros Hok. unfold sd_step, sd_deregister_all, quiet_out. cbn [fst snd].
  destruct (deregister_all B clk n sd m) as [[rc sd1] m1] eqn:E.
  pose proof (plain_deregister_all clk n sd m) as Hp. rewrite E in Hp. simpl in Hp.
  pose proof (deregister_all_refines clk n sd tt Hok) as H. destruct (shm_deregister_all clk n sd tt) as [[rc' sd'] u] eqn:Ea.
  simpl in Hp. injection Hp as -> ->. destruct H as [Hok1 Hs]. do 3 eexists. split; [reflexivity|]. split_and!; [exact Hok1| |exact Hs].
  unfold shm_deregister_all in Ea. by case_match; simplify_eq.
Qed.

Lemma heartbeat_steps clk n id sd m :
  registry_ok sd -> steps_to (config sd) (spec_heartbeat clk n id (abs sd)) (sd_step clk (Heartbeat n id) (sd, m)).
Proof using PlainBackend0.
  intros Hok. unfold sd_step, sd_heartbeat, quiet_out. destruct (lock_ref_plain n id sd m) as [m1 ->].
  pose proof (write_inst_refines sd n id (set_heartbeat (clk 0%nat)) Hok ltac:(done)) as H.
  destruct (find_both sd n id) as [[[[idx e] j] i]|]; cbn [fst snd]; [|by exists AIRY_ENOENT, sd, m1].
  destruct H as [Hok1 Hs]. set (sd1 := upd_stats _ _). destruct (commit_plain (Some n) sd1 m1) as [m2 ->].
  exists AIRY_SUCCESS, sd1, m2. split; [done|]. split; [exact Hok1|]. split; [done|exact Hs].
Qed.

Lemma connections_steps clk n id c sd m :
  registry_ok sd ->
  steps_to (config sd) (spec_connections n id c (abs sd)) (sd_step clk (UpdateConnections n id c) (sd, m)).
Proof using PlainBackend0.
  intros Hok. unfold sd_step, sd_update_connections, quiet_out. destruct (lock_ref_plain n id sd m) as [m1 ->].
  pose proof (write_inst_refines sd n id (set_active_connections c) Hok ltac:(done)) as H.
  destruct (find_both sd n id) as [[[[idx e] j] i]|]; cbn [fst snd]; [|by exists AIRY_ENOENT, sd, m1].
  destruct H as [Hok1 Hs]. set (sd1 := write_ref _ _ _ _ _) in *. destruct (commit_plain (Some n) sd1 m1) as [m2 ->].
  exists AIRY_SUCCESS, sd1, m2. split; [done|]. split; [exact Hok1|]. split; [done|exact Hs].
Qed.

Lemma health_steps clk n id h sd m :
  registry_ok sd -> steps_to (config sd) (spec_health clk n id h (abs sd)) (sd_step clk (UpdateHealth n id h) (sd, m)).
Proof using PlainBackend0.
  intros Hok. unfold sd_step, sd_update_health, quiet_out. destruct (lock_ref_plain n id sd m) as [m1 ->].
  pose proof (write_health_refines sd n id h (clk 0%nat) (clk 1%nat) Hok) as H.
  destruct (find_both sd n id) as [[[[idx e] j] i]|]; cbn [fst snd]; [|by exists AIRY_ENOENT, sd, m1].
  destruct H as [Hok1 Hs]. set (sd1 := write_ref _ _ _ _ _) in *. destruct (commit_plain (Some n) sd1 m1) as [m2 ->].
  case_match; do 3 eexists; (split; [reflexivity|]); split_and!; [exact Hok1|done|exact Hs|exact Hok1|done|exact Hs].
Qed.

Lemma steps_determined cfg x r : steps_to cfg x r ->
  exists o sd' m', r = Done (o, (sd', m')) /\ registry_ok sd' /\ config sd' = cfg /\ determined x o (abs sd').
Proof. intros (rc & sd' & m' & -> & Hok & Hc & ->). by exists (rc, []), sd', m'. Qed.

Lemma sd_step_refines clk o sd m :
  registry_ok sd -> op_wf o ->
  exists r sd' m', sd_step clk o (sd, m) = Done (r, (sd', m')) /\ registry_ok sd' /\ config sd' = config sd /\
    spec_step (config sd) clk o (abs sd) r (abs sd').
Proof using PlainBackend0.
  intros Hok Hwf. destruct o as [getpid n ty i tg deps|n id|n|n max|n id|n id h|n id c]; cbn [spec_step].
  - by apply steps_determined, register_steps.
  - by apply steps_determined, deregister_steps.
  - by apply steps_determined, deregister_all_steps.
  - destruct (discover_refines clk n max sd m Hok) as (rc & l & sd' & m' & Hd & Hok' & Hc & He & Hf).
    cbn [sd_step]. rewrite Hd. cbn [rbind]. exists (rc, l), sd', m'. done.
  - by apply steps_determined, heartbeat_steps.
  - by apply steps_determined, health_steps.
  - by apply steps_determined, connections_steps.
Qed.

Lemma sd_run_refines ops sd m :
  registry_ok sd -> Forall (fun o => op_wf o.2) ops ->
  exists rs sd' m', sd_run ops (sd, m) = Done (rs, (sd', m')) /\ registry_ok sd' /\
    spec_run (config sd) ops (abs sd) rs (abs sd').
Proof using PlainBackend0.
  intros Hok Hwf. revert sd m Hok. induction Hwf as [|[clk o] ops Ho _ IH]; intros sd m Hok; cbn [sd_run].
  - exists [], sd, m. split; [done|]. split; [done|constructor].
  - destruct (sd_step_refines clk o sd m Hok Ho) as (r & sd1 & m1 & -> & Hok1 & Hc & Hs). cbn [rbind].
    destruct (IH sd1 m1 Hok1) as (rs & sd2 & m2 & -> & Hok2 & Hrun). cbn [rbind].
    exists (r :: rs), sd2, m2. split; [done|]. split; [done|]. rewrite Hc in Hrun. by econstructor.
Qed.

End refinement.

(** ** Theorems *)

(** C1: With a backend that keeps the registry in memory, any sequence of
    registrations, removals, queries, heartbeats and updates, in which the names
    that are registered are below 64 bytes, each with any answers of the clock,
    is a run of the operations on a map from names to services, each with a map
    from identifiers to instances: every code and every list of instances is
    what the map says.  Apart from the removals and replacements that are asked
    for, an instance disappears only when a query judges it stale. *)
Theorem sd_refines_maps {M} (B : sd_backend M) (HB : PlainBackend B) cfg ops m :
  Forall (fun o => op_wf o.2) ops ->
  exists sd rs sd' m', sd_create true true true cfg = Some sd /\ sd_run B ops (sd, m) = Done (rs, (sd', m')) /\
    registry_ok sd' /\ spec_run (config sd) ops ∅ rs (abs sd').
Proof.
  intros Hwf. eexists. edestruct (sd_run_refines B ops (SD (default sd_create_default_config cfg) [] [] zero_stats false 0 []) m)
    as (rs & sd' & m' & Hrun & Hok & Hs); [|done|].
  - split_and!; [constructor|unfold service_count; simpl; lia|constructor].
  - exists rs, sd', m'. split; [done|]. done.
Qed.

Definition sample_inst (id : cstr) (h : bool) : sd_instance_t := Inst id (cs "127.0.0.1:80") 3 h 100 0 1024 0 0 0.
Definition at_time (t : Z) : nat -> Z := fun _ => t.
Definition sample_ops : list ((nat -> Z) * sd_op) :=
  [(at_time 1000, Register 7 (cs "db") (cs "sql") (sample_inst (cs "a") true) None None);
   (at_time 1001, Register 7 (cs "db") (cs "sql") (sample_inst (cs "b") true) None None);
   (at_time 20000, Heartbeat (cs "db") (cs "b"));
   (at_time 40000, Discover (cs "db") 8);
   (at_time 40001, Deregister (cs "db") (cs "a"))].

Lemma sd_refines_maps_witness :
  Forall (fun o => op_wf o.2) sample_ops /\
  exists sd rs sd' m', sd_create true true true None = Some sd /\
    sd_run sd_backend_shm sample_ops (sd, tt) = Done (rs, (sd', m')) /\
    registry_ok sd' /\ spec_run (config sd) sample_ops ∅ rs (abs sd').
Proof.
  assert (H : Forall (fun o => op_wf o.2) sample_ops) by (repeat constructor; simpl; unfold SD_MAX_NAME_LEN; lia).
  split; [exact H|]. exact (sd_refines_maps sd_backend_shm shm_plain None sample_ops tt H).
Defined.

(** The instance without a heartbeat is gone, and cannot be removed again. *)
Example sample_run :
  match sd_run sd_backend_shm sample_ops (SD sd_create_default_config [] [] zero_stats false 0 [], tt) with
  | Done (rs, (sd, _)) =>
      (map fst rs, map (fun r => map instance_id (snd r)) rs, expirations (stats sd)) =
      ([0; 0; 0; 0; AIRY_ENOENT], [[]; []; []; [cs "b"]; []], 1)
  | _ => False
  end.
Proof. vm_compute. reflexivity. Qed.

(** ** Selection *)

Lemma sane_perm l l' : l ≡ₚ l' -> sane l -> sane l'.
Proof.
  intros Hp (H1 & H2 & H3 & H4).
  assert (Hhw : hw l' = hw l) by (clear -Hp; induction Hp; simpl; lia).
  split_and!; [by unfold weights_ok; rewrite <- Hp|by rewrite Hhw|by rewrite <- Hp|by rewrite <- Hp].
Qed.

Lemma sane_app l l' : sane (l ++ l') -> sane l.
Proof.
  intros (H1 & H2 & H3 & H4). apply Forall_app in H1 as [Hw Hw'], H4 as [H4 _].
  rewrite hw_app in H2. rewrite length_app in H3. pose proof (hw_nonneg _ Hw'). split_and!; [done|lia|lia|done].
Qed.

(** Every strategy of load balancing returns a healthy instance that the
    service has after expiry, one with the fewest connections or the least load
    where the strategy says so, and fails exactly when the service is unknown
    or has no healthy instance. *)
Theorem sd_select_healthy {M} (B : sd_backend M) (HB : PlainBackend B) clk r n strategy sd m :
  registry_ok sd -> Forall (fun e => sane (instances e)) (services sd) -> 0 <= rr_counter sd -> 0 <= r ->
  exists rc o sd' m', sd_select_instance B clk r (Some n) strategy true (sd, m) = Done (rc, o, (sd', m')) /\
    spec_expire (config sd) clk (abs sd) (abs sd') /\
    match o with
    | Some i => rc = AIRY_SUCCESS /\ healthy i = true /\
        exists e, e ∈ services sd' /\ name e = n /\ i ∈ instances e /\ chosen_by strategy (instances e) i
    | None => rc = AIRY_ENOENT /\
        forall e, e ∈ services sd' -> name e = n -> forall i, i ∈ instances e -> healthy i = false
    end.
Proof.
  intros Hok Hsane Hrr Hr. unfold sd_select_instance. cbn [negb fst snd].
  destruct (refresh B (Some n) sd m) as [sd0 m0] eqn:Er. pose proof (plain_refresh (Some n) sd m) as Hrf.
  rewrite Er in Hrf. simpl in Hrf. subst sd0.
  destruct (expire_refines B clk sd m0 Hok) as (sd1 & m1 & -> & Hok1 & _ & Hrr1 & He & Hin). cbn [rbind].
  specialize (Hin sane sane_perm sane_app Hsane). pose proof (find_service_spec sd1 n Hok1) as H.
  destruct (find_service_index sd1 n) as [idx|]; cbn [mbind option_bind].
  2:{ exists AIRY_ENOENT, None, sd1, m1. split; [done|]. split; [done|]. split; [done|]. intros e Hel Hname. exfalso.
      destruct H as [Hnot _]. apply Hnot. apply list_elem_of_fmap. eauto. }
  destruct H as (e & Hse & Hname & Heok & Ha). rewrite Hse.
  pose proof (list_elem_of_lookup_2 _ _ _ Hse) as Hel.
  pose proof (lb_select_spec strategy r e sd1) as Hlb. rewrite Hrr1 in Hlb.
  specialize (Hlb Hrr (proj1 (Forall_forall _ _) Hin e Hel) Hr).
  assert (Hsv : services (lb_select strategy r e sd1).2 = services sd1).
  { unfold lb_select, lb_round_robin. repeat (case_match; try done). }
  destruct (lb_select strategy r e sd1) as [[err o] sd2]. cbn [snd] in Hsv. destruct o as [i|].
  - destruct Hlb as (-> & Hi & Hh & Hc). exists AIRY_SUCCESS, (Some i), (upd_stats count_selection sd2), m1.
    split; [done|]. unfold abs at 2. cbn [services upd_stats]. rewrite Hsv. split; [exact He|]. split; [done|]. split; [done|].
    exists e. done.
  - destruct Hlb as (-> & -> & Hnone). exists AIRY_ENOENT, None, sd1, m1. split; [done|]. split; [done|]. split; [done|].
    intros e' He' Hn'. assert (e' = e) as ->; [|done]. destruct Hok1 as (Hnd & _).
    apply list_elem_of_lookup in He' as [p' Hp']. assert (p' = idx) as ->; [|congruence].
    apply (NoDup_lookup _ _ _ n Hnd); rewrite list_lookup_fmap; [rewrite Hp'|rewrite Hse]; simpl; congruence.
Qed.

Definition two_healthy : sd_internal_t :=
  SD sd_create_default_config
    [Entry (cs "db") [] (cs "sql") [] [] 0
       [Inst (cs "a") [] 3 true 1 9 10 50000 1 7; Inst (cs "b") [] 3 true 1 2 10 50000 1 7] true 50000]
    [] zero_stats true 0 [].

Lemma two_healthy_ok :
  registry_ok two_healthy /\ Forall (fun e => sane (instances e)) (services two_healthy).
Proof.
  split.
  - split_and!; [apply NoDup_singleton|unfold service_count, SD_MAX_SERVICES; simpl; lia|].
    repeat constructor; simpl; unfold instance_count, SD_MAX_INSTANCES, SD_MAX_NAME_LEN; simpl; try lia; set_solver.
  - repeat constructor; simpl; lia.
Qed.

Lemma sd_select_healthy_witness :
  exists rc o sd' m', sd_select_instance sd_backend_shm (at_time 50000) 5 (Some (cs "db"))
      (Some SD_LB_LEAST_CONNECTION) true (two_healthy, tt) = Done (rc, o, (sd', m')) /\
    spec_expire (config two_healthy) (at_time 50000) (abs two_healthy) (abs sd') /\
    match o with
    | Some i => rc = AIRY_SUCCESS /\ healthy i = true /\
        exists e, e ∈ services sd' /\ name e = cs "db" /\ i ∈ instances e /\
          chosen_by (Some SD_LB_LEAST_CONNECTION) (instances e) i
    | None => rc = AIRY_ENOENT /\
        forall e, e ∈ services sd' -> name e = cs "db" -> forall i, i ∈ instances e -> healthy i = false
    end.
Proof.
  apply (sd_select_healthy sd_backend_shm shm_plain); [exact (proj1 two_healthy_ok)|exact (proj2 two_healthy_ok)|done|done].
Defined.
