(* ===== verification/SdChecks.v ===== *)
(** * Dependencies of services, and the limits of the registry

    The check of a service's dependencies (service_discovery_api.c) lists
    exactly the ones without a healthy instance, as long as the list fits; and
    concrete runs show what happens to names and lists that do not fit. *)
From S2P Require Import Prelude CLib Keyed Sd SdBalance SdSpec.

(** ** Lists of names *)

Definition joined (l : list cstr) : cstr :=
  match l with [] => [] | t :: l' => t ++ concat ((fun u => 44 :: u) <$> l') end.

Lemma joined_snoc l t : l <> [] -> joined (l ++ [t]) = joined l ++ 44 :: t.
Proof.
  destruct l as [|u l]; [done|]. intros _. cbn [app joined]. rewrite fmap_app, concat_app. cbn. by rewrite app_nil_r, app_assoc.
Qed.

Definition cost (l : list cstr) : nat := sum_list_with (fun t => S (length t)) l.

Lemma joined_cost l : (length (joined l) <= cost l)%nat.
Proof.
  destruct l as [|t l]; [done|]. cbn [joined cost sum_list_with]. rewrite length_app.
  assert (H : length (concat ((fun u => 44 :: u) <$> l)) = cost l); [|unfold cost in *; lia].
  induction l as [|u l IH]; [done|]. cbn in *. rewrite length_app, IH. done.
Qed.

Lemma joined_nil l : Forall (fun t => t <> []) l -> joined l = [] -> l = [].
Proof. destruct l as [|t l]; [done|]. intros [Ht _]%Forall_cons. cbn. by destruct t. Qed.

Lemma tokens_cost s acc : (cost (tokens_acc s acc) <= length s + length acc + 1)%nat.
Proof.
  revert acc. induction s as [|c s IH]; intros acc; cbn [tokens_acc].
  - destruct acc; unfold cost; simpl; lia.
  - destruct (c =? 44).
    + unfold cost in *. rewrite sum_list_with_app. specialize (IH []). destruct acc; simpl in *; lia.
    + specialize (IH (acc ++ [c])). rewrite length_app in IH. simpl in *. lia.
Qed.

Lemma skip_blanks_length s : (length (skip_blanks s) <= length s)%nat.
Proof. induction s as [|c s IH]; simpl; [done|]. case_match; simpl; lia. Qed.

(** ** The check *)

(** The dependencies without a healthy instance, in their order. *)
Definition unavailable (sd : sd_internal_t) (toks : list cstr) : list cstr :=
  filter (fun t => dep_available sd t = false) (skip_blanks <$> toks).

Lemma add_missing_joined t ms :
  Forall (fun u => u <> []) ms -> (length (joined ms) + length t + 2 < SD_MAX_DEPS_LEN)%nat ->
  add_missing t (joined ms) (length (joined ms)) = (joined (ms ++ [t]), length (joined (ms ++ [t]))).
Proof.
  intros Hms Hl. unfold add_missing, strcat_cut. rewrite (proj2 (Nat.ltb_lt _ _) Hl). unfold SD_MAX_DEPS_LEN in *.
  destruct (Nat.ltb_spec 0 (length (joined ms))) as [Hp|Hz].
  - assert (Hne : ms <> []) by (intros ->; simpl in Hp; lia). rewrite (joined_snoc _ _ Hne), length_app. simpl length.
    rewrite (take_ge (joined ms ++ [44])) by (rewrite length_app; simpl; lia).
    rewrite <- app_assoc. cbn [app]. rewrite take_ge by (rewrite length_app; simpl; lia). f_equal. lia.
  - assert (Hj : joined ms = []) by (apply nil_length_inv; lia). rewrite (joined_nil _ Hms Hj). cbn.
    rewrite app_nil_r, take_ge by lia. done.
Qed.

Lemma check_loop_joined sd toks ms :
  Forall (fun t => skip_blanks t <> []) toks -> Forall (fun u => u <> []) ms -> (cost ms + cost toks < 511)%nat ->
  check_loop sd toks (joined ms) (length (joined ms)) =
  (joined (ms ++ unavailable sd toks), length (joined (ms ++ unavailable sd toks))).
Proof.
  intros Ht. revert ms. induction Ht as [|t toks Hne _ IH]; intros ms Hms Hc; cbn [check_loop].
  - unfold unavailable. simpl. by rewrite app_nil_r.
  - unfold cost in Hc. cbn [sum_list_with] in Hc. fold (cost ms) (cost toks) in Hc.
    unfold unavailable. cbn [fmap list_fmap]. rewrite filter_cons.
    pose proof (joined_cost ms). pose proof (skip_blanks_length t).
    destruct (dep_available sd (skip_blanks t)) eqn:E.
    + rewrite decide_False by done. cbv zeta. apply IH; [done|lia].
    + rewrite decide_True by done. cbv zeta. rewrite add_missing_joined by (done || (unfold SD_MAX_DEPS_LEN; lia)).
      rewrite IH; [by rewrite <- app_assoc| |].
      * apply Forall_app. split; [done|]. by constructor.
      * unfold cost in *. rewrite sum_list_with_app. simpl. lia.
Qed.

(** The check of a service's dependencies succeeds exactly when each of
    them has a healthy instance, and otherwise returns the ones that have not,
    in their order and separated by commas. *)
Theorem check_dependencies_exact {M} (B : sd_backend M) (HB : PlainBackend B) n sd m e :
  registry_ok sd -> e ∈ services sd -> name e = n -> (length (dependencies e) < 510)%nat ->
  Forall (fun t => skip_blanks t <> []) (tokens (dependencies e)) ->
  let missing := unavailable sd (tokens (dependencies e)) in
  exists m', sd_check_dependencies B (Some n) (Some 512) (sd, m) =
    (if decide (missing = []) then AIRY_SUCCESS else AIRY_ERR_SVC_DEPENDENCY, Some (joined missing), (sd, m')).
Proof.
  intros Hok He Hname Hlen Hne missing. unfold sd_check_dependencies. cbn [fst snd].
  destruct (refresh B None sd m) as [sd0 m0] eqn:Er. pose proof (plain_refresh None sd m) as Hr.
  rewrite Er in Hr. simpl in Hr. subst sd0. cbn [fst]. exists m0.
  pose proof (find_service_spec sd n Hok) as H. destruct (find_service_index sd n) as [idx|]; cbn [mbind option_bind].
  2:{ destruct H as [Hnot _]. destruct Hnot. apply list_elem_of_fmap. eauto. }
  destruct H as (e' & Hse & Hname' & _). assert (e' = e) as ->.
  { destruct Hok as (Hnd & _). apply list_elem_of_lookup in He as [p Hp]. assert (p = idx) as ->; [|congruence].
    apply (NoDup_lookup _ _ _ n Hnd); rewrite list_lookup_fmap; [rewrite Hp|rewrite Hse]; simpl; congruence. }
  rewrite Hse, strcpy_cut_short by (unfold SD_MAX_DEPS_LEN; lia).
  pose proof (tokens_cost (dependencies e) []) as Hcost. fold (tokens (dependencies e)) in Hcost. simpl length in Hcost.
  pose proof (check_loop_joined sd (tokens (dependencies e)) [] Hne) as Hloop. cbn [joined length app] in Hloop.
  rewrite Hloop; [|constructor|unfold cost at 1; simpl; lia]. fold missing. clear Hloop.
  assert (Hm : Forall (fun t => t <> []) missing).
  { apply Forall_forall. intros t Ht. subst missing. unfold unavailable in Ht. apply list_elem_of_filter in Ht as [_ Ht].
    apply list_elem_of_fmap in Ht as (u & -> & Hu). by apply (proj1 (Forall_forall _ _) Hne). }
  assert (Hjl : (length (joined missing) <= 511)%nat).
  { etransitivity; [apply joined_cost|]. subst missing. unfold unavailable. etransitivity; [|transitivity (length (dependencies e) + 0 + 1)%nat; [exact Hcost|lia]].
    clear. generalize (tokens (dependencies e)) as l. induction l as [|t l IH]; [done|]. cbn [fmap list_fmap]. rewrite filter_cons.
    unfold cost in *. pose proof (skip_blanks_length t). case_decide; simpl; lia. }
  unfold copy_out. change (u32 512) with 512. cbn [Z.ltb Z.eqb]. rewrite strcpy_cut_short by (simpl; lia).
  do 2 f_equal. case_decide as Hd; [by rewrite Hd|].
  destruct (Nat.ltb_spec 0 (length (joined missing))) as [|Hz]; [done|]. destruct Hd. apply joined_nil; [done|].
  apply nil_length_inv. lia.
Qed.

(** A service with one dependency that has a healthy instance and one that
    has none. *)
Definition web_and_db : sd_internal_t :=
  SD sd_create_default_config
    [Entry (cs "web") [] [] [] (cs "db, mail") 0 [] true 0;
     Entry (cs "db") [] [] [] [] 0 [Inst (cs "a") [] 3 true 1 0 9 0 0 7] true 0;
     Entry (cs "mail") [] [] [] [] 0 [Inst (cs "b") [] 3 false 1 0 9 0 0 7] true 0]
    [] zero_stats true 0 [].

Lemma web_and_db_ok : registry_ok web_and_db.
Proof.
  split_and!; [apply (bool_decide_unpack _); vm_compute; done|unfold service_count, SD_MAX_SERVICES; simpl; lia|].
  repeat (apply Forall_cons_2 || apply Forall_nil_2); (split_and!;
    [apply (bool_decide_unpack _); vm_compute; done|unfold instance_count, SD_MAX_INSTANCES; simpl; lia|
     unfold SD_MAX_NAME_LEN; simpl; lia]).
Qed.

Lemma check_dependencies_exact_witness :
  exists m', sd_check_dependencies sd_backend_shm (Some (cs "web")) (Some 512) (web_and_db, tt) =
    (AIRY_ERR_SVC_DEPENDENCY, Some (cs "mail"), (web_and_db, m')).
Proof.
  apply (check_dependencies_exact sd_backend_shm shm_plain (cs "web") web_and_db tt
    (Entry (cs "web") [] [] [] (cs "db, mail") 0 [] true 0)); [exact web_and_db_ok|left|reflexivity|simpl; lia|].
  apply (bool_decide_unpack _). vm_compute. done.
Defined.

(** ** What does not fit *)

(** A name of 64 bytes is cut when it is stored and never found again: a
    second registration of the same instance makes a second service, and the
    service cannot be removed. *)
Example long_name_lost :
  let n := replicate 64 97 in let i := Inst (cs "x") [] 3 true 1 0 9 0 0 7 in
  let reg := (at_time 5, Register 7 n (cs "t") i None None) in
  match sd_run sd_backend_shm [reg; reg; (at_time 5, Deregister n (cs "x"))]
          (SD sd_create_default_config [] [] zero_stats false 0 [], tt) with
  | Done (rs, (sd, _)) => (map fst rs, service_count sd) = ([0; 0; AIRY_ENOENT], 2%nat)
  | _ => False
  end.
Proof. vm_compute. reflexivity. Qed.

(** A dependency of 510 bytes that nobody provides is not written to the list
    of the missing ones, and the check succeeds. *)
Example long_dependency_passes :
  (sd_check_dependencies sd_backend_shm (Some (cs "web")) None
     (SD sd_create_default_config [Entry (cs "web") [] [] [] (replicate 510 97) 0 [] true 0] [] zero_stats true 0 [], tt)).1.1 =
  AIRY_SUCCESS.
Proof. vm_compute. reflexivity. Qed.

(** A filter with a blank item matches the tags of every service. *)
Example blank_tag_matches_all :
  match sd_discover_by_tags sd_backend_shm (at_time 0) (Some (cs "sql, ")) true 9 (web_and_db, tt) with
  | Done (_, Some l, _) => map name l = [cs "web"; cs "db"; cs "mail"]
  | _ => False
  end.
Proof. vm_compute. reflexivity. Qed.
