(* ===== verification/SdHelper.v ===== *)
(** * Registration of a daemon: utils/sd/service_discovery_helper.c and
      daemon_bootstrap_sd.c

    The layer a daemon uses: one registration, a heartbeat thread, and the
    operations of the registry behind it, which is the in-memory one.  A call
    of the heartbeat thread is a step of its own ([heartbeat_tick]). *)
From S2P Require Import Prelude CLib Decimal Keyed Sd SdBalance SdSpec.

Definition SDH_MAX_ENDPOINT_LEN : nat := 256.
Definition SDH_DEFAULT_TTL_MS : Z := 30000.
Definition AIRY_ERR_GENERIC_FAIL : Z := -31.
Definition AIRY_ERR_STATE_ERROR : Z := -56.
Definition AIRY_ERR_SYS_THREAD : Z := -120.
Definition AIRY_SVC_STATE_RUNNING : Z := 4.

(** [heartbeat_thread] is whether the handle is valid. *)
Record sd_helper_t := Helper {
  h_sd : sd_internal_t;
  h_config : sd_config_t;
  service_name : cstr;
  h_instance_id : cstr;
  registered : bool;
  heartbeat_thread : bool;
  heartbeat_running : bool;
  h_interval_ms : Z;
}.

Definition set_h_sd (v : sd_internal_t) (h : sd_helper_t) : sd_helper_t :=
  Helper v (h_config h) (service_name h) (h_instance_id h) (registered h) (heartbeat_thread h)
    (heartbeat_running h) (h_interval_ms h).
Definition set_registration (n id : cstr) (h : sd_helper_t) : sd_helper_t :=
  Helper (h_sd h) (h_config h) n id true (heartbeat_thread h) (heartbeat_running h) (h_interval_ms h).
Definition set_heartbeat_state (thread running : bool) (h : sd_helper_t) : sd_helper_t :=
  Helper (h_sd h) (h_config h) (service_name h) (h_instance_id h) (registered h) thread running (h_interval_ms h).

(** [alloc] and [created]: the helper is granted and the registry created. *)
Definition sd_helper_init (alloc created : bool) (cfg : option sd_config_t) : option sd_helper_t :=
  if negb alloc then None
  else let c := default sd_create_default_config cfg in
       match sd_create created true true (Some c) with
       | None => None
       | Some sd =>
           match sd_start (Some sd) with
           | (rc, Some sd) => if rc =? AIRY_SUCCESS then
                                Some (Helper sd c [] [] false false false (heartbeat_interval_ms c))
                              else None
           | (_, None) => None
           end
       end.

(** ** Registration *)

Definition build_endpoint (host : cstr) (port : Z) : cstr :=
  snprintf_into SDH_MAX_ENDPOINT_LEN [] (host ++ 58 :: fmt_u port).

Definition build_instance_id (n endpoint : cstr) (getpid : Z) : cstr :=
  snprintf_into SD_MAX_NAME_LEN [] (n ++ 45 :: endpoint ++ 45 :: fmt_u getpid).

Definition helper_instance (clk : nat -> Z) (getpid : Z) (id endpoint : cstr) : sd_instance_t :=
  Inst (strcpy_cut SD_MAX_NAME_LEN id) (strcpy_cut SDH_MAX_ENDPOINT_LEN endpoint) AIRY_SVC_STATE_RUNNING true 100 0 1024
    (clk 0%nat) (clk 1%nat) getpid.

(** The registration and the bookkeeping the two kinds of endpoints share; the
    operation of the registry asks the clock after the two times of the
    instance. *)
Definition register_as (clk : nat -> Z) (getpid : Z) (n ty id endpoint : cstr) (tg : option cstr) (h : sd_helper_t)
    : Z * sd_helper_t :=
  let '(err, (sd, _)) :=
    sd_register sd_backend_shm (fun k => clk (2 + k)%nat) getpid (Some n) (Some ty)
      (Some (helper_instance clk getpid id endpoint)) (Some (default [] tg)) (Some []) (h_sd h, tt) in
  let h := set_h_sd sd h in
  if err =? AIRY_SUCCESS then
    (0, set_registration (strcpy_cut SD_MAX_NAME_LEN n) (strcpy_cut SD_MAX_NAME_LEN id) h)
  else (AIRY_ERR_GENERIC_FAIL, h).

(** The time to live is computed and not used. *)
Definition sd_helper_register (clk : nat -> Z) (getpid : Z) (h : option sd_helper_t) (n ty host : option cstr)
    (port : Z) (tg : option cstr) (ttl_ms : Z) : Z * option sd_helper_t :=
  match h, n, ty, host with
  | Some h, Some n, Some ty, Some host =>
      let endpoint := build_endpoint host port in
      let '(rc, h) := register_as clk getpid n ty (build_instance_id n endpoint getpid) endpoint tg h in
      (rc, Some h)
  | _, _, _, _ => (AIRY_ERR_INVALID_PARAM, h)
  end.

Definition sd_helper_register_unix (clk : nat -> Z) (getpid : Z) (h : option sd_helper_t)
    (n ty socket_path : option cstr) (tg : option cstr) (ttl_ms : Z) : Z * option sd_helper_t :=
  match h, n, ty, socket_path with
  | Some h, Some n, Some ty, Some path =>
      let '(rc, h) := register_as clk getpid n ty (build_instance_id n path getpid) path tg h in (rc, Some h)
  | _, _, _, _ => (AIRY_ERR_INVALID_PARAM, h)
  end.

(** ** The heartbeat thread *)

(** The sleeps of 500 ms of one interval. *)
Definition sleep_steps (interval_ms : Z) : Z :=
  let total := s32 interval_ms in let total := if total <=? 0 then 10000 else total in
  (total + 499) / 500.

(** What the thread does after its sleeps. *)
Definition heartbeat_tick (clk : nat -> Z) (h : sd_helper_t) : sd_helper_t :=
  if negb (heartbeat_running h) then h
  else if registered h && negb (bool_decide (service_name h = [])) then
    set_h_sd (sd_heartbeat sd_backend_shm clk (Some (service_name h)) (Some (h_instance_id h)) (h_sd h, tt)).2.1 h
  else h.

Definition sd_helper_start_heartbeat (thread_ok : bool) (h : option sd_helper_t) : Z * option sd_helper_t :=
  match h with
  | None => (AIRY_ERR_INVALID_PARAM, None)
  | Some h =>
      if heartbeat_running h then (0, Some h)
      else if negb (registered h) then (AIRY_ERR_STATE_ERROR, Some h)
      else if thread_ok then (0, Some (set_heartbeat_state true true h))
      else (AIRY_ERR_SYS_THREAD, Some (set_heartbeat_state (heartbeat_thread h) false h))
  end.

Definition sd_helper_stop_heartbeat (h : option sd_helper_t) : option sd_helper_t :=
  match h with
  | Some h => Some (if heartbeat_running h then set_heartbeat_state false false h else h)
  | None => None
  end.

Definition sd_helper_send_heartbeat (clk : nat -> Z) (h : option sd_helper_t) : Z * option sd_helper_t :=
  match h with
  | Some h =>
      if negb (registered h) then (AIRY_ERR_INVALID_PARAM, Some h)
      else let '(err, (sd, _)) :=
             sd_heartbeat sd_backend_shm clk (Some (service_name h)) (Some (h_instance_id h)) (h_sd h, tt) in
           (if err =? AIRY_SUCCESS then 0 else -1, Some (set_h_sd sd h))
  | None => (AIRY_ERR_INVALID_PARAM, None)
  end.

(** ** Queries *)

Definition sd_helper_find (clk : nat -> Z) (h : option sd_helper_t) (n : option cstr) (has_out : bool) (max_count : nat)
    : res (Z * option (list sd_instance_t) * option sd_helper_t) :=
  match h, n with
  | Some h, Some n =>
      if negb has_out then Done (AIRY_ERR_INVALID_PARAM, None, Some h)
      else rbind (sd_discover sd_backend_shm clk (Some n) true max_count (h_sd h, tt)) (fun '(err, l, (sd, _)) =>
        Done (if err =? AIRY_SUCCESS then 0 else -1, l, Some (set_h_sd sd h)))
  | _, _ => Done (AIRY_ERR_INVALID_PARAM, None, h)
  end.

Definition sd_helper_select_with_strategy (clk : nat -> Z) (r : Z) (h : option sd_helper_t) (n : option cstr)
    (strategy : option sd_lb_strategy_t) (has_out : bool) : res (Z * option sd_instance_t * option sd_helper_t) :=
  match h, n with
  | Some h, Some n =>
      if negb has_out then Done (AIRY_ERR_INVALID_PARAM, None, Some h)
      else rbind (sd_select_instance sd_backend_shm clk r (Some n) strategy true (h_sd h, tt)) (fun '(err, i, (sd, _)) =>
        Done (if err =? AIRY_SUCCESS then 0 else -1, i, Some (set_h_sd sd h)))
  | _, _ => Done (AIRY_ERR_INVALID_PARAM, None, h)
  end.

(** The helper is read before it is checked. *)
Definition sd_helper_select (clk : nat -> Z) (r : Z) (h : option sd_helper_t) (n : option cstr) (has_out : bool)
    : res (Z * option sd_instance_t * option sd_helper_t) :=
  match h with
  | None => Undefined
  | Some s => sd_helper_select_with_strategy clk r h n (Some (default_lb_strategy (h_config s))) has_out
  end.

Definition sd_helper_is_running (h : option sd_helper_t) : bool := sd_is_running (h_sd <$> h).
Definition sd_helper_service_count (h : option sd_helper_t) : nat :=
  match h with None => 0%nat | Some h => (sd_service_count sd_backend_shm (h_sd h, tt)).1 end.

(** ** Shutdown *)

(** The registry as it is when it is destroyed: the last thing that can be
    seen of it is its trace. *)
Definition sd_helper_shutdown (clk : nat -> Z) (h : option sd_helper_t) : option sd_internal_t :=
  match sd_helper_stop_heartbeat h with
  | None => None
  | Some h =>
      if registered h && negb (bool_decide (service_name h = [])) then
        Some (sd_deregister sd_backend_shm clk (Some (service_name h)) (Some (h_instance_id h)) (h_sd h, tt)).2.1
      else Some (h_sd h)
  end.

(** ** daemon_bootstrap_sd.c *)

Record daemon_bootstrap_sd_t := Bootstrap {
  sdh : option sd_helper_t;
  b_running : bool;
  b_service_name : cstr;
}.

(** The part after the checks: [reg] is the registration; a heartbeat that
    does not start is only logged. *)
Definition bootstrap_with (alloc init thread_ok : bool) (n : cstr)
    (reg : option sd_helper_t -> Z * option sd_helper_t) : option daemon_bootstrap_sd_t :=
  if negb alloc then None
  else match sd_helper_init init init None with
       | None => None
       | Some h =>
           let '(rc, h) := reg (Some h) in
           if negb (rc =? 0) then None
           else let '(_, h) := sd_helper_start_heartbeat thread_ok h in
                Some (Bootstrap h true (take 62 n))
       end.

Definition daemon_bootstrap_sd_start (clk : nat -> Z) (getpid : Z) (alloc init thread_ok : bool)
    (n ty host : option cstr) (port : Z) (tg : option cstr) (ttl_ms : Z) : option daemon_bootstrap_sd_t :=
  match n, ty with
  | Some name, Some _ =>
      match host with
      | None => if port =? 0 then None
                else bootstrap_with alloc init thread_ok name
                       (fun h => sd_helper_register_unix clk getpid h n ty (Some name) tg ttl_ms)
      | Some hst =>
          bootstrap_with alloc init thread_ok name (fun h =>
            if 0 <? port then sd_helper_register clk getpid h n ty host port tg ttl_ms
            else sd_helper_register_unix clk getpid h n ty (Some hst) tg ttl_ms)
      end
  | _, _ => None
  end.

Definition daemon_bootstrap_sd_start_unix (clk : nat -> Z) (getpid : Z) (alloc init thread_ok : bool)
    (n ty socket_path tg : option cstr) (ttl_ms : Z) : option daemon_bootstrap_sd_t :=
  match n, ty, socket_path with
  | Some name, Some _, Some _ =>
      bootstrap_with alloc init thread_ok name
        (fun h => sd_helper_register_unix clk getpid h n ty socket_path tg ttl_ms)
  | _, _, _ => None
  end.

Definition daemon_bootstrap_sd_stop (clk : nat -> Z) (b : option daemon_bootstrap_sd_t) : option sd_internal_t :=
  match b with None => None | Some b => sd_helper_shutdown clk (sdh b) end.

Definition daemon_bootstrap_sd_get_helper (b : option daemon_bootstrap_sd_t) : option sd_helper_t := b ≫= sdh.
Definition daemon_bootstrap_sd_is_running (b : option daemon_bootstrap_sd_t) : bool :=
  match b with Some b => b_running b | None => false end.

(** ** The number at the end of an identifier *)

(** The instances that two processes register for the same name and
    endpoint have different identifiers when name and endpoint leave room for
    the process number, and the same identifier, under which the second
    replaces the first, when they do not. *)
Theorem instance_ids n endpoint p1 p2 :
  0 <= p1 < 2 ^ 32 -> 0 <= p2 < 2 ^ 32 ->
  ((length n + length endpoint + 12 < SD_MAX_NAME_LEN)%nat ->
    build_instance_id n endpoint p1 = build_instance_id n endpoint p2 <-> p1 = p2) /\
  ((SD_MAX_NAME_LEN <= length n + length endpoint + 3)%nat ->
    build_instance_id n endpoint p1 = build_instance_id n endpoint p2).
Proof.
  intros H1 H2. unfold build_instance_id, snprintf_into, SD_MAX_NAME_LEN. split.
  - intros Hl. split; [|by intros ->].
    pose proof (fmt_u_length 20 p1 ltac:(lia) ltac:(lia)). pose proof (fmt_u_length 20 p2 ltac:(lia) ltac:(lia)).
    rewrite !take_ge by (rewrite length_app; cbn [length]; rewrite length_app; cbn [length]; unfold fmt_u; lia).
    intros Heq. apply app_inv_head in Heq. injection Heq as Heq. apply app_inv_head in Heq. injection Heq as Heq.
    apply fmt_u_inj; [lia|lia|done].
  - intros Hl. change (n ++ 45 :: endpoint ++ 45 :: fmt_u ?p) with (n ++ (45 :: endpoint ++ (45 :: fmt_u p))).
    assert (Hcut : forall p, n ++ 45 :: endpoint ++ 45 :: fmt_u p = (n ++ 45 :: endpoint ++ [45]) ++ fmt_u p).
    { intros p. rewrite <- app_assoc. cbn [app]. by rewrite <- app_assoc. }
    rewrite (Hcut p1), (Hcut p2).
    assert (Hle : (63 <= length (n ++ 45%Z :: endpoint ++ [45%Z]))%nat) by (rewrite length_app; cbn [length]; rewrite length_app; cbn [length]; lia).
    by rewrite (take_app_le _ (fmt_u p1)), (take_app_le _ (fmt_u p2)) by exact Hle.
Qed.

Lemma instance_ids_witness :
  build_instance_id (cs "llm_d") (cs "127.0.0.1:8080") 17 <> build_instance_id (cs "llm_d") (cs "127.0.0.1:8080") 18 /\
  build_instance_id (cs "monitor_d") (cs "/var/lib/airymax/run/sockets/monitoring/agent-monitor.sock") 17 =
  build_instance_id (cs "monitor_d") (cs "/var/lib/airymax/run/sockets/monitoring/agent-monitor.sock") 18.
Proof.
  split.
  - intros H. apply (proj1 (instance_ids (cs "llm_d") (cs "127.0.0.1:8080") 17 18 ltac:(lia) ltac:(lia))) in H;
      [done|simpl; unfold SD_MAX_NAME_LEN; lia].
  - apply (instance_ids _ _ 17 18); [lia|lia|simpl; unfold SD_MAX_NAME_LEN; lia].
Defined.

(** ** A registered daemon is found *)

(** The instance that the registry holds after a registration. *)
Definition stored_instance (clk : nat -> Z) (getpid : Z) (id endpoint : cstr) : sd_instance_t :=
  set_pid getpid (set_register_time (clk 4%nat) (set_heartbeat (clk 3%nat) (helper_instance clk getpid id endpoint))).

Lemma init_helper h :
  sd_helper_init true true None = Some h ->
  registry_ok (h_sd h) /\ abs (h_sd h) = ∅ /\ config (h_sd h) = sd_create_default_config /\ registered h = false.
Proof.
  intros [= <-]. split_and!; [|done..].
  split_and!; [constructor|unfold service_count; simpl; lia|constructor].
Qed.

Lemma register_as_fresh clk getpid n ty id endpoint tg h :
  sd_helper_init true true None = Some h -> (length n < SD_MAX_NAME_LEN)%nat ->
  exists h', register_as clk getpid n ty id endpoint tg h = (0, h') /\
    registry_ok (h_sd h') /\ config (h_sd h') = sd_create_default_config /\
    service_name h' = n /\ h_instance_id h' = strcpy_cut SD_MAX_NAME_LEN id /\ registered h' = true /\
    heartbeat_running h' = false /\
    exists s, abs (h_sd h') = {[n := s]} /\
      insts s = {[strcpy_cut SD_MAX_NAME_LEN id := stored_instance clk getpid id endpoint]}.
Proof.
  intros Hi Hn. destruct (init_helper h Hi) as (Hok & Habs & Hcfg & _). unfold register_as.
  set (clk' := fun k => clk (2 + k)%nat). set (i := helper_instance clk getpid id endpoint).
  pose proof (register_steps sd_backend_shm clk' getpid n ty i (Some (default [] tg)) (Some []) (h_sd h) tt Hok Hn)
    as (rc & sd' & m' & Hstep & Hok' & Hc' & Hspec).
  unfold sd_step, quiet_out in Hstep.
  destruct (sd_register sd_backend_shm clk' getpid (Some n) (Some ty) (Some i) (Some (default [] tg)) (Some []) (h_sd h, tt))
    as [err [sd1 u]]. cbn [fst snd] in Hstep. injection Hstep as -> -> ->.
  rewrite Habs in Hspec. unfold spec_register in Hspec. rewrite lookup_empty, map_size_empty in Hspec.
  cbn -[new_entry insert] in Hspec. injection Hspec as <- Habs'.
  eexists. split; [reflexivity|]. cbn [h_sd set_registration set_h_sd service_name h_instance_id registered].
  rewrite strcpy_cut_short by done. split_and!; [done|by rewrite Hc'|done|done|done| |].
  - injection Hi as <-. done.
  - eexists. split; [by rewrite <- Habs'|]. done.
Qed.

(** An instance that is not stale survives a query and is what it returns. *)
Lemma found_alone clk n s id i max R' rc l :
  insts s = {[id := i]} -> healthy i = true -> (0 < max)%nat ->
  (forall k, ~ stale SD_DEFAULT_EXPIRE_MS (clk k) i) ->
  spec_expire sd_create_default_config clk {[n := s]} R' -> spec_found n max R' rc l ->
  rc = AIRY_SUCCESS /\ l = [i].
Proof.
  intros Hs Hh Hmax Hfresh He Hf. specialize (He n). rewrite lookup_singleton_eq in He.
  unfold spec_found in Hf. destruct (R' !! n) as [s'|].
  2:{ destruct He as [He _]. rewrite Hs in He. destruct (He id i) as [k Hk]; [apply lookup_singleton_eq|]. by destruct (Hfresh k). }
  destruct He as (_ & Hsub & _ & Hdead & _). rewrite Hs in Hsub, Hdead.
  assert (Hi : insts s' = {[id := i]}).
  { apply map_eq. intros k. destruct (insts s' !! k) as [v|] eqn:E.
    - symmetry. by apply (lookup_weaken _ _ _ _ E Hsub).
    - destruct (decide (k = id)) as [->|Hne]; [|by rewrite lookup_singleton_ne].
      destruct (Hdead id i) as [q Hq]; [apply lookup_singleton_eq|done|]. by destruct (Hfresh q). }
  rewrite Hi, map_to_list_singleton in Hf. destruct Hf as (-> & l0 & Hp & ->). split; [done|].
  cbn in Hp. apply Permutation_singleton_r in Hp as ->. rewrite filter_cons, decide_True by done.
  destruct max; [lia|]. cbn. by rewrite take_nil.
Qed.

(** A daemon that boots is registered: until its heartbeat is older than
    the time-out, a query for its name returns its instance, and stopping the
    daemon takes the instance out of the registry. *)
Theorem bootstrap_registers clk getpid n ty sock tg ttl_ms :
  (length n < SD_MAX_NAME_LEN)%nat -> n <> [] ->
  let id := build_instance_id n sock getpid in let i := stored_instance clk getpid id sock in
  exists b h, daemon_bootstrap_sd_start_unix clk getpid true true true (Some n) (Some ty) (Some sock) tg ttl_ms = Some b /\
    daemon_bootstrap_sd_get_helper (Some b) = Some h /\
    (forall clk2 max, (0 < max)%nat -> (forall k, ~ stale SD_DEFAULT_EXPIRE_MS (clk2 k) i) ->
       exists h', sd_helper_find clk2 (Some h) (Some n) true max = Done (0, Some [i], h')) /\
    (forall clk3, exists sd s, daemon_bootstrap_sd_stop clk3 (Some b) = Some sd /\ abs sd = {[n := s]} /\ insts s = ∅).
Proof.
  intros Hn Hne id i.
  destruct (sd_helper_init true true None) as [h0|] eqn:Hinit; [|done].
  destruct (register_as_fresh clk getpid n ty id sock tg h0 Hinit Hn)
    as (h1 & Hreg & Hok & Hcfg & Hname & Hid & Hr & Hrun & s & Habs & Hins).
  set (h := set_heartbeat_state true true h1).
  exists (Bootstrap (Some h) true (take 62 n)), h. split.
  { unfold daemon_bootstrap_sd_start_unix, bootstrap_with. rewrite Hinit. cbn [negb].
    unfold sd_helper_register_unix. fold id. rewrite Hreg. unfold sd_helper_start_heartbeat. by rewrite Hrun, Hr. }
  split; [done|]. split.
  - intros clk2 max Hmax Hfresh. unfold sd_helper_find. cbn [negb].
    change (h_sd h) with (h_sd h1).
    destruct (discover_refines sd_backend_shm clk2 n max (h_sd h1) tt Hok) as (rc & l & sd' & m' & -> & _ & _ & He & Hf).
    rewrite Hcfg, Habs in He. destruct (found_alone clk2 n s _ i max _ rc l Hins eq_refl Hmax Hfresh He Hf) as [-> ->].
    cbn [rbind]. by eexists.
  - intros clk3. unfold daemon_bootstrap_sd_stop, sd_helper_shutdown. cbn [sdh].
    change (sd_helper_stop_heartbeat (Some h)) with (Some (set_heartbeat_state false false h)). cbv beta iota.
    change (registered (set_heartbeat_state false false h)) with (registered h1).
    change (service_name (set_heartbeat_state false false h)) with (service_name h1).
    change (h_instance_id (set_heartbeat_state false false h)) with (h_instance_id h1).
    change (h_sd (set_heartbeat_state false false h)) with (h_sd h1). rewrite Hr, Hname, bool_decide_eq_false_2 by done. cbn [andb negb].
    pose proof (deregister_steps sd_backend_shm clk3 n (h_instance_id h1) (h_sd h1) tt Hok) as (rc & sd' & m' & Hstep & _ & _ & Hspec).
    unfold sd_step, quiet_out in Hstep. rewrite Hid in *.
    destruct (sd_deregister sd_backend_shm clk3 (Some n) (Some (strcpy_cut SD_MAX_NAME_LEN id)) (h_sd h1, tt)) as [err [sd2 u]].
    cbn [fst snd] in *. injection Hstep as -> -> ->. exists sd'. unfold spec_deregister, spec_update in Hspec.
    rewrite Habs, lookup_singleton_eq in Hspec. cbn [mbind option_bind] in Hspec. rewrite Hins, lookup_singleton_eq in Hspec.
    cbn [mbind option_bind] in Hspec. injection Hspec as _ Habs'. eexists. split; [done|]. split; [by rewrite <- Habs', insert_singleton_eq|].
    cbn [insts]. apply delete_singleton_eq.
Qed.

Lemma bootstrap_registers_witness :
  let clk := at_time 1000 in let id := build_instance_id (cs "llm_d") (cs "/run/llm.sock") 17 in
  let i := stored_instance clk 17 id (cs "/run/llm.sock") in
  exists b h, daemon_bootstrap_sd_start_unix clk 17 true true true (Some (cs "llm_d")) (Some (cs "llm"))
      (Some (cs "/run/llm.sock")) None 0 = Some b /\
    daemon_bootstrap_sd_get_helper (Some b) = Some h /\
    (forall clk2 max, (0 < max)%nat -> (forall k, ~ stale SD_DEFAULT_EXPIRE_MS (clk2 k) i) ->
       exists h', sd_helper_find clk2 (Some h) (Some (cs "llm_d")) true max = Done (0, Some [i], h')) /\
    (forall clk3, exists sd s, daemon_bootstrap_sd_stop clk3 (Some b) = Some sd /\ abs sd = {[cs "llm_d" := s]} /\ insts s = ∅).
Proof.
  apply (bootstrap_registers (at_time 1000) 17 (cs "llm_d") (cs "llm") (cs "/run/llm.sock") None 0);
    [simpl; unfold SD_MAX_NAME_LEN; lia|done].
Defined.
