(* ===== verification/ThreadPool.v ===== *)
(** * Thread pool: utils/sync/thread_pool.c

    The queue of tasks as the linked list that the code keeps (the nodes in a
    heap, the two pointers, the count), the workers by their place in
    [worker_thread_func], and the calls of clients.  Each critical section of
    the pool's lock is one step, and so is the call of a task, its return and
    the wait for the lock after it; a schedule is any list of steps, those that
    are not enabled being skipped.  The condition variable wakes one waiting
    worker on a signal, whichever the schedule names, and any waiting worker at
    any time (a spurious wake-up).  [None] is undefined behaviour: a pointer
    that is followed has no object. *)
From S2P Require Import Prelude.

(** ** Data *)

Record task_node_t := Node {
  fn : Z;
  arg : Z;
  next : option positive;
}.

Record thread_pool_config_t := Config {
  min_threads : Z;
  max_threads : Z;
  queue_size : Z;
  idle_timeout_ms : Z;
}.

(** [threads] is the array of handles; a slot whose creation failed stays
    zero, [None]. *)
Record thread_pool_s := Pool {
  config : thread_pool_config_t;
  threads : list (option nat);
  thread_count : Z;
  queue_head : option positive;
  queue_tail : option positive;
  queue_count : Z;
  active_count : Z;
  running : bool;
  shutdown : bool;
}.

(** Where a worker is in its loop: about to take the lock or to test the
    condition again ([Ready]), in [airy_cond_wait] ([Waiting]), with a task that
    it unlinked ([Taken]), inside the function of the task ([Running]), with the
    node freed and [active_count] not yet decreased ([Finishing]), or out of the
    loop ([Exited]). *)
Inductive worker := Ready | Waiting | Taken (node : positive) | Running (node : positive) | Finishing | Exited.

#[export] Instance worker_eq_dec : EqDecision worker.
Proof. solve_decision. Defined.

Record world := World {
  pool : thread_pool_s;
  nodes : gmap positive task_node_t;
  workers : list worker;
}.

(** What a schedule lets an observer see: the code that a submission returns,
    and the tasks that a worker unlinks, calls and sees return. *)
Inductive event :=
  | Submitted (code : Z) (task : Z * Z)
  | Took (w : nat) (task : Z * Z)
  | Called (w : nat) (task : Z * Z)
  | Returned (w : nat) (task : Z * Z).

(** ** Creation *)

Definition thread_pool_get_default_config : thread_pool_config_t := Config 2 8 256 30000.

(** The loop over [num_threads] slots: [creates i] is what [airy_thread_create]
    returns for slot [i], [k] the number of workers made so far. *)
Fixpoint create_threads (creates : nat -> Z) (i k n : nat) : list (option nat) :=
  match n with
  | O => []
  | S n' => if creates i =? 0 then Some k :: create_threads creates (S i) (S k) n'
            else None :: create_threads creates (S i) k n'
  end.

Definition num_threads (cfg : thread_pool_config_t) : Z :=
  let n := if min_threads cfg <? 1 then 1 else min_threads cfg in
  if max_threads cfg <? n then max_threads cfg else n.

(** [pool_ok] and [threads_ok] are the answers of the allocator. *)
Definition thread_pool_create (cfg : option thread_pool_config_t) (pool_ok threads_ok : bool)
    (creates : nat -> Z) : option world :=
  if negb pool_ok then None
  else
    let cfg := default thread_pool_get_default_config cfg in
    if negb threads_ok then None
    else
      let slots := create_threads creates 0 0 (Z.to_nat (num_threads cfg)) in
      let made := omap id slots in
      let threads := slots ++ replicate (Z.to_nat (max_threads cfg) - length slots) None in
      if (length made =? 0)%nat then None
      else Some (World (Pool cfg threads (Z.of_nat (length made)) None None 0 0 true false) ∅
                   (replicate (length made) Ready)).

(** ** Steps of the clients *)

(** [airy_cond_signal]: the waiting worker [pick], else the first that waits. *)
Definition signal (pick : nat) (ws : list worker) : list worker :=
  match ws !! pick with
  | Some Waiting => <[pick := Ready]> ws
  | _ => match list_find (fun w => w = Waiting) ws with
         | Some (i, _) => <[i := Ready]> ws
         | None => ws
         end
  end.

Definition broadcast (ws : list worker) : list worker :=
  map (fun w => match w with Waiting => Ready | _ => w end) ws.

(** The part of [thread_pool_submit] that links a node at the tail; [None] when
    the tail points to no node. *)
Definition enqueue (a : positive) (p : thread_pool_s) (ns : gmap positive task_node_t)
    : option (thread_pool_s * gmap positive task_node_t) :=
  let finish head ns :=
    (Pool (config p) (threads p) (thread_count p) head (Some a) (u32 (queue_count p + 1))
       (active_count p) (running p) (shutdown p), ns) in
  match queue_tail p with
  | Some t => match ns !! t with
              | Some n => Some (finish (queue_head p) (<[t := Node (fn n) (arg n) (Some a)]> ns))
              | None => None
              end
  | None => Some (finish (Some a) ns)
  end.

(** [task] is the function, [None] for NULL; [node_ok] is the answer of the
    allocator for the node, and [pick] the worker that the signal wakes. *)
Definition thread_pool_submit (w : world) (task : option Z) (arg : Z) (node_ok : bool) (pick : nat)
    : option (Z * world) :=
  match task with
  | None => Some (AIRY_ERR_INVALID_PARAM, w)
  | Some fn =>
      if negb (running (pool w)) then Some (AIRY_ERR_UNKNOWN, w)
      else if negb node_ok then Some (AIRY_ERR_OUT_OF_MEMORY, w)
      else
        let a := fresh (dom (nodes w)) in
        let ns := <[a := Node fn arg None]> (nodes w) in
        if shutdown (pool w) then Some (AIRY_ERR_UNKNOWN, World (pool w) (delete a ns) (workers w))
        else if queue_size (config (pool w)) <=? queue_count (pool w) then
          Some (AIRY_ERR_OVERFLOW, World (pool w) (delete a ns) (workers w))
        else
          match enqueue a (pool w) ns with
          | Some (p', ns') => Some (0, World p' ns' (signal pick (workers w)))
          | None => None
          end
  end.

(** The first critical section of [thread_pool_destroy]. *)
Definition begin_shutdown (w : world) : world :=
  let p := pool w in
  World (Pool (config p) (threads p) (thread_count p) (queue_head p) (queue_tail p) (queue_count p)
           (active_count p) (running p) true) (nodes w) (broadcast (workers w)).

(** The rest of [thread_pool_destroy]: [airy_thread_join] returns for a worker
    that has left its loop ([Some false] stands for a join that still waits) and
    is undefined on a slot without a thread; the nodes still queued are freed. *)
Fixpoint join_all (ws : list worker) (slots : list (option nat)) : option bool :=
  match slots with
  | [] => Some true
  | Some i :: slots' => match ws !! i with
                        | Some Exited => join_all ws slots'
                        | Some _ => Some false
                        | None => None
                        end
  | None :: _ => None
  end.

Fixpoint free_nodes (fuel : nat) (node : option positive) (ns : gmap positive task_node_t)
    : option (gmap positive task_node_t) :=
  match node with
  | None => Some ns
  | Some a => match fuel, ns !! a with
              | S fuel', Some n => free_nodes fuel' (next n) (delete a ns)
              | _, _ => None
              end
  end.

Definition finish_destroy (w : world) : option (bool * gmap positive task_node_t) :=
  match join_all (workers w) (take (Z.to_nat (thread_count (pool w))) (threads (pool w))) with
  | Some true => match free_nodes (S (size (nodes w))) (queue_head (pool w)) (nodes w) with
                 | Some ns => Some (true, ns)
                 | None => None
                 end
  | Some false => Some (false, nodes w)
  | None => None
  end.

Definition thread_pool_active_count (p : option thread_pool_s) : Z :=
  match p with Some p => active_count p | None => 0 end.

Definition thread_pool_pending_count (p : option thread_pool_s) : Z :=
  match p with Some p => queue_count p | None => 0 end.

Definition thread_pool_is_running (p : option thread_pool_s) : bool :=
  match p with Some p => running p | None => false end.

(** ** Steps of the workers *)

(** The head of the queue is unlinked. *)
Definition dequeue (p : thread_pool_s) (ns : gmap positive task_node_t)
    : option (option (positive * task_node_t) * thread_pool_s) :=
  match queue_head p with
  | None => Some (None, p)
  | Some a =>
      match ns !! a with
      | None => None
      | Some n =>
          let tail := match next n with None => None | Some _ => queue_tail p end in
          Some (Some (a, n), Pool (config p) (threads p) (thread_count p) (next n) tail
                               (u32 (queue_count p - 1)) (u32 (active_count p + 1)) (running p) (shutdown p))
      end
  end.

(** From the lock to the unlock, or to [airy_cond_wait]. *)
Definition worker_enter (i : nat) (w : world) : option (world * list event) :=
  let p := pool w in
  let goto x p := World p (nodes w) (<[i := x]> (workers w)) in
  if (queue_count p =? 0) && negb (shutdown p) then Some (goto Waiting p, [])
  else if shutdown p && (queue_count p =? 0) then Some (goto Exited p, [])
  else
    match dequeue p (nodes w) with
    | Some (Some (a, n), p') => Some (goto (Taken a) p', [Took i (fn n, arg n)])
    | Some (None, p') => Some (goto Ready p', [])
    | None => None
    end.

Definition worker_call (i : nat) (a : positive) (w : world) : option (world * list event) :=
  match nodes w !! a with
  | Some n => Some (World (pool w) (nodes w) (<[i := Running a]> (workers w)), [Called i (fn n, arg n)])
  | None => None
  end.

(** The function returns and the node is freed. *)
Definition worker_return (i : nat) (a : positive) (w : world) : option (world * list event) :=
  match nodes w !! a with
  | Some n => Some (World (pool w) (delete a (nodes w)) (<[i := Finishing]> (workers w)),
                    [Returned i (fn n, arg n)])
  | None => None
  end.

Definition worker_leave (i : nat) (w : world) : world :=
  let p := pool w in
  World (Pool (config p) (threads p) (thread_count p) (queue_head p) (queue_tail p) (queue_count p)
           (u32 (active_count p - 1)) (running p) (shutdown p)) (nodes w) (<[i := Ready]> (workers w)).

(** One step of worker [i] in [worker_thread_func]; a worker that waits or has
    left the loop does not move by itself. *)
Definition worker_step (i : nat) (w : world) : option (world * list event) :=
  match workers w !! i with
  | Some Ready => worker_enter i w
  | Some (Taken a) => worker_call i a w
  | Some (Running a) => worker_return i a w
  | Some Finishing => Some (worker_leave i w, [])
  | _ => Some (w, [])
  end.

(** ** Schedules *)

Inductive act :=
  | Submit (task : option Z) (arg : Z) (node_ok : bool) (pick : nat)
  | Shutdown
  | Work (i : nat)
  | Spurious (i : nat).

Definition step (w : world) (a : act) : option (world * list event) :=
  match a with
  | Submit task arg ok pick =>
      match thread_pool_submit w task arg ok pick with
      | Some (code, w') => Some (w', [Submitted code (default 0 task, arg)])
      | None => None
      end
  | Shutdown => Some (begin_shutdown w, [])
  | Work i => worker_step i w
  | Spurious i => match workers w !! i with
                  | Some Waiting => Some (World (pool w) (nodes w) (<[i := Ready]> (workers w)), [])
                  | _ => Some (w, [])
                  end
  end.

Fixpoint run (w : world) (l : list act) : option (world * list event) :=
  match l with
  | [] => Some (w, [])
  | a :: l' =>
      match step w a with
      | Some (w1, e1) => match run w1 l' with
                         | Some (w2, e2) => Some (w2, e1 ++ e2)
                         | None => None
                         end
      | None => None
      end
  end.

(** The tasks accepted, unlinked, called and returned in a list of events. *)
Definition accepted (tr : list event) : list (Z * Z) :=
  omap (fun e => match e with Submitted code t => if code =? 0 then Some t else None | _ => None end) tr.
Definition took (tr : list event) : list (Z * Z) :=
  omap (fun e => match e with Took _ t => Some t | _ => None end) tr.
Definition called (tr : list event) : list (Z * Z) :=
  omap (fun e => match e with Called _ t => Some t | _ => None end) tr.
Definition returned (tr : list event) : list (Z * Z) :=
  omap (fun e => match e with Returned _ t => Some t | _ => None end) tr.

(** ** Invariant *)

(** [q] lists the queued nodes with their tasks, from the head. *)
Fixpoint chain (ns : gmap positive task_node_t) (h : option positive) (q : list (positive * (Z * Z))) : Prop :=
  match q with
  | [] => h = None
  | (a, t) :: q' => h = Some a /\ exists nx, ns !! a = Some (Node t.1 t.2 nx) /\ chain ns nx q'
  end.

Definition held (ws : list worker) : list positive :=
  omap (fun x => match x with Taken a | Running a => Some a | _ => None end) ws.

Definition task_at (ns : gmap positive task_node_t) (a : positive) : option (Z * Z) :=
  (fun n => (fn n, arg n)) <$> ns !! a.

(** The tasks that are unlinked and not called, and those that are running. *)
Definition to_call (ns : gmap positive task_node_t) (ws : list worker) : list (Z * Z) :=
  omap (fun x => match x with Taken a => task_at ns a | _ => None end) ws.
Definition in_call (ns : gmap positive task_node_t) (ws : list worker) : list (Z * Z) :=
  omap (fun x => match x with Running a => task_at ns a | _ => None end) ws.

Definition active (x : worker) : bool :=
  match x with Taken _ | Running _ | Finishing => true | _ => false end.
Definition ready (x : worker) : bool := match x with Ready => true | _ => false end.
Definition tally (f : worker -> bool) (ws : list worker) : nat := length (filter (fun x => f x = true) ws).

Record heap_ok (p : thread_pool_s) (ns : gmap positive task_node_t) (h : list positive)
    (q : list (positive * (Z * Z))) : Prop := HeapOk {
  ok_chain : chain ns (queue_head p) q;
  ok_tail : queue_tail p = fst <$> last q;
  ok_count : queue_count p = Z.of_nat (length q);
  ok_nodup : NoDup (q.*1 ++ h);
  ok_dom : forall a, is_Some (ns !! a) <-> a ∈ q.*1 ++ h;
}.

Record trace_ok (tr : list event) (ns : gmap positive task_node_t) (ws : list worker)
    (q : list (positive * (Z * Z))) : Prop := TraceOk {
  ok_accepted : accepted tr = took tr ++ q.*2;
  ok_took : took tr ≡ₚ called tr ++ to_call ns ws;
  ok_called : called tr ≡ₚ returned tr ++ in_call ns ws;
}.

Record sched_ok (p : thread_pool_s) (ws : list worker) (n : nat) : Prop := SchedOk {
  ok_some : ws <> [];
  ok_active : active_count p = Z.of_nat (tally active ws);
  ok_width : Z.of_nat (length ws) < 2 ^ 32 /\ queue_size (config p) < 2 ^ 32;
  ok_bound : Z.of_nat n <= queue_size (config p);
  ok_running : running p = true;
  ok_exited : Exited ∈ ws -> shutdown p = true /\ n = O;
  ok_waiting : Waiting ∈ ws -> shutdown p = false /\ (n <= tally ready ws)%nat;
}.

Definition pool_inv (w : world) (tr : list event) : Prop :=
  exists q, heap_ok (pool w) (nodes w) (held (workers w)) q
         /\ trace_ok tr (nodes w) (workers w) q
         /\ sched_ok (pool w) (workers w) (length q).

(** ** Lists of workers *)

Lemma insert_split (ws : list worker) i x :
  ws !! i = Some x -> exists l1 l2, ws = l1 ++ x :: l2 /\ forall y, <[i := y]> ws = l1 ++ y :: l2.
Proof.
  intros H. exists (take i ws), (drop (S i) ws). split; [by rewrite take_drop_middle|].
  intros y. pose proof (lookup_lt_Some _ _ _ H). rewrite insert_take_drop by lia. done.
Qed.

Lemma held_app l1 l2 : held (l1 ++ l2) = held l1 ++ held l2.
Proof. apply omap_app. Qed.
Lemma to_call_app ns l1 l2 : to_call ns (l1 ++ l2) = to_call ns l1 ++ to_call ns l2.
Proof. apply omap_app. Qed.
Lemma in_call_app ns l1 l2 : in_call ns (l1 ++ l2) = in_call ns l1 ++ in_call ns l2.
Proof. apply omap_app. Qed.
Lemma tally_app f l1 l2 : tally f (l1 ++ l2) = (tally f l1 + tally f l2)%nat.
Proof. unfold tally. by rewrite filter_app, length_app. Qed.
Lemma tally_cons f x l : tally f (x :: l) = ((if f x then 1 else 0) + tally f l)%nat.
Proof. unfold tally. rewrite filter_cons. destruct (f x); done. Qed.
Lemma tally_le f l : (tally f l <= length l)%nat.
Proof. apply length_filter. Qed.

Lemma accepted_app t1 t2 : accepted (t1 ++ t2) = accepted t1 ++ accepted t2.
Proof. apply omap_app. Qed.
Lemma took_app t1 t2 : took (t1 ++ t2) = took t1 ++ took t2.
Proof. apply omap_app. Qed.
Lemma called_app t1 t2 : called (t1 ++ t2) = called t1 ++ called t2.
Proof. apply omap_app. Qed.
Lemma returned_app t1 t2 : returned (t1 ++ t2) = returned t1 ++ returned t2.
Proof. apply omap_app. Qed.

Create Rewrite HintDb pool_lists.
#[export] Hint Rewrite held_app to_call_app in_call_app tally_app tally_cons
  accepted_app took_app called_app returned_app length_app app_nil_r : pool_lists.

(** The tasks that workers hold depend on the nodes they hold only. *)
Lemma held_tasks_ext ns ns' ws :
  (forall a, a ∈ held ws -> task_at ns' a = task_at ns a) ->
  to_call ns' ws = to_call ns ws /\ in_call ns' ws = in_call ns ws.
Proof.
  induction ws as [|x ws IH]; intros H; [done|].
  change (x :: ws) with ([x] ++ ws) in *. setoid_rewrite held_app in H.
  rewrite !to_call_app, !in_call_app.
  destruct IH as [-> ->]; [intros a Ha; apply H; set_solver|].
  destruct x; try done; cbn; rewrite (H node) by (cbn; set_solver); done.
Qed.

Lemma pool_chain_ext ns ns' q h :
  (forall a, a ∈ q.*1 -> ns' !! a = ns !! a) -> chain ns h q -> chain ns' h q.
Proof.
  revert h. induction q as [|[a t] q IH]; intros h Hext; [done|].
  intros (-> & nx & Ha & Hc). split; [done|]. exists nx. rewrite Hext by set_solver.
  split; [done|]. apply IH; [|done]. intros b Hb. apply Hext. set_solver.
Qed.

(** ** Steps of the queue *)

Lemma fresh_unused (p : thread_pool_s) ns h q : heap_ok p ns h q -> fresh (dom ns) ∉ q.*1 ++ h.
Proof.
  intros Hok Hin. apply (ok_dom _ _ _ _ Hok) in Hin. apply elem_of_dom in Hin.
  by apply is_fresh in Hin.
Qed.

Lemma pool_chain_snoc ns h q a t lt l :
  chain ns h (q ++ [lt]) -> a ∉ (q ++ [lt]).*1 -> NoDup (q ++ [lt]).*1 ->
  ns !! lt.1 = Some l -> ns !! a = Some (Node t.1 t.2 None) ->
  chain (<[lt.1 := Node (fn l) (arg l) (Some a)]> ns) h (q ++ [lt] ++ [(a, t)]).
Proof.
  revert h. induction q as [|[b u] q IH]; intros h Hc Ha Hnd Hl Hn.
  - destruct lt as [b u]. cbn in *. destruct Hc as (-> & nx & Hb & ->).
    rewrite Hb in Hl. injection Hl as <-. split; [done|]. exists (Some a). simplify_map_eq.
    split; [done|]. split; [done|]. exists None. rewrite lookup_insert_ne by set_solver. done.
  - cbn in Hc. destruct Hc as (-> & nx & Hb & Hc). cbn. split; [done|]. exists nx.
    cbn in Hnd, Ha. apply NoDup_cons in Hnd as [Hb1 Hnd].
    assert (lt.1 <> b) by (intros <-; apply Hb1; rewrite fmap_app; set_solver).
    rewrite lookup_insert_ne by done. split; [done|]. apply IH; try done. set_solver.
Qed.

Lemma enqueue_ok p ns h q a t :
  heap_ok p ns h q -> a ∉ q.*1 ++ h -> Z.of_nat (length q) + 1 < 2 ^ 32 ->
  exists p' ns', enqueue a p (<[a := Node t.1 t.2 None]> ns) = Some (p', ns')
    /\ heap_ok p' ns' h (q ++ [(a, t)])
    /\ (forall b, b ∈ h -> task_at ns' b = task_at ns b)
    /\ config p' = config p /\ active_count p' = active_count p /\ running p' = running p /\ shutdown p' = shutdown p.
Proof.
  intros [Hc Ht Hn Hnd Hd] Ha Hlt. unfold enqueue. rewrite Ht.
  assert (Hnd' : NoDup ((q ++ [(a, t)]).*1 ++ h)).
  { rewrite fmap_app, <- app_assoc. cbn. rewrite <- Permutation_middle. by apply NoDup_cons. }
  destruct q as [|[b u] q _] using rev_ind; cbn.
  - do 2 eexists. split_and!; try done.
    + constructor; cbn; try done.
      * split; [done|]. exists None. by simplify_map_eq.
      * by rewrite Hn.
      * intros c. rewrite elem_of_cons, <- Hd. cbn.
        destruct (decide (c = a)) as [->|]; simplify_map_eq; naive_solver.
    + intros c Hc'. unfold task_at. rewrite lookup_insert_ne; [done|]. set_solver.
  - rewrite last_snoc. cbn. assert (Hb : is_Some (ns !! b)) by (apply Hd; set_solver).
    destruct Hb as [l Hb]. assert (a <> b) by set_solver.
    rewrite lookup_insert_ne, Hb by done. do 2 eexists. split_and!; try done.
    + constructor; cbn; try done.
      * rewrite <- app_assoc. apply pool_chain_snoc with (lt := (b, u)); cbn; simplify_map_eq; try done.
        -- eapply pool_chain_ext; [|done]. intros c Hc'. rewrite lookup_insert_ne; [done|set_solver].
        -- set_solver.
        -- by apply NoDup_app in Hnd as [? _].
      * by rewrite last_snoc.
      * rewrite Hn, !length_app in *. cbn in *. rewrite u32_small; lia.
      * intros c. rewrite fmap_app, <- app_assoc, elem_of_app. cbn. rewrite elem_of_cons.
        specialize (Hd c). rewrite elem_of_app in Hd.
        destruct (decide (c = b)) as [->|]; simplify_map_eq; [naive_solver|].
        destruct (decide (c = a)) as [->|]; simplify_map_eq; naive_solver.
    + intros c Hc'. unfold task_at. destruct (decide (c = b)) as [->|].
      * by simplify_map_eq.
      * rewrite !lookup_insert_ne; [done|set_solver|done].
Qed.

Lemma dequeue_ok p ns h a t q :
  heap_ok p ns h ((a, t) :: q) -> Z.of_nat (length ((a, t) :: q)) < 2 ^ 32 ->
  exists p' nx, dequeue p ns = Some (Some (a, Node t.1 t.2 nx), p') /\ heap_ok p' ns (a :: h) q
    /\ config p' = config p /\ active_count p' = u32 (active_count p + 1)
    /\ running p' = running p /\ shutdown p' = shutdown p.
Proof.
  intros [Hc Ht Hn Hnd Hd] Hlt. destruct Hc as (Hh & nx & Ha & Hc). cbn [length] in *.
  unfold dequeue. rewrite Hh, Ha. do 2 eexists. split; [done|]. split; [|done]. constructor; cbn; try done.
  - rewrite Ht. destruct q as [|[b u] q]; cbn in *; [by rewrite Hc|]. by destruct Hc as [-> _].
  - rewrite Hn, u32_small; lia.
  - by rewrite <- Permutation_middle.
  - intros b. rewrite Hd. cbn. set_solver.
Qed.

(** The order of the list of held nodes does not matter. *)
Lemma heap_ok_perm p ns h h' q : h ≡ₚ h' -> heap_ok p ns h q -> heap_ok p ns h' q.
Proof. intros Hp []. constructor; try done; [by rewrite <- Hp|intros a; by rewrite <- Hp]. Qed.

Lemma free_held p ns h h' a q : h ≡ₚ a :: h' -> heap_ok p ns h q -> heap_ok p (delete a ns) h' q.
Proof.
  intros Hp Hok. apply (heap_ok_perm _ _ _ _ _ Hp) in Hok. destruct Hok as [Hc Ht Hn Hnd Hd].
  rewrite <- Permutation_middle in Hnd. apply NoDup_cons in Hnd as [Ha Hnd]. constructor; try done.
  - eapply pool_chain_ext; [|done]. intros b Hb. rewrite lookup_delete_ne; [done|]. set_solver.
  - intros b. destruct (decide (b = a)) as [->|]; simplify_map_eq.
    + split; [by intros []|done].
    + rewrite Hd. set_solver.
Qed.

(** ** Steps preserve the invariant *)

Lemma sched_ok_pool p p' ws n :
  config p' = config p -> active_count p' = active_count p -> running p' = running p -> shutdown p' = shutdown p ->
  sched_ok p ws n -> sched_ok p' ws n.
Proof. intros E1 E2 E3 E4 []. constructor; by rewrite ?E1, ?E2, ?E3, ?E4. Qed.

(** A worker goes from [x] to [y] while the queue goes from [n] to [n']. *)
Lemma sched_move p p' l1 x y l2 n n' :
  sched_ok p (l1 ++ x :: l2) n ->
  config p' = config p -> running p' = running p -> shutdown p' = shutdown p ->
  active_count p' = u32 (active_count p + Z.of_nat (if active y then 1 else 0) - Z.of_nat (if active x then 1 else 0)) ->
  (n' <= n)%nat ->
  (y = Exited -> shutdown p = true /\ n' = O) -> (y = Waiting -> shutdown p = false /\ n' = O) ->
  (n' = O \/ (if ready x then 1 else 0) + n' <= n + (if ready y then 1 else 0))%nat ->
  sched_ok p' (l1 ++ y :: l2) n'.
Proof.
  intros [Hne Ha Hw Hb Hr He Hwt] E1 E2 E3 E4 Hn Hy1 Hy2 Hbal.
  pose proof (tally_le active (l1 ++ y :: l2)) as Hle.
  autorewrite with pool_lists in *. cbn [length] in *.
  constructor; rewrite ?E1, ?E2, ?E3; autorewrite with pool_lists; cbn [length]; try (done || lia).
  - by destruct l1.
  - rewrite E4, Ha, u32_small; destruct (active x), (active y); lia.
  - intros [Hin|[<-|Hin]%elem_of_cons]%elem_of_app; [|by apply Hy1|];
      (destruct He as [? ->]; [set_solver|split; [done|lia]]).
  - intros [Hin|[<-|Hin]%elem_of_cons]%elem_of_app; [|destruct Hy2 as [? ->]; [done|split; [done|lia]]|];
      (destruct Hwt as [? Hwt]; [set_solver|]; split; [done|]; destruct (ready x), (ready y); lia).
Qed.

Lemma task_of ns a n : ns !! a = Some n -> task_at ns a = Some (fn n, arg n).
Proof. intros H. unfold task_at. by rewrite H. Qed.

(** What a held node gives: it is allocated. *)
Lemma held_node p ns h q a : heap_ok p ns h q -> a ∈ h -> exists n, ns !! a = Some n.
Proof. intros Hok Ha. apply (ok_dom _ _ _ _ Hok). set_solver. Qed.

Lemma active_range p ws n : sched_ok p ws n -> 0 <= active_count p < 2 ^ 32.
Proof. intros []. pose proof (tally_le active ws). lia. Qed.

Lemma active_same p ws n d : sched_ok p ws n -> active_count p = u32 (active_count p + d - d).
Proof. intros H. pose proof (active_range _ _ _ H). rewrite u32_small; lia. Qed.

(** Opens the list of workers of [w] at worker [i] and the parts of the
    invariant. *)
Ltac open_inv Hi H :=
  destruct H as (q & Hh & Ht & Hs); destruct (insert_split _ _ _ Hi) as (l1 & l2 & E & Ei);
  match type of Hi with workers ?w !! _ = _ => destruct w as [p ns ws] end;
  cbn [pool nodes workers] in *; rewrite E in *.

(** The permutations between the lists of tasks. *)
Ltac open_trace Ht :=
  let H1 := fresh in let H2 := fresh in let H3 := fresh in
  destruct Ht as [H1 H2 H3]; constructor; autorewrite with pool_lists in *;
  [try done|try (rewrite H2)|try (rewrite H3)]; cbn.

Lemma pool_call_ok i a w tr :
  workers w !! i = Some (Taken a) -> pool_inv w tr ->
  exists w' e, worker_call i a w = Some (w', e) /\ pool_inv w' (tr ++ e).
Proof.
  intros Hi H. open_inv Hi H. unfold worker_call; cbn.
  destruct (held_node _ _ _ _ a Hh) as [n Ha]; [autorewrite with pool_lists; cbn; set_solver|].
  rewrite Ha. do 2 eexists. split; [done|]. exists q. cbn. rewrite Ei. split_and!.
  - revert Hh. by autorewrite with pool_lists.
  - open_trace Ht; rewrite (task_of _ _ _ Ha); cbn; solve_Permutation.
  - eapply sched_move; try done; [by eapply active_same|right; cbn; lia].
Qed.

Lemma return_ok i a w tr :
  workers w !! i = Some (Running a) -> pool_inv w tr ->
  exists w' e, worker_return i a w = Some (w', e) /\ pool_inv w' (tr ++ e).
Proof.
  intros Hi H. open_inv Hi H. unfold worker_return; cbn.
  destruct (held_node _ _ _ _ a Hh) as [n Ha]; [autorewrite with pool_lists; cbn; set_solver|].
  rewrite Ha. do 2 eexists. split; [done|]. exists q. cbn. rewrite Ei.
  assert (Hp : held (l1 ++ Running a :: l2) ≡ₚ a :: held (l1 ++ Finishing :: l2))
    by (autorewrite with pool_lists; cbn; solve_Permutation).
  pose proof (free_held _ _ _ _ _ _ Hp Hh) as Hh'. split_and!; [done| |].
  - pose proof (ok_nodup _ _ _ _ Hh) as Hnd. apply NoDup_app in Hnd as (_ & _ & Hnd). rewrite Hp in Hnd.
    apply NoDup_cons in Hnd as [Hni _].
    destruct (held_tasks_ext ns (delete a ns) (l1 ++ Finishing :: l2)) as [E1 E2].
    { intros b Hb. unfold task_at. rewrite lookup_delete_ne; [done|]. set_solver. }
    destruct Ht as [H1 H2 H3]. constructor; rewrite ?E1, ?E2; clear E1 E2; autorewrite with pool_lists in *; [done..|].
    rewrite H3. cbn. rewrite (task_of _ _ _ Ha). cbn. solve_Permutation.
  - eapply sched_move; try done; [by eapply active_same|right; cbn; lia].
Qed.

Lemma leave_ok i w tr :
  workers w !! i = Some Finishing -> pool_inv w tr -> pool_inv (worker_leave i w) tr.
Proof.
  intros Hi H. open_inv Hi H. exists q. unfold worker_leave; cbn. rewrite Ei. split_and!.
  - revert Hh. autorewrite with pool_lists. intros []. by constructor.
  - destruct Ht. by constructor; autorewrite with pool_lists in *.
  - eapply sched_move; try done; cbn; [f_equal; lia|]. right. lia.
Qed.

Lemma enter_ok i w tr :
  workers w !! i = Some Ready -> pool_inv w tr ->
  exists w' e, worker_enter i w = Some (w', e) /\ pool_inv w' (tr ++ e).
Proof.
  intros Hi H. open_inv Hi H. unfold worker_enter; cbn. rewrite (ok_count _ _ _ _ Hh).
  destruct q as [|[a t] q]; cbn [length Z.of_nat Z.eqb].
  - destruct (shutdown p) eqn:Hsd; cbn; (do 2 eexists; split; [done|]; exists []; cbn; rewrite Ei;
      split_and!; [revert Hh; by autorewrite with pool_lists|
        destruct Ht; by constructor; autorewrite with pool_lists in *|
        eapply sched_move; try done; [by eapply active_same|by left]]).
  - replace (_ && _) with false by (by destruct (shutdown p)). cbn.
    rewrite andb_false_r.
    destruct (dequeue_ok _ _ _ _ _ _ Hh) as (p' & nx & -> & Hh' & E1 & E2 & E3 & E4).
    { destruct Hs. cbn [length] in *. lia. }
    do 2 eexists. split; [done|]. exists q. cbn. rewrite Ei. 
    assert (Ha : task_at ns a = Some t).
    { destruct (ok_chain _ _ _ _ Hh) as (_ & n & Ha & _). rewrite (task_of _ _ _ Ha). by destruct t. }
    split_and!.
    + eapply heap_ok_perm; [|done]. autorewrite with pool_lists. cbn. solve_Permutation.
    + open_trace Ht.
      * rewrite <- app_assoc. by destruct t.
      * rewrite Ha. destruct t. cbn. solve_Permutation.
      * done.
    + eapply sched_move; try done; cbn; [rewrite E2; f_equal; lia|lia|right; lia].
Qed.

(** Wake-ups change the workers that wait only. *)
Definition wakes (ws ws' : list worker) : Prop := Forall2 (fun x y => y = x \/ x = Waiting /\ y = Ready) ws ws'.

Lemma wakes_refl ws : wakes ws ws.
Proof. induction ws; constructor; auto. Qed.

Lemma wakes_one l1 l2 : wakes (l1 ++ Waiting :: l2) (l1 ++ Ready :: l2).
Proof. apply Forall2_app; [apply wakes_refl|]. constructor; [by right|apply wakes_refl]. Qed.

Lemma broadcast_wakes ws : wakes ws (broadcast ws) /\ (Waiting ∉ broadcast ws).
Proof.
  induction ws as [|x ws [IH1 IH2]]; [split; [constructor|set_solver]|].
  split; [constructor; [destruct x; auto|done]|]. destruct x; cbn; set_solver.
Qed.

Lemma signal_spec pick ws :
  (Waiting ∉ ws) /\ signal pick ws = ws \/
  exists l1 l2, ws = l1 ++ Waiting :: l2 /\ signal pick ws = l1 ++ Ready :: l2.
Proof.
  unfold signal. set (other := match list_find _ ws with Some _ => _ | None => _ end).
  assert (Ho : (Waiting ∉ ws) /\ other = ws \/ exists l1 l2, ws = l1 ++ Waiting :: l2 /\ other = l1 ++ Ready :: l2).
  { subst other. destruct (list_find _ ws) as [[i x]|] eqn:Hf.
    - apply list_find_Some in Hf as (Hi & -> & _). destruct (insert_split _ _ _ Hi) as (l1 & l2 & E & Ei).
      right. exists l1, l2. by rewrite Ei.
    - apply list_find_None in Hf. rewrite Forall_forall in Hf. left. split; [|done]. intros Hin. by apply (Hf _ Hin). }
  destruct (ws !! pick) as [[]|] eqn:Hp; try done.
  destruct (insert_split _ _ _ Hp) as (l1 & l2 & E & Ei). right. exists l1, l2. by rewrite Ei.
Qed.

Lemma signal_wakes pick ws : wakes ws (signal pick ws).
Proof. destruct (signal_spec pick ws) as [[_ ->]|(l1 & l2 & -> & ->)]; [apply wakes_refl|apply wakes_one]. Qed.

Lemma wakes_lists ns ws ws' :
  wakes ws ws' -> held ws' = held ws /\ to_call ns ws' = to_call ns ws /\ in_call ns ws' = in_call ns ws
    /\ tally active ws' = tally active ws /\ (tally ready ws <= tally ready ws')%nat /\ length ws' = length ws
    /\ (Exited ∈ ws' -> Exited ∈ ws) /\ (Waiting ∈ ws' -> Waiting ∈ ws).
Proof.
  induction 1 as [|x y ws ws' Hxy _ IH]; [done|].
  destruct IH as (E1 & E2 & E3 & E4 & E5 & E6 & E7 & E8).
  rewrite !tally_cons, !elem_of_cons. cbn [length]. change (x :: ws) with ([x] ++ ws).
  change (y :: ws') with ([y] ++ ws'). autorewrite with pool_lists. rewrite E1, E2, E3, E4, E6.
  destruct Hxy as [->|[-> ->]]; cbn [active ready]; split_and!; (done || lia || naive_solver).
Qed.

(** A wake-up keeps the invariant. *)
Lemma wake_sched p ws ws' n : wakes ws ws' -> sched_ok p ws n -> sched_ok p ws' n.
Proof.
  intros Hw []. destruct (wakes_lists ∅ _ _ Hw) as (_ & _ & _ & E4 & E5 & E6 & E7 & E8).
  constructor; rewrite ?E4, ?E6; try done; [|by auto|].
  - destruct Hw; [done|discriminate].
  - intros Hin. apply E8 in Hin. destruct (ok_waiting0 Hin). split; [done|lia].
Qed.

Lemma wake_ok p ns ws ws' tr : wakes ws ws' -> pool_inv (World p ns ws) tr -> pool_inv (World p ns ws') tr.
Proof.
  intros Hw (q & Hh & Ht & Hs). exists q. cbn [pool nodes workers] in *.
  destruct (wakes_lists ns _ _ Hw) as (E1 & E2 & E3 & _). rewrite E1.
  split; [done|]. split; [|by eapply wake_sched].
  destruct Ht. constructor; by rewrite ?E2, ?E3.
Qed.

(** The queue grows by one and one waiting worker is woken. *)
Lemma submit_sched p ws n pick :
  sched_ok p ws n -> shutdown p = false -> Z.of_nat n < queue_size (config p) ->
  sched_ok p (signal pick ws) (S n).
Proof.
  intros Hs Hsd Hn. pose proof (wake_sched _ _ _ _ (signal_wakes pick ws) Hs) as Hs'.
  destruct Hs'. constructor; try done; [lia|..].
  - intros Hin. destruct (ok_exited0 Hin). congruence.
  - intros Hin. split; [done|]. destruct (signal_spec pick ws) as [[Hni E]|(l1 & l2 & -> & E)]; rewrite E in *; [done|].
    destruct Hs as [_ _ _ _ _ _ Hwt]. destruct Hwt as [_ Hwt]; [set_solver|].
    revert Hwt. autorewrite with pool_lists. cbn [ready]. lia.
Qed.

Lemma submit_ok w tr task x ok pick :
  pool_inv w tr -> exists code w', thread_pool_submit w task x ok pick = Some (code, w')
    /\ pool_inv w' (tr ++ [Submitted code (default 0 task, x)]).
Proof.
  intros Hinv. unfold thread_pool_submit.
  assert (Hsame : forall code t, (code =? 0) = false -> pool_inv w (tr ++ [Submitted code t])).
  { intros code t Hc. destruct Hinv as (q & Hh & Ht & Hs). exists q. split_and!; [done| |done].
    destruct Ht. constructor; autorewrite with pool_lists; cbn; rewrite ?Hc, ?app_nil_r; done. }
  destruct task as [f|]; [|do 2 eexists; split; [done|by apply Hsame]].
  destruct (negb (running (pool w))); [do 2 eexists; split; [done|by apply Hsame]|].
  destruct ok; cbn [negb]; [|do 2 eexists; split; [done|by apply Hsame]].
  rewrite delete_insert_id by (apply not_elem_of_dom, is_fresh).
  replace (World (pool w) (nodes w) (workers w)) with w by (by destruct w).
  destruct (shutdown (pool w)) eqn:Hsd; [do 2 eexists; split; [done|by apply Hsame]|].
  destruct (_ <=? _) eqn:Hfull; [do 2 eexists; split; [done|by apply Hsame]|]. clear Hsame.
  destruct Hinv as (q & Hh & Ht & Hs). pose proof (fresh_unused _ _ _ _ Hh) as Hf.
  set (a := fresh (dom (nodes w))) in *. apply Z.leb_gt in Hfull. rewrite (ok_count _ _ _ _ Hh) in Hfull.
  destruct (enqueue_ok _ _ _ _ a (f, x) Hh Hf) as (p' & ns' & E & Hh' & Hext & E1 & E2 & E3 & E4).
  { destruct Hs. lia. }
  cbn in E. rewrite E. do 2 eexists. split; [done|]. exists (q ++ [(a, (f, x))]). cbn [pool nodes workers].
  pose proof (signal_wakes pick (workers w)) as Hw. destruct (wakes_lists ns' _ _ Hw) as (L1 & L2 & L3 & _).
  rewrite L1. split_and!; [done| |].
  - destruct (held_tasks_ext _ _ _ Hext) as [X1 X2]. destruct Ht as [H1 H2 H3].
    constructor; rewrite ?L2, ?L3, ?X1, ?X2; autorewrite with pool_lists; cbn; rewrite ?app_nil_r; [|done..].
    by rewrite H1, fmap_app, app_assoc.
  - rewrite length_app, Nat.add_1_r. apply (sched_ok_pool (pool w)); try done. by apply submit_sched.
Qed.

Lemma shutdown_ok w tr : pool_inv w tr -> pool_inv (begin_shutdown w) tr.
Proof.
  intros (q & Hh & Ht & Hs). destruct (broadcast_wakes (workers w)) as [Hw Hni].
  destruct (wakes_lists (nodes w) _ _ Hw) as (L1 & L2 & L3 & _).
  exists q. unfold begin_shutdown; cbn [pool nodes workers]. rewrite L1. split_and!.
  - destruct Hh. by constructor.
  - destruct Ht. by constructor; rewrite ?L2, ?L3.
  - apply (wake_sched _ _ _ _ Hw) in Hs. destruct Hs. constructor; try done. intros Hin. by destruct (ok_exited0 Hin).
Qed.

Lemma worker_step_ok i w tr :
  pool_inv w tr -> exists w' e, worker_step i w = Some (w', e) /\ pool_inv w' (tr ++ e).
Proof.
  intros H. unfold worker_step.
  destruct (workers w !! i) as [[]|] eqn:Hi;
    eauto using enter_ok, pool_call_ok, return_ok; try (do 2 eexists; split; [done|]; by rewrite app_nil_r).
  do 2 eexists. split; [done|]. rewrite app_nil_r. by apply leave_ok.
Qed.

Lemma step_ok w tr a : pool_inv w tr -> exists w' e, step w a = Some (w', e) /\ pool_inv w' (tr ++ e).
Proof.
  intros H. destruct a as [task x ok pick| |i|i]; cbn [step].
  - destruct (submit_ok w tr task x ok pick H) as (code & w' & -> & H'). eauto.
  - do 2 eexists. split; [done|]. rewrite app_nil_r. by apply shutdown_ok.
  - by apply worker_step_ok.
  - destruct (workers w !! i) as [[]|] eqn:Hi; do 2 eexists; (split; [done|]); rewrite app_nil_r; try done.
    destruct w as [p ns ws]. cbn in *. eapply wake_ok; [|done].
    destruct (insert_split _ _ _ Hi) as (l1 & l2 & -> & ->). apply wakes_one.
Qed.

Lemma pool_run_ok l w tr : pool_inv w tr -> exists w' e, run w l = Some (w', e) /\ pool_inv w' (tr ++ e).
Proof.
  revert w tr. induction l as [|a l IH]; intros w tr H; cbn [run].
  - do 2 eexists. split; [done|]. by rewrite app_nil_r.
  - destruct (step_ok w tr a H) as (w1 & e1 & -> & H1). destruct (IH _ _ H1) as (w2 & e2 & -> & H2).
    do 2 eexists. split; [done|]. by rewrite app_assoc.
Qed.

(** ** Creation *)

Definition config_ok (cfg : thread_pool_config_t) : Prop :=
  0 <= min_threads cfg < 2 ^ 32 /\ 0 <= max_threads cfg < 2 ^ 32 /\ 0 <= queue_size cfg < 2 ^ 32.

Lemma create_threads_length creates i k n : length (create_threads creates i k n) = n.
Proof. revert i k. induction n as [|n IH]; intros i k; cbn; [done|]. destruct (_ =? _); cbn; by rewrite IH. Qed.

Lemma length_omap_le {A B} (f : A -> option B) (l : list A) : (length (omap f l) <= length l)%nat.
Proof. induction l as [|x l IH]; cbn; [done|]. destruct (f x); cbn; lia. Qed.

Lemma replicate_ready ns n :
  held (replicate n Ready) = [] /\ to_call ns (replicate n Ready) = [] /\ in_call ns (replicate n Ready) = []
    /\ tally active (replicate n Ready) = O.
Proof. induction n as [|n IH]; [done|]. cbn [replicate]. rewrite tally_cons. exact IH. Qed.

Lemma num_threads_max cfg : num_threads cfg <= max_threads cfg.
Proof. unfold num_threads. repeat case_match; bool_prop; lia. Qed.

Lemma create_inv cfg a b creates w :
  config_ok (default thread_pool_get_default_config cfg) -> thread_pool_create cfg a b creates = Some w -> pool_inv w [].
Proof.
  intros (_ & Hmax & Hq). unfold thread_pool_create. destruct a, b; cbn [negb]; try done.
  set (c := default _ cfg) in *. set (slots := create_threads _ _ _ _).
  destruct (Nat.eqb_spec (length (omap id slots)) 0) as [|Hne]; [done|]. intros [= <-].
  pose proof (length_omap_le id slots) as Hle. unfold slots in Hle at 2. rewrite create_threads_length in Hle.
  pose proof (num_threads_max c). destruct (replicate_ready ∅ (length (omap id slots))) as (E1 & E2 & E3 & E4).
  exists []. cbn [pool nodes workers]. rewrite E1. split_and!.
  - constructor; try done; [apply NoDup_nil_2|]. intros x. rewrite lookup_empty. split; [by intros []|]. set_solver.
  - constructor; by rewrite ?E2, ?E3.
  - constructor; cbn [config active_count running shutdown length]; rewrite ?length_replicate, ?E4; try (done || lia).
    + by destruct (length _).
    + intros Hin%elem_of_replicate. by destruct Hin.
Qed.

(** ** Every schedule *)

(** C2: Whatever the schedule, the pool never follows a dangling pointer; the
    tasks accepted are those unlinked, in the order of their submission,
    followed by those still queued; every unlinked task is called once and every
    call returns once, up to those in progress; both counters are exact, the
    queue stays within its size, and while a worker sleeps there are at least as
    many workers awake for the queue as tasks in it. *)
Theorem pool_exactly_once cfg creates w0 sched :
  config_ok (default thread_pool_get_default_config cfg) ->
  thread_pool_create cfg true true creates = Some w0 ->
  exists w tr queued,
    run w0 sched = Some (w, tr)
    /\ accepted tr = took tr ++ queued
    /\ took tr ≡ₚ called tr ++ to_call (nodes w) (workers w)
    /\ called tr ≡ₚ returned tr ++ in_call (nodes w) (workers w)
    /\ thread_pool_pending_count (Some (pool w)) = Z.of_nat (length queued)
    /\ Z.of_nat (length queued) <= queue_size (config (pool w))
    /\ thread_pool_active_count (Some (pool w)) = Z.of_nat (tally active (workers w))
    /\ (Waiting ∈ workers w -> (length queued <= tally ready (workers w))%nat).
Proof.
  intros Hc H0. apply create_inv in H0; [|done].
  destruct (pool_run_ok sched w0 [] H0) as (w & tr & Hrun & q & Hh & Ht & Hs).
  exists w, tr, q.*2. rewrite length_fmap. destruct Hh, Ht, Hs. split_and!; try done.
  intros Hw. by destruct (ok_waiting0 Hw).
Qed.

(** Two tasks on a pool of one worker; the second waits in the queue while the
    first runs. *)
Definition one_worker : thread_pool_config_t := Config 1 4 2 0.

Lemma pool_exactly_once_witness :
  exists w0 w tr queued, thread_pool_create (Some one_worker) true true (fun _ => 0) = Some w0
    /\ run w0 [Work 0; Submit (Some 7) 1 true 0; Submit (Some 8) 2 true 0; Submit (Some 9) 3 true 0; Work 0; Work 0]
       = Some (w, tr)
    /\ accepted tr = took tr ++ queued /\ accepted tr = [(7, 1); (8, 2)] /\ called tr = [(7, 1)].
Proof.
  destruct (thread_pool_create (Some one_worker) true true (fun _ => 0)) as [w0|] eqn:E; [|discriminate E].
  assert (Hc : config_ok one_worker) by (unfold config_ok, one_worker; cbn; lia).
  destruct (pool_exactly_once (Some one_worker) (fun _ => 0) w0
    [Work 0; Submit (Some 7) 1 true 0; Submit (Some 8) 2 true 0; Submit (Some 9) 3 true 0; Work 0; Work 0] Hc E)
    as (w & tr & queued & Hrun & Ha & _).
  exists w0, w, tr, queued. split; [done|]. split; [done|]. split; [done|].
  injection E as <-. vm_compute in Hrun. injection Hrun as <- <-. split; vm_compute; reflexivity.
Defined.

(** ** Draining *)

Definition can_move (w : world) (i : nat) : bool :=
  match workers w !! i with
  | Some Ready | Some (Taken _) | Some (Running _) | Some Finishing => true
  | _ => false
  end.

(** Worker steps taken one after the other, each by a worker that can move;
    nothing else happens meanwhile. *)
Inductive moves : world -> list event -> nat -> world -> Prop :=
  | moves_refl w : moves w [] 0 w
  | moves_step w i w1 e1 n w2 e2 :
      can_move w i = true -> worker_step i w = Some (w1, e1) -> moves w1 e2 n w2 -> moves w (e1 ++ e2) (S n) w2.

(** The steps that a worker can still take before it looks for a task again
    and finds none, and those that a queued task costs. *)
Definition weight (x : worker) : nat :=
  match x with Waiting | Exited => 0 | Ready => 1 | Finishing => 2 | Running _ => 3 | Taken _ => 4 end.
Definition budget (w : world) : nat := sum_list (map weight (workers w)) + 4 * Z.to_nat (queue_count (pool w)).

Lemma weights_move l1 x l2 : sum_list (map weight (l1 ++ x :: l2)) = (weight x + sum_list (map weight (l1 ++ l2)))%nat.
Proof. induction l1 as [|y l1 IH]; cbn; [done|]. cbn in IH. lia. Qed.

Lemma move_budget w tr i w' e :
  pool_inv w tr -> can_move w i = true -> worker_step i w = Some (w', e) -> (budget w' < budget w)%nat.
Proof.
  intros H Hm. unfold can_move in Hm. unfold worker_step, budget.
  destruct (workers w !! i) as [x|] eqn:Hi; [|done]. open_inv Hi H.
  rewrite weights_move. destruct x; try done.
  - unfold worker_enter. cbn [pool nodes workers]. rewrite (ok_count _ _ _ _ Hh).
    destruct q as [|[a t] q]; cbn [length Z.of_nat Z.eqb].
    + destruct (shutdown p); cbn [negb andb]; intros [= <- <-]; cbn [pool workers];
        rewrite Ei, weights_move, (ok_count _ _ _ _ Hh); cbn; lia.
    + replace (_ && _) with false by (by destruct (shutdown p)). cbn [Z.of_nat Z.eqb]. rewrite andb_false_r.
      destruct (dequeue_ok _ _ _ _ _ _ Hh) as (p' & nx & -> & Hh' & _); [destruct Hs; cbn [length] in *; lia|].
      intros [= <- <-]. cbn [pool workers]. rewrite Ei, weights_move, (ok_count _ _ _ _ Hh'). cbn [weight]. lia.
  - unfold worker_call. cbn [pool nodes workers]. destruct (ns !! node); [|done]. intros [= <- <-]. cbn [pool workers].
    rewrite Ei, weights_move. cbn [weight]. lia.
  - unfold worker_return. cbn [pool nodes workers]. destruct (ns !! node); [|done]. intros [= <- <-]. cbn [pool workers].
    rewrite Ei, weights_move. cbn [weight]. lia.
  - intros [= <- <-]. cbn [worker_leave pool workers queue_count]. rewrite Ei, weights_move. cbn [weight]. lia.
Qed.

(** What no step changes. *)
Definition static (w : world) := (config (pool w), threads (pool w), thread_count (pool w), length (workers w)).

Lemma enqueue_static a p ns p' ns' :
  enqueue a p ns = Some (p', ns') ->
  config p' = config p /\ threads p' = threads p /\ thread_count p' = thread_count p.
Proof. unfold enqueue. intros H. repeat case_match; by simplify_eq. Qed.

Lemma dequeue_static p ns r p' :
  dequeue p ns = Some (r, p') ->
  config p' = config p /\ threads p' = threads p /\ thread_count p' = thread_count p /\ shutdown p' = shutdown p.
Proof. unfold dequeue. intros H. repeat case_match; by simplify_eq. Qed.

Lemma worker_step_static i w w' e :
  worker_step i w = Some (w', e) -> static w' = static w /\ shutdown (pool w') = shutdown (pool w).
Proof.
  unfold worker_step, worker_enter, worker_call, worker_return, worker_leave, static. intros H.
  repeat case_match; simplify_eq; cbn [pool workers config threads thread_count shutdown]; rewrite ?length_insert; try done;
    match goal with Hd : dequeue _ _ = Some _ |- _ => apply dequeue_static in Hd as (-> & -> & -> & ->) end; done.
Qed.

Lemma step_static w a w' e : step w a = Some (w', e) -> static w' = static w.
Proof.
  destruct a as [task x ok pick| |i|i]; cbn [step].
  - destruct (thread_pool_submit w task x ok pick) as [[code w1]|] eqn:E; [|done]. intros [= <- <-]. revert E.
    unfold thread_pool_submit. intros E. repeat case_match; simplify_eq; try done. unfold static; cbn [pool workers].
    match goal with He : enqueue _ _ _ = Some _ |- _ => apply enqueue_static in He as (-> & -> & ->) end.
    by rewrite (Forall2_length _ _ _ (signal_wakes pick (workers w))).
  - intros [= <- <-]. unfold static, begin_shutdown; cbn [pool workers config threads thread_count].
    unfold broadcast. by rewrite length_map.
  - intros H. by apply worker_step_static in H as [H _].
  - intros H. repeat case_match; simplify_eq; try done. unfold static; cbn [pool workers]. by rewrite length_insert.
Qed.

Lemma run_static l w w' e : run w l = Some (w', e) -> static w' = static w.
Proof.
  revert w e. induction l as [|a l IH]; intros w e; cbn [run]; [by intros [= <- <-]|].
  destruct (step w a) as [[w1 e1]|] eqn:E1; [|done]. destruct (run w1 l) as [[w2 e2]|] eqn:E2; [|done].
  intros [= <- <-]. rewrite (IH _ _ E2). by eapply step_static.
Qed.

Lemma moves_ok w e n w' tr :
  moves w e n w' -> pool_inv w tr ->
  pool_inv w' (tr ++ e) /\ (n + budget w' <= budget w)%nat /\ static w' = static w
    /\ shutdown (pool w') = shutdown (pool w).
Proof.
  intros Hm. revert tr. induction Hm as [w|w i w1 e1 n w2 e2 Hc Hst _ IH]; intros tr H.
  - rewrite app_nil_r. done.
  - destruct (worker_step_ok i w tr H) as (w1' & e1' & E & H1). rewrite Hst in E. injection E as <- <-.
    destruct (IH _ H1) as (H2 & Hb & Hsd & Hst2). rewrite app_assoc. split; [done|].
    pose proof (move_budget _ _ _ _ _ H Hc Hst). destruct (worker_step_static _ _ _ _ Hst) as [E1 E2].
    split; [lia|]. by rewrite Hsd, Hst2, E1, E2.
Qed.

(** Steps can be taken until no worker can move. *)
Lemma moves_end w tr : pool_inv w tr -> exists e n w', moves w e n w' /\ forall i, can_move w' i = false.
Proof.
  remember (budget w) as b eqn:Hb. revert w tr Hb.
  induction (lt_wf b) as [b _ IH]. intros w tr Hb H.
  destruct (decide (Exists (fun i => can_move w i = true) (seq 0 (length (workers w))))) as [Hex|Hno].
  - apply Exists_exists in Hex as (i & _ & Hi).
    destruct (worker_step_ok i w tr H) as (w1 & e1 & E & H1). pose proof (move_budget _ _ _ _ _ H Hi E).
    destruct (IH (budget w1) ltac:(lia) w1 _ eq_refl H1) as (e2 & n & w2 & Hm & Hq).
    do 3 eexists. split; [by econstructor|done].
  - exists [], O, w. split; [constructor|]. intros i. destruct (can_move w i) eqn:Hi; [|done]. destruct Hno.
    apply Exists_exists. exists i. split; [|done]. apply elem_of_seq. unfold can_move in Hi.
    destruct (workers w !! i) as [x|] eqn:Hl; [|done]. apply lookup_lt_Some in Hl. lia.
Qed.

Lemma at_rest w tr x :
  pool_inv w tr -> (forall i, can_move w i = false) -> x ∈ workers w ->
  x = if shutdown (pool w) then Exited else Waiting.
Proof.
  intros (q & _ & _ & Hs) Hq Hx. destruct Hs.
  apply list_elem_of_lookup in Hx as [i Hi]. specialize (Hq i). unfold can_move in Hq. rewrite Hi in Hq.
  destruct x; try done; apply list_elem_of_lookup_2 in Hi.
  - by destruct (ok_waiting0 Hi) as [-> _].
  - by destruct (ok_exited0 Hi) as [-> _].
Qed.

Lemma replicate_rest ns x n :
  x = Waiting \/ x = Exited -> to_call ns (replicate n x) = [] /\ in_call ns (replicate n x) = []
    /\ held (replicate n x) = [] /\ tally ready (replicate n x) = O.
Proof. intros Hx. induction n as [|n IH]; [done|]. cbn [replicate]. rewrite tally_cons. destruct Hx as [-> | ->]; exact IH. Qed.

Lemma rest_done w tr :
  pool_inv w tr -> (forall i, can_move w i = false) ->
  queue_count (pool w) = 0 /\ queue_head (pool w) = None /\ nodes w = ∅ /\ accepted tr ≡ₚ returned tr
  /\ workers w = replicate (length (workers w)) (if shutdown (pool w) then Exited else Waiting).
Proof.
  intros H Hq. set (x := if shutdown (pool w) then Exited else Waiting).
  assert (Hall : workers w = replicate (length (workers w)) x).
  { symmetry. apply replicate_as_Forall. split; [done|]. apply Forall_forall. intros y Hy. symmetry. by eapply at_rest. }
  destruct (replicate_rest (nodes w) x (length (workers w))) as (E1 & E2 & E3 & E4).
  { unfold x. destruct (shutdown _); auto. }
  destruct H as (q & Hh & Ht & Hs). rewrite <- Hall in *.
  assert (Hx : x ∈ workers w).
  { destruct Hs. rewrite Hall. destruct (workers w); [done|]. cbn. set_solver. }
  assert (q = []) as ->.
  { destruct Hs. unfold x in Hx. destruct (shutdown (pool w)).
    - destruct (ok_exited0 Hx). by apply length_zero_iff_nil.
    - destruct (ok_waiting0 Hx) as [_ Hle]. apply length_zero_iff_nil. lia. }
  destruct Hh, Ht. rewrite E3 in *. split_and!; try done.
  - apply map_empty. intros a. destruct (nodes w !! a) eqn:Ha; [|done].
    assert (Hin : a ∈ (@nil positive)) by (apply (ok_dom0 a); by eexists). set_solver.
  - rewrite ok_accepted0, ok_took0, ok_called0, E1, E2. cbn. by rewrite !app_nil_r.
Qed.

(** The workers accept nothing. *)
Lemma moves_accepted w e n w' : moves w e n w' -> accepted e = [].
Proof.
  induction 1 as [|w i w1 e1 n w2 e2 _ Hst _ IH]; [done|]. rewrite accepted_app, IH, app_nil_r.
  unfold worker_step, worker_enter, worker_call, worker_return in Hst. repeat case_match; by simplify_eq.
Qed.

(** C25: From any state that a schedule reaches, workers that move one step at a
    time while nothing else happens stop after at most [budget] steps, whichever
    moves first; and when none can move every accepted task has been called and
    has returned exactly once, the queue and its nodes are gone, and all workers
    sleep, or have left their loops if the pool is shutting down. *)
Theorem pool_drains cfg creates w0 sched w tr :
  config_ok (default thread_pool_get_default_config cfg) ->
  thread_pool_create cfg true true creates = Some w0 -> run w0 sched = Some (w, tr) ->
  (exists e n w', moves w e n w' /\ forall i, can_move w' i = false)
  /\ forall e n w', moves w e n w' ->
       (n <= budget w)%nat
       /\ ((forall i, can_move w' i = false) ->
            accepted (tr ++ e) ≡ₚ returned (tr ++ e) /\ queue_count (pool w') = 0 /\ nodes w' = ∅
            /\ workers w' = replicate (length (workers w0)) (if shutdown (pool w) then Exited else Waiting)).
Proof.
  intros Hc H0 Hrun. apply create_inv in H0 as Hinv; [|done].
  destruct (pool_run_ok sched w0 [] Hinv) as (w1 & tr1 & Hrun1 & H). rewrite Hrun in Hrun1. injection Hrun1 as <- <-.
  split; [by eapply moves_end|]. intros e n w' Hm.
  destruct (moves_ok _ _ _ _ _ Hm H) as (H' & Hb & Hst & Hsd). split; [lia|]. intros Hq.
  destruct (rest_done _ _ H' Hq) as (E1 & _ & E2 & E3 & E4). rewrite E4, Hsd.
  assert (length (workers w') = length (workers w0)) as ->; [|done].
  apply run_static in Hrun. rewrite Hrun in Hst. unfold static in Hst. congruence.
Qed.

(** The pool of one worker with two tasks accepted and a shutdown. *)
Lemma pool_drains_witness :
  exists w0 w tr, thread_pool_create (Some one_worker) true true (fun _ => 0) = Some w0
    /\ run w0 [Work 0; Submit (Some 7) 1 true 0; Submit (Some 8) 2 true 0; Shutdown] = Some (w, tr)
    /\ exists e n w', moves w e n w' /\ returned (tr ++ e) ≡ₚ [(7, 1); (8, 2)] /\ workers w' = [Exited].
Proof.
  assert (Hc : config_ok one_worker) by (unfold config_ok, one_worker; cbn; lia).
  destruct (thread_pool_create (Some one_worker) true true (fun _ => 0)) as [w0|] eqn:E; [|discriminate E].
  destruct (run w0 [Work 0; Submit (Some 7) 1 true 0; Submit (Some 8) 2 true 0; Shutdown]) as [[w tr]|] eqn:Er;
    [|injection E as <-; vm_compute in Er; discriminate Er].
  exists w0, w, tr. split; [done|]. split; [done|].
  destruct (pool_drains (Some one_worker) (fun _ => 0) w0 _ w tr Hc E Er) as [(e & n & w' & Hm & Hq) Hall].
  exists e, n, w'. split; [done|]. destruct (Hall _ _ _ Hm) as [_ Hend]. destruct (Hend Hq) as (Hp & _ & _ & Hw).
  rewrite accepted_app, (moves_accepted _ _ _ _ Hm), app_nil_r in Hp. rewrite Hw, <- Hp.
  injection E as <-. vm_compute in Er. injection Er as <- <-. split; vm_compute; reflexivity.
Defined.

(** ** Destruction *)

Lemma create_threads_all creates i k n :
  (forall j, creates j = 0) -> create_threads creates i k n = Some <$> seq k n.
Proof. intros Hc. revert i k. induction n as [|n IH]; intros i k; cbn; [done|]. by rewrite Hc, IH. Qed.

Lemma omap_id_some (l : list nat) : omap id (Some <$> l) = l.
Proof. induction l as [|x l IH]; [done|]. cbn. by rewrite IH. Qed.

Lemma create_handles cfg creates w :
  (forall j, creates j = 0) -> thread_pool_create cfg true true creates = Some w ->
  take (Z.to_nat (thread_count (pool w))) (threads (pool w)) = Some <$> seq 0 (length (workers w)).
Proof.
  intros Hc. unfold thread_pool_create; cbn [negb]. rewrite create_threads_all by done.
  rewrite omap_id_some. destruct (_ =? 0)%nat; [done|]. intros [= <-]. cbn [pool workers threads thread_count].
  rewrite length_replicate, length_seq, Nat2Z.id, take_app_length'; [done|]. by rewrite length_fmap, length_seq.
Qed.

Lemma join_exited n l : (forall i, i ∈ l -> (i < n)%nat) -> join_all (replicate n Exited) (Some <$> l) = Some true.
Proof.
  induction l as [|i l IH]; intros Hl; [done|]. cbn.
  rewrite lookup_replicate_2 by (apply Hl; set_solver). apply IH. intros j Hj. apply Hl. set_solver.
Qed.

(** When every thread of the pool could be made, destroying it returns
    once its workers can move no more: each join returns, no task is dropped and
    no node is leaked. *)
Theorem pool_destroy_clean cfg creates w0 sched w tr e n w' :
  config_ok (default thread_pool_get_default_config cfg) -> (forall i, creates i = 0) ->
  thread_pool_create cfg true true creates = Some w0 -> run w0 sched = Some (w, tr) -> shutdown (pool w) = true ->
  moves w e n w' -> (forall i, can_move w' i = false) ->
  finish_destroy w' = Some (true, ∅) /\ accepted (tr ++ e) ≡ₚ returned (tr ++ e).
Proof.
  intros Hc Hcr H0 Hrun Hdown Hm Hq. apply create_inv in H0 as Hinv; [|done].
  destruct (pool_run_ok sched w0 [] Hinv) as (w1 & tr1 & Hrun1 & H). rewrite Hrun in Hrun1. injection Hrun1 as <- <-.
  destruct (moves_ok _ _ _ _ _ Hm H) as (H' & _ & Hst & Hsd).
  destruct (rest_done _ _ H' Hq) as (_ & E1 & E2 & E3 & E4). split; [|done].
  apply run_static in Hrun. rewrite Hrun in Hst. unfold static in Hst. injection Hst as _ Et Ec El.
  unfold finish_destroy. rewrite Ec, Et, (create_handles _ _ _ Hcr H0), E1, E2, E4, Hsd, Hdown, El.
  rewrite join_exited; [done|]. intros i Hi. apply elem_of_seq in Hi. lia.
Qed.

Lemma pool_destroy_clean_witness :
  exists w0 w tr e n w', thread_pool_create (Some one_worker) true true (fun _ => 0) = Some w0
    /\ run w0 [Submit (Some 7) 1 true 0; Shutdown; Submit (Some 8) 2 true 0] = Some (w, tr)
    /\ moves w e n w' /\ finish_destroy w' = Some (true, ∅) /\ accepted (tr ++ e) ≡ₚ returned (tr ++ e).
Proof.
  assert (Hc : config_ok one_worker) by (unfold config_ok, one_worker; cbn; lia).
  destruct (thread_pool_create (Some one_worker) true true (fun _ => 0)) as [w0|] eqn:E; [|discriminate E].
  destruct (run w0 [Submit (Some 7) 1 true 0; Shutdown; Submit (Some 8) 2 true 0]) as [[w tr]|] eqn:Er;
    [|injection E as <-; vm_compute in Er; discriminate Er].
  assert (Hd : shutdown (pool w) = true) by (injection E as <-; vm_compute in Er; by injection Er as <- <-).
  destruct (pool_run_ok [Submit (Some 7) 1 true 0; Shutdown; Submit (Some 8) 2 true 0] w0 []
    (create_inv (Some one_worker) _ _ _ _ Hc E)) as (w1 & tr1 & Er1 & H).
  rewrite Er in Er1. injection Er1 as <- <-. destruct (moves_end _ _ H) as (e & n & w' & Hm & Hq).
  exists w0, w, tr, e, n, w'. split; [done|]. split; [done|]. split; [done|].
  apply (pool_destroy_clean (Some one_worker) (fun _ => 0) w0 _ w tr e n w' Hc (fun _ => eq_refl) E Er Hd Hm Hq).
Defined.

(** When the first thread cannot be made and the second can, the count is one:
    the join takes the empty first slot, and the only worker is never joined. *)
Theorem failed_thread_unjoined :
  exists w, thread_pool_create None true true (fun i => if (i =? 0)%nat then 11 else 0) = Some w
    /\ workers w = [Ready] /\ take 2 (threads (pool w)) = [None; Some 0%nat] /\ thread_count (pool w) = 1
    /\ finish_destroy (begin_shutdown w) = None.
Proof. eexists. split; [vm_compute; reflexivity|]. by vm_compute. Qed.

(** The flag that [thread_pool_is_running] returns is never cleared. *)
Theorem still_running_after_shutdown cfg creates w0 sched w tr :
  config_ok (default thread_pool_get_default_config cfg) ->
  thread_pool_create cfg true true creates = Some w0 -> run w0 sched = Some (w, tr) ->
  thread_pool_is_running (Some (pool (begin_shutdown w))) = true.
Proof.
  intros Hc H0 Hrun. apply create_inv in H0; [|done].
  destruct (pool_run_ok sched w0 [] H0) as (w1 & tr1 & Hrun1 & q & _ & _ & Hs).
  rewrite Hrun in Hrun1. injection Hrun1 as <- <-. by destruct Hs.
Qed.
