(* ===== verification/HallEvent.v ===== *)
(** * Hall events: utils/hall/hall_event.c

    Names and headers of event files, the two sequence numbers, and the whole
    write path over a disk that several processes share.  The disk under the
    hall's root is a tree of directories ([node]); the watermark [.gseq], which
    every reader skips, is kept beside it.  What the system answers (locks,
    directories that cannot be opened, the allocator, the clock) is an argument. *)
From S2P Require Import Prelude Decimal.

(** ** Constants *)

Definition HALL_EVT_ID_MAX : nat := 192.
Definition HALL_EVT_TS_LEN : nat := 24.
Definition HALL_EVT_HDR_MAX : nat := 1024.
Definition HALL_EVT_PATH_MAX : nat := 1024.
Definition EVT_TENANT : cstr := cs "default".
Definition EVT_SCHEMA : cstr := cs "task-file-v1".
Definition EVT_OWNER : cstr := cs "cognition".
Definition EVT_WM_FILE : cstr := cs ".gseq".
Definition EVT_WM_LOCK : cstr := cs ".gseq.lck".
Definition HALL_EVT_ROOT_REL : cstr := cs "agentrt/hall".
Definition EVT_WM_BLOCK : Z := 1024.
Definition EVT_READBACK : nat := 1024.
Definition DOT : Z := 46.
Definition QUOTE : Z := 34.

(** Texts between quotes, and names of members. *)
Definition quoted (s : cstr) : cstr := QUOTE :: s ++ [QUOTE].
Definition member (s : cstr) : cstr := quoted s ++ [58].

Definition EVT_ROLES_COG : cstr := cs "[" ++ quoted (cs "cognition") ++ cs "]".
Definition EVT_ROLES_EXEC : cstr := cs "[" ++ quoted (cs "cognition") ++ cs "," ++ quoted (cs "executor") ++ cs "]".
Definition EVT_GSEQ_TAG : cstr := member (cs "gseq").
Definition EVT_GSEQ_SKIP : nat := 7.

(** [snprintf] into [sz] bytes, refused when it would cut. *)
Definition fits (sz : nat) (text : cstr) : option cstr :=
  if (sz <=? length text)%nat then None else Some text.

(** ** Components of a name *)

Fixpoint comp_loop (first : bool) (s : cstr) : bool :=
  match s with
  | [] => true
  | c :: s' =>
      if c =? DOT then
        match s' with
        | [] => comp_loop false s'
        | c1 :: _ => if first || (c1 =? DOT) then false else comp_loop false s'
        end
      else if (c <? 32) || (c =? 47) || (c =? 92) || (c =? 58) || (c =? 32) then false
      else comp_loop false s'
  end.

Definition hall_comp_valid (s : option cstr) : bool :=
  match s with
  | None | Some [] => false
  | Some s => comp_loop true s
  end.

Definition hall_roles_of (category : option cstr) : cstr :=
  match category with
  | Some c => if bool_decide (c = cs "blueprint") || bool_decide (c = cs "command") || bool_decide (c = cs "chain")
              then EVT_ROLES_COG else EVT_ROLES_EXEC
  | None => EVT_ROLES_EXEC
  end.

(** ** The clock *)

Definition leap (y : Z) : bool := (y mod 4 =? 0) && (negb (y mod 100 =? 0) || (y mod 400 =? 0)).
Definition year_days (y : Z) : Z := if leap y then 366 else 365.
Definition month_days (y : Z) : list Z := [31; if leap y then 29 else 28; 31; 30; 31; 30; 31; 31; 30; 31; 30; 31].

(** [gmtime_r]: the year and the day in it, then the month and the day in it. *)
Fixpoint year_of (fuel : nat) (y d : Z) : Z * Z :=
  match fuel with
  | O => (y, d)
  | S fuel' => if d <? year_days y then (y, d) else year_of fuel' (y + 1) (d - year_days y)
  end.

Fixpoint month_of (ms : list Z) (m d : Z) : Z * Z :=
  match ms with
  | [] => (m, d)
  | n :: ms' => if d <? n then (m, d) else month_of ms' (m + 1) (d - n)
  end.

Definition hall_clock_text (wall_ms : Z) : cstr :=
  let secs := wall_ms / 1000 in
  let '(y, yd) := year_of (Z.to_nat (secs / 86400)) 1970 (secs / 86400) in
  let '(m, d) := month_of (month_days y) 1 yd in
  let s := secs mod 86400 in
  pad 4 y ++ pad 2 m ++ pad 2 (d + 1) ++ cs "T" ++ pad 2 (s / 3600) ++ pad 2 (s / 60 mod 60) ++ pad 2 (s mod 60)
    ++ pad 3 (wall_ms mod 1000).

Definition hall_clock_utc (old : cstr) (sz : nat) (wall_ms : Z) : cstr := snprintf_into sz old (hall_clock_text wall_ms).

(** ** Events, their names and their texts *)

Record hall_evt_t := Evt {
  tenant : option cstr;
  task : option cstr;
  category : option cstr;
  node_id : option cstr;
  owner : option cstr;
  ts_utc : option cstr;
  content : option cstr;
  prev : option cstr;
  seq : Z;
  gseq : Z;
}.

Record hall_evt_parts_t := Parts {
  p_tenant : cstr;
  p_task : cstr;
  p_category : cstr;
  p_ts_utc : cstr;
  p_seq : cstr;
}.

Definition name_text (tenant task category ts : cstr) (seq : Z) : cstr :=
  tenant ++ cs "." ++ task ++ cs "." ++ category ++ cs "." ++ ts ++ cs "." ++ pad 4 seq ++ cs ".json".

Definition hall_evt_name (sz : nat) (e : hall_evt_t) : option cstr :=
  match tenant e, task e, category e, ts_utc e with
  | Some tn, Some tk, Some ct, Some ts => if (sz =? 0)%nat then None else fits sz (name_text tn tk ct ts (seq e))
  | _, _, _, _ => None
  end.

(** The places of the first [n] dots. *)
Fixpoint dots (n i : nat) (s : cstr) : list nat :=
  match n, s with
  | O, _ | _, [] => []
  | S n', c :: s' => if c =? DOT then i :: dots n' (S i) s' else dots n (S i) s'
  end.

Definition slice (s : cstr) (from to : nat) : cstr := take (to - from) (drop from s).

Definition hall_evt_parse (name : option cstr) : option hall_evt_parts_t :=
  match name with
  | None => None
  | Some s =>
      match dots 5 0 s with
      | [d0; d1; d2; d3; d4] =>
          if negb (bool_decide (drop d4 s = cs ".json")) then None
          else
            let tn := slice s 0 d0 in let tk := slice s (S d0) d1 in let ct := slice s (S d1) d2 in
            let ts := slice s (S d2) d3 in let sq := slice s (S d3) d4 in
            if existsb (fun x : cstr => bool_decide (x = [])) [tn; tk; ct; ts; sq] then None
            else Some (Parts tn tk ct ts sq)
      | _ => None
      end
  end.

Fixpoint seq_loop (s : cstr) (v : Z) : Z :=
  match s with
  | [] => v
  | c :: s' => if (c <? 48) || (57 <? c) then 0 else seq_loop s' (u64 (v * 10 + (c - 48)))
  end.

Definition hall_evt_seq (name : cstr) : Z :=
  match hall_evt_parse (Some name) with
  | Some parts => seq_loop (p_seq parts) 0
  | None => 0
  end.

(** The text of an event up to the digits of [gseq], and the whole of it. *)
Definition header_text (id tn tk ct nd ts : cstr) (sq : Z) : cstr :=
  cs "{" ++ member (cs "file") ++ cs "{" ++ member (cs "id") ++ quoted id ++ cs ","
  ++ member (cs "category") ++ quoted ct ++ cs "," ++ member (cs "schema") ++ quoted EVT_SCHEMA ++ cs ","
  ++ member (cs "tenant_id") ++ quoted tn ++ cs "," ++ member (cs "task_id") ++ quoted tk ++ cs ","
  ++ member (cs "node_id") ++ quoted nd ++ cs "," ++ member (cs "ts_utc") ++ quoted ts ++ cs ","
  ++ member (cs "seq") ++ fmt_u sq ++ cs "," ++ member (cs "gseq").

Definition rest_text (pv ow : cstr) (ct : option cstr) (body : cstr) : cstr :=
  cs "," ++ member (cs "prev_file") ++ quoted pv ++ cs "}," ++ member (cs "access") ++ cs "{"
  ++ member (cs "owner_role") ++ quoted ow ++ cs "," ++ member (cs "write_roles") ++ hall_roles_of ct ++ cs ","
  ++ member (cs "read_roles") ++ cs "[" ++ quoted (cs "cognition") ++ cs "]}," ++ member (cs "content") ++ body ++ cs "}".

Definition hall_evt_build (e : hall_evt_t) (out_sz : nat) : option cstr :=
  if (out_sz =? 0)%nat then None
  else
    match content e, hall_evt_name HALL_EVT_ID_MAX e, tenant e, task e, category e, ts_utc e with
    | Some body, Some id, Some tn, Some tk, Some ct, Some ts =>
        let nd := default [] (node_id e) in
        let ow := match owner e with Some (_ :: _ as o) => o | _ => EVT_OWNER end in
        fits out_sz (header_text id tn tk ct nd ts (seq e) ++ fmt_u (gseq e)
                     ++ rest_text (default [] (prev e)) ow (category e) body)
    | _, _, _, _, _, _ => None
    end.

(** ** Reading numbers back *)

Fixpoint digits_loop (s : cstr) (v : Z) : Z :=
  match s with
  | c :: s' => if (48 <=? c) && (c <=? 57) then digits_loop s' (u64 (v * 10 + (c - 48))) else v
  | [] => v
  end.

Definition evt_digits (s : cstr) : option Z :=
  match s with
  | c :: _ => if (c <? 48) || (57 <? c) then None else Some (digits_loop s 0)
  | [] => None
  end.

(** [strstr]: the text from the first occurrence on. *)
Fixpoint strstr_from (s needle : cstr) : option cstr :=
  if bool_decide (needle `prefix_of` s) then Some s
  else match s with [] => None | _ :: s' => strstr_from s' needle end.

Fixpoint skip_blanks (blank : Z -> bool) (s : cstr) : cstr :=
  match s with c :: s' => if blank c then skip_blanks blank s' else s | [] => [] end.

Definition hall_evt_gseq_of (json : option cstr) : Z :=
  match json with
  | None => 0
  | Some s =>
      match strstr_from s EVT_GSEQ_TAG with
      | None => 0
      | Some p => default 0 (evt_digits (skip_blanks (fun c => (c =? 32) || (c =? 9)) (drop EVT_GSEQ_SKIP p)))
      end
  end.

(** What a buffer holds as a string. *)
Fixpoint c_str (s : cstr) : cstr :=
  match s with [] => [] | c :: s' => if c =? 0 then [] else c :: c_str s' end.

(** ** The disk *)

Inductive node :=
  | File (bytes : cstr)
  | Dir (entries : list (cstr * node)).

Definition dot_name (s : cstr) : bool := match s with c :: _ => c =? DOT | [] => false end.

(** [can_open] tells which paths can be opened; entries come in the order of
    [readdir]. *)
Fixpoint evt_max_gseq (can_open : cstr -> bool) (dir : cstr) (n : node) : Z :=
  match n with
  | File _ => 0
  | Dir es =>
      if negb (can_open dir) then 0
      else
        (fix scan (es : list (cstr * node)) (max_g : Z) : Z :=
           match es with
           | [] => max_g
           | (name, x) :: es' =>
               if dot_name name then scan es' max_g
               else
                 match fits HALL_EVT_PATH_MAX (dir ++ cs "/" ++ name) with
                 | None => scan es' max_g
                 | Some sub =>
                     match x with
                     | Dir _ => let g := evt_max_gseq can_open sub x in scan es' (if max_g <? g then g else max_g)
                     | File bytes =>
                         match hall_evt_parse (Some name) with
                         | None => scan es' max_g
                         | Some _ =>
                             if negb (can_open sub) then scan es' max_g
                             else let g := hall_evt_gseq_of (Some (c_str (take (EVT_READBACK - 1) bytes))) in
                                  scan es' (if max_g <? g then g else max_g)
                         end
                     end
                 end
           end) es 0
  end.

Fixpoint entry (name : cstr) (es : list (cstr * node)) : option node :=
  match es with [] => None | (m, x) :: es' => if decide (m = name) then Some x else entry name es' end.

Fixpoint set_entry (name : cstr) (x : node) (es : list (cstr * node)) : list (cstr * node) :=
  match es with
  | [] => [(name, x)]
  | (m, y) :: es' => if decide (m = name) then (m, x) :: es' else (m, y) :: set_entry name x es'
  end.

(** Applies [f] to the directory at a path, making the directories on the way
    (the component [.] is the directory itself); [None] when a file is in the
    way. *)
Fixpoint at_path (path : list cstr) (f : list (cstr * node) -> option (list (cstr * node)))
    (es : list (cstr * node)) : option (list (cstr * node)) :=
  match path with
  | [] => f es
  | c :: path' =>
      if decide (c = cs ".") then at_path path' f es
      else
        match entry c es with
        | Some (File _) => None
        | Some (Dir sub) => (fun sub' => set_entry c (Dir sub') es) <$> at_path path' f sub
        | None => (fun sub' => set_entry c (Dir sub') es) <$> at_path path' f []
        end
  end.

Definition mkdir_p (path : list cstr) (es : list (cstr * node)) : option (list (cstr * node)) := at_path path Some es.

Fixpoint list_dir (path : list cstr) (es : list (cstr * node)) : option (list (cstr * node)) :=
  match path with
  | [] => Some es
  | c :: path' =>
      if decide (c = cs ".") then list_dir path' es
      else match entry c es with Some (Dir sub) => list_dir path' sub | _ => None end
  end.

Definition write_file (path : list cstr) (name bytes : cstr) (es : list (cstr * node)) : option (list (cstr * node)) :=
  at_path path (fun sub => match entry name sub with
                           | Some (Dir _) => None
                           | _ => Some (set_entry name (File bytes) sub)
                           end) es.

(** The hall's root as every process sees it. *)
Record disk := Disk {
  watermark : option cstr;
  tree : list (cstr * node);
}.

(** The variables of one process. *)
Record process := Process {
  g_evt_ready : bool;
  g_evt_gseq : Z;
  g_evt_limit : Z;
  g_evt_root : cstr;
}.

(** What the system answers during a write. *)
Record answers := Answers {
  lock_opens : bool;
  locks : bool;
  reads_mark : bool;
  stores : bool;
  can_open : cstr -> bool;
  makes_dir : bool;
  allocates : bool;
  writes : bool;
  wall_ms : Z;
}.

(** ** The global sequence *)

Definition evt_root_path (root leaf : cstr) : option cstr := fits HALL_EVT_PATH_MAX (root ++ cs "/" ++ leaf).

(** [ok]: the file can be opened and read, and its copy allocated. *)
Definition evt_wm_load (ok : bool) (root : cstr) (d : disk) : option Z :=
  match evt_root_path root EVT_WM_FILE, watermark d with
  | Some _, Some bytes =>
      if ok then evt_digits (skip_blanks (fun c => (c =? 32) || (c =? 9) || (c =? 10) || (c =? 13)) (c_str bytes))
      else None
  | _, _ => None
  end.

Definition evt_wm_store (ok : bool) (root : cstr) (v : Z) (d : disk) : disk :=
  match evt_root_path root EVT_WM_FILE with
  | Some _ => if ok then Disk (Some (fmt_u v ++ [10])) (tree d) else d
  | None => d
  end.

Definition evt_reserve (a : answers) (root : cstr) (floor : Z) (d : disk) : Z * disk :=
  match evt_root_path root EVT_WM_LOCK with
  | None => (floor, d)
  | Some _ =>
      if negb (lock_opens a) then (floor, d)
      else
        let base := match (if locks a then evt_wm_load (reads_mark a) root d else None) with
                    | Some b => b
                    | None => evt_max_gseq (can_open a) root (Dir (tree d))
                    end in
        let base := if base <? floor then floor else base in
        (base, if locks a then evt_wm_store (stores a) root (u64 (base + EVT_WM_BLOCK)) d else d)
  end.

Definition evt_next_gseq (a : answers) (p : process) (d : disk) : Z * process * disk :=
  let '(p, d) :=
    if g_evt_limit p <=? g_evt_gseq p then
      let '(base, d') := evt_reserve a (g_evt_root p) (g_evt_gseq p) d in
      (Process (g_evt_ready p) base (u64 (base + EVT_WM_BLOCK)) (g_evt_root p), d')
    else (p, d) in
  let g := u64 (g_evt_gseq p + 1) in
  (g, Process (g_evt_ready p) g (g_evt_limit p) (g_evt_root p), d).

(** [made] tells whether the root directory could be made. *)
Definition evt_ensure (data_dir : cstr) (made : bool) (p : process) : process :=
  if g_evt_ready p then p
  else
    let root := data_dir ++ cs "/" ++ HALL_EVT_ROOT_REL in
    Process true 0 0 (match fits HALL_EVT_PATH_MAX root with Some r => if made then r else [] | None => [] end).

(** ** The sequence of a directory *)

Fixpoint dir_scan_loop (names : list cstr) (max_seq : Z) (pv : cstr) : Z * cstr :=
  match names with
  | [] => (max_seq, pv)
  | n :: names' =>
      let s := hall_evt_seq n in
      if s =? 0 then dir_scan_loop names' max_seq pv
      else if max_seq <? s then dir_scan_loop names' (u32 s) (take (HALL_EVT_ID_MAX - 1) n)
      else dir_scan_loop names' max_seq pv
  end.

Definition evt_dir_scan (names : option (list cstr)) : Z * cstr :=
  match names with
  | None => (1, [])
  | Some ns => let '(m, pv) := dir_scan_loop ns 0 [] in (u32 (m + 1), pv)
  end.

Definition evt_args_ok (task_id category content_json : option cstr) : bool :=
  match task_id, category, content_json with
  | Some (_ :: _), Some (_ :: _), Some (_ :: _) => hall_comp_valid task_id && hall_comp_valid category
  | _, _, _ => false
  end.

(** ** Writing an event *)

(** The part under the lock after the number is drawn: [None] is a return of
    -1, [Some] the new disk with the path and the name of the event. *)
Definition write_event (a : answers) (root tk ct : cstr) (nd : option cstr) (body : cstr) (g : Z) (es : list (cstr * node))
    : option (list (cstr * node)) * option cstr :=
  let path := [EVT_TENANT; tk; ct] in
  match fits HALL_EVT_PATH_MAX (root ++ cs "/" ++ EVT_TENANT ++ cs "/" ++ tk ++ cs "/" ++ ct) with
  | None => (Some es, None)
  | Some dir =>
      match (if makes_dir a then mkdir_p path es else None) with
      | None => (None, None)
      | Some es1 =>
          let names := if can_open a dir then map fst <$> list_dir path es1 else None in
          let '(sq, pv) := evt_dir_scan names in
          let ts := hall_clock_utc [] HALL_EVT_TS_LEN (wall_ms a) in
          let e := Evt (Some EVT_TENANT) (Some tk) (Some ct) nd (Some EVT_OWNER) (Some ts) (Some body) (Some pv) sq g in
          match hall_evt_name HALL_EVT_ID_MAX e with
          | None => (Some es1, None)
          | Some id =>
              match (if allocates a then hall_evt_build e (length body + HALL_EVT_HDR_MAX) else None) with
              | None => (Some es1, None)
              | Some json =>
                  match fits HALL_EVT_PATH_MAX (dir ++ cs "/" ++ id) with
                  | None => (Some es1, None)
                  | Some _ =>
                      match (if writes a then write_file path id json es1 else None) with
                      | Some es2 => (Some es2, Some id)
                      | None => (Some es1, None)
                      end
                  end
              end
          end
      end
  end.

(** In a debug build the file is read again: its first bytes hold the name. *)
Definition evt_readback (path : list cstr) (id : cstr) (es : list (cstr * node)) : bool :=
  match list_dir path es ≫= entry id with
  | Some (File bytes) => bool_decide (is_Some (strstr_from (c_str (take (EVT_READBACK - 1) bytes)) id))
  | _ => false
  end.

(** The code returned with the event's number, when one was drawn; [ndebug]
    tells a release build. *)
Definition hall_evt_write (ndebug : bool) (data_dir : cstr) (made : bool) (a : answers) (tk ct nd body : option cstr)
    (p : process) (d : disk) : Z * option Z * process * disk :=
  if negb (evt_args_ok tk ct body) then (-1, None, p, d)
  else
    let p := evt_ensure data_dir made p in
    match g_evt_root p with
    | [] => (-1, None, p, d)
    | _ :: _ =>
        let '(g, p, d) := evt_next_gseq a p d in
        let '(es, id) := write_event a (g_evt_root p) (default [] tk) (default [] ct) nd (default [] body) g (tree d) in
        let es := default (tree d) es in
        let code := match id with
                    | Some id => if ndebug || evt_readback [EVT_TENANT; default [] tk; default [] ct] id es then 0 else -1
                    | None => -1
                    end in
        (code, Some g, p, Disk (watermark d) es)
    end.

(** ** Names of events *)

Definition no_dot (s : cstr) : Prop := DOT ∉ s.

Lemma dots_skip n i x s : no_dot x -> dots (S n) i (x ++ DOT :: s) = (i + length x)%nat :: dots n (S (i + length x)) s.
Proof.
  revert i. induction x as [|c x IH]; intros i Hx; cbn [app length].
  - cbn. by rewrite Nat.add_0_r.
  - apply not_elem_of_cons in Hx as [Hc Hx]. cbn [dots]. destruct (Z.eqb_spec c DOT) as [->|]; [done|].
    rewrite IH by done. f_equal; [lia|]. f_equal; lia.
Qed.

Lemma slice_at (pre x post : cstr) : slice (pre ++ x ++ post) (length pre) (length pre + length x) = x.
Proof.
  unfold slice. rewrite drop_app_length. replace (_ - _)%nat with (length x) by lia. by rewrite take_app_length.
Qed.

Lemma slice_eq (s pre x post : cstr) i j :
  s = pre ++ x ++ post -> i = length pre -> j = (length pre + length x)%nat -> slice s i j = x.
Proof. intros -> -> ->. apply slice_at. Qed.

Lemma drop_eq (s pre post : cstr) i : s = pre ++ post -> i = length pre -> drop i s = post.
Proof. intros -> ->. apply drop_app_length. Qed.

Lemma dec_no_dot s : Forall (fun c => is_dec c = true) s -> no_dot s.
Proof. intros H Hin. rewrite Forall_forall in H. by apply H in Hin. Qed.

(** Closes the two kinds of goals of the lemmas above, about the text and about
    a length. *)
Ltac name_parts :=
  lazymatch goal with
  | |- @eq nat _ _ => repeat (rewrite ?length_app; cbn [length app]); lia
  | |- ?x = _ => unfold x; by repeat (rewrite <- app_assoc; cbn [app])
  end.

Lemma parse_name tn tk ct ts sq :
  no_dot tn -> no_dot tk -> no_dot ct -> no_dot ts -> tn <> [] -> tk <> [] -> ct <> [] -> ts <> [] -> 0 <= sq ->
  hall_evt_parse (Some (name_text tn tk ct ts sq)) = Some (Parts tn tk ct ts (pad 4 sq)).
Proof.
  intros H1 H2 H3 H4 N1 N2 N3 N4 Hsq. assert (H5 : no_dot (pad 4 sq)) by (by apply dec_no_dot, pad_dec).
  assert (N5 := pad_nonempty 4 sq). unfold hall_evt_parse, name_text. set (sqt := pad 4 sq) in *.
  change (cs ".json") with (DOT :: cs "json"). change (cs ".") with [DOT]. cbn [app].
  rewrite !dots_skip by done. cbn [dots]. set (s := tn ++ DOT :: _).
  rewrite (drop_eq s (tn ++ DOT :: tk ++ DOT :: ct ++ DOT :: ts ++ DOT :: sqt) (DOT :: cs "json")) by name_parts.
  rewrite (slice_eq s [] tn (DOT :: tk ++ DOT :: ct ++ DOT :: ts ++ DOT :: sqt ++ DOT :: cs "json")) by name_parts.
  rewrite (slice_eq s (tn ++ [DOT]) tk (DOT :: ct ++ DOT :: ts ++ DOT :: sqt ++ DOT :: cs "json")) by name_parts.
  rewrite (slice_eq s (tn ++ DOT :: tk ++ [DOT]) ct (DOT :: ts ++ DOT :: sqt ++ DOT :: cs "json")) by name_parts.
  rewrite (slice_eq s (tn ++ DOT :: tk ++ DOT :: ct ++ [DOT]) ts (DOT :: sqt ++ DOT :: cs "json")) by name_parts.
  rewrite (slice_eq s (tn ++ DOT :: tk ++ DOT :: ct ++ DOT :: ts ++ [DOT]) sqt (DOT :: cs "json")) by name_parts.
  rewrite bool_decide_eq_true_2 by done. cbn [negb existsb]. by rewrite !bool_decide_eq_false_2 by done.
Qed.

Lemma seq_loop_digits s v :
  Forall (fun c => is_dec c = true) s -> 0 <= v -> dec_from v s < 2 ^ 64 -> seq_loop s v = dec_from v s.
Proof.
  revert v. induction s as [|c s IH]; intros v Hs Hv Hlt; [done|].
  destruct (dec_from_step v c s Hs Hv Hlt) as (Hc & Hge & Hu & Heq). cbn [seq_loop]. apply Forall_cons in Hs as [_ Hs].
  replace ((c <? 48) || (57 <? c)) with false by (apply andb_prop in Hc; lia).
  rewrite Hu, IH; [done|done|done|]. by rewrite Heq.
Qed.

Lemma digits_loop_value s v rest :
  Forall (fun c => is_dec c = true) s -> 0 <= v -> dec_from v s < 2 ^ 64 ->
  match rest with c :: _ => is_dec c = false | [] => True end ->
  digits_loop (s ++ rest) v = dec_from v s.
Proof.
  revert v. induction s as [|c s IH]; intros v Hs Hv Hlt Hr; cbn [app].
  - destruct rest as [|c rest]; [done|]. unfold is_dec in Hr. cbn [digits_loop]. by rewrite Hr.
  - destruct (dec_from_step v c s Hs Hv Hlt) as (Hc & Hge & Hu & Heq). cbn [digits_loop]. apply Forall_cons in Hs as [_ Hs].
    by rewrite Hc, Hu, IH by (rewrite ?Heq; done).
Qed.

(** A printed number is read back. *)
Lemma evt_digits_printed n rest :
  0 <= n < 2 ^ 64 -> match rest with c :: _ => is_dec c = false | [] => True end ->
  evt_digits (fmt_u n ++ rest) = Some n.
Proof.
  intros Hn Hr. assert (Hd := fmt_u_dec n ltac:(lia)). assert (Hv : dec_from 0 (fmt_u n) = n) by (apply fmt_u_value; lia).
  assert (Hl : digits_loop (fmt_u n ++ rest) 0 = n) by (rewrite digits_loop_value; rewrite ?Hv; (done || lia)).
  pose proof (fmt_u_nonempty n) as Hne. destruct (fmt_u n) as [|c s]; [done|]. apply Forall_cons in Hd as [Hc _].
  cbn [app evt_digits] in *. unfold is_dec in Hc. apply andb_prop in Hc.
  replace ((c <? 48) || (57 <? c)) with false by lia. by rewrite Hl.
Qed.

Definition parts_of (tn tk ct ts : cstr) : Prop :=
  no_dot tn /\ no_dot tk /\ no_dot ct /\ no_dot ts /\ tn <> [] /\ tk <> [] /\ ct <> [] /\ ts <> [].

Lemma seq_of_name tn tk ct ts sq :
  parts_of tn tk ct ts -> 0 <= sq < 2 ^ 32 -> hall_evt_seq (name_text tn tk ct ts sq) = sq.
Proof.
  intros (H1 & H2 & H3 & H4 & N1 & N2 & N3 & N4) Hsq. unfold hall_evt_seq. rewrite parse_name by (done || lia).
  cbn [p_seq]. assert (Hv : dec_from 0 (pad 4 sq) = sq) by (apply pad_value; lia).
  rewrite seq_loop_digits; [done|apply pad_dec; lia|lia|]. rewrite Hv. lia.
Qed.

(** The name that an event gets is read back into its parts and its
    number, when the parts are not empty and have no dot. *)
Theorem event_name_roundtrip e tn tk ct ts id :
  tenant e = Some tn -> task e = Some tk -> category e = Some ct -> ts_utc e = Some ts ->
  parts_of tn tk ct ts -> 0 <= seq e < 2 ^ 32 -> hall_evt_name HALL_EVT_ID_MAX e = Some id ->
  hall_evt_parse (Some id) = Some (Parts tn tk ct ts (pad 4 (seq e))) /\ hall_evt_seq id = seq e.
Proof.
  intros E1 E2 E3 E4 Hp Hs. unfold hall_evt_name. rewrite E1, E2, E3, E4. cbn [Nat.eqb HALL_EVT_ID_MAX].
  unfold fits. destruct (_ <=? _)%nat; [done|]. intros [= <-]. split; [|by apply seq_of_name].
  destruct Hp as (? & ? & ? & ? & ? & ? & ? & ?). apply parse_name; (done || lia).
Qed.

Definition sample_event : hall_evt_t :=
  Evt (Some (cs "default")) (Some (cs "t1")) (Some (cs "chain")) None None (Some (cs "20260101T000000000"))
    (Some (cs "{}")) None 12345 7.

Lemma event_name_roundtrip_witness :
  hall_evt_name HALL_EVT_ID_MAX sample_event = Some (cs "default.t1.chain.20260101T000000000.12345.json")
  /\ hall_evt_seq (cs "default.t1.chain.20260101T000000000.12345.json") = 12345.
Proof.
  split; [reflexivity|].
  apply (event_name_roundtrip sample_event (cs "default") (cs "t1") (cs "chain") (cs "20260101T000000000"));
    try reflexivity; [|cbn; lia].
  split_and!; (discriminate || (intros H; vm_compute in H; by repeat (apply elem_of_cons in H as [H|H]; [discriminate H|]); apply elem_of_nil in H)).
Defined.

(** A task identifier with a dot inside is accepted, but the name that it gives
    is not an event's name to any reader. *)
Lemma dotted_task_unreadable :
  hall_comp_valid (Some (cs "v1.2")) = true
  /\ hall_evt_parse (Some (name_text EVT_TENANT (cs "v1.2") (cs "chain") (cs "20260101T000000000") 1)) = None
  /\ hall_comp_valid (Some (cs ".")) = true.
Proof. by vm_compute. Qed.

(** ** The number in an event's text *)

(** Bytes of a string between quotes. *)
Definition plain (s : cstr) : Prop := Forall (fun c => c <> QUOTE /\ c <> 0) s.

Lemma strstr_skip c s : c <> QUOTE -> strstr_from (c :: s) EVT_GSEQ_TAG = strstr_from s EVT_GSEQ_TAG.
Proof.
  intros Hc. cbn [strstr_from]. rewrite bool_decide_eq_false_2; [done|].
  intros H. apply prefix_cons_inv_1 in H. by apply Hc.
Qed.

Lemma strstr_plain x s : plain x -> strstr_from (x ++ s) EVT_GSEQ_TAG = strstr_from s EVT_GSEQ_TAG.
Proof. induction 1 as [|c x [Hc _] _ IH]; [done|]. cbn [app]. by rewrite strstr_skip. Qed.

(** The tag is where a quoted text starts only if the text is the tag's and a
    colon follows. *)
Lemma tag_prefix x c s : plain x -> EVT_GSEQ_TAG `prefix_of` QUOTE :: x ++ QUOTE :: c :: s -> x = cs "gseq" /\ c = 58.
Proof.
  intros Hx H. apply prefix_cons_inv_2 in H. change (cs "gseq" ++ [QUOTE] ++ [58] `prefix_of` x ++ QUOTE :: c :: s) in H.
  assert (Hq : forall (y : cstr), plain x -> plain y ->
    y ++ [QUOTE; 58] `prefix_of` x ++ QUOTE :: c :: s -> x = y /\ c = 58); [|apply (Hq (cs "gseq") Hx); [|done]].
  - clear H Hx. induction x as [|b x IH]; intros [|b' y] Hx Hy H; cbn [app] in *.
    + apply prefix_cons_inv_2, prefix_cons_inv_1 in H. done.
    + apply prefix_cons_inv_1 in H. subst b'. apply Forall_cons in Hy as [[Hy _] _]. done.
    + apply prefix_cons_inv_1 in H. subst b. apply Forall_cons in Hx as [[Hx _] _]. done.
    + apply prefix_cons_inv_1 in H as Hb. subst b'. apply prefix_cons_inv_2 in H.
      apply Forall_cons in Hx as [_ Hx]. apply Forall_cons in Hy as [_ Hy]. by destruct (IH y Hx Hy H) as [-> ->].
  - repeat constructor; discriminate.
Qed.

Lemma strstr_quoted x c s :
  plain x -> x <> cs "gseq" \/ c <> 58 -> c <> 103 -> c <> QUOTE ->
  strstr_from (quoted x ++ c :: s) EVT_GSEQ_TAG = strstr_from s EVT_GSEQ_TAG.
Proof.
  intros Hx Hne Hg Hc. unfold quoted. cbn [app]. rewrite <- app_assoc. cbn [app strstr_from].
  rewrite bool_decide_eq_false_2 by (intros H; apply tag_prefix in H as [? ?]; naive_solver).
  rewrite strstr_plain by done. cbn [strstr_from]. rewrite bool_decide_eq_false_2; [by apply strstr_skip|].
  intros H. apply prefix_cons_inv_2, prefix_cons_inv_1 in H. change (103 = c) in H. congruence.
Qed.

Lemma strstr_member k s :
  plain k -> k <> cs "gseq" -> strstr_from (member k ++ s) EVT_GSEQ_TAG = strstr_from s EVT_GSEQ_TAG.
Proof. intros Hk Hne. unfold member. rewrite <- app_assoc. cbn [app]. apply strstr_quoted; auto; discriminate. Qed.

Lemma strstr_tag s : strstr_from (member (cs "gseq") ++ s) EVT_GSEQ_TAG = Some (member (cs "gseq") ++ s).
Proof. cbn [strstr_from app member quoted]. rewrite bool_decide_eq_true_2; [done|]. by exists s. Qed.

(** Texts of the header without the quote: literals, numbers, names. *)
Lemma plain_app x y : plain (x ++ y) <-> plain x /\ plain y.
Proof. apply Forall_app. Qed.

Lemma plain_dec s : Forall (fun c => is_dec c = true) s -> plain s.
Proof. intros H. eapply Forall_impl; [exact H|]. intros c Hc. unfold is_dec in Hc. unfold QUOTE. lia. Qed.

Definition plain_b (s : cstr) : bool := forallb (fun c => negb (c =? QUOTE) && negb (c =? 0)) s.

Lemma plain_bool s : plain_b s = true -> plain s.
Proof. unfold plain_b, plain. rewrite forallb_forall, Forall_forall. intros H c Hc%list_elem_of_In%H. lia. Qed.

Lemma plain_name tn tk ct ts sq : plain tn -> plain tk -> plain ct -> plain ts -> 0 <= sq -> plain (name_text tn tk ct ts sq).
Proof.
  intros. unfold name_text. rewrite !plain_app.
  split_and!; try done; try (by apply plain_bool); by apply plain_dec, pad_dec.
Qed.

Lemma strstr_header id tn tk ct nd ts sq s :
  plain id -> plain tn -> plain tk -> plain ct -> plain nd -> plain ts -> 0 <= sq ->
  strstr_from (header_text id tn tk ct nd ts sq ++ s) EVT_GSEQ_TAG = Some (member (cs "gseq") ++ s).
Proof.
  intros. unfold header_text. rewrite <- !app_assoc. change (cs "{") with [123]. change (cs ",") with [44].
  assert (Hsch : plain EVT_SCHEMA) by (by apply plain_bool).
  rewrite (strstr_plain [123]) by (by apply plain_bool).
  rewrite strstr_member by (done || by apply plain_bool). rewrite (strstr_plain [123]) by (by apply plain_bool).
  do 7 (rewrite strstr_member by (done || by apply plain_bool); cbn [app]; rewrite strstr_quoted by (done || by right)).
  rewrite strstr_member by (done || by apply plain_bool). rewrite strstr_plain by (by apply plain_dec, fmt_u_dec).
  cbn [app]. rewrite strstr_skip by done. apply strstr_tag.
Qed.

Lemma c_str_app x y : Forall (fun c => c <> 0) x -> c_str (x ++ y) = x ++ c_str y.
Proof. induction 1 as [|c x Hc _ IH]; [done|]. cbn [app c_str]. destruct (Z.eqb_spec c 0); [done|]. by rewrite IH. Qed.

Lemma plain_nonzero s : plain s -> Forall (fun c => c <> 0) s.
Proof. intros H. eapply Forall_impl; [exact H|]. by intros c [_ ?]. Qed.

Lemma quoted_nonzero s : plain s -> Forall (fun c => c <> 0) (quoted s).
Proof. intros H. constructor; [done|]. apply Forall_app. split; [by apply plain_nonzero|by constructor]. Qed.

Lemma header_nonzero id tn tk ct nd ts sq :
  plain id -> plain tn -> plain tk -> plain ct -> plain nd -> plain ts -> 0 <= sq ->
  Forall (fun c => c <> 0) (header_text id tn tk ct nd ts sq).
Proof.
  intros. unfold header_text, member. rewrite !Forall_app.
  split_and!; try (by apply quoted_nonzero); try (by apply plain_nonzero, plain_bool);
    try (by apply quoted_nonzero, plain_bool). by apply plain_nonzero, plain_dec, fmt_u_dec.
Qed.

(** The header that was built, cut as a reader cuts it. *)
Lemma gseq_of_cut id tn tk ct nd ts sq g rest :
  plain id -> plain tn -> plain tk -> plain ct -> plain nd -> plain ts -> 0 <= sq -> 0 <= g < 2 ^ 64 ->
  let text := header_text id tn tk ct nd ts sq ++ fmt_u g ++ 44 :: rest in
  (length (header_text id tn tk ct nd ts sq ++ fmt_u g) < EVT_READBACK - 1)%nat ->
  hall_evt_gseq_of (Some (c_str (take (EVT_READBACK - 1) text))) = g.
Proof.
  intros H1 H2 H3 H4 H5 H6 Hsq Hg text Hlen. unfold text. rewrite app_assoc, take_app_ge by lia.
  set (k := (EVT_READBACK - 1 - _)%nat). assert (Hk : (0 < k)%nat) by (unfold k; lia). destruct k as [|k]; [lia|].
  cbn [take]. rewrite c_str_app.
  2: { apply Forall_app. split; [by apply header_nonzero|]. apply plain_nonzero, plain_dec, fmt_u_dec. lia. }
  cbn [c_str Z.eqb]. rewrite <- app_assoc. unfold hall_evt_gseq_of. rewrite strstr_header by done.
  change (drop EVT_GSEQ_SKIP (member (cs "gseq") ++ ?s)) with s.
  assert (Hd := fmt_u_dec g ltac:(lia)). assert (Hp := evt_digits_printed g (44 :: c_str (take k rest)) Hg eq_refl).
  destruct (fmt_u g) as [|c s]; [done|]. apply Forall_cons in Hd as [Hc _]. cbn [app skip_blanks] in *.
  unfold is_dec in Hc. replace ((c =? 32) || (c =? 9)) with false by lia. by rewrite Hp.
Qed.

(** The number of an event is read back from the first bytes of its text,
    whatever the content is, when its other fields have no quote: the reader's
    buffer always reaches it. *)
Theorem event_gseq_readback e tn tk ct ts body json :
  tenant e = Some tn -> task e = Some tk -> category e = Some ct -> ts_utc e = Some ts -> content e = Some body ->
  plain tn -> plain tk -> plain ct -> plain ts -> plain (default [] (node_id e)) ->
  0 <= seq e < 2 ^ 32 -> 0 <= gseq e < 2 ^ 64 ->
  hall_evt_build e (length body + HALL_EVT_HDR_MAX) = Some json ->
  hall_evt_gseq_of (Some (c_str (take (EVT_READBACK - 1) json))) = gseq e.
Proof.
  intros E1 E2 E3 E4 E5 P1 P2 P3 P4 P5 Hs Hg. unfold hall_evt_build, hall_evt_name.
  rewrite E1, E2, E3, E4, E5. destruct (_ =? 0)%nat eqn:Hz; [apply Nat.eqb_eq in Hz; unfold HALL_EVT_HDR_MAX in Hz; lia|].
  change (HALL_EVT_ID_MAX =? 0)%nat with false. cbn iota.
  destruct (fits HALL_EVT_ID_MAX _) as [id|] eqn:Hid; [|done].
  assert (plain id) by (unfold fits in Hid; case_match; [done|]; injection Hid as <-; apply plain_name; (done || lia)).
  set (h := header_text _ _ _ _ _ _ _). set (rest := rest_text _ _ _ _).
  unfold fits. destruct (_ <=? _)%nat eqn:Hlen; [done|]. intros [= <-]. apply Nat.leb_gt in Hlen.
  unfold rest, rest_text in *. change (cs "," ++ ?s) with (44 :: s) in *. apply gseq_of_cut; try (done || lia).
  fold h. rewrite !length_app in Hlen. cbn [length] in Hlen. rewrite !length_app in Hlen.
  rewrite length_app. unfold HALL_EVT_HDR_MAX, EVT_READBACK in *. 
  assert (1 <= length (member (cs "prev_file")))%nat by (vm_compute; lia). lia.
Qed.

Lemma event_gseq_readback_witness :
  exists json, hall_evt_build sample_event (length (cs "{}") + HALL_EVT_HDR_MAX) = Some json
    /\ hall_evt_gseq_of (Some (c_str (take (EVT_READBACK - 1) json))) = 7.
Proof.
  destruct (hall_evt_build sample_event (length (cs "{}") + HALL_EVT_HDR_MAX)) as [json|] eqn:E; [|discriminate E].
  exists json. split; [done|].
  apply (event_gseq_readback sample_event (cs "default") (cs "t1") (cs "chain") (cs "20260101T000000000") (cs "{}") json);
    try reflexivity; try (by apply plain_bool); try (cbn; lia). exact E.
Defined.

(** A quote in the identifier of a node, which nothing checks, can forge the
    number that readers see. *)
Lemma node_forges_gseq :
  exists e json, node_id e = Some (QUOTE :: cs "," ++ EVT_GSEQ_TAG ++ cs "9999") /\ gseq e = 7
    /\ hall_evt_build e (length (cs "{}") + HALL_EVT_HDR_MAX) = Some json /\ hall_evt_gseq_of (Some json) = 9999.
Proof.
  exists (Evt (tenant sample_event) (task sample_event) (category sample_event)
    (Some (QUOTE :: cs "," ++ EVT_GSEQ_TAG ++ cs "9999")) None (ts_utc sample_event) (content sample_event) None 1 7).
  eexists. split; [done|]. split; [done|]. split; [vm_compute; reflexivity|]. by vm_compute.
Qed.

(** ** Many processes *)

(** One call of a process on the shared disk, or its restart. *)
Inductive hall_op :=
  | Write (i : nat) (made : bool) (a : answers) (tk ct nd body : option cstr)
  | Restart (i : nat).

Definition fresh_process : process := Process false 0 0 [].

(** The step with the numbers it draws. *)
Definition hall_step (ndebug : bool) (data_dir : cstr) (ps : list process) (d : disk) (o : hall_op)
    : list process * disk * list Z :=
  match o with
  | Write i made a tk ct nd body =>
      match ps !! i with
      | None => (ps, d, [])
      | Some p =>
          let '(_, g, p', d') := hall_evt_write ndebug data_dir made a tk ct nd body p d in
          (<[i := p']> ps, d', match g with Some g => [g] | None => [] end)
      end
  | Restart i => (<[i := fresh_process]> ps, d, [])
  end.

Fixpoint hall_run (ndebug : bool) (data_dir : cstr) (ps : list process) (d : disk) (l : list hall_op)
    : list process * disk * list Z :=
  match l with
  | [] => (ps, d, [])
  | o :: l' =>
      let '(ps1, d1, g1) := hall_step ndebug data_dir ps d o in
      let '(ps2, d2, g2) := hall_run ndebug data_dir ps1 d1 l' in
      (ps2, d2, g1 ++ g2)
  end.

(** The scan never goes below where it starts. *)
Lemma scan_nonneg co dir n : 0 <= evt_max_gseq co dir n.
Proof.
  destruct n as [|es]; cbn [evt_max_gseq]; [done|]. destruct (negb (co dir)); [done|].
  assert (H : 0 <= 0) by lia. revert H. generalize 0 at 2 4 as m.
  induction es as [|[name x] es IH]; intros m Hm; [done|].
  destruct (dot_name name); [by apply IH|]. destruct (fits _ _) as [sub|]; [|by apply IH].
  destruct x as [bytes|sub_es].
  - destruct (hall_evt_parse (Some name)); [|by apply IH]. destruct (negb (co sub)); [by apply IH|].
    apply IH. case_match; lia.
  - apply IH. case_match; lia.
Qed.

Section Gseq.
Context (ndebug : bool) (data_dir : cstr).

Definition the_root : cstr := data_dir ++ cs "/" ++ HALL_EVT_ROOT_REL.

(** The files beside the root have names that fit. *)
Hypothesis root_short : (length the_root + 10 < HALL_EVT_PATH_MAX)%nat.

(** The lock is granted and the watermark is read and written; the other answers
    are free. *)
Definition lock_granted (o : hall_op) : Prop :=
  match o with
  | Write _ _ a _ _ _ _ => lock_opens a = true /\ locks a = true /\ reads_mark a = true /\ stores a = true
  | Restart _ => True
  end.

Definition owns (p : process) (x : Z) : Prop := g_evt_gseq p < x <= g_evt_limit p.

Record gseq_inv (t0 : list (cstr * node)) (ps : list process) (d : disk) (W : Z) (drawn : list Z) : Prop := GseqInv {
  gi_mark : evt_wm_load true the_root d = Some W \/ watermark d = None /\ tree d = t0 /\ drawn = [] /\ W = 0;
  gi_range : 0 <= W;
  gi_root : forall i p, ps !! i = Some p -> g_evt_ready p = true -> g_evt_root p = the_root \/ g_evt_root p = [];
  gi_proc : forall i p, ps !! i = Some p -> 0 <= g_evt_gseq p <= g_evt_limit p /\ g_evt_limit p <= W;
  gi_apart : forall i j p q x, ps !! i = Some p -> ps !! j = Some q -> i <> j -> owns p x -> ~ owns q x;
  gi_drawn : forall x, x ∈ drawn -> 0 < x <= W /\ forall i p, ps !! i = Some p -> ~ owns p x;
  gi_nodup : NoDup drawn;
}.

Lemma wm_path leaf : (length leaf <= 9)%nat -> exists s, evt_root_path the_root leaf = Some s.
Proof.
  intros Hl. unfold evt_root_path, fits. destruct (_ <=? _)%nat eqn:E; [|eauto]. apply Nat.leb_le in E.
  rewrite !length_app in E. change (length (cs "/")) with 1%nat in E. lia.
Qed.

Lemma wm_roundtrip v d : 0 <= v < 2 ^ 64 -> evt_wm_load true the_root (evt_wm_store true the_root v d) = Some v.
Proof.
  intros Hv. unfold evt_wm_load, evt_wm_store. destruct (wm_path EVT_WM_FILE) as [s ->]; [vm_compute; lia|]. cbn [watermark].
  assert (Hd := fmt_u_dec v ltac:(lia)).
  assert (Hz : c_str (fmt_u v ++ [10]) = fmt_u v ++ [10]).
  { rewrite <- (app_nil_r (fmt_u v ++ [10])) at 1. rewrite c_str_app; [by rewrite app_nil_r|].
    apply Forall_app. split; [by apply plain_nonzero, plain_dec|by constructor]. }
  rewrite Hz. assert (Hp := evt_digits_printed v [10] Hv eq_refl).
  destruct (fmt_u v) as [|c s']; [done|]. apply Forall_cons in Hd as [Hc _]. cbn [app skip_blanks] in *.
  unfold is_dec in Hc. replace (_ || _) with false by lia. done.
Qed.

(** A reservation under the lock hands out the block above the watermark. *)
Lemma reserve_block a floor d B :
  lock_opens a = true -> locks a = true -> reads_mark a = true -> stores a = true ->
  match evt_wm_load true the_root d with Some b => b | None => evt_max_gseq (can_open a) the_root (Dir (tree d)) end = B ->
  floor <= B -> 0 <= B -> B + EVT_WM_BLOCK < 2 ^ 64 ->
  exists d', evt_reserve a the_root floor d = (B, d') /\ evt_wm_load true the_root d' = Some (B + EVT_WM_BLOCK)
    /\ tree d' = tree d.
Proof.
  intros H1 H2 Hrm H3 HB Hf H0 Hlt. unfold evt_reserve. destruct (wm_path EVT_WM_LOCK) as [s ->]; [vm_compute; lia|].
  rewrite H1, H2, Hrm, H3, HB. cbn [negb]. replace (B <? floor) with false by lia.
  rewrite u64_small by (unfold EVT_WM_BLOCK in *; lia). eexists. split; [done|]. split.
  - apply wm_roundtrip. unfold EVT_WM_BLOCK in *. lia.
  - unfold evt_wm_store. destruct (evt_root_path _ _); done.
Qed.

Section Bound.
Context (t0 : list (cstr * node)) (M : Z) (HM : forall co, evt_max_gseq co the_root (Dir t0) <= M).

(** Process [i] draws [x] from an interval of its own and keeps the rest. *)
Lemma gseq_insert ps d d' W W' drawn i p ready x lim :
  gseq_inv t0 ps d W drawn -> ps !! i = Some p -> W <= W' -> evt_wm_load true the_root d' = Some W' ->
  0 <= x - 1 -> x <= lim <= W' ->
  (forall y, x <= y <= lim -> owns p y \/ W < y) ->
  gseq_inv t0 (<[i := Process ready x lim the_root]> ps) d' W' (drawn ++ [x]).
Proof.
  intros [Hm Hr Hrt Hp Ha Hd Hn] Hi HW Hl Hx Hlim Hown.
  assert (Hlt := lookup_lt_Some _ _ _ Hi).
  assert (Hfresh : forall j q y, ps !! j = Some q -> j <> i -> x <= y <= lim -> ~ owns q y).
  { intros j q y Hj Hne Hy Hq. destruct (Hown y Hy) as [Ho|Ho]; [exact (Ha i j p q y Hi Hj ltac:(done) Ho Hq)|].
    destruct (Hp j q Hj). unfold owns in Hq. lia. }
  constructor; [by left|lia|..].
  - intros j q [(<- & <- & _)|[Hne Hj]]%list_lookup_insert_Some; [by left|eauto].
  - intros j q [(<- & <- & _)|[Hne Hj]]%list_lookup_insert_Some; cbn; [lia|]. destruct (Hp j q Hj). lia.
  - intros j k q r y Hj Hk Hne Hq Hr'.
    apply list_lookup_insert_Some in Hj as [(<- & <- & _)|[Hnj Hj]];
      apply list_lookup_insert_Some in Hk as [(<- & <- & _)|[Hnk Hk]]; unfold owns in Hq, Hr'; cbn in *.
    + done.
    + apply (Hfresh k r y Hk); [congruence|lia|done].
    + apply (Hfresh j q y Hj); [congruence|lia|done].
    + exact (Ha j k q r y Hj Hk Hne Hq Hr').
  - intros y [Hy|Hy%list_elem_of_singleton]%elem_of_app.
    + destruct (Hd y Hy) as [Hr1 Hr2]. split; [lia|].
      intros j q [(<- & <- & _)|[Hne Hj]]%list_lookup_insert_Some; [|eauto]. unfold owns; cbn. intros Hyo.
      destruct (Hown y ltac:(lia)) as [Ho|Ho]; [exact (Hr2 i p Hi Ho)|lia].
    + subst y. split; [lia|]. intros j q [(<- & <- & _)|[Hne Hj]]%list_lookup_insert_Some.
      * unfold owns; cbn. lia.
      * apply (Hfresh j q x Hj); [congruence|lia].
  - apply NoDup_app. split; [done|]. split; [|apply NoDup_singleton].
    intros y Hy Hy2%list_elem_of_singleton. subst y. destruct (Hd x Hy) as [Hr1 Hr2].
    destruct (Hown x ltac:(lia)) as [Ho|Ho]; [exact (Hr2 i p Hi Ho)|lia].
Qed.

Lemma draw_ok ps d W drawn i p a K :
  gseq_inv t0 ps d W drawn -> ps !! i = Some p -> g_evt_root p = the_root -> g_evt_ready p = true ->
  lock_opens a = true -> locks a = true -> reads_mark a = true -> stores a = true ->
  W <= M + K -> 0 <= M -> 0 <= K -> M + K + EVT_WM_BLOCK < 2 ^ 64 ->
  exists x p' d' W', evt_next_gseq a p d = (x, p', d') /\ W' <= M + K + EVT_WM_BLOCK
    /\ g_evt_root p' = the_root /\ tree d' = tree d /\ gseq_inv t0 (<[i := p']> ps) d' W' (drawn ++ [x]).
Proof.
  intros Hinv Hi Hroot Hrd H1 H2 Hrm H3 HW HM0 HK Hlt. unfold evt_next_gseq.
  destruct (gi_proc _ _ _ _ _ Hinv i p Hi) as [Hp1 Hp2]. destruct (Z.leb_spec (g_evt_limit p) (g_evt_gseq p)) as [Hle|Hgt].
  - set (B := match evt_wm_load true the_root d with Some b => b | None => evt_max_gseq (can_open a) the_root (Dir (tree d)) end).
    assert (HB : W <= B <= M + K).
    { unfold B. destruct (gi_mark _ _ _ _ _ Hinv) as [->|(Hw & -> & _ & ->)]; [lia|].
      replace (evt_wm_load true the_root d) with (@None Z)
        by (unfold evt_wm_load; rewrite Hw; by destruct (evt_root_path _ _)).
      pose proof (scan_nonneg (can_open a) the_root (Dir t0)). specialize (HM (can_open a)). lia. }
    pose proof (gi_range _ _ _ _ _ Hinv).
    destruct (reserve_block a (g_evt_gseq p) d B H1 H2 Hrm H3 eq_refl) as (d' & E & El & Et); try lia.
    rewrite Hroot, E. cbn [g_evt_gseq g_evt_limit g_evt_ready g_evt_root].
    unfold EVT_WM_BLOCK in *. rewrite !u64_small by lia.
    exists (B + 1), (Process (g_evt_ready p) (B + 1) (B + 1024) the_root), d', (B + 1024).
    split; [done|]. split; [lia|]. split; [done|]. split; [done|].
    apply (gseq_insert ps d d' W _ drawn i p); try (done || lia).
  - assert (Hl : evt_wm_load true the_root d = Some W).
    { destruct (gi_mark _ _ _ _ _ Hinv) as [?|(_ & _ & _ & ->)]; [done|lia]. }
    rewrite Hroot. rewrite u64_small by (unfold EVT_WM_BLOCK in *; lia).
    exists (g_evt_gseq p + 1), (Process (g_evt_ready p) (g_evt_gseq p + 1) (g_evt_limit p) the_root), d, W.
    split; [done|]. split; [unfold EVT_WM_BLOCK; lia|]. split; [done|]. split; [done|].
    apply (gseq_insert ps d d W _ drawn i p); try (done || lia). intros y Hy. left. unfold owns. lia.
Qed.

(** A process that owns nothing may replace any other. *)
Lemma gseq_reset ps d W drawn i r root :
  gseq_inv t0 ps d W drawn -> root = the_root \/ root = [] -> gseq_inv t0 (<[i := Process r 0 0 root]> ps) d W drawn.
Proof.
  intros [Hm Hr Hrt Hp Ha Hd Hn] Hroot. constructor; try done.
  - intros j q [(<- & <- & _)|[Hne Hj]]%list_lookup_insert_Some; eauto.
  - intros j q [(<- & <- & _)|[Hne Hj]]%list_lookup_insert_Some; cbn; [lia|eauto].
  - intros j k q u y Hj Hk Hne Hq Hr'. unfold owns in Hq, Hr'.
    apply list_lookup_insert_Some in Hj as [(<- & <- & _)|[Hnj Hj]]; cbn in *; [lia|].
    apply list_lookup_insert_Some in Hk as [(<- & <- & _)|[Hnk Hk]]; cbn in *; [lia|].
    exact (Ha j k q u y Hj Hk Hne Hq Hr').
  - intros y Hy. destruct (Hd y Hy) as [Hr1 Hr2]. split; [done|].
    intros j q [(<- & <- & _)|[Hne Hj]]%list_lookup_insert_Some; [unfold owns; cbn; lia|eauto].
Qed.

Lemma gseq_tree ps d W drawn es :
  gseq_inv t0 ps d W drawn -> drawn <> [] -> gseq_inv t0 ps (Disk (watermark d) es) W drawn.
Proof. intros [Hm Hr Hrt Hp Ha Hd Hn] Hne. constructor; try done. destruct Hm as [Hm|(_ & _ & ? & _)]; [by left|done]. Qed.

Lemma ensure_ok ps d W drawn i p made :
  gseq_inv t0 ps d W drawn -> ps !! i = Some p ->
  let p1 := evt_ensure data_dir made p in
  gseq_inv t0 (<[i := p1]> ps) d W drawn /\ g_evt_ready p1 = true /\ (g_evt_root p1 = the_root \/ g_evt_root p1 = []).
Proof.
  intros Hinv Hi. unfold evt_ensure. destruct (g_evt_ready p) eqn:Hr; cbn.
  - rewrite list_insert_id by done. split; [done|]. split; [done|]. by eapply gi_root.
  - fold the_root. assert (Hroot : match fits HALL_EVT_PATH_MAX the_root with
                                   | Some r => if made then r else [] | None => [] end = the_root \/
                                   match fits HALL_EVT_PATH_MAX the_root with
                                   | Some r => if made then r else [] | None => [] end = []).
    { unfold fits. destruct (_ <=? _)%nat; [by right|]. destruct made; [by left|by right]. }
    split; [by apply gseq_reset|]. done.
Qed.

Lemma hall_step_ok ps d W drawn o K :
  gseq_inv t0 ps d W drawn -> lock_granted o -> W <= M + K -> 0 <= M -> 0 <= K -> M + K + EVT_WM_BLOCK < 2 ^ 64 ->
  exists ps' d' g W', hall_step ndebug data_dir ps d o = (ps', d', g) /\ W' <= M + K + EVT_WM_BLOCK
    /\ gseq_inv t0 ps' d' W' (drawn ++ g).
Proof.
  intros Hinv Ho HW HM0 HK Hlt. assert (HWK : W <= M + K + EVT_WM_BLOCK) by (unfold EVT_WM_BLOCK; lia).
  destruct o as [i made a tk ct nd body|i]; cbn [hall_step].
  2: { do 4 eexists. split; [done|]. split; [exact HWK|]. rewrite app_nil_r. apply gseq_reset; [done|by right]. }
  destruct (ps !! i) as [p|] eqn:Hi; [|do 4 eexists; split; [done|]; split; [exact HWK|]; by rewrite app_nil_r].
  unfold hall_evt_write. destruct (negb _).
  { do 4 eexists. split; [done|]. split; [exact HWK|]. rewrite app_nil_r, list_insert_id; done. }
  destruct (ensure_ok ps d W drawn i p made Hinv Hi) as (Hinv1 & Hrd & Hroot). cbn zeta in *.
  set (p1 := evt_ensure data_dir made p) in *.
  destruct (g_evt_root p1) as [|c r] eqn:Er.
  { do 4 eexists. split; [done|]. split; [exact HWK|]. by rewrite app_nil_r. }
  destruct Hroot as [Hroot|]; [|done]. destruct Ho as (H1 & H2 & Hrm & H3). assert (Hlen := lookup_lt_Some _ _ _ Hi).
  destruct (draw_ok _ _ _ _ i p1 a K Hinv1) as (x & p2 & d2 & W2 & E & HW2 & Er2 & Et & Hinv2); try done.
  { by rewrite list_lookup_insert_eq. }
  { by rewrite Er. }
  rewrite E. destruct (write_event _ _ _ _ _ _ _ _) as [es id]. rewrite list_insert_insert_eq in Hinv2.
  do 4 eexists. split; [done|]. split; [exact HW2|]. apply gseq_tree; [done|]. by destruct drawn.
Qed.

Lemma hall_run_ok l ps d W drawn K :
  gseq_inv t0 ps d W drawn -> Forall lock_granted l -> W <= M + K -> 0 <= M -> 0 <= K ->
  M + K + EVT_WM_BLOCK * Z.of_nat (length l) < 2 ^ 64 ->
  exists ps' d' g W', hall_run ndebug data_dir ps d l = (ps', d', g) /\ gseq_inv t0 ps' d' W' (drawn ++ g)
    /\ W' < 2 ^ 64.
Proof.
  revert ps d W drawn K. induction l as [|o l IH]; intros ps d W drawn K Hinv Hl HW HM0 HK Hlt; cbn [hall_run].
  - do 4 eexists. split; [done|]. rewrite app_nil_r. split; [done|]. cbn [length] in Hlt. lia.
  - apply Forall_cons in Hl as [Ho Hl]. cbn [length] in Hlt. unfold EVT_WM_BLOCK in Hlt.
    destruct (hall_step_ok ps d W drawn o K) as (ps1 & d1 & g1 & W1 & -> & HW1 & Hinv1); try (done || unfold EVT_WM_BLOCK; lia).
    unfold EVT_WM_BLOCK in HW1.
    destruct (IH ps1 d1 W1 (drawn ++ g1) (K + 1024)) as (ps2 & d2 & g2 & W2 & -> & Hinv2); try (done || unfold EVT_WM_BLOCK; lia).
    do 4 eexists. split; [done|]. by rewrite app_assoc.
Qed.
End Bound.
End Gseq.

(** C20: Whatever the interleaving of writes and restarts of any number of
    processes on one disk that starts without a watermark, and whatever else
    fails, no two events get the same global number, as long as the lock is
    granted, the watermark can be read and stored, the names beside the root fit
    their buffers and the numbers stay within 64 bits. *)
Theorem gseq_unique ndebug data_dir n t0 l M :
  (length (the_root data_dir) + 10 < HALL_EVT_PATH_MAX)%nat ->
  (forall co, evt_max_gseq co (the_root data_dir) (Dir t0) <= M) ->
  Forall lock_granted l -> M + EVT_WM_BLOCK * Z.of_nat (length l) < 2 ^ 64 ->
  exists ps d drawn, hall_run ndebug data_dir (replicate n fresh_process) (Disk None t0) l = (ps, d, drawn)
    /\ NoDup drawn /\ Forall (fun x => 0 < x < 2 ^ 64) drawn.
Proof.
  intros Hroot HM Hl Hlt.
  assert (HM0 : 0 <= M) by (pose proof (scan_nonneg (fun _ => true) (the_root data_dir) (Dir t0)); specialize (HM (fun _ => true)); lia).
  destruct (hall_run_ok ndebug data_dir Hroot t0 M HM l (replicate n fresh_process) (Disk None t0) 0 [] 0)
    as (ps & d & g & W & E & Hinv & HW); try (done || lia).
  - constructor; try done; [by right|..]; try (intros i p Hp; apply lookup_replicate in Hp as [-> _]; cbn; (done || lia)).
    + intros i j p q x Hp _ _ Ho. apply lookup_replicate in Hp as [-> _]. unfold owns in Ho; cbn in Ho. lia.
    + intros x Hx. by apply elem_of_nil in Hx.
    + constructor.
  - exists ps, d, g. split; [done|]. destruct Hinv. split; [done|]. apply Forall_forall. intros x Hx.
    destruct (gi_drawn0 x Hx). lia.
Qed.

Definition good (ms : Z) : answers := Answers true true true true (fun _ => true) true true true ms.
Definition write_by (i : nat) (a : answers) : hall_op :=
  Write i true a (Some (cs "t1")) (Some (cs "chain")) None (Some (cs "{}")).

(** Two processes; the second is restarted between its two writes. *)
Lemma gseq_unique_witness :
  exists ps d drawn,
    hall_run true (cs "/d") (replicate 2 fresh_process) (Disk None [])
      [write_by 0 (good 0); write_by 1 (good 1); write_by 0 (good 2); Restart 1; write_by 1 (good 3)] = (ps, d, drawn)
    /\ NoDup drawn /\ drawn = [1; 1025; 2; 2049].
Proof.
  destruct (gseq_unique true (cs "/d") 2 []
    [write_by 0 (good 0); write_by 1 (good 1); write_by 0 (good 2); Restart 1; write_by 1 (good 3)] 0)
    as (ps & d & drawn & E & Hn & _).
  - vm_compute; lia.
  - intros co. cbn. by destruct (negb _).
  - repeat constructor.
  - vm_compute; reflexivity.
  - exists ps, d, drawn. split; [done|]. split; [done|]. vm_compute in E. by injection E as <- <- <-.
Defined.

(** The numbers of the witness are not increasing in the order of the writes,
    and without the lock two processes draw the same number. *)
Definition unlocked (ms : Z) : answers := Answers true false true true (fun _ => true) true true true ms.

Theorem gseq_without_lock :
  (hall_run true (cs "/d") (replicate 2 fresh_process) (Disk None [])
     [write_by 0 (good 0); write_by 1 (unlocked 1)]).2 = [1; 2]
  /\ (hall_run true (cs "/d") (replicate 2 fresh_process) (Disk None [])
     [write_by 0 (good 0); write_by 1 (unlocked 1); write_by 0 (good 2)]).2 = [1; 2; 2].
Proof. by vm_compute. Qed.

(** A watermark that is there and cannot be read is taken for a missing one: the
    numbers that another process has reserved and not yet used are given out
    again, though the lock is granted and the store succeeds. *)
Definition unread (ms : Z) : answers := Answers true true false true (fun _ => true) true true true ms.

Theorem gseq_unread_mark :
  (hall_run true (cs "/d") (replicate 2 fresh_process) (Disk None [])
     [write_by 0 (good 0); write_by 1 (unread 1); write_by 0 (good 2)]).2 = [1; 2; 2].
Proof. by vm_compute. Qed.

(** ** Recovery *)

(** An event that readers see below a directory: a file with an event's name,
    reached through names that do not start with a dot, and its number. *)
Inductive holds (co : cstr -> bool) : cstr -> node -> Z -> Prop :=
  | holds_file dir es name bytes sub :
      co dir = true -> (name, File bytes) ∈ es -> dot_name name = false ->
      fits HALL_EVT_PATH_MAX (dir ++ cs "/" ++ name) = Some sub -> is_Some (hall_evt_parse (Some name)) -> co sub = true ->
      holds co dir (Dir es) (hall_evt_gseq_of (Some (c_str (take (EVT_READBACK - 1) bytes))))
  | holds_dir dir es name es' sub g :
      co dir = true -> (name, Dir es') ∈ es -> dot_name name = false ->
      fits HALL_EVT_PATH_MAX (dir ++ cs "/" ++ name) = Some sub -> holds co sub (Dir es') g ->
      holds co dir (Dir es) g.

(** The loop over the entries of a directory, by name. *)
Definition scan_entry (co : cstr -> bool) (dir : cstr) (e : cstr * node) : Z :=
  if dot_name e.1 then 0
  else match fits HALL_EVT_PATH_MAX (dir ++ cs "/" ++ e.1), e.2 with
       | None, _ => 0
       | Some sub, Dir _ => evt_max_gseq co sub e.2
       | Some sub, File bytes =>
           match hall_evt_parse (Some e.1) with
           | Some _ => if co sub then hall_evt_gseq_of (Some (c_str (take (EVT_READBACK - 1) bytes))) else 0
           | None => 0
           end
       end.

Lemma scan_folds co dir es :
  co dir = true -> evt_max_gseq co dir (Dir es) = foldl (fun m e => Z.max m (scan_entry co dir e)) 0 es.
Proof.
  intros Hco. cbn [evt_max_gseq]. rewrite Hco. cbn [negb]. assert (H : 0 <= 0) by lia. revert H. generalize 0 at 2 3 4 as m.
  induction es as [|[name x] es IH]; intros m Hm; [done|]. cbn [foldl].
  assert (Hmax : forall g, (if m <? g then g else m) = Z.max m g) by (intros g; case_match; lia).
  unfold scan_entry at 2. cbn [fst snd]. destruct (dot_name name); [rewrite IH by done; f_equal; lia|].
  destruct (fits _ _) as [sub|]; [|rewrite IH by done; f_equal; lia].
  destruct x as [bytes|sub_es].
  - destruct (hall_evt_parse (Some name)); [|rewrite IH by done; f_equal; lia].
    destruct (co sub); cbn [negb]; [|rewrite IH by done; f_equal; lia]. rewrite Hmax. apply IH. lia.
  - rewrite Hmax. apply IH. lia.
Qed.

Lemma foldl_max_ge (f : cstr * node -> Z) es m e : m <= foldl (fun m e => Z.max m (f e)) m es /\
  (e ∈ es -> f e <= foldl (fun m e => Z.max m (f e)) m es).
Proof.
  revert m. induction es as [|x es IH]; intros m; cbn [foldl].
  - split; [done|]. intros H. by apply elem_of_nil in H.
  - destruct (IH (Z.max m (f x))) as [H1 H2]. split; [lia|]. intros [->|H]%elem_of_cons; [lia|]. by apply H2.
Qed.

Lemma scan_bounds co dir n g : holds co dir n g -> g <= evt_max_gseq co dir n.
Proof.
  induction 1 as [dir es name bytes sub Hco Hin Hdot Hsub [parts Hparse] Hco2|dir es name es' sub g Hco Hin Hdot Hsub _ IH];
    rewrite scan_folds by done; (etrans; [|eapply foldl_max_ge; exact Hin]); unfold scan_entry; cbn [fst snd];
    rewrite Hdot, Hsub; [|done]. by rewrite Hparse, Hco2.
Qed.

(** When the watermark is missing or not a number, the next number a
    process reserves is above that of every event that readers see on the
    disk, and the watermark is repaired. *)
Theorem gseq_recovers data_dir a p d g :
  (length (the_root data_dir) + 10 < HALL_EVT_PATH_MAX)%nat ->
  lock_opens a = true -> locks a = true -> stores a = true ->
  g_evt_root p = the_root data_dir -> g_evt_gseq p = g_evt_limit p -> 0 <= g_evt_gseq p < 2 ^ 63 ->
  evt_wm_load (reads_mark a) (the_root data_dir) d = None -> holds (can_open a) (the_root data_dir) (Dir (tree d)) g ->
  evt_max_gseq (can_open a) (the_root data_dir) (Dir (tree d)) < 2 ^ 63 ->
  exists x p' d', evt_next_gseq a p d = (x, p', d') /\ g < x /\ g_evt_gseq p < x
    /\ evt_wm_load true (the_root data_dir) d' = Some (g_evt_limit p').
Proof.
  intros Hroot H1 H2 H3 Hr He Hg Hw Hh Hlt. apply scan_bounds in Hh. unfold evt_next_gseq. rewrite He, Z.leb_refl, Hr.
  unfold evt_reserve. destruct (wm_path data_dir Hroot EVT_WM_LOCK) as [s ->]; [vm_compute; lia|].
  rewrite H1, H2, H3, Hw. cbn [negb]. set (B := evt_max_gseq _ _ _) in *.
  set (base := if B <? g_evt_limit p then g_evt_limit p else B).
  assert (B <= base /\ g_evt_limit p <= base < 2 ^ 63) by (unfold base; case_match; lia).
  assert (0 <= base) by lia. cbn [g_evt_gseq g_evt_limit]. rewrite (u64_small (base + 1)) by lia.
  do 3 eexists. split; [done|]. split; [lia|]. split; [lia|]. cbn [g_evt_limit]. unfold EVT_WM_BLOCK in *.
  rewrite (u64_small (base + 1024)) by lia. apply wm_roundtrip; [done|lia].
Qed.

(** A disk with one event, numbered 42, whose watermark was overwritten. *)
Definition one_event : disk :=
  let '(_, _, _, d) := hall_evt_write true (cs "/d") true (good 0) (Some (cs "t1")) (Some (cs "chain")) None (Some (cs "{}"))
    (Process true 41 50 (the_root (cs "/d"))) (Disk None []) in
  Disk (Some (cs "broken")) (tree d).

Lemma gseq_recovers_witness :
  exists x p' d', evt_next_gseq (good 1) (Process true 0 0 (the_root (cs "/d"))) one_event = (x, p', d')
    /\ 42 < x /\ x = 43.
Proof.
  destruct (gseq_recovers (cs "/d") (good 1) (Process true 0 0 (the_root (cs "/d"))) one_event 42)
    as (x & p' & d' & E & H1 & H2 & H3); try reflexivity; try (vm_compute; lia).
  - cbn. lia.
  - vm_compute. eapply holds_dir; [done|apply list_elem_of_here|done|vm_compute; reflexivity|].
    eapply holds_dir; [done|apply list_elem_of_here|done|vm_compute; reflexivity|].
    eapply holds_dir; [done|apply list_elem_of_here|done|vm_compute; reflexivity|].
    match goal with |- holds ?co ?dir (Dir [(?n, File ?b)]) _ =>
      replace 42 with (hall_evt_gseq_of (Some (c_str (take (EVT_READBACK - 1) b)))) by (vm_compute; reflexivity) end.
    eapply holds_file; [done|apply list_elem_of_here|done|vm_compute; reflexivity| |done]. vm_compute. by eexists.
  - exists x, p', d'. split; [done|]. split; [done|]. vm_compute in E. by injection E as <- <- <-.
Defined.

(** ** The chain of a directory *)

Lemma entry_set name x es : entry name (set_entry name x es) = Some x.
Proof.
  induction es as [|[m y] es IH]; cbn [set_entry]; [cbn [entry]; by rewrite decide_True|].
  destruct (decide (m = name)) as [->|Hne]; cbn [entry]; [by rewrite decide_True|by rewrite decide_False].
Qed.

Lemma set_entry_new name x es : entry name es = None -> set_entry name x es = es ++ [(name, x)].
Proof.
  induction es as [|[m y] es IH]; cbn [entry set_entry]; [done|]. destruct (decide (m = name)); [done|].
  intros H. cbn [app]. by rewrite IH.
Qed.

Lemma entry_none name es : name ∉ es.*1 -> entry name es = None.
Proof.
  induction es as [|[m y] es IH]; [done|]. cbn [fmap list_fmap fst entry]. rewrite not_elem_of_cons. intros [Hne Hni].
  rewrite decide_False by congruence. by apply IH.
Qed.

Lemma list_dir_nil path : default [] (list_dir path []) = [].
Proof. induction path as [|c path IH]; [done|]. cbn [list_dir entry]. by destruct (decide (c = cs ".")). Qed.

Lemma at_path_list path f es es' :
  at_path path f es = Some es' ->
  exists sub, f (default [] (list_dir path es)) = Some sub /\ list_dir path es' = Some sub.
Proof.
  revert es es'. induction path as [|c path IH]; intros es es'; cbn [at_path list_dir].
  - intros H. by exists es'.
  - destruct (decide (c = cs ".")); [by apply IH|].
    destruct (entry c es) as [[bytes|sub]|]; [done|..]; rewrite fmap_Some; intros (sub' & H & ->);
      rewrite entry_set; destruct (IH _ _ H) as (sub2 & H1 & H2); exists sub2; (split; [|done]); [done|].
    by rewrite list_dir_nil in H1.
Qed.

Lemma mkdir_list path es es' : mkdir_p path es = Some es' -> list_dir path es' = Some (default [] (list_dir path es)).
Proof. intros H. apply at_path_list in H as (sub & [= <-] & H). exact H. Qed.

Lemma write_list path name bytes es es' :
  write_file path name bytes es = Some es' -> name ∉ (default [] (list_dir path es)).*1 ->
  list_dir path es' = Some (default [] (list_dir path es) ++ [(name, File bytes)]).
Proof.
  intros H Hn. apply at_path_list in H as (sub & H & ->). rewrite (entry_none _ _ Hn) in H. injection H as <-.
  by rewrite set_entry_new by (by apply entry_none).
Qed.

(** A scan of names whose numbers go up to [m]. *)
Lemma dir_scan_spec names k pv :
  0 <= k -> (forall n, n ∈ names -> 0 < hall_evt_seq n < 2 ^ 32) ->
  dir_scan_loop names k pv =
    foldl (fun mp n => if mp.1 <? hall_evt_seq n then (hall_evt_seq n, take (HALL_EVT_ID_MAX - 1) n) else mp) (k, pv) names.
Proof.
  revert k pv. induction names as [|n names IH]; intros k pv Hk Hn; [done|]. cbn [dir_scan_loop foldl fst].
  destruct (Hn n) as [H1 H2]; [set_solver|]. replace (hall_evt_seq n =? 0) with false by lia.
  destruct (k <? hall_evt_seq n); [rewrite u32_small by lia|]; apply IH; (set_solver || lia).
Qed.

(** Entry [e] is the event number [k + 1] of its directory and names [pv] as its
    predecessor. *)
Definition event_at (tk ct : cstr) (k : nat) (pv : cstr) (e : cstr * node) : Prop :=
  exists ms nd body g json,
    let ts := hall_clock_utc [] HALL_EVT_TS_LEN ms in
    0 <= ms /\ e = (name_text EVT_TENANT tk ct ts (Z.of_nat k + 1), File json)
    /\ hall_evt_build (Evt (Some EVT_TENANT) (Some tk) (Some ct) nd (Some EVT_OWNER) (Some ts) (Some body) (Some pv)
         (Z.of_nat k + 1) g) (length body + HALL_EVT_HDR_MAX) = Some json
    /\ (length e.1 < HALL_EVT_ID_MAX)%nat.

Fixpoint chained (tk ct : cstr) (k : nat) (pv : cstr) (es : list (cstr * node)) : Prop :=
  match es with
  | [] => True
  | e :: es' => event_at tk ct k pv e /\ chained tk ct (S k) e.1 es'
  end.

Lemma year_days_pos y : 365 <= year_days y <= 366.
Proof. unfold year_days. case_match; lia. Qed.

Lemma year_of_range fuel y d :
  0 <= d -> d <= Z.of_nat fuel ->
  let r := year_of fuel y d in y <= r.1 /\ (r.1 - y) * 365 <= d /\ 0 <= r.2 < year_days r.1 /\ r.2 <= d.
Proof.
  revert y d. induction fuel as [|fuel IH]; intros y d Hd Hf; cbn [year_of]; pose proof (year_days_pos y) as Hy.
  - cbn. lia.
  - destruct (Z.ltb_spec d (year_days y)); [cbn; lia|].
    destruct (IH (y + 1) (d - year_days y)) as (H1 & H2 & H3 & H4); lia.
Qed.

Lemma year_of_mono f1 f2 y d1 d2 :
  0 <= d1 < d2 -> d1 <= Z.of_nat f1 -> d2 <= Z.of_nat f2 ->
  let r1 := year_of f1 y d1 in let r2 := year_of f2 y d2 in r1.1 < r2.1 \/ r1.1 = r2.1 /\ r1.2 < r2.2.
Proof.
  revert f2 y d1 d2. induction f1 as [|f1 IH]; intros f2 y d1 d2 Hd H1 H2; cbn zeta; pose proof (year_days_pos y) as Hy;
    (destruct f2 as [|f2]; [lia|]); cbn [year_of];
    (destruct (Z.ltb_spec d2 (year_days y)); [try (destruct (Z.ltb_spec d1 (year_days y)); [|lia]); cbn; lia|]).
  - pose proof (year_of_range f2 (y + 1) (d2 - year_days y)). cbn in *. lia.
  - destruct (Z.ltb_spec d1 (year_days y)); [pose proof (year_of_range f2 (y + 1) (d2 - year_days y)); cbn in *; lia|].
    apply IH; lia.
Qed.

Lemma month_of_range ms m d :
  0 <= d -> Forall (fun n => 28 <= n <= 31) ms -> d < foldr Z.add 0 ms ->
  let r := month_of ms m d in m <= r.1 < m + Z.of_nat (length ms) /\ 0 <= r.2 < 31.
Proof.
  intros Hd Hms. revert m d Hd. induction Hms as [|n ms Hn _ IH]; intros m d Hd Hlt; cbn [foldr month_of length] in *; [lia|].
  destruct (Z.ltb_spec d n); [cbn; lia|]. destruct (IH (m + 1) (d - n)); [lia|lia|]. cbn zeta. lia.
Qed.

Lemma month_of_mono ms m d1 d2 :
  0 <= d1 < d2 -> d2 < foldr Z.add 0 ms -> Forall (fun n => 28 <= n <= 31) ms ->
  let r1 := month_of ms m d1 in let r2 := month_of ms m d2 in r1.1 < r2.1 \/ r1.1 = r2.1 /\ r1.2 < r2.2.
Proof.
  intros Hd Hlt Hms. revert m d1 d2 Hd Hlt. induction Hms as [|n ms Hn Hms IH]; intros m d1 d2 Hd Hlt; cbn [foldr month_of] in *; [lia|].
  destruct (Z.ltb_spec d1 n), (Z.ltb_spec d2 n); cbn zeta; [cbn; lia| |lia|by apply IH; lia].
  pose proof (month_of_range ms (m + 1) (d2 - n) ltac:(lia) Hms ltac:(lia)) as Hr. cbn in Hr |- *. lia.
Qed.

Lemma month_days_ok y : Forall (fun n => 28 <= n <= 31) (month_days y) /\ foldr Z.add 0 (month_days y) = year_days y.
Proof. unfold month_days, year_days. destruct (leap y); (split; [repeat constructor; lia|reflexivity]). Qed.

(** The fields of a date: year, month, day. *)
Definition date_of (days : Z) : Z * Z * Z :=
  let '(y, yd) := year_of (Z.to_nat days) 1970 days in
  let '(m, d) := month_of (month_days y) 1 yd in (y, m, d + 1).

Lemma date_range days : 0 <= days < 8000 * 365 ->
  let '(y, m, d) := date_of days in 1970 <= y < 10000 /\ 1 <= m <= 12 /\ 1 <= d <= 31.
Proof.
  intros Hd. unfold date_of. pose proof (year_of_range (Z.to_nat days) 1970 days ltac:(lia) ltac:(lia)) as Hy.
  destruct (year_of _ _ _) as [y yd]. cbn in Hy. destruct (month_days_ok y) as [H1 H2].
  pose proof (month_of_range (month_days y) 1 yd ltac:(lia) H1 ltac:(lia)) as Hm.
  destruct (month_of _ _ _) as [m d]. cbn in Hm. change (length (month_days y)) with 12%nat in Hm. lia.
Qed.

Lemma date_mono d1 d2 : 0 <= d1 < d2 ->
  let '(y, m, d) := date_of d1 in let '(y', m', d') := date_of d2 in
  y < y' \/ y = y' /\ (m < m' \/ m = m' /\ d < d').
Proof.
  intros Hd. unfold date_of.
  pose proof (year_of_mono (Z.to_nat d1) (Z.to_nat d2) 1970 d1 d2 Hd ltac:(lia) ltac:(lia)) as Hy.
  pose proof (year_of_range (Z.to_nat d2) 1970 d2 ltac:(lia) ltac:(lia)) as Hr2.
  pose proof (year_of_range (Z.to_nat d1) 1970 d1 ltac:(lia) ltac:(lia)) as Hr1.
  destruct (year_of (Z.to_nat d1) _ _) as [y yd], (year_of (Z.to_nat d2) _ _) as [y' yd']. cbn in Hy, Hr1, Hr2.
  destruct Hy as [Hy|[<- Hy]].
  - destruct (month_of _ _ yd), (month_of _ _ yd'). by left.
  - destruct (month_days_ok y) as [H1 H2]. pose proof (month_of_mono (month_days y) 1 yd yd' ltac:(lia) ltac:(lia) H1) as Hm.
    destruct (month_of _ _ yd), (month_of _ _ yd'). cbn in Hm. right. split; [done|]. lia.
Qed.

Lemma clock_fields ms :
  hall_clock_text ms =
    let '(y, m, d) := date_of (ms / 1000 / 86400) in
    let s := ms / 1000 mod 86400 in
    pad 4 y ++ pad 2 m ++ pad 2 d ++ cs "T" ++ pad 2 (s / 3600) ++ pad 2 (s / 60 mod 60) ++ pad 2 (s mod 60) ++ pad 3 (ms mod 1000).
Proof. unfold hall_clock_text, date_of. destruct (year_of _ _ _) as [y yd]. by destruct (month_of _ _ _). Qed.

Lemma lex_divmod n a b : 0 < n -> a < b -> a / n < b / n \/ a / n = b / n /\ a mod n < b mod n.
Proof.
  intros Hn H. pose proof (Z.div_mod a n ltac:(lia)). pose proof (Z.div_mod b n ltac:(lia)).
  pose proof (Z.div_le_mono a b n Hn ltac:(lia)). destruct (Z.eq_dec (a / n) (b / n)) as [E|]; [|lia].
  right. split; [done|]. rewrite E in *. lia.
Qed.

(** Hours, minutes and seconds of a day compare as the seconds do. *)
Lemma lex_seconds s1 s2 t1 t2 :
  0 <= s1 < 86400 -> 0 <= s2 < 86400 -> s1 < s2 \/ s1 = s2 /\ lex_lt t1 t2 ->
  lex_lt (pad 2 (s1 / 3600) ++ pad 2 (s1 / 60 mod 60) ++ pad 2 (s1 mod 60) ++ t1)
         (pad 2 (s2 / 3600) ++ pad 2 (s2 / 60 mod 60) ++ pad 2 (s2 mod 60) ++ t2).
Proof.
  intros H1 H2 [H|[-> H]]; [|by repeat apply lex_app_eq].
  assert (Hb : forall s, 0 <= s < 86400 -> 0 <= s / 3600 < 24 /\ 0 <= s / 60 mod 60 < 60 /\ 0 <= s mod 60 < 60).
  { intros s Hs. split; [|split; apply Z.mod_pos_bound; lia].
    split; [apply Z.div_pos; lia|apply Z.div_lt_upper_bound; lia]. }
  destruct (Hb s1 H1) as (? & ? & ?), (Hb s2 H2) as (? & ? & ?). change 3600 with (60 * 60) in *.
  rewrite <- !Z.div_div in * by lia.
  apply lex_field; [lia|change (10 ^ Z.of_nat 2) with 100; lia..|].
  destruct (lex_divmod 60 s1 s2 ltac:(lia) H) as [H60|[E60 H60]].
  - destruct (lex_divmod 60 (s1 / 60) (s2 / 60) ltac:(lia) H60) as [?|[? ?]]; [by left|right; split; [done|]].
    apply lex_field; [lia|change (10 ^ Z.of_nat 2) with 100; lia..|by left].
  - right. rewrite E60. split; [done|]. apply lex_field; [lia|change (10 ^ Z.of_nat 2) with 100; lia..|right; split; [done|]].
    apply lex_field; [lia|change (10 ^ Z.of_nat 2) with 100; lia..|by left].
Qed.

Lemma clock_ranges ms :
  0 <= ms < 8000 * 365 * 86400000 ->
  0 <= ms / 1000 / 86400 < 8000 * 365 /\ 0 <= ms / 1000 mod 86400 < 86400 /\ 0 <= ms mod 1000 < 1000.
Proof.
  intros Hms. split; [|split; apply Z.mod_pos_bound; lia]. rewrite Z.div_div by lia.
  split; [apply Z.div_pos; lia|apply Z.div_lt_upper_bound; lia].
Qed.

Lemma clock_lex ms1 ms2 :
  0 <= ms1 < ms2 -> ms2 < 8000 * 365 * 86400000 -> lex_lt (hall_clock_text ms1) (hall_clock_text ms2).
Proof.
  intros H1 H2. destruct (clock_ranges ms1 ltac:(lia)) as (D1 & S1 & M1). destruct (clock_ranges ms2 ltac:(lia)) as (D2 & S2 & M2).
  pose proof (date_range _ D1) as R1. pose proof (date_range _ D2) as R2. rewrite !clock_fields.
  assert (Hsec : ms1 / 1000 / 86400 = ms2 / 1000 / 86400 -> forall x,
    lex_lt (x ++ cs "T" ++ pad 2 (ms1 / 1000 mod 86400 / 3600) ++ pad 2 (ms1 / 1000 mod 86400 / 60 mod 60)
              ++ pad 2 (ms1 / 1000 mod 86400 mod 60) ++ pad 3 (ms1 mod 1000))
           (x ++ cs "T" ++ pad 2 (ms2 / 1000 mod 86400 / 3600) ++ pad 2 (ms2 / 1000 mod 86400 / 60 mod 60)
              ++ pad 2 (ms2 / 1000 mod 86400 mod 60) ++ pad 3 (ms2 mod 1000))).
  { intros E x. apply lex_app_eq, lex_app_eq, lex_seconds; [done..|].
    destruct (lex_divmod 1000 ms1 ms2 ltac:(lia) ltac:(lia)) as [H|[Eq H]].
    - left. destruct (lex_divmod 86400 _ _ ltac:(lia) H) as [?|[_ ?]]; [lia|done].
    - right. rewrite Eq. split; [done|]. rewrite <- (app_nil_r (pad 3 (ms1 mod 1000))), <- (app_nil_r (pad 3 (ms2 mod 1000))).
      apply lex_field; [lia|change (10 ^ Z.of_nat 3) with 1000; lia..|by left]. }
  assert (Hle : ms1 / 1000 / 86400 <= ms2 / 1000 / 86400) by (do 2 (apply Z.div_le_mono; [lia|]); lia).
  destruct (Z.eq_dec (ms1 / 1000 / 86400) (ms2 / 1000 / 86400)) as [E|Hne].
  - rewrite E in *. destruct (date_of _) as [[y m] d]. cbn zeta.
    specialize (Hsec eq_refl (pad 4 y ++ pad 2 m ++ pad 2 d)). rewrite <- !app_assoc in Hsec. exact Hsec.
  - pose proof (date_mono (ms1 / 1000 / 86400) (ms2 / 1000 / 86400) ltac:(lia)) as Hm.
    destruct (date_of (ms1 / 1000 / 86400)) as [[y m] d], (date_of (ms2 / 1000 / 86400)) as [[y' m'] d']. cbn zeta.
    apply lex_field; [lia|change (10 ^ Z.of_nat 4) with 10000; lia..|]. destruct Hm as [?|[-> Hm]]; [by left|right; split; [done|]].
    apply lex_field; [lia|change (10 ^ Z.of_nat 2) with 100; lia..|]. destruct Hm as [?|[-> Hm]]; [by left|right; split; [done|]].
    apply lex_field; [lia|change (10 ^ Z.of_nat 2) with 100; lia..|by left].
Qed.

Lemma clock_length ms : 0 <= ms < 8000 * 365 * 86400000 -> length (hall_clock_text ms) = 18%nat.
Proof.
  intros H. destruct (clock_ranges ms H) as (D & S & M). pose proof (date_range _ D) as R. rewrite clock_fields.
  destruct (date_of _) as [[y m] d]. cbn zeta. rewrite !length_app. set (s := ms / 1000 mod 86400) in *.
  assert (0 <= s / 3600 < 24) by (split; [apply Z.div_pos; lia|apply Z.div_lt_upper_bound; lia]).
  assert (0 <= s / 60 mod 60 < 60 /\ 0 <= s mod 60 < 60) by (split; apply Z.mod_pos_bound; lia).
  rewrite (pad_length 4) by (change (10 ^ Z.of_nat 4) with 10000; lia).
  rewrite !(pad_length 2) by (change (10 ^ Z.of_nat 2) with 100; lia).
  rewrite (pad_length 3) by (change (10 ^ Z.of_nat 3) with 1000; lia). reflexivity.
Qed.

(** Timestamps have eighteen characters, fit their buffer, and compare as
    texts the way the times do, to the millisecond, for eight thousand years. *)
Theorem clock_text_ordered ms1 ms2 :
  0 <= ms1 < ms2 -> ms2 < 8000 * 365 * 86400000 ->
  hall_clock_utc [] HALL_EVT_TS_LEN ms1 = hall_clock_text ms1 /\ length (hall_clock_text ms1) = 18%nat
  /\ lex_lt (hall_clock_text ms1) (hall_clock_text ms2).
Proof.
  intros H1 H2. pose proof (clock_length ms1 ltac:(lia)) as Hl. split_and!; [|done|by apply clock_lex].
  unfold hall_clock_utc, snprintf_into, HALL_EVT_TS_LEN. apply take_ge. lia.
Qed.

Lemma clock_text_ordered_witness :
  hall_clock_text 951868799999 = cs "20000229T235959999" /\ lex_lt (hall_clock_text 951868799999) (hall_clock_text 951868800000).
Proof.
  split; [vm_compute; reflexivity|]. apply (clock_text_ordered 951868799999 951868800000); lia.
Defined.

Lemma date_nonneg days : 0 <= days -> let '(y, m, d) := date_of days in 0 <= y /\ 0 <= m /\ 0 <= d.
Proof.
  intros Hd. unfold date_of. pose proof (year_of_range (Z.to_nat days) 1970 days ltac:(lia) ltac:(lia)) as Hy.
  destruct (year_of _ _ _) as [y yd]. cbn in Hy. destruct (month_days_ok y) as [H1 H2].
  pose proof (month_of_range (month_days y) 1 yd ltac:(lia) H1 ltac:(lia)) as Hm.
  destruct (month_of _ _ _) as [m d]. cbn in Hm. lia.
Qed.

Lemma elem_of_prefix (c : Z) n (l : cstr) : c ∈ take n l -> c ∈ l.
Proof. intros H. rewrite <- (take_drop n l). apply elem_of_app. by left. Qed.

Lemma clock_no_dot ms : 0 <= ms ->
  let ts := hall_clock_utc [] HALL_EVT_TS_LEN ms in no_dot ts /\ ts <> [].
Proof.
  intros Hms. unfold hall_clock_utc, snprintf_into, HALL_EVT_TS_LEN. cbn zeta.
  assert (Hd : 0 <= ms / 1000 / 86400) by (apply Z.div_pos; [apply Z.div_pos|]; lia).
  pose proof (date_nonneg _ Hd) as R. rewrite clock_fields. destruct (date_of _) as [[y m] d]. cbn zeta.
  set (s := ms / 1000 mod 86400). assert (0 <= s) by (apply Z.mod_pos_bound; lia).
  assert (0 <= s / 3600 /\ 0 <= s / 60 mod 60 /\ 0 <= s mod 60 /\ 0 <= ms mod 1000)
    by (split; [apply Z.div_pos; lia|]; split_and!; apply Z.mod_pos_bound; lia).
  assert (Hpad : forall w n, 0 <= n -> DOT ∉ pad w n) by (intros w n Hn; by apply dec_no_dot, pad_dec).
  split.
  - intros Hin. apply elem_of_prefix in Hin.
    rewrite !elem_of_app in Hin. destruct Hin as [Hin|[Hin|[Hin|[Hin|[Hin|[Hin|[Hin|Hin]]]]]]];
      try (revert Hin; apply Hpad; lia). vm_compute in Hin. by apply list_elem_of_singleton in Hin.
  - pose proof (pad_nonempty 4 y). destruct (pad 4 y); [done|]. discriminate.
Qed.

Lemma no_dot_lit s : forallb (fun c => negb (c =? DOT)) s = true -> no_dot s.
Proof. rewrite forallb_forall. intros H Hin%list_elem_of_In%H. lia. Qed.

Section Chain.
Context (tk ct : cstr) (tk_ok : no_dot tk /\ tk <> []) (ct_ok : no_dot ct /\ ct <> []).

Lemma name_seq ms k : 0 <= ms -> Z.of_nat k + 1 < 2 ^ 32 ->
  hall_evt_seq (name_text EVT_TENANT tk ct (hall_clock_utc [] HALL_EVT_TS_LEN ms) (Z.of_nat k + 1)) = Z.of_nat k + 1.
Proof.
  intros Hms Hk. destruct (clock_no_dot ms Hms) as [H1 H2]. destruct tk_ok, ct_ok. apply seq_of_name; [|lia].
  split_and!; try done. by apply no_dot_lit.
Qed.

Lemma event_at_seq k pv e :
  Z.of_nat k + 1 < 2 ^ 32 -> event_at tk ct k pv e ->
  hall_evt_seq e.1 = Z.of_nat k + 1 /\ take (HALL_EVT_ID_MAX - 1) e.1 = e.1.
Proof.
  intros Hk (ms & nd & body & g & json & Hms & -> & _ & Hl). split; [by apply name_seq|]. apply take_ge. lia.
Qed.

Lemma chained_seqs es k pv n :
  chained tk ct k pv es -> Z.of_nat (k + length es) < 2 ^ 32 -> n ∈ es.*1 ->
  0 < hall_evt_seq n <= Z.of_nat (k + length es).
Proof.
  revert k pv. induction es as [|e es IH]; intros k pv Hc Hlt Hn; [by apply elem_of_nil in Hn|].
  cbn [length] in *. destruct Hc as [He Hc]. cbn [fmap list_fmap] in Hn. apply elem_of_cons in Hn as [->|Hn].
  - destruct (event_at_seq k pv e) as [-> _]; [lia|done|lia].
  - specialize (IH _ _ Hc ltac:(lia) Hn). lia.
Qed.

Lemma chained_fold es k pv :
  chained tk ct k pv es -> Z.of_nat (k + length es) < 2 ^ 32 ->
  foldl (fun mp n => if mp.1 <? hall_evt_seq n then (hall_evt_seq n, take (HALL_EVT_ID_MAX - 1) n) else mp)
    (Z.of_nat k, pv) es.*1 = (Z.of_nat (k + length es), default pv (last es.*1)).
Proof.
  revert k pv. induction es as [|e es IH]; intros k pv Hc Hlt; cbn [length] in *.
  - cbn. by rewrite Nat.add_0_r.
  - destruct Hc as [He Hc]. cbn [fmap list_fmap foldl fst]. destruct (event_at_seq k pv e) as [-> ->]; [lia|done|].
    replace (Z.of_nat k <? Z.of_nat k + 1) with true by lia. replace (Z.of_nat k + 1) with (Z.of_nat (S k)) by lia.
    rewrite IH; [|done|lia]. f_equal; [lia|]. rewrite last_cons. by destruct (last es.*1).
Qed.

Lemma scan_chained es :
  chained tk ct 0 [] es -> Z.of_nat (length es) + 1 < 2 ^ 32 ->
  evt_dir_scan (Some es.*1) = (Z.of_nat (length es) + 1, default [] (last es.*1)).
Proof.
  intros Hc Hlt. unfold evt_dir_scan. rewrite dir_scan_spec; [|lia|].
  2: { intros n Hn. pose proof (chained_seqs es 0 [] n Hc ltac:(cbn; lia) Hn). cbn in *. lia. }
  change 0 with (Z.of_nat 0). rewrite chained_fold; [|done|cbn; lia]. cbn [Nat.add]. by rewrite u32_small by lia.
Qed.

Lemma chained_snoc es k pv e :
  chained tk ct k pv es -> event_at tk ct (k + length es) (default pv (last es.*1)) e -> chained tk ct k pv (es ++ [e]).
Proof.
  revert k pv. induction es as [|x es IH]; intros k pv Hc He; cbn [app chained length] in *.
  - rewrite Nat.add_0_r in He. done.
  - destruct Hc as [Hx Hc]. split; [done|]. apply IH; [done|]. rewrite <- Nat.add_succ_comm in He.
    revert He. cbn [fmap list_fmap]. rewrite last_cons. by destruct (last es.*1).
Qed.

Definition hall_path : list cstr := [EVT_TENANT; tk; ct].
Definition listing (es : list (cstr * node)) : list (cstr * node) := default [] (list_dir hall_path es).

(** A write appends one event to the chain, or leaves the chain alone. *)
Lemma write_event_chained a root nd body g es es' id :
  (forall path, can_open a path = true) -> 0 <= wall_ms a ->
  chained tk ct 0 [] (listing es) -> Z.of_nat (length (listing es)) + 1 < 2 ^ 32 ->
  write_event a root tk ct nd body g es = (es', id) ->
  chained tk ct 0 [] (listing (default es es'))
  /\ length (listing (default es es')) = (length (listing es) + if id then 1 else 0)%nat.
Proof.
  intros Hco Hms Hc Hlt. unfold write_event. fold hall_path.
  assert (Hsame : forall es1, listing es1 = listing es -> chained tk ct 0 [] (listing es1) /\ length (listing es1) = (length (listing es) + 0)%nat)
    by (intros es1 ->; split; [done|lia]).
  destruct (fits _ _) as [dir|]; [|intros [= <- <-]; by apply Hsame].
  destruct (if makes_dir a then _ else _) as [es1|] eqn:Hmk; [|intros [= <- <-]; by apply Hsame].
  assert (Hl1 : list_dir hall_path es1 = Some (listing es)) by (destruct (makes_dir a); [by apply mkdir_list|done]).
  assert (E1 : listing es1 = listing es) by (unfold listing at 1; by rewrite Hl1).
  rewrite Hco, Hl1. cbn [fmap option_fmap option_map]. rewrite scan_chained by done.
  set (ts := hall_clock_utc _ _ _). set (e := Evt _ _ _ _ _ _ _ _ _ _).
  destruct (hall_evt_name HALL_EVT_ID_MAX e) as [nm|] eqn:Hnm; [|intros [= <- <-]; by apply Hsame].
  destruct (if allocates a then _ else _) as [json|] eqn:Hb; [|intros [= <- <-]; by apply Hsame].
  destruct (fits _ _) as [path|]; [|intros [= <- <-]; by apply Hsame].
  destruct (if writes a then _ else _) as [es2|] eqn:Hw; [|intros [= <- <-]; by apply Hsame].
  intros [= <- <-].
  assert (Hname : nm = name_text EVT_TENANT tk ct ts (Z.of_nat (length (listing es)) + 1) /\ (length nm < HALL_EVT_ID_MAX)%nat).
  { unfold hall_evt_name, e, fits in Hnm. cbn -[Nat.leb name_text HALL_EVT_ID_MAX] in Hnm. change (HALL_EVT_ID_MAX =? 0)%nat with false in Hnm.
    destruct (_ <=? _)%nat eqn:Hle; [done|]. injection Hnm as <-. apply Nat.leb_gt in Hle. done. }
  destruct Hname as [-> Hlen]. destruct (writes a); [|done]. apply write_list in Hw.
  2: { fold (listing es1). rewrite E1. intros Hin. pose proof (chained_seqs _ 0 [] _ Hc ltac:(lia) Hin) as Hs.
       unfold ts in Hs. rewrite name_seq in Hs by done. lia. }
  fold (listing es1) in Hw. rewrite E1 in Hw. change (default es (Some es2)) with es2.
  match type of Hw with _ = Some ?l => assert (El : listing es2 = l) by (unfold listing at 1; by rewrite Hw) end.
  rewrite El, length_app. split; [|done]. apply chained_snoc; [done|]. exists (wall_ms a), nd, body, g, json. destruct (allocates a); done.
Qed.

Lemma next_gseq_tree a p d x p' d' : evt_next_gseq a p d = (x, p', d') -> tree d' = tree d.
Proof.
  unfold evt_next_gseq, evt_reserve, evt_wm_store. intros H. repeat case_match; simplify_eq; done.
Qed.

(** Calls of several processes that write to the same directory, with the
    codes they return, in a release build. *)
Fixpoint chain_run (data_dir : cstr) (ps : list process) (d : disk)
    (l : list (nat * bool * answers * option cstr * option cstr)) : disk * list Z :=
  match l with
  | [] => (d, [])
  | (i, made, a, nd, body) :: l' =>
      match ps !! i with
      | None => chain_run data_dir ps d l'
      | Some p =>
          let '(code, _, p', d') := hall_evt_write true data_dir made a (Some tk) (Some ct) nd body p d in
          let '(d2, codes) := chain_run data_dir (<[i := p']> ps) d' l' in (d2, code :: codes)
      end
  end.

Definition successes (codes : list Z) : nat := length (filter (fun c => c = 0) codes).

Lemma write_chained data_dir made a nd body p d code g p' d' :
  (forall path, can_open a path = true) -> 0 <= wall_ms a ->
  chained tk ct 0 [] (listing (tree d)) -> Z.of_nat (length (listing (tree d))) + 1 < 2 ^ 32 ->
  hall_evt_write true data_dir made a (Some tk) (Some ct) nd body p d = (code, g, p', d') ->
  chained tk ct 0 [] (listing (tree d'))
  /\ length (listing (tree d')) = (length (listing (tree d)) + successes [code])%nat.
Proof.
  intros Hco Hms Hc Hlt. unfold hall_evt_write.
  destruct (negb _); [intros [= <- <- <- <-]; cbn [successes]; by rewrite Nat.add_0_r|].
  destruct (g_evt_root _); [intros [= <- <- <- <-]; by rewrite Nat.add_0_r|].
  destruct (evt_next_gseq _ _ _) as [[x p1] d1] eqn:En. apply next_gseq_tree in En.
  destruct (write_event _ _ _ _ _ _ _ _) as [es id] eqn:Ew. intros [= <- <- <- <-]. cbn [tree].
  rewrite <- En in *. change (default [] (Some tk)) with tk in Ew. change (default [] (Some ct)) with ct in Ew.
  destruct (write_event_chained _ _ _ _ _ _ _ _ Hco Hms Hc Hlt Ew) as [H1 H2]. split; [done|]. rewrite H2. by destruct id.
Qed.

Lemma chain_run_ok data_dir l ps d d' codes :
  Forall (fun '(_, _, a, _, _) => (forall path, can_open a path = true) /\ 0 <= wall_ms a) l ->
  chained tk ct 0 [] (listing (tree d)) -> Z.of_nat (length (listing (tree d))) + Z.of_nat (length l) < 2 ^ 32 ->
  chain_run data_dir ps d l = (d', codes) ->
  chained tk ct 0 [] (listing (tree d')) /\ length (listing (tree d')) = (length (listing (tree d)) + successes codes)%nat.
Proof.
  revert ps d codes. induction l as [|[[[[i made] a] nd] body] l IH]; intros ps d codes Hl Hc Hlt; cbn [chain_run].
  - intros [= <- <-]. by rewrite Nat.add_0_r.
  - apply Forall_cons in Hl as [[Hco Hms] Hl]. cbn [length] in Hlt.
    destruct (ps !! i) as [p|]; [|intros H; exact (IH _ _ _ Hl Hc ltac:(lia) H)].
    destruct (hall_evt_write _ _ _ _ _ _ _ _ _ _) as [[[code g] p'] d1] eqn:Ew.
    destruct (chain_run _ _ d1 l) as [d2 codes2] eqn:Er. intros [= <- <-].
    apply write_chained in Ew as [H1 H2]; try (done || lia).
    assert (successes [code] <= 1)%nat by (unfold successes; rewrite filter_cons; destruct (decide _); cbn; lia).
    destruct (IH _ _ _ Hl H1 ltac:(lia) Er) as [H3 H4]. split; [done|]. rewrite H4, H2.
    change (code :: codes2) with ([code] ++ codes2). unfold successes. rewrite (filter_app _ [code] codes2), length_app. lia.
Qed.
End Chain.

(** Events that any processes write to one directory, one call after the
    other, form a chain: the calls that succeed get the numbers 1, 2, 3 and so on,
    and each event names the one before it as its predecessor, whichever calls
    fail in between. *)
Theorem event_chain tk ct data_dir n d l d' codes :
  no_dot tk /\ tk <> [] -> no_dot ct /\ ct <> [] ->
  Forall (fun '(_, _, a, _, _) => (forall path, can_open a path = true) /\ 0 <= wall_ms a) l ->
  listing tk ct (tree d) = [] -> Z.of_nat (length l) < 2 ^ 32 ->
  chain_run tk ct data_dir (replicate n fresh_process) d l = (d', codes) ->
  chained tk ct 0 [] (listing tk ct (tree d')) /\ length (listing tk ct (tree d')) = successes codes.
Proof.
  intros Htk Hct Hl Hd Hlt Hrun. destruct (chain_run_ok tk ct Htk Hct data_dir l (replicate n fresh_process) d d' codes) as [H1 H2]; try done.
  - by rewrite Hd.
  - by rewrite Hd.
  - split; [done|]. by rewrite H2, Hd.
Qed.

Definition two_writers : list (nat * bool * answers * option cstr * option cstr) :=
  [(0%nat, true, good 0, None, Some (cs "{}")); (1%nat, true, good 0, None, None); (1%nat, true, good 5, None, Some (cs "{}"))].

Lemma event_chain_witness :
  exists d' codes, chain_run (cs "t1") (cs "chain") (cs "/d") (replicate 2 fresh_process) (Disk None []) two_writers = (d', codes)
    /\ chained (cs "t1") (cs "chain") 0 [] (listing (cs "t1") (cs "chain") (tree d')) /\ codes = [0; -1; 0].
Proof.
  destruct (chain_run (cs "t1") (cs "chain") (cs "/d") (replicate 2 fresh_process) (Disk None []) two_writers) as [d' codes] eqn:E.
  exists d', codes. split; [done|]. split.
  - refine (proj1 (event_chain (cs "t1") (cs "chain") (cs "/d") 2 (Disk None []) two_writers d' codes _ _ _ _ _ E)).
    + split; [by apply no_dot_lit|discriminate].
    + split; [by apply no_dot_lit|discriminate].
    + repeat constructor; cbn; lia.
    + reflexivity.
    + cbn; lia.
  - vm_compute in E. by injection E as <- <-.
Defined.

(** With a dot in the task every event is number 1 and overwrites the event of
    the same millisecond. *)
Lemma dotted_task_no_chain :
  exists d' codes, chain_run (cs "v1.2") (cs "chain") (cs "/d") (replicate 2 fresh_process) (Disk None []) two_writers = (d', codes)
    /\ codes = [0; -1; 0]
    /\ (listing (cs "v1.2") (cs "chain") (tree d')).*1
       = [cs "default.v1.2.chain.19700101T000000000.0001.json"; cs "default.v1.2.chain.19700101T000000005.0001.json"].
Proof. do 2 eexists. split; [vm_compute; reflexivity|]. by vm_compute. Qed.
