(* ===== verification/Token.v ===== *)
(** * Words and tokens: utils/token/scan.c, token_standard.c and counter.c

    The scanner that cuts a text into words, the estimate of the number of
    tokens (binary32 arithmetic of [SpecFloat]), quotas, and the counter with
    its truncation, which writes into an allocated buffer: a write outside it is
    [None]. *)
From S2P Require Import Prelude CLib Utf8.

(** ** Words *)

Definition AIRY_WORD_MAX : nat := 64.

(** The character of a word, in lower case, or 0. *)
Definition word_char (c : Z) : Z :=
  if (97 <=? c) && (c <=? 122) then c
  else if (48 <=? c) && (c <=? 57) then c
  else if c =? 95 then c
  else if (65 <=? c) && (c <=? 90) then c + 32
  else 0.

(** What [flush_word] passes to the callback. *)
Definition flush_word (word : cstr) : list cstr := if (0 <? length word)%nat then [word] else [].

(** The bytes of a sequence up to the end or a NUL. *)
Fixpoint seq_bytes (n : nat) (s : list Z) : list Z :=
  match n, s with
  | S n', c :: s' => if c =? 0 then [] else c :: seq_bytes n' s'
  | _, _ => []
  end.

(** The words passed to the callback, in order; each round consumes a byte. *)
Fixpoint words_loop (fuel : nat) (s : list Z) (word : cstr) : list cstr :=
  match fuel, s with
  | S fuel', c :: s' =>
      if c =? 0 then flush_word word
      else
        let ch := word_char c in
        if negb (ch =? 0) then
          words_loop fuel' s' (if (length word <? AIRY_WORD_MAX - 1)%nat then word ++ [ch] else word)
        else
          flush_word word ++
          (if c <? 0x80 then words_loop fuel' s' []
           else
             let buf := seq_bytes (utf8_seq_len c) s in
             if (2 <=? length buf)%nat then buf :: words_loop fuel' (drop (length buf) s) []
             else words_loop fuel' s' [])
  | _, _ => flush_word word
  end.

(** [text] is the bytes of the buffer, [None] for NULL. *)
Definition airy_words_scan (text : option (list Z)) (has_fn : bool) : list cstr :=
  match text with
  | Some s => if negb has_fn || (length s =? 0)%nat then [] else words_loop (length s) s []
  | None => []
  end.

(** ** Counting *)

Inductive airy_token_model_t := GENERIC | BPE | SPM | UNIFORM | CUSTOM.

#[export] Instance token_model_eq_dec : EqDecision airy_token_model_t.
Proof. solve_decision. Defined.

Record airy_token_config_t := TokenConfig {
  model_type : option airy_token_model_t;   (** [None]: a value outside the enumeration *)
  cjk_ratio : spec_float;
  alpha_ratio : spec_float;
  flags : Z;
}.

Definition AIRY_TOKEN_FLAG_ACCURATE : Z := 1.
Definition AIRY_TOKEN_FLAG_ESTIMATE : Z := 2.

Definition f32 (z : Z) : spec_float := binary_normalize 24 128 z 0 false.
Definition fdiv (x y : spec_float) : spec_float := SFdiv 24 128 x y.

(** The literals of the source. *)
Definition ratio (n d : Z) : spec_float := fdiv (f32 n) (f32 d).

Definition AIRY_TOKEN_CONFIG_DEFAULT : airy_token_config_t :=
  TokenConfig (Some GENERIC) (ratio 3 10) (ratio 5 10) AIRY_TOKEN_FLAG_ESTIMATE.

Definition cjk_rngs : list (Z * Z) :=
  [(0x4E00, 0x9FFF); (0x3400, 0x4DBF); (0x20000, 0x2A6DF); (0x2A700, 0x2B73F);
   (0x2B740, 0x2B81F); (0x2B820, 0x2CEAF); (0x2CEB0, 0x2EBEF); (0x30000, 0x3134F);
   (0x31350, 0x323AF); (0xF900, 0xFAFF); (0x2F800, 0x2FA1F); (0x3000, 0x303F);
   (0x3040, 0x309F); (0x30A0, 0x30FF); (0xAC00, 0xD7AF); (0xFF00, 0xFFEF)].

Definition cp_is_cjk (cp : Z) : bool := existsb (fun r => (r.1 <=? cp) && (cp <=? r.2)) cjk_rngs.

Definition isalpha (c : Z) : bool := ((65 <=? c) && (c <=? 90)) || ((97 <=? c) && (c <=? 122)).

Record char_counts := Counts { cjk_chars : Z; alpha_chars : Z; total_chars : Z }.

Definition count_cp (cp : Z) (n : char_counts) : char_counts :=
  if (cp <? 0x80) && isalpha cp then Counts (cjk_chars n) (alpha_chars n + 1) (total_chars n + 1)
  else if cp_is_cjk cp then Counts (cjk_chars n + 1) (alpha_chars n) (total_chars n + 1)
  else Counts (cjk_chars n) (alpha_chars n) (total_chars n + 1).

Fixpoint analyze_loop (fuel : nat) (s : list Z) (n : char_counts) : char_counts :=
  match fuel, s with
  | S fuel', _ :: s' =>
      match utf8_decode s (length s) with
      | Some (k, cp) => analyze_loop fuel' (drop k s) (count_cp cp n)
      | None => analyze_loop fuel' s' n
      end
  | _, _ => n
  end.

Definition airy_token_analyze_text (text : option (list Z)) (outs : bool) : Z * option char_counts :=
  match text with
  | Some s => if outs then (0, Some (analyze_loop (length s) s (Counts 0 0 0))) else (AIRY_EINVAL, None)
  | None => (AIRY_EINVAL, None)
  end.

Definition airy_token_validate_config (c : option airy_token_config_t) : Z :=
  match c with
  | None => AIRY_EINVAL
  | Some c =>
      match model_type c with
      | None => AIRY_EINVAL
      | Some _ =>
          if SFleb (cjk_ratio c) (f32 0) || SFleb (f32 1) (cjk_ratio c) then AIRY_EINVAL
          else if SFleb (alpha_ratio c) (f32 0) || SFleb (f32 1) (alpha_ratio c) then AIRY_EINVAL
          else if negb (Z.land (flags c) AIRY_TOKEN_FLAG_ACCURATE =? 0)
               && negb (Z.land (flags c) AIRY_TOKEN_FLAG_ESTIMATE =? 0) then AIRY_EINVAL
          else 0
      end
  end.

(** The conversion of a [float] to [size_t]. *)
Definition to_size (x : spec_float) : Z := default 0 (sf_trunc x).

(** [chars > total * ratio]. *)
Definition above (chars total : Z) (r : spec_float) : bool := SFltb (SFmul 24 128 (f32 total) r) (f32 chars).

Definition weighted (cjk total : Z) (d : spec_float) : Z :=
  to_size (SFadd 24 128 (fdiv (f32 cjk) d) (fdiv (f32 (total - cjk)) (f32 4))).

Definition ONE_HALF : spec_float := ratio 3 2.

Definition token_count_of (cfg : airy_token_config_t) (n : char_counts) : Z :=
  let cjk := cjk_chars n in let alpha := alpha_chars n in let total := total_chars n in
  if negb (Z.land (flags cfg) AIRY_TOKEN_FLAG_ACCURATE =? 0) then
    match model_type cfg with
    | Some BPE => weighted cjk total ONE_HALF
    | Some UNIFORM => to_size (fdiv (f32 total) (ratio 7 2))
    | Some SPM => weighted cjk total (f32 2)
    | _ => if above cjk total (cjk_ratio cfg) then weighted cjk total ONE_HALF
           else if above alpha total (alpha_ratio cfg) then to_size (fdiv (f32 total) (f32 4))
           else to_size (fdiv (f32 total) (f32 3))
    end
  else if above cjk total (cjk_ratio cfg) then to_size (fdiv (f32 total) ONE_HALF)
  else if above alpha total (alpha_ratio cfg) then to_size (fdiv (f32 total) (f32 4))
  else to_size (fdiv (f32 total) (f32 3)).

Definition SIZE_ERROR : Z := 2 ^ 64 - 1.

(** [length] bytes of [text], or all of it when [length] is 0. *)
Definition airy_token_standard_count (text : option cstr) (length : nat) (config : option airy_token_config_t) : Z :=
  match text with
  | None => SIZE_ERROR
  | Some s =>
      let cfg := default AIRY_TOKEN_CONFIG_DEFAULT config in
      if negb (airy_token_validate_config (Some cfg) =? 0) then SIZE_ERROR
      else
        let s := if (length =? 0)%nat then s else take length s in
        let n := analyze_loop (List.length s) s (Counts 0 0 0) in
        let t := token_count_of cfg n in
        if (t =? 0) && (0 <? total_chars n) then 1 else t
  end.

Inductive airy_token_precision_t := PRECISION_LOW | PRECISION_MEDIUM | PRECISION_HIGH.

Definition airy_token_set_precision (p : option airy_token_precision_t) (c : option airy_token_config_t)
    : Z * option airy_token_config_t :=
  match c with
  | None => (AIRY_EINVAL, None)
  | Some c =>
      match p with
      | Some PRECISION_LOW => (0, Some (TokenConfig (model_type c) (ratio 3 10) (ratio 5 10) AIRY_TOKEN_FLAG_ESTIMATE))
      | Some PRECISION_MEDIUM => (0, Some (TokenConfig (model_type c) (ratio 2 10) (ratio 4 10) AIRY_TOKEN_FLAG_ESTIMATE))
      | Some PRECISION_HIGH => (0, Some (TokenConfig (model_type c) (ratio 1 10) (ratio 3 10) AIRY_TOKEN_FLAG_ACCURATE))
      | None => (AIRY_EINVAL, Some c)
      end
  end.

(** ** Quotas *)

Record airy_token_quota_t := Quota {
  max_tokens_per_request : Z;
  max_tokens_per_minute : Z;
  max_tokens_per_hour : Z;
  max_tokens_per_day : Z;
  max_requests_per_minute : Z;
  max_requests_per_hour : Z;
  max_requests_per_day : Z;
}.

Record airy_token_usage_t := Usage {
  tokens_used_per_minute : Z;
  tokens_used_per_hour : Z;
  tokens_used_per_day : Z;
  requests_used_per_minute : Z;
  requests_used_per_hour : Z;
  requests_used_per_day : Z;
}.

(** One test of the source: a limit of 0 is none, and the sum is a [size_t]. *)
Definition exceeds (limit used more : Z) : bool := (0 <? limit) && (limit <? u64 (used + more)).

Definition airy_token_check_quota (quota : option airy_token_quota_t) (requested : Z) (usage : option airy_token_usage_t) : Z :=
  match quota with
  | None => AIRY_EINVAL
  | Some q =>
      if (0 <? max_tokens_per_request q) && (max_tokens_per_request q <? requested) then 1
      else
        match usage with
        | None => 0
        | Some u =>
            if exceeds (max_tokens_per_minute q) (tokens_used_per_minute u) requested then 2
            else if exceeds (max_tokens_per_hour q) (tokens_used_per_hour u) requested then 3
            else if exceeds (max_tokens_per_day q) (tokens_used_per_day u) requested then 4
            else if exceeds (max_requests_per_minute q) (requests_used_per_minute u) 1 then 5
            else if exceeds (max_requests_per_hour q) (requests_used_per_hour u) 1 then 6
            else if exceeds (max_requests_per_day q) (requests_used_per_day u) 1 then 7
            else 0
        end
  end.

(** ** The counter *)

Definition MAX_FAMILY_NAME : nat := 16.

Record airy_token_counter := TokenCounter {
  family : cstr;
  type : airy_token_model_t;
  total_count : Z;
  request_count : Z;
  max_token_length : Z;
}.

Definition family_lookup (name : cstr) : option airy_token_model_t :=
  if decide (name = cs "generic") then Some GENERIC
  else if decide (name = cs "bpe") then Some BPE
  else if decide (name = cs "spm") then Some SPM
  else if decide (name = cs "uniform") then Some UNIFORM
  else None.

Definition count_tok_family (t : airy_token_model_t) (text : cstr) : Z :=
  let c := AIRY_TOKEN_CONFIG_DEFAULT in
  airy_token_standard_count (Some text) (length text)
    (Some (TokenConfig (Some t) (cjk_ratio c) (alpha_ratio c)
             (if decide (t = GENERIC) then flags c else AIRY_TOKEN_FLAG_ACCURATE))).

Definition airy_token_counter_create (name : option cstr) (alloc mtx_ok : bool) : option airy_token_counter :=
  match name with
  | None => None
  | Some n =>
      match family_lookup n with
      | None => None
      | Some t => if negb alloc || negb mtx_ok then None
                  else Some (TokenCounter (take (MAX_FAMILY_NAME - 1) n) t 0 0 (128 * 1024))
      end
  end.

Definition airy_token_counter_destroy (c : option airy_token_counter) : option airy_token_counter := None.

Definition airy_token_counter_count (c : option airy_token_counter) (text : option cstr) : Z * option airy_token_counter :=
  match c, text with
  | Some c, Some s =>
      if (length s =? 0)%nat then (0, Some c)
      else
        let t := count_tok_family (type c) s in
        (t, Some (TokenCounter (family c) (type c) (u64 (total_count c + t)) (u64 (request_count c + 1)) (max_token_length c)))
  | _, _ => (SIZE_ERROR, c)
  end.

Definition airy_token_counter_count_batch (c : option airy_token_counter) (texts : option (list (option cstr))) (outs : bool)
    : Z * option (list Z) * option airy_token_counter :=
  match c, texts with
  | Some c, Some ts =>
      if negb outs then (SIZE_ERROR, None, Some c)
      else
        let counts := map (fun t => match t with Some s => count_tok_family (type c) s | None => 0 end) ts in
        let total := foldl (fun a n => u64 (a + n)) 0 counts in
        (0, Some counts,
         Some (TokenCounter (family c) (type c) (u64 (total_count c + total))
                 (u64 (request_count c + Z.of_nat (length ts))) (max_token_length c)))
  | _, _ => (SIZE_ERROR, None, c)
  end.

(** ** Truncation *)

(** [n] bytes of the allocator, with any content. *)
Definition alloc_bytes (mem : list Z) (n : nat) : list Z := take n (mem ++ replicate n 0).

(** Writes bytes at an offset; [None] outside the buffer. *)
Definition put (buf : list Z) (off : nat) (bytes : list Z) : option (list Z) :=
  if (off + length bytes <=? length buf)%nat then Some (take off buf ++ bytes ++ drop (off + length bytes) buf) else None.

(** [snprintf] of a text at an offset with a limit. *)
Definition print_at (buf : list Z) (off limit : nat) (text : cstr) : option (list Z) :=
  match limit with O => Some buf | S n => put buf off (take n text ++ [0]) end.

(** The string at the start of a buffer. *)
Fixpoint string_of (buf : list Z) : cstr :=
  match buf with [] => [] | c :: buf' => if c =? 0 then [] else c :: string_of buf' end.

Definition ELLIPSIS : cstr := cs "...".
Definition MARKER : cstr := cs "...[truncated]...".

Definition cut_end (mem : list Z) (text : cstr) (from target : nat) : option (list Z) :=
  put (alloc_bytes mem (target + 4)) 0 (take target (drop from text)) ≫= fun b =>
  put b target [0] ≫= fun b => print_at b target 4 ELLIPSIS.

(** The first half and the marker. *)
Definition with_marker (mem : list Z) (text : cstr) (target : nat) : option (list Z) :=
  let half := (target / 2)%nat in
  put (alloc_bytes mem (target + 8)) 0 (take half text) ≫= fun b =>
  put b half [0] ≫= fun b => print_at b half (target + 8 - half) MARKER.

Definition cut_middle (mem : list Z) (text : cstr) (target : nat) : option (list Z) :=
  let half := (target / 2)%nat in
  with_marker mem text target ≫= fun b =>
  let remaining := u64 (Z.of_nat target + 8 - (Z.of_nat half + 15)) in
  if 0 <? remaining then
    let copy_len := if Z.of_nat (target - half) <? remaining - 1 then (target - half)%nat else Z.to_nat (remaining - 1) in
    put b (half + 15) (take copy_len (drop (length text - (target - half)) text)) ≫= fun b =>
    put b (half + 15 + copy_len) [0]
  else Some b.

Inductive truncated := Refused | Copy (s : cstr) | Cut (buffer : option (list Z)).

(** [alloc] is the answer of the allocator, [mem] what the memory holds. *)
Definition airy_token_counter_truncate (c : option airy_token_counter) (text : option cstr) (max_tokens : Z)
    (side : option cstr) (alloc : bool) (mem : list Z) : truncated :=
  match c, text with
  | Some c, Some s =>
      if max_tokens =? 0 then Refused
      else if (length s =? 0)%nat then (if alloc then Copy [] else Refused)
      else
        let current := count_tok_family (type c) s in
        if current <=? max_tokens then (if alloc then Copy s else Refused)
        else
          let target := u64 (Z.of_nat (length s) * max_tokens) / current in
          let target := Z.to_nat (if Z.of_nat (length s) <? target then Z.of_nat (length s) else target) in
          if negb alloc then Refused
          else if bool_decide (side = Some (cs "left")) then Cut (cut_end mem s (length s - target) target)
          else if bool_decide (side = Some (cs "middle")) then Cut (cut_middle mem s target)
          else Cut (cut_end mem s 0 target)
  | _, _ => Refused
  end.

(** ** Characters of a valid text *)

Definition count_of (f : Z -> bool) (cps : list Z) : Z := Z.of_nat (length (filter (fun c => f c = true) cps)).

Lemma count_of_cons f c cps : count_of f (c :: cps) = (if f c then 1 else 0) + count_of f cps.
Proof. unfold count_of. rewrite filter_cons. destruct (f c) eqn:E; cbn [length]; destruct (decide _); try done; cbn [length]; lia. Qed.

Definition ascii_letter (c : Z) : bool := (c <? 0x80) && isalpha c.

Lemma letter_not_cjk c : ascii_letter c = true -> cp_is_cjk c = false.
Proof.
  unfold ascii_letter, isalpha, cp_is_cjk. intros H. cbn [existsb cjk_rngs fst snd].
  repeat (apply orb_false_iff; split); (done || apply andb_false_iff; left; lia).
Qed.

Lemma fold_counts cps n :
  foldl (fun n c => count_cp c n) n cps =
    Counts (cjk_chars n + count_of cp_is_cjk cps) (alpha_chars n + count_of ascii_letter cps)
      (total_chars n + Z.of_nat (length cps)).
Proof.
  revert n. induction cps as [|c cps IH]; intros n; cbn [foldl].
  - unfold count_of. cbn. destruct n; cbn. f_equal; lia.
  - rewrite IH, !count_of_cons. cbn [length]. unfold count_cp. fold (ascii_letter c).
    destruct (ascii_letter c) eqn:El; [rewrite (letter_not_cjk c El)|destruct (cp_is_cjk c)];
      cbn [cjk_chars alpha_chars total_chars]; f_equal; lia.
Qed.

Lemma analyze_text fuel cps n :
  Forall scalar cps -> (length (utf8_text cps) <= fuel)%nat ->
  analyze_loop fuel (utf8_text cps) n = foldl (fun n c => count_cp c n) n cps.
Proof.
  intros Hc. revert fuel n. induction Hc as [|c cps Hs _ IH]; intros fuel n Hf; [by destruct fuel|].
  rewrite text_cons in *. rewrite length_app in Hf.
  destruct (utf8_encode c) as [|b s] eqn:Ee; [by apply encode_nonempty in Ee|]. cbn [length] in Hf.
  destruct fuel as [|fuel]; [lia|]. cbn [app analyze_loop].
  change (b :: s ++ utf8_text cps) with ((b :: s) ++ utf8_text cps). rewrite <- Ee, decode_encode by (rewrite ?length_app; (done || lia)).
  rewrite drop_app_length. cbn [foldl]. apply IH. lia.
Qed.

(** In a valid UTF-8 text the analysis counts its characters, its CJK
    characters and its ASCII letters. *)
Theorem analyze_counts cps :
  Forall scalar cps ->
  airy_token_analyze_text (Some (utf8_text cps)) true =
    (0, Some (Counts (count_of cp_is_cjk cps) (count_of ascii_letter cps) (Z.of_nat (length cps)))).
Proof. intros Hc. unfold airy_token_analyze_text. by rewrite analyze_text, fold_counts by done. Qed.

Lemma analyze_counts_witness :
  airy_token_analyze_text (Some (utf8_text [65; 0x4E2D; 0x2A; 0x1F600])) true = (0, Some (Counts 1 1 4)).
Proof. apply (analyze_counts [65; 0x4E2D; 0x2A; 0x1F600]). repeat constructor; unfold scalar; lia. Defined.

(** ** Words of a valid text *)

Definition is_word (c : Z) : bool := negb (word_char c =? 0).

(** A text as its runs of word characters, its separators and its characters
    outside ASCII. *)
Inductive seg := Run (w : list Z) | Sep (c : Z) | Wide (cp : Z).

Definition seg_text (x : seg) : list Z :=
  match x with Run w => w | Sep c => [c] | Wide cp => utf8_encode cp end.

Definition seg_words (x : seg) : list cstr :=
  match x with Run w => [take (AIRY_WORD_MAX - 1) (map word_char w)] | Sep _ => [] | Wide cp => [utf8_encode cp] end.

Definition seg_ok (x : seg) : Prop :=
  match x with
  | Run w => w <> [] /\ Forall (fun c => is_word c = true) w
  | Sep c => 0 < c < 0x80 /\ is_word c = false
  | Wide cp => scalar cp /\ 0x80 <= cp
  end.

(** Two runs do not touch. *)
Fixpoint apart (l : list seg) : Prop :=
  match l with
  | Run _ :: ((Run _ :: _) as l') => False
  | _ :: l' => apart l'
  | [] => True
  end.

Lemma word_range c : is_word c = true -> 0 < c < 0x80.
Proof. unfold is_word, word_char. intros H. repeat case_match; bool_prop; lia. Qed.

Lemma words_run fuel w s acc :
  Forall (fun c => is_word c = true) w -> (length w <= fuel)%nat -> (length acc <= AIRY_WORD_MAX - 1)%nat ->
  words_loop fuel (w ++ s) acc = words_loop (fuel - length w) s (take (AIRY_WORD_MAX - 1) (acc ++ map word_char w)).
Proof.
  intros Hw. revert fuel acc. induction Hw as [|c w Hc _ IH]; intros fuel acc Hf Ha; cbn [app length map] in *.
  - rewrite app_nil_r, Nat.sub_0_r, take_ge by done. done.
  - destruct fuel as [|fuel]; [lia|]. cbn [words_loop]. pose proof (word_range c Hc). unfold is_word in Hc.
    replace (c =? 0) with false by lia. rewrite Hc. rewrite IH; [|lia|].
    + cbn [Nat.sub]. f_equal. destruct (Nat.ltb_spec (length acc) (AIRY_WORD_MAX - 1)) as [Hlt|Hge].
      * by rewrite <- app_assoc.
      * rewrite !take_app_ge by lia. replace (AIRY_WORD_MAX - 1 - length acc)%nat with O by lia. done.
    + destruct (Nat.ltb_spec (length acc) (AIRY_WORD_MAX - 1)); [rewrite length_app; cbn [length]; lia|done].
Qed.

Lemma seq_bytes_encode cp s :
  scalar cp -> 0x80 <= cp -> exists b t, utf8_encode cp = b :: t /\ 0x80 <= b
    /\ seq_bytes (utf8_seq_len b) (utf8_encode cp ++ s) = utf8_encode cp /\ (2 <= length (utf8_encode cp))%nat.
Proof.
  intros Hs Hcp. destruct (encode_shape cp Hs) as (b & t & E & Hb & Hnc & Hl & Ht). exists b, t. split; [done|].
  assert (Hn : forall l, Forall (fun c => c <> 0) l -> seq_bytes (length l) (l ++ s) = l).
  { clear. induction 1 as [|c l Hc _ IH]; [done|]. cbn [length app seq_bytes]. destruct (Z.eqb_spec c 0); [done|]. by rewrite IH. }
  assert (H2 : (2 <= length (utf8_encode cp))%nat) by (unfold utf8_encode; replace (cp <? 0x80) with false by lia; repeat case_match; cbn [length]; lia).
  assert (Hb8 : 0x80 <= b).
  { revert E. unfold utf8_encode. replace (cp <? 0x80) with false by lia. destruct Hs as [Hs _].
    assert (0 <= cp / 64 /\ 0 <= cp / 4096 /\ 0 <= cp / 262144) by (split_and!; apply Z.div_pos; lia).
    repeat case_match; intros [= <- <-]; lia. }
  split; [done|]. split; [|done]. rewrite E, Hl. apply (Hn (b :: t)). constructor; [lia|].
  eapply Forall_impl; [exact Ht|]. intros c [_ Hc]. apply is_cont_spec in Hc. lia.
Qed.

Definition head_run (l : list seg) : bool := match l with Run _ :: _ => true | _ => false end.

Lemma words_segs l fuel acc :
  Forall seg_ok l -> apart l -> (length (concat (map seg_text l)) <= fuel)%nat -> (length acc <= AIRY_WORD_MAX - 1)%nat ->
  (head_run l = true -> acc = []) ->
  words_loop fuel (concat (map seg_text l)) acc = flush_word acc ++ concat (map seg_words l).
Proof.
  revert fuel acc. induction l as [|x l IH]; intros fuel acc Hok Hap Hf Ha Hh; cbn [map concat] in *.
  { rewrite app_nil_r. by destruct fuel. }
  apply Forall_cons in Hok as [Hx Hok]. rewrite length_app in Hf. destruct x as [w|c|cp]; cbn [seg_text seg_words seg_ok] in *.
  - destruct Hx as [Hne Hw]. rewrite Hh by done. rewrite words_run by (done || cbn; lia). cbn [app].
    assert (Hne' : (0 < length (take (AIRY_WORD_MAX - 1) (map word_char w)))%nat).
    { rewrite length_take, length_map. unfold AIRY_WORD_MAX. destruct w; [done|]. cbn [length]. lia. }
    rewrite IH; [|done|by destruct l as [|[] l]|lia|rewrite length_take; lia|by destruct l as [|[] l]].
    unfold flush_word at 1. apply Nat.ltb_lt in Hne'. by rewrite Hne'.
  - destruct Hx as [Hc Hw]. cbn [app length] in *. destruct fuel as [|fuel]; [lia|]. cbn [words_loop].
    replace (c =? 0) with false by lia. unfold is_word in Hw. rewrite Hw. replace (c <? 0x80) with true by lia.
    f_equal. apply IH; (done || cbn; lia).
  - destruct Hx as [Hs Hcp]. destruct (seq_bytes_encode cp (concat (map seg_text l)) Hs Hcp) as (b & t & E & Hb & Hq & H2).
    rewrite E in Hf. cbn [length] in Hf. destruct fuel as [|fuel]; [lia|].
    rewrite E in *. cbn [app words_loop]. cbn [app] in Hq. replace (b =? 0) with false by lia.
    assert (Hwc : word_char b = 0) by (unfold word_char; repeat case_match; lia). rewrite Hwc. cbn [negb Z.eqb].
    replace (b <? 0x80) with false by lia. rewrite Hq. replace (2 <=? length (b :: t))%nat with true by (symmetry; apply Nat.leb_le; done).
    f_equal. f_equal. change (b :: t ++ concat (map seg_text l)) with ((b :: t) ++ concat (map seg_text l)).
    rewrite drop_app_length. rewrite IH; (done || cbn; lia).
Qed.

(** A valid text is cut into its maximal runs of ASCII word characters, in
    lower case and cut at 63, and its single characters outside ASCII, in order;
    separators give nothing. *)
Theorem words_scan_exact l :
  Forall seg_ok l -> apart l ->
  airy_words_scan (Some (concat (map seg_text l))) true = concat (map seg_words l).
Proof.
  intros Hok Hap. unfold airy_words_scan. cbn [negb orb]. destruct (Nat.eqb_spec (length (concat (map seg_text l))) 0) as [E|E].
  - destruct l as [|x l]; [done|]. apply Forall_cons in Hok as [Hx _]. cbn [map concat] in E. rewrite length_app in E.
    destruct x as [[|c w]|c|cp]; cbn in *; try lia; [by destruct Hx|].
    pose proof (encode_nonempty cp). destruct (utf8_encode cp); [done|cbn in *; lia].
  - rewrite words_segs; try done. cbn; lia.
Qed.

Lemma words_scan_exact_witness :
  airy_words_scan (Some (cs "Ab_1 x" ++ utf8_encode 0x4E2D)) true = [cs "ab_1"; cs "x"; utf8_encode 0x4E2D].
Proof.
  apply (words_scan_exact [Run (cs "Ab_1"); Sep 32; Run (cs "x"); Wide 0x4E2D]); [|done].
  repeat constructor; try done; unfold scalar; cbn; lia.
Defined.

(** ** Quotas *)

(** A limit of 0 is no limit. *)
Definition within (limit n : Z) : Prop := limit = 0 \/ n <= limit.

Definition usage_ok (u : airy_token_usage_t) (requested : Z) : Prop :=
  Forall (fun x => 0 <= x < 2 ^ 63)
    [tokens_used_per_minute u; tokens_used_per_hour u; tokens_used_per_day u; requests_used_per_minute u;
     requests_used_per_hour u; requests_used_per_day u; requested].

Lemma exceeds_within limit used more :
  0 <= limit -> 0 <= used < 2 ^ 63 -> 0 <= more < 2 ^ 63 -> exceeds limit used more = false <-> within limit (used + more).
Proof. intros Hl Hu Hm. unfold exceeds, within. rewrite u64_small by lia. lia. Qed.

(** A request passes the quota exactly when it respects the limit of one
    request and, added to what was used, each of the six limits of the
    windows, as long as the sums stay within 64 bits. *)
Theorem check_quota_exact q u requested :
  Forall (fun x => 0 <= x)
    [max_tokens_per_request q; max_tokens_per_minute q; max_tokens_per_hour q; max_tokens_per_day q;
     max_requests_per_minute q; max_requests_per_hour q; max_requests_per_day q] ->
  usage_ok u requested ->
  airy_token_check_quota (Some q) requested (Some u) = 0 <->
    within (max_tokens_per_request q) requested
    /\ within (max_tokens_per_minute q) (tokens_used_per_minute u + requested)
    /\ within (max_tokens_per_hour q) (tokens_used_per_hour u + requested)
    /\ within (max_tokens_per_day q) (tokens_used_per_day u + requested)
    /\ within (max_requests_per_minute q) (requests_used_per_minute u + 1)
    /\ within (max_requests_per_hour q) (requests_used_per_hour u + 1)
    /\ within (max_requests_per_day q) (requests_used_per_day u + 1).
Proof.
  intros Hq Hu. unfold usage_ok in Hu. decompose_Forall_hyps. unfold airy_token_check_quota.
  rewrite <- !exceeds_within by (done || lia). unfold within at 1.
  destruct ((0 <? max_tokens_per_request q) && (max_tokens_per_request q <? requested)) eqn:E1.
  { split; [done|]. intros [H' _]. lia. }
  repeat case_match; split; try done; try (intros; split_and!; (done || lia)); intros; destruct_and!; congruence.
Qed.

Lemma check_quota_exact_witness :
  airy_token_check_quota (Some (Quota 8000 60000 0 0 60 0 0)) 8000 (Some (Usage 52000 0 0 59 0 0)) = 0.
Proof.
  apply (check_quota_exact (Quota 8000 60000 0 0 60 0 0) (Usage 52000 0 0 59 0 0) 8000);
    [repeat constructor; cbn; lia|repeat constructor; cbn; lia|unfold within; cbn; lia].
Defined.

(** A sum that wraps passes every window. *)
Lemma quota_wraps :
  airy_token_check_quota (Some (Quota 0 60000 0 0 0 0 0)) (2 ^ 64 - 1) (Some (Usage 60000 0 0 0 0 0)) = 0.
Proof. reflexivity. Qed.

(** ** Truncation *)

Lemma put_pos (a b c : list Z) n :
  n = length a -> (length c <= length b)%nat -> put (a ++ b) n c = Some (a ++ c ++ drop (length c) b).
Proof.
  intros -> Hl. unfold put. rewrite length_app. replace (_ <=? _)%nat with true by (symmetry; apply Nat.leb_le; lia).
  rewrite take_app_length, <- drop_drop, drop_app_length. done.
Qed.

Lemma put_outside (buf c : list Z) n : (length buf < n)%nat -> put buf n c = None.
Proof. intros H. unfold put. replace (_ <=? _)%nat with false; [done|]. symmetry. apply Nat.leb_gt. lia. Qed.

Lemma alloc_length mem n : length (alloc_bytes mem n) = n.
Proof. unfold alloc_bytes. rewrite length_take, length_app, length_replicate. lia. Qed.

Lemma string_of_app s b : Forall is_char s -> string_of (s ++ 0 :: b) = s.
Proof. induction 1 as [|c s Hc _ IH]; [done|]. cbn [app string_of]. unfold is_char in Hc. replace (c =? 0) with false by lia. by rewrite IH. Qed.

Lemma cut_end_exact mem text from target :
  Forall is_char text -> (from + target <= length text)%nat ->
  exists buf, cut_end mem text from target = Some buf /\ length buf = (target + 4)%nat
    /\ string_of buf = take target (drop from text) ++ ELLIPSIS.
Proof.
  intros Ht Hl. unfold cut_end. set (x := take target (drop from text)).
  assert (Hx : length x = target) by (unfold x; rewrite length_take, length_drop; lia).
  assert (Hxc : Forall is_char x) by (unfold x; by apply Forall_take, Forall_drop).
  pose proof (alloc_length mem (target + 4)) as Ha. set (b := alloc_bytes mem (target + 4)) in *.
  change (put b 0 x) with (put ([] ++ b) 0 x). rewrite put_pos by (done || lia). cbn [app mbind option_bind].
  rewrite (put_pos x (drop (length x) b) [0]) by (rewrite ?length_drop; cbn [length]; lia). cbn [mbind option_bind].
  change (print_at ?b target 4 ELLIPSIS) with (put b target (ELLIPSIS ++ [0])).
  assert (Hd : length (drop (length x) b) = 4%nat) by (rewrite length_drop; lia).
  destruct (drop (length x) b) as [|b0 [|b1 [|b2 [|b3 [|]]]]]; try done.
  cbn [length drop app]. rewrite (put_pos x [0; b1; b2; b3] (ELLIPSIS ++ [0])) by (cbn [length]; (done || lia)).
  eexists. split; [done|]. split; [rewrite !length_app; cbn; lia|].
  change (drop (length (ELLIPSIS ++ [0])) [0; b1; b2; b3]) with (@nil Z). rewrite app_nil_r, app_assoc.
  apply string_of_app. apply Forall_app. split; [done|]. by repeat constructor.
Qed.

Lemma half_bounds t : (t / 2 <= t)%nat /\ (t - t / 2 <= t / 2 + 1)%nat /\ (t / 2 <= t - t / 2)%nat.
Proof. pose proof (Nat.div_mod t 2). pose proof (Nat.mod_upper_bound t 2). lia. Qed.

(** The buffer after the marker was printed. *)
Lemma marker_printed mem text target :
  (target <= length text)%nat ->
  let half := (target / 2)%nat in let k := (target - half)%nat in
  exists z, length (take (k + 7) MARKER ++ 0 :: z) = (k + 8)%nat
    /\ with_marker mem text target = Some (take half text ++ take (k + 7) MARKER ++ 0 :: z).
Proof.
  intros Hl half k. unfold with_marker. fold half. destruct (half_bounds target) as (H1 & H2 & H3). fold half in H1, H2, H3.
  assert (Hx : length (take half text) = half) by (rewrite length_take; lia). set (x := take half text) in *.
  pose proof (alloc_length mem (target + 8)) as Ha. set (b := alloc_bytes mem (target + 8)) in *.
  change (put b 0 x) with (put ([] ++ b) 0 x). rewrite put_pos by (done || lia). cbn [app mbind option_bind].
  rewrite (put_pos x (drop (length x) b) [0]) by (rewrite ?length_drop; cbn [length]; lia). cbn [mbind option_bind].
  replace (target + 8 - half)%nat with (S (k + 7)) by lia. cbn [print_at].
  assert (Hm : (length (take (k + 7) MARKER ++ [0%Z]) <= k + 8)%nat) by (rewrite length_app, length_take; cbn [length]; lia).
  assert (Hd : length ([0] ++ drop (length [0]) (drop (length x) b)) = (k + 8)%nat) by (rewrite length_app, !length_drop; cbn [length]; lia).
  rewrite (put_pos x ([0] ++ drop (length [0]) (drop (length x) b)) (take (k + 7) MARKER ++ [0])) by lia.
  exists (drop (length (take (k + 7) MARKER ++ [0])) ([0] ++ drop (length [0]) (drop (length x) b))).
  split; [|by rewrite <- app_assoc].
  change (0 :: ?z) with ([0] ++ z). rewrite app_assoc, length_app, length_drop, Hd. lia.
Qed.

Lemma cut_middle_exact mem text target :
  Forall is_char text -> Z.of_nat (length text) < 2 ^ 63 -> (target <= length text)%nat ->
  let half := (target / 2)%nat in let k := (target - half)%nat in
  match cut_middle mem text target with
  | None => (k < 7)%nat
  | Some buf => (7 <= k)%nat /\ length buf = (target + 8)%nat
      /\ string_of buf = take half text
         ++ if (k =? 7)%nat then take 14 MARKER else take 15 MARKER ++ take (k - 8) (drop (length text - k) text)
  end.
Proof.
  intros Ht H63 Hl half k. destruct (half_bounds target) as (H1 & H2 & H3). fold half in H1, H2, H3.
  unfold cut_middle. fold half. destruct (marker_printed mem text target Hl) as (z & Hz & ->). fold half k in Hz |- *.
  cbn [mbind option_bind]. assert (Hx : length (take half text) = half) by (rewrite length_take; lia).
  assert (Hxc : Forall is_char (take half text)) by (by apply Forall_take).
  replace (Z.of_nat target + 8 - (Z.of_nat half + 15)) with (Z.of_nat k - 7) by lia.
  destruct (Nat.lt_trichotomy k 7) as [Hk|[Hk|Hk]].
  - assert (Hu : u64 (Z.of_nat k - 7) = 2 ^ 64 + Z.of_nat k - 7) by (unfold u64; rewrite <- (Z_mod_plus_full _ 1), Z.mod_small; lia).
    rewrite Hu. replace (0 <? _) with true by lia. replace (Z.of_nat k <? _) with true by lia.
    rewrite put_outside; [done|]. rewrite length_app, Hz, Hx. lia.
  - rewrite Hk in *. change (u64 (Z.of_nat 7 - 7)) with 0. cbn [Z.ltb Z.compare]. split; [lia|].
    split; [rewrite length_app, Hz; lia|]. cbn [Nat.eqb]. rewrite app_assoc. apply string_of_app. apply Forall_app. split; [done|].
    by repeat constructor.
  - rewrite u64_small by lia. replace (0 <? _) with true by lia. replace (Z.of_nat k <? _) with false by lia.
    replace (Z.to_nat (Z.of_nat k - 7 - 1)) with (k - 8)%nat by lia.
    set (y := take (k + 7) MARKER ++ 0 :: z) in *. set (tl := take (k - 8) (drop (length text - k) text)).
    assert (Htl : length tl = (k - 8)%nat) by (unfold tl; rewrite length_take, length_drop; lia).
    assert (Hy : take 15 y = take 15 MARKER).
    { unfold y. rewrite take_app_le by (rewrite length_take; change (length MARKER) with 17%nat; lia).
      rewrite take_take. f_equal. lia. }
    replace (take half text ++ y) with ((take half text ++ take 15 y) ++ drop 15 y) by (by rewrite <- app_assoc, take_drop).
    rewrite put_pos by (rewrite ?length_app, ?length_take, ?length_drop; lia). cbn [mbind option_bind].
    rewrite app_assoc. rewrite put_pos by (rewrite ?length_app, ?length_take, ?length_drop; cbn [length]; lia).
    split; [lia|]. split; [rewrite !length_app, !length_drop, !length_take; cbn [length]; lia|].
    replace (k =? 7)%nat with false by (symmetry; apply Nat.eqb_neq; lia). cbn [app]. rewrite string_of_app, Hy.
    + by rewrite <- app_assoc.
    + rewrite Hy. repeat (apply Forall_app; split); [done|by repeat constructor|]. unfold tl. by apply Forall_take, Forall_drop.
Qed.

(** The target of a truncation never exceeds the text. *)
Definition target_chars (c : airy_token_counter) (s : cstr) (max_tokens : Z) : nat :=
  Z.to_nat (Z.of_nat (length s) * max_tokens / count_tok_family (type c) s).

(** A text that has too many tokens is cut to the share of its bytes that
    the limit allows, with no write outside the buffer: the start followed by
    dots, the end followed by dots for the left side, and for the middle the two
    halves around the marker, whose end is cut and whose last eight bytes are
    dropped; a target of less than thirteen bytes overruns the buffer. *)
Theorem truncate_exact c s max_tokens side mem :
  Forall is_char s -> s <> [] -> 0 < max_tokens < count_tok_family (type c) s ->
  Z.of_nat (length s) * max_tokens < 2 ^ 63 ->
  let t := target_chars c s max_tokens in let h := (t / 2)%nat in
  exists r, airy_token_counter_truncate (Some c) (Some s) max_tokens side true mem = Cut r /\
  if bool_decide (side = Some (cs "middle")) then
    (r = None <-> (t < 13)%nat)
    /\ forall buf, r = Some buf -> string_of buf = take h s
       ++ if (t - h =? 7)%nat then take 14 MARKER else take 15 MARKER ++ take (t - h - 8) (drop (length s - (t - h)) s)
  else
    exists buf, r = Some buf /\ length buf = (t + 4)%nat
      /\ string_of buf = (if bool_decide (side = Some (cs "left")) then drop (length s - t) s else take t s) ++ ELLIPSIS.
Proof.
  intros Hs Hne Hmax Hlt t h. assert (Hlen : (0 < length s)%nat) by (destruct s; [done|cbn; lia]).
  unfold airy_token_counter_truncate. replace (max_tokens =? 0) with false by lia.
  replace (length s =? 0)%nat with false by (symmetry; apply Nat.eqb_neq; lia).
  set (n := count_tok_family (type c) s) in *. replace (n <=? max_tokens) with false by lia.
  rewrite u64_small by nia. cbn [negb].
  assert (Ht : 0 <= Z.of_nat (length s) * max_tokens / n <= Z.of_nat (length s)).
  { split; [apply Z.div_pos; nia|]. apply Z.div_le_upper_bound; nia. }
  replace (_ <? _) with false by lia. fold n in t. change (Z.to_nat _) with t. assert (Htl : (t <= length s)%nat) by (unfold t, target_chars; fold n; lia).
  destruct (half_bounds t) as (B1 & B2 & B3).
  destruct (bool_decide (side = Some (cs "left"))) eqn:Eleft.
  - apply bool_decide_eq_true in Eleft. subst side. eexists. split; [done|].
    destruct (cut_end_exact mem s (length s - t) t Hs ltac:(lia)) as (buf & -> & Hl & Hstr).
    exists buf. split; [done|]. split; [done|]. rewrite Hstr. cbn. rewrite take_ge; [done|]. rewrite length_drop. lia.
  - destruct (bool_decide (side = Some (cs "middle"))) eqn:Emid; (eexists; split; [reflexivity|]).
    + pose proof (cut_middle_exact mem s t Hs ltac:(nia) Htl) as Hm. cbn zeta in Hm. fold h in Hm.
      destruct (cut_middle mem s t) as [buf|].
      * destruct Hm as (Hk & Hl & Hstr). split; [split; [done|]; intros; unfold h in *; lia|]. by intros buf' [= <-].
      * split; [|done]. split; [|done]. intros _. unfold h in *. lia.
    + destruct (cut_end_exact mem s 0 t Hs ltac:(lia)) as (buf & -> & Hl & Hstr). by exists buf.
Qed.

Definition spm_counter : airy_token_counter := TokenCounter (cs "spm") SPM 0 0 (128 * 1024).
Definition long_text : cstr := cs "the quick brown fox jumps over the lazy dog again".

Lemma truncate_exact_witness :
  exists r buf, airy_token_counter_truncate (Some spm_counter) (Some long_text) 5 None true [] = Cut r
    /\ r = Some buf /\ string_of buf = cs "the quick brown fox ..." /\ count_tok_family SPM long_text = 12.
Proof.
  assert (Hn : count_tok_family SPM long_text = 12) by (vm_compute; reflexivity).
  destruct (truncate_exact spm_counter long_text 5 None []) as (r & E & Hb).
  - by apply (bool_decide_unpack (Forall is_char long_text)).
  - discriminate.
  - cbn [type spm_counter]. rewrite Hn. lia.
  - vm_compute. reflexivity.
  - rewrite bool_decide_eq_false_2 in Hb by discriminate. destruct Hb as (buf & -> & Hl & Hstr).
    exists (Some buf), buf. split; [done|]. split; [done|]. split; [|done]. rewrite Hstr. vm_compute. reflexivity.
Defined.

(** Ten bytes are asked for in the middle of a text: the write that follows the
    marker is outside the buffer of eighteen. *)
Lemma middle_overruns :
  airy_token_counter_truncate (Some spm_counter) (Some long_text) 2 (Some (cs "middle")) true [] = Cut None.
Proof. vm_compute. reflexivity. Qed.
