(* ===== verification/AirId.v ===== *)
(** * Identifiers and roles: utils/id/airy_id.c and utils/cognition/agent_vocab.c

    Trace, message and object identifiers with their texts, and the table of
    the roles of agents.  The random state is one shared variable: a call of
    [airy_id_entropy64] is given as a whole, for threads that do not overlap,
    and by its accesses ([entropy_step]), for threads that do. *)
From Stdlib Require Import Znumtheory.
From S2P Require Import Prelude Uuid.

(** ** Entropy *)

Definition GOLDEN : Z := 0x9E3779B97F4A7C15.

(** The finaliser of splitmix64. *)
Definition mix64 (next : Z) : Z :=
  let z := u64 (Z.lxor next (Z.shiftr next 30) * 0xBF58476D1CE4E5B9) in
  let z := u64 (Z.lxor z (Z.shiftr z 27) * 0x94D049BB133111EB) in
  Z.lxor z (Z.shiftr z 31).

(** [addr] is the address of the function, [now1] and [now2] the two readings
    of the clock. *)
Definition seed_of (addr now1 now2 : Z) : Z :=
  let seed := Z.lxor (Z.lxor addr (u64 (Z.shiftl (u64 now1) 32))) (u64 now2) in
  if seed =? 0 then GOLDEN else seed.

(** The value returned and the state left; [seed] is used when the state is 0. *)
Definition airy_id_entropy64 (seed : Z) (s_state : Z) : Z * Z :=
  let s_state := if s_state =? 0 then seed else s_state in
  let next := u64 (s_state + GOLDEN) in
  (mix64 next, next).

(** The accesses of one call, one at a time. *)
Inductive entropy_pc := Begin | Seeding | Read | Write (next : Z) | Finished (value : Z).

Definition entropy_step (seed : Z) (pc : entropy_pc) (s_state : Z) : entropy_pc * Z :=
  match pc with
  | Begin => (if s_state =? 0 then Seeding else Read, s_state)
  | Seeding => (Read, if s_state =? 0 then seed else s_state)
  | Read => (Write (u64 (s_state + GOLDEN)), s_state)
  | Write next => (Finished (mix64 next), next)
  | Finished v => (Finished v, s_state)
  end.

(** ** Identifiers *)

Record airy_trace_id_t := TraceId { trace_value : Z }.
Record airy_msg_id_t := MsgId { msg_value : Z }.
Record airy_oid_t := Oid { hi : Z; lo : Z }.

Definition AIRY_TRACE_ID_NULL : airy_trace_id_t := TraceId 0.
Definition AIRY_MSG_ID_NULL : airy_msg_id_t := MsgId 0.

Definition airy_trace_id_generate (seed s_state : Z) : airy_trace_id_t * Z :=
  let '(v, s) := airy_id_entropy64 seed s_state in (TraceId v, s).
Definition airy_trace_id_eq (a b : airy_trace_id_t) : bool := trace_value a =? trace_value b.

(** The counter is as wide as [uint_fast32_t], 64 bits on the platforms of the
    library; the identifier keeps its low half. *)
Definition airy_msg_id_generate (now g_msg_seq : Z) : airy_msg_id_t * Z :=
  let ts := u32 now in
  let seq := u32 g_msg_seq in
  (MsgId (Z.lor (Z.shiftl ts 32) seq), u64 (g_msg_seq + 1)).
Definition airy_msg_id_eq (a b : airy_msg_id_t) : bool := msg_value a =? msg_value b.

Definition airy_oid_next_seq (now g_oid_seq : Z) : Z * Z :=
  let cur := if g_oid_seq =? 0 then Z.lor (Z.land (u64 now) 0xFFFFFFFF) 1 else g_oid_seq in
  (u32 cur, u64 (cur + 1)).

(** [now] and [now'] are the clock of the identifier and that of the seed. *)
Definition airy_oid_gen (now now' seed g_oid_seq s_state : Z) : airy_oid_t * Z * Z :=
  let '(seq, g) := airy_oid_next_seq now' g_oid_seq in
  let '(e, s) := airy_id_entropy64 seed s_state in
  (Oid (Z.lor (Z.shiftl (u32 now) 32) seq) e, g, s).

(** ** Texts *)

(** [%0nllx] of a number of at most [n] hexadecimal digits. *)
Fixpoint hexw (n : nat) (v : Z) : cstr :=
  match n with O => [] | S n' => hexw n' (v / 16) ++ [hex_digit (v mod 16)] end.

(** [out_cap] bytes at [out], which holds [old] before. *)
Definition airy_oid_str (id : airy_oid_t) (old : cstr) (out_cap : nat) : cstr :=
  snprintf_into out_cap old (hexw 8 (u32 (Z.shiftr (hi id) 32)) ++ hexw 8 (Z.land (hi id) 0xFFFFFFFF) ++ hexw 16 (lo id)).

Definition airy_trace_id_to_string (id : airy_trace_id_t) (old : cstr) (out_cap : nat) : cstr :=
  snprintf_into out_cap old (cs "tr-" ++ hexw 16 (trace_value id)).

Definition airy_msg_id_to_string (id : airy_msg_id_t) (old : cstr) (out_cap : nat) : cstr :=
  let ts := u32 (Z.shiftr (msg_value id) 32) in
  let seq := u32 (Z.land (msg_value id) 0xFFFFFFFF) in
  snprintf_into out_cap old (cs "msg-" ++ hexw 8 ts ++ cs "-" ++ hexw 8 seq).

Definition airy_id_hex_val (c : Z) : Z :=
  if (48 <=? c) && (c <=? 57) then c - 48
  else if (97 <=? c) && (c <=? 102) then c - 97 + 10
  else if (65 <=? c) && (c <=? 70) then c - 65 + 10
  else -1.

Fixpoint parse_hex_loop (s : cstr) (v : Z) : option Z :=
  match s with
  | [] => Some v
  | c :: s' =>
      let d := airy_id_hex_val c in
      if d <? 0 then None else parse_hex_loop s' (Z.lor (u64 (Z.shiftl v 4)) d)
  end.

(** The first [len] characters; [None] when [ok] is left 0. *)
Definition airy_id_parse_hex (s : cstr) (len : nat) : option Z := parse_hex_loop (take len s) 0.

Definition airy_trace_id_from_string (str : option cstr) : airy_trace_id_t :=
  match str with
  | None => AIRY_TRACE_ID_NULL
  | Some s =>
      if negb (bool_decide (take 3 s = cs "tr-")) then AIRY_TRACE_ID_NULL
      else
        let hex := drop 3 s in
        if negb (length hex =? 16)%nat then AIRY_TRACE_ID_NULL
        else match airy_id_parse_hex hex 16 with Some v => TraceId v | None => AIRY_TRACE_ID_NULL end
  end.

(** [strchr]: the place of the first occurrence. *)
Fixpoint find_char (c : Z) (s : cstr) : option nat :=
  match s with [] => None | b :: s' => if b =? c then Some O else S <$> find_char c s' end.

Definition airy_msg_id_from_string (str : option cstr) : airy_msg_id_t :=
  match str with
  | None => AIRY_MSG_ID_NULL
  | Some s =>
      if negb (bool_decide (take 4 s = cs "msg-")) then AIRY_MSG_ID_NULL
      else
        let p := drop 4 s in
        match find_char 45 p with
        | None => AIRY_MSG_ID_NULL
        | Some dash =>
            let q := drop (S dash) p in
            if negb (dash =? 8)%nat || negb (length q =? 8)%nat then AIRY_MSG_ID_NULL
            else
              match airy_id_parse_hex p 8, airy_id_parse_hex q 8 with
              | Some ts, Some seq => MsgId (Z.lor (u64 (Z.shiftl ts 32)) seq)
              | _, _ => AIRY_MSG_ID_NULL
              end
        end
  end.

(** ** Roles of agents *)

Definition AGENT_VOCAB_FALLBACK : cstr := cs "coding".

Definition VOCAB_ROLES : list cstr :=
  [cs "product_manager"; cs "architect"; cs "backend"; cs "frontend"; cs "devops"; cs "security"; cs "tester"; cs "coding";
          cs "data_engineer"; cs "reviewer"; cs "analyst"].

Definition VOCAB_ALIASES : list (cstr * cstr) :=
  [(cs "creator", cs "coding"); (cs "generator", cs "coding"); (cs "writer", cs "coding"); (cs "translator", cs "coding");
     (cs "explainer", cs "coding"); (cs "processor", cs "coding"); (cs "formatter", cs "coding"); (cs "reactive-agent", cs "coding");
     (cs "verifier", cs "tester"); (cs "validator", cs "tester"); (cs "executor", cs "devops"); (cs "retriever", cs "architect");
     (cs "summarizer", cs "product_manager")].

Definition VOCAB_READONLY : list cstr := [cs "tester"; cs "reviewer"].

Definition vocab_streq (a b : option cstr) : bool :=
  match a, b with Some a, Some b => bool_decide (a = b) | _, _ => false end.

Fixpoint find_role (role : cstr) (l : list cstr) : option cstr :=
  match l with [] => None | r :: l' => if vocab_streq (Some role) (Some r) then Some r else find_role role l' end.

Fixpoint find_alias (role : cstr) (l : list (cstr * cstr)) : option cstr :=
  match l with [] => None | (a, r) :: l' => if vocab_streq (Some role) (Some a) then Some r else find_alias role l' end.

Definition agent_vocab_resolve (role : option cstr) : option cstr :=
  match role with
  | None | Some [] => None
  | Some r => match find_role r VOCAB_ROLES with Some c => Some c | None => find_alias r VOCAB_ALIASES end
  end.

Definition agent_vocab_canonical (role : option cstr) : cstr := default AGENT_VOCAB_FALLBACK (agent_vocab_resolve role).

Definition agent_vocab_is_readonly (role : option cstr) : bool :=
  existsb (fun r => vocab_streq (Some (agent_vocab_canonical role)) (Some r)) VOCAB_READONLY.

Definition agent_vocab_role_count : nat := length VOCAB_ROLES.
Definition agent_vocab_role_at (idx : nat) : option cstr := VOCAB_ROLES !! idx.
Definition agent_vocab_alias_count : nat := length VOCAB_ALIASES.
(** The alias and the role it stands for. *)
Definition agent_vocab_alias_at (idx : nat) : option (cstr * cstr) := VOCAB_ALIASES !! idx.
Definition agent_vocab_readonly_count : nat := length VOCAB_READONLY.
Definition agent_vocab_readonly_at (idx : nat) : option cstr := VOCAB_READONLY !! idx.

(** ** Splitmix64 is a bijection *)

Lemma xorshift_inj k a b :
  0 < k -> 0 <= a < 2 ^ 64 -> 0 <= b < 2 ^ 64 ->
  Z.lxor a (Z.shiftr a k) = Z.lxor b (Z.shiftr b k) -> a = b.
Proof.
  intros Hk Ha Hb H. set (d := Z.lxor a b).
  assert (Hd : d = Z.shiftr d k).
  { apply Z.lxor_eq. unfold d. rewrite Z.shiftr_lxor, Z.lxor_assoc, (Z.lxor_comm b), <- !Z.lxor_assoc, H.
    by rewrite (Z.lxor_assoc b), Z.lxor_nilpotent, Z.lxor_0_r, Z.lxor_nilpotent. }
  assert (0 <= d) by (apply Z.lxor_nonneg; lia). apply Z.lxor_eq. fold d.
  destruct (Z.eq_dec d 0) as [|Hne]; [done|]. rewrite Z.shiftr_div_pow2 in Hd by lia.
  pose proof (Z.div_lt d (2 ^ k) ltac:(lia) ltac:(apply Z.pow_gt_1; lia)). lia.
Qed.

Lemma mul_odd_inj c a b :
  Z.gcd (2 ^ 64) c = 1 -> 0 <= a < 2 ^ 64 -> 0 <= b < 2 ^ 64 -> u64 (a * c) = u64 (b * c) -> a = b.
Proof.
  intros Hc Ha Hb H. unfold u64 in H.
  assert (Hdiv : (2 ^ 64 | c * (a - b))).
  { apply Z.mod_divide; [lia|]. replace (c * (a - b)) with (a * c - b * c) by lia.
    by rewrite Zminus_mod, H, Z.sub_diag, Z.mod_0_l. }
  apply Gauss in Hdiv; [|by apply Zgcd_1_rel_prime]. destruct Hdiv as [q Hq].
  assert (q = 0) by nia. lia.
Qed.

Lemma xor_range a k : 0 <= k -> 0 <= a < 2 ^ 64 -> 0 <= Z.lxor a (Z.shiftr a k) < 2 ^ 64.
Proof.
  intros Hk Ha. assert (Hs : 0 <= Z.shiftr a k <= a).
  { rewrite Z.shiftr_div_pow2 by lia. split; [apply Z.div_pos; [lia|apply Z.pow_pos_nonneg; lia]|].
    apply Z.div_le_upper_bound; [apply Z.pow_pos_nonneg; lia|]. assert (1 <= 2 ^ k) by (apply (Z.pow_le_mono_r 2 0 k); lia). nia. }
  assert (0 <= Z.lxor a (Z.shiftr a k)) by (apply Z.lxor_nonneg; lia). split; [done|].
  destruct (Z.eq_dec (Z.lxor a (Z.shiftr a k)) 0) as [->|Hne]; [lia|].
  apply Z.log2_lt_pow2; [lia|]. pose proof (Z.log2_lxor a (Z.shiftr a k) ltac:(lia) ltac:(lia)).
  assert (forall x, 0 <= x < 2 ^ 64 -> Z.log2 x < 64) as Hlog.
  { intros x Hx. destruct (Z.eq_dec x 0) as [->|]; [cbn; lia|]. apply Z.log2_lt_pow2; lia. }
  pose proof (Hlog a Ha). pose proof (Hlog (Z.shiftr a k) ltac:(lia)). lia.
Qed.

Lemma mix64_inj a b : 0 <= a < 2 ^ 64 -> 0 <= b < 2 ^ 64 -> mix64 a = mix64 b -> a = b.
Proof.
  intros Ha Hb H. unfold mix64 in H. apply xorshift_inj in H; [|lia|apply u64_range..].
  apply mul_odd_inj in H; [|reflexivity|apply xor_range; [lia|apply u64_range]..].
  apply xorshift_inj in H; [|lia|apply u64_range..]. apply mul_odd_inj in H; [|reflexivity|by apply xor_range..].
  by apply xorshift_inj in H.
Qed.

(** Calls of [airy_trace_id_generate] one after the other. *)
Fixpoint trace_ids (seed : Z) (n : nat) (s_state : Z) : list airy_trace_id_t :=
  match n with
  | O => []
  | S n' => let '(id, s) := airy_trace_id_generate seed s_state in id :: trace_ids seed n' s
  end.

Lemma trace_ids_values seed n s i :
  0 <= s < 2 ^ 64 -> (forall j, (j < n)%nat -> u64 (s + Z.of_nat j * GOLDEN) <> 0) -> (i < n)%nat ->
  trace_ids seed n s !! i = Some (TraceId (mix64 (u64 (s + Z.of_nat (S i) * GOLDEN)))).
Proof.
  revert s i. induction n as [|n IH]; intros s i Hs Hz Hi; [lia|]. cbn [trace_ids].
  unfold airy_trace_id_generate, airy_id_entropy64.
  assert (s <> 0) by (intros ->; by apply (Hz O); [lia|]). replace (s =? 0) with false by lia.
  destruct i as [|i]; cbn [lookup list_lookup].
  - by do 4 f_equal.
  - rewrite IH; [|apply u64_range| |lia].
    + do 3 f_equal. unfold u64. rewrite Zplus_mod_idemp_l. f_equal. lia.
    + intros j Hj. replace (u64 (u64 (s + GOLDEN) + Z.of_nat j * GOLDEN)) with (u64 (s + Z.of_nat (S j) * GOLDEN)).
      { apply Hz. lia. } unfold u64. rewrite Zplus_mod_idemp_l. f_equal. lia.
Qed.

Lemma step_inj s i j :
  0 <= i < 2 ^ 64 -> 0 <= j < 2 ^ 64 -> u64 (s + i * GOLDEN) = u64 (s + j * GOLDEN) -> i = j.
Proof.
  intros Hi Hj H. apply (mul_odd_inj GOLDEN); [reflexivity|done|done|].
  unfold u64 in *. replace (i * GOLDEN) with (s + i * GOLDEN - s) by lia. replace (j * GOLDEN) with (s + j * GOLDEN - s) by lia.
  by rewrite Zminus_mod, H, <- Zminus_mod.
Qed.

(** Trace identifiers made one after the other are all different, until the
    state comes back to 0, where it is seeded again: the state takes each value
    once and the finaliser is a bijection. *)
Theorem trace_ids_distinct seed n s :
  0 <= s < 2 ^ 64 -> Z.of_nat n < 2 ^ 64 -> (forall j, (j < n)%nat -> u64 (s + Z.of_nat j * GOLDEN) <> 0) ->
  NoDup (trace_ids seed n s).
Proof.
  intros Hs Hn Hz. apply NoDup_alt. intros i j id Hi Hj.
  assert (Hl : length (trace_ids seed n s) = n).
  { clear. revert s. induction n as [|n IH]; intros s; [done|]. cbn [trace_ids]. destruct (airy_trace_id_generate seed s). cbn. by rewrite IH. }
  pose proof (lookup_lt_Some _ _ _ Hi). pose proof (lookup_lt_Some _ _ _ Hj).
  rewrite trace_ids_values in Hi by (done || lia). rewrite trace_ids_values in Hj by (done || lia).
  rewrite <- Hi in Hj. injection Hj as Heq. apply mix64_inj in Heq; [|apply u64_range..]. apply step_inj in Heq; lia.
Qed.

Lemma trace_ids_distinct_witness : NoDup (trace_ids 0 3 5) /\ length (trace_ids 0 3 5) = 3%nat.
Proof.
  split; [|reflexivity]. apply (trace_ids_distinct 0 3 5); [lia|lia|].
  intros j Hj. destruct j as [|[|[|j]]]; [done..|lia].
Defined.

(** Two threads that read the state before either writes it return the same
    identifier. *)
Theorem racing_ids_equal seed s :
  s <> 0 -> let '(a1, s1) := entropy_step seed Begin s in let '(a2, s2) := entropy_step seed a1 s1 in
  let '(b1, s3) := entropy_step seed Begin s2 in let '(b2, s4) := entropy_step seed b1 s3 in
  let '(a3, s5) := entropy_step seed a2 s4 in let '(b3, s6) := entropy_step seed b2 s5 in a3 = b3 /\ s5 = s6.
Proof. intros Hs. unfold entropy_step. replace (s =? 0) with false by lia. cbn. replace (s =? 0) with false by lia. done. Qed.

(** ** Message identifiers *)

Lemma lor_halves a b : 0 <= b < 2 ^ 32 -> Z.lor (Z.shiftl a 32) b = a * 2 ^ 32 + b.
Proof. intros Hb. apply lor_shiftl_add; lia. Qed.

(** Calls of [airy_msg_id_generate] at the given times. *)
Fixpoint msg_ids (times : list Z) (g_msg_seq : Z) : list airy_msg_id_t :=
  match times with
  | [] => []
  | now :: times' => let '(id, g) := airy_msg_id_generate now g_msg_seq in id :: msg_ids times' g
  end.

Lemma msg_ids_values times g i t :
  times !! i = Some t -> msg_ids times g !! i = Some (MsgId (u32 t * 2 ^ 32 + u32 (g + Z.of_nat i))).
Proof.
  revert g i. induction times as [|now times IH]; intros g i Ht; [done|]. cbn [msg_ids airy_msg_id_generate].
  pose proof (u32_range now). destruct i as [|i]; cbn [lookup list_lookup] in *.
  - injection Ht as <-. rewrite lor_halves by (try apply u32_range; lia). do 3 f_equal. f_equal. lia.
  - rewrite (IH _ _ Ht). do 3 f_equal. unfold u32, u64. rewrite (Znumtheory.Zmod_div_mod (2 ^ 32) (2 ^ 64)); [|lia|lia|by exists (2 ^ 32)].
    rewrite Zplus_mod_idemp_l. rewrite <- (Znumtheory.Zmod_div_mod (2 ^ 32) (2 ^ 64)); [|lia|lia|by exists (2 ^ 32)]. f_equal. lia.
Qed.

(** Up to 2^32 message identifiers of a process are all different, whatever
    the clock does, and those of different seconds are ordered as the seconds. *)
Theorem msg_ids_distinct times g :
  Z.of_nat (length times) <= 2 ^ 32 ->
  NoDup (msg_ids times g)
  /\ forall i j a b t u, times !! i = Some t -> times !! j = Some u -> 0 <= t < u -> u < 2 ^ 32 ->
       msg_ids times g !! i = Some a -> msg_ids times g !! j = Some b -> msg_value a < msg_value b.
Proof.
  intros Hn. assert (Hl : forall i a, msg_ids times g !! i = Some a -> exists t, times !! i = Some t /\ a = MsgId (u32 t * 2 ^ 32 + u32 (g + Z.of_nat i))).
  { intros i a Ha. destruct (times !! i) as [t|] eqn:Ht; [exists t; rewrite (msg_ids_values _ _ _ _ Ht) in Ha; by simplify_eq|].
    exfalso. apply lookup_ge_None in Ht. apply lookup_lt_Some in Ha.
    assert (length (msg_ids times g) = length times); [|lia]. clear. revert g. induction times as [|x l IH]; intros g; [done|]. cbn. by rewrite IH. }
  split.
  - apply NoDup_alt. intros i j a Hi Hj. apply Hl in Hi as (t & Ht & ->). apply Hl in Hj as (u & Hu & Heq). injection Heq as Heq.
    pose proof (u32_range (g + Z.of_nat i)). pose proof (u32_range (g + Z.of_nat j)).
    assert (E : u32 (g + Z.of_nat i) = u32 (g + Z.of_nat j)) by lia. apply lookup_lt_Some in Ht, Hu. unfold u32 in E.
    assert (Hd : (2 ^ 32 | Z.of_nat i - Z.of_nat j)).
    { apply Z.mod_divide; [lia|]. replace (Z.of_nat i - Z.of_nat j) with (g + Z.of_nat i - (g + Z.of_nat j)) by lia.
      by rewrite Zminus_mod, E, Z.sub_diag, Z.mod_0_l. }
    destruct Hd as [q Hq]. assert (q = 0) by nia. lia.
  - intros i j a b t u Ht Hu Htu Hmax Ha Hb. apply Hl in Ha as (t' & Ht' & ->). apply Hl in Hb as (u' & Hu' & ->).
    simplify_eq. cbn [msg_value]. rewrite (u32_small t), (u32_small u) by lia.
    pose proof (u32_range (g + Z.of_nat i)). pose proof (u32_range (g + Z.of_nat j)). lia.
Qed.

Lemma msg_ids_distinct_witness : NoDup (msg_ids [7; 7; 6] (2 ^ 32 - 1)).
Proof. refine (proj1 (msg_ids_distinct [7; 7; 6] (2 ^ 32 - 1) _)). cbn. lia. Defined.

(** ** Texts of identifiers *)

Lemma hexw_length n v : length (hexw n v) = n.
Proof. revert v. induction n as [|n IH]; intros v; [done|]. cbn [hexw]. rewrite length_app, IH. cbn. lia. Qed.

Lemma hex_val_digit d : 0 <= d < 16 -> airy_id_hex_val (hex_digit d) = d.
Proof. intros Hd. unfold airy_id_hex_val, hex_digit. bool_prop; cbn [andb]; lia. Qed.

Lemma parse_app s t v : parse_hex_loop (s ++ t) v = parse_hex_loop s v ≫= parse_hex_loop t.
Proof. revert v. induction s as [|c s IH]; intros v; [done|]. cbn [app parse_hex_loop]. destruct (_ <? 0); [done|]. apply IH. Qed.

Lemma shift_digit v d : 0 <= v -> v * 16 < 2 ^ 64 -> 0 <= d < 16 -> Z.lor (u64 (Z.shiftl v 4)) d = v * 16 + d.
Proof.
  intros Hv Hlt Hd. rewrite u64_small by (rewrite Z.shiftl_mul_pow2; lia). apply (lor_shiftl_add v d 4); lia.
Qed.

Lemma parse_hexw n v : (n <= 16)%nat -> 0 <= v < 16 ^ Z.of_nat n -> parse_hex_loop (hexw n v) 0 = Some v.
Proof.
  revert v. induction n as [|n IH]; intros v Hn Hv; [cbn in *; f_equal; lia|]. cbn [hexw].
  rewrite Nat2Z.inj_succ, Z.pow_succ_r in Hv by lia. pose proof (Z.div_mod v 16). pose proof (Z.mod_pos_bound v 16).
  assert (0 <= v / 16 < 16 ^ Z.of_nat n) by (split; [apply Z.div_pos; lia|apply Z.div_lt_upper_bound; lia]).
  rewrite parse_app, IH by lia. cbn [mbind option_bind parse_hex_loop]. rewrite hex_val_digit by lia.
  replace (_ <? 0) with false by lia. f_equal.
  assert (16 ^ Z.of_nat n <= 16 ^ 15) by (apply Z.pow_le_mono_r; lia). rewrite shift_digit by lia. lia.
Qed.

(** The other way, up to the case of the digits. *)
Lemma parse_hex_inv s v :
  (length s <= 16)%nat -> parse_hex_loop s 0 = Some v ->
  0 <= v < 16 ^ Z.of_nat (length s) /\ hexw (length s) v = map tolower s.
Proof.
  revert v. induction s as [|c s IH] using rev_ind; intros v Hl H; [cbn in *; simplify_eq; cbn; split; [lia|done]|].
  rewrite length_app in *. cbn [length] in *. rewrite parse_app in H.
  destruct (parse_hex_loop s 0) as [v'|] eqn:E; [|done]. cbn [mbind option_bind parse_hex_loop] in H.
  destruct (IH v' ltac:(lia) eq_refl) as [Hv' Hx]. destruct (Z.ltb_spec (airy_id_hex_val c) 0) as [|Hd]; [done|].
  injection H as <-. assert (Hd16 : airy_id_hex_val c < 16 /\ hex_digit (airy_id_hex_val c) = tolower c).
  { revert Hd. unfold airy_id_hex_val, hex_digit, tolower. repeat case_match; lia. }
  assert (16 ^ Z.of_nat (length s) <= 16 ^ 15) by (apply Z.pow_le_mono_r; lia).
  rewrite shift_digit by lia. rewrite Nat.add_1_r, Nat2Z.inj_succ, Z.pow_succ_r by lia. split; [lia|].
  cbn [hexw]. rewrite map_app. cbn [map]. destruct Hd16 as [Hd16 <-].
  rewrite (Z.div_add_l v' 16), Z.div_small, Z.add_0_r by lia. rewrite Hx. f_equal.
  rewrite Z.add_comm, Z.mod_add, Z.mod_small by lia. done.
Qed.

Definition AIRY_TRACE_ID_STR_MAX : nat := 24.
Definition AIRY_MSG_ID_STR_MAX : nat := 24.

Lemma snprintf_fits old text : (length text < 24)%nat -> snprintf_into 24 old text = text.
Proof. intros H. cbn [snprintf_into]. apply take_ge. lia. Qed.

Lemma hexw_no_dash n v : 0 <= v -> find_char 45 (hexw n v) = None.
Proof.
  intros Hv. assert (H : Forall (fun c => c <> 45) (hexw n v)).
  { revert v Hv. induction n as [|n IH]; intros v Hv; [constructor|]. cbn [hexw]. apply Forall_app. split.
    - apply IH, Z.div_pos; lia.
    - constructor; [|constructor]. pose proof (Z.mod_pos_bound v 16). unfold hex_digit. case_match; lia. }
  induction H as [|c s Hc _ IH]; [done|]. cbn [find_char]. destruct (Z.eqb_spec c 45); [done|]. by rewrite IH.
Qed.

Lemma find_char_app c s t : find_char c s = None -> find_char c (s ++ c :: t) = Some (length s).
Proof.
  induction s as [|b s IH]; cbn [app find_char length]; [by rewrite Z.eqb_refl|].
  destruct (b =? c); [done|]. destruct (find_char c s); [done|]. intros _. by rewrite IH.
Qed.

Lemma trace_text_read v :
  0 <= v < 2 ^ 64 ->
  airy_trace_id_from_string (Some (airy_trace_id_to_string (TraceId v) [] AIRY_TRACE_ID_STR_MAX)) = TraceId v.
Proof.
  intros Hv. unfold airy_trace_id_to_string. cbn [trace_value]. rewrite snprintf_fits by (rewrite length_app, hexw_length; cbn; lia).
  unfold airy_trace_id_from_string.
  change (take 3 (cs "tr-" ++ hexw 16 v)) with (cs "tr-"). change (drop 3 (cs "tr-" ++ hexw 16 v)) with (hexw 16 v).
  rewrite bool_decide_eq_true_2, hexw_length by done. cbn [negb Nat.eqb]. unfold airy_id_parse_hex.
  rewrite take_ge by (by rewrite hexw_length). rewrite parse_hexw; [done|lia|]. change (16 ^ Z.of_nat 16) with (2 ^ 64). done.
Qed.

Lemma halves v : 0 <= v < 2 ^ 64 ->
  u32 (Z.shiftr v 32) = v / 2 ^ 32 /\ u32 (Z.land v 0xFFFFFFFF) = v mod 2 ^ 32 /\ 0 <= v / 2 ^ 32 < 2 ^ 32 /\ 0 <= v mod 2 ^ 32 < 2 ^ 32.
Proof.
  intros Hv. assert (0 <= v / 2 ^ 32 < 2 ^ 32) by (split; [apply Z.div_pos; lia|apply Z.div_lt_upper_bound; lia]).
  assert (0 <= v mod 2 ^ 32 < 2 ^ 32) by (apply Z.mod_pos_bound; lia). split_and!; try done; try lia.
  - rewrite Z.shiftr_div_pow2 by lia. by apply u32_small.
  - change 0xFFFFFFFF with (Z.ones 32). rewrite Z.land_ones by lia. by apply u32_small.
Qed.

Lemma msg_text_read v :
  0 <= v < 2 ^ 64 -> airy_msg_id_from_string (Some (airy_msg_id_to_string (MsgId v) [] AIRY_MSG_ID_STR_MAX)) = MsgId v.
Proof.
  intros Hv. unfold airy_msg_id_to_string. cbn [msg_value]. destruct (halves v Hv) as (-> & -> & Hts & Hsq).
  pose proof (Z.div_mod v (2 ^ 32) ltac:(lia)) as Hdm. set (ts := v / 2 ^ 32) in *. set (sq := v mod 2 ^ 32) in *.
  rewrite snprintf_fits by (rewrite !length_app, !hexw_length; cbn; lia).
  unfold airy_msg_id_from_string. set (p := hexw 8 ts ++ cs "-" ++ hexw 8 sq).
  change (take 4 (cs "msg-" ++ p)) with (cs "msg-"). change (drop 4 (cs "msg-" ++ p)) with p.
  rewrite bool_decide_eq_true_2 by done. cbn [negb].
  unfold p. change (cs "-" ++ ?x) with (45 :: x). rewrite find_char_app by (apply hexw_no_dash; lia). rewrite hexw_length.
  replace (drop 9 (hexw 8 ts ++ 45 :: hexw 8 sq)) with (hexw 8 sq).
  2: { change (hexw 8 ts ++ 45 :: hexw 8 sq) with (hexw 8 ts ++ [45] ++ hexw 8 sq). rewrite app_assoc. symmetry.
       apply drop_app_length'. by rewrite length_app, hexw_length. }
  rewrite hexw_length. cbn [negb Nat.eqb orb]. unfold airy_id_parse_hex.
  rewrite take_app_length' by (by rewrite hexw_length). rewrite (take_ge (hexw 8 sq)) by (by rewrite hexw_length).
  rewrite !parse_hexw by (lia || (change (16 ^ Z.of_nat 8) with (2 ^ 32); lia)).
  rewrite u64_small by (rewrite Z.shiftl_mul_pow2; lia). rewrite lor_halves by lia. f_equal. lia.
Qed.

(** A trace or message identifier is read back from its text, and a text
    that is read as an identifier other than 0 is, up to the case of its digits,
    the text of that identifier. *)
Theorem id_text_roundtrip v s :
  0 <= v < 2 ^ 64 ->
  airy_trace_id_from_string (Some (airy_trace_id_to_string (TraceId v) [] AIRY_TRACE_ID_STR_MAX)) = TraceId v
  /\ airy_msg_id_from_string (Some (airy_msg_id_to_string (MsgId v) [] AIRY_MSG_ID_STR_MAX)) = MsgId v
  /\ (v <> 0 -> airy_trace_id_from_string (Some s) = TraceId v ->
      map tolower s = airy_trace_id_to_string (TraceId v) [] AIRY_TRACE_ID_STR_MAX).
Proof.
  intros Hv. split; [by apply trace_text_read|]. split; [by apply msg_text_read|]. intros Hne. unfold airy_trace_id_from_string.
  destruct (bool_decide_reflect (take 3 s = cs "tr-")) as [E|]; [|intros [= <-]; done].
  destruct (Nat.eqb_spec (length (drop 3 s)) 16) as [El|]; [|intros [= <-]; done]. cbn [negb].
  unfold airy_id_parse_hex. rewrite take_ge by lia.
  destruct (parse_hex_loop (drop 3 s) 0) as [v'|] eqn:Ep; [|intros [= <-]; done]. intros [= ->].
  apply parse_hex_inv in Ep as [_ Ep]; [|lia]. rewrite El in Ep. unfold airy_trace_id_to_string. cbn [trace_value].
  rewrite snprintf_fits by (rewrite length_app, hexw_length; cbn; lia). by rewrite <- (take_drop 3 s), E, map_app, Ep.
Qed.

Lemma id_text_roundtrip_witness :
  airy_trace_id_to_string (TraceId 0xAB) [] AIRY_TRACE_ID_STR_MAX = cs "tr-00000000000000ab"
  /\ map tolower (cs "tr-00000000000000AB") = cs "tr-00000000000000ab".
Proof.
  split; [reflexivity|].
  destruct (id_text_roundtrip 0xAB (cs "tr-00000000000000AB")) as (_ & _ & H); [lia|]. apply H; [lia|vm_compute; reflexivity].
Defined.

(** ** Roles *)

Lemma find_role_in l r c : find_role r l = Some c -> c ∈ l.
Proof. induction l as [|x l IH]; [done|]. cbn [find_role]. destruct (vocab_streq _ _); [intros [= ->]|]; set_solver. Qed.

Lemma find_alias_in l r c : find_alias r l = Some c -> c ∈ l.*2.
Proof. induction l as [|[x y] l IH]; [done|]. cbn [find_alias]. destruct (vocab_streq _ _); [intros [= ->]|]; set_solver. Qed.

Lemma canonical_role role : agent_vocab_canonical role ∈ VOCAB_ROLES.
Proof.
  assert (Hfall : AGENT_VOCAB_FALLBACK ∈ VOCAB_ROLES) by (by apply (bool_decide_unpack (AGENT_VOCAB_FALLBACK ∈ VOCAB_ROLES))).
  unfold agent_vocab_canonical, agent_vocab_resolve. destruct role as [[|b r]|]; try done.
  destruct (find_role (b :: r) VOCAB_ROLES) as [c|] eqn:E; [by apply find_role_in in E|].
  destruct (find_alias (b :: r) VOCAB_ALIASES) as [c|] eqn:Ea; [|done]. apply find_alias_in in Ea.
  assert (Hall : Forall (fun x => x ∈ VOCAB_ROLES) VOCAB_ALIASES.*2) by (by apply (bool_decide_unpack (Forall (fun x => x ∈ VOCAB_ROLES) VOCAB_ALIASES.*2))).
  rewrite Forall_forall in Hall. by apply Hall.
Qed.

(** Every role has a canonical form in the table of roles, which is its own
    canonical form; aliases are not roles and stand for roles; the read-only
    roles are roles; and a role is read-only exactly when its canonical form is
    one of them. *)
Theorem vocab_canonical role :
  agent_vocab_canonical role ∈ VOCAB_ROLES
  /\ agent_vocab_canonical (Some (agent_vocab_canonical role)) = agent_vocab_canonical role
  /\ (forall i a r, agent_vocab_alias_at i = Some (a, r) -> a ∉ VOCAB_ROLES /\ agent_vocab_canonical (Some a) = r)
  /\ (forall i r, agent_vocab_readonly_at i = Some r -> agent_vocab_canonical (Some r) = r)
  /\ (agent_vocab_is_readonly role = true <-> agent_vocab_canonical role ∈ VOCAB_READONLY).
Proof.
  split; [apply canonical_role|]. split_and!.
  - assert (H : Forall (fun r => agent_vocab_canonical (Some r) = r) VOCAB_ROLES)
      by (by apply (bool_decide_unpack (Forall (fun r => agent_vocab_canonical (Some r) = r) VOCAB_ROLES))).
    rewrite Forall_forall in H. apply H, canonical_role.
  - intros i a r Hi. apply list_elem_of_lookup_2 in Hi.
    assert (H : Forall (fun p => p.1 ∉ VOCAB_ROLES /\ agent_vocab_canonical (Some p.1) = p.2) VOCAB_ALIASES)
      by (by apply (bool_decide_unpack (Forall (fun p => p.1 ∉ VOCAB_ROLES /\ agent_vocab_canonical (Some p.1) = p.2) VOCAB_ALIASES))).
    rewrite Forall_forall in H. exact (H _ Hi).
  - intros i r Hi. apply list_elem_of_lookup_2 in Hi.
    assert (H : Forall (fun r => agent_vocab_canonical (Some r) = r) VOCAB_READONLY)
      by (by apply (bool_decide_unpack (Forall (fun r => agent_vocab_canonical (Some r) = r) VOCAB_READONLY))).
    rewrite Forall_forall in H. exact (H _ Hi).
  - unfold agent_vocab_is_readonly. rewrite existsb_exists. cbn [vocab_streq]. split.
    + intros (r & Hr & ->%bool_decide_eq_true). by apply list_elem_of_In.
    + intros Hr%list_elem_of_In. eexists. split; [exact Hr|]. by apply bool_decide_eq_true.
Qed.
