(* ===== verification/Alerts.v ===== *)
(** * Alerts: utils/observability/alert_manager.c

    Rules on metrics, active alerts with their notifications, and the histories
    that trends are computed from.  An array with its count is the list of the
    entries before the count.  Each operation takes the mutex, which is
    recursive, and is one step; what it sends to callbacks and channels is the
    list of notices it returns ([clk k] is the clock's answer number [k],
    [fopens] tells which files can be opened). *)
From S2P Require Import Prelude CLib Decimal Keyed.

Definition AM_MAX_RULES : nat := 64.
Definition AM_MAX_NAME_LEN : nat := 64.
Definition AM_MAX_MESSAGE_LEN : nat := 512.
Definition AM_MAX_CHANNELS : nat := 8.
Definition AM_MAX_ACTIVE_ALERTS : nat := 256.
Definition AM_MAX_CALLBACKS : nat := 8.
Definition METRIC_NAME_LEN : nat := 128.
Definition HISTORY : nat := 8.

(** ** Data *)

Definition AM_LEVEL_INFO : Z := 0.
Definition AM_LEVEL_WARNING : Z := 1.
Definition AM_LEVEL_CRITICAL : Z := 2.
Definition AM_LEVEL_EMERGENCY : Z := 3.

Inductive am_state_t := PENDING | FIRING | RESOLVED | SUPPRESSED | ACKNOWLEDGED.
Inductive am_rule_type_t := RULE_THRESHOLD | RULE_TREND | RULE_COMPOSITE | RULE_ANOMALY.
Inductive am_comparison_t := OP_GT | OP_GTE | OP_LT | OP_LTE | OP_EQ | OP_NEQ.
Inductive am_channel_type_t := CHANNEL_LOG | CHANNEL_CALLBACK | CHANNEL_WEBHOOK | CHANNEL_FILE.

Record am_alert_t := Alert {
  a_name : cstr;
  a_level : Z;
  a_state : am_state_t;
  message : cstr;
  source : cstr;
  labels : cstr;
  fired_at : Z;
  resolved_at : Z;
  last_notified : Z;
  notification_count : Z;
  trigger_count : Z;
  acknowledged : bool;
}.

Record am_rule_t := Rule {
  r_name : cstr;
  r_type : am_rule_type_t;
  r_level : Z;
  metric_name : cstr;
  comparison : am_comparison_t;
  threshold : spec_float;
  duration_seconds : Z;
  cooldown_seconds : Z;
  composite_expr : cstr;
  r_enabled : bool;
  last_triggered : Z;
}.

Record am_channel_t := Channel {
  c_type : am_channel_type_t;
  c_name : cstr;
  c_config : cstr;
  c_min_level : Z;
  c_enabled : bool;
}.

Record am_callback_entry_t := Callback { callback : Z; user_data : Z; cb_min_level : Z }.

Record am_config_t := AmConfig {
  evaluation_interval_ms : Z;
  default_cooldown_ms : Z;
  max_notifications_per_alert : Z;
  escalation_timeout_ms : Z;
  enable_deduplication : bool;
  enable_suppression : bool;
}.

(** [latest_metrics[i]] and [metric_history[i]], which are named alike. *)
Record metric_t := Metric {
  m_name : cstr;
  latest : spec_float;
  values : list spec_float;
  h_count : nat;
  h_head : nat;
}.

Record am := Am {
  config : am_config_t;
  rules : list am_rule_t;
  active_alerts : list am_alert_t;
  channels : list am_channel_t;
  callbacks : list am_callback_entry_t;
  initialized : bool;
  metrics : list metric_t;
}.

Definition set_rules (l : list am_rule_t) (g : am) : am :=
  Am (config g) l (active_alerts g) (channels g) (callbacks g) (initialized g) (metrics g).
Definition set_alerts (l : list am_alert_t) (g : am) : am :=
  Am (config g) (rules g) l (channels g) (callbacks g) (initialized g) (metrics g).
Definition set_channels (l : list am_channel_t) (g : am) : am :=
  Am (config g) (rules g) (active_alerts g) l (callbacks g) (initialized g) (metrics g).
Definition set_callbacks (l : list am_callback_entry_t) (g : am) : am :=
  Am (config g) (rules g) (active_alerts g) (channels g) l (initialized g) (metrics g).
Definition set_metrics (l : list metric_t) (g : am) : am :=
  Am (config g) (rules g) (active_alerts g) (channels g) (callbacks g) (initialized g) l.

(** What [safe_strcpy] leaves in an array of [size] bytes. *)
Definition fit (size : nat) (s : cstr) : cstr := take (size - 1) s.

(** ** Names *)

Definition am_level_to_string (level : Z) : cstr :=
  if (level <? 0) || (3 <? level) then cs "UNKNOWN"
  else if level =? 0 then cs "INFO" else if level =? 1 then cs "WARNING"
  else if level =? 2 then cs "CRITICAL" else cs "EMERGENCY".

(** A state outside the enumeration is [None]. *)
Definition am_state_to_string (s : option am_state_t) : cstr :=
  match s with
  | Some PENDING => cs "PENDING" | Some FIRING => cs "FIRING" | Some RESOLVED => cs "RESOLVED"
  | Some SUPPRESSED => cs "SUPPRESSED" | Some ACKNOWLEDGED => cs "ACKNOWLEDGED" | None => cs "UNKNOWN"
  end.

(** [%.2f]: the exact value times 100, rounded to nearest even. *)
Definition fmt_f2 (x : spec_float) : cstr :=
  match x with
  | S754_zero s => (if s then cs "-" else []) ++ cs "0.00"
  | S754_infinity s => (if s then cs "-" else []) ++ cs "inf"
  | S754_nan => cs "nan"
  | S754_finite s m e =>
      let c := if 0 <=? e then Zpos m * 100 * 2 ^ e else round_half_even (Zpos m * 100) (2 ^ (- e)) in
      (if s then cs "-" else []) ++ fmt_u (c / 100) ++ cs "." ++ pad 2 (c mod 100)
  end.

(** ** Notifications *)

Inductive notice :=
  | Call (callback user_data : Z) (alert : am_alert_t)
  | Logged (alert : am_alert_t)
  | Appended (path line : cstr).

Definition alert_line (a : am_alert_t) : cstr :=
  snprintf_into 1024 [] (cs "[" ++ fmt_u (fired_at a) ++ cs "][" ++ am_level_to_string (a_level a) ++ cs "] " ++ a_name a
    ++ cs ": " ++ message a ++ cs " (source=" ++ source a ++ cs ")" ++ [10]).

Definition channel_notice (fopens : cstr -> bool) (a : am_alert_t) (ch : am_channel_t) : list notice :=
  if negb (c_enabled ch) || (a_level a <? c_min_level ch) then []
  else match c_type ch with
       | CHANNEL_LOG => [Logged a]
       | CHANNEL_FILE => if fopens (c_config ch) then [Appended (c_config ch) (alert_line a)] else []
       | _ => []
       end.

Definition callback_notice (a : am_alert_t) (cb : am_callback_entry_t) : list notice :=
  if cb_min_level cb <=? a_level a then [Call (callback cb) (user_data cb) a] else [].

Definition dispatch_notifications (fopens : cstr -> bool) (g : am) (a : am_alert_t) : list notice :=
  concat (map (callback_notice a) (callbacks g)) ++ concat (map (channel_notice fopens a) (channels g)).

(** ** Life cycle *)

Definition am_create_default_config : am_config_t := AmConfig 10000 60000 10 300000 true true.

Definition am_register_channel (ch : option am_channel_t) (g : am) : Z * am :=
  match ch with
  | None => (AIRY_ERR_INVALID_PARAM, g)
  | Some ch => if (AM_MAX_CHANNELS <=? length (channels g))%nat then (AIRY_ERR_OVERFLOW, g)
               else (0, set_channels (channels g ++ [ch]) g)
  end.

Definition am_register_callback (cb : option Z) (ud level : Z) (g : am) : Z * am :=
  match cb with
  | None => (AIRY_ERR_INVALID_PARAM, g)
  | Some cb => if (AM_MAX_CALLBACKS <=? length (callbacks g))%nat then (AIRY_ERR_OVERFLOW, g)
               else (0, set_callbacks (callbacks g ++ [Callback cb ud level]) g)
  end.

Definition log_channel : am_channel_t := Channel CHANNEL_LOG (cs "default_log") [] AM_LEVEL_WARNING true.

Definition am_init (cfg : option am_config_t) (mtx_ok : bool) (g : am) : Z * am :=
  if initialized g then (0, g)
  else
    let c := default am_create_default_config cfg in
    if negb mtx_ok then
      (AIRY_ERR_UNKNOWN, Am c (rules g) (active_alerts g) (channels g) (callbacks g) (initialized g) (metrics g))
    else (0, (am_register_channel (Some log_channel) (Am c [] [] [] [] true (metrics g))).2).

Definition am_shutdown (g : am) : am :=
  if negb (initialized g) then g
  else Am (config g) (rules g) (active_alerts g) (channels g) (callbacks g) false (metrics g).

(** The initialisation that several operations start with. *)
Definition ensure_init (mtx_ok : bool) (g : am) : am := if initialized g then g else (am_init None mtx_ok g).2.

(** ** Rules *)

Definition find_rule (name : cstr) (g : am) : option nat := index_of (fun r => bool_decide (r_name r = name)) (rules g).
Definition find_active_alert (name : cstr) (g : am) : option nat :=
  index_of (fun a => bool_decide (a_name a = name)) (active_alerts g).

Definition am_add_rule (rule : option am_rule_t) (mtx_ok : bool) (g : am) : Z * am :=
  match rule with
  | None => (AIRY_ERR_INVALID_PARAM, g)
  | Some r =>
      let g := ensure_init mtx_ok g in
      match find_rule (r_name r) g with
      | Some i => (0, set_rules (<[i := r]> (rules g)) g)
      | None => if (AM_MAX_RULES <=? length (rules g))%nat then (AIRY_ERR_OVERFLOW, g)
                else (0, set_rules (rules g ++ [r]) g)
      end
  end.

Definition am_remove_rule (name : option cstr) (g : am) : Z * am :=
  match name with
  | None => (AIRY_ERR_INVALID_PARAM, g)
  | Some n => match find_rule n g with
              | Some i => (0, set_rules (swap_remove i (rules g)) g)
              | None => (AIRY_ERR_NOT_FOUND, g)
              end
  end.

Definition enable_rule (b : bool) (r : am_rule_t) : am_rule_t :=
  Rule (r_name r) (r_type r) (r_level r) (metric_name r) (comparison r) (threshold r) (duration_seconds r)
    (cooldown_seconds r) (composite_expr r) b (last_triggered r).

Definition am_set_rule_enabled (name : option cstr) (b : bool) (g : am) : Z * am :=
  match name with
  | None => (AIRY_ERR_INVALID_PARAM, g)
  | Some n => match find_rule n g with
              | Some i => (0, set_rules (alter (enable_rule b) i (rules g)) g)
              | None => (AIRY_ERR_NOT_FOUND, g)
              end
  end.

(** ** Alerts *)

(** An alert that fires again: with deduplication, and without. *)
Definition retrigger (now : Z) (notified : bool) (a : am_alert_t) : am_alert_t :=
  Alert (a_name a) (a_level a) (a_state a) (message a) (source a) (labels a) (fired_at a) (resolved_at a) now
    (if notified then u32 (notification_count a + 1) else notification_count a) (u32 (trigger_count a + 1)) (acknowledged a).

Definition refire (level : Z) (msg : option cstr) (a : am_alert_t) : am_alert_t :=
  Alert (a_name a) level (a_state a) (match msg with Some m => fit AM_MAX_MESSAGE_LEN m | None => message a end)
    (source a) (labels a) (fired_at a) (resolved_at a) (last_notified a) (notification_count a) (trigger_count a) (acknowledged a).

(** The alert as the notified callbacks see it: the count grows afterwards. *)
Definition before_count (a : am_alert_t) (now : Z) : am_alert_t := retrigger now false a.

Definition new_alert (name : cstr) (level : Z) (msg src lbl : option cstr) (now : Z) : am_alert_t :=
  Alert (fit AM_MAX_NAME_LEN name) level FIRING (fit AM_MAX_MESSAGE_LEN (default [] msg)) (fit 64 (default [] src))
    (fit 256 (default [] lbl)) now 0 0 1 1 false.

Definition am_fire (clk : nat -> Z) (fopens : cstr -> bool) (mtx_ok : bool) (name : option cstr) (level : Z)
    (msg src lbl : option cstr) (g : am) : Z * am * list notice :=
  match name with
  | None => (AIRY_ERR_INVALID_PARAM, g, [])
  | Some n =>
      let g := ensure_init mtx_ok g in
      match find_active_alert n g with
      | Some i =>
          match active_alerts g !! i with
          | Some a =>
              if enable_deduplication (config g) then
                let notify := notification_count a <? max_notifications_per_alert (config g) in
                (0, set_alerts (<[i := retrigger (clk 0%nat) notify a]> (active_alerts g)) g,
                 if notify then dispatch_notifications fopens g (before_count a (clk 0%nat)) else [])
              else
                let a := refire level msg a in
                (0, set_alerts (<[i := retrigger (clk 0%nat) true a]> (active_alerts g)) g,
                 dispatch_notifications fopens g (before_count a (clk 0%nat)))
          | None => (0, g, [])
          end
      | None =>
          if (AM_MAX_ACTIVE_ALERTS <=? length (active_alerts g))%nat then (AIRY_ERR_OVERFLOW, g, [])
          else
            let a := new_alert n level msg src lbl (clk 0%nat) in
            (0, set_alerts (active_alerts g ++ [a]) g, dispatch_notifications fopens g a)
      end
  end.

Definition am_resolve (name : option cstr) (g : am) : Z * am :=
  match name with
  | None => (AIRY_ERR_INVALID_PARAM, g)
  | Some n => match find_active_alert n g with
              | Some i => (0, set_alerts (swap_remove i (active_alerts g)) g)
              | None => (AIRY_ERR_NOT_FOUND, g)
              end
  end.

Definition acknowledge (a : am_alert_t) : am_alert_t :=
  Alert (a_name a) (a_level a) ACKNOWLEDGED (message a) (source a) (labels a) (fired_at a) (resolved_at a)
    (last_notified a) (notification_count a) (trigger_count a) true.

Definition am_acknowledge (name : option cstr) (g : am) : Z * am :=
  match name with
  | None => (AIRY_ERR_INVALID_PARAM, g)
  | Some n => match find_active_alert n g with
              | Some i => (0, set_alerts (alter acknowledge i (active_alerts g)) g)
              | None => (AIRY_ERR_NOT_FOUND, g)
              end
  end.

(** ** Metrics *)

Definition new_metric (name : cstr) (v : spec_float) : metric_t :=
  Metric (fit METRIC_NAME_LEN name) v (v :: replicate (HISTORY - 1) (S754_zero false)) 1 0.

Definition push_value (v : spec_float) (m : metric_t) : metric_t :=
  let tail := ((h_head m + h_count m) mod HISTORY)%nat in
  let vs := <[tail := v]> (values m) in
  if (h_count m <? HISTORY)%nat then Metric (m_name m) v vs (S (h_count m)) (h_head m)
  else Metric (m_name m) v vs (h_count m) ((h_head m + 1) mod HISTORY).

Definition find_metric (name : cstr) (g : am) : option nat := index_of (fun m => bool_decide (m_name m = name)) (metrics g).

Definition am_record_metric (name : option cstr) (v : spec_float) (g : am) : Z * am :=
  match name with
  | None => (AIRY_ERR_INVALID_PARAM, g)
  | Some n =>
      match find_metric n g with
      | Some i => (0, set_metrics (alter (push_value v) i (metrics g)) g)
      | None => if (length (metrics g) <? AM_MAX_RULES)%nat then (0, set_metrics (metrics g ++ [new_metric n v]) g) else (0, g)
      end
  end.

Definition am_get_latest_metric_value (name : cstr) (g : am) : spec_float :=
  match find_metric name g ≫= (metrics g !!.) with Some m => latest m | None => S754_zero false end.

(** ** Evaluation *)

Definition evaluate_condition (v : spec_float) (op : am_comparison_t) (t : spec_float) : bool :=
  match op with
  | OP_GT => SFltb t v
  | OP_GTE => SFleb t v
  | OP_LT => SFltb v t
  | OP_LTE => SFleb v t
  | OP_EQ => SFeqb v t
  | OP_NEQ => negb (SFeqb v t)
  end.

Definition dadd (x y : spec_float) : spec_float := SFadd 53 1024 x y.
Definition ddiv (x : spec_float) (n : nat) : spec_float := SFdiv 53 1024 x (of_int (Z.of_nat n)).

(** The values at positions [j], [j + 1] and so on of the ring, [n] of them. *)
Fixpoint ring_sum (m : metric_t) (j n : nat) (acc : spec_float) : spec_float :=
  match n with
  | O => acc
  | S n' => ring_sum m (S j) n' (dadd acc (nth ((h_head m + j) mod HISTORY) (values m) (S754_zero false)))
  end.

Definition trend_delta (m : metric_t) : spec_float :=
  let n := h_count m in
  let half := (n / 2)%nat in
  let avg sum k := if (0 <? k)%nat then ddiv sum k else S754_zero false in
  SFsub 53 1024 (avg (ring_sum m half (n - half) (S754_zero false)) (n - half)%nat)
                (avg (ring_sum m 0 half (S754_zero false)) half).

Definition evaluate_trend (name : cstr) (op : am_comparison_t) (t : spec_float) (g : am) : bool :=
  match find_metric name g ≫= (metrics g !!.) with
  | Some m => if (h_count m <? 2)%nat then false else evaluate_condition (trend_delta m) op t
  | None => false
  end.

Definition op_text (op : am_comparison_t) : cstr :=
  match op with
  | OP_GT => cs ">" | OP_GTE => cs ">=" | OP_LT => cs "<" | OP_LTE => cs "<=" | OP_EQ => cs "==" | OP_NEQ => cs "!="
  end.

Definition rule_message (metric : cstr) (v : spec_float) (r : am_rule_t) : cstr :=
  snprintf_into AM_MAX_MESSAGE_LEN [] (cs "Metric " ++ metric ++ cs " value " ++ fmt_f2 v ++ cs " " ++ op_text (comparison r)
    ++ cs " threshold " ++ fmt_f2 (threshold r)).

Definition cooling (now : Z) (r : am_rule_t) : bool :=
  (0 <? last_triggered r) && (u64 (now - last_triggered r) <? cooldown_seconds r * 1000).

Definition condition_met (metric : cstr) (v : spec_float) (r : am_rule_t) (g : am) : bool :=
  match r_type r with
  | RULE_TREND => evaluate_trend metric (comparison r) (threshold r) g
  | _ => evaluate_condition v (comparison r) (threshold r)
  end.

Definition touch_rule (now : Z) (r : am_rule_t) : am_rule_t :=
  Rule (r_name r) (r_type r) (r_level r) (metric_name r) (comparison r) (threshold r) (duration_seconds r)
    (cooldown_seconds r) (composite_expr r) (r_enabled r) now.

(** What a rule whose condition holds does to the alerts. *)
Definition trigger (clk : nat -> Z) (fopens : cstr -> bool) (mtx_ok : bool) (now : Z) (metric : cstr) (v : spec_float)
    (r : am_rule_t) (g : am) : am * list notice :=
  match find_active_alert (r_name r) g with
  | Some i => (set_alerts (alter (retrigger now false) i (active_alerts g)) g, [])
  | None =>
      let '(_, g', ns) := am_fire clk fopens mtx_ok (Some (r_name r)) (r_level r) (Some (rule_message metric v r))
                            (Some (cs "rule_engine")) (Some metric) g in
      (g', ns)
  end.

Fixpoint evaluate_loop (clk : nat -> Z) (fopens : cstr -> bool) (mtx_ok : bool) (now : Z) (metric : cstr) (v : spec_float)
    (fuel i : nat) (g : am) (triggered : Z) : Z * am * list notice :=
  match fuel, rules g !! i with
  | S fuel', Some r =>
      if negb (r_enabled r) || negb (bool_decide (metric_name r = metric)) || cooling now r || negb (condition_met metric v r g)
      then evaluate_loop clk fopens mtx_ok now metric v fuel' (S i) g triggered
      else
        let g := set_rules (<[i := touch_rule now r]> (rules g)) g in
        let '(g1, ns) := trigger clk fopens mtx_ok now metric v r g in
        let '(t, g2, ns') := evaluate_loop clk fopens mtx_ok now metric v fuel' (S i) g1 (triggered + 1) in
        (t, g2, ns ++ ns')
  | _, _ => (triggered, g, [])
  end.

(** [clk 0] is the time of the evaluation, [clk 1] that of an alert it fires. *)
Definition am_evaluate (clk : nat -> Z) (fopens : cstr -> bool) (mtx_ok : bool) (metric : option cstr) (v : spec_float) (g : am)
    : Z * am * list notice :=
  match metric with
  | None => (0, g, [])
  | Some m => evaluate_loop (fun k => clk (S k)) fopens mtx_ok (clk 0%nat) m v AM_MAX_RULES 0 g 0
  end.

Fixpoint evaluate_all_loop (clk : nat -> nat -> Z) (fopens : cstr -> bool) (mtx_ok : bool) (now : Z) (fuel i : nat) (g : am) (total : Z)
    : Z * am * list notice :=
  match fuel, rules g !! i with
  | S fuel', Some r =>
      if negb (r_enabled r) || cooling now r || bool_decide (metric_name r = []) then
        evaluate_all_loop clk fopens mtx_ok now fuel' (S i) g total
      else
        let v := am_get_latest_metric_value (metric_name r) g in
        let '(res, g1, ns) := am_evaluate (clk (S i)) fopens mtx_ok (Some (metric_name r)) v g in
        let '(t, g2, ns') := evaluate_all_loop clk fopens mtx_ok now fuel' (S i) g1 (if 0 <? res then total + res else total) in
        (t, g2, ns ++ ns')
  | _, _ => (total, g, [])
  end.

Definition am_evaluate_all (clk : nat -> nat -> Z) (fopens : cstr -> bool) (mtx_ok : bool) (g : am) : Z * am * list notice :=
  evaluate_all_loop clk fopens mtx_ok (clk 0%nat 0%nat) AM_MAX_RULES 0 g 0.

(** ** Queries *)

Definition am_get_active_alerts (present : bool) (max_count : nat) (g : am) : Z * option (list am_alert_t) :=
  if negb present then (AIRY_ERR_INVALID_PARAM, None) else (0, Some (take max_count (active_alerts g))).

Definition am_get_alerts_by_level (level : Z) (present : bool) (max_count : nat) (g : am) : Z * option (list am_alert_t) :=
  if negb present then (AIRY_ERR_INVALID_PARAM, None)
  else (0, Some (take max_count (List.filter (fun a => a_level a =? level) (active_alerts g)))).

Definition am_active_alert_count (g : am) : Z := Z.of_nat (length (active_alerts g)).

(** ** Rules and alerts as maps *)

Definition rule_map (l : list am_rule_t) : gmap cstr am_rule_t := kmap r_name id l.
Definition alert_map (l : list am_alert_t) : gmap cstr am_alert_t := kmap a_name id l.

Inductive am_op :=
  | AddRule (r : am_rule_t)
  | RemoveRule (n : cstr)
  | SetEnabled (n : cstr) (b : bool)
  | Fire (n : cstr) (level : Z) (msg src lbl : option cstr) (now : Z)
  | Resolve (n : cstr)
  | Acknowledge (n : cstr).

(** The operations of an initialised manager. *)
Definition am_step (fopens : cstr -> bool) (o : am_op) (g : am) : Z * am :=
  match o with
  | AddRule r => am_add_rule (Some r) true g
  | RemoveRule n => am_remove_rule (Some n) g
  | SetEnabled n b => am_set_rule_enabled (Some n) b g
  | Fire n level msg src lbl now =>
      let '(code, g', _) := am_fire (fun _ => now) fopens true (Some n) level msg src lbl g in (code, g')
  | Resolve n => am_resolve (Some n) g
  | Acknowledge n => am_acknowledge (Some n) g
  end.

(** The same on two bounded maps. *)
Record am_spec := AmSpec { s_rules : gmap cstr am_rule_t; s_alerts : gmap cstr am_alert_t }.

Definition fire_again (cfg : am_config_t) (level : Z) (msg : option cstr) (now : Z) (a : am_alert_t) : am_alert_t :=
  if enable_deduplication cfg then retrigger now (notification_count a <? max_notifications_per_alert cfg) a
  else retrigger now true (refire level msg a).

Definition spec_step (cfg : am_config_t) (o : am_op) (s : am_spec) : Z * am_spec :=
  match o with
  | AddRule r =>
      if bool_decide (is_Some (s_rules s !! r_name r)) || (size (s_rules s) <? AM_MAX_RULES)%nat
      then (0, AmSpec (<[r_name r := r]> (s_rules s)) (s_alerts s)) else (AIRY_ERR_OVERFLOW, s)
  | RemoveRule n =>
      match s_rules s !! n with
      | Some _ => (0, AmSpec (delete n (s_rules s)) (s_alerts s))
      | None => (AIRY_ERR_NOT_FOUND, s)
      end
  | SetEnabled n b =>
      match s_rules s !! n with
      | Some r => (0, AmSpec (<[n := enable_rule b r]> (s_rules s)) (s_alerts s))
      | None => (AIRY_ERR_NOT_FOUND, s)
      end
  | Fire n level msg src lbl now =>
      match s_alerts s !! n with
      | Some a => (0, AmSpec (s_rules s) (<[n := fire_again cfg level msg now a]> (s_alerts s)))
      | None => if (size (s_alerts s) <? AM_MAX_ACTIVE_ALERTS)%nat
                then (0, AmSpec (s_rules s) (<[n := new_alert n level msg src lbl now]> (s_alerts s)))
                else (AIRY_ERR_OVERFLOW, s)
      end
  | Resolve n =>
      match s_alerts s !! n with
      | Some _ => (0, AmSpec (s_rules s) (delete n (s_alerts s)))
      | None => (AIRY_ERR_NOT_FOUND, s)
      end
  | Acknowledge n =>
      match s_alerts s !! n with
      | Some a => (0, AmSpec (s_rules s) (<[n := acknowledge a]> (s_alerts s)))
      | None => (AIRY_ERR_NOT_FOUND, s)
      end
  end.

(** Names that fit their arrays. *)
Definition name_fits (n : cstr) : Prop := (length n < AM_MAX_NAME_LEN)%nat.
Definition op_ok (o : am_op) : Prop := match o with Fire n _ _ _ _ _ => name_fits n | _ => True end.

Record refines (g : am) (s : am_spec) : Prop := Refines {
  rf_init : initialized g = true;
  rf_rules : keys_distinct r_name (rules g) /\ rule_map (rules g) = s_rules s;
  rf_alerts : keys_distinct a_name (active_alerts g) /\ alert_map (active_alerts g) = s_alerts s;
}.

Lemma fit_id size n : (length n < size)%nat -> fit size n = n.
Proof. intros H. unfold fit. apply take_ge. lia. Qed.

Lemma rule_map_insert (l : list am_rule_t) (i : nat) x y :
  keys_distinct r_name l -> l !! i = Some x -> r_name y = r_name x -> rule_map (<[i := y]> l) = <[r_name x := y]> (rule_map l).
Proof. intros. by apply (kmap_insert r_name id l i x y). Qed.

Lemma alert_map_insert (l : list am_alert_t) (i : nat) x y :
  keys_distinct a_name l -> l !! i = Some x -> a_name y = a_name x -> alert_map (<[i := y]> l) = <[a_name x := y]> (alert_map l).
Proof. intros. by apply (kmap_insert a_name id l i x y). Qed.

Lemma rules_step g s l m :
  refines g s -> keys_distinct r_name l -> rule_map l = m -> refines (set_rules l g) (AmSpec m (s_alerts s)).
Proof. intros []. by constructor. Qed.

Lemma alerts_step g s l m :
  refines g s -> keys_distinct a_name l -> alert_map l = m -> refines (set_alerts l g) (AmSpec (s_rules s) m).
Proof. intros []. by constructor. Qed.

Lemma rules_refine cfg fopens o g s :
  refines g s -> match o with AddRule _ | RemoveRule _ | SetEnabled _ _ => True | _ => False end ->
  exists code g' s', am_step fopens o g = (code, g') /\ spec_step cfg o s = (code, s') /\ refines g' s' /\ config g' = config g.
Proof.
  intros H Ho. assert (Hi := rf_init _ _ H). destruct (rf_rules _ _ H) as [Hd Hm].
  destruct o as [r|n|n b| | |]; try done; cbn [am_step spec_step]; unfold am_add_rule, am_remove_rule, am_set_rule_enabled, ensure_init, find_rule.
  - rewrite Hi, <- Hm. pose proof (index_of_key r_name id (rules g) (r_name r) Hd) as Hf. fold (rule_map (rules g)) in Hf.
    destruct (index_of _ _) as [i|].
    + destruct Hf as (x & Hx & Hk & ->). rewrite bool_decide_eq_true_2 by done. cbn [orb]. do 3 eexists. do 2 (split; [done|]). split; [|done].
      apply rules_step; [done|by eapply keys_distinct_insert|]. rewrite <- Hk. by apply rule_map_insert.
    + destruct Hf as [Hn ->]. rewrite bool_decide_eq_false_2 by (by intros []). cbn [orb]. unfold rule_map at 1. rewrite (kmap_size r_name id) by done.
      rewrite Nat.leb_antisym. destruct (length (rules g) <? AM_MAX_RULES)%nat; cbn [negb]; do 3 eexists; do 2 (split; [done|]); (split; [|done]); [|done].
      apply rules_step; [done|by apply keys_distinct_snoc|by apply kmap_snoc].
  - rewrite <- Hm. pose proof (index_of_key r_name id (rules g) n Hd) as Hf. fold (rule_map (rules g)) in Hf.
    destruct (index_of _ _) as [i|]; [destruct Hf as (x & Hx & <- & ->)|destruct Hf as [_ ->]];
      do 3 eexists; do 2 (split; [done|]); (split; [|done]); [|done].
    apply rules_step; [done|by eapply keys_distinct_swap_remove|by apply kmap_swap_remove].
  - rewrite <- Hm. pose proof (index_of_key r_name id (rules g) n Hd) as Hf. fold (rule_map (rules g)) in Hf.
    destruct (index_of _ _) as [i|]; [destruct Hf as (x & Hx & <- & ->)|destruct Hf as [_ ->]];
      do 3 eexists; do 2 (split; [done|]); (split; [|done]); [|done].
    rewrite (alter_as_insert _ _ _ _ Hx). apply rules_step; [done|by eapply keys_distinct_insert|by apply rule_map_insert].
Qed.

Lemma alerts_refine fopens o g s :
  refines g s -> op_ok o -> match o with Fire _ _ _ _ _ _ | Resolve _ | Acknowledge _ => True | _ => False end ->
  exists code g' s', am_step fopens o g = (code, g') /\ spec_step (config g) o s = (code, s') /\ refines g' s' /\ config g' = config g.
Proof.
  intros H Hok Ho. assert (Hi := rf_init _ _ H). destruct (rf_alerts _ _ H) as [Hd Hm].
  destruct o as [| | |n level msg src lbl now|n|n]; try done; cbn [am_step spec_step]; unfold am_fire, am_resolve, am_acknowledge, ensure_init, find_active_alert.
  - rewrite Hi, <- Hm. pose proof (index_of_key a_name id (active_alerts g) n Hd) as Hf. fold (alert_map (active_alerts g)) in Hf.
    destruct (index_of _ _) as [i|].
    + destruct Hf as (x & Hx & <- & ->). rewrite Hx. unfold fire_again.
      destruct (enable_deduplication (config g)); do 3 eexists; do 2 (split; [done|]); (split; [|done]);
        (apply alerts_step; [done|by eapply keys_distinct_insert|by apply alert_map_insert]).
    + destruct Hf as [Hn ->]. unfold alert_map at 1. rewrite (kmap_size a_name id) by done. rewrite Nat.leb_antisym.
      destruct (length (active_alerts g) <? AM_MAX_ACTIVE_ALERTS)%nat; cbn [negb]; do 3 eexists; do 2 (split; [done|]); (split; [|done]); [|done].
      cbn in Hok. assert (Ha : a_name (new_alert n level msg src lbl now) = n) by (by apply fit_id).
      apply alerts_step; [done|apply keys_distinct_snoc; [done|by rewrite Ha]|].
      unfold alert_map. rewrite kmap_snoc by (rewrite ?Ha; done). by rewrite Ha.
  - rewrite <- Hm. pose proof (index_of_key a_name id (active_alerts g) n Hd) as Hf. fold (alert_map (active_alerts g)) in Hf.
    destruct (index_of _ _) as [i|]; [destruct Hf as (x & Hx & <- & ->)|destruct Hf as [_ ->]];
      do 3 eexists; do 2 (split; [done|]); (split; [|done]); [|done].
    apply alerts_step; [done|by eapply keys_distinct_swap_remove|by apply kmap_swap_remove].
  - rewrite <- Hm. pose proof (index_of_key a_name id (active_alerts g) n Hd) as Hf. fold (alert_map (active_alerts g)) in Hf.
    destruct (index_of _ _) as [i|]; [destruct Hf as (x & Hx & <- & ->)|destruct Hf as [_ ->]];
      do 3 eexists; do 2 (split; [done|]); (split; [|done]); [|done].
    rewrite (alter_as_insert _ _ _ _ Hx). apply alerts_step; [done|by eapply keys_distinct_insert|by apply alert_map_insert].
Qed.

Fixpoint am_run (fopens : cstr -> bool) (l : list am_op) (g : am) : list Z * am :=
  match l with
  | [] => ([], g)
  | o :: l' => let '(c, g1) := am_step fopens o g in let '(cs, g2) := am_run fopens l' g1 in (c :: cs, g2)
  end.

Fixpoint spec_run (cfg : am_config_t) (l : list am_op) (s : am_spec) : list Z * am_spec :=
  match l with
  | [] => ([], s)
  | o :: l' => let '(c, s1) := spec_step cfg o s in let '(cs, s2) := spec_run cfg l' s1 in (c :: cs, s2)
  end.

Lemma run_refine fopens l g s :
  refines g s -> Forall op_ok l ->
  exists codes g' s', am_run fopens l g = (codes, g') /\ spec_run (config g) l s = (codes, s') /\ refines g' s'.
Proof.
  intros H Hl. revert g s H. induction Hl as [|o l Ho _ IH]; intros g s H; cbn [am_run spec_run]; [by do 3 eexists|].
  assert (Hs : exists code g' s', am_step fopens o g = (code, g') /\ spec_step (config g) o s = (code, s') /\ refines g' s' /\ config g' = config g)
    by (destruct o; eauto using rules_refine, alerts_refine).
  destruct Hs as (code & g1 & s1 & -> & -> & H1 & Hc). destruct (IH g1 s1 H1) as (codes & g2 & s2 & -> & E & H2).
  rewrite Hc in E. rewrite E. by do 3 eexists.
Qed.

(** C26: From an initialised manager without rules and alerts, any sequence of
    operations on rules and alerts, in which alerts are fired under names below
    64 bytes, returns the codes and leaves the contents of two bounded maps from
    names to rules and to active alerts. *)
Theorem alerts_refine_maps fopens cfg g l :
  initialized g = false -> Forall op_ok l ->
  exists codes g' s', am_run fopens l (am_init cfg true g).2 = (codes, g')
    /\ spec_run (default am_create_default_config cfg) l (AmSpec ∅ ∅) = (codes, s')
    /\ rule_map (rules g') = s_rules s' /\ alert_map (active_alerts g') = s_alerts s'
    /\ length (rules g') = size (s_rules s') /\ length (active_alerts g') = size (s_alerts s').
Proof.
  intros Hi Hl. set (g0 := (am_init cfg true g).2).
  assert (H0 : refines g0 (AmSpec ∅ ∅) /\ config g0 = default am_create_default_config cfg).
  { unfold g0, am_init. rewrite Hi. split; [|done]. by constructor; [|split; [constructor|]|split; [constructor|]]. }
  destruct H0 as [H0 Hc]. destruct (run_refine fopens l g0 _ H0 Hl) as (codes & g' & s' & E1 & E2 & H'). rewrite Hc in E2.
  exists codes, g', s'. destruct H' as [_ [Hd1 <-] [Hd2 <-]]. split_and!; try done; symmetry; by apply kmap_size.
Qed.

Definition empty_am : am := Am am_create_default_config [] [] [] [] false [].

Lemma alerts_refine_maps_witness :
  exists g' s', am_run (fun _ => false) [Fire (cs "disk") 2 None None None 5; Fire (cs "cpu") 1 None None None 6; Resolve (cs "disk"); Resolve (cs "disk")]
      (am_init None true empty_am).2 = ([0; 0; 0; AIRY_ERR_NOT_FOUND], g')
    /\ alert_map (active_alerts g') = s_alerts s' /\ length (active_alerts g') = 1%nat.
Proof.
  destruct (alerts_refine_maps (fun _ => false) None empty_am
    [Fire (cs "disk") 2 None None None 5; Fire (cs "cpu") 1 None None None 6; Resolve (cs "disk"); Resolve (cs "disk")])
    as (codes & g' & s' & E & _ & _ & H & _); [done|repeat constructor; unfold name_fits; cbn; lia|].
  exists g', s'. vm_compute in E. injection E as <- <-. split; [reflexivity|]. split; [exact H|reflexivity].
Defined.

(** ** Evaluation *)

(** A rule triggers. *)
Definition ready (now : Z) (metric : cstr) (v : spec_float) (g : am) (r : am_rule_t) : bool :=
  r_enabled r && bool_decide (metric_name r = metric) && negb (cooling now r) && condition_met metric v r g.

Definition after (now : Z) (metric : cstr) (v : spec_float) (g : am) (r : am_rule_t) : am_rule_t :=
  if ready now metric v g r then touch_rule now r else r.

(** What an evaluation of rules does not change. *)
Definition frame (g : am) := (config g, channels g, callbacks g, initialized g, metrics g).

Lemma fire_frame clk fopens ok n level msg src lbl g code g' ns :
  initialized g = true -> am_fire clk fopens ok n level msg src lbl g = (code, g', ns) -> frame g' = frame g /\ rules g' = rules g.
Proof. intros Hi. unfold am_fire, ensure_init. rewrite Hi. intros H. repeat case_match; by simplify_eq. Qed.

Lemma trigger_frame clk fopens ok now metric v r g g' ns :
  initialized g = true -> trigger clk fopens ok now metric v r g = (g', ns) -> frame g' = frame g /\ rules g' = rules g.
Proof.
  intros Hi. unfold trigger. destruct (find_active_alert _ _); [by intros [= <- <-]|].
  destruct (am_fire _ _ _ _ _ _ _ _ _) as [[code g1] ns1] eqn:E. intros [= <- <-]. by eapply fire_frame.
Qed.

Lemma ready_frame now metric v g g' r : metrics g' = metrics g -> ready now metric v g' r = ready now metric v g r.
Proof. intros H. unfold ready, condition_met, evaluate_trend, find_metric. by rewrite H. Qed.

Lemma after_frame now metric v g g' : metrics g' = metrics g -> forall r, after now metric v g' r = after now metric v g r.
Proof. intros H r. unfold after. by rewrite (ready_frame _ _ _ _ _ _ H). Qed.

Definition count_ready (now : Z) (metric : cstr) (v : spec_float) (g : am) (l : list am_rule_t) : Z :=
  Z.of_nat (length (filter (fun r => ready now metric v g r = true) l)).

Lemma count_ready_cons now metric v g r l :
  count_ready now metric v g (r :: l) = (if ready now metric v g r then 1 else 0) + count_ready now metric v g l.
Proof. unfold count_ready. rewrite filter_cons. destruct (ready now metric v g r) eqn:E; [rewrite decide_True by done|rewrite decide_False by done]; cbn [length]; lia. Qed.

Lemma evaluate_loop_exact clk fopens ok now metric v fuel i g t :
  initialized g = true -> (length (rules g) <= fuel + i)%nat ->
  exists g' ns, evaluate_loop clk fopens ok now metric v fuel i g t = (t + count_ready now metric v g (drop i (rules g)), g', ns)
    /\ rules g' = take i (rules g) ++ map (after now metric v g) (drop i (rules g)) /\ frame g' = frame g.
Proof.
  revert i g t. induction fuel as [|fuel IH]; intros i g t Hi Hf; cbn [evaluate_loop].
  - rewrite drop_ge, take_ge by lia. cbn [map]. exists g, []. unfold count_ready. cbn. rewrite app_nil_r, Z.add_0_r. done.
  - destruct (rules g !! i) as [r|] eqn:Hr.
    2: { apply lookup_ge_None in Hr. rewrite drop_ge, take_ge by lia. exists g, []. unfold count_ready. cbn. rewrite app_nil_r, Z.add_0_r. done. }
    rewrite (drop_S _ _ _ Hr), count_ready_cons. cbn [map]. unfold after at 1.
    replace (_ || _ || _ || _) with (negb (ready now metric v g r)).
    2: { unfold ready. by destruct (r_enabled r), (bool_decide _), (cooling now r), (condition_met metric v r g). }
    destruct (ready now metric v g r) eqn:Er; cbn [negb].
    + set (g1 := set_rules (<[i := touch_rule now r]> (rules g)) g).
      destruct (trigger clk fopens ok now metric v r g1) as [g2 ns] eqn:Et.
      assert (Hi1 : initialized g1 = true) by done. destruct (trigger_frame _ _ _ _ _ _ _ _ _ _ Hi1 Et) as [Hfr Hru].
      assert (Hm : metrics g2 = metrics g) by (unfold frame in Hfr; cbn in Hfr; congruence).
      assert (Hrl : rules g2 = <[i := touch_rule now r]> (rules g)) by done.
      destruct (IH (S i) g2 (t + 1)) as (g3 & ns3 & -> & Hru3 & Hfr3).
      { unfold frame in Hfr; cbn in Hfr; congruence. } { rewrite Hrl, length_insert. lia. }
      assert (Hlt := lookup_lt_Some _ _ _ Hr).
      rewrite Hrl in *. rewrite drop_insert_lt in * by lia.
      assert (Hcr : count_ready now metric v g2 (drop (S i) (rules g)) = count_ready now metric v g (drop (S i) (rules g))).
      { unfold count_ready. do 2 f_equal. apply list_filter_iff. intros x. by rewrite (ready_frame _ _ _ _ _ _ Hm). }
      rewrite Hcr. do 2 eexists. split; [f_equal; f_equal; lia|]. split; [|by rewrite Hfr3].
      rewrite Hru3, (map_ext _ _ (after_frame _ _ _ _ _ Hm)).
      rewrite (take_S_r _ _ (touch_rule now r)) by (by apply list_lookup_insert_eq).
      by rewrite take_insert_ge, <- app_assoc by lia.
    + destruct (IH (S i) g t Hi ltac:(lia)) as (g3 & ns3 & -> & Hru3 & Hfr3). do 2 eexists. split; [f_equal; f_equal; lia|].
      split; [|done]. rewrite Hru3, (take_S_r _ _ _ Hr), <- app_assoc. done.
Qed.

Lemma evaluate_rules clk fopens ok m v g :
  initialized g = true -> (length (rules g) <= AM_MAX_RULES)%nat ->
  exists g' ns, am_evaluate clk fopens ok (Some m) v g = (count_ready (clk 0%nat) m v g (rules g), g', ns)
    /\ rules g' = map (after (clk 0%nat) m v g) (rules g) /\ frame g' = frame g.
Proof.
  intros Hi Hl. unfold am_evaluate.
  destruct (evaluate_loop_exact (fun k => clk (S k)) fopens ok (clk 0%nat) m v AM_MAX_RULES 0 g 0 Hi ltac:(lia)) as (g' & ns & E & Hr & Hf).
  exists g', ns. by rewrite drop_0, Z.add_0_l in E.
Qed.

(** An evaluation of a metric touches exactly the rules that are enabled,
    watch the metric, are not cooling down and whose condition holds, whatever
    alerts fire meanwhile, and returns their number. *)
Theorem evaluate_exact clk fopens ok m v g :
  initialized g = true -> (length (rules g) <= AM_MAX_RULES)%nat ->
  exists g' ns, am_evaluate clk fopens ok (Some m) v g = (count_ready (clk 0%nat) m v g (rules g), g', ns)
    /\ rules g' = map (after (clk 0%nat) m v g) (rules g)
    /\ (config g', channels g', callbacks g', initialized g', metrics g') = (config g, channels g, callbacks g, initialized g, metrics g).
Proof. exact (evaluate_rules clk fopens ok m v g). Qed.

Definition cpu_rule : am_rule_t := Rule (cs "hot") RULE_THRESHOLD 2 (cs "cpu") OP_GT (of_int 90) 0 60 [] true 0.
Definition one_rule : am := set_rules [cpu_rule] (am_init None true empty_am).2.

Lemma evaluate_exact_witness :
  exists g' ns, am_evaluate (fun _ => 5) (fun _ => false) true (Some (cs "cpu")) (of_int 95) one_rule = (1, g', ns)
    /\ rules g' = [touch_rule 5 cpu_rule] /\ length (active_alerts g') = 1%nat.
Proof.
  destruct (evaluate_exact (fun _ => 5) (fun _ => false) true (cs "cpu") (of_int 95) one_rule) as (g' & ns & E & Hr & _); [done|vm_compute; lia|].
  exists g', ns. split; [rewrite E; vm_compute; reflexivity|]. split; [rewrite Hr; vm_compute; reflexivity|].
  vm_compute in E. injection E as <- <-. reflexivity.
Defined.

(** Evaluations one after the other, with the times at which rule [i] triggers. *)
Fixpoint trigger_times (fopens : cstr -> bool) (i : nat) (l : list (Z * cstr * spec_float)) (g : am) : list Z :=
  match l with
  | [] => []
  | (now, m, v) :: l' =>
      let '(_, g', _) := am_evaluate (fun _ => now) fopens true (Some m) v g in
      match rules g !! i with
      | Some r => if ready now m v g r then [now] else []
      | None => []
      end ++ trigger_times fopens i l' g'
  end.

(** Each time is a cooldown after the one before. *)
Fixpoint spaced (gap last : Z) (ts : list Z) : Prop :=
  match ts with [] => True | t :: ts' => (0 < last -> last + gap <= t) /\ spaced gap t ts' end.

Fixpoint rising (from : Z) (l : list (Z * cstr * spec_float)) : Prop :=
  match l with [] => True | (now, _, _) :: l' => from <= now < 2 ^ 63 /\ rising now l' end.

Lemma trigger_times_spaced fopens i l g r :
  initialized g = true -> (length (rules g) <= AM_MAX_RULES)%nat -> rules g !! i = Some r ->
  0 <= last_triggered r -> rising (Z.max 1 (last_triggered r)) l -> 0 <= cooldown_seconds r < 2 ^ 32 ->
  spaced (cooldown_seconds r * 1000) (last_triggered r) (trigger_times fopens i l g).
Proof.
  revert g r. induction l as [|[[now m] v] l IH]; intros g r Hi Hl Hr H0 Hup Hc; cbn [trigger_times]; [done|].
  destruct Hup as [Hnow Hup].
  destruct (evaluate_rules (fun _ => now) fopens true m v g Hi Hl) as (g' & ns & -> & Hru & Hfr). rewrite Hr.
  assert (Hr' : rules g' !! i = Some (after now m v g r)) by (rewrite Hru; change (map ?f ?l) with (f <$> l); by rewrite list_lookup_fmap, Hr).
  assert (Hi' : initialized g' = true) by (unfold frame in Hfr; congruence).
  assert (Hl' : (length (rules g') <= AM_MAX_RULES)%nat) by (by rewrite Hru, length_map).
  assert (Hrise : forall k, 0 <= k <= now -> rising (Z.max 1 k) l).
  { intros k Hk. destruct l as [|[[n2 m2] v2] l]; [done|]. cbn [rising] in *. destruct Hup. split; [lia|done]. }
  unfold after in Hr'. destruct (ready now m v g r) eqn:Er; cbn [app spaced].
  - split.
    + intros Hpos. unfold ready in Er. assert (Hcool : cooling now r = false) by (destruct (cooling now r); [|done]; by rewrite andb_false_r in Er).
      unfold cooling in Hcool. rewrite u64_small in Hcool by lia. lia.
    + apply (IH g' (touch_rule now r)); try done; cbn [last_triggered touch_rule]; [lia|]. apply Hrise. lia.
  - apply (IH g' r); try done. apply Hrise. lia.
Qed.

(** Along any sequence of evaluations whose clock does not go back, the
    times at which a rule triggers are at least its cooldown apart. *)
Theorem rule_cooldown fopens i l g r :
  initialized g = true -> (length (rules g) <= AM_MAX_RULES)%nat -> rules g !! i = Some r ->
  0 <= last_triggered r -> rising (Z.max 1 (last_triggered r)) l -> 0 <= cooldown_seconds r < 2 ^ 32 ->
  spaced (cooldown_seconds r * 1000) (last_triggered r) (trigger_times fopens i l g).
Proof. exact (trigger_times_spaced fopens i l g r). Qed.

Lemma rule_cooldown_witness :
  let l := [(10, cs "cpu", of_int 95); (50000, cs "cpu", of_int 99); (60010, cs "cpu", of_int 91)] in
  spaced 60000 0 (trigger_times (fun _ => false) 0 l one_rule) /\ trigger_times (fun _ => false) 0 l one_rule = [10; 60010].
Proof.
  intros l. split; [|vm_compute; reflexivity].
  apply (rule_cooldown (fun _ => false) 0 l one_rule cpu_rule); try done; try (vm_compute; lia); cbn; lia.
Defined.

(** A cooldown of 0: with two rules on one metric, one call of
    [am_evaluate_all] evaluates each of them twice. *)
Definition eager_rule (n : cstr) : am_rule_t := Rule n RULE_THRESHOLD 2 (cs "cpu") OP_GT (of_int 90) 0 0 [] true 0.

Theorem evaluate_all_repeats :
  exists g' ns a,
    am_evaluate_all (fun _ _ => 5) (fun _ => false) true
      (am_record_metric (Some (cs "cpu")) (of_int 95) (set_rules [eager_rule (cs "a"); eager_rule (cs "b")] (am_init None true empty_am).2)).2
    = (4, g', ns) /\ active_alerts g' !! 0%nat = Some a /\ trigger_count a = 2.
Proof. do 3 eexists. split; [vm_compute; reflexivity|]. by vm_compute. Qed.

(** ** Deduplication *)

(** Firing an alert [k] times, at the given times. *)
Fixpoint fire_many (fopens : cstr -> bool) (n : cstr) (level : Z) (msg src lbl : option cstr) (times : list Z) (g : am)
    : am * list notice :=
  match times with
  | [] => (g, [])
  | now :: times' =>
      let '(_, g1, ns) := am_fire (fun _ => now) fopens true (Some n) level msg src lbl g in
      let '(g2, ns') := fire_many fopens n level msg src lbl times' g1 in (g2, ns ++ ns')
  end.

(** How many notices one dispatch gives depends on the level only. *)
Definition receivers (fopens : cstr -> bool) (g : am) (level : Z) : nat :=
  length (dispatch_notifications fopens g (new_alert [] level None None None 0)).

Lemma dispatch_length fopens g a : length (dispatch_notifications fopens g a) = receivers fopens g (a_level a).
Proof.
  unfold receivers, dispatch_notifications. rewrite !length_app. f_equal.
  - induction (callbacks g) as [|c l IH]; [done|]. cbn [map concat]. rewrite !length_app, IH. f_equal.
    unfold callback_notice. cbn. by case_match.
  - induction (channels g) as [|c l IH]; [done|]. cbn [map concat]. rewrite !length_app, IH. f_equal.
    unfold channel_notice. cbn. by repeat case_match.
Qed.

Lemma receivers_alerts fopens g l level : receivers fopens (set_alerts l g) level = receivers fopens g level.
Proof. done. Qed.

Lemma index_of_last {A} (f : A -> bool) (l : list A) a :
  (forall x, x ∈ l -> f x = false) -> f a = true -> index_of f (l ++ [a]) = Some (length l).
Proof.
  intros Hl Ha. induction l as [|x l IH]; cbn [app index_of length]; [by rewrite Ha|].
  rewrite Hl by set_solver. rewrite IH; [done|]. intros y Hy. apply Hl. set_solver.
Qed.

Lemma fire_again_last fopens n level msg src lbl times g l a :
  initialized g = true -> enable_deduplication (config g) = true -> active_alerts g = l ++ [a] ->
  (forall x, x ∈ l -> a_name x <> n) -> a_name a = n ->
  let M := max_notifications_per_alert (config g) in
  0 <= M < 2 ^ 32 -> 0 <= trigger_count a -> trigger_count a + Z.of_nat (length times) < 2 ^ 32 ->
  0 <= notification_count a -> notification_count a + Z.of_nat (length times) < 2 ^ 32 ->
  exists g' ns a', fire_many fopens n level msg src lbl times g = (g', ns) /\ active_alerts g' = l ++ [a']
    /\ a_name a' = n /\ a_level a' = a_level a /\ message a' = message a /\ fired_at a' = fired_at a
    /\ trigger_count a' = trigger_count a + Z.of_nat (length times)
    /\ notification_count a' = Z.max (notification_count a) (Z.min (notification_count a + Z.of_nat (length times)) M)
    /\ Z.of_nat (length ns) = (notification_count a' - notification_count a) * Z.of_nat (receivers fopens g (a_level a)).
Proof.
  intros Hi Hdd. cbn zeta. revert g a Hi Hdd. induction times as [|now times IH]; intros g a Hi Hdd Hal Hl Ha HM Ht1 Ht2 Hn1 Hn2; cbn [fire_many length] in *.
  - exists g, [], a. split_and!; try done; cbn [length]; lia.
  - unfold am_fire, ensure_init, find_active_alert. rewrite Hi, Hal.
    rewrite index_of_last; [|intros x Hx; apply bool_decide_eq_false; by apply Hl|by apply bool_decide_eq_true].
    rewrite list_lookup_middle by done. rewrite Hdd.
    set (b := notification_count a <? max_notifications_per_alert (config g)).
    set (a1 := retrigger now b a). set (ns1 := if b then _ else _).
    assert (Hnc : notification_count a1 = notification_count a + (if b then 1 else 0)).
    { unfold a1. cbn [retrigger notification_count]. destruct b; [rewrite u32_small by lia|]; lia. }
    assert (Htc : trigger_count a1 = trigger_count a + 1) by (unfold a1; cbn [retrigger trigger_count]; rewrite u32_small; lia).
    destruct (IH (set_alerts (<[length l := a1]> (l ++ [a])) g) a1) as (g' & ns & a' & E & Hal' & H1 & H2 & H3 & H4 & H5 & H6 & H7).
    { done. } { done. } { cbn [set_alerts active_alerts]. by rewrite insert_app_r_alt, Nat.sub_diag by lia. } { done. } { done. } { done. }
    { lia. } { lia. } { destruct b; lia. } { destruct b; lia. }
    rewrite E. exists g', (ns1 ++ ns), a'. rewrite receivers_alerts in H7. change (config (set_alerts _ g)) with (config g) in H6.
    change (a_level a1) with (a_level a) in *. split_and!; try done.
    + lia.
    + unfold b in *. destruct (Z.ltb_spec (notification_count a) (max_notifications_per_alert (config g))); lia.
    + rewrite length_app, Nat2Z.inj_add, H7. unfold ns1. destruct b; [rewrite dispatch_length|cbn [length]]; cbn [before_count retrigger a_level]; nia.
Qed.

(** With deduplication, firing an alert [k] times leaves one alert with
    [k] triggers and the level and message of the first, and notifies every
    receiver of its level once for each of the first firings, up to the limit of
    notifications and at least once. *)
Theorem fire_deduplicates fopens n level msg src lbl first times g :
  initialized g = true -> enable_deduplication (config g) = true -> name_fits n ->
  (forall x, x ∈ active_alerts g -> a_name x <> n) -> (length (active_alerts g) < AM_MAX_ACTIVE_ALERTS)%nat ->
  0 <= max_notifications_per_alert (config g) < 2 ^ 32 -> 1 + Z.of_nat (length times) < 2 ^ 32 ->
  exists g' ns a, fire_many fopens n level msg src lbl (first :: times) g = (g', ns)
    /\ active_alerts g' = active_alerts g ++ [a] /\ a_name a = n /\ a_level a = level /\ fired_at a = first
    /\ message a = fit AM_MAX_MESSAGE_LEN (default [] msg)
    /\ trigger_count a = 1 + Z.of_nat (length times)
    /\ notification_count a = Z.min (1 + Z.of_nat (length times)) (Z.max 1 (max_notifications_per_alert (config g)))
    /\ Z.of_nat (length ns) = notification_count a * Z.of_nat (receivers fopens g level).
Proof.
  intros Hi Hdd Hn Hno Hroom HM Hk. cbn [fire_many]. unfold am_fire, ensure_init, find_active_alert. rewrite Hi.
  destruct (index_of _ (active_alerts g)) as [i|] eqn:Ei.
  { apply index_of_Some in Ei as (x & Hx & Hk'%bool_decide_eq_true). exfalso. apply (Hno x); [by eapply list_elem_of_lookup_2|done]. }
  replace (_ <=? _)%nat with false by (symmetry; apply Nat.leb_gt; done).
  set (a0 := new_alert n level msg src lbl first). assert (Ha0 : a_name a0 = n) by (by apply fit_id).
  destruct (fire_again_last fopens n level msg src lbl times (set_alerts (active_alerts g ++ [a0]) g) (active_alerts g) a0)
    as (g' & ns & a & -> & Hal & H1 & H2 & H3 & H4 & H5 & H6 & H7); try done; try (cbn; lia).
  exists g', (dispatch_notifications fopens g a0 ++ ns), a. rewrite receivers_alerts in H7.
  change (notification_count a0) with 1 in *. change (trigger_count a0) with 1 in *. change (config (set_alerts _ g)) with (config g) in H6.
  split_and!; try done; [lia|]. rewrite length_app, dispatch_length, Nat2Z.inj_add, H7. change (a_level a0) with level. nia.
Qed.

Lemma fire_deduplicates_witness :
  exists g' ns a, fire_many (fun _ => false) (cs "disk") 2 None None None [1; 2; 3]
      (Am (AmConfig 0 0 2 0 true true) [] [] [log_channel] [] true []) = (g', ns)
    /\ active_alerts g' = [a] /\ trigger_count a = 3 /\ notification_count a = 2 /\ length ns = 2%nat.
Proof.
  destruct (fire_deduplicates (fun _ => false) (cs "disk") 2 None None None 1 [2; 3]
    (Am (AmConfig 0 0 2 0 true true) [] [] [log_channel] [] true [])) as (g' & ns & a & E & H1 & _ & _ & _ & _ & H2 & H3 & H4);
    try done; try (vm_compute; lia); try (unfold name_fits; vm_compute; lia).
  { intros x Hx. by apply elem_of_nil in Hx. }
  exists g', ns, a. split; [done|]. split; [done|]. split; [done|]. split; [done|].
  rewrite H3 in H4. change (receivers _ _ 2) with 1%nat in H4. cbn [max_notifications_per_alert config length] in H4. lia.
Defined.

(** ** Histories of metrics *)

(** The values of a ring from the oldest on. *)
Definition ring (m : metric_t) : list spec_float :=
  map (fun j => nth ((h_head m + j) mod HISTORY) (values m) (S754_zero false)) (seq 0 (h_count m)).

Record ring_ok (m : metric_t) : Prop := RingOk {
  ro_len : length (values m) = HISTORY;
  ro_count : (1 <= h_count m <= HISTORY)%nat;
  ro_head : (h_head m < HISTORY)%nat;
}.

Lemma nth_insert (l : list spec_float) i v k d : (i < length l)%nat -> nth k (<[i := v]> l) d = if decide (k = i) then v else nth k l d.
Proof.
  intros Hi. rewrite !nth_lookup. destruct (decide (k = i)) as [->|]; [by rewrite list_lookup_insert_eq|by rewrite list_lookup_insert_ne].
Qed.

Lemma mod_shift_ne h j c : (h < HISTORY)%nat -> (j < c)%nat -> (c < HISTORY)%nat -> ((h + j) mod HISTORY <> (h + c) mod HISTORY)%nat.
Proof. unfold HISTORY. intros. intros E. pose proof (Nat.div_mod (h + j) 8). pose proof (Nat.div_mod (h + c) 8). lia. Qed.

Lemma rotate_map {A} (f g : nat -> A) x :
  (forall j, (j < HISTORY - 1)%nat -> f j = g (S j)) -> f (HISTORY - 1)%nat = x ->
  map f (seq 0 HISTORY) = drop 1 (map g (seq 0 HISTORY) ++ [x]).
Proof.
  intros H <-. change (seq 0 HISTORY) with (seq 0 7 ++ [7%nat]) at 1. change (seq 0 HISTORY) with (0%nat :: seq 1 7).
  rewrite map_app. cbn [map app drop]. rewrite skipn_0. f_equal. rewrite <- seq_shift, map_map. apply map_ext_in.
  intros j Hj%in_seq. apply H. unfold HISTORY; lia.
Qed.

Lemma push_ring m v : ring_ok m -> ring_ok (push_value v m) /\ ring (push_value v m) = last_n HISTORY (ring m ++ [v]).
Proof.
  intros [Hl Hc Hh]. unfold push_value. set (t := ((h_head m + h_count m) mod HISTORY)%nat).
  assert (Ht : (t < HISTORY)%nat) by (apply Nat.mod_upper_bound; done). destruct (Nat.ltb_spec (h_count m) HISTORY) as [Hlt|Hge].
  - split; [constructor; cbn; rewrite ?length_insert; lia|]. unfold ring; cbn [h_head h_count values].
    unfold last_n. rewrite length_app, length_map, length_seq. cbn [length]. replace (_ - _)%nat with O by lia. rewrite drop_0.
    rewrite seq_S, map_app. cbn [map Nat.add]. f_equal.
    + apply map_ext_in. intros j Hj%in_seq. rewrite nth_insert by lia. rewrite decide_False; [done|]. apply mod_shift_ne; lia.
    + rewrite nth_insert by lia. fold t. by rewrite decide_True.
  - assert (Hc8 : h_count m = HISTORY) by lia. split.
    { constructor; cbn [h_head h_count values]; rewrite ?length_insert; try lia. apply Nat.mod_upper_bound; done. }
    unfold ring; cbn [h_head h_count values]. unfold last_n. rewrite length_app, length_map, length_seq, Hc8. cbn [length].
    replace (HISTORY + 1 - HISTORY)%nat with 1%nat by lia.
    assert (Ht0 : t = h_head m) by (unfold t; rewrite Hc8; change (HISTORY) with 8%nat in *; rewrite <- Nat.Div0.add_mod_idemp_r, Nat.Div0.mod_same, Nat.add_0_r; apply Nat.mod_small; lia).
    apply rotate_map.
    + intros j Hj. rewrite nth_insert by lia. rewrite Nat.Div0.add_mod_idemp_l.
      replace (h_head m + 1 + j)%nat with (h_head m + S j)%nat by lia. rewrite decide_False; [done|]. rewrite Ht0.
      pose proof (mod_shift_ne (h_head m) 0 (S j) Hh ltac:(lia) ltac:(unfold HISTORY in *; lia)) as Hne. rewrite Nat.add_0_r, (Nat.mod_small (h_head m)) in Hne by done. congruence.
    + rewrite nth_insert by lia. rewrite decide_True; [done|]. rewrite Nat.Div0.add_mod_idemp_l, Ht0.
      replace (h_head m + 1 + (HISTORY - 1))%nat with (h_head m + 1 * HISTORY)%nat by (unfold HISTORY; lia). rewrite Nat.Div0.mod_add. by apply Nat.mod_small.
Qed.

(** The values recorded for a name. *)
Definition recorded (n : cstr) (l : list (cstr * spec_float)) : list spec_float := (List.filter (fun p => bool_decide (p.1 = n)) l).*2.

Fixpoint record_all (l : list (cstr * spec_float)) (g : am) : am :=
  match l with [] => g | (n, v) :: l' => record_all l' (am_record_metric (Some n) v g).2 end.

Definition metric_map (l : list metric_t) : gmap cstr metric_t := kmap m_name id l.

(** Every metric holds the last values recorded under its name, and names that
    nothing was recorded for are absent. *)
Definition history_ok (g : am) (l : list (cstr * spec_float)) : Prop :=
  keys_distinct m_name (metrics g) /\
  forall n, match metric_map (metrics g) !! n with
            | Some m => m_name m = n /\ ring_ok m /\ recorded n l <> [] /\ ring m = last_n HISTORY (recorded n l)
                        /\ last (recorded n l) = Some (latest m)
            | None => recorded n l = []
            end.

Lemma recorded_snoc n l k v : recorded n (l ++ [(k, v)]) = recorded n l ++ if decide (k = n) then [v] else [].
Proof.
  unfold recorded. rewrite List.filter_app, fmap_app. f_equal. cbn. destruct (decide (k = n)); [by rewrite bool_decide_eq_true_2|by rewrite bool_decide_eq_false_2].
Qed.

Lemma record_step g l n v :
  history_ok g l -> (length n < METRIC_NAME_LEN)%nat ->
  (is_Some (metric_map (metrics g) !! n) \/ (length (metrics g) < AM_MAX_RULES)%nat) ->
  history_ok (am_record_metric (Some n) v g).2 (l ++ [(n, v)]).
Proof.
  intros [Hd Hh] Hn Hroom. unfold am_record_metric, find_metric. pose proof (index_of_key m_name id (metrics g) n Hd) as Hf.
  fold (metric_map (metrics g)) in Hf. pose proof (Hh n) as Hn'. destruct (index_of _ _) as [i|].
  - destruct Hf as (m & Hi & Hk & Hm). rewrite Hm in Hn'. destruct Hn' as (_ & Hok & Hne & Hring & Hlast).
    rewrite (alter_as_insert _ _ _ _ Hi). destruct (push_ring m v Hok) as [Hok' Hr'].
    assert (Hpn : m_name (push_value v m) = m_name m) by (unfold push_value; by case_match).
    assert (Hpl : latest (push_value v m) = v) by (unfold push_value; by case_match).
    split; [cbn; by eapply keys_distinct_insert|]. intros k. cbn [snd metrics set_metrics]. unfold metric_map. rewrite (kmap_insert m_name id _ _ m) by done.
    fold (metric_map (metrics g)). rewrite recorded_snoc, Hk. destruct (decide (n = k)) as [<-|Hnk].
    + rewrite lookup_insert_eq. cbn [id] in *. split_and!; try done; [congruence|by destruct (recorded n l)| |].
      * rewrite Hr', Hring. exact (last_n_push 7 (recorded n l) v).
      * by rewrite last_snoc, Hpl.
    + rewrite lookup_insert_ne by done. rewrite app_nil_r. exact (Hh k).
  - destruct Hf as [Hni Hm]. rewrite Hm in Hn', Hroom. destruct Hroom as [[]|Hroom]; [done|].
    replace (_ <? _)%nat with true by (symmetry; apply Nat.ltb_lt; done). assert (Hnn : m_name (new_metric n v) = n) by (by apply fit_id).
    split; [cbn; apply keys_distinct_snoc; [done|by rewrite Hnn]|]. intros k. cbn [snd metrics set_metrics]. unfold metric_map.
    rewrite (kmap_snoc m_name id) by (rewrite ?Hnn; done). fold (metric_map (metrics g)). rewrite recorded_snoc, Hnn. destruct (decide (n = k)) as [<-|Hnk].
    + rewrite lookup_insert_eq, Hn'. cbn [id app]. split_and!; try done. by constructor; cbn; unfold HISTORY; lia.
    + rewrite lookup_insert_ne by done. rewrite app_nil_r. exact (Hh k).
Qed.

Lemma record_all_snoc l n v g : record_all (l ++ [(n, v)]) g = (am_record_metric (Some n) v (record_all l g)).2.
Proof. revert g; induction l as [|[k w] l IH]; intros g; [done|apply IH]. Qed.

Lemma recorded_elem n l : recorded n l <> [] -> n ∈ l.*1.
Proof.
  induction l as [|[k w] l IH]; [done|]. unfold recorded. cbn. case_bool_decide as Hk; intros H; [subst k; left|right; by apply IH].
Qed.

Definition names_of (l : list (cstr * spec_float)) : gset cstr := list_to_set l.*1.

(** There are never more metrics than recorded names. *)
Lemma metrics_bound g l : history_ok g l -> (forall n, n ∈ m_name <$> metrics g -> n ∈ names_of l).
Proof.
  intros [Hd Hh] n Hn. apply list_elem_of_fmap in Hn as (m & -> & Hm). specialize (Hh (m_name m)).
  unfold metric_map in Hh. rewrite (kmap_lookup m_name id _ m) in Hh by done. destruct Hh as (_ & _ & Hne & _).
  apply elem_of_list_to_set. by apply recorded_elem.
Qed.

Lemma record_all_ok l g :
  metrics g = [] -> Forall (fun p => (length p.1 < METRIC_NAME_LEN)%nat) l -> (size (names_of l) <= AM_MAX_RULES)%nat ->
  history_ok (record_all l g) l.
Proof.
  intros Hg. induction l as [|[n v] l IH] using rev_ind; intros Hf Hs.
  - unfold history_ok. cbn [record_all]. rewrite Hg. split; [apply NoDup_nil_2|]. intros n. by unfold metric_map, kmap.
  - apply Forall_app in Hf as [Hf Hn%Forall_inv]. cbn [fst] in Hn. rewrite record_all_snoc.
    assert (Hsub : names_of l ∪ {[n]} = names_of (l ++ [(n, v)])) by (unfold names_of; rewrite fmap_app; set_solver).
    rewrite <- Hsub in Hs. specialize (IH Hf ltac:(etrans; [apply subseteq_size|exact Hs]; set_solver)).
    apply record_step; [done|done|]. destruct (metric_map (metrics (record_all l g)) !! n) as [m|] eqn:Em; [by left|right].
    apply kmap_lookup_None in Em. pose proof (metrics_bound _ _ IH) as Hb.
    apply Nat.lt_le_trans with (size (names_of l ∪ {[n]})); [|done].
    rewrite <- (length_fmap m_name). unfold lt. change (S (length (m_name <$> metrics (record_all l g)))) with (length (n :: (m_name <$> metrics (record_all l g)))).
    rewrite <- (size_list_to_set (C := gset cstr) (n :: _)) by (apply NoDup_cons; split; [done|apply IH]).
    apply subseteq_size. intros k Hk. apply elem_of_list_to_set, elem_of_cons in Hk as [->|Hk]; [set_solver|]. apply Hb in Hk. set_solver.
Qed.

(** The change between the averages of the older and the newer half. *)
Definition average (l : list spec_float) : spec_float :=
  match l with [] => S754_zero false | _ => ddiv (foldl dadd (S754_zero false) l) (length l) end.
Definition trend_of (l : list spec_float) : spec_float :=
  SFsub 53 1024 (average (drop (length l / 2) l)) (average (take (length l / 2) l)).

Lemma ring_lookup m j : (j < h_count m)%nat -> ring m !! j = Some (nth ((h_head m + j) mod HISTORY) (values m) (S754_zero false)).
Proof.
  intros Hj. unfold ring. change (map ?f ?l) with (f <$> l). rewrite list_lookup_fmap, lookup_seq_lt by done. by cbn.
Qed.

Lemma ring_length m : length (ring m) = h_count m.
Proof. unfold ring. by rewrite length_map, length_seq. Qed.

Lemma ring_sum_foldl m n j acc : (j + n <= h_count m)%nat -> ring_sum m j n acc = foldl dadd acc (take n (drop j (ring m))).
Proof.
  revert j acc; induction n as [|n IH]; intros j acc H; [done|]. cbn [ring_sum].
  rewrite (drop_S _ _ _ (ring_lookup m j ltac:(lia))). cbn [take foldl]. apply IH. lia.
Qed.

Lemma average_sum l : average l = if (0 <? length l)%nat then ddiv (foldl dadd (S754_zero false) l) (length l) else S754_zero false.
Proof. by destruct l. Qed.

Lemma trend_delta_ring m : trend_delta m = trend_of (ring m).
Proof.
  unfold trend_delta, trend_of. rewrite !average_sum, length_drop, length_take, ring_length.
  pose proof (Nat.Div0.div_le_upper_bound (h_count m) 2 (h_count m) ltac:(lia)). rewrite !ring_sum_foldl by lia.
  rewrite Nat.min_l by done. rewrite drop_0, (take_ge (drop _ _)) by (rewrite length_drop, ring_length; lia). done.
Qed.

(** After any sequence of recordings, starting from no metrics, of names
    below 128 bytes and at most 64 distinct ones, the latest value of a recorded
    name is the last one recorded for it, and a trend rule compares the average
    of the newer half of its last eight values less that of the older half; with
    fewer than two values no trend rule holds. *)
Theorem metric_history_exact l g n v :
  metrics g = [] -> Forall (fun p => (length p.1 < METRIC_NAME_LEN)%nat) l -> (size (names_of l) <= AM_MAX_RULES)%nat ->
  last (recorded n l) = Some v ->
  let h := last_n HISTORY (recorded n l) in
  am_get_latest_metric_value n (record_all l g) = v /\
  forall op t, evaluate_trend n op t (record_all l g) = (2 <=? length h)%nat && evaluate_condition (trend_of h) op t.
Proof.
  intros Hg Hf Hs Hv. destruct (record_all_ok l g Hg Hf Hs) as [Hd Hh]. specialize (Hh n).
  unfold am_get_latest_metric_value, evaluate_trend, find_metric. pose proof (index_of_key m_name id _ n Hd) as Hi.
  fold (metric_map (metrics (record_all l g))) in Hi. destruct (index_of _ _) as [i|].
  - destruct Hi as (m & Hi & _ & Hm). rewrite Hm in Hh. destruct Hh as (_ & _ & _ & Hr & Hl). cbn [mbind option_bind]. rewrite Hi. cbn [id] in Hl.
    split; [congruence|]. intros op t. rewrite trend_delta_ring, <- ring_length. cbn [id] in Hr. rewrite Hr.
    destruct (Nat.ltb_spec (length (last_n HISTORY (recorded n l))) 2), (Nat.leb_spec 2 (length (last_n HISTORY (recorded n l)))); try done; lia.
  - destruct Hi as [_ Hm]. rewrite Hm in Hh. by rewrite Hh in Hv.
Qed.

Lemma metric_history_exact_witness :
  evaluate_trend (cs "m") OP_GT (of_int 3)
    (record_all [(cs "m", of_int 1); (cs "k", of_int 9); (cs "m", of_int 5)] empty_am) = true.
Proof.
  destruct (metric_history_exact [(cs "m", of_int 1); (cs "k", of_int 9); (cs "m", of_int 5)] empty_am (cs "m") (of_int 5)) as [_ H].
  - done.
  - repeat constructor; cbn; unfold METRIC_NAME_LEN; lia.
  - vm_compute. lia.
  - vm_compute. done.
  - rewrite H. vm_compute. done.
Defined.
