(* ===== verification/OutBuf.v ===== *)
(** * Output buffers

    Texts that grow by [snprintf] at a position of an allocated buffer, as the
    exports of utils/observability/unified_metrics.c and trace.c build them, and
    [%.17g].  A byte of a fresh buffer is [None] until it is written; [None] as
    the result of a step is a write outside the buffer. *)
From S2P Require Import Prelude Decimal.

Abbreviation mem := (list (option Z)).

Definition fresh_buf (size : nat) : mem := replicate size None.

Definition write_at (pos : nat) (l : cstr) (m : mem) : option mem :=
  if (pos + length l <=? length m)%nat then Some (take pos m ++ (Some <$> l) ++ drop (pos + length l) m) else None.

(** [snprintf(buf + pos, avail, ...)]: what fits and the terminator. *)
Definition snprintf_at (pos : nat) (avail : Z) (text : cstr) (m : mem) : option mem :=
  if avail <=? 0 then Some m
  else write_at pos ((if Z.of_nat (length text) <? avail then text else take (Z.to_nat (avail - 1)) text) ++ [0]) m.

(** [pos += snprintf(buf + pos, size - pos, ...)]: the difference is taken in
    [size_t], so that past the end it is huge. *)
Definition append (size : nat) (b : mem * nat) (text : cstr) : option (mem * nat) :=
  m ← snprintf_at b.2 (u64 (Z.of_nat size - Z.of_nat b.2)) text b.1; Some (m, b.2 + length text)%nat.

Fixpoint appends (size : nat) (b : mem * nat) (texts : list cstr) : option (mem * nat) :=
  match texts with [] => Some b | t :: texts' => b' ← append size b t; appends size b' texts' end.

(** The C string at the start of a buffer; [None] when it runs into a byte that
    was never written or out of the buffer. *)
Fixpoint read_str (m : mem) : option cstr :=
  match m with
  | Some c :: m' => if c =? 0 then Some [] else cons c <$> read_str m'
  | _ => None
  end.

(** ** Appending within the buffer *)

Definition nonzero (s : cstr) : Prop := Forall (fun c => c <> 0) s.

(** The first bytes of the buffer are the text, and a terminator follows. *)
Definition holds (m : mem) (s : cstr) : Prop := exists rest, m = (Some <$> s) ++ Some 0 :: rest.

Lemma holds_read m s : nonzero s -> holds m s -> read_str m = Some s.
Proof.
  intros Hs [rest ->]. induction Hs as [|c s Hc Hs IH]; [done|]. cbn [fmap list_fmap app read_str].
  replace (c =? 0) with false by (symmetry; by apply Z.eqb_neq). by rewrite IH.
Qed.

(** What was appended so far, without regard to the terminator. *)
Definition starts (m : mem) (s : cstr) : Prop := take (length s) m = Some <$> s.

Lemma holds_starts m s : holds m s -> starts m s.
Proof. intros [rest ->]. unfold starts. rewrite take_app_le by (by rewrite length_fmap). apply take_ge. by rewrite length_fmap. Qed.

Lemma starts_nil m : starts m [].
Proof. done. Qed.

Lemma write_at_holds m s t :
  starts m s -> (length s + length t < length m)%nat ->
  exists m', write_at (length s) (t ++ [0]) m = Some m' /\ length m' = length m /\ holds m' (s ++ t).
Proof.
  intros Hs Hl. unfold write_at. rewrite length_app. cbn [length]. replace (_ <=? _)%nat with true by (symmetry; apply Nat.leb_le; lia).
  eexists. split; [done|]. split.
  - rewrite !length_app, length_take, length_fmap, length_drop, length_app. cbn [length]. lia.
  - rewrite Hs, fmap_app, <- app_assoc, app_assoc, <- fmap_app. by eexists.
Qed.

Lemma append_fits m s t size :
  starts m s -> length m = size -> (length s + length t < size)%nat -> Z.of_nat size < 2 ^ 64 ->
  exists m', append size (m, length s) t = Some (m', length (s ++ t)) /\ length m' = size /\ holds m' (s ++ t).
Proof.
  intros Hs Hm Hl Hsz. unfold append, snprintf_at. cbn [fst snd]. rewrite u64_small by lia.
  replace (_ <=? 0) with false by lia. replace (_ <? _) with true by lia.
  destruct (write_at_holds m s t Hs ltac:(lia)) as (m' & -> & Hm' & Hh). exists m'. rewrite length_app. by rewrite Hm' in *.
Qed.

Lemma appends_fit m s ts size :
  starts m s -> length m = size -> (length s + length (concat ts) < size)%nat -> Z.of_nat size < 2 ^ 64 -> ts <> [] ->
  exists m', appends size (m, length s) ts = Some (m', length (s ++ concat ts)) /\ length m' = size /\ holds m' (s ++ concat ts).
Proof.
  revert m s; induction ts as [|t ts IH]; intros m s Hs Hm Hl Hsz Hne; [done|]. cbn [concat] in *. rewrite length_app in Hl.
  cbn [appends]. destruct (append_fits m s t size) as (m' & -> & Hm' & Hh); try done; [lia|]. cbn [mbind option_bind].
  destruct ts as [|t' ts'].
  - exists m'. cbn [concat appends]. by rewrite app_nil_r.
  - destruct (IH m' (s ++ t)) as (m'' & E & H2 & H3); try done; [by apply holds_starts|rewrite length_app; lia|].
    exists m''. rewrite app_assoc. done.
Qed.

(** ** Appending past the end *)

Lemma append_length size b t b' : append size b t = Some b' -> length b'.1 = length b.1 /\ b'.2 = (b.2 + length t)%nat.
Proof.
  unfold append, snprintf_at, write_at. destruct (_ <=? 0); cbn [mbind option_bind]; [by intros [= <-]|].
  case_match eqn:E; cbn [mbind option_bind]; [|done]. intros [= <-]. cbn. split; [|done]. apply Nat.leb_le in E.
  rewrite !length_app, length_take, length_fmap, length_drop, !length_app in *. cbn [length] in *. lia.
Qed.

Lemma append_past size b t :
  length b.1 = size -> (size < b.2)%nat -> Z.of_nat b.2 - Z.of_nat size < 2 ^ 64 -> append size b t = None.
Proof.
  intros Hm Hp Hs. unfold append, snprintf_at. assert (0 < u64 (Z.of_nat size - Z.of_nat b.2)).
  { unfold u64. replace (_ - _) with (- (Z.of_nat b.2 - Z.of_nat size)) by lia. rewrite Z.mod_opp_l_nz; [|lia|]; rewrite Z.mod_small; lia. }
  replace (_ <=? 0) with false by lia. unfold write_at. rewrite length_app. cbn [length].
  replace (_ <=? _)%nat with false; [done|]. symmetry. apply Nat.leb_gt. lia.
Qed.

(** The appends of short texts run out of the buffer as soon as one of them
    starts past its end. *)
Lemma appends_past size b ts t :
  length b.1 = size -> Z.of_nat size < 2 ^ 62 -> Z.of_nat b.2 < 2 ^ 63 -> Forall (fun t => Z.of_nat (length t) < 2 ^ 62) ts ->
  (size < b.2 + length (concat ts))%nat -> appends size b (ts ++ [t]) = None.
Proof.
  intros Hm Hs. revert b Hm; induction ts as [|t' ts IH]; intros b Hm Hb Hts Hp; cbn [app appends concat] in *.
  - rewrite append_past; [done|done|cbn in Hp; lia|lia].
  - apply Forall_cons in Hts as [Ht Hts]. destruct (Nat.le_gt_cases b.2 size) as [Hle|Hgt]; [|by rewrite append_past by (done || lia)].
    destruct (append size b t') as [b'|] eqn:E; [|done]. cbn [mbind option_bind]. apply append_length in E as [E1 E2].
    rewrite length_app in *. apply IH; [congruence| |done|]; rewrite E2; lia.
Qed.

(** ** Appending what is cut *)

Lemma snprintf_cut m s avail text :
  starts m s -> (length s + avail <= length m)%nat ->
  exists m', snprintf_at (length s) (Z.of_nat avail) text m = Some m' /\ length m' = length m /\ starts m' s.
Proof.
  intros Hs Hl. unfold snprintf_at. destruct (Z.leb_spec (Z.of_nat avail) 0); [by exists m|].
  set (t := if _ <? _ then text else _). assert (Ht : (length s + length t < length m)%nat).
  { unfold t. destruct (Z.ltb_spec (Z.of_nat (length text)) (Z.of_nat avail)); [lia|]. rewrite length_take. lia. }
  destruct (write_at_holds m s t Hs Ht) as (m' & -> & H1 & [rest ->]). exists ((Some <$> s ++ t) ++ Some 0 :: rest). split_and!; try done.
  unfold starts. rewrite fmap_app, <- app_assoc, take_app_le by (by rewrite length_fmap). apply take_ge. by rewrite length_fmap.
Qed.

Lemma snprintf_whole m s avail text :
  starts m s -> (length s + avail <= length m)%nat -> (length text < avail)%nat ->
  exists m', snprintf_at (length s) (Z.of_nat avail) text m = Some m' /\ length m' = length m /\ holds m' (s ++ text).
Proof.
  intros Hs Hl Ht. unfold snprintf_at. replace (_ <=? 0) with false by lia. replace (_ <? _) with true by lia.
  destruct (write_at_holds m s text Hs ltac:(lia)) as (m' & -> & H1 & H2). by exists m'.
Qed.

(** Whatever its length, a text is written as far as the buffer goes. *)
Lemma snprintf_take m s avail text :
  starts m s -> (length s + avail = length m)%nat -> (0 < avail)%nat ->
  exists m', snprintf_at (length s) (Z.of_nat avail) text m = Some m' /\ length m' = length m /\ holds m' (take (length m - 1) (s ++ text)).
Proof.
  intros Hs Hl Ha. unfold snprintf_at. replace (_ <=? 0) with false by lia.
  assert (Ht : (if Z.of_nat (length text) <? Z.of_nat avail then text else take (Z.to_nat (Z.of_nat avail - 1)) text) = take (avail - 1) text).
  { destruct (Z.ltb_spec (Z.of_nat (length text)) (Z.of_nat avail)); [by rewrite take_ge by lia|]. f_equal. lia. }
  rewrite Ht. destruct (write_at_holds m s (take (avail - 1) text) Hs) as (m' & -> & H1 & H2); [rewrite length_take; lia|].
  exists m'. split_and!; try done. rewrite take_app, (take_ge s) by lia. by replace (length m - 1 - length s)%nat with (avail - 1)%nat by lia.
Qed.

Lemma holds_terminate m s k : holds m s -> (length s <= k)%nat -> holds (<[k := Some 0]> m) s.
Proof.
  intros [rest ->] Hk. rewrite insert_app_r_alt by (by rewrite length_fmap). rewrite length_fmap.
  destruct (k - length s)%nat as [|j]; [by exists rest|]. by exists (<[j := Some 0]> rest).
Qed.

(** ** [%.17g] *)

Definition strip_zeros (s : cstr) : cstr :=
  foldr (fun c acc => match acc with [] => if c =? 48 then [] else [c] | _ => c :: acc end) [] s.

(** The exponent of the leading digit of [n / d]: an estimate from the binary
    logarithms, off by one at most, put right. *)
Definition pow10_le (x n d : Z) : bool := if 0 <=? x then 10 ^ x * d <=? n else d <=? n * 10 ^ (- x).
Definition dec_exponent (n d : Z) : Z :=
  let x := (Z.log2 n - Z.log2 d - 1) * 30103 / 100000 in
  if pow10_le (x + 1) n d then x + 1 else if pow10_le x n d then x else x - 1.

(** The seventeen digits and their exponent, rounded to nearest even. *)
Definition digits17 (n d : Z) : Z * Z :=
  let x := dec_exponent n d in
  let c := if 0 <=? 16 - x then round_half_even (n * 10 ^ (16 - x)) d else round_half_even n (d * 10 ^ (x - 16)) in
  if c =? 10 ^ 17 then (10 ^ 16, x + 1) else (c, x).

Definition dot (s : cstr) : cstr := match s with [] => [] | _ => 46 :: s end.

Definition fmt_g17 (v : spec_float) : cstr :=
  let sign s := if s : bool then [45] else [] in
  match v with
  | S754_zero s => sign s ++ [48]
  | S754_infinity s => sign s ++ cs "inf"
  | S754_nan => cs "nan"
  | S754_finite s m e =>
      let '(n, d) := if 0 <=? e then (Zpos m * 2 ^ e, 1) else (Zpos m, 2 ^ (- e)) in
      let '(c, x) := digits17 n d in
      let ds := pad 17 c in
      sign s ++
      if (x <? -4) || (17 <=? x) then
        take 1 ds ++ dot (strip_zeros (drop 1 ds)) ++ [101; if x <? 0 then 45 else 43] ++ pad 2 (Z.abs x)
      else if 0 <=? x then take (Z.to_nat (x + 1)) ds ++ dot (strip_zeros (drop (Z.to_nat (x + 1)) ds))
      else [48] ++ dot (replicate (Z.to_nat (- x - 1)) 48 ++ strip_zeros ds)
  end.

(** Whatever is printed has no NUL and is short. *)
Definition text_ok (k : nat) (s : cstr) : Prop := nonzero s /\ (length s <= k)%nat.

Lemma text_ok_app j k s t : text_ok j s -> text_ok k t -> text_ok (j + k) (s ++ t).
Proof. intros [H1 H2] [H3 H4]. split; [by apply Forall_app|rewrite length_app; lia]. Qed.

Lemma text_ok_weaken j k s : text_ok j s -> (j <= k)%nat -> text_ok k s.
Proof. intros [H1 H2] H. split; [done|lia]. Qed.

Lemma text_ok_take k n s : text_ok k s -> text_ok k (take n s).
Proof. intros [H1 H2]. split; [by apply Forall_take|rewrite length_take; lia]. Qed.

Lemma text_ok_drop k n s : text_ok k s -> text_ok k (drop n s).
Proof. intros [H1 H2]. split; [by apply Forall_drop|rewrite length_drop; lia]. Qed.

Lemma text_ok_digits fuel n : text_ok fuel (dec_digits fuel n).
Proof.
  revert n; induction fuel as [|fuel IH]; intros n; cbn [dec_digits]; [by split; [constructor|]|].
  replace (S fuel) with (fuel + 1)%nat by lia. apply text_ok_app.
  - destruct (_ <? _); [split; [constructor|cbn; lia]|done].
  - pose proof (Z.mod_pos_bound n 10). split; [|done]. repeat constructor. lia.
Qed.

Lemma text_ok_fmt_u n : text_ok 20 (fmt_u n).
Proof. apply text_ok_digits. Qed.

Lemma text_ok_pad w n : text_ok (w + 20) (pad w n).
Proof.
  unfold pad. apply text_ok_app; [|apply text_ok_fmt_u]. split; [by apply Forall_replicate|]. rewrite length_replicate. lia.
Qed.

Lemma text_ok_strip k s : text_ok k s -> text_ok k (strip_zeros s).
Proof.
  revert k; induction s as [|c s IH]; intros k [H1 H2]; [done|]. apply Forall_cons in H1 as [Hc H1]. cbn [length] in H2.
  destruct k as [|k]; [lia|]. destruct (IH k ltac:(split; [done|lia])) as [H3 H4].
  cbn [strip_zeros foldr]. fold (strip_zeros s). destruct (strip_zeros s) as [|c' s'].
  - destruct (c =? 48); (split; [repeat constructor; done|cbn; lia]).
  - split; [by constructor|cbn [length] in *; lia].
Qed.

Lemma text_ok_dot k s : text_ok k s -> text_ok (S k) (dot s).
Proof. intros [H1 H2]. destruct s as [|c s]; [split; [constructor|cbn; lia]|]. split; [by constructor|cbn in *; lia]. Qed.

Lemma text_ok_g17 v : text_ok 120 (fmt_g17 v).
Proof.
  assert (Hs : forall s : bool, text_ok 1 (if s then [45] else [])) by (intros []; split; [by repeat constructor|done|constructor|cbn; lia]).
  destruct v as [s|s| |s m e]; cbn [fmt_g17].
  1, 2: eapply text_ok_weaken; [apply text_ok_app; [apply Hs|split; [by repeat constructor|done]]|cbn; lia].
  1: split; [by repeat constructor|cbn; lia].
  destruct (if 0 <=? e then _ else _) as [n d]. destruct (digits17 n d) as [c x].
  eapply text_ok_weaken; [apply text_ok_app; [apply Hs|]|]. 2: instantiate (1 := 119%nat); lia.
  pose proof (text_ok_pad 17 c) as Hp. destruct (_ || _) eqn:E1; [|destruct (Z.leb_spec 0 x)].
  - eapply text_ok_weaken; [apply text_ok_app; [apply text_ok_take, Hp|apply text_ok_app; [apply text_ok_dot, text_ok_strip, text_ok_drop, Hp|]]|].
    + instantiate (1 := 24%nat). apply (text_ok_app 2 22); [|apply text_ok_pad]. split; [|done]. destruct (x <? 0); by repeat constructor.
    + lia.
  - eapply text_ok_weaken; [apply text_ok_app; [apply text_ok_take, Hp|apply text_ok_dot, text_ok_strip, text_ok_drop, Hp]|lia].
  - eapply text_ok_weaken; [apply text_ok_app; [split; [by repeat constructor|by cbn]|apply text_ok_dot, text_ok_app; [|apply text_ok_strip, Hp]]|].
    + instantiate (1 := 4%nat). split; [by apply Forall_replicate|]. rewrite length_replicate. lia.
    + lia.
Qed.

Lemma text_ok_lit s : forallb (fun c => negb (c =? 0)) s = true -> text_ok (length s) s.
Proof.
  intros H. split; [|done]. apply Forall_forall. intros c Hc. rewrite forallb_forall in H.
  specialize (H c ltac:(by apply list_elem_of_In)). lia.
Qed.

Lemma text_ok_concat k l : Forall (text_ok k) l -> nonzero (concat l).
Proof. induction 1 as [|s l [Hs _] _ IH]; [constructor|]. cbn [concat]. by apply Forall_app. Qed.

(** Bounds for texts made of pieces: [text_bound] splits at the appends, and
    the lemmas of the database [text] give the bounds of the pieces. *)
Create HintDb text.
#[export] Hint Resolve text_ok_fmt_u text_ok_pad text_ok_g17 : text.
Ltac text_pieces :=
  lazymatch goal with
  | |- text_ok _ (_ ++ _) => apply text_ok_app; [text_pieces|text_pieces]
  | |- _ => first [solve [eauto 4 with text] | apply text_ok_lit; vm_compute; reflexivity]
  end.
