(* ===== verification/Metrics.v ===== *)
(** * Metrics: utils/observability/unified_metrics.c

    The registry of modules and their metrics, the counts it keeps, and the
    exports as Prometheus text and as JSON.  An array with its count is the list
    of the entries before the count.  Each operation holds the mutex, which is
    recursive, and is one step; [now] is what the clock answers, [pid] the
    process, [mtx_ok] whether the mutex could be made. *)
From S2P Require Import Prelude CLib Decimal Keyed OutBuf.

Definition UM_MAX_MODULES : nat := 32.
Definition UM_MAX_METRICS_PER_MOD : nat := 256.
Definition UM_MODULE_NAME_LEN : nat := 32.
Definition UM_METRIC_NAME_LEN : nat := 128.

(** The first buffer of an export. *)
Definition EXPORT_SIZE : nat := Z.to_nat 8192.

(** ** Data *)

(** A type is any integer: what is outside the enumeration is untyped. *)
Definition UM_TYPE_COUNTER : Z := 0.
Definition UM_TYPE_GAUGE : Z := 1.
Definition UM_TYPE_HISTOGRAM : Z := 2.
Definition UM_TYPE_SUMMARY : Z := 3.

Record um_metric_entry_t := Entry {
  e_name : cstr;
  help : cstr;
  e_type : Z;
  labels : cstr;
  value : spec_float;
  sum : spec_float;
  count : Z;
  timestamp_ms : Z;
}.

Record um_module_metrics_t := Module_ {
  module_name : cstr;
  instance_id : cstr;
  metrics : list um_metric_entry_t;
  active : bool;
}.

Record um_config_t := UmConfig {
  service_name : cstr;
  scrape_interval_ms : Z;
  retention_ms : Z;
  enable_default_metrics : bool;
}.

Record um_stats_t := Stats {
  total_registrations : Z;
  total_exports : Z;
  total_increments : Z;
  total_updates : Z;
  active_modules : Z;
  total_metrics : Z;
}.

Record um := Um {
  config : um_config_t;
  modules : list um_module_metrics_t;
  stats : um_stats_t;
  initialized : bool;
}.

Definition set_modules (l : list um_module_metrics_t) (g : um) : um := Um (config g) l (stats g) (initialized g).
Definition set_stats (s : um_stats_t) (g : um) : um := Um (config g) (modules g) s (initialized g).
Definition set_metrics (l : list um_metric_entry_t) (m : um_module_metrics_t) : um_module_metrics_t :=
  Module_ (module_name m) (instance_id m) l (active m).

(** What [safe_strcpy] leaves in an array of [size] bytes. *)
Definition fit (size : nat) (s : cstr) : cstr := take (size - 1) s.

Definition find_module (name : cstr) (g : um) : option nat :=
  index_of (fun m => bool_decide (module_name m = name)) (modules g).
Definition find_metric (m : um_module_metrics_t) (name : cstr) : option nat :=
  index_of (fun e => bool_decide (e_name e = name)) (metrics m).

Definition metric_type_string (type : Z) : cstr :=
  if type =? UM_TYPE_COUNTER then cs "counter" else if type =? UM_TYPE_GAUGE then cs "gauge"
  else if type =? UM_TYPE_HISTOGRAM then cs "histogram" else if type =? UM_TYPE_SUMMARY then cs "summary" else cs "untyped".

Definition um_create_default_config : um_config_t := UmConfig (cs "agentrt") 15000 300000 true.

(** ** Registration *)

Definition no_stats : um_stats_t := Stats 0 0 0 0 0 0.
Definition set_active_modules (n : Z) (s : um_stats_t) : um_stats_t :=
  Stats (total_registrations s) (total_exports s) (total_increments s) (total_updates s) n (total_metrics s).

Definition new_module (pid : Z) (name : cstr) (inst : option cstr) : um_module_metrics_t :=
  Module_ (fit UM_MODULE_NAME_LEN name)
    (match inst with Some i => fit 32 i | None => snprintf_into 32 [] (fmt_u (u32 pid)) end) [] true.

(** Registering in a collector that is initialised. *)
Definition register_module (pid : Z) (name : cstr) (inst : option cstr) (g : um) : Z * um :=
  match find_module name g with
  | Some _ => (0, g)
  | None =>
      if (UM_MAX_MODULES <=? length (modules g))%nat then (AIRY_ERR_OVERFLOW, g)
      else
        let l := modules g ++ [new_module pid name inst] in
        (0, set_stats (set_active_modules (Z.of_nat (length l)) (stats g)) (set_modules l g))
  end.

Definition new_entry (name : cstr) (type : Z) (hlp lbl : option cstr) (now : Z) : um_metric_entry_t :=
  Entry (fit UM_METRIC_NAME_LEN name) (fit 256 (default [] hlp)) type (fit 256 (default [] lbl))
    (S754_zero false) (S754_zero false) 0 now.

Definition count_metrics (l : list um_module_metrics_t) : Z :=
  foldl (fun a m => u32 (a + Z.of_nat (length (metrics m)))) 0 l.

Definition registered (s : um_stats_t) (total : Z) : um_stats_t :=
  Stats (u64 (total_registrations s + 1)) (total_exports s) (total_increments s) (total_updates s) (active_modules s) total.

Definition register_metric (pid now : Z) (mname name : cstr) (type : Z) (hlp lbl : option cstr) (g : um) : Z * um :=
  let g := match find_module mname g with Some _ => g | None => (register_module pid mname None g).2 end in
  match find_module mname g with
  | None => (AIRY_ERR_NOT_FOUND, g)
  | Some i =>
      match modules g !! i with
      | None => (AIRY_ERR_NOT_FOUND, g)
      | Some m =>
          match find_metric m name with
          | Some _ => (0, g)
          | None =>
              if (UM_MAX_METRICS_PER_MOD <=? length (metrics m))%nat then (AIRY_ERR_OVERFLOW, g)
              else
                let l := <[i := set_metrics (metrics m ++ [new_entry name type hlp lbl now]) m]> (modules g) in
                (0, set_stats (registered (stats g) (count_metrics l)) (set_modules l g))
          end
      end
  end.

(** The ten default metrics: [clk k] is the clock's answer for number [k]. *)
Definition default_metrics : list (cstr * cstr * Z * cstr * option cstr) :=
  let q := [34] in
  let mp := Some (cs "method=" ++ q ++ q ++ cs ",path=" ++ q ++ q) in
  [ (cs "system", cs "process_cpu_seconds", UM_TYPE_COUNTER, cs "Total CPU seconds used by the process", None);
    (cs "system", cs "process_memory_bytes", UM_TYPE_GAUGE, cs "Process memory usage in bytes", None);
    (cs "system", cs "process_open_fds", UM_TYPE_GAUGE, cs "Number of open file descriptors", None);
    (cs "system", cs "process_threads", UM_TYPE_GAUGE, cs "Number of threads", None);
    (cs "system", cs "process_uptime_seconds", UM_TYPE_COUNTER, cs "Process uptime in seconds", None);
    (cs "airy_runtime", cs "requests_total", UM_TYPE_COUNTER, cs "Total number of requests processed", mp);
    (cs "airy_runtime", cs "request_duration_seconds", UM_TYPE_SUMMARY, cs "Request duration in seconds", mp);
    (cs "airy_runtime", cs "errors_total", UM_TYPE_COUNTER, cs "Total number of errors", Some (cs "type=" ++ q ++ q));
    (cs "airy_runtime", cs "active_sessions", UM_TYPE_GAUGE, cs "Number of active sessions", None);
    (cs "airy_runtime", cs "active_connections", UM_TYPE_GAUGE, cs "Number of active connections", None) ].

Fixpoint register_metrics (pid : Z) (clk : nat -> Z) (k : nat) (l : list (cstr * cstr * Z * cstr * option cstr)) (g : um) : um :=
  match l with
  | [] => g
  | (m, n, t, h, lb) :: l' => register_metrics pid clk (S k) l' (register_metric pid (clk k) m n t (Some h) lb g).2
  end.

Definition um_register_default_metrics (pid : Z) (clk : nat -> Z) (g : um) : Z * um :=
  let g := (register_module pid (cs "system") (Some (cs "default")) g).2 in
  let g := register_metrics pid clk 0 (take 5 default_metrics) g in
  let g := (register_module pid (cs "airy_runtime") (Some (cs "default")) g).2 in
  (0, register_metrics pid clk 5 (drop 5 default_metrics) g).

(** ** Life cycle *)

Definition um_init (mtx_ok : bool) (pid : Z) (clk : nat -> Z) (cfg : option um_config_t) (g : um) : Z * um :=
  if initialized g then (0, g)
  else
    let c := default um_create_default_config cfg in
    if negb mtx_ok then (AIRY_ERR_UNKNOWN, Um c (modules g) (stats g) (initialized g))
    else
      let g := Um c [] no_stats true in
      (0, if enable_default_metrics c then (um_register_default_metrics pid clk g).2 else g).

Definition um_shutdown (g : um) : um :=
  if initialized g then Um (config g) (modules g) (stats g) false else g.

Definition um_is_initialized (g : um) : bool := initialized g.

(** The surroundings of an operation: the clock answers [clk 0] first. *)
Record world := World { w_pid : Z; w_clk : nat -> Z; w_mtx_ok : bool }.

Definition ensure_init (w : world) (g : um) : um :=
  if initialized g then g else (um_init (w_mtx_ok w) (w_pid w) (fun k => w_clk w (S k)) None g).2.

Definition um_register_module (w : world) (name inst : option cstr) (g : um) : Z * um :=
  match name with
  | None => (AIRY_ERR_INVALID_PARAM, g)
  | Some n => register_module (w_pid w) n inst (ensure_init w g)
  end.

Definition um_register_metric (w : world) (mname name : option cstr) (type : Z) (hlp lbl : option cstr) (g : um) : Z * um :=
  match mname, name with
  | Some m, Some n => register_metric (w_pid w) (w_clk w 0%nat) m n type hlp lbl (ensure_init w g)
  | _, _ => (AIRY_ERR_INVALID_PARAM, g)
  end.

Definition unregistered (s : um_stats_t) (n : Z) (total : Z) : um_stats_t :=
  Stats (total_registrations s) (total_exports s) (total_increments s) (total_updates s) n total.

Definition um_unregister_module (name : option cstr) (g : um) : Z * um :=
  match name with
  | None => (AIRY_ERR_INVALID_PARAM, g)
  | Some n =>
      match find_module n g with
      | None => (AIRY_ERR_NOT_FOUND, g)
      | Some i =>
          match modules g !! i with
          | None => (AIRY_ERR_NOT_FOUND, g)
          | Some m =>
              let l := swap_remove i (modules g) in
              (0, set_stats (unregistered (stats g) (Z.of_nat (length l))
                               (u32 (total_metrics (stats g) - Z.of_nat (length (metrics m))))) (set_modules l g))
          end
      end
  end.

(** ** Updates *)

Definition dadd (x y : spec_float) : spec_float := SFadd 53 1024 x y.

Definition bump (v now : Z) (e : um_metric_entry_t) : um_metric_entry_t :=
  Entry (e_name e) (help e) (e_type e) (labels e) (dadd (value e) (of_int v)) (sum e) (u64 (count e + v)) now.

Definition assign (v : spec_float) (now : Z) (e : um_metric_entry_t) : um_metric_entry_t :=
  Entry (e_name e) (help e) (e_type e) (labels e) v (sum e) (count e) now.

Definition observe (v : spec_float) (now : Z) (e : um_metric_entry_t) : um_metric_entry_t :=
  let s := dadd (sum e) v in
  let n := u64 (count e + 1) in
  Entry (e_name e) (help e) (e_type e) (labels e) (if 0 <? n then SFdiv 53 1024 s (of_int n) else of_int 0) s n now.

(** The guards that the three updates share, and the entry they change. *)
Definition update (f : um_metric_entry_t -> um_metric_entry_t) (h : um_stats_t -> um_stats_t) (mname name : option cstr) (g : um)
    : Z * um :=
  match mname, name with
  | Some mn, Some n =>
      match find_module mn g ≫= fun i => m ← modules g !! i; Some (i, m) with
      | None => (AIRY_ERR_NOT_FOUND, g)
      | Some (i, m) =>
          match find_metric m n with
          | None => (AIRY_ERR_NOT_FOUND, g)
          | Some j => (0, set_stats (h (stats g)) (set_modules (<[i := set_metrics (alter f j (metrics m)) m]> (modules g)) g))
          end
      end
  | _, _ => (AIRY_ERR_INVALID_PARAM, g)
  end.

Definition incremented (s : um_stats_t) : um_stats_t :=
  Stats (total_registrations s) (total_exports s) (u64 (total_increments s + 1)) (total_updates s) (active_modules s) (total_metrics s).
Definition updated (s : um_stats_t) : um_stats_t :=
  Stats (total_registrations s) (total_exports s) (total_increments s) (u64 (total_updates s + 1)) (active_modules s) (total_metrics s).

Definition um_increment (now : Z) (mname name : option cstr) (v : Z) (g : um) : Z * um := update (bump v now) incremented mname name g.
Definition um_gauge_set (now : Z) (mname name : option cstr) (v : spec_float) (g : um) : Z * um := update (assign v now) updated mname name g.
Definition um_observe (now : Z) (mname name : option cstr) (v : spec_float) (g : um) : Z * um := update (observe v now) updated mname name g.

Definition um_get_stats (present : bool) (g : um) : Z * option um_stats_t :=
  if present then (0, Some (stats g)) else (AIRY_ERR_INVALID_PARAM, None).

(** [strtok_r] with blanks and tabs: the next token and what follows the byte
    that ends it. *)
Definition is_blank (c : Z) : bool := (c =? 32) || (c =? 9).
Fixpoint skip_blanks (s : cstr) : cstr :=
  match s with c :: s' => if is_blank c then skip_blanks s' else s | [] => [] end.
Fixpoint span_word (s : cstr) : cstr * cstr :=
  match s with
  | c :: s' => if is_blank c then ([], s') else let '(t, r) := span_word s' in (c :: t, r)
  | [] => ([], [])
  end.
Definition strtok (s : cstr) : option (cstr * cstr) :=
  match skip_blanks s with [] => None | s' => Some (span_word s') end.

(** The second field of the first line of /proc/self/statm ([statm] is the line
    that [fgets] read, [None] when there is none). *)
Definition statm_rss (statm : option cstr) : option Z :=
  line ← statm;
  let rest := match strtok line with Some (_, r) => r | None => [] end in
  '(tok, _) ← strtok rest; Some (strtoll tok 10).1.

Definition um_update_default_metrics (clk : nat -> Z) (statm : option cstr) (g : um) : um :=
  if negb (initialized g) then g
  else
    let g := match statm_rss statm with
             | Some rss => (um_gauge_set (clk 0%nat) (Some (cs "system")) (Some (cs "process_memory_bytes")) (of_int (rss * 4096)) g).2
             | None => g
             end in
    (um_increment (clk 1%nat) (Some (cs "system")) (Some (cs "process_uptime_seconds")) 1 g).2.

(** ** Exports *)

(** What [sanitize_prom_name] writes into [size] bytes. *)
Fixpoint sanitize_loop (s : cstr) (room : nat) : cstr :=
  match s, room with
  | c :: s', S room' =>
      if ((97 <=? c) && (c <=? 122)) || ((65 <=? c) && (c <=? 90)) || ((48 <=? c) && (c <=? 57)) || (c =? 95)
      then c :: sanitize_loop s' room'
      else if (c =? 46) || (c =? 45) || (c =? 32) then 95 :: sanitize_loop s' room' else sanitize_loop s' room
  | _, _ => []
  end.

Definition sanitize_prom_name (s : cstr) (size : nat) : option cstr :=
  match sanitize_loop s (size - 1) with [] => None | out => Some out end.

Definition quoted (s : cstr) : cstr := [34] ++ s ++ [34].
Definition where_ (m : um_module_metrics_t) : cstr :=
  cs "module=" ++ quoted (module_name m) ++ cs ",instance=" ++ quoted (instance_id m) ++ cs "}".

(** The texts that one metric appends, in order. *)
Definition entry_pieces (m : um_module_metrics_t) (e : um_metric_entry_t) : list cstr :=
  match sanitize_prom_name (e_name e) 256 with
  | None => []
  | Some safe =>
      let pn := snprintf_into 384 [] (cs "airy_" ++ module_name m ++ cs "_" ++ safe) in
      (match help e with [] => [] | h => [cs "# HELP " ++ pn ++ cs " " ++ h ++ [10]] end) ++
      [cs "# TYPE " ++ pn ++ cs " " ++ metric_type_string (e_type e) ++ [10]] ++
      [match labels e with [] => pn ++ cs "{" ++ where_ m | l => pn ++ cs "{" ++ l ++ cs "," ++ where_ m end] ++
      (if (e_type e =? UM_TYPE_COUNTER) || (e_type e =? UM_TYPE_GAUGE) then [cs " " ++ fmt_g17 (value e) ++ [10]]
       else if (e_type e =? UM_TYPE_HISTOGRAM) || (e_type e =? UM_TYPE_SUMMARY) then
         [cs "_sum " ++ fmt_g17 (sum e) ++ [10] ++ pn ++ cs "_count{" ++ where_ m ++ cs " " ++ fmt_u (count e) ++ [10]]
       else [])
  end.

Definition module_pieces (only : option cstr) (m : um_module_metrics_t) : list cstr :=
  if match only with Some n => negb (bool_decide (module_name m = n)) | None => false end then []
  else concat (map (entry_pieces m) (metrics m)).

Definition prom_pieces (only : option cstr) (g : um) : list cstr := concat (map (module_pieces only) (modules g)).

(** The answers of an export: a buffer, NULL, or a write outside a buffer. *)
Inductive answer := Buffer (m : mem) | Null | Overrun.

(** [PAPPEND]: [grant k] is the allocator's answer to request number [k], and
    a text that does not fit is written again into a buffer twice as large. *)
Definition PAPPEND (grant : nat -> bool) (k : nat) (m : mem) (pos : nat) (text : cstr) : answer * nat * nat :=
  let avail := (length m - pos)%nat in
  match snprintf_at pos (Z.of_nat avail) text m with
  | None => (Overrun, k, pos)
  | Some m' =>
      if (length text <? avail)%nat then (Buffer m', k, (pos + length text)%nat)
      else if negb (grant k) then (Null, S k, pos)
      else
        let nb := take pos m' ++ replicate (2 * length m - pos) None in
        let avail' := (2 * length m - pos)%nat in
        match snprintf_at pos (Z.of_nat avail') text nb with
        | None => (Overrun, S k, pos)
        | Some nb' => if (avail' <=? length text)%nat then (Null, S k, pos) else (Buffer nb', S k, (pos + length text)%nat)
        end
  end.

Fixpoint pappends (grant : nat -> bool) (k : nat) (m : mem) (pos : nat) (texts : list cstr) : answer :=
  match texts with
  | [] => Buffer m
  | t :: texts' =>
      match PAPPEND grant k m pos t with
      | (Buffer m', k', pos') => pappends grant k' m' pos' texts'
      | (a, _, _) => a
      end
  end.

Definition exported (s : um_stats_t) : um_stats_t :=
  Stats (total_registrations s) (u64 (total_exports s + 1)) (total_increments s) (total_updates s) (active_modules s) (total_metrics s).

Definition um_export_prometheus_module (grant : nat -> bool) (only : option cstr) (g : um) : answer * um :=
  if negb (initialized g) then (Null, g)
  else if negb (grant 0%nat) then (Null, g)
  else match pappends grant 1 (fresh_buf EXPORT_SIZE) 0 (prom_pieces only g) with
       | Buffer m => (Buffer m, set_stats (exported (stats g)) g)
       | a => (a, g)
       end.

Definition um_export_prometheus (grant : nat -> bool) (g : um) : answer * um := um_export_prometheus_module grant None g.

Definition json_entry (e : um_metric_entry_t) : cstr :=
  quoted (e_name e) ++ cs ":{" ++ quoted (cs "type") ++ cs ":" ++ quoted (metric_type_string (e_type e)) ++ cs ","
    ++ quoted (cs "value") ++ cs ":" ++ fmt_g17 (value e) ++ cs "," ++ quoted (cs "count") ++ cs ":" ++ fmt_u (count e) ++ cs "}".

(** Pieces with a comma before each but the first. *)
Fixpoint commas (first : bool) (l : list (list cstr)) : list cstr :=
  match l with [] => [] | p :: l' => (if first then [] else [cs ","]) ++ p ++ commas false l' end.

Definition json_module (m : um_module_metrics_t) : list cstr :=
  [quoted (module_name m) ++ cs ":{"] ++ commas true (map (fun e => [json_entry e]) (metrics m)) ++ [cs "}"].

Definition json_pieces (g : um) : list cstr :=
  [cs "{" ++ quoted (cs "service") ++ cs ":" ++ quoted (service_name (config g)) ++ cs "," ++ quoted (cs "modules") ++ cs ":{"]
  ++ commas true (map json_module (modules g)) ++ [cs "}}"].

Definition um_export_json (granted : bool) (g : um) : answer * um :=
  if negb (initialized g) then (Null, g)
  else if negb granted then (Null, g)
  else match appends EXPORT_SIZE (fresh_buf EXPORT_SIZE, 0%nat) (json_pieces g) with
       | Some (m, _) => (Buffer m, set_stats (exported (stats g)) g)
       | None => (Overrun, g)
       end.

(** ** The registry as a map of maps *)

Definition entry_map (l : list um_metric_entry_t) : gmap cstr um_metric_entry_t := kmap e_name id l.
Definition module_val (m : um_module_metrics_t) : cstr * gmap cstr um_metric_entry_t := (instance_id m, entry_map (metrics m)).
Definition module_map (l : list um_module_metrics_t) : gmap cstr (cstr * gmap cstr um_metric_entry_t) := kmap module_name module_val l.

Inductive um_op :=
  | RegModule (n : cstr) (inst : option cstr)
  | Unregister (n : cstr)
  | RegMetric (m n : cstr) (type : Z) (hlp lbl : option cstr)
  | Increment (m n : cstr) (v : Z)
  | GaugeSet (m n : cstr) (v : spec_float)
  | Observe (m n : cstr) (v : spec_float)
  | GetStats.

(** The code, and the numbers of modules and of metrics that a query answers. *)
Definition um_step (w : world) (o : um_op) (g : um) : Z * option (Z * Z) * um :=
  let plain r := (r.1, None, r.2) in
  let now := w_clk w 0%nat in
  match o with
  | RegModule n inst => plain (um_register_module w (Some n) inst g)
  | Unregister n => plain (um_unregister_module (Some n) g)
  | RegMetric m n t h l => plain (um_register_metric w (Some m) (Some n) t h l g)
  | Increment m n v => plain (um_increment now (Some m) (Some n) v g)
  | GaugeSet m n v => plain (um_gauge_set now (Some m) (Some n) v g)
  | Observe m n v => plain (um_observe now (Some m) (Some n) v g)
  | GetStats => let '(c, s) := um_get_stats true g in (c, (fun s => (active_modules s, total_metrics s)) <$> s, g)
  end.

Abbreviation registry := (gmap cstr (cstr * gmap cstr um_metric_entry_t)).

Definition total (M : registry) : nat := sum_list_with (fun kv => size kv.2.2) (map_to_list M).

Definition spec_module (w : world) (n : cstr) (inst : option cstr) (M : registry) : Z * registry :=
  match M !! n with
  | Some _ => (0, M)
  | None => if (UM_MAX_MODULES <=? size M)%nat then (AIRY_ERR_OVERFLOW, M)
            else (0, <[n := module_val (new_module (w_pid w) n inst)]> M)
  end.

Definition spec_metric (w : world) (m n : cstr) (t : Z) (h l : option cstr) (M : registry) : Z * registry :=
  let M := (spec_module w m None M).2 in
  match M !! m with
  | None => (AIRY_ERR_NOT_FOUND, M)
  | Some (inst, E) =>
      if bool_decide (is_Some (E !! n)) then (0, M)
      else if (UM_MAX_METRICS_PER_MOD <=? size E)%nat then (AIRY_ERR_OVERFLOW, M)
      else (0, <[m := (inst, <[n := new_entry n t h l (w_clk w 0%nat)]> E)]> M)
  end.

Definition spec_update (f : um_metric_entry_t -> um_metric_entry_t) (m n : cstr) (M : registry) : Z * registry :=
  match M !! m with
  | Some (inst, E) => match E !! n with
                      | Some e => (0, <[m := (inst, <[n := f e]> E)]> M)
                      | None => (AIRY_ERR_NOT_FOUND, M)
                      end
  | None => (AIRY_ERR_NOT_FOUND, M)
  end.

Definition spec_step (w : world) (o : um_op) (M : registry) : Z * option (Z * Z) * registry :=
  let plain r := (r.1, None, r.2) in
  let now := w_clk w 0%nat in
  match o with
  | RegModule n inst => plain (spec_module w n inst M)
  | Unregister n => plain (match M !! n with Some _ => (0, delete n M) | None => (AIRY_ERR_NOT_FOUND, M) end)
  | RegMetric m n t h l => plain (spec_metric w m n t h l M)
  | Increment m n v => plain (spec_update (bump v now) m n M)
  | GaugeSet m n v => plain (spec_update (assign v now) m n M)
  | Observe m n v => plain (spec_update (observe v now) m n M)
  | GetStats => (0, Some (Z.of_nat (size M), Z.of_nat (total M)), M)
  end.

(** Names that are stored whole. *)
Definition op_fits (o : um_op) : Prop :=
  match o with
  | RegModule n _ => (length n < UM_MODULE_NAME_LEN)%nat
  | RegMetric m n _ _ _ => (length m < UM_MODULE_NAME_LEN)%nat /\ (length n < UM_METRIC_NAME_LEN)%nat
  | _ => True
  end.

Definition msum (l : list um_module_metrics_t) : nat := sum_list_with (fun m => length (metrics m)) l.

Record module_ok (m : um_module_metrics_t) : Prop := ModuleOk {
  mo_distinct : keys_distinct e_name (metrics m);
  mo_room : (length (metrics m) <= UM_MAX_METRICS_PER_MOD)%nat;
}.

Record refines (g : um) (M : registry) : Prop := Refines {
  rf_init : initialized g = true;
  rf_distinct : keys_distinct module_name (modules g);
  rf_modules : Forall module_ok (modules g);
  rf_map : module_map (modules g) = M;
  rf_room : (length (modules g) <= UM_MAX_MODULES)%nat;
  rf_active : active_modules (stats g) = Z.of_nat (length (modules g));
  rf_total : total_metrics (stats g) = Z.of_nat (msum (modules g));
}.

Lemma fit_short size n : (length n < size)%nat -> fit size n = n.
Proof. intros H. unfold fit. apply take_ge. lia. Qed.

(** *** Sums of lengths *)

Lemma msum_perm l l' : l ≡ₚ l' -> msum l = msum l'.
Proof. unfold msum. induction 1; cbn; lia. Qed.

Lemma msum_snoc l m : msum (l ++ [m]) = (msum l + length (metrics m))%nat.
Proof. rewrite (msum_perm _ (m :: l)) by (by rewrite Permutation_app_comm). unfold msum. cbn. lia. Qed.

Lemma msum_insert (l : list um_module_metrics_t) i m m' :
  l !! i = Some m -> (msum (<[i := m']> l) + length (metrics m) = msum l + length (metrics m'))%nat.
Proof.
  revert i; induction l as [|x l IH]; intros [|i] Hi; try done.
  - injection Hi as ->. unfold msum. cbn. lia.
  - specialize (IH i Hi). change (msum (<[S i := m']> (x :: l))) with (length (metrics x) + msum (<[i := m']> l))%nat.
    change (msum (x :: l)) with (length (metrics x) + msum l)%nat. lia.
Qed.

Lemma msum_bound l : Forall module_ok l -> (msum l <= UM_MAX_METRICS_PER_MOD * length l)%nat.
Proof. induction 1 as [|m l [_ H] Hl IH]; [done|]. unfold msum in *. cbn [length sum_list_with]. rewrite Nat.mul_succ_r. lia. Qed.

Lemma count_metrics_msum l : Forall module_ok l -> (length l <= UM_MAX_MODULES)%nat -> count_metrics l = Z.of_nat (msum l).
Proof.
  intros Hl Hn. unfold count_metrics. pose proof (msum_bound l Hl) as Hb. unfold UM_MAX_METRICS_PER_MOD, UM_MAX_MODULES in *.
  assert (H : forall a, 0 <= a -> a + Z.of_nat (msum l) < 2 ^ 32 ->
    foldl (fun a m => u32 (a + Z.of_nat (length (metrics m)))) a l = a + Z.of_nat (msum l)).
  { clear. induction l as [|m l IH]; intros a Ha Hs; cbn in *; [unfold msum in *; cbn in *; lia|].
    unfold msum in *. cbn in Hs |- *. rewrite u32_small by lia. rewrite IH by lia. lia. }
  apply H; lia.
Qed.

Lemma sum_list_with_perm {A} (f : A -> nat) l l' : l ≡ₚ l' -> sum_list_with f l = sum_list_with f l'.
Proof. induction 1; cbn; lia. Qed.

Lemma total_msum l : keys_distinct module_name l -> Forall module_ok l -> total (module_map l) = msum l.
Proof.
  intros Hd Hl. unfold total, module_map, kmap. rewrite (sum_list_with_perm _ _ ((fun x => (module_name x, module_val x)) <$> l)).
  2: { apply map_to_list_to_map. by rewrite kmap_fst. }
  clear Hd. unfold msum. induction Hl as [|m l [Hm _] Hl IH]; [done|]. cbn. rewrite IH. unfold entry_map. by rewrite kmap_size.
Qed.

(** *** Each operation *)

Lemma find_module_map g M n :
  refines g M ->
  match find_module n g with
  | Some i => exists m, modules g !! i = Some m /\ module_name m = n /\ M !! n = Some (module_val m) /\ module_ok m
  | None => (n ∉ module_name <$> modules g) /\ M !! n = None
  end.
Proof.
  intros H. pose proof (index_of_key module_name module_val (modules g) n (rf_distinct _ _ H)) as Hi.
  unfold find_module. rewrite <- (rf_map _ _ H). destruct (index_of _ _) as [i|]; [|done].
  destruct Hi as (m & H1 & H2 & H3). exists m. split_and!; try done. by eapply Forall_lookup_1; [apply (rf_modules _ _ H)|].
Qed.

Lemma find_metric_map m n :
  module_ok m ->
  match find_metric m n with
  | Some j => exists e, metrics m !! j = Some e /\ e_name e = n /\ entry_map (metrics m) !! n = Some e
  | None => (n ∉ e_name <$> metrics m) /\ entry_map (metrics m) !! n = None
  end.
Proof. intros H. exact (index_of_key e_name id (metrics m) n (mo_distinct _ H)). Qed.

Lemma refines_size g M : refines g M -> size M = length (modules g).
Proof. intros H. rewrite <- (rf_map _ _ H). apply kmap_size, H. Qed.

Lemma replace_module g M i m m' s :
  refines g M -> modules g !! i = Some m -> module_name m' = module_name m -> module_ok m' ->
  active_modules s = active_modules (stats g) -> total_metrics s = Z.of_nat (msum (<[i := m']> (modules g))) ->
  refines (set_stats s (set_modules (<[i := m']> (modules g)) g)) (<[module_name m := module_val m']> M).
Proof.
  intros H Hi Hn Hok Ha Ht. destruct H as [H1 H2 H3 H4 H5 H6 H7]. constructor; cbn [initialized modules stats set_stats set_modules].
  - done.
  - by eapply keys_distinct_insert.
  - by apply Forall_insert.
  - unfold module_map. rewrite (kmap_insert module_name module_val _ _ m) by done. by rewrite <- H4.
  - by rewrite length_insert.
  - by rewrite length_insert, Ha.
  - done.
Qed.

Lemma register_module_refines w n inst g M :
  refines g M -> (length n < UM_MODULE_NAME_LEN)%nat ->
  (register_module (w_pid w) n inst g).1 = (spec_module w n inst M).1 /\
  refines (register_module (w_pid w) n inst g).2 (spec_module w n inst M).2.
Proof.
  intros H Hn. unfold register_module, spec_module. pose proof (find_module_map g M n H) as Hf. destruct (find_module n g) as [i|].
  { by destruct Hf as (m & _ & _ & -> & _). }
  destruct Hf as [Hni ->]. rewrite (refines_size g M H). destruct (Nat.leb_spec UM_MAX_MODULES (length (modules g))); [done|].
  assert (Hnm : module_name (new_module (w_pid w) n inst) = n) by (by apply fit_short).
  split; [done|]. destruct H as [H1 H2 H3 H4 H5 H6 H7]. constructor; cbn [snd initialized modules stats set_stats set_modules set_active_modules active_modules total_metrics].
  - done.
  - apply keys_distinct_snoc; [done|by rewrite Hnm].
  - apply Forall_app. split; [done|]. repeat constructor.
  - unfold module_map. rewrite (kmap_snoc module_name module_val) by (rewrite ?Hnm; done). rewrite Hnm. by rewrite <- H4.
  - rewrite length_app. cbn. lia.
  - done.
  - rewrite msum_snoc. cbn. by rewrite Nat.add_0_r.
Qed.

Lemma unregister_refines n g M :
  refines g M ->
  let r := um_unregister_module (Some n) g in
  let s := match M !! n with Some _ => (0, delete n M) | None => (AIRY_ERR_NOT_FOUND, M) end in
  r.1 = s.1 /\ refines r.2 s.2.
Proof.
  intros H. unfold um_unregister_module. pose proof (find_module_map g M n H) as Hf. destruct (find_module n g) as [i|].
  2: { by destruct Hf as [_ ->]. }
  destruct Hf as (m & Hi & Hn & -> & Hok). rewrite Hi. split; [done|].
  pose proof (swap_remove_perm _ _ _ Hi) as Hp. pose proof (msum_perm _ _ Hp) as Hs. change (msum (m :: ?l)) with (length (metrics m) + msum l)%nat in Hs.
  pose proof (msum_bound _ (rf_modules _ _ H)) as Hb. destruct H as [H1 H2 H3 H4 H5 H6 H7].
  constructor; cbn [snd initialized modules stats set_stats set_modules unregistered active_modules total_metrics].
  - done.
  - by eapply keys_distinct_swap_remove.
  - rewrite Hp in H3. by apply Forall_cons in H3 as [_ H3].
  - unfold module_map. rewrite (kmap_swap_remove module_name module_val _ _ m) by done. by rewrite Hn, <- H4.
  - rewrite swap_remove_length. lia.
  - done.
  - rewrite H7. unfold UM_MAX_METRICS_PER_MOD, UM_MAX_MODULES in *. rewrite u32_small by lia. lia.
Qed.

Lemma module_ok_snoc m n t h l now :
  module_ok m -> (length n < UM_METRIC_NAME_LEN)%nat -> (n ∉ e_name <$> metrics m) -> (length (metrics m) < UM_MAX_METRICS_PER_MOD)%nat ->
  module_ok (set_metrics (metrics m ++ [new_entry n t h l now]) m) /\
  entry_map (metrics m ++ [new_entry n t h l now]) = <[n := new_entry n t h l now]> (entry_map (metrics m)).
Proof.
  intros [H1 H2] Hn Hni Hr. assert (Hnm : e_name (new_entry n t h l now) = n) by (by apply fit_short). split.
  - constructor; cbn [metrics set_metrics]; [apply keys_distinct_snoc; [done|by rewrite Hnm]|]. rewrite length_app. cbn. lia.
  - unfold entry_map. rewrite (kmap_snoc e_name id) by (rewrite ?Hnm; done). by rewrite Hnm.
Qed.

Lemma register_metric_refines w m n t h l g M :
  refines g M -> (length m < UM_MODULE_NAME_LEN)%nat -> (length n < UM_METRIC_NAME_LEN)%nat ->
  let r := register_metric (w_pid w) (w_clk w 0%nat) m n t h l g in
  let s := spec_metric w m n t h l M in
  r.1 = s.1 /\ refines r.2 s.2.
Proof.
  intros H Hm Hn. unfold register_metric, spec_metric. set (g1 := match find_module m g with Some _ => g | None => _ end).
  assert (H1 : refines g1 (spec_module w m None M).2).
  { unfold g1. destruct (register_module_refines w m None g M H Hm) as [_ Hr]. destruct (find_module m g) eqn:E; [|done].
    unfold register_module in Hr. by rewrite E in Hr. }
  clearbody g1. clear H. set (M1 := (spec_module w m None M).2) in *. clearbody M1. cbn zeta.
  pose proof (find_module_map g1 M1 m H1) as Hf. destruct (find_module m g1) as [i|]; [|by destruct Hf as [_ ->]].
  destruct Hf as (x & Hi & Hx & HM & Hok). rewrite Hi, HM. cbn [module_val]. pose proof (find_metric_map x n Hok) as Hg.
  destruct (find_metric x n) as [j|].
  { destruct Hg as (e & _ & _ & ->). by rewrite bool_decide_eq_true_2. }
  destruct Hg as [Hni HE]. rewrite HE, bool_decide_eq_false_2 by (by intros []).
  replace (size (entry_map (metrics x))) with (length (metrics x)) by (symmetry; apply kmap_size, Hok).
  destruct (Nat.leb_spec UM_MAX_METRICS_PER_MOD (length (metrics x))); [done|]. split; [done|]. cbn [snd].
  destruct (module_ok_snoc x n t h l (w_clk w 0%nat)) as [Hok' Hmap]; try done. rewrite <- Hmap, <- Hx.
  change (instance_id x, entry_map _) with (module_val (set_metrics (metrics x ++ [new_entry n t h l (w_clk w 0%nat)]) x)).
  apply replace_module; try done. cbn [registered total_metrics]. rewrite count_metrics_msum; [done| |].
  - apply Forall_insert; [apply H1|done].
  - rewrite length_insert. apply H1.
Qed.

Lemma um_update_refines f h m n g M :
  refines g M -> (forall e, e_name (f e) = e_name e) ->
  (forall s, active_modules (h s) = active_modules s /\ total_metrics (h s) = total_metrics s) ->
  let r := update f h (Some m) (Some n) g in
  r.1 = (spec_update f m n M).1 /\ refines r.2 (spec_update f m n M).2.
Proof.
  intros H Hf Hh. unfold update, spec_update. pose proof (find_module_map g M m H) as Hm. destruct (find_module m g) as [i|]; [|by destruct Hm as [_ ->]].
  destruct Hm as (x & Hi & Hx & -> & Hok). cbn [mbind option_bind]. rewrite Hi. cbn [mbind option_bind module_val].
  pose proof (find_metric_map x n Hok) as Hg. destruct (find_metric x n) as [j|]; [|by destruct Hg as [_ ->]].
  destruct Hg as (e & Hj & Hn & ->). split; [done|]. cbn [snd]. rewrite (alter_as_insert _ _ _ _ Hj).
  replace (<[n := f e]> (entry_map (metrics x))) with (entry_map (<[j := f e]> (metrics x))).
  2: { unfold entry_map. rewrite (kmap_insert e_name id _ _ e); [by rewrite Hn|apply Hok|done|done]. }
  rewrite <- Hx. change (instance_id x, entry_map _) with (module_val (set_metrics (<[j := f e]> (metrics x)) x)).
  destruct (Hh (stats g)) as [Ha Ht]. apply replace_module; try done.
  - constructor; cbn [metrics set_metrics]; [eapply keys_distinct_insert; [done|apply Hf|apply Hok]|rewrite length_insert; apply Hok].
  - rewrite Ht, (rf_total _ _ H). f_equal. pose proof (msum_insert (modules g) i x (set_metrics (<[j := f e]> (metrics x)) x) Hi) as Hs.
    cbn [metrics set_metrics] in Hs. rewrite length_insert in Hs. lia.
Qed.

Lemma um_step_refines w o g M :
  refines g M -> op_fits o -> (um_step w o g).1 = (spec_step w o M).1 /\ refines (um_step w o g).2 (spec_step w o M).2.
Proof.
  intros H Ho. assert (Hi : ensure_init w g = g) by (unfold ensure_init; by rewrite (rf_init _ _ H)).
  destruct o as [n inst|n|m n t h l|m n v|m n v|m n v|]; cbn [um_step spec_step fst snd um_register_module um_register_metric]; rewrite ?Hi.
  - destruct (register_module_refines w n inst g M H Ho) as [-> Hr]. done.
  - destruct (unregister_refines n g M H) as [-> Hr]. done.
  - destruct Ho as [Hm Hn]. destruct (register_metric_refines w m n t h l g M H Hm Hn) as [-> Hr]. done.
  - destruct (um_update_refines (bump v (w_clk w 0%nat)) incremented m n g M H) as [Hc Hr]; try done. unfold um_increment. by rewrite Hc.
  - destruct (um_update_refines (assign v (w_clk w 0%nat)) updated m n g M H) as [Hc Hr]; try done. unfold um_gauge_set. by rewrite Hc.
  - destruct (um_update_refines (observe v (w_clk w 0%nat)) updated m n g M H) as [Hc Hr]; try done. unfold um_observe. by rewrite Hc.
  - cbn [um_get_stats fmap option_fmap option_map fst snd]. rewrite (rf_active _ _ H), (rf_total _ _ H), (refines_size g M H).
    rewrite <- (rf_map _ _ H), total_msum by apply H. split; [done|]. rewrite (rf_map _ _ H). done.
Qed.

Fixpoint um_run (l : list (world * um_op)) (g : um) : list (Z * option (Z * Z)) * um :=
  match l with
  | [] => ([], g)
  | (w, o) :: l' => let '(r, g1) := um_step w o g in let '(rs, g2) := um_run l' g1 in (r :: rs, g2)
  end.

Fixpoint spec_run (l : list (world * um_op)) (M : registry) : list (Z * option (Z * Z)) * registry :=
  match l with
  | [] => ([], M)
  | (w, o) :: l' => let '(r, M1) := spec_step w o M in let '(rs, M2) := spec_run l' M1 in (r :: rs, M2)
  end.

Lemma um_run_refines l g M :
  refines g M -> Forall (fun p => op_fits p.2) l ->
  (um_run l g).1 = (spec_run l M).1 /\ refines (um_run l g).2 (spec_run l M).2.
Proof.
  revert g M; induction l as [|[w o] l IH]; intros g M H Hl; [done|]. apply Forall_cons in Hl as [Ho Hl]. cbn [um_run spec_run].
  destruct (um_step_refines w o g M H Ho) as [Hc Hr]. destruct (um_step w o g) as [r g1], (spec_step w o M) as [r' M1]. cbn [fst snd] in *. subst r'.
  specialize (IH g1 M1 Hr Hl). destruct (um_run l g1) as [rs g2], (spec_run l M1) as [rs' M2]. cbn [fst snd] in *. by destruct IH as [-> IH].
Qed.

(** The registrations that an initialisation makes, as operations. *)
Fixpoint metric_ops (pid : Z) (clk : nat -> Z) (k : nat) (l : list (cstr * cstr * Z * cstr * option cstr)) : list (world * um_op) :=
  match l with
  | [] => []
  | (m, n, t, h, lb) :: l' => (World pid (fun _ => clk k) true, RegMetric m n t (Some h) lb) :: metric_ops pid clk (S k) l'
  end.

Definition default_ops (pid : Z) (clk : nat -> Z) : list (world * um_op) :=
  (World pid clk true, RegModule (cs "system") (Some (cs "default"))) :: metric_ops pid clk 0 (take 5 default_metrics)
  ++ (World pid clk true, RegModule (cs "airy_runtime") (Some (cs "default"))) :: metric_ops pid clk 5 (drop 5 default_metrics).

Lemma register_metrics_run pid clk k l g :
  initialized g = true -> register_metrics pid clk k l g = (um_run (metric_ops pid clk k l) g).2.
Proof.
  revert k g; induction l as [|[[[[m n] t] h] lb] l IH]; intros k g Hg; [done|].
  cbn [register_metrics metric_ops um_run um_step um_register_metric fst snd w_pid w_clk]. unfold ensure_init. rewrite Hg.
  rewrite IH; [by destruct (um_run _ _)|]. unfold register_metric. destruct (find_module m g) eqn:E; rewrite ?E; repeat case_match; try done.
  all: unfold register_module in *; rewrite E in *; repeat case_match; done.
Qed.

Lemma um_run_app l l' g : um_run (l ++ l') g = ((um_run l g).1 ++ (um_run l' (um_run l g).2).1, (um_run l' (um_run l g).2).2).
Proof.
  revert g; induction l as [|[w o] l IH]; intros g; cbn [app um_run fst snd]; [by destruct (um_run l' g)|].
  destruct (um_step w o g) as [r g1]. rewrite IH. destruct (um_run l g1) as [rs g2]. cbn. by destruct (um_run l' g2).
Qed.

Definition empty_um (cfg : um_config_t) : um := Um cfg [] no_stats true.

Lemma empty_refines cfg : refines (empty_um cfg) ∅.
Proof. constructor; try done. apply NoDup_nil_2. unfold UM_MAX_MODULES. cbn. lia. Qed.

Lemma run_initialized l g M : refines g M -> Forall (fun p => op_fits p.2) l -> initialized (um_run l g).2 = true.
Proof. intros H Hl. eapply rf_init. by apply um_run_refines. Qed.

Lemma default_fits pid clk : Forall (fun p => op_fits p.2) (default_ops pid clk).
Proof.
  unfold default_ops, default_metrics. cbn [take drop metric_ops app]. repeat apply Forall_cons_2; [..|by apply Forall_nil_2]; vm_compute; lia.
Qed.

Lemma um_run_cons w o l g : (um_run ((w, o) :: l) g).2 = (um_run l (um_step w o g).2).2.
Proof. cbn [um_run]. destruct (um_step w o g). by destruct (um_run l _). Qed.

Lemma module_step pid clk n inst g :
  initialized g = true -> (um_step (World pid clk true) (RegModule n inst) g).2 = (register_module pid n inst g).2.
Proof. intros H. cbn [um_step um_register_module snd w_pid]. unfold ensure_init. by rewrite H. Qed.

Lemma register_module_init pid n inst g : initialized (register_module pid n inst g).2 = initialized g.
Proof. unfold register_module. by repeat case_match. Qed.

Lemma two_modules_run pid clk n1 n2 inst l1 l2 g :
  initialized g = true -> initialized (um_run (metric_ops pid clk 0 l1) (register_module pid n1 inst g).2).2 = true ->
  register_metrics pid clk 5 l2 (register_module pid n2 inst (register_metrics pid clk 0 l1 (register_module pid n1 inst g).2)).2
  = (um_run ((World pid clk true, RegModule n1 inst) :: metric_ops pid clk 0 l1
             ++ (World pid clk true, RegModule n2 inst) :: metric_ops pid clk 5 l2) g).2.
Proof.
  intros Hg Hi. rewrite um_run_cons, module_step, um_run_app by done. cbn [snd]. rewrite um_run_cons, module_step by done.
  rewrite (register_metrics_run _ _ 0), register_metrics_run by (by rewrite register_module_init). done.
Qed.

Lemma default_metrics_run cfg pid clk :
  (um_register_default_metrics pid clk (empty_um cfg)).2 = (um_run (default_ops pid clk) (empty_um cfg)).2.
Proof.
  pose proof (default_fits pid clk) as Hf. unfold default_ops, um_register_default_metrics in *.
  generalize dependent (take 5 default_metrics); intros l1. generalize dependent (drop 5 default_metrics); intros l2. cbn [snd].
  generalize dependent (cs "system"); intros n1. generalize (cs "airy_runtime") (Some (cs "default")); intros n2 inst Hf.
  apply two_modules_run; [done|]. rewrite app_comm_cons in Hf. apply Forall_app in Hf as [Ha _].
  pose proof (run_initialized _ _ _ (empty_refines cfg) Ha) as Hi. by rewrite um_run_cons, module_step in Hi.
Qed.

(** C27: after an initialisation, any sequence of operations on modules whose
    names are below 32 bytes and metrics whose names are below 128 answers as a
    map from modules to maps of metrics would, which starts with the default
    metrics when they are enabled, holds at most 32 modules of at most 256
    metrics, and is counted by the statistics. *)
Theorem metrics_refine_maps cfg pid clk g l :
  initialized g = false -> Forall (fun p => op_fits p.2) l ->
  let g0 := (um_init true pid clk cfg g).2 in
  let dflt := if enable_default_metrics (default um_create_default_config cfg) then default_ops pid clk else [] in
  let s := spec_run l (spec_run dflt ∅).2 in
  (um_run l g0).1 = s.1 /\ module_map (modules (um_run l g0).2) = s.2.
Proof.
  intros Hg Hl. unfold um_init. rewrite Hg. cbn [negb snd]. set (c := default _ cfg).
  assert (H : refines (if enable_default_metrics c then (um_register_default_metrics pid clk (empty_um c)).2 else empty_um c)
    (spec_run (if enable_default_metrics c then default_ops pid clk else []) ∅).2).
  { destruct (enable_default_metrics c); [|apply empty_refines]. rewrite default_metrics_run.
    apply um_run_refines; [apply empty_refines|apply default_fits]. }
  destruct (um_run_refines l _ _ H Hl) as [H1 H2]. split; [done|apply (rf_map _ _ H2)].
Qed.

Definition at_time (t : Z) : world := World 7 (fun _ => t) true.
Definition no_um : um := Um um_create_default_config [] no_stats false.

Lemma metrics_refine_maps_witness :
  let l := [(at_time 5, RegMetric (cs "web") (cs "hits") 0 None None); (at_time 6, Increment (cs "web") (cs "hits") 3); (at_time 7, GetStats)] in
  (um_run l (um_init true 7 (fun _ => 1) None no_um).2).1 = [(0, None); (0, None); (0, Some (3, 11))].
Proof.
  intros l. destruct (metrics_refine_maps None 7 (fun _ => 1) no_um l) as [-> _]; [done| |vm_compute; done].
  unfold l. repeat apply Forall_cons_2; [..|by apply Forall_nil_2]; vm_compute; lia.
Defined.

(** ** The exports are exact *)

Record entry_text (e : um_metric_entry_t) : Prop := EntryText {
  et_name : text_ok 127 (e_name e);
  et_help : text_ok 255 (help e);
  et_labels : text_ok 255 (labels e);
}.

Record module_text (m : um_module_metrics_t) : Prop := ModuleText {
  mt_name : text_ok 31 (module_name m);
  mt_inst : text_ok 31 (instance_id m);
  mt_entries : Forall entry_text (metrics m);
}.

(** The collector is initialised and its strings are as its arrays hold them. *)
Record um_text (g : um) : Prop := UmText {
  ut_init : initialized g = true;
  ut_service : text_ok 63 (service_name (config g));
  ut_modules : Forall module_text (modules g);
}.

Definition op_text (o : um_op) : Prop :=
  match o with
  | RegModule n inst => nonzero n /\ nonzero (default [] inst)
  | RegMetric m n _ h l => nonzero m /\ nonzero n /\ nonzero (default [] h) /\ nonzero (default [] l)
  | _ => True
  end.

Lemma text_fit size s : nonzero s -> text_ok (size - 1) (fit size s).
Proof. intros H. split; [by apply Forall_take|]. unfold fit. rewrite length_take. lia. Qed.

Lemma register_module_text pid n inst g :
  um_text g -> nonzero n -> nonzero (default [] inst) -> um_text (register_module pid n inst g).2.
Proof.
  intros [H1 H2 H3] Hn Hi. unfold register_module. repeat case_match; try done. constructor; try done.
  cbn. apply Forall_app. split; [done|]. apply Forall_singleton. constructor; [by apply (text_fit UM_MODULE_NAME_LEN)| |by apply Forall_nil_2].
  destruct inst; [by apply (text_fit 32)|]. eapply text_ok_weaken; [apply text_ok_take, text_ok_fmt_u|lia].
Qed.

Lemma replace_text g i m m' s :
  um_text g -> modules g !! i = Some m -> module_name m' = module_name m -> instance_id m' = instance_id m ->
  Forall entry_text (metrics m') -> um_text (set_stats s (set_modules (<[i := m']> (modules g)) g)).
Proof.
  intros [H1 H2 H3] Hi Hn Hs He. constructor; try done. cbn. apply Forall_insert; [done|].
  destruct (Forall_lookup_1 _ _ _ _ H3 Hi) as [Ha Hb _]. constructor; congruence.
Qed.

Lemma register_metric_text pid now m n t h l g :
  um_text g -> nonzero m -> nonzero n -> nonzero (default [] h) -> nonzero (default [] l) ->
  um_text (register_metric pid now m n t h l g).2.
Proof.
  intros H Hm Hn Hh Hl. unfold register_metric. set (g1 := match find_module m g with Some _ => g | None => _ end).
  assert (H1 : um_text g1) by (unfold g1; case_match; [done|by apply register_module_text; [..|constructor]]).
  clearbody g1. cbn zeta. destruct (find_module m g1) as [i|]; [|done]. destruct (modules g1 !! i) as [x|] eqn:Hi; [|done].
  repeat case_match; try done. eapply replace_text; [done..|]. cbn. apply Forall_app.
  split; [apply (Forall_lookup_1 _ _ _ _ (ut_modules _ H1) Hi)|]. apply Forall_singleton.
  constructor; [by apply (text_fit UM_METRIC_NAME_LEN)|by apply (text_fit 256)..].
Qed.

Lemma update_text f h m n g :
  um_text g -> (forall e, entry_text e -> entry_text (f e)) -> um_text (update f h (Some m) (Some n) g).2.
Proof.
  intros H Hf. unfold update. destruct (find_module m g) as [i|]; [|done]. cbn [mbind option_bind].
  destruct (modules g !! i) as [x|] eqn:Hi; [|done]. cbn [mbind option_bind]. destruct (find_metric x n) as [j|]; [|done].
  eapply replace_text; [done..|]. cbn. pose proof (mt_entries _ (Forall_lookup_1 _ _ _ _ (ut_modules _ H) Hi)) as He.
  apply Forall_alter; [done|]. intros e Hj _. apply Hf. by eapply Forall_lookup_1.
Qed.

Lemma um_step_text w o g : um_text g -> op_text o -> um_text (um_step w o g).2.
Proof.
  intros H Ho. assert (Hi : ensure_init w g = g) by (unfold ensure_init; by rewrite (ut_init _ H)).
  destruct o as [n inst|n|m n t h l|m n v|m n v|m n v|]; cbn [um_step snd um_register_module um_register_metric]; rewrite ?Hi.
  - destruct Ho. by apply register_module_text.
  - unfold um_unregister_module. destruct (find_module n g) as [i|]; [|done]. destruct (modules g !! i) as [m|] eqn:Hm; [|done].
    destruct H as [H1 H2 H3]. constructor; try done. cbn. rewrite (swap_remove_perm _ _ _ Hm) in H3. by apply Forall_cons in H3 as [_ H3].
  - destruct Ho as (H1 & H2 & H3 & H4). by apply register_metric_text.
  - apply update_text; [done|]. intros e []. by constructor.
  - apply update_text; [done|]. intros e []. by constructor.
  - apply update_text; [done|]. intros e []. by constructor.
  - done.
Qed.

Lemma um_run_text l g : um_text g -> Forall (fun p => op_text p.2) l -> um_text (um_run l g).2.
Proof.
  intros Hg Hl. revert g Hg; induction Hl as [|[w o] l Ho Hl IH]; intros g Hg; [done|]. rewrite um_run_cons. by apply IH, um_step_text.
Qed.

(** *** The bounds of the pieces *)

#[local] Hint Resolve et_name et_help et_labels mt_name mt_inst : text.

Lemma text_sanitize s room : text_ok (length s) (sanitize_loop s room).
Proof.
  revert room; induction s as [|c s IH]; intros [|room]; try (split; [constructor|cbn; lia]). cbn [sanitize_loop length].
  destruct (IH room) as [H1 H2], (IH (S room)) as [H3 H4]. repeat case_match; (split; [|cbn; lia]); try done; constructor; try done; lia.
Qed.

Lemma text_snprintf size s : nonzero s -> text_ok (size - 1) (snprintf_into size [] s).
Proof.
  intros H. destruct size as [|n]; [split; [constructor|cbn; lia]|]. split; [by apply Forall_take|]. cbn [snprintf_into].
  rewrite length_take. lia.
Qed.

Lemma text_quoted k s : text_ok k s -> text_ok (S (S k)) (quoted s).
Proof. intros [H1 H2]. unfold quoted. split; [by repeat (constructor || apply Forall_app_2)|rewrite !length_app; cbn; lia]. Qed.

#[local] Hint Resolve text_quoted : text.

Lemma text_where m : module_text m -> text_ok 85 (where_ m).
Proof. intros H. unfold where_. eapply text_ok_weaken; [text_pieces|vm_compute; lia]. Qed.

Lemma text_type t : text_ok 9 (metric_type_string t).
Proof. unfold metric_type_string. repeat case_match; (eapply text_ok_weaken; [by apply text_ok_lit|vm_compute; lia]). Qed.

#[local] Hint Resolve text_where text_type : text.

(** Every piece is far shorter than the first buffer. *)
Lemma entry_pieces_text m e : module_text m -> entry_text e -> Forall (text_ok 2000) (entry_pieces m e).
Proof.
  intros Hm He. unfold entry_pieces, sanitize_prom_name. change (256 - 1)%nat with 255%nat. destruct (text_sanitize (e_name e) 255) as [Hs _].
  destruct (sanitize_loop (e_name e) 255) as [|c s]; [constructor|]. set (safe := c :: s) in *. clearbody safe.
  assert (Hpn : text_ok 383 (snprintf_into 384 [] (cs "airy_" ++ module_name m ++ cs "_" ++ safe))).
  { apply (text_snprintf 384). repeat apply Forall_app_2; [by repeat constructor|apply Hm|by repeat constructor|done]. }
  set (pn := snprintf_into _ _ _) in *. clearbody pn. repeat apply Forall_app_2.
  - destruct (help e) eqn:E; [constructor|]. rewrite <- E. apply Forall_singleton. eapply text_ok_weaken; [text_pieces|vm_compute; lia].
  - apply Forall_singleton. eapply text_ok_weaken; [text_pieces|vm_compute; lia].
  - apply Forall_singleton. destruct (labels e) eqn:E; [|rewrite <- E]; (eapply text_ok_weaken; [text_pieces|vm_compute; lia]).
  - repeat case_match; [apply Forall_singleton..|constructor]; (eapply text_ok_weaken; [text_pieces|vm_compute; lia]).
Qed.

Lemma Forall_concat_map {A B} (P : B -> Prop) (f : A -> list B) l : Forall (fun x => Forall P (f x)) l -> Forall P (concat (map f l)).
Proof. induction 1; [constructor|]. cbn. by apply Forall_app. Qed.

Lemma prom_pieces_text only g : um_text g -> Forall (text_ok 2000) (prom_pieces only g).
Proof.
  intros H. apply Forall_concat_map. eapply Forall_impl; [apply H|]. intros m Hm. unfold module_pieces. case_match; [constructor|].
  apply Forall_concat_map. eapply Forall_impl; [apply Hm|]. intros e He. by apply entry_pieces_text.
Qed.

(** *** The growing buffer *)

Lemma PAPPEND_exact grant k m s t :
  starts m s -> (length s < length m)%nat -> (2000 < length m)%nat -> text_ok 2000 t ->
  (exists k', PAPPEND grant k m (length s) t = (Null, k', length s) /\ exists j, grant j = false) \/
  (exists m' k', PAPPEND grant k m (length s) t = (Buffer m', k', length (s ++ t)) /\ holds m' (s ++ t) /\ (length m <= length m')%nat).
Proof.
  intros Hs Hl Hm [_ Ht]. unfold PAPPEND. destruct (Nat.ltb_spec (length t) (length m - length s)) as [Hfit|Hbig].
  - destruct (snprintf_whole m s (length m - length s) t Hs) as (m' & -> & H1 & H2); [lia|done|]. right. exists m', k.
    rewrite length_app. split_and!; try done. lia.
  - destruct (snprintf_cut m s (length m - length s) t Hs) as (m' & -> & H1 & H2); [lia|].
    destruct (grant k) eqn:Hg; cbn [negb]; [right|left; eauto].
    set (nb := take (length s) m' ++ replicate (2 * length m - length s) None).
    assert (Hnb : starts nb s).
    { unfold nb, starts. rewrite H2, take_app_le by (by rewrite length_fmap). apply take_ge. by rewrite length_fmap. }
    assert (Hlen : length nb = (2 * length m)%nat) by (unfold nb; rewrite length_app, length_take, length_replicate; lia).
    destruct (snprintf_whole nb s (2 * length m - length s) t Hnb) as (nb' & -> & H3 & H4); [lia|lia|].
    replace (_ <=? _)%nat with false by (symmetry; apply Nat.leb_gt; lia). exists nb', (S k). rewrite length_app. split_and!; try done. lia.
Qed.

Lemma pappends_exact grant k m s ts :
  starts m s -> (length s < length m)%nat -> (2000 < length m)%nat -> Forall (text_ok 2000) ts ->
  (pappends grant k m (length s) ts = Null /\ exists j, grant j = false) \/
  (exists m', pappends grant k m (length s) ts = Buffer m' /\ match ts with [] => m' = m | _ => holds m' (s ++ concat ts) end).
Proof.
  intros Hs Hl Hm Hts. revert k m s Hs Hl Hm; induction Hts as [|t ts Ht Hts IH]; intros k m s Hs Hl Hm; [right; by exists m|].
  cbn [pappends]. destruct (PAPPEND_exact grant k m s t Hs Hl Hm Ht) as [(k' & -> & Hj)|(m' & k' & -> & Hh & Hlm)]; [by left|].
  assert (Hlt : (length (s ++ t) < length m')%nat) by (destruct Hh as [rest ->]; rewrite (length_app (Some <$> _)), length_fmap; cbn; lia).
  destruct (IH k' m' (s ++ t)) as [Hn|(m'' & -> & H2)]; [by apply holds_starts|done|lia|by left|].
  right. exists m''. split; [done|]. cbn [concat]. rewrite app_assoc. destruct ts; [|done]. subst m''. cbn. by rewrite app_nil_r.
Qed.

Definition served (r : answer * um) (texts : list cstr) : Prop :=
  exists m, r.1 = Buffer m /\ read_str m = match texts with [] => None | _ => Some (concat texts) end.

Lemma prom_served grant only g :
  um_text g ->
  served (um_export_prometheus_module grant only g) (prom_pieces only g) \/
  ((um_export_prometheus_module grant only g).1 = Null /\ exists j, grant j = false).
Proof.
  intros H. unfold um_export_prometheus_module. rewrite (ut_init _ H). cbn [negb]. destruct (grant 0%nat) eqn:E0; cbn [negb]; [|right; eauto].
  pose proof (prom_pieces_text only g H) as Ht.
  destruct (pappends_exact grant 1 (fresh_buf EXPORT_SIZE) [] (prom_pieces only g)) as [[Hn Hj]|(m & Hb & Hm)]; try done.
  1, 2: unfold fresh_buf, EXPORT_SIZE; rewrite length_replicate; cbn [length]; lia.
  - change (length (@nil Z)) with O in Hn. rewrite Hn. by right.
  - change (length (@nil Z)) with O in Hb. rewrite Hb. left. exists m. split; [done|].
    destruct (prom_pieces only g) as [|t ts] eqn:E; [by subst m|]. apply holds_read; [|done]. by eapply text_ok_concat.
Qed.

(** After any operations, the Prometheus export never writes outside its
    buffers, is NULL only if the allocator refused, and otherwise its text is
    exactly the lines of the registered metrics, in order, whatever their number;
    without a metric to print the buffer is returned uninitialised. *)
Theorem prometheus_exact grant only cfg l :
  text_ok 63 (service_name cfg) -> Forall (fun p => op_text p.2) l ->
  let g := (um_run l (empty_um cfg)).2 in
  served (um_export_prometheus_module grant only g) (prom_pieces only g) \/
  ((um_export_prometheus_module grant only g).1 = Null /\ exists j, grant j = false).
Proof.
  intros Hc Hl. apply prom_served, um_run_text; [|done]. constructor; [done|done|by apply Forall_nil_2].
Qed.

Lemma prometheus_exact_witness :
  served (um_export_prometheus_module (fun _ => true) None (um_run [(at_time 5, RegMetric (cs "web") (cs "hits") 0 None None); (at_time 6, Increment (cs "web") (cs "hits") 3)] (empty_um um_create_default_config)).2)
    [cs "# TYPE airy_web_hits counter" ++ [10]; cs "airy_web_hits{module=" ++ quoted (cs "web") ++ cs ",instance=" ++ quoted (cs "7") ++ cs "}"; cs " 3" ++ [10]].
Proof.
  destruct (prometheus_exact (fun _ => true) None um_create_default_config
    [(at_time 5, RegMetric (cs "web") (cs "hits") 0 None None); (at_time 6, Increment (cs "web") (cs "hits") 3)]) as [H|[_ [j Hj]]].
  - by apply (text_ok_weaken 7); [apply text_ok_lit|lia].
  - repeat apply Forall_cons_2; [..|by apply Forall_nil_2]; cbn; [|done]. split_and!; try constructor; try done; repeat constructor; done.
  - vm_compute in H. vm_compute. exact H.
  - done.
Defined.

(** *** JSON *)

Lemma commas_text (P : cstr -> Prop) first l : P (cs ",") -> Forall (Forall P) l -> Forall P (commas first l).
Proof.
  intros Hc Hl. revert first; induction Hl as [|p l Hp Hl IH]; intros first; [constructor|]. cbn [commas].
  repeat apply Forall_app_2; [|done|done]. destruct first; [constructor|by constructor].
Qed.

Lemma json_entry_text e : entry_text e -> text_ok 2000 (json_entry e).
Proof. intros He. unfold json_entry. eapply text_ok_weaken; [text_pieces|vm_compute; lia]. Qed.

Lemma json_module_text m : module_text m -> Forall (text_ok 2000) (json_module m).
Proof.
  intros Hm. unfold json_module. repeat apply Forall_app_2.
  - apply Forall_singleton. eapply text_ok_weaken; [text_pieces|vm_compute; lia].
  - apply commas_text; [eapply text_ok_weaken; [by apply text_ok_lit|vm_compute; lia]|]. apply Forall_map. eapply Forall_impl; [apply Hm|].
    intros e He. apply Forall_singleton. by apply json_entry_text.
  - apply Forall_singleton. eapply text_ok_weaken; [by apply text_ok_lit|vm_compute; lia].
Qed.

(** The document without its last two bytes, which are appended last. *)
Definition json_front (g : um) : list cstr :=
  [cs "{" ++ quoted (cs "service") ++ cs ":" ++ quoted (service_name (config g)) ++ cs "," ++ quoted (cs "modules") ++ cs ":{"]
  ++ commas true (map json_module (modules g)).

Lemma json_front_text g : um_text g -> Forall (text_ok 2000) (json_front g).
Proof.
  intros Hg. unfold json_front. apply Forall_app_2.
  - apply Forall_singleton. pose proof (ut_service _ Hg). eapply text_ok_weaken; [text_pieces|vm_compute; lia].
  - apply commas_text; [eapply text_ok_weaken; [by apply text_ok_lit|vm_compute; lia]|]. apply Forall_map. eapply Forall_impl; [apply Hg|].
    intros m Hm. by apply json_module_text.
Qed.

(** After any operations, the JSON export returns the whole document when
    it is below 8192 bytes, and writes outside its buffer as soon as it is above
    8194 bytes. *)
Theorem json_export_exact cfg l :
  text_ok 63 (service_name cfg) -> Forall (fun p => op_text p.2) l ->
  let g := (um_run l (empty_um cfg)).2 in
  let size := Z.of_nat (length (concat (json_pieces g))) in
  (size < 8192 -> served (um_export_json true g) (json_pieces g)) /\
  (8194 < size -> (um_export_json true g).1 = Overrun).
Proof.
  intros Hc Hl g. assert (Hg : um_text g) by (apply um_run_text; [|done]; constructor; [done|done|by apply Forall_nil_2]). clearbody g.
  pose proof (json_front_text g Hg) as Hf. change (json_pieces g) with (json_front g ++ [cs "}}"]).
  assert (Hlen : length (concat (json_front g ++ [cs "}}"])) = (length (concat (json_front g)) + 2)%nat).
  { rewrite concat_app, length_app. done. }
  unfold um_export_json. rewrite (ut_init _ Hg). cbn [negb]. change (json_pieces g) with (json_front g ++ [cs "}}"]). cbn zeta. split; intros Hs.
  - destruct (appends_fit (fresh_buf EXPORT_SIZE) [] (json_front g ++ [cs "}}"]) EXPORT_SIZE) as (m & E & H1 & H2).
    + done.
    + apply length_replicate.
    + cbn [length]. unfold EXPORT_SIZE. lia.
    + unfold EXPORT_SIZE. lia.
    + by destruct (json_front g).
    + change (length (@nil Z)) with O in E. rewrite E. exists m. split; [done|]. rewrite (holds_read m _) with (2 := H2); [by destruct (json_front g)|].
      cbn [app]. apply (text_ok_concat 2000), Forall_app_2; [done|]. apply Forall_singleton. eapply text_ok_weaken; [by apply text_ok_lit|vm_compute; lia].
  - rewrite appends_past; [done|apply length_replicate|unfold EXPORT_SIZE; lia|cbn [snd]; lia| |].
    + eapply Forall_impl; [apply Hf|]. intros t [_ Ht]. lia.
    + cbn [snd]. unfold EXPORT_SIZE. lia.
Qed.

Lemma json_export_exact_witness :
  served (um_export_json true (um_run [(at_time 5, RegMetric (cs "web") (cs "hits") 0 None None)] (empty_um um_create_default_config)).2)
    (json_pieces (um_run [(at_time 5, RegMetric (cs "web") (cs "hits") 0 None None)] (empty_um um_create_default_config)).2).
Proof.
  apply (json_export_exact um_create_default_config [(at_time 5, RegMetric (cs "web") (cs "hits") 0 None None)]).
  - by apply (text_ok_weaken 7); [apply text_ok_lit|lia].
  - repeat apply Forall_cons_2; [..|by apply Forall_nil_2]; cbn. split_and!; try constructor; try done; repeat constructor; done.
  - vm_compute. done.
Defined.

(** Ninety-nine metrics with names of 59 bytes are enough to leave the buffer. *)
Theorem json_overruns :
  let ops := map (fun i => (at_time 0, RegMetric (cs "web") (replicate 57 97 ++ pad 2 (Z.of_nat i)) 0 None None)) (seq 0 99) in
  (um_export_json true (um_run ops (empty_um um_create_default_config)).2).1 = Overrun.
Proof. vm_compute. reflexivity. Qed.

(** The line of a summary: the suffix stands after the labels. *)
Theorem summary_line_malformed :
  let g := (um_run [(at_time 5, RegMetric (cs "web") (cs "t") UM_TYPE_SUMMARY None None)] (empty_um um_create_default_config)).2 in
  exists m, (um_export_prometheus (fun _ => true) g).1 = Buffer m /\
  read_str m = Some (cs "# TYPE airy_web_t summary" ++ [10] ++ cs "airy_web_t{module=" ++ quoted (cs "web") ++ cs ",instance=" ++ quoted (cs "7")
    ++ cs "}_sum 0" ++ [10] ++ cs "airy_web_t_count{module=" ++ quoted (cs "web") ++ cs ",instance=" ++ quoted (cs "7") ++ cs "} 0" ++ [10]).
Proof. eexists. split; vm_compute; reflexivity. Qed.

(** A module whose name has 32 bytes is never found again: each registration
    of a metric fails and takes another place of the table. *)
Theorem long_module_fills_table :
  let n := replicate 32 97 in
  let r := um_run (replicate 33 (at_time 0, RegMetric n (cs "x") 0 None None)) (empty_um um_create_default_config) in
  r.1 = replicate 33 (AIRY_ERR_NOT_FOUND, None) /\ length (modules r.2) = UM_MAX_MODULES.
Proof. vm_compute. done. Qed.

(** ** Observations *)

Definition observations (m n : cstr) (l : list (Z * spec_float)) : list (world * um_op) :=
  map (fun p => (at_time p.1, Observe m n p.2)) l.

Lemma observe_all l e :
  count e + Z.of_nat (length l) < 2 ^ 53 -> 0 <= count e ->
  let e' := foldl (fun e p => observe p.2 p.1 e) e l in
  count e' = count e + Z.of_nat (length l) /\ sum e' = foldl dadd (sum e) l.*2
  /\ (l <> [] -> value e' = SFdiv 53 1024 (sum e') (of_int (count e'))).
Proof.
  revert e; induction l as [|[t v] l IH]; intros e Hc H0; [cbn; split_and!; [lia|done|done]|]. cbn [length] in *.
  assert (Hn : count (observe v t e) = count e + 1) by (cbn; rewrite u64_small by lia; lia).
  destruct (IH (observe v t e)) as (H1 & H2 & H3); [lia|lia|]. cbn [foldl fst snd fmap list_fmap]. split_and!.
  - rewrite H1. lia.
  - by rewrite H2.
  - intros _. destruct l as [|p l]; [|by apply H3]. cbn [foldl]. change (value (observe v t e)) with
      (if 0 <? count (observe v t e) then SFdiv 53 1024 (sum (observe v t e)) (of_int (count (observe v t e))) else of_int 0).
    replace (_ <? _) with true by lia. done.
Qed.

Lemma observe_run m n l M inst E e :
  M !! m = Some (inst, E) -> E !! n = Some e ->
  (spec_run (observations m n l) M).1 = replicate (length l) (0, None) /\
  (spec_run (observations m n l) M).2 = <[m := (inst, <[n := foldl (fun e p => observe p.2 p.1 e) e l]> E)]> M.
Proof.
  revert M E e; induction l as [|[t v] l IH]; intros M E e HM HE.
  { cbn. split; [done|]. rewrite (insert_id E) by done. by rewrite insert_id. }
  cbn [observations map spec_run spec_step fst snd w_clk at_time]. unfold spec_update. rewrite HM, HE. cbn [fst snd].
  destruct (IH (<[m := (inst, <[n := observe v t e]> E)]> M) (<[n := observe v t e]> E) (observe v t e)) as [H1 H2]; [by rewrite lookup_insert_eq..|].
  fold (observations m n l). destruct (spec_run (observations m n l) _) as [rs M2]. cbn [fst snd foldl length replicate] in *.
  split; [by rewrite H1|]. by rewrite H2, !insert_insert_eq.
Qed.

(** Observing values on a metric of a collector that holds it, one after the
    other, succeeds and leaves their number, their sum as doubles in this order
    and the quotient of the two in the metric, and every other metric and module
    as it was. *)
Theorem observations_exact g M m n inst E e l :
  refines g M -> M !! m = Some (inst, E) -> E !! n = Some e -> l <> [] -> 0 <= count e -> count e + Z.of_nat (length l) < 2 ^ 53 ->
  let r := um_run (observations m n l) g in
  exists e', r.1 = replicate (length l) (0, None) /\ module_map (modules r.2) = <[m := (inst, <[n := e']> E)]> M
    /\ count e' = count e + Z.of_nat (length l) /\ sum e' = foldl dadd (sum e) l.*2
    /\ value e' = SFdiv 53 1024 (sum e') (of_int (count e')).
Proof.
  intros H HM HE Hl H0 Hc. destruct (um_run_refines (observations m n l) g M H) as [H1 H2].
  { apply Forall_map, Forall_true. done. }
  destruct (observe_run m n l M inst E e HM HE) as [H3 H4]. destruct (observe_all l e Hc H0) as (H5 & H6 & H7).
  eexists. split_and!; [by rewrite H1|by rewrite (rf_map _ _ H2), H4|done|done|by apply H7].
Qed.

Definition one_summary : um := (um_run [(at_time 5, RegMetric (cs "web") (cs "t") UM_TYPE_SUMMARY None None)] (empty_um um_create_default_config)).2.

Lemma observations_exact_witness :
  exists e', module_map (modules (um_run (observations (cs "web") (cs "t") [(1, of_int 3); (2, of_int 5)]) one_summary).2)
      = <[cs "web" := (cs "7", <[cs "t" := e']> (entry_map [new_entry (cs "t") UM_TYPE_SUMMARY None None 5]))]> (module_map (modules one_summary))
    /\ count e' = 2 /\ sum e' = of_int 8 /\ value e' = of_int 4.
Proof.
  destruct (observations_exact one_summary (module_map (modules one_summary)) (cs "web") (cs "t") (cs "7")
    (entry_map [new_entry (cs "t") UM_TYPE_SUMMARY None None 5]) (new_entry (cs "t") UM_TYPE_SUMMARY None None 5) [(1, of_int 3); (2, of_int 5)])
    as (e' & _ & H1 & H2 & H3 & H4).
  - destruct (um_run_refines [(at_time 5, RegMetric (cs "web") (cs "t") UM_TYPE_SUMMARY None None)] (empty_um um_create_default_config) ∅) as [_ H].
    + apply empty_refines.
    + apply Forall_singleton. vm_compute. lia.
    + unfold one_summary. rewrite (rf_map _ _ H). exact H.
  - vm_compute. done.
  - vm_compute. done.
  - done.
  - done.
  - done.
  - exists e'. rewrite H2, H3 in *. split_and!; try done. all: rewrite ?H4; vm_compute; done.
Defined.
