(* ===== verification/Trace.v ===== *)
(** * Spans of traces: utils/observability/trace.c

    The spans that a process begins, in the list that the module keeps, their
    events and the export.  A span is an object of the heap; the chain from
    [head] to [tail] is the list of its addresses, and a call with an address
    that has no object is undefined ([None]).  The functions hold the mutex of
    the span or of the module and are one step each; [us] is what
    [airy_time_ns() / 1000] answers, [secs] what [time] does. *)
From S2P Require Import Prelude Decimal Uuid OutBuf AirId.

Definition MAX_EVENTS_PER_SPAN : nat := 64.
Definition MAX_TRACE_ID_LEN : nat := 64.
Definition MAX_SPAN_ID_LEN : nat := 32.

(** ** Data *)

Record trace_event_t := Event {
  ev_name : cstr;
  timestamp : Z;
  attributes : cstr;
}.

Record airy_trace_span := Span {
  trace_id : cstr;
  span_id : cstr;
  parent_id : cstr;
  name : cstr;
  start_time : Z;
  end_time : Z;
  status : Z;
  events : list trace_event_t;
}.

Record trace_state := State {
  span_counter : Z;
  trace_counter : Z;
  chain : list positive;
  heap : gmap positive airy_trace_span;
  initialized : bool;
}.

Definition set_heap (h : gmap positive airy_trace_span) (s : trace_state) : trace_state :=
  State (span_counter s) (trace_counter s) (chain s) h (initialized s).

(** [AIRY_STRNCPY_TERM] into an array of [size] bytes. *)
Definition strncpy_term (size : nat) (s : cstr) : cstr := take (size - 1) s.

(** ** Spans *)

Definition init_trace_system (mtx_ok : bool) (s : trace_state) : Z * trace_state :=
  if initialized s then (0, s)
  else if negb mtx_ok then (AIRY_EINVAL, s)
  else (0, State 0 0 [] (heap s) true).

(** [%016llx] and [%08llx]: wider when the number is. *)
Definition hex_min (w : nat) (v : Z) : cstr := hexw (Nat.max w (Z.to_nat (Z.log2 v / 4 + 1))) v.

Definition generate_id (size : nat) (secs counter : Z) (prefix : cstr) : cstr :=
  snprintf_into size [] (prefix ++ cs "-" ++ hex_min 16 (u64 secs) ++ cs "-" ++ hex_min 8 counter).

Definition create_event (us : Z) (nm : cstr) (attrs : option cstr) : trace_event_t :=
  Event (strncpy_term 128 nm) us (match attrs with Some a => strncpy_term 512 a | None => [] end).

(** The answers of the platform to a call. *)
Record answers := Answers { us : Z; secs : Z; malloc_ok : bool; mtx_ok : bool; span_mtx_ok : bool }.

Definition new_span (a : answers) (tc sc : Z) (nm : cstr) (parent : option cstr) : airy_trace_span :=
  Span (generate_id MAX_TRACE_ID_LEN (secs a) tc (cs "tr")) (generate_id MAX_SPAN_ID_LEN (secs a) sc (cs "sp"))
    (match parent with Some p => strncpy_term MAX_SPAN_ID_LEN p | None => [] end) (strncpy_term 128 nm) (us a) 0 0 [].

Definition airy_trace_begin (a : answers) (nm parent : option cstr) (s : trace_state) : option positive * trace_state :=
  match nm with
  | None => (None, s)
  | Some n =>
      let '(err, s) := init_trace_system (mtx_ok a) s in
      if negb (err =? 0) then (None, s)
      else if negb (malloc_ok a) then (None, s)
      else
        let sp := new_span a (trace_counter s) (span_counter s) n parent in
        let s := State (u64 (span_counter s + 1)) (u64 (trace_counter s + 1)) (chain s) (heap s) (initialized s) in
        if negb (span_mtx_ok a) then (None, s)
        else
          let p := fresh (dom (heap s)) in
          (Some p, State (span_counter s) (trace_counter s) (chain s ++ [p]) (<[p := sp]> (heap s)) (initialized s))
  end.

Definition end_span (t : Z) (sp : airy_trace_span) : airy_trace_span :=
  Span (trace_id sp) (span_id sp) (parent_id sp) (name sp) (start_time sp) t 1 (events sp).

Definition airy_trace_end (a : answers) (p : option positive) (s : trace_state) : option trace_state :=
  match p with
  | None => Some s
  | Some p => sp ← heap s !! p;
              if negb (status sp =? 0) then Some s else Some (set_heap (<[p := end_span (us a) sp]> (heap s)) s)
  end.

Definition push_event (e : trace_event_t) (sp : airy_trace_span) : airy_trace_span :=
  Span (trace_id sp) (span_id sp) (parent_id sp) (name sp) (start_time sp) (end_time sp) (status sp) (events sp ++ [e]).

Definition airy_trace_add_event (a : answers) (p : option positive) (nm attrs : option cstr) (s : trace_state) : option trace_state :=
  match p, nm with
  | Some p, Some n =>
      sp ← heap s !! p;
      if status sp =? 2 then Some s
      else if (MAX_EVENTS_PER_SPAN <=? length (events sp))%nat then Some s
      else if negb (malloc_ok a) then Some s
      else Some (set_heap (<[p := push_event (create_event (us a) n attrs) sp]> (heap s)) s)
  | _, _ => Some s
  end.

(** The objects of the chain are freed, one after the other. *)
Fixpoint free_spans (l : list positive) (h : gmap positive airy_trace_span) : option (gmap positive airy_trace_span) :=
  match l with [] => Some h | p :: l' => sp ← h !! p; free_spans l' (delete p h) end.

Definition airy_trace_cleanup (s : trace_state) : option trace_state :=
  if negb (initialized s) then Some s
  else h ← free_spans (chain s) (heap s); Some (State (span_counter s) (trace_counter s) [] h true).

Definition airy_trace_get_span_count (s : trace_state) : Z := if initialized s then Z.of_nat (length (chain s)) else 0.

(** The accessors, which answer for NULL too. *)
Definition access {A} (f : airy_trace_span -> A) (p : option positive) (s : trace_state) : option (option A) :=
  match p with None => Some None | Some p => sp ← heap s !! p; Some (Some (f sp)) end.
Definition airy_trace_span_get_trace_id := access trace_id.
Definition airy_trace_span_get_span_id := access span_id.
Definition airy_trace_span_get_parent_id := access parent_id.
Definition airy_trace_span_get_name := access name.
Definition or_zero (r : option (option Z)) : option Z := default 0 <$> r.
Definition airy_tspan_get_start_time_us (p : option positive) (s : trace_state) : option Z := or_zero (access start_time p s).
Definition airy_tspan_get_end_time_us (p : option positive) (s : trace_state) : option Z := or_zero (access end_time p s).
Definition airy_trace_span_get_start_time_us := airy_tspan_get_start_time_us.
Definition airy_trace_span_get_end_time_us := airy_tspan_get_end_time_us.
Definition airy_trace_span_get_status (p : option positive) (s : trace_state) : option Z := or_zero (access status p s).

(** ** Export *)

Definition quoted (s : cstr) : cstr := [34] ++ s ++ [34].
(** A line of an object: a key, its value, a comma and the end of the line. *)
Definition line (key v : cstr) : cstr := cs "    " ++ quoted key ++ cs ": " ++ v ++ cs "," ++ [10].

Definition status_text (st : Z) : cstr := if st =? 1 then cs "ok" else if st =? 2 then cs "error" else cs "running".

Definition event_pieces (first : bool) (e : trace_event_t) : list cstr :=
  (if first then [] else [cs "," ++ [10]]) ++
  [cs "      {" ++ quoted (cs "name") ++ cs ": " ++ quoted (ev_name e) ++ cs ", " ++ quoted (cs "timestamp") ++ cs ": " ++ fmt_d (timestamp e)] ++
  (match attributes e with [] => [] | a => [cs ", " ++ quoted (cs "attributes") ++ cs ": " ++ a] end) ++ [cs "}"].

Fixpoint events_pieces (first : bool) (l : list trace_event_t) : list cstr :=
  match l with [] => [] | e :: l' => event_pieces first e ++ events_pieces false l' end.

(** The texts that a span appends, in order. *)
Definition span_pieces (first : bool) (sp : airy_trace_span) : list cstr :=
  (if first then [] else [cs "," ++ [10]]) ++
  [cs "  {" ++ [10]; line (cs "trace_id") (quoted (trace_id sp)); line (cs "span_id") (quoted (span_id sp))] ++
  (match parent_id sp with [] => [] | p => [line (cs "parent_id") (quoted p)] end) ++
  [line (cs "name") (quoted (name sp)); line (cs "start_time") (fmt_d (start_time sp))] ++
  (if 0 <? end_time sp then [line (cs "end_time") (fmt_d (end_time sp)); line (cs "duration_us") (fmt_d (s64 (end_time sp - start_time sp)))]
   else []) ++
  [line (cs "status") (quoted (status_text (status sp)))] ++
  (if (0 <? length (events sp))%nat then [cs "    " ++ quoted (cs "events") ++ cs ": [" ++ [10]] ++ events_pieces true (events sp) ++ [[10] ++ cs "    ]"]
   else []) ++
  [[10] ++ cs "  }"].

Inductive answer := Buffer (m : mem) | Null | Overrun.

(** The loop over the spans: after each the buffer is doubled when fewer than
    512 bytes are left ([grant k] is the answer to request number [k]). *)
Fixpoint export_loop (grant : nat -> bool) (k size : nat) (b : mem * nat) (first : bool) (l : list airy_trace_span) : answer :=
  match l with
  | [] => match append size b ([10] ++ cs "]") with Some (m, _) => Buffer m | None => Overrun end
  | sp :: l' =>
      match appends size b (span_pieces first sp) with
      | None => Overrun
      | Some b' =>
          if (512 <? size)%nat && (size - 512 <=? b'.2)%nat then
            if negb (grant k) then Null
            else export_loop grant (S k) (2 * size) (b'.1 ++ replicate size None, b'.2) false l'
          else export_loop grant k size b' false l'
      end
  end.

Definition BUFFER_SIZE : nat := 4096.

(** [None] when the chain leads to an address without an object. *)
Definition airy_trace_export (mtx_ok : bool) (grant : nat -> bool) (s : trace_state) : option (answer * trace_state) :=
  let '(err, s) := init_trace_system mtx_ok s in
  if negb (err =? 0) then Some (Null, s)
  else if negb (grant 0%nat) then Some (Null, s)
  else
    spans ← mapM (fun p => heap s !! p) (chain s);
    Some (match append BUFFER_SIZE (fresh_buf BUFFER_SIZE, 0%nat) (cs "[" ++ [10]) with
          | Some b => export_loop grant 1 BUFFER_SIZE b true spans
          | None => Overrun
          end, s).

(** ** Runs *)

Inductive trace_op :=
  | Begin (nm parent : option cstr)
  | End_ (p : option positive)
  | AddEvent (p : option positive) (nm attrs : option cstr)
  | Cleanup.

Definition trace_step (a : answers) (o : trace_op) (s : trace_state) : option trace_state :=
  match o with
  | Begin nm parent => Some (airy_trace_begin a nm parent s).2
  | End_ p => airy_trace_end a p s
  | AddEvent p nm attrs => airy_trace_add_event a p nm attrs s
  | Cleanup => airy_trace_cleanup s
  end.

(** [None] when a call uses a span that was freed. *)
Fixpoint trace_run (l : list (answers * trace_op)) (s : trace_state) : option trace_state :=
  match l with [] => Some s | (a, o) :: l' => s' ← trace_step a o s; trace_run l' s' end.

Definition no_trace : trace_state := State 0 0 [] ∅ false.

(** An induction over runs: what every step keeps holds at the end. *)
Lemma trace_run_keeps (P : trace_state -> Prop) (Q : answers * trace_op -> Prop) l s s' :
  (forall a o s s', Q (a, o) -> P s -> trace_step a o s = Some s' -> P s') ->
  Forall Q l -> P s -> trace_run l s = Some s' -> P s'.
Proof.
  intros Hstep Hl. revert s; induction Hl as [|[a o] l Ho Hl IH]; intros s Hs; cbn [trace_run]; [by intros [= <-]|].
  destruct (trace_step a o s) as [s1|] eqn:E; [|done]. cbn [mbind option_bind]. apply IH. by eapply Hstep.
Qed.

(** *** The chain leads through the objects *)

Record chain_ok (s : trace_state) : Prop := ChainOk {
  co_nodup : NoDup (chain s);
  co_dom : forall p, p ∈ chain s <-> is_Some (heap s !! p);
  co_init : initialized s = false -> chain s = [] /\ heap s = ∅;
}.

Lemma free_spans_ok l h :
  NoDup l -> (forall p, p ∈ l <-> is_Some (h !! p)) -> free_spans l h = Some ∅.
Proof.
  intros Hn. revert h; induction Hn as [|p l Hp Hn IH]; intros h Hh; cbn [free_spans].
  - f_equal. apply map_empty. intros p. destruct (h !! p) eqn:E; [|done]. exfalso. apply (not_elem_of_nil p). apply Hh. by rewrite E.
  - destruct (proj1 (Hh p) ltac:(left)) as [sp ->]. cbn [mbind option_bind]. apply IH. intros q. destruct (decide (p = q)) as [<-|Hne].
    + rewrite lookup_delete_eq. split; [done|by intros []].
    + rewrite lookup_delete_ne by done. rewrite <- Hh, elem_of_cons. split; [by right|by intros [->|]].
Qed.

Lemma init_ok ok s : chain_ok s -> chain_ok (init_trace_system ok s).2.
Proof.
  intros H. unfold init_trace_system. destruct (initialized s) eqn:E; [done|]. destruct ok; [|done]. cbn.
  destruct (co_init _ H E) as [Hc Hh]. destruct H as [_ H2 _]. constructor; cbn; [apply NoDup_nil_2| |done]. by rewrite <- Hc.
Qed.

Lemma set_span_ok p sp sp' s : chain_ok s -> heap s !! p = Some sp -> chain_ok (set_heap (<[p := sp']> (heap s)) s).
Proof.
  intros [H1 H2 H3] Hp. constructor; cbn; [done| |].
  - intros q. rewrite H2. destruct (decide (p = q)) as [<-|Hne]; [by rewrite lookup_insert_eq, Hp|by rewrite lookup_insert_ne].
  - intros E. destruct (H3 E) as [_ Hh]. by rewrite Hh, lookup_empty in Hp.
Qed.

Lemma init_initialized ok s : (init_trace_system ok s).1 = 0 -> initialized (init_trace_system ok s).2 = true.
Proof. unfold init_trace_system. destruct (initialized s) eqn:E; [done|]. by destruct ok. Qed.

Lemma trace_step_ok a o s s' : chain_ok s -> trace_step a o s = Some s' -> chain_ok s'.
Proof.
  intros H. destruct o as [[nm|] parent|[p|]|[p|] [nm|] attrs|]; cbn [trace_step airy_trace_begin airy_trace_end airy_trace_add_event snd];
    try (by intros [= <-]).
  - pose proof (init_ok (mtx_ok a) s H) as Hi. pose proof (init_initialized (mtx_ok a) s) as Hii.
    destruct (init_trace_system (mtx_ok a) s) as [err s1]. cbn [fst snd] in *. clear H.
    destruct (Z.eqb_spec err 0) as [->|]; cbn [negb]; [|by intros [= <-]]. specialize (Hii eq_refl).
    destruct Hi as [H1 H2 H3]. destruct (malloc_ok a), (span_mtx_ok a); cbn [negb snd]; intros [= <-]; try done.
    set (p := fresh (dom (heap s1))). assert (Hp : p ∉ dom (heap s1)) by apply is_fresh. clearbody p.
    constructor; cbn; [| |congruence].
    + apply NoDup_app. split_and!; [done| |apply NoDup_singleton]. intros q Hq ->%list_elem_of_singleton. apply Hp, elem_of_dom. by apply H2.
    + intros q. rewrite elem_of_app, list_elem_of_singleton, H2. destruct (decide (q = p)) as [->|Hne].
      * rewrite lookup_insert_eq. split; [done|by right].
      * rewrite lookup_insert_ne by done. split; [by intros [|]|by left].
  - destruct (heap s !! p) as [sp|] eqn:E; [|done]. cbn [mbind option_bind]. destruct (status sp =? 0); cbn [negb]; intros [= <-]; [by eapply set_span_ok|done].
  - destruct (heap s !! p) as [sp|] eqn:E; [|done]. cbn [mbind option_bind]. repeat case_match; intros [= <-]; try done. by eapply set_span_ok.
  - unfold airy_trace_cleanup. destruct (initialized s) eqn:Ei; cbn [negb]; [|by intros [= <-]].
    rewrite free_spans_ok by apply H. cbn. intros [= <-]. constructor; cbn; [apply NoDup_nil_2| |done].
    intros p. rewrite lookup_empty. split; [by intros Hp%not_elem_of_nil|by intros []].
Qed.

(** ** Identifiers *)

Lemma hex_min_digits w v : 0 <= v -> v < 16 ^ Z.of_nat (Nat.max w (Z.to_nat (Z.log2 v / 4 + 1))).
Proof.
  intros Hv. destruct (Z.eq_dec v 0) as [->|Hne]; [apply Z.pow_pos_nonneg; lia|].
  pose proof (Z.log2_spec v ltac:(lia)) as [_ Hlt]. pose proof (Z.log2_nonneg v).
  pose proof (Z.div_mod (Z.log2 v) 4 ltac:(lia)). pose proof (Z.mod_pos_bound (Z.log2 v) 4 ltac:(lia)).
  apply Z.lt_le_trans with (1 := Hlt). change 16 with (2 ^ 4). rewrite <- Z.pow_mul_r by lia. apply Z.pow_le_mono_r; lia.
Qed.

Lemma hex_min_length w k v : 0 <= v < 16 ^ Z.of_nat k -> (w <= k)%nat -> (0 < k)%nat -> (w <= length (hex_min w v) <= k)%nat.
Proof.
  intros Hv Hw Hk. unfold hex_min. rewrite hexw_length. split; [lia|].
  assert (Hl : Z.log2 v < 4 * Z.of_nat k).
  { destruct (Z.eq_dec v 0) as [->|]; [cbn; lia|]. apply Z.log2_lt_pow2; [lia|]. rewrite Z.pow_mul_r by lia. change (2 ^ 4) with 16. lia. }
  pose proof (Z.div_lt_upper_bound (Z.log2 v) 4 (Z.of_nat k) ltac:(lia) ltac:(lia)). pose proof (Z.log2_nonneg v). pose proof (Z.div_pos (Z.log2 v) 4). lia.
Qed.

Lemma hex_min_inj w v v' : (w <= 16)%nat -> 0 <= v < 2 ^ 64 -> 0 <= v' < 2 ^ 64 -> hex_min w v = hex_min w v' -> v = v'.
Proof.
  intros Hw Hv Hv' E. pose proof (hex_min_length w 16 v ltac:(change (16 ^ Z.of_nat 16) with (2 ^ 64); lia) Hw ltac:(lia)) as Hl.
  pose proof (hex_min_length w 16 v' ltac:(change (16 ^ Z.of_nat 16) with (2 ^ 64); lia) Hw ltac:(lia)) as Hl'.
  unfold hex_min in *. rewrite hexw_length in *.
  assert (H : parse_hex_loop (hexw (Nat.max w (Z.to_nat (Z.log2 v / 4 + 1))) v) 0 = Some v) by (apply parse_hexw; [lia|split; [lia|apply hex_min_digits; lia]]).
  rewrite E, parse_hexw in H; [congruence|lia|]. split; [lia|apply hex_min_digits; lia].
Qed.

(** Below 2^44 spans the identifiers are whole, and tell the counter. *)
Lemma span_id_inj t t' c c' :
  0 <= c < 2 ^ 44 -> 0 <= c' < 2 ^ 44 ->
  generate_id MAX_SPAN_ID_LEN t c (cs "sp") = generate_id MAX_SPAN_ID_LEN t' c' (cs "sp") -> c = c'.
Proof.
  intros Hc Hc'. unfold generate_id, MAX_SPAN_ID_LEN. cbn [snprintf_into].
  assert (Ht : forall t, length (hex_min 16 (u64 t)) = 16%nat).
  { intros x. pose proof (hex_min_length 16 16 (u64 x) (u64_range x) ltac:(lia) ltac:(lia)). lia. }
  assert (Hl : forall x c, 0 <= c < 2 ^ 44 -> take 31 (cs "sp" ++ cs "-" ++ hex_min 16 (u64 x) ++ cs "-" ++ hex_min 8 c)
    = (cs "sp" ++ cs "-" ++ hex_min 16 (u64 x) ++ cs "-") ++ hex_min 8 c).
  { intros x d Hd. pose proof (hex_min_length 8 11 d ltac:(change (16 ^ Z.of_nat 11) with (2 ^ 44); lia) ltac:(lia) ltac:(lia)).
    rewrite take_ge; [by rewrite <- !app_assoc|]. rewrite !length_app, Ht. cbn [cs length]. lia. }
  rewrite !Hl by done. intros E. apply app_inj_1 in E as [_ E]; [|rewrite !length_app, !Ht; done].
  apply hex_min_inj in E; [done|lia|lia|lia].
Qed.

(** Every object has an identifier of its own counter. *)
Definition ids_ok (s : trace_state) : Prop :=
  exists c : positive -> Z,
    (forall p sp, heap s !! p = Some sp -> 0 <= c p < span_counter s /\ exists t, span_id sp = generate_id MAX_SPAN_ID_LEN t (c p) (cs "sp")) /\
    (forall p q, is_Some (heap s !! p) -> is_Some (heap s !! q) -> c p = c q -> p = q).

Lemma set_span_ids p sp sp' s : ids_ok s -> heap s !! p = Some sp -> span_id sp' = span_id sp -> ids_ok (set_heap (<[p := sp']> (heap s)) s).
Proof.
  intros (c & H1 & H2) Hp Hi. exists c. cbn. assert (Hd : forall q, is_Some (<[p := sp']> (heap s) !! q) -> is_Some (heap s !! q)).
  { intros q. destruct (decide (p = q)) as [<-|]; [by rewrite Hp|by rewrite lookup_insert_ne]. }
  split; [|by eauto]. intros q sq. destruct (decide (p = q)) as [<-|Hne].
  - rewrite lookup_insert_eq. intros [= <-]. rewrite Hi. by apply H1.
  - rewrite lookup_insert_ne by done. apply H1.
Qed.

Lemma begin_ids a nm parent s s' :
  chain_ok s -> ids_ok s -> 0 <= span_counter s < 2 ^ 44 -> (airy_trace_begin a nm parent s).2 = s' ->
  ids_ok s' /\ 0 <= span_counter s' <= span_counter s + 1.
Proof.
  intros Hok Hids Hc. unfold airy_trace_begin. destruct nm as [nm|]; [|cbn [snd]; intros <-; split; [done|lia]].
  assert (Hi : ids_ok (init_trace_system (mtx_ok a) s).2 /\ 0 <= span_counter (init_trace_system (mtx_ok a) s).2 <= span_counter s).
  { unfold init_trace_system. destruct (initialized s) eqn:E; [split; [done|cbn; lia]|]. destruct (mtx_ok a); cbn; [|split; [done|lia]].
    destruct (co_init _ Hok E) as [_ Hh]. split; [|lia]. exists (fun _ => 0). cbn. rewrite Hh. split; [by intros p sp ?%lookup_empty_Some|].
    intros p q [x Hx%lookup_empty_Some]. done. }
  destruct (init_trace_system (mtx_ok a) s) as [err s1]. cbn [snd] in Hi. destruct Hi as [(c & H1 & H2) Hc1].
  destruct (err =? 0); cbn [negb snd]; [|intros <-; split; [by exists c|lia]].
  destruct (malloc_ok a); cbn [negb snd]; [|intros <-; split; [by exists c|lia]].
  destruct (span_mtx_ok a); cbn [negb snd]; intros <-; cbn [span_counter heap]; rewrite (u64_small (span_counter s1 + 1)) by lia; (split; [|lia]).
  2: { exists c. cbn. split; [|done]. intros p sp Hp. destruct (H1 p sp Hp). split; [lia|done]. }
  cbn [snd heap]. set (p := fresh (dom (heap s1))). assert (Hp : heap s1 !! p = None) by (apply not_elem_of_dom, is_fresh). clearbody p.
  exists (fun q => if decide (q = p) then span_counter s1 else c q). cbn [heap span_counter]. split.
  - intros q sq. destruct (decide (q = p)) as [->|Hne].
    + rewrite lookup_insert_eq. intros [= <-]. split; [lia|by eexists].
    + rewrite lookup_insert_ne by done. intros Hq. destruct (H1 q sq Hq) as [Hb Ht]. split; [lia|done].
  - intros q r [x Hq] [y Hr] E. destruct (decide (q = p)) as [->|Hq'], (decide (r = p)) as [->|Hr']; try done.
    + rewrite lookup_insert_ne in Hr by done. destruct (H1 _ _ Hr). lia.
    + rewrite lookup_insert_ne in Hq by done. destruct (H1 _ _ Hq). lia.
    + rewrite lookup_insert_ne in Hq, Hr by done. apply H2; eauto.
Qed.

Lemma step_ids a o s s' :
  chain_ok s -> ids_ok s -> 0 <= span_counter s < 2 ^ 44 -> trace_step a o s = Some s' ->
  ids_ok s' /\ 0 <= span_counter s' <= span_counter s + 1.
Proof.
  intros Hok Hids Hc. destruct o as [nm parent|[p|]|[p|] [nm|] attrs|]; cbn [trace_step airy_trace_end airy_trace_add_event];
    try (intros [= <-]; split; [done|lia]).
  - intros [= <-]. by eapply begin_ids.
  - destruct (heap s !! p) as [sp|] eqn:E; [|done]. cbn [mbind option_bind].
    destruct (status sp =? 0); cbn [negb]; intros [= <-]; (split; [|cbn; lia]); [by eapply set_span_ids|done].
  - destruct (heap s !! p) as [sp|] eqn:E; [|done]. cbn [mbind option_bind].
    repeat case_match; intros [= <-]; (split; [|cbn; lia]); try done. by eapply set_span_ids.
  - unfold airy_trace_cleanup. destruct (initialized s) eqn:Ei; cbn [negb]; [|intros [= <-]; split; [done|lia]].
    rewrite free_spans_ok by apply Hok. cbn. intros [= <-]. split; [|cbn; lia]. exists (fun _ => 0). cbn.
    split; [by intros p sp ?%lookup_empty_Some|]. intros p q [x Hx%lookup_empty_Some]. done.
Qed.

Lemma run_ids l s s' :
  chain_ok s -> ids_ok s -> 0 <= span_counter s -> span_counter s + Z.of_nat (length l) <= 2 ^ 44 -> trace_run l s = Some s' ->
  chain_ok s' /\ ids_ok s' /\ 0 <= span_counter s' <= 2 ^ 44.
Proof.
  revert s; induction l as [|[a o] l IH]; intros s Hok Hids H0 Hl; cbn [trace_run length] in *; [intros [= <-]; split_and!; (done || lia)|].
  destruct (trace_step a o s) as [s1|] eqn:E; [|done]. cbn [mbind option_bind]. destruct (step_ids a o s s1) as [H1 H2]; try done; [lia|].
  apply IH; [by eapply trace_step_ok|done|lia|lia].
Qed.

Lemma no_trace_ok : chain_ok no_trace.
Proof.
  constructor; [apply NoDup_nil_2| |done]. intros p. cbn. rewrite lookup_empty. split; [by intros Hp%not_elem_of_nil|by intros []].
Qed.

Lemma no_trace_ids : ids_ok no_trace.
Proof. exists (fun _ => 0). cbn. split; [by intros p sp ?%lookup_empty_Some|]. intros p q [x Hx%lookup_empty_Some]. done. Qed.

(** In a process that makes at most 2^44 calls, the spans that are alive at
    any time have different identifiers, whatever the clock did, and the chain
    holds each of them once. *)
Theorem span_ids_distinct l s :
  Z.of_nat (length l) <= 2 ^ 44 -> trace_run l no_trace = Some s ->
  NoDup (chain s) /\ forall p q x y, heap s !! p = Some x -> heap s !! q = Some y -> span_id x = span_id y -> p = q.
Proof.
  intros Hl Hr. destruct (run_ids l no_trace s no_trace_ok no_trace_ids ltac:(done) Hl Hr) as (Hok & (c & H1 & H2) & Hc).
  split; [apply Hok|]. intros p q x y Hp Hq E. destruct (H1 p x Hp) as [Hcp [t Ht]], (H1 q y Hq) as [Hcq [t' Ht']].
  apply H2; [done|done|]. rewrite Ht, Ht' in E. apply span_id_inj in E; [done|lia|lia].
Qed.

Definition good (t : Z) : answers := Answers t t true true true.

Lemma span_ids_distinct_witness :
  exists s x y, trace_run [(good 5, Begin (Some (cs "a")) None); (good 5, Begin (Some (cs "b")) None)] no_trace = Some s
    /\ heap s !! 1%positive = Some x /\ heap s !! 2%positive = Some y /\ span_id x <> span_id y.
Proof.
  destruct (trace_run [(good 5, Begin (Some (cs "a")) None); (good 5, Begin (Some (cs "b")) None)] no_trace) as [s|] eqn:E; [|vm_compute in E; done].
  pose proof E as E'. apply span_ids_distinct in E' as [_ H]; [|cbn [length]; lia]. vm_compute in E. injection E as <-.
  do 3 eexists. split; [done|]. split; [vm_compute; reflexivity|]. split; [vm_compute; reflexivity|].
  intros Hs. specialize (H 1%positive 2%positive _ _ ltac:(vm_compute; reflexivity) ltac:(vm_compute; reflexivity) Hs). done.
Defined.

(** ** What the calls leave in a span *)

(** The events added to a span, and the times at which it was ended. *)
Definition added_to (p : positive) (c : answers * trace_op) : list trace_event_t :=
  match c with
  | (a, AddEvent (Some q) (Some n) attrs) => if decide (q = p) then if malloc_ok a then [create_event (us a) n attrs] else [] else []
  | _ => []
  end.
Definition ended_at (p : positive) (c : answers * trace_op) : list Z :=
  match c with (a, End_ (Some q)) => if decide (q = p) then [us a] else [] | _ => [] end.

Definition added (p : positive) (l : list (answers * trace_op)) : list trace_event_t := concat (map (added_to p) l).
Definition ended (p : positive) (l : list (answers * trace_op)) : list Z := concat (map (ended_at p) l).

Definition after_calls (evs : list trace_event_t) (ends : list Z) (sp : airy_trace_span) : airy_trace_span :=
  Span (trace_id sp) (span_id sp) (parent_id sp) (name sp) (start_time sp)
    (if status sp =? 0 then default (end_time sp) (head ends) else end_time sp)
    (if status sp =? 0 then match ends with [] => 0 | _ => 1 end else status sp)
    (events sp ++ take (MAX_EVENTS_PER_SPAN - length (events sp)) evs).

Lemma begin_other a nm parent s p sp :
  heap s !! p = Some sp -> heap (airy_trace_begin a nm parent s).2 !! p = Some sp.
Proof.
  intros Hp. unfold airy_trace_begin. destruct nm as [nm|]; [|done].
  assert (Hh : heap (init_trace_system (mtx_ok a) s).2 = heap s) by (unfold init_trace_system; by repeat case_match).
  destruct (init_trace_system (mtx_ok a) s) as [err s1]. cbn [snd] in Hh. rewrite <- Hh in Hp. repeat case_match; try done.
  cbn [snd heap]. rewrite lookup_insert_ne; [done|]. intros E. pose proof (is_fresh (dom (heap s1))) as Hf. cbn [heap] in E. rewrite E in Hf.
  by apply not_elem_of_dom in Hf; rewrite Hf in Hp.
Qed.

Lemma step_span a o s s' p sp :
  o <> Cleanup -> heap s !! p = Some sp -> status sp = 0 \/ status sp = 1 -> trace_step a o s = Some s' ->
  heap s' !! p = Some (after_calls (added_to p (a, o)) (ended_at p (a, o)) sp).
Proof.
  intros Hc Hp Hst. assert (Hid : sp = after_calls [] [] sp).
  { unfold after_calls. rewrite take_nil, app_nil_r. destruct sp; cbn in *. destruct Hst as [-> | ->]; done. }
  destruct o as [nm parent|[q|]|[q|] [nm|] attrs|]; cbn [trace_step airy_trace_end airy_trace_add_event added_to ended_at];
    try (intros [= <-]; by rewrite <- Hid); try done.
  - intros [= <-]. rewrite <- Hid. by apply begin_other.
  - destruct (heap s !! q) as [sq|] eqn:Eq; [|done]. cbn [mbind option_bind]. destruct (decide (q = p)) as [->|Hne].
    + rewrite Hp in Eq. injection Eq as <-. unfold after_calls. rewrite take_nil, app_nil_r.
      destruct (status sp =? 0) eqn:E0; cbn [negb]; intros [= <-]; [cbn; by rewrite lookup_insert_eq|]. rewrite Hp. by destruct sp.
    + destruct (negb _); intros [= <-]; rewrite <- Hid; [done|]. cbn. by rewrite lookup_insert_ne.
  - destruct (heap s !! q) as [sq|] eqn:Eq; [|done]. cbn [mbind option_bind]. destruct (decide (q = p)) as [->|Hne].
    + rewrite Hp in Eq. injection Eq as <-. replace (status sp =? 2) with false by lia.
      destruct (Nat.leb_spec MAX_EVENTS_PER_SPAN (length (events sp))) as [Hfull|Hroom]; [|destruct (malloc_ok a)]; cbn [negb]; intros [= <-].
      * rewrite Hp. f_equal. rewrite Hid at 1. unfold after_calls. replace (_ - _)%nat with O by lia. by rewrite !take_0.
      * cbn. rewrite lookup_insert_eq. f_equal. unfold after_calls, push_event. rewrite take_ge by (cbn [length]; lia).
        destruct (Z.eqb_spec (status sp) 0) as [->|]; done.
      * rewrite Hp. f_equal. done.
    + repeat case_match; intros [= <-]; rewrite <- Hid; try done; cbn; by rewrite lookup_insert_ne.
Qed.

Lemma after_calls_app e1 e2 t1 t2 sp :
  status sp = 0 \/ status sp = 1 ->
  after_calls e2 t2 (after_calls e1 t1 sp) = after_calls (e1 ++ e2) (t1 ++ t2) sp.
Proof.
  intros Hst. unfold after_calls. cbn [trace_id span_id parent_id name start_time end_time status events].
  assert (He : (events sp ++ take (MAX_EVENTS_PER_SPAN - length (events sp)) e1) ++
    take (MAX_EVENTS_PER_SPAN - length (events sp ++ take (MAX_EVENTS_PER_SPAN - length (events sp)) e1)) e2
    = events sp ++ take (MAX_EVENTS_PER_SPAN - length (events sp)) (e1 ++ e2)).
  { rewrite take_app, <- app_assoc, length_app, length_take. do 2 f_equal. f_equal. lia. }
  rewrite He. destruct Hst as [-> | ->]; cbn; [|done]. by destruct t1, t2.
Qed.

Lemma after_calls_status e t sp : status sp = 0 \/ status sp = 1 -> status (after_calls e t sp) = 0 \/ status (after_calls e t sp) = 1.
Proof. intros [H|H]; unfold after_calls; cbn; rewrite H; cbn; [destruct t; auto|auto]. Qed.

Lemma run_span l s s' p sp :
  Forall (fun c => c.2 <> Cleanup) l -> heap s !! p = Some sp -> status sp = 0 \/ status sp = 1 -> trace_run l s = Some s' ->
  heap s' !! p = Some (after_calls (added p l) (ended p l) sp).
Proof.
  intros Hl. revert s sp; induction Hl as [|[a o] l Ho Hl IH]; intros s sp Hp Hst; cbn [trace_run].
  - intros [= <-]. rewrite Hp. f_equal. unfold after_calls, added, ended. cbn [map concat]. rewrite take_nil, app_nil_r. destruct sp; cbn in *. by destruct Hst as [-> | ->].
  - destruct (trace_step a o s) as [s1|] eqn:E; [|done]. cbn [mbind option_bind]. intros Hr. pose proof (step_span a o s s1 p sp Ho Hp Hst E) as H1.
    rewrite (IH s1 _ H1 (after_calls_status _ _ _ Hst) Hr). f_equal. by apply after_calls_app.
Qed.

(** A span that was begun and not cleaned up holds, after any calls, the
    first sixty-four of the events added to it that got memory, in order, and
    the time of the first call that ended it; it stays running without one, and
    its names and its start are those of its beginning. *)
Theorem span_life a n parent s p s1 l s2 :
  airy_trace_begin a (Some n) parent s = (Some p, s1) -> Forall (fun c => c.2 <> Cleanup) l -> trace_run l s1 = Some s2 ->
  exists sp, heap s2 !! p = Some sp /\ name sp = strncpy_term 128 n /\ start_time sp = us a
    /\ events sp = take MAX_EVENTS_PER_SPAN (added p l)
    /\ end_time sp = default 0 (head (ended p l)) /\ status sp = match ended p l with [] => 0 | _ => 1 end.
Proof.
  unfold airy_trace_begin. destruct (init_trace_system (mtx_ok a) s) as [err s0].
  destruct (err =? 0); cbn [negb]; [|done]. destruct (malloc_ok a); cbn [negb]; [|done]. destruct (span_mtx_ok a); cbn [negb]; [|done].
  intros [= <- <-] Hl Hr. eapply run_span in Hr; [|done|cbn [heap]; by rewrite lookup_insert_eq|by left].
  eexists. split; [exact Hr|]. split_and!; try done.
Qed.

Lemma span_life_witness :
  exists s1 s2 sp, airy_trace_begin (good 5) (Some (cs "a")) None no_trace = (Some 1%positive, s1)
    /\ trace_run [(good 6, AddEvent (Some 1%positive) (Some (cs "e")) None); (good 7, End_ (Some 1%positive)); (good 8, End_ (Some 1%positive))] s1 = Some s2
    /\ heap s2 !! 1%positive = Some sp /\ events sp = [Event (cs "e") 6 []] /\ end_time sp = 7 /\ status sp = 1.
Proof.
  destruct (airy_trace_begin (good 5) (Some (cs "a")) None no_trace) as [p s1] eqn:E.
  assert (Hp : p = Some 1%positive) by (by vm_compute in E; injection E as <- _). subst p.
  destruct (trace_run [(good 6, AddEvent (Some 1%positive) (Some (cs "e")) None); (good 7, End_ (Some 1%positive)); (good 8, End_ (Some 1%positive))] s1) as [s2|] eqn:E2.
  - pose proof E2 as E3. eapply span_life in E3 as (sp & H1 & _ & _ & H2 & H3 & H4); [|exact E|by repeat constructor].
    exists s1, s2, sp. split_and!; [done|done|exact H1|rewrite H2; vm_compute; reflexivity|rewrite H3; vm_compute; reflexivity|rewrite H4; vm_compute; reflexivity].
  - vm_compute in E. injection E as <-. vm_compute in E2. done.
Defined.

(** ** The export *)

Definition nonzero_opt (s : option cstr) : Prop := nonzero (default [] s).

Record span_text (sp : airy_trace_span) : Prop := SpanText {
  st_trace : nonzero (trace_id sp);
  st_span : nonzero (span_id sp);
  st_parent : nonzero (parent_id sp);
  st_name : nonzero (name sp);
  st_events : Forall (fun e => nonzero (ev_name e) /\ nonzero (attributes e)) (events sp);
}.

Definition call_text (c : answers * trace_op) : Prop :=
  match c.2 with Begin nm parent => nonzero_opt nm /\ nonzero_opt parent | AddEvent _ nm attrs => nonzero_opt nm /\ nonzero_opt attrs | _ => True end.

Definition heap_text (s : trace_state) : Prop := map_Forall (fun _ => span_text) (heap s).

Lemma nonzero_hexw n v : 0 <= v -> nonzero (hexw n v).
Proof.
  revert v; induction n as [|n IH]; intros v Hv; [constructor|]. cbn [hexw]. apply Forall_app_2; [apply IH, Z.div_pos; lia|].
  pose proof (Z.mod_pos_bound v 16). apply Forall_singleton. unfold hex_digit. case_match; lia.
Qed.

Lemma nonzero_id size t c prefix : 0 <= c -> nonzero prefix -> nonzero (generate_id size t c prefix).
Proof.
  intros Hc Hp. unfold generate_id. destruct size as [|n]; [constructor|]. apply Forall_take. pose proof (u64_range t).
  repeat apply Forall_app_2; try (by repeat constructor); try done; apply nonzero_hexw; lia.
Qed.

Lemma counters_ok s a o s' :
  0 <= span_counter s -> 0 <= trace_counter s -> trace_step a o s = Some s' -> 0 <= span_counter s' /\ 0 <= trace_counter s'.
Proof.
  intros H1 H2. assert (Hi : forall ok, 0 <= span_counter (init_trace_system ok s).2 /\ 0 <= trace_counter (init_trace_system ok s).2).
  { intros ok. unfold init_trace_system. by repeat case_match. }
  destruct o as [[nm|] parent|[p|]|[p|] [nm|] attrs|]; cbn [trace_step airy_trace_begin airy_trace_end airy_trace_add_event snd];
    try (by intros [= <-]).
  - specialize (Hi (mtx_ok a)). destruct (init_trace_system (mtx_ok a) s) as [err s1]. cbn [snd] in Hi.
    pose proof (u64_range (span_counter s1 + 1)). pose proof (u64_range (trace_counter s1 + 1)).
    repeat case_match; intros [= <-]; cbn [snd span_counter trace_counter]; lia.
  - destruct (heap s !! p); [|done]. cbn [mbind option_bind]. by case_match; intros [= <-].
  - destruct (heap s !! p); [|done]. cbn [mbind option_bind]. by repeat case_match; intros [= <-].
  - unfold airy_trace_cleanup. case_match; [by intros [= <-]|]. destruct (free_spans _ _); [|done]. cbn. by intros [= <-].
Qed.

Lemma free_spans_text l h h' : map_Forall (fun _ => span_text) h -> free_spans l h = Some h' -> map_Forall (fun _ => span_text) h'.
Proof.
  revert h; induction l as [|p l IH]; intros h Hh; cbn [free_spans]; [by intros [= <-]|]. destruct (h !! p); [|done]. cbn [mbind option_bind].
  apply IH. by apply map_Forall_delete.
Qed.

Lemma step_text a o s s' :
  call_text (a, o) -> 0 <= span_counter s -> 0 <= trace_counter s -> heap_text s -> trace_step a o s = Some s' -> heap_text s'.
Proof.
  intros Hc H1 H2 Hs. destruct o as [[nm|] parent|[p|]|[p|] [nm|] attrs|]; cbn [trace_step airy_trace_begin airy_trace_end airy_trace_add_event snd];
    try (by intros [= <-]).
  - assert (Hi : heap (init_trace_system (mtx_ok a) s).2 = heap s /\ 0 <= span_counter (init_trace_system (mtx_ok a) s).2 /\ 0 <= trace_counter (init_trace_system (mtx_ok a) s).2).
    { unfold init_trace_system. by repeat case_match. }
    destruct (init_trace_system (mtx_ok a) s) as [err s1]. cbn [snd] in Hi. destruct Hi as (Hh & H3 & H4). unfold heap_text in *. rewrite <- Hh in Hs.
    destruct (err =? 0), (malloc_ok a), (span_mtx_ok a); cbn [negb snd]; intros [= <-]; cbn [heap]; try done. apply map_Forall_insert_2; [|done].
    destruct Hc as [Hn Hp]. constructor; unfold new_span; cbn [trace_id span_id parent_id name events].
    1, 2: apply nonzero_id; [done|by repeat constructor].
    + destruct parent; [by apply Forall_take|constructor].
    + by apply Forall_take.
    + constructor.
  - destruct (heap s !! p) as [sp|] eqn:E; [|done]. cbn [mbind option_bind]. case_match; intros [= <-]; [done|].
    apply map_Forall_insert_2; [|done]. destruct (Hs p sp E). by constructor.
  - destruct (heap s !! p) as [sp|] eqn:E; [|done]. cbn [mbind option_bind]. repeat case_match; intros [= <-]; try done.
    apply map_Forall_insert_2; [|done]. destruct (Hs p sp E). destruct Hc as [Hn Ha]. constructor; try done. cbn. apply Forall_app_2; [done|].
    apply Forall_singleton. split; [by apply Forall_take|]. cbn. destruct attrs; [by apply Forall_take|constructor].
  - unfold airy_trace_cleanup. case_match; [by intros [= <-]|]. destruct (free_spans _ _) eqn:E; [|done]. cbn. intros [= <-]. by eapply free_spans_text.
Qed.

Lemma run_text l s s' :
  Forall call_text l -> 0 <= span_counter s -> 0 <= trace_counter s -> heap_text s -> trace_run l s = Some s' -> heap_text s'.
Proof.
  intros Hl. revert s; induction Hl as [|[a o] l Ho Hl IH]; intros s H1 H2 Hs; cbn [trace_run]; [by intros [= <-]|].
  destruct (trace_step a o s) as [s1|] eqn:E; [|done]. cbn [mbind option_bind]. destruct (counters_ok s a o s1 H1 H2 E) as [H3 H4].
  apply IH; [done|done|]. exact (step_text a o s s1 Ho H1 H2 Hs E).
Qed.

(** *** The pieces have no NUL *)

Lemma nonzero_fmt_d n : nonzero (fmt_d n).
Proof. unfold fmt_d. case_match; [constructor; [done|]|]; apply text_ok_digits. Qed.

Lemma nonzero_lit s : forallb (fun c => negb (c =? 0)) s = true -> nonzero s.
Proof. intros H. apply text_ok_lit, H. Qed.

Lemma nonzero_app s t : nonzero s -> nonzero t -> nonzero (s ++ t).
Proof. apply Forall_app_2. Qed.

Create HintDb trace_text.
#[export] Hint Resolve nonzero_fmt_d st_trace st_span st_parent st_name : trace_text.
Ltac no_nul :=
  lazymatch goal with
  | |- nonzero (_ ++ _) => apply nonzero_app; no_nul
  | |- nonzero (quoted _) => unfold quoted; no_nul
  | |- nonzero (line _ _) => unfold line; no_nul
  | |- Forall nonzero (_ :: _) => apply Forall_cons_2; no_nul
  | |- Forall nonzero [] => apply Forall_nil_2
  | |- Forall nonzero (_ ++ _) => apply Forall_app_2; no_nul
  | |- _ => first [solve [eauto 2 with trace_text] | solve [apply nonzero_lit; vm_compute; reflexivity] | idtac]
  end.

Lemma nonzero_status st : nonzero (status_text st).
Proof. unfold status_text. repeat case_match; by apply nonzero_lit. Qed.
#[export] Hint Resolve nonzero_status : trace_text.

Lemma event_pieces_text first e : nonzero (ev_name e) -> nonzero (attributes e) -> Forall nonzero (event_pieces first e).
Proof. intros H1 H2. unfold event_pieces. destruct first, (attributes e); no_nul. Qed.

Lemma events_pieces_text first l : Forall (fun e => nonzero (ev_name e) /\ nonzero (attributes e)) l -> Forall nonzero (events_pieces first l).
Proof.
  intros Hl. revert first; induction Hl as [|e l [H1 H2] Hl IH]; intros first; [constructor|]. cbn [events_pieces].
  apply Forall_app_2; [by apply event_pieces_text|apply IH].
Qed.

Lemma span_pieces_text first sp : span_text sp -> Forall nonzero (span_pieces first sp).
Proof.
  intros H. pose proof (events_pieces_text true _ (st_events _ H)) as He. pose proof (st_parent _ H) as Hp.
  unfold span_pieces. destruct first, (parent_id sp), (0 <? end_time sp), (0 <? length (events sp))%nat; no_nul; done.
Qed.

(** *** The loop *)

Lemma holds_grow m s k : holds m s -> holds (m ++ replicate k None) s.
Proof. intros [rest ->]. rewrite <- app_assoc. by eexists. Qed.

Fixpoint document (first : bool) (l : list airy_trace_span) : list cstr :=
  match l with [] => [[10] ++ cs "]"] | sp :: l' => span_pieces first sp ++ document false l' end.

Lemma span_pieces_nonempty first sp : span_pieces first sp <> [].
Proof. unfold span_pieces. by destruct first. Qed.

Definition short (sp : airy_trace_span) : Prop := (length (concat (span_pieces false sp)) <= 512)%nat.

Lemma short_first first sp : short sp -> (length (concat (span_pieces first sp)) <= 512)%nat.
Proof.
  unfold short. destruct first; [|done]. change (span_pieces false sp) with ([cs "," ++ [10]] ++ span_pieces true sp).
  rewrite concat_app, length_app. cbn [concat length app cs]. lia.
Qed.

Lemma export_loop_exact grant l k size m s first :
  holds m s -> length m = size -> (length s + 512 < size)%nat -> (size <= 4096 + 2 * (length s + 512))%nat ->
  Forall short l -> Z.of_nat (length s + length (concat (document first l))) < 2 ^ 60 ->
  (export_loop grant k size (m, length s) first l = Null /\ exists j, grant j = false) \/
  (exists m', export_loop grant k size (m, length s) first l = Buffer m' /\ holds m' (s ++ concat (document first l))).
Proof.
  revert k size m s first; induction l as [|sp l IH]; intros k size m s first Hh Hm Hroom Hsize Hl Htot; cbn [export_loop document] in *.
  - destruct (append_fits m s ([10] ++ cs "]") size) as (m' & -> & _ & H2); [by apply holds_starts|done|cbn; lia|lia|]. right. exists m'. split; [done|].
    cbn [concat]. by rewrite app_nil_r.
  - apply Forall_cons in Hl as [Hsp Hl]. pose proof (short_first first sp Hsp) as Hlen. rewrite concat_app, length_app in Htot.
    destruct (appends_fit m s (span_pieces first sp) size) as (m' & -> & H1 & H2);
      [by apply holds_starts|done|lia|lia|apply span_pieces_nonempty|]. cbn [fst snd]. rewrite concat_app, app_assoc.
    set (s' := s ++ concat (span_pieces first sp)) in *. assert (Hs' : length s' = (length s + length (concat (span_pieces first sp)))%nat) by apply length_app.
    clearbody s'. replace (512 <? size)%nat with true by (symmetry; apply Nat.ltb_lt; lia). cbn [andb].
    destruct (Nat.leb_spec (size - 512) (length s')) as [Hfull|Hok].
    + destruct (grant k) eqn:Hg; cbn [negb]; [|left; eauto]. apply IH; try done; [by apply holds_grow|rewrite length_app, length_replicate; lia|lia|lia|lia].
    + apply IH; try done; lia.
Qed.

Lemma document_text first l : Forall span_text l -> Forall nonzero (document first l).
Proof.
  intros Hl. revert first; induction Hl as [|sp l Hsp Hl IH]; intros first; cbn [document]; [no_nul|].
  apply Forall_app_2; [by apply span_pieces_text|apply IH].
Qed.

Lemma nonzero_concat l : Forall nonzero l -> nonzero (concat l).
Proof. induction 1; [constructor|]. cbn [concat]. by apply nonzero_app. Qed.

(** Whatever calls were made, when every span that is alive takes at most
    512 bytes the export never writes outside its buffer, is NULL only if the
    allocator refused, and otherwise is exactly the list of the spans in the
    order in which they began. *)
Theorem trace_export_exact grant l s spans :
  Forall call_text l -> trace_run l no_trace = Some s -> mapM (fun p => heap s !! p) (chain s) = Some spans ->
  Forall short spans -> Z.of_nat (length (concat (document true spans))) < 2 ^ 59 ->
  exists r s', airy_trace_export true grant s = Some (r, s') /\
    ((r = Null /\ exists j, grant j = false) \/
     exists m, r = Buffer m /\ read_str m = Some ((cs "[" ++ [10]) ++ concat (document true spans))).
Proof.
  intros Hl Hr Hspans Hshort Htot. assert (Ht : heap_text s) by (apply (run_text l no_trace); [done|done|done|apply map_Forall_empty|done]).
  assert (Hok : chain_ok s) by (eapply (trace_run_keeps chain_ok (fun _ => True)); [|by apply Forall_true|apply no_trace_ok|exact Hr]; intros ????? H; by apply trace_step_ok).
  assert (Hst : Forall span_text spans).
  { apply Forall_forall. intros sp Hsp. apply mapM_Some_1 in Hspans. apply list_elem_of_lookup_1 in Hsp as [i Hi].
    destruct (Forall2_lookup_r _ _ _ _ _ Hspans Hi) as (p & _ & Hp). by eapply Ht. }
  assert (Hi : exists s', init_trace_system true s = (0, s') /\ chain s' = chain s /\ heap s' = heap s).
  { unfold init_trace_system. destruct (initialized s) eqn:E; [by exists s|]. destruct (co_init _ Hok E) as [-> ->]. by eexists. }
  destruct Hi as (s' & E & Hc & Hh). unfold airy_trace_export. rewrite E. cbn [Z.eqb negb].
  destruct (grant 0%nat) eqn:E0; cbn [negb]; [|eexists _, _; split; [done|left; eauto]]. rewrite Hc, Hh, Hspans. cbn [mbind option_bind].
  destruct (append_fits (fresh_buf BUFFER_SIZE) [] (cs "[" ++ [10]) BUFFER_SIZE) as (m0 & E1 & H1 & H2); [done|apply length_replicate|unfold BUFFER_SIZE; cbn [length app cs]; lia|unfold BUFFER_SIZE; lia|].
  cbn [length app] in E1. rewrite E1. eexists _, _. split; [done|].
  destruct (export_loop_exact grant spans 1 BUFFER_SIZE m0 (cs "[" ++ [10]) true) as [HN|(m & HB & HH)]; try done; try (unfold BUFFER_SIZE; cbn [length app cs]; lia).
  - by left.
  - right. exists m. split; [exact HB|]. apply holds_read; [|done]. apply nonzero_app; [by apply nonzero_lit|]. by apply nonzero_concat, document_text.
Qed.

Definition two_calls : list (answers * trace_op) :=
  [(good 5, Begin (Some (cs "a")) None); (good 6, AddEvent (Some 1%positive) (Some (cs "e")) None); (good 7, End_ (Some 1%positive))].
Definition two_spans : list airy_trace_span :=
  [after_calls [Event (cs "e") 6 []] [7] (new_span (good 5) 0 0 (cs "a") None)].

Lemma trace_export_exact_witness :
  exists s m s', trace_run two_calls no_trace = Some s /\ airy_trace_export true (fun _ => true) s = Some (Buffer m, s')
    /\ read_str m = Some (cs "[" ++ [10] ++ concat (document true two_spans)).
Proof.
  destruct (trace_run two_calls no_trace) as [s|] eqn:E; [|vm_compute in E; done].
  destruct (trace_export_exact (fun _ => true) two_calls s two_spans) as (r & s' & E1 & [[_ [j Hj]]|(m & -> & Hm)]).
  - unfold two_calls. repeat constructor; done.
  - done.
  - vm_compute in E. injection E as <-. vm_compute. done.
  - apply Forall_singleton. vm_compute. lia.
  - vm_compute. done.
  - done.
  - exists s, m, s'. done.
Defined.

(** A span with eight events of 500 bytes leaves the buffer. *)
Theorem trace_export_overruns :
  let add t := (good t, AddEvent (Some 1%positive) (Some (cs "e")) (Some (replicate 500 97))) in
  exists s s', trace_run ((good 5, Begin (Some (cs "a")) None) :: map add [1; 2; 3; 4; 5; 6; 7; 8]) no_trace = Some s
    /\ airy_trace_export true (fun _ => true) s = Some (Overrun, s').
Proof. cbn zeta. eexists _, _. split; [vm_compute; reflexivity|]. vm_compute. reflexivity. Qed.

(** The object of a span without events ends in a comma. *)
Theorem trailing_comma :
  let text := concat (span_pieces true (new_span (good 5) 0 0 (cs "a") None)) in
  drop (length text - 25) text = quoted (cs "status") ++ cs ": " ++ quoted (cs "running") ++ cs "," ++ [10; 10] ++ cs "  }".
Proof. vm_compute. reflexivity. Qed.
