(* ===== verification/ErrCodes.v ===== *)
(** * Error codes and their catalogue: utils/error/error_codes.h,
    include/airy_types.h, include/airymax/error.h, utils/error/error_catalog.c

    The numbers of the three headers (those of airymax/error.h are positive and
    are returned negated), and the table of names, descriptions and severities
    that utils/error/handler.c looks codes up in. *)
From S2P Require Import Prelude.

(** ** include/airymax/error.h: messages and faults *)

Definition AIRY_EIPC_MAGIC : Z := 41.
Definition AIRY_EIPC_OPCODE : Z := 42.
Definition AIRY_EIPC_PAYLOAD : Z := 43.
Definition AIRY_EIPC_HDRSIZE : Z := 44.
Definition AIRY_EIPC_RESERVED : Z := 45.
Definition AIRY_EIPC_FLAGS : Z := 46.
Definition AIRY_EIPC_NOTSUPP : Z := 47.
Definition AIRY_EIPC_KFIFO : Z := 48.
Definition AIRY_EIPC_RECLAIM : Z := 49.
Definition AIRY_EIPC_CONTEXT : Z := 50.
Definition AIRY_EIPC_CRC32 : Z := 51.
Definition AIRY_EIPC_TIMEOUT : Z := 52.
Definition AIRY_EIPC_FROZEN : Z := 53.
Definition AIRY_FAULT_CAP_FORGED : Z := 4097.
Definition AIRY_FAULT_CAP_LEAK : Z := 4098.
Definition AIRY_FAULT_RING_CORRUPT : Z := 4099.
Definition AIRY_FAULT_TIMEOUT : Z := 4100.
Definition AIRY_FAULT_ABNORMAL_CAP : Z := 4101.
Definition AIRY_FAULT_VM_FAULT : Z := 4102.

(** ** include/airy_types.h *)

Definition AIRY_EPERM : Z := -1.
Definition AIRY_EINTR : Z := -4.
Definition AIRY_EIO : Z := -5.
Definition AIRY_EAGAIN : Z := -11.
Definition AIRY_EACCES : Z := -13.
Definition AIRY_EFAULT : Z := -14.
Definition AIRY_EBUSY : Z := -16.
Definition AIRY_ENOSPC : Z := -28.
Definition AIRY_ERANGE : Z := -34.
Definition AIRY_ENOTSUP : Z := -95.
Definition AIRY_EISDIR : Z := -21.
Definition AIRY_ECANCELED : Z := -125.
Definition AIRY_E2BIG : Z := -7.
Definition AIRY_EDEADLK : Z := -35.
Definition AIRY_ENOSYS : Z := -38.
Definition AIRY_EPROTO : Z := -71.
Definition AIRY_EOVERFLOW : Z := -75.
Definition AIRY_EMSGSIZE : Z := -90.
Definition AIRY_ECONNRESET : Z := -104.
Definition AIRY_ENOTCONN : Z := -107.
Definition AIRY_ETIMEDOUT : Z := -110.
Definition AIRY_ECONNREFUSED : Z := -111.
Definition AIRY_EALREADY : Z := -114.
Definition AIRY_ENOTFOUND : Z := -18.
Definition AIRY_ECANCELLED : Z := -10.
Definition AIRY_EUNAVAILABLE : Z := -25.
Definition AIRY_EQUOTA : Z := -26.
Definition AIRY_EPLATFORM : Z := -27.
Definition AIRY_ESERVICE : Z := -29.
Definition AIRY_EFAIL : Z := -31.
Definition AIRY_EUNKNOWN : Z := -99.

(** ** utils/error/error_codes.h *)

Definition AIRY_OK : Z := 0.
Definition AIRY_ENOTDIR : Z := -20.
Definition AIRY_ENAMETOOLONG : Z := -36.
Definition AIRY_ERR_NULL_POINTER : Z := -3.
Definition AIRY_ERR_BUFFER_TOO_SMALL : Z := -37.
Definition AIRY_ERR_ALREADY_EXISTS : Z := -38.
Definition AIRY_ERR_TIMEOUT : Z := -8.
Definition AIRY_ERR_NOT_SUPPORTED : Z := -9.
Definition AIRY_ERR_PERMISSION_DENIED : Z := -39.
Definition AIRY_ERR_IO : Z := -40.
Definition AIRY_ERR_STATE_ERROR : Z := -56.
Definition AIRY_ERR_UNDERFLOW : Z := -15.
Definition AIRY_ERR_CANCELED : Z := -57.
Definition AIRY_ERR_BUSY : Z := -58.
Definition AIRY_ERR_WOULD_BLOCK : Z := -18.
Definition AIRY_ERR_INTERRUPTED : Z := -19.
Definition AIRY_ERR_NOT_IMPLEMENTED : Z := -30.
Definition AIRY_ERR_GENERIC_FAIL : Z := -31.
Definition AIRY_ERR_SYS_BASE : Z := -100.
Definition AIRY_ERR_SYS_NOT_INIT : Z := -101.
Definition AIRY_ERR_SYS_RESOURCE : Z := -102.
Definition AIRY_ERR_SYS_DEADLOCK : Z := -103.
Definition AIRY_ERR_SYS_THREAD : Z := -120.
Definition AIRY_ERR_SYS_SEMAPHORE : Z := -106.
Definition AIRY_ERR_SYS_ATOMIC : Z := -108.
Definition AIRY_ERR_SYS_SOCKET : Z := -109.
Definition AIRY_ERR_SYS_PIPE : Z := -122.
Definition AIRY_ERR_SYS_PROCESS : Z := -123.
Definition AIRY_ERR_SYS_FILE : Z := -112.
Definition AIRY_ERR_SYS_TIME : Z := -113.
Definition AIRY_ERR_KERN_BASE : Z := -200.
Definition AIRY_ERR_KERN_IPC : Z := -201.
Definition AIRY_ERR_KERN_TASK : Z := -202.
Definition AIRY_ERR_KERN_SYNC : Z := -203.
Definition AIRY_ERR_KERN_LOCK : Z := -204.
Definition AIRY_ERR_KERN_MEM : Z := -205.
Definition AIRY_ERR_KERN_SCHED : Z := -206.
Definition AIRY_ERR_KERN_TIMER : Z := -207.
Definition AIRY_ERR_KERN_INTERRUPT : Z := -208.
Definition AIRY_ERR_SVC_BASE : Z := -300.
Definition AIRY_ERR_SVC_BUSY : Z := -302.
Definition AIRY_ERR_SVC_STOPPED : Z := -303.
Definition AIRY_ERR_SVC_CONFIG : Z := -304.
Definition AIRY_ERR_SVC_DEPENDENCY : Z := -305.
Definition AIRY_ERR_SVC_LOADBALANCE : Z := -307.
Definition AIRY_ERR_SVC_CYCLE : Z := -308.
Definition AIRY_ERR_CYCLE_DETECTED : Z := AIRY_ERR_SVC_CYCLE.
Definition AIRY_ERR_LLM_BASE : Z := -400.
Definition AIRY_ERR_LLM_NO_PROVIDER : Z := -401.
Definition AIRY_ERR_LLM_PROVIDER_FAIL : Z := -402.
Definition AIRY_ERR_LLM_RATE_LIMIT : Z := -403.
Definition AIRY_ERR_LLM_CONTEXT_LEN : Z := -404.
Definition AIRY_ERR_LLM_INVALID_MODEL : Z := -405.
Definition AIRY_ERR_LLM_AUTH_FAIL : Z := -406.
Definition AIRY_ERR_LLM_TOKEN_LIMIT : Z := -407.
Definition AIRY_ERR_LLM_PARSE_RESP : Z := -408.
Definition AIRY_ERR_LLM_EMPTY_RESP : Z := -409.
Definition AIRY_ERR_LLM_COST_EXCEED : Z := -410.
Definition AIRY_ERR_GCCP_INTERACTION : Z := -411.
Definition AIRY_ERR_LLM_BAD_REQUEST : Z := -412.
Definition AIRY_ERR_LLM_STREAM_UNDONE : Z := -413.
Definition AIRY_ERR_LLM_TRUNCATED : Z := -414.
Definition AIRY_ERR_LLM_NO_FINISH : Z := -415.
Definition AIRY_ERR_LLM_CONTENT_FILTERED : Z := -416.
Definition AIRY_ERR_LLM_STREAM_STALL : Z := -417.
Definition AIRY_ERR_EXEC_BASE : Z := -500.
Definition AIRY_ERR_EXEC_NOT_FOUND : Z := -501.
Definition AIRY_ERR_EXEC_FAIL : Z := -502.
Definition AIRY_ERR_EXEC_TIMEOUT : Z := -503.
Definition AIRY_ERR_EXEC_VALIDATION : Z := -504.
Definition AIRY_ERR_EXEC_SANDBOX : Z := -505.
Definition AIRY_ERR_EXEC_PERMISSION : Z := -506.
Definition AIRY_ERR_EXEC_ARGS : Z := -507.
Definition AIRY_ERR_EXEC_ENV : Z := -508.
Definition AIRY_ERR_EXEC_CYCLE : Z := -509.
Definition AIRY_ERR_EXEC_PARTIAL : Z := -510.
Definition AIRY_ERR_EXEC_INPUT : Z := -511.
Definition AIRY_ERR_MEM_BASE : Z := -600.
Definition AIRY_ERR_MEM_WRITE : Z := -601.
Definition AIRY_ERR_MEM_READ : Z := -602.
Definition AIRY_ERR_MEM_QUERY : Z := -603.
Definition AIRY_ERR_MEM_EVOLVE : Z := -604.
Definition AIRY_ERR_MEM_FULL : Z := -605.
Definition AIRY_ERR_MEM_CORRUPT : Z := -606.
Definition AIRY_ERR_MEM_NOT_INIT : Z := -607.
Definition AIRY_ERR_SEC_BASE : Z := -700.
Definition AIRY_ERR_SEC_VIOLATION : Z := -701.
Definition AIRY_ERR_SEC_SANITIZE : Z := -702.
Definition AIRY_ERR_SEC_AUDIT : Z := -703.
Definition AIRY_ERR_SEC_PERMISSION : Z := -704.
Definition AIRY_ERR_SEC_VALIDATION : Z := -705.
Definition AIRY_ERR_SEC_QUOTA : Z := -706.
Definition AIRY_ERR_SEC_TEMP_DIR : Z := -707.
Definition AIRY_ERR_SEC_SYMLINK : Z := -708.
Definition AIRY_ERR_SEC_PATH_TRAV : Z := -709.
Definition AIRY_ERR_ESECURITY : Z := -710.
Definition AIRY_ERR_ESANITIZE : Z := -711.
Definition AIRY_ERR_CUPOLAS_BASE : Z := -712.
Definition AIRY_ERR_CUPOLAS_DENIED : Z := -713.
Definition AIRY_ERR_CUPOLAS_QUARANTINE : Z := -714.
Definition AIRY_ERR_CUPOLAS_POLICY : Z := -715.
Definition AIRY_ERR_CUPOLAS_SANDBOX : Z := -716.
Definition AIRY_ERR_CUPOLAS_AUDIT : Z := -717.
Definition AIRY_ERR_CUPOLAS_TAMPERED : Z := -718.
Definition AIRY_ERR_CUPOLAS_SIGNATURE : Z := -719.
Definition AIRY_ERR_CUPOLAS_VAULT : Z := -720.
Definition AIRY_ERR_CUPOLAS_ENTITLEMENT : Z := -721.
Definition AIRY_ERR_CUPOLAS_RUNTIME : Z := -722.
Definition AIRY_ERR_CUPOLAS_NETWORK : Z := -723.
Definition AIRY_ERR_CUPOLAS_AUTH_FAILED : Z := -724.
Definition AIRY_ERR_CUPOLAS_CERT_INVALID : Z := -725.
Definition AIRY_ERR_CUPOLAS_CERT_EXPIRED : Z := -726.
Definition AIRY_ERR_COORD_BASE : Z := -800.
Definition AIRY_ERR_COORD_PLAN_FAIL : Z := -801.
Definition AIRY_ERR_COORD_SYNC_FAIL : Z := -802.
Definition AIRY_ERR_COORD_DISPATCH : Z := -803.
Definition AIRY_ERR_COORD_INTENT : Z := -804.
Definition AIRY_ERR_COORD_COMPENSATE : Z := -805.
Definition AIRY_ERR_COORD_RETRY_EXCEED : Z := -806.
Definition AIRY_ERR_PROTOCOL : Z := -900.
Definition AIRY_ERR_CHECKSUM : Z := -901.
Definition AIRY_EBADF : Z := AIRY_ERR_SYS_FILE.
Definition AIRY_ERESOURCE : Z := AIRY_ERR_SYS_RESOURCE.
Definition AIRY_ESECURITY : Z := AIRY_ERR_ESECURITY.
Definition AIRY_ESANITIZE : Z := AIRY_ERR_ESANITIZE.

(** ** The catalogue *)

Inductive airy_err_severity_t := SEVERITY_INFO | SEVERITY_WARNING | SEVERITY_ERROR | SEVERITY_CRITICAL.

Definition severity_value (s : airy_err_severity_t) : nat :=
  match s with SEVERITY_INFO => 0 | SEVERITY_WARNING => 1 | SEVERITY_ERROR => 2 | SEVERITY_CRITICAL => 3 end.

Record error_info_t := Info {
  i_code : Z;
  i_name : cstr;
  description_en : cstr;
  description_zh_cn : cstr;
  severity : airy_err_severity_t;
}.

Definition g_error_info : list error_info_t := [
  Info AIRY_OK (cs "OK") (cs "Success") (cs "成功") SEVERITY_INFO;
  Info AIRY_EACCES (cs "ERR_EACCES") (cs "Operation not permitted") (cs "操作不允许") SEVERITY_ERROR;
  Info AIRY_EEXIST (cs "ERR_EEXIST") (cs "File exists") (cs "文件已存在") SEVERITY_ERROR;
  Info AIRY_EFAULT (cs "ERR_EFAULT") (cs "Bad address") (cs "地址错误") SEVERITY_ERROR;
  Info AIRY_EINTR (cs "ERR_EINTR") (cs "Interrupted system call") (cs "系统调用被中断") SEVERITY_WARNING;
  Info AIRY_EINVAL (cs "ERR_EINVAL") (cs "Invalid argument") (cs "无效参数") SEVERITY_ERROR;
  Info AIRY_EIO (cs "ERR_EIO") (cs "I/O error") (cs "I/O 错误") SEVERITY_ERROR;
  Info AIRY_EISDIR (cs "ERR_EISDIR") (cs "Is a directory") (cs "是目录") SEVERITY_ERROR;
  Info AIRY_ENOENT (cs "ERR_ENOENT") (cs "No such file or directory") (cs "文件或目录不存在") SEVERITY_ERROR;
  Info AIRY_ENOMEM (cs "ERR_ENOMEM") (cs "Out of memory") (cs "内存不足") SEVERITY_CRITICAL;
  Info AIRY_ENOSPC (cs "ERR_ENOSPC") (cs "No space left on device") (cs "设备空间不足") SEVERITY_ERROR;
  Info AIRY_ENOTSUP (cs "ERR_ENOTSUP") (cs "Operation not supported") (cs "操作不支持") SEVERITY_ERROR;
  Info AIRY_EPERM (cs "ERR_EPERM") (cs "Operation not permitted") (cs "操作不允许") SEVERITY_ERROR;
  Info AIRY_ERANGE (cs "ERR_ERANGE") (cs "Result too large") (cs "结果过大") SEVERITY_ERROR;
  Info AIRY_EBUSY (cs "ERR_EBUSY") (cs "Device or resource busy") (cs "设备或资源忙") SEVERITY_WARNING;
  Info AIRY_ECANCELED (cs "ERR_ECANCELED") (cs "Operation canceled") (cs "操作已取消") SEVERITY_INFO;
  Info AIRY_EAGAIN (cs "ERR_EAGAIN") (cs "Try again") (cs "请重试") SEVERITY_WARNING;
  Info (- AIRY_EIPC_MAGIC) (cs "ERR_EIPC_MAGIC") (cs "Invalid IPC magic") (cs "IPC magic 无效") SEVERITY_ERROR;
  Info (- AIRY_EIPC_OPCODE) (cs "ERR_EIPC_OPCODE") (cs "Unknown IPC opcode") (cs "未知 IPC opcode") SEVERITY_ERROR;
  Info (- AIRY_EIPC_PAYLOAD) (cs "ERR_EIPC_PAYLOAD") (cs "IPC payload out of bounds") (cs "IPC payload 越界") SEVERITY_ERROR;
  Info (- AIRY_EIPC_TIMEOUT) (cs "ERR_EIPC_TIMEOUT") (cs "IPC timeout") (cs "IPC 超时") SEVERITY_WARNING;
  Info AIRY_ERR_UNKNOWN (cs "ERR_UNKNOWN") (cs "Unknown error") (cs "未知错误") SEVERITY_ERROR;
  Info AIRY_ERR_INVALID_PARAM (cs "ERR_INVALID_PARAM") (cs "Invalid parameter") (cs "无效参数") SEVERITY_ERROR;
  Info AIRY_ERR_NULL_POINTER (cs "ERR_NULL_POINTER") (cs "Null pointer") (cs "空指针") SEVERITY_ERROR;
  Info AIRY_ERR_OUT_OF_MEMORY (cs "ERR_OUT_OF_MEMORY") (cs "Out of memory") (cs "内存不足") SEVERITY_CRITICAL;
  Info AIRY_ERR_BUFFER_TOO_SMALL (cs "ERR_BUFFER_TOO_SMALL") (cs "Buffer too small") (cs "缓冲区太小") SEVERITY_ERROR;
  Info AIRY_ERR_NOT_FOUND (cs "ERR_NOT_FOUND") (cs "Not found") (cs "未找到") SEVERITY_ERROR;
  Info AIRY_ERR_ALREADY_EXISTS (cs "ERR_ALREADY_EXISTS") (cs "Already exists") (cs "已存在") SEVERITY_WARNING;
  Info AIRY_ERR_TIMEOUT (cs "ERR_TIMEOUT") (cs "Timeout") (cs "超时") SEVERITY_WARNING;
  Info AIRY_ERR_NOT_SUPPORTED (cs "ERR_NOT_SUPPORTED") (cs "Not supported") (cs "不支持") SEVERITY_ERROR;
  Info AIRY_ERR_PERMISSION_DENIED (cs "ERR_PERMISSION_DENIED") (cs "Permission denied") (cs "权限不足") SEVERITY_ERROR;
  Info AIRY_ERR_IO (cs "ERR_IO") (cs "I/O error") (cs "I/O 错误") SEVERITY_ERROR;
  Info AIRY_ERR_PARSE_ERROR (cs "ERR_PARSE_ERROR") (cs "Parse error") (cs "解析错误") SEVERITY_ERROR;
  Info AIRY_ERR_STATE_ERROR (cs "ERR_STATE_ERROR") (cs "State error") (cs "状态错误") SEVERITY_ERROR;
  Info AIRY_ERR_OVERFLOW (cs "ERR_OVERFLOW") (cs "Overflow") (cs "溢出") SEVERITY_ERROR;
  Info AIRY_ERR_UNDERFLOW (cs "ERR_UNDERFLOW") (cs "Underflow") (cs "下溢") SEVERITY_ERROR;
  Info AIRY_ERR_CANCELED (cs "ERR_CANCELED") (cs "Canceled") (cs "已取消") SEVERITY_INFO;
  Info AIRY_ERR_BUSY (cs "ERR_BUSY") (cs "Busy") (cs "忙碌") SEVERITY_WARNING;
  Info AIRY_ERR_WOULD_BLOCK (cs "ERR_WOULD_BLOCK") (cs "Would block") (cs "将阻塞") SEVERITY_WARNING;
  Info AIRY_ERR_INTERRUPTED (cs "ERR_INTERRUPTED") (cs "Interrupted") (cs "被中断") SEVERITY_WARNING;
  Info AIRY_ERR_SYS_NOT_INIT (cs "ERR_SYS_NOT_INIT") (cs "System not initialized") (cs "系统未初始化") SEVERITY_ERROR;
  Info AIRY_ERR_SYS_RESOURCE (cs "ERR_SYS_RESOURCE") (cs "System resource error") (cs "系统资源错误") SEVERITY_ERROR;
  Info AIRY_ERR_SYS_DEADLOCK (cs "ERR_SYS_DEADLOCK") (cs "Deadlock") (cs "死锁") SEVERITY_CRITICAL;
  Info AIRY_ERR_SYS_THREAD (cs "ERR_SYS_THREAD") (cs "Thread error") (cs "线程错误") SEVERITY_ERROR;
  Info AIRY_ERR_SYS_MUTEX (cs "ERR_SYS_MUTEX") (cs "Mutex error") (cs "互斥锁错误") SEVERITY_ERROR;
  Info AIRY_ERR_SYS_SEMAPHORE (cs "ERR_SYS_SEMAPHORE") (cs "Semaphore error") (cs "信号量错误") SEVERITY_ERROR;
  Info AIRY_ERR_SYS_CONDITION (cs "ERR_SYS_CONDITION") (cs "Condition variable error") (cs "条件变量错误") SEVERITY_ERROR;
  Info AIRY_ERR_SYS_ATOMIC (cs "ERR_SYS_ATOMIC") (cs "Atomic operation error") (cs "原子操作错误") SEVERITY_ERROR;
  Info AIRY_ERR_SYS_SOCKET (cs "ERR_SYS_SOCKET") (cs "Socket error") (cs "套接字错误") SEVERITY_ERROR;
  Info AIRY_ERR_SYS_PIPE (cs "ERR_SYS_PIPE") (cs "Pipe error") (cs "管道错误") SEVERITY_ERROR;
  Info AIRY_ERR_SYS_PROCESS (cs "ERR_SYS_PROCESS") (cs "Process error") (cs "进程错误") SEVERITY_ERROR;
  Info AIRY_ERR_SYS_FILE (cs "ERR_SYS_FILE") (cs "File error") (cs "文件错误") SEVERITY_ERROR;
  Info AIRY_ERR_SYS_TIME (cs "ERR_SYS_TIME") (cs "Time error") (cs "时间错误") SEVERITY_ERROR;
  Info AIRY_ERR_KERN_IPC (cs "ERR_KERN_IPC") (cs "IPC error") (cs "IPC 错误") SEVERITY_ERROR;
  Info AIRY_ERR_KERN_TASK (cs "ERR_KERN_TASK") (cs "Task error") (cs "任务错误") SEVERITY_ERROR;
  Info AIRY_ERR_KERN_SYNC (cs "ERR_KERN_SYNC") (cs "Synchronization error") (cs "同步错误") SEVERITY_ERROR;
  Info AIRY_ERR_KERN_LOCK (cs "ERR_KERN_LOCK") (cs "Lock error") (cs "锁错误") SEVERITY_ERROR;
  Info AIRY_ERR_KERN_MEM (cs "ERR_KERN_MEM") (cs "Memory error") (cs "内存错误") SEVERITY_ERROR;
  Info AIRY_ERR_KERN_SCHED (cs "ERR_KERN_SCHED") (cs "Scheduler error") (cs "调度器错误") SEVERITY_ERROR;
  Info AIRY_ERR_KERN_TIMER (cs "ERR_KERN_TIMER") (cs "Timer error") (cs "定时器错误") SEVERITY_ERROR;
  Info AIRY_ERR_KERN_INTERRUPT (cs "ERR_KERN_INTERRUPT") (cs "Interrupt error") (cs "中断错误") SEVERITY_ERROR;
  Info AIRY_ERR_SVC_NOT_READY (cs "ERR_SVC_NOT_READY") (cs "Service not ready") (cs "服务未就绪") SEVERITY_WARNING;
  Info AIRY_ERR_SVC_BUSY (cs "ERR_SVC_BUSY") (cs "Service busy") (cs "服务忙碌") SEVERITY_WARNING;
  Info AIRY_ERR_SVC_STOPPED (cs "ERR_SVC_STOPPED") (cs "Service stopped") (cs "服务已停止") SEVERITY_ERROR;
  Info AIRY_ERR_SVC_CONFIG (cs "ERR_SVC_CONFIG") (cs "Service configuration error") (cs "服务配置错误") SEVERITY_ERROR;
  Info AIRY_ERR_SVC_DEPENDENCY (cs "ERR_SVC_DEPENDENCY") (cs "Service dependency error") (cs "服务依赖错误") SEVERITY_ERROR;
  Info AIRY_ERR_SVC_HEALTH (cs "ERR_SVC_HEALTH") (cs "Service health error") (cs "服务健康错误") SEVERITY_ERROR;
  Info AIRY_ERR_SVC_LOADBALANCE (cs "ERR_SVC_LOADBALANCE") (cs "Load balance error") (cs "负载均衡错误") SEVERITY_ERROR;
  Info AIRY_ERR_SVC_CYCLE (cs "ERR_SVC_CYCLE") (cs "Service dependency cycle detected") (cs "检测到服务依赖环") SEVERITY_ERROR;
  Info AIRY_ERR_LLM_NO_PROVIDER (cs "ERR_LLM_NO_PROVIDER") (cs "No LLM provider") (cs "无 LLM 提供商") SEVERITY_ERROR;
  Info AIRY_ERR_LLM_PROVIDER_FAIL (cs "ERR_LLM_PROVIDER_FAIL") (cs "LLM provider failure") (cs "LLM 提供商失败") SEVERITY_ERROR;
  Info AIRY_ERR_LLM_RATE_LIMIT (cs "ERR_LLM_RATE_LIMIT") (cs "Rate limit exceeded") (cs "超出速率限制") SEVERITY_WARNING;
  Info AIRY_ERR_LLM_CONTEXT_LEN (cs "ERR_LLM_CONTEXT_LEN") (cs "Context length exceeded") (cs "超出上下文长度") SEVERITY_ERROR;
  Info AIRY_ERR_LLM_INVALID_MODEL (cs "ERR_LLM_INVALID_MODEL") (cs "Invalid model") (cs "无效模型") SEVERITY_ERROR;
  Info AIRY_ERR_LLM_AUTH_FAIL (cs "ERR_LLM_AUTH_FAIL") (cs "Authentication failed") (cs "认证失败") SEVERITY_ERROR;
  Info AIRY_ERR_LLM_TOKEN_LIMIT (cs "ERR_LLM_TOKEN_LIMIT") (cs "Token limit exceeded") (cs "超出 Token 限制") SEVERITY_ERROR;
  Info AIRY_ERR_LLM_PARSE_RESP (cs "ERR_LLM_PARSE_RESP") (cs "Failed to parse response") (cs "解析响应失败") SEVERITY_ERROR;
  Info AIRY_ERR_LLM_EMPTY_RESP (cs "ERR_LLM_EMPTY_RESP") (cs "Empty response") (cs "空响应") SEVERITY_ERROR;
  Info AIRY_ERR_LLM_COST_EXCEED (cs "ERR_LLM_COST_EXCEED") (cs "Cost exceeded") (cs "超出成本限制") SEVERITY_WARNING;
  Info AIRY_ERR_LLM_BAD_REQUEST (cs "ERR_LLM_BAD_REQUEST") (cs "Provider rejected request body") (cs "模型服务拒绝请求体") SEVERITY_ERROR;
  Info AIRY_ERR_LLM_STREAM_UNDONE (cs "ERR_LLM_STREAM_UNDONE") (cs "Stream ended without [DONE]") (cs "流式响应缺少终结标记") SEVERITY_ERROR;
  Info AIRY_ERR_LLM_TRUNCATED (cs "ERR_LLM_TRUNCATED") (cs "Output truncated by token limit") (cs "输出被 Token 上限截断") SEVERITY_ERROR;
  Info AIRY_ERR_LLM_NO_FINISH (cs "ERR_LLM_NO_FINISH") (cs "Missing finish_reason") (cs "响应缺少终结原因字段") SEVERITY_ERROR;
  Info AIRY_ERR_LLM_CONTENT_FILTERED (cs "ERR_LLM_CONTENT_FILTERED") (cs "Blocked by content filter") (cs "输出被内容安全拦截") SEVERITY_ERROR;
  Info AIRY_ERR_EXEC_NOT_FOUND (cs "ERR_EXEC_NOT_FOUND") (cs "Executor not found") (cs "执行器未找到") SEVERITY_ERROR;
  Info AIRY_ERR_EXEC_FAIL (cs "ERR_EXEC_FAIL") (cs "Execution failed") (cs "执行失败") SEVERITY_ERROR;
  Info AIRY_ERR_EXEC_TIMEOUT (cs "ERR_EXEC_TIMEOUT") (cs "Execution timeout") (cs "执行超时") SEVERITY_WARNING;
  Info AIRY_ERR_EXEC_VALIDATION (cs "ERR_EXEC_VALIDATION") (cs "Execution validation failed") (cs "执行验证失败") SEVERITY_ERROR;
  Info AIRY_ERR_EXEC_SANDBOX (cs "ERR_EXEC_SANDBOX") (cs "Sandbox error") (cs "沙箱错误") SEVERITY_ERROR;
  Info AIRY_ERR_EXEC_PERMISSION (cs "ERR_EXEC_PERMISSION") (cs "Execution permission denied") (cs "执行权限不足") SEVERITY_ERROR;
  Info AIRY_ERR_EXEC_ARGS (cs "ERR_EXEC_ARGS") (cs "Invalid execution arguments") (cs "无效执行参数") SEVERITY_ERROR;
  Info AIRY_ERR_EXEC_ENV (cs "ERR_EXEC_ENV") (cs "Execution environment error") (cs "执行环境错误") SEVERITY_ERROR;
  Info AIRY_ERR_EXEC_CYCLE (cs "ERR_EXEC_CYCLE") (cs "Plan dependency cycle") (cs "计划依赖成环") SEVERITY_ERROR;
  Info AIRY_ERR_EXEC_INPUT (cs "ERR_EXEC_INPUT") (cs "Plan input binding unresolved") (cs "计划输入绑定未解析") SEVERITY_ERROR;
  Info AIRY_ERR_MEM_WRITE (cs "ERR_MEM_WRITE") (cs "Memory write error") (cs "内存写入错误") SEVERITY_ERROR;
  Info AIRY_ERR_MEM_READ (cs "ERR_MEM_READ") (cs "Memory read error") (cs "内存读取错误") SEVERITY_ERROR;
  Info AIRY_ERR_MEM_QUERY (cs "ERR_MEM_QUERY") (cs "Memory query error") (cs "内存查询错误") SEVERITY_ERROR;
  Info AIRY_ERR_MEM_EVOLVE (cs "ERR_MEM_EVOLVE") (cs "Memory evolution error") (cs "内存演进错误") SEVERITY_ERROR;
  Info AIRY_ERR_MEM_FULL (cs "ERR_MEM_FULL") (cs "Memory full") (cs "内存已满") SEVERITY_ERROR;
  Info AIRY_ERR_MEM_CORRUPT (cs "ERR_MEM_CORRUPT") (cs "Memory corruption") (cs "内存损坏") SEVERITY_CRITICAL;
  Info AIRY_ERR_MEM_NOT_INIT (cs "ERR_MEM_NOT_INIT") (cs "Memory not initialized") (cs "内存未初始化") SEVERITY_ERROR;
  Info AIRY_ERR_SEC_VIOLATION (cs "ERR_SEC_VIOLATION") (cs "Security violation") (cs "安全违规") SEVERITY_CRITICAL;
  Info AIRY_ERR_SEC_SANITIZE (cs "ERR_SEC_SANITIZE") (cs "Sanitization error") (cs "清理错误") SEVERITY_ERROR;
  Info AIRY_ERR_SEC_AUDIT (cs "ERR_SEC_AUDIT") (cs "Audit error") (cs "审计错误") SEVERITY_ERROR;
  Info AIRY_ERR_SEC_PERMISSION (cs "ERR_SEC_PERMISSION") (cs "Security permission error") (cs "安全权限错误") SEVERITY_ERROR;
  Info AIRY_ERR_SEC_VALIDATION (cs "ERR_SEC_VALIDATION") (cs "Security validation error") (cs "安全验证错误") SEVERITY_ERROR;
  Info AIRY_ERR_SEC_QUOTA (cs "ERR_SEC_QUOTA") (cs "Quota exceeded") (cs "超出配额") SEVERITY_WARNING;
  Info AIRY_ERR_SEC_TEMP_DIR (cs "ERR_SEC_TEMP_DIR") (cs "Temporary directory error") (cs "临时目录错误") SEVERITY_ERROR;
  Info AIRY_ERR_SEC_SYMLINK (cs "ERR_SEC_SYMLINK") (cs "Symbolic link error") (cs "符号链接错误") SEVERITY_ERROR;
  Info AIRY_ERR_SEC_PATH_TRAV (cs "ERR_SEC_PATH_TRAV") (cs "Path traversal detected") (cs "检测到路径遍历") SEVERITY_CRITICAL;
  Info AIRY_ERR_ESECURITY (cs "ERR_ESECURITY") (cs "Security error") (cs "安全错误") SEVERITY_CRITICAL;
  Info AIRY_ERR_ESANITIZE (cs "ERR_ESANITIZE") (cs "Sanitization error") (cs "清理错误") SEVERITY_ERROR;
  Info AIRY_ERR_COORD_PLAN_FAIL (cs "ERR_COORD_PLAN_FAIL") (cs "Planning failed") (cs "规划失败") SEVERITY_ERROR;
  Info AIRY_ERR_COORD_SYNC_FAIL (cs "ERR_COORD_SYNC_FAIL") (cs "Synchronization failed") (cs "同步失败") SEVERITY_ERROR;
  Info AIRY_ERR_COORD_DISPATCH (cs "ERR_COORD_DISPATCH") (cs "Dispatch error") (cs "调度错误") SEVERITY_ERROR;
  Info AIRY_ERR_COORD_INTENT (cs "ERR_COORD_INTENT") (cs "Intent error") (cs "意图错误") SEVERITY_ERROR;
  Info AIRY_ERR_COORD_COMPENSATE (cs "ERR_COORD_COMPENSATE") (cs "Compensation error") (cs "补偿错误") SEVERITY_ERROR;
  Info AIRY_ERR_COORD_RETRY_EXCEED (cs "ERR_COORD_RETRY_EXCEED") (cs "Retry limit exceeded") (cs "超出重试限制") SEVERITY_ERROR;
  Info AIRY_ERR_PROTOCOL (cs "ERR_PROTOCOL") (cs "Protocol violation (magic/version/reserved)") (cs "协议违规（magic/version/reserved 字段不匹配）") SEVERITY_ERROR;
  Info AIRY_ERR_CHECKSUM (cs "ERR_CHECKSUM") (cs "Checksum mismatch (CRC32)") (cs "校验和不匹配（CRC32）") SEVERITY_ERROR
].
Definition airy_err_table : list error_info_t := g_error_info.

Fixpoint find_info (l : list error_info_t) (norm : Z) : option error_info_t :=
  match l with [] => None | e :: l' => if i_code e =? norm then Some e else find_info l' norm end.
Definition airy_err_find (norm : Z) : option error_info_t := find_info g_error_info norm.

(** A positive magnitude is negated, a negative code is left. *)
Definition AIRY_ERR_NEG (code : Z) : Z := if 0 <? code then - code else code.

Definition airy_err_str (code : Z) : cstr :=
  match airy_err_find (AIRY_ERR_NEG code) with Some e => description_en e | None => cs "Unknown error" end.
Definition airy_err_code_name (code : Z) : cstr :=
  match airy_err_find (AIRY_ERR_NEG code) with Some e => i_name e | None => cs "ERR_UNKNOWN" end.
Definition airy_err_get_severity (code : Z) : airy_err_severity_t :=
  match airy_err_find (AIRY_ERR_NEG code) with Some e => severity e | None => SEVERITY_ERROR end.

(** ** Classes: utils/error/err_class.c *)

Inductive airy_err_class_t := CLASS_OK | CLASS_TRANSPORT | CLASS_BUSINESS | CLASS_POLICY | CLASS_CONFIG | CLASS_INTERNAL.

#[export] Instance class_eq_dec : EqDecision airy_err_class_t.
Proof. solve_decision. Defined.

Definition all_classes : list airy_err_class_t := [CLASS_OK; CLASS_TRANSPORT; CLASS_BUSINESS; CLASS_POLICY; CLASS_CONFIG; CLASS_INTERNAL].

Definition airy_err_class_name (c : airy_err_class_t) : cstr :=
  match c with
  | CLASS_OK => cs "ok" | CLASS_TRANSPORT => cs "transport" | CLASS_BUSINESS => cs "business"
  | CLASS_POLICY => cs "policy" | CLASS_CONFIG => cs "config" | CLASS_INTERNAL => cs "internal"
  end.

Definition airy_err_class_parse (name : option cstr) : airy_err_class_t :=
  match name with
  | None => CLASS_BUSINESS
  | Some n => default CLASS_BUSINESS (List.find (fun c => bool_decide (n = airy_err_class_name c)) all_classes)
  end.

Definition k_err_map : list (Z * airy_err_class_t) := [
  (AIRY_ERR_TIMEOUT, CLASS_TRANSPORT);
  (AIRY_ECONNRESET, CLASS_TRANSPORT);
  (AIRY_ENOTCONN, CLASS_TRANSPORT);
  (AIRY_ETIMEDOUT, CLASS_TRANSPORT);
  (AIRY_ECONNREFUSED, CLASS_TRANSPORT);
  (AIRY_ERR_SYS_SOCKET, CLASS_TRANSPORT);
  (AIRY_ERR_SYS_PIPE, CLASS_TRANSPORT);
  (AIRY_ERR_SVC_NOT_READY, CLASS_TRANSPORT);
  (AIRY_ERR_SVC_BUSY, CLASS_TRANSPORT);
  (AIRY_ERR_SVC_STOPPED, CLASS_TRANSPORT);
  (AIRY_ERR_SVC_DEPENDENCY, CLASS_TRANSPORT);
  (AIRY_ERR_SVC_HEALTH, CLASS_TRANSPORT);
  (AIRY_ERR_SVC_LOADBALANCE, CLASS_TRANSPORT);
  (AIRY_ERR_LLM_NO_PROVIDER, CLASS_TRANSPORT);
  (AIRY_ERR_LLM_PROVIDER_FAIL, CLASS_TRANSPORT);
  (AIRY_ERR_LLM_RATE_LIMIT, CLASS_TRANSPORT);
  (AIRY_ERR_PROTOCOL, CLASS_TRANSPORT);
  (AIRY_ERR_CHECKSUM, CLASS_TRANSPORT);
  (AIRY_ERR_SVC_CONFIG, CLASS_CONFIG);
  (AIRY_ERR_EXEC_ENV, CLASS_CONFIG);
  (AIRY_ERR_LLM_INVALID_MODEL, CLASS_CONFIG);
  (AIRY_ERR_LLM_AUTH_FAIL, CLASS_CONFIG);
  (AIRY_EPERM, CLASS_POLICY);
  (AIRY_EACCES, CLASS_POLICY);
  (AIRY_ERR_PERMISSION_DENIED, CLASS_POLICY);
  (AIRY_ERR_EXEC_SANDBOX, CLASS_POLICY);
  (AIRY_ERR_EXEC_PERMISSION, CLASS_POLICY);
  (AIRY_ERR_NULL_POINTER, CLASS_INTERNAL);
  (AIRY_ERR_NOT_IMPLEMENTED, CLASS_INTERNAL);
  (AIRY_ERR_SYS_DEADLOCK, CLASS_INTERNAL);
  (AIRY_ERR_MEM_CORRUPT, CLASS_INTERNAL)
].

Definition err_map_find (c : Z) : airy_err_class_t :=
  match List.find (fun p => p.1 =? c) k_err_map with Some p => p.2 | None => CLASS_BUSINESS end.

Definition airy_err_class_of (code : Z) : airy_err_class_t :=
  let c := if 0 <? code then - code else code in
  if c =? 0 then CLASS_OK
  else if (c <=? - AIRY_FAULT_CAP_FORGED) && (- AIRY_FAULT_VM_FAULT <=? c) then CLASS_INTERNAL
  else if (c <=? AIRY_ERR_SEC_VIOLATION) && (AIRY_ERR_CUPOLAS_CERT_EXPIRED <=? c) then CLASS_POLICY
  else if (c <=? - AIRY_EIPC_MAGIC) && (- AIRY_EIPC_FROZEN <=? c) then CLASS_TRANSPORT
  else if (c <=? AIRY_ERR_KERN_BASE) && (AIRY_ERR_KERN_INTERRUPT <=? c) then
    (if c =? AIRY_ERR_KERN_IPC then CLASS_TRANSPORT else CLASS_INTERNAL)
  else err_map_find c.

(** ** The catalogue answers for every code it lists *)

Lemma find_info_Some l norm e : find_info l norm = Some e -> e ∈ l /\ i_code e = norm.
Proof.
  induction l as [|x l IH]; cbn [find_info]; [done|]. destruct (Z.eqb_spec (i_code x) norm); [intros [= <-]; split; [left|done]|].
  intros H. destruct (IH H). split; [by right|done].
Qed.

Lemma find_info_None l norm : find_info l norm = None -> norm ∉ i_code <$> l.
Proof.
  induction l as [|x l IH]; cbn [find_info]; [intros _; apply not_elem_of_nil|]. destruct (Z.eqb_spec (i_code x) norm) as [|Hne]; [done|].
  intros H. apply not_elem_of_cons. split; [congruence|by apply IH].
Qed.

Lemma find_info_in l e : NoDup (i_code <$> l) -> e ∈ l -> find_info l (i_code e) = Some e.
Proof.
  induction l as [|x l IH]; intros Hn He; [by apply not_elem_of_nil in He|]. cbn in Hn. apply NoDup_cons in Hn as [Hx Hn]. cbn [find_info].
  apply elem_of_cons in He as [->|He]; [by rewrite Z.eqb_refl|]. destruct (Z.eqb_spec (i_code x) (i_code e)) as [E|]; [|by apply IH].
  exfalso. apply Hx. rewrite E. by apply list_elem_of_fmap_2.
Qed.

Lemma catalogue_nodup : NoDup (i_code <$> g_error_info) /\ NoDup (i_name <$> g_error_info) /\ Forall (fun e => i_code e <= 0) g_error_info.
Proof.
  split_and!; [apply (bool_decide_unpack _); vm_compute; exact I..|].
  apply (bool_decide_unpack _). vm_compute. exact I.
Qed.

(** No two entries of the catalogue share a code or a name, every entry is
    found under its code and under the positive magnitude of it, with its own
    name, description and severity, and a code that is not listed is unknown and
    an error. *)
Theorem catalogue_exact code :
  NoDup (i_code <$> g_error_info) /\ NoDup (i_name <$> g_error_info) /\
  match airy_err_find (AIRY_ERR_NEG code) with
  | Some e => e ∈ g_error_info /\ (code = i_code e \/ code = - i_code e) /\ airy_err_str code = description_en e
              /\ airy_err_code_name code = i_name e /\ airy_err_get_severity code = severity e
  | None => (forall e, e ∈ g_error_info -> code <> i_code e /\ code <> - i_code e)
            /\ airy_err_code_name code = cs "ERR_UNKNOWN" /\ airy_err_get_severity code = SEVERITY_ERROR
  end.
Proof.
  destruct catalogue_nodup as (H1 & H2 & H3). split; [done|]. split; [done|]. unfold airy_err_str, airy_err_code_name, airy_err_get_severity.
  unfold airy_err_find. destruct (find_info g_error_info (AIRY_ERR_NEG code)) as [e|] eqn:E.
  - apply find_info_Some in E as [He Hc]. split_and!; try done. unfold AIRY_ERR_NEG in Hc. destruct (0 <? code); lia.
  - apply find_info_None in E. split; [|done]. intros e He. pose proof (proj1 (Forall_forall _ _) H3 e He) as Hneg. cbn beta in Hneg.
    assert (Hne : AIRY_ERR_NEG code <> i_code e) by (intros Hc; apply E; rewrite Hc; by apply list_elem_of_fmap_2).
    unfold AIRY_ERR_NEG in Hne. destruct (Z.ltb_spec 0 code); lia.
Qed.

(** ** Classes are decided as the headers say *)

(** The codes that may be shown as an unreachable service. *)
Definition transport_codes : list Z :=
  [AIRY_ERR_TIMEOUT; AIRY_ECONNRESET; AIRY_ENOTCONN; AIRY_ETIMEDOUT; AIRY_ECONNREFUSED; AIRY_ERR_SYS_SOCKET; AIRY_ERR_SYS_PIPE;
   AIRY_ERR_SVC_NOT_READY; AIRY_ERR_SVC_BUSY; AIRY_ERR_SVC_STOPPED; AIRY_ERR_SVC_DEPENDENCY; AIRY_ERR_SVC_HEALTH; AIRY_ERR_SVC_LOADBALANCE;
   AIRY_ERR_LLM_NO_PROVIDER; AIRY_ERR_LLM_PROVIDER_FAIL; AIRY_ERR_LLM_RATE_LIMIT; AIRY_ERR_PROTOCOL; AIRY_ERR_CHECKSUM; AIRY_ERR_KERN_IPC].

Lemma class_of_finite (P : Z -> airy_err_class_t -> bool) :
  (forall c, c < - 4102 \/ - 4097 < c < -901 -> P c CLASS_BUSINESS = true) ->
  forallb (fun k => P (- Z.of_nat k) (airy_err_class_of (- Z.of_nat k))) (seq 0 902) = true ->
  forallb (fun k => P (- Z.of_nat k) (airy_err_class_of (- Z.of_nat k))) (seq 4097 6) = true ->
  forall c, c <= 0 -> P c (airy_err_class_of c) = true.
Proof.
  intros Hout Hlow Hfault c Hc. rewrite forallb_forall in Hlow, Hfault. destruct (Z.le_gt_cases (-901) c) as [H|H].
  { specialize (Hlow (Z.to_nat (- c))). rewrite Z2Nat.id, Z.opp_involutive in Hlow by lia. apply Hlow, in_seq. lia. }
  destruct (decide (-4102 <= c <= -4097)) as [[H1 H2]|Hn].
  { specialize (Hfault (Z.to_nat (- c))). rewrite Z2Nat.id, Z.opp_involutive in Hfault by lia. apply Hfault, in_seq. lia. }
  assert (HB : airy_err_class_of c = CLASS_BUSINESS); [|rewrite HB; apply Hout; lia].
  unfold airy_err_class_of. replace (0 <? c) with false by lia. replace (c =? 0) with false by lia.
  unfold AIRY_FAULT_CAP_FORGED, AIRY_FAULT_VM_FAULT, AIRY_ERR_SEC_VIOLATION, AIRY_ERR_CUPOLAS_CERT_EXPIRED, AIRY_EIPC_MAGIC, AIRY_EIPC_FROZEN, AIRY_ERR_KERN_BASE, AIRY_ERR_KERN_INTERRUPT.
  replace (_ && _) with false by lia. replace (_ && _) with false by lia. replace (_ && _) with false by lia. replace (_ && _) with false by lia.
  unfold err_map_find. assert (Hm : Forall (fun p => -901 <= p.1) k_err_map) by (apply (bool_decide_unpack _); vm_compute; exact I).
  induction Hm as [|p l Hp Hl IH]; [done|]. cbn [List.find]. replace (p.1 =? c) with false by lia. exact IH.
Qed.

Lemma class_of_neg code : airy_err_class_of (- code) = airy_err_class_of code.
Proof.
  unfold airy_err_class_of. replace (if 0 <? - code then - - code else - code) with (if 0 <? code then - code else code); [done|].
  destruct (Z.ltb_spec 0 code), (Z.ltb_spec 0 (- code)); lia.
Qed.

Definition class_table (c : Z) (k : airy_err_class_t) : bool :=
  eqb (bool_decide (k = CLASS_TRANSPORT)) (((- 53 <=? c) && (c <=? - 41)) || existsb (Z.eqb c) transport_codes)
  && eqb (bool_decide (k = CLASS_OK)) (c =? 0)
  && implb ((- 726 <=? c) && (c <=? - 701)) (bool_decide (k = CLASS_POLICY))
  && implb ((- 4102 <=? c) && (c <=? - 4097)) (bool_decide (k = CLASS_INTERNAL)).

Lemma class_table_holds c : c <= 0 -> class_table c (airy_err_class_of c) = true.
Proof.
  apply class_of_finite; [|vm_compute; reflexivity|vm_compute; reflexivity]. intros x Hx. unfold class_table.
  assert (Ht : existsb (Z.eqb x) transport_codes = false).
  { apply not_true_iff_false. intros (y & Hy & E)%existsb_exists. apply Z.eqb_eq in E as <-.
    assert (Hf : Forall (fun z => -901 <= z) transport_codes) by (apply (bool_decide_unpack _); vm_compute; exact I).
    rewrite Forall_forall in Hf. specialize (Hf x ltac:(by apply list_elem_of_In)). lia. }
  rewrite Ht. replace (x =? 0) with false by lia. replace (_ && (x <=? -41)) with false by lia.
  replace (_ && (x <=? -701)) with false by lia. replace (_ && (x <=? -4097)) with false by lia. vm_compute. reflexivity.
Qed.

Lemma class_of_abs code : airy_err_class_of code = airy_err_class_of (- Z.abs code).
Proof. rewrite class_of_neg. destruct (Z.abs_eq_or_opp code) as [-> | ->]; [done|by rewrite class_of_neg]. Qed.

(** For every integer, the class is that of the other sign; it is transport
    (shown as an unreachable service, to be tried again) exactly for the message
    codes 41 to 53 and the nineteen codes of connections and services, it is
    policy for the whole range of the security codes 701 to 726, internal for
    the fault codes, and ok only for zero; and the name of a class is read back
    as the class. *)
Theorem class_of_exact code :
  let c := - Z.abs code in
  airy_err_class_of (- code) = airy_err_class_of code
  /\ (airy_err_class_of code = CLASS_TRANSPORT <-> - 53 <= c <= - 41 \/ c ∈ transport_codes)
  /\ (airy_err_class_of code = CLASS_OK <-> code = 0)
  /\ (- 726 <= c <= - 701 -> airy_err_class_of code = CLASS_POLICY)
  /\ (- 4102 <= c <= - 4097 -> airy_err_class_of code = CLASS_INTERNAL)
  /\ airy_err_class_parse (Some (airy_err_class_name (airy_err_class_of code))) = airy_err_class_of code.
Proof.
  intros c. split; [apply class_of_neg|]. rewrite class_of_abs. fold c. pose proof (class_table_holds c ltac:(unfold c; lia)) as H.
  unfold class_table in H. apply andb_true_iff in H as [[[H1 H2]%andb_true_iff H3]%andb_true_iff H4].
  apply eqb_prop in H1, H2. split_and!.
  - rewrite <- (bool_decide_eq_true (airy_err_class_of c = CLASS_TRANSPORT)), H1, orb_true_iff, andb_true_iff, existsb_exists. split.
    + intros [[Ha Hb]|(y & Hy & E)]; [left; lia|right]. apply Z.eqb_eq in E as ->. by apply list_elem_of_In.
    + intros [Hr|Hr]; [left; lia|right]. exists c. split; [by apply list_elem_of_In|apply Z.eqb_refl].
  - rewrite <- (bool_decide_eq_true (airy_err_class_of c = CLASS_OK)), H2, Z.eqb_eq. unfold c. lia.
  - intros Hr. rewrite (proj2 (andb_true_iff _ _)) in H3 by lia. by apply bool_decide_eq_true in H3.
  - intros Hr. rewrite (proj2 (andb_true_iff _ _)) in H4 by lia. by apply bool_decide_eq_true in H4.
  - by destruct (airy_err_class_of c).
Qed.

(** Codes of two headers that share a number: each is described as the other. *)
Theorem shared_numbers :
  airy_err_str AIRY_ENOSYS = cs "Already exists" /\ airy_err_str AIRY_ENOTFOUND = cs "Would block"
  /\ airy_err_str AIRY_ENOTINIT = cs "Not supported" /\ airy_err_str AIRY_ENAMETOOLONG = cs "Invalid parameter".
Proof. vm_compute. done. Qed.
