(* ===== verification/Errors.v ===== *)
(** * Error chains: utils/error/handler.c

    The chain of errors of a thread with the copies of its messages, the
    statistics that all threads share, the descriptions by language and the
    texts made of a chain.  The state is that of one thread: its chain is its
    own, the calls of other threads reach only the statistics ([OtherPush]).
    Messages are blocks of a heap; [None] as the result of a step is a pointer
    that is freed twice.  A formatted message is the text that [vsnprintf]
    makes of its arguments. *)
From S2P Require Import Prelude Decimal Keyed OutBuf ErrCodes.

Definition AIRY_ERROR_CONTEXT_MAX_DEPTH : nat := 16.

(** ** Data *)

Record airy_err_context_entry_t := Context_ {
  file : option cstr;
  line : Z;
  function : option cstr;
  message : option positive;
  error_code : Z;
  timestamp_ns : Z;
}.

(** [depth] is the length of [contexts]. *)
Record airy_err_chain_t := Chain { code : Z; contexts : list airy_err_context_entry_t }.

Record error_stats := Stats {
  total_errors : Z;
  errors_by_severity : list Z;
  last_error_time : Z;
  last_error : Z;
}.

Record airy_err_i18n_entry_t := I18n { i18n_code : Z; descriptions : list (option cstr) }.

(** [chain] is [None] until the thread has its state. *)
Record thread := Thread {
  chain : option airy_err_chain_t;
  heap : gmap positive cstr;
  stats : error_stats;
  g_current_language : Z;
  g_i18n_entries : list airy_err_i18n_entry_t;
}.

Definition set_chain (c : option airy_err_chain_t) (h : gmap positive cstr) (w : thread) : thread :=
  Thread c h (stats w) (g_current_language w) (g_i18n_entries w).
Definition set_stats (s : error_stats) (w : thread) : thread :=
  Thread (chain w) (heap w) s (g_current_language w) (g_i18n_entries w).

(** ** Chains *)

(** [calloc_ok] is the answer of the allocator when there is no state yet. *)
Definition get_thread_error_state (calloc_ok : bool) (w : thread) : option airy_err_chain_t * thread :=
  match chain w with
  | Some c => (Some c, w)
  | None => if calloc_ok then (Some (Chain 0 []), set_chain (Some (Chain 0 [])) (heap w) w) else (None, w)
  end.

Definition free_msg (p : option positive) (h : gmap positive cstr) : option (gmap positive cstr) :=
  match p with None => Some h | Some p => _ ← h !! p; Some (delete p h) end.

Fixpoint free_msgs (l : list airy_err_context_entry_t) (h : gmap positive cstr) : option (gmap positive cstr) :=
  match l with [] => Some h | e :: l' => h' ← free_msg (message e) h; free_msgs l' h' end.

Definition airy_err_clear (calloc_ok : bool) (w : thread) : option thread :=
  match get_thread_error_state calloc_ok w with
  | (None, w) => Some w
  | (Some c, w) => h ← free_msgs (contexts c) (heap w); Some (set_chain (Some (Chain 0 [])) h w)
  end.

Definition airy_err_thread_cleanup (w : thread) : option thread :=
  match chain w with
  | None => Some w
  | Some c => h ← free_msgs (contexts c) (heap w); Some (set_chain None h w)
  end.

Definition bump (l : list Z) (i : nat) : list Z := alter (fun n => u64 (n + 1)) i l.

Definition count_error (c now : Z) (s : error_stats) : error_stats :=
  Stats (u64 (total_errors s + 1)) (bump (errors_by_severity s) (severity_value (airy_err_get_severity c))) now c.

(** The answers of the platform to a call. *)
Record answers := Answers { calloc_ok : bool; strdup_ok : bool; now_stats : Z; now_entry : Z }.

(** [AIRY_STRDUP]: a new block or NULL. *)
Definition strdup (ok : bool) (text : cstr) (h : gmap positive cstr) : option positive * gmap positive cstr :=
  if ok then let p := fresh (dom h) in (Some p, <[p := text]> h) else (None, h).

Record call := Call { c_code : Z; c_file : option cstr; c_line : Z; c_func : option cstr; c_text : cstr }.

Definition airy_err_push_ex (a : answers) (k : call) (w : thread) : option thread :=
  match get_thread_error_state (calloc_ok a) w with
  | (None, w) => Some w
  | (Some c, w) =>
      let w := set_stats (count_error (c_code k) (now_stats a) (stats w)) w in
      let text := take 1023 (c_text k) in
      let entry p := Context_ (c_file k) (c_line k) (c_func k) p (c_code k) (now_entry a) in
      if (length (contexts c) <? AIRY_ERROR_CONTEXT_MAX_DEPTH)%nat then
        let '(p, h) := strdup (strdup_ok a) text (heap w) in
        Some (set_chain (Some (Chain (c_code k) (contexts c ++ [entry p]))) h w)
      else
        match contexts c with
        | [] => None
        | e :: l =>
            h ← free_msg (message e) (heap w);
            let '(p, h) := strdup (strdup_ok a) text h in
            Some (set_chain (Some (Chain (c_code k) (l ++ [entry p]))) h w)
        end
  end.

(** [AIRY_ERROR_NULL] pushes and returns NULL: the calls that end in it. *)
Definition null_parameter (func : cstr) (ln : Z) : call :=
  Call (-36) (Some (cs "handler.c")) ln (Some func) (cs "null parameter").

(** ** Queries *)

Definition airy_err_get_chain (a : answers) (w : thread) : option airy_err_chain_t * thread :=
  get_thread_error_state (calloc_ok a) w.

Definition airy_err_chain_get_depth (c : option airy_err_chain_t) : Z :=
  match c with None => 0 | Some c => Z.of_nat (length (contexts c)) end.
Definition airy_err_chain_get_root_error (c : option airy_err_chain_t) : Z :=
  match c with Some (Chain _ (e :: _)) => error_code e | _ => 0 end.
Definition airy_err_latest (c : option airy_err_chain_t) : Z := match c with None => 0 | Some c => code c end.

(** An iterator over the chain of the thread itself, the chain that
    [airy_err_get_chain] gives: at its end [AIRY_ERROR_NULL] pushes on it. *)
Definition airy_err_chain_iter_next (a : answers) (i : nat) (w : thread) : option (option airy_err_context_entry_t * nat * thread) :=
  match chain w with
  | None => w' ← airy_err_push_ex a (null_parameter (cs "airy_err_chain_iter_next") 505) w; Some (None, i, w')
  | Some c => match contexts c !! i with
              | Some e => Some (Some e, S i, w)
              | None => w' ← airy_err_push_ex a (null_parameter (cs "airy_err_chain_iter_next") 509) w; Some (None, i, w')
              end
  end.
Definition airy_err_chain_iter_init : nat := 0.
Definition airy_err_chain_iter_reset (i : nat) : nat := 0.

Definition airy_err_get_stats (w : thread) : error_stats := stats w.
Definition airy_err_reset_stats (w : thread) : thread := set_stats (Stats 0 [0; 0; 0; 0] 0 0) w.

(** ** Languages *)

Definition airy_err_set_language (lang : Z) (w : thread) : Z * thread :=
  if (lang <? 0) || (7 <? lang) then (AIRY_ERR_INVALID_PARAM, w)
  else (0, Thread (chain w) (heap w) (stats w) lang (g_i18n_entries w)).
Definition airy_err_get_language (w : thread) : Z := g_current_language w.

(** [entries] is [None] for NULL; the registered entries replace the old ones. *)
Definition airy_err_register_i18n (malloc_ok : bool) (entries : option (list airy_err_i18n_entry_t)) (w : thread) : Z * thread :=
  match entries with
  | None | Some [] => (AIRY_ERR_INVALID_PARAM, w)
  | Some l => if malloc_ok then (0, Thread (chain w) (heap w) (stats w) (g_current_language w) l)
              else (AIRY_ERR_OUT_OF_MEMORY, Thread (chain w) (heap w) (stats w) (g_current_language w) [])
  end.

Fixpoint find_i18n (l : list airy_err_i18n_entry_t) (norm : Z) (lang : nat) : option cstr :=
  match l with
  | [] => None
  | e :: l' => if i18n_code e =? norm then match descriptions e !! lang with Some (Some d) => Some d | _ => find_i18n l' norm lang end
               else find_i18n l' norm lang
  end.

Definition airy_err_str_i18n (c lang : Z) (w : thread) : cstr :=
  let use := if lang <? 0 then g_current_language w else lang in
  let use := if (use <? 0) || (7 <? use) then 0 else use in
  let norm := AIRY_ERR_NEG c in
  match find_i18n (g_i18n_entries w) norm (Z.to_nat use) with
  | Some d => d
  | None => match airy_err_find norm with
            | Some e => if use =? 1 then description_zh_cn e else description_en e
            | None => airy_err_str c
            end
  end.

(** ** Texts of a chain *)

Definition CHAIN_SIZE : nat := 4096.

(** The text is appended while there is room; a text that does not fit is cut
    and ends the appending. *)
Definition append_cut (b : mem * nat) (text : cstr) : option (mem * nat) :=
  if (b.2 <? CHAIN_SIZE)%nat then
    m ← snprintf_at b.2 (Z.of_nat (CHAIN_SIZE - b.2)) text b.1;
    Some (m, if (CHAIN_SIZE - b.2 <=? length text)%nat then CHAIN_SIZE else (b.2 + length text)%nat)
  else Some b.

Fixpoint appends_cut (b : mem * nat) (texts : list cstr) : option (mem * nat) :=
  match texts with [] => Some b | t :: l => b' ← append_cut b t; appends_cut b' l end.

(** The message with its quotes and backslashes escaped, in 2048 bytes. *)
Fixpoint escape_loop (s : cstr) (k : nat) (out : cstr) : cstr :=
  match s with
  | c :: s' =>
      if (k <? 2047)%nat then
        if (c =? 34) || (c =? 92) then escape_loop s' (S (S k)) (out ++ [92; c]) else escape_loop s' (S k) (out ++ [c])
      else out
  | [] => out
  end.
Definition escaped_msg (msg : cstr) : cstr := take 2047 (escape_loop msg 0 []).

Definition quoted (s : cstr) : cstr := [34] ++ s ++ [34].

Definition text_of (w : thread) (p : option positive) : option cstr := p ≫= (heap w !!.).

Definition context_json (w : thread) (first : bool) (e : airy_err_context_entry_t) : cstr :=
  (if first then [] else cs ", ") ++ cs "{" ++ quoted (cs "file") ++ cs ": " ++ quoted (default [] (file e)) ++ cs ", "
  ++ quoted (cs "line") ++ cs ": " ++ fmt_d (line e) ++ cs ", " ++ quoted (cs "function") ++ cs ": " ++ quoted (default [] (function e)) ++ cs ", "
  ++ quoted (cs "code") ++ cs ": " ++ fmt_d (error_code e) ++ cs ", "
  ++ quoted (cs "message") ++ cs ": " ++ quoted (escaped_msg (default [] (text_of w (message e)))) ++ cs "}".

Fixpoint contexts_json (w : thread) (first : bool) (l : list airy_err_context_entry_t) : list cstr :=
  match l with [] => [] | e :: l' => context_json w first e :: contexts_json w false l' end.

Definition json_head (w : thread) (lang : Z) (c : airy_err_chain_t) : cstr :=
  let use := if lang <? 0 then g_current_language w else lang in
  cs "{" ++ quoted (cs "code") ++ cs ": " ++ fmt_d (code c) ++ cs ", " ++ quoted (cs "message") ++ cs ": "
  ++ quoted (airy_err_str_i18n (code c) use w) ++ cs ", " ++ quoted (cs "depth") ++ cs ": " ++ fmt_d (Z.of_nat (length (contexts c))) ++ cs ", "
  ++ quoted (cs "contexts") ++ cs ": [".

(** The last byte of the buffer. *)
Definition terminate (m : mem) : mem := <[(CHAIN_SIZE - 1)%nat := Some 0]> m.

Definition airy_err_chain_to_json_i18n (w : thread) (lang : Z) (c : airy_err_chain_t) : option mem :=
  b ← appends_cut (fresh_buf CHAIN_SIZE, 0%nat) (json_head w lang c :: contexts_json w true (contexts c) ++ [cs "]}"]);
  Some (terminate b.1).
Definition airy_err_chain_to_json (w : thread) (c : airy_err_chain_t) : option mem := airy_err_chain_to_json_i18n w (-1) c.

Definition context_line (w : thread) (i : nat) (e : airy_err_context_entry_t) : cstr :=
  cs "  [" ++ fmt_d (Z.of_nat i + 1) ++ cs "] " ++ default (cs "?") (file e) ++ cs ":" ++ fmt_d (line e) ++ cs " in "
  ++ default (cs "?") (function e) ++ cs "(): " ++ default [] (text_of w (message e)) ++ [10].

(** The lines are appended while [offset] is below the size less one; the
    offset counts what would have been written. *)
Fixpoint format_loop (w : thread) (i : nat) (l : list airy_err_context_entry_t) (b : mem * nat) : option mem :=
  match l with
  | [] => Some b.1
  | e :: l' => if (b.2 <? CHAIN_SIZE - 1)%nat then b' ← append CHAIN_SIZE b (context_line w i e); format_loop w (S i) l' b' else Some b.1
  end.

Definition format_head (c : airy_err_chain_t) : cstr :=
  cs "Error chain (depth=" ++ fmt_d (Z.of_nat (length (contexts c))) ++ cs ", code=" ++ fmt_d (code c) ++ cs "):" ++ [10].

Definition airy_err_chain_format (w : thread) (c : airy_err_chain_t) : option mem :=
  b ← append CHAIN_SIZE (fresh_buf CHAIN_SIZE, 0%nat) (format_head c); format_loop w 0 (contexts c) b.

(** ** A chain is the last sixteen errors *)

Inductive err_op := Push (k : call) | Clear | Cleanup | OtherPush (c : Z) | ResetStats.

Definition err_step (a : answers) (o : err_op) (w : thread) : option thread :=
  match o with
  | Push k => airy_err_push_ex a k w
  | Clear => airy_err_clear (calloc_ok a) w
  | Cleanup => airy_err_thread_cleanup w
  | OtherPush c => Some (set_stats (count_error c (now_stats a) (stats w)) w)
  | ResetStats => Some (airy_err_reset_stats w)
  end.

Fixpoint err_run (l : list (answers * err_op)) (w : thread) : option thread :=
  match l with [] => Some w | (a, o) :: l' => w' ← err_step a o w; err_run l' w' end.

(** What the thread pushed since it was last cleared; [None] without a state. *)
Definition spec_step (a : answers) (o : err_op) (s : option (list (answers * call))) : option (list (answers * call)) :=
  match o, s with
  | Push k, Some l => Some (l ++ [(a, k)])
  | Push k, None => if calloc_ok a then Some [(a, k)] else None
  | Clear, Some _ => Some []
  | Clear, None => if calloc_ok a then Some [] else None
  | Cleanup, _ => None
  | _, _ => s
  end.

Definition spec_run (l : list (answers * err_op)) (s : option (list (answers * call))) : option (list (answers * call)) :=
  foldl (fun s p => spec_step p.1 p.2 s) s l.

(** An entry of the chain for a call: its message is a copy, cut to 1023 bytes,
    or NULL when there was no memory. *)
Definition entry_of (h : gmap positive cstr) (e : airy_err_context_entry_t) (p : answers * call) : Prop :=
  file e = c_file p.2 /\ line e = c_line p.2 /\ function e = c_func p.2 /\ error_code e = c_code p.2 /\ timestamp_ns e = now_entry p.1
  /\ (if strdup_ok p.1 then exists q, message e = Some q /\ h !! q = Some (take 1023 (c_text p.2)) else message e = None).

Definition ptrs (l : list airy_err_context_entry_t) : list positive := omap message l.

(** The blocks of the heap are the messages of the chain, each once. *)
Record owns (h : gmap positive cstr) (l : list airy_err_context_entry_t) : Prop := Owns {
  ow_nodup : NoDup (ptrs l);
  ow_dom : forall p, p ∈ ptrs l <-> is_Some (h !! p);
}.

Definition chain_is (w : thread) (s : option (list (answers * call))) : Prop :=
  match chain w, s with
  | Some c, Some l => Forall2 (entry_of (heap w)) (contexts c) (last_n AIRY_ERROR_CONTEXT_MAX_DEPTH l)
                      /\ code c = default 0 (c_code ∘ snd <$> last l) /\ owns (heap w) (contexts c)
  | None, None => heap w = ∅
  | _, _ => False
  end.

Lemma ptrs_cons e l : ptrs (e :: l) = match message e with Some p => p :: ptrs l | None => ptrs l end.
Proof. done. Qed.

Lemma ptrs_snoc l e : ptrs (l ++ [e]) = ptrs l ++ match message e with Some p => [p] | None => [] end.
Proof. unfold ptrs. rewrite omap_app. cbn. by destruct (message e). Qed.

Lemma owns_nil : owns ∅ [].
Proof. constructor; [apply NoDup_nil_2|]. intros p. rewrite lookup_empty. split; [by intros Hp%not_elem_of_nil|by intros []]. Qed.

Lemma owns_empty h : owns h [] -> h = ∅.
Proof.
  intros [_ H]. apply map_empty. intros p. destruct (h !! p) eqn:E; [|done]. exfalso. apply (not_elem_of_nil p). apply H. by rewrite E.
Qed.

Lemma owns_free h e l : owns h (e :: l) -> exists h', free_msg (message e) h = Some h' /\ owns h' l /\ (forall p, p ∈ ptrs l -> h' !! p = h !! p).
Proof.
  intros [H1 H2]. unfold free_msg. rewrite ptrs_cons in *. destruct (message e) as [p|]; [|exists h; by split_and!].
  apply NoDup_cons in H1 as [Hp H1]. destruct (proj1 (H2 p) ltac:(left)) as [x ->]. cbn [mbind option_bind]. eexists. split; [done|]. split.
  - constructor; [done|]. intros q. destruct (decide (p = q)) as [<-|Hne].
    + rewrite lookup_delete_eq. split; [done|by intros []].
    + rewrite lookup_delete_ne by done. rewrite <- H2, elem_of_cons. split; [by right|by intros [->|]].
  - intros q Hq. rewrite lookup_delete_ne; [done|by intros ->].
Qed.

Lemma owns_free_all l h : owns h l -> free_msgs l h = Some ∅.
Proof.
  revert h; induction l as [|e l IH]; intros h H; cbn [free_msgs]; [by rewrite (owns_empty h H)|].
  destruct (owns_free h e l H) as (h' & -> & H' & _). by apply IH.
Qed.

Lemma owns_strdup ok text h l e p h' :
  owns h l -> strdup ok text h = (p, h') -> message e = p -> owns h' (l ++ [e]) /\ (forall q, q ∈ ptrs l -> h' !! q = h !! q)
  /\ (if ok then exists q, p = Some q /\ h' !! q = Some text else p = None).
Proof.
  intros [H1 H2] E He. unfold strdup in E. destruct ok; injection E as <- <-.
  - set (q := fresh (dom h)) in *. assert (Hq : q ∉ dom h) by apply is_fresh. clearbody q.
    assert (Hni : q ∉ ptrs l) by (intros Hin; apply Hq, elem_of_dom; by apply H2). split; [|split].
    + constructor.
      * rewrite ptrs_snoc, He. apply NoDup_app. split_and!; [done| |apply NoDup_singleton]. by intros x Hx ->%list_elem_of_singleton.
      * intros x. rewrite ptrs_snoc, He, elem_of_app, list_elem_of_singleton, H2. destruct (decide (x = q)) as [->|Hne].
        -- rewrite lookup_insert_eq. split; [done|by right].
        -- rewrite lookup_insert_ne by done. split; [by intros [|]|by left].
    + intros x Hx. rewrite lookup_insert_ne; [done|by intros ->].
    + exists q. by rewrite lookup_insert_eq.
  - split; [|by split]. constructor; rewrite ptrs_snoc, He, app_nil_r; done.
Qed.

Lemma entry_ptr h e p q : entry_of h e p -> message e = Some q -> is_Some (h !! q).
Proof. intros (_ & _ & _ & _ & _ & H) E. destruct (strdup_ok p.1); [|congruence]. destruct H as (q' & Hq & Hx). rewrite E in Hq. injection Hq as ->. by rewrite Hx. Qed.

Lemma entries_keep h h' l s :
  Forall2 (entry_of h) l s -> (forall q, q ∈ ptrs l -> h' !! q = h !! q) -> Forall2 (entry_of h') l s.
Proof.
  induction 1 as [|e p l s He Hl IH]; intros Hh; [constructor|]. rewrite ptrs_cons in Hh. constructor.
  - destruct He as (H1 & H2 & H3 & H4 & H5 & H6). split_and!; try done. destruct (strdup_ok p.1); [|done].
    destruct H6 as (q & Hq & Hx). exists q. split; [done|]. rewrite Hh; [done|]. rewrite Hq. left.
  - apply IH. intros q Hq. apply Hh. destruct (message e); [by right|done].
Qed.

Lemma push_chain a k w c l :
  chain w = Some c -> Forall2 (entry_of (heap w)) (contexts c) (last_n AIRY_ERROR_CONTEXT_MAX_DEPTH l) -> owns (heap w) (contexts c) ->
  exists w', airy_err_push_ex a k w = Some w' /\ chain_is w' (Some (l ++ [(a, k)])).
Proof.
  intros Hc Hf Ho. unfold airy_err_push_ex, get_thread_error_state. rewrite Hc. pose proof (Forall2_length _ _ _ Hf) as Hlen.
  assert (Hlast : last (l ++ [(a, k)]) = Some (a, k)) by apply last_snoc.
  destruct (Nat.ltb_spec (length (contexts c)) AIRY_ERROR_CONTEXT_MAX_DEPTH) as [Hroom|Hfull].
  - cbn [heap set_stats]. destruct (strdup (strdup_ok a) (take 1023 (c_text k)) (heap w)) as [p h] eqn:E.
    set (e := Context_ _ _ _ p _ _). destruct (owns_strdup _ _ _ (contexts c) e p h Ho E eq_refl) as (H1 & H2 & H3).
    eexists. split; [done|]. unfold chain_is. cbn [chain set_chain heap contexts code]. rewrite Hlast. split_and!; [|done|done].
    rewrite last_n_room by lia. apply Forall2_app; [by eapply entries_keep|]. repeat constructor; done.
  - destruct (contexts c) as [|e0 r] eqn:Ec; [unfold AIRY_ERROR_CONTEXT_MAX_DEPTH in Hfull; cbn in Hfull; lia|]. cbn [heap set_stats].
    destruct (owns_free (heap w) e0 r Ho) as (h0 & -> & Ho' & Hk). cbn [mbind option_bind].
    destruct (strdup (strdup_ok a) (take 1023 (c_text k)) h0) as [p h] eqn:E.
    set (e := Context_ _ _ _ p _ _). destruct (owns_strdup _ _ _ r e p h Ho' E eq_refl) as (H1 & H2 & H3).
    eexists. split; [done|]. unfold chain_is. cbn [chain set_chain heap contexts code]. rewrite Hlast. split_and!; [|done|done].
    inversion Hf as [|? p0 ? s Hp0 Hs Heq1 Heq2]; subst. symmetry in Heq2.
    rewrite (last_n_full _ l p0 s); [|done|rewrite <- Heq2, last_n_length; rewrite last_n_length in Hlen; lia].
    apply Forall2_app; [|repeat constructor; done]. eapply entries_keep; [exact Hs|]. intros q Hq. rewrite H2 by done. by apply Hk.
Qed.

Lemma err_step_chain a o w s : chain_is w s -> exists w', err_step a o w = Some w' /\ chain_is w' (spec_step a o s).
Proof.
  intros H. unfold chain_is in H. destruct o as [k| | |c|]; cbn [err_step].
  - destruct (chain w) as [ch|] eqn:Ec, s as [l|]; try done.
    + destruct H as (H1 & H2 & H3). by apply (push_chain a k w ch l).
    + cbn [spec_step]. destruct (calloc_ok a) eqn:Ea.
      * assert (Hp : airy_err_push_ex a k w = airy_err_push_ex a k (set_chain (Some (Chain 0 [])) (heap w) w)).
        { unfold airy_err_push_ex, get_thread_error_state. rewrite Ec, Ea. done. }
        rewrite Hp. apply (push_chain a k _ (Chain 0 []) []); [done|constructor|]. cbn. rewrite H. apply owns_nil.
      * unfold airy_err_push_ex, get_thread_error_state. rewrite Ec, Ea. exists w. split; [done|]. unfold chain_is. by rewrite Ec.
  - unfold airy_err_clear, get_thread_error_state. destruct (chain w) as [ch|] eqn:Ec, s as [l|]; try done.
    + destruct H as (H1 & H2 & H3). rewrite (owns_free_all _ _ H3). cbn. eexists. split; [done|]. unfold chain_is. cbn.
      split_and!; [constructor|done|apply owns_nil].
    + destruct (calloc_ok a) eqn:Ea; cbn; rewrite ?Ea; (eexists; split; [done|]); unfold chain_is; cbn; rewrite ?Ec; [|done].
      split_and!; [constructor|done|rewrite H; apply owns_nil].
  - unfold airy_err_thread_cleanup. destruct (chain w) as [ch|] eqn:Ec, s as [l|]; try done.
    + destruct H as (H1 & H2 & H3). rewrite (owns_free_all _ _ H3). cbn. by eexists.
    + exists w. split; [done|]. unfold chain_is. by rewrite Ec.
  - eexists. split; [done|]. unfold chain_is. cbn. by destruct s.
  - eexists. split; [done|]. unfold chain_is. cbn. by destruct s.
Qed.

Lemma err_run_chain l w s : chain_is w s -> exists w', err_run l w = Some w' /\ chain_is w' (spec_run l s).
Proof.
  revert w s; induction l as [|[a o] l IH]; intros w s H; cbn [err_run]; [by exists w|].
  destruct (err_step_chain a o w s H) as (w1 & -> & H1). cbn [mbind option_bind]. apply (IH w1 _ H1).
Qed.

Definition new_thread : thread := Thread None ∅ (Stats 0 [0; 0; 0; 0] 0 0) 0 [].

(** C28: whatever a thread and the others do, no message is freed twice, the
    thread's chain is the last sixteen errors that it pushed since it was last
    cleared, oldest first, with copies of their messages, its code is that of
    the last one and its root that of the oldest kept, and the messages that are
    allocated are exactly those of the chain. *)
Theorem error_chain_exact l :
  exists w, err_run l new_thread = Some w /\
  match chain w, spec_run l None with
  | Some c, Some pushed =>
      let kept := last_n AIRY_ERROR_CONTEXT_MAX_DEPTH pushed in
      Forall2 (entry_of (heap w)) (contexts c) kept
      /\ airy_err_chain_get_depth (Some c) = Z.of_nat (Nat.min AIRY_ERROR_CONTEXT_MAX_DEPTH (length pushed))
      /\ airy_err_latest (Some c) = default 0 (c_code ∘ snd <$> last pushed)
      /\ airy_err_chain_get_root_error (Some c) = default 0 (c_code ∘ snd <$> head kept)
      /\ NoDup (ptrs (contexts c)) /\ (forall p, p ∈ ptrs (contexts c) <-> is_Some (heap w !! p))
  | None, None => heap w = ∅
  | _, _ => False
  end.
Proof.
  destruct (err_run_chain l new_thread None eq_refl) as (w & Hw & H). exists w. split; [done|]. unfold chain_is in H.
  destruct (chain w) as [c|], (spec_run l None) as [s|]; try done. destruct H as (H1 & H2 & [H3 H4]). cbn zeta. split_and!; try done.
  - unfold airy_err_chain_get_depth. by rewrite (Forall2_length _ _ _ H1), last_n_length.
  - unfold airy_err_chain_get_root_error. destruct c as [k ctxs]. cbn [contexts] in *. destruct H1 as [|e p r s' He]; [done|]. cbn. apply He.
Qed.

Definition a_call (c : Z) : call := Call c (Some (cs "a.c")) 7 (Some (cs "f")) (cs "bad").
Definition all_ok : answers := Answers true true 1 2.

(** ** The texts of a chain are the documents, cut to the buffer *)

Lemma appends_cut_exact m s ts :
  starts m s -> length m = CHAIN_SIZE -> (length s < CHAIN_SIZE)%nat -> ts <> [] ->
  exists m' off, appends_cut (m, length s) ts = Some (m', off) /\ length m' = CHAIN_SIZE /\ holds m' (take (CHAIN_SIZE - 1) (s ++ concat ts)).
Proof.
  revert m s; induction ts as [|t ts IH]; intros m s Hs Hm Hl Hne; [done|]. cbn [appends_cut concat]. unfold append_cut. cbn [fst snd].
  replace (_ <? _)%nat with true by (symmetry; by apply Nat.ltb_lt).
  destruct (snprintf_take m s (CHAIN_SIZE - length s) t Hs) as (m1 & -> & H1 & H2); [lia|lia|]. rewrite Hm in H1, H2. cbn [mbind option_bind].
  destruct (Nat.leb_spec (CHAIN_SIZE - length s) (length t)) as [Hcut|Hfit].
  - assert (Hstop : forall l, appends_cut (m1, CHAIN_SIZE) l = Some (m1, CHAIN_SIZE)).
    { induction l as [|x l IHl]; [done|]. cbn [appends_cut]. unfold append_cut. cbn [snd]. by rewrite Nat.ltb_irrefl. }
    exists m1, CHAIN_SIZE. split; [apply Hstop|]. split; [done|]. rewrite app_assoc, take_app_le; [done|rewrite length_app; lia].
  - rewrite take_ge in H2 by (rewrite length_app; lia). destruct ts as [|t' ts'].
    + exists m1, (length s + length t)%nat. cbn [concat appends_cut]. rewrite app_nil_r. split; [done|]. split; [done|].
      by rewrite take_ge by (rewrite length_app; lia).
    + rewrite <- length_app, app_assoc. apply IH; [by apply holds_starts|done|rewrite length_app; lia|done].
Qed.

Definition escape (s : cstr) : cstr := concat (map (fun c => if (c =? 34) || (c =? 92) then [92; c] else [c]) s).

Lemma escape_loop_exact s k out :
  (k + 2 * length s <= 2047)%nat -> escape_loop s k out = out ++ escape s.
Proof.
  revert k out; induction s as [|c s IH]; intros k out H; cbn [escape_loop length] in *; [by rewrite app_nil_r|].
  replace (k <? 2047)%nat with true by (symmetry; apply Nat.ltb_lt; lia). unfold escape. cbn [map concat]. fold (escape s).
  destruct (_ || _); rewrite IH by lia; by rewrite <- app_assoc.
Qed.

Lemma escape_length s : (length (escape s) <= 2 * length s)%nat.
Proof. unfold escape. induction s as [|c s IH]; [done|]. cbn [map concat]. rewrite length_app. destruct (_ || _); cbn [length] in *; lia. Qed.

(** No message that fits its copy is cut when it is escaped. *)
Lemma escaped_exact s : (length s <= 1023)%nat -> escaped_msg s = escape s.
Proof.
  intros H. unfold escaped_msg. rewrite escape_loop_exact by lia. cbn [app]. apply take_ge. pose proof (escape_length s). lia.
Qed.

Definition context_doc (w : thread) (e : airy_err_context_entry_t) : cstr :=
  cs "{" ++ quoted (cs "file") ++ cs ": " ++ quoted (default [] (file e)) ++ cs ", "
  ++ quoted (cs "line") ++ cs ": " ++ fmt_d (line e) ++ cs ", " ++ quoted (cs "function") ++ cs ": " ++ quoted (default [] (function e)) ++ cs ", "
  ++ quoted (cs "code") ++ cs ": " ++ fmt_d (error_code e) ++ cs ", "
  ++ quoted (cs "message") ++ cs ": " ++ quoted (escape (default [] (text_of w (message e)))) ++ cs "}".

Fixpoint sep_concat (sep : cstr) (l : list cstr) : cstr :=
  match l with [] => [] | [x] => x | x :: l' => x ++ sep ++ sep_concat sep l' end.

(** The whole document. *)
Definition chain_doc (w : thread) (lang : Z) (c : airy_err_chain_t) : cstr :=
  json_head w lang c ++ sep_concat (cs ", ") (map (context_doc w) (contexts c)) ++ cs "]}".

Definition messages_fit (w : thread) : Prop := map_Forall (fun _ t => (length t <= 1023)%nat) (heap w).

Lemma context_json_doc w first e : messages_fit w -> context_json w first e = (if first then [] else cs ", ") ++ context_doc w e.
Proof.
  intros H. unfold context_json, context_doc. rewrite escaped_exact; [done|]. unfold text_of. destruct (message e) as [p|]; cbn; [|lia].
  destruct (heap w !! p) as [t|] eqn:E; cbn; [by eapply H|lia].
Qed.

Lemma contexts_json_doc w l :
  messages_fit w -> concat (contexts_json w true l) = sep_concat (cs ", ") (map (context_doc w) l).
Proof.
  intros H. assert (Hr : forall l, concat (contexts_json w false l) = match l with [] => [] | _ => cs ", " ++ sep_concat (cs ", ") (map (context_doc w) l) end).
  { clear l. induction l as [|e l IH]; [done|]. cbn [contexts_json concat map]. rewrite IH, context_json_doc by done.
    rewrite <- app_assoc. f_equal. destruct l as [|e' l]; [by rewrite app_nil_r|]. done. }
  destruct l as [|e l]; [done|]. cbn [contexts_json concat map]. rewrite Hr, context_json_doc by done.
  destruct l as [|e' l]; [by rewrite app_nil_r|]. done.
Qed.

(** *** The format for people *)

Definition format_doc (w : thread) (c : airy_err_chain_t) : cstr :=
  format_head c ++ concat (imap (context_line w) (contexts c)).

Lemma format_loop_exact w i l m s off :
  (off = length s /\ (length s < CHAIN_SIZE)%nat \/ (CHAIN_SIZE - 1 <= off)%nat /\ (CHAIN_SIZE - 1 <= length s)%nat) ->
  length m = CHAIN_SIZE -> holds m (take (CHAIN_SIZE - 1) s) ->
  exists m', format_loop w i l (m, off) = Some m' /\ holds m' (take (CHAIN_SIZE - 1) (s ++ concat (imap (fun k => context_line w (i + k)) l))).
Proof.
  revert i m s off; induction l as [|e l IH]; intros i m s off Hoff Hm Hh; cbn [format_loop fst snd].
  { exists m. cbn. by rewrite app_nil_r. }
  assert (Himap : concat (imap (fun k => context_line w (i + k)) (e :: l)) = context_line w i e ++ concat (imap (fun k => context_line w (S i + k)) l)).
  { cbn [imap concat]. rewrite Nat.add_0_r. do 2 f_equal. apply imap_ext. intros k x _. unfold compose. by rewrite Nat.add_succ_r. }
  rewrite Himap. destruct (Nat.ltb_spec off (CHAIN_SIZE - 1)) as [Hlt|Hge].
  - destruct Hoff as [[-> Hs]|[H _]]; [|lia]. rewrite take_ge in Hh by lia. unfold append. cbn [fst snd].
    rewrite <- Nat2Z.inj_sub, u64_small by (unfold CHAIN_SIZE in *; lia).
    destruct (snprintf_take m s (CHAIN_SIZE - length s) (context_line w i e)) as (m1 & -> & H1 & H2); [by apply holds_starts|lia|lia|].
    rewrite Hm in H1, H2. cbn [mbind option_bind]. rewrite app_assoc. apply IH; [|done|done]. rewrite length_app. lia.
  - exists m. split; [done|]. destruct Hoff as [[-> Hs]|[_ Hs]]; rewrite take_app_le by lia; done.
Qed.

Lemma reached_fit w s : chain_is w s -> messages_fit w.
Proof.
  unfold chain_is, messages_fit. destruct (chain w) as [c|], s as [l|]; try done; [|intros ->; apply map_Forall_empty].
  intros (H1 & _ & [_ H3]) p t Hp. assert (Hin : p ∈ ptrs (contexts c)) by (apply H3; by rewrite Hp). apply list_elem_of_omap in Hin as (e & He & Hm).
  apply list_elem_of_lookup_1 in He as [i Hi]. destruct (Forall2_lookup_l _ _ _ _ _ H1 Hi) as (q & _ & _ & _ & _ & _ & _ & Ht).
  destruct (strdup_ok q.1); [|congruence]. destruct Ht as (p' & Hp' & Hx). rewrite Hm in Hp'. injection Hp' as <-. rewrite Hp in Hx. injection Hx as ->.
  rewrite length_take. lia.
Qed.

Lemma fmt_d_length n : (length (fmt_d n) <= 21)%nat.
Proof. unfold fmt_d. destruct (n <? 0); cbn [length]; [pose proof (text_ok_digits 20 (- n)) as [_ H]|pose proof (text_ok_digits 20 n) as [_ H]]; lia. Qed.

Lemma format_head_length c : (length (format_head c) < 100)%nat.
Proof.
  unfold format_head. rewrite !length_app. pose proof (fmt_d_length (Z.of_nat (length (contexts c)))). pose proof (fmt_d_length (code c)).
  cbn [cs length]. lia.
Qed.

(** Whatever a thread did, both texts of its chain are made inside their
    buffer of 4096 bytes and are the whole document (the description of the code
    in the language asked for or in the current one, then the entries in order,
    with quotes and backslashes of messages escaped), cut to 4095 bytes. *)
Theorem chain_texts_exact l w lang c :
  err_run l new_thread = Some w -> chain w = Some c -> nonzero (chain_doc w lang c) -> nonzero (format_doc w c) ->
  (exists m, airy_err_chain_to_json_i18n w lang c = Some m /\ read_str m = Some (take (CHAIN_SIZE - 1) (chain_doc w lang c))) /\
  (exists m, airy_err_chain_format w c = Some m /\ read_str m = Some (take (CHAIN_SIZE - 1) (format_doc w c))).
Proof.
  intros Hr Hc Hj Hf. destruct (err_run_chain l new_thread None eq_refl) as (w' & Hw & H). rewrite Hr in Hw. injection Hw as <-. apply reached_fit in H.
  assert (Hfresh : length (fresh_buf CHAIN_SIZE) = CHAIN_SIZE) by apply length_replicate. split.
  - unfold airy_err_chain_to_json_i18n.
    destruct (appends_cut_exact (fresh_buf CHAIN_SIZE) [] (json_head w lang c :: contexts_json w true (contexts c) ++ [cs "]}"])) as (m & off & E & H1 & H2);
      [done|done|unfold CHAIN_SIZE; cbn; lia|done|]. change (length (@nil Z)) with O in E. rewrite E. cbn [mbind option_bind fst].
    cbn [concat app] in H2. rewrite concat_app, contexts_json_doc in H2 by done. cbn [concat] in H2. rewrite app_nil_r in H2.
    eexists. split; [done|]. apply holds_read; [by apply Forall_take|]. apply holds_terminate; [exact H2|]. rewrite length_take. lia.
  - unfold airy_err_chain_format. pose proof (format_head_length c).
    destruct (append_fits (fresh_buf CHAIN_SIZE) [] (format_head c) CHAIN_SIZE) as (m & E & H1 & H2); [done|done|unfold CHAIN_SIZE; cbn [length]; lia|unfold CHAIN_SIZE; lia|].
    cbn [length app] in E, H2. rewrite E. cbn [mbind option_bind].
    destruct (format_loop_exact w 0 (contexts c) m (format_head c) (length (format_head c))) as (m' & -> & H3).
    + left. unfold CHAIN_SIZE. lia.
    + done.
    + rewrite take_ge by (unfold CHAIN_SIZE; lia). done.
    + exists m'. split; [done|]. apply holds_read; [by apply Forall_take|]. exact H3.
Qed.

Lemma chain_texts_exact_witness :
  exists w c m, err_run [(all_ok, Push (a_call (-12)))] new_thread = Some w /\ chain w = Some c /\ airy_err_chain_to_json w c = Some m
    /\ read_str m = Some (cs "{" ++ quoted (cs "code") ++ cs ": -12, " ++ quoted (cs "message") ++ cs ": " ++ quoted (cs "Out of memory") ++ cs ", "
      ++ quoted (cs "depth") ++ cs ": 1, " ++ quoted (cs "contexts") ++ cs ": [{" ++ quoted (cs "file") ++ cs ": " ++ quoted (cs "a.c") ++ cs ", "
      ++ quoted (cs "line") ++ cs ": 7, " ++ quoted (cs "function") ++ cs ": " ++ quoted (cs "f") ++ cs ", " ++ quoted (cs "code") ++ cs ": -12, "
      ++ quoted (cs "message") ++ cs ": " ++ quoted (cs "bad") ++ cs "}]}").
Proof.
  destruct (err_run [(all_ok, Push (a_call (-12)))] new_thread) as [w|] eqn:E; [|vm_compute in E; done].
  destruct (chain w) as [c|] eqn:Ec; [|vm_compute in E; injection E as <-; done].
  destruct (chain_texts_exact [(all_ok, Push (a_call (-12)))] w (-1) c E Ec) as [(m & H1 & H2) _].
  - vm_compute in E. injection E as <-. vm_compute in Ec. injection Ec as <-. vm_compute. repeat constructor; done.
  - vm_compute in E. injection E as <-. vm_compute in Ec. injection Ec as <-. vm_compute. repeat constructor; done.
  - exists w, c, m. split_and!; [done|done|exact H1|rewrite H2]. vm_compute in E. injection E as <-. vm_compute in Ec. injection Ec as <-. vm_compute. reflexivity.
Defined.

(** ** Statistics *)

(** The codes that are counted: those of other threads, and those that the
    thread pushes when it has or gets a state. *)
Definition seen_by (a : answers) (o : err_op) (s : option (list (answers * call))) : list Z :=
  match o with
  | Push k => match s with Some _ => [c_code k] | None => if calloc_ok a then [c_code k] else [] end
  | OtherPush c => [c]
  | _ => []
  end.

Fixpoint seen (l : list (answers * err_op)) (s : option (list (answers * call))) : list Z :=
  match l with [] => [] | (a, o) :: l' => seen_by a o s ++ seen l' (spec_step a o s) end.

Definition severities (i : nat) (codes : list Z) : Z :=
  Z.of_nat (length (List.filter (fun c => severity_value (airy_err_get_severity c) =? i)%nat codes)).

(** The statistics after some codes were counted. *)
Definition stats_after (s : error_stats) (codes : list Z) (s' : error_stats) : Prop :=
  total_errors s' = u64 (total_errors s + Z.of_nat (length codes))
  /\ last_error s' = default (last_error s) (last codes)
  /\ length (errors_by_severity s') = length (errors_by_severity s)
  /\ forall i n, errors_by_severity s !! i = Some n -> errors_by_severity s' !! i = Some (if decide (severities i codes = 0) then n else u64 (n + severities i codes)).

Lemma u64_add a b : u64 (u64 a + b) = u64 (a + b).
Proof. unfold u64. by rewrite Zplus_mod_idemp_l. Qed.

Lemma severities_cons i c codes :
  severities i (c :: codes) = (if (severity_value (airy_err_get_severity c) =? i)%nat then 1 else 0) + severities i codes.
Proof. unfold severities. cbn [List.filter]. destruct (_ =? _)%nat; cbn [length]; lia. Qed.

Lemma severities_nonneg i codes : 0 <= severities i codes.
Proof. unfold severities. lia. Qed.

Lemma count_error_after c t s codes s' :
  stats_after (count_error c t s) codes s' -> stats_after s (c :: codes) s'.
Proof.
  intros (H1 & H2 & H3 & H4). unfold count_error in *. cbn [total_errors last_error errors_by_severity] in *. split_and!.
  - rewrite H1, u64_add. f_equal. cbn [length]. lia.
  - rewrite H2. destruct codes as [|c' codes]; [done|]. rewrite last_cons_cons. destruct (last (c' :: codes)) eqn:E; [done|by apply last_None in E].
  - rewrite H3. unfold bump. by rewrite length_alter.
  - intros i n Hi. rewrite severities_cons. pose proof (severities_nonneg i codes) as Hn.
    destruct (Nat.eqb_spec (severity_value (airy_err_get_severity c)) i) as [E|Hne].
    + rewrite (H4 i (u64 (n + 1))); [|unfold bump; rewrite E, list_lookup_alter_eq, Hi; done].
      rewrite (decide_False (P := 1 + severities i codes = 0)) by lia. destruct (decide (severities i codes = 0)) as [->|]; [done|].
      rewrite u64_add. do 2 f_equal. lia.
    + rewrite (H4 i n); [done|unfold bump; by rewrite list_lookup_alter_ne].
Qed.

Lemma step_stats a o w s w' :
  chain_is w s -> o <> ResetStats -> err_step a o w = Some w' ->
  stats w' = match seen_by a o s with [c] => count_error c (now_stats a) (stats w) | _ => stats w end.
Proof.
  intros H Ho. unfold chain_is in H. destruct o as [k| | |c|]; cbn [err_step seen_by]; try done.
  - unfold airy_err_push_ex, get_thread_error_state. destruct (chain w) as [ch|], s as [l|]; try done.
    + destruct (_ <? _)%nat; [destruct (strdup _ _ _); intros [= <-]; done|]. destruct (contexts ch); [done|].
      destruct (free_msg _ _); [|done]. cbn [mbind option_bind]. destruct (strdup _ _ _). by intros [= <-].
    + destruct (calloc_ok a); [|by intros [= <-]]. cbn [contexts length]. change (0 <? AIRY_ERROR_CONTEXT_MAX_DEPTH)%nat with true. cbn iota.
      destruct (strdup _ _ _). by intros [= <-].
  - unfold airy_err_clear, get_thread_error_state. destruct (chain w) as [ch|]; [|destruct (calloc_ok a)]; cbn; try (by intros [= <-]).
    destruct (free_msgs _ _); [|done]. by intros [= <-].
  - unfold airy_err_thread_cleanup. destruct (chain w); [|by intros [= <-]]. destruct (free_msgs _ _); [|done]. by intros [= <-].
  - by intros [= <-].
Qed.

Lemma run_stats l w s w' :
  chain_is w s -> Forall (fun p => p.2 <> ResetStats) l -> err_run l w = Some w' -> 0 <= total_errors (stats w) < 2 ^ 64 ->
  stats_after (stats w) (seen l s) (stats w').
Proof.
  intros H Hl. revert w s H; induction Hl as [|[a o] l Ho Hl IH]; intros w s H; cbn [err_run seen].
  - intros [= <-] Ht. unfold stats_after. cbn [length]. rewrite Z.add_0_r, u64_small by done. done.
  - destruct (err_step_chain a o w s H) as (w1 & E & H1). rewrite E. cbn [mbind option_bind]. intros Hr Ht. pose proof (step_stats a o w s w1 H Ho E) as Hs.
    assert (Hsn : seen_by a o s = [] \/ exists c, seen_by a o s = [c]).
    { destruct o; cbn; [destruct s; [eauto|destruct (calloc_ok a); eauto]|eauto..]. }
    destruct Hsn as [E0|[c E0]]; rewrite E0 in *; cbn [app].
    + rewrite <- Hs. apply IH; [done|done|by rewrite Hs].
    + apply (count_error_after c (now_stats a)). rewrite <- Hs. apply IH; [done|done|]. rewrite Hs. apply u64_range.
Qed.

(** From a reset on, the statistics are exact: the total is the number of
    errors that all threads pushed, the counter of each severity is the number
    of those whose code has it, and the last error is the last one. *)
Theorem error_stats_exact l1 l2 a w :
  Forall (fun p => p.2 <> ResetStats) l2 -> Z.of_nat (length (seen l2 (spec_run (l1 ++ [(a, ResetStats)]) None))) < 2 ^ 64 ->
  err_run (l1 ++ (a, ResetStats) :: l2) new_thread = Some w ->
  let codes := seen l2 (spec_run (l1 ++ [(a, ResetStats)]) None) in
  total_errors (stats w) = Z.of_nat (length codes) /\ last_error (stats w) = default 0 (last codes)
  /\ errors_by_severity (stats w) = map (fun i => severities i codes) [0; 1; 2; 3]%nat.
Proof.
  intros Hl Hlen Hr. cbn zeta. set (codes := seen l2 _) in *.
  assert (Hsplit : exists w1, err_run l1 new_thread = Some w1 /\ err_run l2 (airy_err_reset_stats w1) = Some w).
  { clear Hlen. subst codes. clear Hl. revert Hr. generalize new_thread. induction l1 as [|[b o] l1 IH]; intros w0 Hr; cbn [app err_run err_step] in *; [eexists; split; [done|exact Hr]|].
    destruct (err_step b o w0) as [w1|]; [|done]. cbn [mbind option_bind] in *. by apply IH. }
  destruct Hsplit as (w1 & E1 & E2). destruct (err_run_chain l1 new_thread None eq_refl) as (w1' & Hw & Hc). rewrite E1 in Hw. injection Hw as <-.
  assert (Hc' : chain_is (airy_err_reset_stats w1) (spec_run (l1 ++ [(a, ResetStats)]) None)).
  { unfold spec_run in *. rewrite foldl_app. cbn [foldl fst snd]. set (s := foldl _ None l1) in *. clearbody s. unfold chain_is in *. cbn. by destruct s. }
  destruct (run_stats l2 _ _ _ Hc' Hl E2) as (H1 & H2 & H3 & H4); [done|]. fold codes in H1, H2, H4.
  cbn [stats airy_err_reset_stats set_stats total_errors last_error errors_by_severity] in *. split_and!; [rewrite H1; by rewrite u64_small by lia|done|].
  assert (Hb : forall i, severities i codes < 2 ^ 64).
  { intros i. unfold severities. pose proof (List.filter_length_le (fun c => severity_value (airy_err_get_severity c) =? i)%nat codes). lia. }
  assert (Hget : forall i, (i < 4)%nat -> errors_by_severity (stats w) !! i = Some (severities i codes)).
  { intros i Hi. rewrite (H4 i 0) by (do 4 (destruct i as [|i]; [done|]); lia). f_equal. destruct (decide _) as [->|]; [done|].
    pose proof (severities_nonneg i codes). rewrite u64_small by (specialize (Hb i); lia). lia. }
  apply list_eq. intros i. destruct (Nat.lt_ge_cases i 4) as [Hi|Hi].
  - rewrite (Hget i Hi). do 4 (destruct i as [|i]; [done|]). lia.
  - rewrite !lookup_ge_None_2; [done|cbn; lia|rewrite H3; cbn; lia].
Qed.

Lemma error_stats_exact_witness :
  exists w, err_run ([(all_ok, Push (a_call (-12)))] ++ (all_ok, ResetStats) :: [(all_ok, OtherPush (-8)); (all_ok, Push (a_call (-22))); (all_ok, Push (a_call (-12)))]) new_thread = Some w
    /\ total_errors (stats w) = 3 /\ last_error (stats w) = -12 /\ errors_by_severity (stats w) = [0; 1; 1; 1].
Proof.
  set (l2 := [(all_ok, OtherPush (-8)); (all_ok, Push (a_call (-22))); (all_ok, Push (a_call (-12)))]).
  destruct (err_run ([(all_ok, Push (a_call (-12)))] ++ (all_ok, ResetStats) :: l2) new_thread) as [w|] eqn:E; [|vm_compute in E; done].
  exists w. split; [done|]. apply (error_stats_exact [(all_ok, Push (a_call (-12)))] l2 all_ok w) in E as (H1 & H2 & H3).
  - rewrite H1, H2, H3. vm_compute. done.
  - unfold l2. repeat constructor; done.
  - vm_compute. done.
Defined.

(** Walking a thread's own chain to its end pushes an error on it: the walk
    that starts again finds one entry more. *)
Theorem iteration_pushes :
  exists w w', err_run [(all_ok, Push (a_call (-12)))] new_thread = Some w
    /\ airy_err_chain_iter_next all_ok 1 w = Some (None, 1%nat, w')
    /\ airy_err_chain_get_depth (chain w) = 1 /\ airy_err_chain_get_depth (chain w') = 2 /\ airy_err_latest (chain w') = AIRY_ERR_INVALID_PARAM.
Proof.
  eexists _, _. split; [vm_compute; reflexivity|]. split; [vm_compute; reflexivity|]. split; [vm_compute; reflexivity|]. split; vm_compute; reflexivity.
Qed.

(** Descriptions that could not be replaced are lost. *)
Theorem register_i18n_loses w entries :
  entries <> [] -> (airy_err_register_i18n false (Some entries) w).1 = AIRY_ERR_OUT_OF_MEMORY /\ g_i18n_entries (airy_err_register_i18n false (Some entries) w).2 = [].
Proof. by destruct entries. Qed.
