(* ===== verification/CpText.v ===== *)
(** * Texts of checkpoints: utils/string/json_key.h and the text functions of
    utils/execution/checkpoint.c and checkpoint_persist.c

    Names of checkpoint files, the JSON document that a checkpoint is written
    as, and the functions that find a member in a text and read its value.
    Texts are followed by the NUL byte that ends them, which the functions see
    as the end of the list. *)
From S2P Require Import Prelude Decimal CLib.

(** ** Constants *)

Definition CHECKPOINT_FILE_PREFIX : cstr := cs "checkpoint_".
Definition CHECKPOINT_FILE_EXTENSION : cstr := cs ".json".
Definition MAX_CHECKPOINT_PATH : nat := 1024.
Definition CHECKPOINT_VERSION : Z := 1.

Definition CHECKPOINT_STATE_PENDING : Z := 0.
Definition CHECKPOINT_STATE_COMPLETED : Z := 1.
Definition CHECKPOINT_STATE_FAILED : Z := 2.
Definition CHECKPOINT_STATE_INVALID : Z := 3.

Definition QUOTE : Z := 34.
Definition BACKSLASH : Z := 92.
Definition NL : Z := 10.

(** ** Memory: the answers of the allocator to come ([true] when there are none
    left) and the number of blocks that are allocated *)

Record heap := Heap { answers : list bool; live : Z }.

Definition malloc (h : heap) : bool * heap :=
  match answers h with
  | [] => (true, Heap [] (live h + 1))
  | ok :: l => (ok, Heap l (if ok then live h + 1 else live h))
  end.

(** [realloc] of a block: refused, the block stays. *)
Definition realloc (h : heap) : bool * heap :=
  match answers h with
  | [] => (true, h)
  | ok :: l => (ok, Heap l (live h))
  end.

Definition free (h : heap) : heap := Heap (answers h) (live h - 1).

(** ** Checksums and states *)

Fixpoint checksum_loop (c : Z) (s : cstr) : Z :=
  match s with
  | [] => c
  | b :: s' => if b =? 0 then c else checksum_loop (Z.lxor (u32 (Z.shiftl c 1)) b) s'
  end.

(** [calculate_checksum(data, len)] of a string of [len] bytes at least. *)
Definition calculate_checksum (data : option cstr) (len : nat) : Z :=
  match data with
  | None => 0
  | Some s => if (len =? 0)%nat then 0 else checksum_loop 0 (take len s)
  end.

Definition state_to_string (state : Z) : cstr :=
  if (0 <=? state) && (state <=? CHECKPOINT_STATE_INVALID) then
    if state =? CHECKPOINT_STATE_PENDING then cs "pending"
    else if state =? CHECKPOINT_STATE_COMPLETED then cs "completed"
    else if state =? CHECKPOINT_STATE_FAILED then cs "failed"
    else cs "invalid"
  else cs "unknown".

Definition string_to_state (s : option cstr) : Z :=
  match s with
  | None => CHECKPOINT_STATE_INVALID
  | Some s =>
      if bool_decide (s = cs "pending") then CHECKPOINT_STATE_PENDING
      else if bool_decide (s = cs "completed") then CHECKPOINT_STATE_COMPLETED
      else if bool_decide (s = cs "failed") then CHECKPOINT_STATE_FAILED
      else CHECKPOINT_STATE_INVALID
  end.

(** ** File names *)

Definition cp_name (task_id : cstr) (seq : Z) : cstr :=
  CHECKPOINT_FILE_PREFIX ++ task_id ++ cs "_" ++ fmt_u seq ++ CHECKPOINT_FILE_EXTENSION.

(** [build_filepath_with_seq] under the storage path: [None] is
    [AIRY_ERR_OVERFLOW] (the format is never empty). *)
Definition build_filepath_with_seq (storage task_id : cstr) (seq : Z) (size : nat) : option cstr :=
  let text := storage ++ cs "/" ++ cp_name task_id seq in
  if (length text <? size)%nat then Some text else None.

(** The search for the last underscore, from the end. *)
Fixpoint sep_loop (mid : cstr) (sep : nat) : nat :=
  match sep with
  | O => O
  | S k => if default 0 (mid !! k) =? 95 then S k else sep_loop mid k
  end.

Fixpoint seq_digits (s : cstr) (seq : Z) : option Z :=
  match s with
  | [] => Some seq
  | c :: s' => if (c <? 48) || (57 <? c) then None else seq_digits s' (u64 (seq * 10 + (c - 48)))
  end.

Definition parse_cp_name (name : cstr) (tid_sz : nat) : option (cstr * Z) :=
  let pfx := length CHECKPOINT_FILE_PREFIX in
  let sfx := length CHECKPOINT_FILE_EXTENSION in
  let nlen := length name in
  if (nlen <? pfx + sfx + 2)%nat then None
  else if negb (bool_decide (take pfx name = CHECKPOINT_FILE_PREFIX)) then None
  else if negb (bool_decide (drop (nlen - sfx) name = CHECKPOINT_FILE_EXTENSION)) then None
  else
    let mid := drop pfx name in
    let mid_len := (nlen - pfx - sfx)%nat in
    let sep := sep_loop mid mid_len in
    if (sep =? 0)%nat || (sep =? mid_len)%nat then None
    else
      let tlen := (sep - 1)%nat in
      if (tlen =? 0)%nat || (tid_sz <=? tlen)%nat then None
      else
        match seq_digits (take (mid_len - sep) (drop sep mid)) 0 with
        | None => None
        | Some seq => Some (take tlen mid, seq)
        end.

(** ** The document *)

Definition escape_byte (c : Z) : cstr :=
  if c =? QUOTE then [BACKSLASH; QUOTE]
  else if c =? BACKSLASH then [BACKSLASH; BACKSLASH]
  else if c =? 10 then [BACKSLASH; 110]
  else if c =? 13 then [BACKSLASH; 114]
  else if c =? 9 then [BACKSLASH; 116]
  else [c].

Fixpoint write_json_escaped_str (s : cstr) : cstr :=
  match s with [] => [] | c :: s' => escape_byte c ++ write_json_escaped_str s' end.

Definition quoted (s : cstr) : cstr := [QUOTE] ++ s ++ [QUOTE].

Definition write_json_value (s : option cstr) : cstr :=
  match s with None => cs "null" | Some s => quoted (write_json_escaped_str s) end.

Record airy_task_checkpoint_t := Cp {
  task_id : cstr;
  session_id : cstr;
  sequence_num : Z;
  timestamp : Z;
  state_json : option cstr;
  state_size : nat;
  completed_nodes : option (list (option cstr));
  completed_count : nat;
  pending_nodes : option (list (option cstr));
  pending_count : nat;
  state : Z;
  checksum : Z;
  metadata : cstr;
}.

Definition line (m : cstr * cstr) : cstr := cs "  " ++ quoted m.1 ++ cs ": " ++ m.2 ++ cs "," ++ [NL].

(** The members of the document in the order in which they are written; the
    last one has no comma. *)
Definition members (cp : airy_task_checkpoint_t) : list (cstr * cstr) :=
  [(cs "version", fmt_d CHECKPOINT_VERSION);
   (cs "task_id", quoted (write_json_escaped_str (task_id cp)));
   (cs "session_id", quoted (write_json_escaped_str (session_id cp)));
   (cs "sequence_num", fmt_u (sequence_num cp));
   (cs "timestamp", fmt_u (timestamp cp));
   (cs "state", quoted (state_to_string (state cp)));
   (cs "checksum", fmt_u (checksum cp));
   (cs "state_size", fmt_u (Z.of_nat (state_size cp)));
   (cs "state_json", write_json_value (state_json cp));
   (cs "completed_count", fmt_u (Z.of_nat (completed_count cp)));
   (cs "pending_count", fmt_u (Z.of_nat (pending_count cp)))].

Definition checkpoint_text (cp : airy_task_checkpoint_t) : cstr :=
  cs "{" ++ [NL] ++ concat (map line (members cp)) ++
  cs "  " ++ quoted (cs "metadata") ++ cs ": " ++ quoted (write_json_escaped_str (metadata cp)) ++ [NL] ++
  cs "}" ++ [NL].

(** ** Finding a member: [airy_json_key] *)

Definition drop_space (s : cstr) : cstr := drop (skip_space s) s.

(** [strchr] for a quote: what follows it. *)
Fixpoint after_quote (s : cstr) : option cstr :=
  match s with [] => None | c :: s' => if c =? QUOTE then Some s' else after_quote s' end.

Definition colon (s : cstr) : option cstr :=
  match s with c :: s' => if c =? 58 then Some s' else None | [] => None end.

(** One round per quote looked at; [fuel] bounds the rounds. *)
Fixpoint key_loop (fuel : nat) (key s : cstr) : option cstr :=
  match fuel with
  | O => None
  | S fuel' =>
      match after_quote s with
      | None => None
      | Some p =>
          if bool_decide (take (length key) p = key) && (default 0 (p !! length key) =? QUOTE) then
            let c := drop_space (drop (S (length key)) p) in
            match colon c with
            | Some c => Some (drop_space c)
            | None => key_loop fuel' key c
            end
          else key_loop fuel' key p
      end
  end.

Definition airy_json_key (json key : cstr) : option cstr :=
  match key with [] => None | _ => key_loop (S (length json)) key json end.

(** ** Reading a value *)

Definition unescape (c : Z) : Z :=
  if c =? 110 then 10 else if c =? 116 then 9 else if c =? 114 then 13
  else if c =? QUOTE then QUOTE else BACKSLASH.

(** The buffer grows before it is full; refused, what it held is lost. *)
Definition room (cap len : nat) (h : heap) : bool * nat * heap :=
  if (cap <=? len + 2)%nat then let '(ok, h) := realloc h in (ok, (cap * 2)%nat, h) else (true, cap, h).

Fixpoint extract_loop (cap : nat) (val s : cstr) (h : heap) : option cstr * heap :=
  match s with
  | [] => (Some val, h)
  | c :: s' =>
      if (c =? QUOTE) || (c =? NL) then (Some val, h)
      else
        let '(ok, cap, h) := room cap (length val) h in
        if ok then
          match s' with
          | e :: s'' =>
              if c =? BACKSLASH then extract_loop cap (val ++ [unescape e]) s'' h
              else extract_loop cap (val ++ [c]) s' h
          | [] => extract_loop cap (val ++ [c]) s' h
          end
        else (None, h)
  end.

Definition json_extract_string (json key : cstr) (h : heap) : option cstr * heap :=
  match airy_json_key json key with
  | Some (c :: p) =>
      if c =? QUOTE then
        let '(ok, h) := malloc h in
        if ok then extract_loop 512 [] p h else (None, h)
      else (None, h)
  | _ => (None, h)
  end.

Fixpoint uint_loop (s : cstr) (v : Z) : Z :=
  match s with
  | c :: s' => if (48 <=? c) && (c <=? 57) then uint_loop s' (u64 (u64 (v * 10) + (c - 48))) else v
  | [] => v
  end.

Definition json_extract_uint64 (json key : cstr) : Z :=
  match airy_json_key json key with None => 0 | Some p => uint_loop p 0 end.

(** ** Lemmas: names *)

Lemma sep_loop_here (x d rest : cstr) :
  (forall c, c ∈ d -> c <> 95) -> sep_loop (x ++ 95 :: d ++ rest) (S (length x) + length d) = S (length x).
Proof.
  revert rest. induction d as [|c d IH] using rev_ind; intros rest Hd.
  - rewrite Nat.add_0_r. cbn [sep_loop]. rewrite lookup_app_r, Nat.sub_diag by lia. done.
  - rewrite length_app. cbn [length]. replace (S (length x) + (length d + 1))%nat with (S (S (length x) + length d)) by lia.
    cbn [sep_loop]. rewrite (lookup_app_r x) by lia.
    replace (S (length x) + length d - length x)%nat with (S (length d)) by lia.
    rewrite lookup_cons_ne_0 by lia. cbn [Nat.pred]. rewrite <- app_assoc, lookup_app_r, Nat.sub_diag by lia. cbn.
    destruct (Z.eqb_spec c 95) as [->|_]; [by destruct (Hd 95); [set_solver|]|].
    apply IH. set_solver.
Qed.

Lemma seq_digits_value s v :
  Forall (fun c => is_dec c = true) s -> 0 <= v -> dec_from v s < 2 ^ 64 -> seq_digits s v = Some (dec_from v s).
Proof.
  revert v. induction s as [|c s IH]; intros v Hs Hv Hb; [done|]. apply Forall_cons in Hs as [Hc Hs].
  pose proof (dec_from_ge (v * 10 + (c - 48)) s Hs) as Hge. unfold is_dec in Hc. cbn [seq_digits].
  unfold dec_from in *. cbn [foldl] in *. apply andb_true_iff in Hc as [?%Z.leb_le ?%Z.leb_le].
  destruct (Z.ltb_spec c 48), (Z.ltb_spec 57 c); try lia. cbn [orb].
  rewrite u64_small by lia. apply IH; [done|lia|done].
Qed.

Lemma dec_value_bound n : 0 <= n < 2 ^ 64 -> dec_from 0 (fmt_u n) = n.
Proof. intros H. apply fmt_u_value. lia. Qed.

(** The name that a checkpoint is saved under is read back. *)
Lemma parse_cp_name_built tid seq :
  (0 < length tid < 128)%nat -> 0 <= seq < 2 ^ 64 -> parse_cp_name (cp_name tid seq) 128 = Some (tid, seq).
Proof.
  intros Ht Hs. unfold parse_cp_name, cp_name.
  pose proof (fmt_u_nonempty seq) as Hne. pose proof (fmt_u_dec seq) as Hd. pose proof (dec_value_bound seq Hs) as Hv.
  set (d := fmt_u seq) in *. assert (0 < length d)%nat by (destruct d; [done|cbn; lia]).
  set (P := CHECKPOINT_FILE_PREFIX). set (E := CHECKPOINT_FILE_EXTENSION).
  assert (length P = 11%nat) as HP by done. assert (length E = 5%nat) as HE by done. clearbody P E d.
  rewrite !length_app, HP, HE. change (length (cs "_")) with 1%nat. change (cs "_" ++ d ++ E) with (95 :: d ++ E).
  destruct (Nat.ltb_spec (11 + (length tid + (1 + (length d + 5)))) (11 + 5 + 2)); [lia|].
  rewrite take_app_length' by done. rewrite bool_decide_eq_true_2 by done. cbn [negb].
  replace (P ++ tid ++ 95 :: d ++ E) with ((P ++ tid ++ 95 :: d) ++ E) by (by rewrite <- !app_assoc).
  rewrite drop_app_length' by (rewrite !length_app; cbn [length]; lia). rewrite bool_decide_eq_true_2 by done. cbn [negb].
  rewrite <- app_assoc, drop_app_length' by done.
  replace (11 + (length tid + (1 + (length d + 5))) - 11 - 5)%nat with (S (length tid) + length d)%nat by lia.
  rewrite <- app_assoc. cbn [app].
  rewrite sep_loop_here.
  2: { intros c Hc ->. rewrite Forall_forall in Hd. by specialize (Hd ltac:(lia) _ Hc). }
  destruct (Nat.eqb_spec (S (length tid)) (S (length tid) + length d)); [lia|]. cbn [Nat.eqb orb Nat.sub].
  rewrite Nat.sub_0_r. destruct (Nat.eqb_spec (length tid) 0), (Nat.leb_spec 128 (length tid)); try lia. cbn [orb].
  replace (S (length tid) + length d - S (length tid))%nat with (length d) by lia.
  replace (drop (S (length tid)) (tid ++ 95 :: d ++ E)) with (d ++ E)
    by (rewrite (cons_middle 95), app_assoc; symmetry; apply drop_app_length'; rewrite length_app; cbn; lia).
  rewrite take_app_length, (seq_digits_value d 0), Hv by (auto with lia; rewrite ?Hv; lia).
  by rewrite take_app_length.
Qed.

(** ** Lemmas: members *)

Lemma drop_space_length s : (length (drop_space s) <= length s)%nat.
Proof. unfold drop_space. rewrite length_drop. lia. Qed.

Lemma after_quote_length s p : after_quote s = Some p -> (length p < length s)%nat.
Proof.
  induction s as [|c s IH]; [done|]. cbn [after_quote length]. destruct (c =? QUOTE); intros H; simplify_eq; [lia|].
  apply IH in H. lia.
Qed.

Lemma key_loop_fuel key f1 f2 s : (length s < f1)%nat -> (length s < f2)%nat -> key_loop f1 key s = key_loop f2 key s.
Proof.
  revert f2 s. induction f1 as [|f1 IH]; intros [|f2] s H1 H2; try lia. cbn [key_loop].
  destruct (after_quote s) as [p|] eqn:Hp; [|done]. apply after_quote_length in Hp.
  pose proof (drop_space_length (drop (S (length key)) p)) as Hd. rewrite length_drop in Hd.
  destruct (bool_decide _ && _); [|apply IH; lia].
  cbv zeta. destruct (colon _); [done|]. apply IH; lia.
Qed.

(** The search without its bound. *)
Definition find_key (key s : cstr) : option cstr := key_loop (S (length s)) key s.

Lemma find_key_eq key s :
  find_key key s =
    match after_quote s with
    | None => None
    | Some p =>
        if bool_decide (take (length key) p = key) && (default 0 (p !! length key) =? QUOTE) then
          match colon (drop_space (drop (S (length key)) p)) with
          | Some c => Some (drop_space c)
          | None => find_key key (drop_space (drop (S (length key)) p))
          end
        else find_key key p
    end.
Proof.
  unfold find_key at 1. cbn [key_loop]. destruct (after_quote s) as [p|] eqn:Hp; [|done].
  apply after_quote_length in Hp.
  pose proof (drop_space_length (drop (S (length key)) p)) as Hd. rewrite length_drop in Hd.
  destruct (bool_decide _ && _); [|apply key_loop_fuel; lia].
  cbv zeta. destruct (colon _); [done|]. apply key_loop_fuel; lia.
Qed.

(** Keys as the documents have them. *)
Definition plain_key (key : cstr) : Prop :=
  Forall (fun c => c <> QUOTE /\ c <> BACKSLASH /\ isspace c = false /\ c <> 58 /\ c <> 44 /\ c <> 0) key /\ key <> [].

#[export] Instance plain_key_dec key : Decision (plain_key key).
Proof. apply _. Defined.

Lemma find_key_skip key x s : (forall c, c ∈ x -> c <> QUOTE) -> find_key key (x ++ s) = find_key key s.
Proof.
  intros Hx. assert (after_quote (x ++ s) = after_quote s) as HE.
  { induction x as [|c x IH]; [done|]. cbn [app after_quote]. destruct (Z.eqb_spec c QUOTE) as [->|_]; [by destruct (Hx QUOTE); [left|]|].
    apply IH. set_solver. }
  rewrite !(find_key_eq key (_ ++ _)), HE. by rewrite <- find_key_eq.
Qed.

Lemma drop_space_split s : exists x, s = x ++ drop_space s /\ forall c, c ∈ x -> isspace c = true.
Proof.
  unfold drop_space. induction s as [|c s [x [IH Hx]]]; [exists []; set_solver|]. cbn [skip_space].
  destruct (isspace c) eqn:Hc; [|exists []; set_solver]. exists (c :: x). cbn [drop app]. split; [by rewrite IH at 1|].
  intros d [->|?]%elem_of_cons; auto.
Qed.

Lemma find_key_space key s : find_key key (drop_space s) = find_key key s.
Proof.
  destruct (drop_space_split s) as (x & HE & Hx). rewrite HE at 2. symmetry. apply find_key_skip.
  intros c Hc ->. by apply Hx in Hc.
Qed.

(** Text in which every quote but the first character has a backslash before it. *)
Definition quotes_escaped (u : cstr) : Prop := forall i, u !! S i = Some QUOTE -> u !! i = Some BACKSLASH.

Lemma quotes_escaped_tail c u : quotes_escaped (c :: u) -> quotes_escaped u.
Proof. intros H i Hi. by apply (H (S i)). Qed.

Lemma key_at key u t :
  plain_key key -> quotes_escaped u -> take (length key) (u ++ QUOTE :: t) = key ->
  (u ++ QUOTE :: t) !! length key = Some QUOTE -> u = key.
Proof.
  intros [Hk Hne] Hu Ht Hq. rewrite Forall_forall in Hk.
  assert (forall i c, (u ++ QUOTE :: t) !! i = Some c -> (i < length key)%nat -> c ∈ key) as Hin.
  { intros i c Hi Hl. apply list_elem_of_lookup. exists i. rewrite <- Ht. by rewrite lookup_take_lt. }
  destruct (lt_eq_lt_dec (length key) (length u)) as [[Hl|Hl]|Hl].
  - rewrite lookup_app_l in Hq by done. destruct (length key) as [|i] eqn:Hlen; [by destruct key|].
    apply Hu in Hq. assert (BACKSLASH ∈ key) as Hb by (apply (Hin i); [rewrite lookup_app_l by lia; done|lia]).
    by destruct (Hk _ Hb) as (_ & ? & _).
  - rewrite Hl, take_app_length in Ht. done.
  - assert (QUOTE ∈ key) as Hb by (apply (Hin (length u)); [by rewrite lookup_app_r, Nat.sub_diag by lia|done]).
    by destruct (Hk _ Hb) as (? & _).
Qed.

Lemma find_key_close key t : plain_key key -> take 1 t <> take 1 key -> find_key key (QUOTE :: t) = find_key key t.
Proof.
  intros [_ Hne] Ht. rewrite find_key_eq. cbn [app after_quote]. rewrite Z.eqb_refl.
  rewrite bool_decide_eq_false_2; [done|]. intros HE. apply Ht. rewrite <- HE. rewrite take_take.
  destruct key; [done|]. by cbn [length Nat.min].
Qed.

(** At an opening quote: the key is there, or the search goes on behind it. *)
Lemma find_key_open key u t :
  plain_key key -> quotes_escaped u -> u <> key ->
  find_key key (QUOTE :: u ++ QUOTE :: t) = find_key key (u ++ QUOTE :: t).
Proof.
  intros Hk Hu Hne. rewrite find_key_eq. cbn [after_quote]. rewrite Z.eqb_refl.
  destruct (bool_decide _ && _) eqn:Hm; [|done]. apply andb_true_iff in Hm as [Hm1%bool_decide_eq_true Hm2%Z.eqb_eq].
  destruct Hne. apply (key_at key u t); [done..|]. by destruct (_ !! _); cbn in Hm2; [subst|].
Qed.

Lemma find_key_here key t :
  find_key key (QUOTE :: key ++ QUOTE :: t) =
    match colon (drop_space t) with Some c => Some (drop_space c) | None => find_key key t end.
Proof.
  rewrite find_key_eq. cbn [after_quote]. rewrite Z.eqb_refl, take_app_length, bool_decide_eq_true_2 by done.
  rewrite lookup_app_r, Nat.sub_diag by lia. cbn [lookup list_lookup default]. rewrite Z.eqb_refl. cbn [andb].
  replace (drop (S (length key)) (key ++ QUOTE :: t)) with t.
  2: { symmetry. rewrite (cons_middle QUOTE), app_assoc. apply drop_app_length'. rewrite length_app. cbn. lia. }
  by rewrite find_key_space.
Qed.

(** A quoted value is passed over, wherever a search enters it. *)
Lemma find_key_value key u t :
  plain_key key -> quotes_escaped u -> colon (drop_space t) = None -> take 1 t <> take 1 key ->
  find_key key (u ++ QUOTE :: t) = find_key key t.
Proof.
  intros Hk Hu Hc Ht. induction u as [|c u IH]; [by apply find_key_close|].
  pose proof (quotes_escaped_tail _ _ Hu) as Hu'. destruct (Z.eq_dec c QUOTE) as [->|Hn].
  2: { rewrite <- IH by done. apply (find_key_skip key [c]). set_solver. }
  destruct (decide (u = key)) as [->|Hne]; cbn [app].
  - by rewrite find_key_here, Hc.
  - rewrite find_key_open by done. by apply IH.
Qed.

(** Values that the documents have: numbers and words, or quoted texts. *)
Definition value_text (v : cstr) : Prop :=
  (v <> [] /\ Forall (fun c => c <> QUOTE /\ isspace c = false) v) \/ exists u, v = quoted u /\ quotes_escaped (QUOTE :: u).

Lemma find_key_after key v t :
  plain_key key -> value_text v -> colon (drop_space t) = None -> take 1 t <> take 1 key ->
  find_key key (v ++ t) = find_key key t.
Proof.
  intros Hk [[_ Hv]|(u & -> & Hu)] Hc Ht.
  - apply find_key_skip. intros c Hin. rewrite Forall_forall in Hv. by apply Hv.
  - unfold quoted. rewrite <- !app_assoc. by apply (find_key_value key (QUOTE :: u) t).
Qed.

Lemma plain_head key c s : plain_key key -> (c = 44 \/ c = 58 \/ isspace c = true) -> take 1 (c :: s) <> take 1 key.
Proof.
  intros [Hk Hne] Hc. destruct key as [|d key]; [done|]. apply Forall_cons in Hk as [Hd _]. cbn [take].
  destruct Hd as (_ & _ & Hs & H58 & H44 & _). intros [=->]. destruct Hc as [?|[?|Hc]]; congruence.
Qed.

Lemma plain_escaped k : plain_key k -> quotes_escaped k.
Proof.
  intros [Hk _] i Hi. apply list_elem_of_lookup_2 in Hi. rewrite Forall_forall in Hk. by destruct (Hk _ Hi).
Qed.

Lemma find_key_lit key x s : forallb (fun c => negb (c =? QUOTE)) x = true -> find_key key (x ++ s) = find_key key s.
Proof.
  intros H. apply find_key_skip. intros c Hc%list_elem_of_In ->. rewrite forallb_forall in H. by apply H in Hc.
Qed.

Lemma find_key_line key k v rest :
  plain_key key -> plain_key k -> k <> key -> value_text v -> find_key key (line (k, v) ++ rest) = find_key key rest.
Proof.
  intros Hk Hk' Hne Hv. unfold line, quoted. cbn [fst snd]. rewrite <- !app_assoc.
  rewrite find_key_lit by done. cbn [app].
  rewrite find_key_open by eauto using plain_escaped.
  rewrite find_key_skip. 2: { intros c Hc. destruct Hk' as [Hk' _]. rewrite Forall_forall in Hk'. by apply Hk'. }
  rewrite find_key_close by (done || by apply plain_head; [|auto]).
  rewrite find_key_lit by done.
  rewrite find_key_after by (done || by apply plain_head; [|auto]).
  by apply (find_key_lit key (cs "," ++ [NL])).
Qed.

Lemma value_text_head v t : value_text v -> drop_space (32 :: v ++ t) = v ++ t.
Proof.
  intros Hv. change (drop_space (v ++ t) = v ++ t). destruct Hv as [[Hne Hv]|(u & -> & _)]; [|done].
  destruct v as [|c v]; [done|]. apply Forall_cons in Hv as [[_ Hc] _]. unfold drop_space. cbn [app skip_space]. by rewrite Hc.
Qed.

Lemma find_key_member key v rest :
  value_text v -> find_key key (line (key, v) ++ rest) = Some (v ++ cs "," ++ [NL] ++ rest).
Proof.
  intros Hv. unfold line, quoted. cbn [fst snd]. rewrite <- !app_assoc.
  rewrite find_key_lit by done. cbn [app].
  rewrite find_key_here. change (Some (drop_space (32 :: v ++ 44 :: NL :: rest)) = Some (v ++ 44 :: NL :: rest)).
  f_equal. by apply value_text_head.
Qed.

(** The first member with a name. *)
Fixpoint member_of (key : cstr) (l : list (cstr * cstr)) : option cstr :=
  match l with [] => None | (k, v) :: l' => if decide (k = key) then Some v else member_of key l' end.

Lemma find_key_members key l v rest :
  plain_key key -> Forall (fun m => plain_key m.1 /\ value_text m.2) l -> member_of key l = Some v ->
  exists r, find_key key (concat (map line l) ++ rest) = Some (v ++ 44 :: r).
Proof.
  intros Hk Hl. induction Hl as [|[k w] l [Hk' Hw] _ IH]; [done|]. cbn [member_of map concat fst snd] in *.
  rewrite <- app_assoc. destruct (decide (k = key)) as [->|Hne].
  - intros [=->]. rewrite find_key_member by done. by eexists.
  - intros Hv. rewrite find_key_line by done. by apply IH.
Qed.

(** ** Lemmas: reading back *)

Lemma escape_byte_cases c :
  (exists e, escape_byte c = [BACKSLASH; e] /\ unescape e = c) \/
  (escape_byte c = [c] /\ c <> QUOTE /\ c <> BACKSLASH /\ c <> NL).
Proof.
  unfold escape_byte.
  repeat match goal with |- context [c =? ?x] => destruct (Z.eqb_spec c x) as [->|] end;
    [left; eexists; split; reflexivity..|]. by right.
Qed.

Lemma extract_escaped s cap val r n :
  extract_loop cap val (write_json_escaped_str s ++ QUOTE :: r) (Heap [] n) = (Some (val ++ s), Heap [] n).
Proof.
  revert cap val. induction s as [|c s IH]; intros cap val.
  { cbn [write_json_escaped_str app extract_loop]. rewrite Z.eqb_refl. by rewrite app_nil_r. }
  assert (forall k, exists k', room cap k (Heap [] n) = (true, k', Heap [] n)) as Hr.
  { intros k. unfold room. case_match; by eexists. }
  destruct (Hr (length val)) as [k' Hk]. cbn [write_json_escaped_str]. rewrite <- app_assoc.
  destruct (escape_byte_cases c) as [(e & -> & He)|(-> & H1 & H2 & H3)]; cbn [app extract_loop]; rewrite Hk.
  - cbn [Z.eqb]. change ((BACKSLASH =? QUOTE) || (BACKSLASH =? NL)) with false. by rewrite Z.eqb_refl, He, IH, <- app_assoc.
  - destruct (Z.eqb_spec c QUOTE), (Z.eqb_spec c NL), (Z.eqb_spec c BACKSLASH); try done. cbn [orb].
    destruct (write_json_escaped_str s ++ QUOTE :: r) eqn:HE; [by destruct (write_json_escaped_str s)|].
    by rewrite IH, <- app_assoc.
Qed.

Lemma uint_loop_value s v c r :
  Forall (fun c => is_dec c = true) s -> is_dec c = false -> 0 <= v -> dec_from v s < 2 ^ 64 ->
  uint_loop (s ++ c :: r) v = dec_from v s.
Proof.
  intros Hs Hc. revert v. induction Hs as [|d s Hd Hs IH]; intros v Hv Hb; cbn [app uint_loop].
  - unfold is_dec in Hc. by rewrite Hc.
  - pose proof (dec_from_ge (v * 10 + (d - 48)) s Hs) as Hge. rewrite Hd || (unfold is_dec in Hd; rewrite Hd).
    unfold dec_from in *. cbn [foldl] in *. apply andb_true_iff in Hd as [?%Z.leb_le ?%Z.leb_le].
    rewrite !u64_small by (rewrite ?u64_small; lia). apply IH; [lia|done].
Qed.

Lemma escaped_quotes s : quotes_escaped (QUOTE :: write_json_escaped_str s).
Proof.
  assert (forall s, quotes_escaped (write_json_escaped_str s) /\ head (write_json_escaped_str s) <> Some QUOTE) as H.
  { clear s. induction s as [|c s [IH1 IH2]]; [done|]. cbn [write_json_escaped_str].
    destruct (escape_byte_cases c) as [(e & -> & _)|(-> & H1 & _)]; cbn [app head]; (split; [|by intros [=]]).
    - intros [|[|i]]; cbn; [done| |apply IH1]. intros Hi. destruct (write_json_escaped_str s); [done|]. naive_solver.
    - intros [|i]; cbn; [|apply IH1]. intros Hi. destruct (write_json_escaped_str s); [done|]. naive_solver. }
  destruct (H s) as [H1 H2]. intros [|i]; cbn; [|apply H1]. intros Hi. destruct (write_json_escaped_str s); [done|]. naive_solver.
Qed.

(** Checkpoints whose numbers are in their ranges and whose texts are C strings. *)
Record cp_range (cp : airy_task_checkpoint_t) : Prop := CpRange {
  r_seq : 0 <= sequence_num cp < 2 ^ 64;
  r_time : 0 <= timestamp cp < 2 ^ 64;
  r_sum : 0 <= checksum cp;
  r_task : Forall (fun c => c <> 0) (task_id cp);
  r_session : Forall (fun c => c <> 0) (session_id cp);
  r_json : forall s, state_json cp = Some s -> Forall (fun c => c <> 0) s;
  r_meta : Forall (fun c => c <> 0) (metadata cp);
}.

Lemma fmt_u_value_text n : 0 <= n -> value_text (fmt_u n).
Proof.
  intros Hn. left. split; [apply fmt_u_nonempty|]. eapply Forall_impl; [by apply fmt_u_dec|].
  intros c Hc. unfold is_dec in Hc. apply andb_true_iff in Hc as [?%Z.leb_le ?%Z.leb_le]. unfold QUOTE, isspace.
  lia.
Qed.

Lemma escaped_value_text s : value_text (quoted (write_json_escaped_str s)).
Proof. right. eexists. split; [done|]. apply escaped_quotes. Qed.

Lemma state_value_text s : value_text (quoted (state_to_string s)).
Proof.
  assert (state_to_string s ∈ [cs "pending"; cs "completed"; cs "failed"; cs "invalid"; cs "unknown"]) as H.
  { unfold state_to_string. repeat case_match; set_solver. }
  assert (write_json_escaped_str (state_to_string s) = state_to_string s) as <-; [|apply escaped_value_text].
  repeat (apply elem_of_cons in H as [->|H]; [reflexivity|]). by apply elem_of_nil in H.
Qed.

Lemma members_ok cp : cp_range cp -> Forall (fun m => plain_key m.1 /\ value_text m.2) (members cp).
Proof.
  intros [[]]. unfold members. 
  repeat (apply Forall_cons_2; [split; [by apply (bool_decide_unpack _)|]|]); cbn [snd]; [..|by apply Forall_nil_2];
    try (apply fmt_u_value_text; lia); try apply escaped_value_text; try apply state_value_text.
  - apply (fmt_u_value_text 1). lia.
  - destruct (state_json cp); [apply escaped_value_text|]. left. split; [done|]. by apply (bool_decide_unpack _).
Qed.

(** A member of a document is found. *)
Lemma document_member cp key v :
  cp_range cp -> plain_key key -> member_of key (members cp) = Some v ->
  exists r, airy_json_key (checkpoint_text cp) key = Some (v ++ 44 :: r).
Proof.
  intros Hr Hk Hm. unfold airy_json_key. destruct Hk as [Hk Hne]. destruct key as [|k key]; [done|].
  change (key_loop (S (length (checkpoint_text cp))) (k :: key) (checkpoint_text cp))
    with (find_key (k :: key) (checkpoint_text cp)).
  unfold checkpoint_text. rewrite app_assoc, find_key_lit by done.
  apply find_key_members; [done|by apply members_ok|done].
Qed.

Lemma document_string cp key s n :
  cp_range cp -> plain_key key -> member_of key (members cp) = Some (quoted (write_json_escaped_str s)) ->
  json_extract_string (checkpoint_text cp) key (Heap [] n) = (Some s, Heap [] (n + 1)).
Proof.
  intros Hr Hk Hm. destruct (document_member cp key _ Hr Hk Hm) as [r Hf]. unfold json_extract_string. rewrite Hf.
  unfold quoted. rewrite <- !app_assoc. cbn [app]. rewrite Z.eqb_refl. cbn [malloc answers]. apply (extract_escaped s 512 []).
Qed.

Lemma document_uint cp key m :
  cp_range cp -> plain_key key -> 0 <= m < 2 ^ 64 -> member_of key (members cp) = Some (fmt_u m) ->
  json_extract_uint64 (checkpoint_text cp) key = m.
Proof.
  intros Hr Hk Hb Hm. destruct (document_member cp key _ Hr Hk Hm) as [r Hf]. unfold json_extract_uint64. rewrite Hf.
  rewrite uint_loop_value; [by apply dec_value_bound|apply fmt_u_dec; lia|done|lia|rewrite dec_value_bound; lia].
Qed.

Lemma escaped_nonzero s : Forall (fun c => c <> 0) s -> Forall (fun c => c <> 0) (write_json_escaped_str s).
Proof.
  induction 1 as [|c s Hc _ IH]; [done|]. cbn [write_json_escaped_str]. apply Forall_app. split; [|done].
  unfold escape_byte. repeat case_match; by repeat constructor.
Qed.

Lemma fmt_u_nonzero n : 0 <= n -> Forall (fun c => c <> 0) (fmt_u n).
Proof. intros Hn. eapply Forall_impl; [by apply fmt_u_dec|]. intros c Hc ->. done. Qed.

Lemma checkpoint_text_nonzero cp : cp_range cp -> Forall (fun c => c <> 0) (checkpoint_text cp).
Proof.
  intros [Hs Ht Hc H1 H2 H3 H4].
  assert (forall s : cstr, forallb (fun c => negb (c =? 0)) s = true -> Forall (fun c => c <> 0) s) as Hlit.
  { intros s Hb. apply Forall_forall. intros c Hin%list_elem_of_In ->. rewrite forallb_forall in Hb. by apply Hb in Hin. }
  assert (forall s : cstr, Forall (fun c => c <> 0) s -> Forall (fun c => c <> 0) (quoted s)) as Hq.
  { intros s Hz. unfold quoted. rewrite !Forall_app. split_and!; [by apply Hlit|done|by apply Hlit]. }
  unfold checkpoint_text. rewrite !Forall_app. split_and!; try (by apply Hlit); [|by apply Hq, escaped_nonzero].
  apply Forall_concat, Forall_map. unfold members.
  repeat (apply Forall_cons_2; [unfold line; cbn [fst snd]; rewrite !Forall_app; split_and!; try (by apply Hlit)|]);
    [..|by apply Forall_nil_2]; try (apply fmt_u_nonzero; lia); try (by apply Hq, escaped_nonzero).
  - apply Hlit. unfold state_to_string. by repeat case_match.
  - destruct (state_json cp) as [s|]; [|by apply Hlit]. apply Hq, escaped_nonzero. by apply H3.
Qed.

Lemma state_roundtrip s : 0 <= s <= CHECKPOINT_STATE_INVALID -> string_to_state (Some (state_to_string s)) = s.
Proof. intros H. assert (s = 0 \/ s = 1 \/ s = 2 \/ s = 3) as [->|[->|[->| ->]]] by (unfold CHECKPOINT_STATE_INVALID in H; lia); reflexivity. Qed.
