(* ===== verification/Checkpoint.v ===== *)
(** * Checkpoints: utils/execution/checkpoint.c, checkpoint_persist.c,
    checkpoint_session.c and checkpoint_snapshot.c

    Checkpoints of tasks, one file of the storage directory for each task and
    sequence number.  The file system is a map from paths to files; what the
    system answers (streams that do not open, a disk that is full, the order in
    which a directory is read, the clocks) is an argument, as are the answers
    of the allocator.  The texts are in [CpText]. *)
From S2P Require Import Prelude Decimal CLib ErrCodes CpText.

(** ** State *)

Record airy_checkpoint_stats_t := Stats {
  total_checkpoints : Z;
  successful_checkpoints : Z;
  failed_checkpoints : Z;
  total_restore_ops : Z;
  last_checkpoint_time : Z;
  avg_checkpoint_size : Z;
}.
Definition no_stats : airy_checkpoint_stats_t := Stats 0 0 0 0 0 0.

Record file := File { bytes : cstr; mtime : Z }.

(** The globals of the module and the files of the system.  A hook is a number
    that stands for the function and its data. *)
Record cpm := Cpm {
  g_checkpoint_initialized : bool;
  g_checkpoint_mutex_initialized : bool;
  g_checkpoint_storage_path : cstr;
  g_checkpoint_stats : airy_checkpoint_stats_t;
  g_auto_hook : option Z;
  g_auto_interval_ms : Z;
  files : gmap cstr file;
}.

Definition set_stats (s : airy_checkpoint_stats_t) (g : cpm) : cpm :=
  Cpm (g_checkpoint_initialized g) (g_checkpoint_mutex_initialized g) (g_checkpoint_storage_path g) s
    (g_auto_hook g) (g_auto_interval_ms g) (files g).
Definition set_files (fs : gmap cstr file) (g : cpm) : cpm :=
  Cpm (g_checkpoint_initialized g) (g_checkpoint_mutex_initialized g) (g_checkpoint_storage_path g)
    (g_checkpoint_stats g) (g_auto_hook g) (g_auto_interval_ms g) fs.
Definition set_total (n : Z) (s : airy_checkpoint_stats_t) : airy_checkpoint_stats_t :=
  Stats n (successful_checkpoints s) (failed_checkpoints s) (total_restore_ops s) (last_checkpoint_time s) (avg_checkpoint_size s).

(** ** Life of a checkpoint in memory (checkpoint.c) *)

(** [AIRY_STRNCPY_TERM] into a field of [size] bytes. *)
Definition fit (size : nat) (s : cstr) : cstr := take (size - 1) s.

Definition init_fields (task_id session_id : option cstr) (seq now : Z) : airy_task_checkpoint_t :=
  Cp (fit 128 (default [] task_id)) (fit 128 (default [] session_id)) seq now None 0 None 0 None 0
    CHECKPOINT_STATE_PENDING 0 [].

Definition strdup (s : option cstr) (h : heap) : option cstr * heap :=
  match s with
  | None => (None, h)
  | Some s => let '(ok, h) := malloc h in (if ok then Some s else None, h)
  end.

Definition free_str (s : option cstr) (h : heap) : heap := match s with None => h | Some _ => free h end.
Definition free_strs (l : list (option cstr)) (h : heap) : heap := foldl (fun h s => free_str s h) h l.

(** The loop over [count] elements of the caller's array; [None] when it reads
    past the end of the array. *)
Fixpoint dup_loop (src : list (option cstr)) (count : nat) (dst : list (option cstr)) (h : heap) {struct count}
    : option (option (list (option cstr)) * heap) :=
  match count with
  | O => Some (Some dst, h)
  | S count' =>
      match src with
      | [] => None
      | s :: src' =>
          match strdup s h with
          | (None, h) => if s then Some (None, free (free_strs dst h)) else dup_loop src' count' (dst ++ [None]) h
          | (Some d, h) => dup_loop src' count' (dst ++ [Some d]) h
          end
      end
  end.

Definition safe_str_array_dup (src : option (list (option cstr))) (count : nat) (h : heap)
    : option (option (list (option cstr)) * heap) :=
  match src with
  | None => Some (None, h)
  | Some src =>
      if (count =? 0)%nat then Some (None, h)
      else
        let '(ok, h) := malloc h in
        if ok then dup_loop src count [] h else Some (None, h)
  end.

Definition free_nodes (l : option (list (option cstr))) (h : heap) : heap :=
  match l with None => h | Some l => free (free_strs l h) end.

(** The nodes that a checkpoint gets, or none for [AIRY_ENOMEM]. *)
Definition copy_nodes (completed : option (list (option cstr))) (ccount : nat)
    (pending : option (list (option cstr))) (pcount : nat) (h : heap)
    : option (option (option (list (option cstr)) * option (list (option cstr))) * heap) :=
  '(c, h) ← (if (0 <? ccount)%nat then safe_str_array_dup completed ccount h else Some (None, h));
  if (0 <? ccount)%nat && bool_decide (c = None) then Some (None, h)
  else
    '(p, h) ← (if (0 <? pcount)%nat then safe_str_array_dup pending pcount h else Some (None, h));
    Some (if (0 <? pcount)%nat && bool_decide (p = None) then (None, free_nodes c h) else (Some (c, p), h)).

Definition airy_checkpoint_create (task_id session_id : option cstr) (seq : Z) (json : option cstr)
    (completed : option (list (option cstr))) (ccount : nat) (pending : option (list (option cstr))) (pcount : nat)
    (now : Z) (g : cpm) (h : heap) : option (Z * option airy_task_checkpoint_t * heap) :=
  if negb (g_checkpoint_initialized g) then Some (AIRY_ENOTINIT, None, h)
  else
    match task_id, json with
    | Some _, Some js =>
        let '(ok, h) := malloc h in
        if negb ok then Some (AIRY_ENOMEM, None, h)
        else
          let cp := init_fields task_id session_id seq now in
          let '(ok, h) := malloc h in
          if negb ok then Some (AIRY_ENOMEM, None, free h)
          else
            '(nodes, h) ← copy_nodes completed ccount pending pcount h;
            match nodes with
            | None => Some (AIRY_ENOMEM, None, free (free h))
            | Some (c, p) =>
                Some (AIRY_SUCCESS,
                 Some (Cp (CpText.task_id cp) (CpText.session_id cp) (sequence_num cp) (timestamp cp) (Some js) (length js)
                         c ccount p pcount (state cp) (calculate_checksum (Some js) (length js)) (metadata cp)), h)
            end
    | _, _ => Some (AIRY_EINVAL, None, h)
    end.

Definition airy_checkpoint_verify (cp : option airy_task_checkpoint_t) : Z * bool :=
  match cp with
  | None => (AIRY_EINVAL, false)
  | Some cp =>
      if state cp =? CHECKPOINT_STATE_INVALID then (AIRY_SUCCESS, false)
      else if bool_decide (state_json cp = None) || (state_size cp =? 0)%nat then (AIRY_SUCCESS, false)
      else (AIRY_SUCCESS, calculate_checksum (state_json cp) (state_size cp) =? checksum cp)
  end.

Definition airy_checkpoint_destroy (cp : option airy_task_checkpoint_t) (h : heap) : heap :=
  match cp with
  | None => h
  | Some cp => free (free_nodes (pending_nodes cp) (free_nodes (completed_nodes cp) (free_str (state_json cp) h)))
  end.

(** ** Start and end of the module *)

Definition airy_checkpoint_default_dir (data_dir : cstr) : cstr :=
  snprintf_into MAX_CHECKPOINT_PATH [] (data_dir ++ cs "/checkpoints").

Definition airy_checkpoint_init (data_dir : cstr) (storage_path : option cstr) (mutex_ok : bool) (g : cpm) : Z * cpm :=
  if g_checkpoint_initialized g then (AIRY_SUCCESS, g)
  else
    let path := default (airy_checkpoint_default_dir data_dir) storage_path in
    if (length path =? 0)%nat || (MAX_CHECKPOINT_PATH <=? length path)%nat then (AIRY_EINVAL, g)
    else if negb (g_checkpoint_mutex_initialized g) && negb mutex_ok then
      (AIRY_ERR_STATE_ERROR, Cpm false false path (g_checkpoint_stats g) (g_auto_hook g) (g_auto_interval_ms g) (files g))
    else (AIRY_SUCCESS, Cpm true true path no_stats (g_auto_hook g) (g_auto_interval_ms g) (files g)).

Definition airy_checkpoint_shutdown (g : cpm) : Z * cpm :=
  if g_checkpoint_initialized g then
    (AIRY_SUCCESS, Cpm false false (g_checkpoint_storage_path g) (g_checkpoint_stats g) None (g_auto_interval_ms g) (files g))
  else (AIRY_SUCCESS, g).

Definition airy_checkpoint_get_stats (g : cpm) : Z * option airy_checkpoint_stats_t :=
  if g_checkpoint_initialized g then (AIRY_SUCCESS, Some (g_checkpoint_stats g)) else (AIRY_ENOTINIT, None).

Definition airy_checkpoint_set_auto_hook (hook : option Z) (interval_ms : Z) (g : cpm) : Z * cpm :=
  if g_checkpoint_initialized g then
    (AIRY_SUCCESS, Cpm true (g_checkpoint_mutex_initialized g) (g_checkpoint_storage_path g) (g_checkpoint_stats g)
                     hook interval_ms (files g))
  else (AIRY_ENOTINIT, g).

(** The hook that is called, with the task it is called for. *)
Definition airy_checkpoint_trigger_auto (task_id : option cstr) (g : cpm) : Z * option (Z * cstr) :=
  if g_checkpoint_initialized g then
    match g_auto_hook g, task_id with
    | Some hook, Some t => (AIRY_SUCCESS, Some (hook, t))
    | _, _ => (AIRY_EINVAL, None)
    end
  else (AIRY_ENOTINIT, None).

(** ** Reading the directory (checkpoint_persist.c) *)

(** The name of a path in a directory. *)
Definition name_in (dir path : cstr) : option cstr :=
  let front := dir ++ cs "/" in
  if bool_decide (take (length front) path = front) then
    let name := drop (length front) path in
    if bool_decide (47 ∈ name) || bool_decide (name = []) then None else Some name
  else None.

Definition dir_names (dir : cstr) (fs : gmap cstr file) : list cstr := omap (name_in dir) (map_to_list fs).*1.

(** What the system answers when files are read: whether the directory and a
    file open, whether a read is complete, the order of the entries. *)
Record read_env := REnv {
  opendir_ok : bool;
  fopen_ok : bool;
  fread_ok : bool;
  ord : list cstr -> list cstr;
  now_ns : Z;
}.

(** The entries that [readdir] returns; none when the directory does not open. *)
Definition readdir (e : read_env) (g : cpm) : list cstr :=
  if opendir_ok e then ord e (cs "." :: cs ".." :: dir_names (g_checkpoint_storage_path g) (files g)) else [].

(** A new slot of a growing array: its capacity, or [None]. *)
Definition grow_push (count cap : nat) (h : heap) : option nat * heap :=
  if (count =? cap)%nat then
    let ncap := if (cap =? 0)%nat then 16%nat else (cap * 2)%nat in
    let '(ok, h) := if (cap =? 0)%nat then malloc h else realloc h in
    (if ok then Some ncap else None, h)
  else (Some cap, h).

Definition free_items (cap : nat) (h : heap) : heap := if (cap =? 0)%nat then h else free h.

(** [scan_cp_entries(seq_visitor)]: the array, its capacity, and whether it failed. *)
Fixpoint scan_seqs (want : cstr) (names : list cstr) (items : list Z) (cap : nat) (h : heap)
    : list Z * nat * bool * heap :=
  match names with
  | [] => (items, cap, false, h)
  | name :: names' =>
      match parse_cp_name name 128 with
      | None => scan_seqs want names' items cap h
      | Some (tid, seq) =>
          if bool_decide (tid = want) then
            match grow_push (length items) cap h with
            | (None, h) => (items, cap, true, h)
            | (Some cap, h) => scan_seqs want names' (items ++ [seq]) cap h
            end
          else scan_seqs want names' items cap h
      end
  end.

Definition collect_task_seqs (e : read_env) (task_id : cstr) (g : cpm) (h : heap) : option (list Z) * heap :=
  let '(items, cap, failed, h) := scan_seqs task_id (readdir e g) [] 0 h in
  if failed || (length items =? 0)%nat then (None, free_items cap h) else (Some items, h).

Fixpoint scan_ids (names : list cstr) (items : list cstr) (cap : nat) (h : heap) : list cstr * nat * bool * heap :=
  match names with
  | [] => (items, cap, false, h)
  | name :: names' =>
      match parse_cp_name name 128 with
      | None => scan_ids names' items cap h
      | Some (tid, _) =>
          if bool_decide (tid ∈ items) then scan_ids names' items cap h
          else
            let '(ok, h) := malloc h in
            if negb ok then (items, cap, true, h)
            else
              match grow_push (length items) cap h with
              | (None, h) => (items, cap, true, free h)
              | (Some cap, h) => scan_ids names' (items ++ [tid]) cap h
              end
      end
  end.

Definition collect_task_ids (e : read_env) (g : cpm) (h : heap) : option (list cstr) * heap :=
  let '(items, cap, failed, h) := scan_ids (readdir e g) [] 0 h in
  if failed then (None, free_items cap (Heap (answers h) (live h - Z.of_nat (length items))))
  else (if (cap =? 0)%nat then None else Some items, h).

Definition find_latest_seq (e : read_env) (task_id : cstr) (g : cpm) (h : heap) : Z * heap :=
  match collect_task_seqs e task_id g h with
  | (None, h) => (0, h)
  | (Some seqs, h) => (foldl (fun m s => if m <? s then s else m) 0 seqs, free h)
  end.

(** ** Saving *)

(** What the system answers to a save: whether the stream opens, how many bytes
    reach the disk ([None] for all of them: the results of the output functions
    are not looked at), whether the file is renamed, and the time. *)
Record save_env := SEnv { s_fopen_ok : bool; s_room : option nat; s_rename_ok : bool; s_time : Z }.

Definition tmp_path (filepath : cstr) : cstr := snprintf_into MAX_CHECKPOINT_PATH [] (filepath ++ cs ".tmp").

(** The temporary file after the bytes that reached the disk. *)
Definition written (e : save_env) (filepath text : cstr) (fs : gmap cstr file) : gmap cstr file :=
  <[tmp_path filepath := File (match s_room e with None => text | Some n => take n text end) (s_time e)]> fs.

(** [rename] replaces its target. *)
Definition rename (from to : cstr) (fs : gmap cstr file) : gmap cstr file :=
  match fs !! from with None => fs | Some f => <[to := f]> (delete from fs) end.

Definition count_failed (s : airy_checkpoint_stats_t) : airy_checkpoint_stats_t :=
  Stats (total_checkpoints s) (successful_checkpoints s) (u64 (failed_checkpoints s + 1)) (total_restore_ops s)
    (last_checkpoint_time s) (avg_checkpoint_size s).

Definition count_saved (cp : airy_task_checkpoint_t) (s : airy_checkpoint_stats_t) : airy_checkpoint_stats_t :=
  let total := u64 (total_checkpoints s + 1) in
  let size := Z.of_nat (state_size cp) in
  Stats total (u64 (successful_checkpoints s + 1)) (failed_checkpoints s) (total_restore_ops s) (timestamp cp)
    (if 0 <? total then u64 (u64 (avg_checkpoint_size s * (total - 1)) + size) / total else size).

Definition set_state (st : Z) (cp : airy_task_checkpoint_t) : airy_task_checkpoint_t :=
  Cp (task_id cp) (session_id cp) (sequence_num cp) (timestamp cp) (state_json cp) (state_size cp) (completed_nodes cp)
    (completed_count cp) (pending_nodes cp) (pending_count cp) st (checksum cp) (metadata cp).

Definition airy_checkpoint_save (e : save_env) (cp : option airy_task_checkpoint_t) (g : cpm)
    : Z * option airy_task_checkpoint_t * cpm :=
  if negb (g_checkpoint_initialized g) then (AIRY_ENOTINIT, cp, g)
  else
    match cp with
    | None => (AIRY_EINVAL, cp, g)
    | Some c =>
        if bool_decide (task_id c = []) then (AIRY_EINVAL, cp, g)
        else
          match build_filepath_with_seq (g_checkpoint_storage_path g) (task_id c) (sequence_num c) MAX_CHECKPOINT_PATH with
          | None => (AIRY_EINVAL, cp, g)
          | Some filepath =>
              if negb (s_fopen_ok e) then (AIRY_EIO, cp, set_stats (count_failed (g_checkpoint_stats g)) g)
              else
                let fs := written e filepath (checkpoint_text c) (files g) in
                if negb (s_rename_ok e) then
                  (AIRY_EIO, cp,
                   set_stats (count_failed (g_checkpoint_stats g)) (set_files (delete (tmp_path filepath) fs) g))
                else
                  (AIRY_SUCCESS, Some (set_state CHECKPOINT_STATE_COMPLETED c),
                   set_stats (count_saved c (g_checkpoint_stats g)) (set_files (rename (tmp_path filepath) filepath fs) g))
          end
    end.

(** ** Restoring *)

Definition count_restored (s : airy_checkpoint_stats_t) : airy_checkpoint_stats_t :=
  Stats (total_checkpoints s) (successful_checkpoints s) (failed_checkpoints s) (u64 (total_restore_ops s + 1))
    (last_checkpoint_time s) (avg_checkpoint_size s).

Definition MAX_FILE : Z := 10 * 1024 * 1024.

(** The checkpoint that a text is read as. *)
Definition parse_checkpoint (tid text : cstr) (now : Z) (h : heap) : airy_task_checkpoint_t * heap :=
  let '(state_str, h) := json_extract_string text (cs "state") h in
  let '(sj, h) := json_extract_string text (cs "state_json") h in
  let cp := init_fields (Some tid) (Some []) 0 now in
  let st := match state_str with None => state cp | Some s => string_to_state (Some s) end in
  let h := free_str state_str h in
  let size := match sj with None => 0%nat | Some s => length s end in
  let sum := match sj with None => 0 | Some s => calculate_checksum (Some s) (length s) end in
  let '(sid, h) := json_extract_string text (cs "session_id") h in
  let session := match sid with None => session_id cp | Some s => fit 128 s end in
  let h := free_str sid h in
  (Cp (task_id cp) session (json_extract_uint64 text (cs "sequence_num")) (json_extract_uint64 text (cs "timestamp"))
     sj size None 0 None 0 st sum [], h).

Definition airy_checkpoint_restore (e : read_env) (tid : option cstr) (seq : Z) (g : cpm) (h : heap)
    : Z * option airy_task_checkpoint_t * cpm * heap :=
  if negb (g_checkpoint_initialized g) then (AIRY_ENOTINIT, None, g, h)
  else
    match tid with
    | None => (AIRY_EINVAL, None, g, h)
    | Some t =>
        let '(actual, h) := if seq =? 0 then find_latest_seq e t g h else (seq, h) in
        if actual =? 0 then (AIRY_ENOENT, None, g, h)
        else
          match build_filepath_with_seq (g_checkpoint_storage_path g) t actual MAX_CHECKPOINT_PATH with
          | None => (AIRY_EINVAL, None, g, h)
          | Some path =>
              match files g !! path with
              | Some f =>
                  if negb (fopen_ok e) then (AIRY_ENOENT, None, g, h)
                  else if (length (bytes f) =? 0)%nat || (MAX_FILE <? Z.of_nat (length (bytes f))) then (AIRY_EIO, None, g, h)
                  else
                    let '(ok, h) := malloc h in
                    if negb ok then (AIRY_ENOMEM, None, g, h)
                    else if negb (fread_ok e) then (AIRY_EIO, None, g, free h)
                    else
                      let '(ok, h) := malloc h in
                      if negb ok then (AIRY_ENOMEM, None, g, free h)
                      else
                        let '(cp, h) := parse_checkpoint t (c_str (bytes f)) (now_ns e) h in
                        (AIRY_SUCCESS, Some cp, set_stats (count_restored (g_checkpoint_stats g)) g, free h)
              | None => (AIRY_ENOENT, None, g, h)
              end
          end
    end.

(** ** Deleting, listing and cleaning up (checkpoint_session.c) *)

Definition dec_total (s : airy_checkpoint_stats_t) : airy_checkpoint_stats_t :=
  if 0 <? total_checkpoints s then set_total (total_checkpoints s - 1) s else s.

(** [unlink] of a file, counted. *)
Definition unlink_counted (path : cstr) (g : cpm) : bool * cpm :=
  match files g !! path with
  | None => (false, g)
  | Some _ => (true, set_stats (dec_total (g_checkpoint_stats g)) (set_files (delete path (files g)) g))
  end.

Fixpoint delete_loop (t : cstr) (seqs : list Z) (deleted : nat) (g : cpm) : nat * cpm :=
  match seqs with
  | [] => (deleted, g)
  | s :: seqs' =>
      match build_filepath_with_seq (g_checkpoint_storage_path g) t s MAX_CHECKPOINT_PATH with
      | None => delete_loop t seqs' deleted g
      | Some path =>
          let '(ok, g) := unlink_counted path g in
          delete_loop t seqs' (if ok then S deleted else deleted) g
      end
  end.

Definition airy_checkpoint_delete (e : read_env) (tid : option cstr) (seq : Z) (g : cpm) (h : heap) : Z * cpm * heap :=
  if negb (g_checkpoint_initialized g) then (AIRY_ENOTINIT, g, h)
  else
    match tid with
    | None => (AIRY_EINVAL, g, h)
    | Some t =>
        if 0 <? seq then
          match build_filepath_with_seq (g_checkpoint_storage_path g) t seq MAX_CHECKPOINT_PATH with
          | None => (AIRY_EINVAL, g, h)
          | Some path => let '(ok, g) := unlink_counted path g in (if ok then AIRY_SUCCESS else AIRY_ENOENT, g, h)
          end
        else
          match collect_task_seqs e t g h with
          | (None, h) => (AIRY_ENOENT, g, h)
          | (Some seqs, h) =>
              let '(deleted, g) := delete_loop t seqs 0 g in
              (if (0 <? deleted)%nat then AIRY_SUCCESS else AIRY_ENOENT, g, free h)
          end
    end.

(** The insertion sort: the sorted front is kept reversed, so that the inner
    loop walks it from its end. *)
Fixpoint shift_in (key : Z) (front : list Z) : list Z :=
  match front with
  | x :: front' => if key <? x then x :: shift_in key front' else key :: front
  | [] => [key]
  end.

Definition sort_seqs (l : list Z) : list Z := reverse (foldl (fun front key => shift_in key front) [] l).

Fixpoint restore_loop (e : read_env) (t : cstr) (seqs : list Z) (g : cpm) (h : heap)
    : list airy_task_checkpoint_t * cpm * heap :=
  match seqs with
  | [] => ([], g, h)
  | s :: seqs' =>
      let '(_, cp, g, h) := airy_checkpoint_restore e (Some t) s g h in
      let '(l, g, h) := restore_loop e t seqs' g h in
      (match cp with None => l | Some cp => cp :: l end, g, h)
  end.

Definition airy_checkpoint_list (e : read_env) (tid : option cstr) (g : cpm) (h : heap)
    : Z * list airy_task_checkpoint_t * cpm * heap :=
  if negb (g_checkpoint_initialized g) then (AIRY_ENOTINIT, [], g, h)
  else
    match tid with
    | None => (AIRY_EINVAL, [], g, h)
    | Some t =>
        match collect_task_seqs e t g h with
        | (None, h) => (AIRY_ENOENT, [], g, h)
        | (Some seqs, h) =>
            let '(ok, h) := malloc h in
            if negb ok then (AIRY_ENOMEM, [], g, free h)
            else
              let '(l, g, h) := restore_loop e t (sort_seqs seqs) g h in
              let h := free h in
              match l with [] => (AIRY_ENOENT, [], g, free h) | _ => (AIRY_SUCCESS, l, g, h) end
        end
    end.

Definition airy_checkpoint_ids (e : read_env) (g : cpm) (h : heap) : Z * list cstr * heap :=
  if negb (g_checkpoint_initialized g) then (AIRY_ENOTINIT, [], h)
  else
    match collect_task_ids e g h with
    | (None, h) => (AIRY_SUCCESS, [], h)
    | (Some l, h) => (AIRY_SUCCESS, l, h)
    end.

(** One entry of the directory: removed when it is a [.json] file that is old. *)
Definition cleanup_entry (dir : cstr) (now_sec max_age_sec : Z) (fs : gmap cstr file) (name : cstr) : gmap cstr file :=
  if (length name <? 5)%nat || negb (bool_decide (drop (length name - 5) name = CHECKPOINT_FILE_EXTENSION)) then fs
  else
    let path := snprintf_into MAX_CHECKPOINT_PATH [] (dir ++ cs "/" ++ name) in
    match fs !! path with
    | None => fs
    | Some f =>
        let mt := u64 (mtime f) in
        if (mt <=? now_sec) && (max_age_sec <? now_sec - mt) then delete path fs else fs
    end.

Definition airy_checkpoint_cleanup (e : read_env) (now_sec max_age_sec max_cnt : Z) (g : cpm) : Z * cpm :=
  if negb (g_checkpoint_initialized g) then (AIRY_ENOTINIT, g)
  else
    let fs := if 0 <? max_age_sec then
                foldl (cleanup_entry (g_checkpoint_storage_path g) now_sec max_age_sec) (files g) (readdir e g)
              else files g in
    let s := g_checkpoint_stats g in
    (AIRY_SUCCESS,
     set_stats (if (0 <? max_cnt) && (max_cnt <? total_checkpoints s) then set_total max_cnt s else s) (set_files fs g)).

(** ** Snapshots (checkpoint_snapshot.c) *)

Definition sanitized (label s : cstr) : cstr :=
  label ++ cs ": " ++ map (fun c => if (c =? 10) || (c =? 13) then 32 else c) s ++ [NL].

Definition snapshot_body (cp : airy_task_checkpoint_t) : cstr :=
  sanitized (cs "TaskID") (task_id cp) ++ sanitized (cs "SessionID") (session_id cp) ++
  cs "SequenceNum: " ++ fmt_u (sequence_num cp) ++ [NL] ++
  cs "Timestamp: " ++ fmt_u (timestamp cp) ++ [NL] ++
  cs "StateSize: " ++ fmt_u (Z.of_nat (state_size cp)) ++ [NL] ++
  cs "---DATA---" ++ [NL] ++ take (state_size cp) (default [] (state_json cp)) ++ [NL] ++ cs "---END---" ++ [NL].

Definition snapshot_text (cp : airy_task_checkpoint_t) : cstr := cs "SNAPSHOT_V1" ++ [NL] ++ snapshot_body cp.

(** [w_ok]: whether the snapshot opens for writing; [time]: when. *)
Definition airy_snapshot_create (e : read_env) (w_ok : bool) (time : Z) (tid snap_path : option cstr) (g : cpm) (h : heap)
    : Z * cpm * heap :=
  if negb (g_checkpoint_initialized g) then (AIRY_ENOTINIT, g, h)
  else
    match tid, snap_path with
    | Some t, Some p =>
        match airy_checkpoint_restore e (Some t) 0 g h with
        | (err, None, g, h) => (err, g, h)
        | (_, Some cp, g, h) =>
            let h := airy_checkpoint_destroy (Some cp) h in
            if w_ok then (AIRY_SUCCESS, set_files (<[p := File (snapshot_text cp) time]> (files g)) g, h)
            else (AIRY_EIO, g, h)
        end
    | _, _ => (AIRY_EINVAL, g, h)
    end.

Definition starts_with (p s : cstr) : bool := bool_decide (take (length p) s = p).

(** The text of a line without the newline that ends it. *)
Definition chomp (s : cstr) : cstr := if bool_decide (last s = Some NL) then take (length s - 1) s else s.

(** One round per line; [fuel] bounds the rounds. *)
Fixpoint lines_loop (fuel : nat) (s : cstr) (tid : option cstr) (h : heap) : option cstr * heap :=
  match fuel with
  | O => (tid, h)
  | S fuel' =>
      match s with
      | [] => (tid, h)
      | _ =>
          let '(line, rest) := fgets 255 s in
          let line := c_str line in
          if starts_with (cs "TaskID: ") line then
            let '(ok, h) := malloc h in
            lines_loop fuel' rest (if ok then Some (chomp (drop 8 line)) else None) h
          else if starts_with (cs "---DATA---") line then (tid, h)
          else lines_loop fuel' rest tid h
      end
  end.

Definition airy_snapshot_restore (r_ok : bool) (snap_path : option cstr) (g : cpm) (h : heap) : Z * option cstr * heap :=
  if negb (g_checkpoint_initialized g) then (AIRY_ENOTINIT, None, h)
  else
    match snap_path with
    | None => (AIRY_EINVAL, None, h)
    | Some p =>
        match files g !! p with
        | Some f =>
            if negb r_ok then (AIRY_ENOENT, None, h)
            else
              match bytes f with
              | [] => (AIRY_EIO, None, h)
              | _ =>
                  let '(header, rest) := fgets 63 (bytes f) in
                  if starts_with (cs "SNAPSHOT_V1") (c_str header) then
                    match lines_loop (S (length rest)) rest None h with
                    | (None, h) => (AIRY_EIO, None, h)
                    | (Some t, h) => (AIRY_SUCCESS, Some t, h)
                    end
                  else (AIRY_EIO, None, h)
              end
        | None => (AIRY_ENOENT, None, h)
        end
    end.

(** ** Names in a directory *)

Lemma name_in_Some dir path n : name_in dir path = Some n <-> path = dir ++ cs "/" ++ n /\ (47 ∉ n) /\ n <> [].
Proof.
  unfold name_in. rewrite app_assoc. set (front := dir ++ cs "/"). split.
  - case_bool_decide as H; [|done]. case_bool_decide as H1; [done|]. case_bool_decide as H2; [done|]. cbn [orb].
    intros [= <-]. split_and!; [|done|done]. rewrite <- H at 1. by rewrite take_drop.
  - intros (-> & H1 & H2). rewrite take_app_length, drop_app_length.
    rewrite bool_decide_eq_true_2, !bool_decide_eq_false_2 by done. done.
Qed.

Lemma elem_of_dir_names dir fs n :
  n ∈ dir_names dir fs <-> is_Some (fs !! (dir ++ cs "/" ++ n)) /\ (47 ∉ n) /\ n <> [].
Proof.
  unfold dir_names. rewrite list_elem_of_omap. split.
  - intros (p & Hp & (-> & H1 & H2)%name_in_Some). split; [|done].
    apply list_elem_of_fmap in Hp as ([q f] & [= <-] & Hq%elem_of_map_to_list). by eexists.
  - intros ([f Hf] & H). exists (dir ++ cs "/" ++ n). split; [|by apply name_in_Some].
    apply list_elem_of_fmap. exists (dir ++ cs "/" ++ n, f). split; [done|]. by apply elem_of_map_to_list.
Qed.

Lemma NoDup_omap_inj {A B} (f : A -> option B) (l : list A) :
  NoDup l -> (forall x y z, x ∈ l -> y ∈ l -> f x = Some z -> f y = Some z -> x = y) -> NoDup (omap f l).
Proof.
  induction 1 as [|x l Hx Hl IH]; intros Hf; [apply NoDup_nil_2|]. cbn [omap list_omap].
  assert (NoDup (omap f l)) as H by (apply IH; intros; eapply Hf; eauto using list_elem_of_further).
  destruct (f x) as [z|] eqn:Hz; [|done]. apply NoDup_cons_2; [|done].
  intros (y & Hy & Hyz)%list_elem_of_omap. destruct Hx.
  rewrite (Hf x y z); [done|by left|by right|done..].
Qed.

Lemma NoDup_dir_names dir fs : NoDup (dir_names dir fs).
Proof.
  apply NoDup_omap_inj; [apply NoDup_fst_map_to_list|].
  intros p q n _ _ (-> & _)%name_in_Some (-> & _)%name_in_Some. done.
Qed.

(** ** The specification: a map from tasks and numbers to what was saved *)

Abbreviation key := (cstr * Z)%type.
Abbreviation store := (gmap key (airy_task_checkpoint_t * Z)).

Definition seqs_of (t : cstr) (m : store) : list Z :=
  merge_sort Z.le (omap (fun k => if decide (k.1 = t) then Some k.2 else None) (map_to_list m).*1).
Definition latest (t : cstr) (m : store) : Z := foldr Z.max 0 (seqs_of t m).
Definition ids_of (m : store) : list cstr := remove_dups (map_to_list m).*1.*1.

(** What a saved checkpoint is restored as: the nodes and the metadata are not
    kept, and the checksum is that of the state. *)
Definition image (cp : airy_task_checkpoint_t) : airy_task_checkpoint_t :=
  Cp (task_id cp) (session_id cp) (sequence_num cp) (timestamp cp) (state_json cp)
    (match state_json cp with None => 0 | Some s => length s end) None 0 None 0
    (string_to_state (Some (state_to_string (state cp))))
    (match state_json cp with None => 0 | Some s => calculate_checksum (Some s) (length s) end) [].

Inductive cp_op :=
  | Save (cp : airy_task_checkpoint_t)
  | Restore (t : cstr) (seq : Z)
  | List_ (t : cstr)
  | Delete (t : cstr) (seq : Z)
  | Ids
  | Cleanup (max_age max_cnt : Z)
  | GetStats.

(** An answer: its code and the checkpoints, tasks and statistics it gives. *)
Record answer := Answer {
  a_code : Z;
  a_cps : list airy_task_checkpoint_t;
  a_ids : list cstr;
  a_stats : option airy_checkpoint_stats_t;
}.

(** The environment of a call: what the system answers to reads and to a save,
    with the time in seconds. *)
Record call_env := CEnv { c_read : read_env; c_save : save_env }.

Definition c_time (e : call_env) : Z := s_time (c_save e).

Definition cp_step (e : call_env) (o : cp_op) (g : cpm) (h : heap) : answer * cpm * heap :=
  match o with
  | Save cp =>
      let '(code, cp', g) := airy_checkpoint_save (c_save e) (Some cp) g in
      (Answer code (option_list cp') [] None, g, h)
  | Restore t seq =>
      let '(code, cp, g, h) := airy_checkpoint_restore (c_read e) (Some t) seq g h in (Answer code (option_list cp) [] None, g, h)
  | List_ t => let '(code, l, g, h) := airy_checkpoint_list (c_read e) (Some t) g h in (Answer code l [] None, g, h)
  | Delete t seq => let '(code, g, h) := airy_checkpoint_delete (c_read e) (Some t) seq g h in (Answer code [] [] None, g, h)
  | Ids => let '(code, l, h) := airy_checkpoint_ids (c_read e) g h in (Answer code [] l None, g, h)
  | Cleanup age cnt => let '(code, g) := airy_checkpoint_cleanup (c_read e) (c_time e) age cnt g in (Answer code [] [] None, g, h)
  | GetStats => let '(code, s) := airy_checkpoint_get_stats g in (Answer code [] [] s, g, h)
  end.

Definition restored (m : store) (k : key) : option airy_task_checkpoint_t := image ∘ fst <$> m !! k.

(** Statistics: counted per operation. *)
Fixpoint times {A} (n : nat) (f : A -> A) (x : A) : A := match n with O => x | S n => times n f (f x) end.

(** A save whose file cannot be opened or renamed fails and changes nothing but
    the count of failures. *)
Definition spec_step (e : call_env) (o : cp_op) (m : store) (s : airy_checkpoint_stats_t) : answer * store * airy_checkpoint_stats_t :=
  let now := c_time e in
  match o with
  | Save cp =>
      if s_fopen_ok (c_save e) && s_rename_ok (c_save e) then
        (Answer AIRY_SUCCESS [set_state CHECKPOINT_STATE_COMPLETED cp] [] None,
         <[(task_id cp, sequence_num cp) := (cp, now)]> m, count_saved cp s)
      else (Answer AIRY_EIO [cp] [] None, m, count_failed s)
  | Restore t seq =>
      match restored m (t, if seq =? 0 then latest t m else seq) with
      | None => (Answer AIRY_ENOENT [] [] None, m, s)
      | Some cp => (Answer AIRY_SUCCESS [cp] [] None, m, count_restored s)
      end
  | List_ t =>
      let l := omap (fun seq => restored m (t, seq)) (seqs_of t m) in
      (Answer (if decide (l = []) then AIRY_ENOENT else AIRY_SUCCESS) l [] None, m, times (length l) count_restored s)
  | Delete t seq =>
      let l := filter (fun x => seq = 0 \/ x = seq) (seqs_of t m) in
      (Answer (if decide (l = []) then AIRY_ENOENT else AIRY_SUCCESS) [] [] None,
       foldl (fun m x => delete (t, x) m) m l, times (length l) dec_total s)
  | Ids => (Answer AIRY_SUCCESS [] (ids_of m) None, m, s)
  | Cleanup age cnt =>
      (Answer AIRY_SUCCESS [] [] None,
       filter (fun p : key * (airy_task_checkpoint_t * Z) => age = 0 \/ now < p.2.2 \/ now - p.2.2 <= age) m,
       if (0 <? cnt) && (cnt <? total_checkpoints s) then set_total cnt s else s)
  | GetStats => (Answer AIRY_SUCCESS [] [] (Some s), m, s)
  end.

Definition valid_task (t : cstr) : Prop := (0 < length t < 128)%nat /\ (47 ∉ t).

(** Checkpoints that the fields of a document and its file hold. *)
Definition saved_ok (cp : airy_task_checkpoint_t) : Prop :=
  cp_range cp /\ (length (session_id cp) < 128)%nat /\ Z.of_nat (length (checkpoint_text cp)) <= MAX_FILE.

Definition op_ok (o : cp_op) : Prop :=
  match o with
  | Save cp => valid_task (task_id cp) /\ 0 < sequence_num cp /\ saved_ok cp
  | Restore t seq | Delete t seq => valid_task t /\ 0 <= seq < 2 ^ 64
  | List_ t => valid_task t
  | Cleanup age cnt => 0 <= age
  | Ids | GetStats => True
  end.

(** An environment in which what is read can be read and what is written to an
    open file reaches the disk; a directory is read in any order. *)
Record env_ok (e : call_env) : Prop := EnvOk {
  e_dir : opendir_ok (c_read e) = true;
  e_open : fopen_ok (c_read e) = true;
  e_read : fread_ok (c_read e) = true;
  e_ord : forall l, ord (c_read e) l ≡ₚ l;
  e_time : 0 <= c_time e < 2 ^ 64;
  e_room : s_room (c_save e) = None;
}.

Definition path (root t : cstr) (s : Z) : cstr := root ++ cs "/" ++ cp_name t s.

(** The directory holds the documents of a store, and no other checkpoint. *)
Record stored (root : cstr) (m : store) (fs : gmap cstr file) : Prop := Stored {
  st_keys : forall t s cp tm, m !! (t, s) = Some (cp, tm) ->
    valid_task t /\ 0 < s < 2 ^ 64 /\ task_id cp = t /\ sequence_num cp = s /\ saved_ok cp /\ 0 <= tm < 2 ^ 64;
  st_files : forall t s cp tm, m !! (t, s) = Some (cp, tm) -> fs !! path root t s = Some (File (checkpoint_text cp) tm);
  st_names : forall n t s, n ∈ dir_names root fs -> parse_cp_name n 128 = Some (t, s) -> n = cp_name t s /\ is_Some (m !! (t, s));
}.

(** ** Paths *)

Lemma fmt_u_short s : 0 <= s < 2 ^ 64 -> (length (fmt_u s) <= 20)%nat.
Proof. intros H. apply (dec_digits_length 19). lia. Qed.

Lemma cp_name_length t s : valid_task t -> 0 <= s < 2 ^ 64 -> (length (cp_name t s) <= 164)%nat.
Proof.
  intros [[_ Ht] _] Hs. pose proof (fmt_u_short s Hs). unfold cp_name. rewrite !length_app.
  change (length CHECKPOINT_FILE_PREFIX) with 11%nat. change (length CHECKPOINT_FILE_EXTENSION) with 5%nat.
  change (length (cs "_")) with 1%nat. lia.
Qed.

Lemma cp_name_file t s : valid_task t -> 0 <= s -> (47 ∉ cp_name t s) /\ cp_name t s <> [].
Proof.
  intros [_ Ht] Hs. split; [|done]. unfold cp_name. rewrite !not_elem_of_app.
  split_and!; [by apply (bool_decide_unpack _)|done|by apply (bool_decide_unpack _)| |by apply (bool_decide_unpack _)].
  intros Hc. pose proof (fmt_u_dec s Hs) as Hd. rewrite Forall_forall in Hd. by apply Hd in Hc.
Qed.

(** ** Collecting *)

Definition sel (t n : cstr) : option Z :=
  match parse_cp_name n 128 with Some (tid, s) => if bool_decide (tid = t) then Some s else None | None => None end.

Lemma sel_Some t n s : sel t n = Some s <-> parse_cp_name n 128 = Some (t, s).
Proof.
  unfold sel. destruct (parse_cp_name n 128) as [[u x]|]; [|done]. case_bool_decide; naive_solver.
Qed.

Lemma grow_push_granted c cap n : exists cap' n', grow_push c cap (Heap [] n) = (Some cap', Heap [] n').
Proof. unfold grow_push. destruct (c =? cap)%nat, (cap =? 0)%nat; cbn; by do 2 eexists. Qed.

Lemma scan_seqs_granted t names items cap n :
  exists cap' n', scan_seqs t names items cap (Heap [] n) = (items ++ omap (sel t) names, cap', false, Heap [] n').
Proof.
  revert items cap n. induction names as [|x names IH]; intros items cap n; cbn [scan_seqs omap list_omap].
  { rewrite app_nil_r. by do 2 eexists. }
  unfold sel at 1. destruct (parse_cp_name x 128) as [[u s]|]; [|apply IH]. case_bool_decide; [|apply IH].
  destruct (grow_push_granted (length items) cap n) as (cap' & n' & ->).
  destruct (IH (items ++ [s]) cap' n') as (? & ? & ->). do 2 eexists. by rewrite <- app_assoc.
Qed.

Lemma collect_granted e t g n :
  exists n', collect_task_seqs e t g (Heap [] n) =
    (if decide (omap (sel t) (readdir e g) = []) then None else Some (omap (sel t) (readdir e g)), Heap [] n').
Proof.
  unfold collect_task_seqs. destruct (scan_seqs_granted t (readdir e g) [] 0 n) as (cap & n' & ->). cbn [app orb].
  destruct (omap (sel t) (readdir e g)) as [|x l]; cbn [length Nat.eqb].
  - rewrite decide_True by done. unfold free_items. destruct (cap =? 0)%nat; by eexists.
  - rewrite decide_False by done. by eexists.
Qed.

(** The numbers that a task has. *)
Definition keys_of (t : cstr) (m : store) : list Z := omap (fun k => if decide (k.1 = t) then Some k.2 else None) (map_to_list m).*1.

Lemma elem_of_keys t m s : s ∈ keys_of t m <-> is_Some (m !! (t, s)).
Proof.
  unfold keys_of. rewrite list_elem_of_omap. split.
  - intros ([u x] & Hin & HE). cbn [fst snd] in HE. destruct (decide (u = t)) as [->|]; [|done]. injection HE as ->.
    apply list_elem_of_fmap in Hin as ([k v] & -> & Hv%elem_of_map_to_list). by eexists.
  - intros [v Hv]. exists (t, s). cbn [fst snd]. rewrite decide_True by done. split; [|done].
    apply list_elem_of_fmap. exists ((t, s), v). split; [done|]. by apply elem_of_map_to_list.
Qed.

Lemma NoDup_keys t m : NoDup (keys_of t m).
Proof.
  apply NoDup_omap_inj; [apply NoDup_fst_map_to_list|]. intros [u1 x1] [u2 x2] z _ _. cbn [fst snd].
  repeat case_decide; naive_solver.
Qed.

Lemma elem_of_seqs t m s : s ∈ seqs_of t m <-> is_Some (m !! (t, s)).
Proof. unfold seqs_of. rewrite merge_sort_Permutation. apply elem_of_keys. Qed.

Lemma NoDup_seqs t m : NoDup (seqs_of t m).
Proof. unfold seqs_of. rewrite merge_sort_Permutation. apply NoDup_keys. Qed.

Lemma omap_perm {A B} (f : A -> option B) l1 l2 : l1 ≡ₚ l2 -> omap f l1 ≡ₚ omap f l2.
Proof.
  induction 1 as [|x l1 l2 _ IH|x y l|l1 l2 l3 _ IH1 _ IH2]; cbn [omap list_omap]; [done| | |by etrans].
  - destruct (f x); [by constructor|done].
  - destruct (f x), (f y); [by constructor|done..].
Qed.

Lemma shift_in_perm x l : shift_in x l ≡ₚ x :: l.
Proof. induction l as [|y l IH]; [done|]. cbn [shift_in]. destruct (x <? y); [|done]. rewrite IH. constructor. Qed.

Lemma shift_in_sorted x l : Sorted (flip Z.le) l -> Sorted (flip Z.le) (shift_in x l).
Proof.
  induction 1 as [|y l Hs IH Hd]; [by repeat constructor|]. cbn [shift_in]. destruct (Z.ltb_spec x y).
  - constructor; [done|]. destruct l as [|z l]; cbn [shift_in]; [constructor; unfold flip; lia|].
    inversion Hd; subst. destruct (x <? z); constructor; unfold flip in *; lia.
  - constructor; [by constructor|]. constructor. unfold flip. lia.
Qed.

Lemma sort_seqs_spec l l' : l ≡ₚ l' -> sort_seqs l = merge_sort Z.le l'.
Proof.
  intros Hp. assert (forall l front, Sorted (flip Z.le) front ->
    Sorted (flip Z.le) (foldl (fun f k => shift_in k f) front l) /\ foldl (fun f k => shift_in k f) front l ≡ₚ l ++ front) as H.
  { clear. induction l as [|x l IH]; intros front Hf; [done|]. cbn [foldl app].
    destruct (IH (shift_in x front) (shift_in_sorted x front Hf)) as [H1 H2]. split; [done|].
    rewrite H2, shift_in_perm. apply Permutation_sym, Permutation_middle. }
  destruct (H l [] (Sorted_nil _)) as [H1 H2]. rewrite app_nil_r in H2. unfold sort_seqs.
  apply (Sorted_unique Z.le).
  - by apply (Sorted_reverse (flip Z.le)).
  - apply Sorted_merge_sort. intros x y. lia.
  - by rewrite reverse_Permutation, H2, merge_sort_Permutation.
Qed.

Lemma seqs_of_keys t m : seqs_of t m = merge_sort Z.le (keys_of t m).
Proof. done. Qed.

Lemma latest_foldl l a : 0 <= a -> foldl (fun m s => if m <? s then s else m) a l = Z.max a (foldr Z.max 0 l).
Proof.
  revert a. induction l as [|x l IH]; intros a Ha; cbn [foldl foldr]; [lia|].
  rewrite IH; destruct (Z.ltb_spec a x); lia.
Qed.

Lemma max_nonneg l : 0 <= foldr Z.max 0 l.
Proof. induction l; cbn [foldr]; lia. Qed.

Lemma max_perm l l' : l ≡ₚ l' -> foldr Z.max 0 l = foldr Z.max 0 l'.
Proof. induction 1; cbn [foldr]; lia. Qed.

Section rooted.
Context (root : cstr) (Hroot : (length root <= 850)%nat).

Lemma path_inj t1 t2 s1 s2 :
  valid_task t1 -> valid_task t2 -> 0 <= s1 < 2 ^ 64 -> 0 <= s2 < 2 ^ 64 -> path root t1 s1 = path root t2 s2 -> t1 = t2 /\ s1 = s2.
Proof.
  intros [H1 _] [H2 _] Hs1 Hs2 HE%app_inv_head%app_inv_head.
  pose proof (parse_cp_name_built t1 s1 H1 Hs1) as P1. rewrite HE, parse_cp_name_built in P1 by done. by simplify_eq.
Qed.

Lemma path_length t s : valid_task t -> 0 <= s < 2 ^ 64 -> (length (path root t s) <= 1015)%nat.
Proof. intros Ht Hs. pose proof (cp_name_length t s Ht Hs). unfold path. rewrite !length_app. change (length (cs "/")) with 1%nat. lia. Qed.

Lemma build_path t s : valid_task t -> 0 <= s < 2 ^ 64 -> build_filepath_with_seq root t s MAX_CHECKPOINT_PATH = Some (path root t s).
Proof.
  intros Ht Hs. pose proof (path_length t s Ht Hs). unfold build_filepath_with_seq, MAX_CHECKPOINT_PATH.
  change (root ++ cs "/" ++ cp_name t s) with (path root t s). destruct (Nat.ltb_spec (length (path root t s)) 1024); [done|lia].
Qed.

Lemma tmp_path_eq t s : valid_task t -> 0 <= s < 2 ^ 64 -> tmp_path (path root t s) = path root t s ++ cs ".tmp".
Proof.
  intros Ht Hs. pose proof (path_length t s Ht Hs). unfold tmp_path, MAX_CHECKPOINT_PATH, snprintf_into.
  apply take_ge. rewrite length_app. cbn [length]. change (length (cs ".tmp")) with 4%nat. lia.
Qed.

(** Names that end as temporary files do are not names of checkpoints. *)
Lemma parse_tmp x : parse_cp_name (x ++ cs ".tmp") 128 = None.
Proof.
  unfold parse_cp_name. destruct (_ <? _)%nat; [done|]. destruct (negb (bool_decide (take _ _ = _))); [done|].
  rewrite bool_decide_eq_false_2; [done|]. intros HE. set (k := (length (x ++ cs ".tmp") - _)%nat) in HE.
  pose proof (take_drop k (x ++ cs ".tmp")) as HT. rewrite HE in HT. apply (f_equal last) in HT.
  rewrite !last_app in HT. done.
Qed.

(** ** Stores *)

Lemma stored_lookup m fs t s :
  stored root m fs -> valid_task t -> 0 <= s < 2 ^ 64 ->
  fs !! path root t s = (fun v => File (checkpoint_text v.1) v.2) <$> m !! (t, s).
Proof.
  intros [_ Hf Hn] Ht Hs. destruct (m !! (t, s)) as [[cp tm]|] eqn:Hm; [exact (Hf _ _ _ _ Hm)|]. cbn [fmap option_fmap option_map].
  destruct (fs !! path root t s) as [f|] eqn:HE; [|done].
  destruct (Hn (cp_name t s) t s) as [_ H]; [|apply parse_cp_name_built; [by destruct Ht|done]|by rewrite Hm in H; destruct H].
  apply elem_of_dir_names. split; [by eexists|]. apply cp_name_file; [done|lia].
Qed.

(** Files that go, and the checkpoints that go with them. *)
Lemma stored_shrink m m' fs fs' :
  stored root m fs -> (forall p, fs' !! p = fs !! p \/ fs' !! p = None) ->
  (forall t s v, m' !! (t, s) = Some v <-> m !! (t, s) = Some v /\ is_Some (fs' !! path root t s)) -> stored root m' fs'.
Proof.
  intros [Hk Hf Hn] Hp Hm. split.
  - intros t s cp tm H. apply Hm in H as [H _]. by apply (Hk t s).
  - intros t s cp tm H. apply Hm in H as [H [f Hs]]. apply Hf in H. destruct (Hp (path root t s)); congruence.
  - intros n t s Hin HP. apply elem_of_dir_names in Hin as ([f Hl] & Hn1 & Hn2).
    destruct (Hn n t s) as [-> [v Hv]]; [|done|].
    + apply elem_of_dir_names. split; [|done]. destruct (Hp (root ++ cs "/" ++ n)); [|congruence]. exists f. congruence.
    + split; [done|]. exists v. apply Hm. split; [done|]. by eexists.
Qed.

Lemma stored_save m fs cp tm e :
  stored root m fs -> valid_task (task_id cp) -> 0 < sequence_num cp -> saved_ok cp -> 0 <= tm < 2 ^ 64 ->
  s_room e = None -> s_time e = tm ->
  let p := path root (task_id cp) (sequence_num cp) in
  stored root (<[(task_id cp, sequence_num cp) := (cp, tm)]> m) (rename (tmp_path p) p (written e p (checkpoint_text cp) fs)).
Proof.
  intros [Hk Hf Hn] Ht Hs Hc Htm He1 He2 p. pose proof Hc as [[Hr _ _ _ _ _ _] _].
  unfold rename, written. rewrite He1, He2, lookup_insert_eq, delete_insert_eq.
  assert (tmp_path p = p ++ cs ".tmp") as -> by (apply tmp_path_eq; [done|lia]). split.
  - intros t s cp' tm' H. apply lookup_insert_Some in H as [[HE1 HE2]|[_ H]]; [|exact (Hk t s _ _ H)]. simplify_eq.
    split_and!; [done|lia|lia|done..|lia|lia].
  - intros t s cp' tm' H. apply lookup_insert_Some in H as [[HE1 HE2]|[Hne H]]; [simplify_eq; apply lookup_insert_eq|].
    destruct (Hk _ _ _ _ H) as (Ht' & Hs' & _).
    rewrite lookup_insert_ne. 2: { intros HE. apply path_inj in HE as [HE1 HE2]; [congruence|done|done|lia|lia]. }
    rewrite lookup_delete_ne; [by apply Hf|]. intros HE. apply (f_equal last) in HE. unfold path, cp_name in HE.
    rewrite !app_assoc, !last_app in HE. done.
  - intros n t s Hin HP. apply elem_of_dir_names in Hin as ([f Hl] & Hn1 & Hn2).
    apply lookup_insert_Some in Hl as [[HE _]|[_ [HE Hl]%lookup_delete_Some]].
    + apply app_inv_head, app_inv_head in HE. subst n. rewrite parse_cp_name_built in HP; [|by destruct Ht|lia].
      injection HP as <- <-. split; [done|]. exists (cp, tm). apply lookup_insert_eq.
    + destruct (Hn n t s) as [-> Hv]; [|done|].
      * apply elem_of_dir_names. split; [by eexists|done].
      * split; [done|]. rewrite lookup_insert_is_Some. destruct (decide ((task_id cp, sequence_num cp) = (t, s))); auto.
Qed.

(** In whatever order the directory is read, the numbers that are collected are
    those of the store. *)
Lemma collected m g e t :
  stored root m (files g) -> g_checkpoint_storage_path g = root -> opendir_ok e = true -> (forall l, ord e l ≡ₚ l) ->
  omap (sel t) (readdir e g) ≡ₚ seqs_of t m.
Proof.
  intros Hst Hr Ho Hp. unfold readdir. rewrite Ho, Hr, (omap_perm _ _ _ (Hp _)).
  change (omap (sel t) (cs "." :: cs ".." :: dir_names root (files g))) with (omap (sel t) (dir_names root (files g))).
  apply NoDup_Permutation; [|apply NoDup_seqs|].
  - apply NoDup_omap_inj; [apply NoDup_dir_names|]. intros n1 n2 s H1 H2 Hs1%sel_Some Hs2%sel_Some.
    apply (st_names _ _ _ Hst) in Hs1 as [-> _]; [|done]. by apply (st_names _ _ _ Hst) in Hs2 as [-> _].
  - intros s. rewrite elem_of_seqs, list_elem_of_omap. split.
    + intros (n & Hin & Hs%sel_Some). by apply (st_names _ _ _ Hst n t s Hin).
    + intros [[cp tm] Hm]. exists (cp_name t s). destruct (st_keys _ _ _ Hst _ _ _ _ Hm) as (Ht & Hs & _).
      split; [|apply sel_Some, parse_cp_name_built; [by destruct Ht|lia]].
      apply elem_of_dir_names. split; [|apply cp_name_file; [done|lia]].
      eexists. exact (st_files _ _ _ Hst _ _ _ _ Hm).
Qed.


(** ** Restoring *)

Lemma parse_checkpoint_text cp t now n :
  saved_ok cp -> task_id cp = t -> (length t < 128)%nat ->
  exists n', parse_checkpoint t (checkpoint_text cp) now (Heap [] n) = (image cp, Heap [] n').
Proof.
  intros (Hr & Hs & _) Ht Hl. unfold parse_checkpoint.
  assert (plain_key (cs "session_id")) as K1 by (by apply (bool_decide_unpack _)).
  assert (plain_key (cs "sequence_num")) as K2 by (by apply (bool_decide_unpack _)).
  assert (plain_key (cs "timestamp")) as K3 by (by apply (bool_decide_unpack _)).
  assert (write_json_escaped_str (state_to_string (state cp)) = state_to_string (state cp)) as He
    by (unfold state_to_string; by repeat case_match).
  rewrite (document_string cp (cs "state") (state_to_string (state cp))).
  2: exact Hr. 2: by apply (bool_decide_unpack _). 2: rewrite He; reflexivity.
  assert (exists n', json_extract_string (checkpoint_text cp) (cs "state_json") (Heap [] (n + 1)) = (state_json cp, Heap [] n'))
    as [n1 ->].
  { destruct (state_json cp) as [js|] eqn:Hj.
    - eexists. apply document_string; [done|by apply (bool_decide_unpack _)|]. cbn [member_of members]. rewrite Hj. reflexivity.
    - exists (n + 1). destruct (document_member cp (cs "state_json") (cs "null")) as [r Hf]; [done|by apply (bool_decide_unpack _)| |].
      + unfold members. rewrite Hj. reflexivity.
      + unfold json_extract_string. rewrite Hf. reflexivity. }
  cbn [free_str]. change (free (Heap [] n1)) with (Heap [] (n1 - 1)).
  rewrite (document_string cp (cs "session_id") (session_id cp) _ Hr K1 eq_refl).
  rewrite (document_uint cp (cs "sequence_num") (sequence_num cp) Hr K2 (r_seq _ Hr) eq_refl).
  rewrite (document_uint cp (cs "timestamp") (timestamp cp) Hr K3 (r_time _ Hr) eq_refl).
  eexists. unfold image, init_fields, fit. cbn [task_id default id]. rewrite Ht, !take_ge by lia. reflexivity.
Qed.

Lemma document_size cp : saved_ok cp ->
  (length (checkpoint_text cp) =? 0)%nat || (MAX_FILE <? Z.of_nat (length (checkpoint_text cp))) = false.
Proof. intros (_ & _ & H). destruct (Z.ltb_spec MAX_FILE (Z.of_nat (length (checkpoint_text cp)))); [lia|done]. Qed.

(** The module runs on a store. *)
(** A temporary file changes nothing of a store. *)
Lemma stored_tmp m fs t s f :
  stored root m fs -> valid_task t -> 0 <= s < 2 ^ 64 -> stored root m (<[tmp_path (path root t s) := f]> fs).
Proof.
  intros [Hk Hf Hn] Ht Hs. rewrite tmp_path_eq by done. split; [done| |].
  - intros t' s' cp tm Hm. rewrite lookup_insert_ne; [by apply Hf|]. intros HE. apply (f_equal last) in HE.
    unfold path, cp_name in HE. rewrite !app_assoc, !last_app in HE. done.
  - intros x t' s' Hin HP. apply elem_of_dir_names in Hin as ([f' Hl] & Hx).
    apply lookup_insert_Some in Hl as [[HE _]|[_ Hl]].
    + unfold path in HE. rewrite <- !app_assoc in HE. apply app_inv_head, app_inv_head in HE. subst x.
      by rewrite parse_tmp in HP.
    + apply (Hn x t' s'); [|done]. apply elem_of_dir_names. split; [by eexists|done].
Qed.
(** The end of a save that fails. *)
Lemma stored_tmp_deleted m fs t s f :
  stored root m fs -> valid_task t -> 0 <= s < 2 ^ 64 ->
  stored root m (delete (tmp_path (path root t s)) (<[tmp_path (path root t s) := f]> fs)).
Proof.
  intros Hst Ht Hs. apply (stored_shrink m m (<[tmp_path (path root t s) := f]> fs)); [by apply stored_tmp| |].
  - intros p. destruct (decide (p = tmp_path (path root t s))) as [->|]; [right; by rewrite lookup_delete_eq|left; by rewrite lookup_delete_ne].
  - intros t' s' v. split; [|by intros []]. intros Hm. split; [done|]. destruct v as [cp tm].
    rewrite delete_insert_eq, lookup_delete_ne; [rewrite (st_files _ _ _ Hst _ _ _ _ Hm); by eexists|].
    rewrite tmp_path_eq by done. intros HE. apply (f_equal last) in HE. unfold path, cp_name in HE. rewrite !app_assoc, !last_app in HE. done.
Qed.

Record ready (m : store) (g : cpm) : Prop := Ready {
  rd_files : stored root m (files g);
  rd_path : g_checkpoint_storage_path g = root;
  rd_init : g_checkpoint_initialized g = true;
}.

Lemma ready_stats m g s : ready m g -> ready m (set_stats s g).
Proof. intros [H1 H2 H3]. by split. Qed.

Section calls.
Context (e : call_env) (He : env_ok e).

Lemma restore_at m g n t s :
  ready m g -> valid_task t -> 0 < s < 2 ^ 64 ->
  exists n', airy_checkpoint_restore (c_read e) (Some t) s g (Heap [] n) =
    match restored m (t, s) with
    | None => (AIRY_ENOENT, None, g, Heap [] n')
    | Some cp => (AIRY_SUCCESS, Some cp, set_stats (count_restored (g_checkpoint_stats g)) g, Heap [] n')
    end.
Proof.
  intros [Hst Hg Hi] Ht Hs. destruct He as [_ Ho Hr _ _ _]. unfold airy_checkpoint_restore, restored. rewrite Hi, Ho, Hr. cbn [negb].
  destruct (Z.eqb_spec s 0); [lia|]. destruct (Z.eqb_spec s 0); [lia|]. rewrite Hg, build_path by (done || lia).
  rewrite (stored_lookup m) by (done || lia).
  destruct (m !! (t, s)) as [[cp tm]|] eqn:Hm; cbn [fmap option_fmap option_map fst snd compose]; [|by eexists].
  destruct (st_keys _ _ _ Hst _ _ _ _ Hm) as ([Hl _] & _ & Htk & _ & Hok & _). cbn [bytes].
  rewrite document_size by done. cbn [malloc answers negb].
  rewrite c_str_whole by (apply checkpoint_text_nonzero; apply Hok).
  destruct (parse_checkpoint_text cp t (now_ns (c_read e)) (n + 1 + 1)) as [n' Hp]; [done|done|lia|].
  cbn [live]. rewrite Hp. by eexists.
Qed.

Lemma find_latest m g n t : ready m g -> exists n', find_latest_seq (c_read e) t g (Heap [] n) = (latest t m, Heap [] n').
Proof.
  intros [Hst Hg _]. destruct He as [Hd _ _ Hp _ _]. pose proof (collected m g (c_read e) t Hst Hg Hd Hp) as HP.
  unfold find_latest_seq. destruct (collect_granted (c_read e) t g n) as [n' ->]. unfold latest.
  case_decide as HE.
  - rewrite HE in HP. apply Permutation_nil_l in HP. rewrite <- HP. by eexists.
  - rewrite latest_foldl, (max_perm _ _ HP) by lia. eexists. f_equal. pose proof (max_nonneg (seqs_of t m)). lia.
Qed.

Lemma latest_key m g t :
  ready m g -> latest t m = 0 /\ m !! (t, 0) = None \/ 0 < latest t m < 2 ^ 64 /\ is_Some (m !! (t, latest t m)).
Proof.
  intros [Hst _ _]. destruct (m !! (t, 0)) as [[cp tm]|] eqn:H0.
  { destruct (st_keys _ _ _ Hst _ _ _ _ H0) as (_ & ? & _). lia. }
  assert (forall l, (forall s, s ∈ l -> 0 < s) -> foldr Z.max 0 l = 0 \/ foldr Z.max 0 l ∈ l) as H.
  { clear. induction l as [|x l IH]; intros Hs; [by left|]. right. cbn [foldr]. pose proof (Hs x ltac:(by left)).
    destruct IH as [->|H1]; [intros s ?; apply Hs; by right| |].
    - rewrite Z.max_l by lia. by left.
    - destruct (Z.max_spec x (foldr Z.max 0 l)) as [[_ ->]|[_ ->]]; [by right|by left]. }
  destruct (H (seqs_of t m)) as [HE|HE].
  - intros s [[cp tm] Hm]%elem_of_seqs. by destruct (st_keys _ _ _ Hst _ _ _ _ Hm) as (_ & [? _] & _).
  - by left.
  - right. apply elem_of_seqs in HE. split; [|done]. destruct HE as [[cp tm] Hm].
    by destruct (st_keys _ _ _ Hst _ _ _ _ Hm) as (_ & ? & _).
Qed.

Lemma restore_latest m g n t :
  ready m g -> valid_task t ->
  exists n', airy_checkpoint_restore (c_read e) (Some t) 0 g (Heap [] n) =
    match restored m (t, latest t m) with
    | None => (AIRY_ENOENT, None, g, Heap [] n')
    | Some cp => (AIRY_SUCCESS, Some cp, set_stats (count_restored (g_checkpoint_stats g)) g, Heap [] n')
    end.
Proof.
  intros Hr Ht. destruct (find_latest m g n t Hr) as [n' Hl].
  assert (airy_checkpoint_restore (c_read e) (Some t) 0 g (Heap [] n) =
    if latest t m =? 0 then (AIRY_ENOENT, None, g, Heap [] n')
    else airy_checkpoint_restore (c_read e) (Some t) (latest t m) g (Heap [] n')) as ->.
  { unfold airy_checkpoint_restore. destruct Hr as [_ _ ->]. cbn [negb Z.eqb]. rewrite Hl.
    destruct (latest t m =? 0) eqn:HE; rewrite ?HE; done. }
  destruct (latest_key m g t Hr) as [[-> H0]|[Hb _]].
  - unfold restored. rewrite H0. by eexists.
  - destruct (Z.eqb_spec (latest t m) 0); [lia|]. by apply restore_at.
Qed.

Lemma restore_loop_exact m l g n t :
  ready m g -> valid_task t -> (forall s, s ∈ l -> 0 < s < 2 ^ 64) ->
  exists n', restore_loop (c_read e) t l g (Heap [] n) =
    let r := omap (fun s => restored m (t, s)) l in
    (r, set_stats (times (length r) count_restored (g_checkpoint_stats g)) g, Heap [] n').
Proof.
  revert g n. induction l as [|s l IH]; intros g n Hr Ht Hl; cbn [restore_loop omap list_omap length times].
  { exists n. by destruct g. }
  destruct (restore_at m g n t s Hr Ht) as [n1 ->]; [apply Hl; by left|].
  destruct (restored m (t, s)) as [cp|].
  - destruct (IH (set_stats (count_restored (g_checkpoint_stats g)) g) n1) as [n2 ->];
      [by apply ready_stats|done|intros; apply Hl; by right|]. by eexists.
  - destruct (IH g n1) as [n2 ->]; [done|done|intros; apply Hl; by right|]. by eexists.
Qed.

(** One call against the store. *)
Definition answers_as (a b : answer) : Prop :=
  a_code a = a_code b /\ a_cps a = a_cps b /\ a_ids a ≡ₚ a_ids b /\ a_stats a = a_stats b.

Definition refines (o : cp_op) (m : store) (g : cpm) (n : Z) : Prop :=
  exists g' n' a, cp_step e o g (Heap [] n) = (a, g', Heap [] n') /\
    let '(b, m', s') := spec_step e o m (g_checkpoint_stats g) in
    answers_as a b /\ ready m' g' /\ g_checkpoint_stats g' = s'.

Lemma list_refines m g n t : ready m g -> valid_task t -> refines (List_ t) m g n.
Proof.
  intros Hr Ht. pose proof Hr as [Hst Hg Hi]. pose proof He as [Hd _ _ Hp _ _].
  pose proof (collected m g (c_read e) t Hst Hg Hd Hp) as HP.
  unfold refines, cp_step, airy_checkpoint_list. rewrite Hi. cbn [negb].
  destruct (collect_granted (c_read e) t g n) as [n1 ->]. cbn [spec_step].
  case_decide as HE.
  - rewrite HE in HP. apply Permutation_nil_l in HP. rewrite <- HP. do 3 eexists. split; [done|].
    split_and!; [by split_and!|done..].
  - cbn [malloc answers negb live]. rewrite (sort_seqs_spec _ (keys_of t m)) by (rewrite HP; apply merge_sort_Permutation).
    destruct (restore_loop_exact m (seqs_of t m) g (n1 + 1) t Hr Ht) as [n2 H].
    { intros s [[cp tm] Hm]%elem_of_seqs. by destruct (st_keys _ _ _ Hst _ _ _ _ Hm) as (_ & ? & _). }
    change (merge_sort Z.le (keys_of t m)) with (seqs_of t m). rewrite H. cbv zeta.
    destruct (omap _ (seqs_of t m)) as [|cp l]; do 3 eexists; (split; [done|]); split_and!;
      try (by split_and!); try (by apply ready_stats); done.
Qed.

Lemma restore_refines m g n t s : ready m g -> valid_task t -> 0 <= s < 2 ^ 64 -> refines (Restore t s) m g n.
Proof.
  intros Hr Ht Hs. unfold refines. cbn [cp_step spec_step].
  assert (exists n', airy_checkpoint_restore (c_read e) (Some t) s g (Heap [] n) =
    match restored m (t, if s =? 0 then latest t m else s) with
    | None => (AIRY_ENOENT, None, g, Heap [] n')
    | Some cp => (AIRY_SUCCESS, Some cp, set_stats (count_restored (g_checkpoint_stats g)) g, Heap [] n')
    end) as [n' ->].
  { destruct (Z.eqb_spec s 0) as [->|]; [by apply restore_latest|]. apply restore_at; [done|done|lia]. }
  destruct (restored m _) as [cp|]; do 3 eexists; (split; [done|]); split_and!; try (by split_and!); try (by apply ready_stats); done.
Qed.

Lemma save_refines m g n cp : ready m g -> op_ok (Save cp) -> refines (Save cp) m g n.
Proof.
  intros [Hst Hg Hi] (Ht & Hs & Hok). pose proof Hok as [[Hq _ _ _ _ _ _] _]. unfold refines.
  cbn [cp_step spec_step]. unfold airy_checkpoint_save. rewrite Hi, Hg, build_path by (done || lia). cbn [negb].
  rewrite bool_decide_eq_false_2 by (destruct Ht as [[Hl _] _]; intros HE; rewrite HE in Hl; cbn in Hl; lia).
  destruct (s_fopen_ok (c_save e)); cbn [negb andb].
  2: { do 3 eexists. split; [done|]. split_and!; [by split_and!|by apply ready_stats|done]. }
  destruct (s_rename_ok (c_save e)); cbn [negb]; do 3 eexists; (split; [done|]); split_and!; try (by split_and!); try done;
    apply ready_stats; (split; [|done|done]); cbn [files set_files].
  - apply stored_save; [done..| | |done]; by destruct He.
  - apply stored_tmp_deleted; [done..|lia].
Qed.

(** Deleting *)

Lemma ready_delete m g t s x :
  ready m g -> valid_task t -> 0 <= s < 2 ^ 64 ->
  ready (delete (t, s) m) (set_stats x (set_files (delete (path root t s) (files g)) g)).
Proof.
  intros [Hst Hg Hi] Ht Hs. apply ready_stats. split; [|done|done]. cbn [files set_files].
  apply (stored_shrink m _ (files g)); [done| |].
  - intros p. destruct (decide (p = path root t s)) as [->|]; [right; apply lookup_delete_eq|left; by apply lookup_delete_ne].
  - intros t' s' v. rewrite lookup_delete_Some. split.
    + intros [Hne Hm]. split; [done|]. destruct v as [cp tm].
      destruct (st_keys _ _ _ Hst _ _ _ _ Hm) as (Ht' & Hs' & _).
      rewrite lookup_delete_ne. 2: { intros HE. apply path_inj in HE as [-> ->]; [done|done|done|lia|lia]. }
      eexists. by apply (st_files _ _ _ Hst).
    + intros [Hm Hf]. split; [|done]. intros [= <- <-]. rewrite lookup_delete_eq in Hf. by destruct Hf.
Qed.

Lemma delete_loop_exact l m g t d :
  ready m g -> valid_task t -> NoDup l -> (forall s, s ∈ l -> is_Some (m !! (t, s))) ->
  exists g', delete_loop t l d g = ((d + length l)%nat, g') /\ ready (foldl (fun m s => delete (t, s) m) m l) g' /\
    g_checkpoint_stats g' = times (length l) dec_total (g_checkpoint_stats g).
Proof.
  revert m g d. induction l as [|s l IH]; intros m g d Hr Ht Hnd Hl; cbn [delete_loop foldl length times].
  { exists g. by rewrite Nat.add_0_r. }
  apply NoDup_cons in Hnd as [Hs Hnd]. pose proof Hr as [Hst Hg Hi].
  destruct (Hl s) as [[cp tm] Hm]; [by left|]. destruct (st_keys _ _ _ Hst _ _ _ _ Hm) as (_ & Hb & _).
  rewrite Hg, build_path by (done || lia). unfold unlink_counted. rewrite (st_files _ _ _ Hst _ _ _ _ Hm).
  destruct (IH (delete (t, s) m) (set_stats (dec_total (g_checkpoint_stats g)) (set_files (delete (path root t s) (files g)) g)) (S d))
    as (g' & -> & Hr' & Hst').
  - apply ready_delete; [done|done|lia].
  - done.
  - done.
  - intros x Hx. rewrite lookup_delete_ne; [apply Hl; by right|]. intros [= <-]. done.
  - exists g'. split; [f_equal; lia|]. by split.
Qed.

Lemma foldl_delete l t m k :
  foldl (fun (m : store) s => delete (t, s) m) m l !! k = if decide (k.1 = t /\ k.2 ∈ l) then None else m !! k.
Proof.
  revert m. induction l as [|s l IH]; intros m; cbn [foldl].
  { rewrite decide_False; [done|]. intros [_ H]. by apply elem_of_nil in H. }
  rewrite IH. destruct k as [t' s']. cbn [fst snd]. destruct (decide (t' = t /\ s' ∈ l)) as [[-> Hin]|Hn].
  - rewrite decide_True; [done|]. split; [done|]. by right.
  - destruct (decide (t' = t /\ s' ∈ s :: l)) as [[-> Hin]|Hn'].
    + apply elem_of_cons in Hin as [->|Hin]; [apply lookup_delete_eq|]. by destruct Hn.
    + apply lookup_delete_ne. intros [= <- <-]. destruct Hn'. split; [done|by left].
Qed.

Lemma filter_one (l : list Z) (q : Z) : NoDup l -> q <> 0 -> filter (fun x => q = 0 \/ x = q) l = if decide (q ∈ l) then [q] else [].
Proof.
  intros Hnd Hq. induction Hnd as [|x l Hx _ IH]; [done|]. rewrite filter_cons.
  destruct (decide (x = q)) as [->|Hne].
  - rewrite decide_True by auto. rewrite IH, decide_False by done. rewrite decide_True; [done|by left].
  - rewrite decide_False by naive_solver. rewrite IH.
    destruct (decide (q ∈ l)); [rewrite decide_True; [done|by right]|].
    rewrite decide_False; [done|]. by intros [->|?]%elem_of_cons.
Qed.

Lemma filter_zero (l : list Z) : filter (fun x => 0 = 0 \/ x = 0) l = l.
Proof. induction l as [|x l IH]; [done|]. rewrite filter_cons, decide_True, IH by auto. done. Qed.

Lemma delete_refines m g n t s : ready m g -> valid_task t -> 0 <= s < 2 ^ 64 -> refines (Delete t s) m g n.
Proof.
  intros Hr Ht Hs. pose proof Hr as [Hst Hg Hi]. pose proof He as [Hd _ _ Hp _ _]. unfold refines, cp_step, airy_checkpoint_delete.
  rewrite Hi. cbn [negb spec_step]. destruct (Z.ltb_spec 0 s).
  - rewrite Hg, build_path by (done || lia). rewrite filter_one by (apply NoDup_seqs || lia). unfold unlink_counted.
    rewrite (stored_lookup m) by (done || lia). destruct (m !! (t, s)) as [v|] eqn:Hm; cbn [fmap option_fmap option_map].
    + rewrite (decide_True (P := s ∈ seqs_of t m)) by (apply elem_of_seqs; rewrite Hm; by eexists).
      do 3 eexists. split; [done|]. cbn [foldl length times]. split_and!; [by split_and!| |done]. by apply ready_delete.
    + rewrite (decide_False (P := s ∈ seqs_of t m)) by (rewrite elem_of_seqs, Hm; by intros []).
      do 3 eexists. split; [done|]. split_and!; [by split_and!|done..].
  - assert (s = 0) as -> by lia. rewrite filter_zero.
    pose proof (collected m g (c_read e) t Hst Hg Hd Hp) as HP.
    destruct (collect_granted (c_read e) t g n) as [n1 ->]. set (l := omap _ _) in *. case_decide as HE.
    + rewrite HE in HP. apply Permutation_nil_l in HP. rewrite <- HP. do 3 eexists. split; [done|].
      split_and!; [by split_and!|done..].
    + destruct (delete_loop_exact l m g t 0 Hr Ht) as (g' & -> & Hr' & Hs').
      { rewrite HP. apply NoDup_seqs. } { intros x Hx. apply elem_of_seqs. by rewrite <- HP. }
      assert (0 < length l)%nat by (destruct l; [done|cbn; lia]). destruct (Nat.ltb_spec 0 (0 + length l)); [|lia].
      do 3 eexists. split; [done|]. split_and!.
      * rewrite decide_False; [by split_and!|]. intros HE'. rewrite HE' in HP. by apply Permutation_nil_r in HP.
      * replace (foldl (fun m x => delete (t, x) m) m (seqs_of t m)) with (foldl (fun m x => delete (t, x) m) m l); [done|].
        apply map_eq. intros k. rewrite !foldl_delete. apply decide_ext. by rewrite HP.
      * by rewrite <- (Permutation_length HP).
Qed.

(** Tasks *)

Definition tid_of (x : cstr) : option cstr := fst <$> parse_cp_name x 128.

Lemma scan_ids_granted names items cap n :
  NoDup items -> (cap = 0%nat -> items = []) ->
  exists l cap' n', scan_ids names items cap (Heap [] n) = (l, cap', false, Heap [] n') /\ NoDup l /\
    (cap' = 0%nat -> l = []) /\ (forall t, t ∈ l <-> t ∈ items \/ exists x, x ∈ names /\ tid_of x = Some t).
Proof.
  revert items cap n. induction names as [|x names IH]; intros items cap n Hnd Hc; cbn [scan_ids].
  { do 3 eexists. split_and!; [done|done|done|]. intros t. split; [by left|]. intros [?|(x & Hx & _)]; [done|by apply elem_of_nil in Hx]. }
  assert (forall items' l : list cstr, (forall t, t ∈ items' <-> t ∈ items \/ tid_of x = Some t) ->
    (forall t, t ∈ l <-> t ∈ items' \/ exists x, x ∈ names /\ tid_of x = Some t) ->
    forall t, t ∈ l <-> t ∈ items \/ exists y, y ∈ x :: names /\ tid_of y = Some t) as Hstep.
  { intros items' l H1 H2 t. rewrite H2, H1. setoid_rewrite elem_of_cons. naive_solver. }
  unfold tid_of in Hstep at 1. destruct (parse_cp_name x 128) as [[u s]|] eqn:HP.
  - case_bool_decide as Hin.
    + destruct (IH items cap n Hnd Hc) as (l & cap' & n' & -> & H1 & H2 & H3). exists l, cap', n'. split_and!; [done..|].
      apply (Hstep items l); [|done]. intros t. cbn. naive_solver.
    + cbn [malloc answers negb live]. destruct (grow_push_granted (length items) cap (n + 1)) as (c1 & n1 & Hgr). rewrite Hgr.
      destruct (IH (items ++ [u]) c1 n1) as (l & cap' & n' & -> & H1 & H2 & H3).
      * apply NoDup_app. split_and!; [done|set_solver|apply NoDup_singleton].
      * intros ->. destruct (Nat.eq_dec cap 0%nat) as [->|Hz]; [rewrite (Hc eq_refl) in Hgr; cbn in Hgr; by simplify_eq|].
        unfold grow_push in Hgr. destruct (Nat.eqb_spec (length items) cap), (Nat.eqb_spec cap 0); cbn in Hgr; simplify_eq; lia.
      * exists l, cap', n'. split_and!; [done..|]. apply (Hstep (items ++ [u]) l); [|done]. intros t. cbn. set_solver.
  - destruct (IH items cap n Hnd Hc) as (l & cap' & n' & -> & H1 & H2 & H3). exists l, cap', n'. split_and!; [done..|].
    apply (Hstep items l); [|done]. intros t. cbn. naive_solver.
Qed.

Lemma ids_refines m g n : ready m g -> refines Ids m g n.
Proof.
  intros Hr. pose proof Hr as [Hst Hg Hi]. pose proof He as [Hd _ _ Hp _ _].
  unfold refines, cp_step, airy_checkpoint_ids, collect_task_ids. rewrite Hi. cbn [negb spec_step].
  destruct (scan_ids_granted (readdir (c_read e) g) [] 0 n) as (l & cap & n' & -> & H1 & H2 & H3); [apply NoDup_nil_2|done|].
  assert (l ≡ₚ ids_of m) as HP.
  { apply NoDup_Permutation; [done|apply NoDup_remove_dups|]. intros t. rewrite H3. unfold ids_of.
    rewrite elem_of_remove_dups. transitivity (exists s, s ∈ seqs_of t m).
    - setoid_rewrite <- (collected m g (c_read e) t Hst Hg Hd Hp). setoid_rewrite list_elem_of_omap. setoid_rewrite sel_Some.
      unfold tid_of. split.
      + intros [?%elem_of_nil|(x & Hx & HE)]; [done|]. destruct (parse_cp_name x 128) as [[u s]|] eqn:HP; [|done].
        injection HE as <-. by exists s, x.
      + intros (s & x & Hx & HE). right. exists x. by rewrite HE.
    - setoid_rewrite elem_of_seqs. setoid_rewrite list_elem_of_fmap. split.
      + intros [s [v Hv]]. exists (t, s). split; [done|]. apply list_elem_of_fmap. exists (t, s, v). by rewrite elem_of_map_to_list.
      + intros (k & -> & Hin). apply list_elem_of_fmap in Hin as ([[t' s] v] & -> & Hv%elem_of_map_to_list). by exists s, v. }
  destruct (Nat.eqb_spec cap 0) as [Hc|]; do 3 eexists; (split; [done|]); (split; [|done]); split_and!; cbn [a_ids]; try done.
  rewrite (H2 Hc) in HP. done.
Qed.

(** Cleaning up *)

Definition is_old (age : Z) (f : file) : bool := (u64 (mtime f) <=? c_time e) && (age <? c_time e - u64 (mtime f)).

Definition json_name (x : cstr) : bool :=
  negb ((length x <? 5)%nat || negb (bool_decide (drop (length x - 5) x = CHECKPOINT_FILE_EXTENSION))).

Definition cut_path (x : cstr) : cstr := snprintf_into MAX_CHECKPOINT_PATH [] (root ++ cs "/" ++ x).

Definition named (p x : cstr) : bool := json_name x && bool_decide (p = cut_path x).

Lemma cleanup_entry_lookup age fs x p :
  cleanup_entry root (c_time e) age fs x !! p = f ← fs !! p; if is_old age f && named p x then None else Some f.
Proof.
  unfold cleanup_entry, named, json_name, cut_path, is_old. set (q := snprintf_into _ _ _).
  destruct (_ || _); cbn [negb andb]; [destruct (fs !! p); cbn; by rewrite ?andb_false_r|].
  case_bool_decide as Hp.
  - subst p. destruct (fs !! q) as [f|] eqn:Hq; [|by rewrite Hq]. cbn. rewrite andb_true_r.
    destruct (_ && _); [apply lookup_delete_eq|done].
  - transitivity (fs !! p); [|destruct (fs !! p); cbn; by rewrite ?andb_false_r].
    destruct (fs !! q) as [f|]; [|done]. destruct (_ && _); [by apply lookup_delete_ne|done].
Qed.

Lemma cleanup_lookup age names fs p :
  foldl (cleanup_entry root (c_time e) age) fs names !! p =
    f ← fs !! p; if is_old age f && existsb (named p) names then None else Some f.
Proof.
  revert fs. induction names as [|x names IH]; intros fs; cbn [foldl existsb].
  - destruct (fs !! p); cbn; by rewrite ?andb_false_r.
  - rewrite IH, cleanup_entry_lookup. destruct (fs !! p) as [f|]; cbn; [|done].
    destruct (is_old age f) eqn:Ho, (named p x); cbn; rewrite ?Ho; done.
Qed.

Lemma json_cp_name t s : json_name (cp_name t s) = true.
Proof.
  unfold json_name. replace (cp_name t s) with ((CHECKPOINT_FILE_PREFIX ++ t ++ cs "_" ++ fmt_u s) ++ CHECKPOINT_FILE_EXTENSION)
    by (unfold cp_name; by rewrite <- !app_assoc).
  generalize (CHECKPOINT_FILE_PREFIX ++ t ++ cs "_" ++ fmt_u s). intros x. rewrite length_app.
  change (length CHECKPOINT_FILE_EXTENSION) with 5%nat.
  destruct (Nat.ltb_spec (length x + 5) 5); [lia|]. replace (length x + 5 - 5)%nat with (length x) by lia.
  rewrite drop_app_length. by rewrite bool_decide_eq_true_2.
Qed.

Lemma cut_cp_name t s : valid_task t -> 0 <= s < 2 ^ 64 -> cut_path (cp_name t s) = path root t s.
Proof.
  intros Ht Hs. pose proof (path_length t s Ht Hs). unfold cut_path, MAX_CHECKPOINT_PATH, snprintf_into. apply take_ge.
  change (root ++ cs "/" ++ cp_name t s) with (path root t s). lia.
Qed.

Lemma cleanup_refines m g n age cnt : ready m g -> 0 <= age -> refines (Cleanup age cnt) m g n.
Proof.
  intros [Hst Hg Hi] Ha. unfold refines, cp_step, airy_checkpoint_cleanup. rewrite Hi, Hg. cbn [negb spec_step].
  do 3 eexists. split; [done|]. split_and!; [by split_and!| |done]. apply ready_stats. split; [|done|done]. cbn [files set_files].
  destruct (Z.ltb_spec 0 age) as [Hpos|Hz].
  2: { assert (age = 0) as -> by lia. rewrite map_filter_id; [done|]. by left. }
  apply (stored_shrink m _ (files g)); [done| |].
  - intros p. rewrite cleanup_lookup. destruct (files g !! p) as [f|]; cbn; [|by left]. destruct (_ && _); auto.
  - intros t s v. rewrite map_lookup_filter_Some. destruct v as [cp tm].
    assert (m !! (t, s) = Some (cp, tm) -> is_Some (foldl (cleanup_entry root (c_time e) age) (files g) (readdir (c_read e) g) !! path root t s)
      <-> age = 0 \/ c_time e < tm \/ c_time e - tm <= age) as H; [|by split; intros [? ?%H]].
    intros Hm. rewrite cleanup_lookup, (st_files _ _ _ Hst _ _ _ _ Hm). cbn.
    destruct (st_keys _ _ _ Hst _ _ _ _ Hm) as (Ht & Hs & _ & _ & _ & Htm).
    assert (existsb (named (path root t s)) (readdir (c_read e) g) = true) as ->.
    { apply existsb_exists. exists (cp_name t s). split.
      - apply list_elem_of_In. unfold readdir. destruct He as [-> _ _ -> _ _]. rewrite Hg. do 2 right.
        apply elem_of_dir_names. split; [eexists; by apply (st_files _ _ _ Hst)|apply cp_name_file; [done|lia]].
      - unfold named. rewrite json_cp_name, cut_cp_name by (done || lia). by apply bool_decide_eq_true_2. }
    unfold is_old. cbn [mtime]. rewrite u64_small, andb_true_r by done.
    destruct (Z.leb_spec tm (c_time e)), (Z.ltb_spec age (c_time e - tm)); cbn [andb];
      (split; [intros [? ?]; (done || lia)|intros; try (by eexists); lia]).
Qed.

Lemma step_refines m g n o : ready m g -> op_ok o -> refines o m g n.
Proof.
  intros Hr Ho. destruct o as [cp|t s|t|t s| |age cnt|]; cbn [op_ok] in Ho.
  - by apply save_refines.
  - destruct Ho. by apply restore_refines.
  - by apply list_refines.
  - destruct Ho. by apply delete_refines.
  - by apply ids_refines.
  - by apply cleanup_refines.
  - unfold refines. cbn [cp_step spec_step]. unfold airy_checkpoint_get_stats. rewrite (rd_init _ _ Hr).
    do 3 eexists. split; [done|]. by split_and!.
Qed.
End calls.

Fixpoint cp_run (l : list (call_env * cp_op)) (g : cpm) (h : heap) : list answer * cpm * heap :=
  match l with
  | [] => ([], g, h)
  | (e, o) :: l' => let '(a, g, h) := cp_step e o g h in let '(r, g, h) := cp_run l' g h in (a :: r, g, h)
  end.

Fixpoint spec_run (l : list (call_env * cp_op)) (m : store) (s : airy_checkpoint_stats_t)
    : list answer * store * airy_checkpoint_stats_t :=
  match l with
  | [] => ([], m, s)
  | (e, o) :: l' =>
      let '(a, m, s) := spec_step e o m s in let '(r, m, s) := spec_run l' m s in (a :: r, m, s)
  end.

Lemma cp_run_refines l m g n :
  ready m g -> Forall (fun p => env_ok p.1 /\ op_ok p.2) l ->
  exists r g' n', cp_run l g (Heap [] n) = (r, g', Heap [] n') /\
    let '(r', m', s') := spec_run l m (g_checkpoint_stats g) in
    Forall2 answers_as r r' /\ ready m' g' /\ g_checkpoint_stats g' = s'.
Proof.
  revert m g n. induction l as [|[e o] l IH]; intros m g n Hr Hl; cbn [cp_run spec_run].
  { do 3 eexists. split; [done|]. by split_and!. }
  apply Forall_cons in Hl as [[He Ho] Hl]. cbn [fst snd] in *.
  destruct (step_refines e He m g n o Hr Ho) as (g1 & n1 & a & -> & H).
  destruct (spec_step e o m (g_checkpoint_stats g)) as [[b m1] s1]. destruct H as (H1 & H2 & <-).
  destruct (IH m1 g1 n1 H2 Hl) as (r & g2 & n2 & -> & H). exists (a :: r), g2, n2. split; [done|].
  destruct (spec_run l m1 (g_checkpoint_stats g1)) as [[r' m2] s2]. destruct H as (H3 & H4). split; [by constructor|done].
Qed.

End rooted.

(** ** The module starts *)

Definition fresh_cpm (fs : gmap cstr file) : cpm := Cpm false false [] no_stats None 0 fs.
Definition started (root : cstr) (fs : gmap cstr file) : cpm := (airy_checkpoint_init [] (Some root) true (fresh_cpm fs)).2.

Definition root_ok (root : cstr) : Prop := (0 < length root <= 850)%nat.

(** A directory without files that are named as checkpoints are. *)
Definition no_checkpoints (root : cstr) (fs : gmap cstr file) : Prop :=
  forall x, x ∈ dir_names root fs -> parse_cp_name x 128 = None.

Lemma started_ready root fs m : root_ok root -> stored root m fs -> ready root m (started root fs) /\ g_checkpoint_stats (started root fs) = no_stats.
Proof.
  intros Hr Hst. unfold started, airy_checkpoint_init, fresh_cpm. cbn [g_checkpoint_initialized default id].
  unfold MAX_CHECKPOINT_PATH. destruct Hr. destruct (Nat.eqb_spec (length root) 0), (Nat.leb_spec 1024 (length root)); try lia. done.
Qed.

Lemma stored_empty root fs : no_checkpoints root fs -> stored root ∅ fs.
Proof. intros H. split; [done|done|]. intros x t s Hx%H HP. congruence. Qed.


Definition good_env (t : Z) : call_env := CEnv (REnv true true true reverse 5) (SEnv true None true t).
Definition sample_cp (seq : Z) (json : cstr) : airy_task_checkpoint_t :=
  Cp (cs "plan_7") (cs "s-01") seq 17 (Some json) (length json) None 0 None 0 CHECKPOINT_STATE_PENDING
    (calculate_checksum (Some json) (length json)) [].

Lemma good_env_ok t : 0 <= t < 2 ^ 64 -> env_ok (good_env t).
Proof. intros H. split; [done..| |done|done]. intros l. cbn. apply reverse_Permutation. Qed.


Definition nonzero_b (s : cstr) : bool := forallb (fun c => negb (c =? 0)) s.

Lemma nonzero_bool s : nonzero_b s = true -> Forall (fun c => c <> 0) s.
Proof. intros H. apply Forall_forall. intros c Hc%list_elem_of_In ->. unfold nonzero_b in H. rewrite forallb_forall in H. by apply H in Hc. Qed.

Lemma sample_ok seq json :
  0 < seq < 2 ^ 64 -> nonzero_b json = true -> 0 <= calculate_checksum (Some json) (length json) ->
  (Z.of_nat (length (checkpoint_text (sample_cp seq json))) <=? MAX_FILE) = true -> op_ok (Save (sample_cp seq json)).
Proof.
  intros Hs Hj Hc Hl. split; [split; [cbn; lia|by apply (bool_decide_unpack _)]|]. split; [cbn; lia|]. split.
  - split; cbn [sample_cp sequence_num timestamp checksum task_id session_id state_json metadata]; try lia; try done; try (by apply nonzero_bool).
    intros s [= <-]. by apply nonzero_bool.
  - split; [cbn; lia|]. by apply Z.leb_le.
Qed.



(** ** A process that dies while it saves *)





(** ** Snapshots *)

Definition spaced (s : cstr) : cstr := map (fun c => if (c =? 10) || (c =? 13) then 32 else c) s.

Lemma spaced_line s : NL ∉ spaced s.
Proof.
  unfold spaced. intros Hin. apply list_elem_of_fmap in Hin as (c & HE & _). unfold NL in HE.
  destruct (Z.eqb_spec c 10), (Z.eqb_spec c 13); cbn in HE; lia.
Qed.

Lemma spaced_nonzero s : Forall (fun c => c <> 0) s -> Forall (fun c => c <> 0) (spaced s).
Proof. intros H. apply Forall_map. eapply Forall_impl; [exact H|]. intros c Hc. cbn. by destruct (_ || _). Qed.

Lemma fgets_nl n x r : (NL ∉ x) -> (length x < n)%nat -> fgets n (x ++ NL :: r) = (x ++ [NL], r).
Proof. apply fgets_line. Qed.

(** One line that is neither the task's nor the end of the head. *)
Lemma lines_skip fuel x r tid h :
  (NL ∉ x) -> Forall (fun c => c <> 0) x -> (length x < 255)%nat ->
  starts_with (cs "TaskID: ") (x ++ [NL]) = false -> starts_with (cs "---DATA---") (x ++ [NL]) = false ->
  lines_loop (S fuel) (x ++ NL :: r) tid h = lines_loop fuel r tid h.
Proof.
  intros Hx Hz Hl H1 H2. cbn [lines_loop]. rewrite fgets_nl by done.
  rewrite c_str_whole by (apply Forall_app; split; [done|by apply Forall_singleton]). rewrite H1, H2.
  by destruct x.
Qed.

Lemma lines_task fuel x r n :
  (NL ∉ x) -> Forall (fun c => c <> 0) x -> (length x < 200)%nat ->
  lines_loop (S fuel) (cs "TaskID: " ++ x ++ NL :: r) None (Heap [] n) = lines_loop fuel r (Some x) (Heap [] (n + 1)).
Proof.
  intros Hx Hz Hl. cbn [lines_loop]. rewrite app_assoc, fgets_nl.
  2: { rewrite not_elem_of_app. split; [by apply (bool_decide_unpack _)|done]. }
  2: { rewrite length_app. change (length (cs "TaskID: ")) with 8%nat. lia. }
  rewrite c_str_whole by (rewrite !Forall_app; split_and!; [by apply nonzero_bool|done|by apply nonzero_bool]).
  assert (starts_with (cs "TaskID: ") ((cs "TaskID: " ++ x) ++ [NL]) = true) as -> by (by apply bool_decide_eq_true_2).
  change (drop 8 ((cs "TaskID: " ++ x) ++ [NL])) with (x ++ [NL]). unfold chomp. rewrite last_snoc, bool_decide_eq_true_2 by done.
  rewrite length_app. cbn [length]. replace (length x + 1 - 1)%nat with (length x) by lia. rewrite take_app_length. done.
Qed.

Lemma dec_digits_short f n : (length (dec_digits f n) <= f)%nat.
Proof. revert n. induction f as [|f IH]; intros n; [done|]. cbn [dec_digits]. rewrite length_app. cbn [length]. specialize (IH (n / 10)). destruct (n <? 10); cbn [length]; lia. Qed.

Lemma number_line label n r fuel tid h :
  0 <= n -> (NL ∉ label) -> nonzero_b label = true -> (length label < 100)%nat ->
  starts_with (cs "TaskID: ") (label ++ [NL]) = false -> (8 <= length label)%nat ->
  starts_with (cs "---DATA---") (label ++ [NL]) = false -> (10 <= length label)%nat ->
  lines_loop (S fuel) (label ++ fmt_u n ++ NL :: r) tid h = lines_loop fuel r tid h.
Proof.
  intros Hn Hl1 Hl2 Hl3 Hs1 Hl4 Hs2 Hl5. rewrite app_assoc. pose proof (fmt_u_dec n Hn) as Hd. rewrite Forall_forall in Hd.
  assert (forall p, (length p <= length label)%nat -> starts_with p (label ++ [NL]) = false ->
    starts_with p ((label ++ fmt_u n) ++ [NL]) = false) as Hsw.
  { intros p Hp. unfold starts_with. rewrite <- app_assoc, !take_app_le by lia. done. }
  apply lines_skip.
  - rewrite not_elem_of_app. split; [done|]. intros Hin. by apply Hd in Hin.
  - apply Forall_app. split; [by apply nonzero_bool|]. by apply fmt_u_nonzero.
  - rewrite length_app. pose proof (dec_digits_short 20 n). unfold fmt_u. lia.
  - by apply Hsw.
  - by apply Hsw.
Qed.

Lemma snapshot_lines cp n fuel :
  Forall (fun c => c <> 0) (task_id cp) -> Forall (fun c => c <> 0) (session_id cp) ->
  (length (task_id cp) < 128)%nat -> (length (session_id cp) < 128)%nat -> 0 <= sequence_num cp -> 0 <= timestamp cp ->
  (6 <= fuel)%nat ->
  lines_loop fuel (snapshot_body cp) None (Heap [] n) = (Some (spaced (task_id cp)), Heap [] (n + 1)).
Proof.
  intros H1 H2 H3 H4 H5 H6 Hf. do 6 (destruct fuel as [|fuel]; [lia|]). clear Hf. unfold snapshot_body, sanitized.
  rewrite <- !app_assoc. change (map _ (task_id cp)) with (spaced (task_id cp)). change (map _ (session_id cp)) with (spaced (session_id cp)).
  pose proof (spaced_nonzero _ H1) as Z1. pose proof (spaced_nonzero _ H2) as Z2.
  pose proof (spaced_line (task_id cp)) as L1. pose proof (spaced_line (session_id cp)) as L2.
  assert (length (spaced (task_id cp)) < 128)%nat as H3' by (unfold spaced; by rewrite length_map).
  assert (length (spaced (session_id cp)) < 128)%nat as H4' by (unfold spaced; by rewrite length_map).
  generalize (fmt_u_nonempty 0). intros _. set (x := spaced (task_id cp)) in *. set (y := spaced (session_id cp)) in *.
  rewrite (app_assoc (cs "TaskID")). change (cs "TaskID" ++ cs ": ") with (cs "TaskID: "). cbn [app].
  rewrite lines_task by (done || lia).
  rewrite (app_assoc (cs "SessionID")), (app_assoc _ y), lines_skip.
  2: { rewrite not_elem_of_app. split; [by apply (bool_decide_unpack _)|done]. }
  2: { apply Forall_app. split; [by apply nonzero_bool|done]. }
  2: { rewrite length_app. change (length (cs "SessionID" ++ cs ": ")) with 11%nat. lia. }
  2: done. 2: done.
  rewrite !number_line by (done || lia || by apply (bool_decide_unpack _)).
  reflexivity.
Qed.

(** A snapshot of a task that has a checkpoint is written and gives back the
    task when it is read, with its line breaks as spaces. *)
Theorem snapshot_roundtrip root fs l e w t p :
  root_ok root -> no_checkpoints root fs -> Forall (fun p => env_ok p.1 /\ op_ok p.2) l -> env_ok e -> valid_task t ->
  latest t (spec_run l ∅ no_stats).1.2 <> 0 ->
  let '(_, g, h) := cp_run l (started root fs) (Heap [] 0) in
  let '(code, g', h') := airy_snapshot_create (c_read e) true w (Some t) (Some p) g h in
  code = AIRY_SUCCESS /\ (airy_snapshot_restore true (Some p) g' h').1 = (AIRY_SUCCESS, Some (spaced t)).
Proof.
  intros Hr Hn Hl He Ht Hne. destruct (started_ready root fs ∅ Hr (stored_empty _ _ Hn)) as [Hs0 HE].
  destruct (cp_run_refines root (proj2 Hr) l ∅ _ 0 Hs0 Hl) as (r & g & n & -> & H). rewrite HE in H.
  destruct (spec_run l ∅ no_stats) as [[r' m] s]. destruct H as (_ & Hg & _). cbn [fst snd] in Hne.
  destruct (latest_key root (proj2 Hr) m g t Hg) as [[? _]|[Hb [[cp tm] Hm]]]; [done|].
  unfold airy_snapshot_create. rewrite (rd_init _ _ _ Hg). cbn [negb].
  destruct (restore_latest root (proj2 Hr) e He m g n t Hg Ht) as [n' ->]. unfold restored. rewrite Hm. cbn [fmap option_fmap option_map compose fst].
  split; [done|]. unfold airy_snapshot_restore. cbn [g_checkpoint_initialized set_files set_stats files].
  rewrite (rd_init _ _ _ Hg), lookup_insert_eq. cbn [negb bytes].
  destruct (st_keys _ _ _ (rd_files _ _ _ Hg) _ _ _ _ Hm) as ([[_ Hl1] _] & Hs1 & Htk & Hsq & [[Hq1 Hq2 _ Z1 Z2 _ _] [Hl2 _]] & _).
  destruct (snapshot_text (image cp)) eqn:Htext; [done|]. rewrite <- Htext. clear Htext. unfold snapshot_text.
  change ([NL] ++ snapshot_body (image cp)) with (NL :: snapshot_body (image cp)).
  rewrite (fgets_nl 63 (cs "SNAPSHOT_V1") (snapshot_body (image cp))) by (by apply (bool_decide_unpack _)).
  assert (exists k, airy_checkpoint_destroy (Some (image cp)) (Heap [] n') = Heap [] k) as [k ->].
  { unfold airy_checkpoint_destroy, image. cbn [pending_nodes completed_nodes state_json free_nodes].
    destruct (state_json cp); by eexists. }
  rewrite snapshot_lines; [by rewrite <- Htk|done|done|cbn [task_id image]; by rewrite Htk|done|cbn; lia|cbn; lia|].
  unfold snapshot_body, sanitized. rewrite length_app. change (length (cs "TaskID" ++ ?x)) with (6 + length x)%nat. lia.
Qed.

Lemma snapshot_roundtrip_witness :
  let '(_, g, h) := cp_run [(good_env 1, Save (sample_cp 2 (cs "x")))] (started (cs "/cp") ∅) (Heap [] 0) in
  let '(code, g', h') := airy_snapshot_create (c_read (good_env 2)) true 2 (Some (cs "plan_7")) (Some (cs "/s")) g h in
  code = AIRY_SUCCESS /\ (airy_snapshot_restore true (Some (cs "/s")) g' h').1 = (AIRY_SUCCESS, Some (spaced (cs "plan_7"))).
Proof.
  apply (snapshot_roundtrip (cs "/cp") ∅ [(good_env 1, Save (sample_cp 2 (cs "x")))] (good_env 2) 2 (cs "plan_7") (cs "/s")).
  - split; cbn; lia.
  - intros x Hx. apply elem_of_dir_names in Hx as [[f Hf] _]. by rewrite lookup_empty in Hf.
  - apply Forall_singleton. split; [by apply good_env_ok|by apply sample_ok].
  - by apply good_env_ok.
  - repeat split; cbn; (lia || by apply (bool_decide_unpack _)).
  - vm_compute. discriminate.
Defined.

(** ** Memory *)

(** The blocks that belong to a checkpoint. *)
Definition strs_blocks (l : list (option cstr)) : Z := Z.of_nat (length (omap id l)).
Definition nodes_blocks (l : option (list (option cstr))) : Z := match l with None => 0 | Some l => 1 + strs_blocks l end.
Definition blocks (cp : airy_task_checkpoint_t) : Z :=
  1 + (if state_json cp then 1 else 0) + nodes_blocks (completed_nodes cp) + nodes_blocks (pending_nodes cp).

Lemma free_strs_live l h : live (free_strs l h) = live h - strs_blocks l.
Proof.
  unfold free_strs, strs_blocks. revert h. induction l as [|[s|] l IH]; intros h; cbn [foldl omap list_omap id length]; [lia| |].
  - rewrite IH. cbn [free_str free live]. lia.
  - apply IH.
Qed.

Lemma free_nodes_live l h : live (free_nodes l h) = live h - nodes_blocks l.
Proof. destruct l as [l|]; cbn [free_nodes nodes_blocks free live]; rewrite ?free_strs_live; lia. Qed.

Lemma malloc_live h :
  let '(ok, h') := malloc h in
  live h' = live h + (if ok then 1 else 0) /\ (false ∈ answers h' -> false ∈ answers h) /\ (ok = false -> false ∈ answers h).
Proof. unfold malloc. destruct (answers h) as [|b l]; [cbn; split; [lia|done]|]. destruct b; cbn; (split; [lia|]); (split; [by right|]); [done|by left]. Qed.

(** A step that allocates: the blocks [got] belong to what it made; it fails only
    when a request is refused. *)
Definition allocates (h h' : heap) (got : Z) (failed : bool) : Prop :=
  live h' = live h + got /\ (false ∈ answers h' -> false ∈ answers h) /\ (failed = true -> false ∈ answers h).

Lemma dup_loop_live src count dst h :
  (count <= length src)%nat ->
  exists r h', dup_loop src count dst h = Some (r, h') /\ (r = None \/ r = Some (dst ++ take count src)) /\
    allocates h h' (match r with None => - strs_blocks dst - 1 | Some l => strs_blocks l - strs_blocks dst end) (bool_decide (r = None)).
Proof.
  revert src dst h. induction count as [|count IH]; intros src dst h Hc; cbn [dup_loop].
  { exists (Some dst), h. rewrite take_0, app_nil_r. split; [done|]. split; [by right|]. split_and!; [lia|done|by rewrite bool_decide_eq_false_2]. }
  destruct src as [|s src]; [cbn in Hc; lia|]. cbn [length] in Hc.
  assert (forall d, strs_blocks (dst ++ [d]) = strs_blocks dst + if d then 1 else 0) as Hsn.
  { intros d. unfold strs_blocks. rewrite omap_app, length_app. destruct d; cbn; lia. }
  destruct s as [s|]; cbn [strdup].
  - pose proof (malloc_live h) as Hm. destruct (malloc h) as [[] h1]; destruct Hm as (Hm & Hm1 & Hm2).
    + destruct (IH src (dst ++ [Some s]) h1) as (r & h2 & -> & Hr & H1 & H2 & H3); [lia|]. exists r, h2. rewrite Hsn in H1. cbn [take].
      rewrite <- app_assoc in Hr. split; [done|]. split; [done|]. split_and!; [destruct r; lia|tauto|tauto].
    + do 2 eexists. split; [done|]. split; [by left|]. split_and!; [cbn [free live]; rewrite free_strs_live; lia| |intros _; by apply Hm2].
      cbn [free answers]. intros H. by apply Hm2.
  - destruct (IH src (dst ++ [None]) h) as (r & h2 & -> & Hr & H1 & H2 & H3); [lia|]. exists r, h2. rewrite Hsn in H1. cbn [take].
    rewrite <- app_assoc in Hr. split; [done|]. split; [done|]. split_and!; [destruct r; lia|tauto|tauto].
Qed.

(** The array that a count describes: there, and as long as the count says. *)
Definition array_ok (src : option (list (option cstr))) (count : nat) : Prop :=
  match src with None => count = 0%nat | Some l => (count <= length l)%nat end.

(** The copy of an array. *)
Definition copied (src : option (list (option cstr))) (count : nat) : option (list (option cstr)) :=
  if (0 <? count)%nat then take count <$> src else None.

Lemma array_dup_live src count h :
  array_ok src count ->
  exists r h', (if (0 <? count)%nat then safe_str_array_dup src count h else Some (None, h)) = Some (r, h') /\
    (r = copied src count \/ r = None /\ (0 < count)%nat) /\ allocates h h' (nodes_blocks r) ((0 <? count)%nat && bool_decide (r = None)).
Proof.
  intros Ha. unfold copied. destruct (Nat.ltb_spec 0 count) as [Hc|Hc]; cbn [andb].
  2: { do 2 eexists. split; [done|]. split; [by left|]. cbn. split_and!; [lia|done|done]. }
  destruct src as [src|]; cbn [array_ok] in Ha; [|lia]. unfold safe_str_array_dup. destruct (Nat.eqb_spec count 0); [lia|].
  pose proof (malloc_live h) as Hm. destruct (malloc h) as [[] h1]; destruct Hm as (Hm & Hm1 & Hm2).
  - destruct (dup_loop_live src count [] h1 Ha) as (r & h2 & -> & Hr & H1 & H2 & H3). change (strs_blocks []) with 0 in H1. exists r, h2.
    split; [done|]. split; [destruct Hr as [->| ->]; [by right|by left]|]. split_and!; [destruct r; cbn [nodes_blocks]; lia|tauto|tauto].
  - do 2 eexists. split; [done|]. split; [by right|]. split_and!; [cbn [nodes_blocks]; lia|done|intros _; by apply Hm2].
Qed.

Lemma copy_nodes_live completed ccount pending pcount h :
  array_ok completed ccount -> array_ok pending pcount ->
  exists r h', copy_nodes completed ccount pending pcount h = Some (r, h') /\ (r = None \/ r = Some (copied completed ccount, copied pending pcount)) /\
    allocates h h' (match r with None => 0 | Some (c, p) => nodes_blocks c + nodes_blocks p end) (bool_decide (r = None)).
Proof.
  intros Hc Hp. unfold copy_nodes. destruct (array_dup_live completed ccount h Hc) as (c & h1 & -> & Hc1 & Hc2 & Hc3 & Hc4). cbn [mbind option_bind].
  destruct ((0 <? ccount)%nat && bool_decide (c = None)) eqn:Ec.
  { apply andb_true_iff in Ec as [_ ->%bool_decide_eq_true]. do 2 eexists. split; [done|]. split; [by left|]. by split_and!. }
  destruct (array_dup_live pending pcount h1 Hp) as (p & h2 & -> & Hp1 & Hp2 & Hp3 & Hp4). cbn [mbind option_bind].
  assert (c = copied completed ccount) as Hcc. { destruct Hc1 as [->|[-> Hpos%Nat.ltb_lt]]; [done|]. by rewrite Hpos in Ec. }
  destruct ((0 <? pcount)%nat && bool_decide (p = None)) eqn:Ep.
  - apply andb_true_iff in Ep as [_ ->%bool_decide_eq_true]. do 2 eexists. split; [done|]. split; [by left|]. cbn [bool_decide].
    assert (answers (free_nodes c h2) = answers h2) as Ha. { destruct c as [c|]; [|done]. cbn [free_nodes free answers]. clear. revert h2. unfold free_strs. induction c as [|[s|] c IH]; intros h; [done| |]; cbn [foldl]; rewrite IH; done. }
    split_and!; [rewrite free_nodes_live; cbn [nodes_blocks] in Hp2; lia|rewrite Ha; tauto|intros _; by apply Hc3, Hp4].
  - assert (p = copied pending pcount) as Hpp. { destruct Hp1 as [->|[-> Hpos%Nat.ltb_lt]]; [done|]. by rewrite Hpos in Ep. }
    do 2 eexists. split; [done|]. split; [right; by rewrite Hcc, Hpp|]. split_and!; [lia|tauto|done].
Qed.

(** C40: With node arrays that are as long as their counts say, creating a
    checkpoint returns, whatever the allocator answers.  It fails only when the
    module is not initialised, a task or a state is missing, or a request for
    memory is refused, and then it leaves no block behind.  A checkpoint that is
    created holds copies of what it was given, the task and the session cut to
    127 bytes, owns exactly the blocks that were allocated for it, and
    destroying it frees them. *)
Theorem create_memory task session seq json completed ccount pending pcount now g h :
  array_ok completed ccount -> array_ok pending pcount ->
  exists code r h', airy_checkpoint_create task session seq json completed ccount pending pcount now g h = Some (code, r, h') /\
  match r with
  | None => live h' = live h /\
      (code = AIRY_ENOTINIT /\ g_checkpoint_initialized g = false \/ code = AIRY_EINVAL /\ (task = None \/ json = None) \/
       code = AIRY_ENOMEM /\ false ∈ answers h)
  | Some cp => code = AIRY_SUCCESS /\ live h' = live h + blocks cp /\ live (airy_checkpoint_destroy r h') = live h /\
      task_id cp = take 127 (default [] task) /\ session_id cp = take 127 (default [] session) /\ sequence_num cp = seq /\ timestamp cp = now /\
      state_json cp = json /\ completed_nodes cp = copied completed ccount /\ pending_nodes cp = copied pending pcount
  end.
Proof.
  intros Hc Hp. unfold airy_checkpoint_create. destruct (g_checkpoint_initialized g); cbn [negb]; [|do 3 eexists; split; [done|]; split; [done|by left]].
  destruct task as [t|]; [|do 3 eexists; split; [done|]; split; [done|right; left; by eauto]].
  destruct json as [js|]; [|do 3 eexists; split; [done|]; split; [done|right; left; by eauto]].
  pose proof (malloc_live h) as H1. destruct (malloc h) as [[] h1]; destruct H1 as (H1 & H1' & H1''); cbn [negb];
    [|do 3 eexists; split; [done|]; split; [lia|right; right; by auto]].
  pose proof (malloc_live h1) as H2. destruct (malloc h1) as [[] h2]; destruct H2 as (H2 & H2' & H2''); cbn [negb];
    [|do 3 eexists; split; [done|]; split; [cbn; lia|right; right; by auto]].
  destruct (copy_nodes_live completed ccount pending pcount h2 Hc Hp) as (r & h3 & -> & Hr & H3 & H3' & H3''). cbn [mbind option_bind].
  destruct Hr as [->| ->]; [do 3 eexists; split; [done|]; split; [cbn [free live]; lia|right; right; by auto]|].
  do 3 eexists. split; [done|]. unfold blocks. cbn [state_json completed_nodes pending_nodes airy_checkpoint_destroy free_str].
  split_and!; try done; [lia|]. unfold free at 1. cbn [live]. rewrite !free_nodes_live. cbn [free live]. lia.
Qed.

Lemma create_memory_witness :
  let h := Heap [true; true; true; true; true; false] 0 in
  exists code r h', airy_checkpoint_create (Some (cs "plan")) None 1 (Some (cs "{}")) (Some [Some (cs "a"); None]) 2 (Some [Some (cs "b")]) 1 9 (started (cs "/cp") ∅) h
    = Some (code, r, h') /\ code = AIRY_ENOMEM /\ r = None /\ live h' = 0.
Proof.
  destruct (create_memory (Some (cs "plan")) None 1 (Some (cs "{}")) (Some [Some (cs "a"); None]) 2 (Some [Some (cs "b")]) 1 9 (started (cs "/cp") ∅)
    (Heap [true; true; true; true; true; false] 0)) as (code & r & h' & E & H); [cbn; lia|cbn; lia|].
  exists code, r, h'. split; [exact E|]. vm_compute in E. injection E as <- <- <-. by destruct H as [H _].
Defined.

(** ** Findings *)

(** A disk that is full: the save is reported as a success, the state is lost. *)
Lemma full_disk_saves :
  let '(code, _, g) := airy_checkpoint_save (SEnv true (Some 60%nat) true 8) (Some (sample_cp 3 (cs "x"))) (started (cs "/cp") ∅) in
  let '(code', cp, _, _) := airy_checkpoint_restore (c_read (good_env 9)) (Some (cs "plan_7")) 3 g (Heap [] 0) in
  code = AIRY_SUCCESS /\ code' = AIRY_SUCCESS /\ cp ≫= state_json = None.
Proof. vm_compute. done. Qed.

(** What is restored always verifies: the checksum of the file is not read. *)
Lemma restored_verifies t text now h cp h' :
  parse_checkpoint t text now h = (cp, h') -> state cp <> CHECKPOINT_STATE_INVALID ->
  (airy_checkpoint_verify (Some cp)).2 = negb (bool_decide (state_json cp = None)) && negb (state_size cp =? 0)%nat.
Proof.
  unfold parse_checkpoint, airy_checkpoint_verify. destruct (json_extract_string text (cs "state") h) as [ss h1].
  destruct (json_extract_string text (cs "state_json") h1) as [sj h2].
  destruct (json_extract_string text (cs "session_id") _) as [sid h3]. intros [= <- _] Hs.
  cbn [state state_json state_size checksum] in *. apply Z.eqb_neq in Hs. rewrite Hs.
  destruct sj as [[|c js]|]; [done| |done]. rewrite bool_decide_eq_false_2 by done. by rewrite Z.eqb_refl.
Qed.

(** Only the last 32 bytes of a state are in its checksum. *)
Lemma checksum_forgets :
  let a := cs "{'step':1, 'rest': 'the same thirty-two bytes'}" in
  let b := cs "{'step':9, 'rest': 'the same thirty-two bytes'}" in
  a <> b /\ calculate_checksum (Some a) (length a) = calculate_checksum (Some b) (length b).
Proof. vm_compute. split; [discriminate|done]. Qed.

(** A text that does not fit while it is read is dropped, with a success and a
    block that nobody frees. *)
Lemma refused_growth_leaks :
  let g := started (cs "/cp") (<[cs "/cp/checkpoint_plan_7_3.json" := File (checkpoint_text (sample_cp 3 (replicate 600 97))) 8]> ∅) in
  let '(code, cp, _, h) := airy_checkpoint_restore (c_read (good_env 9)) (Some (cs "plan_7")) 3 g (Heap [true; true; true; true; false] 0) in
  code = AIRY_SUCCESS /\ cp ≫= state_json = None /\ live (airy_checkpoint_destroy cp h) = 1.
Proof. vm_compute. done. Qed.
