(* ===== verification/Ime.v ===== *)
(** * The pinyin dictionary: utils/ime/airy_ime.c and gen_ime_dict.py

    The dictionary file that [serialize] of gen_ime_dict.py writes, its loading
    and prefix queries.  The file is a list of bytes; a pointer into it is an
    offset, and reading outside the file is [None]. *)
From S2P Require Import Prelude TaskDesc.

(** ** Strings *)

(** [strcmp] of two strings of bytes. *)
Fixpoint strcmp (a b : cstr) : Z :=
  match a, b with
  | [], [] => 0
  | [], y :: _ => - y
  | x :: _, [] => x
  | x :: a', y :: b' => if x =? y then strcmp a' b' else x - y
  end.

(** ** Constants *)

Definition AIRY_IME_MAGIC : cstr := cs "AIRYIME1".
Definition AIRY_IME_VERSION : Z := 1.
Definition AIRY_IME_HEADER_SIZE : nat := 24.
Definition AIRY_IME_ENTRY_SIZE : nat := 12.
Definition AIRY_IME_CAND_SIZE : nat := 8.
Definition AIRY_IME_QUERY_CAP : nat := 4096.

(** ** Reading *)

Definition airy_ime_rd_u32 (buf : cstr) (p : nat) : option Z :=
  a ← buf !! p; b ← buf !! (p + 1)%nat; c ← buf !! (p + 2)%nat; d ← buf !! (p + 3)%nat;
  Some (Z.lor (Z.lor (Z.lor a (Z.shiftl b 8)) (Z.shiftl c 16)) (Z.shiftl d 24)).

Definition airy_ime_rd_u16 (buf : cstr) (p : nat) : option Z :=
  a ← buf !! p; b ← buf !! (p + 1)%nat; Some (Z.lor a (Z.shiftl b 8)).

(** The string that starts some bytes; [None] when nothing ends it. *)
Fixpoint read_string (s : cstr) : option cstr :=
  match s with [] => None | c :: s' => if c =? 0 then Some [] else cons c <$> read_string s' end.

Definition string_at (buf : cstr) (p : nat) : option cstr := read_string (drop p buf).

(** ** CRC-32 by a table *)

Definition table_step (c : Z) : Z := if Z.testbit c 0 then Z.lxor 0xEDB88320 (Z.shiftr c 1) else Z.shiftr c 1.
Definition crc_table : list Z := map (fun n => Nat.iter 8 table_step n) (seqZ 0 256).

Definition table_byte (crc b : Z) : Z :=
  Z.lxor (nth (Z.to_nat (Z.land (Z.lxor crc b) 0xFF)) crc_table 0) (Z.shiftr crc 8).

Definition airy_ime_crc32 (data : cstr) : Z := Z.lxor (foldl table_byte 0xFFFFFFFF data) 0xFFFFFFFF.

(** ** The dictionary *)

Record airy_ime := Ime_ { buf : cstr; size : nat; entry_count : nat; pool_off : nat }.

Definition entries_at (ime : airy_ime) (idx : nat) : nat := (AIRY_IME_HEADER_SIZE + idx * AIRY_IME_ENTRY_SIZE)%nat.

Definition airy_ime_entry_py (ime : airy_ime) (idx : nat) : option cstr :=
  off ← airy_ime_rd_u32 (buf ime) (entries_at ime idx); string_at (buf ime) (pool_off ime + Z.to_nat off).

(** The bisection; [fuel] bounds its rounds, each of which shortens the range. *)
Fixpoint bisect (fuel : nat) (ime : airy_ime) (key : cstr) (lo hi : nat) : option nat :=
  if (lo <? hi)%nat then
    match fuel with
    | O => None
    | S fuel' =>
        let mid := (lo + (hi - lo) / 2)%nat in
        py ← airy_ime_entry_py ime mid;
        if strcmp py key <? 0 then bisect fuel' ime key (S mid) hi else bisect fuel' ime key lo mid
    end
  else Some lo.

Definition airy_ime_lower_bound (ime : airy_ime) (key : cstr) : option nat := bisect (entry_count ime) ime key 0 (entry_count ime).

(** [path]: the argument; [file]: what the path names, [None] when it does not
    open or has no length; the other arguments are the answers of the allocator
    and whether the read is complete. *)
Definition airy_ime_load (path : option cstr) (file : option cstr) (calloc_ok malloc_ok fread_ok : bool) : option airy_ime :=
  match path with
  | None | Some [] => None
  | Some _ =>
      f ← file;
      if (length f =? 0)%nat || negb calloc_ok || negb malloc_ok || negb fread_ok then None
      else if (length f <? AIRY_IME_HEADER_SIZE)%nat || negb (bool_decide (take 8 f = AIRY_IME_MAGIC)) then None
      else
        ver ← airy_ime_rd_u32 f 8;
        count ← airy_ime_rd_u32 f 12;
        crc ← airy_ime_rd_u32 f 16;
        off ← airy_ime_rd_u32 f 20;
        if negb (ver =? AIRY_IME_VERSION) then None
        else if Z.of_nat ((length f - AIRY_IME_HEADER_SIZE) / AIRY_IME_ENTRY_SIZE) <? count then None
        else if (off <? u32 (Z.of_nat AIRY_IME_HEADER_SIZE + u32 (count * Z.of_nat AIRY_IME_ENTRY_SIZE))) ||
                (Z.of_nat (length f) <? off) then None
        else if negb (airy_ime_crc32 (drop AIRY_IME_HEADER_SIZE f) =? crc) then None
        else Some (Ime_ f (length f) (Z.to_nat count) (Z.to_nat off))
  end.

(** ** Queries *)

(** A candidate: where its text is, and its frequency. *)
Record airy_ime_cand_t := Cand { text : nat; freq : Z }.

Fixpoint cand_loop (ime : airy_ime) (cb k todo : nat) (cands : list airy_ime_cand_t) : option (list airy_ime_cand_t) :=
  match todo with
  | O => Some cands
  | S todo' =>
      if (length cands <? AIRY_IME_QUERY_CAP)%nat then
        text_off ← airy_ime_rd_u32 (buf ime) (cb + k * AIRY_IME_CAND_SIZE);
        fr ← airy_ime_rd_u32 (buf ime) (cb + k * AIRY_IME_CAND_SIZE + 4);
        cand_loop ime cb (S k) todo' (cands ++ [Cand (pool_off ime + Z.to_nat text_off) fr])
      else Some cands
  end.

(** The entries from [idx] on, [todo] of them. *)
Fixpoint scan_entries (ime : airy_ime) (pinyin : cstr) (idx todo : nat) (cands : list airy_ime_cand_t)
    : option (list airy_ime_cand_t) :=
  match todo with
  | O => Some cands
  | S todo' =>
      py ← airy_ime_entry_py ime idx;
      if negb (bool_decide (take (length pinyin) py = pinyin)) then Some cands
      else
        cand_off ← airy_ime_rd_u32 (buf ime) (entries_at ime idx + 4);
        cand_count ← airy_ime_rd_u16 (buf ime) (entries_at ime idx + 8);
        cands ← cand_loop ime (entries_at ime (entry_count ime) + Z.to_nat cand_off) 0 (Z.to_nat cand_count) cands;
        scan_entries ime pinyin (S idx) todo' cands
  end.

(** Whether a candidate moves behind [tmp]: texts are looked at only when the
    frequencies are equal. *)
Definition moves (ime : airy_ime) (c tmp : airy_ime_cand_t) : option bool :=
  if freq c <? freq tmp then Some true
  else if freq c =? freq tmp then
    s ← string_at (buf ime) (text c); t ← string_at (buf ime) (text tmp); Some (0 <? strcmp s t)
  else Some false.

(** The inner loop of the insertion sort, from the end of the sorted front. *)
Fixpoint cand_shift (ime : airy_ime) (tmp : airy_ime_cand_t) (front : list airy_ime_cand_t) : option (list airy_ime_cand_t) :=
  match front with
  | [] => Some [tmp]
  | c :: front' =>
      m ← moves ime c tmp;
      if (m : bool) then cons c <$> cand_shift ime tmp front' else Some (tmp :: front)
  end.

Fixpoint sort_loop (ime : airy_ime) (front todo : list airy_ime_cand_t) : option (list airy_ime_cand_t) :=
  match todo with
  | [] => Some (reverse front)
  | c :: todo' => front ← cand_shift ime c front; sort_loop ime front todo'
  end.

(** The candidates that are written out; their number is the result. *)
Definition airy_ime_query (ime : option airy_ime) (pinyin : option cstr) (out_cap : Z) (malloc_ok : bool)
    : option (list airy_ime_cand_t) :=
  match ime, pinyin with
  | Some ime, Some q =>
      if out_cap <=? 0 then Some []
      else if (length q =? 0)%nat || negb (forallb (fun c => (97 <=? c) && (c <=? 122)) q) then Some []
      else if negb malloc_ok then Some []
      else
        idx ← airy_ime_lower_bound ime q;
        cands ← scan_entries ime q idx (entry_count ime - idx) [];
        sorted ← sort_loop ime [] cands;
        Some (take (Z.to_nat out_cap) sorted)
  | _, _ => Some []
  end.

(** ** The writer (gen_ime_dict.py)

    A dictionary is the list of its items: a pinyin and its candidates, each a
    text and a frequency, with the texts as UTF-8.  [struct.pack] refuses
    numbers that do not fit ([None]). *)

Abbreviation item := (cstr * list (cstr * Z))%type.

Definition pack (n : nat) (v : Z) : option cstr := if (0 <=? v) && (v <? 2 ^ (8 * Z.of_nat n)) then Some (le_bytes n v) else None.

(** Order of byte strings. *)
Definition str_le (a b : cstr) : Prop := strcmp a b <= 0.
Definition item_le (a b : item) : Prop := str_le a.1 b.1.

#[export] Instance item_le_dec a b : Decision (item_le a b).
Proof. unfold item_le, str_le. apply _. Defined.

Definition pool_t := (cstr * gmap cstr nat)%type.

Definition intern (s : cstr) (p : pool_t) : nat * pool_t :=
  match p.2 !! s with
  | Some off => (off, p)
  | None => (length p.1, (p.1 ++ s ++ [0], <[s := length p.1]> p.2))
  end.

Fixpoint write_cands (cands : list (cstr * Z)) (blob : cstr) (p : pool_t) : option (cstr * pool_t) :=
  match cands with
  | [] => Some (blob, p)
  | (t, f) :: cands' =>
      let '(off, p) := intern t p in
      a ← pack 4 (Z.of_nat off); b ← pack 4 f; write_cands cands' (blob ++ a ++ b) p
  end.

Fixpoint write_items (l : list item) (table blob : cstr) (p : pool_t) : option (cstr * cstr * pool_t) :=
  match l with
  | [] => Some (table, blob, p)
  | (py, cands) :: l' =>
      let '(p_off, p) := intern py p in
      let c_off := length blob in
      '(blob, p) ← write_cands cands blob p;
      a ← pack 4 (Z.of_nat p_off); b ← pack 4 (Z.of_nat c_off); c ← pack 2 (Z.of_nat (length cands)); d ← pack 2 0;
      write_items l' (table ++ a ++ b ++ c ++ d) blob p
  end.

Definition serialize (entries : list item) : option cstr :=
  '(table, blob, p) ← write_items (merge_sort item_le entries) [] [] ([], ∅);
  let data := table ++ blob ++ p.1 in
  ver ← pack 4 1;
  count ← pack 4 (Z.of_nat (length entries));
  crc ← pack 4 (airy_task_desc_crc32 data);
  off ← pack 4 (Z.of_nat (24 + length table + length blob));
  Some (AIRY_IME_MAGIC ++ ver ++ count ++ crc ++ off ++ data).

(** ** The table computes the same CRC *)

Lemma table_step_shift c : table_step c = crc_shift c.
Proof. unfold table_step, crc_shift. destruct (Z.testbit c 0); [apply Z.lxor_comm|done]. Qed.

Lemma iter_table n c : Nat.iter n table_step c = Nat.iter n crc_shift c.
Proof. induction n as [|n IH]; [done|]. cbn [Nat.iter nat_rect]. unfold Nat.iter in IH. by rewrite IH, table_step_shift. Qed.

Lemma nth_table n : 0 <= n < 256 -> nth (Z.to_nat n) crc_table 0 = Nat.iter 8 crc_shift n.
Proof.
  intros Hn. rewrite <- iter_table. unfold crc_table. apply nth_lookup_Some. rewrite list_lookup_fmap.
  rewrite lookup_seqZ_lt by lia. cbn [fmap option_fmap option_map]. do 2 f_equal. lia.
Qed.

Lemma table_byte_crc crc b : word32 crc -> is_byte b -> table_byte crc b = crc_byte crc b.
Proof.
  intros Hc Hb. unfold table_byte, crc_byte. change 0xFF with (Z.ones 8). rewrite Z.land_ones by lia.
  rewrite nth_table by (apply Z.mod_pos_bound; lia).
  assert (Z.lxor crc b = Z.lxor (Z.lxor crc b mod 2 ^ 8) (2 ^ 8 * Z.shiftr crc 8)) as HE.
  { apply Z.bits_inj'. intros i Hi. rewrite !Z.lxor_spec, (Z.mul_comm (2 ^ 8)), <- Z.shiftl_mul_pow2, Z.shiftl_spec by lia.
    destruct (Z.lt_ge_cases i 8).
    - rewrite Z.mod_pow2_bits_low, Z.lxor_spec, (Z.testbit_neg_r _ (i - 8)) by lia. by rewrite xorb_false_r.
    - rewrite Z.mod_pow2_bits_high, Z.shiftr_spec by lia. replace (i - 8 + 8) with i by lia.
      rewrite (testbit_high b 8) by (unfold is_byte in Hb; lia). by rewrite xorb_false_r, xorb_false_l. }
  rewrite HE at 2. change (2 ^ 8) with (2 ^ Z.of_nat 8) at 2. by rewrite iter_shift_lxor.
Qed.

Lemma crc_agrees data : Forall is_byte data -> airy_ime_crc32 data = airy_task_desc_crc32 data.
Proof.
  intros Hd. unfold airy_ime_crc32, airy_task_desc_crc32, not32, crc_bytes. f_equal.
  assert (forall c, word32 c -> foldl table_byte c data = foldl crc_byte c data) as H; [|apply H; unfold word32; lia].
  induction Hd as [|b data Hb _ IH]; intros c Hc; [done|]. cbn [foldl]. rewrite table_byte_crc by done.
  apply IH. by apply crc_byte_word.
Qed.

(** ** Bytes at an offset *)

Definition at_ (b : cstr) (p : nat) (x : cstr) : Prop := take (length x) (drop p b) = x.

Lemma at_here pre x post : at_ (pre ++ x ++ post) (length pre) x.
Proof. unfold at_. by rewrite drop_app_length, take_app_length. Qed.

Lemma at_length b p x : at_ b p x -> x <> [] -> (p + length x <= length b)%nat.
Proof. unfold at_. intros H Hx. apply (f_equal length) in H. rewrite length_take, length_drop in H. destruct x; [done|]. cbn [length] in *. lia. Qed.

Lemma at_more b p x t : at_ b p x -> at_ (b ++ t) p x.
Proof.
  intros H. destruct (decide (x = [])) as [->|Hx]; [done|]. pose proof (at_length _ _ _ H Hx). unfold at_ in *.
  rewrite drop_app_le by lia. rewrite take_app_le; [done|]. rewrite length_drop. lia.
Qed.

Lemma at_behind pre b p x : at_ b p x -> at_ (pre ++ b) (length pre + p) x.
Proof. unfold at_. by rewrite drop_app_add'. Qed.

Lemma at_split b p x y : at_ b p (x ++ y) <-> at_ b p x /\ at_ b (p + length x) y.
Proof.
  unfold at_. rewrite length_app, <- drop_drop. set (l := drop p b). rewrite <- take_take_drop. split.
  - intros H. assert (length (take (length x) l) = length x) as HL.
    { apply (f_equal length) in H. rewrite !length_app, !length_take, length_drop in *. lia. }
    by apply app_inj_1 in H.
  - intros [-> ->]. done.
Qed.

Lemma at_lookup b p x i c : at_ b p x -> x !! i = Some c -> b !! (p + i)%nat = Some c.
Proof.
  unfold at_. intros H Hi. rewrite <- lookup_drop, <- (lookup_take_lt _ (length x)); [by rewrite H|].
  by apply lookup_lt_Some in Hi.
Qed.

Lemma lor_bytes a b k : 0 <= k -> 0 <= a < 2 ^ k -> is_byte b -> Z.lor a (Z.shiftl b k) = a + b * 2 ^ k /\ 0 <= a + b * 2 ^ k < 2 ^ (k + 8).
Proof.
  intros Hk Ha Hb. rewrite Z.lor_comm, lor_shiftl_add by done. split; [lia|]. unfold is_byte in Hb.
  rewrite Z.pow_add_r by lia. change (2 ^ 8) with 256. nia.
Qed.

Lemma rd_u32_at b p v : 0 <= v < 2 ^ 32 -> at_ b p (le_bytes 4 v) -> airy_ime_rd_u32 b p = Some v.
Proof.
  intros Hv H. unfold airy_ime_rd_u32. cbn [le_bytes] in H.
  set (q1 := v / 256) in *. set (q2 := q1 / 256) in *. set (q3 := q2 / 256) in *.
  pose proof (Z.div_mod v 256 ltac:(lia)) as E0. pose proof (Z.div_mod q1 256 ltac:(lia)) as E1.
  pose proof (Z.div_mod q2 256 ltac:(lia)) as E2. fold q1 in E0. fold q2 in E1. fold q3 in E2.
  assert (forall z, is_byte (z mod 256)) as Hm by (intros z; unfold is_byte; apply Z.mod_pos_bound; lia).
  assert (0 <= q3 < 256) as Hq.
  { unfold q3, q2, q1. rewrite !Z.div_div by lia. split; [apply Z.div_pos; lia|apply Z.div_lt_upper_bound; lia]. }
  rewrite <- (Nat.add_0_r p) at 1.
  rewrite (at_lookup _ _ _ 0 (v mod 256) H), (at_lookup _ _ _ 1 (q1 mod 256) H), (at_lookup _ _ _ 2 (q2 mod 256) H),
    (at_lookup _ _ _ 3 (q3 mod 256) H) by done.
  cbn [mbind option_bind]. f_equal. rewrite (Z.mod_small q3) by lia.
  destruct (lor_bytes (v mod 256) (q1 mod 256) 8) as [-> B1]; [lia|apply Hm|apply Hm|].
  destruct (lor_bytes (v mod 256 + q1 mod 256 * 2 ^ 8) (q2 mod 256) 16) as [-> B2]; [lia|done|apply Hm|].
  destruct (lor_bytes (v mod 256 + q1 mod 256 * 2 ^ 8 + q2 mod 256 * 2 ^ 16) q3 24) as [-> _]; [lia|done|done|]. lia.
Qed.

Lemma rd_u16_at b p v : 0 <= v < 2 ^ 16 -> at_ b p (le_bytes 2 v) -> airy_ime_rd_u16 b p = Some v.
Proof.
  intros Hv H. unfold airy_ime_rd_u16. cbn [le_bytes] in H. set (q1 := v / 256) in *.
  pose proof (Z.div_mod v 256 ltac:(lia)) as E0. fold q1 in E0.
  assert (forall z, is_byte (z mod 256)) as Hm by (intros z; unfold is_byte; apply Z.mod_pos_bound; lia).
  assert (0 <= q1 < 256) as Hq by (unfold q1; split; [apply Z.div_pos; lia|apply Z.div_lt_upper_bound; lia]).
  rewrite <- (Nat.add_0_r p) at 1.
  rewrite (at_lookup _ _ _ 0 (v mod 256) H), (at_lookup _ _ _ 1 (q1 mod 256) H) by done.
  cbn [mbind option_bind]. f_equal. rewrite (Z.mod_small q1) by lia.
  destruct (lor_bytes (v mod 256) q1 8) as [-> _]; [lia|apply Hm|done|]. lia.
Qed.

Lemma string_at_text b p s : Forall (fun c => c <> 0) s -> at_ b p (s ++ [0]) -> string_at b p = Some s.
Proof.
  unfold at_, string_at. intros Hs H. set (l := drop p b) in *. assert (exists r, l = s ++ 0 :: r) as [r ->].
  { exists (drop (length (s ++ [0])) l). rewrite (cons_middle 0), app_assoc.
    pose proof (take_drop (length (s ++ [0])) l) as HT. by rewrite H in HT. }
  clear H. induction Hs as [|c s Hc _ IH]; [done|]. cbn [app read_string]. destruct (Z.eqb_spec c 0); [done|]. by rewrite IH.
Qed.

(** ** Order *)

Lemma strcmp_refl a : strcmp a a = 0.
Proof. induction a as [|x a IH]; [done|]. cbn. by rewrite Z.eqb_refl. Qed.

Definition pos_str (s : cstr) : Prop := Forall (fun c => 0 < c) s.

Lemma strcmp_antisym a b : pos_str a -> pos_str b -> strcmp a b <= 0 -> strcmp b a <= 0 -> a = b.
Proof.
  intros Ha. revert b. induction Ha as [|x a Hx Ha IH]; intros [|y b] Hb; cbn [strcmp]; [done| | |].
  - apply Forall_cons in Hb as [Hy _]. lia.
  - lia.
  - apply Forall_cons in Hb as [Hy Hb]. rewrite (Z.eqb_sym y x). destruct (Z.eqb_spec x y) as [->|]; [|lia].
    intros H1 H2. f_equal. by apply IH.
Qed.

Lemma strcmp_flip a b : pos_str a -> pos_str b -> (strcmp a b < 0 <-> 0 < strcmp b a).
Proof.
  intros Ha. revert b. induction Ha as [|x a Hx Ha IH]; intros [|y b] Hb; cbn [strcmp]; [done| | |].
  - apply Forall_cons in Hb as [Hy _]. lia.
  - lia.
  - apply Forall_cons in Hb as [Hy Hb]. rewrite (Z.eqb_sym y x). destruct (Z.eqb_spec x y) as [->|]; [by apply IH|lia].
Qed.

Lemma strcmp_trans a b c : pos_str a -> pos_str b -> pos_str c -> strcmp a b <= 0 -> strcmp b c <= 0 -> strcmp a c <= 0.
Proof.
  intros Ha. revert b c. induction Ha as [|x a Hx Ha IH]; intros b c Hb Hc.
  { destruct c as [|z c]; cbn; [lia|]. apply Forall_cons in Hc as [Hz _]. lia. }
  destruct b as [|y b]; cbn [strcmp]; [lia|]. apply Forall_cons in Hb as [Hy Hb].
  destruct c as [|z c]; cbn [strcmp]; [lia|]. apply Forall_cons in Hc as [Hz Hc].
  destruct (Z.eqb_spec x y), (Z.eqb_spec y z), (Z.eqb_spec x z); subst; try lia. by apply IH.
Qed.

Lemma strcmp_le_lt a b c : pos_str a -> pos_str b -> pos_str c -> strcmp a b <= 0 -> strcmp b c < 0 -> strcmp a c < 0.
Proof.
  intros Ha Hb Hc H1 H2. pose proof (strcmp_trans a b c Ha Hb Hc H1 ltac:(lia)) as H3.
  destruct (Z.eq_dec (strcmp a c) 0) as [HE|]; [|lia]. exfalso.
  assert (strcmp c a <= 0) as H4. { destruct (Z.lt_ge_cases 0 (strcmp c a)) as [Hx|]; [|lia]. apply strcmp_flip in Hx; [lia|done|done]. }
  pose proof (strcmp_trans c a b Hc Ha Hb H4 H1) as H5. apply strcmp_flip in H2; [lia|done|done].
Qed.

(** Strings with a prefix are one range of the order, at its first place. *)
Lemma prefix_le q s : q `prefix_of` s -> pos_str s -> strcmp q s <= 0.
Proof.
  intros [t ->]. induction q as [|x q IH]; cbn [app strcmp]; intros Hs.
  - destruct t as [|y t]; [lia|]. apply Forall_cons in Hs as [Hy _]. lia.
  - rewrite Z.eqb_refl. apply Forall_cons in Hs as [_ Hs]. by apply IH.
Qed.

Lemma prefix_range q s t :
  pos_str q -> pos_str s -> strcmp q s <= 0 -> strcmp s t <= 0 -> q `prefix_of` t -> q `prefix_of` s.
Proof.
  intros Hq. revert s t. induction Hq as [|x q Hx Hq IH]; intros s t Hs H1 H2 Ht; [apply prefix_nil|].
  destruct t as [|z t]; [by apply prefix_nil_not in Ht|]. apply prefix_cons_inv_1 in Ht as Hz. subst z. apply prefix_cons_inv_2 in Ht.
  destruct s as [|y s]; cbn [strcmp] in *; [lia|]. apply Forall_cons in Hs as [Hy Hs].
  destruct (Z.eqb_spec x y) as [->|]; [|destruct (Z.eqb_spec y x); lia]. rewrite Z.eqb_refl in H2.
  apply prefix_cons. by apply (IH s t).
Qed.

(** ** What the writer writes *)

Definition pool_ok (p : pool_t) : Prop := forall s off, p.2 !! s = Some off -> at_ p.1 off (s ++ [0]).

Lemma intern_ok s p off p' :
  pool_ok p -> intern s p = (off, p') -> pool_ok p' /\ at_ p'.1 off (s ++ [0]) /\ exists t, p'.1 = p.1 ++ t.
Proof.
  intros Hp. unfold intern. destruct (p.2 !! s) as [o|] eqn:Hs; intros [= <- <-].
  - split_and!; [done|by apply Hp|]. exists []. by rewrite app_nil_r.
  - cbn [fst snd]. assert (at_ (p.1 ++ s ++ [0]) (length p.1) (s ++ [0])) as Hat.
    { rewrite <- (app_nil_r (p.1 ++ s ++ [0])), <- app_assoc. apply at_here. }
    split_and!; [|done|by eexists]. intros s' o. cbn [fst snd]. intros [[<- <-]|[_ H]]%lookup_insert_Some; [done|].
    by apply at_more, Hp.
Qed.

(** The candidates of an item, from an offset of their area. *)
Definition cands_at (blob pool : cstr) (off : nat) (cands : list (cstr * Z)) : Prop :=
  forall j t f, cands !! j = Some (t, f) -> exists t_off,
    at_ blob (off + 8 * j) (le_bytes 4 (Z.of_nat t_off) ++ le_bytes 4 f) /\ Z.of_nat t_off < 2 ^ 32 /\ 0 <= f < 2 ^ 32 /\
    at_ pool t_off (t ++ [0]).

Definition item_at (table blob pool : cstr) (i : nat) (e : item) : Prop :=
  exists p_off c_off,
    at_ table (12 * i) (le_bytes 4 (Z.of_nat p_off) ++ le_bytes 4 (Z.of_nat c_off) ++ le_bytes 2 (Z.of_nat (length e.2)) ++ le_bytes 2 0) /\
    Z.of_nat p_off < 2 ^ 32 /\ Z.of_nat c_off < 2 ^ 32 /\ Z.of_nat (length e.2) < 2 ^ 16 /\
    at_ pool p_off (e.1 ++ [0]) /\ cands_at blob pool c_off e.2.

Lemma pack_Some n v x : pack n v = Some x -> 0 <= v < 2 ^ (8 * Z.of_nat n) /\ x = le_bytes n v.
Proof.
  unfold pack. destruct (Z.leb_spec 0 v), (Z.ltb_spec v (2 ^ (8 * Z.of_nat n))); cbn; intros [=]. done.
Qed.

Lemma le_bytes_length n v : length (le_bytes n v) = n.
Proof. revert v. induction n as [|n IH]; intros v; [done|]. cbn. by rewrite IH. Qed.

Lemma cands_at_more blob pool off cands x y : cands_at blob pool off cands -> cands_at (blob ++ x) (pool ++ y) off cands.
Proof.
  intros H j t f Hj. destruct (H j t f Hj) as (o & H1 & H2 & H3 & H4). exists o. split_and!; [by apply at_more|done|lia|lia|by apply at_more].
Qed.

Lemma item_at_more table blob pool i e x y z :
  item_at table blob pool i e -> item_at (table ++ x) (blob ++ y) (pool ++ z) i e.
Proof.
  intros (p & c & H1 & H2 & H3 & H4 & H5 & H6). exists p, c.
  split_and!; [by apply at_more|done..|by apply at_more|by apply cands_at_more].
Qed.

Lemma write_cands_ok cands blob p blob' p' :
  write_cands cands blob p = Some (blob', p') -> pool_ok p ->
  pool_ok p' /\ (exists t, p'.1 = p.1 ++ t) /\ (exists t, blob' = blob ++ t) /\ cands_at blob' p'.1 (length blob) cands.
Proof.
  revert blob p. induction cands as [|[t f] cands IH]; intros blob p; cbn [write_cands].
  { intros [= <- <-] Hp. split_and!; [done|exists []; by rewrite app_nil_r..|done]. }
  destruct (intern t p) as [off p1] eqn:Hi. intros H Hp. destruct (intern_ok _ _ _ _ Hp Hi) as (Hp1 & Hat & [t1 Ht1]).
  destruct (pack 4 (Z.of_nat off)) as [a|] eqn:Ha; [|done]. destruct (pack 4 f) as [b|] eqn:Hb; [|done]. cbn [mbind option_bind] in H.
  apply pack_Some in Ha as [Hoff ->]. apply pack_Some in Hb as [Hf ->].
  destruct (IH _ _ H Hp1) as (Hp' & [t2 Ht2] & [t3 Ht3] & Hc). split_and!; [done|..].
  - exists (t1 ++ t2). by rewrite app_assoc, <- Ht1.
  - exists ((le_bytes 4 (Z.of_nat off) ++ le_bytes 4 f) ++ t3). by rewrite app_assoc.
  - intros [|j] t' f'; cbn [lookup list_lookup].
    + intros [= <- <-]. exists off. change (8 * 0)%nat with 0%nat. rewrite Nat.add_0_r.
      split_and!; [rewrite Ht3, <- app_assoc; apply at_here|lia|lia|lia|]. rewrite Ht2. by apply at_more.
    + intros Hj. destruct (Hc j t' f' Hj) as (o & H1 & H2). exists o. split; [|done].
      rewrite length_app, length_app, !le_bytes_length in H1. replace (length blob + 8 * S j)%nat with (length blob + (4 + 4) + 8 * j)%nat by lia. done.
Qed.

Lemma write_items_ok l k table blob p table' blob' p' :
  write_items l table blob p = Some (table', blob', p') -> pool_ok p -> length table = (12 * k)%nat ->
  (exists t, table' = table ++ t) /\ (exists t, blob' = blob ++ t) /\ (exists t, p'.1 = p.1 ++ t) /\
  length table' = (12 * (k + length l))%nat /\ forall i e, l !! i = Some e -> item_at table' blob' p'.1 (k + i) e.
Proof.
  revert k table blob p. induction l as [|[py cands] l IH]; intros k table blob p; cbn [write_items].
  { intros [= <- <- <-] Hp Hk. split_and!; [exists []; by rewrite app_nil_r..|cbn; lia|done]. }
  destruct (intern py p) as [off p1] eqn:Hi. intros H Hp Hk. destruct (intern_ok _ _ _ _ Hp Hi) as (Hp1 & Hat & [t1 Ht1]).
  destruct (write_cands cands blob p1) as [[blob1 p2]|] eqn:Hw; [|done]. cbn [mbind option_bind] in H.
  destruct (write_cands_ok _ _ _ _ _ Hw Hp1) as (Hp2 & [t2 Ht2] & [t3 Ht3] & Hc).
  destruct (pack 4 (Z.of_nat off)) as [a|] eqn:Ha; [|done]. destruct (pack 4 (Z.of_nat (length blob))) as [b|] eqn:Hb; [|done].
  destruct (pack 2 (Z.of_nat (length cands))) as [c|] eqn:Hcc; [|done]. destruct (pack 2 0) as [d|] eqn:Hd; [|done].
  cbn [mbind option_bind] in H. apply pack_Some in Ha as [Ha ->], Hb as [Hb ->], Hcc as [Hcc ->], Hd as [_ ->].
  set (row := le_bytes 4 _ ++ _) in H. assert (length row = 12%nat) as Hrow by (unfold row; by rewrite !length_app, !le_bytes_length).
  assert (length (table ++ row) = (12 * S k)%nat) as Hk' by (rewrite length_app; lia).
  destruct (IH (S k) _ _ _ H Hp2 Hk') as ([t4 Ht4] & [t5 Ht5] & [t6 Ht6] & Hl & Hit). split_and!.
  - exists (row ++ t4). by rewrite app_assoc.
  - exists (t3 ++ t5). by rewrite app_assoc, <- Ht3.
  - exists (t1 ++ t2 ++ t6). by rewrite !app_assoc, <- Ht1, <- Ht2.
  - cbn [length]. lia.
  - intros [|i] e; cbn [lookup list_lookup].
    + intros [= <-]. rewrite Nat.add_0_r, Ht4, Ht5, Ht6. apply item_at_more. exists off, (length blob). cbn [fst snd].
      split_and!; [|lia|lia|lia| |done].
      * rewrite <- Hk, <- (app_nil_r (table ++ row)), <- app_assoc. apply at_here.
      * rewrite Ht2. by apply at_more.
    + intros Hi'. replace (k + S i)%nat with (S k + i)%nat by lia. by apply Hit.
Qed.

Definition bytes_ok (l : list item) : Prop :=
  Forall (fun e => Forall is_char e.1 /\ Forall (fun c => Forall is_char c.1) e.2) l.

Lemma chars_bytes s : Forall is_char s -> Forall is_byte s.
Proof. intros H. eapply Forall_impl; [exact H|]. unfold is_char, is_byte. lia. Qed.

Lemma intern_bytes s p off p' : Forall is_char s -> Forall is_byte p.1 -> intern s p = (off, p') -> Forall is_byte p'.1.
Proof.
  intros Hs Hp. unfold intern. destruct (p.2 !! s); intros [= <- <-]; [done|]. cbn [fst]. rewrite !Forall_app.
  split_and!; [done|by apply chars_bytes|]. apply Forall_singleton. by unfold is_byte.
Qed.

Lemma write_cands_bytes cands blob p blob' p' :
  Forall (fun c => Forall is_char c.1) cands -> Forall is_byte blob -> Forall is_byte p.1 ->
  write_cands cands blob p = Some (blob', p') -> Forall is_byte blob' /\ Forall is_byte p'.1.
Proof.
  intros Hc. revert blob p. induction Hc as [|[t f] cands Ht _ IH]; intros blob p Hb Hp; cbn [write_cands]; [by intros [= <- <-]|].
  destruct (intern t p) as [off p1] eqn:Hi. destruct (pack 4 (Z.of_nat off)) as [a|] eqn:Ha; [|done].
  destruct (pack 4 f) as [b|] eqn:Hf; [|done]. cbn [mbind option_bind].
  apply pack_Some in Ha as [_ ->], Hf as [_ ->]. apply IH; [|by eapply intern_bytes].
  rewrite !Forall_app. split_and!; [done|apply le_bytes_byte..].
Qed.

Lemma write_items_bytes l table blob p r :
  bytes_ok l -> Forall is_byte table -> Forall is_byte blob -> Forall is_byte p.1 ->
  write_items l table blob p = Some r -> Forall is_byte (r.1.1 ++ r.1.2 ++ r.2.1).
Proof.
  intros Hl. revert table blob p. induction Hl as [|[py cands] l [Hpy Hc] _ IH]; intros table blob p Ht Hb Hp; cbn [write_items].
  { intros [= <-]. cbn [fst snd]. by rewrite !Forall_app. }
  destruct (intern py p) as [off p1] eqn:Hi. destruct (write_cands cands blob p1) as [[blob1 p2]|] eqn:Hw; [|done].
  cbn [mbind option_bind]. pose proof (intern_bytes _ _ _ _ Hpy Hp Hi) as Hp1.
  destruct (write_cands_bytes _ _ _ _ _ Hc Hb Hp1 Hw) as [Hb1 Hp2].
  destruct (pack 4 (Z.of_nat off)) as [a|] eqn:Ha; [|done]. destruct (pack 4 (Z.of_nat (length blob))) as [b|] eqn:Hbb; [|done].
  destruct (pack 2 (Z.of_nat (length cands))) as [c|] eqn:Hcc; [|done]. destruct (pack 2 0) as [d|] eqn:Hd; [|done].
  cbn [mbind option_bind]. apply pack_Some in Ha as [_ ->], Hbb as [_ ->], Hcc as [_ ->], Hd as [_ ->].
  apply IH; [|done|done]. rewrite !Forall_app. split_and!; [done|apply le_bytes_byte..].
Qed.

(** ** What a loaded dictionary gives *)

(** A candidate is where a text and its frequency can be read. *)
Definition reads (ime : airy_ime) (c : airy_ime_cand_t) (d : cstr * Z) : Prop :=
  string_at (buf ime) (text c) = Some d.1 /\ freq c = d.2.

Record loaded (ime : airy_ime) (l : list item) : Prop := Loaded {
  ld_count : entry_count ime = length l;
  ld_items : forall i e, l !! i = Some e ->
    airy_ime_entry_py ime i = Some e.1 /\
    exists c_off : Z,
      airy_ime_rd_u32 (buf ime) (entries_at ime i + 4) = Some c_off /\
      airy_ime_rd_u16 (buf ime) (entries_at ime i + 8) = Some (Z.of_nat (length e.2)) /\
      forall j d, e.2 !! j = Some d -> exists t_off : Z,
        let cb := (entries_at ime (entry_count ime) + Z.to_nat c_off)%nat in
        airy_ime_rd_u32 (buf ime) (cb + j * AIRY_IME_CAND_SIZE) = Some t_off /\
        airy_ime_rd_u32 (buf ime) (cb + j * AIRY_IME_CAND_SIZE + 4) = Some d.2 /\
        string_at (buf ime) (pool_off ime + Z.to_nat t_off) = Some d.1;
}.

Lemma file_items head table blob pool l :
  length head = 24%nat -> length table = (12 * length l)%nat -> bytes_ok l ->
  (forall i e, l !! i = Some e -> item_at table blob pool i e) ->
  loaded (Ime_ (head ++ table ++ blob ++ pool) (length (head ++ table ++ blob ++ pool)) (length l)
            (24 + length table + length blob)) l.
Proof.
  intros Hh Ht Hb Hit. split; [done|]. cbn [buf entry_count pool_off]. unfold airy_ime_entry_py, entries_at. cbn [buf pool_off].
  unfold AIRY_IME_HEADER_SIZE, AIRY_IME_ENTRY_SIZE, AIRY_IME_CAND_SIZE.
  assert (forall p x, at_ table p x -> at_ (head ++ table ++ blob ++ pool) (24 + p) x) as A1.
  { intros p x H. rewrite <- Hh. by apply at_behind, at_more. }
  assert (forall p x, at_ blob p x -> at_ (head ++ table ++ blob ++ pool) (24 + length table + p) x) as A2.
  { intros p x H. rewrite <- Hh, <- Nat.add_assoc. by apply at_behind, at_behind, at_more. }
  assert (forall p s, Forall is_char s -> at_ pool p (s ++ [0]) ->
    string_at (head ++ table ++ blob ++ pool) (24 + length table + length blob + p) = Some s) as A3.
  { intros p s Hs H. apply string_at_text; [eapply Forall_impl; [exact Hs|]; unfold is_char; lia|].
    rewrite <- Hh, <- !Nat.add_assoc. by apply at_behind, at_behind, at_behind. }
  set (f := head ++ table ++ blob ++ pool) in *. intros i [py cands] He.
  assert (Forall is_char py /\ Forall (fun c => Forall is_char c.1) cands) as [B1 B2].
  { unfold bytes_ok in Hb. rewrite Forall_forall in Hb. apply (Hb (py, cands)). by eapply list_elem_of_lookup_2. }
  destruct (Hit i _ He) as (p_off & c_off & Hat & Hp & Hc & Hn & Hpy & Hcs). cbn [fst snd] in *.
  apply at_split in Hat as [R1 Hat]. apply at_split in Hat as [R2 Hat]. apply at_split in Hat as [R3 _]. rewrite !le_bytes_length in *.
  replace (i * 12)%nat with (12 * i)%nat by lia. split.
  - rewrite (rd_u32_at f (24 + 12 * i) (Z.of_nat p_off)) by (lia || by apply A1). cbn [mbind option_bind]. rewrite Nat2Z.id. by apply A3.
  - exists (Z.of_nat c_off). split_and!.
    + apply rd_u32_at; [lia|]. rewrite <- Nat.add_assoc. by apply A1.
    + apply rd_u16_at; [lia|]. rewrite <- Nat.add_assoc. apply A1. by replace (12 * i + 8)%nat with (12 * i + 4 + 4)%nat by lia.
    + intros j [t fr] Hj. destruct (Hcs j t fr Hj) as (t_off & Hat & T1 & T2 & T3). cbn [fst snd].
      apply at_split in Hat as [C1 C2]. rewrite le_bytes_length in C2. exists (Z.of_nat t_off). rewrite !Nat2Z.id.
      replace (24 + length l * 12 + c_off + j * 8)%nat with (24 + length table + (c_off + 8 * j))%nat by lia.
      split_and!; [apply rd_u32_at; [lia|by apply A2]|apply rd_u32_at; [lia|rewrite <- Nat.add_assoc; by apply A2]|].
      apply A3; [|done]. rewrite Forall_forall in B2. apply (B2 (t, fr)). by eapply list_elem_of_lookup_2.
Qed.

(** The header that [serialize] writes in front of the data. *)
Definition header (n off : nat) (data : cstr) : cstr :=
  AIRY_IME_MAGIC ++ le_bytes 4 1 ++ le_bytes 4 (Z.of_nat n) ++ le_bytes 4 (airy_task_desc_crc32 data) ++ le_bytes 4 (Z.of_nat off).

Lemma header_length n off data : length (header n off data) = 24%nat.
Proof. unfold header. by rewrite !length_app, !le_bytes_length. Qed.

Lemma load_file n off data path :
  path <> [] -> Forall is_byte data -> 0 <= airy_task_desc_crc32 data < 2 ^ 32 -> Z.of_nat off < 2 ^ 32 ->
  (12 * n <= length data)%nat -> (24 + 12 * n <= off <= 24 + length data)%nat ->
  airy_ime_load (Some path) (Some (header n off data ++ data)) true true true =
    Some (Ime_ (header n off data ++ data) (length (header n off data ++ data)) n off).
Proof.
  intros Hp Hb Hcrc Hoff Hn Ho. unfold airy_ime_load. destruct path as [|c path]; [done|]. cbn [mbind option_bind].
  assert (at_ (header n off data ++ data) 0 (header n off data)) as Hat by (apply (at_here [] _ data)).
  assert (take 8 (header n off data ++ data) = AIRY_IME_MAGIC) as Hm by done.
  assert (drop 24 (header n off data ++ data) = data) as Hd by (apply drop_app_length'; by rewrite header_length).
  assert (length (header n off data ++ data) = (24 + length data)%nat) as Hl by (by rewrite length_app, header_length).
  unfold header at 2 in Hat. apply at_split in Hat as [_ Hat]. apply at_split in Hat as [R1 Hat]. apply at_split in Hat as [R2 Hat].
  apply at_split in Hat as [R3 R4]. rewrite !le_bytes_length in *. change (length AIRY_IME_MAGIC) with 8%nat in *. cbn [Nat.add] in R1, R2, R3, R4.
  set (f := header n off data ++ data) in *. unfold AIRY_IME_HEADER_SIZE, AIRY_IME_ENTRY_SIZE, AIRY_IME_VERSION.
  destruct (Nat.eqb_spec (length f) 0); [lia|]. destruct (Nat.ltb_spec (length f) 24); [lia|]. cbn [orb negb].
  rewrite Hm, bool_decide_eq_true_2 by done. cbn [orb negb].
  rewrite (rd_u32_at _ 8 1), (rd_u32_at _ 12 (Z.of_nat n)), (rd_u32_at _ 16 _ Hcrc R3), (rd_u32_at _ 20 (Z.of_nat off)) by (lia || done).
  cbn [mbind option_bind]. change (negb (1 =? 1)) with false. cbv iota.
  assert (n <= (length f - 24) / 12)%nat as Hq by (apply Nat.div_le_lower_bound; lia).
  destruct (Z.ltb_spec (Z.of_nat ((length f - 24) / 12)) (Z.of_nat n)); [lia|].
  change (Z.of_nat 24) with 24. change (Z.of_nat 12) with 12. rewrite !u32_small by (rewrite ?u32_small; lia).
  destruct (Z.ltb_spec (Z.of_nat off) (24 + Z.of_nat n * 12)); [lia|]. destruct (Z.ltb_spec (Z.of_nat (length f)) (Z.of_nat off)); [lia|].
  cbn [orb]. rewrite Hd, crc_agrees, Z.eqb_refl by done. cbn [negb]. by rewrite !Nat2Z.id.
Qed.

(** A file that was written is loaded. *)
Lemma serialize_loads entries f path :
  serialize entries = Some f -> bytes_ok entries -> path <> [] ->
  exists ime, airy_ime_load (Some path) (Some f) true true true = Some ime /\ loaded ime (merge_sort item_le entries).
Proof.
  intros Hs Hb Hp. unfold serialize in Hs. set (l := merge_sort item_le entries) in *.
  assert (l ≡ₚ entries) as HP by apply merge_sort_Permutation.
  assert (bytes_ok l) as Hbl by (unfold bytes_ok; by rewrite HP).
  destruct (write_items l [] [] ([], ∅)) as [[[table blob] p]|] eqn:Hw; [|done]. cbn [mbind option_bind] in Hs.
  destruct (pack 4 1) as [ver|] eqn:Hver; [|done]. destruct (pack 4 (Z.of_nat (length entries))) as [cnt|] eqn:Hcnt; [|done].
  destruct (pack 4 (airy_task_desc_crc32 _)) as [crc|] eqn:Hcrc; [|done].
  destruct (pack 4 (Z.of_nat (24 + length table + length blob))) as [off|] eqn:Hoff; [|done]. cbn [mbind option_bind] in Hs.
  apply pack_Some in Hver as [_ ->], Hcnt as [Hcnt ->], Hcrc as [Hcrc ->], Hoff as [Hoff ->]. injection Hs as <-.
  destruct (write_items_ok l 0 [] [] ([], ∅) table blob p Hw) as (_ & _ & _ & Hlen & Hit); [done|done|].
  assert (Forall is_byte (table ++ blob ++ p.1)) as Hbytes.
  { apply (write_items_bytes l [] [] ([], ∅) (table, blob, p)); [done|apply Forall_nil_2..|done]. }
  assert (length entries = length l) as HL by (by apply Permutation_length). rewrite HL.
  exists (Ime_ (header (length l) (24 + length table + length blob) (table ++ blob ++ p.1) ++ table ++ blob ++ p.1)
    (length (header (length l) (24 + length table + length blob) (table ++ blob ++ p.1) ++ table ++ blob ++ p.1))
    (length l) (24 + length table + length blob)). split.
  - replace (AIRY_IME_MAGIC ++ _) with (header (length l) (24 + length table + length blob) (table ++ blob ++ p.1) ++ table ++ blob ++ p.1)
      by (unfold header; by rewrite <- !app_assoc).
    apply load_file; [done|done|done|lia| |]; rewrite !length_app; lia.
  - apply file_items; [apply header_length|done|done|]. intros i e He. by apply (Hit i e He).
Qed.

(** ** Queries of a loaded dictionary *)

Lemma take_take_app {A} n (a b : list A) : take n (take n a ++ b) = take n (a ++ b).
Proof.
  destruct (Nat.le_gt_cases (length a) n); [by rewrite (take_ge a) by done|].
  rewrite !take_app_le by (rewrite ?length_take; lia). rewrite take_take. f_equal. lia.
Qed.

Definition prefixed (q : cstr) (e : item) : Prop := take (length q) e.1 = q.

#[export] Instance prefixed_dec q e : Decision (prefixed q e).
Proof. unfold prefixed. apply _. Defined.

Lemma prefixed_prefix q e : prefixed q e <-> q `prefix_of` e.1.
Proof.
  unfold prefixed. split; [intros H; exists (drop (length q) e.1); rewrite <- H at 1; by rewrite take_drop|].
  intros [t ->]. apply take_app_length.
Qed.

(** All candidates with a prefix, in the order of the dictionary. *)
Definition hits (q : cstr) (l : list item) : list (cstr * Z) := concat (map snd (filter (prefixed q) l)).

(** The order of the result: by frequency, then by text. *)
Definition cand_le (a b : cstr * Z) : Prop := b.2 < a.2 \/ a.2 = b.2 /\ strcmp a.1 b.1 <= 0.

Definition moves_d (c tmp : cstr * Z) : bool := (c.2 <? tmp.2) || ((c.2 =? tmp.2) && (0 <? strcmp c.1 tmp.1)).

Fixpoint shift_d (tmp : cstr * Z) (front : list (cstr * Z)) : list (cstr * Z) :=
  match front with
  | [] => [tmp]
  | c :: front' => if moves_d c tmp then c :: shift_d tmp front' else tmp :: front
  end.

Section query.
Context (ime : airy_ime) (l : list item) (Hld : loaded ime l) (Hb : bytes_ok l) (Hsorted : Sorted item_le l).

Lemma item_chars i e : l !! i = Some e -> pos_str e.1 /\ Forall (fun d => pos_str d.1) e.2.
Proof.
  intros He. unfold bytes_ok in Hb. rewrite Forall_forall in Hb. destruct (Hb e) as [H1 H2]; [by eapply list_elem_of_lookup_2|].
  assert (forall s, Forall is_char s -> pos_str s) as Hp by (intros s H; eapply Forall_impl; [exact H|]; unfold is_char; lia).
  split; [by apply Hp|]. eapply Forall_impl; [exact H2|]. intros d Hd. by apply Hp.
Qed.

Lemma items_ordered i j e d : l !! i = Some e -> l !! j = Some d -> (i <= j)%nat -> strcmp e.1 d.1 <= 0.
Proof.
  intros Hi Hj Hij. induction Hij as [|j Hij IH] in d, Hj |- *.
  { simplify_eq. rewrite strcmp_refl. lia. }
  destruct (l !! j) as [c|] eqn:Hc. 2: { apply lookup_ge_None in Hc. apply lookup_lt_Some in Hj. lia. }
  apply (strcmp_trans _ c.1); [eapply item_chars; eauto..|by apply IH|].
  assert (forall l j c d, Sorted item_le l -> l !! j = Some c -> l !! S j = Some d -> item_le c d) as Hadj.
  { clear. induction l as [|x l IH]; intros [|j] c d Hs; cbn [lookup list_lookup]; [done|done| |].
    - intros [= <-] Hd. inversion Hs as [|? ? _ Hh]; subst. destruct l; [done|]. cbn in Hd. simplify_eq. by inversion Hh.
    - intros Hc Hd. inversion Hs; subst. by eapply IH. }
  by apply (Hadj l j).
Qed.

Lemma bisect_split fuel q lo hi :
  pos_str q -> (hi - lo <= fuel)%nat -> (lo <= hi <= length l)%nat ->
  (forall i e, l !! i = Some e -> (i < lo)%nat -> strcmp e.1 q < 0) ->
  (forall i e, l !! i = Some e -> (hi <= i)%nat -> 0 <= strcmp e.1 q) ->
  exists r, bisect fuel ime q lo hi = Some r /\ (r <= length l)%nat /\
    (forall i e, l !! i = Some e -> (i < r)%nat -> strcmp e.1 q < 0) /\
    (forall i e, l !! i = Some e -> (r <= i)%nat -> 0 <= strcmp e.1 q).
Proof.
  intros Hq. revert lo hi. induction fuel as [|fuel IH]; intros lo hi Hf Hr H1 H2; cbn [bisect]; destruct (Nat.ltb_spec lo hi); try lia.
  1, 3: exists lo; replace hi with lo in * by lia; split_and!; [done|lia|done|done].
  set (mid := (lo + (hi - lo) / 2)%nat).
  assert (lo <= mid < hi)%nat as Hmid by (unfold mid; pose proof (Nat.div_lt (hi - lo) 2); lia).
  destruct (lookup_lt_is_Some_2 l mid) as [e He]; [lia|]. destruct (ld_items _ _ Hld mid e He) as [-> _]. cbn [mbind option_bind].
  destruct (Z.ltb_spec (strcmp e.1 q) 0) as [Hlt|Hge].
  - apply IH; [lia|lia| |done]. intros i d Hi Hle. pose proof (items_ordered i mid d e Hi He ltac:(lia)) as Ho.
    destruct (item_chars _ _ Hi), (item_chars _ _ He). by apply (strcmp_le_lt d.1 e.1 q).
  - apply IH; [lia|lia|done|]. intros i d Hi Hle. pose proof (items_ordered mid i e d He Hi Hle) as Ho.
    destruct (item_chars _ _ Hi), (item_chars _ _ He).
    destruct (Z.lt_ge_cases (strcmp d.1 q) 0) as [Hx|]; [|done]. exfalso.
    assert (strcmp e.1 q < 0) by (by apply (strcmp_le_lt e.1 d.1 q)). lia.
Qed.

(** The candidates of an item are collected up to the limit. *)
Lemma cand_loop_reads i e c_off :
  l !! i = Some e -> airy_ime_rd_u32 (buf ime) (entries_at ime i + 4) = Some c_off ->
  forall todo k cands D, (k + todo = length e.2)%nat -> (length D <= AIRY_IME_QUERY_CAP)%nat -> Forall2 (reads ime) cands D ->
  exists r, cand_loop ime (entries_at ime (entry_count ime) + Z.to_nat c_off) k todo cands = Some r /\
    Forall2 (reads ime) r (take AIRY_IME_QUERY_CAP (D ++ drop k e.2)).
Proof.
  intros He Hc. destruct (ld_items _ _ Hld i e He) as (_ & c_off' & Hc' & _ & Hcs). rewrite Hc in Hc'. injection Hc' as <-.
  induction todo as [|todo IH]; intros k cands D Hk HD HF; cbn [cand_loop].
  { exists cands. split; [done|]. rewrite drop_ge, app_nil_r, take_ge by lia. done. }
  pose proof (Forall2_length _ _ _ HF) as HL. destruct (Nat.ltb_spec (length cands) AIRY_IME_QUERY_CAP) as [Hlt|Hge].
  - destruct (lookup_lt_is_Some_2 e.2 k) as [d Hd]; [lia|]. destruct (Hcs k d Hd) as (t_off & R1 & R2 & R3).
    rewrite R1. cbn [mbind option_bind]. rewrite R2. cbn [mbind option_bind].
    destruct (IH (S k) (cands ++ [Cand (pool_off ime + Z.to_nat t_off) d.2]) (D ++ [d])) as (r & Hr & HFr).
    + lia.
    + rewrite length_app. cbn [length]. lia.
    + apply Forall2_app; [done|]. constructor; [|constructor]. by split.
    + exists r. split; [done|]. rewrite (drop_S e.2 d k Hd). by rewrite <- app_assoc in HFr.
  - exists cands. split; [done|]. rewrite take_app_le by lia. by rewrite take_ge by lia.
Qed.

Lemma scan_reads q idx cands D :
  pos_str q -> (forall i e, l !! i = Some e -> (idx <= i)%nat -> 0 <= strcmp e.1 q) ->
  (length D <= AIRY_IME_QUERY_CAP)%nat -> Forall2 (reads ime) cands D ->
  exists r, scan_entries ime q idx (length l - idx) cands = Some r /\
    Forall2 (reads ime) r (take AIRY_IME_QUERY_CAP (D ++ hits q (drop idx l))).
Proof.
  intros Hq. remember (length l - idx)%nat as todo eqn:Htodo. revert idx cands D Htodo.
  induction todo as [|todo IH]; intros idx cands D Htodo Hge HD HF; cbn [scan_entries].
  { exists cands. split; [done|]. rewrite (drop_ge l) by lia. change (hits q []) with (@nil (cstr * Z)). rewrite app_nil_r, take_ge by lia. done. }
  destruct (lookup_lt_is_Some_2 l idx) as [e He]; [lia|]. rewrite (drop_S l e idx He). unfold hits. rewrite filter_cons.
  destruct (ld_items _ _ Hld idx e He) as (-> & c_off & Hc & Hn & _). cbn [mbind option_bind].
  case_bool_decide as Hpre; cbn [negb].
  - rewrite decide_True by done. rewrite Hc. cbn [mbind option_bind]. rewrite Hn. cbn [mbind option_bind]. rewrite Nat2Z.id.
    destruct (cand_loop_reads idx e c_off He Hc (length e.2) 0 cands D) as (r1 & Hr1 & HF1); [lia|done|done|].
    rewrite Hr1. cbn [mbind option_bind]. rewrite drop_0 in HF1.
    destruct (IH (S idx) r1 (take AIRY_IME_QUERY_CAP (D ++ e.2))) as (r & -> & HFr).
    + lia.
    + intros i d Hi Hle. apply (Hge i d Hi). lia.
    + rewrite length_take. lia.
    + done.
    + exists r. split; [done|]. cbn [map concat]. rewrite app_assoc. by rewrite take_take_app in HFr.
  - rewrite decide_False by done. exists cands. split; [done|].
    assert (filter (prefixed q) (drop (S idx) l) = []) as ->.
    { apply elem_of_nil_inv. intros x [Hx Hin]%list_elem_of_filter. apply list_elem_of_lookup in Hin as [j Hj].
      rewrite lookup_drop in Hj. apply Hpre, prefixed_prefix. apply prefixed_prefix in Hx.
      destruct (item_chars _ _ He) as [P1 _]. destruct (item_chars _ _ Hj) as [P2 _].
      apply (prefix_range q e.1 x.1); [done|done| |apply (items_ordered idx (S idx + j)); [done|done|lia]|done].
      destruct (Z.lt_ge_cases 0 (strcmp q e.1)) as [H0|]; [|done]. apply strcmp_flip in H0; [|done|done].
      pose proof (Hge idx e He ltac:(lia)). lia. }
    cbn [map concat]. rewrite app_nil_r, take_ge by lia. done.
Qed.

Lemma hits_drop q r :
  pos_str q -> (forall i e, l !! i = Some e -> (i < r)%nat -> strcmp e.1 q < 0) -> hits q (drop r l) = hits q l.
Proof.
  intros Hq Hlt. unfold hits. rewrite <- (take_drop r l) at 2. rewrite filter_app.
  assert (filter (prefixed q) (take r l) = []) as ->; [|done].
  apply elem_of_nil_inv. intros x [Hx Hin]%list_elem_of_filter. apply list_elem_of_lookup in Hin as [j Hj].
  apply lookup_take_Some in Hj as [Hj Hjr]. apply prefixed_prefix in Hx. destruct (item_chars _ _ Hj) as [P _].
  pose proof (prefix_le _ _ Hx P). specialize (Hlt j x Hj Hjr). apply strcmp_flip in Hlt; [lia|done|done].
Qed.

Lemma shift_reads c d front D :
  reads ime c d -> Forall2 (reads ime) front D ->
  exists r, cand_shift ime c front = Some r /\ Forall2 (reads ime) r (shift_d d D).
Proof.
  intros Hc HF. induction HF as [|x y front D Hx HF IH]; cbn [cand_shift shift_d]; [exists [c]; split; [done|constructor; [done|constructor]]|].
  assert (moves ime x c = Some (moves_d y d)) as ->.
  { unfold moves, moves_d. destruct Hx as [Hx1 Hx2], Hc as [Hc1 Hc2]. rewrite Hx1, Hc1, Hx2, Hc2.
    destruct (y.2 <? d.2); [done|]. by destruct (y.2 =? d.2). }
  cbn [mbind option_bind]. destruct (moves_d y d).
  - destruct IH as (r & -> & HFr). eexists. split; [done|]. by constructor.
  - eexists. split; [done|]. constructor; [done|]. by constructor.
Qed.

Lemma sort_reads cands D front F :
  Forall2 (reads ime) cands D -> Forall2 (reads ime) front F ->
  exists r, sort_loop ime front cands = Some r /\ Forall2 (reads ime) r (reverse (foldl (fun f d => shift_d d f) F D)).
Proof.
  intros HF. revert front F. induction HF as [|c d cands D Hc _ IH]; intros front F Hf; cbn [sort_loop foldl].
  { eexists. split; [done|]. by apply Forall2_reverse. }
  destruct (shift_reads c d front F Hc Hf) as (r & -> & Hr). cbn [mbind option_bind]. by apply IH.
Qed.
End query.

Lemma shift_perm d l : shift_d d l ≡ₚ d :: l.
Proof. induction l as [|c l IH]; [done|]. cbn [shift_d]. destruct (moves_d c d); [|done]. rewrite IH. constructor. Qed.

Lemma cand_le_trans a b c : pos_str a.1 -> pos_str b.1 -> pos_str c.1 -> cand_le a b -> cand_le b c -> cand_le a c.
Proof.
  unfold cand_le. intros Ha Hb Hc [?|[? ?]] [?|[? ?]]; [left; lia..|]. right. split; [lia|]. by apply (strcmp_trans a.1 b.1 c.1).
Qed.

Lemma moves_le c d : pos_str c.1 -> pos_str d.1 -> if moves_d c d then cand_le d c else cand_le c d.
Proof.
  intros Hc Hd. unfold moves_d, cand_le. destruct (Z.ltb_spec c.2 d.2); cbn [orb]; [by left|].
  destruct (Z.eqb_spec c.2 d.2); cbn [andb]; [|left; lia]. destruct (Z.ltb_spec 0 (strcmp c.1 d.1)) as [Hx|]; right; (split; [lia|]); [|lia].
  apply (strcmp_flip d.1 c.1) in Hx; [lia|done|done].
Qed.

Lemma shift_sorted d l :
  pos_str d.1 -> Forall (fun c => pos_str c.1) l -> StronglySorted (flip cand_le) l -> StronglySorted (flip cand_le) (shift_d d l).
Proof.
  intros Hd Hl Hs. induction Hs as [|c l Hs IH Hf]; [by repeat constructor|]. apply Forall_cons in Hl as [Hc Hl]. cbn [shift_d].
  pose proof (moves_le c d Hc Hd) as Hm. destruct (moves_d c d).
  - constructor; [by apply IH|]. rewrite shift_perm. by constructor.
  - constructor; [by constructor|]. constructor; [done|]. rewrite Forall_forall in *. intros x Hx.
    apply (cand_le_trans x c d); [by apply Hl|done|done|by apply Hf|done].
Qed.

Lemma sort_d_spec D F :
  Forall (fun c => pos_str c.1) (D ++ F) -> StronglySorted (flip cand_le) F ->
  let r := foldl (fun f d => shift_d d f) F D in r ≡ₚ D ++ F /\ StronglySorted (flip cand_le) r.
Proof.
  revert F. induction D as [|d D IH]; intros F Hp Hs; cbn [foldl app] in *; [done|]. apply Forall_cons in Hp as [Hd Hp].
  apply Forall_app in Hp as [HD HF]. destruct (IH (shift_d d F)) as [H1 H2].
  - apply Forall_app. split; [done|]. rewrite shift_perm. by constructor.
  - by apply shift_sorted.
  - split; [|done]. rewrite H1, shift_perm. apply Permutation_sym, Permutation_middle.
Qed.

Lemma sorted_reverse {A} (R : A -> A -> Prop) l : StronglySorted (flip R) l -> StronglySorted R (reverse l).
Proof.
  induction 1 as [|x l Hs IH Hf]; [constructor|]. rewrite reverse_cons. apply StronglySorted_app_2; [|done|by repeat constructor].
  intros a b Ha ->%list_elem_of_singleton. rewrite elem_of_reverse in Ha. rewrite Forall_forall in Hf. exact (Hf a Ha).
Qed.

Lemma strcmp_total a b : strcmp a b <= 0 \/ strcmp b a <= 0.
Proof.
  revert b. induction a as [|x a IH]; intros [|y b]; cbn [strcmp]; [lia|lia|lia|].
  rewrite (Z.eqb_sym y x). destruct (Z.eqb_spec x y); [apply IH|lia].
Qed.

(** ** The dictionary that was written answers *)

Definition more_frequent (a b : cstr * Z) : Prop := b.2 <= a.2.

Lemma sorted_frequent l : StronglySorted cand_le l -> StronglySorted more_frequent l.
Proof.
  induction 1 as [|a l _ IH H]; constructor; [done|]. eapply Forall_impl; [exact H|]. intros b. unfold cand_le, more_frequent. lia.
Qed.

(** What a query of a dictionary gives: the candidates of all items with the
    prefix, as many as are collected, sorted and cut. *)
Definition answers_query (entries : list item) (q : cstr) (cap : nat) (r : list (cstr * Z)) : Prop :=
  exists sorted, sorted ≡ₚ take AIRY_IME_QUERY_CAP (hits q (merge_sort item_le entries)) /\
    StronglySorted more_frequent sorted /\ r = take cap sorted.

Definition query_ok (q : cstr) : Prop := q <> [] /\ Forall (fun c => 97 <= c <= 122) q.

Lemma query_loaded ime l q cap :
  loaded ime l -> bytes_ok l -> Sorted item_le l -> query_ok q -> 0 < cap ->
  exists r sorted, airy_ime_query (Some ime) (Some q) cap true = Some r /\ sorted ≡ₚ take AIRY_IME_QUERY_CAP (hits q l) /\
    StronglySorted cand_le sorted /\ Forall2 (reads ime) r (take (Z.to_nat cap) sorted).
Proof.
  intros Hl Hb Hs [Hne Hq] Hcap. assert (pos_str q) as Hpq by (eapply Forall_impl; [exact Hq|]; cbn; lia).
  unfold airy_ime_query. destruct (Z.leb_spec cap 0); [lia|]. destruct (Nat.eqb_spec (length q) 0); [by destruct q|].
  replace (forallb _ q) with true. 2: { symmetry. apply forallb_forall. intros c Hc%list_elem_of_In. rewrite Forall_forall in Hq. specialize (Hq c Hc). lia. }
  cbn [orb negb]. unfold airy_ime_lower_bound. rewrite (ld_count _ _ Hl).
  destruct (bisect_split ime l Hl Hb Hs (length l) q 0 (length l)) as (i & -> & Hi & H1 & H2); [done|lia|lia|lia| |].
  { intros i e Hi%lookup_lt_Some. lia. }
  cbn [mbind option_bind]. destruct (scan_reads ime l Hl Hb Hs q i [] []) as (cands & -> & HF); [done|done|cbn; lia|constructor|].
  cbn [mbind option_bind app] in *. rewrite (hits_drop l Hb q i) in HF by done.
  destruct (sort_reads ime cands _ [] [] HF (List.Forall2_nil _)) as (r & -> & HFr). cbn [mbind option_bind].
  destruct (sort_d_spec (take AIRY_IME_QUERY_CAP (hits q l)) []) as [P1 P2]; [|constructor|].
  { rewrite app_nil_r. apply Forall_take. unfold hits. apply Forall_concat, Forall_map. apply Forall_forall. intros e [_ He]%list_elem_of_filter.
    apply list_elem_of_lookup in He as [j Hj]. by destruct (item_chars l Hb j e Hj). }
  rewrite app_nil_r in P1. eexists _, _. split; [done|]. split; [|split; [by apply sorted_reverse|by apply Forall2_take]].
  by rewrite reverse_Permutation.
Qed.

(** C24: A dictionary that [serialize] writes is loaded, and every query of a
    word of small letters, answered without a read outside the file, gives the
    texts and frequencies of the entries whose pinyin starts with the word (the
    first 4096 in the order of the dictionary), sorted by falling frequency and
    cut to the caller's array. *)
Theorem ime_query_exact entries f path q cap :
  serialize entries = Some f -> bytes_ok entries -> path <> [] -> query_ok q -> 0 < cap ->
  exists ime r d, airy_ime_load (Some path) (Some f) true true true = Some ime /\
    airy_ime_query (Some ime) (Some q) cap true = Some r /\ Forall2 (reads ime) r d /\
    answers_query entries q (Z.to_nat cap) d.
Proof.
  intros Hs Hb Hp Hq Hcap. destruct (serialize_loads _ _ _ Hs Hb Hp) as (ime & Hl & Hld).
  destruct (query_loaded ime _ q cap Hld) as (r & sorted & H1 & H2 & H3 & H4); [|apply Sorted_merge_sort|done|done|].
  - unfold bytes_ok. by rewrite merge_sort_Permutation.
  - intros a b. apply strcmp_total.
  - exists ime, r, (take (Z.to_nat cap) sorted). split_and!; [done|done|done|]. exists sorted. split_and!; [done| |done]. by apply sorted_frequent.
Qed.

Definition small_dict : list item :=
  [(cs "zhong", [([228; 184; 173], 9); ([233; 146; 159], 3)]); (cs "a", [([229; 149; 138], 5)]);
   (cs "zhongguo", [([228; 184; 173; 229; 155; 189], 40)])].

Lemma ime_query_exact_witness :
  (exists f ime, serialize small_dict = Some f /\ airy_ime_load (Some (cs "d")) (Some f) true true true = Some ime /\
     (map freq <$> airy_ime_query (Some ime) (Some (cs "zh")) 2 true) = Some [40; 9]) /\
  exists ime r d, airy_ime_load (Some (cs "d")) (Some (default [] (serialize small_dict))) true true true = Some ime /\
    airy_ime_query (Some ime) (Some (cs "zh")) 2 true = Some r /\ Forall2 (reads ime) r d /\
    answers_query small_dict (cs "zh") (Z.to_nat 2) d.
Proof.
  split; [eexists _, _; split; [vm_compute; reflexivity|]; split; vm_compute; reflexivity|].
  apply (ime_query_exact small_dict (default [] (serialize small_dict)) (cs "d") (cs "zh") 2).
  - vm_compute. reflexivity.
  - unfold bytes_ok. by apply (bool_decide_unpack _).
  - done.
  - split; [done|]. by apply (bool_decide_unpack _).
  - lia.
Defined.

(** The table-driven CRC of the dictionary is the bitwise CRC of the task
    descriptors, on all bytes: files are checked with the CRC-32 that
    [zlib.crc32] computes. *)
Theorem ime_crc_bitwise data : Forall is_byte data -> airy_ime_crc32 data = airy_task_desc_crc32 data.
Proof. apply crc_agrees. Qed.

Lemma ime_crc_bitwise_witness : airy_ime_crc32 (cs "123456789") = 0xCBF43926 /\ airy_ime_crc32 (cs "123456789") = airy_task_desc_crc32 (cs "123456789").
Proof. split; [vm_compute; reflexivity|]. apply (ime_crc_bitwise (cs "123456789")). by apply (bool_decide_unpack _). Defined.

(** ** Findings *)

(** A file with a right checksum and a wrong offset is loaded, and a query reads
    outside it. *)
Definition wild_data : cstr := le_bytes 4 0 ++ le_bytes 4 5000 ++ le_bytes 2 1 ++ le_bytes 2 0 ++ cs "a" ++ [0].

Lemma wild_offset_overruns :
  exists ime, airy_ime_load (Some (cs "d")) (Some (header 1 36 wild_data ++ wild_data)) true true true = Some ime /\
    airy_ime_query (Some ime) (Some (cs "a")) 5 true = None.
Proof. eexists. split; vm_compute; reflexivity. Qed.

(** Candidates of one frequency are ordered by their text, not by their order in
    the dictionary. *)
Definition two_equal : list item := [(cs "a", [(cs "y", 5); (cs "x", 5)])].

Lemma equal_frequencies_reordered :
  exists f ime, serialize two_equal = Some f /\ airy_ime_load (Some (cs "d")) (Some f) true true true = Some ime /\
    (map (fun c => string_at (buf ime) (text c)) <$> airy_ime_query (Some ime) (Some (cs "a")) 5 true) =
    Some [Some (cs "x"); Some (cs "y")].
Proof. eexists _, _. split; [vm_compute; reflexivity|]. split; vm_compute; reflexivity. Qed.
