(* ===== verification/EventLoop.v ===== *)
(** * The event loop: utils/sync/airy_event_loop.c, airy_event_loop_posix.c,
    airy_event_loop_epoll.c and airy_event_timer.c

    The loop on Linux: descriptors with callbacks, timers in a fixed array, and
    the main loop.  Callbacks are programs that call the loop again; what they
    do may depend on all that happened before.  The answers of the kernel (ready
    descriptors, results of [epoll_ctl], the clock) are arguments. *)
From S2P Require Import Prelude ErrCodes Keyed.

(** ** Constants *)

Definition AIRY_EVENT_LOOP_MAX_EVENTS : Z := 1024.
Definition AIRY_TIMER_MAX_TIMERS : nat := 64.
Definition AIRY_EVENT_TYPE_READ : Z := 1.
Definition AIRY_EVENT_TYPE_WRITE : Z := 2.
Definition EPOLLIN : Z := 1.
Definition EPOLLOUT : Z := 4.
Definition EPOLLERR : Z := 8.
Definition EPOLLHUP : Z := 16.
Definition EPOLLET : Z := 2 ^ 31.

(** ** State: callbacks and their data are numbers *)

Record airy_timer_entry_t := Timer {
  t_id : Z;
  interval_ms : Z;
  next_fire_ms : Z;
  t_cb : Z;
  t_ud : Z;
  active : bool;
}.

Record airy_evloop_fd_t := FdEntry {
  e_fd : Z;
  e_events : Z;
  e_cb : option Z;
  e_ud : Z;
  level_triggered : bool;
}.

Record airy_event_loop := Loop {
  timers : list airy_timer_entry_t;
  next_timer_id : Z;
  current_time_ms : Z;
  max_events : Z;
  running : bool;
  stop_requested : bool;
  fd_entries : list airy_evloop_fd_t;
  wakeup_fd : Z;
  interest : gmap Z Z;    (** the descriptors of the epoll instance with their event masks *)
}.

Definition no_timer : airy_timer_entry_t := Timer 0 0 0 0 0 false.
Definition no_fd : airy_evloop_fd_t := FdEntry 0 0 None 0 false.

Definition set_timers (ts : list airy_timer_entry_t) (l : airy_event_loop) : airy_event_loop :=
  Loop ts (next_timer_id l) (current_time_ms l) (max_events l) (running l) (stop_requested l) (fd_entries l) (wakeup_fd l) (interest l).
Definition set_next_id (n : Z) (l : airy_event_loop) : airy_event_loop :=
  Loop (timers l) n (current_time_ms l) (max_events l) (running l) (stop_requested l) (fd_entries l) (wakeup_fd l) (interest l).
Definition set_time (now : Z) (l : airy_event_loop) : airy_event_loop :=
  Loop (timers l) (next_timer_id l) now (max_events l) (running l) (stop_requested l) (fd_entries l) (wakeup_fd l) (interest l).
Definition set_running (r stop : bool) (l : airy_event_loop) : airy_event_loop :=
  Loop (timers l) (next_timer_id l) (current_time_ms l) (max_events l) r stop (fd_entries l) (wakeup_fd l) (interest l).
Definition set_fds (fds : list airy_evloop_fd_t) (l : airy_event_loop) : airy_event_loop :=
  Loop (timers l) (next_timer_id l) (current_time_ms l) (max_events l) (running l) (stop_requested l) fds (wakeup_fd l) (interest l).
Definition set_interest (m : gmap Z Z) (l : airy_event_loop) : airy_event_loop :=
  Loop (timers l) (next_timer_id l) (current_time_ms l) (max_events l) (running l) (stop_requested l) (fd_entries l) (wakeup_fd l) m.

(** ** Creation *)

(** [airy_event_loop_create]: whether the loop, the epoll instance, its buffer
    and the two tables are granted; the wake-up descriptor (-1 when there is
    none); the clock. *)
Definition airy_event_loop_create (max_ev : Z) (calloc_ok epoll_ok events_ok fds_ok ready_ok : bool) (wakeup now : Z)
    : option airy_event_loop :=
  let max_ev := if max_ev <=? 0 then AIRY_EVENT_LOOP_MAX_EVENTS else max_ev in
  if calloc_ok && epoll_ok && events_ok && (fds_ok && ready_ok) then
    Some (Loop (replicate AIRY_TIMER_MAX_TIMERS no_timer) 1 now max_ev false false (replicate (Z.to_nat max_ev) no_fd) wakeup
            (if wakeup <? 0 then ∅ else {[wakeup := EPOLLIN]}))
  else None.

(** ** Timers (airy_event_timer.c) *)

Definition airy_timer_add (interval : Z) (cb : option Z) (ud : Z) (l : airy_event_loop) : Z * airy_event_loop :=
  match cb with
  | None => (0, l)
  | Some cb =>
      match index_of (fun t => negb (active t)) (timers l) with
      | None => (0, l)
      | Some i =>
          let id := next_timer_id l in
          (id, set_next_id (u64 (id + 1))
                 (set_timers (<[i := Timer id interval (u64 (current_time_ms l + interval)) cb ud true]> (timers l)) l))
      end
  end.

Definition deactivate (t : airy_timer_entry_t) : airy_timer_entry_t :=
  Timer (t_id t) (interval_ms t) (next_fire_ms t) (t_cb t) (t_ud t) false.

Definition airy_timer_cancel (id : Z) (l : airy_event_loop) : Z * airy_event_loop :=
  if id =? 0 then (AIRY_ERR_INVALID_PARAM, l)
  else
    match index_of (fun t => active t && (t_id t =? id)) (timers l) with
    | None => (AIRY_ERR_NOT_FOUND, l)
    | Some i => (0, set_timers (alter deactivate i (timers l)) l)
    end.

(** ** Descriptors (airy_event_loop_posix.c, airy_event_loop_epoll.c) *)

(** What [epoll_ctl] answers when a descriptor is armed: the first call, and
    the second one, which modifies a descriptor that is there already. *)
Record ctl := Ctl { first_ok : bool; second_ok : bool }.

Definition airy_evloop_fd_check (fd : Z) (cb : option Z) (l : airy_event_loop) : Z :=
  if (fd <? 0) || bool_decide (cb = None) then AIRY_ERR_INVALID_PARAM
  else if max_events l <=? fd then AIRY_ERR_INVALID_PARAM else 0.

(** The mask that is asked for. *)
Definition epoll_mask (events : Z) (lt : bool) : Z :=
  Z.lor (if Z.land events AIRY_EVENT_TYPE_READ =? 0 then 0 else EPOLLIN)
    (Z.lor (if Z.land events AIRY_EVENT_TYPE_WRITE =? 0 then 0 else EPOLLOUT) (if lt then 0 else EPOLLET)).

Definition airy_evloop_arm (fd events : Z) (lt : bool) (a : ctl) (l : airy_event_loop) : Z * airy_event_loop :=
  if first_ok a || second_ok a then (0, set_interest (<[fd := epoll_mask events lt]> (interest l)) l) else (AIRY_ERR_IO, l).

Definition airy_evloop_fd_track (fd events : Z) (cb : option Z) (ud : Z) (lt : bool) (l : airy_event_loop) : airy_event_loop :=
  set_fds (<[Z.to_nat fd := FdEntry fd events cb ud lt]> (fd_entries l)) l.

Definition airy_evloop_fd_add (fd events : Z) (cb : option Z) (ud : Z) (lt : bool) (a : ctl) (l : airy_event_loop) : Z * airy_event_loop :=
  let rc := airy_evloop_fd_check fd cb l in
  if negb (rc =? 0) then (rc, l)
  else
    let '(rc, l) := airy_evloop_arm fd events lt a l in
    if negb (rc =? 0) then (rc, l) else (0, airy_evloop_fd_track fd events cb ud lt l).

(** The interface: edge and level triggered. *)
Definition airy_event_loop_add_fd (fd events : Z) (cb : option Z) (ud : Z) (a : ctl) (l : airy_event_loop) : Z * airy_event_loop :=
  airy_evloop_fd_add fd events cb ud false a l.
Definition airy_event_loop_add_fd_lt (fd events : Z) (cb : option Z) (ud : Z) (a : ctl) (l : airy_event_loop) : Z * airy_event_loop :=
  airy_evloop_fd_add fd events cb ud true a l.
Definition airy_event_loop_add_timer (interval : Z) (cb : option Z) (ud : Z) (l : airy_event_loop) : Z * airy_event_loop :=
  airy_timer_add interval cb ud l.
Definition airy_event_loop_cancel_timer (id : Z) (l : airy_event_loop) : Z * airy_event_loop := airy_timer_cancel id l.

Definition airy_event_loop_mod_fd (fd events : Z) (ctl_ok : bool) (l : airy_event_loop) : Z * airy_event_loop :=
  if (fd <? 0) || (max_events l <=? fd) then (AIRY_ERR_INVALID_PARAM, l)
  else if negb ctl_ok then (AIRY_ERR_IO, l)
  else
    let lt := from_option level_triggered false (fd_entries l !! Z.to_nat fd) in
    (0, set_fds (alter (fun e => FdEntry (e_fd e) events (e_cb e) (e_ud e) (level_triggered e)) (Z.to_nat fd) (fd_entries l))
          (set_interest (<[fd := epoll_mask events lt]> (interest l)) l)).

Definition airy_event_loop_remove_fd (fd : Z) (l : airy_event_loop) : airy_event_loop :=
  if (fd <? 0) || (max_events l <=? fd) then l
  else set_fds (<[Z.to_nat fd := no_fd]> (fd_entries l)) (set_interest (delete fd (interest l)) l).

Definition airy_event_loop_get_fd_count (l : airy_event_loop) : Z :=
  Z.of_nat (length (filter (fun e => 0 < e_fd e) (fd_entries l))).

Definition airy_evloop_notify (write_ok : bool) (l : airy_event_loop) : Z :=
  if wakeup_fd l <? 0 then AIRY_ERR_INVALID_PARAM else if write_ok then 0 else AIRY_ERR_IO.

Definition airy_event_loop_stop_async (l : airy_event_loop) : airy_event_loop := set_running (running l) true l.

Definition airy_event_loop_wakeup (write_ok : bool) (l : airy_event_loop) : Z :=
  let rc := airy_evloop_notify write_ok l in
  if rc =? AIRY_ERR_INVALID_PARAM then AIRY_ERR_INVALID_PARAM else if rc <? 0 then AIRY_ERR_IO else 0.

(** ** Callbacks *)

Inductive action :=
  | AddTimer (interval : Z) (cb : option Z) (ud : Z)
  | CancelTimer (id : Z)
  | AddFd (fd events : Z) (cb : option Z) (ud : Z) (lt : bool) (a : ctl)
  | ModFd (fd events : Z) (ctl_ok : bool)
  | RemoveFd (fd : Z)
  | Stop
  | Wakeup (write_ok : bool).

(** A program: calls of the loop, each of which sees the results before it. *)
Inductive prog :=
  | Return
  | Do (a : action) (k : Z -> prog).

(** What happens: a call of the loop and its result; the start of a run; the time that a pass over
    the timers reads; a timer's callback and the setting of its next time; a
    descriptor's callback. *)
Inductive event :=
  | Called (a : action) (result : Z)
  | Started
  | Pass (now : Z)
  | TimerCall (id cb ud now : Z)
  | Rearm (id now : Z)
  | FdCall (fd events cb ud : Z).

Definition do_action (a : action) (l : airy_event_loop) : Z * airy_event_loop :=
  match a with
  | AddTimer interval cb ud => airy_event_loop_add_timer interval cb ud l
  | CancelTimer id => airy_event_loop_cancel_timer id l
  | AddFd fd events cb ud lt a =>
      if lt then airy_event_loop_add_fd_lt fd events cb ud a l else airy_event_loop_add_fd fd events cb ud a l
  | ModFd fd events ok => airy_event_loop_mod_fd fd events ok l
  | RemoveFd fd => (0, airy_event_loop_remove_fd fd l)
  | Stop => (0, airy_event_loop_stop_async l)
  | Wakeup ok => (airy_event_loop_wakeup ok l, l)
  end.

Fixpoint run_prog (p : prog) (l : airy_event_loop) (tr : list event) : airy_event_loop * list event :=
  match p with
  | Return => (l, tr)
  | Do a k => let '(r, l) := do_action a l in run_prog (k r) l (tr ++ [Called a r])
  end.

Section run.

(** The code of the callbacks: the program of a call, from all that happened
    up to the call itself. *)
Context (code : list event -> prog).

(** ** The main loop (airy_event_loop.c) *)

(** The body of the loop over the timers: the callback may change the slot. *)
Definition timer_slot (i : nat) (l : airy_event_loop) (tr : list event) : airy_event_loop * list event :=
  match timers l !! i with
  | None => (l, tr)
  | Some t =>
      if active t && (next_fire_ms t <=? current_time_ms l) then
        let tr := tr ++ [TimerCall (t_id t) (t_cb t) (t_ud t) (current_time_ms l)] in
        let '(l, tr) := run_prog (code tr) l tr in
        match timers l !! i with
        | None => (l, tr)
        | Some t =>
            if active t then
              (set_timers (<[i := Timer (t_id t) (interval_ms t) (u64 (current_time_ms l + interval_ms t)) (t_cb t) (t_ud t) true]>
                 (timers l)) l, tr ++ [Rearm (t_id t) (current_time_ms l)])
            else (l, tr)
        end
      else (l, tr)
  end.

Fixpoint timer_loop (todo i : nat) (l : airy_event_loop) (tr : list event) : airy_event_loop * list event :=
  match todo with
  | O => (l, tr)
  | S todo' => let '(l, tr) := timer_slot i l tr in timer_loop todo' (S i) l tr
  end.

Definition airy_timer_process (now : Z) (l : airy_event_loop) (tr : list event) : airy_event_loop * list event :=
  timer_loop AIRY_TIMER_MAX_TIMERS 0 (set_time now l) (tr ++ [Pass now]).

(** The events of a descriptor as the caller sees them. *)
Definition user_events (revents : Z) : Z :=
  Z.lor (if Z.land revents (Z.lor EPOLLIN (Z.lor EPOLLHUP EPOLLERR)) =? 0 then 0 else AIRY_EVENT_TYPE_READ)
    (if Z.land revents EPOLLOUT =? 0 then 0 else AIRY_EVENT_TYPE_WRITE).

(** [airy_evloop_wait]: the ready descriptors, without the wake-up; [None] when
    the wait failed. *)
Definition airy_evloop_wait (answer : option (list (Z * Z))) (l : airy_event_loop) : option (list (Z * Z)) :=
  match answer with
  | None => None
  | Some evs =>
      Some (map (fun p => (p.1, user_events p.2))
              (filter (fun p => ~ (0 <= wakeup_fd l /\ p.1 = wakeup_fd l)) (take (Z.to_nat (max_events l)) evs)))
  end.

Fixpoint airy_evloop_dispatch (ready : list (Z * Z)) (l : airy_event_loop) (tr : list event) : airy_event_loop * list event :=
  match ready with
  | [] => (l, tr)
  | (fd, events) :: ready' =>
      if (0 <=? fd) && (fd <? max_events l) then
        match fd_entries l !! Z.to_nat fd with
        | Some e =>
            match e_cb e with
            | Some cb =>
                let tr := tr ++ [FdCall fd events cb (e_ud e)] in
                let '(l, tr) := run_prog (code tr) l tr in
                airy_evloop_dispatch ready' l tr
            | None => airy_evloop_dispatch ready' l tr
            end
        | None => airy_evloop_dispatch ready' l tr
        end
      else airy_evloop_dispatch ready' l tr
  end.

(** One round: wait, timers, descriptors. *)
Definition run_round (answer : option (list (Z * Z))) (now : Z) (l : airy_event_loop) (tr : list event) : airy_event_loop * list event :=
  let ready := airy_evloop_wait answer l in
  let '(l, tr) := airy_timer_process now l tr in
  match ready with None => (l, tr) | Some ready => airy_evloop_dispatch ready l tr end.

(** The rounds for which the kernel has answers; [true] when the loop stopped. *)
Fixpoint run_loop (answers : list (option (list (Z * Z)) * Z)) (l : airy_event_loop) (tr : list event)
    : bool * airy_event_loop * list event :=
  if stop_requested l then (true, set_running false true l, tr)
  else
    match answers with
    | [] => (false, l, tr)
    | (answer, now) :: answers' => let '(l, tr) := run_round answer now l tr in run_loop answers' l tr
    end.

Definition airy_event_loop_run (answers : list (option (list (Z * Z)) * Z)) (l : airy_event_loop) (tr : list event) :=
  run_loop answers (set_running true false l) (tr ++ [Started]).
End run.

(** ** The abstract loop: maps of timers and descriptors *)

Record atimer := ATimer { a_interval : Z; a_due : Z; a_cb : Z; a_ud : Z }.

Record aloop := ALoop {
  live : gmap Z atimer;
  fds : gmap Z (Z * Z);
  a_last : Z;       (** the greatest identifier given out *)
  a_time : Z;       (** the time that the last pass read *)
  a_stop : bool;
  a_max : Z;
  a_wakeup : Z;
}.

Definition with_live (m : gmap Z atimer) (a : aloop) : aloop :=
  ALoop m (fds a) (a_last a) (a_time a) (a_stop a) (a_max a) (a_wakeup a).
Definition with_fds (m : gmap Z (Z * Z)) (a : aloop) : aloop :=
  ALoop (live a) m (a_last a) (a_time a) (a_stop a) (a_max a) (a_wakeup a).

(** How a time and an interval give the time that a timer is due: [Z.add], or
    the sum at 64 bits of the code. *)
Definition wrapped (t i : Z) : Z := u64 (t + i).

Section abstract.
Context (sum : Z -> Z -> Z).

(** A call with a result is possible, and what it changes. *)
Definition acall (c : action) (r : Z) (a : aloop) : option aloop :=
  match c with
  | AddTimer interval None ud => if decide (r = 0) then Some a else None
  | AddTimer interval (Some cb) ud =>
      if decide (size (live a) = AIRY_TIMER_MAX_TIMERS) then if decide (r = 0) then Some a else None
      else if decide (r = a_last a + 1) then
        Some (ALoop (<[r := ATimer interval (sum (a_time a) interval) cb ud]> (live a)) (fds a) r (a_time a) (a_stop a) (a_max a) (a_wakeup a))
      else None
  | CancelTimer id =>
      match live a !! id with
      | Some _ => if decide (r = 0) then Some (with_live (delete id (live a)) a) else None
      | None => if decide (r = if id =? 0 then AIRY_ERR_INVALID_PARAM else AIRY_ERR_NOT_FOUND) then Some a else None
      end
  | AddFd fd events cb ud lt c =>
      match cb with
      | Some cb =>
          if (0 <=? fd) && (fd <? a_max a) then
            if first_ok c || second_ok c then if decide (r = 0) then Some (with_fds (<[fd := (cb, ud)]> (fds a)) a) else None
            else if decide (r = AIRY_ERR_IO) then Some a else None
          else if decide (r = AIRY_ERR_INVALID_PARAM) then Some a else None
      | None => if decide (r = AIRY_ERR_INVALID_PARAM) then Some a else None
      end
  | ModFd fd events ok =>
      if decide (r = if (0 <=? fd) && (fd <? a_max a) then if ok : bool then 0 else AIRY_ERR_IO else AIRY_ERR_INVALID_PARAM)
      then Some a else None
  | RemoveFd fd => Some (with_fds (delete fd (fds a)) a)
  | Stop => Some (ALoop (live a) (fds a) (a_last a) (a_time a) true (a_max a) (a_wakeup a))
  | Wakeup ok =>
      if decide (r = if a_wakeup a <? 0 then AIRY_ERR_INVALID_PARAM else if ok : bool then 0 else AIRY_ERR_IO) then Some a else None
  end.

(** An event is possible: passes begin only before a stop; a timer's callback is
    called with its own data when it is there and due; a descriptor's callback
    is the one that was registered last and not removed. *)
Definition astep (a : aloop) (e : event) : option aloop :=
  match e with
  | Called c r => acall c r a
  | Started => Some (ALoop (live a) (fds a) (a_last a) (a_time a) false (a_max a) (a_wakeup a))
  | Pass now => if a_stop a then None else Some (ALoop (live a) (fds a) (a_last a) now false (a_max a) (a_wakeup a))
  | TimerCall id cb ud now =>
      match live a !! id with
      | Some t => if decide (a_cb t = cb /\ a_ud t = ud /\ now = a_time a /\ a_due t <= now) then Some a else None
      | None => None
      end
  | Rearm id now =>
      match live a !! id with
      | Some t =>
          if decide (now = a_time a) then
            Some (with_live (<[id := ATimer (a_interval t) (sum now (a_interval t)) (a_cb t) (a_ud t)]> (live a)) a)
          else None
      | None => None
      end
  | FdCall fd events cb ud => if decide (fds a !! fd = Some (cb, ud)) then Some a else None
  end.

Fixpoint accepts (a : aloop) (tr : list event) : option aloop :=
  match tr with [] => Some a | e :: tr' => a' ← astep a e; accepts a' tr' end.

Lemma accepts_app a tr1 tr2 : accepts a (tr1 ++ tr2) = a' ← accepts a tr1; accepts a' tr2.
Proof. revert a. induction tr1 as [|e tr1 IH]; intros a; [done|]. cbn [app accepts]. destruct (astep a e); cbn; [apply IH|done]. Qed.
End abstract.


(** ** How the arrays hold the maps *)

Definition timer_of (t : airy_timer_entry_t) : atimer := ATimer (interval_ms t) (next_fire_ms t) (t_cb t) (t_ud t).

Record timers_hold (ts : list airy_timer_entry_t) (m : gmap Z atimer) (last : Z) : Prop := TimersHold {
  th_len : length ts = AIRY_TIMER_MAX_TIMERS;
  th_live : forall id x, m !! id = Some x <-> exists i t, ts !! i = Some t /\ active t = true /\ t_id t = id /\ timer_of t = x;
  th_inj : forall i j t u, ts !! i = Some t -> ts !! j = Some u -> active t = true -> active u = true -> t_id t = t_id u -> i = j;
  th_ids : forall i t, ts !! i = Some t -> active t = true -> 0 < t_id t <= last;
  th_size : size m = length (filter (fun t => active t = true) ts);
}.

Definition fds_hold (es : list airy_evloop_fd_t) (m : gmap Z (Z * Z)) (max : Z) : Prop :=
  length es = Z.to_nat max /\
  forall fd cb ud, m !! fd = Some (cb, ud) <->
    0 <= fd < max /\ exists e, es !! Z.to_nat fd = Some e /\ e_cb e = Some cb /\ e_ud e = ud.

(** The kernel watches every descriptor with a callback for what it was registered for. *)
Definition armed (es : list airy_evloop_fd_t) (m : gmap Z Z) : Prop :=
  forall i e, es !! i = Some e -> is_Some (e_cb e) -> m !! Z.of_nat i = Some (epoll_mask (e_events e) (level_triggered e)).

Record relates (l : airy_event_loop) (a : aloop) : Prop := Relates {
  re_timers : timers_hold (timers l) (live a) (a_last a);
  re_last : next_timer_id l = a_last a + 1 /\ 0 <= a_last a;
  re_time : current_time_ms l = a_time a;
  re_stop : stop_requested l = a_stop a;
  re_max : max_events l = a_max a;
  re_fds : fds_hold (fd_entries l) (fds a) (a_max a);
  re_wakeup : wakeup_fd l = a_wakeup a;
  re_interest : armed (fd_entries l) (interest l);
}.

Lemma lookup_slot {A} (ts : list A) i j t u x :
  ts !! i = Some t -> <[i := u]> ts !! j = Some x <-> (i = j /\ x = u) \/ (i <> j /\ ts !! j = Some x).
Proof.
  intros Hi. pose proof (lookup_lt_Some _ _ _ Hi). destruct (decide (i = j)) as [<-|Hn].
  - rewrite list_lookup_insert_eq by done. naive_solver.
  - rewrite list_lookup_insert_ne by done. naive_solver.
Qed.

(** A free slot gets a timer with a new identifier. *)
Lemma timers_add ts m last i t u :
  timers_hold ts m last -> 0 <= last -> ts !! i = Some t -> active t = false -> active u = true -> t_id u = last + 1 ->
  timers_hold (<[i := u]> ts) (<[t_id u := timer_of u]> m) (last + 1).
Proof.
  intros [Hl Hm Hj Hd Hs] H0 Hi Ht Hu Hid. assert (m !! t_id u = None) as Hnew.
  { destruct (m !! t_id u) as [x|] eqn:Hx; [|done]. apply Hm in Hx as (k & v & Hk & Ha & Hv & _). apply Hd in Hk; [lia|done]. }
  split.
  - by rewrite length_insert.
  - intros id x. rewrite lookup_insert_Some. setoid_rewrite (lookup_slot ts i _ t u _ Hi). rewrite Hm. split.
    + intros [[<- <-]|(Hne & k & v & Hk & Ha & Hv & Hx)]; [exists i, u; naive_solver|]. exists k, v. split_and!; [|done..]. right.
      split; [|done]. intros <-. congruence.
    + intros (k & v & [[<- ->]|[Hne Hk]] & Ha & Hv & Hx); [by left|]. right. split; [|by exists k, v].
      intros <-. apply Hd in Hk; [lia|done].
  - intros j k v w Hv Hw Av Aw HE. apply (lookup_slot ts i _ t u _ Hi) in Hv, Hw.
    destruct Hv as [[<- ->]|[_ Hv]], Hw as [[<- ->]|[_ Hw]]; [done| | |by eapply Hj].
    + apply Hd in Hw; [lia|done].
    + apply Hd in Hv; [lia|done].
  - intros j v Hv Av. apply (lookup_slot ts i _ t u _ Hi) in Hv as [[_ ->]|[_ Hv]]; [lia|]. specialize (Hd j v Hv Av). lia.
  - rewrite map_size_insert_None by done. pose proof (length_filter_insert (fun t => active t = true) ts i t u Hi) as HF.
    rewrite Hs. repeat case_decide; try congruence. lia.
Qed.

(** A timer goes. *)
Lemma timers_cancel ts m last i t :
  timers_hold ts m last -> ts !! i = Some t -> active t = true ->
  timers_hold (<[i := deactivate t]> ts) (delete (t_id t) m) last.
Proof.
  intros [Hl Hm Hj Hd Hs] Hi Ht. split.
  - by rewrite length_insert.
  - intros id x. rewrite lookup_delete_Some. setoid_rewrite (lookup_slot ts i _ t _ _ Hi). rewrite Hm. split.
    + intros (Hne & k & v & Hk & Ha & Hv & Hx). exists k, v. split_and!; [|done..]. right. split; [|done]. intros <-. congruence.
    + intros (k & v & [[<- ->]|[Hne Hk]] & Ha & Hv & Hx); [done|]. split; [|by exists k, v].
      intros <-. destruct Hne. by eapply (Hj i k t v).
  - intros j k v w Hv Hw Av Aw HE. apply (lookup_slot ts i _ t _ _ Hi) in Hv, Hw.
    destruct Hv as [[<- ->]|[_ Hv]], Hw as [[<- ->]|[_ Hw]]; [done..|by eapply Hj].
  - intros j v Hv Av. apply (lookup_slot ts i _ t _ _ Hi) in Hv as [[_ ->]|[_ Hv]]; [done|]. by eapply Hd.
  - assert (m !! t_id t = Some (timer_of t)) as Hx by (apply Hm; by exists i, t).
    rewrite map_size_delete, Hx. pose proof (length_filter_insert (fun t => active t = true) ts i t (deactivate t) Hi) as HF.
    rewrite decide_True, decide_False in HF by done. rewrite Hs. lia.
Qed.

(** A timer gets a new time. *)
Lemma timers_rearm ts m last i t u :
  timers_hold ts m last -> ts !! i = Some t -> active t = true -> active u = true -> t_id u = t_id t ->
  timers_hold (<[i := u]> ts) (<[t_id u := timer_of u]> m) last.
Proof.
  intros [Hl Hm Hj Hd Hs] Hi Ht Hu Hid. split.
  - by rewrite length_insert.
  - intros id x. rewrite lookup_insert_Some. setoid_rewrite (lookup_slot ts i _ t u _ Hi). rewrite Hm. split.
    + intros [[<- <-]|(Hne & k & v & Hk & Ha & Hv & Hx)]; [exists i, u; naive_solver|]. exists k, v. split_and!; [|done..]. right.
      split; [|done]. intros <-. congruence.
    + intros (k & v & [[<- ->]|[Hne Hk]] & Ha & Hv & Hx); [by left|]. right. split; [|by exists k, v].
      intros HE. destruct Hne. eapply (Hj i k t v); congruence.
  - intros j k v w Hv Hw Av Aw HE. apply (lookup_slot ts i _ t u _ Hi) in Hv, Hw.
    destruct Hv as [[<- ->]|[Hn Hv]], Hw as [[<- ->]|[Hn' Hw]]; [done| | |by eapply Hj].
    + eapply (Hj i k t w); congruence.
    + symmetry. eapply (Hj i j t v); congruence.
  - intros j v Hv Av. apply (lookup_slot ts i _ t u _ Hi) in Hv as [[_ ->]|[_ Hv]]; [rewrite Hid|]; by eapply Hd.
  - assert (m !! t_id u = Some (timer_of t)) as Hx by (apply Hm; by exists i, t).
    rewrite map_size_insert, Hx. pose proof (length_filter_insert (fun t => active t = true) ts i t u Hi) as HF.
    rewrite !decide_True in HF by done. unfold id. rewrite Hs. lia.
Qed.

Lemma fds_set es m max fd e cb :
  fds_hold es m max -> 0 <= fd < max -> e_cb e = Some cb -> fds_hold (<[Z.to_nat fd := e]> es) (<[fd := (cb, e_ud e)]> m) max.
Proof.
  intros [Hl Hm] Hf He. split; [by rewrite length_insert|]. intros x c u.
  destruct (decide (x = fd)) as [->|Hn].
  - rewrite lookup_insert_eq, list_lookup_insert_eq by lia. naive_solver.
  - rewrite lookup_insert_ne, Hm by done. split; intros [Hx [e' He']]; (split; [done|]); exists e';
      [rewrite list_lookup_insert_ne by lia; done|rewrite list_lookup_insert_ne in He' by lia; done].
Qed.

Lemma fds_clear es m max fd : fds_hold es m max -> 0 <= fd < max -> fds_hold (<[Z.to_nat fd := no_fd]> es) (delete fd m) max.
Proof.
  intros [Hl Hm] Hf. split; [by rewrite length_insert|]. intros x c u.
  destruct (decide (x = fd)) as [->|Hn].
  - rewrite lookup_delete_eq, list_lookup_insert_eq by lia. naive_solver.
  - rewrite lookup_delete_ne, Hm by done. split; intros [Hx [e' He']]; (split; [done|]); exists e';
      [rewrite list_lookup_insert_ne by lia; done|rewrite list_lookup_insert_ne in He' by lia; done].
Qed.

Lemma fds_modify es m max fd events :
  fds_hold es m max -> 0 <= fd < max ->
  fds_hold (alter (fun e => FdEntry (e_fd e) events (e_cb e) (e_ud e) (level_triggered e)) (Z.to_nat fd) es) m max.
Proof.
  intros [Hl Hm] Hf. split; [by rewrite length_alter|]. intros x c u. rewrite Hm.
  destruct (decide (x = fd)) as [->|Hn].
  - rewrite list_lookup_alter_eq. destruct (es !! Z.to_nat fd); naive_solver.
  - split; intros [Hx [e' He']]; (split; [done|]); exists e';
      [rewrite list_lookup_alter_ne by lia; done|rewrite list_lookup_alter_ne in He' by lia; done].
Qed.

(** ** Calls *)

Lemma in_range fd max : (fd <? 0) || (max <=? fd) = negb ((0 <=? fd) && (fd <? max)).
Proof. destruct (Z.ltb_spec fd 0), (Z.leb_spec 0 fd), (Z.leb_spec max fd), (Z.ltb_spec fd max); (reflexivity || lia). Qed.

Lemma add_timer_ok interval cb ud l a :
  relates l a -> a_last a + 2 < 2 ^ 64 ->
  let '(r, l') := airy_timer_add interval cb ud l in exists a', acall wrapped (AddTimer interval cb ud) r a = Some a' /\ relates l' a'.
Proof.
  intros [Ht [Hn H0] Htm Hst Hmx Hf Hw Hi0] Hb. unfold airy_timer_add, acall. destruct cb as [cb|]; [|by exists a].
  pose proof (th_size _ _ _ Ht) as Hs. destruct (index_of _ (timers l)) as [i|] eqn:Hi.
  - apply index_of_Some in Hi as (t & Hi & Hin). apply negb_true_iff in Hin.
    pose proof (length_filter_insert (fun t => active t = true) (timers l) i t (Timer 0 0 0 0 0 true) Hi) as HF.
    rewrite decide_False, decide_True in HF by (done || congruence).
    pose proof (length_filter (fun t => active t = true) (<[i:=Timer 0 0 0 0 0 true]> (timers l))) as HL. rewrite length_insert, (th_len _ _ _ Ht) in HL.
    rewrite decide_False by (rewrite Hs; lia). rewrite decide_True by done. eexists. split; [done|].
    split; cbn [set_next_id set_timers timers next_timer_id current_time_ms stop_requested max_events fd_entries wakeup_fd
      live a_last a_time a_stop a_max fds a_wakeup]; try done.
    + rewrite Hn, Htm. apply (timers_add _ _ _ i t (Timer (a_last a + 1) interval (u64 (a_time a + interval)) cb ud true)); done.
    + rewrite u64_small; lia.
  - rewrite decide_True; [by exists a|]. rewrite Hs, <- (th_len _ _ _ Ht). by apply index_of_full.
Qed.

Lemma cancel_ok id l a :
  relates l a -> let '(r, l') := airy_timer_cancel id l in exists a', acall wrapped (CancelTimer id) r a = Some a' /\ relates l' a'.
Proof.
  intros [Ht [Hn H0] Htm Hst Hmx Hf Hw Hi0]. unfold airy_timer_cancel, acall.
  destruct (Z.eqb_spec id 0) as [->|Hz].
  - destruct (live a !! 0) as [x|] eqn:Hx; [|by exists a].
    apply (th_live _ _ _ Ht) in Hx as (i & t & Hi & Ha & Hid & _). pose proof (th_ids _ _ _ Ht _ _ Hi Ha). lia.
  - destruct (index_of _ (timers l)) as [i|] eqn:Hi.
    + apply index_of_Some in Hi as (t & Hi & [Ha <-%Z.eqb_eq]%andb_true_iff).
      assert (live a !! t_id t = Some (timer_of t)) as -> by (apply (th_live _ _ _ Ht); by exists i, t).
      rewrite decide_True by done. eexists. split; [done|]. split; try done. cbn [set_timers timers with_live live a_last].
      rewrite (alter_as_insert _ _ _ t) by done. by apply timers_cancel.
    + destruct (live a !! id) as [x|] eqn:Hx; [|by exists a].
      apply (th_live _ _ _ Ht) in Hx as (i & t & Hit & Ha & Hid & _).
      apply list_elem_of_lookup_2, (index_of_None _ _ Hi) in Hit. rewrite Ha, Hid, Z.eqb_refl in Hit. done.
Qed.

Lemma armed_set es m fd e :
  0 <= fd -> armed es m -> armed (<[Z.to_nat fd := e]> es) (<[fd := epoll_mask (e_events e) (level_triggered e)]> m).
Proof.
  intros H0 Ha i x [(<- & <- & _)|[Hn Hx]]%list_lookup_insert_Some Hc.
  - by rewrite Z2Nat.id, lookup_insert_eq.
  - rewrite lookup_insert_ne by lia. by apply Ha.
Qed.

Lemma armed_clear es m fd : 0 <= fd -> armed es m -> armed (<[Z.to_nat fd := no_fd]> es) (delete fd m).
Proof.
  intros H0 Ha i x [(<- & <- & _)|[Hn Hx]]%list_lookup_insert_Some Hc.
  - by apply is_Some_None in Hc.
  - rewrite lookup_delete_ne by lia. by apply Ha.
Qed.

Lemma add_fd_ok fd events cb ud lt c l a :
  relates l a ->
  let '(r, l') := airy_evloop_fd_add fd events cb ud lt c l in exists a', acall wrapped (AddFd fd events cb ud lt c) r a = Some a' /\ relates l' a'.
Proof.
  intros HR. pose proof (re_max _ _ HR) as Hmx. unfold airy_evloop_fd_add, airy_evloop_fd_check, acall.
  destruct cb as [cb|]; [|rewrite orb_true_r; by exists a]. rewrite (bool_decide_false (Some cb = None)), orb_false_r by done.
  destruct (Z.ltb_spec fd 0), (Z.leb_spec 0 fd); cbn [negb Z.eqb andb]; try lia; [by exists a|].
  rewrite Hmx. destruct (Z.leb_spec (a_max a) fd), (Z.ltb_spec fd (a_max a)); cbn [negb Z.eqb andb]; try lia; [by exists a|].
  unfold airy_evloop_arm. destruct (first_ok c || second_ok c); cbn [negb Z.eqb]; [|by exists a].
  rewrite decide_True by done. eexists. split; [done|]. destruct HR as [Ht Hl Htm Hst _ Hf Hw Hi0].
  split; try done; cbn [with_fds fds a_max airy_evloop_fd_track set_fds set_interest fd_entries interest].
  - by apply (fds_set _ _ _ fd (FdEntry fd events (Some cb) ud lt)).
  - by apply (armed_set _ _ fd (FdEntry fd events (Some cb) ud lt)).
Qed.

Lemma mod_fd_ok fd events ok l a :
  relates l a ->
  let '(r, l') := airy_event_loop_mod_fd fd events ok l in exists a', acall wrapped (ModFd fd events ok) r a = Some a' /\ relates l' a'.
Proof.
  intros HR. pose proof (re_max _ _ HR) as Hmx. unfold airy_event_loop_mod_fd, acall. rewrite Hmx, in_range.
  destruct ((0 <=? fd) && (fd <? a_max a)) eqn:Hr; cbn [negb]; [|by exists a]. destruct ok; cbn [negb]; [|by exists a].
  rewrite decide_True by done. exists a. split; [done|]. destruct HR as [Ht Hl Htm Hst _ Hf Hw Hi0].
  assert (0 <= fd < a_max a) by lia. split; try done; cbn [set_fds set_interest fd_entries interest].
  - by apply fds_modify.
  - destruct Hf as [Hlen _]. destruct (lookup_lt_is_Some_2 (fd_entries l) (Z.to_nat fd)) as [e He]; [lia|].
    rewrite (alter_as_insert _ _ _ e), He by done. cbn [from_option].
    apply (armed_set _ _ fd (FdEntry (e_fd e) events (e_cb e) (e_ud e) (level_triggered e))); [lia|done].
Qed.

Lemma remove_fd_ok fd l a :
  relates l a -> exists a', acall wrapped (RemoveFd fd) 0 a = Some a' /\ relates (airy_event_loop_remove_fd fd l) a'.
Proof.
  intros HR. pose proof (re_max _ _ HR) as Hmx. unfold airy_event_loop_remove_fd. rewrite Hmx, in_range. eexists. split; [done|].
  destruct HR as [Ht Hl Htm Hst _ Hf Hw Hi0]. destruct ((0 <=? fd) && (fd <? a_max a)) eqn:Hr; cbn [negb].
  - assert (0 <= fd < a_max a) by lia.
    split; try done; cbn [with_fds fds a_max set_fds set_interest fd_entries interest]; [by apply fds_clear|apply armed_clear; [lia|done]].
  - split; try done. cbn [with_fds fds a_max]. rewrite delete_id; [done|].
    destruct (fds a !! fd) as [[cb ud]|] eqn:Hx; [|done]. apply (proj2 Hf) in Hx as [? _]. lia.
Qed.

(** Every call does what the maps say, and hands out at most one identifier. *)
Lemma do_action_ok c l a :
  relates l a -> a_last a + 2 < 2 ^ 64 ->
  let '(r, l') := do_action c l in exists a', acall wrapped c r a = Some a' /\ relates l' a'.
Proof.
  intros HR Hb. destruct c as [iv cb ud|id|fd ev cb ud lt c|fd ev ok|fd| |ok]; cbn [do_action].
  - by apply add_timer_ok.
  - by apply cancel_ok.
  - pose proof (add_fd_ok fd ev cb ud lt c l a HR). by destruct lt.
  - by apply mod_fd_ok.
  - by apply remove_fd_ok.
  - eexists. split; [done|]. by destruct HR as [Ht Hl Htm Hst Hmx Hf Hw Hi0].
  - exists a. split; [|done]. cbn [acall]. rewrite decide_True; [done|]. unfold airy_event_loop_wakeup, airy_evloop_notify.
    rewrite (re_wakeup _ _ HR). destruct (a_wakeup a <? 0); [done|]. by destruct ok.
Qed.

Lemma acall_last c r a a' : acall wrapped c r a = Some a' -> a_last a <= a_last a' <= a_last a + 1.
Proof. unfold acall, with_live, with_fds. intros H. repeat case_match; simplify_eq; cbn [a_last]; lia. Qed.

Lemma astep_last e a a' : astep wrapped a e = Some a' -> a_last a <= a_last a' <= a_last a + 1.
Proof.
  destruct e; cbn [astep]; [apply acall_last|..]; intros H; repeat case_match; simplify_eq; cbn [a_last with_live]; lia.
Qed.

(** ** Runs *)

Section follow.
Context (code : list event -> prog) (a0 : aloop).

(** The trace is one of the maps, which the loop's state holds now; the
    identifiers count up and do not wrap around. *)
Definition follows (l : airy_event_loop) (tr : list event) : Prop :=
  a_last a0 + Z.of_nat (length tr) < 2 ^ 63 ->
  exists a, accepts wrapped a0 tr = Some a /\ relates l a /\ a_last a <= a_last a0 + Z.of_nat (length tr).

Lemma follows_step l l' tr e :
  follows l tr -> (forall a, relates l a -> a_last a + 2 < 2 ^ 64 -> exists a', astep wrapped a e = Some a' /\ relates l' a') ->
  follows l' (tr ++ [e]).
Proof.
  intros HF Hs Hb. rewrite length_app in Hb |- *. cbn [length] in Hb |- *. destruct HF as (a & Ha & HR & Hl); [lia|].
  destruct (Hs a HR) as (a' & He & HR'); [lia|]. exists a'. split; [|split; [done|]].
  - rewrite accepts_app, Ha. cbn [accepts mbind option_bind]. by rewrite He.
  - apply astep_last in He. lia.
Qed.

Lemma run_prog_follows p l tr : follows l tr -> let '(l', tr') := run_prog p l tr in follows l' tr'.
Proof.
  revert l tr. induction p as [|c k IH]; intros l tr HF; cbn [run_prog]; [done|].
  destruct (do_action c l) as [r l'] eqn:E. apply IH, (follows_step l); [done|]. intros a HR Hb.
  pose proof (do_action_ok c l a HR Hb) as H. by rewrite E in H.
Qed.

Lemma relates_timer l a i t :
  relates l a -> timers l !! i = Some t -> active t = true -> live a !! t_id t = Some (timer_of t).
Proof. intros HR Hi Ht. apply (th_live _ _ _ (re_timers _ _ HR)). by exists i, t. Qed.

Definition rearmed (i : nat) (t : airy_timer_entry_t) (l : airy_event_loop) : airy_event_loop :=
  set_timers (<[i := Timer (t_id t) (interval_ms t) (u64 (current_time_ms l + interval_ms t)) (t_cb t) (t_ud t) true]> (timers l)) l.

Lemma call_follows l tr i t :
  follows l tr -> timers l !! i = Some t -> active t = true -> next_fire_ms t <= current_time_ms l ->
  follows l (tr ++ [TimerCall (t_id t) (t_cb t) (t_ud t) (current_time_ms l)]).
Proof.
  intros HF Hi Ht Hd. apply (follows_step l); [done|]. intros a HR _. exists a. split; [|done]. cbn [astep].
  rewrite (relates_timer l a i t HR Hi Ht). cbn [a_cb a_ud a_due timer_of]. by rewrite decide_True by (by rewrite <- (re_time _ _ HR)).
Qed.

Lemma rearm_follows l tr i t :
  follows l tr -> timers l !! i = Some t -> active t = true -> follows (rearmed i t l) (tr ++ [Rearm (t_id t) (current_time_ms l)]).
Proof.
  intros HF Hi Ht. apply (follows_step l); [done|]. intros a HR _. cbn [astep]. rewrite (relates_timer l a i t HR Hi Ht).
  rewrite decide_True by apply (re_time _ _ HR). eexists. split; [done|]. destruct HR as [Hts Hl Htm Hst Hmx Hf Hw Hi0].
  split; try done. cbn [rearmed set_timers timers with_live live a_last].
  by apply (timers_rearm _ _ _ i t
    (Timer (t_id t) (interval_ms t) (u64 (current_time_ms l + interval_ms t)) (t_cb t) (t_ud t) true)).
Qed.

Lemma slot_follows i l tr : follows l tr -> let '(l', tr') := timer_slot code i l tr in follows l' tr'.
Proof.
  intros HF. unfold timer_slot. destruct (timers l !! i) as [t|] eqn:Hi; [|done].
  destruct (active t) eqn:Ht; cbn [andb]; [|done]. destruct (Z.leb_spec (next_fire_ms t) (current_time_ms l)); [|done].
  pose proof (call_follows l tr i t HF Hi Ht H) as HC.
  pose proof (run_prog_follows (code (tr ++ [TimerCall (t_id t) (t_cb t) (t_ud t) (current_time_ms l)])) l _ HC) as HP.
  destruct (run_prog _ _ _) as [l' tr']. destruct (timers l' !! i) as [t'|] eqn:Hi'; [|done].
  destruct (active t') eqn:Ht'; [|done]. by apply rearm_follows.
Qed.





End follow.

(** The empty maps. *)
Definition astart (max wakeup now : Z) : aloop :=
  ALoop ∅ ∅ 0 now false (if max <=? 0 then AIRY_EVENT_LOOP_MAX_EVENTS else max) wakeup.

Lemma create_follows max wakeup now c1 c2 c3 c4 c5 l :
  airy_event_loop_create max c1 c2 c3 c4 c5 wakeup now = Some l -> follows (astart max wakeup now) l [].
Proof.
  unfold airy_event_loop_create. intros H _. case_match; [|done]. apply (inj Some) in H. subst l. exists (astart max wakeup now).
  split; [done|]. split; [|done]. split; try done; cbn [timers fd_entries interest astart live a_last fds a_max].
  - split.
    + apply length_replicate.
    + intros id x. rewrite lookup_empty. split; [done|]. intros (i & t & [-> _]%lookup_replicate & Ha & _). done.
    + intros i j t u [-> _]%lookup_replicate _ Ha. done.
    + intros i t [-> _]%lookup_replicate Ha. done.
    + by vm_compute.
  - split; [apply length_replicate|]. intros fd cb ud. rewrite lookup_empty. split; [done|].
    intros (_ & e & [-> _]%lookup_replicate & Hc & _). done.
  - intros i e [-> _]%lookup_replicate Hc. by apply is_Some_None in Hc.
Qed.

(** ** Each due timer fires once in a pass *)

Definition is_fire (id : Z) (e : event) : bool := match e with TimerCall i _ _ _ => i =? id | _ => false end.
Definition is_cancel (id : Z) (e : event) : bool := match e with Called (CancelTimer i) r => (i =? id) && (r =? 0) | _ => false end.
Definition fires (id : Z) (tr : list event) : nat := length (filter (fun e => is_fire id e = true) tr).
Definition cancels (id : Z) (tr : list event) : bool := existsb (is_cancel id) tr.

Lemma fires_app id tr1 tr2 : fires id (tr1 ++ tr2) = (fires id tr1 + fires id tr2)%nat.
Proof. unfold fires. by rewrite filter_app, length_app. Qed.

Lemma cancels_app id tr1 tr2 : cancels id (tr1 ++ tr2) = cancels id tr1 || cancels id tr2.
Proof. apply existsb_app. Qed.

Ltac unfold_calls :=
  unfold airy_event_loop_add_timer, airy_event_loop_cancel_timer, airy_event_loop_add_fd_lt, airy_event_loop_add_fd,
    airy_timer_add, airy_timer_cancel, airy_evloop_fd_add, airy_evloop_arm, airy_event_loop_mod_fd, airy_event_loop_remove_fd.

Lemma do_action_time c l : current_time_ms (do_action c l).2 = current_time_ms l.
Proof. destruct c; cbn [do_action]; unfold_calls; repeat case_match; simplify_eq; done. Qed.

(** A call leaves a timer in its slot, unless it cancels it. *)
Lemma do_action_slot c l i t :
  timers l !! i = Some t -> active t = true ->
  is_cancel (t_id t) (Called c (do_action c l).1) = true \/ timers (do_action c l).2 !! i = Some t.
Proof.
  intros Hi Ht. destruct c as [iv cb ud|id|fd ev cb ud lt c|fd ev ok|fd| |ok]; cbn [do_action is_cancel]; unfold_calls;
    try (repeat case_match; simplify_eq; cbn; by auto).
  - destruct cb; [|by auto]. destruct (index_of _ _) as [j|] eqn:Hj; [|by auto]. right.
    apply index_of_Some in Hj as (u & Hj & Hu%negb_true_iff). cbn [snd set_next_id set_timers timers].
    rewrite list_lookup_insert_ne by congruence. done.
  - destruct (id =? 0); [by auto|]. destruct (index_of _ _) as [j|] eqn:Hj; [|by auto].
    apply index_of_Some in Hj as (u & Hj & [Hu Hid]%andb_true_iff). cbn [fst snd]. destruct (decide (i = j)) as [<-|Hn].
    + left. replace t with u by congruence. rewrite Z.eqb_sym, Hid. done.
    + right. cbn [set_timers timers]. by rewrite list_lookup_alter_ne.
Qed.

Lemma run_prog_extends p l tr :
  let '(l', tr') := run_prog p l tr in
  exists mid, tr' = tr ++ mid /\ (forall id, fires id mid = 0%nat) /\ current_time_ms l' = current_time_ms l /\
    (forall i t, timers l !! i = Some t -> active t = true -> cancels (t_id t) mid = true \/ timers l' !! i = Some t).
Proof.
  revert l tr. induction p as [|c k IH]; intros l tr; cbn [run_prog].
  { exists []. rewrite app_nil_r. auto. }
  pose proof (do_action_time c l) as Htm. pose proof (do_action_slot c l) as Hs. destruct (do_action c l) as [r l'].
  cbn [fst snd] in Htm, Hs. specialize (IH r l' (tr ++ [Called c r])). destruct (run_prog _ _ _) as [l'' tr''].
  destruct IH as (mid & -> & Hf & Ht & Hk). exists (Called c r :: mid). rewrite <- app_assoc. split; [done|].
  split; [intros id; apply Hf|]. split; [congruence|]. intros i t Hi Ha. cbn [cancels existsb].
  destruct (Hs i t Hi Ha) as [->|Hi']; [by left|]. destruct (Hk i t Hi' Ha) as [Hm|Hm]; [|by right].
  left. unfold cancels in Hm. by rewrite Hm, orb_true_r.
Qed.

(** Only its own turn calls the timer of slot [i]. *)
Lemma turn_count a j l i t v mid x :
  relates l a -> timers l !! i = Some t -> active t = true -> timers l !! j = Some v -> active v = true ->
  next_fire_ms v <= current_time_ms l -> (forall id, fires id mid = 0%nat) ->
  fires (t_id t) (TimerCall (t_id v) (t_cb v) (t_ud v) (current_time_ms l) :: mid ++ x) =
  ((if decide (j = i /\ (next_fire_ms t <= current_time_ms l)%Z) then 1 else 0) + fires (t_id t) x)%nat.
Proof.
  intros HR Hi Ht Hj Hv Hd Hf. change (TimerCall (t_id v) (t_cb v) (t_ud v) (current_time_ms l) :: mid ++ x)
    with ([TimerCall (t_id v) (t_cb v) (t_ud v) (current_time_ms l)] ++ mid ++ x). rewrite !fires_app, Hf. f_equal.
  unfold fires. rewrite filter_cons. cbn [is_fire]. destruct (Z.eqb_spec (t_id v) (t_id t)) as [He|He].
  - assert (j = i) as -> by (by apply (th_inj _ _ _ (re_timers _ _ HR) _ _ _ _ Hj Hi)).
    rewrite Hi in Hj. injection Hj as <-. by rewrite !decide_True.
  - rewrite decide_False by done. rewrite decide_False; [done|]. intros [-> _]. congruence.
Qed.

(** What a slot's turn does to the timer of slot [i]: it stays, unless it is
    cancelled, and other turns leave it as it is. *)
Lemma slot_fires code a j l tr i t :
  relates l a -> timers l !! i = Some t -> active t = true ->
  let '(l', tr') := timer_slot code j l tr in
  exists mid, tr' = tr ++ mid /\ current_time_ms l' = current_time_ms l /\
    (cancels (t_id t) mid = true \/
     (exists u, timers l' !! i = Some u /\ active u = true /\ t_id u = t_id t /\ (j <> i -> u = t)) /\
     fires (t_id t) mid = if decide (j = i /\ next_fire_ms t <= current_time_ms l) then 1%nat else 0%nat).
Proof.
  intros HR Hi Ht. unfold timer_slot. destruct (timers l !! j) as [v|] eqn:Hj.
  2:{ exists []. rewrite app_nil_r. split_and!; [done..|]. right. split; [by exists t|]. rewrite decide_False; [done|]. naive_solver. }
  destruct (active v && _) eqn:Hd.
  2:{ exists []. rewrite app_nil_r. split_and!; [done..|]. right. split; [by exists t|]. rewrite decide_False; [done|].
      intros [-> Hx]. rewrite Hi in Hj. injection Hj as <-. rewrite Ht in Hd. cbn [andb] in Hd. lia. }
  apply andb_true_iff in Hd as [Hv Hd%Z.leb_le].
  pose proof (run_prog_extends (code (tr ++ [TimerCall (t_id v) (t_cb v) (t_ud v) (current_time_ms l)])) l
    (tr ++ [TimerCall (t_id v) (t_cb v) (t_ud v) (current_time_ms l)])) as HP.
  destruct (run_prog _ _ _) as [l' tr']. destruct HP as (mid & -> & Hf & Htm & Hk). rewrite <- app_assoc. cbn [app].
  pose proof (fun x => turn_count a j l i t v mid x HR Hi Ht Hj Hv Hd Hf) as HN.
  pose proof (HN []) as HN0. rewrite app_nil_r, Nat.add_0_r in HN0.
  destruct (Hk i t Hi Ht) as [Hc|Hi'].
  - assert (forall x, cancels (t_id t) (TimerCall (t_id v) (t_cb v) (t_ud v) (current_time_ms l) :: mid ++ x) = true) as HC.
    { intros x. cbn [cancels existsb is_cancel orb]. fold (cancels (t_id t) (mid ++ x)). by rewrite cancels_app, Hc. }
    destruct (timers l' !! j) as [w|]; [destruct (active w)|].
    + eexists. rewrite <- app_assoc. split; [done|]. split; [done|]. left. apply HC.
    + eexists. split; [done|]. split; [done|]. left. specialize (HC []). by rewrite app_nil_r in HC.
    + eexists. split; [done|]. split; [done|]. left. specialize (HC []). by rewrite app_nil_r in HC.
  - assert (exists u, timers l' !! i = Some u /\ active u = true /\ t_id u = t_id t /\ (j <> i -> u = t)) as Hu by (by exists t).
    destruct (timers l' !! j) as [w|] eqn:Hw; [destruct (active w) eqn:Haw|].
    + eexists. rewrite <- app_assoc. split; [done|]. split; [done|]. right. split; [|etrans; [apply HN|apply Nat.add_0_r]].
      cbn [set_timers timers]. destruct (decide (j = i)) as [->|Hn].
      * rewrite list_lookup_insert_eq by (by eapply lookup_lt_Some). eexists. split; [done|].
        rewrite Hi' in Hw. injection Hw as <-. done.
      * rewrite list_lookup_insert_ne by done. by exists t.
    + eexists. split; [done|]. split; [done|]. by right.
    + eexists. split; [done|]. split; [done|]. by right.
Qed.

Lemma timer_loop_extends code todo j l tr : exists mid, (timer_loop code todo j l tr).2 = tr ++ mid.
Proof.
  revert j l tr. induction todo as [|todo IH]; intros j l tr; cbn [timer_loop]; [exists []; by rewrite app_nil_r|].
  assert (exists mid, (timer_slot code j l tr).2 = tr ++ mid) as [m Hm].
  { unfold timer_slot. destruct (timers l !! j) as [t|]; [|exists []; by rewrite app_nil_r].
    destruct (active t && _); [|exists []; by rewrite app_nil_r].
    pose proof (run_prog_extends (code (tr ++ [TimerCall (t_id t) (t_cb t) (t_ud t) (current_time_ms l)])) l
      (tr ++ [TimerCall (t_id t) (t_cb t) (t_ud t) (current_time_ms l)])) as HP.
    destruct (run_prog _ _ _) as [l' tr']. destruct HP as (mid & -> & _).
    destruct (timers l' !! j) as [u|]; [destruct (active u)|]; cbn [snd]; rewrite <- !app_assoc; by eexists. }
  destruct (timer_slot code j l tr) as [l' tr']. cbn [snd] in Hm. subst tr'. destruct (IH (S j) l' (tr ++ m)) as [m' ->].
  rewrite <- app_assoc. by eexists.
Qed.

Lemma loop_fires code a0 todo j l tr i t :
  follows a0 l tr -> timers l !! i = Some t -> active t = true ->
  let tr' := (timer_loop code todo j l tr).2 in
  a_last a0 + Z.of_nat (length tr') < 2 ^ 63 ->
  exists mid, tr' = tr ++ mid /\
    (cancels (t_id t) mid = true \/
     fires (t_id t) mid = if decide ((j <= i < j + todo)%nat /\ next_fire_ms t <= current_time_ms l) then 1%nat else 0%nat).
Proof.
  revert j l tr t. induction todo as [|todo IH]; intros j l tr t HF Hi Ht tr' Hb; subst tr'; cbn [timer_loop] in *.
  { exists []. rewrite app_nil_r. split; [done|]. right. rewrite decide_False; [done|]. lia. }
  pose proof (slot_follows code a0 j l tr HF) as HF'.
  assert (exists a, relates l a) as [a HR].
  { destruct (timer_loop_extends code (S todo) j l tr) as [m Hm]. cbn [timer_loop] in Hm. rewrite Hm, length_app in Hb.
    destruct HF as (a & _ & HR & _); [lia|]. by exists a. }
  pose proof (slot_fires code a j l tr i t HR Hi Ht) as HS.
  destruct (timer_slot code j l tr) as [l1 tr1]. destruct HS as (m1 & -> & Htm & [Hc|[(u & Hu & Hau & Hid & Hsame) Hn]]).
  - destruct (timer_loop_extends code todo (S j) l1 (tr ++ m1)) as [m2 Hm]. rewrite Hm, <- app_assoc. eexists.
    split; [done|]. left. by rewrite cancels_app, Hc.
  - destruct (IH (S j) l1 (tr ++ m1) u HF' Hu Hau Hb) as (m2 & Hm & Hr). rewrite Hm, <- app_assoc. eexists. split; [done|].
    rewrite Hid, Htm in Hr. destruct Hr as [Hr|Hr]; [left; by rewrite cancels_app, Hr, orb_true_r|]. right. rewrite fires_app, Hn, Hr.
    destruct (decide (j = i)) as [->|Hji].
    + rewrite (decide_False (P := (S i <= i < S i + todo)%nat /\ _)) by lia. repeat case_decide; lia.
    + rewrite Hsame by done. repeat case_decide; lia.
Qed.

(** ** Correctness *)






(** C22: in a pass over the timers, a timer that is there before the pass and is
    not cancelled during it has its callback called exactly once when it is due,
    and not at all when it is not, whatever the callbacks of all the timers do
    to the loop meanwhile. *)
Theorem due_timers_fire code now l a id x :
  relates l a -> stop_requested l = false -> live a !! id = Some x ->
  let tr := (airy_timer_process code now l []).2 in
  a_last a + Z.of_nat (length tr) < 2 ^ 63 -> cancels id tr = false ->
  fires id tr = if decide (a_due x <= now) then 1%nat else 0%nat.
Proof.
  intros HR Hs Hx tr Hb Hc. pose proof (proj1 (th_live _ _ _ (re_timers _ _ HR) _ _) Hx) as (i & t & Hi & Ht & <- & <-).
  assert (follows a (set_time now l) [Pass now]) as HF.
  { apply (follows_step a l (set_time now l) [] (Pass now)).
    - intros _. exists a. split; [done|]. split; [done|]. cbn [length]. lia.
    - intros b HB _. cbn [astep]. rewrite <- (re_stop _ _ HB), Hs. eexists. split; [done|].
      by destruct HB as [Hts Hl Htm Hst Hmx Hf Hw Hi0]. }
  unfold airy_timer_process in tr. cbn [app] in tr.
  destruct (loop_fires code a AIRY_TIMER_MAX_TIMERS 0 (set_time now l) [Pass now] i t HF Hi Ht Hb) as (mid & Hm & Hr).
  subst tr. rewrite Hm in Hc |- *. cbn [app cancels existsb is_cancel orb] in Hc. fold (cancels (t_id t) mid) in Hc.
  destruct Hr as [Hr|Hr]; [congruence|]. etrans; [apply Hr|]. apply lookup_lt_Some in Hi.
  rewrite (th_len _ _ _ (re_timers _ _ HR)) in Hi. cbn [timer_of a_due set_time current_time_ms]. repeat case_decide; tauto || lia.
Qed.

(** ** A run *)

(** A timer of 10 ms whose callback cancels it and asks for a longer one, which
    takes its slot; a descriptor whose callback removes it and stops the loop. *)
Definition demo_code (tr : list event) : prog :=
  match last tr with
  | Some (TimerCall 1 _ _ _) => Do (CancelTimer 1) (fun _ => Do (AddTimer 50 (Some 7) 0) (fun _ => Return))
  | Some (FdCall fd _ _ _) => Do (RemoveFd fd) (fun _ => Do Stop (fun _ => Return))
  | _ => Return
  end.

Definition demo_setup : prog :=
  Do (AddTimer 10 (Some 5) 0) (fun _ => Do (AddFd 3 1 (Some 6) 9 false (Ctl true true)) (fun _ => Do (CancelTimer 44) (fun _ => Return))).

Definition demo_answers : list (option (list (Z * Z)) * Z) :=
  [(Some [], 105); (None, 110); (Some [(4, 1); (3, 1)], 120); (Some [(3, 1)], 200)].

Definition demo_loop : airy_event_loop :=
  Loop (replicate AIRY_TIMER_MAX_TIMERS no_timer) 1 100 8 false false (replicate 8 no_fd) (-1) ∅.

Example demo_trace :
  let '(l1, tr1) := run_prog demo_setup demo_loop [] in
  (airy_event_loop_run demo_code demo_answers l1 tr1).2 =
  [Called (AddTimer 10 (Some 5) 0) 1; Called (AddFd 3 1 (Some 6) 9 false (Ctl true true)) 0; Called (CancelTimer 44) AIRY_ERR_NOT_FOUND;
   Started; Pass 105; Pass 110; TimerCall 1 5 0 110; Called (CancelTimer 1) 0; Called (AddTimer 50 (Some 7) 0) 2; Rearm 2 110; Pass 120;
   FdCall 3 1 6 9; Called (RemoveFd 3) 0; Called Stop 0].
Proof. vm_compute. reflexivity. Qed.


(** The loop once it is set up, and its maps. *)
Definition demo_ready : airy_event_loop := (run_prog demo_setup demo_loop []).1.
Definition demo_maps : aloop :=
  ALoop {[1 := ATimer 10 110 5 0]} {[3 := (6, 9)]} 1 100 false 8 (-1).

Lemma demo_relates : relates demo_ready demo_maps.
Proof.
  pose proof (run_prog_follows (astart 8 (-1) 100) demo_setup demo_loop []
    (create_follows 8 (-1) 100 true true true true true demo_loop eq_refl)) as H. unfold demo_ready.
  destruct (run_prog demo_setup demo_loop []) as [l tr] eqn:E. assert (accepts wrapped (astart 8 (-1) 100) tr = Some demo_maps) as Ha.
  { replace tr with (run_prog demo_setup demo_loop []).2 by (by rewrite E). vm_compute. reflexivity. }
  assert (length tr = 3%nat) as Hl by (replace tr with (run_prog demo_setup demo_loop []).2 by (by rewrite E); reflexivity).
  destruct H as (a & Ha' & HR & _); [by rewrite Hl|]. rewrite Ha in Ha'. apply (inj Some) in Ha' as <-. exact HR.
Qed.

Lemma due_timers_fire_witness :
  fires 1 (airy_timer_process (fun _ => Do (AddTimer 0 (Some 8) 0) (fun _ => Return)) 110 demo_ready []).2 =
  if decide (a_due (ATimer 10 110 5 0) <= 110) then 1%nat else 0%nat.
Proof.
  apply (due_timers_fire (fun _ => Do (AddTimer 0 (Some 8) 0) (fun _ => Return)) 110 demo_ready demo_maps 1 (ATimer 10 110 5 0)).
  - exact demo_relates.
  - reflexivity.
  - reflexivity.
  - vm_compute. reflexivity.
  - vm_compute. reflexivity.
Defined.

(** ** Behaviours to know of *)

(** A timer that is added between two passes, or before the loop runs, counts
    from the last time that was read, not from the time of the call: the clock
    of the call has no part in it.  A timer of 1000 ms that a program adds long
    after the loop was made at 100 is due at 1100. *)
Lemma late_timer_fires_early :
  (airy_timer_process (fun _ => Return) 1100 (airy_timer_add 1000 (Some 5) 0 demo_loop).2 []).2 =
  [Pass 1100; TimerCall 1 5 0 1100; Rearm 1 1100].
Proof. vm_compute. reflexivity. Qed.

(** A stop that comes before the run is forgotten. *)
Lemma stop_before_run_forgotten code answers l tr :
  airy_event_loop_run code answers (airy_event_loop_stop_async l) tr = airy_event_loop_run code answers l tr.
Proof. reflexivity. Qed.

(** Descriptor 0 is dispatched but never counted. *)
Lemma zero_not_counted :
  let '(l, tr) := run_prog (Do (AddFd 0 1 (Some 6) 9 false (Ctl true true)) (fun _ => Return)) demo_loop [] in
  airy_event_loop_get_fd_count l = 0 /\ (airy_evloop_dispatch (fun _ => Return) [(0, 1)] l []).2 = [FdCall 0 1 6 9].
Proof. vm_compute. done. Qed.

(** An interval that leaves 64 bits fires at once. *)
Lemma huge_interval_fires :
  (airy_timer_process (fun _ => Return) 100 (airy_timer_add (2 ^ 64 - 1) (Some 5) 0 demo_loop).2 []).2 =
  [Pass 100; TimerCall 1 5 0 100; Rearm 1 100].
Proof. vm_compute. reflexivity. Qed.
