(* ===== verification/Ext.v ===== *)
(** * The extension registry: utils/ext/airy_ext.c and airy_providers.c

    A fixed array of slots per domain, whose names and versions are copies that
    the registry owns.  The copies are blocks of a heap, so that a copy that is
    lost, freed twice or read after it was freed shows. *)
From S2P Require Import Prelude Keyed ErrCodes.

(** ** Data *)

Definition AIRY_EXT_DOMAIN_MAX : Z := 5.
Definition AIRY_EXT_MAX_PER_DOMAIN : nat := 16.
Definition AIRY_EXT_FLAG_BUILTIN : Z := 1.
Definition AIRY_EXT_FLAG_REMOTE : Z := 2.
Definition AIRY_EXT_DOMAIN_LLM : Z := 1.
Definition AIRY_EXT_DOMAIN_TOOL : Z := 2.
Definition AIRY_EXT_DOMAIN_STORAGE : Z := 3.
Definition AIRY_EXT_DOMAIN_SANDBOX : Z := 4.

(** What is not a string is kept as it is given: the capabilities, and the
    vtable and the instance as addresses, where 0 is NULL. *)
Record payload := Payload { feature_bits : Z; flags : Z; vtable : Z; impl : Z }.

(** An extension with pointers into the heap. *)
Record airy_extension_t := Ext { domain : Z; name : option positive; version : option positive; body : payload }.

Record airy_ext_slot_t := Slot { ext : airy_extension_t; in_use : bool }.

(** [g_registry], row by row, and the blocks that [AIRY_STRDUP] granted. *)
Record registry := Registry { slots : list airy_ext_slot_t; blocks : gmap positive cstr }.

Definition no_payload : payload := Payload 0 0 0 0.
Definition no_slot : airy_ext_slot_t := Slot (Ext 0 None None no_payload) false.
Definition empty_registry : registry := Registry (replicate 80 no_slot) ∅.

(** What a caller passes: a structure of its own, or the pointer into the
    registry that [airy_ext_get] returned. *)
Record request := Request { r_domain : Z; r_name : option cstr; r_version : option cstr; r_body : payload }.
Inductive ext_ref := Own (r : request) | Shared (i : nat).

(** ** Blocks: [None] is the use of a block that is not there *)

Definition strdup (ok : bool) (text : cstr) (g : registry) : option positive * registry :=
  if ok then let p := fresh (dom (blocks g)) in (Some p, Registry (slots g) (<[p := text]> (blocks g))) else (None, g).

Definition free_block (p : option positive) (g : registry) : option registry :=
  match p with
  | None => Some g
  | Some p => _ ← blocks g !! p; Some (Registry (slots g) (delete p (blocks g)))
  end.

Definition text_at (p : option positive) (g : registry) : option (option cstr) :=
  match p with None => Some None | Some p => t ← blocks g !! p; Some (Some t) end.

Definition set_slot (i : nat) (s : airy_ext_slot_t) (g : registry) : registry := Registry (<[i := s]> (slots g)) (blocks g).

Definition deref (r : ext_ref) (g : registry) : option request :=
  match r with
  | Own r => Some r
  | Shared i =>
      s ← slots g !! i;
      n ← text_at (name (ext s)) g;
      v ← text_at (version (ext s)) g;
      Some (Request (domain (ext s)) n v (body (ext s)))
  end.

(** ** The registry *)

Definition valid_domain (d : Z) : bool := (0 <=? d) && (d <? AIRY_EXT_DOMAIN_MAX).
Definition row (d : Z) : nat := (Z.to_nat d * AIRY_EXT_MAX_PER_DOMAIN)%nat.
Definition row_slots (d : Z) (g : registry) : list airy_ext_slot_t := take AIRY_EXT_MAX_PER_DOMAIN (drop (row d) (slots g)).

Definition airy_ext_slot_clear (i : nat) (g : registry) : option registry :=
  s ← slots g !! i;
  g ← free_block (name (ext s)) g;
  g ← free_block (version (ext s)) g;
  Some (set_slot i (Slot (Ext (domain (ext s)) None None (body (ext s))) false) g).

(** The loop reads the names of the slots in use until one is equal. *)
Fixpoint find_loop (l : list airy_ext_slot_t) (i : nat) (n : cstr) (g : registry) : option (option nat) :=
  match l with
  | [] => Some None
  | s :: l' =>
      if in_use s then
        t ← text_at (name (ext s)) g;
        if bool_decide (t = Some n) then Some (Some i) else find_loop l' (S i) n g
      else find_loop l' (S i) n g
  end.

Definition airy_ext_find (d : Z) (n : cstr) (g : registry) : option (option nat) := find_loop (row_slots d g) (row d) n g.

(** The slot is zeroed before the domain and the rest of the extension are read. *)
Definition fill_slot (i : nat) (np vp : positive) (r : ext_ref) (g : registry) : option registry :=
  let g := set_slot i (Slot (Ext 0 None None no_payload) (from_option in_use false (slots g !! i))) g in
  e ← deref r g;
  Some (set_slot i (Slot (Ext (r_domain e) (Some np) (Some vp) (r_body e)) true) g).

Definition airy_ext_register (name_ok version_ok : bool) (r : ext_ref) (g : registry) : option (Z * registry) :=
  e ← deref r g;
  match r_name e with
  | None => Some (AIRY_EINVAL, g)
  | Some n =>
      if negb (valid_domain (r_domain e)) then Some (AIRY_EINVAL, g)
      else
        match strdup name_ok n g with
        | (None, g) => Some (AIRY_ENOMEM, g)
        | (Some np, g) =>
            match strdup version_ok (default (cs "0.0.0") (r_version e)) g with
            | (None, g) => g ← free_block (Some np) g; Some (AIRY_ENOMEM, g)
            | (Some vp, g) =>
                found ← airy_ext_find (r_domain e) n g;
                match found with
                | Some i => g ← airy_ext_slot_clear i g; g ← fill_slot i np vp r g; Some (0, g)
                | None =>
                    match index_of (fun s => negb (in_use s)) (row_slots (r_domain e) g) with
                    | Some k => g ← fill_slot (row (r_domain e) + k) np vp r g; Some (0, g)
                    | None => g ← free_block (Some np) g; g ← free_block (Some vp) g; Some (AIRY_ENOSPC, g)
                    end
                end
            end
        end
  end.

Definition airy_ext_unregister (d : Z) (n : option cstr) (g : registry) : option (Z * registry) :=
  match n with
  | None => Some (AIRY_EINVAL, g)
  | Some n =>
      if negb (valid_domain d) then Some (AIRY_EINVAL, g)
      else
        found ← airy_ext_find d n g;
        match found with None => Some (AIRY_ENOENT, g) | Some i => g ← airy_ext_slot_clear i g; Some (0, g) end
  end.

(** The slot whose extension is returned. *)
Definition airy_ext_get (d : Z) (n : option cstr) (g : registry) : option (option nat) :=
  match n with
  | None => Some None
  | Some n => if negb (valid_domain d) then Some None else airy_ext_find d n g
  end.

Definition airy_ext_count (d : Z) (g : registry) : nat :=
  if negb (valid_domain d) then 0 else length (filter (fun s => in_use s = true) (row_slots d g)).

(** The extensions that the callback sees, in order. *)
Definition airy_ext_foreach (d : Z) (g : registry) : list airy_extension_t :=
  if negb (valid_domain d) then [] else ext <$> filter (fun s => in_use s = true) (row_slots d g).

Fixpoint clear_loop (todo i : nat) (g : registry) : option registry :=
  match todo with O => Some g | S todo' => g ← airy_ext_slot_clear i g; clear_loop todo' (S i) g end.

Definition airy_ext_clear (d : Z) (g : registry) : option registry :=
  if negb (valid_domain d) then Some g else clear_loop AIRY_EXT_MAX_PER_DOMAIN (row d) g.

Definition airy_ext_domain_name (d : Z) : cstr :=
  match d with
  | 0 => cs "memory" | 1 => cs "llm" | 2 => cs "tool" | 3 => cs "storage" | 4 => cs "sandbox" | _ => cs "UNKNOWN"
  end.

(** ** Providers (airy_providers.c): the vtable is the provider itself *)

Record provider := Provider { p_address : Z; p_name : option cstr; p_version : option cstr; p_impl : Z; p_methods : bool }.

Definition airy_provider_register_common (name_ok version_ok : bool) (d : Z) (p : provider) (fl : Z) (g : registry) : option (Z * registry) :=
  if bool_decide (p_name p = None) || (p_address p =? 0) then Some (AIRY_EINVAL, g)
  else
    airy_ext_register name_ok version_ok
      (Own (Request d (p_name p) (Some (default (cs "0.0.0") (p_version p))) (Payload 0 fl (p_address p) (p_impl p)))) g.

(** [p_methods]: whether the methods that the domain asks for are there. *)
Definition airy_provider_register (name_ok version_ok : bool) (d : Z) (p : option provider) (fl : Z) (g : registry) : option (Z * registry) :=
  match p with
  | None => Some (AIRY_EINVAL, g)
  | Some p => if negb (p_methods p) then Some (AIRY_EINVAL, g) else airy_provider_register_common name_ok version_ok d p fl g
  end.

Definition airy_llm_provider_register (n v : bool) (p : option provider) (g : registry) : option (Z * registry) :=
  airy_provider_register n v AIRY_EXT_DOMAIN_LLM p AIRY_EXT_FLAG_REMOTE g.
Definition airy_tool_provider_register (n v : bool) (p : option provider) (g : registry) : option (Z * registry) :=
  airy_provider_register n v AIRY_EXT_DOMAIN_TOOL p AIRY_EXT_FLAG_REMOTE g.
Definition airy_storage_provider_register (n v : bool) (p : option provider) (g : registry) : option (Z * registry) :=
  airy_provider_register n v AIRY_EXT_DOMAIN_STORAGE p AIRY_EXT_FLAG_BUILTIN g.
Definition airy_sandbox_provider_register (n v : bool) (p : option provider) (g : registry) : option (Z * registry) :=
  airy_provider_register n v AIRY_EXT_DOMAIN_SANDBOX p AIRY_EXT_FLAG_BUILTIN g.
Definition airy_llm_provider_unregister (n : option cstr) (g : registry) : option (Z * registry) := airy_ext_unregister AIRY_EXT_DOMAIN_LLM n g.
Definition airy_tool_provider_unregister (n : option cstr) (g : registry) : option (Z * registry) := airy_ext_unregister AIRY_EXT_DOMAIN_TOOL n g.
Definition airy_storage_provider_unregister (n : option cstr) (g : registry) : option (Z * registry) := airy_ext_unregister AIRY_EXT_DOMAIN_STORAGE n g.
Definition airy_sandbox_provider_unregister (n : option cstr) (g : registry) : option (Z * registry) := airy_ext_unregister AIRY_EXT_DOMAIN_SANDBOX n g.

(** ** The abstract registry: a map from domain and name *)

Abbreviation entry := (cstr * payload)%type.
Abbreviation amap := (gmap (Z * cstr) entry).

Definition in_domain (d : Z) (m : amap) : nat := size (filter (fun p => p.1.1 = d) m).

(** The place of a pointer: a slot and whether it is the name. *)
Definition ptr_of (s : airy_ext_slot_t) (b : bool) : option positive := if b then name (ext s) else version (ext s).
Definition ptr_at (ss : list airy_ext_slot_t) (k : nat) (b : bool) : option positive := s ← ss !! k; ptr_of s b.

(** The registry, with blocks [extra] that no slot holds yet, holds the map. *)
Record holds (g : registry) (extra : list positive) (m : amap) : Prop := Holds {
  ho_len : length (slots g) = 80%nat;
  ho_free : forall k s, slots g !! k = Some s -> in_use s = false -> name (ext s) = None /\ version (ext s) = None;
  ho_used : forall k s, slots g !! k = Some s -> in_use s = true ->
    domain (ext s) = Z.of_nat (k / 16) /\ exists np vp, name (ext s) = Some np /\ version (ext s) = Some vp;
  ho_map : forall d n v b, m !! (d, n) = Some (v, b) <->
    exists k s np vp, slots g !! k = Some s /\ in_use s = true /\ domain (ext s) = d /\ body (ext s) = b /\
      name (ext s) = Some np /\ version (ext s) = Some vp /\ blocks g !! np = Some n /\ blocks g !! vp = Some v;
  ho_key : forall k1 k2 s1 s2 p1 p2, slots g !! k1 = Some s1 -> slots g !! k2 = Some s2 ->
    in_use s1 = true -> in_use s2 = true -> domain (ext s1) = domain (ext s2) ->
    name (ext s1) = Some p1 -> name (ext s2) = Some p2 -> blocks g !! p1 = blocks g !! p2 -> k1 = k2;
  ho_block : forall p, is_Some (blocks g !! p) <-> (p ∈ extra \/ exists k b, ptr_at (slots g) k b = Some p);
  ho_inj : forall k1 b1 k2 b2 p, ptr_at (slots g) k1 b1 = Some p -> ptr_at (slots g) k2 b2 = Some p -> k1 = k2 /\ b1 = b2;
  ho_extra : forall k b p, ptr_at (slots g) k b = Some p -> (p ∉ extra);
  ho_nodup : NoDup extra;
}.

Lemma empty_holds : holds empty_registry [] ∅.
Proof.
  assert (forall k s, slots empty_registry !! k = Some s -> s = no_slot) as H by (intros k s [-> _]%lookup_replicate; done).
  assert (forall k b, ptr_at (slots empty_registry) k b = None) as Hp.
  { intros k b. unfold ptr_at. destruct (slots empty_registry !! k) as [s|] eqn:E; [|done]. apply H in E as ->. by destruct b. }
  split; try done.
  - intros k s E _. by rewrite (H k s E).
  - intros k s E Hu. by rewrite (H k s E) in Hu.
  - intros d n v b. rewrite lookup_empty. split; [done|]. intros (k & s & np & vp & E & Hu & _). by rewrite (H k s E) in Hu.
  - intros k1 k2 s1 s2 p1 p2 E _ Hu. by rewrite (H k1 s1 E) in Hu.
  - intros p. cbn [blocks empty_registry]. rewrite lookup_empty. split; [by intros []|]. intros [Hx|(k & b & Hx)]; [by apply elem_of_nil in Hx|].
    by rewrite Hp in Hx.
  - intros k1 b1 k2 b2 p Hx. by rewrite Hp in Hx.
  - intros k b p Hx. by rewrite Hp in Hx.
  - constructor.
Qed.

Lemma ptr_of_at ss k s b : ss !! k = Some s -> ptr_at ss k b = ptr_of s b.
Proof. intros H. unfold ptr_at. by rewrite H. Qed.

(** Blocks that no slot holds may come and go. *)
Lemma holds_frame g m extra h extra' :
  holds g extra m -> (forall k b q, ptr_at (slots g) k b = Some q -> h !! q = blocks g !! q) ->
  (forall p, is_Some (h !! p) <-> (p ∈ extra' \/ exists k b, ptr_at (slots g) k b = Some p)) ->
  (forall k b p, ptr_at (slots g) k b = Some p -> (p ∉ extra')) -> NoDup extra' -> holds (Registry (slots g) h) extra' m.
Proof.
  intros H Hs Hb He Hn. assert (forall k s b q, slots g !! k = Some s -> ptr_of s b = Some q -> h !! q = blocks g !! q) as Hsame.
  { intros k s b q Hk Hq. apply (Hs k b). by rewrite (ptr_of_at _ _ s). }
  split; cbn [slots blocks]; try done; try apply H.
  - intros d n v b. rewrite (ho_map _ _ _ H). split; intros (k & s & np & vp & Hx & Hu & Hd & Hy & Hnp & Hvp & H1 & H2);
      exists k, s, np, vp; pose proof (Hsame k s true np Hx Hnp) as E1; pose proof (Hsame k s false vp Hx Hvp) as E2;
      split_and!; congruence.
  - intros k1 k2 s1 s2 p1 p2 E1 E2 U1 U2 Hd N1 N2 HE. rewrite (Hsame k1 s1 true p1 E1 N1), (Hsame k2 s2 true p2 E2 N2) in HE.
    by eapply (ho_key _ _ _ H k1 k2 s1 s2).
Qed.

Lemma strdup_holds ok t g m extra p g' :
  holds g extra m -> strdup ok t g = (p, g') ->
  match p with
  | None => g' = g
  | Some p => holds g' (p :: extra) m /\ blocks g' !! p = Some t /\ slots g' = slots g /\ (forall q, is_Some (blocks g !! q) -> blocks g' !! q = blocks g !! q)
  end.
Proof.
  intros H Hs. unfold strdup in Hs. destruct ok; injection Hs as <- <-; [|done]. set (p := fresh (dom (blocks g))).
  assert (blocks g !! p = None) as Hn by (apply not_elem_of_dom, is_fresh).
  assert (forall q, is_Some (blocks g !! q) -> <[p := t]> (blocks g) !! q = blocks g !! q) as Hk.
  { intros q [x Hq]. apply lookup_insert_ne. congruence. }
  assert (forall q, q ∈ extra \/ (exists k b, ptr_at (slots g) k b = Some q) -> is_Some (blocks g !! q)) as Hin by (intros q; apply (ho_block _ _ _ H)).
  split; [|split; [apply lookup_insert_eq|done]]. apply (holds_frame _ _ _ _ _ H).
  - intros k b q Hq. apply Hk, Hin. eauto.
  - intros q. rewrite elem_of_cons. destruct (decide (q = p)) as [->|Hne]; [rewrite lookup_insert_eq; naive_solver|].
    rewrite lookup_insert_ne by done. rewrite (ho_block _ _ _ H). naive_solver.
  - intros k b q Hq [->|Hx]%elem_of_cons; [|by eapply (ho_extra _ _ _ H)]. destruct (Hin p) as [? ?]; [eauto|congruence].
  - constructor; [|apply H]. intros Hx. destruct (Hin p) as [? ?]; [eauto|congruence].
Qed.

Lemma free_holds g m extra p : holds g (p :: extra) m -> exists g', free_block (Some p) g = Some g' /\ holds g' extra m.
Proof.
  intros H. assert (is_Some (blocks g !! p)) as [x Hx] by (apply (ho_block _ _ _ H); left; by left).
  unfold free_block. rewrite Hx. eexists. split; [done|].
  assert (forall k b q, ptr_at (slots g) k b = Some q -> (q ∉ p :: extra)) as Hp by apply (ho_extra _ _ _ H).
  pose proof (ho_nodup _ _ _ H) as [Hn Hn']%NoDup_cons. apply (holds_frame _ _ _ _ _ H); [| | |done].
  - intros k b q Hq%Hp. apply lookup_delete_ne. set_solver.
  - intros q. destruct (decide (q = p)) as [->|Hne].
    + rewrite lookup_delete_eq. split; [by intros []|]. intros [Hx'|(k & b & Hq%Hp)]; [done|set_solver].
    + rewrite lookup_delete_ne by done. rewrite (ho_block _ _ _ H), elem_of_cons. naive_solver.
  - intros k b q Hq%Hp. set_solver.
Qed.

(** ** Clearing and filling a slot *)

Lemma ptr_at_insert ss k j s b :
  (k < length ss)%nat -> ptr_at (<[k := s]> ss) j b = if decide (k = j) then ptr_of s b else ptr_at ss j b.
Proof.
  intros Hk. unfold ptr_at. case_decide as E; [subst; by rewrite list_lookup_insert_eq|by rewrite list_lookup_insert_ne].
Qed.

Lemma used_slot g extra m k s :
  holds g extra m -> slots g !! k = Some s -> in_use s = true ->
  exists np vp n v, name (ext s) = Some np /\ version (ext s) = Some vp /\ blocks g !! np = Some n /\ blocks g !! vp = Some v /\ np <> vp /\
    m !! (domain (ext s), n) = Some (v, body (ext s)).
Proof.
  intros H Hk Hu. destruct (ho_used _ _ _ H k s Hk Hu) as (_ & np & vp & Hn & Hv).
  assert (ptr_at (slots g) k true = Some np) as P1 by (by rewrite (ptr_of_at _ _ s)).
  assert (ptr_at (slots g) k false = Some vp) as P2 by (by rewrite (ptr_of_at _ _ s)).
  assert (is_Some (blocks g !! np)) as [n Hbn] by (apply (ho_block _ _ _ H); eauto).
  assert (is_Some (blocks g !! vp)) as [v Hbv] by (apply (ho_block _ _ _ H); eauto).
  exists np, vp, n, v. split_and!; try done.
  - intros ->. destruct (ho_inj _ _ _ H k true k false vp P1 P2) as [_ [=]].
  - apply (ho_map _ _ _ H). exists k, s, np, vp. done.
Qed.

Lemma clear_free_id g extra m k s :
  holds g extra m -> slots g !! k = Some s -> in_use s = false -> airy_ext_slot_clear k g = Some g.
Proof.
  intros H Hk Hu. destruct (ho_free _ _ _ H k s Hk Hu) as [Hn Hv]. unfold airy_ext_slot_clear. rewrite Hk. cbn [mbind option_bind].
  rewrite Hn, Hv. cbn [free_block mbind option_bind]. unfold set_slot.
  destruct s as [[d n v b] u]. cbn in *. subst. rewrite list_insert_id by done. by destruct g.
Qed.

Section cleared.
Context (g : registry) (extra : list positive) (m : amap) (k : nat) (s : airy_ext_slot_t) (np vp : positive) (n v : cstr).
Context (H : holds g extra m) (Hk : slots g !! k = Some s) (Hu : in_use s = true).
Context (Hn : name (ext s) = Some np) (Hv : version (ext s) = Some vp) (Hbn : blocks g !! np = Some n).

Let h := delete vp (delete np (blocks g)).
Let s' := Slot (Ext (domain (ext s)) None None (body (ext s))) false.
Let ss := <[k := s']> (slots g).

Lemma cleared_lt : (k < length (slots g))%nat.
Proof using Hk. by eapply lookup_lt_Some. Qed.

Lemma cleared_other q : ptr_at (slots g) k true <> Some q -> ptr_at (slots g) k false <> Some q -> h !! q = blocks g !! q.
Proof using Hk Hn Hv.
  intros H1 H2. unfold h. rewrite (ptr_of_at _ _ s) in H1, H2 by done. cbn [ptr_of] in H1, H2. rewrite !lookup_delete_ne by congruence. done.
Qed.

Lemma cleared_ptr j b q : ptr_at (slots g) j b = Some q -> k <> j -> h !! q = blocks g !! q.
Proof using H Hk Hn Hv. intros Hq Hj. apply cleared_other; intros Hq'; by destruct (ho_inj _ _ _ H _ _ _ _ _ Hq Hq') as [<- _]. Qed.

Lemma cleared_field j x b q : slots g !! j = Some x -> k <> j -> ptr_of x b = Some q -> h !! q = blocks g !! q.
Proof using H Hk Hn Hv. intros Hx Hj Hq. apply (cleared_ptr j b q); [|done]. by rewrite (ptr_of_at _ _ x). Qed.

Lemma cleared_extra q : q ∈ extra -> h !! q = blocks g !! q.
Proof using H Hk Hn Hv. intros Hq. apply cleared_other; intros Hq'; by apply (ho_extra _ _ _ H) in Hq'. Qed.

Lemma cleared_ptrs j b q : ptr_at ss j b = Some q -> k <> j /\ ptr_at (slots g) j b = Some q.
Proof using Hk. unfold ss. rewrite ptr_at_insert by apply cleared_lt. case_decide; [|done]. by destruct b. Qed.

Lemma cleared_used j x : ss !! j = Some x -> in_use x = true -> k <> j /\ slots g !! j = Some x.
Proof using. intros [(_ & <- & _)|[Hj Hx]]%list_lookup_insert_Some Hux; done. Qed.

Lemma cleared_map d t w b :
  delete (domain (ext s), n) m !! (d, t) = Some (w, b) <->
  exists j x p q, ss !! j = Some x /\ in_use x = true /\ domain (ext x) = d /\ body (ext x) = b /\
    name (ext x) = Some p /\ version (ext x) = Some q /\ h !! p = Some t /\ h !! q = Some w.
Proof using H Hk Hu Hn Hv Hbn.
  rewrite lookup_delete_Some, (ho_map _ _ _ H). split.
  - intros (Hd & j & x & p & q & Hx & Hux & <- & <- & Hnp & Hvp & H1 & H2). assert (k <> j) as Hj by (intros <-; congruence).
    exists j, x, p, q. unfold ss. rewrite list_lookup_insert_ne by done. rewrite (cleared_field j x true p), (cleared_field j x false q) by done. done.
  - intros (j & x & p & q & Hx & Hux & <- & <- & Hnp & Hvp & H1 & H2). destruct (cleared_used j x Hx Hux) as [Hj Hx'].
    rewrite (cleared_field j x true p) in H1 by done. rewrite (cleared_field j x false q) in H2 by done.
    split; [|by exists j, x, p, q]. intros [= E1 E2]. destruct Hj. eapply (ho_key _ _ _ H k j s x np p); congruence.
Qed.

Lemma cleared_block q : is_Some (h !! q) <-> (q ∈ extra \/ exists j b, ptr_at ss j b = Some q).
Proof using H Hk Hn Hv.
  split.
  - intros [y Hy]. unfold h in Hy. rewrite !lookup_delete_Some in Hy. destruct Hy as (Hq1 & Hq2 & Hy).
    destruct (proj1 (ho_block _ _ _ H q)) as [Hq|(j & b & Hq)]; [by exists y|by left|]. right. exists j, b.
    unfold ss. rewrite ptr_at_insert by apply cleared_lt. case_decide as Ej; [|done]. subst j. rewrite (ptr_of_at _ _ s) in Hq by done.
    destruct b; cbn [ptr_of] in Hq; congruence.
  - intros [Hq|(j & b & Hq)]; [rewrite cleared_extra by done; apply (ho_block _ _ _ H); by left|].
    apply cleared_ptrs in Hq as [Hj Hq]. rewrite (cleared_ptr j b q) by done. apply (ho_block _ _ _ H). eauto.
Qed.

Lemma cleared_holds : holds (Registry ss h) extra (delete (domain (ext s), n) m).
Proof using H Hk Hu Hn Hv Hbn.
  split; cbn [slots blocks].
  - unfold ss. rewrite length_insert. apply H.
  - intros j x [(_ & <- & _)|[Hj Hx]]%list_lookup_insert_Some Hux; [done|]. by eapply (ho_free _ _ _ H).
  - intros j x Hx Hux. destruct (cleared_used j x Hx Hux) as [_ Hx']. by eapply (ho_used _ _ _ H).
  - exact cleared_map.
  - intros j1 j2 x1 x2 p1 p2 E1 E2 U1 U2 Hd N1 N2 HE. destruct (cleared_used j1 x1 E1 U1) as [J1 E1'], (cleared_used j2 x2 E2 U2) as [J2 E2'].
    rewrite (cleared_field j1 x1 true p1), (cleared_field j2 x2 true p2) in HE by done. by eapply (ho_key _ _ _ H j1 j2 x1 x2 p1 p2).
  - exact cleared_block.
  - intros j1 b1 j2 b2 q Q1 Q2. apply cleared_ptrs in Q1 as [_ Q1]. apply cleared_ptrs in Q2 as [_ Q2]. by apply (ho_inj _ _ _ H j1 b1 j2 b2 q).
  - intros j b q Hq. apply cleared_ptrs in Hq as [_ Hq]. by eapply (ho_extra _ _ _ H).
  - apply H.
Qed.
End cleared.

Lemma clear_used_holds g extra m k s :
  holds g extra m -> slots g !! k = Some s -> in_use s = true ->
  exists g' np n s', airy_ext_slot_clear k g = Some g' /\ name (ext s) = Some np /\ blocks g !! np = Some n /\
    holds g' extra (delete (domain (ext s), n) m) /\ slots g' !! k = Some s' /\ in_use s' = false /\
    (forall j, j <> k -> slots g' !! j = slots g !! j) /\
    (forall q, q ∈ extra -> blocks g' !! q = blocks g !! q).
Proof.
  intros H Hk Hu. destruct (used_slot _ _ _ _ _ H Hk Hu) as (np & vp & n & v & Hn & Hv & Hbn & Hbv & Hne & Hm).
  unfold airy_ext_slot_clear. rewrite Hk. cbn [mbind option_bind]. rewrite Hn, Hv.
  cbn [free_block mbind option_bind blocks]. rewrite Hbn. cbn [mbind option_bind blocks slots]. rewrite lookup_delete_ne, Hbv by done.
  eexists _, np, n, _. split; [done|]. split; [done|]. split; [done|].
  split; [exact (cleared_holds g extra m k s np vp n H Hk Hu Hn Hv Hbn)|].
  split; [by apply list_lookup_insert_eq, (cleared_lt g k s)|]. split; [done|].
  split; [intros j Hj; cbn [set_slot slots]; by rewrite list_lookup_insert_ne|]. intros q Hq. by apply (cleared_extra g extra m k s np vp).
Qed.

(** A slot that is free gets the two blocks that no slot holds. *)
Section filled.
Context (g : registry) (m : amap) (k : nat) (s : airy_ext_slot_t) (np vp : positive) (n v : cstr) (d : Z) (b : payload).
Context (H : holds g [vp; np] m) (Hk : slots g !! k = Some s) (Hu : in_use s = false).
Context (Hbn : blocks g !! np = Some n) (Hbv : blocks g !! vp = Some v) (Hd : d = Z.of_nat (k / 16)) (Hm : m !! (d, n) = None).

Let s' := Slot (Ext d (Some np) (Some vp) b) true.
Let ss := <[k := s']> (slots g).

Lemma filled_used j x : ss !! j = Some x -> in_use x = true -> (j = k /\ x = s') \/ (k <> j /\ slots g !! j = Some x).
Proof using. clear. intros [(-> & <- & _)|[Hj Hx]]%list_lookup_insert_Some Hux; [by left|by right]. Qed.

Lemma filled_ptr j c q : ptr_at ss j c = Some q <-> (j = k /\ q = if c then np else vp) \/ (j <> k /\ ptr_at (slots g) j c = Some q).
Proof using Hk.
  clear -Hk.
  unfold ss. rewrite ptr_at_insert by (by eapply lookup_lt_Some). case_decide as E; [subst j|]; [|naive_solver].
  destruct c; cbn [ptr_of s' ext name version]; naive_solver.
Qed.

Lemma filled_map e t w c :
  <[(d, n) := (v, b)]> m !! (e, t) = Some (w, c) <->
  exists j x p q, ss !! j = Some x /\ in_use x = true /\ domain (ext x) = e /\ body (ext x) = c /\
    name (ext x) = Some p /\ version (ext x) = Some q /\ blocks g !! p = Some t /\ blocks g !! q = Some w.
Proof using H Hk Hu Hbn Hbv Hm.
  clear -H Hk Hu Hbn Hbv Hm.
  pose proof (lookup_lt_Some _ _ _ Hk) as Hlt. rewrite lookup_insert_Some, (ho_map _ _ _ H). split.
  - intros [[[= <- <-] [= <- <-]]|(_ & j & x & p & q & Hx & Hux & Hr)].
    + exists k, s', np, vp. unfold ss. by rewrite list_lookup_insert_eq.
    + exists j, x, p, q. assert (k <> j) as Hj by (intros <-; congruence). unfold ss. by rewrite list_lookup_insert_ne.
  - intros (j & x & p & q & Hx & Hux & Hr). destruct (filled_used j x Hx Hux) as [[-> ->]|[Hj Hx']].
    + cbn in Hr. left. destruct Hr as (<- & <- & [= <-] & [= <-] & H1 & H2). rewrite Hbn in H1. rewrite Hbv in H2.
      injection H1 as <-. by injection H2 as <-.
    + right. split; [|by exists j, x, p, q]. intros [= <- <-]. assert (m !! (d, n) = Some (w, c)) as HS; [|by rewrite Hm in HS].
      apply (ho_map _ _ _ H). by exists j, x, p, q.
Qed.

Lemma filled_key j1 j2 x1 x2 p1 p2 :
  ss !! j1 = Some x1 -> ss !! j2 = Some x2 -> in_use x1 = true -> in_use x2 = true -> domain (ext x1) = domain (ext x2) ->
  name (ext x1) = Some p1 -> name (ext x2) = Some p2 -> blocks g !! p1 = blocks g !! p2 -> j1 = j2.
Proof using H Hk Hu Hbn Hm.
  clear -H Hk Hu Hbn Hm.
  assert (forall j x p, slots g !! j = Some x -> in_use x = true -> domain (ext x) = d -> name (ext x) = Some p -> blocks g !! p <> Some n) as Hnew.
  { intros j x p Hx Hux Hdx Hp Hb. destruct (used_slot _ _ _ _ _ H Hx Hux) as (np' & vp' & n' & v' & Hn' & _ & Hb' & _ & _ & Hmm).
    replace np' with p in * by congruence. congruence. }
  intros E1 E2 U1 U2 Hdd N1 N2 HE. destruct (filled_used j1 x1 E1 U1) as [[-> ->]|[J1 E1']], (filled_used j2 x2 E2 U2) as [[-> ->]|[J2 E2']]; [done| | |].
  - cbn in N1, Hdd. injection N1 as <-. exfalso. apply (Hnew j2 x2 p2); congruence.
  - cbn in N2, Hdd. injection N2 as <-. exfalso. apply (Hnew j1 x1 p1); congruence.
  - by eapply (ho_key _ _ _ H j1 j2 x1 x2 p1 p2).
Qed.

Lemma filled_inj j1 b1 j2 b2 p : ptr_at ss j1 b1 = Some p -> ptr_at ss j2 b2 = Some p -> j1 = j2 /\ b1 = b2.
Proof using H Hk.
  clear -H Hk.
  pose proof (ho_nodup _ _ _ H) as [Hne _]%NoDup_cons.
  assert (forall j c q, ptr_at (slots g) j c = Some q -> q <> np /\ q <> vp) as Hex by (intros j c q Hq; apply (ho_extra _ _ _ H) in Hq; set_solver).
  rewrite !filled_ptr. intros [[-> ->]|[J1 Q1]] [[-> E]|[J2 Q2]].
  - split; [done|]. destruct b1, b2; set_solver.
  - apply Hex in Q2. destruct b1; naive_solver.
  - apply Hex in Q1. destruct b2; naive_solver.
  - by apply (ho_inj _ _ _ H j1 b1 j2 b2 p).
Qed.

Lemma fill_holds : holds (Registry ss (blocks g)) [] (<[(d, n) := (v, b)]> m).
Proof using H Hk Hu Hbn Hbv Hd Hm.
  clear -H Hk Hu Hbn Hbv Hd Hm.
  split; cbn [slots blocks].
  - unfold ss. rewrite length_insert. apply H.
  - intros j x [(_ & <- & _)|[Hj Hx]]%list_lookup_insert_Some Hux; [done|]. by eapply (ho_free _ _ _ H).
  - intros j x Hx Hux. destruct (filled_used j x Hx Hux) as [[-> ->]|[_ Hx']]; [|by eapply (ho_used _ _ _ H)].
    split; [done|]. by exists np, vp.
  - exact filled_map.
  - exact filled_key.
  - intros q. rewrite (ho_block _ _ _ H). setoid_rewrite filled_ptr. destruct (ho_free _ _ _ H k s Hk Hu) as [Hn0 Hv0].
    assert (forall c, ptr_at (slots g) k c = None) as Hk0 by (intros c; rewrite (ptr_of_at _ _ s) by done; by destruct c). split.
    + intros [Hq|(j & c & Hq)]; right.
      * apply elem_of_cons in Hq as [->|Hq]; [exists k, false; by left|]. apply list_elem_of_singleton in Hq as ->. exists k, true. by left.
      * exists j, c. right. split; [|done]. intros ->. by rewrite Hk0 in Hq.
    + intros [Hq|(j & c & [[-> ->]|[Hj Hq]])]; [by apply elem_of_nil in Hq| |right; eauto]. left. destruct c; set_solver.
  - exact filled_inj.
  - intros j c q _ Hq. by apply elem_of_nil in Hq.
  - constructor.
Qed.
End filled.

(** ** Rows *)

Lemma row_lookup d g j : row_slots d g !! j = if decide (j < 16)%nat then slots g !! (row d + j)%nat else None.
Proof.
  unfold row_slots. case_decide as Hj; [rewrite lookup_take_lt by done; by rewrite lookup_drop|].
  apply lookup_take_ge. unfold AIRY_EXT_MAX_PER_DOMAIN. lia.
Qed.

Lemma row_domain d j : valid_domain d = true -> (j < 16)%nat -> Z.of_nat ((row d + j) / 16) = d.
Proof.
  unfold valid_domain, row, AIRY_EXT_MAX_PER_DOMAIN. intros Hd Hj. rewrite Nat.div_add_l, Nat.div_small by lia. lia.
Qed.

Lemma row_index d k g extra m : holds g extra m -> d = Z.of_nat (k / 16) -> (k < length (slots g))%nat ->
  valid_domain d = true /\ exists j, (j < 16)%nat /\ k = (row d + j)%nat.
Proof.
  intros H -> Hk. rewrite (ho_len _ _ _ H) in Hk. pose proof (Nat.div_mod_eq k 16). pose proof (Nat.mod_upper_bound k 16).
  split; [unfold valid_domain, AIRY_EXT_DOMAIN_MAX; lia|]. exists (k mod 16)%nat. unfold row, AIRY_EXT_MAX_PER_DOMAIN. lia.
Qed.

(** What an extension of the registry is for its reader. *)
Definition view (g : registry) (e : airy_extension_t) : option ((Z * cstr) * entry) :=
  np ← name e; vp ← version e; n ← blocks g !! np; v ← blocks g !! vp; Some ((domain e, n), (v, body e)).

Lemma view_used g extra m k s :
  holds g extra m -> slots g !! k = Some s -> in_use s = true ->
  exists np n v, view g (ext s) = Some ((domain (ext s), n), (v, body (ext s))) /\ name (ext s) = Some np /\ blocks g !! np = Some n /\
    m !! (domain (ext s), n) = Some (v, body (ext s)).
Proof.
  intros H Hk Hu. destruct (used_slot _ _ _ _ _ H Hk Hu) as (np & vp & n & v & Hn & Hv & Hbn & Hbv & _ & Hm).
  exists np, n, v. split; [|done]. unfold view. rewrite Hn, Hv. cbn [mbind option_bind]. by rewrite Hbn, Hbv.
Qed.

(** The slots of a domain are the entries of the map with that domain. *)
Lemma in_row d g extra m n :
  holds g extra m -> valid_domain d = true ->
  (forall x, m !! (d, n) = Some x <-> exists j s, row_slots d g !! j = Some s /\ in_use s = true /\ view g (ext s) = Some ((d, n), x)).
Proof.
  intros H Hd [v b]. split.
  - intros Hm. apply (ho_map _ _ _ H) in Hm as (k & s & np & vp & Hk & Hu & <- & <- & Hn & Hv & H1 & H2).
    destruct (ho_used _ _ _ H k s Hk Hu) as [Hdom _].
    destruct (row_index _ k g extra m H Hdom) as (_ & j & Hj & ->); [by eapply lookup_lt_Some|].
    exists j, s. rewrite row_lookup, decide_True by done. split; [done|]. split; [done|].
    unfold view. rewrite Hn, Hv. cbn [mbind option_bind]. by rewrite H1, H2.
  - intros (j & s & Hj & Hu & Hv). rewrite row_lookup in Hj. case_decide; [|done].
    destruct (view_used _ _ _ _ _ H Hj Hu) as (np & n' & v' & Hv' & _ & _ & Hm). rewrite Hv in Hv'. injection Hv' as -> <- -> ->. done.
Qed.

Lemma NoDup_omap_at {A B} (f : A -> option B) (l : list A) :
  (forall i j x y z, l !! i = Some x -> l !! j = Some y -> f x = Some z -> f y = Some z -> i = j) -> NoDup (omap f l).
Proof.
  induction l as [|x l IH]; intros Hf; [constructor|]. cbn [omap list_omap].
  assert (NoDup (omap f l)) as Hl. { apply IH. intros i j y z w Hi Hj Hy Hz. apply (Hf (S i) (S j) y z w) in Hi; [lia|done..]. }
  destruct (f x) as [z|] eqn:Hz; [|done]. constructor; [|done]. intros (y & Hy & Hyz)%list_elem_of_omap.
  apply list_elem_of_lookup in Hy as [j Hj]. by specialize (Hf 0%nat (S j) x y z eq_refl Hj Hz Hyz).
Qed.

(** The traversal shows each extension of the domain once. *)
Lemma foreach_holds d g extra m :
  holds g extra m -> valid_domain d = true -> omap (view g) (airy_ext_foreach d g) ≡ₚ map_to_list (filter (fun p => p.1.1 = d) m).
Proof.
  intros H Hd. unfold airy_ext_foreach. rewrite Hd. cbn [negb]. set (f := fun s => if in_use s then view g (ext s) else None).
  assert (forall l, omap (view g) (ext <$> filter (fun s => in_use s = true) l) = omap f l) as ->.
  { induction l as [|s l IH]; [done|]. rewrite filter_cons. unfold f in *. cbn [omap list_omap]. case_decide as E.
    - cbn [fmap list_fmap omap list_omap]. rewrite E. destruct (view g (ext s)); [f_equal|]; apply IH.
    - destruct (in_use s); [done|]. apply IH. }
  apply NoDup_Permutation.
  - apply NoDup_omap_at. intros i j x y [[e t] z] Hi Hj Hx Hy. unfold f in Hx, Hy. rewrite row_lookup in Hi, Hj.
    destruct (in_use x) eqn:Ux, (in_use y) eqn:Uy; try done. case_decide; [|done]. case_decide; [|done].
    destruct (view_used _ _ _ _ _ H Hi Ux) as (p1 & n1 & v1 & V1 & N1 & B1 & _).
    destruct (view_used _ _ _ _ _ H Hj Uy) as (p2 & n2 & v2 & V2 & N2 & B2 & _).
    assert (row d + i = row d + j)%nat; [|lia]. apply (ho_key _ _ _ H _ _ x y p1 p2 Hi Hj); try done; congruence.
  - apply NoDup_map_to_list.
  - intros [[e t] z]. rewrite elem_of_map_to_list, map_lookup_filter_Some, list_elem_of_omap. cbn [fst]. split.
    + intros (s & Hs & Hv). unfold f in Hv. destruct (in_use s) eqn:U; [|done]. apply list_elem_of_lookup in Hs as [j Hj].
      pose proof Hj as Hj'. rewrite row_lookup in Hj'. case_decide; [|done].
      destruct (ho_used _ _ _ H _ s Hj' U) as [Hdom _]. rewrite row_domain in Hdom by done.
      destruct (view_used _ _ _ _ _ H Hj' U) as (p1 & n1 & v1 & V1 & _ & _ & Hm). rewrite V1 in Hv. injection Hv as <- <- <-. by rewrite Hdom in Hm |- *.
    + intros [Hm ->]. apply (in_row d g extra m t H Hd) in Hm as (j & s & Hj & U & Hv). exists s. split; [by eapply list_elem_of_lookup_2|].
      unfold f. by rewrite U.
Qed.

Lemma count_holds d g extra m : holds g extra m -> valid_domain d = true -> airy_ext_count d g = in_domain d m.
Proof.
  intros H Hd. unfold in_domain. rewrite <- length_map_to_list, <- (foreach_holds d g extra m H Hd).
  unfold airy_ext_count, airy_ext_foreach. rewrite Hd. cbn [negb].
  assert (forall s, s ∈ row_slots d g -> in_use s = true -> is_Some (view g (ext s))) as Hv.
  { intros s [j Hj]%list_elem_of_lookup U. rewrite row_lookup in Hj. case_decide; [|done].
    destruct (view_used _ _ _ _ _ H Hj U) as (np & n & v & -> & _). done. }
  induction (row_slots d g) as [|s l IH]; [done|]. rewrite filter_cons. case_decide as E; [|apply IH; intros; apply Hv; [by right|done]].
  cbn [fmap list_fmap omap list_omap length]. destruct (Hv s) as [x ->]; [by left|done|]. cbn [length]. f_equal.
  apply IH. intros t Ht. apply Hv. by right.
Qed.

(** ** Searching *)

Lemma ext_find_loop l i n g :
  (forall s, s ∈ l -> in_use s = true -> exists np t, name (ext s) = Some np /\ blocks g !! np = Some t) ->
  match find_loop l i n g with
  | None => False
  | Some None => forall s np, s ∈ l -> in_use s = true -> name (ext s) = Some np -> blocks g !! np <> Some n
  | Some (Some k) => exists j s np, k = (i + j)%nat /\ l !! j = Some s /\ in_use s = true /\ name (ext s) = Some np /\ blocks g !! np = Some n
  end.
Proof.
  revert i. induction l as [|s l IH]; intros i Hl; cbn [find_loop]; [by intros s np Hs%elem_of_nil|].
  specialize (IH (S i) (fun s' Hs' => Hl s' (list_elem_of_further _ _ _ Hs'))).
  assert (match find_loop l (S i) n g with
          | None => False
          | Some None => forall s np, s ∈ l -> in_use s = true -> name (ext s) = Some np -> blocks g !! np <> Some n
          | Some (Some k) => exists j s0 np, k = (i + j)%nat /\ (s :: l) !! j = Some s0 /\ in_use s0 = true /\ name (ext s0) = Some np /\ blocks g !! np = Some n
          end) as IH'.
  { destruct (find_loop l (S i) n g) as [[k|]|]; [|done..]. destruct IH as (j & x & np & -> & Hj & Hr). exists (S j), x, np. split; [lia|done]. }
  clear IH. destruct (in_use s) eqn:U.
  - destruct (Hl s) as (np & t & Hn & Ht); [by left|done|]. rewrite Hn. cbn [text_at mbind option_bind]. rewrite Ht. cbn [mbind option_bind].
    case_bool_decide as E; [injection E as ->; exists 0%nat, s, np; split; [lia|done]|].
    destruct (find_loop l (S i) n g) as [[k|]|]; [done| |done]. intros s' np' [->|Hs']%elem_of_cons Us' Hn'; [|by apply (IH' s')].
    rewrite Hn in Hn'. injection Hn' as <-. congruence.
  - destruct (find_loop l (S i) n g) as [[k|]|]; [done| |done]. intros s' np' [->|Hs']%elem_of_cons Us' Hn'; [congruence|by apply (IH' s')].
Qed.

Lemma find_holds d n g extra m :
  holds g extra m -> valid_domain d = true ->
  match airy_ext_find d n g with
  | None => False
  | Some None => m !! (d, n) = None
  | Some (Some k) => exists s np v, slots g !! k = Some s /\ in_use s = true /\ domain (ext s) = d /\ name (ext s) = Some np /\
      blocks g !! np = Some n /\ m !! (d, n) = Some (v, body (ext s)) /\ view g (ext s) = Some ((d, n), (v, body (ext s)))
  end.
Proof.
  intros H Hd. unfold airy_ext_find. pose proof (ext_find_loop (row_slots d g) (row d) n g) as HL.
  assert (forall j s, row_slots d g !! j = Some s -> slots g !! (row d + j)%nat = Some s /\ (in_use s = true -> domain (ext s) = d)) as Hr.
  { intros j s Hj. rewrite row_lookup in Hj. case_decide; [|done]. split; [done|]. intros U.
    destruct (ho_used _ _ _ H _ s Hj U) as [-> _]. by apply row_domain. }
  assert (forall s, s ∈ row_slots d g -> in_use s = true -> exists np t, name (ext s) = Some np /\ blocks g !! np = Some t) as Ht.
  { intros s [j Hj]%list_elem_of_lookup U. destruct (Hr j s Hj) as [Hk _].
    destruct (view_used _ _ _ _ _ H Hk U) as (np & t & v & _ & Hn & Hb & _). eauto. }
  specialize (HL Ht). clear Ht. destruct (find_loop _ _ _ _) as [[k|]|]; [| |done].
  - destruct HL as (j & s & np & -> & Hj & U & Hn & Hb). destruct (Hr j s Hj) as [Hk Hdom]. rewrite <- (Hdom U).
    destruct (view_used _ _ _ _ _ H Hk U) as (np' & t & v & HV & Hn' & Hb' & Hm).
    replace np' with np in * by congruence. replace t with n in * by congruence. exists s, np, v. split_and!; try done. by rewrite (Hdom U).
  - destruct (m !! (d, n)) as [x|] eqn:Hm; [|done]. apply (in_row d g extra m n H Hd) in Hm as (j & s & Hj & U & HV). exfalso.
    destruct (Hr j s Hj) as [Hk Hdom]. destruct (view_used _ _ _ _ _ H Hk U) as (np & t & v & HV' & Hn & Hb & _).
    rewrite HV in HV'. injection HV' as _ <- _. apply (HL s np); [by eapply list_elem_of_lookup_2|done..].
Qed.

(** ** The operations *)

Lemma row_length d g extra m : holds g extra m -> valid_domain d = true -> length (row_slots d g) = AIRY_EXT_MAX_PER_DOMAIN.
Proof.
  intros H Hd. unfold row_slots, row, valid_domain, AIRY_EXT_MAX_PER_DOMAIN, AIRY_EXT_DOMAIN_MAX in *.
  rewrite length_take, length_drop, (ho_len _ _ _ H). lia.
Qed.

Lemma slot_free_row d g extra m :
  holds g extra m -> valid_domain d = true ->
  match index_of (fun s => negb (in_use s)) (row_slots d g) with
  | Some j => (j < 16)%nat /\ in_domain d m <> AIRY_EXT_MAX_PER_DOMAIN /\ exists s, slots g !! (row d + j)%nat = Some s /\ in_use s = false
  | None => in_domain d m = AIRY_EXT_MAX_PER_DOMAIN
  end.
Proof.
  intros H Hd. rewrite <- (count_holds d g extra m H Hd), <- (row_length d g extra m H Hd). unfold airy_ext_count. rewrite Hd. cbn [negb].
  destruct (index_of _ _) as [j|] eqn:E; [|by apply index_of_full].
  apply index_of_Some in E as (s & Hj & Hs%negb_true_iff). pose proof Hj as Hj'. rewrite row_lookup in Hj'. case_decide; [|done].
  split; [done|]. split; [|eauto]. apply Nat.lt_neq, (list.length_filter_lt _ _ s); [by eapply list_elem_of_lookup_2|congruence].
Qed.

Lemma holds_perm g m extra extra' : extra ≡ₚ extra' -> holds g extra m -> holds g extra' m.
Proof.
  intros HP H. replace g with (Registry (slots g) (blocks g)) by (by destruct g). apply (holds_frame _ _ _ _ _ H); [done|..].
  - intros p. rewrite (ho_block _ _ _ H). by rewrite HP.
  - intros k b p Hp. rewrite <- HP. by eapply (ho_extra _ _ _ H).
  - rewrite <- HP. apply H.
Qed.

(** What the map becomes.  A domain that is full refuses with an error that the
    specification leaves open ([None]). *)
Definition register_spec (name_ok version_ok : bool) (e : request) (m : amap) : option Z * amap :=
  match r_name e with
  | None => (Some AIRY_EINVAL, m)
  | Some n =>
      if negb (valid_domain (r_domain e)) then (Some AIRY_EINVAL, m)
      else if negb (name_ok && version_ok) then (Some AIRY_ENOMEM, m)
      else if decide (m !! (r_domain e, n) = None /\ in_domain (r_domain e) m = AIRY_EXT_MAX_PER_DOMAIN) then (None, m)
      else (Some 0, <[(r_domain e, n) := (default (cs "0.0.0") (r_version e), r_body e)]> m)
  end.

Definition returns (spec : option Z) (code : Z) : Prop := match spec with Some z => code = z | None => code < 0 end.

Lemma fill_slot_holds i g m s np vp n v e :
  holds g [vp; np] m -> slots g !! i = Some s -> in_use s = false -> blocks g !! np = Some n -> blocks g !! vp = Some v ->
  r_domain e = Z.of_nat (i / 16) -> m !! (r_domain e, n) = None ->
  exists g', fill_slot i np vp (Own e) g = Some g' /\ holds g' [] (<[(r_domain e, n) := (v, r_body e)]> m).
Proof.
  intros H Hi Hu Hn Hv Hd Hm. unfold fill_slot. cbn [deref mbind option_bind]. eexists. split; [done|]. unfold set_slot. cbn [slots blocks].
  rewrite list_insert_insert_eq. by apply (fill_holds g m i s).
Qed.

(** The two copies are made, or nothing changes. *)
Lemma copies_holds name_ok version_ok n v g m :
  holds g [] m ->
  match strdup name_ok n g with
  | (None, g') => g' = g /\ name_ok = false
  | (Some np, g1) =>
      name_ok = true /\
      match strdup version_ok v g1 with
      | (None, g2) => version_ok = false /\ exists g', free_block (Some np) g2 = Some g' /\ holds g' [] m
      | (Some vp, g2) => version_ok = true /\ holds g2 [vp; np] m /\ blocks g2 !! np = Some n /\ blocks g2 !! vp = Some v
      end
  end.
Proof.
  intros H. destruct (strdup name_ok n g) as [p1 g1] eqn:S1. pose proof (strdup_holds _ _ _ _ _ _ _ H S1) as H1.
  destruct p1 as [np|]; [|split; [done|]; unfold strdup in S1; by destruct name_ok].
  split; [unfold strdup in S1; by destruct name_ok|]. destruct H1 as (H1 & Hn1 & _ & _).
  destruct (strdup version_ok v g1) as [p2 g2] eqn:S2. pose proof (strdup_holds _ _ _ _ _ _ _ H1 S2) as H2.
  destruct p2 as [vp|].
  - split; [unfold strdup in S2; by destruct version_ok|]. destruct H2 as (H2 & Hv2 & _ & Hk2).
    split; [done|]. split; [|done]. rewrite Hk2; [done|]. by rewrite Hn1.
  - split; [unfold strdup in S2; by destruct version_ok|]. subst. by apply free_holds.
Qed.

Lemma overwrite_holds g m i s np vp n v e :
  holds g [vp; np] m -> slots g !! i = Some s -> in_use s = true -> domain (ext s) = r_domain e ->
  (exists p, name (ext s) = Some p /\ blocks g !! p = Some n) -> blocks g !! np = Some n -> blocks g !! vp = Some v ->
  exists g1 g2, airy_ext_slot_clear i g = Some g1 /\ fill_slot i np vp (Own e) g1 = Some g2 /\
    holds g2 [] (<[(r_domain e, n) := (v, r_body e)]> m).
Proof.
  intros H Hi U Hdom (p & Hp & Hbp) Hn Hv.
  destruct (clear_used_holds _ _ _ _ _ H Hi U) as (g1 & p' & n' & s' & Hc & Hp' & Hb' & H1 & Hi' & U' & _ & Hsame).
  replace p' with p in * by congruence. replace n' with n in * by congruence. rewrite Hdom in H1.
  destruct (fill_slot_holds i g1 _ s' np vp n v e H1 Hi' U') as (g2 & Hf & H2);
    [rewrite Hsame by set_solver; done|rewrite Hsame by set_solver; done| |apply lookup_delete_eq|].
  - destruct (ho_used _ _ _ H i s Hi U) as [Hx _]. congruence.
  - rewrite insert_delete_eq in H2. by exists g1, g2.
Qed.

Lemma register_holds name_ok version_ok e g m :
  holds g [] m ->
  exists code g', airy_ext_register name_ok version_ok (Own e) g = Some (code, g') /\ returns (register_spec name_ok version_ok e m).1 code /\
    holds g' [] (register_spec name_ok version_ok e m).2.
Proof.
  intros H. unfold airy_ext_register, register_spec. cbn [deref mbind option_bind]. destruct (r_name e) as [n|]; [|by eexists _, g].
  destruct (valid_domain (r_domain e)) eqn:Hd; cbn [negb]; [|by eexists _, g].
  pose proof (copies_holds name_ok version_ok n (default (cs "0.0.0") (r_version e)) g m H) as HC.
  destruct (strdup name_ok n g) as [[np|] g1]; [|destruct HC as [-> ->]; by eexists _, g]. destruct HC as [-> HC]. cbn [andb].
  destruct (strdup version_ok _ g1) as [[vp|] g2]; [|destruct HC as [-> (g' & -> & Hg')]; by eexists _, g'].
  destruct HC as (-> & H2 & Hn & Hv). cbn [negb].
  pose proof (find_holds (r_domain e) n g2 _ m H2 Hd) as HF.
  destruct (airy_ext_find (r_domain e) n g2) as [[i|]|]; [| |done]; cbn [mbind option_bind].
  - destruct HF as (s & p & v & Hi & U & Hdom & Hp & Hb & Hm & _). rewrite decide_False by (intros [? _]; congruence).
    destruct (overwrite_holds g2 m i s np vp n _ e H2 Hi U Hdom (ex_intro _ p (conj Hp Hb)) Hn Hv) as (g3 & g4 & -> & Hf & H4).
    cbn [mbind option_bind]. rewrite Hf. by eexists _, g4.
  - pose proof (slot_free_row (r_domain e) g2 _ m H2 Hd) as HS. destruct (index_of _ _) as [j|].
    + destruct HS as (Hj & Hfull & s & Hs & U). rewrite decide_False by (by intros [_ ?]).
      destruct (fill_slot_holds _ g2 m s np vp n _ e H2 Hs U Hn Hv (eq_sym (row_domain _ _ Hd Hj)) HF) as (g3 & -> & H3). by eexists _, g3.
    + rewrite decide_True by done. apply (holds_perm _ _ _ [np; vp]) in H2; [|apply Permutation_swap].
      destruct (free_holds _ _ _ _ H2) as (g3 & -> & H3). cbn [mbind option_bind].
      destruct (free_holds _ _ _ _ H3) as (g4 & -> & H4). by eexists _, g4.
Qed.

Definition unregister_spec (d : Z) (n : option cstr) (m : amap) : Z * amap :=
  match n with
  | Some n =>
      if negb (valid_domain d) then (AIRY_EINVAL, m)
      else match m !! (d, n) with None => (AIRY_ENOENT, m) | Some _ => (0, delete (d, n) m) end
  | None => (AIRY_EINVAL, m)
  end.

Lemma unregister_holds d n g m :
  holds g [] m -> exists g', airy_ext_unregister d n g = Some ((unregister_spec d n m).1, g') /\ holds g' [] (unregister_spec d n m).2.
Proof.
  intros H. unfold airy_ext_unregister, unregister_spec. destruct n as [n|]; [|by exists g].
  destruct (valid_domain d) eqn:Hd; cbn [negb]; [|by exists g]. pose proof (find_holds d n g _ m H Hd) as HF.
  destruct (airy_ext_find d n g) as [[i|]|]; [| |done]; cbn [mbind option_bind]; [|rewrite HF; by exists g].
  destruct HF as (s & p & v & Hi & U & <- & Hp & Hb & -> & _).
  destruct (clear_used_holds _ _ _ _ _ H Hi U) as (g1 & p' & n' & s' & -> & Hp' & Hb' & H1 & _).
  replace p' with p in * by congruence. replace n' with n in * by congruence. by exists g1.
Qed.

(** What the pointer that [airy_ext_get] returns shows. *)
Definition get_view (d : Z) (n : option cstr) (g : registry) : option (option ((Z * cstr) * entry)) :=
  r ← airy_ext_get d n g;
  match r with None => Some None | Some i => s ← slots g !! i; x ← view g (ext s); Some (Some x) end.

Definition get_spec (d : Z) (n : option cstr) (m : amap) : option ((Z * cstr) * entry) :=
  n ← n; if valid_domain d then x ← m !! (d, n); Some ((d, n), x) else None.

Lemma get_holds d n g extra m : holds g extra m -> get_view d n g = Some (get_spec d n m).
Proof.
  intros H. unfold get_view, airy_ext_get, get_spec. destruct n as [n|]; [|done]. cbn [mbind option_bind].
  destruct (valid_domain d) eqn:Hd; cbn [negb]; [|done]. pose proof (find_holds d n g _ m H Hd) as HF.
  destruct (airy_ext_find d n g) as [[i|]|]; [| |done]; cbn [mbind option_bind]; [|by rewrite HF].
  destruct HF as (s & p & v & -> & U & <- & Hp & Hb & -> & HV). cbn [mbind option_bind]. by rewrite HV.
Qed.

Lemma clear_loop_holds d todo i g m :
  holds g [] m -> valid_domain d = true -> (row d <= i)%nat -> (i + todo = row d + 16)%nat ->
  (forall k s, (row d <= k < i)%nat -> slots g !! k = Some s -> in_use s = false) ->
  exists g', clear_loop todo i g = Some g' /\ holds g' [] (filter (fun p => p.1.1 <> d) m).
Proof.
  revert i g m. induction todo as [|todo IH]; intros i g m H Hd Hr Hi Hf; cbn [clear_loop].
  - exists g. split; [done|]. replace (filter _ m) with m; [done|]. symmetry. apply map_filter_id.
    intros [e n] x Hm E. cbn in E. subst e. apply (in_row d g [] m n H Hd) in Hm as (j & s & Hj & U & _).
    rewrite row_lookup in Hj. case_decide; [|done]. rewrite (Hf (row d + j)%nat s) in U; [done| |done]. lia.
  - destruct (lookup_lt_is_Some_2 (slots g) i) as [s Hs].
    { rewrite (ho_len _ _ _ H). unfold row, valid_domain, AIRY_EXT_MAX_PER_DOMAIN, AIRY_EXT_DOMAIN_MAX in *. lia. }
    destruct (in_use s) eqn:U.
    + destruct (clear_used_holds _ _ _ _ _ H Hs U) as (g1 & np & n & s' & -> & _ & _ & H1 & Hs' & U' & Hsame & _). cbn [mbind option_bind].
      assert (domain (ext s) = d) as Hdom.
      { destruct (ho_used _ _ _ H i s Hs U) as [-> _]. replace i with (row d + (i - row d))%nat by lia. apply row_domain; [done|lia]. }
      destruct (IH (S i) g1 _ H1 Hd) as (g2 & -> & H2); [lia|lia| |].
      * intros k x Hk Hx. destruct (decide (k = i)) as [->|Hne]; [congruence|]. rewrite Hsame in Hx by done. apply (Hf k x); [lia|done].
      * exists g2. split; [done|]. replace (filter _ m) with (filter (fun p => p.1.1 <> d) (delete (domain (ext s), n) m)); [done|].
        rewrite map_filter_delete, delete_id; [done|]. apply map_lookup_filter_None_2. right. intros x _ E. by apply E.
    + rewrite (clear_free_id _ _ _ _ _ H Hs U). cbn [mbind option_bind]. apply IH; [done|done|lia|lia|].
      intros k x Hk Hx. destruct (decide (k = i)) as [->|Hne]; [congruence|]. apply (Hf k x); [lia|done].
Qed.

Definition clear_spec (d : Z) (m : amap) : amap := if valid_domain d then filter (fun p => p.1.1 <> d) m else m.

Lemma clear_holds d g m : holds g [] m -> exists g', airy_ext_clear d g = Some g' /\ holds g' [] (clear_spec d m).
Proof.
  intros H. unfold airy_ext_clear, clear_spec. destruct (valid_domain d) eqn:Hd; cbn [negb]; [|by exists g].
  apply clear_loop_holds; [done|done|lia|done|]. intros k s Hk. lia.
Qed.

(** ** Runs *)

Inductive provider_kind := LLM | Tool | Storage | Sandbox.

Definition kind_domain (k : provider_kind) : Z :=
  match k with LLM => AIRY_EXT_DOMAIN_LLM | Tool => AIRY_EXT_DOMAIN_TOOL | Storage => AIRY_EXT_DOMAIN_STORAGE | Sandbox => AIRY_EXT_DOMAIN_SANDBOX end.

Definition kind_flag (k : provider_kind) : Z :=
  match k with LLM | Tool => AIRY_EXT_FLAG_REMOTE | Storage | Sandbox => AIRY_EXT_FLAG_BUILTIN end.

Definition provider_register (k : provider_kind) :=
  match k with
  | LLM => airy_llm_provider_register
  | Tool => airy_tool_provider_register
  | Storage => airy_storage_provider_register
  | Sandbox => airy_sandbox_provider_register
  end.

Definition provider_unregister (k : provider_kind) :=
  match k with
  | LLM => airy_llm_provider_unregister
  | Tool => airy_tool_provider_unregister
  | Storage => airy_storage_provider_unregister
  | Sandbox => airy_sandbox_provider_unregister
  end.

Inductive op :=
  | Register (name_ok version_ok : bool) (e : request)
  | RegisterProvider (name_ok version_ok : bool) (kind : provider_kind) (p : option provider)
  | UnregisterProvider (kind : provider_kind) (n : option cstr)
  | Unregister (d : Z) (n : option cstr)
  | Get (d : Z) (n : option cstr)
  | Count (d : Z)
  | Foreach (d : Z)
  | Clear (d : Z).

Inductive result :=
  | Code (z : Z)
  | Found (x : option ((Z * cstr) * entry))
  | Number (n : nat)
  | Seen (l : list ((Z * cstr) * entry)).

Definition coded (r : option (Z * registry)) : option (result * registry) := p ← r; Some (Code p.1, p.2).

Definition do_op (o : op) (g : registry) : option (result * registry) :=
  match o with
  | Register a b e => coded (airy_ext_register a b (Own e) g)
  | RegisterProvider a b kind p => coded (provider_register kind a b p g)
  | UnregisterProvider kind n => coded (provider_unregister kind n g)
  | Unregister d n => coded (airy_ext_unregister d n g)
  | Get d n => x ← get_view d n g; Some (Found x, g)
  | Count d => Some (Number (airy_ext_count d g), g)
  | Foreach d => Some (Seen (omap (view g) (airy_ext_foreach d g)), g)
  | Clear d => g ← airy_ext_clear d g; Some (Code 0, g)
  end.

Definition provider_spec (a b : bool) (kind : provider_kind) (p : option provider) (m : amap) : option Z * amap :=
  match p with
  | Some p =>
      if p_methods p && negb (p_address p =? 0) then
        register_spec a b (Request (kind_domain kind) (p_name p) (Some (default (cs "0.0.0") (p_version p)))
          (Payload 0 (kind_flag kind) (p_address p) (p_impl p))) m
      else (Some AIRY_EINVAL, m)
  | None => (Some AIRY_EINVAL, m)
  end.

(** What an operation may return and what the map becomes. *)
Definition allowed (o : op) (m : amap) (r : result) (m' : amap) : Prop :=
  match o with
  | Register a b e => m' = (register_spec a b e m).2 /\ exists code, r = Code code /\ returns (register_spec a b e m).1 code
  | RegisterProvider a b kind p => m' = (provider_spec a b kind p m).2 /\ exists code, r = Code code /\ returns (provider_spec a b kind p m).1 code
  | UnregisterProvider kind n => (r, m') = (Code (unregister_spec (kind_domain kind) n m).1, (unregister_spec (kind_domain kind) n m).2)
  | Unregister d n => (r, m') = (Code (unregister_spec d n m).1, (unregister_spec d n m).2)
  | Get d n => (r, m') = (Found (get_spec d n m), m)
  | Count d => (r, m') = (Number (if valid_domain d then in_domain d m else 0%nat), m)
  | Foreach d => m' = m /\ exists l, r = Seen l /\ l ≡ₚ if valid_domain d then map_to_list (filter (fun p => p.1.1 = d) m) else []
  | Clear d => (r, m') = (Code 0, clear_spec d m)
  end.

Fixpoint run_ops (ops : list op) (g : registry) : option (list result * registry) :=
  match ops with
  | [] => Some ([], g)
  | o :: ops' => p ← do_op o g; q ← run_ops ops' p.2; Some (p.1 :: q.1, q.2)
  end.

Inductive allowed_run : list op -> amap -> list result -> amap -> Prop :=
  | allowed_nil m : allowed_run [] m [] m
  | allowed_cons o ops m m1 m2 r rs : allowed o m r m1 -> allowed_run ops m1 rs m2 -> allowed_run (o :: ops) m (r :: rs) m2.

Lemma provider_holds a b kind p g m :
  holds g [] m ->
  exists code g', provider_register kind a b p g = Some (code, g') /\ returns (provider_spec a b kind p m).1 code /\
    holds g' [] (provider_spec a b kind p m).2.
Proof.
  intros H. assert (provider_register kind a b p g = airy_provider_register a b (kind_domain kind) p (kind_flag kind) g) as -> by (by destruct kind).
  unfold airy_provider_register, airy_provider_register_common, provider_spec. destruct p as [p|]; [|by eexists _, g].
  destruct (p_methods p); cbn [negb andb]; [|by eexists _, g]. destruct (p_address p =? 0); [rewrite orb_true_r; by eexists _, g|]. cbn [negb].
  case_bool_decide as E; cbn [orb]; [|by apply register_holds]. eexists _, g. unfold register_spec. cbn [r_name]. by rewrite E.
Qed.

Lemma do_op_holds o g m : holds g [] m -> exists r g' m', do_op o g = Some (r, g') /\ allowed o m r m' /\ holds g' [] m'.
Proof.
  intros H. destruct o as [a b e|a b kind p|kind n|d n|d n|d|d|d]; cbn [do_op allowed].
  - destruct (register_holds a b e g m H) as (code & g' & -> & Hc & H'). eexists _, g', _. split; [done|]. split; [split; [done|by exists code]|done].
  - destruct (provider_holds a b kind p g m H) as (code & g' & -> & Hc & H'). eexists _, g', _. split; [done|]. split; [split; [done|by exists code]|done].
  - destruct (unregister_holds (kind_domain kind) n g m H) as (g' & Hg' & H'). eexists _, g', _.
    replace (provider_unregister kind n g) with (airy_ext_unregister (kind_domain kind) n g) by (by destruct kind). rewrite Hg'. by split.
  - destruct (unregister_holds d n g m H) as (g' & -> & H'). eexists _, g', _. by split.
  - rewrite (get_holds d n g [] m H). eexists _, g, m. by split.
  - eexists _, g, m. split; [done|]. split; [|done]. destruct (valid_domain d) eqn:Hd; [by rewrite (count_holds d g [] m)|].
    unfold airy_ext_count. by rewrite Hd.
  - eexists _, g, m. split; [done|]. split; [|done]. split; [done|]. eexists. split; [done|].
    destruct (valid_domain d) eqn:Hd; [by apply (foreach_holds d g [])|]. unfold airy_ext_foreach. by rewrite Hd.
  - destruct (clear_holds d g m H) as (g' & -> & H'). eexists _, g', _. by split.
Qed.

Lemma run_ops_holds ops g m :
  holds g [] m -> exists rs g' m', run_ops ops g = Some (rs, g') /\ allowed_run ops m rs m' /\ holds g' [] m'.
Proof.
  revert g m. induction ops as [|o ops IH]; intros g m H; cbn [run_ops]; [exists [], g, m; split; [done|]; split; [constructor|done]|].
  destruct (do_op_holds o g m H) as (r & g1 & m1 & -> & Ha & H1). cbn [mbind option_bind snd].
  destruct (IH g1 m1 H1) as (rs & g2 & m2 & -> & Hr & H2). cbn [mbind option_bind fst snd].
  eexists _, g2, m2. split; [done|]. split; [by econstructor|done].
Qed.

Lemma holds_empty g : holds g [] ∅ -> blocks g = ∅.
Proof.
  intros H. apply map_empty. intros p. destruct (blocks g !! p) as [x|] eqn:E; [|done].
  destruct (proj1 (ho_block _ _ _ H p)) as [Hp|(k & b & Hp)]; [by exists x|by apply elem_of_nil in Hp|].
  unfold ptr_at in Hp. destruct (slots g !! k) as [s|] eqn:Hk; [|done]. cbn [mbind option_bind] in Hp. destruct (in_use s) eqn:U.
  - destruct (used_slot _ _ _ _ _ H Hk U) as (? & ? & ? & ? & _ & _ & _ & _ & _ & Hm). by rewrite lookup_empty in Hm.
  - destruct (ho_free _ _ _ H k s Hk U) as [Hn Hv]. destruct b; cbn [ptr_of] in Hp; congruence.
Qed.

(** C13: the registry of extensions refines a map from domain and name: every
    sequence of registrations (of extensions and of providers that the caller
    owns, not of those that the registry returned), removals, look-ups, counts,
    traversals and clearings, whatever the allocator answers, runs without
    touching a block that was freed, and returns what the map says: a
    registration overwrites or adds, fails only for a bad argument, for want of
    memory or, with an error, when sixteen others fill its domain, and then
    changes nothing.
    The copies that the registry owns are those of the extensions in it, and
    when it is empty no block is left. *)
Theorem extensions_refine_map ops :
  exists rs g m, run_ops ops empty_registry = Some (rs, g) /\ allowed_run ops ∅ rs m /\ holds g [] m /\ (m = ∅ -> blocks g = ∅).
Proof.
  destruct (run_ops_holds ops empty_registry ∅ empty_holds) as (rs & g & m & Hr & Ha & H). exists rs, g, m.
  split; [done|]. split; [done|]. split; [done|]. intros ->. by apply holds_empty.
Qed.

(** ** Examples and behaviours to know of *)

Definition sample (n : cstr) (vt : Z) : request := Request 1 (Some n) None (Payload 7 2 vt 9).

Example extension_run :
  fst <$> run_ops [Register true true (sample (cs "a") 100); Register true true (sample (cs "b") 200); Register true true (sample (cs "a") 300);
    Register true false (sample (cs "c") 400); Get 1 (Some (cs "a")); Count 1; Unregister 1 (Some (cs "b")); Unregister 1 (Some (cs "b")); Count 1;
    RegisterProvider true true Sandbox (Some (Provider 500 (Some (cs "s")) None 0 true)); Clear 1; Count 1; Count 4] empty_registry =
  Some [Code 0; Code 0; Code 0; Code AIRY_ENOMEM; Found (Some ((1, cs "a"), (cs "0.0.0", Payload 7 2 300 9))); Number 2; Code 0;
    Code AIRY_ENOENT; Number 1; Code 0; Code 0; Number 0; Number 1].
Proof. vm_compute. reflexivity. Qed.

(** An extension that is registered again through the pointer that
    [airy_ext_get] returned loses its domain, vtable and instance, because its
    slot is zeroed before they are read. *)
Lemma registered_again_lost :
  (p ← airy_ext_register true true (Own (sample (cs "a") 100)) empty_registry;
   q ← airy_ext_register true true (Shared 16) p.2;
   s ← slots q.2 !! 16%nat; Some (q.1, view q.2 (ext s))) = Some (0, Some ((0, cs "a"), (cs "0.0.0", no_payload))).
Proof. vm_compute. reflexivity. Qed.

(** The pointer stays good memory after the extension is gone, and shows the
    next extension that takes the slot. *)
Lemma pointer_shows_successor :
  (p ← airy_ext_register true true (Own (sample (cs "a") 100)) empty_registry;
   i ← airy_ext_get 1 (Some (cs "a")) p.2; i ← i;
   q ← airy_ext_unregister 1 (Some (cs "a")) p.2;
   r ← airy_ext_register true true (Own (sample (cs "b") 200)) q.2;
   s ← slots r.2 !! i; view r.2 (ext s)) = Some ((1, cs "b"), (cs "0.0.0", Payload 7 2 200 9)).
Proof. vm_compute. reflexivity. Qed.

(** A full domain answers with [AIRY_ENOSPC]. *)
Definition letters : list cstr := (fun c => [c]) <$> seqZ 97 17.

Lemma full_domain_code :
  last ∘ fst <$> run_ops ((fun n => Register true true (sample n 1)) <$> letters) empty_registry = Some (Some (Code AIRY_ENOSPC)).
Proof. vm_compute. reflexivity. Qed.
