(* ===== verification/Memory.v ===== *)
(** * The memory layer: utils/memory/memory_core.c, memory_debug_core.c and
    memory_common.c

    Allocation with statistics and records of live blocks, over a heap of the C
    library.  What the C library answers is an argument of each operation; the
    use of an address that is not live and the end of the process by [abort]
    are outcomes of their own. *)
From S2P Require Import Prelude Keyed.

(** ** State *)

Inductive memory_fail_strategy_t := RETURN_NULL | ABORT | CALLBACK | RETRY.

Record memory_options_t := Options {
  o_alignment : Z;
  zero_memory : bool;
  fail_strategy : memory_fail_strategy_t;
  o_fail_callback : option Z;
}.

Record memory_stats_t := Stats {
  total_allocated : Z;
  total_freed : Z;
  current_allocated : Z;
  peak_allocated : Z;
  allocation_count : Z;
  free_count : Z;
}.

Record memory_debug_info := Info {
  address : positive;
  i_size : Z;
  i_alignment : Z;
  i_tag : option cstr;
  i_file : option cstr;
  i_line : Z;
  i_function : option cstr;
  timestamp : Z;
}.

(** The state of the layer, the blocks of the C library with their bytes, and
    the calls of the failure callback so far: callback, size and tag. *)
Record memory_state_t := State {
  initialized : bool;
  debug_enabled : bool;
  options : memory_options_t;
  stats : memory_stats_t;
  debug_list : list memory_debug_info;
  fail_callback : option Z;
  heap : gmap positive (list Z);
  failures : list (Z * Z * option cstr);
}.

Definition no_options : memory_options_t := Options 0 false RETURN_NULL None.
Definition no_stats : memory_stats_t := Stats 0 0 0 0 0 0.
Definition g_state : memory_state_t := State false false no_options no_stats [] None ∅ [].

Definition set_stats (x : memory_stats_t) (s : memory_state_t) : memory_state_t :=
  State (initialized s) (debug_enabled s) (options s) x (debug_list s) (fail_callback s) (heap s) (failures s).
Definition set_list (x : list memory_debug_info) (s : memory_state_t) : memory_state_t :=
  State (initialized s) (debug_enabled s) (options s) (stats s) x (fail_callback s) (heap s) (failures s).
Definition set_heap (x : gmap positive (list Z)) (s : memory_state_t) : memory_state_t :=
  State (initialized s) (debug_enabled s) (options s) (stats s) (debug_list s) (fail_callback s) x (failures s).
Definition set_debug (x : bool) (s : memory_state_t) : memory_state_t :=
  State (initialized s) x (options s) (stats s) (debug_list s) (fail_callback s) (heap s) (failures s).
Definition set_callback (x : option Z) (s : memory_state_t) : memory_state_t :=
  State (initialized s) (debug_enabled s) (options s) (stats s) (debug_list s) x (heap s) (failures s).
Definition add_failure (x : Z * Z * option cstr) (s : memory_state_t) : memory_state_t :=
  State (initialized s) (debug_enabled s) (options s) (stats s) (debug_list s) (fail_callback s) (heap s) (failures s ++ [x]).

(** ** Outcomes *)

Inductive outcome (A : Type) :=
  | Ret (a : A) (s : memory_state_t)
  | Aborted
  | Wild.
Arguments Ret {A} a s.
Arguments Aborted {A}.
Arguments Wild {A}.

Definition bind {A B} (x : outcome A) (k : A -> memory_state_t -> outcome B) : outcome B :=
  match x with Ret a s => k a s | Aborted => Aborted | Wild => Wild end.

(** The answers of the platform to one operation: the block that is granted,
    with what it held before; whether the node of a record and its three
    strings are granted; the clock. *)
Record answers := Answers {
  grant : option (positive * list Z);
  node_ok : bool;
  tag_ok : bool;
  file_ok : bool;
  function_ok : bool;
  now : Z;
}.

(** ** The C library *)

(** A block of [size] bytes that hold [junk]. *)
Definition c_malloc (g : option (positive * list Z)) (size : Z) (s : memory_state_t) : option positive * memory_state_t :=
  match g with
  | None => (None, s)
  | Some (p, junk) => (Some p, set_heap (<[p := resize (Z.to_nat size) 0 junk]> (heap s)) s)
  end.

Definition c_zero (p : positive) (size : Z) (s : memory_state_t) : memory_state_t :=
  set_heap (alter (fun b => replicate (Z.to_nat size) 0 ++ drop (Z.to_nat size) b) p (heap s)) s.

Definition c_free (p : positive) (s : memory_state_t) : outcome unit :=
  match heap s !! p with None => Wild | Some _ => Ret tt (set_heap (delete p (heap s)) s) end.

(** [realloc]: the block keeps its bytes and may move. *)
Definition c_realloc (g : option (positive * list Z)) (p : positive) (size : Z) (s : memory_state_t) : outcome (option positive) :=
  match heap s !! p with
  | None => Wild
  | Some bytes =>
      match g with
      | None => Ret None s
      | Some (q, junk) =>
          Ret (Some q) (set_heap (<[q := take (Z.to_nat size) (bytes ++ resize (Z.to_nat size) 0 junk)]> (delete p (heap s))) s)
      end
  end.

(** ** Failures, records and statistics (memory_core.c) *)

Definition memory_handle_fail (size : Z) (tag : option cstr) (s : memory_state_t) : outcome unit :=
  let s := match fail_callback s with Some cb => add_failure (cb, size, tag) s | None => s end in
  match fail_strategy (options s) with ABORT => Aborted | _ => Ret tt s end.

Definition dup (ok : bool) (t : option cstr) : option cstr := if ok then t else None.

Definition memory_add_debug_info (a : answers) (addr : option positive) (size alignment : Z) (tag : option cstr) (file : option cstr)
    (line : Z) (function : option cstr) (s : memory_state_t) : memory_state_t :=
  match addr with
  | None => s
  | Some p =>
      if negb (debug_enabled s) then s
      else if negb (node_ok a) then s
      else
        set_list (Info p size alignment (dup (tag_ok a) tag) (dup (file_ok a) file) line (dup (function_ok a) function) (now a)
                    :: debug_list s) s
  end.

Fixpoint unlink (p : positive) (l : list memory_debug_info) : list memory_debug_info :=
  match l with [] => [] | i :: l' => if decide (address i = p) then l' else i :: unlink p l' end.

Definition memory_remove_debug_info (p : positive) (s : memory_state_t) : memory_state_t :=
  if negb (debug_enabled s) then s else set_list (unlink p (debug_list s)) s.

Fixpoint find_info (p : positive) (l : list memory_debug_info) : option memory_debug_info :=
  match l with [] => None | i :: l' => if decide (address i = p) then Some i else find_info p l' end.

Definition memory_find_debug_info (p : positive) (s : memory_state_t) : option memory_debug_info :=
  if negb (debug_enabled s) then None else find_info p (debug_list s).

Definition memory_update_stats_alloc (size : Z) (s : memory_state_t) : memory_state_t :=
  let t := stats s in
  let current := u64 (current_allocated t + size) in
  set_stats (Stats (u64 (total_allocated t + size)) (total_freed t) current
    (if peak_allocated t <? current then current else peak_allocated t) (u64 (allocation_count t + 1)) (free_count t)) s.

Definition memory_update_stats_free (size : Z) (s : memory_state_t) : memory_state_t :=
  let t := stats s in
  set_stats (Stats (total_allocated t) (u64 (total_freed t + size)) (u64 (current_allocated t - size)) (peak_allocated t)
    (allocation_count t) (u64 (free_count t + 1))) s.

Definition FILE_ : cstr := cs "memory_core.c".

Definition memory_allocate_internal (a : answers) (size : Z) (tag : option cstr) (zero : bool) (alignment : Z) (s : memory_state_t)
    : outcome (option positive) :=
  if size =? 0 then Ret None s
  else
    match c_malloc (grant a) size s with
    | (None, s) => bind (memory_handle_fail size tag s) (fun _ s => Ret None s)
    | (Some p, s) =>
        let s := if zero || zero_memory (options s) then c_zero p size s else s in
        let s := memory_update_stats_alloc size s in
        let s := memory_add_debug_info a (Some p) size alignment tag (Some FILE_) 196 (Some (cs "memory_allocate_internal")) s in
        Ret (Some p) s
    end.

(** ** The interface *)

Definition memory_init (opts : option memory_options_t) (lock_ok : bool) (s : memory_state_t) : bool * memory_state_t :=
  if initialized s then (true, s)
  else if negb lock_ok then (false, s)
  else (true, State true false (default (options s) opts) (stats s) [] None (heap s) (failures s)).

Definition memory_cleanup (s : memory_state_t) : memory_state_t :=
  if negb (initialized s) then s
  else
    State false (debug_enabled s) (options s) (stats s) (if debug_enabled s then [] else debug_list s) (fail_callback s) (heap s) (failures s).

(** Before [memory_init], blocks come from the C library and are zeroed. *)
Definition alloc_raw (a : answers) (size : Z) (s : memory_state_t) : outcome (option positive) :=
  match c_malloc (grant a) size s with (None, s) => Ret None s | (Some p, s) => Ret (Some p) (c_zero p size s) end.

Definition memory_alloc (a : answers) (size : Z) (tag : option cstr) (s : memory_state_t) : outcome (option positive) :=
  if negb (initialized s) then alloc_raw a size s else memory_allocate_internal a size tag false 0 s.

Definition memory_calloc (a : answers) (size : Z) (tag : option cstr) (s : memory_state_t) : outcome (option positive) :=
  if negb (initialized s) then alloc_raw a size s else memory_allocate_internal a size tag true 0 s.

Definition memory_aligned_alloc (a : answers) (alignment size : Z) (tag : option cstr) (s : memory_state_t) : outcome (option positive) :=
  if negb (initialized s) then alloc_raw a size s
  else memory_allocate_internal a size tag (zero_memory (options s)) alignment s.

Definition memory_release (p : option positive) (s : memory_state_t) : outcome unit :=
  match p with
  | None => Ret tt s
  | Some p =>
      if negb (initialized s) then c_free p s
      else
        let size := match memory_find_debug_info p s with Some i => i_size i | None => 0 end in
        let s := memory_remove_debug_info p s in
        bind (c_free p s) (fun _ s => Ret tt (if 0 <? size then memory_update_stats_free size s else s))
  end.

Definition memory_free (p : option positive) (s : memory_state_t) : outcome unit := memory_release p s.
Definition memory_aligned_free (p : option positive) (s : memory_state_t) : outcome unit := memory_release p s.

(** The copies of a record's strings, cut to the arrays that hold them. *)
Record memory_trace_t := Saved { s_alignment : Z; s_line : Z; s_tag : cstr; s_file : cstr; s_func : cstr }.

Definition strncpy_term (size : nat) (t : option cstr) : cstr := take (size - 1) (default [] t).

Definition save_trace (i : memory_debug_info) : memory_trace_t :=
  Saved (i_alignment i) (i_line i) (strncpy_term 64 (i_tag i)) (strncpy_term 128 (i_file i)) (strncpy_term 64 (i_function i)).

Definition memory_retrack (a : answers) (p : positive) (size : Z) (tag : option cstr) (saved : option memory_trace_t) (s : memory_state_t)
    : memory_state_t :=
  if negb (debug_enabled s) then s
  else
    match saved with
    | Some t =>
        memory_add_debug_info a (Some p) size (s_alignment t) (match s_tag t with [] => tag | x => Some x end)
          (Some (match s_file t with [] => FILE_ | x => x end)) (if 0 <? s_line t then s_line t else 357)
          (Some (match s_func t with [] => cs "memory_retrack" | x => x end)) s
    | None => memory_add_debug_info a (Some p) size 8 tag (Some FILE_) 362 (Some (cs "memory_retrack")) s
    end.

Definition realloc_stats (same : bool) (old_size new_size : Z) (s : memory_state_t) : memory_state_t :=
  if negb same then memory_update_stats_alloc new_size (if 0 <? old_size then memory_update_stats_free old_size s else s)
  else if old_size <? new_size then memory_update_stats_alloc (new_size - old_size) s
  else if new_size <? old_size then memory_update_stats_free (old_size - new_size) s
  else s.

Definition memory_realloc (a : answers) (ptr : option positive) (new_size : Z) (tag : option cstr) (s : memory_state_t)
    : outcome (option positive) :=
  match ptr with
  | None => memory_alloc a new_size tag s
  | Some p =>
      if new_size =? 0 then bind (memory_free (Some p) s) (fun _ s => Ret None s)
      else if negb (initialized s) then c_realloc (grant a) p new_size s
      else
        let info := memory_find_debug_info p s in
        let old_size := match info with Some i => i_size i | None => 0 end in
        let saved := save_trace <$> info in
        let s := match saved with Some _ => memory_remove_debug_info p s | None => s end in
        bind (c_realloc (grant a) p new_size s) (fun r s =>
          match r with
          | None =>
              let s := match saved with Some _ => memory_retrack a p old_size tag saved s | None => s end in
              bind (memory_handle_fail new_size tag s) (fun _ s => Ret None s)
          | Some q =>
              let s := realloc_stats (bool_decide (q = p)) old_size new_size s in
              Ret (Some q) (memory_retrack a q new_size tag saved s)
          end)
  end.

(** ** Debugging (memory_debug_core.c) *)

Definition memory_debug_enable (enable : bool) (s : memory_state_t) : bool * memory_state_t :=
  if negb (initialized s) then (false, s)
  else if Bool.eqb enable (debug_enabled s) then (true, s)
  else (true, set_list (if enable then debug_list s else []) (set_debug enable s)).

(** The size is a [size_t]. *)
Definition memory_check_leaks (s : memory_state_t) : Z :=
  if negb (initialized s) || negb (debug_enabled s) then 0
  else foldl (fun n i => u64 (n + i_size i)) 0 (debug_list s).

Definition memory_validate (p : option positive) (s : memory_state_t) : bool :=
  match p with
  | None => true
  | Some p => if negb (initialized s) || negb (debug_enabled s) then true else bool_decide (is_Some (memory_find_debug_info p s))
  end.

Definition memory_set_fail_callback (cb : option Z) (s : memory_state_t) : memory_state_t :=
  if negb (initialized s) then s else set_callback cb s.

(** ** Calls and what the blocks are after them *)

Inductive call :=
  | Alloc (size : Z) (tag : option cstr)
  | Calloc (size : Z) (tag : option cstr)
  | AlignedAlloc (alignment size : Z) (tag : option cstr)
  | Realloc (p : option positive) (size : Z) (tag : option cstr)
  | Free (p : option positive)
  | AlignedFree (p : option positive).

Definition do_call (c : call) (a : answers) (s : memory_state_t) : outcome (option positive) :=
  match c with
  | Alloc size tag => memory_alloc a size tag s
  | Calloc size tag => memory_calloc a size tag s
  | AlignedAlloc al size tag => memory_aligned_alloc a al size tag s
  | Realloc p size tag => memory_realloc a p size tag s
  | Free p => bind (memory_free p s) (fun _ s => Ret None s)
  | AlignedFree p => bind (memory_aligned_free p s) (fun _ s => Ret None s)
  end.

Fixpoint run (cs : list (call * answers)) (s : memory_state_t) : outcome (list (option positive)) :=
  match cs with
  | [] => Ret [] s
  | (c, a) :: cs' => bind (do_call c a s) (fun r s => bind (run cs' s) (fun rs s => Ret (r :: rs) s))
  end.

Abbreviation blocks := (gmap positive (list Z)).

(** A new block: zeroes when they are asked for, else what the memory held. *)
Definition block (size : Z) (zero : bool) (junk : list Z) : list Z :=
  if zero then replicate (Z.to_nat size) 0 else resize (Z.to_nat size) 0 junk.

Definition alloc_spec (a : answers) (size : Z) (zero : bool) (m : blocks) : option positive * blocks :=
  if size =? 0 then (None, m)
  else match grant a with None => (None, m) | Some (p, junk) => (Some p, <[p := block size zero junk]> m) end.

Definition free_spec (p : option positive) (m : blocks) : blocks := match p with None => m | Some p => delete p m end.

(** [z]: the option that asks for zeroes everywhere. *)
Definition call_spec (z : bool) (c : call) (a : answers) (m : blocks) : option positive * blocks :=
  match c with
  | Alloc size _ => alloc_spec a size z m
  | Calloc size _ => alloc_spec a size true m
  | AlignedAlloc _ size _ => alloc_spec a size z m
  | Realloc None size _ => alloc_spec a size z m
  | Realloc (Some p) size _ =>
      if size =? 0 then (None, delete p m)
      else
        match grant a with
        | None => (None, m)
        | Some (q, junk) => (Some q, <[q := take (Z.to_nat size) (default [] (m !! p) ++ resize (Z.to_nat size) 0 junk)]> (delete p m))
        end
  | Free p | AlignedFree p => (None, free_spec p m)
  end.

Fixpoint run_spec (z : bool) (cs : list (call * answers)) (m : blocks) : list (option positive) * blocks :=
  match cs with
  | [] => ([], m)
  | (c, a) :: cs' => let '(r, m) := call_spec z c a m in let '(rs, m) := run_spec z cs' m in (r :: rs, m)
  end.

Definition size_of (c : call) : Z :=
  match c with Alloc n _ | Calloc n _ | AlignedAlloc _ n _ | Realloc _ n _ => n | Free _ | AlignedFree _ => 0 end.

(** Blocks that are granted are new (or the one that is resized), records get
    their nodes, and the program frees and resizes only blocks that it has. *)
Definition behaves (m : blocks) (c : call) (a : answers) : Prop :=
  0 <= size_of c /\ node_ok a = true /\
  match c with
  | Realloc (Some p) _ _ => is_Some (m !! p) /\ match grant a with Some (q, _) => q = p \/ m !! q = None | None => True end
  | Free (Some p) | AlignedFree (Some p) => is_Some (m !! p)
  | _ => match grant a with Some (q, _) => m !! q = None | None => True end
  end.

Fixpoint behave (z : bool) (m : blocks) (cs : list (call * answers)) : Prop :=
  match cs with [] => True | (c, a) :: cs' => behaves m c a /\ behave z (call_spec z c a m).2 cs' end.

Definition requested (cs : list (call * answers)) : Z := foldr (fun p n => size_of p.1 + n) 0 cs.

(** ** Accounts *)

Definition sizes (l : list memory_debug_info) : gmap positive Z := kmap address i_size l.
Definition total (l : list memory_debug_info) : Z := foldr (fun i n => i_size i + n) 0 l.
Definition lengths (m : blocks) : gmap positive Z := (fun b => Z.of_nat (length b)) <$> m.

(** The records are the live blocks with their sizes, and the statistics add up. *)
Record accounts (s : memory_state_t) : Prop := Accounts {
  ac_init : initialized s = true;
  ac_debug : debug_enabled s = true;
  ac_distinct : keys_distinct address (debug_list s);
  ac_live : sizes (debug_list s) = lengths (heap s);
  ac_positive : Forall (fun i => 0 < i_size i) (debug_list s);
  ac_current : current_allocated (stats s) = total (debug_list s);
  ac_total : total_allocated (stats s) = total_freed (stats s) + current_allocated (stats s);
  ac_freed : 0 <= total_freed (stats s);
  ac_peak : current_allocated (stats s) <= peak_allocated (stats s);
}.

Lemma sizes_cons i l : sizes (i :: l) = <[address i := i_size i]> (sizes l).
Proof. done. Qed.

Lemma find_info_sizes p l : i_size <$> find_info p l = sizes l !! p.
Proof.
  induction l as [|i l IH]; [done|]. rewrite sizes_cons. cbn [find_info]. case_decide as E; [subst; by rewrite lookup_insert_eq|].
  by rewrite lookup_insert_ne.
Qed.

Lemma unlink_perm p l i : find_info p l = Some i -> address i = p /\ l ≡ₚ i :: unlink p l.
Proof.
  induction l as [|j l IH]; [done|]. cbn [find_info unlink]. case_decide as E; [by intros [= ->]|].
  intros [Ha Hp]%IH. split; [done|]. rewrite Hp at 1. apply Permutation_swap.
Qed.

Lemma unlink_none p l : find_info p l = None -> unlink p l = l.
Proof. induction l as [|j l IH]; [done|]. cbn [find_info unlink]. case_decide; [done|]. intros Hn. by rewrite IH. Qed.

Lemma total_perm l l' : l ≡ₚ l' -> total l = total l'.
Proof. induction 1; cbn [total foldr] in *; unfold total in *; lia. Qed.

Lemma total_nonneg l : Forall (fun i => 0 < i_size i) l -> 0 <= total l.
Proof. induction 1; cbn; unfold total in *; lia. Qed.

Lemma sizes_perm l l' : keys_distinct address l -> l ≡ₚ l' -> sizes l = sizes l'.
Proof. apply kmap_perm. Qed.

(** A live block has its record. *)
Lemma live_info s p b :
  accounts s -> heap s !! p = Some b -> exists i, find_info p (debug_list s) = Some i /\ i_size i = Z.of_nat (length b) /\ address i = p /\ 0 < i_size i.
Proof.
  intros H Hp. assert (i_size <$> find_info p (debug_list s) = Some (Z.of_nat (length b))) as Hf.
  { rewrite find_info_sizes, (ac_live _ H). unfold lengths. by rewrite lookup_fmap, Hp. }
  destruct (find_info p (debug_list s)) as [i|] eqn:E; [|done]. injection Hf as Hf. destruct (unlink_perm _ _ _ E) as [Ha HP].
  exists i. split_and!; try done. pose proof (ac_positive _ H) as Hpos. rewrite HP in Hpos. by apply Forall_cons in Hpos as [? _].
Qed.

(** ** What each part of an operation does to the accounts *)

(** The accounts but for the heap: of a list of records and statistics. *)
Record books (l : list memory_debug_info) (t : memory_stats_t) : Prop := Books {
  bk_distinct : keys_distinct address l;
  bk_positive : Forall (fun i => 0 < i_size i) l;
  bk_current : current_allocated t = total l;
  bk_total : total_allocated t = total_freed t + current_allocated t;
  bk_freed : 0 <= total_freed t;
  bk_peak : current_allocated t <= peak_allocated t;
}.

Lemma accounts_books s :
  accounts s <-> initialized s = true /\ debug_enabled s = true /\ books (debug_list s) (stats s) /\ sizes (debug_list s) = lengths (heap s).
Proof.
  split; [intros []; split_and!; try done; by split|]. intros (Hi & Hd & [] & Hl). by split.
Qed.

Definition after_alloc (size : Z) (t : memory_stats_t) : memory_stats_t :=
  let current := u64 (current_allocated t + size) in
  Stats (u64 (total_allocated t + size)) (total_freed t) current
    (if peak_allocated t <? current then current else peak_allocated t) (u64 (allocation_count t + 1)) (free_count t).

Definition after_free (size : Z) (t : memory_stats_t) : memory_stats_t :=
  Stats (total_allocated t) (u64 (total_freed t + size)) (u64 (current_allocated t - size)) (peak_allocated t)
    (allocation_count t) (u64 (free_count t + 1)).

Lemma books_add l t i :
  books l t -> (address i ∉ address <$> l) -> 0 < i_size i -> total_allocated t + i_size i < 2 ^ 64 -> books (i :: l) (after_alloc (i_size i) t).
Proof.
  intros [Hd Hp Hc Ht Hf Hk] Hn Hs Hb. pose proof (total_nonneg l Hp). unfold after_alloc.
  assert (u64 (current_allocated t + i_size i) = current_allocated t + i_size i) as -> by (apply u64_small; lia).
  rewrite u64_small by lia. split; cbn [current_allocated total_allocated total_freed peak_allocated]; try lia.
  - unfold keys_distinct. cbn [fmap list_fmap]. by constructor.
  - by constructor.
  - cbn. unfold total in Hc. lia.
  - case_match; lia.
Qed.

Lemma books_remove l t i p :
  books l t -> find_info p l = Some i -> total_allocated t < 2 ^ 64 -> books (unlink p l) (after_free (i_size i) t).
Proof.
  intros [Hd Hp Hc Ht Hf Hk] Hi Hb. destruct (unlink_perm _ _ _ Hi) as [Ha HP]. rewrite (total_perm _ _ HP) in Hc. cbn in Hc.
  rewrite HP in Hp. apply Forall_cons in Hp as [Hs Hp]. pose proof (total_nonneg _ Hp). unfold total in *. unfold after_free.
  rewrite !u64_small by lia. split; cbn [current_allocated total_allocated total_freed peak_allocated]; unfold total in *; try lia; [|done].
  unfold keys_distinct in *. rewrite HP in Hd. by apply NoDup_cons in Hd as [_ Hd].
Qed.

(** A record is replaced by one of another size, in place or elsewhere. *)
Lemma books_resize l t i p j :
  books l t -> find_info p l = Some i -> 0 < i_size j -> total_allocated t + i_size j < 2 ^ 64 ->
  (address j = p \/ (address j ∉ address <$> l)) ->
  books (j :: unlink p l)
    (if bool_decide (address j = p) then
       if i_size i <? i_size j then after_alloc (i_size j - i_size i) t
       else if i_size j <? i_size i then after_free (i_size i - i_size j) t else t
     else after_alloc (i_size j) (after_free (i_size i) t)).
Proof.
  intros HB Hi Hs Hb Hj. destruct (unlink_perm _ _ _ Hi) as [Ha HP]. pose proof (bk_distinct _ _ HB) as Hd. unfold keys_distinct in Hd.
  rewrite HP in Hd. cbn [fmap list_fmap] in Hd. apply NoDup_cons in Hd as [Hn Hd].
  pose proof (bk_positive _ _ HB) as Hp. rewrite HP in Hp. apply Forall_cons in Hp as [His Hp]. pose proof (total_nonneg _ Hp) as H0.
  destruct HB as [_ _ Hc Ht Hf Hk]. rewrite (total_perm _ _ HP) in Hc. cbn in Hc. fold (total (unlink p l)) in Hc.
  assert (keys_distinct address (j :: unlink p l)) as HD.
  { unfold keys_distinct. cbn [fmap list_fmap]. constructor; [|done]. destruct Hj as [->|Hj]; [by rewrite Ha in Hn|].
    intros Hx. apply Hj. rewrite HP. cbn [fmap list_fmap]. by right. }
  assert (Forall (fun i => 0 < i_size i) (j :: unlink p l)) as HF by (by constructor).
  assert (total (j :: unlink p l) = i_size j + total (unlink p l)) as HT by done.
  case_bool_decide as E.
  - destruct (Z.ltb_spec (i_size i) (i_size j)); [|destruct (Z.ltb_spec (i_size j) (i_size i))];
      unfold after_alloc, after_free; rewrite ?u64_small by lia; split; cbn [current_allocated total_allocated total_freed peak_allocated];
      try done; try case_match; lia.
  - unfold after_alloc, after_free; cbn [current_allocated total_allocated total_freed peak_allocated].
    rewrite (u64_small (total_freed t + i_size i)), (u64_small (current_allocated t - i_size i)) by lia.
    rewrite !u64_small by lia. split; cbn [current_allocated total_allocated total_freed peak_allocated]; try done; try case_match; lia.
Qed.

(** ** Operations *)

Definition settled (s : memory_state_t) (n : Z) (e : option positive * blocks) (x : outcome (option positive)) : Prop :=
  match x with
  | Ret r s' =>
      r = e.1 /\ heap s' = e.2 /\ accounts s' /\ options s' = options s /\ total_allocated (stats s') <= total_allocated (stats s) + n
  | Aborted => fail_strategy (options s) = ABORT
  | Wild => False
  end.

Lemma lengths_insert m p b : lengths (<[p := b]> m) = <[p := Z.of_nat (length b)]> (lengths m).
Proof. unfold lengths. by rewrite fmap_insert. Qed.

Lemma lengths_delete m p : lengths (delete p m) = delete p (lengths m).
Proof. unfold lengths. by rewrite fmap_delete. Qed.

Lemma untracked s p : accounts s -> heap s !! p = None -> (p ∉ address <$> debug_list s).
Proof.
  intros H Hp. apply (kmap_lookup_None address i_size). fold (sizes (debug_list s)). rewrite (ac_live _ H). unfold lengths.
  by rewrite lookup_fmap, Hp.
Qed.

(** A failure changes nothing but the log of callbacks, or ends the process. *)
Lemma fail_settled s s1 n size tag :
  accounts s1 -> options s1 = options s -> total_allocated (stats s1) = total_allocated (stats s) -> 0 <= n ->
  settled s n (None, heap s1) (bind (memory_handle_fail size tag s1) (fun _ s => Ret None s)).
Proof.
  intros H Ho Ht Hn. unfold memory_handle_fail. rewrite accounts_books in H.
  destruct (fail_callback s1) as [cb|]; cbn [options add_failure]; rewrite Ho;
    destruct (fail_strategy (options s)) eqn:E; cbn [bind settled fst snd]; try done;
    (split; [done|]; split; [done|]; split; [by apply accounts_books|]; split; [done|cbn; lia]).
Qed.

Lemma length_block size zero junk : 0 <= size -> Z.of_nat (length (block size zero junk)) = size.
Proof. intros H. unfold block. destruct zero; rewrite ?length_replicate, ?length_resize; lia. Qed.

Lemma zeroed s p size junk :
  heap (c_zero p size (set_heap (<[p := resize (Z.to_nat size) 0 junk]> (heap s)) s)) = <[p := block size true junk]> (heap s).
Proof.
  unfold c_zero, set_heap, block. cbn [heap]. rewrite alter_insert_eq. rewrite drop_ge by (by rewrite length_resize). by rewrite app_nil_r.
Qed.

Lemma allocate_settled a size tag zero al s :
  accounts s -> 0 <= size -> node_ok a = true -> match grant a with Some (q, _) => heap s !! q = None | None => True end ->
  total_allocated (stats s) + size < 2 ^ 64 ->
  settled s size (alloc_spec a size (zero || zero_memory (options s)) (heap s)) (memory_allocate_internal a size tag zero al s).
Proof.
  intros H Hs Hn Hg Hb. unfold memory_allocate_internal, alloc_spec. destruct (Z.eqb_spec size 0) as [->|Hz].
  { cbn [settled fst snd]. split_and!; try done. lia. }
  destruct (grant a) as [[p junk]|]; cbn [c_malloc]; [|by apply fail_settled].
  match goal with |- context [if ?b then c_zero ?q ?n ?x else ?y] => set (s1 := if b then c_zero q n x else y) end.
  assert (heap s1 = <[p := block size (zero || zero_memory (options s)) junk]> (heap s) /\ debug_list s1 = debug_list s /\ stats s1 = stats s /\
    initialized s1 = initialized s /\ debug_enabled s1 = debug_enabled s /\ options s1 = options s) as (Hh & Hl & Ht & Hi & Hd & Ho).
  { subst s1. cbn [options set_heap]. destruct (zero || zero_memory (options s)); [rewrite zeroed|]; done. }
  clearbody s1. unfold memory_add_debug_info. change (debug_enabled (memory_update_stats_alloc size s1)) with (debug_enabled s1).
  rewrite Hd, (ac_debug _ H), Hn. cbn [negb settled fst snd]. split; [done|]. split; [done|].
  pose proof (proj1 (accounts_books _) H) as (_ & _ & HB & HL).
  split; [|split; [done|cbn [set_list set_stats memory_update_stats_alloc stats total_allocated]; rewrite Ht; rewrite u64_small; [lia|]]].
  - apply accounts_books. cbn [set_list set_stats memory_update_stats_alloc initialized debug_enabled debug_list stats heap].
    split; [by rewrite Hi, (ac_init _ H)|]. split; [by rewrite Hd, (ac_debug _ H)|]. rewrite Hl, Ht, Hh. split.
    + apply (books_add _ _ (Info p size al (dup (tag_ok a) tag) (dup (file_ok a) (Some FILE_)) 196
        (dup (function_ok a) (Some (cs "memory_allocate_internal"))) (now a))); cbn [address i_size]; [done|by apply untracked|lia|lia].
    + rewrite sizes_cons, lengths_insert, length_block by done. cbn [address i_size]. by rewrite HL.
  - destruct HB as [_ Hp Hc Htt Hf _]. pose proof (total_nonneg _ Hp). lia.
Qed.

Lemma sizes_unlink l t i p : books l t -> find_info p l = Some i -> sizes (unlink p l) = delete p (sizes l).
Proof.
  intros HB Hi. destruct (unlink_perm _ _ _ Hi) as [Ha HP]. rewrite (sizes_perm l _ (bk_distinct _ _ HB) HP), sizes_cons, Ha, delete_insert_eq.
  symmetry. apply delete_id, (kmap_lookup_None address i_size). pose proof (bk_distinct _ _ HB) as HD. unfold keys_distinct in HD.
  rewrite HP in HD. cbn [fmap list_fmap] in HD. apply NoDup_cons in HD as [HD _]. by rewrite Ha in HD.
Qed.

Lemma release_settled p s :
  accounts s -> total_allocated (stats s) < 2 ^ 64 -> match p with Some q => is_Some (heap s !! q) | None => True end ->
  settled s 0 (None, free_spec p (heap s)) (bind (memory_release p s) (fun _ s => Ret None s)).
Proof.
  intros H Hb Hp. unfold memory_release, free_spec. destruct p as [p|]; [|cbn [bind settled fst snd]; split_and!; try done; lia].
  destruct Hp as [b Hp]. rewrite (ac_init _ H). cbn [negb]. destruct (live_info s p b H Hp) as (i & Hi & Hsz & Ha & Hpos).
  unfold memory_find_debug_info, memory_remove_debug_info. rewrite (ac_debug _ H). cbn [negb]. rewrite Hi.
  unfold c_free. cbn [heap set_list]. rewrite Hp. cbn [bind]. destruct (Z.ltb_spec 0 (i_size i)); [|lia].
  cbn [settled fst snd]. split; [done|]. split; [done|]. pose proof (proj1 (accounts_books _) H) as (Hin & Hdb & HB & HL).
  split; [|split; [done|cbn; lia]]. apply accounts_books. cbn [set_heap set_list set_stats memory_update_stats_free initialized debug_enabled debug_list stats heap].
  split; [done|]. split; [done|]. split; [by apply (books_remove _ _ i)|].
  by rewrite (sizes_unlink _ _ _ _ HB Hi), lengths_delete, HL.
Qed.

Lemma retrack_list a q n tag saved s :
  debug_enabled s = true -> node_ok a = true ->
  exists j, memory_retrack a q n tag saved s = set_list (j :: debug_list s) s /\ address j = q /\ i_size j = n.
Proof.
  intros Hd Hn. unfold memory_retrack, memory_add_debug_info. rewrite Hd, Hn. cbn [negb]. destruct saved; by eexists.
Qed.

(** A record that is taken out and put back. *)
Lemma books_back l t i p j :
  books l t -> find_info p l = Some i -> address j = p -> i_size j = i_size i -> books (j :: unlink p l) t /\ sizes (j :: unlink p l) = sizes l.
Proof.
  intros HB Hi Hj Hs. destruct (unlink_perm _ _ _ Hi) as [Ha HP]. split.
  - pose proof (bk_distinct _ _ HB) as Hd. pose proof (bk_positive _ _ HB) as Hp. pose proof (bk_current _ _ HB) as Hc.
    unfold keys_distinct in Hd. rewrite HP in Hd. rewrite HP in Hp. rewrite (total_perm _ _ HP) in Hc.
    split; try apply HB.
    + unfold keys_distinct. cbn [fmap list_fmap] in *. by rewrite Hj, <- Ha at 1.
    + apply Forall_cons in Hp as [? ?]. constructor; [by rewrite Hs|done].
    + rewrite Hc. cbn. by rewrite Hs.
  - rewrite (sizes_perm l _ (bk_distinct _ _ HB) HP), !sizes_cons. by rewrite Hj, Ha, Hs.
Qed.

Lemma realloc_stats_books l t i p j s :
  books l t -> find_info p l = Some i -> 0 < i_size j -> total_allocated t + i_size j < 2 ^ 64 ->
  (address j = p \/ (address j ∉ address <$> l)) -> stats s = t ->
  books (j :: unlink p l) (stats (realloc_stats (bool_decide (address j = p)) (i_size i) (i_size j) s)) /\
  total_allocated (stats (realloc_stats (bool_decide (address j = p)) (i_size i) (i_size j) s)) <= total_allocated t + i_size j.
Proof.
  intros HB Hi Hs Hb Hj Ht. pose proof (books_resize l t i p j HB Hi Hs Hb Hj) as HR.
  destruct (unlink_perm _ _ _ Hi) as [_ HP]. pose proof (bk_positive _ _ HB) as Hp. pose proof (total_nonneg _ Hp).
  rewrite HP in Hp. apply Forall_cons in Hp as [His _]. destruct HB as [_ _ Hc Htt Hf _].
  unfold realloc_stats. case_bool_decide as E; cbn [negb].
  - destruct (Z.ltb_spec (i_size i) (i_size j)); [|destruct (Z.ltb_spec (i_size j) (i_size i))];
      cbn [memory_update_stats_alloc memory_update_stats_free set_stats stats]; rewrite ?Ht; (split; [exact HR|]);
      cbn [total_allocated]; rewrite ?u64_small; lia.
  - destruct (Z.ltb_spec 0 (i_size i)); [|lia]. cbn [memory_update_stats_alloc memory_update_stats_free set_stats stats]. rewrite Ht.
    split; [exact HR|]. cbn [total_allocated]. rewrite u64_small; lia.
Qed.

Lemma realloc_stats_other b o n s :
  let s' := realloc_stats b o n s in
  initialized s' = initialized s /\ debug_enabled s' = debug_enabled s /\ options s' = options s /\ debug_list s' = debug_list s /\ heap s' = heap s.
Proof. unfold realloc_stats, memory_update_stats_alloc, memory_update_stats_free, set_stats. repeat case_match; done. Qed.

Lemma realloc_settled a p n tag s :
  accounts s -> 0 < n -> node_ok a = true -> total_allocated (stats s) + n < 2 ^ 64 -> is_Some (heap s !! p) ->
  match grant a with Some (q, _) => q = p \/ heap s !! q = None | None => True end ->
  settled s n (call_spec (zero_memory (options s)) (Realloc (Some p) n tag) a (heap s)) (memory_realloc a (Some p) n tag s).
Proof.
  intros H Hn Hno Hb [b Hp] Hg. cbn [memory_realloc call_spec]. destruct (Z.eqb_spec n 0); [lia|]. rewrite (ac_init _ H). cbn [negb].
  destruct (live_info s p b H Hp) as (i & Hi & Hsz & Ha & Hpos). pose proof (proj1 (accounts_books _) H) as (Hin & Hdb & HB & HL).
  unfold memory_find_debug_info, memory_remove_debug_info. rewrite Hdb. cbn [negb]. rewrite Hi. cbn [fmap option_fmap option_map].
  unfold c_realloc. cbn [heap set_list]. rewrite Hp. destruct (grant a) as [[q junk]|]; cbn [bind].
  - set (bytes := take (Z.to_nat n) (default [] (Some b) ++ resize (Z.to_nat n) 0 junk)).
    assert (Z.of_nat (length bytes) = n) as Hlen by (subst bytes; rewrite length_take, length_app, length_resize; lia).
    change (take (Z.to_nat n) (b ++ resize (Z.to_nat n) 0 junk)) with bytes. clearbody bytes.
    set (s1 := set_heap _ _). pose proof (realloc_stats_other (bool_decide (q = p)) (i_size i) n s1) as (E1 & E2 & E3 & E4 & E5).
    destruct (retrack_list a q n tag (Some (save_trace i)) (realloc_stats (bool_decide (q = p)) (i_size i) n s1)) as (j & -> & <- & <-);
      [by rewrite E2|done|].
    destruct (realloc_stats_books (debug_list s) (stats s) i p j s1) as [HB' Ht']; try done.
    { destruct Hg as [Hg|Hg]; [by left|right]. by apply untracked. }
    cbn [settled fst snd]. split; [done|]. cbn [set_list heap options stats]. rewrite E5, E3. split; [done|]. split; [|split; [done|exact Ht']].
    apply accounts_books. cbn [set_list initialized debug_enabled debug_list stats heap]. rewrite E1, E2, E4, E5.
    split; [done|]. split; [done|]. split; [exact HB'|]. rewrite sizes_cons. subst s1. cbn [set_heap set_list debug_list heap].
    rewrite (sizes_unlink _ _ _ _ HB Hi), lengths_insert, lengths_delete, HL, Hlen. done.
  - destruct (retrack_list a p (i_size i) tag (Some (save_trace i)) (set_list (unlink p (debug_list s)) s)) as (j & -> & Hj & Hjs); [done..|].
    destruct (books_back _ _ i p j HB Hi Hj Hjs) as [HB' HS].
    apply (fail_settled s (set_list (j :: debug_list (set_list (unlink p (debug_list s)) s)) (set_list (unlink p (debug_list s)) s))); try done; [|lia].
    apply accounts_books. cbn [set_list initialized debug_enabled debug_list stats heap]. split; [done|]. split; [done|]. split; [done|]. by rewrite HS.
Qed.

Lemma call_settled c a s :
  accounts s -> behaves (heap s) c a -> total_allocated (stats s) + size_of c < 2 ^ 64 ->
  settled s (size_of c) (call_spec (zero_memory (options s)) c a (heap s)) (do_call c a s).
Proof.
  intros H (Hs & Hn & Hc) Hb. destruct c as [n tag|n tag|al n tag|[p|] n tag|p|p]; cbn [size_of do_call call_spec] in *.
  - unfold memory_alloc. rewrite (ac_init _ H). by apply allocate_settled.
  - unfold memory_calloc. rewrite (ac_init _ H). by apply (allocate_settled a n tag true 0).
  - unfold memory_aligned_alloc. rewrite (ac_init _ H). cbn [negb].
    pose proof (allocate_settled a n tag (zero_memory (options s)) al s H Hs Hn Hc Hb) as HA. by rewrite orb_diag in HA.
  - destruct Hc as [Hp Hg]. destruct (Z.eqb_spec n 0) as [->|Hz]; [|].
    2:{ pose proof (realloc_settled a p n tag s H ltac:(lia) Hn Hb Hp Hg) as HR. cbn [call_spec] in HR. by destruct (Z.eqb_spec n 0). }
    unfold memory_realloc, memory_free. cbn [Z.eqb]. apply (release_settled (Some p)); [done|lia|done].
  - cbn [memory_realloc]. unfold memory_alloc. rewrite (ac_init _ H). by apply allocate_settled.
  - unfold memory_free. apply release_settled; [done|lia|by destruct p].
  - unfold memory_aligned_free. apply release_settled; [done|lia|by destruct p].
Qed.

Lemma run_settled cs s :
  accounts s -> behave (zero_memory (options s)) (heap s) cs -> total_allocated (stats s) + requested cs < 2 ^ 64 ->
  match run cs s with
  | Ret rs s' => (rs, heap s') = run_spec (zero_memory (options s)) cs (heap s) /\ accounts s' /\
      total_allocated (stats s') <= total_allocated (stats s) + requested cs
  | Aborted => fail_strategy (options s) = ABORT
  | Wild => False
  end.
Proof.
  revert s. induction cs as [|[c a] cs IH]; intros s H Hb Ht; cbn [run run_spec behave requested foldr fst] in *; [split_and!; [done..|lia]|].
  destruct Hb as [Hc Hb]. fold (requested cs) in Ht.
  assert (0 <= requested cs) as Hr.
  { clear -Hb. revert Hb. generalize (call_spec (zero_memory (options s)) c a (heap s)).2. induction cs as [|[c' a'] cs IH]; intros m Hb; [done|].
    cbn [behave requested foldr fst] in *. destruct Hb as [[Hs _] Hb]. apply IH in Hb. unfold requested in Hb. lia. }
  pose proof (call_settled c a s H Hc ltac:(lia)) as HS. destruct (do_call c a s) as [r s1| |]; [|done|done].
  destruct HS as (Hr1 & Hh & H1 & Ho & Htt). cbn [bind]. destruct (call_spec _ c a (heap s)) as [r0 m0]. cbn [fst snd] in *. subst r0 m0.
  specialize (IH s1 H1). rewrite Ho in IH. specialize (IH Hb ltac:(lia)).
  destruct (run cs s1) as [rs s2| |]; [|done|done]. destruct IH as (HE & H2 & H3). cbn [bind]. rewrite <- HE. split_and!; [done..|].
  fold (requested cs). lia.
Qed.

(** ** Correctness *)

(** The bytes of the live blocks. *)
Definition live_bytes (m : blocks) : Z := foldr (fun p n => Z.of_nat (length p.2) + n) 0 (map_to_list m).

Lemma fold_perm (l l' : list (positive * Z)) :
  l ≡ₚ l' -> foldr (fun p n => p.2 + n) 0 l = foldr (fun p n => p.2 + n) 0 l'.
Proof. induction 1; cbn; lia. Qed.

Lemma total_live s : accounts s -> total (debug_list s) = live_bytes (heap s).
Proof.
  intros H. assert ((fun i => (address i, i_size i)) <$> debug_list s ≡ₚ map_to_list (lengths (heap s))) as HP.
  { rewrite <- (ac_live _ H). unfold sizes, kmap. symmetry. apply map_to_list_to_map. rewrite kmap_fst. apply (ac_distinct _ H). }
  apply fold_perm in HP. unfold lengths in HP. rewrite map_to_list_fmap in HP. unfold live_bytes. transitivity (foldr (fun p n => p.2 + n) 0 ((fun i => (address i, i_size i)) <$> debug_list s)).
  - clear. induction (debug_list s) as [|i l IH]; [done|]. cbn in *. unfold total in *. by rewrite <- IH.
  - rewrite HP. clear. induction (map_to_list (heap s)) as [|[p b] l IH]; [done|]. cbn in *. by rewrite IH.
Qed.

Lemma check_leaks_total s : accounts s -> total_allocated (stats s) < 2 ^ 64 -> memory_check_leaks s = total (debug_list s).
Proof.
  intros H Hb. unfold memory_check_leaks. rewrite (ac_init _ H), (ac_debug _ H). cbn [negb orb].
  assert (forall l n, Forall (fun i => 0 < i_size i) l -> 0 <= n -> n + total l < 2 ^ 64 -> foldl (fun n i => u64 (n + i_size i)) n l = n + total l) as HF.
  { induction l as [|i l IH]; intros n Hp Hn Hs; cbn [foldl total foldr] in *; [lia|]. fold (total l) in *.
    apply Forall_cons in Hp as [Hi Hp]. pose proof (total_nonneg l Hp). rewrite u64_small by lia. rewrite IH; [lia|done|lia|lia]. }
  rewrite HF; [lia|apply (ac_positive _ H)|lia|]. destruct H as [_ _ _ _ Hp Hc Ht Hf _]. lia.
Qed.

(** C12: the memory layer with debugging on keeps exact accounts.  For every
    sequence of allocations, reallocations and releases by a program that uses
    only blocks it has, and all answers of the C library (with new addresses,
    and nodes for the records), no address is used that is not live; the blocks
    are what the calls say, zeroed where that is asked for and with the old
    bytes after a reallocation, also a refused one; the records are the live
    blocks with their sizes, the statistics and the leak check give the sum of
    their sizes, and an address is valid exactly when it is live.  The process
    ends only when an allocation is refused and the strategy says so. *)
Theorem memory_accounts opts cs :
  let start := (memory_debug_enable true (memory_init opts true g_state).2).2 in
  let o := default no_options opts in
  behave (zero_memory o) ∅ cs -> requested cs < 2 ^ 64 ->
  match run cs start with
  | Ret rs s =>
      (rs, heap s) = run_spec (zero_memory o) cs ∅ /\ sizes (debug_list s) = lengths (heap s) /\
      memory_check_leaks s = live_bytes (heap s) /\ current_allocated (stats s) = live_bytes (heap s) /\
      current_allocated (stats s) <= peak_allocated (stats s) /\
      (forall p, memory_validate (Some p) s = true <-> is_Some (heap s !! p))
  | Aborted => fail_strategy o = ABORT
  | Wild => False
  end.
Proof.
  intros start o Hb Hr. assert (options start = o /\ heap start = ∅ /\ accounts start /\ total_allocated (stats start) = 0) as (Ho & Hh & H & Ht).
  { subst start o. split; [by destruct opts|]. split; [done|]. split; [|done].
    split; cbn; try done; constructor. }
  pose proof (run_settled cs start H) as HR. rewrite Ho, Hh, Ht in HR. specialize (HR Hb ltac:(lia)).
  destruct (run cs start) as [rs s| |]; [|done|done]. destruct HR as (HE & HA & HT).
  split; [done|]. split; [apply (ac_live _ HA)|]. rewrite check_leaks_total, (ac_current _ HA), (total_live _ HA) by (done || lia).
  split; [done|]. split; [done|]. split; [rewrite <- (total_live _ HA), <- (ac_current _ HA); apply (ac_peak _ HA)|].
  intros p. unfold memory_validate, memory_find_debug_info. rewrite (ac_init _ HA), (ac_debug _ HA). cbn [negb orb]. rewrite bool_decide_eq_true.
  rewrite <- (fmap_is_Some i_size), find_info_sizes, (ac_live _ HA). unfold lengths. by rewrite lookup_fmap, fmap_is_Some.
Qed.

(** ** An example and behaviours to know of *)

Definition granted (p : positive) : answers := Answers (Some (p, [7; 7; 7; 7; 7; 7; 7; 7])) true true true true 5.
Definition refused : answers := Answers None true true true true 5.

Definition sample : list (call * answers) :=
  [(Alloc 4 (Some (cs "a")), granted 10); (Calloc 3 None, granted 11); (Realloc (Some 10%positive) 6 None, granted 12); (Alloc 9 None, refused);
   (Realloc (Some 11%positive) 8 None, refused); (Realloc (Some 12%positive) 2 None, granted 12); (Free None, refused); (Alloc 0 None, granted 13);
   (AlignedAlloc 16 5 None, granted 10); (AlignedFree (Some 10%positive), refused)].

Lemma memory_accounts_witness :
  match run sample (memory_debug_enable true (memory_init None true g_state).2).2 with
  | Ret rs s =>
      rs = [Some 10%positive; Some 11%positive; Some 12%positive; None; None; Some 12%positive; None; None; Some 10%positive; None] /\
      heap s = <[12%positive := [7; 7]]> {[11%positive := [0; 0; 0]]} /\ memory_check_leaks s = 5
  | _ => False
  end.
Proof.
  assert (behave (zero_memory (default no_options None)) ∅ sample) as Hb.
  { vm_compute. repeat (split; try discriminate; try reflexivity; try (eexists; reflexivity)); try (right; reflexivity); try (left; reflexivity). }
  pose proof (memory_accounts None sample Hb eq_refl) as H. cbv zeta in H.
  assert (run_spec (zero_memory (default no_options None)) sample ∅ =
    ([Some 10%positive; Some 11%positive; Some 12%positive; None; None; Some 12%positive; None; None; Some 10%positive; None],
     <[12%positive := [7; 7]]> {[11%positive := [0; 0; 0]]})) as E by (vm_compute; reflexivity).
  destruct (run sample _) as [rs s| |]; [|discriminate H|exact H]. destruct H as (HE & _ & HL & _). rewrite E in HE.
  injection HE as Hrs Hh. rewrite HL, Hrs, Hh. split; [reflexivity|]. split; [reflexivity|]. vm_compute. reflexivity.
Defined.

Definition stats_after (cs : list (call * answers)) (s : memory_state_t) : option memory_stats_t :=
  match run cs s with Ret _ s => Some (stats s) | _ => None end.

Definition plain : memory_state_t := (memory_init None true g_state).2.

(** Without debugging the layer does not know the sizes of blocks: a release
    changes no statistics, so that blocks that are gone stay in the sum. *)
Lemma freed_blocks_counted : stats_after [(Alloc 4 None, granted 10); (Free (Some 10%positive), refused)] plain = Some (Stats 4 0 4 4 1 0).
Proof. vm_compute. reflexivity. Qed.

(** And a reallocation in place counts the whole block once more. *)
Lemma resized_counted_twice : stats_after [(Alloc 4 None, granted 10); (Realloc (Some 10%positive) 6 None, granted 10)] plain = Some (Stats 10 0 10 10 2 0).
Proof. vm_compute. reflexivity. Qed.

(** The failure callback of the options is never called. *)
Lemma option_callback_ignored :
  match run [(Alloc 4 None, refused)] (memory_init (Some (Options 0 false CALLBACK (Some 42))) true g_state).2 with
  | Ret rs s => rs = [None] /\ failures s = []
  | _ => False
  end.
Proof. vm_compute. done. Qed.

(** Statistics outlive [memory_cleanup] and the next [memory_init]. *)
Lemma stats_survive_init :
  match run [(Alloc 4 None, granted 10)] plain with
  | Ret _ s => stats (memory_init None true (memory_cleanup s)).2 = Stats 4 0 4 4 1 0
  | _ => False
  end.
Proof. vm_compute. done. Qed.

(** ** The counting wrappers (memory_common.c) *)

(** Over their own statistics; the C library says whether a block is granted and
    how many bytes it really has. *)
Definition memory_safe_alloc (size : Z) (granted : bool) (t : memory_stats_t) : bool * memory_stats_t :=
  if size =? 0 then (false, t) else if granted then (true, after_alloc size t) else (false, t).

Definition memory_safe_free (usable : option Z) (t : memory_stats_t) : memory_stats_t :=
  match usable with None => t | Some n => after_free n t end.

(** [usable]: the size of the old block, [None] when there is none. *)
Definition memory_safe_realloc (usable : option Z) (size : Z) (granted : bool) (t : memory_stats_t) : bool * memory_stats_t :=
  if size =? 0 then (false, memory_safe_free usable t)
  else if granted then
    let old := default 0 usable in
    let freed := if 0 <? old then u64 (total_freed t + old) else total_freed t in
    let current := u64 ((if 0 <? old then u64 (current_allocated t - old) else current_allocated t) + size) in
    (true, Stats (u64 (total_allocated t + size)) freed current (if peak_allocated t <? current then current else peak_allocated t)
             (u64 (allocation_count t + 1)) (u64 (free_count t + 1)))
  else (false, t).

(** A block is counted with the size that was asked for and discounted with the
    size that it has, which is greater: the sum of live bytes drops below zero
    and wraps around. *)
Lemma safe_free_wraps size usable :
  0 < size < usable -> usable < 2 ^ 64 ->
  current_allocated (memory_safe_free (Some usable) (memory_safe_alloc size true no_stats).2) = 2 ^ 64 - (usable - size).
Proof.
  intros Hs Hu. unfold memory_safe_free, memory_safe_alloc. destruct (Z.eqb_spec size 0); [lia|].
  cbn [snd after_free after_alloc current_allocated no_stats]. rewrite (u64_small (0 + size)) by lia. unfold u64.
  replace (0 + size - usable) with ((2 ^ 64 - (usable - size)) + (-1) * 2 ^ 64) by lia. rewrite Z.mod_add by lia. apply Z.mod_small. lia.
Qed.

(** A reallocation without an old block counts a release. *)
Lemma safe_realloc_counts_free : (memory_safe_realloc None 8 true no_stats).2 = Stats 8 0 8 8 1 1.
Proof. reflexivity. Qed.
