(* ===== verification/Network.v ===== *)
(** * The network client: utils/network/network_common.c, network_http.c and
    network_pool.c

    Connections over descriptors of the system, sending and receiving whole
    messages, HTTP requests, and the pool of connections.  The system is a part
    of the state: which descriptors are open, the bytes that were sent, the
    bytes that wait to be received, and how much each call takes or gives. *)
From S2P Require Import Prelude CLib Decimal ErrCodes Keyed.

(** ** State *)

Inductive network_status_t := DISCONNECTED | CONNECTING | CONNECTED | DISCONNECTING | ERROR.

#[export] Instance network_status_eq_dec : EqDecision network_status_t.
Proof. solve_decision. Defined.

Record network_stats_t := Stats {
  bytes_sent : Z;
  bytes_received : Z;
  packets_sent : Z;
  packets_received : Z;
  connect_count : Z;
  error_count : Z;
  retry_count : Z;
}.

Definition no_stats : network_stats_t := Stats 0 0 0 0 0 0 0.

(** A connection; [host] and [max_retries] are the parts of its configuration
    that the code below reads, [c_id] tells connections apart. *)
Record network_connection_t := Connection {
  c_id : Z;
  host : option cstr;
  max_retries : Z;
  status : network_status_t;
  fd : Z;
  stats : network_stats_t;
  event_cb : bool;
}.

Definition set_status (x : network_status_t) (c : network_connection_t) : network_connection_t :=
  Connection (c_id c) (host c) (max_retries c) x (fd c) (stats c) (event_cb c).
Definition set_fd (x : Z) (c : network_connection_t) : network_connection_t :=
  Connection (c_id c) (host c) (max_retries c) (status c) x (stats c) (event_cb c).
Definition set_stats (x : network_stats_t) (c : network_connection_t) : network_connection_t :=
  Connection (c_id c) (host c) (max_retries c) (status c) (fd c) x (event_cb c).

(** What the next [write] takes, what the next [read] gives; 0 stands for a failure. *)
Record system := System {
  opened : gset Z;
  outbox : list Z;
  takes : list nat;
  inbox : list Z;
  gives : list nat;
  events : list (Z * list Z);
}.

Definition NETWORK_EVENT_CONNECTED : Z := 1.
Definition NETWORK_EVENT_DISCONNECTED : Z := 2.
Definition NETWORK_EVENT_DATA_RECEIVED : Z := 3.
Definition NETWORK_EVENT_DATA_SENT : Z := 4.
Definition NETWORK_DEFAULT_MAX_RETRIES : Z := 3.
Definition NETWORK_DEFAULT_BUFFER_SIZE : nat := 8192.

Definition open_fd (x : Z) (w : system) : system := System ({[x]} ∪ opened w) (outbox w) (takes w) (inbox w) (gives w) (events w).
Definition close_fd (x : Z) (w : system) : system := System (opened w ∖ {[x]}) (outbox w) (takes w) (inbox w) (gives w) (events w).

Definition notify (c : network_connection_t) (e : Z) (data : list Z) (w : system) : system :=
  if event_cb c then System (opened w) (outbox w) (takes w) (inbox w) (gives w) (events w ++ [(e, data)]) else w.

(** ** Connections (network_common.c) *)

Definition network_connection_create (id : Z) (h : option cstr) (retries : Z) (calloc_ok : bool) : option network_connection_t :=
  if calloc_ok then Some (Connection id h retries DISCONNECTED (-1) no_stats false) else None.

Definition network_disconnect (c : network_connection_t) (w : system) : Z * network_connection_t * system :=
  if bool_decide (status c = CONNECTED \/ status c = CONNECTING \/ status c = ERROR) then
    let c := set_status DISCONNECTING c in
    let w := notify c NETWORK_EVENT_DISCONNECTED [] w in
    let '(c, w) := if 0 <=? fd c then (set_fd (-1) c, close_fd (fd c) w) else (c, w) in
    (0, set_status DISCONNECTED c, w)
  else (0, c, w).

(** What the system answers: the descriptor, whether the name is resolved, and
    whether the peer accepts. *)
Record connect_answers := ConnectAnswers { a_socket : option Z; resolved : bool; accepted : bool }.

Definition network_connect (a : connect_answers) (c : network_connection_t) (w : system) : Z * network_connection_t * system :=
  if negb (bool_decide (status c = DISCONNECTED \/ status c = ERROR)) then (AIRY_EBUSY, c, w)
  else
    let c := set_status CONNECTING c in
    match a_socket a with
    | None => (AIRY_EIO, set_status ERROR c, w)
    | Some x =>
        let c := set_fd x c in
        let w := open_fd x w in
        if negb (resolved a && accepted a) then
          let '(_, c, w) := network_disconnect c w in (AIRY_EIO, set_status ERROR c, w)
        else
          let t := stats c in
          let c := set_stats (Stats (bytes_sent t) (bytes_received t) (packets_sent t) (packets_received t)
                                (u64 (connect_count t + 1)) (error_count t) (retry_count t)) (set_status CONNECTED c) in
          (0, c, notify c NETWORK_EVENT_CONNECTED [] w)
    end.

Definition network_connection_destroy (c : network_connection_t) (w : system) : system :=
  if bool_decide (status c = CONNECTED \/ status c = CONNECTING) then (network_disconnect c w).2 else w.

Definition count_error (c : network_connection_t) : network_connection_t :=
  let t := stats c in
  set_stats (Stats (bytes_sent t) (bytes_received t) (packets_sent t) (packets_received t) (connect_count t) (u64 (error_count t + 1)) (retry_count t)) c.
Definition count_retry (c : network_connection_t) : network_connection_t :=
  let t := stats c in
  set_stats (Stats (bytes_sent t) (bytes_received t) (packets_sent t) (packets_received t) (connect_count t) (error_count t) (u64 (retry_count t + 1))) c.

(** [None]: the call waits for the system.  The result is the code and the
    bytes that were taken. *)
Definition network_send (data : list Z) (c : network_connection_t) (w : system) : option (Z * nat * network_connection_t * system) :=
  if bool_decide (data = []) then Some (AIRY_EINVAL, 0%nat, c, w)
  else if bool_decide (status c <> CONNECTED) then Some (AIRY_ENOTCONN, 0%nat, c, w)
  else
    match takes w with
    | [] => None
    | O :: ts => Some (AIRY_EIO, 0%nat, count_error c, System (opened w) (outbox w) ts (inbox w) (gives w) (events w))
    | n :: ts =>
        let part := take n data in
        let t := stats c in
        let c := set_stats (Stats (u64 (bytes_sent t + Z.of_nat (length part))) (bytes_received t) (u64 (packets_sent t + 1))
                              (packets_received t) (connect_count t) (error_count t) (retry_count t)) c in
        Some (0, length part, c, notify c NETWORK_EVENT_DATA_SENT part (System (opened w) (outbox w ++ part) ts (inbox w) (gives w) (events w)))
    end.

(** The peer has closed when nothing is left to receive. *)
Definition network_receive (len : nat) (c : network_connection_t) (w : system) : option (Z * list Z * network_connection_t * system) :=
  if (len =? 0)%nat then Some (AIRY_EINVAL, [], c, w)
  else if bool_decide (status c <> CONNECTED) then Some (AIRY_ENOTCONN, [], c, w)
  else
    match gives w with
    | [] => None
    | O :: gs => Some (AIRY_EIO, [], count_error c, System (opened w) (outbox w) (takes w) (inbox w) gs (events w))
    | n :: gs =>
        let part := take (n `min` len) (inbox w) in
        let w := System (opened w) (outbox w) (takes w) (drop (n `min` len) (inbox w)) gs (events w) in
        if bool_decide (part = []) then Some (AIRY_ECONNRESET, [], set_status ERROR c, w)
        else
          let t := stats c in
          let c := set_stats (Stats (bytes_sent t) (u64 (bytes_received t + Z.of_nat (length part))) (packets_sent t)
                                (u64 (packets_received t + 1)) (connect_count t) (error_count t) (retry_count t)) c in
          Some (0, part, c, notify c NETWORK_EVENT_DATA_RECEIVED part w)
    end.

Definition retry_limit (c : network_connection_t) : Z := if 0 <? max_retries c then max_retries c else NETWORK_DEFAULT_MAX_RETRIES.

(** The loop of [network_send_all]; a call that fails without the system counts
    as a retry too, so that the fuel is the answers and the retries. *)
Fixpoint send_loop (fuel : nat) (limit : Z) (data : list Z) (retries : Z) (c : network_connection_t) (w : system)
    : option (Z * network_connection_t * system) :=
  match fuel with
  | O => None
  | S fuel' =>
      match data with
      | [] => Some (0, c, w)
      | _ =>
          match network_send data c w with
          | None => None
          | Some (err, sent, c, w) =>
              if err =? 0 then send_loop fuel' limit (drop sent data) 0 c w
              else if limit <=? retries + 1 then Some (err, count_retry c, w)
              else send_loop fuel' limit data (retries + 1) c w
          end
      end
  end.

Definition network_send_all (data : list Z) (c : network_connection_t) (w : system) : option (Z * network_connection_t * system) :=
  if bool_decide (data = []) then Some (AIRY_EINVAL, c, w)
  else send_loop (length (takes w) + Z.to_nat (retry_limit c) + 1) (retry_limit c) data 0 c w.

Fixpoint receive_loop (fuel : nat) (limit : Z) (remaining : nat) (buf : list Z) (retries : Z) (c : network_connection_t) (w : system)
    : option (Z * list Z * network_connection_t * system) :=
  match fuel with
  | O => None
  | S fuel' =>
      if (remaining =? 0)%nat then Some (0, buf, c, w)
      else
        match network_receive remaining c w with
        | None => None
        | Some (err, part, c, w) =>
            if err =? 0 then
              if bool_decide (part = []) then Some (AIRY_ETIMEDOUT, buf, c, w)
              else receive_loop fuel' limit (remaining - length part) (buf ++ part) 0 c w
            else if limit <=? retries + 1 then Some (err, buf, count_retry c, w)
            else receive_loop fuel' limit remaining buf (retries + 1) c w
        end
  end.

Definition network_receive_exact (len : nat) (c : network_connection_t) (w : system) : option (Z * list Z * network_connection_t * system) :=
  if (len =? 0)%nat then Some (AIRY_EINVAL, [], c, w)
  else receive_loop (length (gives w) + Z.to_nat (retry_limit c) + 1) (retry_limit c) len [] 0 c w.

(** ** HTTP (network_http.c) *)

Record network_http_request_t := Request {
  method : option cstr;
  path : option cstr;
  content_type : option cstr;
  req_headers : list (option cstr);
  req_body : list Z;
}.

Record network_http_response_t := Response {
  status_code : Z;
  resp_headers : option (option cstr);
  resp_body : option (list Z);
  body_len : nat;
  r_error : Z;
  error_message : option cstr;
}.

Definition no_response : network_http_response_t := Response 0 None None 0 0 None.

(** Whether the allocations of a request are granted: the message of an error,
    the list of headers, its entry, the body. *)
Record grants := Grants { message_ok : bool; headers_ok : bool; header_ok : bool; body_ok : bool }.

Definition failed (g : grants) (code : Z) (text : cstr) (r : network_http_response_t) : network_http_response_t :=
  Response (status_code r) (resp_headers r) (resp_body r) (body_len r) code (if message_ok g then Some text else None).

Definition CRLF : cstr := [13; 10].

(** [vsnprintf] at the end of the text; what is left is computed in [size_t]. *)
Definition head_put (cap : nat) (buf piece : cstr) : Z * cstr :=
  if u64 (Z.of_nat cap - Z.of_nat (length buf)) <=? Z.of_nat (length piece) then (AIRY_ERR_OVERFLOW, buf) else (0, buf ++ piece).

Definition head_opt (cap : nat) (buf before : cstr) (val : option cstr) (after : cstr) : Z * cstr :=
  match val with None => (0, buf) | Some v => head_put cap buf (before ++ v ++ after) end.

Fixpoint head_list (cap : nat) (buf : cstr) (headers : list (option cstr)) : Z * cstr :=
  match headers with
  | [] => (0, buf)
  | h :: hs => let '(rc, buf) := head_opt cap buf [] h CRLF in if rc =? 0 then head_list cap buf hs else (rc, buf)
  end.

(** A step that is taken only after success. *)
Definition then_put (x : Z * cstr) (k : cstr -> Z * cstr) : Z * cstr := if x.1 =? 0 then k x.2 else x.

Definition http_head (cap : nat) (c : network_connection_t) (req : network_http_request_t) : Z * cstr :=
  let x := head_put cap [] (default (cs "GET") (method req) ++ cs " " ++ default (cs "/") (path req) ++ cs " HTTP/1.1" ++ CRLF) in
  let x := then_put x (fun b => head_opt cap b (cs "Host: ") (host c) CRLF) in
  let x := then_put x (fun b => head_opt cap b (cs "Content-Type: ") (content_type req) CRLF) in
  let x := then_put x (fun b => if bool_decide (req_body req = []) then (0, b)
                                else head_put cap b (cs "Content-Length: " ++ fmt_u (Z.of_nat (length (req_body req))) ++ CRLF)) in
  let x := then_put x (fun b => head_list cap b (req_headers req)) in
  then_put x (fun b => head_put cap b CRLF).

Definition http_send (g : grants) (c : network_connection_t) (req : network_http_request_t) (r : network_http_response_t) (w : system)
    : option (Z * network_http_response_t * network_connection_t * system) :=
  let '(rc, head) := http_head (NETWORK_DEFAULT_BUFFER_SIZE * 2) c req in
  if negb (rc =? 0) then Some (rc, failed g rc (cs "HTTP request header too long") r, c, w)
  else
    '(err, c, w) ← network_send_all head c w;
    if negb (err =? 0) then Some (err, failed g err (cs "Failed to send request headers") r, c, w)
    else if bool_decide (req_body req = []) then Some (0, r, c, w)
    else
      '(err, c, w) ← network_send_all (req_body req) c w;
      if negb (err =? 0) then Some (err, failed g err (cs "Failed to send request body") r, c, w) else Some (err, r, c, w).

(** [buf]: the bytes so far; the loop goes on only after bytes came in. *)
Fixpoint http_recv (fuel cap : nat) (buf : list Z) (retry : Z) (c : network_connection_t) (w : system) : option (list Z * network_connection_t * system) :=
  match fuel with
  | O => None
  | S fuel' =>
      match network_receive (cap - length buf - 1) c w with
      | None => None
      | Some (err, part, c, w) =>
          let buf := buf ++ part in
          let retry := if err =? 0 then if bool_decide (part = []) then retry else 0 else retry + 1 in
          if negb (err =? 0) && ((10 <? retry) || (err =? AIRY_ECONNRESET)) then Some (buf, c, w)
          else if negb (bool_decide (part = [])) && (length buf <? cap - 1)%nat then http_recv fuel' cap buf retry c w
          else Some (buf, c, w)
      end
  end.

(** The C string at an address: up to the first NUL. *)
Fixpoint c_text (s : list Z) : cstr :=
  match s with [] => [] | c :: s' => if c =? 0 then [] else c :: c_text s' end.

Definition starts_with (lit s : cstr) : bool := bool_decide (take (length lit) s = lit).

Definition http_status (buf : list Z) : Z :=
  if (length buf <? 12)%nat || negb (starts_with (cs "HTTP/1.") buf) || negb (bool_decide (buf !! 8%nat = Some 32)) then 200
  else s32 (strtoll (c_text (drop 9 buf)) 10).1.

(** Where the first blank line starts: [strstr(buf, CRLF CRLF)]. *)
Fixpoint find_blank (s : cstr) : option nat :=
  match s with
  | 13 :: 10 :: 13 :: 10 :: _ => Some 0%nat
  | _ :: s' => S <$> find_blank s'
  | [] => None
  end.

Definition http_split (g : grants) (buf : list Z) (r : network_http_response_t) : network_http_response_t :=
  match find_blank (c_text buf) with
  | None =>
      if body_ok g then Response (status_code r) (resp_headers r) (Some buf) (length buf) (r_error r) (error_message r) else r
  | Some i =>
      let hlen := (i + 4)%nat in
      let headers := if headers_ok g then Some (if header_ok g then Some (take hlen buf) else None) else None in
      if body_ok g then Response (status_code r) headers (Some (drop hlen buf)) (length (drop hlen buf)) (r_error r) (error_message r)
      else Response (status_code r) headers (resp_body r) (body_len r) (r_error r) (error_message r)
  end.

Definition RECV_BUFFER : nat := Z.to_nat 65536.

Definition network_http_request (g : grants) (c : network_connection_t) (req : network_http_request_t) (w : system)
    : option (Z * network_http_response_t * network_connection_t * system) :=
  if bool_decide (status c <> CONNECTED) then Some (AIRY_ENOTCONN, no_response, c, w)
  else
    '(err, r, c, w) ← http_send g c req no_response w;
    if negb (err =? 0) then Some (err, r, c, w)
    else
      '(buf, c, w) ← http_recv (length (gives w) + 1) RECV_BUFFER [] 0 c w;
      let r := Response (http_status buf) (resp_headers r) (resp_body r) (body_len r) (r_error r) (error_message r) in
      let r := http_split g buf r in
      Some (0, Response (status_code r) (resp_headers r) (resp_body r) (body_len r) 0 (error_message r), c, w).

Definition network_http_get (g : grants) (c : network_connection_t) (p : option cstr) (w : system) :=
  network_http_request g c (Request (Some (cs "GET")) p None [] []) w.

Definition network_http_post (g : grants) (c : network_connection_t) (p ct : option cstr) (body : list Z) (w : system) :=
  network_http_request g c (Request (Some (cs "POST")) p (Some (default (cs "application/json") ct)) [] body) w.

(** ** The pool (network_pool.c) *)

Record network_pool_t := Pool { connections : list network_connection_t; max_size : nat; base_host : option cstr; base_retries : Z }.

Definition set_connections (l : list network_connection_t) (p : network_pool_t) : network_pool_t := Pool l (max_size p) (base_host p) (base_retries p).

Definition connected (c : network_connection_t) : bool := bool_decide (status c = CONNECTED).

(** [id]: the address of a new connection. *)
Definition network_pool_acquire (id : Z) (calloc_ok : bool) (a : connect_answers) (p : network_pool_t) (w : system)
    : option network_connection_t * network_pool_t * system :=
  match find connected (connections p) with
  | Some c => (Some c, p, w)
  | None =>
      if (length (connections p) <? max_size p)%nat then
        match network_connection_create id (base_host p) (base_retries p) calloc_ok with
        | None => (None, p, w)
        | Some c =>
            let '(err, c, w) := network_connect a c w in
            if negb (err =? 0) then (None, p, network_connection_destroy c w)
            else (Some c, set_connections (connections p ++ [c]) p, w)
        end
      else (None, p, w)
  end.

Definition network_pool_available (p : network_pool_t) : nat :=
  (length (filter (fun c => connected c = true) (connections p)) + (max_size p - length (connections p)))%nat.

(** The loop of [network_pool_health_check] from index [i]; [fuel] bounds the
    connections that are left to look at. *)
Fixpoint health_loop (fuel i healthy : nat) (l : list network_connection_t) (w : system) : nat * list network_connection_t * system :=
  match fuel, l !! i with
  | S fuel', Some c =>
      match status c with
      | CONNECTED => health_loop fuel' (S i) (S healthy) l w
      | ERROR | DISCONNECTED => health_loop fuel' i healthy (swap_remove i l) (network_connection_destroy c w)
      | _ => health_loop fuel' (S i) healthy l w
      end
  | _, _ => (healthy, l, w)
  end.

Definition network_pool_health_check (p : network_pool_t) (w : system) : nat * network_pool_t * system :=
  let '(n, l, w) := health_loop (length (connections p)) 0 0 (connections p) w in (n, set_connections l p, w).

Fixpoint destroy_all (l : list network_connection_t) (w : system) : system :=
  match l with [] => w | c :: l' => destroy_all l' (network_connection_destroy c w) end.

Definition network_pool_destroy (p : network_pool_t) (w : system) : system := destroy_all (connections p) w.

(** ** Sending *)

Lemma take_drop_part {A} k (l : list A) : take k l ++ drop (length (take k l)) l = l.
Proof.
  rewrite length_take. destruct (Nat.le_gt_cases k (length l)); [rewrite Nat.min_l by done; apply take_drop|].
  rewrite Nat.min_r, drop_all, app_nil_r by lia. apply take_ge. lia.
Qed.

Lemma network_send_some data c w n ts :
  data <> [] -> status c = CONNECTED -> takes w = S n :: ts ->
  exists c' w', network_send data c w = Some (0, length (take (S n) data), c', w') /\ status c' = CONNECTED /\ host c' = host c /\
    max_retries c' = max_retries c /\ fd c' = fd c /\
    outbox w' = outbox w ++ take (S n) data /\ takes w' = ts /\ inbox w' = inbox w /\ gives w' = gives w /\ opened w' = opened w.
Proof.
  intros Hd Hs Ht. unfold network_send. rewrite bool_decide_false by done. rewrite bool_decide_false by (by intros []). rewrite Ht.
  eexists _, _. split; [done|]. unfold notify, set_stats. cbn. destruct (event_cb c); done.
Qed.

(** A system that takes at least a byte each time takes everything. *)
Lemma send_loop_exact fuel limit data retries c w :
  status c = CONNECTED -> Forall (fun n => (0 < n)%nat) (takes w) -> (length data <= length (takes w))%nat -> (length data < fuel)%nat ->
  exists c' w' k, send_loop fuel limit data retries c w = Some (0, c', w') /\ status c' = CONNECTED /\ host c' = host c /\
    max_retries c' = max_retries c /\ fd c' = fd c /\ (k <= length data)%nat /\
    outbox w' = outbox w ++ data /\ takes w' = drop k (takes w) /\ inbox w' = inbox w /\ gives w' = gives w /\ opened w' = opened w.
Proof.
  revert data retries c w. induction fuel as [|fuel IH]; intros data retries c w Hs Hp Hl Hf; [lia|]. cbn [send_loop].
  destruct data as [|b data]; [exists c, w, 0%nat; rewrite app_nil_r; split_and!; (done || cbn; lia)|].
  destruct (takes w) as [|[|n] ts] eqn:Ht; [cbn in Hl; lia|by apply Forall_cons in Hp as [? _]; lia|].
  destruct (network_send_some (b :: data) c w n ts) as (c1 & w1 & -> & Hs1 & Hh1 & Hm1 & Hfd1 & Ho1 & Ht1 & Hi1 & Hg1 & Hop1); [done..|].
  cbn [Z.eqb]. apply Forall_cons in Hp as [_ Hp]. cbn [length] in Hl, Hf.
  destruct (IH (drop (length (take (S n) (b :: data))) (b :: data)) 0 c1 w1) as (c2 & w2 & k & HE & Hs2 & Hh2 & Hm2 & Hfd2 & Hk & Ho2 & Ht2 & Hi2 & Hg2 & Hop2).
  - done.
  - by rewrite Ht1.
  - rewrite Ht1, length_drop, length_take. cbn [length]. lia.
  - rewrite length_drop, length_take. cbn [length]. lia.
  - exists c2, w2, (S k). split; [exact HE|]. rewrite length_drop, length_take in Hk. cbn [length] in Hk |- *.
    split; [done|]. split; [congruence|]. split; [congruence|]. split; [congruence|]. split; [lia|]. split.
    + rewrite Ho2, Ho1, <- app_assoc. f_equal. apply take_drop_part.
    + rewrite Ht2, Ht1. split; [done|]. split_and!; congruence.
Qed.

Lemma send_all_exact data c w :
  data <> [] -> status c = CONNECTED -> Forall (fun n => (0 < n)%nat) (takes w) -> (length data <= length (takes w))%nat ->
  exists c' w' k, network_send_all data c w = Some (0, c', w') /\ status c' = CONNECTED /\ host c' = host c /\
    max_retries c' = max_retries c /\ fd c' = fd c /\ (k <= length data)%nat /\
    outbox w' = outbox w ++ data /\ takes w' = drop k (takes w) /\ inbox w' = inbox w /\ gives w' = gives w /\ opened w' = opened w.
Proof.
  intros Hd Hs Hp Hl. unfold network_send_all. rewrite bool_decide_false by done. apply send_loop_exact; [done..|]. lia.
Qed.

(** ** Receiving *)

Lemma network_receive_some len c w n gs :
  (0 < len)%nat -> status c = CONNECTED -> gives w = S n :: gs ->
  exists c' w', network_receive len c w =
      Some (if decide (inbox w = []) then AIRY_ECONNRESET else 0, take (S n `min` len) (inbox w), c', w') /\
    status c' = (if decide (inbox w = []) then ERROR else CONNECTED) /\ host c' = host c /\ max_retries c' = max_retries c /\ fd c' = fd c /\
    inbox w' = drop (S n `min` len) (inbox w) /\ gives w' = gs /\ outbox w' = outbox w /\ takes w' = takes w /\ opened w' = opened w.
Proof.
  intros Hl Hs Hg. unfold network_receive. destruct (Nat.eqb_spec len 0); [lia|]. rewrite bool_decide_false by (by intros []). rewrite Hg.
  set (k := (S n `min` len)%nat). assert (0 < k)%nat as Hk by (subst k; lia). clearbody k. destruct (inbox w) as [|b l] eqn:Hi.
  - rewrite take_nil, drop_nil. rewrite bool_decide_true by done. rewrite !decide_True by done. by eexists _, _.
  - destruct k as [|k]; [lia|]. cbn [take drop]. rewrite bool_decide_false by done. rewrite !decide_False by done.
    eexists _, _. split; [done|]. unfold notify, set_stats. cbn. destruct (event_cb c); done.
Qed.

(** A system that gives at least a byte each time gives all that fits. *)
Lemma http_recv_exact fuel cap buf retry c w :
  status c = CONNECTED -> Forall (fun n => (0 < n)%nat) (gives w) -> (length buf < cap - 1)%nat ->
  (length (take (cap - 1 - length buf) (inbox w)) < length (gives w))%nat -> (length (gives w) < fuel)%nat ->
  exists c' w', http_recv fuel cap buf retry c w = Some (buf ++ take (cap - 1 - length buf) (inbox w), c', w') /\
    outbox w' = outbox w /\ opened w' = opened w /\ fd c' = fd c.
Proof.
  revert buf retry c w. induction fuel as [|fuel IH]; intros buf retry c w Hs Hp Hb Hl Hf; [lia|]. cbn [http_recv].
  destruct (gives w) as [|[|n] gs] eqn:Hg; [cbn in Hl; lia|by apply Forall_cons in Hp as [? _]; lia|].
  destruct (network_receive_some (cap - length buf - 1) c w n gs) as (c1 & w1 & -> & Hs1 & Hh1 & Hm1 & Hfd1 & Hi1 & Hg1 & Ho1 & Ht1 & Hop1); [lia|done..|].
  replace (cap - length buf - 1)%nat with (cap - 1 - length buf)%nat in * by lia. set (room := (cap - 1 - length buf)%nat) in *.
  destruct (decide (inbox w = [])) as [He|He].
  - rewrite He, !take_nil, app_nil_r. change (AIRY_ECONNRESET =? 0) with false. change (AIRY_ECONNRESET =? AIRY_ECONNRESET) with true.
    cbn [negb andb]. rewrite orb_true_r. by exists c1, w1.
  - cbn [Z.eqb negb andb]. set (part := take (S n `min` room) (inbox w)) in *.
    assert (part <> []) as Hne. { subst part. destruct (inbox w); [done|]. destruct (S n `min` room)%nat eqn:E; [lia|done]. }
    rewrite !bool_decide_false by done. cbn [negb andb]. assert (length part <= room)%nat as Hpr by (subst part; rewrite length_take; lia).
    assert (part ++ take (room - length part) (inbox w1) = take room (inbox w)) as Hsplit.
    { rewrite Hi1. subst part. rewrite length_take. destruct (Nat.le_gt_cases (S n `min` room) (length (inbox w))) as [Hle|Hgt].
      - rewrite (Nat.min_l (S n `min` room)) by done. rewrite take_drop_commute. replace (_ + (room - _))%nat with room by lia.
        rewrite <- (take_drop (S n `min` room) (take room (inbox w))) at 2. rewrite take_take. do 2 f_equal. lia.
      - rewrite (take_ge (inbox w)) by lia. rewrite drop_ge by lia. rewrite take_nil, app_nil_r. symmetry. apply take_ge. lia. }
    rewrite length_app. destruct (Nat.ltb_spec (length buf + length part) (cap - 1)).
    + assert (cap - 1 - length (buf ++ part) = room - length part)%nat as Hroom by (rewrite length_app; lia).
      assert (0 < length part)%nat by (destruct part; [done|cbn; lia]).
      destruct (IH (buf ++ part) 0 c1 w1) as (c2 & w2 & HE & Ho2 & Hop2 & Hfd2).
      * done.
      * rewrite Hg1. by apply Forall_cons in Hp as [_ Hp].
      * rewrite length_app. lia.
      * rewrite Hroom, Hg1. rewrite <- Hsplit, length_app in Hl. cbn [length] in Hl. lia.
      * rewrite Hg1. cbn [length] in Hf. lia.
      * exists c2, w2. rewrite Hroom, <- app_assoc, Hsplit in HE. split; [exact HE|]. split_and!; congruence.
    + assert (room - length part = 0)%nat as Hz by lia. rewrite Hz, take_0, app_nil_r in Hsplit. rewrite <- Hsplit. exists c1, w1. done.
Qed.

Lemma receive_loop_exact fuel limit remaining buf retries c w :
  status c = CONNECTED -> Forall (fun n => (0 < n)%nat) (gives w) -> (remaining <= length (inbox w))%nat ->
  (remaining <= length (gives w))%nat -> (remaining < fuel)%nat ->
  exists c' w', receive_loop fuel limit remaining buf retries c w = Some (0, buf ++ take remaining (inbox w), c', w') /\
    status c' = CONNECTED /\ inbox w' = drop remaining (inbox w) /\ outbox w' = outbox w /\ opened w' = opened w.
Proof.
  revert remaining buf retries c w. induction fuel as [|fuel IH]; intros remaining buf retries c w Hs Hp Hi Hg Hf; [lia|]. cbn [receive_loop].
  destruct (Nat.eqb_spec remaining 0) as [->|Hr]; [exists c, w; rewrite take_0, drop_0, app_nil_r; done|].
  destruct (gives w) as [|[|n] gs] eqn:Hgw; [cbn in Hg; lia|by apply Forall_cons in Hp as [? _]; lia|].
  destruct (network_receive_some remaining c w n gs) as (c1 & w1 & -> & Hs1 & _ & _ & _ & Hi1 & Hg1 & Ho1 & _ & Hop1); [lia|done..|].
  destruct (decide (inbox w = [])) as [He|He]; [rewrite He in Hi; cbn in Hi; lia|]. cbn [Z.eqb].
  set (k := (S n `min` remaining)%nat) in *. assert (0 < k <= remaining)%nat as Hk by (subst k; lia). clearbody k.
  assert (length (take k (inbox w)) = k) as Hlen by (rewrite length_take; lia).
  rewrite bool_decide_false by (intros E; rewrite E in Hlen; cbn in Hlen; lia). rewrite Hlen.
  destruct (IH (remaining - k)%nat (buf ++ take k (inbox w)) 0 c1 w1) as (c2 & w2 & HE & Hs2 & Hi2 & Ho2 & Hop2).
  - done.
  - rewrite Hg1. by apply Forall_cons in Hp as [_ Hp].
  - rewrite Hi1, length_drop. lia.
  - rewrite Hg1. cbn [length] in Hg. lia.
  - lia.
  - exists c2, w2. rewrite HE, Hi2, Hi1, <- app_assoc, take_drop_commute, drop_drop. replace (k + (remaining - k))%nat with remaining by lia.
    split; [|split_and!; congruence]. rewrite <- (take_drop k (take remaining (inbox w))) at 2. rewrite take_take, Nat.min_l by lia. done.
Qed.

(** [network_receive_exact] fills the buffer with the next bytes, in order. *)
Theorem receive_exact_reads len c w :
  (0 < len <= length (inbox w))%nat -> status c = CONNECTED -> Forall (fun n => (0 < n)%nat) (gives w) -> (len <= length (gives w))%nat ->
  exists c' w', network_receive_exact len c w = Some (0, take len (inbox w), c', w') /\ inbox w' = drop len (inbox w).
Proof.
  intros Hl Hs Hp Hg. unfold network_receive_exact. destruct (Nat.eqb_spec len 0); [lia|].
  destruct (receive_loop_exact (length (gives w) + Z.to_nat (retry_limit c) + 1) (retry_limit c) len [] 0 c w) as (c' & w' & HE & _ & Hi & _);
    [done|done|lia|done|lia|]. by exists c', w'.
Qed.

(** ** The head of a request *)

Definition opt_text (before : cstr) (val : option cstr) (after : cstr) : cstr :=
  match val with None => [] | Some v => before ++ v ++ after end.

(** The text of the head. *)
Definition head_text (c : network_connection_t) (req : network_http_request_t) : cstr :=
  (default (cs "GET") (method req) ++ cs " " ++ default (cs "/") (path req) ++ cs " HTTP/1.1" ++ CRLF) ++
  opt_text (cs "Host: ") (host c) CRLF ++ opt_text (cs "Content-Type: ") (content_type req) CRLF ++
  (if bool_decide (req_body req = []) then [] else cs "Content-Length: " ++ fmt_u (Z.of_nat (length (req_body req))) ++ CRLF) ++
  concat (map (fun h => opt_text [] h CRLF) (req_headers req)) ++ CRLF.

(** The text so far, or an overflow when it does not fit with its terminator. *)
Definition built (cap : nat) (x : Z * cstr) (text : cstr) : Prop :=
  if decide (length text < cap)%nat then x = (0, text) else x.1 = AIRY_ERR_OVERFLOW.

Section head.
Context (cap : nat) (Hcap : Z.of_nat cap < 2 ^ 64).

Lemma put_built buf piece : (length buf < cap)%nat -> built cap (head_put cap buf piece) (buf ++ piece).
Proof using Hcap.
  intros Hb. unfold built, head_put. rewrite u64_small by lia. rewrite length_app.
  destruct (Z.leb_spec (Z.of_nat cap - Z.of_nat (length buf)) (Z.of_nat (length piece))); case_decide; (done || lia).
Qed.

Lemma opt_built buf before val after : (length buf < cap)%nat -> built cap (head_opt cap buf before val after) (buf ++ opt_text before val after).
Proof using Hcap.
  intros Hb. destruct val as [v|]; cbn [head_opt opt_text]; [by apply put_built|]. unfold built. rewrite app_nil_r. by rewrite decide_True.
Qed.

Lemma then_built x text k more :
  built cap x text -> (forall b, (length b < cap)%nat -> built cap (k b) (b ++ more)) -> built cap (then_put x k) (text ++ more).
Proof using.
  clear Hcap. unfold then_put. intros Hx Hk. unfold built in Hx. case_decide as Hl; [subst x; by apply Hk|].
  unfold built. rewrite decide_False by (rewrite length_app; lia). rewrite Hx. done.
Qed.

Lemma list_built buf hs : (length buf < cap)%nat -> built cap (head_list cap buf hs) (buf ++ concat (map (fun h => opt_text [] h CRLF) hs)).
Proof using Hcap.
  revert buf. induction hs as [|h hs IH]; intros buf Hb; cbn [head_list map concat].
  - unfold built. rewrite app_nil_r. by rewrite decide_True.
  - rewrite app_assoc. pose proof (then_built _ _ (fun b => head_list cap b hs) _ (opt_built buf [] h CRLF Hb) IH) as HT.
    unfold then_put in HT. destruct (head_opt cap buf [] h CRLF) as [rc b]. cbn [fst snd] in HT. exact HT.
Qed.

Lemma head_built c req : (0 < cap)%nat -> built cap (http_head cap c req) (head_text c req).
Proof using Hcap.
  intros H0. unfold http_head, head_text. set (first := default (cs "GET") (method req) ++ _).
  set (size := cs "Content-Length: " ++ _). clearbody first size. rewrite !app_assoc.
  apply then_built; [|intros b Hb; by apply put_built]. apply then_built; [|intros b Hb; by apply list_built].
  apply then_built; [|intros b Hb; destruct (bool_decide (req_body req = [])); [|by apply put_built]].
  - apply then_built; [|intros b Hb; by apply opt_built]. apply then_built; [|intros b Hb; by apply opt_built]. by apply put_built.
  - unfold built. rewrite app_nil_r. by rewrite decide_True.
Qed.
End head.

(** ** A request and its response *)

(** The response that a sequence of bytes is, when memory is granted. *)
Definition response_of (buf : list Z) : network_http_response_t :=
  match find_blank (c_text buf) with
  | None => Response (http_status buf) None (Some buf) (length buf) 0 None
  | Some i => Response (http_status buf) (Some (Some (take (i + 4) buf))) (Some (drop (i + 4) buf)) (length (drop (i + 4) buf)) 0 None
  end.

Definition all_granted : grants := Grants true true true true.

Lemma head_nonempty c req : head_text c req <> [].
Proof.
  unfold head_text. intros H. apply app_eq_nil in H as [H _]. apply app_eq_nil in H as [_ H]. apply app_eq_nil in H as [H _]. discriminate.
Qed.

(** The request goes out whole: the head and the body. *)
Lemma http_send_exact g c req r w :
  status c = CONNECTED -> Forall (fun n => (0 < n)%nat) (takes w) ->
  (length (head_text c req) < NETWORK_DEFAULT_BUFFER_SIZE * 2)%nat ->
  (length (head_text c req ++ req_body req) <= length (takes w))%nat ->
  exists c' w', http_send g c req r w = Some (0, r, c', w') /\ status c' = CONNECTED /\ fd c' = fd c /\
    outbox w' = outbox w ++ head_text c req ++ req_body req /\ inbox w' = inbox w /\ gives w' = gives w /\ opened w' = opened w.
Proof.
  intros Hs Hp Hfit Hl. rewrite length_app in Hl. pose proof (head_built (NETWORK_DEFAULT_BUFFER_SIZE * 2) ltac:(done) c req ltac:(lia)) as HB.
  unfold built in HB. rewrite decide_True in HB by done. unfold http_send. rewrite HB. cbn [Z.eqb negb].
  destruct (send_all_exact (head_text c req) c w (head_nonempty c req) Hs Hp ltac:(lia))
    as (c1 & w1 & k & -> & Hs1 & Hh1 & Hm1 & Hfd1 & Hk & Ho1 & Ht1 & Hi1 & Hg1 & Hop1).
  cbn [mbind option_bind Z.eqb negb]. destruct (req_body req) as [|b body] eqn:Hbody.
  - rewrite bool_decide_true by done. exists c1, w1. rewrite app_nil_r. split_and!; (done || congruence).
  - rewrite bool_decide_false by done.
    destruct (send_all_exact (b :: body) c1 w1) as (c2 & w2 & k2 & -> & Hs2 & Hh2 & Hm2 & Hfd2 & Hk2 & Ho2 & Ht2 & Hi2 & Hg2 & Hop2).
    + done.
    + done.
    + rewrite Ht1. by apply Forall_drop.
    + rewrite Ht1, length_drop. lia.
    + cbn [mbind option_bind Z.eqb negb]. exists c2, w2. rewrite Ho2, Ho1, <- app_assoc. split_and!; (done || congruence).
Qed.

(** C23: an HTTP request over a connected connection: however the system cuts
    what is sent and received into pieces, the bytes that go out are the head
    and the body of the request, the response is read from all bytes that come
    in until the peer closes or the buffer of 65,536 bytes is full, and what
    comes back as headers and body is these bytes, split after the first blank
    line. *)
Theorem http_exact c req w :
  status c = CONNECTED -> Forall (fun n => (0 < n)%nat) (takes w) -> Forall (fun n => (0 < n)%nat) (gives w) ->
  (length (head_text c req) < NETWORK_DEFAULT_BUFFER_SIZE * 2)%nat ->
  (length (head_text c req ++ req_body req) <= length (takes w))%nat ->
  (length (take (RECV_BUFFER - 1) (inbox w)) < length (gives w))%nat ->
  exists r c' w', network_http_request all_granted c req w = Some (0, r, c', w') /\
    r = response_of (take (RECV_BUFFER - 1) (inbox w)) /\
    (forall h b, resp_headers r = Some (Some h) -> resp_body r = Some b -> h ++ b = take (RECV_BUFFER - 1) (inbox w)) /\
    outbox w' = outbox w ++ head_text c req ++ req_body req /\ opened w' = opened w /\ fd c' = fd c.
Proof.
  intros Hs Ht Hg Hfit Hl Hr. unfold network_http_request. rewrite bool_decide_false by (by intros []).
  destruct (http_send_exact all_granted c req no_response w Hs Ht Hfit Hl) as (c1 & w1 & -> & Hs1 & Hfd1 & Ho1 & Hi1 & Hg1 & Hop1).
  cbn [mbind option_bind Z.eqb negb]. assert (1 < RECV_BUFFER)%nat as Hcap by (unfold RECV_BUFFER; lia).
  destruct (http_recv_exact (length (gives w1) + 1) RECV_BUFFER [] 0 c1 w1) as (c2 & w2 & HE & Ho2 & Hop2 & Hfd2);
    [done|by rewrite Hg1|cbn [length]; lia|cbn [length]; by rewrite Nat.sub_0_r, Hi1, Hg1|lia|].
  rewrite HE. cbn [app length mbind option_bind]. rewrite Nat.sub_0_r, Hi1. set (buf := take (RECV_BUFFER - 1) (inbox w)).
  eexists _, c2, w2. split; [done|]. split; [unfold http_split, response_of; by destruct (find_blank (c_text buf))|].
  split; [|split_and!; congruence]. unfold http_split. destruct (find_blank (c_text buf)); cbn; intros h b; [|done].
  intros [= <-] [= <-]. apply take_drop.
Qed.

(** A head that does not fit is refused before anything is sent. *)
Lemma http_too_long g c req w :
  status c = CONNECTED -> (NETWORK_DEFAULT_BUFFER_SIZE * 2 <= length (head_text c req))%nat ->
  exists r, network_http_request g c req w = Some (AIRY_ERR_OVERFLOW, r, c, w) /\ r_error r = AIRY_ERR_OVERFLOW.
Proof.
  intros Hs Hl. unfold network_http_request. rewrite bool_decide_false by (by intros []).
  pose proof (head_built (NETWORK_DEFAULT_BUFFER_SIZE * 2) ltac:(done) c req ltac:(apply Nat.ltb_lt; reflexivity)) as HB.
  unfold built in HB. rewrite decide_False in HB by lia. unfold http_send. destruct (http_head _ c req) as [rc b]. cbn [fst] in HB. subst rc.
  change (AIRY_ERR_OVERFLOW =? 0) with false. cbn [negb mbind option_bind]. change (AIRY_ERR_OVERFLOW =? 0) with false. by eexists.
Qed.

(** ** The pool *)

(** The connections that a health check keeps. *)
Definition alive (c : network_connection_t) : Prop := status c <> ERROR /\ status c <> DISCONNECTED.

#[export] Instance alive_dec c : Decision (alive c).
Proof. unfold alive. solve_decision. Defined.

Lemma health_loop_exact fuel i healthy l w :
  (length l - i <= fuel)%nat ->
  exists l', health_loop fuel i healthy l w =
      ((healthy + length (filter (fun c => connected c = true) (drop i l)))%nat, take i l ++ l', w) /\
    l' ≡ₚ filter alive (drop i l).
Proof.
  revert i healthy l. induction fuel as [|fuel IH]; intros i healthy l Hf; cbn [health_loop].
  - exists []. rewrite drop_ge, take_ge, app_nil_r by lia. cbn. by rewrite Nat.add_0_r.
  - destruct (l !! i) as [c|] eqn:Hi.
    2:{ apply lookup_ge_None in Hi. exists []. rewrite drop_ge, take_ge, app_nil_r by lia. cbn. by rewrite Nat.add_0_r. }
    pose proof (lookup_lt_Some _ _ _ Hi) as Hlt.
    assert (forall n, connected c = false -> alive c -> n = healthy -> exists l', health_loop fuel (S i) n l w =
      ((healthy + length (filter (fun c => connected c = true) (drop i l)))%nat, take i l ++ l', w) /\ l' ≡ₚ filter alive (drop i l)) as Hkeep.
    { intros n Hc Ha ->. destruct (IH (S i) healthy l) as (l' & -> & HP); [lia|]. rewrite (drop_S l c i Hi), !filter_cons.
      rewrite (decide_False (P := connected c = true)), (decide_True (P := alive c)) by (done || congruence). exists (c :: l').
      rewrite (take_S_r l i c Hi), <- app_assoc. split; [done|]. by rewrite HP. }
    assert (~ alive c -> connected c = false -> network_connection_destroy c w = w -> exists l', health_loop fuel i healthy (swap_remove i l)
        (network_connection_destroy c w) =
      ((healthy + length (filter (fun c => connected c = true) (drop i l)))%nat, take i l ++ l', w) /\ l' ≡ₚ filter alive (drop i l)) as Hgone.
    { intros Ha Hc ->. destruct (IH i healthy (swap_remove i l)) as (l' & -> & HP); [rewrite swap_remove_length; lia|].
      pose proof (swap_remove_drop l i c Hi) as HD. exists l'. rewrite swap_remove_take by done. split.
      - do 3 f_equal. rewrite HD, filter_cons, decide_False by congruence. done.
      - rewrite HP, HD, filter_cons. by rewrite decide_False. }
    destruct (status c) eqn:Hs.
    + apply Hgone; unfold alive, connected, network_connection_destroy; rewrite Hs; [naive_solver|done|done].
    + apply Hkeep; [unfold connected; by rewrite Hs|unfold alive; by rewrite Hs|done].
    + destruct (IH (S i) (S healthy) l) as (l' & -> & HP); [lia|]. rewrite (drop_S l c i Hi), !filter_cons.
      rewrite decide_True by (by unfold connected; rewrite Hs). rewrite decide_True by (unfold alive; by rewrite Hs).
      exists (c :: l'). rewrite (take_S_r l i c Hi), <- app_assoc. cbn [length app]. split; [do 2 f_equal; lia|]. by rewrite HP.
    + apply Hkeep; [unfold connected; by rewrite Hs|unfold alive; by rewrite Hs|done].
    + apply Hgone; unfold alive, connected, network_connection_destroy; rewrite Hs; [naive_solver|done|done].
Qed.

(** A health check drops exactly the connections that are disconnected or in
    error, counts those that are connected, and closes no descriptor. *)
Theorem health_check_exact p w :
  exists p', network_pool_health_check p w = (length (filter (fun c => connected c = true) (connections p)), p', w) /\
    connections p' ≡ₚ filter alive (connections p) /\ max_size p' = max_size p.
Proof.
  unfold network_pool_health_check. destruct (health_loop_exact (length (connections p)) 0 0 (connections p) w) as (l' & -> & HP); [lia|].
  eexists. split; [done|]. by rewrite drop_0 in HP.
Qed.

(** ** A request, and behaviours to know of *)

Definition sample_connection : network_connection_t := Connection 1 (Some (cs "h")) 0 CONNECTED 5 no_stats false.
Definition sample_answer : list Z := cs "HTTP/1.1 404 No" ++ CRLF ++ cs "A: b" ++ CRLF ++ CRLF ++ cs "body".
Definition sample_system : system := System {[5]} [] (repeat 9%nat 80) sample_answer (repeat 7%nat 50) [].
Definition sample_request : network_http_request_t := Request (Some (cs "PUT")) (Some (cs "/x")) None [Some (cs "X: y"); None] (cs "data").

Lemma http_exact_witness :
  exists r c' w', network_http_request all_granted sample_connection sample_request sample_system = Some (0, r, c', w') /\
    status_code r = 404 /\ resp_body r = Some (cs "body") /\
    outbox w' = cs "PUT /x HTTP/1.1" ++ CRLF ++ cs "Host: h" ++ CRLF ++ cs "Content-Length: 4" ++ CRLF ++ cs "X: y" ++ CRLF ++ CRLF ++ cs "data".
Proof.
  destruct (http_exact sample_connection sample_request sample_system) as (r & c' & w' & HE & -> & _ & Ho & _).
  - reflexivity.
  - repeat constructor.
  - repeat constructor.
  - apply Nat.ltb_lt. vm_compute. reflexivity.
  - apply Nat.leb_le. vm_compute. reflexivity.
  - apply Nat.ltb_lt. vm_compute. reflexivity.
  - exists (response_of (take (RECV_BUFFER - 1) (inbox sample_system))), c', w'. split; [exact HE|]. rewrite Ho.
    split; [vm_compute; reflexivity|]. split; vm_compute; reflexivity.
Defined.

(** A connection whose peer closed is in error and is destroyed without its
    descriptor being closed. *)
Lemma closed_peer_leaks :
  match network_receive 4 (set_status CONNECTED sample_connection) (System {[5]} [] [] [] [1%nat] []) with
  | Some (err, _, c, w) => err = AIRY_ECONNRESET /\ opened (network_connection_destroy c w) = {[5]}
  | None => False
  end.
Proof. vm_compute. done. Qed.

(** So does connecting it again. *)
Lemma reconnect_leaks :
  let '(err, c, w) := network_connect (ConnectAnswers (Some 6) true true) (set_status ERROR sample_connection) (System {[5]} [] [] [] [] []) in
  err = 0 /\ fd c = 6 /\ 5 ∈ opened w.
Proof. vm_compute. split; [done|]. split; [done|]. apply (bool_decide_unpack _). by vm_compute. Qed.

(** The receive loop stops at the first failure, although it counts retries. *)
Lemma first_failure_stops :
  match http_recv 3 100 [] 0 sample_connection (System {[5]} [] [] (cs "HTTP/1.1 200 OK") [8%nat; 0%nat; 8%nat] []) with
  | Some (buf, _, _) => buf = cs "HTTP/1.1"
  | None => False
  end.
Proof. vm_compute. done. Qed.

(** Two callers get one connection. *)
Lemma acquire_shares :
  let p := Pool [sample_connection] 4 None 0 in
  let '(c1, p1, w1) := network_pool_acquire 7 true (ConnectAnswers None false false) p sample_system in
  let '(c2, _, _) := network_pool_acquire 8 true (ConnectAnswers None false false) p1 w1 in
  c_id <$> c1 = Some 1 /\ c_id <$> c2 = Some 1.
Proof. vm_compute. done. Qed.
