(* ===== verification/WallClock.v ===== *)
(** * The time service: platform/src/platform_time.c

    The calendar, the logical wall clock, the decoding of SNTP answers, the list
    of servers and the back-off of the periodic synchronisation.  The clocks of
    the system and what the servers answer are arguments. *)
From S2P Require Import Prelude CLib ErrCodes.

(** ** The calendar *)

(** C division of a signed number, and 32-bit unsigned arithmetic.  The signed
    64-bit values are unbounded here; those of every year that a [struct tm] can
    hold fit ([days_from_civil_fits]). *)
Definition days_from_civil (y m d : Z) : Z :=
  let y := y - (if m <=? 2 then 1 else 0) in
  let era := Z.quot (if 0 <=? y then y else y - 399) 400 in
  let yoe := u32 (y - era * 400) in
  let doy := u32 (u32 (u32 (153 * u32 (m + (if 2 <? m then u32 (-3) else 9)) + 2) / 5 + d) - 1) in
  let doe := u32 (u32 (u32 (yoe * 365 + yoe / 4) - yoe / 100) + doy) in
  era * 146097 + doe - 719468.

Record tm := Tm { tm_year : Z; tm_mon : Z; tm_mday : Z; tm_hour : Z; tm_min : Z; tm_sec : Z }.

Definition tm_epoch_sec (t : tm) : Z :=
  let day := days_from_civil (tm_year t + 1900) (u32 (u32 (tm_mon t) + 1)) (u32 (tm_mday t)) in
  day * 86400 + tm_hour t * 3600 + tm_min t * 60 + tm_sec t.

(** [local]: what [airy_localtime_r] gives for [now], [None] when it fails. *)
Definition airy_time_tz_offset (now : Z) (local : option tm) : Z :=
  match local with None => 0 | Some t => s32 (tm_epoch_sec t - now) end.

(** ** The Gregorian calendar, day by day *)

Record date := Date { year : Z; month : Z; day : Z }.

Definition leap (y : Z) : bool := (y mod 4 =? 0) && (negb (y mod 100 =? 0) || (y mod 400 =? 0)).

Definition month_days (y m : Z) : Z :=
  if m =? 2 then if leap y then 29 else 28
  else if (m =? 4) || (m =? 6) || (m =? 9) || (m =? 11) then 30 else 31.

Definition valid_date (x : date) : Prop := 1 <= month x <= 12 /\ 1 <= day x <= month_days (year x) (month x).

Definition next_day (x : date) : date :=
  if day x <? month_days (year x) (month x) then Date (year x) (month x) (day x + 1)
  else if month x <? 12 then Date (year x) (month x + 1) 1
  else Date (year x + 1) 1 1.

Definition days (x : date) : Z := days_from_civil (year x) (month x) (day x).

Lemma next_day_valid x : valid_date x -> valid_date (next_day x).
Proof.
  intros [Hm Hd]. unfold next_day. destruct (Z.ltb_spec (day x) (month_days (year x) (month x))); [unfold valid_date; cbn; lia|].
  assert (forall y m, 28 <= month_days y m) as Hlow by (intros; unfold month_days; repeat case_match; lia).
  destruct (Z.ltb_spec (month x) 12); unfold valid_date; cbn [year month day]; (split; [lia|]); [pose proof (Hlow (year x) (month x + 1))|pose proof (Hlow (year x + 1) 1)]; lia.
Qed.

(** The formula without machine arithmetic. *)
Definition civil (y m d : Z) : Z :=
  let y := y - (if m <=? 2 then 1 else 0) in
  let mp := if 2 <? m then m - 3 else m + 9 in
  y / 400 * 146097 + ((y mod 400) * 365 + (y mod 400) / 4 - (y mod 400) / 100 + ((153 * mp + 2) / 5 + d - 1)) - 719468.

Lemma quot_floor y : Z.quot (if 0 <=? y then y else y - 399) 400 = y / 400.
Proof.
  destruct (Z.leb_spec 0 y); [apply Z.quot_div_nonneg; lia|]. pose proof (Z.quot_rem' (y - 399) 400) as H1.
  pose proof (Z.rem_bound_pos_neg (y - 399) 400 ltac:(lia) ltac:(lia)). apply (Z.div_unique y 400 _ (399 + Z.rem (y - 399) 400)); lia.
Qed.

Lemma days_from_civil_eq y m d : 1 <= m <= 12 -> 1 <= d <= 31 -> days_from_civil y m d = civil y m d.
Proof.
  intros Hm Hd. unfold days_from_civil, civil. rewrite quot_floor. set (z := y - _).
  replace (z - z / 400 * 400) with (z mod 400) by (rewrite Z.mod_eq by lia; lia). pose proof (Z.mod_pos_bound z 400 ltac:(lia)) as Hz.
  assert (u32 (m + (if 2 <? m then u32 (-3) else 9)) = if 2 <? m then m - 3 else m + 9) as ->.
  { destruct (Z.ltb_spec 2 m); [|by apply u32_small; lia]. change (u32 (-3)) with (2 ^ 32 - 3). unfold u32.
    replace (m + (2 ^ 32 - 3)) with (m - 3 + 1 * 2 ^ 32) by lia. rewrite Z.mod_add by lia. apply Z.mod_small. lia. }
  set (mp := if 2 <? m then m - 3 else m + 9). assert (0 <= mp <= 11) as Hmp by (subst mp; case_match; lia). clearbody z mp.
  set (k := z mod 400) in *. clearbody k.
  assert (0 <= (153 * mp + 2) / 5 <= 400) by (split; [apply Z.div_pos|apply Z.div_le_upper_bound]; lia).
  assert (0 <= k / 4 <= 100) by (split; [apply Z.div_pos|apply Z.div_le_upper_bound]; lia).
  assert (0 <= k / 100 <= 4) by (split; [apply Z.div_pos|apply Z.div_le_upper_bound]; lia).
  assert (k / 100 <= k / 4) by (apply Z.div_le_compat_l; lia).
  rewrite (u32_small k), (u32_small (153 * mp + 2)) by lia. rewrite (u32_small ((153 * mp + 2) / 5 + d)), (u32_small (k * 365 + k / 4)) by lia.
  rewrite (u32_small ((153 * mp + 2) / 5 + d - 1)), (u32_small (k * 365 + k / 4 - k / 100)) by lia. rewrite u32_small by lia. lia.
Qed.

(** ** The formula counts days *)

Lemma years_step z : let z1 := z + 1 in
  z1 / 400 * 146097 + ((z1 mod 400) * 365 + (z1 mod 400) / 4 - (z1 mod 400) / 100) =
  z / 400 * 146097 + ((z mod 400) * 365 + (z mod 400) / 4 - (z mod 400) / 100) + (if leap z1 then 366 else 365).
Proof.
  cbv zeta. unfold leap.
  destruct (Z.eqb_spec ((z + 1) mod 4) 0), (Z.eqb_spec ((z + 1) mod 100) 0), (Z.eqb_spec ((z + 1) mod 400) 0); cbn [andb orb negb];
    Z.div_mod_to_equations; lia.
Qed.

Lemma civil_next x : valid_date x -> let y := next_day x in civil (year y) (month y) (day y) = civil (year x) (month x) (day x) + 1.
Proof.
  destruct x as [y m d]. unfold valid_date, next_day. cbn [year month day]. intros [Hm Hd].
  destruct (Z.ltb_spec d (month_days y m)); cbn [year month day]; [unfold civil; lia|].
  assert (d = month_days y m) as -> by lia. clear Hd.
  assert (m = 1 \/ m = 2 \/ m = 3 \/ m = 4 \/ m = 5 \/ m = 6 \/ m = 7 \/ m = 8 \/ m = 9 \/ m = 10 \/ m = 11 \/ m = 12) as Hcases by lia.
  pose proof (years_step (y - 1)) as Hy. cbv zeta in Hy. replace (y - 1 + 1) with y in Hy by lia.
  repeat (destruct Hcases as [->|Hcases]); [..|subst m]; unfold civil, month_days; cbn [Z.ltb Z.leb Z.eqb Z.compare Pos.compare Pos.compare_cont Pos.eqb orb year month day];
    rewrite ?Z.sub_0_r;
    repeat match goal with |- context [?a / 5] => let v := eval vm_compute in (a / 5) in change (a / 5) with v end; try lia.
  - change (1 + 1 <=? 2) with true. cbn iota. lia.
  - destruct (leap y); lia.
  - replace (y + 1 - 1) with y by lia. lia.
Qed.

Lemma month_days_bound y m : month_days y m <= 31.
Proof. unfold month_days. repeat case_match; lia. Qed.

Lemma days_civil x : valid_date x -> days x = civil (year x) (month x) (day x).
Proof. intros [Hm Hd]. pose proof (month_days_bound (year x) (month x)). apply days_from_civil_eq; lia. Qed.

(** The date [n] days after a date. *)
Definition days_after (n : nat) (x : date) : date := Nat.iter n next_day x.

Lemma days_after_valid n x : valid_date x -> valid_date (days_after n x).
Proof. intros H. induction n; [done|]. by apply next_day_valid. Qed.

Definition fits64 (v : Z) : Prop := - 2 ^ 63 <= v < 2 ^ 63.

(** For the years that [tm_epoch_sec] passes, 1900 and a 32-bit number, no signed
    64-bit value of the computation leaves its range. *)
Lemma days_from_civil_fits t m d :
  - 2 ^ 31 <= t < 2 ^ 31 -> let y := t + 1900 - (if m <=? 2 then 1 else 0) in let era := Z.quot (if 0 <=? y then y else y - 399) 400 in
  fits64 y /\ fits64 (y - 399) /\ fits64 (era * 400) /\ fits64 (y - era * 400) /\ fits64 (era * 146097) /\ fits64 (days_from_civil (t + 1900) m d) /\ fits64 (days_from_civil (t + 1900) m d * 86400).
Proof.
  intros Ht y era. assert (- 2 ^ 31 <= y <= 2 ^ 31 + 1900) as Hy by (subst y; case_match; lia).
  assert (- 2 ^ 23 <= era <= 2 ^ 23) as He by (subst era; rewrite quot_floor; pose proof (Z.div_mod y 400 ltac:(lia)); pose proof (Z.mod_pos_bound y 400 ltac:(lia)); lia).
  assert (exists doe, days_from_civil (t + 1900) m d = era * 146097 + doe - 719468 /\ 0 <= doe < 2 ^ 32) as (doe & -> & Hd) by (eexists; split; [reflexivity|apply Z.mod_pos_bound; lia]).
  clearbody era y. unfold fits64. lia.
Qed.

(** C34: the day number of [days_from_civil], computed in 32-bit unsigned and
    64-bit signed arithmetic, is the number of days in the Gregorian calendar:
    from any date, of any year, the date [n] days later has the number plus [n],
    and 1 January 1970 has 0. *)
Theorem days_from_civil_counts x n :
  valid_date x -> days (days_after n x) = days x + Z.of_nat n /\ days (Date 1970 1 1) = 0.
Proof.
  intros Hx. split; [|reflexivity]. induction n as [|n IH]; [cbn; lia|].
  change (days_after (S n) x) with (next_day (days_after n x)). pose proof (days_after_valid n x Hx) as Hv.
  rewrite (days_civil (next_day _)) by (by apply next_day_valid). rewrite civil_next by done. rewrite <- days_civil by done. lia.
Qed.

Lemma days_from_civil_counts_witness : days (days_after 60 (Date 2024 1 1)) = days (Date 2024 1 1) + 60 /\ days_after 60 (Date 2024 1 1) = Date 2024 3 1.
Proof.
  split; [|reflexivity]. apply (days_from_civil_counts (Date 2024 1 1) 60). split; cbn; split; discriminate.
Defined.

(** ** The logical wall clock *)

Record clock := Clock { wall_base_ms : Z; wall_base_mono : Z; wall_inited : bool; sync_delta_ms : Z; sync_ready : bool }.

Definition fresh_clock : clock := Clock 0 0 false 0 false.

(** [sys]: the clock of the system, in ms; [m1], [m2]: the monotonic clock, in
    ns, when the base is set and when it is read. *)
Definition airy_time_wall_ms (sys m1 m2 : Z) (c : clock) : Z * clock :=
  let c :=
    if wall_inited c then c
    else if wall_base_ms c =? 0 then Clock sys m1 true (sync_delta_ms c) (sync_ready c)
    else c in
  (u64 (wall_base_ms c + s64 (u64 (m2 - wall_base_mono c) / 1000000)), c).

Definition airy_time_wall_sec (sys m1 m2 : Z) (c : clock) : Z * clock := let '(t, c) := airy_time_wall_ms sys m1 m2 c in (t / 1000, c).

(** ** SNTP *)

Definition NTP_UNIX_DELTA : Z := 2208988800.

Definition be32_load (l : list Z) : Z :=
  match l with
  | a :: b :: c :: d :: _ => Z.lor (Z.lor (Z.lor (Z.shiftl a 24) (Z.shiftl b 16)) (Z.shiftl c 8)) d
  | _ => 0
  end.

(** What [sntp_query] makes of an answer of one address: [None] when the next
    address is tried. *)
Definition sntp_answer (buf : list Z) : option Z :=
  if (48 <=? length buf)%nat then
    let li := Z.land (Z.shiftr (nth 0 buf 0) 6) 3 in
    let stratum := nth 1 buf 0 in
    if (li <=? 2) && (1 <=? stratum) && (stratum <=? 15) then
      let ntp_sec := be32_load (drop 40 buf) in
      let ntp_frac := be32_load (drop 44 buf) in
      let unix := if NTP_UNIX_DELTA <=? ntp_sec then ntp_sec - NTP_UNIX_DELTA else 0 in
      Some (s64 (u64 (u64 (unix * 1000) + u64 (ntp_frac * 1000) / 4294967296)))
    else None
  else None.

(** [answers]: for each address of the server, what comes back, [None] when
    nothing does. *)
Fixpoint sntp_query (answers : list (option (list Z))) : option Z :=
  match answers with
  | [] => None
  | a :: answers' => match a ≫= sntp_answer with Some t => Some t | None => sntp_query answers' end
  end.

Fixpoint first_server (servers : list (list (option (list Z)))) : option Z :=
  match servers with [] => None | s :: servers' => match sntp_query s with Some t => Some t | None => first_server servers' end end.

Definition airy_time_sync_once (timeout : Z) (servers : list (list (option (list Z)))) (tz sys mono : Z) (c : clock) : Z * clock :=
  if timeout =? 0 then (AIRY_EINVAL, c)
  else
    match first_server servers with
    | None => (AIRY_ETIMEDOUT, c)
    | Some utc => let std_local := utc + tz * 1000 in (0, Clock std_local mono true (std_local - sys) true)
    end.

(** ** The list of servers *)

Fixpoint skip_seps (s : cstr) : cstr :=
  match s with c :: s' => if (c =? 32) || (c =? 44) then skip_seps s' else s | [] => [] end.

Fixpoint token (s : cstr) : cstr * cstr :=
  match s with
  | c :: s' => if c =? 44 then ([], s) else let '(t, r) := token s' in (c :: t, r)
  | [] => ([], [])
  end.

Fixpoint trim_end (t : cstr) : cstr :=
  match t with
  | [] => []
  | c :: t' => match trim_end t' with [] => if c =? 32 then [] else [c] | r => c :: r end
  end.

(** [room]: the entries that are left. *)
Fixpoint split_loop (fuel room : nat) (s : cstr) : list cstr :=
  match fuel, room with
  | S fuel', S room' =>
      match skip_seps s with
      | [] => []
      | p =>
          let '(t, rest) := token p in
          match trim_end t with
          | [] => split_loop fuel' room rest
          | t => take 127 t :: split_loop fuel' room' rest
          end
      end
  | _, _ => []
  end.

Definition split_csv (s : cstr) (cap : nat) : list cstr := split_loop (length s) (cap - 1) s.

Definition default_servers : list cstr := [cs "pool.ntp.org"; cs "ntp.aliyun.com"; cs "time.google.com"].

Definition sntp_servers (env : option cstr) : list cstr :=
  match env with
  | None => default_servers
  | Some s => if bool_decide (s = []) then default_servers else match split_csv s 8 with [] => default_servers | l => l end
  end.

(** ** The periodic synchronisation *)

Definition SYNC_MAX_BACKOFF : Z := 86400.
Definition SYNC_MIN_INTERVAL : Z := 30.
Definition SYNC_DEFAULT_INTERVAL : Z := 3600.

Definition start_interval (interval : Z) : Z := if (interval =? 0) || (interval <? SYNC_MIN_INTERVAL) then SYNC_DEFAULT_INTERVAL else interval.

(** The time to the next attempt after one that succeeded or failed. *)
Definition next_wait (interval : Z) (ok : bool) (cur : Z) : Z :=
  if ok then interval
  else
    let cur := if cur <? SYNC_MAX_BACKOFF then u32 (cur * 2) else cur in
    if SYNC_MAX_BACKOFF <? cur then SYNC_MAX_BACKOFF else cur.

(** ** The clock is steady *)

(** Between two synchronisations the clock follows the monotonic clock alone:
    whatever the system's clock says, it does not go back and advances by the
    milliseconds that passed. *)
Theorem wall_clock_steady sys1 sys2 a1 b1 a2 b2 c :
  wall_inited c = true -> 0 <= wall_base_ms c -> wall_base_mono c <= b1 <= b2 -> b2 - wall_base_mono c < 2 ^ 63 -> wall_base_ms c + 2 ^ 63 < 2 ^ 64 ->
  let '(t1, c1) := airy_time_wall_ms sys1 a1 b1 c in
  let '(t2, c2) := airy_time_wall_ms sys2 a2 b2 c1 in
  c2 = c /\ t1 <= t2 /\ t2 - t1 = (b2 - wall_base_mono c) / 1000000 - (b1 - wall_base_mono c) / 1000000.
Proof.
  intros Hi H0 Hb Hr Hm. unfold airy_time_wall_ms. rewrite Hi. cbv zeta. rewrite Hi. split; [done|].
  pose proof (Z.div_le_mono (b1 - wall_base_mono c) (b2 - wall_base_mono c) 1000000 ltac:(lia) ltac:(lia)) as Hmono.
  assert (0 <= (b1 - wall_base_mono c) / 1000000) as Hp by (apply Z.div_pos; lia).
  assert ((b2 - wall_base_mono c) / 1000000 <= b2 - wall_base_mono c) as Hu by (apply Z.div_le_upper_bound; lia).
  assert (forall z, 0 <= z < 2 ^ 63 -> s64 z = z) as Hs64.
  { intros z Hz. unfold s64. rewrite Z.mod_small by lia. lia. }
  rewrite !(u64_small (_ - wall_base_mono c)) by lia. rewrite !Hs64 by lia. rewrite !u64_small by lia. lia.
Qed.

Lemma wall_clock_steady_witness :
  let '(t1, c1) := airy_time_wall_ms 999 0 5000000 (Clock 1000 2000000 true 0 false) in
  let '(t2, c2) := airy_time_wall_ms 0 0 9999999 c1 in t1 <= t2.
Proof.
  exact (proj1 (proj2 (wall_clock_steady 999 0 0 5000000 0 9999999 (Clock 1000 2000000 true 0 false)
    eq_refl ltac:(done) ltac:(done) ltac:(done) ltac:(done)))).
Defined.

(** ** SNTP answers *)

Lemma be32_value a b c d l :
  0 <= a < 256 -> 0 <= b < 256 -> 0 <= c < 256 -> 0 <= d < 256 -> be32_load (a :: b :: c :: d :: l) = ((a * 256 + b) * 256 + c) * 256 + d.
Proof.
  intros Ha Hb Hc Hd. cbn [be32_load]. rewrite <- !Z.lor_assoc. rewrite (lor_shiftl_add c d 8) by lia.
  rewrite (lor_shiftl_add b _ 16) by lia. rewrite (lor_shiftl_add a _ 24) by lia. lia.
Qed.

(** An answer with the given head and time stamp. *)
Definition packet (li_vn_mode stratum : Z) (middle : list Z) (sec frac : list Z) : list Z := li_vn_mode :: stratum :: middle ++ sec ++ frac.

Definition be_value (l : list Z) : Z := foldl (fun n b => n * 256 + b) 0 l.

(** The time of an answer is its time stamp, a number of 2^-32 seconds since
    1900, in whole milliseconds since 1970, from 1970 on and before the stamp
    wraps around in 2036. *)
Theorem sntp_time_exact h stratum middle sec frac :
  length middle = 38%nat -> length sec = 4%nat -> length frac = 4%nat -> Forall (fun b => 0 <= b < 256) sec -> Forall (fun b => 0 <= b < 256) frac ->
  0 <= h < 192 -> 1 <= stratum <= 15 -> NTP_UNIX_DELTA <= be_value sec ->
  sntp_answer (packet h stratum middle sec frac) =
  Some ((be_value sec * 2 ^ 32 + be_value frac - NTP_UNIX_DELTA * 2 ^ 32) * 1000 / 2 ^ 32).
Proof.
  intros Hm Hs Hf Bs Bf Hh Hst Hd.
  destruct sec as [|s0 [|s1 [|s2 [|s3 [|]]]]], frac as [|f0 [|f1 [|f2 [|f3 [|]]]]]; try discriminate.
  rewrite !Forall_cons in Bs, Bf. destruct Bs as (B0 & B1 & B2 & B3 & _), Bf as (C0 & C1 & C2 & C3 & _).
  unfold sntp_answer, packet. cbn [nth length]. rewrite length_app, Hm. cbn [length app plus Nat.leb].
  assert (Z.land (Z.shiftr h 6) 3 <=? 2 = true) as ->.
  { change 3 with (Z.ones 2). rewrite Z.land_ones, Z.shiftr_div_pow2 by lia. change (2 ^ 6) with 64. change (2 ^ 2) with 4.
    apply Z.leb_le. rewrite Z.mod_small; [|split; [apply Z.div_pos|apply Z.div_lt_upper_bound]; lia]. apply Z.lt_succ_r, Z.div_lt_upper_bound; lia. }
  replace (1 <=? stratum) with true by lia. replace (stratum <=? 15) with true by lia. cbn [andb].
  change (drop 40 (h :: stratum :: middle ++ ?x)) with (drop 38 (middle ++ x)). change (drop 44 (h :: stratum :: middle ++ ?x)) with (drop 42 (middle ++ x)).
  rewrite (drop_app_ge middle _ 38), (drop_app_ge middle _ 42), Hm by lia. cbn [Nat.sub drop].
  rewrite !be32_value by done. cbn [be_value foldl] in *. set (S := ((s0 * 256 + s1) * 256 + s2) * 256 + s3).
  replace (((0 * 256 + s0) * 256 + s1) * 256 + s2) with ((s0 * 256 + s1) * 256 + s2) in * by lia. fold S in Hd |- *.
  replace (((0 * 256 + f0) * 256 + f1) * 256 + f2) with ((f0 * 256 + f1) * 256 + f2) by lia. set (F := ((f0 * 256 + f1) * 256 + f2) * 256 + f3).
  assert (0 <= F < 2 ^ 32) as HF by (subst F; lia). assert (S < 2 ^ 32) as HS by (subst S; lia). clearbody S F.
  replace (NTP_UNIX_DELTA <=? S) with true by lia. unfold NTP_UNIX_DELTA in *. rewrite (u64_small (F * 1000)), (u64_small ((S - 2208988800) * 1000)) by lia.
  assert (0 <= F * 1000 / 4294967296 < 1000) as HQ by (split; [apply Z.div_pos|apply Z.div_lt_upper_bound]; lia).
  rewrite u64_small by lia. unfold s64. rewrite Z.mod_small by lia. f_equal. change (2 ^ 32) with 4294967296.
  replace ((S * 4294967296 + F - 2208988800 * 4294967296) * 1000) with (F * 1000 + ((S - 2208988800) * 1000) * 4294967296) by lia.
  rewrite Z.div_add by lia. lia.
Qed.

(** From 7 February 2036, when the seconds of the stamp start from 0 again, an
    answer gives the first second of 1970. *)
Lemma sntp_rollover h stratum middle :
  length middle = 38%nat -> 0 <= h < 64 -> 1 <= stratum <= 15 -> sntp_answer (packet h stratum middle [0; 0; 0; 5] [0; 0; 0; 0]) = Some 0.
Proof.
  intros Hm Hh Hs. unfold sntp_answer, packet. cbn [nth length]. rewrite length_app, Hm. cbn [length app plus Nat.leb].
  assert (Z.shiftr h 6 = 0) as -> by (rewrite Z.shiftr_div_pow2 by lia; apply Z.div_small; lia). rewrite Z.land_0_l.
  replace (1 <=? stratum) with true by lia. replace (stratum <=? 15) with true by lia. cbn [andb Z.leb Z.compare].
  change (drop 40 (h :: stratum :: middle ++ ?x)) with (drop 38 (middle ++ x)). change (drop 44 (h :: stratum :: middle ++ ?x)) with (drop 42 (middle ++ x)).
  rewrite (drop_app_ge middle _ 38), (drop_app_ge middle _ 42), Hm by lia. reflexivity.
Qed.

(** A synchronisation on a machine whose clock is exact moves the wall clock by
    the offset of its time zone. *)
Lemma sync_adds_zone utc tz mono t c :
  sntp_query [Some t] = Some utc -> 0 <= utc + tz * 1000 < 2 ^ 63 ->
  (airy_time_wall_ms 0 0 mono (airy_time_sync_once 2000 [[Some t]] tz utc mono c).2).1 = utc + tz * 1000.
Proof.
  intros Hq Hr. unfold airy_time_sync_once. cbn [Z.eqb first_server]. rewrite Hq. cbn [snd]. unfold airy_time_wall_ms.
  cbn [wall_inited wall_base_ms wall_base_mono fst]. rewrite Z.sub_diag. change (s64 (u64 0 / 1000000)) with 0. rewrite u64_small; lia.
Qed.

(** ** Threads that use the clock first at the same time *)

(** The steps of [airy_time_wall_ms]: the test of the flag, the exchange, the
    two stores, the reading of the monotonic clock and the two loads. *)
Inductive pc := Test | Exchange | StoreMono | StoreFlag | Read | LoadMono (mono : Z) | LoadBase (mono base_mono : Z) | Done (t : Z).

Definition step (sys mono : Z) (p : pc) (c : clock) : pc * clock :=
  match p with
  | Test => (if wall_inited c then Read else Exchange, c)
  | Exchange =>
      if wall_base_ms c =? 0 then (StoreMono, Clock sys (wall_base_mono c) (wall_inited c) (sync_delta_ms c) (sync_ready c)) else (Read, c)
  | StoreMono => (StoreFlag, Clock (wall_base_ms c) mono (wall_inited c) (sync_delta_ms c) (sync_ready c))
  | StoreFlag => (Read, Clock (wall_base_ms c) (wall_base_mono c) true (sync_delta_ms c) (sync_ready c))
  | Read => (LoadMono mono, c)
  | LoadMono m => (LoadBase m (wall_base_mono c), c)
  | LoadBase m b => (Done (u64 (wall_base_ms c + s64 (u64 (m - b) / 1000000))), c)
  | Done t => (Done t, c)
  end.

(** A schedule of two threads. *)
Fixpoint schedule (sys mono : Z) (who : list bool) (a b : pc) (c : clock) : pc * pc * clock :=
  match who with
  | [] => (a, b, c)
  | true :: who' => let '(a, c) := step sys mono a c in schedule sys mono who' a b c
  | false :: who' => let '(b, c) := step sys mono b c in schedule sys mono who' a b c
  end.

(** A thread alone takes the steps of the function. *)
Lemma thread_alone sys mono c :
  let '(a, _, c') := schedule sys mono (repeat true 7) Test Test c in
  a = Done (airy_time_wall_ms sys mono mono c).1 /\ c' = (airy_time_wall_ms sys mono mono c).2.
Proof.
  unfold airy_time_wall_ms. destruct c as [b m [] d r]; cbn; [done|]. destruct (b =? 0); done.
Qed.

(** A thread that comes between the exchange and the stores of another adds the
    time since the machine started to the time of day. *)
Lemma racing_thread_ahead sys mono :
  0 < sys < 2 ^ 62 -> 0 <= mono < 2 ^ 62 ->
  (schedule sys mono [true; true; false; false; false; false; false] Test Test fresh_clock).1.2 = Done (sys + mono / 1000000).
Proof.
  intros Hs Hm. cbn. destruct (Z.eqb_spec sys 0); [lia|]. cbn. rewrite Z.sub_0_r, (u64_small mono) by lia.
  assert (0 <= mono / 1000000 < 2 ^ 62) as Hq by (split; [apply Z.div_pos|apply Z.div_lt_upper_bound]; lia).
  unfold s64. rewrite (Z.mod_small (mono / 1000000 + 2 ^ 63)) by lia. rewrite u64_small by lia. f_equal. lia.
Qed.

(** ** The list of servers, field by field *)

Fixpoint trim_start (t : cstr) : cstr := match t with c :: t' => if c =? 32 then trim_start t' else t | [] => [] end.

(** The fields between commas, without the spaces around them, that are not
    empty. *)
Definition names (s : cstr) : list cstr := filter (fun f => f <> []) (map (fun f => trim_end (trim_start f)) (fields 44 s)).

Lemma names_comma s : names (44 :: s) = names s.
Proof. unfold names. cbn [fields Z.eqb Pos.eqb map trim_start trim_end]. rewrite filter_cons_False; [done|tauto]. Qed.

Lemma names_skip s : names (skip_seps s) = names s.
Proof.
  induction s as [|c s IH]; [done|]. cbn [skip_seps]. destruct (Z.eqb_spec c 32) as [->|]; cbn [orb].
  - rewrite IH. unfold names. cbn [fields Z.eqb Pos.eqb]. destruct (fields_cons 44 s) as (f & fs & ->). done.
  - destruct (Z.eqb_spec c 44) as [->|]; [|done]. rewrite IH, names_comma. done.
Qed.

Lemma token_fields s :
  let '(t, r) := token s in fields 44 s = t :: match r with [] => [] | _ :: r' => fields 44 r' end /\ names r = names (drop 1 r) /\ (length t + length r = length s)%nat.
Proof.
  induction s as [|c s IH]; [done|]. cbn [token]. destruct (Z.eqb_spec c 44) as [->|Hc].
  - split_and!; [done|exact (names_comma s)|done].
  - destruct (token s) as [t r]. destruct IH as (IH & Hn & Hl). split_and!; [|done|cbn; lia].
    cbn [fields]. rewrite (proj2 (Z.eqb_neq _ _) Hc), IH. done.
Qed.

Lemma trim_end_nonempty c t : c <> 32 -> trim_end (c :: t) <> [].
Proof. intros Hc. cbn. destruct (trim_end t); [|done]. rewrite (proj2 (Z.eqb_neq _ _) Hc). done. Qed.

Lemma skip_seps_head s c p : skip_seps s = c :: p -> c <> 32 /\ c <> 44 /\ (length (c :: p) <= length s)%nat.
Proof.
  induction s as [|x s IH]; [done|]. cbn [skip_seps]. destruct (Z.eqb_spec x 32); cbn [orb].
  - intros H. destruct (IH H) as (? & ? & ?). cbn in *. split_and!; [done|done|lia].
  - destruct (Z.eqb_spec x 44); [|intros [= -> ->]; done]. intros H. destruct (IH H) as (? & ? & ?). cbn in *. split_and!; [done|done|lia].
Qed.

Lemma split_loop_names fuel room s : (length s <= fuel)%nat -> split_loop fuel room s = map (take 127) (take room (names s)).
Proof.
  revert room s. induction fuel as [|fuel IH]; intros room s Hf.
  - destruct s; [|cbn in Hf; lia]. destruct room; done.
  - destruct room as [|room]; [done|]. cbn [split_loop]. rewrite <- names_skip.
    destruct (skip_seps s) as [|c p] eqn:E; [done|]. apply skip_seps_head in E as (Hs & Hc & Hl).
    pose proof (token_fields (c :: p)) as Ht. destruct (token (c :: p)) as [t r] eqn:Et.
    destruct Ht as (Hk & Hn & Hlen). cbn [token] in Et. rewrite (proj2 (Z.eqb_neq _ _) Hc) in Et.
    destruct (token p) as [t' r']. injection Et as <- <-.
    pose proof (trim_end_nonempty c t' Hs) as Hne. destruct (trim_end (c :: t')) as [|x u] eqn:Ex; [done|].
    unfold names. rewrite Hk. cbn [map trim_start]. rewrite (proj2 (Z.eqb_neq _ _) Hs), Ex. rewrite filter_cons_True by done. cbn [take map]. f_equal.
    rewrite IH by (cbn in *; lia). rewrite Hn. destruct r'; cbn [drop]; [destruct room; done|done].
Qed.

(** The servers of the environment are the names between commas, without the
    spaces around them and without empty ones, cut to 127 bytes, the first seven
    of them. *)
Theorem split_csv_fields s cap : split_csv s cap = map (take 127) (take (cap - 1) (names s)).
Proof. apply split_loop_names. done. Qed.

(** ** The back-off *)

(** After [n] failures in a row the next attempt is after the interval doubled
    [n] times, at most a day. *)
Lemma backoff_doubles interval n :
  0 < interval <= SYNC_MAX_BACKOFF -> Nat.iter n (next_wait interval false) interval = Z.min (interval * 2 ^ Z.of_nat n) SYNC_MAX_BACKOFF.
Proof.
  intros Hi. unfold SYNC_MAX_BACKOFF in *. induction n as [|n IH]; [cbn; lia|].
  rewrite Nat.iter_succ, IH, Nat2Z.inj_succ, Z.pow_succ_r by lia. set (p := interval * 2 ^ Z.of_nat n).
  assert (0 < p) by (subst p; apply Z.mul_pos_pos; [lia|apply Z.pow_pos_nonneg; lia]).
  replace (interval * (2 * 2 ^ Z.of_nat n)) with (2 * p) by (subst p; lia). clearbody p.
  unfold next_wait, SYNC_MAX_BACKOFF. destruct (Z.ltb_spec (Z.min p 86400) 86400).
  - rewrite u32_small by lia. destruct (Z.ltb_spec 86400 (Z.min p 86400 * 2)); lia.
  - destruct (Z.ltb_spec 86400 (Z.min p 86400)); lia.
Qed.

(** Where the interval is more than a day, a failure makes the next attempt
    come sooner. *)
Lemma long_interval_shortened interval : SYNC_MAX_BACKOFF < interval -> next_wait interval false interval < interval.
Proof. intros Hi. unfold next_wait. rewrite (proj2 (Z.ltb_ge interval SYNC_MAX_BACKOFF)) by lia. rewrite (proj2 (Z.ltb_lt _ _) Hi). done. Qed.

(** ** The thread of the periodic synchronisation *)

Record syncer := Syncer { sync_running : bool; sync_stop : bool; s_interval : Z; threads : nat }.

(** [created]: the system could create a thread. *)
Definition airy_time_sync_start (interval : Z) (created : bool) (s : syncer) : Z * syncer :=
  if sync_running s then (0, s)
  else if created then (0, Syncer true false (start_interval interval) (S (threads s)))
  else (AIRY_ENOMEM, Syncer false false (start_interval interval) (threads s)).

(** The end of [sync_loop], which a thread comes to once the flag is up. *)
Definition sync_exit (s : syncer) : syncer :=
  if sync_stop s && (0 <? threads s)%nat then Syncer false (sync_stop s) (s_interval s) (pred (threads s)) else s.

(** [exits]: the thread ends within the five seconds that the call waits. *)
Definition airy_time_sync_stop (exits : bool) (s : syncer) : syncer :=
  if sync_running s then
    let s := Syncer (sync_running s) true (s_interval s) (threads s) in
    if exits then sync_exit s else s
  else s.

Inductive sync_step : syncer -> syncer -> Prop :=
| step_start i ok s : sync_step s (airy_time_sync_start i ok s).2
| step_stop exits s : sync_step s (airy_time_sync_stop exits s)
| step_exit s : sync_step s (sync_exit s).

(** However calls and the thread's end follow one another, the flag says whether
    there is a thread, and there is at most one. *)
Lemma one_sync_thread s i : rtc sync_step (Syncer false false i 0) s -> threads s = (if sync_running s then 1%nat else 0%nat).
Proof.
  intros H. remember (Syncer false false i 0) as s0 eqn:E.
  assert (threads s0 = (if sync_running s0 then 1%nat else 0%nat)) as H0 by (subst; done). clear E.
  induction H as [|a b c Hab _ IH]; [done|]. apply IH.
  destruct Hab as [j ok s|e s|s]; destruct s as [[] st iv t]; cbn in H0; subst t.
  - done.
  - destruct ok; done.
  - destruct e, st; done.
  - done.
  - destruct st; done.
  - destruct st; done.
Qed.

(** A query may take longer than a stop waits; a start that follows reports
    success and starts nothing, and when the thread ends there is none left. *)
Lemma restart_lost i j :
  let s := airy_time_sync_stop false (Syncer true false i 1) in
  let '(rc, s') := airy_time_sync_start j true s in rc = 0 /\ threads (sync_exit s') = 0%nat /\ sync_running (sync_exit s') = false.
Proof. done. Qed.
