(* ===== verification/Paths.v ===== *)
(** * Directories of an installation: platform/src/platform_paths.c

    The resolution of the installation root and of the directories below it,
    their creation, and the removal of what is stale in the temporary one, over
    a file system with directories, files and symbolic links, on POSIX.  The
    environment and the contents of files are arguments. *)
From stdpp Require Import gmap list.
From S2P Require Import Prelude CLib ErrCodes.

(** ** The file system *)

Abbreviation path := (list cstr).

Inductive kind := KFile | KDir | KLink (target : cstr).

(** A time is that of the last change before the calls that are modelled: the
    times that the system gives to a directory when an entry is made in it or
    removed from it are not followed.  No call reads the time of a directory that
    it has changed before. *)
Record node := Node { kind_of : kind; mtime : Z }.

(** The nodes by their place, the directory of the process, the directories
    that the process cannot change and those that it cannot list. *)
Record fs := Fs { nodes : gmap path node; cwd : path; locked : list path; unreadable : list path }.

Definition set_nodes (m : gmap path node) (f : fs) : fs := Fs m (cwd f) (locked f) (unreadable f).

Definition DOT : cstr := [46].
Definition DOTDOT : cstr := [46; 46].

(** The components of a path; empty ones and dots say nothing. *)
Definition comps (p : cstr) : path := filter (fun c => c <> [] /\ c <> DOT) (fields 47 p).

Definition start (f : fs) (p : cstr) (here : path) : path := if bool_decide (head p = Some 47) then [] else here.

(** The place that a path leads to, with at most [links] symbolic links. *)
Fixpoint walk (links : nat) (f : fs) : path -> path -> option path :=
  fix go (here todo : path) {struct todo} : option path :=
    match todo with
    | [] => Some here
    | c :: rest =>
        if bool_decide (c = DOTDOT) then go (removelast here) rest
        else
          match kind_of <$> nodes f !! (here ++ [c]) with
          | None => None
          | Some KDir => go (here ++ [c]) rest
          | Some KFile => match rest with [] => Some (here ++ [c]) | _ => None end
          | Some (KLink t) =>
              match links with
              | O => None
              | S links' => walk links' f (start f t here) (comps t ++ rest)
              end
          end
    end.

Definition PATH_MAX : nat := Z.to_nat 4096.

(** The system refuses empty paths and paths of [PATH_MAX] bytes and more. *)
Definition path_ok (p : cstr) : bool := negb (bool_decide (p = [])) && (length p <? PATH_MAX)%nat.

Definition resolve (f : fs) (p : cstr) : option path := if path_ok p then walk 40 f (start f p (cwd f)) (comps p) else None.

Definition stat (f : fs) (p : cstr) : option node := q ← resolve f p; nodes f !! q.

(** The directory that the last component is looked up in, and its place there:
    a link there is not followed. *)
Definition place (f : fs) (p : cstr) : option (path * cstr) :=
  if path_ok p then
    c ← last (comps p);
    q ← walk 40 f (start f p (cwd f)) (removelast (comps p));
    match kind_of <$> nodes f !! q with Some KDir => Some (q, c) | _ => None end
  else None.

(** The names in a directory. *)
Definition entries (m : gmap path node) (q : path) : list cstr :=
  omap (fun k => if bool_decide (k <> [] /\ removelast k = q) then last k else None) (map fst (map_to_list m)).

Inductive mkdir_result := Made (f : fs) | Exists | Failed.

Definition mkdir (f : fs) (p : cstr) : mkdir_result :=
  match place f p with
  | None => if path_ok p && bool_decide (comps p = []) then Exists else Failed
  | Some (q, c) =>
      if bool_decide (c = DOTDOT) then Exists
      else
        match nodes f !! (q ++ [c]) with
        | Some _ => Exists
        | None => if bool_decide (q ∈ locked f) then Failed else Made (set_nodes (<[q ++ [c] := Node KDir 0]> (nodes f)) f)
        end
  end.

Definition rmdir (f : fs) (p : cstr) : option fs :=
  '(q, c) ← place f p;
  match kind_of <$> nodes f !! (q ++ [c]) with
  | Some KDir =>
      if bool_decide (entries (nodes f) (q ++ [c]) = [] /\ c <> DOTDOT /\ q ∉ locked f) then Some (set_nodes (delete (q ++ [c]) (nodes f)) f) else None
  | _ => None
  end.

(** [remove] of the C library. *)
Definition remove (f : fs) (p : cstr) : option fs :=
  '(q, c) ← place f p;
  match kind_of <$> nodes f !! (q ++ [c]) with
  | None => None
  | Some KDir => rmdir f p
  | Some _ => if bool_decide (q ∈ locked f) then None else Some (set_nodes (delete (q ++ [c]) (nodes f)) f)
  end.

(** ** Removing what is stale *)

Definition AIRY_TMP_STALE_DAYS : Z := 7.
Definition AIRY_TMP_CLEAN_CAP : nat := 256.

Definition cut (s : cstr) : cstr := take (PATH_MAX - 1) s.

Definition child (p name : cstr) : cstr := cut (p ++ [47] ++ name).

Definition is_dots (name : cstr) : bool :=
  (nth 0 name 0 =? 46) && ((nth 1 name 0 =? 0) || ((nth 1 name 0 =? 46) && (nth 2 name 0 =? 0))).

Section removal.

(** The order in which a directory is listed. *)
Context (shuffle : list cstr -> list cstr).

Definition opendir (f : fs) (p : cstr) : option (list cstr) :=
  q ← resolve f p;
  match kind_of <$> nodes f !! q with
  | Some KDir => if bool_decide (q ∈ unreadable f) then None else Some (shuffle (DOT :: DOTDOT :: entries (nodes f) q))
  | _ => None
  end.

Fixpoint rm_children (rec : fs -> cstr -> option (Z * fs)) (p : cstr) (names : list cstr) (f : fs) : option (Z * fs) :=
  match names with
  | [] => Some (0, f)
  | name :: names' =>
      if is_dots name then rm_children rec p names' f
      else
        let c := child p name in
        match stat f c with
        | None => rm_children rec p names' f
        | Some cst =>
            match kind_of cst with
            | KDir => '(rc, f) ← rec f c; if rc =? 0 then rm_children rec p names' f else Some (-1, f)
            | _ => match remove f c with Some f => rm_children rec p names' f | None => Some (-1, f) end
            end
        end
  end.

(** [fuel] bounds the nesting of calls; [None] when it is used up. *)
Fixpoint paths_rm_rf (fuel : nat) (f : fs) (p : cstr) : option (Z * fs) :=
  match fuel with
  | O => None
  | S fuel' =>
      if bool_decide (p = []) then Some (-1, f)
      else
        match stat f p with
        | None => Some (0, f)
        | Some st =>
            match kind_of st with
            | KDir =>
                match opendir f p with
                | None => Some (-1, f)
                | Some names =>
                    '(rc, f) ← rm_children (paths_rm_rf fuel') p names f;
                    if rc =? 0 then match rmdir f p with Some f => Some (0, f) | None => Some (-1, f) end else Some (-1, f)
                end
            | _ => match remove f p with Some f => Some (0, f) | None => Some (-1, f) end
            end
        end
  end.

Fixpoint clean_entries (fuel : nat) (cutoff : Z) (tmp : cstr) (room : nat) (names : list cstr) (f : fs) : option fs :=
  match room, names with
  | S room', name :: names' =>
      if bool_decide (head name = Some 46) then clean_entries fuel cutoff tmp room names' f
      else
        let full := child tmp name in
        match stat f full with
        | None => clean_entries fuel cutoff tmp room names' f
        | Some st =>
            if cutoff <=? mtime st then clean_entries fuel cutoff tmp room names' f
            else
              match kind_of st with
              | KDir => '(rc, f) ← paths_rm_rf fuel f full; clean_entries fuel cutoff tmp (if rc =? 0 then room' else room) names' f
              | _ =>
                  match remove f full with
                  | Some f => clean_entries fuel cutoff tmp room' names' f
                  | None => clean_entries fuel cutoff tmp room names' f
                  end
              end
        end
  | _, _ => Some f
  end.

Definition paths_cleanup_stale_tmp (fuel : nat) (now : Z) (tmp : cstr) (f : fs) : option fs :=
  let cutoff := now - AIRY_TMP_STALE_DAYS * 24 * 3600 in
  match opendir f tmp with None => Some f | Some names => clean_entries fuel cutoff tmp AIRY_TMP_CLEAN_CAP names f end.

End removal.

(** ** Creating directories *)

Definition is_sep (c : Z) : bool := (c =? 47) || (c =? 92).

(** The separators at the end, except for the first byte. *)
Definition strip_seps (s : cstr) : cstr :=
  match s with
  | [] => []
  | c :: s' => c :: foldr (fun d r => match r with [] => if is_sep d then [] else [d] | _ => d :: r end) [] s'
  end.

Definition mkdir_quiet (f : fs) (p : cstr) : fs := match mkdir f p with Made f => f | _ => f end.

(** [pre]: the bytes before the pointer, each separator passed being a slash. *)
Fixpoint mkdir_each (f : fs) (pre rest : cstr) : fs * cstr :=
  match rest with
  | [] => (f, pre)
  | c :: rest' => if is_sep c then mkdir_each (mkdir_quiet f pre) (pre ++ [47]) rest' else mkdir_each f (pre ++ [c]) rest'
  end.

Definition paths_mkdir_p (f : fs) (p : option cstr) : Z * fs :=
  match p with
  | None | Some [] => (AIRY_ERR_INVALID_PARAM, f)
  | Some p =>
      match strip_seps (cut p) with
      | [] => (AIRY_ERR_INVALID_PARAM, f)
      | c :: rest =>
          let '(f, tmp) := mkdir_each f [c] rest in
          match mkdir f tmp with
          | Made f => (AIRY_SUCCESS, f)
          | Exists => (AIRY_SUCCESS, f)
          | Failed => (AIRY_ERR_SYS_FILE, f)
          end
      end
  end.

(** ** The directories *)

Definition AIRY_DEFAULT_HOME_DIR : cstr := cs ".airymaxrt".
Definition AIRY_HOME_SUBDIR_BIN : cstr := cs "bin".
Definition AIRY_HOME_SUBDIR_LIB : cstr := cs "lib".
Definition AIRY_HOME_SUBDIR_RUN : cstr := cs "run".
Definition AIRY_HOME_SUBDIR_LOG : cstr := cs "data/agentrt/logs".
Definition AIRY_HOME_SUBDIR_CONFIG : cstr := cs "config".
Definition AIRY_HOME_SUBDIR_DATA : cstr := cs "data".
Definition AIRY_HOME_SUBDIR_TMP : cstr := cs "data/agentrt/tmp".
Definition AIRY_HOME_SUBDIR_CACHE : cstr := cs "data/agentrt/cache".
Definition AIRY_HOME_SUBDIR_WORKSPACE : cstr := cs "data/agentrt/workspaces".

Record dirs := Dirs { g_home_dir : cstr; g_bin_dir : cstr; g_lib_dir : cstr; g_run_dir : cstr; g_log_dir : cstr; g_cfg_dir : cstr; g_data_dir : cstr; g_tmp_dir : cstr; g_cache_dir : cstr; g_workspace_dir : cstr }.

(** What a process finds: its environment, the link to its executable and the
    contents of the files that it may read. *)
Record world := World { getenv : cstr -> option cstr; self_exe : option cstr; content : cstr -> option cstr }.

Definition paths_resolve_one (home subdir : cstr) : cstr :=
  match subdir with [] => cut home | _ => cut (home ++ [47] ++ subdir) end.

Definition paths_resolve_run (w : world) (home : cstr) : cstr :=
  match getenv w (cs "AIRY_RUNTIME_DIR") with
  | None | Some [] => paths_resolve_one home AIRY_HOME_SUBDIR_RUN
  | Some r => strip_seps (cut r)
  end.

Definition paths_resolve_all (w : world) (home : cstr) : dirs :=
  Dirs home (paths_resolve_one home AIRY_HOME_SUBDIR_BIN) (paths_resolve_one home AIRY_HOME_SUBDIR_LIB) (paths_resolve_run w home)
    (paths_resolve_one home AIRY_HOME_SUBDIR_LOG) (paths_resolve_one home AIRY_HOME_SUBDIR_CONFIG) (paths_resolve_one home AIRY_HOME_SUBDIR_DATA)
    (paths_resolve_one home AIRY_HOME_SUBDIR_TMP) (paths_resolve_one home AIRY_HOME_SUBDIR_CACHE) (paths_resolve_one home AIRY_HOME_SUBDIR_WORKSPACE).

(** What comes before the last byte that satisfies [b]. *)
Fixpoint before_last (b : Z -> bool) (s : cstr) : option cstr :=
  match s with
  | [] => None
  | c :: s' => match before_last b s' with Some r => Some (c :: r) | None => if b c then Some [] else None end
  end.

Definition paths_self_dir (w : world) (size : nat) : option cstr :=
  link ← self_exe w;
  match take (PATH_MAX - 1) link with
  | [] => None
  | link =>
      d ← before_last (fun c => c =? 47) link;
      match d with [] => None | _ => if (length d <? size)%nat then Some d else None end
  end.

(** The line without the newlines and carriage returns that end it. *)
Definition chomp_line (s : cstr) : cstr :=
  foldr (fun d r => match r with [] => if (d =? 10) || (d =? 13) then [] else [d] | _ => d :: r end) [] s.

Definition unquote (v : cstr) : cstr :=
  if (2 <=? length v)%nat && bool_decide (head v = Some 34) && bool_decide (last v = Some 34) then drop 1 (take (length v - 1) v) else v.

(** [out]: the buffer before the call. *)
Fixpoint install_lines (fuel : nat) (out text : cstr) (size : nat) : option cstr :=
  match fuel with
  | O => None
  | S fuel' =>
      match text with
      | [] => None
      | _ =>
          let '(l, rest) := fgets 511 text in
          let line := c_str l in
          if bool_decide (take 10 line = cs "AIRY_HOME=") then
            let v := unquote (drop 10 (chomp_line line)) in
            Some (if (0 <? length v)%nat && (length v <? size)%nat then v else out)
          else install_lines fuel' out rest size
      end
  end.

(** [None]: the file is not there or has no such line. *)
Definition paths_read_install_home (w : world) (p out : cstr) (size : nat) : option cstr :=
  text ← content w p; install_lines (length text) out text size.

Fixpoint walkup (depth : nat) (w : world) (dir out : cstr) (size : nat) : option cstr :=
  match depth with
  | O => None
  | S depth' =>
      match paths_read_install_home w (take (2 * PATH_MAX - 1) (dir ++ cs "/config/install.env")) out size with
      | Some h => Some h
      | None =>
          match before_last is_sep dir with
          | None | Some [] => None
          | Some up => walkup depth' w up out size
          end
      end
  end.

Definition paths_walkup_install_home (w : world) (out : cstr) (size : nat) : option cstr :=
  dir ← paths_self_dir w PATH_MAX; walkup 6 w dir out size.

Definition paths_discover_install_home (w : world) (out : cstr) (size : nat) : option cstr := paths_walkup_install_home w out size.

Definition paths_user_home (w : world) : option cstr := getenv w (cs "HOME").

Definition no_dirs : dirs := Dirs [] [] [] [] [] [] [] [] [] [].

Definition resolve_home (w : world) : cstr :=
  match getenv w (cs "AIRY_HOME") with
  | Some (c :: h) => cut (c :: h)
  | _ =>
      match paths_discover_install_home w [] PATH_MAX with
      | Some h => h
      | None =>
          match paths_user_home w with
          | Some (c :: u) => cut ((c :: u) ++ [47] ++ AIRY_DEFAULT_HOME_DIR)
          | _ => AIRY_DEFAULT_HOME_DIR
          end
      end
  end.

(** [None]: the directories are not resolved yet. *)
Definition paths_ensure_resolved (w : world) (g : option dirs) : dirs :=
  match g with Some d => d | None => paths_resolve_all w (resolve_home w) end.

Definition airy_runtime_dir_socket (w : world) (g : option dirs) (name : option cstr) : cstr :=
  let run := g_run_dir (paths_ensure_resolved w g) in
  match name with None | Some [] => run | Some n => cut (run ++ [47] ++ n) end.

Definition setenv (k v : cstr) (w : world) : world := World (fun x => if bool_decide (x = k) then Some v else getenv w x) (self_exe w) (content w).

Fixpoint mkdir_all (f : fs) (l : list cstr) : Z * fs :=
  match l with
  | [] => (AIRY_SUCCESS, f)
  | p :: l' => let '(rc, f) := paths_mkdir_p f (Some p) in if rc =? AIRY_SUCCESS then mkdir_all f l' else (rc, f)
  end.

Definition export_dirs (d : dirs) (w : world) : world :=
  setenv (cs "AIRY_WORKSPACE_DIR") (g_workspace_dir d) (setenv (cs "AIRY_CACHE_DIR") (g_cache_dir d) (setenv (cs "AIRY_TMP_DIR") (g_tmp_dir d)
  (setenv (cs "AIRY_DATA_DIR") (g_data_dir d) (setenv (cs "AIRY_CONFIG_DIR") (g_cfg_dir d) (setenv (cs "AIRY_LOG_DIR") (g_log_dir d)
  (setenv (cs "AIRY_RUNTIME_DIR") (g_run_dir d) (setenv (cs "AIRY_LIB_DIR") (g_lib_dir d) (setenv (cs "AIRY_BIN_DIR") (g_bin_dir d)
  (setenv (cs "AIRY_HOME") (g_home_dir d) w))))))))).

(** The code, the directories, the file system and the environment after it. *)
Definition airy_paths_init (shuffle : list cstr -> list cstr) (fuel : nat) (now : Z) (w : world) (g : option dirs) (f : fs) : option (Z * dirs * fs * world) :=
  let d := paths_ensure_resolved w g in
  let '(rc, f) := mkdir_all f [g_home_dir d; g_bin_dir d; g_lib_dir d; g_run_dir d; g_log_dir d; g_cfg_dir d; g_data_dir d; g_tmp_dir d; g_cache_dir d; g_workspace_dir d] in
  if rc =? AIRY_SUCCESS then
    let w := export_dirs d w in
    f ← paths_cleanup_stale_tmp shuffle fuel now (g_tmp_dir d) f;
    Some (AIRY_SUCCESS, d, f, w)
  else Some (rc, d, f, w).

(** ** Plain paths *)

Definition good_name (c : cstr) : Prop := c <> [] /\ c <> DOT /\ c <> DOTDOT /\ (47 ∉ c) /\ (0 ∉ c).

(** The absolute path of a place, with one slash before each name. *)
Definition path_of (q : path) : cstr := concat (map (cons 47) q).

Record wf (m : gmap path node) : Prop := {
  wf_root : kind_of <$> m !! [] = Some KDir;
  wf_parent k c n : m !! (k ++ [c]) = Some n -> kind_of <$> m !! k = Some KDir /\ good_name c
}.

Lemma fields_app c r : (47 ∉ c) -> fields 47 (c ++ 47 :: r) = c :: fields 47 r.
Proof.
  induction c as [|x c IH]; intros Hc; [done|]. cbn [app fields]. destruct (Z.eqb_spec x 47) as [->|]; [set_solver|].
  rewrite IH by set_solver. done.
Qed.

Lemma fields_none c : (47 ∉ c) -> fields 47 c = [c].
Proof.
  induction c as [|x c IH]; intros Hc; [done|]. cbn [fields]. destruct (Z.eqb_spec x 47) as [->|]; [set_solver|].
  rewrite IH by set_solver. done.
Qed.

Lemma fields_path q : Forall good_name q -> q <> [] -> fields 47 (path_of q) = [] :: q.
Proof.
  induction q as [|c q IH]; intros Hg Hq; [done|]. apply Forall_cons in Hg as [Hc Hg]. unfold path_of. cbn [map concat app fields Z.eqb Pos.eqb]. f_equal.
  destruct q as [|d q]; [rewrite app_nil_r; apply fields_none, Hc|]. specialize (IH Hg ltac:(done)). unfold path_of in IH.
  cbn [map concat app fields Z.eqb Pos.eqb] in IH |- *. rewrite fields_app by apply Hc. congruence.
Qed.

Lemma comps_path q : Forall good_name q -> comps (path_of q) = q.
Proof.
  intros Hg. destruct q as [|c q]; [done|]. unfold comps. rewrite fields_path by done. rewrite filter_cons_False by tauto.
  induction Hg as [|d l (H1 & H2 & _) Hl IH]; [done|]. rewrite filter_cons_True by done. congruence.
Qed.

Lemma path_snoc q c : path_of (q ++ [c]) = path_of q ++ [47] ++ c.
Proof. unfold path_of. rewrite map_app, concat_app. cbn. rewrite app_nil_r. done. Qed.

Lemma wf_ancestor m k l n : wf m -> m !! (k ++ l) = Some n -> l <> [] -> kind_of <$> m !! k = Some KDir.
Proof.
  intros Hw. revert n. induction l as [|c l IH] using rev_ind; intros n Hn Hl; [done|].
  rewrite app_assoc in Hn. apply (wf_parent _ Hw) in Hn as [Hn _]. destruct l as [|d l]; [by rewrite app_nil_r in Hn|].
  destruct (m !! (k ++ d :: l)) as [x|] eqn:E; [|done]. by eapply IH.
Qed.

Lemma wf_names m k n : wf m -> m !! k = Some n -> Forall good_name k.
Proof.
  intros Hw. revert n. induction k as [|c k IH] using rev_ind; intros n Hn; [constructor|].
  apply (wf_parent _ Hw) in Hn as [Hk Hc]. destruct (m !! k) as [x|] eqn:E; [|done]. apply Forall_app. split; [by eapply IH|by constructor].
Qed.

Lemma walk_dirs links f here q :
  Forall good_name q -> (forall l1 l2, q = l1 ++ l2 -> l1 <> [] -> kind_of <$> nodes f !! (here ++ l1) = Some KDir) -> walk links f here q = Some (here ++ q).
Proof.
  revert here. induction q as [|c q IH]; intros here Hg Hd; [destruct links; cbn; by rewrite app_nil_r|].
  apply Forall_cons in Hg as [(_ & _ & Hc & _) Hg]. destruct links as [|links]; cbn [walk].
  all: rewrite bool_decide_eq_false_2 by done; rewrite (Hd [c] q) by done; rewrite (cons_middle c here q), app_assoc; apply IH; [done|].
  all: intros l1 l2 -> Hl; rewrite <- app_assoc; by apply (Hd (c :: l1) l2).
Qed.

(** What the last name of a path leads to. *)
Definition last_step (links : nat) (f : fs) (q : path) (c : cstr) : option path :=
  match kind_of <$> nodes f !! (q ++ [c]) with
  | None => None
  | Some (KLink t) => match links with O => None | S links' => walk links' f (start f t q) (comps t) end
  | Some _ => Some (q ++ [c])
  end.

Lemma walk_last links f here q c :
  Forall good_name q -> good_name c -> (forall l1 l2, q = l1 ++ l2 -> l1 <> [] -> kind_of <$> nodes f !! (here ++ l1) = Some KDir) ->
  walk links f here (q ++ [c]) = last_step links f (here ++ q) c.
Proof.
  intros Hg Hc. revert here Hg. induction q as [|d q IH]; intros here Hg Hd.
  - unfold last_step. rewrite app_nil_r. destruct links; cbn [walk app]; rewrite bool_decide_eq_false_2 by apply Hc;
    destruct (kind_of <$> nodes f !! (here ++ [c])) as [[]|]; try done. by rewrite app_nil_r.
  - apply Forall_cons in Hg as [(_ & _ & Hdd & _) Hg].
    assert (walk links f here ((d :: q) ++ [c]) = walk links f (here ++ [d]) (q ++ [c])) as ->.
    { destruct links; cbn [walk app]; rewrite bool_decide_eq_false_2 by done; rewrite (Hd [d] q) by done; done. }
    rewrite IH; [by rewrite <- !app_assoc|done|]. intros l1 l2 -> Hl. rewrite <- app_assoc. by apply (Hd (d :: l1) l2).
Qed.

Lemma wf_dirs m q : wf m -> kind_of <$> m !! q = Some KDir -> Forall good_name q /\ (forall l1 l2, q = l1 ++ l2 -> kind_of <$> m !! l1 = Some KDir).
Proof.
  intros Hw Hq. destruct (m !! q) as [n|] eqn:En; [|done]. split; [by eapply wf_names|].
  intros l1 [|d l2] ->; [rewrite app_nil_r in *; by rewrite En|]. by eapply wf_ancestor.
Qed.

Lemma path_ok_snoc q c : (length (path_of (q ++ [c])) < PATH_MAX)%nat -> path_ok (path_of (q ++ [c])) = true.
Proof.
  intros Hl. unfold path_ok. apply andb_true_iff. split; [|by apply Nat.ltb_lt]. rewrite path_snoc.
  rewrite bool_decide_eq_false_2; [done|]. intros H%(f_equal length). rewrite !length_app in H. cbn in H. lia.
Qed.

Lemma start_path f q here : q <> [] -> start f (path_of q) here = [].
Proof. destruct q; done. Qed.

Section plain.

Context (f : fs) (q : path) (c : cstr).
Context (Hw : wf (nodes f)) (Hq : kind_of <$> nodes f !! q = Some KDir) (Hc : good_name c) (Hl : (length (path_of (q ++ [c])) < PATH_MAX)%nat).

Lemma good_snoc : Forall good_name (q ++ [c]).
Proof using Hw Hq Hc. apply Forall_app. split; [by apply (wf_dirs (nodes f))|by constructor]. Qed.

Lemma resolve_snoc : resolve f (path_of (q ++ [c])) = last_step 40 f q c.
Proof using Hw Hq Hc Hl.
  unfold resolve. rewrite path_ok_snoc by done. rewrite start_path by (by destruct q). rewrite comps_path by apply good_snoc.
  destruct (wf_dirs _ _ Hw Hq) as [Hg Hd]. apply (walk_last 40 f []); [done|done|]. intros l1 l2 H _. by eapply Hd.
Qed.

Lemma stat_snoc : (forall t, kind_of <$> nodes f !! (q ++ [c]) <> Some (KLink t)) -> stat f (path_of (q ++ [c])) = nodes f !! (q ++ [c]).
Proof using Hw Hq Hc Hl.
  intros Hn. unfold stat. rewrite resolve_snoc. unfold last_step. destruct (nodes f !! (q ++ [c])) as [[[] t]|] eqn:E; cbn; try done.
  by destruct (Hn target).
Qed.

Lemma place_snoc : place f (path_of (q ++ [c])) = Some (q, c).
Proof using Hw Hq Hc Hl.
  unfold place. rewrite path_ok_snoc by done. rewrite start_path by (by destruct q). rewrite comps_path by apply good_snoc.
  rewrite last_snoc, removelast_last. cbn [mbind option_bind]. destruct (wf_dirs _ _ Hw Hq) as [Hg Hd].
  rewrite (walk_dirs 40 f [] q); [cbn [mbind option_bind app]; by rewrite Hq|done|]. intros l1 l2 H _. by eapply Hd.
Qed.

End plain.

Lemma elem_of_entries m q c : c ∈ entries m q <-> is_Some (m !! (q ++ [c])).
Proof.
  unfold entries. rewrite list_elem_of_omap. split.
  - intros (k & Hk & Hb). case_bool_decide as Hd; [|done]. destruct Hd as [Hne <-].
    apply list_elem_of_fmap in Hk as ([k' n] & -> & Hk). apply elem_of_map_to_list in Hk. exists n.
    destruct k' as [|d k' _] using rev_ind; [done|]. cbn in *. rewrite last_snoc in Hb. injection Hb as ->. by rewrite removelast_last.
  - intros [n Hn]. exists (q ++ [c]). split; [apply list_elem_of_fmap; exists (q ++ [c], n); split; [done|by apply elem_of_map_to_list]|].
    rewrite bool_decide_eq_true_2 by (rewrite removelast_last; split; [by destruct q|done]). apply last_snoc.
Qed.

(** ** Removal of a tree *)

(** The nodes without those at [q] and below it. *)
Definition without (q : path) (m : gmap path node) : gmap path node := filter (fun kn => ~ q `prefix_of` kn.1) m.

(** The nodes without the entries [l] of [q]. *)
Definition strip (q : path) (l : list cstr) (m : gmap path node) : gmap path node := filter (fun kn => Forall (fun c => ~ (q ++ [c]) `prefix_of` kn.1) l) m.

Lemma lookup_without q m k : without q m !! k = if bool_decide (q `prefix_of` k) then None else m !! k.
Proof.
  unfold without. rewrite map_lookup_filter. case_bool_decide as H; destruct (m !! k); cbn; try done; [by rewrite option_guard_False by (intros Hn; by apply Hn)|by rewrite option_guard_True].
Qed.

Lemma without_sub q m k n : without q m !! k = Some n -> m !! k = Some n.
Proof. rewrite lookup_without. by case_bool_decide. Qed.

Lemma wf_without q m : wf m -> q <> [] -> wf (without q m).
Proof.
  intros Hw Hq. split.
  - rewrite lookup_without, bool_decide_eq_false_2; [apply Hw|]. by intros ?%prefix_nil_inv.
  - intros k c n. rewrite !lookup_without. case_bool_decide as H1; [done|]. intros Hn. rewrite bool_decide_eq_false_2; [by apply (wf_parent _ Hw) in Hn|].
    intros Hk. apply H1. by apply prefix_app_r.
Qed.

Lemma strip_nil q m : strip q [] m = m.
Proof. apply map_filter_id. intros k n _. constructor. Qed.

Lemma strip_cons q c l m : strip q (c :: l) m = strip q l (without (q ++ [c]) m).
Proof.
  unfold strip, without. rewrite map_filter_filter. apply map_filter_ext. intros k n _. cbn. rewrite Forall_cons. tauto.
Qed.

Lemma without_missing q c m : wf m -> m !! (q ++ [c]) = None -> without (q ++ [c]) m = m.
Proof.
  intros Hw Hn. apply map_filter_id. intros k n Hk Hp. cbn in Hp. destruct Hp as [l ->]. destruct l as [|d l]; [by rewrite app_nil_r, Hn in Hk|].
  pose proof (wf_ancestor _ (q ++ [c]) (d :: l) _ Hw Hk ltac:(done)) as H. by rewrite Hn in H.
Qed.

Lemma without_bad q c m : wf m -> ~ good_name c -> without (q ++ [c]) m = m.
Proof.
  intros Hw Hc. apply without_missing; [done|]. destruct (m !! (q ++ [c])) eqn:E; [|done]. by apply (wf_parent _ Hw) in E as [_ ?].
Qed.

(** No links at [q] or below it, and nothing that the process may not change or
    list; paths fit. *)
Record clear (f : fs) (q : path) : Prop := {
  clear_link k n t : q `prefix_of` k -> nodes f !! k = Some n -> kind_of n <> KLink t;
  clear_fits k n : q `prefix_of` k -> nodes f !! k = Some n -> (length (path_of k) < PATH_MAX)%nat;
  clear_open k : q `prefix_of` k -> (k ∉ locked f) /\ (k ∉ unreadable f)
}.

Lemma clear_below f q c : clear f q -> clear f (q ++ [c]).
Proof.
  intros [H1 H2 H3]. assert (forall k, (q ++ [c]) `prefix_of` k -> q `prefix_of` k) as Hp by (intros k; apply prefix_app_l).
  split; [intros k n t Hk%Hp; by apply H1|intros k n Hk%Hp; by apply H2|intros k Hk%Hp; by apply H3].
Qed.

Lemma clear_sub f q q' : clear f q -> clear (set_nodes (without q' (nodes f)) f) q.
Proof.
  intros [H1 H2 H3]. split; cbn; [intros k n t Hk Hn%without_sub; by eapply H1|intros k n Hk Hn%without_sub; by eapply H2|done].
Qed.

Lemma delete_leaf q c m : wf m -> entries m (q ++ [c]) = [] -> delete (q ++ [c]) m = without (q ++ [c]) m.
Proof.
  intros Hw He. apply map_eq. intros k. rewrite lookup_without. destruct (decide (k = q ++ [c])) as [->|Hne].
  - by rewrite lookup_delete_eq, bool_decide_eq_true_2.
  - rewrite lookup_delete_ne by done. case_bool_decide as Hp; [|done]. destruct Hp as [l ->]. destruct l as [|d l]; [by rewrite app_nil_r in Hne|].
    destruct (m !! ((q ++ [c]) ++ d :: l)) eqn:E; [|done].
    assert (is_Some (m !! ((q ++ [c]) ++ [d]))) as Hd.
    { destruct l as [|e l]; [by rewrite E|]. rewrite cons_middle, app_assoc in E. pose proof (wf_ancestor _ _ (e :: l) _ Hw E ltac:(done)) as H.
      by destruct (m !! ((q ++ [c]) ++ [d])). }
    apply elem_of_entries in Hd. rewrite He in Hd. by apply not_elem_of_nil in Hd.
Qed.

Lemma entries_file m q n : wf m -> m !! q = Some n -> kind_of n <> KDir -> entries m q = [].
Proof.
  intros Hw Hn Hk. destruct (entries m q) as [|c l] eqn:E; [done|]. assert (c ∈ entries m q) as Hc by (rewrite E; left).
  apply elem_of_entries in Hc as [x Hx]. apply (wf_parent _ Hw) in Hx as [Hx _]. rewrite Hn in Hx. cbn in Hx. congruence.
Qed.

Lemma remove_leaf f q c n :
  wf (nodes f) -> nodes f !! (q ++ [c]) = Some n -> kind_of n <> KDir -> (length (path_of (q ++ [c])) < PATH_MAX)%nat -> (q ∉ locked f) ->
  remove f (path_of (q ++ [c])) = Some (set_nodes (without (q ++ [c]) (nodes f)) f).
Proof.
  intros Hw Hn Hk Hl Hlock. destruct (wf_parent _ Hw _ _ _ Hn) as [Hq Hc]. unfold remove. rewrite place_snoc by done. cbn [mbind option_bind].
  rewrite Hn. cbn [fmap option_fmap option_map]. rewrite bool_decide_eq_false_2 by done. rewrite (delete_leaf q c) by (done || by eapply entries_file).
  by destruct (kind_of n).
Qed.

Lemma good_not_dots c : good_name c -> is_dots c = false.
Proof.
  intros (H1 & H2 & H3 & _ & H0). unfold is_dots, DOT, DOTDOT in *. destruct c as [|a [|b [|d c]]]; cbn; [done|..].
  - destruct (Z.eqb_spec a 46) as [->|]; done.
  - destruct (Z.eqb_spec a 46) as [->|]; [|done]. destruct (Z.eqb_spec b 0) as [->|]; [set_solver|]. destruct (Z.eqb_spec b 46) as [->|]; done.
  - destruct (Z.eqb_spec a 46) as [->|]; [|done]. destruct (Z.eqb_spec b 0) as [->|]; [set_solver|]. destruct (Z.eqb_spec d 0) as [->|]; [set_solver|].
    by rewrite andb_false_r.
Qed.

Lemma child_path q c : (length (path_of (q ++ [c])) < PATH_MAX)%nat -> child (path_of q) c = path_of (q ++ [c]).
Proof. intros H. unfold child, cut. rewrite <- path_snoc. apply take_ge. lia. Qed.

Lemma prefix_sibling (q : path) c d : (q ++ [c]) `prefix_of` (q ++ [d]) -> c = d.
Proof. intros [l Hl]. rewrite <- app_assoc in Hl. apply app_inv_head in Hl. by injection Hl. Qed.

Section removal_exact.

Context (shuffle : list cstr -> list cstr) (Hshuffle : forall l, shuffle l ≡ₚ l).

(** What a directory lists beside its entries is skipped. *)
Definition listed (m : gmap path node) (q : path) (l : list cstr) : Prop := Forall (fun c => (is_dots c = true /\ ~ good_name c) \/ is_Some (m !! (q ++ [c]))) l.

Lemma listed_without m q c l : listed m q l -> (c ∉ l) -> listed (without (q ++ [c]) m) q l.
Proof.
  intros Hl Hc. apply Forall_forall. intros d Hd. rewrite lookup_without. destruct (proj1 (Forall_forall _ _) Hl d Hd) as [H|H]; [by left|right].
  rewrite bool_decide_eq_false_2; [done|]. intros ->%prefix_sibling. done.
Qed.

Lemma rm_children_exact rec q l f0 f :
  (forall f' c n, wf (nodes f') -> clear f' q -> nodes f' ⊆ nodes f0 -> nodes f' !! (q ++ [c]) = Some n -> kind_of n = KDir ->
     rec f' (path_of (q ++ [c])) = Some (0, set_nodes (without (q ++ [c]) (nodes f')) f')) ->
  wf (nodes f) -> clear f q -> nodes f ⊆ nodes f0 -> NoDup l -> listed (nodes f) q l ->
  rm_children rec (path_of q) l f = Some (0, set_nodes (strip q l (nodes f)) f).
Proof.
  intros Hrec. revert f. induction l as [|c l IH]; intros f Hw Hcl Hsub Hnd Hl.
  - cbn. rewrite strip_nil. by destruct f.
  - apply NoDup_cons in Hnd as [Hc Hnd]. apply Forall_cons in Hl as [Hh Hl]. rewrite strip_cons. cbn [rm_children].
    destruct Hh as [[-> Hbad]|[n Hn]]; [by rewrite without_bad, IH|].
    destruct (wf_parent _ Hw _ _ _ Hn) as [Hq Hgood]. rewrite good_not_dots by done.
    assert (q `prefix_of` q ++ [c]) as Hp by (by eexists).
    pose proof (clear_fits _ _ Hcl _ _ Hp Hn) as Hfit. rewrite child_path by done.
    rewrite stat_snoc; try done. 2: { intros t. rewrite Hn. intros [= H]. by eapply (clear_link _ _ Hcl). }
    rewrite Hn. set (f' := set_nodes (without (q ++ [c]) (nodes f)) f).
    assert (rm_children rec (path_of q) l f' = Some (0, set_nodes (strip q l (without (q ++ [c]) (nodes f))) f)) as Hgo.
    { rewrite IH; [done| |by apply clear_sub| |done|by apply listed_without].
      - apply wf_without; [done|by destruct q].
      - transitivity (nodes f); [apply map_filter_subseteq|done]. }
    destruct (kind_of n) eqn:Ek; [|by rewrite (Hrec _ _ n)|by destruct (clear_link _ _ Hcl _ _ target Hp Hn)].
    rewrite (remove_leaf f q c n); [done|done|done|by rewrite Ek|done|by apply (clear_open _ _ Hcl)].
Qed.

Lemma NoDup_entries m q : NoDup (entries m q).
Proof.
  unfold entries. change (map fst (map_to_list m)) with ((map_to_list m).*1). pose proof (NoDup_fst_map_to_list m) as H. induction H as [|k l Hk Hl IH]; [constructor|]. cbn [omap list_omap].
  case_bool_decide as Hb; [|done]. destruct Hb as [Hne Hq]. destruct k as [|c k _] using rev_ind; [done|]. rewrite last_snoc. rewrite removelast_last in Hq. subst k.
  constructor; [|done]. intros (k & Hin & Hc)%list_elem_of_omap. case_bool_decide as Hb; [|done]. destruct Hb as [Hne' Hq]. destruct k as [|d k _] using rev_ind; [done|].
  rewrite last_snoc in Hc. injection Hc as ->. rewrite removelast_last in Hq. by subst.
Qed.

Lemma wf_strip q l m : wf m -> wf (strip q l m).
Proof. revert m. induction l as [|c l IH]; intros m Hw; [by rewrite strip_nil|]. rewrite strip_cons. apply IH, wf_without; [done|by destruct q]. Qed.

Lemma strip_above q l m : strip q l m !! q = m !! q.
Proof.
  unfold strip. rewrite map_lookup_filter. destruct (m !! q); [|done]. cbn. rewrite option_guard_True; [done|].
  apply Forall_forall. intros c _ [r Hr]. apply (f_equal length) in Hr. rewrite !length_app in Hr. cbn in Hr. lia.
Qed.

Lemma strip_entries q l m : entries m q ⊆ l -> entries (strip q l m) q = [].
Proof.
  intros Hl. destruct (entries (strip q l m) q) as [|c r] eqn:E; [done|]. assert (c ∈ entries (strip q l m) q) as Hc by (rewrite E; left).
  apply elem_of_entries in Hc as [n Hn]. apply map_lookup_filter_Some in Hn as [Hn Hf]. cbn in Hf.
  rewrite Forall_forall in Hf. destruct (Hf c); [|done]. apply Hl, elem_of_entries. by rewrite Hn.
Qed.

Lemma without_strip q l m : without q (strip q l m) = without q m.
Proof.
  unfold without, strip. rewrite map_filter_filter. apply map_filter_ext. intros k n _. cbn. split; [tauto|]. intros Hk. split; [done|].
  apply Forall_forall. intros c _ Hc. apply Hk. by eapply prefix_app_l.
Qed.

Definition names_of (m : gmap path node) (q : path) : list cstr := shuffle (DOT :: DOTDOT :: entries m q).

Lemma names_of_listed m q : wf m -> NoDup (names_of m q) /\ listed m q (names_of m q) /\ entries m q ⊆ names_of m q.
Proof using Hshuffle.
  intros Hw. unfold names_of. pose proof (Hshuffle (DOT :: DOTDOT :: entries m q)) as Hp.
  assert (forall c, c ∈ entries m q -> good_name c) as Hg by (intros c [n Hn]%elem_of_entries; by apply (wf_parent _ Hw) in Hn as [_ ?]).
  assert (~ good_name DOT) as H1 by (intros (_ & H & _); done). assert (~ good_name DOTDOT) as H2 by (intros (_ & _ & H & _); done). split_and!.
  - rewrite Hp. constructor; [|constructor; [|apply NoDup_entries]].
    + intros [?|?]%elem_of_cons; [done|]. by apply H1, Hg.
    + intros ?. by apply H2, Hg.
  - unfold listed. rewrite Hp. constructor; [by left|]. constructor; [by left|]. apply Forall_forall. intros c Hc. right. by apply elem_of_entries.
  - intros c Hc. rewrite Hp. by do 2 right.
Qed.

Lemma rmdir_empty f q c :
  wf (nodes f) -> kind_of <$> nodes f !! (q ++ [c]) = Some KDir -> entries (nodes f) (q ++ [c]) = [] -> (length (path_of (q ++ [c])) < PATH_MAX)%nat -> (q ∉ locked f) ->
  rmdir f (path_of (q ++ [c])) = Some (set_nodes (without (q ++ [c]) (nodes f)) f).
Proof.
  intros Hw Hk He Hl Hlock. destruct (nodes f !! (q ++ [c])) as [n|] eqn:En; [|done]. destruct (wf_parent _ Hw _ _ _ En) as [Hq Hc].
  unfold rmdir. rewrite place_snoc by done. cbn [mbind option_bind]. rewrite En, Hk. rewrite bool_decide_eq_true_2 by (split_and!; [done|apply Hc|done]).
  by rewrite delete_leaf.
Qed.

Lemma opendir_snoc f q c :
  wf (nodes f) -> kind_of <$> nodes f !! (q ++ [c]) = Some KDir -> (length (path_of (q ++ [c])) < PATH_MAX)%nat -> ((q ++ [c]) ∉ unreadable f) ->
  opendir shuffle f (path_of (q ++ [c])) = Some (names_of (nodes f) (q ++ [c])).
Proof.
  intros Hw Hk Hl Hu. destruct (nodes f !! (q ++ [c])) as [n|] eqn:En; [|done]. destruct (wf_parent _ Hw _ _ _ En) as [Hq Hc].
  unfold opendir. rewrite resolve_snoc by done. unfold last_step. rewrite En, Hk. cbn [mbind option_bind]. rewrite En, Hk. by rewrite bool_decide_eq_false_2.
Qed.

(** A tree without links is removed, and nothing else. *)
Lemma rm_rf_exact fuel f q c n :
  wf (nodes f) -> clear f (q ++ [c]) -> (q ∉ locked f) -> nodes f !! (q ++ [c]) = Some n ->
  (forall k x, (q ++ [c]) `prefix_of` k -> nodes f !! k = Some x -> (length k < length (q ++ [c]) + fuel)%nat) ->
  paths_rm_rf shuffle fuel f (path_of (q ++ [c])) = Some (0, set_nodes (without (q ++ [c]) (nodes f)) f).
Proof using Hshuffle.
  revert f q c n. induction fuel as [|fuel IH]; intros f q c n Hw Hcl Hlock Hn Hdepth; [specialize (Hdepth _ _ (reflexivity _) Hn); lia|].
  destruct (wf_parent _ Hw _ _ _ Hn) as [Hq Hc]. assert (forall t, kind_of n <> KLink t) as Hnl by (intros t; by eapply (clear_link _ _ Hcl)).
  pose proof (clear_fits _ _ Hcl _ _ (reflexivity _) Hn) as Hfit. cbn [paths_rm_rf].
  rewrite bool_decide_eq_false_2 by (rewrite path_snoc; by destruct (path_of q)).
  rewrite stat_snoc; try done. 2: { intros t. rewrite Hn. intros [= H]. by eapply Hnl. }
  rewrite Hn. destruct (kind_of n) eqn:Ek; [by rewrite (remove_leaf f q c n); try (rewrite Ek)| |by destruct (Hnl target)].
  assert (kind_of <$> nodes f !! (q ++ [c]) = Some KDir) as Hd by (rewrite Hn; cbn; by rewrite Ek).
  rewrite opendir_snoc; [|done..|by apply (clear_open _ _ Hcl)].
  destruct (names_of_listed (nodes f) (q ++ [c]) Hw) as (Hnd & Hlist & Hall).
  rewrite (rm_children_exact _ _ _ f); [|..|done]; try done.
  - cbn [mbind option_bind Z.eqb]. rewrite rmdir_empty; cbn [nodes set_nodes]; [by rewrite without_strip|by apply wf_strip|by rewrite strip_above|by apply strip_entries|done|done].
  - intros f' d x Hw' Hcl' Hsub Hx _. apply (IH f' (q ++ [c]) d x); [done|by apply clear_below|by apply (clear_open _ _ Hcl')|done|].
    intros k y Hk Hy. rewrite (length_app (q ++ [c])). cbn. pose proof (Hdepth k y ltac:(by eapply prefix_app_l) ltac:(by eapply lookup_weaken)). lia.
Qed.

(** An entry that is older than the cut-off and is not hidden. *)
Definition stale (m : gmap path node) (cutoff : Z) (q : path) (c : cstr) : bool :=
  negb (bool_decide (head c = Some 46)) && match m !! (q ++ [c]) with Some n => mtime n <? cutoff | None => false end.

Lemma stale_listed m cutoff q c : wf m -> ((is_dots c = true /\ ~ good_name c) \/ is_Some (m !! (q ++ [c]))) -> head c <> Some 46 -> exists n, m !! (q ++ [c]) = Some n /\ stale m cutoff q c = (mtime n <? cutoff).
Proof.
  intros Hw [[Hd _]|[n Hn]] Hh.
  - unfold is_dots in Hd. destruct c as [|a c]; [done|]. cbn in Hd. destruct (Z.eqb_spec a 46) as [->|]; done.
  - exists n. split; [done|]. unfold stale. by rewrite bool_decide_eq_false_2, Hn.
Qed.

Lemma clean_entries_exact fuel cutoff q m l room f :
  wf (nodes f) -> clear f q -> NoDup l -> listed (nodes f) q l -> (forall c, c ∈ l -> nodes f !! (q ++ [c]) = m !! (q ++ [c])) ->
  (forall k x, q `prefix_of` k -> nodes f !! k = Some x -> (length k <= length q + fuel)%nat) ->
  clean_entries shuffle fuel cutoff (path_of q) room l f = Some (set_nodes (strip q (take room (filter (fun c => stale m cutoff q c = true) l)) (nodes f)) f).
Proof using Hshuffle.
  revert room f. induction l as [|c l IH]; intros room f Hw Hcl Hnd Hl Hm Hdepth.
  { destruct room; cbn; rewrite strip_nil; by destruct f. }
  destruct room as [|room]; [cbn; rewrite strip_nil; by destruct f|].
  apply NoDup_cons in Hnd as [Hc Hnd]. apply Forall_cons in Hl as [Hh Hl]. cbn [clean_entries].
  assert (stale m cutoff q c = false -> clean_entries shuffle fuel cutoff (path_of q) (S room) l f =
    Some (set_nodes (strip q (take (S room) (filter (fun c => stale m cutoff q c = true) (c :: l))) (nodes f)) f)) as Hkeep.
  { intros Hs. rewrite filter_cons_False by congruence. apply IH; try done. intros d Hd. apply Hm. by right. }
  case_bool_decide as Hdot; [apply Hkeep; unfold stale; by rewrite bool_decide_eq_true_2|].
  destruct (stale_listed (nodes f) cutoff q c Hw Hh Hdot) as (n & Hn & Hs).
  assert (stale m cutoff q c = (mtime n <? cutoff)) as Hs' by (rewrite <- Hs; unfold stale; by rewrite (Hm c) by left).
  destruct (wf_parent _ Hw _ _ _ Hn) as [Hq Hgood]. assert (q `prefix_of` q ++ [c]) as Hp by (by eexists).
  pose proof (clear_fits _ _ Hcl _ _ Hp Hn) as Hfit. rewrite child_path by done.
  rewrite stat_snoc; try done. 2: { intros t. rewrite Hn. intros [= H]. by eapply (clear_link _ _ Hcl). }
  rewrite Hn. destruct (Z.leb_spec cutoff (mtime n)); [apply Hkeep; rewrite Hs'; lia|].
  rewrite filter_cons_True by (rewrite Hs'; lia). cbn [take]. rewrite strip_cons. set (f' := set_nodes (without (q ++ [c]) (nodes f)) f).
  assert (clean_entries shuffle fuel cutoff (path_of q) room l f' =
    Some (set_nodes (strip q (take room (filter (fun c => stale m cutoff q c = true) l)) (without (q ++ [c]) (nodes f))) f)) as Hgo.
  { rewrite IH; [done| |by apply clear_sub|done|by apply listed_without|..].
    - apply wf_without; [done|by destruct q].
    - intros d Hd. cbn. rewrite lookup_without, bool_decide_eq_false_2; [apply Hm; by right|]. intros ->%prefix_sibling. done.
    - intros k x Hk Hx%without_sub. by eapply Hdepth. }
  destruct (kind_of n) eqn:Ek; [..|by destruct (clear_link _ _ Hcl _ _ target Hp Hn)].
  - rewrite (remove_leaf f q c n); [done|done|done|by rewrite Ek|done|by apply (clear_open _ _ Hcl)].
  - rewrite (rm_rf_exact fuel f q c n); [done|done|by apply clear_below|by apply (clear_open _ _ Hcl)|done|].
    intros k x Hk Hx. rewrite length_app. cbn. pose proof (Hdepth k x ltac:(by eapply prefix_app_l) Hx). lia.
Qed.

End removal_exact.

(** What is there: its kind, and its time unless it is a directory, whose time
    changes with its entries. *)
Definition visible (n : node) : kind * option Z := (kind_of n, match kind_of n with KDir => None | _ => Some (mtime n) end).

(** C33: Where below the temporary directory no symbolic link lies, every path is
    shorter than 4096 bytes and the process can list and change every directory,
    cleaning returns and removes the entries that are not hidden and were not
    changed for seven days, with all that is below them, the first 256 in the
    order of the directory.  Every other entry is still there, hidden ones and
    younger ones and those outside, but for the times of directories, which are
    left open. *)
Theorem cleanup_exact shuffle fuel now f q c :
  (forall l, shuffle l ≡ₚ l) -> wf (nodes f) -> kind_of <$> nodes f !! (q ++ [c]) = Some KDir -> clear f (q ++ [c]) ->
  (forall k, is_Some (nodes f !! k) -> (length k <= length (q ++ [c]) + fuel)%nat) ->
  let tmp := q ++ [c] in
  let picked := take AIRY_TMP_CLEAN_CAP (filter (fun c => stale (nodes f) (now - 604800) tmp c = true) (names_of shuffle (nodes f) tmp)) in
  exists f', paths_cleanup_stale_tmp shuffle fuel now (path_of tmp) f = Some f' /\
    visible <$> nodes f' = visible <$> filter (fun kn => Forall (fun c => ~ (tmp ++ [c]) `prefix_of` kn.1) picked) (nodes f).
Proof.
  intros Hs Hw Hd Hcl Hdepth. cbv zeta. unfold paths_cleanup_stale_tmp. destruct (nodes f !! (q ++ [c])) as [n|] eqn:En; [|done].
  rewrite opendir_snoc; [|done|by rewrite En|by eapply (clear_fits _ _ Hcl)|by apply (clear_open _ _ Hcl)].
  destruct (names_of_listed shuffle Hs (nodes f) (q ++ [c]) Hw) as (Hnd & Hl & _).
  eexists. split; [apply (clean_entries_exact shuffle Hs); try done; intros k x _ Hx; apply Hdepth; by rewrite Hx|reflexivity].
Qed.

(** ** Small file systems *)

#[export] Instance kind_eq_dec : EqDecision kind.
Proof. solve_decision. Defined.

#[export] Instance good_name_dec c : Decision (good_name c).
Proof. unfold good_name. apply _. Defined.

Definition wf_bool (m : gmap path node) : bool :=
  bool_decide (kind_of <$> m !! [] = Some KDir) &&
  forallb (fun kn => match last kn.1 with None => true | Some c => bool_decide (good_name c /\ kind_of <$> m !! removelast kn.1 = Some KDir) end) (map_to_list m).

Lemma wf_bool_sound m : wf_bool m = true -> wf m.
Proof.
  unfold wf_bool. intros [H1%bool_decide_eq_true H2]%andb_true_iff. split; [done|]. intros k c n Hn.
  rewrite forallb_forall in H2. specialize (H2 (k ++ [c], n)). cbn in H2. rewrite last_snoc, removelast_last in H2.
  assert (In (k ++ [c], n) (map_to_list m)) as Hin by (by apply list_elem_of_In, elem_of_map_to_list).
  apply H2, bool_decide_eq_true in Hin as [? ?]. done.
Qed.

Definition clear_bool (f : fs) (q : path) : bool :=
  bool_decide (locked f = []) && bool_decide (unreadable f = []) &&
  forallb (fun kn => negb (bool_decide (q `prefix_of` kn.1)) || (match kind_of kn.2 with KLink _ => false | _ => true end && (length (path_of kn.1) <? PATH_MAX)%nat)) (map_to_list (nodes f)).

Lemma clear_bool_sound f q : clear_bool f q = true -> clear f q.
Proof.
  unfold clear_bool. intros [[H1%bool_decide_eq_true H2%bool_decide_eq_true]%andb_true_iff H3]%andb_true_iff. rewrite forallb_forall in H3.
  assert (forall k n, q `prefix_of` k -> nodes f !! k = Some n -> match kind_of n with KLink _ => false | _ => true end && (length (path_of k) <? PATH_MAX)%nat = true) as H.
  { intros k n Hk Hn. assert (In (k, n) (map_to_list (nodes f))) as Hin by (by apply list_elem_of_In, elem_of_map_to_list). specialize (H3 _ Hin). cbn [fst snd] in H3. by rewrite bool_decide_eq_true_2 in H3. }
  split.
  - intros k n t Hk Hn. specialize (H k n Hk Hn). by destruct (kind_of n).
  - intros k n Hk Hn. specialize (H k n Hk Hn). apply andb_true_iff in H as [_ H]. by apply Nat.ltb_lt.
  - intros k _. rewrite H1, H2. split; apply not_elem_of_nil.
Qed.

Definition small_fs (l : list (path * node)) : fs := Fs (list_to_map l) [] [] [].

(** A temporary directory with an old tree, a young file and a hidden one. *)
Definition sample : fs :=
  small_fs [([], Node KDir 0); ([cs "t"], Node KDir 0); ([cs "t"; cs "a"], Node KDir 5); ([cs "t"; cs "a"; cs "x"], Node KFile 700000);
    ([cs "t"; cs "b"], Node KFile 700000); ([cs "t"; cs ".h"], Node KFile 0); ([cs "u"], Node KFile 0)].

Lemma cleanup_exact_witness :
  exists f', paths_cleanup_stale_tmp reverse 3 700001 (cs "/t") sample = Some f' /\
    visible <$> nodes f' = visible <$> nodes (small_fs [([], Node KDir 0); ([cs "t"], Node KDir 0); ([cs "t"; cs "b"], Node KFile 700000); ([cs "t"; cs ".h"], Node KFile 0); ([cs "u"], Node KFile 0)]).
Proof.
  assert (forall k, is_Some (nodes sample !! k) -> (length k <= 1 + 3)%nat) as Hd.
  { intros k [n Hn%elem_of_list_to_map_2]. revert Hn. cbn. rewrite !elem_of_cons, elem_of_nil. intros Hn. repeat destruct Hn as [[= -> ->]|Hn]; cbn; lia || done. }
  assert (wf (nodes sample)) as Hw by (apply wf_bool_sound; vm_compute; reflexivity).
  assert (clear sample [cs "t"]) as Hc by (apply clear_bool_sound; vm_compute; reflexivity).
  change (cs "/t") with (path_of ([] ++ [cs "t"])).
  destruct (cleanup_exact reverse 3 700001 sample [] (cs "t") reverse_Permutation Hw eq_refl Hc Hd) as (f' & Hf & Hv).
  exists f'. split; [exact Hf|]. rewrite Hv. vm_compute. reflexivity.
Defined.

(** A link in the temporary directory that leads to a directory that was not
    changed for seven days: what is in that directory is removed, and the link
    stays. *)
Lemma stale_link_followed :
  let f := small_fs [([], Node KDir 0); ([cs "t"], Node KDir 0); ([cs "t"; cs "l"], Node (KLink (cs "/h")) 700000); ([cs "h"], Node KDir 5); ([cs "h"; cs "f"], Node KFile 700000)] in
  (fun f => (nodes f !! [cs "h"; cs "f"], nodes f !! [cs "t"; cs "l"])) <$> paths_cleanup_stale_tmp id 5 700001 (cs "/t") f =
  Some (None, Some (Node (KLink (cs "/h")) 700000)).
Proof. vm_compute. reflexivity. Qed.

(** A link that leads nowhere is skipped, so that the tree it is in cannot be
    removed. *)
Lemma dangling_link_stops :
  let f := small_fs [([], Node KDir 0); ([cs "a"], Node KDir 0); ([cs "a"; cs "l"], Node (KLink (cs "/no")) 0)] in
  paths_rm_rf id 5 f (cs "/a") = Some (-1, f).
Proof. vm_compute. reflexivity. Qed.

(** Creating a directory succeeds where a file has its name. *)
Lemma file_accepted : let f := small_fs [([], Node KDir 0); ([cs "x"], Node KFile 0)] in paths_mkdir_p f (Some (cs "/x")) = (AIRY_SUCCESS, f).
Proof. vm_compute. reflexivity. Qed.

(** A backslash in a name is a byte like others to the system, and a separator
    to the code: two directories are made, and the one that was asked for is not
    there. *)
Lemma backslash_splits :
  let '(rc, f) := paths_mkdir_p (small_fs [([], Node KDir 0)]) (Some (cs "/a\b")) in
  rc = AIRY_SUCCESS /\ stat f (cs "/a\b") = None /\ stat f (cs "/a/b") = Some (Node KDir 0).
Proof. vm_compute. done. Qed.

(** ** Creating a path *)

Definition make1 (k : path) (m : gmap path node) : gmap path node := match m !! k with None => <[k := Node KDir 0]> m | Some _ => m end.

Fixpoint fill (pre l : path) (m : gmap path node) : gmap path node := match l with [] => m | c :: l' => fill (pre ++ [c]) l' (make1 (pre ++ [c]) m) end.

Lemma make1_sub k m : m ⊆ make1 k m.
Proof. unfold make1. destruct (m !! k) eqn:E; [done|]. by apply insert_subseteq. Qed.

Lemma make1_dir k m : (forall n, m !! k = Some n -> kind_of n = KDir) -> kind_of <$> make1 k m !! k = Some KDir.
Proof. unfold make1. destruct (m !! k) as [n|] eqn:E; intros H; [rewrite E; cbn; by rewrite (H n)|by rewrite lookup_insert_eq]. Qed.

Lemma make1_other k m k' n : make1 k m !! k' = Some n -> m !! k' = Some n \/ (k' = k /\ n = Node KDir 0).
Proof.
  unfold make1. destruct (m !! k) eqn:E; [by left|]. destruct (decide (k = k')) as [<-|]; [rewrite lookup_insert_eq; intros [= <-]; by right|].
  rewrite lookup_insert_ne by done. by left.
Qed.

Lemma wf_make1 q c m : wf m -> kind_of <$> m !! q = Some KDir -> good_name c -> wf (make1 (q ++ [c]) m).
Proof.
  intros Hw Hq Hc. split.
  - pose proof (wf_root _ Hw) as H. destruct (m !! []) eqn:E; [|done]. by rewrite (lookup_weaken _ _ _ _ E (make1_sub _ _)).
  - intros k d n Hn. assert (kind_of <$> m !! k = Some KDir /\ good_name d) as [Hk Hd].
    { apply make1_other in Hn as [Hn|[HE _]]; [by apply (wf_parent _ Hw) in Hn|]. apply app_inj_tail in HE as [-> ->]. done. }
    split; [|done]. destruct (m !! k) eqn:E; [|done]. by rewrite (lookup_weaken _ _ _ _ E (make1_sub _ _)).
Qed.

Lemma mkdir_snoc f q c :
  wf (nodes f) -> kind_of <$> nodes f !! q = Some KDir -> good_name c -> (length (path_of (q ++ [c])) < PATH_MAX)%nat -> (q ∉ locked f) ->
  mkdir_quiet f (path_of (q ++ [c])) = set_nodes (make1 (q ++ [c]) (nodes f)) f /\ mkdir f (path_of (q ++ [c])) <> Failed.
Proof.
  intros Hw Hq Hc Hl Hlock. unfold mkdir_quiet, mkdir, make1. rewrite place_snoc by done. rewrite bool_decide_eq_false_2 by apply Hc.
  destruct (nodes f !! (q ++ [c])); [split; [by destruct f|done]|]. by rewrite bool_decide_eq_false_2.
Qed.

Lemma mkdir_each_name f pre c r : Forall (fun b => is_sep b = false) c -> mkdir_each f pre (c ++ r) = mkdir_each f (pre ++ c) r.
Proof.
  intros Hc. revert pre. induction Hc as [|b c Hb _ IH]; intros pre; [by rewrite app_nil_r|]. cbn [app mkdir_each]. rewrite Hb, IH, <- app_assoc. done.
Qed.

Definition plain_name (c : cstr) : Prop := good_name c /\ Forall (fun b => is_sep b = false) c.

Lemma path_of_app l1 l2 : path_of (l1 ++ l2) = path_of l1 ++ path_of l2.
Proof. unfold path_of. by rewrite map_app, concat_app. Qed.

(** Nothing on the way to [q] from [pre] is a file, a link or may not be changed. *)
Definition free_way (f : fs) (pre q : path) : Prop :=
  forall l1 l2, q = l1 ++ l2 -> ((pre ++ l1) ∉ locked f) /\ (forall n, nodes f !! (pre ++ l1) = Some n -> kind_of n = KDir).

Definition mkdir_end (r : fs * cstr) : Z * fs :=
  match mkdir r.1 r.2 with Made f => (AIRY_SUCCESS, f) | Exists => (AIRY_SUCCESS, r.1) | Failed => (AIRY_ERR_SYS_FILE, r.1) end.

Lemma mkdir_end_quiet f p : mkdir f p <> Failed -> mkdir_end (f, p) = (AIRY_SUCCESS, mkdir_quiet f p).
Proof. unfold mkdir_end, mkdir_quiet. cbn. by destruct (mkdir f p). Qed.

Lemma mkdir_way f pre c l :
  wf (nodes f) -> kind_of <$> nodes f !! pre = Some KDir -> Forall plain_name (c :: l) -> free_way f pre (c :: l) -> (length (path_of (pre ++ c :: l)) < PATH_MAX)%nat ->
  mkdir_end (mkdir_each f (path_of (pre ++ [c])) (path_of l)) = (AIRY_SUCCESS, set_nodes (fill pre (c :: l) (nodes f)) f).
Proof.
  revert f pre c. induction l as [|d l IH]; intros f pre c Hw Hp Hg Hfree Hl; apply Forall_cons in Hg as [[Hc _] Hg].
  - destruct (Hfree [] [c] eq_refl) as [Hlock _]. rewrite app_nil_r in Hlock.
    destruct (mkdir_snoc f pre c Hw Hp Hc Hl Hlock) as [Hq Hf]. cbn [path_of map concat mkdir_each]. by rewrite mkdir_end_quiet, Hq.
  - destruct (Hfree [] (c :: d :: l) eq_refl) as [Hlock _]. rewrite app_nil_r in Hlock. destruct (Hfree [c] (d :: l) eq_refl) as [_ Hdir].
    assert (length (path_of (pre ++ [c])) < PATH_MAX)%nat as Hl1.
    { rewrite cons_middle, app_assoc, path_of_app, length_app in Hl. lia. }
    destruct (mkdir_snoc f pre c Hw Hp Hc Hl1 Hlock) as [Hq _].
    change (path_of (d :: l)) with (47 :: d ++ path_of l). cbn [mkdir_each is_sep Z.eqb Pos.eqb orb]. rewrite Hq.
    rewrite mkdir_each_name by (by apply Forall_cons in Hg as [[_ ?] _]). rewrite <- app_assoc, <- path_snoc.
    rewrite (IH (set_nodes (make1 (pre ++ [c]) (nodes f)) f) (pre ++ [c]) d); [done|by apply wf_make1|by apply make1_dir|done| |by rewrite <- app_assoc].
    intros l1 l2 HE. rewrite <- app_assoc. destruct (Hfree (c :: l1) l2 ltac:(cbn; by rewrite HE)) as [H1 H2]. split; [done|]. cbn.
    intros n [Hn|[_ ->]]%make1_other; [by apply H2|done].
Qed.

Lemma strip_seps_path q : Forall plain_name q -> q <> [] -> strip_seps (path_of q) = path_of q.
Proof.
  intros Hg Hq. destruct q as [|c q _] using rev_ind; [done|]. apply Forall_app in Hg as [_ [[(Hne & _) Hs] _]%Forall_cons].
  destruct c as [|x c _] using rev_ind; [done|]. apply Forall_app in Hs as [_ [Hx _]%Forall_cons].
  rewrite path_snoc. replace (path_of q ++ [47] ++ c ++ [x]) with ((path_of q ++ 47 :: c) ++ [x]) by (by rewrite <- app_assoc).
  destruct (path_of q ++ 47 :: c) as [|y r] eqn:E; [by destruct (path_of q)|]. cbn [app strip_seps]. f_equal. rewrite foldr_app. cbn. rewrite Hx.
  clear. induction r as [|z r IH]; [done|]. cbn. rewrite IH. by destruct r.
Qed.

Lemma fill_exact pre l m :
  (forall l1 l2, l = l1 ++ l2 -> forall n, m !! (pre ++ l1) = Some n -> kind_of n = KDir) ->
  m ⊆ fill pre l m /\ (forall l1 l2, l = l1 ++ l2 -> l1 <> [] -> kind_of <$> fill pre l m !! (pre ++ l1) = Some KDir) /\
  (forall k n, fill pre l m !! k = Some n -> m !! k = Some n \/ (k `prefix_of` (pre ++ l) /\ n = Node KDir 0)).
Proof.
  revert pre m. induction l as [|c l IH]; intros pre m Hd; cbn [fill].
  { split_and!; [done|intros [] [] [=]; done|by left]. }
  destruct (IH (pre ++ [c]) (make1 (pre ++ [c]) m)) as (H1 & H2 & H3).
  { intros l1 l2 -> n. rewrite <- app_assoc. intros [Hn|[_ ->]]%make1_other; [|done]. by eapply (Hd (c :: l1)). }
  split_and!.
  - etransitivity; [apply make1_sub|done].
  - intros [|x l1] l2 HE Hne; [done|]. injection HE as <- ->. destruct l1 as [|y l1].
    + pose proof (make1_dir (pre ++ [c]) m (Hd [c] l2 eq_refl)) as Hk. destruct (make1 (pre ++ [c]) m !! (pre ++ [c])) eqn:E; [|done].
      by rewrite (lookup_weaken _ _ _ _ E H1).
    + rewrite (cons_middle c pre), app_assoc. by apply (H2 (y :: l1) l2).
  - intros k n Hn. apply H3 in Hn as [[Hn|[-> ->]]%make1_other|[Hk ->]]; [by left| |].
    + right. split; [|done]. rewrite (cons_middle c pre l), app_assoc. by eexists.
    + right. split; [|done]. by rewrite (cons_middle c pre l), app_assoc.
Qed.

(** A path whose names are plain is created with all directories on the way, and
    nothing else changes, where no file or link is in the way and the process
    may write. *)
Theorem mkdir_p_makes f q :
  q <> [] -> Forall plain_name q -> wf (nodes f) -> free_way f [] q -> (length (path_of q) < PATH_MAX)%nat ->
  exists f', paths_mkdir_p f (Some (path_of q)) = (AIRY_SUCCESS, f') /\ nodes f ⊆ nodes f' /\
    (forall l1 l2, q = l1 ++ l2 -> kind_of <$> nodes f' !! l1 = Some KDir) /\
    (forall k n, nodes f' !! k = Some n -> nodes f !! k = Some n \/ (k `prefix_of` q /\ n = Node KDir 0)).
Proof.
  intros Hq Hg Hw Hfree Hl. exists (set_nodes (fill [] q (nodes f)) f).
  destruct (fill_exact [] q (nodes f)) as (H1 & H2 & H3); [intros l1 l2 HE; by apply (Hfree l1 l2)|]. split; [|split_and!; cbn].
  - unfold paths_mkdir_p, cut. rewrite take_ge by lia. rewrite strip_seps_path by done. destruct q as [|c q]; [done|].
    change (path_of (c :: q)) with (47 :: c ++ path_of q). cbn [app]. pose proof (mkdir_way f [] c q Hw (wf_root _ Hw) Hg Hfree Hl) as H.
    rewrite mkdir_each_name by (by apply Forall_cons in Hg as [[_ ?] _]). replace ([47] ++ c) with (path_of ([] ++ [c])) by (cbn; by rewrite app_nil_r).
    destruct (mkdir_each f (path_of ([] ++ [c])) (path_of q)) as [f' tmp]. exact H.
  - done.
  - intros [|c l1] l2 HE; [|by apply (H2 (c :: l1) l2)]. pose proof (wf_root _ Hw) as Hr. destruct (nodes f !! []) eqn:E; [|done].
    by rewrite (lookup_weaken _ _ _ _ E H1).
  - apply H3.
Qed.

(** ** The environment of child processes *)

Lemma cut_id s : (length s < PATH_MAX)%nat -> cut s = s.
Proof. intros H. apply take_ge. lia. Qed.

Lemma cut_length s : (length (cut s) < PATH_MAX)%nat.
Proof. unfold cut. rewrite length_take. assert (0 < PATH_MAX)%nat by (vm_compute; lia). lia. Qed.

Definition trim (r : cstr) : cstr := foldr (fun d r => match r with [] => if is_sep d then [] else [d] | _ => d :: r end) [] r.

Lemma trim_idem r : trim (trim r) = trim r.
Proof.
  induction r as [|d r IH]; [done|]. unfold trim in *. cbn [foldr]. destruct (foldr _ [] r) as [|e r'] eqn:E.
  - destruct (is_sep d) eqn:Hd; [done|]. cbn. by rewrite Hd.
  - cbn [foldr] in *. by rewrite IH.
Qed.

Lemma trim_length r : (length (trim r) <= length r)%nat.
Proof. induction r as [|d r IH]; [done|]. unfold trim in *. cbn [foldr]. destruct (foldr _ [] r) as [|e r'] eqn:E; [destruct (is_sep d); cbn; lia|]. cbn in *. lia. Qed.

Lemma strip_seps_idem s : strip_seps (strip_seps s) = strip_seps s.
Proof. destruct s as [|c s]; [done|]. cbn [strip_seps]. f_equal. apply trim_idem. Qed.

Lemma strip_seps_length s : (length (strip_seps s) <= length s)%nat.
Proof. destruct s as [|c s]; [done|]. cbn. pose proof (trim_length s). unfold trim in H. lia. Qed.

Lemma strip_seps_word s x : is_sep x = false -> strip_seps (s ++ [x]) = s ++ [x].
Proof.
  intros Hx. destruct s as [|c s]; [done|]. cbn [app strip_seps]. f_equal. rewrite foldr_app. cbn. rewrite Hx.
  clear. induction s as [|z r IH]; [done|]. cbn. rewrite IH. by destruct r.
Qed.

(** A process that is started with the environment that [airy_paths_init] leaves
    resolves the same directories, wherever its own executable is. *)
Theorem dirs_inherited w exe :
  let d := paths_ensure_resolved w None in
  g_home_dir d <> [] -> (length (g_home_dir d) + 4 < PATH_MAX)%nat ->
  paths_ensure_resolved (World (getenv (export_dirs d w)) exe (content w)) None = d.
Proof.
  cbn [paths_ensure_resolved]. cbv zeta. unfold paths_ensure_resolved. set (h := resolve_home w). cbn [paths_resolve_all g_home_dir]. intros Hh Hl.
  set (w' := World _ exe _).
  assert (getenv w' (cs "AIRY_HOME") = Some h) as He by reflexivity.
  assert (getenv w' (cs "AIRY_RUNTIME_DIR") = Some (paths_resolve_run w h)) as Hr by reflexivity. clearbody w'.
  assert (resolve_home w' = h) as ->. { unfold resolve_home. rewrite He. destruct h; [done|]. apply cut_id. lia. }
  unfold paths_resolve_all. f_equal. unfold paths_resolve_run at 1. rewrite Hr.
  assert (paths_resolve_run w h <> [] /\ strip_seps (cut (paths_resolve_run w h)) = paths_resolve_run w h) as [Hne Hs].
  { unfold paths_resolve_run. assert (paths_resolve_one h AIRY_HOME_SUBDIR_RUN = (h ++ cs "/ru") ++ cs "n") as Hd.
    { unfold paths_resolve_one. cbn [AIRY_HOME_SUBDIR_RUN cs]. rewrite cut_id; [by rewrite <- app_assoc|]. rewrite length_app. cbn. lia. }
    assert (paths_resolve_one h AIRY_HOME_SUBDIR_RUN <> [] /\ strip_seps (cut (paths_resolve_one h AIRY_HOME_SUBDIR_RUN)) = paths_resolve_one h AIRY_HOME_SUBDIR_RUN) as Hdef.
    { rewrite Hd. split; [by destruct h|]. rewrite cut_id; [by apply strip_seps_word|]. rewrite !length_app. cbn. lia. }
    destruct (getenv w (cs "AIRY_RUNTIME_DIR")) as [[|c r]|]; [done| |done]. pose proof (cut_length (c :: r)) as Hc.
    rewrite (cut_id (strip_seps _)) by (pose proof (strip_seps_length (cut (c :: r))); lia). rewrite strip_seps_idem. split; [|done].
    destruct (cut (c :: r)) eqn:E; [|done]. exfalso. apply (f_equal length) in E. unfold cut in E. rewrite length_take in E. cbn in E. assert (2 < PATH_MAX)%nat by (vm_compute; lia). lia. }
  destruct (paths_resolve_run w h); [done|]. exact Hs.
Qed.

Lemma before_last_here (b : Z -> bool) l x r : b x = true -> Forall (fun c => b c = false) r -> before_last b (l ++ x :: r) = Some l.
Proof.
  intros Hx Hr. induction l as [|c l IH]; cbn [app before_last]; [|by rewrite IH].
  assert (before_last b r = None) as ->; [|by rewrite Hx]. induction Hr as [|c r Hc _ IH]; [done|]. cbn. by rewrite IH, Hc.
Qed.

Lemma chomp_line_nl s : last s <> Some 10 -> last s <> Some 13 -> chomp_line (s ++ [10]) = s.
Proof.
  intros H1 H2. unfold chomp_line. rewrite foldr_app. cbn. destruct s as [|x s _] using rev_ind; [done|]. rewrite last_snoc in H1, H2. rewrite foldr_app. cbn.
  destruct (Z.eqb_spec x 10) as [->|]; [done|]. destruct (Z.eqb_spec x 13) as [->|]; [done|]. cbn.
  clear. induction s as [|z r IH]; [done|]. cbn. rewrite IH. by destruct r.
Qed.

Lemma c_str_plain s : (0 ∉ s) -> c_str s = s.
Proof. intros H. apply c_str_whole, Forall_forall. intros c Hc ->. done. Qed.

(** The line that the installer writes is read back. *)
Lemma install_line_read home out size :
  home <> [] -> (0 ∉ home) -> (10 ∉ home) -> last home <> Some 13 -> head home <> Some 34 -> (length home < 500)%nat -> (length home < size)%nat ->
  install_lines (length (cs "AIRY_HOME=" ++ home ++ [10])) out (cs "AIRY_HOME=" ++ home ++ [10]) size = Some home.
Proof.
  intros Hne H0 H10 H13 H34 Hl Hs. rewrite app_assoc, length_app. cbn [length]. rewrite Nat.add_1_r. cbn [install_lines].
  rewrite (fgets_line 511 (cs "AIRY_HOME=" ++ home) []).
  2: { rewrite not_elem_of_app. split; [by apply (bool_decide_unpack _)|done]. }
  2: { rewrite length_app. change (length (cs "AIRY_HOME=")) with 10%nat. lia. }
  rewrite c_str_plain. 2: { rewrite !not_elem_of_app. split_and!; [by apply (bool_decide_unpack _)|done|by apply (bool_decide_unpack _)]. }
  change (take 10 ((cs "AIRY_HOME=" ++ home) ++ [10])) with (cs "AIRY_HOME="). rewrite bool_decide_eq_true_2 by done.
  assert (last (cs "AIRY_HOME=" ++ home) = last home) as Hlast by (destruct home as [|x h _] using rev_ind; [done|]; by rewrite app_assoc, !last_snoc).
  rewrite chomp_line_nl; rewrite ?Hlast; [|intros H%last_Some_elem_of; done|done].
  change (drop 10 (cs "AIRY_HOME=" ++ home)) with home. unfold unquote. rewrite (bool_decide_eq_false_2 (head home = Some 34)) by done. rewrite andb_false_r. cbn [andb].
  destruct home; [done|]. cbn [app cs length] in *. by rewrite (proj2 (Nat.ltb_lt _ _) Hs).
Qed.

Lemma walkup_installed depth home w :
  home <> [] -> (0 ∉ home) -> (10 ∉ home) -> last home <> Some 13 -> head home <> Some 34 -> (length home < 500)%nat ->
  content w (home ++ cs "/bin/config/install.env") = None -> content w (home ++ cs "/config/install.env") = Some (cs "AIRY_HOME=" ++ home ++ [10]) ->
  walkup (S (S depth)) w (home ++ cs "/bin") [] PATH_MAX = Some home.
Proof.
  intros Hne H0 H10 H13 H34 Hl Hc1 Hc2. assert (PATH_MAX = 4096%nat) as Hmax by (vm_compute; reflexivity). cbn [walkup]. unfold paths_read_install_home.
  replace ((home ++ cs "/bin") ++ cs "/config/install.env") with (home ++ cs "/bin/config/install.env") by (by rewrite <- app_assoc).
  rewrite (take_ge (home ++ cs "/bin/config/install.env")) by (rewrite length_app; change (length (cs "/bin/config/install.env")) with 23%nat; lia). rewrite Hc1. cbn [mbind option_bind].
  change (home ++ cs "/bin") with (home ++ 47 :: cs "bin"). rewrite (before_last_here is_sep home 47 (cs "bin")) by (done || by apply (bool_decide_unpack _)). destruct home as [|x home]; [done|].
  rewrite (take_ge ((x :: home) ++ cs "/config/install.env")) by (rewrite length_app; change (length (cs "/config/install.env")) with 19%nat; lia).
  rewrite Hc2. cbn [mbind option_bind]. rewrite install_line_read by (done || lia). done.
Qed.

(** An installation with its file and a program in its directory of programs is
    found by the program. *)
Theorem installed_home_found home name w :
  getenv w (cs "AIRY_HOME") = None -> self_exe w = Some (home ++ cs "/bin/" ++ name) ->
  (47 ∉ name) -> home <> [] -> (0 ∉ home) -> (10 ∉ home) -> last home <> Some 13 -> head home <> Some 34 -> (length home < 500)%nat -> (length name < 256)%nat ->
  content w (home ++ cs "/bin/config/install.env") = None -> content w (home ++ cs "/config/install.env") = Some (cs "AIRY_HOME=" ++ home ++ [10]) ->
  resolve_home w = home.
Proof.
  intros Hh He Hname Hne H0 H10 H13 H34 Hl Hn Hc1 Hc2. unfold resolve_home, paths_discover_install_home, paths_walkup_install_home, paths_self_dir. rewrite Hh, He.
  cbn [mbind option_bind]. assert (PATH_MAX = 4096%nat) as Hmax by (vm_compute; reflexivity).
  rewrite take_ge by (rewrite !length_app; change (length (cs "/bin/")) with 5%nat; lia).
  replace (home ++ cs "/bin/" ++ name) with ((home ++ cs "/bin") ++ 47 :: name) by (by rewrite <- app_assoc).
  destruct ((home ++ cs "/bin") ++ 47 :: name) eqn:E; [by destruct home|]. rewrite <- E. clear E.
  rewrite before_last_here by (done || (apply Forall_forall; intros c Hc; apply Z.eqb_neq; congruence)). cbn [mbind option_bind].
  destruct (home ++ cs "/bin") eqn:E; [by destruct home|]. rewrite <- E. clear E. rewrite (proj2 (Nat.ltb_lt _ _)) by (rewrite length_app; change (length (cs "/bin")) with 4%nat; lia).
  change (Some ?x ≫= ?k) with (k x). cbv beta. rewrite (walkup_installed 4) by done. done.
Qed.

(** A file whose line has no value, or one that does not fit, counts as found
    and leaves the root empty: every directory is then one of the system's. *)
Lemma empty_install_home w :
  getenv w (cs "AIRY_HOME") = None -> getenv w (cs "AIRY_RUNTIME_DIR") = None -> self_exe w = Some (cs "/opt/bin/x") ->
  content w (cs "/opt/bin/config/install.env") = None -> content w (cs "/opt/config/install.env") = Some (cs "AIRY_HOME=" ++ [10]) ->
  let d := paths_ensure_resolved w None in g_home_dir d = [] /\ g_bin_dir d = cs "/bin" /\ g_tmp_dir d = cs "/data/agentrt/tmp".
Proof.
  intros Hh Hr He H1 H2. unfold paths_ensure_resolved. assert (resolve_home w = []) as ->.
  { unfold resolve_home, paths_discover_install_home, paths_walkup_install_home, paths_self_dir. rewrite Hh, He.
    change (take (PATH_MAX - 1) (cs "/opt/bin/x")) with (cs "/opt/bin/x"). cbn [mbind option_bind cs before_last].
    vm_compute in H1, H2 |- *. rewrite H1, H2. reflexivity. }
  by vm_compute.
Qed.
