(* ===== verification/Process.v ===== *)
(** * Processes: platform/src/platform_process.c and platform_pipe.c

    Starting a child with pipes, waiting for it, and running a command with its
    output captured, on POSIX.  The pipes, the child's end and the readiness of
    descriptors are what the system gives and arguments of the operations. *)
From stdpp Require Import gmap list.
From S2P Require Import Prelude ErrCodes.

Definition AIRY_PROCESS_RC_CANCELED : Z := -3.

(** [-1] is a descriptor that is closed. *)
Record airy_process_info_t := Proc { pid : Z; stdin_fd : Z; stdout_fd : Z; stderr_fd : Z }.

Record airy_process_opt_t := Opt { redirect_stdin : bool; redirect_stdout : bool; redirect_stderr : bool }.

(** ** Pipes; [o]: the descriptors that the process has open *)

Definition close (fd : Z) (o : gset Z) : gset Z := o ∖ {[fd]}.

Definition airy_pipe_close (fd : Z) (o : gset Z) : Z * gset Z := if 0 <=? fd then (-1, close fd o) else (fd, o).

(** [p]: the two descriptors that the system gives. *)
Definition airy_pipe_create (p : option (Z * Z)) (o : gset Z) : option (Z * Z * gset Z) :=
  match p with Some (r, w) => Some (r, w, o ∪ {[r; w]}) | None => None end.

Definition pipe_pair_close (fds : Z * Z) (o : gset Z) : gset Z := (airy_pipe_close fds.2 (airy_pipe_close fds.1 o).2).2.

(** What the system answers to the calls of one [airy_process_spawn]. *)
Record answers := Answers { in_pipe : option (Z * Z); out_pipe : option (Z * Z); err_pipe : option (Z * Z); fork : option Z }.

Definition no_pipe : Z * Z := (-1, -1).

(** A pipe that is asked for or not; [None] when it cannot be made. *)
Definition want_pipe (wanted : bool) (p : option (Z * Z)) (o : gset Z) : option (Z * Z * gset Z) :=
  if wanted then airy_pipe_create p o else Some (no_pipe, o).

Definition fresh_proc : airy_process_info_t := Proc 0 (-1) (-1) (-1).

Definition spawn_fail (i out err : Z * Z) (o : gset Z) : Z * airy_process_info_t * gset Z :=
  (AIRY_ERR_IO, fresh_proc, pipe_pair_close err (pipe_pair_close out (pipe_pair_close i o))).

Definition opt_or (opt : option airy_process_opt_t) (f : airy_process_opt_t -> bool) : bool := match opt with Some x => f x | None => false end.

Definition airy_process_spawn (args : bool) (opt : option airy_process_opt_t) (a : answers) (proc : airy_process_info_t) (o : gset Z) : Z * airy_process_info_t * gset Z :=
  if negb args then (AIRY_EINVAL, proc, o)
  else
    match want_pipe (opt_or opt redirect_stdin) (in_pipe a) o with
    | None => (AIRY_ERR_IO, fresh_proc, o)
    | Some (i, o) =>
        match want_pipe (opt_or opt redirect_stdout) (out_pipe a) o with
        | None => spawn_fail i no_pipe no_pipe o
        | Some (out, o) =>
            match want_pipe (opt_or opt redirect_stderr) (err_pipe a) o with
            | None => spawn_fail i out no_pipe o
            | Some (err, o) =>
                match fork a with
                | None => spawn_fail i out err o
                | Some p =>
                    let o := (airy_pipe_close i.1 o).2 in
                    let o := (airy_pipe_close out.2 o).2 in
                    let o := (airy_pipe_close err.2 o).2 in
                    (0, Proc p i.2 out.1 err.1, o)
                end
            end
        end
    end.

Definition airy_process_start (args : bool) (a : answers) (proc : airy_process_info_t) (o : gset Z) : Z * airy_process_info_t * gset Z :=
  airy_process_spawn args (Some (Opt false true true)) a proc o.

Definition airy_process_close_pipes (p : airy_process_info_t) (o : gset Z) : airy_process_info_t * gset Z :=
  let o := if 0 <=? stdout_fd p then close (stdout_fd p) o else o in
  let o := if 0 <=? stderr_fd p then close (stderr_fd p) o else o in
  let o := if 0 <=? stdin_fd p then close (stdin_fd p) o else o in
  (Proc (pid p) (if 0 <=? stdin_fd p then -1 else stdin_fd p) (if 0 <=? stdout_fd p then -1 else stdout_fd p) (if 0 <=? stderr_fd p then -1 else stderr_fd p), o).

(** ** The end of a child *)

Inductive wstatus := Exited (code : Z) | Signaled (sig : Z) | Stopped.

(** What is stored for a status, [old] when it is neither of the two. *)
Definition decode (st : wstatus) (old : Z) : Z := match st with Exited c => c | Signaled s => - s | Stopped => old end.

(** [ends]: the time and status of the child's end, [None] when there is no such
    child; [sleeps]: the times at which signals end a sleep before its time. *)
Fixpoint wait_loop (ends : option (Z * wstatus)) (deadline now : Z) (sleeps : list Z) : option wstatus * Z * bool :=
  match ends with
  | None => (None, now, false)
  | Some (t, st) =>
      if t <=? now then (Some st, now, true)
      else if deadline <=? now then (None, now, true)
      else
        match sleeps with
        | s :: sleeps' => wait_loop ends deadline (Z.min deadline (Z.max now s)) sleeps'
        | [] => if t <=? deadline then (Some st, deadline, true) else (None, deadline, true)
        end
  end.

(** The result, the code and the time of return. *)
Definition airy_process_wait (ends : option (Z * wstatus)) (timeout now : Z) (sleeps : list Z) (code : Z) : Z * Z * Z :=
  if timeout =? 0 then
    match ends with None => (AIRY_EINVAL, code, now) | Some (t, st) => (0, decode st code, Z.max now t) end
  else
    match wait_loop ends (now + timeout) now sleeps with
    | (Some st, t, _) => (0, decode st code, t)
    | (None, t, true) => (AIRY_ERR_TIMEOUT, code, t)
    | (None, t, false) => (AIRY_EINVAL, code, t)
    end.

Record airy_exit_status_t := ExitStatus { code : Z; signaled : bool; signal : Z }.

(** [st]: what [waitpid] gives once no signal interrupts it. *)
Definition airy_process_reap (p : airy_process_info_t) (st : option wstatus) : Z * option airy_exit_status_t * airy_process_info_t :=
  if pid p <? 0 then (AIRY_EINVAL, None, p)
  else
    match st with
    | None => (AIRY_EINVAL, None, p)
    | Some s =>
        (0, Some (match s with Exited c => ExitStatus c false 0 | Signaled n => ExitStatus 0 true n | Stopped => ExitStatus 0 false 0 end),
          Proc (-1) (stdin_fd p) (stdout_fd p) (stderr_fd p))
    end.

(** ** Captured output *)

(** The buffer of the caller, [None] when there is none. *)
Definition cap_copy (dst : option (list Z)) (cap off : nat) (src : list Z) : option (list Z) * nat :=
  match dst with
  | None => (dst, off)
  | Some m =>
      if (cap =? 0)%nat || (cap <=? off + 1)%nat then (dst, off)
      else let n := Nat.min (length src) (cap - 1 - off) in (Some (take off m ++ take n src ++ drop (off + n) m), (off + n)%nat)
  end.

Definition cap_seal (dst : option (list Z)) (cap off : nat) : option (list Z) :=
  match dst with Some m => if (0 <? cap)%nat then Some (<[off := 0]> m) else dst | None => dst end.

(** A pipe that is read: its descriptor and the pieces that the reads of it give
    before its end. *)
Record stream := Stream { fd : Z; pieces : list (list Z) }.

(** The state of a run: the pipes, the open descriptors, the buffer with the
    number of bytes in it, the flags of the call, how often the child was killed
    and waited for, and the bytes that were read. *)
Record capture := Capture {
  out : stream; err : stream; fds : gset Z; output : option (list Z); offset : nat; timed_out : bool; status : Z; kills : nat; reaps : nat; taken : list Z
}.

(** [taken]: the bytes that were read, in order. *)
Definition posix_take (s : stream) (fds : gset Z) (m : option (list Z)) (cap off : nat) (taken : list Z) : stream * gset Z * option (list Z) * nat * list Z :=
  match pieces s with
  | [] => (Stream (-1) [], close (fd s) fds, m, off, taken)
  | buf :: rest => let '(m, off) := cap_copy m cap off buf in (Stream (fd s) rest, fds, m, off, taken ++ buf)
  end.

Definition take_out (cap : nat) (c : capture) : capture :=
  let '(s, o, m, off, t) := posix_take (out c) (fds c) (output c) cap (offset c) (taken c) in
  Capture s (err c) o m off (timed_out c) (status c) (kills c) (reaps c) t.

Definition take_err (cap : nat) (c : capture) : capture :=
  let '(s, o, m, off, t) := posix_take (err c) (fds c) (output c) cap (offset c) (taken c) in
  Capture (out c) s o m off (timed_out c) (status c) (kills c) (reaps c) t.

(** What [select] reports: an error, by a signal or not, or the pipes that are
    ready. *)
Inductive selected := SelErr (eintr : bool) | Sel (o e : bool).

(** What one round finds. *)
Record round := Round { canceled : bool; now : Z; sel : selected }.

Definition FD_SETSIZE : Z := 1024.

(** The largest descriptor; [None]: [FD_SET] writes outside the set. *)
Definition posix_rfds (c : capture) : option Z :=
  if (FD_SETSIZE <=? fd (out c)) || (FD_SETSIZE <=? fd (err c)) then None
  else
    let max_fd := if 0 <=? fd (out c) then fd (out c) else -1 in
    Some (if (0 <=? fd (err c)) && (max_fd <? fd (err c)) then fd (err c) else max_fd).

(** [st]: what [waitpid] gives, [None] when it fails. *)
Definition posix_reap (st : option wstatus) : Z := match st with Some s => decode s (-1) | None => -1 end.

Inductive outcome := Continue (c : capture) | Ended (c : capture) | Undefined.

Definition end_canceled (c : capture) : capture :=
  Capture (out c) (err c) (fds c) (output c) (offset c) (timed_out c) AIRY_PROCESS_RC_CANCELED (S (kills c)) (S (reaps c)) (taken c).

Definition end_reaped (st : option wstatus) (c : capture) : capture :=
  Capture (out c) (err c) (fds c) (output c) (offset c) (timed_out c) (posix_reap st) (kills c) (S (reaps c)) (taken c).

Definition check_deadline (deadline : Z) (r : round) (c : capture) : capture :=
  if negb (timed_out c) && (0 <? deadline) && (deadline <=? now r)
  then Capture (out c) (err c) (fds c) (output c) (offset c) true (status c) (S (kills c)) (reaps c) (taken c) else c.

Definition posix_cycle (cap : nat) (deadline : Z) (st : option wstatus) (r : round) (c : capture) : outcome :=
  if canceled r then Ended (end_canceled c)
  else
    let c := check_deadline deadline r c in
    match posix_rfds c with
    | None => Undefined
    | Some max_fd =>
        if max_fd <? 0 then Ended (end_reaped st c)
        else
          match sel r with
          | SelErr eintr => if eintr then Continue c else Ended c
          | Sel o e =>
              let c := if (0 <=? fd (out c)) && o then take_out cap c else c in
              let c := if (0 <=? fd (err c)) && e then take_err cap c else c in
              Continue c
          end
    end.

(** The rounds that the system has given so far. *)
Fixpoint capture_loop (cap : nat) (deadline : Z) (st : option wstatus) (rounds : list round) (c : capture) : outcome :=
  match rounds with
  | [] => Continue c
  | r :: rounds' => match posix_cycle cap deadline st r c with Continue c => capture_loop cap deadline st rounds' c | o => o end
  end.

(** The result and the state at its end; [None]: the call has not returned after
    these rounds, or its behaviour is undefined. *)
Definition airy_process_run_capture_ex (a : answers) (outs errs : list (list Z)) (st : option wstatus) (timeout start : Z) (rounds : list round)
    (m : option (list Z)) (cap : nat) (o : gset Z) : option (Z * capture) :=
  match airy_process_start true a fresh_proc o with
  | (rc, p, o) =>
      if negb (rc =? 0) then Some (AIRY_ERR_EXEC_FAIL, Capture (Stream (-1) []) (Stream (-1) []) o m 0 false (-1) 0 0 [])
      else
        let deadline := if 0 <? timeout then start + timeout else 0 in
        let c := Capture (Stream (stdout_fd p) outs) (Stream (stderr_fd p) errs) o (cap_seal m cap 0) 0 false (-1) 0 0 [] in
        match capture_loop cap deadline st rounds c with
        | Ended c =>
            let '(p, o) := airy_process_close_pipes (Proc (pid p) (stdin_fd p) (fd (out c)) (fd (err c))) (fds c) in
            let c := Capture (Stream (stdout_fd p) (pieces (out c))) (Stream (stderr_fd p) (pieces (err c))) o (cap_seal (output c) cap (offset c)) (offset c) (timed_out c) (status c) (kills c) (reaps c) (taken c) in
            Some (if timed_out c then -2 else status c, c)
        | _ => None
        end
  end.

Definition airy_process_run_capture a outs errs st timeout start rounds m cap o : option (Z * capture) :=
  airy_process_run_capture_ex a outs errs st timeout start (map (fun r => Round false (now r) (sel r)) rounds) m cap o.

(** ** Descriptors of a child *)


Definition ends (p : option (Z * Z)) : list Z := match p with Some (r, w) => [r; w] | None => [] end.













(** ** What is captured *)


(** The buffer [m] with the start of [t] in it. *)
Definition filled (m t : list Z) : list Z := take (length m - 1) t ++ drop (Nat.min (length m - 1) (length t)) m.

Lemma filled_length m t : length (filled m t) = length m.
Proof. unfold filled. rewrite length_app, length_take, length_drop. lia. Qed.


Section run.

Context (outs errs : list (list Z)) (m : list Z) (fo fe : Z) (o : gset Z).
Context (Hm : (0 < length m)%nat) (Hfo : 0 <= fo) (Hfe : 0 <= fe) (Hne : fo <> fe) (Ho : fo ∉ o) (He : fe ∉ o) (Hlo : fo < FD_SETSIZE) (Hle : fe < FD_SETSIZE).





















End run.



(** ** When the time is up *)








(** The same run, evaluated. *)
Lemma capture_sample :
  (fun r => (r.1, output r.2)) <$> airy_process_run_capture_ex (Answers None (Some (3, 4)) (Some (5, 6)) (Some 100)) [[104; 105]; [33]] [] (Some (Exited 0)) 1000 0
    (repeat (Round false 5 (Sel true true)) 6) (Some [7; 7; 7; 7; 7; 7]) 6 {[0]} = Some (0, Some [104; 105; 33; 0; 7; 7]).
Proof. vm_compute. reflexivity. Qed.

(** ** Behaviour outside that *)

(** After the time is up the child is killed once and the call goes on as long as
    another process holds the pipes: it does not return. *)
Lemma timeout_not_enforced cap deadline st t c n :
  0 < deadline <= t -> 0 <= fd (out c) < FD_SETSIZE -> fd (err c) < FD_SETSIZE -> timed_out c = false ->
  exists c', capture_loop cap deadline st (repeat (Round false t (Sel false false)) (S n)) c = Continue c' /\ timed_out c' = true /\ kills c' = S (kills c) /\ out c' = out c.
Proof.
  intros Hd Ho He Ht.
  assert (forall d, 0 <= fd (out d) < FD_SETSIZE -> fd (err d) < FD_SETSIZE -> posix_cycle cap deadline st (Round false t (Sel false false)) d = Continue (check_deadline deadline (Round false t (Sel false false)) d)) as Hstep.
  { intros d H1 H2. unfold posix_cycle. cbn [canceled sel]. set (e := check_deadline _ _ _).
    assert (out e = out d /\ err e = err d) as [E1 E2] by (subst e; unfold check_deadline; by destruct (_ && _ && _)). unfold posix_rfds. rewrite E1, E2.
    rewrite (proj2 (Z.leb_gt FD_SETSIZE _)) by lia. rewrite (proj2 (Z.leb_gt FD_SETSIZE _)) by lia. cbn [orb]. rewrite (proj2 (Z.leb_le 0 (fd (out d)))) by lia.
    rewrite !andb_false_r. rewrite (proj2 (Z.ltb_ge _ 0)); [done|]. destruct ((0 <=? fd (err d)) && (fd (out d) <? fd (err d))) eqn:Eb; lia. }
  cbn [repeat capture_loop]. rewrite Hstep by done. set (c1 := check_deadline _ _ c).
  assert (timed_out c1 = true /\ kills c1 = S (kills c) /\ out c1 = out c /\ err c1 = err c) as (H1 & H2 & H3 & H4).
  { subst c1. unfold check_deadline. cbn [now]. rewrite Ht. rewrite (proj2 (Z.ltb_lt _ _)), (proj2 (Z.leb_le _ _)) by lia. done. }
  clearbody c1. exists c1. split_and!; [|done..]. induction n as [|n IH]; [done|]. cbn [repeat capture_loop]. rewrite Hstep by (rewrite ?H3, ?H4; done).
  assert (check_deadline deadline (Round false t (Sel false false)) c1 = c1) as -> by (unfold check_deadline; by rewrite H1). exact IH.
Qed.

(** A child that ends by SIGINT looks like one whose time was up, one that ends
    by SIGQUIT like one that was cancelled. *)
Lemma signals_ambiguous : posix_reap (Some (Signaled 2)) = -2 /\ posix_reap (Some (Signaled 3)) = AIRY_PROCESS_RC_CANCELED.
Proof. done. Qed.

(** When [select] fails the call returns without waiting for the child. *)
Lemma select_failure_zombie cap deadline st t c :
  0 <= fd (out c) < FD_SETSIZE -> fd (err c) < FD_SETSIZE -> exists c', posix_cycle cap deadline st (Round false t (SelErr false)) c = Ended c' /\ reaps c' = reaps c.
Proof.
  intros H1 H2. unfold posix_cycle. cbn [canceled sel]. set (e := check_deadline _ _ _).
  assert (out e = out c /\ err e = err c /\ reaps e = reaps c) as (E1 & E2 & E3) by (subst e; unfold check_deadline; by destruct (_ && _ && _)). unfold posix_rfds. rewrite E1, E2.
  rewrite (proj2 (Z.leb_gt FD_SETSIZE _)) by lia. rewrite (proj2 (Z.leb_gt FD_SETSIZE _)) by lia. cbn [orb]. rewrite (proj2 (Z.leb_le 0 (fd (out c)))) by lia.
  rewrite (proj2 (Z.ltb_ge _ 0)); [by exists e|]. destruct ((0 <=? fd (err c)) && (fd (out c) <? fd (err c))) eqn:Eb; lia.
Qed.

(** A descriptor above the size of a set of descriptors is written outside it. *)
Lemma large_fd_undefined cap deadline st r c : canceled r = false -> FD_SETSIZE <= fd (out c) -> posix_cycle cap deadline st r c = Undefined.
Proof.
  intros Hc H. unfold posix_cycle. rewrite Hc. unfold posix_rfds. assert (out (check_deadline deadline r c) = out c) as -> by (unfold check_deadline; by destruct (_ && _ && _)).
  by rewrite (proj2 (Z.leb_le _ _) H).
Qed.

(** A wait with a time limit sleeps until the limit: the signal that would end
    the sleep when the child ends is blocked. *)
Lemma wait_sleeps_to_limit t st timeout now code :
  0 < timeout -> now < t <= now + timeout -> airy_process_wait (Some (t, st)) timeout now [] code = (0, decode st code, now + timeout).
Proof.
  intros H1 H2. unfold airy_process_wait, wait_loop. rewrite (proj2 (Z.eqb_neq _ _)) by lia. rewrite (proj2 (Z.leb_gt t now)) by lia.
  rewrite (proj2 (Z.leb_gt (now + timeout) now)) by lia. by rewrite (proj2 (Z.leb_le t _)) by lia.
Qed.

(** A wait reports the end of a child that ends in time, and the time limit
    otherwise, whatever interrupts its sleeps. *)
Lemma wait_exact t st timeout now sleeps code :
  0 < timeout -> let '(rc, _, _) := airy_process_wait (Some (t, st)) timeout now sleeps code in rc = 0 <-> t <= now + timeout.
Proof.
  intros Ht. unfold airy_process_wait. rewrite (proj2 (Z.eqb_neq _ _)) by lia. set (d := now + timeout). assert (now <= d) as Hd by (subst d; lia). clearbody d. clear Ht. revert now Hd.
  induction sleeps as [|s sleeps IH]; intros now Hd; cbn [wait_loop].
  - destruct (Z.leb_spec t now); [split; [lia|done]|]. destruct (Z.leb_spec d now); [split; [done|lia]|]. destruct (Z.leb_spec t d); split; done || lia.
  - destruct (Z.leb_spec t now); [split; [lia|done]|]. destruct (Z.leb_spec d now); [split; [done|lia]|]. apply IH. lia.
Qed.
