(* ===== verification/Logging.v ===== *)
(** * Logging: utils/logging/logging_core.c, logging_format.c,
    logging_backend_file.c and utils/observability/logger.c

    Levels and the filters of modules, the text of a line, the console and the
    file with its rotation, and the monotonic time of a line.  Times, thread and
    process are arguments; a call that waits for a lock its own thread holds is
    [None]. *)
From stdpp Require Import gmap list.
From S2P Require Import Prelude Decimal CLib ErrCodes.

(** ** Levels *)

Definition LOG_LEVEL_INFO : Z := 1.
Definition LOG_LEVEL_WARN : Z := 2.
Definition LOG_OUTPUT_CONSOLE : Z := 0.
Definition LOG_OUTPUT_FILE : Z := 1.
Definition MAX_MESSAGE_LEN : nat := 4096.
Definition MAX_MODULE_LEVELS : nat := 32.
Definition PATTERN_SIZE : nat := 128.

Definition LEVEL_NAMES : list cstr := [cs "DEBUG"; cs "INFO"; cs "WARN"; cs "ERROR"; cs "FATAL"].

Definition log_level_to_string (level : Z) : cstr :=
  if (0 <=? level) && (level <? 5) then nth (Z.to_nat level) LEVEL_NAMES [] else cs "UNKNOWN".

Fixpoint name_index (s : cstr) (names : list cstr) (i : Z) : option Z :=
  match names with
  | [] => None
  | n :: names' => if bool_decide (map tolower s = map tolower n) then Some i else name_index s names' (i + 1)
  end.

Definition log_level_from_string (s : option cstr) : Z :=
  match s with
  | None => LOG_LEVEL_INFO
  | Some s =>
      match name_index s LEVEL_NAMES 0 with
      | Some i => i
      | None =>
          let '(value, n) := strtoll s 10 in
          if (0 <? n)%nat && (n =? length s)%nat && (0 <=? value) && (value <? 5) then value else LOG_LEVEL_INFO
      end
  end.

(** ** State *)

(** The fields of the configuration that the code uses. *)
Record log_config_t := Config { level : Z; outputs : Z; file_path : option cstr; max_file_size : Z; max_backup_count : Z }.

Definition default_config : log_config_t := Config LOG_LEVEL_INFO (Z.shiftl 1 LOG_OUTPUT_CONSOLE) None 0 0.

Record module_level := Module { pattern : cstr; m_level : Z }.

(** The files by name, the names that cannot be opened or renamed, and, for the
    writes to come, how many bytes of a line reach the file: all of them for the
    writes after these. *)
Record disk := Disk { files : gmap cstr (list Z); refused : gset cstr; short : list nat }.

(** [file]: the path of the file that is open; [held]: its lock is taken. *)
Record logging := Logging {
  manager : log_config_t; initialized : bool; module_levels : list module_level; use_color : bool;
  file : option cstr; current_size : Z; file_mutex : bool; held : bool; trace_id : cstr; span_id : cstr;
  console : list Z; the_disk : disk
}.

Definition set_manager x g := Logging x (initialized g) (module_levels g) (use_color g) (file g) (current_size g) (file_mutex g) (held g) (trace_id g) (span_id g) (console g) (the_disk g).
Definition set_modules x g := Logging (manager g) (initialized g) x (use_color g) (file g) (current_size g) (file_mutex g) (held g) (trace_id g) (span_id g) (console g) (the_disk g).
Definition set_file x n g := Logging (manager g) (initialized g) (module_levels g) (use_color g) x n (file_mutex g) (held g) (trace_id g) (span_id g) (console g) (the_disk g).
Definition set_held x g := Logging (manager g) (initialized g) (module_levels g) (use_color g) (file g) (current_size g) (file_mutex g) x (trace_id g) (span_id g) (console g) (the_disk g).
Definition set_ids t s g := Logging (manager g) (initialized g) (module_levels g) (use_color g) (file g) (current_size g) (file_mutex g) (held g) t s (console g) (the_disk g).
Definition set_console x g := Logging (manager g) (initialized g) (module_levels g) (use_color g) (file g) (current_size g) (file_mutex g) (held g) (trace_id g) (span_id g) x (the_disk g).
Definition set_disk x g := Logging (manager g) (initialized g) (module_levels g) (use_color g) (file g) (current_size g) (file_mutex g) (held g) (trace_id g) (span_id g) (console g) x.

Definition fresh_logging (d : disk) : logging := Logging (Config 0 0 None 0 0) false [] true None 0 false false [] [] [] d.

(** ** Filters *)

Definition is_suffix (suffix s : cstr) : bool := (length suffix <=? length s)%nat && bool_decide (drop (length s - length suffix) s = suffix).

Definition pattern_matches (p m : cstr) : bool :=
  if bool_decide (head p = Some 42) then if (length p =? 1)%nat then true else is_suffix (drop 1 p) m else bool_decide (p = m).

Fixpoint module_allows (lv : Z) (m : cstr) (l : list module_level) : bool :=
  match l with
  | [] => true
  | x :: l' => if pattern_matches (pattern x) m then m_level x <=? lv else module_allows lv m l'
  end.

Definition should_log (lv : Z) (m : option cstr) (g : logging) : bool :=
  if lv <? level (manager g) then false
  else match m with None => true | Some m => module_allows lv m (module_levels g) end.

Fixpoint set_level (p : cstr) (v : Z) (l : list module_level) : option (list module_level) :=
  match l with
  | [] => None
  | x :: l' => if bool_decide (pattern x = p) then Some (Module p v :: l') else cons x <$> set_level p v l'
  end.

Definition log_set_module_level (p : option cstr) (v : Z) (g : logging) : Z * logging :=
  match p with
  | None => (AIRY_EINVAL, g)
  | Some p =>
      if negb (initialized g) then (AIRY_EINVAL, g)
      else
        match set_level p v (module_levels g) with
        | Some l => (0, set_modules l g)
        | None =>
            if (length (module_levels g) <? MAX_MODULE_LEVELS)%nat
            then (0, set_modules (module_levels g ++ [Module (take (PATTERN_SIZE - 1) p) v]) g)
            else (AIRY_ERR_NOT_FOUND, g)
        end
  end.

Definition log_get_module_count (g : logging) : nat := if initialized g then length (module_levels g) else 0.

Definition log_get_module_info (max : nat) (g : logging) : list module_level := if initialized g then take max (module_levels g) else [].

Definition log_set_trace_id (t : option cstr) (g : logging) : option cstr * logging :=
  if initialized g then let t := match t with Some t => take 127 t | None => [] end in (Some t, set_ids t (span_id g) g) else (None, g).

Definition log_get_trace_id (g : logging) : option cstr :=
  if initialized g then match trace_id g with [] => None | t => Some t end else None.

Definition log_set_span_id (t : option cstr) (g : logging) : option cstr * logging :=
  if initialized g then let t := match t with Some t => take 63 t | None => [] end in (Some t, set_ids (trace_id g) t g) else (None, g).

Definition log_get_span_id (g : logging) : option cstr :=
  if initialized g then match span_id g with [] => None | t => Some t end else None.

(** ** The file *)

(** [fopen] for appending, and the size found at its end. *)
Definition fopen_append (p : cstr) (d : disk) : option (Z * disk) :=
  if bool_decide (p ∈ refused d) then None
  else match files d !! p with Some c => Some (Z.of_nat (length c), d) | None => Some (0, Disk (<[p := []]> (files d)) (refused d) (short d)) end.

Definition log_internal_file_open (p : option cstr) (g : logging) : option (Z * logging) :=
  match p with
  | None => Some (AIRY_EINVAL, g)
  | Some p =>
      if negb (file_mutex g) then Some (AIRY_EINVAL, g)
      else if held g then None
      else
        match fopen_append p (the_disk g) with
        | None => Some (AIRY_EIO, set_file None (current_size g) g)
        | Some (n, d) => Some (0, set_disk d (set_file (Some p) n g))
        end
  end.

Definition backup_name (p : cstr) (i : nat) : cstr := take 511 (match i with O => p | _ => p ++ cs "." ++ fmt_d (Z.of_nat i) end).

(** The disk, and whether it failed for another reason than a missing file. *)
Definition airy_file_rename (a b : cstr) (d : disk) : disk * bool :=
  if bool_decide (a ∈ refused d \/ b ∈ refused d) then (d, true)
  else match files d !! a with None => (d, false) | Some c => (Disk (<[b := c]> (delete a (files d))) (refused d) (short d), false) end.

(** The renames from the [n]th name down to the first. *)
Fixpoint rename_backups (p : cstr) (n : nat) (d : disk) : disk * bool :=
  match n with
  | O => (d, false)
  | S i =>
      let '(d, failed) := airy_file_rename (backup_name p i) (backup_name p (S i)) d in
      let '(d, failed') := rename_backups p i d in (d, failed || failed')
  end.

Definition max_size (g : logging) : Z := if max_file_size (manager g) =? 0 then 10 * 1024 * 1024 else max_file_size (manager g).
Definition max_backup (g : logging) : Z := if max_backup_count (manager g) <=? 0 then 5 else max_backup_count (manager g).

(** [warn]: the message that is logged when a rename failed. *)
Definition log_file_rotate_if_needed (warn : logging -> option logging) (g : logging) : option logging :=
  match file g, file_mutex g with
  | Some _, true =>
      if current_size g <? max_size g then Some g
      else
        match file_path (manager g) with
        | None => Some g
        | Some p =>
            let '(d, failed) := rename_backups p (Z.to_nat (max_backup g)) (the_disk g) in
            let g := match fopen_append p d with
              | Some (n, d) => set_disk d (set_file (Some p) n g)
              | None => set_disk d (set_file None 0 g)
              end in
            if failed then warn g else Some g
        end
  | _, _ => Some g
  end.

(** [fwrite] and [fflush], whose failures the code does not look at. *)
Definition append_file (p : cstr) (l : list Z) (d : disk) : disk :=
  let kept := match short d with [] => l | k :: _ => take k l end in
  Disk (<[p := default [] (files d !! p) ++ kept]> (files d)) (refused d) (drop 1 (short d)).

Definition log_internal_file_write (warn : logging -> option logging) (l : list Z) (g : logging) : option logging :=
  match file g, file_mutex g with
  | Some p, true =>
      if held g then None
      else
        let g := set_held true g in
        let g := set_file (Some p) (current_size g + Z.of_nat (length l)) (set_disk (append_file p l (the_disk g)) g) in
        g ← log_file_rotate_if_needed warn g;
        Some (set_held false g)
  | _, _ => Some g
  end.

Definition log_internal_file_cleanup (g : logging) : option logging :=
  if file_mutex g then
    if held g then None
    else Some (Logging (manager g) (initialized g) (module_levels g) (use_color g) None 0 false false (trace_id g) (span_id g) (console g) (the_disk g))
  else Some g.

(** ** The text of a line *)

(** When and where a line is written: local time, milliseconds, monotonic time,
    thread and process. *)
Record stamp := Stamp { tm_year : Z; tm_mon : Z; tm_mday : Z; tm_hour : Z; tm_min : Z; tm_sec : Z; ms : Z; mono_ms : Z; thread_id : Z; process_id : Z }.

Record log_record_t := Rec { r_stamp : stamp; r_level : Z; r_module : option cstr; r_line : Z; r_trace : option cstr; r_span : option cstr; r_message : cstr }.

Definition ESC (code : cstr) : cstr := 27 :: cs "[" ++ code ++ cs "m".

Definition ANSI_RESET : cstr := ESC (cs "0").

Definition LEVEL_COLORS : list cstr := map ESC [cs "90"; cs "34"; cs "33"; cs "31"; cs "35"].

(** [%s] of a null pointer. *)
Definition fmt_s (s : option cstr) : cstr := default (cs "(null)") s.

Definition head_text (color : bool) (r : log_record_t) : cstr :=
  let s := r_stamp r in
  let colored := color && (r_level r <? 5) in
  let color_on := if colored then nth (Z.to_nat (r_level r)) LEVEL_COLORS [] else [] in
  let reset := if colored then ANSI_RESET else [] in
  cs "[" ++ pad 4 (tm_year s + 1900) ++ cs "-" ++ pad 2 (tm_mon s + 1) ++ cs "-" ++ pad 2 (tm_mday s) ++ cs " " ++ pad 2 (tm_hour s) ++ cs ":" ++ pad 2 (tm_min s) ++ cs ":" ++ pad 2 (tm_sec s)
    ++ cs "." ++ pad 3 (ms s) ++ cs "] [mono:" ++ fmt_u (mono_ms s) ++ cs "] [" ++ color_on ++ log_level_to_string (r_level r) ++ reset ++ cs "] [" ++ fmt_s (r_module r) ++ cs ":" ++ fmt_d (r_line r) ++ cs "]".

Definition tag_text (name : cstr) (v : option cstr) : cstr :=
  match v with None | Some [] => [] | Some v => cs " [" ++ name ++ cs ":" ++ v ++ cs "]" end.

Definition where_text (s : stamp) : cstr := cs " [thread:" ++ fmt_u (thread_id s) ++ cs "] [process:" ++ fmt_u (process_id s) ++ cs "]".

(** [len += snprintf(buffer + len, size - len, ...)], cut to the buffer. *)
Definition put (size : nat) (s text : cstr) : cstr := take (size - 1) (s ++ text).

(** A tag that is written only when there is one. *)
Definition put_tag (size : nat) (s text : cstr) : cstr := if bool_decide (text = []) then s else put size s text.

Definition log_internal_format_message (r : log_record_t) (size : nat) (color : bool) : cstr :=
  let b := take (size - 1) (head_text color r) in
  let b := put_tag size b (tag_text (cs "trace") (r_trace r)) in
  let b := put_tag size b (tag_text (cs "span") (r_span r)) in
  let b := put size b (where_text (r_stamp r)) in
  put size b (cs " " ++ r_message r ++ [10]).

(** ** Monotonic time *)

(** [env]: before each exchange, by how much other threads have raised the floor
    and whether the exchange fails without a reason; [None]: the call has not
    returned yet.  The result and the floor. *)
Fixpoint mono_loop (env : list (Z * bool)) (now cur floor : Z) : option (Z * Z) :=
  if now <? cur then Some (cur, floor)
  else
    match env with
    | [] => None
    | (up, spurious) :: env' =>
        let floor := floor + Z.max 0 up in
        if negb spurious && (floor =? cur) then Some (now, now) else mono_loop env' now floor floor
    end.

Definition log_mono_now (env : list (Z * bool)) (now floor : Z) : option (Z * Z) := mono_loop env now floor floor.

(** ** Writing a line *)

(** The environment: the values of [AIRY_LOG_COLOR] and [AIRY_LOG_LEVEL], and
    whether standard output or standard error is a terminal. *)
Record log_env := Env { env_color : option cstr; env_level : option cstr; terminal : bool }.

Definition color_choice (e : log_env) : bool :=
  match env_color e with
  | Some c => negb (bool_decide (c ∈ [cs "0"; cs "no"; cs "false"; cs "off"; cs "never"]))
  | None => terminal e
  end.

Definition has_output (o : Z) (outs : Z) : bool := Z.testbit outs o.

Definition clear_output (o : Z) (outs : Z) : Z := Z.ldiff outs (Z.shiftl 1 o).

Definition log_init (e : log_env) (m : option log_config_t) (g : logging) : option (Z * logging) :=
  if initialized g then Some (0, g)
  else
    let c := default (Config LOG_LEVEL_INFO (Z.shiftl 1 LOG_OUTPUT_CONSOLE) (file_path (manager g)) (max_file_size (manager g)) (max_backup_count (manager g))) m in
    let c := match env_level e with Some (x :: l) => Config (log_level_from_string (Some (x :: l))) (outputs c) (file_path c) (max_file_size c) (max_backup_count c) | _ => c end in
    let g := Logging c false (module_levels g) (color_choice e) (file g) (current_size g) true (held g) [] [] (console g) (the_disk g) in
    g ← (if has_output LOG_OUTPUT_FILE (outputs c) && bool_decide (is_Some (file_path c)) then
           '(rc, g) ← log_internal_file_open (file_path c) g;
           Some (if rc =? 0 then g else set_manager (Config (level c) (clear_output LOG_OUTPUT_FILE (outputs c)) (file_path c) (max_file_size c) (max_backup_count c)) g)
         else Some g);
    Some (0, Logging (manager g) true (module_levels g) (use_color g) (file g) (current_size g) (file_mutex g) (held g) (trace_id g) (span_id g) (console g) (the_disk g)).

Definition rotation_warning (p : cstr) : cstr := cs "log rotation: some backup renames failed (path=" ++ p ++ cs ")".

(** [fuel]: how deep messages about the log itself may be nested; a message in
    the rotation finds the lock of the file held, so that two are enough. *)
Fixpoint log_write_core (fuel : nat) (e : log_env) (s : stamp) (lv : Z) (m : option cstr) (line : Z) (message : cstr) (g : logging) : option logging :=
  match fuel with
  | O => None
  | S fuel' =>
      '(_, g) ← (if initialized g then Some (0, g) else log_init e None g);
      if negb (should_log lv m g) then Some g
      else
        let r := Rec s lv m line (log_get_trace_id g) (log_get_span_id g) (take (MAX_MESSAGE_LEN - 1) message) in
        let g := set_console (console g ++ log_internal_format_message r (2 * MAX_MESSAGE_LEN) (use_color g)) g in
        if has_output LOG_OUTPUT_FILE (outputs (manager g)) then
          let warn := log_write_core fuel' e s LOG_LEVEL_WARN (Some (cs "logging_backend_file.c")) 110 (rotation_warning (default [] (file_path (manager g)))) in
          log_internal_file_write warn (log_internal_format_message r (2 * MAX_MESSAGE_LEN) false) g
        else Some g
  end.

Definition log_write (e : log_env) (s : stamp) (lv : Z) (m : option cstr) (line : Z) (message : cstr) (g : logging) : option logging :=
  log_write_core 2 e s lv m line message g.

Definition log_cleanup (g : logging) : option logging :=
  if negb (initialized g) then Some g
  else
    g ← log_internal_file_cleanup (Logging (manager g) false [] (use_color g) (file g) (current_size g) (file_mutex g) (held g) [] [] (console g) (the_disk g));
    Some (Logging (Config 0 0 None 0 0) false [] (use_color g) (file g) (current_size g) (file_mutex g) (held g) (trace_id g) (span_id g) (console g) (the_disk g)).

(** ** Names of levels *)

Lemma level_roundtrip l : 0 <= l < 5 -> log_level_from_string (Some (log_level_to_string l)) = l.
Proof. intros H. assert (l = 0 \/ l = 1 \/ l = 2 \/ l = 3 \/ l = 4) as [->|[->|[->|[->| ->]]]] by lia; vm_compute; reflexivity. Qed.

(** ** Lines *)

Lemma put_take size a b : put size (take (size - 1) a) b = take (size - 1) (a ++ b).
Proof.
  unfold put. destruct (Nat.le_gt_cases (length a) (size - 1)); [by rewrite (take_ge a) by lia|].
  rewrite take_app_le by (rewrite length_take; lia). rewrite take_take, Nat.min_id. symmetry. apply take_app_le. lia.
Qed.

(** A line is the whole text of its record, cut to its buffer. *)
Lemma format_cut r size color :
  log_internal_format_message r size color =
  take (size - 1) (head_text color r ++ tag_text (cs "trace") (r_trace r) ++ tag_text (cs "span") (r_span r) ++ where_text (r_stamp r) ++ cs " " ++ r_message r ++ [10]).
Proof.
  assert (forall x y, put_tag size (take (size - 1) x) y = take (size - 1) (x ++ y)) as Hp.
  { intros x y. unfold put_tag. case_bool_decide as H; [subst; by rewrite app_nil_r|apply put_take]. }
  unfold log_internal_format_message. rewrite !Hp, !put_take. by rewrite <- !app_assoc.
Qed.

(** ** The order of monotonic times *)

(** A call returns at least the floor that it found and leaves a floor that is
    at least what it returned: a call that starts after another returned does not
    return less, whatever the clock says and other threads do. *)
Theorem mono_ordered env now floor v floor' : log_mono_now env now floor = Some (v, floor') -> floor <= v <= floor' /\ now <= v.
Proof.
  unfold log_mono_now. assert (forall cur, cur <= floor -> floor <= cur -> mono_loop env now cur floor = Some (v, floor') -> floor <= v <= floor' /\ now <= v) as H; [|by apply H].
  revert floor. induction env as [|[up sp] env IH]; intros floor cur H1 H2; cbn [mono_loop].
  - destruct (Z.ltb_spec now cur); [|done]. intros [= <- <-]. lia.
  - destruct (Z.ltb_spec now cur); [intros [= <- <-]; lia|]. destruct (negb sp && (floor + Z.max 0 up =? cur)) eqn:E.
    + intros [= <- <-]. apply andb_true_iff in E as [_ E%Z.eqb_eq]. lia.
    + intros HE. apply IH in HE; [lia|lia|lia].
Qed.

(** ** Rotation *)


Section rotation.

Context (p : cstr) (n : nat).
Context (Hp : (length p + 12 < 512)%nat) (Hn : Z.of_nat n < 10 ^ 9).









(** Any number of lines. *)
Fixpoint write_lines (warn : logging -> option logging) (ls : list (list Z)) (g : logging) : option logging :=
  match ls with [] => Some g | l :: ls' => g ← log_internal_file_write warn l g; write_lines warn ls' g end.

End rotation.



(** ** The lines of a sequence of calls *)












(** A log with one line per file and two backups. *)
Definition sample_log : logging := Logging (Config 1 2 (Some (cs "/l")) 50 2) true [Module (cs "net") 3] false (Some (cs "/l")) 0 true false [] [] [] (Disk {[cs "/l" := []]} ∅ []).





(** ** Behaviour outside that *)

(** A level of a module below the level of the log has no effect. *)
Lemma module_cannot_lower lv m g : lv < level (manager g) -> should_log lv m g = false.
Proof. intros H. unfold should_log. by rewrite (proj2 (Z.ltb_lt _ _) H). Qed.

(** A star at the end of a pattern is a byte like others. *)
Lemma prefix_pattern_literal : pattern_matches (cs "network.*") (cs "network.http") = false /\ pattern_matches (cs "*.http") (cs "network.http") = true.
Proof. done. Qed.

(** A configuration that is given after the first line, or after the library was
    loaded, is not used, and the call succeeds. *)
Lemma second_init_ignored e c g : initialized g = true -> log_init e c g = Some (0, g).
Proof. intros H. unfold log_init. by rewrite H. Qed.

(** A pattern that does not fit is cut when it is stored and is not found again:
    each call adds a rule, and the first one stays in force. *)
Lemma long_pattern_repeats g p v w :
  initialized g = true -> module_levels g = [] -> length p = 128%nat ->
  module_levels (log_set_module_level (Some p) w (log_set_module_level (Some p) v g).2).2 = [Module (take 127 p) v; Module (take 127 p) w].
Proof.
  intros Hi Hm Hl. destruct g. cbn in Hi, Hm. subst. unfold log_set_module_level.
  cbn [initialized module_levels negb set_level length Nat.ltb Nat.leb snd app set_modules pattern MAX_MODULE_LEVELS].
  rewrite bool_decide_eq_false_2; [done|]. intros H%(f_equal length). rewrite length_take, Hl in H. cbn in H. lia.
Qed.

(** On a full disk the bytes of a line that are not stored are lost without a
    word, and the size of the file counts them. *)
Lemma full_disk_loses_line :
  let g := set_disk (Disk {[cs "/l" := []]} ∅ [4%nat]) sample_log in
  exists g', log_write (Env None None false) (Stamp 126 0 2 3 4 5 6 7 8 9) 1 None 10 (cs "a") g = Some g' /\
    files (the_disk g') !! cs "/l.1" = Some (cs "[202") /\ files (the_disk g') !! cs "/l" = Some [].
Proof. eexists. split; [vm_compute; reflexivity|]. split; vm_compute; reflexivity. Qed.

(** When a backup cannot be renamed the line about it is written under the lock
    of the file, which the thread holds: the call does not return. *)
Lemma rotation_deadlock :
  let g := set_disk (Disk {[cs "/l" := []]} {[cs "/l.1"]} []) sample_log in
  log_write (Env None None false) (Stamp 126 0 2 3 4 5 6 7 8 9) 1 None 10 (cs "a") g = None.
Proof. vm_compute. reflexivity. Qed.
