(* ===== verification/Prealloc.v ===== *)
(** * Emergency buffers: utils/memory/memory_prealloc.c

    Four buffers that are allocated at the start, one for each emergency, and
    handed out to one user at a time.  The heap maps blocks to their bytes; the
    answers of the allocator are part of the state.  A call that waits for the
    lock that its own thread holds, and the use or release of a block that is not
    allocated, are [None]. *)
From stdpp Require Import gmap list.
From S2P Require Import Prelude.

Definition AIRY_PREALLOC_SHUTDOWN : Z := 3.

(** The sizes of the buffers for signals, lack of memory, audit and shutdown. *)
Definition buf_sizes : list nat := [Z.to_nat 4096; Z.to_nat 8192; Z.to_nat 16384; Z.to_nat 8192].

Record slot := Slot { buf : option positive; buf_size : nat; in_use : bool }.

Definition empty_slot : slot := Slot None 0 false.

(** The buffers in the order of their categories. *)
Record airy_prealloc_pool_t := Pool { slots : list slot; initialized : bool; locked : bool }.

Definition g_prealloc_pool : airy_prealloc_pool_t := Pool (replicate 4 empty_slot) false false.

(** The blocks with their bytes, and the answers to come: what a block holds
    when it is allocated, [None] when it is refused. *)
Record heap := Heap { blocks : gmap positive (list Z); answers : list (option Z) }.

Definition malloc (n : nat) (h : heap) : option positive * heap :=
  match answers h with
  | Some junk :: a => let b := fresh (dom (blocks h)) in (Some b, Heap (<[b := replicate n junk]> (blocks h)) a)
  | None :: a => (None, Heap (blocks h) a)
  | [] => (None, h)
  end.

Definition free (b : option positive) (h : heap) : option heap :=
  match b with
  | None => Some h
  | Some b => if bool_decide (is_Some (blocks h !! b)) then Some (Heap (delete b (blocks h)) (answers h)) else None
  end.

(** ** Operations *)

Fixpoint free_slots (l : list slot) (h : heap) : option heap := match l with [] => Some h | s :: l' => h ← free (buf s) h; free_slots l' h end.

(** The allocations of [airy_prealloc_init], one after the other; those made are
    freed when one is refused, their sizes stay. *)
Fixpoint init_slots (sizes : list nat) (done : list slot) (h : heap) : option (bool * list slot * heap) :=
  match sizes with
  | [] => Some (true, done, h)
  | n :: sizes' =>
      match malloc n h with
      | (Some b, h) => init_slots sizes' (done ++ [Slot (Some b) n false]) h
      | (None, h) => h ← free_slots done h; Some (false, map (fun s => Slot None (buf_size s) (in_use s)) done ++ replicate (S (length sizes')) empty_slot, h)
      end
  end.

Definition airy_prealloc_init (p : airy_prealloc_pool_t) (h : heap) : option (Z * airy_prealloc_pool_t * heap) :=
  if initialized p then Some (0, p, h)
  else
    match init_slots buf_sizes [] h with
    | None => None
    | Some (true, l, h) => Some (0, Pool l true false, h)
    | Some (false, l, h) => Some (AIRY_ERR_OUT_OF_MEMORY, Pool l false false, h)
    end.

Definition airy_prealloc_shutdown (p : airy_prealloc_pool_t) (h : heap) : option (airy_prealloc_pool_t * heap) :=
  if negb (initialized p) then Some (p, h)
  else if locked p then None
  else h ← free_slots (slots p) h; Some (Pool (replicate 4 empty_slot) false false, h).

Definition airy_prealloc_acquire (category : Z) (p : airy_prealloc_pool_t) : option (option positive * airy_prealloc_pool_t) :=
  if negb (initialized p) || (category <? 0) || (AIRY_PREALLOC_SHUTDOWN <? category) then Some (None, p)
  else if locked p then None
  else
    match slots p !! Z.to_nat category with
    | None => Some (None, p)
    | Some s =>
        if in_use s then Some (None, p)
        else Some (buf s, Pool (<[Z.to_nat category := Slot (buf s) (buf_size s) true]> (slots p)) (initialized p) (locked p))
    end.

Definition airy_prealloc_release (category : Z) (p : airy_prealloc_pool_t) (h : heap) : option (airy_prealloc_pool_t * heap) :=
  if negb (initialized p) || (category <? 0) || (AIRY_PREALLOC_SHUTDOWN <? category) then Some (p, h)
  else if locked p then None
  else
    match slots p !! Z.to_nat category with
    | None => Some (p, h)
    | Some s =>
        h ← match buf s with
            | Some b => if (0 <? buf_size s)%nat then m ← blocks h !! b; Some (Heap (<[b := replicate (buf_size s) 0 ++ drop (buf_size s) m]> (blocks h)) (answers h)) else Some h
            | None => Some h
            end;
        Some (Pool (<[Z.to_nat category := Slot (buf s) (buf_size s) false]> (slots p)) (initialized p) (locked p), h)
    end.

(** ** Histories *)

Inductive op := Init | Shutdown | Acquire (category : Z) | Release (category : Z).

Definition run (o : op) (p : airy_prealloc_pool_t) (h : heap) : option (airy_prealloc_pool_t * heap) :=
  match o with
  | Init => '(_, p, h) ← airy_prealloc_init p h; Some (p, h)
  | Shutdown => airy_prealloc_shutdown p h
  | Acquire c => '(_, p) ← airy_prealloc_acquire c p; Some (p, h)
  | Release c => airy_prealloc_release c p h
  end.

Fixpoint runs (l : list op) (p : airy_prealloc_pool_t) (h : heap) : option (airy_prealloc_pool_t * heap) :=
  match l with [] => Some (p, h) | o :: l' => '(p, h) ← run o p h; runs l' p h end.

(** ** The blocks of the pool *)

Definition bufs (l : list slot) : list positive := omap buf l.

(** Every slot has its block, of its size, the blocks differ, and there is no
    block beside them. *)
Record owned (l : list slot) (m : gmap positive (list Z)) : Prop := {
  own_nodup : NoDup (bufs l);
  own_dom : forall b, b ∈ bufs l <-> is_Some (m !! b);
  own_size b s : s ∈ l -> buf s = Some b -> length <$> m !! b = Some (buf_size s)
}.

Lemma bufs_app l1 l2 : bufs (l1 ++ l2) = bufs l1 ++ bufs l2.
Proof. apply omap_app. Qed.

Lemma elem_of_bufs b l : b ∈ bufs l <-> exists s, s ∈ l /\ buf s = Some b.
Proof. unfold bufs. rewrite list_elem_of_omap. done. Qed.

Lemma owned_empty : owned [] ∅.
Proof. split; [constructor|intros b; rewrite lookup_empty; split; [by intros ?%not_elem_of_nil|by intros []]|by intros b s ?%not_elem_of_nil]. Qed.

Lemma malloc_owned l n h b h' : owned l (blocks h) -> malloc n h = (Some b, h') -> owned (l ++ [Slot (Some b) n false]) (blocks h').
Proof.
  intros [H1 H2 H3]. unfold malloc. destruct (answers h) as [|[junk|] a]; [done| |done]. intros [= <- <-].
  set (b := fresh (dom (blocks h))). assert (blocks h !! b = None) as Hb by (apply not_elem_of_dom, is_fresh). clearbody b. cbn [blocks].
  assert (b ∉ bufs l) as Hn by (rewrite H2, Hb; by intros []). split.
  - rewrite bufs_app. apply NoDup_app. cbn. split_and!; [done|intros x Hx ->%list_elem_of_singleton; done|by apply NoDup_singleton].
  - intros x. rewrite bufs_app, elem_of_app, H2. cbn. rewrite list_elem_of_singleton. destruct (decide (x = b)) as [->|]; [rewrite lookup_insert_eq; naive_solver|].
    rewrite lookup_insert_ne by done. naive_solver.
  - intros x s Hs Hx. apply elem_of_app in Hs as [Hs| ->%list_elem_of_singleton].
    + rewrite lookup_insert_ne; [by apply H3|]. intros ->. apply Hn, elem_of_bufs. eauto.
    + cbn in Hx. injection Hx as <-. rewrite lookup_insert_eq. cbn. by rewrite length_replicate.
Qed.

Lemma malloc_refused n h h' : malloc n h = (None, h') -> blocks h' = blocks h.
Proof. unfold malloc. destruct (answers h) as [|[junk|] a]; intros [= <-]; done. Qed.

(** Freeing the blocks of the slots frees all, each once. *)
Lemma free_slots_owned l h : owned l (blocks h) -> exists h', free_slots l h = Some h' /\ blocks h' = ∅.
Proof.
  revert h. induction l as [|s l IH]; intros h Ho.
  { exists h. split; [done|]. apply map_empty. intros b. destruct (blocks h !! b) eqn:E; [|done]. exfalso.
    apply (not_elem_of_nil b). apply (own_dom _ _ Ho). by rewrite E. }
  destruct Ho as [H1 H2 H3]. cbn [free_slots]. unfold bufs in H1, H2. cbn [omap list_omap] in H1, H2. destruct (buf s) as [b|] eqn:Eb.
  - apply NoDup_cons in H1 as [Hn H1]. cbn [free]. rewrite bool_decide_eq_true_2 by (apply H2; by left). cbn [mbind option_bind]. apply IH. cbn. split; [done| |].
    + intros x. destruct (decide (x = b)) as [->|]; [rewrite lookup_delete_eq; split; [done|by intros []]|]. rewrite lookup_delete_ne, <- H2 by done.
      rewrite elem_of_cons. naive_solver.
    + intros x t Ht Hx. rewrite lookup_delete_ne; [apply H3; [by right|done]|]. intros ->. apply Hn, elem_of_bufs. eauto.
  - cbn. apply IH. split; [done|done|]. intros x t Ht. apply H3. by right.
Qed.

Definition ready (s : slot) : Prop := is_Some (buf s) /\ in_use s = false /\ (0 < buf_size s)%nat.

Lemma init_slots_owned sizes l h :
  owned l (blocks h) -> Forall ready l -> Forall (fun n => (0 < n)%nat) sizes ->
  exists ok l' h', init_slots sizes l h = Some (ok, l', h') /\ length l' = (length l + length sizes)%nat /\
    if ok : bool then owned l' (blocks h') /\ Forall ready l' else blocks h' = ∅.
Proof.
  revert l h. induction sizes as [|n sizes IH]; intros l h Ho Hu Hs.
  { exists true, l, h. cbn. split; [done|]. split; [lia|done]. }
  apply Forall_cons in Hs as [Hn Hs]. cbn [init_slots]. destruct (malloc n h) as [[b|] h1] eqn:Em.
  - destruct (IH (l ++ [Slot (Some b) n false]) h1) as (ok & l' & h' & H1 & H2 & H3); [by eapply malloc_owned| |done|].
    { apply Forall_app. split; [done|]. constructor; [|constructor]. by split_and!. }
    exists ok, l', h'. rewrite length_app in H2. cbn in H2. split_and!; [done|cbn; lia|done].
  - apply malloc_refused in Em. rewrite <- Em in Ho. destruct (free_slots_owned l h1 Ho) as (h2 & Hf & Hb). rewrite Hf. cbn [mbind option_bind].
    do 3 eexists. split; [reflexivity|]. rewrite length_app, length_map, length_replicate. cbn. split; [lia|done].
Qed.

(** What holds between operations: the pool has its four blocks and the heap no
    other, or there are none. *)
Record pool_ok (p : airy_prealloc_pool_t) (h : heap) : Prop := {
  ok_len : length (slots p) = 4%nat;
  ok_lock : locked p = false;
  ok_live : initialized p = true -> owned (slots p) (blocks h) /\ Forall (fun s => is_Some (buf s) /\ (0 < buf_size s)%nat) (slots p);
  ok_none : initialized p = false -> blocks h = ∅
}.

Lemma buf_sizes_pos : Forall (fun n => (0 < n)%nat) buf_sizes.
Proof. unfold buf_sizes. rewrite !Forall_cons. split_and!; [lia..|constructor]. Qed.

Lemma init_keeps p h : pool_ok p h -> exists rc p' h', airy_prealloc_init p h = Some (rc, p', h') /\ pool_ok p' h'.
Proof.
  intros Hp. unfold airy_prealloc_init. destruct (initialized p) eqn:E; [by exists 0, p, h|]. pose proof (ok_none _ _ Hp E) as H4.
  pose proof buf_sizes_pos as Hpos. set (sizes := buf_sizes) in *. assert (length sizes = 4%nat) as Hlen by done. clearbody sizes.
  destruct (init_slots_owned sizes [] h) as (ok & l & h' & Hi & Hl & Ho); [rewrite H4; apply owned_empty|constructor|done|].
  rewrite Hi. destruct ok; do 3 eexists; (split; [reflexivity|]); split; cbn [slots locked initialized length plus] in *; try (done || lia).
  intros _. destruct Ho as [Ho Hr]. split; [done|]. eapply Forall_impl; [done|]. by intros s (? & _ & ?).
Qed.

Lemma shutdown_keeps p h : pool_ok p h -> exists p' h', airy_prealloc_shutdown p h = Some (p', h') /\ pool_ok p' h'.
Proof.
  intros Hp. unfold airy_prealloc_shutdown. destruct (initialized p) eqn:E; cbn [negb]; [|by exists p, h].
  rewrite (ok_lock _ _ Hp). destruct (free_slots_owned _ _ (proj1 (ok_live _ _ Hp E))) as (h' & -> & Hb). cbn [mbind option_bind]. do 2 eexists. split; [reflexivity|]. by split.
Qed.

(** Changing the flag of a slot changes nothing else. *)
Lemma owned_flag l m i s f : owned l m -> l !! i = Some s -> owned (<[i := Slot (buf s) (buf_size s) f]> l) m.
Proof.
  intros [H1 H2 H3] Hs. assert (bufs (<[i := Slot (buf s) (buf_size s) f]> l) = bufs l) as Hb.
  { rewrite <- (take_drop_middle l i s Hs) at 2. rewrite insert_take_drop by (by eapply lookup_lt_Some). rewrite !bufs_app. f_equal. }
  split; rewrite ?Hb; [done|done|]. intros b t Ht Hbt. apply list_elem_of_lookup in Ht as [j Hj]. destruct (decide (i = j)) as [<-|].
  - rewrite list_lookup_insert_eq in Hj by (by eapply lookup_lt_Some). injection Hj as <-. cbn in *. apply H3; [|done]. by eapply list_elem_of_lookup_2.
  - rewrite list_lookup_insert_ne in Hj by done. apply H3; [|done]. by eapply list_elem_of_lookup_2.
Qed.

Lemma acquire_keeps c p h : pool_ok p h -> exists r p', airy_prealloc_acquire c p = Some (r, p') /\ pool_ok p' h.
Proof.
  intros [H1 H2 H3 H4]. unfold airy_prealloc_acquire. assert (pool_ok p h) as Hp by (by split).
  destruct (negb (initialized p) || (c <? 0) || (AIRY_PREALLOC_SHUTDOWN <? c)) eqn:E; [eauto|]. rewrite H2. destruct (slots p !! Z.to_nat c) as [s|] eqn:Es; [|eauto].
  destruct (in_use s); [eauto|]. do 2 eexists. split; [reflexivity|]. split; cbn; try done; [by rewrite length_insert|]. intros Hi. destruct (H3 Hi) as [Ho Hf].
  split; [by apply owned_flag|]. apply Forall_insert; [done|]. cbn. by eapply Forall_lookup_1 in Hf.
Qed.

Lemma release_keeps c p h : pool_ok p h -> exists p' h', airy_prealloc_release c p h = Some (p', h') /\ pool_ok p' h'.
Proof.
  intros [H1 H2 H3 H4]. unfold airy_prealloc_release. assert (pool_ok p h) as Hp by (by split).
  destruct (negb (initialized p) || (c <? 0) || (AIRY_PREALLOC_SHUTDOWN <? c)) eqn:E; [eauto|]. rewrite H2. destruct (slots p !! Z.to_nat c) as [s|] eqn:Es; [|eauto].
  assert (initialized p = true) as Hi by (by destruct (initialized p)). destruct (H3 Hi) as [Ho Hf].
  pose proof (Forall_lookup_1 _ _ _ _ Hf Es) as [[b Hb] Hn]. rewrite Hb, (proj2 (Nat.ltb_lt _ _) Hn).
  assert (s ∈ slots p) as Hin by (by eapply list_elem_of_lookup_2). pose proof (own_size _ _ Ho b s Hin Hb) as Hsz. destruct (blocks h !! b) as [m|] eqn:Em; [|done]. injection Hsz as Hsz.
  cbn [mbind option_bind]. do 2 eexists. split; [reflexivity|]. split; cbn; try done; [by rewrite length_insert| |congruence]. intros _. split.
  - rewrite <- Hb. apply owned_flag; [|done]. destruct Ho as [O1 O2 O3]. split; [done| |].
    + intros x. rewrite O2. destruct (decide (x = b)) as [->|]; [rewrite lookup_insert_eq, Em; split; eauto|by rewrite lookup_insert_ne].
    + intros x t Ht Hx. destruct (decide (x = b)) as [->|]; [|rewrite lookup_insert_ne by done; by apply O3]. rewrite lookup_insert_eq. cbn.
      rewrite length_app, length_replicate, length_drop. pose proof (O3 b t Ht Hx) as Hl. rewrite Em in Hl. injection Hl as Hl. f_equal. lia.
  - apply Forall_insert; [done|]. cbn. split; [eauto|done].
Qed.

(** Over every history of calls and every behaviour of the allocator the pool
    has its four blocks, once each, while it is set up and none otherwise:
    nothing leaks, is freed twice or is written after it is freed. *)
Theorem prealloc_safe l h : blocks h = ∅ -> exists p h', runs l g_prealloc_pool h = Some (p, h') /\ pool_ok p h'.
Proof.
  intros Hh. assert (pool_ok g_prealloc_pool h) as H by (by split). clear Hh. revert h H. generalize g_prealloc_pool as p. induction l as [|o l IH]; intros p h H; [cbn; eauto|].
  cbn [runs]. assert (exists p' h', run o p h = Some (p', h') /\ pool_ok p' h') as (p' & h' & -> & H'); [|by apply IH].
  destruct o as [| |c|c]; cbn [run].
  - destruct (init_keeps p h H) as (rc & p' & h' & -> & H'). eauto.
  - by apply shutdown_keeps.
  - destruct (acquire_keeps c p h H) as (r & p' & -> & H'). eauto.
  - by apply release_keeps.
Qed.

(** A buffer that was handed out is not handed out again before its release. *)
Lemma acquire_once c p b p' : locked p = false -> airy_prealloc_acquire c p = Some (Some b, p') -> airy_prealloc_acquire c p' = Some (None, p').
Proof.
  intros Hl. unfold airy_prealloc_acquire. destruct (negb (initialized p) || (c <? 0) || (AIRY_PREALLOC_SHUTDOWN <? c)) eqn:E; [done|]. rewrite Hl.
  destruct (slots p !! Z.to_nat c) as [s|] eqn:Es; [|done]. destruct (in_use s); [done|]. intros [= Hb <-]. cbn [initialized locked slots]. rewrite E.
  by rewrite list_lookup_insert_eq by (by eapply lookup_lt_Some).
Qed.

(** A buffer that is released holds zeros. *)
Lemma release_clears c p h :
  pool_ok p h -> initialized p = true -> 0 <= c <= 3 ->
  exists p' h' b n, airy_prealloc_release c p h = Some (p', h') /\ buf <$> slots p' !! Z.to_nat c = Some (Some b) /\ blocks h' !! b = Some (replicate n 0).
Proof.
  intros [H1 H2 H3 H4] Hi Hc. unfold airy_prealloc_release, AIRY_PREALLOC_SHUTDOWN. rewrite Hi, (proj2 (Z.ltb_ge _ _)), (proj2 (Z.ltb_ge _ _)) by lia. cbn [negb orb]. rewrite H2.
  destruct (slots p !! Z.to_nat c) as [s|] eqn:Es; [|apply lookup_ge_None in Es; lia]. destruct (H3 Hi) as [Ho Hf].
  pose proof (Forall_lookup_1 _ _ _ _ Hf Es) as [[b Hb] Hn]. rewrite Hb, (proj2 (Nat.ltb_lt _ _) Hn).
  assert (s ∈ slots p) as Hin by (by eapply list_elem_of_lookup_2). pose proof (own_size _ _ Ho b s Hin Hb) as Hsz. destruct (blocks h !! b) as [m|] eqn:Em; [|done]. injection Hsz as Hsz.
  cbn [mbind option_bind]. do 2 eexists. exists b, (buf_size s). split; [reflexivity|]. cbn. rewrite list_lookup_insert_eq by (by eapply lookup_lt_Some). split; [done|].
  rewrite lookup_insert_eq, drop_ge by lia. by rewrite app_nil_r.
Qed.

(** A shutdown frees buffers that are in use. *)
Lemma shutdown_frees_in_use c p h b p' : pool_ok p h -> airy_prealloc_acquire c p = Some (Some b, p') -> exists q h', airy_prealloc_shutdown p' h = Some (q, h') /\ blocks h' !! b = None.
Proof.
  intros Hp Ha. destruct (acquire_keeps c p h Hp) as (r & q & Hr & Hq). rewrite Ha in Hr. injection Hr as <- <-.
  assert (initialized p' = true) as Hi.
  { unfold airy_prealloc_acquire in Ha. destruct (initialized p) eqn:E; [|done]. destruct (_ || _ || _); [done|]. destruct (locked p); [done|]. destruct (slots p !! _) as [s|]; [|done].
    destruct (in_use s); [done|]. by injection Ha as _ <-. }
  destruct (shutdown_keeps p' h Hq) as (q' & h' & Hs & Hq'). exists q', h'. split; [done|]. unfold airy_prealloc_shutdown in Hs. rewrite Hi, (ok_lock _ _ Hq) in Hs. cbn [negb] in Hs.
  destruct (free_slots (slots p') h) as [h1|]; [|done]. cbn [mbind option_bind] in Hs. injection Hs as <- <-. rewrite (ok_none _ _ Hq' eq_refl). apply lookup_empty.
Qed.

(** A signal handler that interrupts its thread inside a call waits for the lock
    of that call. *)
Lemma signal_handler_waits c p : initialized p = true -> 0 <= c <= 3 -> locked p = true -> airy_prealloc_acquire c p = None.
Proof. intros Hi Hc Hl. unfold airy_prealloc_acquire, AIRY_PREALLOC_SHUTDOWN. rewrite Hi, (proj2 (Z.ltb_ge _ _)), (proj2 (Z.ltb_ge _ _)) by lia. cbn [negb orb]. by rewrite Hl. Qed.

Lemma prealloc_safe_witness : exists p h, runs [Init; Acquire 0; Acquire 0; Release 0; Shutdown] g_prealloc_pool (Heap ∅ [Some 7; Some 7; Some 7; None]) = Some (p, h) /\ pool_ok p h.
Proof. exact (prealloc_safe [Init; Acquire 0; Acquire 0; Release 0; Shutdown] (Heap ∅ [Some 7; Some 7; Some 7; None]) eq_refl). Defined.
