(* ===== verification/Request.v ===== *)
(** * Requests of daemons: platform/src/platform_compat.c

    The reading of one request from a connection that stays open: bytes are
    added to a buffer that grows until they are a whole JSON text.  Whether a
    text is one is the answer of the cJSON library and an argument; so are the
    bytes that arrive and the answers of the system and of the allocator. *)
From stdpp Require Import list.
From S2P Require Import Prelude CLib.

Definition AIRY_DAEMON_REQ_INITIAL_CAP : Z := 64 * 1024.
Definition AIRY_DAEMON_REQ_MAX_CAP : Z := 8 * 1024 * 1024.
Definition AIRY_DAEMON_REQ_FIRST_POLL_MS : Z := 5000.
Definition AIRY_DAEMON_REQ_SLICE_MS : Z := 200.

Definition airy_daemon_req_timeout_ms (env : option cstr) : Z :=
  match env with
  | Some (c :: s) => let v := (strtoll (c :: s) 10).1 in if (1000 <=? v) && (v <=? 60000) then v else AIRY_DAEMON_REQ_FIRST_POLL_MS
  | _ => AIRY_DAEMON_REQ_FIRST_POLL_MS
  end.

(** What [poll] reports: an error, a signal, that the time is up, an event other
    than bytes, or bytes to read. *)
Inductive polled := PollError | PollIntr | PollTimeout | PollOther | PollIn.

(** What one round finds: the bytes that have arrived since the one before, how
    many of the waiting bytes [recv] gives at most, whether it fails, whether the
    buffer can grow, and what [poll] reports. *)
Record round := Round { arrived : list Z; give : nat; recv_fails : bool; realloc_ok : bool; poll : polled }.

(** [NoReason]: no reason is given for a descriptor that is not one. *)
Inductive reason := TooLarge | OutOfMemory | ReadError | ReadTimeout | NoReason.

(** [NullWrite]: the length is stored through a null pointer. *)
Inductive outcome := Reading | Got (buf : list Z) | Refused (why : reason) | NullWrite.

(** The bytes that were read, the size of the buffer, the bytes that wait, the
    time that is used up and the number of buffers that are allocated. *)
Record state := State { used : list Z; cap : Z; queue : list Z; elapsed : Z; live : Z }.

Definition airy_req_grow (ok : bool) (s : state) : sum reason state :=
  if Z.of_nat (length (used s)) <? cap s - 1 then inr s
  else
    let new_cap := if AIRY_DAEMON_REQ_MAX_CAP <? cap s * 2 then AIRY_DAEMON_REQ_MAX_CAP else cap s * 2 in
    if new_cap <=? cap s then inl TooLarge
    else if ok then inr (State (used s) new_cap (queue s) (elapsed s) (live s))
    else inl OutOfMemory.

(** A [recv] that fails for good is [inl]; one that has nothing to give now, or
    whose peer has closed, gives no bytes. *)
Definition airy_req_recv (r : round) (s : state) : sum reason state :=
  if recv_fails r then inl ReadError
  else
    let q := queue s ++ arrived r in
    let n := Nat.min (give r) (Z.to_nat (cap s - Z.of_nat (length (used s)) - 1)) in
    inr (State (used s ++ take n q) (cap s) (drop n q) (elapsed s) (live s)).

Definition airy_req_wait (left : Z) (p : polled) (s : state) : sum reason state :=
  let slice := if left <? AIRY_DAEMON_REQ_SLICE_MS then left else AIRY_DAEMON_REQ_SLICE_MS in
  match p with
  | PollError | PollOther => inl ReadError
  | PollIntr => inr s
  | PollTimeout => inr (State (used s) (cap s) (queue s) (elapsed s + slice) (live s))
  | PollIn => inr (State (used s) (cap s) (queue s) (elapsed s + 1) (live s))
  end.

(** Whether there are bytes to read. *)
Definition airy_req_first (first : polled) : bool := match first with PollIn => true | _ => false end.

Definition refuse (why : reason) (s : state) : outcome * state := (Refused why, State (used s) (cap s) (queue s) (elapsed s) (live s - 1)).

Section request.

(** [cJSON_Parse] accepts the text. *)
Context (complete : list Z -> bool).

Definition airy_req_ready (buf : list Z) : bool := complete (c_str buf).

Definition req_round (budget : Z) (r : round) (s : state) : outcome * state :=
  match airy_req_grow (realloc_ok r) s with
  | inl why => refuse why s
  | inr s =>
      match airy_req_recv r s with
      | inl why => refuse why s
      | inr s =>
          if negb (bool_decide (used s = [])) && airy_req_ready (used s) then (Got (used s), s)
          else if budget <=? elapsed s then refuse ReadTimeout s
          else match airy_req_wait (budget - elapsed s) (poll r) s with inl why => refuse why s | inr s => (Reading, s) end
      end
  end.

Fixpoint req_loop (budget : Z) (rounds : list round) (s : state) : outcome * state :=
  match rounds with
  | [] => (Reading, s)
  | r :: rounds' => match req_round budget r s with (Reading, s) => req_loop budget rounds' s | o => o end
  end.

(** [out_len]: the caller asks for the length; [first]: what the wait for the
    first byte reports; [malloc_ok]: the buffer can be allocated. *)
Definition airy_daemon_read_request (client_fd : Z) (out_len : bool) (env : option cstr) (first : polled) (malloc_ok : bool) (rounds : list round) : outcome * state :=
  let budget := airy_daemon_req_timeout_ms env in
  let none := State [] 0 [] 0 0 in
  if client_fd <? 0 then (Refused NoReason, none)
  else if negb (airy_req_first first) then (Refused ReadTimeout, none)
  else if negb malloc_ok then (Refused OutOfMemory, none)
  else match req_loop budget rounds (State [] AIRY_DAEMON_REQ_INITIAL_CAP [] 0 1) with
  | (Got b, s) => if out_len then (Got b, s) else (NullWrite, s)
  | o => o
  end.

(** ** What is returned *)

Definition arrivals (rounds : list round) : list Z := concat (map arrived rounds).

(** The bytes that were read and those that wait are all that arrived, the
    buffer has room for its end, and nothing read so far was a whole text. *)
Record good (sent : list Z) (s : state) : Prop := {
  g_sent : used s ++ queue s = sent;
  g_room : Z.of_nat (length (used s)) < cap s;
  g_cap : AIRY_DAEMON_REQ_INITIAL_CAP <= cap s <= AIRY_DAEMON_REQ_MAX_CAP;
  g_live : live s = 1;
  g_open : used s = [] \/ complete (c_str (used s)) = false
}.

Lemma grow_good ok sent s : good sent s -> match airy_req_grow ok s with
  | inr s' => good sent s' /\ Z.of_nat (length (used s')) < cap s' - 1 /\ elapsed s' = elapsed s /\ used s' = used s
  | inl why => why = TooLarge /\ cap s = AIRY_DAEMON_REQ_MAX_CAP /\ Z.of_nat (length (used s)) = AIRY_DAEMON_REQ_MAX_CAP - 1 \/ why = OutOfMemory /\ ok = false end.
Proof.
  intros [H1 H2 H3 H4 H5]. unfold airy_req_grow, AIRY_DAEMON_REQ_INITIAL_CAP, AIRY_DAEMON_REQ_MAX_CAP in *.
  destruct (Z.ltb_spec (Z.of_nat (length (used s))) (cap s - 1)); [split; [by split|done]|].
  destruct (Z.ltb_spec (8 * 1024 * 1024) (cap s * 2)).
  - destruct (Z.leb_spec (8 * 1024 * 1024) (cap s)); [left; split; [done|lia]|]. destruct ok; [|right; by split]. split; [split; cbn; unfold AIRY_DAEMON_REQ_INITIAL_CAP, AIRY_DAEMON_REQ_MAX_CAP; try done; lia|cbn; split_and!; [lia|done|done]].
  - destruct (Z.leb_spec (cap s * 2) (cap s)); [lia|]. destruct ok; [|right; by split]. split; [split; cbn; unfold AIRY_DAEMON_REQ_INITIAL_CAP, AIRY_DAEMON_REQ_MAX_CAP; try done; lia|cbn; split_and!; [lia|done|done]].
Qed.

Lemma recv_good r sent s : good sent s -> Z.of_nat (length (used s)) < cap s - 1 -> match airy_req_recv r s with
  | inr s' => used s' ++ queue s' = sent ++ arrived r /\ Z.of_nat (length (used s')) < cap s' /\ cap s' = cap s /\ live s' = live s /\ elapsed s' = elapsed s
  | inl why => why = ReadError end.
Proof.
  intros [H1 H2 H3 H4 H5] Hr. unfold airy_req_recv. destruct (recv_fails r); [done|]. cbn [used queue cap live elapsed].
  set (n := Nat.min (give r) _). assert (n <= Z.to_nat (cap s - Z.of_nat (length (used s)) - 1))%nat as Hn by (subst n; lia). clearbody n.
  split_and!; try done; [by rewrite <- app_assoc, take_drop, app_assoc, H1|]. rewrite length_app, length_take. lia.
Qed.

(** The time that a round can use up. *)
Definition cost (r : round) : Z := match poll r with PollTimeout => AIRY_DAEMON_REQ_SLICE_MS | PollIn => 1 | _ => 0 end.

Definition costs (rounds : list round) : Z := fold_right (fun r n => cost r + n) 0 rounds.

(** What a refusal says of the [rounds], which began with [t] used up and after
    the bytes [sent]; [s] is the state that is left.  Time is what the call counts
    as such ([cost]), not what a clock shows: a slice of 200 ms at most for a wait
    that ends with nothing to read, and 1 ms for one that ends with bytes. *)
Definition because (budget t : Z) (sent : list Z) (rounds : list round) (s : state) (why : reason) : Prop :=
  match why with
  | TooLarge => AIRY_DAEMON_REQ_MAX_CAP - 1 <= Z.of_nat (length (sent ++ arrivals rounds))
  | OutOfMemory => exists r, r ∈ rounds /\ realloc_ok r = false
  | ReadError => exists r, r ∈ rounds /\ (recv_fails r = true \/ poll r = PollError \/ poll r = PollOther)
  | ReadTimeout => (exists l, l `prefix_of` rounds /\ budget <= t + costs l) /\ (used s = [] \/ complete (c_str (used s)) = false)
  | NoReason => False
  end.

Lemma because_cons budget t sent r rounds s why t1 :
  because budget t1 (sent ++ arrived r) rounds s why -> t1 <= t + cost r -> because budget t sent (r :: rounds) s why.
Proof.
  destruct why; cbn [because]; intros H Ht.
  - unfold arrivals in *. cbn [map concat]. by rewrite app_assoc.
  - destruct H as (x & H1 & H2). exists x. split; [by right|done].
  - destruct H as (x & H1 & H2). exists x. split; [by right|done].
  - destruct H as [(l & H1 & H2) H3]. split; [|done]. exists (r :: l). split; [by apply prefix_cons|]. unfold costs in *. cbn [fold_right]. lia.
  - done.
Qed.

Lemma because_more budget t sent r rounds s why : because budget t sent [r] s why -> because budget t sent (r :: rounds) s why.
Proof.
  destruct why; cbn [because].
  - unfold arrivals. cbn [map concat]. rewrite app_nil_r, !length_app. lia.
  - intros (x & Hx%list_elem_of_singleton & H). subst x. exists r. split; [by left|done].
  - intros (x & Hx%list_elem_of_singleton & H). subst x. exists r. split; [by left|done].
  - intros [(l & H1 & H2) H3]. split; [|done]. exists l. split; [|done]. etransitivity; [done|]. by exists rounds.
  - done.
Qed.

(** One round: it goes on with the invariant and more time used up, returns the
    bytes read, which are a whole text, or refuses and frees the buffer. *)
Lemma req_round_good budget r sent s :
  good sent s -> let '(o, s') := req_round budget r s in
  match o with
  | Reading => good (sent ++ arrived r) s' /\ elapsed s < budget /\ (elapsed s <= elapsed s' <= elapsed s + cost r) /\ (poll r <> PollIntr -> elapsed s < elapsed s')
  | Got b => b = used s' /\ b `prefix_of` sent ++ arrived r /\ b <> [] /\ complete (c_str b) = true /\ live s' = 1
  | Refused why => live s' = 0 /\ because budget (elapsed s) sent [r] s' why
  | NullWrite => False
  end.
Proof.
  intros G. unfold req_round. pose proof (grow_good (realloc_ok r) sent s G) as Hg. destruct (airy_req_grow (realloc_ok r) s) as [why|s1].
  { cbn. split; [rewrite (g_live _ _ G); lia|]. destruct Hg as [(-> & Hcap & Hlen)|[-> Hf]]; cbn [because]; [|exists r; split; [by left|done]]. rewrite <- (g_sent _ _ G), !length_app. lia. }
  destruct Hg as (G1 & Hroom & He & Hu). pose proof (recv_good r sent s1 G1 Hroom) as Hr. destruct (airy_req_recv r s1) as [why|s2] eqn:Er.
  { subst why. cbn. split; [rewrite (g_live _ _ G1); lia|]. exists r. split; [by left|]. left. unfold airy_req_recv in Er. by destruct (recv_fails r). }
  destruct Hr as (Hs & Hl & Hc & Hv & Ht). rewrite (g_live _ _ G1) in Hv. rewrite He in Ht. unfold airy_req_ready.
  destruct (negb (bool_decide (used s2 = [])) && complete (c_str (used s2))) eqn:Eb.
  { apply andb_true_iff in Eb as [Eb1%negb_true_iff%bool_decide_eq_false Eb2]. split_and!; try done. rewrite <- Hs. by apply prefix_app_r. }
  assert (used s2 = [] \/ complete (c_str (used s2)) = false) as Ho by (case_bool_decide; [by left|by right]).
  destruct (Z.leb_spec budget (elapsed s2)).
  { cbn. split_and!; [lia| |done]. exists []. split; [apply prefix_nil|]. cbn. lia. }
  assert (forall e, good (sent ++ arrived r) (State (used s2) (cap s2) (queue s2) e (live s2))) as G2 by (intros e; split; cbn; try done; rewrite Hc; apply G1).
  unfold airy_req_wait, cost. destruct (poll r) eqn:Ep; cbn [refuse elapsed live].
  - split; [lia|]. exists r. split; [by left|by right; left].
  - split_and!; [destruct s2; apply G2|lia|lia|lia|done].
  - unfold AIRY_DAEMON_REQ_SLICE_MS. split_and!; [apply G2|lia|..]; repeat case_match; try lia; intros _; lia.
  - split; [lia|]. exists r. split; [by left|by right; right].
  - split_and!; [apply G2|lia|lia|lia|]. intros _. lia.
Qed.

(** A round that uses up time: its wait was not ended by a signal. *)
Definition counts (r : round) : bool := match poll r with PollIntr => false | _ => true end.

(** The bytes of [rounds] arrive after those that were [sent]. *)
Lemma req_loop_good budget rounds sent s :
  good sent s -> let '(o, s') := req_loop budget rounds s in
  match o with
  | Reading => Z.of_nat (length (filter (fun r => counts r = true) rounds)) <= Z.max 0 (budget - elapsed s)
  | Got b => b `prefix_of` sent ++ arrivals rounds /\ b <> [] /\ complete (c_str b) = true /\ live s' = 1
  | Refused why => live s' = 0 /\ because budget (elapsed s) sent rounds s' why
  | NullWrite => False
  end.
Proof.
  revert sent s. induction rounds as [|r rounds IH]; intros sent s G; [cbn; lia|]. cbn [req_loop].
  pose proof (req_round_good budget r sent s G) as H. destruct (req_round budget r s) as [[|b|why|] s1].
  - destruct H as (G1 & H1 & H2 & H3). specialize (IH _ _ G1). destruct (req_loop budget rounds s1) as [[|b|why|] s2].
    + destruct (counts r) eqn:Ec; [rewrite filter_cons_True by done|rewrite filter_cons_False by congruence; lia]. cbn [length].
      assert (poll r <> PollIntr) as Hp by (unfold counts in Ec; by destruct (poll r)). specialize (H3 Hp). lia.
    + unfold arrivals in *. cbn [map concat]. by rewrite app_assoc.
    + destruct IH as [IH1 IH2]. split; [done|]. eapply because_cons; [done|lia].
    + done.
  - destruct H as (_ & H1 & H2 & H3 & H4). split_and!; try done. unfold arrivals. cbn [map concat]. rewrite app_assoc. by apply prefix_app_r.
  - destruct H as [H1 H2]. split; [done|]. by apply because_more.
  - done.
Qed.

End request.

Lemma prefix_nonzero (b r : list Z) : b `prefix_of` r -> (0 ∉ r) -> c_str b = b.
Proof. intros [k ->] H. apply c_str_whole, Forall_forall. intros c Hc ->. apply H, elem_of_app. by left. Qed.

Lemma good_start complete : good complete [] (State [] AIRY_DAEMON_REQ_INITIAL_CAP [] 0 1).
Proof. split; cbn; unfold AIRY_DAEMON_REQ_INITIAL_CAP, AIRY_DAEMON_REQ_MAX_CAP; try done; by left. Qed.

Lemma budget_positive env : 1000 <= airy_daemon_req_timeout_ms env.
Proof. unfold airy_daemon_req_timeout_ms, AIRY_DAEMON_REQ_FIRST_POLL_MS. destruct env as [[|c e]|]; [lia| |lia]. destruct ((1000 <=? _) && _) eqn:E; lia. Qed.

(** C31: A request without null bytes no proper prefix of which is a whole text,
    however its bytes arrive, read by a caller that asks for its length: the call
    returns before more rounds than its budget, not counting those that a
    signal ends, with the request as it was sent, or with nothing and the buffer
    freed.  A request that is too large fills the largest buffer; out of
    memory, a request for it was refused; a read error, [recv] or [poll] failed or
    the connection reported another event than bytes; a timeout, the first wait
    ended without bytes, by a failure too, or the request was not whole when the
    waits had used the budget by the call's own count. *)
Theorem request_exact complete fd env first malloc_ok rounds r :
  0 <= fd -> r <> [] -> (0 ∉ r) -> (forall p, p `prefix_of` r -> p <> [] -> complete p = bool_decide (p = r)) -> arrivals rounds `prefix_of` r ->
  let budget := airy_daemon_req_timeout_ms env in
  budget < Z.of_nat (length (filter (fun x => counts x = true) rounds)) ->
  let '(o, s) := airy_daemon_read_request complete fd true env first malloc_ok rounds in
  match o with
  | Got b => b = r /\ live s = 1 /\ first = PollIn
  | Refused why => live s = 0 /\ match why with
      | TooLarge => AIRY_DAEMON_REQ_MAX_CAP - 1 <= Z.of_nat (length r)
      | OutOfMemory => malloc_ok = false \/ exists x, x ∈ rounds /\ realloc_ok x = false
      | ReadError => exists x, x ∈ rounds /\ (recv_fails x = true \/ poll x = PollError \/ poll x = PollOther)
      | ReadTimeout => first <> PollIn \/ (exists l, l `prefix_of` rounds /\ budget <= costs l) /\ used s <> r
      | NoReason => False end
  | Reading | NullWrite => False
  end.
Proof.
  intros Hfd Hne H0 Hr Ha budget Hn. unfold airy_daemon_read_request. fold budget. rewrite (proj2 (Z.ltb_ge _ _) Hfd).
  destruct (airy_req_first first) eqn:Ef; cbn [negb]; [|split; [done|]; left; by intros ->]. assert (first = PollIn) as -> by (by destruct first).
  destruct malloc_ok; cbn [negb]; [|split; [done|by left]]. pose proof (budget_positive env) as Hb. fold budget in Hb.
  pose proof (req_loop_good complete budget rounds [] _ (good_start complete)) as H.
  destruct (req_loop complete budget rounds _) as [[|b|why|] s]; cbn [elapsed app] in H; [lia| | |done].
  - destruct H as (H1 & H2 & H3 & H4). split_and!; [|done|done]. assert (b `prefix_of` r) as Hp by (by etransitivity). rewrite (prefix_nonzero b r), Hr in H3 by done. by apply bool_decide_eq_true in H3.
  - destruct H as [H1 H2]. split; [done|]. destruct why; cbn [because] in H2; cbn [app] in H2; try done.
    + apply prefix_length in Ha. lia.
    + by right.
    + destruct H2 as [H2 H3]. right. split; [done|]. intros Hu. rewrite Hu in H3. destruct H3 as [H3|H3]; [done|]. rewrite (prefix_nonzero r r), Hr, bool_decide_eq_true_2 in H3 by done. done.
Qed.

(** A text that the examples use: one pair of braces. *)
Definition braces (s : list Z) : bool := bool_decide (head s = Some 123 /\ last s = Some 125).

Lemma request_exact_witness :
  let '(o, s) := airy_daemon_read_request braces 3 true None PollIn true (Round [123; 49] 9 false true PollIn :: Round [125] 9 false true PollIn :: repeat (Round [] 9 false true PollIn) (Z.to_nat 5001)) in
  o = Got [123; 49; 125] /\ live s = 1.
Proof.
  epose proof (request_exact braces 3 None PollIn true (Round [123; 49] 9 false true PollIn :: Round [125] 9 false true PollIn :: repeat (Round [] 9 false true PollIn) (Z.to_nat 5001)) [123; 49; 125] ltac:(lia) ltac:(done) _ _ _ _) as H.
  destruct (airy_daemon_read_request _ _ _ _ _ _ _) as [o s] eqn:E. vm_compute in E. injection E as <- <-. by destruct H as (_ & ? & _).
  Unshelve.
  - apply (bool_decide_unpack _). vm_compute. exact I.
  - intros p [k Hk] Hp. destruct p as [|a [|b [|c p]]]; [done|..].
    + injection Hk as <- _. reflexivity.
    + injection Hk as <- <- _. reflexivity.
    + injection Hk as <- <- <- Hk. symmetry in Hk. apply app_nil in Hk as [-> _]. reflexivity.
  - vm_compute. by exists [].
  - apply Z.ltb_lt. vm_compute. reflexivity.
Defined.

(** A first wait that fails, or that a signal ends, is reported as a timeout. *)
Lemma failed_wait_is_timeout complete fd out_len env malloc_ok rounds :
  0 <= fd -> (airy_daemon_read_request complete fd out_len env PollError malloc_ok rounds).1 = Refused ReadTimeout /\
  (airy_daemon_read_request complete fd out_len env PollIntr malloc_ok rounds).1 = Refused ReadTimeout.
Proof. intros H. unfold airy_daemon_read_request. by rewrite (proj2 (Z.ltb_ge _ _) H). Qed.

(** A request that arrives at once and fits the first buffer is returned by the
    first round. *)
Lemma request_at_once complete fd env r n ok p rest :
  0 <= fd -> r <> [] -> (0 ∉ r) -> complete r = true -> (length r <= n)%nat -> Z.of_nat (length r) < AIRY_DAEMON_REQ_INITIAL_CAP - 1 ->
  (airy_daemon_read_request complete fd true env PollIn true (Round r n false ok p :: rest)).1 = Got r.
Proof.
  intros Hfd Hne H0 Hc Hn Hl. unfold airy_daemon_read_request. rewrite (proj2 (Z.ltb_ge _ _) Hfd). cbn [airy_req_first negb req_loop]. unfold req_round, airy_req_grow. cbn [used cap length realloc_ok].
  change (Z.of_nat 0 <? AIRY_DAEMON_REQ_INITIAL_CAP - 1) with true. cbn iota. unfold airy_req_recv. cbn [recv_fails queue used arrived give cap length app elapsed live].
  rewrite take_ge by (unfold AIRY_DAEMON_REQ_INITIAL_CAP in *; lia). rewrite bool_decide_eq_false_2 by done. unfold airy_req_ready.
  rewrite (prefix_nonzero r r) by done. by rewrite Hc.
Qed.

(** The peer has closed before the request is whole: [recv] gives nothing and
    [poll] reports that there is something to read, so that the call goes round
    without sleeping until its budget of milliseconds is counted up. *)
Lemma closed_peer_spins complete budget n k s :
  queue s = [] -> Z.of_nat (length (used s)) < cap s - 1 -> complete (c_str (used s)) = false -> elapsed s + Z.of_nat k <= budget ->
  (req_loop complete budget (repeat (Round [] n false true PollIn) k) s).1 = Reading.
Proof.
  revert s. induction k as [|k IH]; intros s Hq Hu Hc He; [done|]. cbn [repeat req_loop]. unfold req_round, airy_req_grow, airy_req_recv. cbn [realloc_ok].
  rewrite (proj2 (Z.ltb_lt _ _) Hu). cbn [recv_fails arrived used queue elapsed poll]. rewrite Hq. cbn [app]. rewrite take_nil, drop_nil, app_nil_r. unfold airy_req_ready. rewrite Hc, andb_false_r.
  rewrite (proj2 (Z.leb_gt _ _)) by lia. cbn [airy_req_wait]. apply IH; cbn; try done. lia.
Qed.

(** Each piece of a request counts as a millisecond: one that arrives in more
    pieces than the budget has milliseconds is refused, however fast it comes. *)
Lemma many_pieces_refused complete fd env rounds r :
  0 <= fd -> (forall p, p `prefix_of` r -> p <> r -> p <> [] -> complete p = false) -> (0 ∉ r) -> arrivals rounds `prefix_of` r -> arrivals rounds <> r ->
  airy_daemon_req_timeout_ms env < Z.of_nat (length (filter (fun x => counts x = true) rounds)) ->
  exists why, (airy_daemon_read_request complete fd true env PollIn true rounds).1 = Refused why.
Proof.
  intros Hfd Hr H0 Ha Hne Hn. unfold airy_daemon_read_request. rewrite (proj2 (Z.ltb_ge _ _) Hfd). cbn [airy_req_first negb]. pose proof (budget_positive env) as Hb.
  pose proof (req_loop_good complete (airy_daemon_req_timeout_ms env) rounds [] _ (good_start complete)) as H.
  destruct (req_loop complete _ rounds _) as [[|b|why|] s]; cbn [elapsed app fst] in *; [lia| |by exists why|done].
  destruct H as (H1 & H2 & H3 & _). assert (b `prefix_of` r) as Hp by (by etransitivity). rewrite (prefix_nonzero b r) in H3 by done.
  rewrite (Hr b Hp) in H3; [done| |done]. intros ->. apply Hne. by apply (anti_symm prefix).
Qed.

(** The length is stored without the test that the beginning makes: a caller
    that does not ask for it is not served. *)
Lemma null_length_written complete fd env r n ok p rest :
  0 <= fd -> r <> [] -> (0 ∉ r) -> complete r = true -> (length r <= n)%nat -> Z.of_nat (length r) < AIRY_DAEMON_REQ_INITIAL_CAP - 1 ->
  (airy_daemon_read_request complete fd false env PollIn true (Round r n false ok p :: rest)).1 = NullWrite.
Proof.
  intros Hfd Hne H0 Hc Hn Hl. pose proof (request_at_once complete fd env r n ok p rest Hfd Hne H0 Hc Hn Hl) as H. unfold airy_daemon_read_request in *.
  destruct (fd <? 0); [done|]. cbn [airy_req_first negb] in *. by destruct (req_loop _ _ _ _) as [[| | |] s].
Qed.
